(* ===== verification/_CoqProject ===== *)
-Q . S2P
Prelude.v
Bytes.v
F64.v
F64Mono.v
F64Sum.v
F64Order.v
F64Round.v
Ast.v
Lexer.v
Parser.v
Grammar.v
ParserSpec.v
Analyze.v
AnalyzeSpec.v
Hash.v
HashSpec.v
Config.v
Targeting.v
Switchback.v
Rng.v
Assignment.v
AssignmentSpec.v
StateMachine.v
Lifecycle.v
BucketReuse.v
FilterSql.v
FilterSqlSpec.v
ConfigCache.v
ConfigCacheSpec.v
Interleaving.v
InterleavingSpec.v
Interleave.v
MetricStore.v
Cycle.v
MetricDefinition.v
Validation.v
Dedup.v
Buffer.v
Pipeline.v
PipelineSpec.v
Sessionizer.v
SessionizerSpec.v
Flags.v
FlagsSpec.v
Experiments.v
ExperimentsSpec.v
Bandit.v
Snapshots.v
PolicyCore.v
PolicyCoreSpec.v
PolicyRecovery.v
PolicyService.v
SqlAst.v
Classifier.v
Tier1.v
Tier2.v
Migration.v
MigrationSpec.v
Tier1Spec.v
Tier2Spec.v
AggregationSpec.v
Json.v
MetricCatalogue.v
MetricCatalogueSpec.v
Migrator.v
MigratorSpec.v
ConfigStream.v
ExperimentRpc.v
MultipleComparison.v
Portfolio.v
PortfolioSpec.v
PortfolioService.v
MetricqlRpc.v
DeltaReader.v
Slate.v
Constraints.v
Mad.v
SwitchbackAnalysis.v
Inference.v
AdaptiveAnalysis.v
