(* ===== verification/Prelude.v ===== *)
(** * Kaizen experimentation platform: verification library

    The platform runs online experiments. Its Rust crates under [src/crates] are services that
    exchange messages and share a PostgreSQL database: the management service (M5) keeps
    experiments, metrics, bucket allocations and flags; the assignment service (M1) tells a
    client which variant a user gets; the ingestion pipeline (M2) takes events; the analysis
    service (M4a) reads metric tables and tests them; the policy service (M4b) runs bandits.
    This library translates their logic into Rocq definitions, file by file, and proves what
    makes them correct. Paths below are relative to [src/crates/experimentation-*].

    ** Conventions

    A Rust [String] is the list of its bytes ([Bytes]); an integer is a [Z] with its wrap-around
    or saturation written out; an [f64] is a [spec_float] with IEEE rounding ([F64]), and the
    four F64 files behind it prove what the bounds need: order, monotone rounding, sums, when
    results stay normal. [result] has the source's [Ok] and [Err], [Panics] for a panic (the
    release profile aborts: a panic ends the process) and [OutOfFuel], an outcome of the model
    only. Error texts are constructors that carry the values the text prints. A [HashMap] is a
    [gmap]; where the code walks over one, the order of the walk is an argument and the
    theorems quantify over it. Statements of a database transaction act on one snapshot;
    where handlers interleave, each statement is a step of a relation and a failure may happen
    before or after it took effect.

    Code outside [src] is a parameter with what its documentation says as laws: the generators
    of [rand] ([Rng]), [rand_distr] and [nalgebra] ([Bandit]), [serde_json] ([Json]), [bincode],
    the SQL parser of the migration ([SqlAst] holds the trees as far as they are read),
    [bloomfilter] ([Dedup]), chrono's [from_timestamp] ([Validation]), the distributions of
    [statrs], the functions [exp], [ln], [powf], [powi], [log2] of the platform, RocksDB as an
    ordered map whose operations may fail ([Snapshots]), Kafka as a log with offsets
    ([PolicyCore]) or a list of accepted events ([Pipeline]), and the metrics service M3 as a
    script of answers ([Migrator]). A property that uses
    such laws has a witness that applies it to an instance of them.

    ** The files

    This file: text, [result] and its monad, the tactics and hints on it, lists, sorting with a
    boolean order, the wrap-around of 32-bit integers. [Bytes]: strings and keyset paging.
    [F64], [F64Mono], [F64Sum], [F64Order], [F64Round]: doubles.

    MetricQL (management/src/validators/metricql): [Ast], [Lexer], [Parser], [Analyze] are the
    files of the same names; [Grammar] is the documented grammar as relations; [ParserSpec]
    proves that parsing and the grammar agree, [AnalyzeSpec] what is accepted and reported.

    Assignment (assignment/src, hash/src, interleaving/src): [Hash] with [HashSpec] (MurmurHash3
    and buckets), [Config], [Targeting], [Switchback], [Assignment] with [AssignmentSpec]
    (service.rs: who is enrolled and what is served; batches with holdouts; fallbacks),
    [Interleaving] with [InterleavingSpec], [Interleave] (the RPC), [ConfigCache] with
    [ConfigCacheSpec] (config_cache.rs).

    Management (management/src): [StateMachine] (states and conditional updates), [Lifecycle]
    (start, conclude, archive, pause, resume and the guardrail consumer as interleaved threads),
    [BucketReuse], [FilterSql] with [FilterSqlSpec], [MetricStore], [Cycle], [MetricDefinition]
    (metric rows, the reference graph and the validators), [Experiments] with [ExperimentsSpec]
    (creation and the STARTING gate), [ExperimentRpc], [MetricqlRpc], [Portfolio] with
    [PortfolioSpec] and [PortfolioService], and [ConfigStream], which composes the handlers of
    [Lifecycle] with the stream to M1's [ConfigCache].

    Metric migration (management/src/migration, bin/custom_migrator.rs): [SqlAst], [Classifier],
    [Tier1], [Tier2], [Migration], [MigrationSpec]; [Tier1Spec], [Tier2Spec], [AggregationSpec]
    prove that translations keep values; [Json], [MetricCatalogue] with its Spec (the rows and
    the migrate RPC), [Migrator] with [MigratorSpec] (the command line, end to end).

    Ingestion (ingest/src, pipeline/src): [Validation], [Dedup], [Buffer], [Pipeline] with
    [PipelineSpec], [Sessionizer] with [SessionizerSpec].

    Flags (flags/src): [Flags] with [FlagsSpec].

    Bandits (bandit/src, policy/src): [Bandit] (rewards, Thompson sampling, LinUCB, cold
    start), [Slate], [Constraints], [Mad]; [Snapshots], [PolicyCore] with [PolicyCoreSpec],
    [PolicyRecovery] and [PolicyService] (the core, its consumer and its store together).

    Analysis (stats/src, analysis/src): [DeltaReader] (the table readers),
    [MultipleComparison], [SwitchbackAnalysis], [Inference] (e-values, sample ratio, Welch's
    test, CUPED, equivalence), [AdaptiveAnalysis] (adaptive sample size, subgroups, weighting,
    clustering, with the handlers' steps over them).

    ** What the theorems show

    The properties are marked [C1], [C2], ... in their doc comments. They say, by group:
    parsers and validators accept exactly a declarative language and always return
    (MetricQL, [FilterSql], the reference graph); optimised routines equal a reference
    (MurmurHash3, Benjamini-Hochberg, the randomization test, the portfolio optimizer);
    translations keep values (tier 1, tier 2) and definitions survive storage and files;
    state machines keep their invariants in every interleaving and under every failure
    ([Lifecycle], [BucketReuse], [MetricCatalogueSpec], [FlagsSpec], [ConfigStream]);
    nothing is lost across crashes (the disk buffer, the policy core) nor served after
    revocation ([ConfigCacheSpec]); arithmetic stays in its bounds, rounding included
    (rollouts, variant partitions, portfolio shares, bandit posteriors, constrained
    probabilities, equivalence margins). Where the code does not do what it or its
    documentation says, a lemma shows the case; these lemmas stand at the end of their files
    or beside the theorem they limit.

    ** Fuel

    A loop that is not structural takes fuel, and a theorem says that what its callers pass is
    enough: [Parser.fuel_for] is eight per token and eight more, since every production
    consumes a token or descends a bounded number of levels; the tokenizers and the filter
    scanner take the length of the text, one byte per round at least; the depth-first walk of
    [Cycle] is bounded by the nodes and edges still unvisited; [Migrator.poll_fuel] is the
    number of intervals of the budget and two, as each poll sleeps one interval; a listing's
    fuel is its rows and one, as each page but the last moves on; the enumeration of
    assignments takes the number of blocks and two. Loops with a constant bound in the source
    (bisections, dual ascent, retries) keep that bound.

    ** What is not modelled

    The numerical modules that are one formula after another on [f64] without a decision of
    their own (bootstrap, Bayesian, off-policy and panel estimators, anytime-valid regression,
    group-sequential quadrature), where rounding leaves no theorem to state; the neural bandit
    (behind the [gpu] feature, a network of the candle library); transport, telemetry,
    protobuf decoding, generated code; SQL statements without decisions; the Go services, the
    SDKs and the user interface. Instants have no leap-second representation; [serde_json]
    keeps numbers up to rounding; a sum of doubles starts at zero, so an empty sum's sign of
    zero is not kept; [powi(2)] is a product; the configuration stream is modelled with one
    client. *)

From Stdlib Require Import Ascii String.
From stdpp Require Export base list sorting strings gmap.
From Stdlib Require Export ZArith Lia ZifyBool ZifyN ZifyNat.

(** ** Text

    A Rust [String]/[&str] is a byte string; the lexers of the program index it
    by byte, so the model is the list of its bytes. *)

Abbreviation str := (list ascii).

Definition lit (s : string) : str := list_ascii_of_string s.
Coercion lit : string >-> list.
#[global] Arguments lit : simpl never.

(** ** Fallible code

    [Ok]/[Err] are Rust's [Result]; [Panics] is an unwinding panic (an index out
    of range, a slice that splits a character, an [assert!], an [expect]); and
    [OutOfFuel] is the model's own outcome for a loop that was given too little
    fuel, which the theorems show never happens. *)

Inductive result (E A : Type) : Type :=
| Ok (a : A)
| Err (e : E)
| Panics
| OutOfFuel.
Arguments Ok {E A} a.
Arguments Err {E A} e.
Arguments Panics {E A}.
Arguments OutOfFuel {E A}.

#[export] Instance result_ret E : MRet (result E) := λ A a, Ok a.
#[export] Instance result_bind E : MBind (result E) := λ A B f m,
  match m with
  | Ok a => f a
  | Err e => Err e
  | Panics => Panics
  | OutOfFuel => OutOfFuel
  end.

(** [Result::map_err]. *)
Definition map_err {E F A} (f : E → F) (m : result E A) : result F A :=
  match m with
  | Ok a => Ok a
  | Err e => Err (f e)
  | Panics => Panics
  | OutOfFuel => OutOfFuel
  end.

#[export] Instance result_fmap E : FMap (result E) := λ A B f m, x ← m; mret (f x).

(** The early return [if cond { return Err(e) }]. *)
Definition reject_if {E} (cond : bool) (e : E) : result E unit :=
  if cond then Err e else Ok tt.

(** The run reaches a value or an error, not a panic. *)
Definition returns {E A} (m : result E A) : Prop :=
  match m with Ok _ | Err _ => True | Panics | OutOfFuel => False end.

Definition is_ok {E A} (m : result E A) : bool :=
  match m with Ok _ => true | _ => false end.

#[export] Instance returns_dec {E A} (m : result E A) : Decision (returns m).
Proof. destruct m; simpl; apply _. Defined.

Lemma bind_ok_inv {E A B} (m : result E A) (f : A → result E B) b :
  m ≫= f = Ok b → ∃ a, m = Ok a ∧ f a = Ok b.
Proof. destruct m; simpl; naive_solver. Qed.

Lemma bind_err_inv {E A B} (m : result E A) (f : A → result E B) e :
  m ≫= f = Err e → m = Err e ∨ ∃ a, m = Ok a ∧ f a = Err e.
Proof. destruct m; simpl; naive_solver. Qed.

Lemma bind_returns {E A B} (m : result E A) (f : A → result E B) :
  returns m → (∀ a, m = Ok a → returns (f a)) → returns (m ≫= f).
Proof. destruct m; simpl; naive_solver. Qed.

Lemma reject_if_ok {E} c (e : E) u : reject_if c e = Ok u ↔ c = false.
Proof. destruct c, u; simpl; naive_solver. Qed.

Lemma reject_bind {E A} (b : bool) (e : E) (f : unit → result E A) :
  (reject_if b e ≫= f) = if b then Err e else f tt.
Proof. by destruct b. Qed.

Lemma reject_if_returns {E} b (e : E) : returns (reject_if b e).
Proof. by destruct b. Qed.

Lemma map_err_ok {E F A} (f : E → F) (r : result E A) a : map_err f r = Ok a ↔ r = Ok a.
Proof. destruct r; simpl; naive_solver. Qed.

Lemma map_err_returns {E F A} (f : E → F) (r : result E A) : returns r → returns (map_err f r).
Proof. by destruct r. Qed.

Lemma fmap_ok_inv {E A B} (f : A → B) (m : result E A) b : f <$> m = Ok b → ∃ a, m = Ok a ∧ b = f a.
Proof. destruct m; intros H; try discriminate H. injection H as <-. by eexists. Qed.

Lemma fmap_returns {E A B} (f : A → B) (m : result E A) : returns m → returns (f <$> m).
Proof. by destruct m. Qed.

Lemma ok_returns {E A} (a : A) : returns (E:=E) (Ok a).
Proof. done. Qed.

Lemma err_returns {E A} (e : E) : returns (A:=A) (Err e).
Proof. done. Qed.

(** A [do]-block returns when each of its statements does. *)
Create HintDb returns.
#[export] Hint Resolve bind_returns reject_if_returns map_err_returns fmap_returns ok_returns err_returns : returns.

(** Rejections are decided by their condition. *)
#[export] Hint Rewrite @reject_bind : result.

Lemma reject_if_err {E} c (e e' : E) : reject_if c e = Err e' ↔ c = true ∧ e = e'.
Proof. destruct c; simpl; naive_solver. Qed.

(** Invert a successful [do]-block, one statement at a time. *)
Ltac ok_step :=
  match goal with
  | H : mbind _ _ = Ok _ |- _ =>
      let E := fresh "E" in apply bind_ok_inv in H as (? & E & H)
  | H : reject_if _ _ = Ok _ |- _ => apply reject_if_ok in H
  | H : mret _ = Ok _ |- _ => progress (cbn in H)
  | H : Err _ = Ok _ |- _ => discriminate H
  | H : Panics = Ok _ |- _ => discriminate H
  | H : OutOfFuel = Ok _ |- _ => discriminate H
  end.
Ltac ok_inv := repeat (ok_step; simplify_eq/=).

(** ** Machine integers *)

Definition u32_max : Z := 2 ^ 32 - 1.
Definition i32_max : Z := 2 ^ 31 - 1.
Definition i64_max : Z := 2 ^ 63 - 1.
Definition u32_wrap (x : Z) : Z := x mod 2 ^ 32.

Lemma u32_wrap_range x : (0 ≤ u32_wrap x < 2 ^ 32)%Z.
Proof. apply Z.mod_pos_bound. lia. Qed.

(** ** Lists read through an index *)

Section list_index.
Context {A : Type}.
Implicit Types (l k : list A) (i : nat).

Lemma lookup_drop_0 l i : drop i l !! 0 = l !! i.
Proof. rewrite lookup_drop. f_equal. lia. Qed.

Lemma drop_cons_lookup l i x k : drop i l = x :: k → l !! i = Some x.
Proof. intros H. by rewrite <- lookup_drop_0, H. Qed.

Lemma drop_cons_S l i x k : drop i l = x :: k → drop (S i) l = k.
Proof.
  intros H. rewrite <- Nat.add_1_r, <- drop_drop, H. reflexivity.
Qed.

Lemma drop_app_add l i k k' : drop i l = k ++ k' → drop (i + length k) l = k'.
Proof.
  intros H. rewrite <- drop_drop, H, drop_app_length. reflexivity.
Qed.

Lemma drop_lookup_cons l i x : l !! i = Some x → drop i l = x :: drop (S i) l.
Proof. intros H. by apply drop_S. Qed.

Lemma drop_nil_ge l i : drop i l = [] ↔ length l ≤ i.
Proof.
  split; [|apply drop_ge].
  intros H. apply (f_equal length) in H. rewrite length_drop in H. simpl in H. lia.
Qed.
End list_index.

(** ** Numbered lists *)

Section numbered.
Context {A : Type} (key : A → Z).

Lemma numbered_lookup i l k x :
  key <$> l = Z.of_nat <$> seq i (length l) → l !! k = Some x → key x = Z.of_nat (i + k).
Proof.
  intros Ho Hk. assert ((key <$> l) !! k = Some (key x)) as H by by rewrite list_lookup_fmap, Hk.
  rewrite Ho, list_lookup_fmap, lookup_seq_lt in H by by eapply lookup_lt_Some. by injection H.
Qed.

(** A list numbered in order is what sorting by the number returns. *)
Lemma merge_sort_numbered (R : relation A) `{∀ x y, Decision (R x y)} i l :
  (∀ x y, R x y ↔ (key x ≤ key y)%Z) → key <$> l = Z.of_nat <$> seq i (length l) → merge_sort R l = l.
Proof.
  intros HR Ho.
  assert (∀ x y, x ∈ l → y ∈ l → R x y → R y x → x = y) as Hinj.
  { intros x y [j Hj]%list_elem_of_lookup [k Hk]%list_elem_of_lookup Hxy%HR Hyx%HR.
    pose proof (numbered_lookup i l j x Ho Hj). pose proof (numbered_lookup i l k y Ho Hk).
    assert (j = k) as -> by lia. congruence. }
  assert (StronglySorted R l) as Hs.
  { clear Hinj. revert i Ho. induction l as [|x l IH]; intros i Ho; [constructor|]. cbn [length seq] in Ho.
    rewrite !fmap_cons in Ho. injection Ho as Hx Hl. constructor; [by eapply IH|].
    apply Forall_forall. intros y [k Hk]%list_elem_of_lookup. apply HR.
    rewrite (numbered_lookup (S i) l k y) by done. lia. }
  pose proof (merge_sort_Permutation R l) as Hp.
  apply (StronglySorted_unique_strong R); [|apply StronglySorted_merge_sort|exact Hs|exact Hp].
  - intros x y Hx Hy. apply Hinj; [by rewrite <- Hp|done].
  - intros x y z Hxy%HR Hyz%HR. apply HR. lia.
  - intros x y. destruct (Z.le_ge_cases (key x) (key y)); [left|right]; apply HR; lia.
Qed.
End numbered.

(** ** Sorted lists *)

Lemma sorted_filter {A} (R : relation A) (P : A → Prop) `{∀ x, Decision (P x)} l :
  StronglySorted R l → StronglySorted R (filter P l).
Proof.
  induction 1 as [|x l Hs IH Hx]; [constructor|]. rewrite filter_cons. case_decide; [|done].
  constructor; [done|]. apply Forall_forall. intros y [_ Hy]%list_elem_of_filter. rewrite Forall_forall in Hx. by apply Hx.
Qed.

Lemma sorted_reverse {A} (R : relation A) l : StronglySorted R l → StronglySorted (flip R) (reverse l).
Proof.
  induction 1 as [|x l Hs IH Hx]; [constructor|]. rewrite reverse_cons. apply StronglySorted_app.
  split_and!; [|done|repeat constructor]. intros y z Hy Hz.
  apply list_elem_of_singleton in Hz as ->. apply elem_of_reverse in Hy. rewrite reverse_involutive in Hy. rewrite Forall_forall in Hx. exact (Hx y Hy).
Qed.

Lemma omap_reverse {A B} (f : A → option B) l : omap f (reverse l) = reverse (omap f l).
Proof.
  induction l as [|x l IH]; [done|]. rewrite reverse_cons, omap_app, IH. cbn [omap list_omap].
  destruct (f x); [by rewrite reverse_cons|by rewrite app_nil_r].
Qed.

(** ** [i32] arithmetic of a release build, which wraps around *)

Definition i32_wrap (x : Z) : Z := ((x + 2 ^ 31) mod 2 ^ 32 - 2 ^ 31)%Z.
Definition len_i32 {A} (l : list A) : Z := i32_wrap (Z.of_nat (length l)).

Lemma i32_wrap_small x : (- 2 ^ 31 ≤ x < 2 ^ 31)%Z → i32_wrap x = x.
Proof. intros Hx. unfold i32_wrap. rewrite Z.mod_small by lia. lia. Qed.

Lemma i32_wrap_range x : (- 2 ^ 31 ≤ i32_wrap x < 2 ^ 31)%Z.
Proof. unfold i32_wrap. pose proof (Z.mod_pos_bound (x + 2 ^ 31) (2 ^ 32)). lia. Qed.

Lemma i32_wrap_plus x y : i32_wrap (i32_wrap x + y) = i32_wrap (x + y).
Proof.
  unfold i32_wrap. replace ((x + 2 ^ 31) mod 2 ^ 32 - 2 ^ 31 + y + 2 ^ 31)%Z with ((x + 2 ^ 31) mod 2 ^ 32 + y)%Z by lia.
  rewrite Zplus_mod_idemp_l. do 2 f_equal. lia.
Qed.

(** ** Rust's stable sort by a comparison *)

(** [slice::sort_by], which is stable. *)
Fixpoint insert_by {A} (before : A → A → bool) (x : A) (l : list A) : list A :=
  match l with
  | [] => [x]
  | y :: l => if before x y then x :: y :: l else y :: insert_by before x l
  end.

Definition sort_by {A} (before : A → A → bool) (l : list A) : list A := fold_right (insert_by before) [] l.

(** Its output is a permutation, sorted when the comparison is total on the elements. *)

Section sort.
Context {A : Type} (before : A → A → bool).

Lemma insert_by_perm x l : insert_by before x l ≡ₚ x :: l.
Proof. induction l as [|y l IH]; [done|]. cbn. destruct (before x y); [done|]. rewrite IH. apply Permutation_swap. Qed.

Lemma sort_by_perm l : sort_by before l ≡ₚ l.
Proof. induction l as [|x l IH]; [done|]. cbn. by rewrite insert_by_perm, IH. Qed.

Context (P : A → Prop) (total : ∀ x y, P x → P y → before x y = true ∨ before y x = true).
Context (trans : ∀ x y z, before x y = true → before y z = true → before x z = true).

Lemma insert_by_sorted x l : P x → Forall P l → StronglySorted (λ a b, before a b = true) l →
  StronglySorted (λ a b, before a b = true) (insert_by before x l).
Proof.
  intros Hx Hl. induction 1 as [|y l Hs IH Hy]; cbn; [by repeat constructor|]. apply Forall_cons in Hl as [Hpy Hl].
  destruct (before x y) eqn:E.
  - constructor; [by constructor|]. constructor; [done|]. eapply Forall_impl; [exact Hy|]. intros z. by apply trans.
  - constructor; [by apply IH|]. rewrite insert_by_perm. constructor; [|done]. by destruct (total x y) as [Ht|]; [..|rewrite E in Ht|].
Qed.

Lemma sort_by_sorted l : Forall P l → StronglySorted (λ a b, before a b = true) (sort_by before l).
Proof.
  induction 1 as [|x l Hx Hl IH]; cbn; [constructor|]. apply insert_by_sorted; [done| |done].
  change (Forall P (sort_by before l)). by rewrite sort_by_perm.
Qed.
End sort.

Lemma sorted_lookup_lt {A} (R : A → A → Prop) l i j x y : StronglySorted R l → l !! i = Some x → l !! j = Some y → i < j → R x y.
Proof.
  intros Hs Hi Hj Hlt. rewrite <- (take_drop_middle l j y Hj) in Hs. eapply StronglySorted_app_1_elem_of; [exact Hs| |by left].
  apply list_elem_of_lookup. exists i. by rewrite lookup_take_lt.
Qed.

Lemma strongly_sorted_impl {A} (R R' : A → A → Prop) l : (∀ x y, R x y → R' x y) → StronglySorted R l → StronglySorted R' l.
Proof. intros HR. induction 1 as [|x l Hs IH Hx]; constructor; [done|]. eapply Forall_impl; [exact Hx|]. apply HR. Qed.
