(* ===== verification/Bytes.v ===== *)
(** Byte classes, UTF-8 and the string operations of Rust's standard library
    that the program uses: [as_bytes], [chars], slicing (with its panic when an
    end is not a character boundary), [trim], [contains], ASCII case mapping and
    the byte-wise ordering behind [Vec<String>::sort]. At the end, keyset pagination: pages of
    rows in the order of a key, each continued after the last key of the one before, with a
    codec of integer keys. *)
From Stdlib Require Import Ascii String.
From S2P Require Import Prelude.

(** ** Byte classes *)

Definition code (c : ascii) : N := N_of_ascii c.

Definition in_range (lo hi : N) (c : ascii) : bool :=
  (lo <=? code c)%N && (code c <=? hi)%N.

Definition is_ascii (c : ascii) : bool := (code c <? 128)%N.
Definition is_ascii_digit : ascii → bool := in_range 48 57.
Definition is_ascii_lowercase : ascii → bool := in_range 97 122.
Definition is_ascii_uppercase : ascii → bool := in_range 65 90.
Definition is_ascii_alphabetic (c : ascii) : bool :=
  is_ascii_lowercase c || is_ascii_uppercase c.
Definition is_ascii_alphanumeric (c : ascii) : bool :=
  is_ascii_alphabetic c || is_ascii_digit c.
Definition is_byte (d : ascii) (c : ascii) : bool := Ascii.eqb c d.

(** [u8::to_ascii_uppercase]. *)
Definition to_upper (c : ascii) : ascii :=
  if is_ascii_lowercase c then ascii_of_N (code c - 32) else c.
Definition to_ascii_uppercase (s : str) : str := to_upper <$> s.
Definition byte_eq_ignore_case (a b : ascii) : bool :=
  Ascii.eqb (to_upper a) (to_upper b).

(** A fact about one byte is checked on all 256 of them. *)
Ltac byte_cases c := destruct c as [[] [] [] [] [] [] [] []].
Ltac byte_dec c := byte_cases c; vm_compute; intuition congruence.

Lemma is_byte_spec d c : is_byte d c = true ↔ c = d.
Proof. unfold is_byte. by rewrite Ascii.eqb_eq. Qed.

Lemma is_byte_refl c : is_byte c c = true.
Proof. by apply is_byte_spec. Qed.

Lemma is_byte_false d c : is_byte d c = false ↔ c ≠ d.
Proof. rewrite <- is_byte_spec. destruct (is_byte d c); naive_solver. Qed.

(** ** Scanning loops

    [while pos < len && p(bytes[pos]) { pos += 1 }] advances by the length of
    the longest prefix of the remaining input whose bytes satisfy [p]. *)

Fixpoint prefix_len (p : ascii → bool) (s : str) : nat :=
  match s with
  | c :: s' => if p c then S (prefix_len p s') else 0
  | [] => 0
  end.

Definition scan_while (p : ascii → bool) (s : str) (pos : nat) : nat :=
  pos + prefix_len p (drop pos s).

Lemma prefix_len_le p s : prefix_len p s ≤ length s.
Proof. induction s as [|c s IH]; simpl; [lia|]. destruct (p c); lia. Qed.

Lemma prefix_len_take p s : forallb p (take (prefix_len p s) s) = true.
Proof.
  induction s as [|c s IH]; [done|]. simpl.
  destruct (p c) eqn:E; simpl; [by rewrite E|done].
Qed.

Lemma prefix_len_stop p s c : s !! prefix_len p s = Some c → p c = false.
Proof.
  induction s as [|d s IH]; simpl; [done|].
  destruct (p d) eqn:E; simpl; [done|]. by intros [= <-].
Qed.

Lemma prefix_len_app p s t :
  forallb p s = true → prefix_len p (s ++ t) = length s + prefix_len p t.
Proof.
  induction s as [|c s IH]; simpl; [done|].
  intros [-> ?]%andb_true_iff. by rewrite IH.
Qed.

Lemma prefix_len_stop_cons p c t : p c = false → prefix_len p (c :: t) = 0.
Proof. simpl. by intros ->. Qed.

Lemma scan_while_ge p s i : i ≤ scan_while p s i.
Proof. unfold scan_while. lia. Qed.

Lemma scan_while_le p s i : i ≤ length s → scan_while p s i ≤ length s.
Proof.
  intros ?. unfold scan_while. pose proof (prefix_len_le p (drop i s)).
  rewrite length_drop in *. lia.
Qed.

(** ** Prefixes and substrings *)

Fixpoint starts_with (pat s : str) : bool :=
  match pat, s with
  | [], _ => true
  | p :: pat', c :: s' => Ascii.eqb p c && starts_with pat' s'
  | _ :: _, [] => false
  end.

(** [str::contains(&str)]. *)
Fixpoint contains (s pat : str) : bool :=
  starts_with pat s || match s with [] => false | _ :: s' => contains s' pat end.

Lemma starts_with_spec pat s : starts_with pat s = true ↔ ∃ t, s = pat ++ t.
Proof.
  revert s. induction pat as [|p pat IH]; intros [|c s]; simpl;
    [naive_solver..| |].
  - split; [done|naive_solver].
  - rewrite andb_true_iff, IH, Ascii.eqb_eq. naive_solver.
Qed.

Lemma contains_spec s pat : contains s pat = true ↔ ∃ u t, s = u ++ pat ++ t.
Proof.
  induction s as [|c s IH]; cbn [contains]; rewrite orb_true_iff, starts_with_spec.
  - split; [intros [[t H]|]; [by exists [], t|done]|].
    intros (u & t & H). left. exists t. destruct u; [done|discriminate].
  - rewrite IH. split.
    + intros [[t ->]|(u & t & ->)]; [by exists [], t|by exists (c :: u), t].
    + intros ([|d u] & t & H); simplify_eq/=; eauto.
Qed.

(** [<[String]>::join]. *)
Fixpoint join (sep : str) (l : list str) : str :=
  match l with
  | [] => []
  | [x] => x
  | x :: l' => x ++ sep ++ join sep l'
  end.

(** ** UTF-8 *)

Definition is_cont : ascii → bool := in_range 128 191.

(** [char] decoding; a malformed sequence, which a Rust [str] never holds,
    decodes to U+FFFD. *)
Fixpoint chars (s : str) : list N :=
  match s with
  | [] => []
  | b0 :: s0 =>
      let c0 := code b0 in
      if (c0 <? 128)%N then c0 :: chars s0
      else match s0 with
      | b1 :: s1 =>
          if in_range 194 223 b0 && is_cont b1
          then ((c0 - 192) * 64 + (code b1 - 128))%N :: chars s1
          else match s1 with
          | b2 :: s2 =>
              if in_range 224 239 b0 && is_cont b1 && is_cont b2
              then ((c0 - 224) * 4096 + (code b1 - 128) * 64 + (code b2 - 128))%N
                   :: chars s2
              else match s2 with
              | b3 :: s3 =>
                  if in_range 240 244 b0 && is_cont b1 && is_cont b2 && is_cont b3
                  then ((c0 - 240) * 262144 + (code b1 - 128) * 4096
                        + (code b2 - 128) * 64 + (code b3 - 128))%N :: chars s3
                  else 65533%N :: chars s0
              | [] => 65533%N :: chars s0
              end
          | [] => 65533%N :: chars s0
          end
      | [] => 65533%N :: chars s0
      end
  end.

(** The second-byte ranges of the Unicode well-formedness table. *)
Definition utf8_second_ok (b0 b1 : ascii) : bool :=
  if (code b0 =? 224)%N then in_range 160 191 b1
  else if (code b0 =? 237)%N then in_range 128 159 b1
  else if (code b0 =? 240)%N then in_range 144 191 b1
  else if (code b0 =? 244)%N then in_range 128 143 b1
  else is_cont b1.

(** The invariant of Rust's [str]. *)
Fixpoint valid_utf8 (s : str) : bool :=
  match s with
  | [] => true
  | b0 :: s0 =>
      if is_ascii b0 then valid_utf8 s0
      else match s0 with
      | b1 :: s1 =>
          if in_range 194 223 b0 then is_cont b1 && valid_utf8 s1
          else match s1 with
          | b2 :: s2 =>
              if in_range 224 239 b0
              then utf8_second_ok b0 b1 && is_cont b2 && valid_utf8 s2
              else match s2 with
              | b3 :: s3 =>
                  in_range 240 244 b0 && utf8_second_ok b0 b1 && is_cont b2
                  && is_cont b3 && valid_utf8 s3
              | [] => false
              end
          | [] => false
          end
      | [] => false
      end
  end.

(** [str::is_char_boundary]. *)
Definition is_char_boundary (s : str) (i : nat) : bool :=
  match s !! i with
  | Some c => (i =? 0) || negb (is_cont c)
  | None => i =? length s
  end.

(** [&s[i..j]]. *)
Definition slice {E} (s : str) (i j : nat) : result E str :=
  if (i <=? j) && is_char_boundary s i && is_char_boundary s j
  then Ok (take (j - i) (drop i s)) else Panics.

(** [char::is_whitespace] (the Unicode White_Space property). *)
Definition is_whitespace (c : N) : bool :=
  ((9 <=? c) && (c <=? 13) || (c =? 32) || (c =? 133) || (c =? 160)
   || (c =? 5760) || (8192 <=? c) && (c <=? 8202) || (c =? 8232) || (c =? 8233)
   || (c =? 8239) || (c =? 8287) || (c =? 12288))%N.

(** [s.trim().is_empty()]. *)
Definition trim_is_empty (s : str) : bool := forallb is_whitespace (chars s).

(** ** Well-formed text, one character at a time *)

(** The bytes of one encoded character. *)
Definition utf8_char (ch : str) : Prop :=
  match ch with
  | [] => False
  | b :: t =>
      (is_ascii b = true ∧ t = [])
      ∨ (is_ascii b = false ∧ is_cont b = false ∧ t ≠ []
         ∧ Forall (λ c, is_cont c = true) t)
  end.

Ltac unfold_bytes :=
  unfold is_ascii, is_ascii_alphanumeric, is_ascii_alphabetic, is_ascii_digit,
    is_ascii_lowercase, is_ascii_uppercase, is_cont, in_range in *.

Ltac bool_prop :=
  repeat match goal with
  | H : _ && _ = true |- _ => apply andb_true_iff in H as [? ?]
  | H : _ || _ = false |- _ => apply orb_false_iff in H as [? ?]
  | H : negb _ = true |- _ => apply negb_true_iff in H
  | H : negb _ = false |- _ => apply negb_false_iff in H
  end.

Lemma utf8_second_cont b0 b1 : utf8_second_ok b0 b1 = true → is_cont b1 = true.
Proof. unfold utf8_second_ok. unfold_bytes. repeat case_match; lia. Qed.

Lemma valid_utf8_uncons s :
  valid_utf8 s = true → s ≠ [] →
  ∃ ch rest, s = ch ++ rest ∧ utf8_char ch ∧ valid_utf8 rest = true.
Proof.
  destruct s as [|b0 s0]; [done|]. intros H _. cbn [valid_utf8] in H.
  destruct (is_ascii b0) eqn:E0; [exists [b0], s0; naive_solver|].
  destruct s0 as [|b1 s1]; [done|].
  destruct (in_range 194 223 b0) eqn:E2.
  { bool_prop. exists [b0; b1], s1. split_and!; [done| |done].
    right. split_and!; [done|unfold_bytes; lia|done|by repeat constructor]. }
  destruct s1 as [|b2 s2]; [done|].
  destruct (in_range 224 239 b0) eqn:E3.
  { bool_prop. exists [b0; b1; b2], s2. split_and!; [done| |done].
    right. split_and!; [done|unfold_bytes; lia|done|].
    repeat constructor; eauto using utf8_second_cont. }
  destruct s2 as [|b3 s3]; [done|]. bool_prop.
  exists [b0; b1; b2; b3], s3. split_and!; [done| |done].
  right. split_and!; [done|unfold_bytes; lia|done|].
  repeat constructor; eauto using utf8_second_cont.
Qed.

Lemma valid_utf8_ind (P : str → Prop) :
  P [] →
  (∀ ch rest, utf8_char ch → valid_utf8 rest = true → P rest → P (ch ++ rest)) →
  ∀ s, valid_utf8 s = true → P s.
Proof.
  intros Hnil Hch s. remember (length s) as n eqn:Hn. revert s Hn.
  induction (lt_wf n) as [n _ IH]. intros s Hn Hv.
  destruct (decide (s = [])) as [->|Hne]; [done|].
  destruct (valid_utf8_uncons s Hv Hne) as (ch & rest & -> & Hc & Hr).
  apply Hch; try done. apply (IH (length rest)); [|done..].
  destruct ch; [done|]. subst n. simpl. rewrite length_app. lia.
Qed.

Lemma ascii_not_cont c : is_ascii c = true → is_cont c = false.
Proof. unfold_bytes. lia. Qed.

Lemma valid_utf8_head s c :
  valid_utf8 s = true → s !! 0 = Some c → is_cont c = false.
Proof.
  intros Hv Hc. destruct (valid_utf8_uncons s Hv) as (ch & rest & -> & Hch & _).
  { by intros ->. }
  destruct ch as [|b t]; [done|]. simplify_eq/=.
  destruct Hch as [[? _]|(_ & ? & _)]; auto using ascii_not_cont.
Qed.

(** In well-formed text an ASCII byte is a whole character: the positions on
    both sides of it are character boundaries. *)
Lemma valid_utf8_after_ascii s i c d :
  valid_utf8 s = true → s !! i = Some c → is_ascii c = true →
  s !! S i = Some d → is_cont d = false.
Proof.
  intros Hv. revert i. pattern s. apply valid_utf8_ind; [done| |done].
  clear s Hv. intros ch rest Hch Hr IH i Hi Ha Hd.
  destruct ch as [|b t]; [done|]. destruct Hch as [[Hb ->]|(Hb & _ & Hne & Ht)].
  - destruct i as [|i]; cbn in Hi, Hd; [|by apply (IH i)].
    by apply (valid_utf8_head rest).
  - destruct i as [|i]; [simplify_eq/=; congruence|].
    change ((t ++ rest) !! i = Some c) in Hi.
    change ((t ++ rest) !! S i = Some d) in Hd.
    assert (length t ≤ i) as Hlen.
    { apply Nat.le_ngt. intros Hlt. rewrite lookup_app_l in Hi by done.
      apply (Forall_lookup_1 _ _ _ _ Ht) in Hi.
      rewrite (ascii_not_cont _ Ha) in Hi. done. }
    rewrite lookup_app_r in Hi, Hd by lia.
    apply (IH (i - length t) Hi Ha). by replace (S (i - length t)) with (S i - length t) by lia.
Qed.

Lemma is_char_boundary_ascii s i c :
  s !! i = Some c → is_ascii c = true → is_char_boundary s i = true.
Proof.
  intros Hi Ha. unfold is_char_boundary. rewrite Hi, ascii_not_cont by done.
  by destruct (i =? 0).
Qed.

Lemma is_char_boundary_after_ascii s i c :
  valid_utf8 s = true → s !! i = Some c → is_ascii c = true →
  is_char_boundary s (S i) = true.
Proof.
  intros Hv Hi Ha. unfold is_char_boundary. destruct (s !! S i) as [d|] eqn:Hd.
  - by rewrite (valid_utf8_after_ascii s i c d), orb_true_r.
  - apply Nat.eqb_eq. apply lookup_ge_None in Hd. apply lookup_lt_Some in Hi. lia.
Qed.

Lemma is_char_boundary_length s : is_char_boundary s (length s) = true.
Proof.
  unfold is_char_boundary. rewrite (proj2 (lookup_ge_None _ _)) by lia.
  apply Nat.eqb_refl.
Qed.

Lemma slice_ok {E} s i j :
  i ≤ j → is_char_boundary s i = true → is_char_boundary s j = true →
  slice (E:=E) s i j = Ok (take (j - i) (drop i s)).
Proof.
  intros Hij Hi Hj. unfold slice. rewrite Hi, Hj.
  rewrite (proj2 (Nat.leb_le i j)) by done. done.
Qed.

Lemma slice_ok_inv {E} s i j v :
  slice (E:=E) s i j = Ok v → i ≤ j ∧ v = take (j - i) (drop i s).
Proof.
  unfold slice. destruct (i <=? j) eqn:Hij; simpl; [|done].
  apply Nat.leb_le in Hij. repeat case_match; naive_solver.
Qed.

(** ** Ordering: [String]'s [Ord] compares bytes lexicographically *)

Definition str_le (a b : str) : Prop :=
  String.le (string_of_list_ascii a) (string_of_list_ascii b).

#[export] Instance str_le_dec : RelDecision str_le.
Proof. intros a b. unfold str_le. apply _. Defined.

#[export] Instance str_le_trans : Transitive str_le.
Proof. intros a b c. unfold str_le. apply transitivity. Qed.

#[export] Instance str_le_total : Total str_le.
Proof. intros a b. unfold str_le. apply (total String.le). Qed.

Lemma string_of_list_ascii_inj a b :
  string_of_list_ascii a = string_of_list_ascii b → a = b.
Proof.
  intros H. apply (f_equal list_ascii_of_string) in H.
  by rewrite !list_ascii_of_string_of_list_ascii in H.
Qed.

#[export] Instance str_le_antisymm : AntiSymm (=) str_le.
Proof.
  intros a b H1 H2. apply string_of_list_ascii_inj.
  by apply (anti_symm String.le).
Qed.

(** [Vec<String>::sort]. *)
Definition sort_strs (l : list str) : list str := merge_sort str_le l.

Lemma sort_strs_perm l : sort_strs l ≡ₚ l.
Proof. apply merge_sort_Permutation. Qed.

Lemma sort_strs_sorted l : Sorted str_le (sort_strs l).
Proof. apply Sorted_merge_sort. apply _. Qed.

Lemma sort_strs_elem l x : x ∈ sort_strs l ↔ x ∈ l.
Proof. by rewrite sort_strs_perm. Qed.

(** ** Keyset pagination *)

Section paging.
Context {A : Type} (key : A → Z) (size : nat).

Definition key_lt (x y : A) : Prop := (key x < key y)%Z.

(** The rows a cursor selects, and the page of them. *)
Definition after (cursor : option Z) (all : list A) : list A :=
  match cursor with Some c => filter (λ x, c < key x)%Z all | None => all end.

Definition page (cursor : option Z) (all : list A) : list A * option Z :=
  let rows := after cursor all in
  (take size rows, if decide (size < length rows) then key <$> last (take size rows) else None).

(** Following the cursors from the first page. *)
Fixpoint pages (fuel : nat) (cursor : option Z) (all : list A) : option (list (list A)) :=
  match fuel with
  | O => None
  | S fuel =>
      let '(rows, next) := page cursor all in
      match next with
      | None => Some [rows]
      | Some c => rest ← pages fuel (Some c) all; Some (rows :: rest)
      end
  end.

(** After the last row of a prefix comes the rest. *)
Lemma after_prefix pre x rest : StronglySorted key_lt (pre ++ x :: rest) → after (Some (key x)) (pre ++ x :: rest) = rest.
Proof.
  intros Hs. cbn [after]. rewrite filter_app, filter_cons, decide_False by lia.
  assert (∀ l : list A, (∀ y, y ∈ l → (key y ≤ key x)%Z) → filter (λ y, key x < key y)%Z l = []) as Hnone.
  { induction l as [|y l IH]; intros Hl; [done|]. rewrite filter_cons, decide_False; [apply IH; intros z Hz; apply Hl; by right|].
    pose proof (Hl y ltac:(by left)). lia. }
  assert (∀ l : list A, (∀ y, y ∈ l → (key x < key y)%Z) → filter (λ y, key x < key y)%Z l = l) as Hall.
  { induction l as [|y l IH]; intros Hl; [done|]. rewrite filter_cons, decide_True by (apply Hl; by left). f_equal. apply IH. intros z Hz. apply Hl. by right. }
  rewrite Hnone, Hall; [done|..].
  - intros y Hy. apply StronglySorted_app_1_r, StronglySorted_inv in Hs as [_ Hs]. rewrite Forall_forall in Hs. by apply Hs.
  - intros y Hy. pose proof (StronglySorted_app_1_elem_of _ _ _ y x Hs Hy ltac:(by left)) as Hlt. unfold key_lt in Hlt. lia.
Qed.

Context (size_pos : 0 < size).

Lemma pages_from all : StronglySorted key_lt all → ∀ fuel pre rest cursor, all = pre ++ rest → length rest < fuel →
  match cursor with None => pre = [] | Some c => ∃ x, last pre = Some x ∧ key x = c end →
  ∃ ps, pages fuel cursor all = Some ps ∧ concat ps = rest ∧ Forall (λ p, length p ≤ size) ps.
Proof.
  intros Hs. induction fuel as [|fuel IH]; intros pre rest cursor Hall Hfuel Hc; [lia|]. cbn [pages].
  assert (after cursor all = rest) as Hafter.
  { destruct cursor as [c|]; [|by rewrite Hall, Hc]. destruct Hc as (x & Hx & <-). apply last_Some in Hx as [pre0 ->].
    rewrite Hall, <- app_assoc in *. by apply after_prefix. }
  unfold page. rewrite Hafter. case_decide as Hlt.
  - destruct (last (take size rest)) as [x|] eqn:Hl.
    2:{ apply last_None in Hl. apply (f_equal length) in Hl. rewrite length_take in Hl. cbn in Hl. lia. }
    cbn [fmap option_fmap option_map].
    destruct (IH (pre ++ take size rest) (drop size rest) (Some (key x))) as (ps & -> & Hcat & Hf).
    + by rewrite <- app_assoc, take_drop.
    + rewrite length_drop. lia.
    + exists x. split; [|done]. by rewrite last_app, Hl.
    + exists (take size rest :: ps). split; [done|]. split; [cbn [concat]; by rewrite Hcat, take_drop|]. constructor; [rewrite length_take; lia|done].
  - exists [take size rest]. split; [done|]. split; [cbn [concat]; rewrite app_nil_r; apply take_ge; lia|]. repeat constructor. rewrite length_take. lia.
Qed.

(** Every row is on one page, in order, and the walk ends. *)
Lemma pages_complete all : StronglySorted key_lt all →
  ∃ ps, pages (S (length all)) None all = Some ps ∧ concat ps = all ∧ Forall (λ p, length p ≤ size) ps.
Proof. intros Hs. apply (pages_from all Hs _ [] all None); [done|lia|done]. Qed.
End paging.

(** ** A codec *)

(** A key as a sign and its bits. *)
Fixpoint print_bits (p : positive) : str :=
  match p with xH => [] | xO p => "0"%char :: print_bits p | xI p => "1"%char :: print_bits p end.

Fixpoint parse_bits (s : str) : positive :=
  match s with [] => xH | c :: s => if decide (c = "0"%char) then xO (parse_bits s) else xI (parse_bits s) end.

Definition print_id (u : Z) : str :=
  match u with Z0 => lit "z" | Zpos p => "p"%char :: print_bits p | Zneg p => "n"%char :: print_bits p end.

Definition parse_id (s : str) : option Z :=
  match s with
  | [] => None
  | c :: s => if decide (c = "z"%char) then Some 0%Z
              else if decide (c = "p"%char) then Some (Zpos (parse_bits s)) else Some (Zneg (parse_bits s))
  end.

Lemma parse_print_id u : parse_id (print_id u) = Some u.
Proof.
  assert (∀ p, parse_bits (print_bits p) = p) as Hp.
  { induction p as [p IH|p IH|]; [..|done]; cbn [print_bits parse_bits]; by rewrite IH. }
  destruct u as [|p|p]; [done|..]; cbn; by rewrite Hp.
Qed.

Lemma print_id_nonempty u : print_id u ≠ [].
Proof. by destruct u. Qed.
