(* ===== verification/F64.v ===== *)
(** Rust's [f64]: IEEE 754 binary64 on the Standard Library's executable
    [spec_float] (no axioms), with the operations the program uses: comparison,
    [is_finite], [trunc], the saturating cast [as u32], addition, subtraction,
    [abs], and the correctly rounded [str::parse::<f64>]. *)
From Stdlib Require Import Ascii String SpecFloat.
From S2P Require Import Prelude Bytes.

Abbreviation f64 := spec_float.

Local Notation prec := 53%Z.
Local Notation emax := 1024%Z.

Definition f64_zero : f64 := S754_zero false.

(** The double nearest to [n / d] (ties to even, overflow to infinity), for
    [n ≥ 0] and [d > 0]. *)
Definition f64_ratio (n d : Z) : f64 :=
  if (n <=? 0)%Z then f64_zero
  else let '(q, e, l) := SFdiv_core_binary prec emax n 0 d 0 in
       binary_round_aux prec emax false q e l.

Definition f64_of_Z (n : Z) : f64 :=
  if (n <? 0)%Z then SFopp (f64_ratio (- n) 1) else f64_ratio n 1.

(** [n as f64] for [0 ≤ n < 2^53], exact: the mantissa is scaled to 53 bits. *)
Definition f64_of_u32 (n : Z) : f64 :=
  match n with
  | Zpos p =>
      let d := Zpos (digits2_pos p) in S754_finite false (Z.to_pos (Zpos p * 2 ^ (53 - d))) (d - 53)
  | _ => f64_zero
  end.

Definition f64_lt (x y : f64) : bool := SFltb x y.
Definition f64_le (x y : f64) : bool := SFleb x y.
Definition f64_gt (x y : f64) : bool := SFltb y x.
Definition f64_ge (x y : f64) : bool := SFleb y x.
Definition f64_eq (x y : f64) : bool := SFeqb x y.
Definition f64_add (x y : f64) : f64 := SFadd prec emax x y.
Definition f64_sub (x y : f64) : f64 := SFsub prec emax x y.
Definition f64_mul (x y : f64) : f64 := SFmul prec emax x y.
Definition f64_div (x y : f64) : f64 := SFdiv prec emax x y.
Definition f64_abs (x : f64) : f64 := SFabs x.
Definition f64_is_finite (x : f64) : bool :=
  match x with S754_zero _ | S754_finite _ _ _ => true | _ => false end.

(** [f64::trunc]: the fraction bits are cleared. *)
Definition f64_trunc (x : f64) : f64 :=
  match x with
  | S754_finite s m e =>
      if (0 <=? e)%Z then x
      else let k := Z.shiftr (Zpos m) (- e) in
           if (k =? 0)%Z then S754_zero s
           else let y := f64_ratio k 1 in if s then SFopp y else y
  | _ => x
  end.

(** [x as u32] truncates toward zero and saturates; NaN becomes 0. *)
Definition f64_as_u32 (x : f64) : Z :=
  match x with
  | S754_zero _ | S754_nan => 0
  | S754_infinity s => if s then 0 else u32_max
  | S754_finite s m e =>
      if s then 0
      else Z.min u32_max
             (if (0 <=? e)%Z then Z.shiftl (Zpos m) e else Z.shiftr (Zpos m) (- e))
  end%Z.

(** ** Decimal text *)

Definition digit_value (c : ascii) : Z := Z.of_N (code c) - 48.

Definition digits_value (s : str) : Z :=
  fold_left (λ acc c, 10 * acc + digit_value c)%Z s 0%Z.

Definition split_sign (s : str) : bool * str :=
  match s with
  | c :: s' =>
      if is_byte "-" c then (true, s') else if is_byte "+" c then (false, s') else (false, s)
  | [] => (false, s)
  end.

(** [n] scaled by a power of ten. *)
Definition f64_scale10 (n k : Z) : f64 :=
  if (0 <=? k)%Z then f64_ratio (n * 10 ^ k) 1 else f64_ratio n (10 ^ (- k)).

(** The optional exponent: [None] when the text is not an exponent. *)
Definition parse_exponent (s : str) : option Z :=
  match s with
  | [] => Some 0%Z
  | c :: s' =>
      if is_byte "e" c || is_byte "E" c then
        let '(neg, ds) := split_sign s' in
        if negb (bool_decide (ds = [])) && forallb is_ascii_digit ds
        then Some (if neg then - digits_value ds else digits_value ds)%Z
        else None
      else None
  end.

(** [str::parse::<f64>]:
    [sign? ('inf' | 'infinity' | 'nan' | digits [. digits] exponent?)]. *)
Definition f64_parse (s : str) : option f64 :=
  let '(neg, body) := split_sign s in
  let signed x := if neg then SFopp x else x in
  let upper := to_ascii_uppercase body in
  if bool_decide (upper = lit "INF") || bool_decide (upper = lit "INFINITY")
  then Some (signed (S754_infinity false))
  else if bool_decide (upper = lit "NAN") then Some S754_nan
  else
    let ni := prefix_len is_ascii_digit body in
    let int := take ni body in
    let rest := drop ni body in
    let '(frac, rest') :=
      match rest with
      | c :: r =>
          if is_byte "." c then
            let nf := prefix_len is_ascii_digit r in (take nf r, drop nf r)
          else ([], rest)
      | [] => ([], [])
      end in
    if bool_decide (int = []) && bool_decide (frac = []) then None
    else
      match parse_exponent rest' with
      | None => None
      | Some e =>
          Some (signed (f64_scale10 (digits_value (int ++ frac))
                                    (e - Z.of_nat (length frac))))
      end.

(** ** Order on integers *)

Lemma digits2_pos_log2 p : Zpos (digits2_pos p) = (Z.log2 (Zpos p) + 1)%Z.
Proof.
  induction p as [p IH|p IH|]; [| |done].
  - change (digits2_pos p~1) with (Pos.succ (digits2_pos p)). rewrite Pos2Z.inj_succ, IH.
    rewrite (Pos2Z.inj_xI p), Z.log2_succ_double by lia. lia.
  - change (digits2_pos p~0) with (Pos.succ (digits2_pos p)). rewrite Pos2Z.inj_succ, IH.
    rewrite (Pos2Z.inj_xO p), Z.log2_double by lia. lia.
Qed.

(** The conversion is monotone, and comparing below an integer is downward closed. *)
Lemma f64_of_u32_lt_mono a b x :
  (0 ≤ a ≤ b)%Z → (b < 2 ^ 53)%Z →
  f64_lt (f64_of_u32 b) x = true → f64_lt (f64_of_u32 a) x = true.
Proof.
  intros Hab Hb. unfold f64_lt, SFltb. destruct b as [|pb|]; [|..]; try lia.
  { replace a with 0%Z by lia. done. }
  destruct a as [|pa|]; try lia.
  { destruct x as [s|[]| |[] m e]; simpl; done. }
  unfold f64_of_u32. set (da := Zpos (digits2_pos pa)). set (db := Zpos (digits2_pos pb)).
  assert (1 ≤ da ≤ db ∧ db ≤ 53)%Z as ((H1 & Hd) & H53).
  { subst da db. rewrite !digits2_pos_log2.
    pose proof (Z.log2_nonneg (Zpos pa)). pose proof (Z.log2_le_mono (Zpos pa) (Zpos pb)).
    pose proof (Z.log2_lt_pow2 (Zpos pb) 53). lia. }
  destruct x as [s|[]| |[] m e]; simpl; try done.
  destruct (Z.compare_spec (db - 53) e) as [He|He|He]; try done.
  - destruct (Z.compare_spec (da - 53) e) as [He'|He'|He']; try done; try lia.
    replace db with da by lia.
    change (PosDef.Pos.compare_cont Eq) with Pos.compare.
    assert (Z.to_pos (Zpos pa * 2 ^ (53 - da)) ≤ Z.to_pos (Zpos pb * 2 ^ (53 - da)))%positive
      as Hle.
    { pose proof (Z.pow_pos_nonneg 2 (53 - da)). 
      enough (Zpos (Z.to_pos (Zpos pa * 2 ^ (53 - da))) ≤
              Zpos (Z.to_pos (Zpos pb * 2 ^ (53 - da))))%Z by lia.
      rewrite !Z2Pos.id by nia. nia. }
    destruct (Pos.compare_spec (Z.to_pos (Zpos pb * 2 ^ (53 - da))) m); try done. intros _.
    destruct (Pos.compare_spec (Z.to_pos (Zpos pa * 2 ^ (53 - da))) m); try done; lia.
  - intros _. destruct (Z.compare_spec (da - 53) e); try done; lia.
Qed.

Lemma f64_mul_comm x y : f64_mul x y = f64_mul y x.
Proof.
  unfold f64_mul. destruct x as [a|a| |a m e], y as [b|b| |b n d]; cbn [SFmul]; try done; try by rewrite xorb_comm.
  by rewrite xorb_comm, Pos.mul_comm, Z.add_comm.
Qed.
