(* ===== verification/F64Mono.v ===== *)
(** Bounds of the rounded operations on doubles: when a division does not overflow, so that
    quotients of 64-bit integers are finite; and that rounding is monotone: scaling a fraction
    by a constant and truncating to an integer keeps the order of the fractions. *)
From Stdlib Require Import SpecFloat.
From S2P Require Import Prelude F64.

Local Notation prec := 53%Z.
Local Notation emax := 1024%Z.

Lemma digits_lower p : (2 ^ (Zpos (digits2_pos p) - 1) ≤ Zpos p)%Z.
Proof.
  induction p as [p IH|p IH|]; cbn [digits2_pos]; [| |done];
    rewrite Pos2Z.inj_succ;
    replace (Z.succ (Zpos (digits2_pos p)) - 1)%Z with (Z.succ (Zpos (digits2_pos p) - 1)) by lia;
    rewrite Z.pow_succ_r by lia; lia.
Qed.

Lemma digits_upper p : (Zpos p < 2 ^ Zpos (digits2_pos p))%Z.
Proof.
  induction p as [p IH|p IH|]; cbn [digits2_pos]; [| |done];
    rewrite Pos2Z.inj_succ, Z.pow_succ_r by lia; lia.
Qed.

Lemma Zdigits2_upper m : (0 ≤ m)%Z → (m < 2 ^ Zdigits2 m)%Z.
Proof. destruct m as [|p|p]; [done|intros _; apply digits_upper|lia]. Qed.

Lemma Zdigits2_le m k : (0 ≤ m < 2 ^ k)%Z → (0 ≤ k)%Z → (0 ≤ Zdigits2 m ≤ k)%Z.
Proof.
  intros Hm Hk. destruct m as [|p|p]; [simpl; lia| |lia]. cbn [Zdigits2]. split; [lia|].
  pose proof (digits_lower p). destruct (Z.le_gt_cases (Zpos (digits2_pos p)) k); [done|exfalso].
  assert (2 ^ k ≤ 2 ^ (Zpos (digits2_pos p) - 1))%Z by (apply Z.pow_le_mono_r; lia). lia.
Qed.

Lemma shr_1_le r : (0 ≤ shr_m r)%Z → (0 ≤ shr_m (shr_1 r) ≤ shr_m r)%Z.
Proof. destruct r as [[|[p|p|]|p] r s]; simpl; lia. Qed.

Lemma iter_shr_le p : ∀ r, (0 ≤ shr_m r)%Z → (0 ≤ shr_m (SpecFloat.iter_pos shr_1 p r) ≤ shr_m r)%Z.
Proof.
  induction p as [p IH|p IH|]; intros r Hr; cbn [SpecFloat.iter_pos].
  - pose proof (shr_1_le r Hr) as H1. pose proof (IH (shr_1 r)) as H2.
    pose proof (IH (SpecFloat.iter_pos shr_1 p (shr_1 r))). lia.
  - pose proof (IH r Hr) as H1. pose proof (IH (SpecFloat.iter_pos shr_1 p r)). lia.
  - by apply shr_1_le.
Qed.

Lemma shr_fexp_le m e l : (0 ≤ m)%Z →
  let '(r, e') := shr_fexp prec emax m e l in
  (0 ≤ shr_m r ≤ m)%Z ∧ (e ≤ e')%Z ∧ (e' = e ∨ e' = fexp prec emax (Zdigits2 m + e))%Z.
Proof.
  intros Hm. unfold shr_fexp, shr.
  assert (shr_m (shr_record_of_loc m l) = m) as Hl by by destruct l as [|[]].
  destruct (fexp prec emax (Zdigits2 m + e) - e)%Z as [|p|p] eqn:E; rewrite ?Hl; [lia| |lia].
  pose proof (iter_shr_le p (shr_record_of_loc m l)) as Hi. rewrite Hl in Hi. lia.
Qed.

Lemma round_nearest_le m l : (0 ≤ m)%Z → (0 ≤ round_nearest_even m l ≤ m + 1)%Z.
Proof. intros Hm. unfold round_nearest_even. destruct l as [|[]]; [lia| |lia..]. destruct (Z.even m); lia. Qed.

(** A double that is zero or finite, with small mantissa and exponent. *)
Definition small (mb lo hi : Z) (x : f64) : Prop :=
  match x with
  | S754_zero _ => True
  | S754_finite _ m e => (Zpos m < 2 ^ mb)%Z ∧ (lo ≤ e ≤ hi)%Z
  | _ => False
  end.

Lemma small_finite mb lo hi x : small mb lo hi x → f64_is_finite x = true.
Proof. by destruct x. Qed.

Lemma round_small s m e l k :
  (0 ≤ m)%Z → (m + 1 < 2 ^ k)%Z → (0 ≤ k ≤ 300)%Z → (-1000 ≤ e ≤ 300)%Z →
  small k e (Z.max e (k + e) + k) (binary_round_aux prec emax s m e l).
Proof.
  intros Hm Hb Hk He. unfold binary_round_aux.
  pose proof (shr_fexp_le m e l Hm) as H1. destruct (shr_fexp prec emax m e l) as [r1 e1].
  destruct H1 as (Hr1 & He1 & He1'). pose proof (Zdigits2_le m k) as Hd.
  pose proof (round_nearest_le (shr_m r1) (loc_of_shr_record r1)) as Hn.
  set (m1 := round_nearest_even (shr_m r1) (loc_of_shr_record r1)) in *.
  pose proof (shr_fexp_le m1 e1 loc_Exact) as H2. destruct (shr_fexp prec emax m1 e1 loc_Exact) as [r2 e2].
  destruct H2 as (Hr2 & He2 & He2'); [lia|]. pose proof (Zdigits2_le m1 k) as Hd1.
  assert (e1 ≤ Z.max e (k + e))%Z as He1k.
  { destruct He1' as [->|E]; [lia|]. unfold fexp, emin in E. lia. }
  assert (e2 ≤ Z.max e (k + e) + k)%Z as He2k.
  { destruct He2' as [->|E]; [lia|]. unfold fexp, emin in E. lia. }
  destruct (shr_m r2) as [|p|p]; [done| |lia]. rewrite (proj2 (Z.leb_le _ _)) by lia.
  split; [lia|lia].
Qed.

Lemma div_core_small m1 e1 m2 e2 q e l k :
  SFdiv_core_binary prec emax m1 e1 m2 e2 = (q, e, l) →
  (0 ≤ m1 < 2 ^ k)%Z → (0 < m2 < 2 ^ k)%Z → (0 ≤ k)%Z →
  (0 ≤ q < 2 ^ (k + 53))%Z ∧
  (e = e1 - e2 ∨ e = fexp prec emax (Zdigits2 m1 + e1 - (Zdigits2 m2 + e2)))%Z ∧ (e ≤ e1 - e2)%Z.
Proof.
  intros E Hm1 Hm2 Hk. unfold SFdiv_core_binary in E.
  set (e' := Z.min (fexp prec emax (Zdigits2 m1 + e1 - (Zdigits2 m2 + e2))) (e1 - e2)) in *.
  pose proof (Zdigits2_le m1 k Hm1 Hk). pose proof (Zdigits2_le m2 k) as Hd2.
  set (m' := match (e1 - e2 - e')%Z with Z0 => m1 | Zpos _ => Z.shiftl m1 (e1 - e2 - e') | Zneg _ => 0%Z end) in *.
  assert (0 ≤ e1 - e2 - e' ∧ (e1 - e2 - e' = 0 ∨ Zdigits2 m1 + (e1 - e2 - e') ≤ k + 53))%Z as Hs.
  { unfold e', fexp, emin. lia. }
  assert (0 ≤ m' < 2 ^ (k + 53))%Z as Hm'.
  { assert (m' = m1 * 2 ^ (e1 - e2 - e'))%Z as ->.
    { unfold m'. destruct (e1 - e2 - e')%Z eqn:Es; [lia| |lia]. rewrite Z.shiftl_mul_pow2 by lia. done. }
    assert (0 < 2 ^ (e1 - e2 - e'))%Z by (apply Z.pow_pos_nonneg; lia).
    split; [apply Z.mul_nonneg_nonneg; lia|]. destruct Hs as [Hs [->|Hs']].
    - rewrite Z.pow_add_r by lia. lia.
    - pose proof (Zdigits2_upper m1).
      assert (2 ^ (Zdigits2 m1 + (e1 - e2 - e')) ≤ 2 ^ (k + 53))%Z as Hle by (apply Z.pow_le_mono_r; lia).
      rewrite (Z.pow_add_r 2 (Zdigits2 m1)) in Hle by lia.
      apply (Z.lt_le_trans _ (2 ^ Zdigits2 m1 * 2 ^ (e1 - e2 - e')) _); [|done].
      apply Z.mul_lt_mono_pos_r; lia. }
  destruct (Z.div_eucl m' m2) as [q' r'] eqn:Ed. injection E as <- <- <-.
  pose proof (Z_div_mod m' m2) as Hdiv. rewrite Ed in Hdiv. destruct Hdiv as [Hq Hr]; [lia|].
  split; [nia|]. unfold e'. lia.
Qed.

Lemma of_Z_small a : (0 ≤ a < 2 ^ 64)%Z → small 118 (-54) 236 (f64_of_Z a).
Proof.
  intros Ha. unfold f64_of_Z. rewrite (proj2 (Z.ltb_ge _ _)) by lia. unfold f64_ratio.
  destruct (a <=? 0)%Z eqn:E; [done|].
  destruct (SFdiv_core_binary prec emax a 0 1 0) as [[q e] l] eqn:Ed.
  pose proof (div_core_small _ _ _ _ _ _ _ 64 Ed) as (Hq & He & He'); [lia..|].
  pose proof (Zdigits2_le a 64). cbn [Zdigits2 digits2_pos] in He. unfold fexp, emin in He.
  assert (2 ^ (64 + 53) + 1 < 2 ^ 118)%Z by (vm_compute; done).
  pose proof (round_small false q e l 118) as Hs.
  destruct (binary_round_aux _ _ _ _ _ _); try done; [apply Hs; lia..|].
  destruct Hs as [Hm Hb]; [lia..|]. split; [done|lia].
Qed.

(** ** No underflow to zero *)

Lemma shr_1_div r : (0 ≤ shr_m r)%Z → shr_m (shr_1 r) = (shr_m r / 2)%Z.
Proof.
  destruct r as [[|[p|p|]|p] r s]; cbn [shr_1 shr_m]; try done; intros _.
  - rewrite (Pos2Z.inj_xI p). Z.to_euclidean_division_equations. lia.
  - rewrite (Pos2Z.inj_xO p). Z.to_euclidean_division_equations. lia.
Qed.

Lemma iter_shr_div p : ∀ r, (0 ≤ shr_m r)%Z →
  shr_m (SpecFloat.iter_pos shr_1 p r) = (shr_m r / 2 ^ Zpos p)%Z.
Proof.
  induction p as [p IH|p IH|]; intros r Hr; cbn [SpecFloat.iter_pos].
  - rewrite IH, IH, shr_1_div; [|done|apply shr_1_le; lia|].
    2:{ pose proof (iter_shr_le p (shr_1 r)). pose proof (shr_1_le r). lia. }
    rewrite !Z.div_div by (try apply Z.pow_nonzero; lia). f_equal.
    rewrite (Pos2Z.inj_xI p), Z.pow_add_r, Z.pow_twice_r by lia. lia.
  - rewrite IH, IH by (try apply iter_shr_le; done).
    rewrite Z.div_div by (try apply Z.pow_nonzero; lia). f_equal.
    rewrite (Pos2Z.inj_xO p), Z.pow_twice_r. lia.
  - by apply shr_1_div.
Qed.

Lemma shr_fexp_pos m e l : (0 < m)%Z → (-1000 ≤ e)%Z → (0 < shr_m (shr_fexp prec emax m e l).1)%Z.
Proof.
  intros Hm He. unfold shr_fexp, shr.
  assert (shr_m (shr_record_of_loc m l) = m) as Hl by by destruct l as [|[]].
  destruct (fexp prec emax (Zdigits2 m + e) - e)%Z as [|p|p] eqn:E; cbn [fst]; rewrite ?Hl; [done| |done].
  rewrite iter_shr_div by (rewrite Hl; lia). rewrite Hl. apply Z.div_str_pos.
  split; [apply Z.pow_pos_nonneg; lia|]. destruct m as [|m|m]; [lia| |lia]. cbn [Zdigits2] in E.
  pose proof (digits_lower m). etrans; [|done]. apply Z.pow_le_mono_r; [lia|].
  unfold fexp, emin in E. lia.
Qed.

Lemma round_nonzero s m e l : (0 < m)%Z → (-1000 ≤ e)%Z →
  ∀ s', binary_round_aux prec emax s m e l ≠ S754_zero s'.
Proof.
  intros Hm He s'. unfold binary_round_aux. pose proof (shr_fexp_pos m e l Hm He) as H1.
  pose proof (shr_fexp_le m e l) as H1'. destruct (shr_fexp prec emax m e l) as [r1 e1]. cbn [fst] in H1.
  assert (0 < round_nearest_even (shr_m r1) (loc_of_shr_record r1))%Z as Hn.
  { unfold round_nearest_even. destruct (loc_of_shr_record r1) as [|[]]; [lia| |lia..].
    destruct (Z.even _); lia. }
  pose proof (shr_fexp_pos _ e1 loc_Exact Hn) as H2.
  destruct (shr_fexp prec emax _ e1 loc_Exact) as [r2 e2]. cbn [fst] in H2.
  destruct (shr_m r2) as [|p|p]; [lia| |lia]. by destruct (e2 <=? _)%Z.
Qed.

Lemma of_Z_nonzero b : (0 < b < 2 ^ 64)%Z → ∀ s, f64_of_Z b ≠ S754_zero s.
Proof.
  intros Hb s. unfold f64_of_Z. rewrite (proj2 (Z.ltb_ge _ _)) by lia. unfold f64_ratio.
  rewrite (proj2 (Z.leb_gt _ _)) by lia.
  destruct (SFdiv_core_binary prec emax b 0 1 0) as [[q e] l] eqn:Ed.
  pose proof (div_core_small _ _ _ _ _ _ _ 64 Ed) as (Hq & He & He'); [lia..|].
  pose proof (Zdigits2_le b 64). cbn [Zdigits2 digits2_pos] in He. unfold fexp, emin in He.
  apply round_nonzero; [|lia]. revert Ed. unfold SFdiv_core_binary.
  set (e'' := Z.min _ _). set (m' := match _ with Z0 => b | Zpos _ => _ | Zneg _ => _ end).
  assert (0 < m')%Z as Hm'.
  { unfold m'. assert (0 ≤ 0 - 0 - e'')%Z as Hs by (unfold e''; lia).
    destruct (0 - 0 - e'')%Z; [lia| |lia]. rewrite Z.shiftl_mul_pow2 by lia.
    apply Z.mul_pos_pos; [lia|]. apply Z.pow_pos_nonneg; lia. }
  pose proof (Z_div_mod m' 1) as Hd. destruct (Z.div_eucl m' 1) as [q' r]. intros [= <- _ _].
  destruct Hd as [? ?]; [lia|]. lia.
Qed.

Lemma f64_div_finite a b : (0 ≤ a < 2 ^ 64)%Z → (0 < b < 2 ^ 64)%Z →
  f64_is_finite (f64_div (f64_of_Z a) (f64_of_Z b)) = true.
Proof.
  intros Ha Hb. pose proof (of_Z_small a Ha) as Sa. assert (0 ≤ b < 2 ^ 64)%Z as Hb' by lia.
  pose proof (of_Z_small b Hb') as Sb. pose proof (of_Z_nonzero b Hb) as Hn.
  unfold f64_div, SFdiv. destruct (f64_of_Z a) as [s1| | |s1 m1 e1]; try done;
    destruct (f64_of_Z b) as [s2| | |s2 m2 e2]; try done; try (by destruct (Hn s2)).
  destruct Sa as [Hm1 He1], Sb as [Hm2 He2].
  destruct (SFdiv_core_binary prec emax (Zpos m1) e1 (Zpos m2) e2) as [[q e] l] eqn:Ed.
  pose proof (div_core_small _ _ _ _ _ _ _ 118 Ed) as (Hq & He & He'); [lia..|].
  pose proof (Zdigits2_le (Zpos m1) 118). pose proof (Zdigits2_le (Zpos m2) 118).
  unfold fexp, emin in He. assert (2 ^ (118 + 53) + 1 < 2 ^ 172)%Z by (vm_compute; done).
  apply (small_finite 172 e (Z.max e (172 + e) + 172)). apply round_small; lia.
Qed.

(** ** Rounding is monotone *)


(** ** Shifting with sticky bits *)

Lemma iter_pos_nat {A} (f : A → A) p : ∀ x, SpecFloat.iter_pos f p x = Nat.iter (Pos.to_nat p) f x.
Proof.
  assert (∀ n (x : A), Nat.iter n f (f x) = f (Nat.iter n f x)) as Hcomm.
  { intros n x. induction n as [|n IH]; [done|]. simpl. by rewrite IH. }
  assert (∀ n k (x : A), Nat.iter (n + k) f x = Nat.iter n f (Nat.iter k f x)) as Hadd.
  { intros n k x. induction n as [|n IH]; [done|]. simpl. by rewrite IH. }
  induction p as [p IH|p IH|]; intros x; cbn [SpecFloat.iter_pos].
  - rewrite !IH, <- Hadd, Hcomm, Pos2Nat.inj_xI. by replace (2 * Pos.to_nat p) with (Pos.to_nat p + Pos.to_nat p) by lia.
  - rewrite !IH, <- Hadd, Pos2Nat.inj_xO. by replace (2 * Pos.to_nat p) with (Pos.to_nat p + Pos.to_nat p) by lia.
  - done.
Qed.

Lemma shr_1_record m r s : (0 ≤ m)%Z →
  shr_1 (Build_shr_record m r s) = Build_shr_record (m / 2) (Z.odd m) (r || s).
Proof.
  intros Hm. assert (shr_m (shr_1 (Build_shr_record m r s)) = m / 2)%Z as Hd by by apply shr_1_div.
  destruct m as [|[p|p|]|p]; [done|..|lia]; cbn [shr_1 shr_m] in *; by rewrite Hd.
Qed.

(** [n] shifts of [M]: the quotient, the last bit lost, whether any earlier one was set. *)
Lemma iter_shr_record M n : (0 ≤ M)%Z →
  Nat.iter (S n) shr_1 (Build_shr_record M false false) =
  Build_shr_record (M / 2 ^ Z.of_nat (S n)) (Z.testbit M (Z.of_nat n)) (negb (M mod 2 ^ Z.of_nat n =? 0)%Z).
Proof.
  intros HM. induction n as [|n IH].
  - cbn [Nat.iter]. rewrite shr_1_record by done. change (2 ^ Z.of_nat 0)%Z with 1%Z. change (Z.of_nat 0) with 0%Z.
    by rewrite Z.mod_1_r, Z.bit0_odd.
  - change (Nat.iter (S (S n)) ?f ?x) with (f (Nat.iter (S n) f x)). rewrite IH.
    rewrite shr_1_record by (apply Z.div_pos; [done|apply Z.pow_pos_nonneg; lia]).
    assert (0 < 2 ^ Z.of_nat n)%Z as Hp by (apply Z.pow_pos_nonneg; lia).
    f_equal.
    + rewrite Z.div_div by lia. f_equal. rewrite (Nat2Z.inj_succ (S n)), Z.pow_succ_r by lia. lia.
    + rewrite Z.testbit_odd, Z.shiftr_div_pow2 by lia. done.
    + rewrite Nat2Z.inj_succ, Z.pow_succ_r by lia. rewrite (Z.mul_comm 2), Z.rem_mul_r by lia.
      rewrite Z.testbit_odd, Z.shiftr_div_pow2 by lia. rewrite Zmod_odd.
      pose proof (Z.mod_pos_bound M (2 ^ Z.of_nat n) Hp). destruct (Z.odd _); simpl; [|f_equal; f_equal; lia].
      symmetry. apply negb_true_iff, Z.eqb_neq. lia.
Qed.

(** ** Rounding to nearest, ties to even *)

Definition rne (M k : Z) : Z :=
  let q := (M / 2 ^ k)%Z in
  let t := (2 * (M mod 2 ^ k))%Z in
  if (t <? 2 ^ k)%Z then q else if (2 ^ k <? t)%Z then (q + 1)%Z
  else if Z.even q then q else (q + 1)%Z.

Lemma shr_rne M p : (0 ≤ M)%Z →
  let r := SpecFloat.iter_pos shr_1 p (Build_shr_record M false false) in
  round_nearest_even (shr_m r) (loc_of_shr_record r) = rne M (Zpos p).
Proof.
  intros HM. rewrite iter_pos_nat. destruct (Pos2Nat.is_succ p) as [n Hn]. rewrite Hn, iter_shr_record by done.
  replace (Z.of_nat (S n)) with (Zpos p) by lia. cbv zeta. cbn [shr_m]. unfold rne.
  assert (0 < 2 ^ Z.of_nat n)%Z as Hp by (apply Z.pow_pos_nonneg; lia).
  replace (2 ^ Zpos p)%Z with (2 ^ Z.of_nat n * 2)%Z by (replace (Zpos p) with (Z.of_nat n + 1)%Z by lia; rewrite Z.pow_add_r by lia; lia).
  rewrite (Z.rem_mul_r M (2 ^ Z.of_nat n) 2) by lia.
  rewrite Z.testbit_odd, Z.shiftr_div_pow2, Zmod_odd by lia.
  pose proof (Z.mod_pos_bound M (2 ^ Z.of_nat n) Hp) as Ht. set (t := (M mod 2 ^ Z.of_nat n)%Z) in *.
  destruct (Z.odd (M / 2 ^ Z.of_nat n)), (t =? 0)%Z eqn:E0; cbn [negb loc_of_shr_record round_nearest_even].
  - rewrite (proj2 (Z.ltb_ge _ _)), (proj2 (Z.ltb_ge _ _)) by lia. done.
  - rewrite (proj2 (Z.ltb_ge _ _)), (proj2 (Z.ltb_lt _ _)) by lia. done.
  - rewrite (proj2 (Z.ltb_lt _ _)) by lia. done.
  - rewrite (proj2 (Z.ltb_lt _ _)) by lia. done.
Qed.

Lemma rne_scale M k j : (0 ≤ k)%Z → (0 ≤ j)%Z → rne (M * 2 ^ j) (k + j) = rne M k.
Proof.
  intros Hk Hj. unfold rne. rewrite Z.pow_add_r by done.
  assert (0 < 2 ^ j)%Z by (apply Z.pow_pos_nonneg; lia). assert (0 < 2 ^ k)%Z by (apply Z.pow_pos_nonneg; lia).
  rewrite Z.div_mul_cancel_r, Zmult_mod_distr_r by lia.
  replace (2 * (M mod 2 ^ k * 2 ^ j) <? 2 ^ k * 2 ^ j)%Z with (2 * (M mod 2 ^ k) <? 2 ^ k)%Z by nia.
  replace (2 ^ k * 2 ^ j <? 2 * (M mod 2 ^ k * 2 ^ j))%Z with (2 ^ k <? 2 * (M mod 2 ^ k))%Z by nia.
  done.
Qed.

Lemma rne_bounds M k : (0 ≤ k)%Z → (M / 2 ^ k ≤ rne M k ≤ M / 2 ^ k + 1)%Z.
Proof. intros Hk. unfold rne. repeat case_match; lia. Qed.

Lemma rne_mono M M' k : (0 ≤ k)%Z → (M ≤ M')%Z → (rne M k ≤ rne M' k)%Z.
Proof.
  intros Hk HM. assert (0 < 2 ^ k)%Z as Hp by (apply Z.pow_pos_nonneg; lia).
  pose proof (Z.div_le_mono M M' (2 ^ k) Hp HM) as Hq.
  destruct (Z.eq_dec (M / 2 ^ k) (M' / 2 ^ k)) as [Heq|Hne].
  - pose proof (Z.div_mod M (2 ^ k)). pose proof (Z.div_mod M' (2 ^ k)).
    unfold rne. rewrite <- Heq. repeat case_match; lia.
  - pose proof (rne_bounds M k Hk). pose proof (rne_bounds M' k Hk). lia.
Qed.

(** ** The rounded product, truncated *)

Lemma digits_unique p n : (2 ^ (n - 1) ≤ Zpos p < 2 ^ n)%Z → (0 < n)%Z → Zpos (digits2_pos p) = n.
Proof.
  intros [Hl Hu] Hn. pose proof (digits_lower p) as H1. pose proof (digits_upper p) as H2.
  destruct (Z.lt_trichotomy (Zpos (digits2_pos p)) n) as [H|[H|H]]; [|done|].
  - assert (2 ^ Zpos (digits2_pos p) ≤ 2 ^ (n - 1))%Z by (apply Z.pow_le_mono_r; lia). lia.
  - assert (2 ^ n ≤ 2 ^ (Zpos (digits2_pos p) - 1))%Z by (apply Z.pow_le_mono_r; lia). lia.
Qed.

Lemma f64_as_u32_finite m e : (e ≤ 0)%Z →
  f64_as_u32 (S754_finite false m e) = Z.min u32_max (Zpos m / 2 ^ (- e)).
Proof.
  intros He. unfold f64_as_u32. destruct (0 <=? e)%Z eqn:E.
  - replace e with 0%Z by lia. by rewrite Z.shiftl_0_r, Z.div_1_r.
  - by rewrite Z.shiftr_div_pow2 by lia.
Qed.

(** The significand of a normal result before its final carry. *)
Lemma rne_normal m k : Zpos (digits2_pos m) = (53 + k)%Z → (0 < k)%Z →
  (2 ^ 52 ≤ rne (Zpos m) k ≤ 2 ^ 53)%Z.
Proof.
  intros Hd Hk. pose proof (digits_lower m) as Hl. pose proof (digits_upper m) as Hu. rewrite Hd in Hl, Hu.
  pose proof (rne_bounds (Zpos m) k). assert (0 < 2 ^ k)%Z by (apply Z.pow_pos_nonneg; lia).
  replace (53 + k - 1)%Z with (52 + k)%Z in Hl by lia. rewrite Z.pow_add_r in Hl, Hu by lia.
  assert (2 ^ 52 ≤ Zpos m / 2 ^ k)%Z by (apply Z.div_le_lower_bound; lia).
  assert (Zpos m / 2 ^ k < 2 ^ 53)%Z by (apply Z.div_lt_upper_bound; lia). lia.
Qed.

Lemma round_as_u32 m E k : Zpos (digits2_pos m) = (53 + k)%Z → (0 < k)%Z → (-1074 ≤ E + k < 0)%Z →
  f64_as_u32 (binary_round_aux prec emax false (Zpos m) E loc_Exact) =
  Z.min u32_max (rne (Zpos m) k / 2 ^ (- (E + k))).
Proof.
  intros Hd Hk HE. pose proof (rne_normal m k Hd Hk) as [Hl Hu]. unfold binary_round_aux.
  assert (shr_fexp prec emax (Zpos m) E loc_Exact =
    (SpecFloat.iter_pos shr_1 (Z.to_pos k) (Build_shr_record (Zpos m) false false), E + k)%Z) as ->.
  { unfold shr_fexp, shr. cbn [Zdigits2]. rewrite Hd.
    replace (fexp prec emax (53 + k + E) - E)%Z with k by (unfold fexp, emin; lia).
    by destruct k. }
  pose proof (shr_rne (Zpos m) (Z.to_pos k)) as Hr. cbv zeta in Hr. rewrite Hr, Z2Pos.id by lia.
  set (q := rne (Zpos m) k) in *. clear Hr. clearbody q.
  destruct (Z.eq_dec q (2 ^ 53)) as [->|Hq].
  - unfold shr_fexp, shr. change (Zdigits2 (2 ^ 53)) with 54%Z.
    replace (fexp prec emax (54 + (E + k)) - (E + k))%Z with 1%Z by (unfold fexp, emin; lia).
    change (shr_m (SpecFloat.iter_pos shr_1 1 (shr_record_of_loc (2 ^ 53) loc_Exact))) with (2 ^ 52)%Z.
    change (2 ^ 52)%Z with (Zpos (2 ^ 52)). cbv iota. rewrite (proj2 (Z.leb_le _ _)) by lia.
    rewrite f64_as_u32_finite by lia. f_equal.
    replace (- (E + k))%Z with (1 + - (E + k + 1))%Z at 1 by lia. rewrite (Z.pow_add_r 2 1) by lia.
    rewrite <- Z.div_div by (try apply Z.pow_nonzero; lia). done.
  - destruct q as [|q|q]; [lia| |lia]. unfold shr_fexp, shr. cbn [Zdigits2].
    rewrite (digits_unique q 53) by lia.
    replace (fexp prec emax (53 + (E + k)) - (E + k))%Z with 0%Z by (unfold fexp, emin; lia).
    cbn [shr_record_of_loc shr_m]. rewrite (proj2 (Z.leb_le _ _)) by lia. by rewrite f64_as_u32_finite by lia.
Qed.

(** A product far below one truncates to zero. *)
Lemma round_tiny m E : (Zpos m < 2 ^ 107)%Z → (E ≤ -400)%Z →
  f64_as_u32 (binary_round_aux prec emax false (Zpos m) E loc_Exact) = 0%Z.
Proof.
  intros Hm HE. unfold binary_round_aux.
  pose proof (shr_fexp_le (Zpos m) E loc_Exact) as H1. destruct (shr_fexp prec emax (Zpos m) E loc_Exact) as [r1 e1].
  destruct H1 as (Hr1 & He1 & He1'); [lia|]. pose proof (Zdigits2_le (Zpos m) 107) as Hd.
  pose proof (round_nearest_le (shr_m r1) (loc_of_shr_record r1)) as Hn.
  set (m1 := round_nearest_even (shr_m r1) (loc_of_shr_record r1)) in *.
  pose proof (shr_fexp_le m1 e1 loc_Exact) as H2. destruct (shr_fexp prec emax m1 e1 loc_Exact) as [r2 e2].
  destruct H2 as (Hr2 & He2 & He2'); [lia|].
  assert (m1 < 2 ^ 108)%Z as Hm1 by (assert (2 ^ 107 + 1 < 2 ^ 108)%Z by (vm_compute; done); lia).
  pose proof (Zdigits2_le m1 108) as Hd1.
  assert (e1 ≤ -346)%Z by (destruct He1' as [->|E1]; [|unfold fexp, emin in E1]; lia).
  assert (e2 ≤ -200)%Z by (destruct He2' as [->|E2]; [|unfold fexp, emin in E2]; lia).
  destruct (shr_m r2) as [|p|p]; [done| |lia]. rewrite (proj2 (Z.leb_le _ _)) by lia.
  rewrite f64_as_u32_finite by lia. rewrite Z.div_small; [done|]. split; [lia|].
  apply (Z.lt_le_trans _ (2 ^ 108)); [lia|]. apply Z.pow_le_mono_r; lia.
Qed.

(** Two products in order, at exponents in order. *)
Lemma round_mono m E k m' E' k' :
  Zpos (digits2_pos m) = (53 + k)%Z → Zpos (digits2_pos m') = (53 + k')%Z → (0 < k)%Z → (0 < k')%Z →
  (-1074 ≤ E + k)%Z → (E' + k' < 0)%Z → (E ≤ E')%Z → (Zpos m ≤ Zpos m' * 2 ^ (E' - E))%Z →
  (f64_as_u32 (binary_round_aux prec emax false (Zpos m) E loc_Exact) ≤
   f64_as_u32 (binary_round_aux prec emax false (Zpos m') E' loc_Exact))%Z.
Proof.
  intros Hd Hd' Hk Hk' HE HE' HEE Hm.
  pose proof (rne_normal m k Hd Hk) as Hn. pose proof (rne_normal m' k' Hd' Hk') as Hn'.
  assert (E + k ≤ E' + k')%Z as Hexp.
  { destruct (Z.le_gt_cases (E + k) (E' + k')) as [?|Hgt]; [done|exfalso].
    pose proof (digits_lower m) as Hl. pose proof (digits_upper m') as Hu. rewrite Hd in Hl. rewrite Hd' in Hu.
    assert (2 ^ (53 + k') * 2 ^ (E' - E) ≤ 2 ^ (53 + k - 1))%Z.
    { rewrite <- Z.pow_add_r by lia. apply Z.pow_le_mono_r; lia. }
    assert (0 < 2 ^ (E' - E))%Z by (apply Z.pow_pos_nonneg; lia). nia. }
  rewrite (round_as_u32 m E k), (round_as_u32 m' E' k') by lia. apply Z.min_le_compat_l.
  set (j := (E' + k' - (E + k))%Z).
  replace (- (E + k))%Z with (j + - (E' + k'))%Z by lia.
  assert (0 < 2 ^ j)%Z as Hj by (apply Z.pow_pos_nonneg; lia).
  assert (0 < 2 ^ (- (E' + k')))%Z by (apply Z.pow_pos_nonneg; lia).
  assert (rne (Zpos m) k ≤ rne (Zpos m') k' * 2 ^ j)%Z as Hle.
  { destruct (Z.eq_dec j 0) as [Hj0|Hj0].
    - rewrite Hj0, Z.mul_1_r. rewrite <- (rne_scale (Zpos m') k' (E' - E)) by lia.
      replace (k' + (E' - E))%Z with k by lia. apply rne_mono; lia.
    - assert (2 ^ 1 ≤ 2 ^ j)%Z by (apply Z.pow_le_mono_r; lia). nia. }
  rewrite Z.pow_add_r by lia. rewrite <- Z.div_div by lia. apply Z.div_le_mono; [done|].
  apply Z.div_le_upper_bound; lia.
Qed.

(** ** Fractions scaled by a constant *)

Lemma f64_as_u32_nonneg x : (0 ≤ f64_as_u32 x)%Z.
Proof.
  unfold f64_as_u32. destruct x as [s|s| |s m e]; try done; destruct s; try done.
  assert (0 ≤ u32_max)%Z by done. apply Z.min_glb; [done|].
  destruct (0 <=? e)%Z; [apply Z.shiftl_nonneg|apply Z.shiftr_nonneg]; lia.
Qed.

Lemma product_digits a b : Zpos (digits2_pos a) = 53%Z → Zpos (digits2_pos b) = 53%Z →
  (105 ≤ Zpos (digits2_pos (a * b)) ≤ 106)%Z.
Proof.
  intros Ha Hb. pose proof (digits_lower a) as La. pose proof (digits_upper a) as Ua.
  pose proof (digits_lower b) as Lb. pose proof (digits_upper b) as Ub. rewrite Ha in La, Ua. rewrite Hb in Lb, Ub.
  assert (2 ^ 104 ≤ Zpos (a * b) < 2 ^ 106)%Z as Hp.
  { rewrite Pos2Z.inj_mul. change (2 ^ 104)%Z with (2 ^ (53 - 1) * 2 ^ (53 - 1))%Z.
    change (2 ^ 106)%Z with (2 ^ 53 * 2 ^ 53)%Z. nia. }
  pose proof (Zdigits2_le (Zpos (a * b)) 106) as Hd. cbn [Zdigits2] in Hd. split; [|lia].
  pose proof (digits_upper (a * b)) as U.
  destruct (Z.le_gt_cases 105 (Zpos (digits2_pos (a * b)))) as [?|Hlt]; [done|exfalso].
  assert (2 ^ Zpos (digits2_pos (a * b)) ≤ 2 ^ 104)%Z by (apply Z.pow_le_mono_r; lia). lia.
Qed.

Lemma bounded_normal m e : bounded prec emax m e = true → (-1074 < e)%Z → Zpos (digits2_pos m) = 53%Z.
Proof.
  unfold bounded, canonical_mantissa. intros [Hc _]%andb_prop He. apply Zeq_bool_eq in Hc.
  unfold fexp, emin in Hc. lia.
Qed.

Lemma bounded_digits m e : bounded prec emax m e = true → (Zpos m < 2 ^ 53)%Z.
Proof.
  unfold bounded, canonical_mantissa. intros [Hc _]%andb_prop. apply Zeq_bool_eq in Hc.
  pose proof (digits_upper m) as Hu. eapply Z.lt_le_trans; [exact Hu|].
  apply Z.pow_le_mono_r; [lia|]. unfold fexp, emin in Hc. lia.
Qed.

(** A double of the interval [0, 1]: zero, or positive with an exponent of at most -52. *)
Definition fraction (x : f64) : Prop :=
  valid_binary prec emax x = true ∧ f64_le f64_zero x = true ∧ f64_le x (f64_of_Z 1) = true.

Lemma fraction_inv x : fraction x →
  (∃ s, x = S754_zero s) ∨
  ∃ m e, x = S754_finite false m e ∧ bounded prec emax m e = true ∧ (e ≤ -52)%Z.
Proof.
  intros (Hv & H0 & H1). destruct x as [s|[]| |[] m e]; try done; [by left; eexists|].
  right. exists m, e. split_and!; [done|done|].
  change (f64_of_Z 1) with (S754_finite false 4503599627370496 (-52)) in H1.
  unfold f64_le, SFleb in H1. cbn [SFcompare] in H1.
  destruct (Z.compare_spec e (-52)); [lia|lia|done].
Qed.

Lemma f64_le_finite m e m' e' : f64_le (S754_finite false m e) (S754_finite false m' e') = true →
  (e < e')%Z ∨ (e = e' ∧ Zpos m ≤ Zpos m')%Z.
Proof.
  unfold f64_le, SFleb. cbn [SFcompare]. destruct (Z.compare_spec e e') as [He|He|He]; [|by left|done].
  intros H. right. split; [done|]. change (Pos.compare_cont Eq m m') with (Pos.compare m m') in H.
  destruct (Pos.compare_spec m m'); [lia|lia|done].
Qed.

Lemma scaled_mono c ec x y :
  Zpos (digits2_pos c) = 53%Z → (-39 ≤ ec < -1)%Z →
  fraction x → fraction y → f64_le x y = true →
  (f64_as_u32 (f64_mul x (S754_finite false c ec)) ≤ f64_as_u32 (f64_mul y (S754_finite false c ec)))%Z.
Proof.
  intros Hc Hec Hx Hy Hle.
  destruct (fraction_inv x Hx) as [[s ->]|(m & e & -> & Hm & He)]; [by apply f64_as_u32_nonneg|].
  destruct (fraction_inv y Hy) as [[s ->]|(m' & e' & -> & Hm' & He')]; [done|].
  apply f64_le_finite in Hle. unfold f64_mul. cbn [SFmul xorb].
  pose proof (bounded_digits m e Hm) as Hmu. pose proof (digits_upper c) as Hcu. rewrite Hc in Hcu.
  destruct (Z.le_gt_cases (e + ec) (-400)) as [Htiny|Hbig].
  { rewrite round_tiny; [apply f64_as_u32_nonneg| |done]. rewrite Pos2Z.inj_mul.
    assert (2 ^ 53 * 2 ^ 53 < 2 ^ 107)%Z by (vm_compute; done). nia. }
  pose proof (bounded_normal m e Hm) as Hd. pose proof (bounded_normal m' e' Hm') as Hd'.
  pose proof (product_digits m c) as Hp. pose proof (product_digits m' c) as Hp'.
  apply (round_mono _ _ (Zpos (digits2_pos (m * c)) - 53) _ _ (Zpos (digits2_pos (m' * c)) - 53)); try lia.
  rewrite !Pos2Z.inj_mul. replace (e' + ec - (e + ec))%Z with (e' - e)%Z by lia.
  destruct Hle as [Hlt|[-> Hmm]]; [|rewrite Z.sub_diag; nia].
  pose proof (digits_lower m') as Hl'. rewrite Hd' in Hl' by lia.
  assert (2 ^ 1 ≤ 2 ^ (e' - e))%Z by (apply Z.pow_le_mono_r; lia).
  assert (Zpos m ≤ Zpos m' * 2 ^ (e' - e))%Z by (change (2 ^ 53)%Z with (2 * 2 ^ (53 - 1))%Z in Hmu; nia). nia.
Qed.
