(* ===== verification/F64Sum.v ===== *)
(** Sums of doubles: a positive sum far from overflow is finite, positive and normalized,
    adding a fraction never overflows, and the complement of a fraction is a fraction. *)
From Stdlib Require Import SpecFloat.
From S2P Require Import Prelude F64 F64Mono.

Local Notation prec := 53%Z.
Local Notation emax := 1024%Z.

(** ** Alignment *)

Lemma iter_xO m d : Zpos (Pos.iter xO m d) = (Zpos m * 2 ^ Zpos d)%Z.
Proof.
  revert m. induction d as [|d IH] using Pos.peano_ind; intros m; [cbn; lia|].
  rewrite Pos.iter_succ, Pos2Z.inj_succ, Z.pow_succ_r by lia.
  change (Zpos (xO (Pos.iter xO m d))) with (2 * Zpos (Pos.iter xO m d))%Z. rewrite IH. lia.
Qed.

Lemma shl_align_spec m e e' : (e' ≤ e)%Z →
  Zpos (shl_align m e e').1 = (Zpos m * 2 ^ (e - e'))%Z ∧ (shl_align m e e').2 = e'.
Proof.
  intros He. unfold shl_align. destruct (e' - e)%Z as [|p|p] eqn:E; [|lia|].
  - cbn. replace e' with e by lia. rewrite Z.sub_diag. cbn. lia.
  - cbn [fst snd]. rewrite iter_xO. replace (e - e')%Z with (Zpos p) by lia. done.
Qed.

Lemma digits_shift m n : (0 ≤ n)%Z → ∀ q, Zpos q = (Zpos m * 2 ^ n)%Z → Zpos (digits2_pos q) = (Zpos (digits2_pos m) + n)%Z.
Proof.
  intros Hn q Hq. apply digits_unique; [|lia]. pose proof (digits_lower m) as Hl. pose proof (digits_upper m) as Hu.
  rewrite Hq. rewrite Z.pow_add_r by lia.
  replace (Zpos (digits2_pos m) + n - 1)%Z with (Zpos (digits2_pos m) - 1 + n)%Z by lia. rewrite Z.pow_add_r by lia.
  assert (0 < 2 ^ n)%Z by (apply Z.pow_pos_nonneg; lia). nia.
Qed.

(** ** Rounding *)

(** A positive double in canonical form. *)
Definition canonical (q : positive) (e : Z) : Prop :=
  (-1074 ≤ e)%Z ∧ (Zpos (digits2_pos q) ≤ 53)%Z ∧ ((-1074 < e)%Z → Zpos (digits2_pos q) = 53%Z).

(** A significand that fits is not changed. *)
Lemma round_exact q e : canonical q e → (e ≤ 971)%Z →
  binary_round_aux prec emax false (Zpos q) e loc_Exact = S754_finite false q e.
Proof.
  intros (He & Hd & Hn) Hmax.
  assert (∀ k, shr_fexp prec emax (Zpos q) e k = (shr_record_of_loc (Zpos q) k, e)) as Hs.
  { intros k. unfold shr_fexp, shr. cbn [Zdigits2].
    replace (fexp prec emax (Zpos (digits2_pos q) + e) - e)%Z with 0%Z; [done|]. unfold fexp, emin.
    destruct (Z.eq_dec e (-1074)) as [->|]; [lia|]. rewrite Hn by lia. lia. }
  unfold binary_round_aux. rewrite Hs. cbn [shr_record_of_loc shr_m loc_of_shr_record round_nearest_even].
  rewrite Hs. cbn [shr_record_of_loc shr_m]. by rewrite (proj2 (Z.leb_le e (emax - prec))) by lia.
Qed.

(** A longer significand is cut to 53 bits, nearest and ties to even. *)
Lemma round_long m E k : Zpos (digits2_pos m) = (53 + k)%Z → (0 < k)%Z → (-1074 ≤ E)%Z →
  (E + k ≤ 971)%Z → (rne (Zpos m) k = 2 ^ 53 → E + k < 971)%Z →
  ∃ q e, binary_round_aux prec emax false (Zpos m) E loc_Exact = S754_finite false q e ∧ canonical q e ∧
    (rne (Zpos m) k = Zpos q ∧ e = E + k ∨ rne (Zpos m) k = 2 ^ 53 ∧ Zpos q = 2 ^ 52 ∧ e = E + k + 1)%Z.
Proof.
  intros Hd Hk HE Hmax Hcarry. pose proof (rne_normal m k Hd Hk) as [Hl Hu].
  pose proof (shr_rne (Zpos m) (Z.to_pos k) ltac:(lia)) as Hr. cbv zeta in Hr. rewrite Z2Pos.id in Hr by lia.
  assert (shr_fexp prec emax (Zpos m) E loc_Exact =
    (SpecFloat.iter_pos shr_1 (Z.to_pos k) (Build_shr_record (Zpos m) false false), E + k)%Z) as Hs.
  { unfold shr_fexp, shr. cbn [Zdigits2]. rewrite Hd.
    replace (fexp prec emax (53 + k + E) - E)%Z with k by (unfold fexp, emin; lia). by destruct k. }
  destruct (Z.eq_dec (rne (Zpos m) k) (2 ^ 53)) as [Hq|Hq].
  - exists (2 ^ 52)%positive, (E + k + 1)%Z. split_and!; [|split_and!; [lia|done|done]|by right].
    unfold binary_round_aux. rewrite Hs, Hr, Hq. unfold shr_fexp, shr. change (Zdigits2 (2 ^ 53)) with 54%Z.
    replace (fexp prec emax (54 + (E + k)) - (E + k))%Z with 1%Z by (unfold fexp, emin; lia).
    change (shr_m (SpecFloat.iter_pos shr_1 1 (shr_record_of_loc (2 ^ 53) loc_Exact))) with (Zpos (2 ^ 52)).
    cbv iota. by rewrite (proj2 (Z.leb_le (E + k + 1) (emax - prec))) by lia.
  - destruct (rne (Zpos m) k) as [|q|q] eqn:Eq; [lia| |lia]. exists q, (E + k)%Z.
    assert (Zpos (digits2_pos q) = 53)%Z as Hdq by (apply digits_unique; lia).
    assert (canonical q (E + k)) as Hcan by (split_and!; lia).
    split_and!; [|done|by left]. rewrite <- (round_exact q (E + k)) by (done || lia).
    unfold binary_round_aux at 1. rewrite Hs, Hr. unfold binary_round_aux.
    destruct Hcan as (? & ? & ?). unfold shr_fexp, shr. cbn [Zdigits2]. rewrite Hdq.
    replace (fexp prec emax (53 + (E + k)) - (E + k))%Z with 0%Z by (unfold fexp, emin; lia).
    cbn [shr_record_of_loc shr_m loc_of_shr_record round_nearest_even Zdigits2]. rewrite Hdq.
    by replace (fexp prec emax (53 + (E + k)) - (E + k))%Z with 0%Z by (unfold fexp, emin; lia).
Qed.

(** The rounded value of [m * 2 ^ E]. *)
Lemma binary_round_shape m E : (-1074 ≤ E)%Z → (Zpos (digits2_pos m) + E ≤ 1000)%Z →
  ∃ q e, binary_round prec emax false m E = S754_finite false q e ∧ canonical q e ∧
    (e ≤ Z.max (-1074) (Zpos (digits2_pos m) + E - 53) + 1)%Z ∧
    (Zpos q * 2 ^ (e + 1074) ≤ 2 ^ (Zpos (digits2_pos m) + E + 1074))%Z.
Proof.
  intros HE Hmax. set (d := Zpos (digits2_pos m)) in *. assert (0 < d)%Z as Hd by lia. unfold binary_round. fold d.
  destruct (Z.le_gt_cases d 53) as [Hs|Hl].
  - set (e := fexp prec emax (d + E)). assert (e ≤ E ∧ e = Z.max (d + E - 53) (-1074))%Z as [He He'] by (unfold e, fexp, emin; lia).
    pose proof (shl_align_spec m E e He) as [Hm Hex]. fold e. destruct (shl_align m E e) as [q e''] eqn:Ea.
    cbn [fst snd] in *. subst e''. pose proof (digits_shift m (E - e) ltac:(lia) q Hm) as Hdq. fold d in Hdq.
    assert (canonical q e) as Hc by (split_and!; lia). exists q, e. split_and!; [by apply round_exact; [|lia]|done|lia|].
    pose proof (digits_upper q) as Hu. rewrite Hdq in Hu.
    replace (d + E + 1074)%Z with (d + (E - e) + (e + 1074))%Z by lia. rewrite (Z.pow_add_r 2 (d + (E - e))) by lia.
    apply Z.mul_le_mono_nonneg_r; [apply Z.pow_nonneg; lia|lia].
  - assert (shl_align m E (fexp prec emax (d + E)) = (m, E)) as ->.
    { unfold shl_align. replace (fexp prec emax (d + E) - E)%Z with (d - 53)%Z by (unfold fexp, emin; lia).
      by destruct (d - 53)%Z eqn:E1; [|done|lia]. }
    destruct (round_long m E (d - 53)) as (q & e & -> & Hc & Hq); [unfold d; lia|lia..|].
    exists q, e. split_and!; [done|done|lia|].
    assert (Zpos q * 2 ^ (e + 1074) ≤ 2 ^ 53 * 2 ^ (d + E - 53 + 1074))%Z as Hle.
    { pose proof (rne_normal m (d - 53) ltac:(unfold d; lia) ltac:(lia)) as [_ Hu].
      destruct Hq as [[Hq ->]|(_ & -> & ->)].
      - rewrite <- Hq. replace (E + (d - 53) + 1074)%Z with (d + E - 53 + 1074)%Z by lia.
        apply Z.mul_le_mono_nonneg_r; [apply Z.pow_nonneg; lia|done].
      - replace (E + (d - 53) + 1 + 1074)%Z with (1 + (d + E - 53 + 1074))%Z by lia. rewrite (Z.pow_add_r 2 1) by lia. lia. }
    rewrite <- Z.pow_add_r in Hle by lia. by replace (53 + (d + E - 53 + 1074))%Z with (d + E + 1074)%Z in Hle by lia.
Qed.

(** ** Sums *)

(** Zero, or positive, canonical and finite. *)
Definition nonneg (x : f64) : Prop :=
  x = S754_zero false ∨ ∃ m e, x = S754_finite false m e ∧ canonical m e ∧ (e ≤ 971)%Z.

Definition positive_f64 (x : f64) : Prop := ∃ m e, x = S754_finite false m e ∧ canonical m e ∧ (e ≤ 971)%Z.

(** In the interval [0, 1]. *)
Definition unit_f64 (x : f64) : Prop :=
  (∃ s, x = S754_zero s) ∨ ∃ m e, x = S754_finite false m e ∧ canonical m e ∧ (e ≤ 0 ∧ Zpos m ≤ 2 ^ (- e))%Z.

Lemma add_finite m e m' e' : SFadd prec emax (S754_finite false m e) (S754_finite false m' e') =
  binary_normalize prec emax (Zpos m * 2 ^ (e - Z.min e e') + Zpos m' * 2 ^ (e' - Z.min e e')) (Z.min e e') false.
Proof.
  unfold SFadd. destruct (shl_align_spec m e (Z.min e e')) as [-> _]; [lia|].
  destruct (shl_align_spec m' e' (Z.min e e')) as [-> _]; [lia|]. done.
Qed.

(** A fraction is absorbed by a large double. *)
Lemma add_absorbed m e m' e' : canonical m e → (2 ≤ e ≤ 971)%Z → (-1074 ≤ e' ≤ 0)%Z → (Zpos m' ≤ 2 ^ (- e'))%Z →
  f64_add (S754_finite false m e) (S754_finite false m' e') = S754_finite false m e.
Proof.
  intros Hc He He' Hm'. unfold f64_add. rewrite add_finite, Z.min_r, Z.sub_diag, Z.pow_0_r, Z.mul_1_r by lia.
  set (k := (e - e')%Z). destruct Hc as (_ & _ & Hd). specialize (Hd ltac:(lia)).
  pose proof (digits_lower m) as Hl. pose proof (digits_upper m) as Hu. rewrite Hd in Hl, Hu.
  assert (2 ^ (- e') * 4 ≤ 2 ^ k)%Z as Hk.
  { change 4%Z with (2 ^ 2)%Z. rewrite <- Z.pow_add_r by lia. apply Z.pow_le_mono_r; lia. }
  assert (0 < 2 ^ (- e'))%Z by (apply Z.pow_pos_nonneg; lia).
  destruct (Zpos m * 2 ^ k + Zpos m')%Z as [|M|M] eqn:EM; [lia| |lia]. cbn [binary_normalize]. unfold binary_round.
  assert (Zpos (digits2_pos M) = 53 + k)%Z as HdM.
  { apply digits_unique; [|lia]. rewrite <- EM. replace (53 + k - 1)%Z with (52 + k)%Z by lia.
    rewrite !Z.pow_add_r by lia. change (2 ^ (53 - 1))%Z with (2 ^ 52)%Z in Hl. nia. }
  rewrite HdM. assert (shl_align M e' (fexp prec emax (53 + k + e')) = (M, e')) as ->.
  { unfold shl_align. replace (fexp prec emax (53 + k + e') - e')%Z with k by (unfold fexp, emin; lia).
    by destruct k eqn:E1; [|done|lia]. }
  assert (rne (Zpos M) k = Zpos m) as Hr.
  { unfold rne. rewrite <- EM. rewrite Z.add_comm, Z.div_add, Z.mod_add by lia.
    rewrite Z.div_small, Z.mod_small by lia. rewrite (proj2 (Z.ltb_lt _ _)) by lia. done. }
  destruct (round_long M e' k HdM) as (q & e1 & -> & _ & Hq); [lia..|].
  rewrite Hr in Hq. destruct Hq as [[Hq ->]|[Hq _]]; [|lia]. injection Hq as <-. f_equal. lia.
Qed.

(** Adding a fraction to a positive double gives a positive double. *)
Lemma add_unit_positive a r : positive_f64 a → unit_f64 r → positive_f64 (f64_add a r).
Proof.
  intros (m & e & -> & Hc & He) [[s ->]|(m' & e' & -> & Hc' & He' & Hm')]; [by exists m, e|].
  destruct (Z.le_gt_cases 2 e) as [Hbig|Hsmall].
  { rewrite add_absorbed by (done || destruct Hc'; lia). by exists m, e. }
  unfold f64_add. rewrite add_finite. set (ez := Z.min e e').
  assert (-1074 ≤ ez)%Z by (destruct Hc, Hc'; lia).
  pose proof (digits_upper m) as Hu. pose proof (digits_upper m') as Hu'.
  assert (Zpos m < 2 ^ 53 ∧ Zpos m' < 2 ^ 53)%Z as [Hm1 Hm2].
  { destruct Hc as (_ & ? & _), Hc' as (_ & ? & _). split; (eapply Z.lt_le_trans; [done|]; apply Z.pow_le_mono_r; lia). }
  assert (0 < 2 ^ (e - ez))%Z by (apply Z.pow_pos_nonneg; lia). assert (0 < 2 ^ (e' - ez))%Z by (apply Z.pow_pos_nonneg; lia).
  destruct (Zpos m * 2 ^ (e - ez) + Zpos m' * 2 ^ (e' - ez))%Z as [|M|M] eqn:EM; [lia| |lia]. cbn [binary_normalize].
  assert (Zpos (digits2_pos M) + ez ≤ 60)%Z as Hd.
  { pose proof (Zdigits2_le (Zpos M) (56 - ez)) as HdM. cbn [Zdigits2] in HdM.
    assert (2 ^ (e - ez) ≤ 2 ^ (2 - ez) ∧ 2 ^ (e' - ez) ≤ 2 ^ (2 - ez))%Z as [? ?] by (split; apply Z.pow_le_mono_r; lia).
    assert (2 ^ (56 - ez) = 2 ^ 54 * 2 ^ (2 - ez))%Z as Hp by (rewrite <- Z.pow_add_r by lia; f_equal; lia).
    change (2 ^ 54)%Z with (2 ^ 53 + 2 ^ 53)%Z in Hp. assert (Zpos M < 2 ^ (56 - ez))%Z by nia. lia. }
  destruct (binary_round_shape M ez) as (q & e1 & -> & Hcq & He1 & _); [lia..|].
  exists q, e1. split_and!; [done|done|lia].
Qed.

Lemma one_is : f64_of_Z 1 = S754_finite false (2 ^ 52)%positive (-52).
Proof. by vm_compute. Qed.

(** The complement of a fraction is a fraction. *)
Lemma one_minus_unit r : unit_f64 r → unit_f64 (f64_sub (f64_of_Z 1) r).
Proof.
  intros Hr. rewrite one_is.
  destruct Hr as [[s ->]|(m & e & -> & (He & Hd & Hn) & He0 & Hm)].
  { right. exists (2 ^ 52)%positive, (-52)%Z. by split_and!. }
  assert (e ≤ -52)%Z as He52.
  { destruct (Z.le_gt_cases e (-52)) as [?|Hgt]; [done|exfalso]. pose proof (digits_lower m) as Hl. rewrite Hn in Hl by lia.
    assert (2 ^ (- e) ≤ 2 ^ 51)%Z by (apply Z.pow_le_mono_r; lia). change (2 ^ (53 - 1))%Z with (2 * 2 ^ 51)%Z in Hl. lia. }
  unfold f64_sub, SFsub. rewrite Z.min_r by lia. cbn [cond_Zopp].
  destruct (shl_align_spec (2 ^ 52) (-52) e) as [-> _]; [lia|]. destruct (shl_align_spec m e e) as [-> _]; [lia|].
  rewrite Z.sub_diag, Z.pow_0_r, Z.mul_1_r. change (Zpos (2 ^ 52)) with (2 ^ 52)%Z. rewrite <- Z.pow_add_r by lia.
  replace (52 + (-52 - e))%Z with (- e)%Z by lia.
  destruct (2 ^ (- e) - Zpos m)%Z as [|M|M] eqn:EM; [left; by exists false| |lia]. cbn [binary_normalize].
  pose proof (Zdigits2_le (Zpos M) (- e)) as HdM. cbn [Zdigits2] in HdM.
  destruct (binary_round_shape M e) as (q & e1 & -> & Hcq & He1 & Hq); [lia..|]. right. exists q, e1.
  split_and!; [done|done|lia|]. destruct Hcq as (Hc1 & _ & _).
  assert (2 ^ (Zpos (digits2_pos M) + e + 1074) ≤ 2 ^ (- e1) * 2 ^ (e1 + 1074))%Z as Hle.
  { rewrite <- Z.pow_add_r by lia. apply Z.pow_le_mono_r; lia. }
  assert (0 < 2 ^ (e1 + 1074))%Z by (apply Z.pow_pos_nonneg; lia). nia.
Qed.

(** Every [f64] of the program is one of the doubles; one in the unit interval is a fraction. *)
Definition valid_f64 (x : f64) : Prop := valid_binary prec emax x = true.

Lemma unit_interval_fraction r : valid_f64 r → f64_le f64_zero r = true →
  f64_le r (f64_of_Z 1) = true → unit_f64 r.
Proof.
  intros Hv H0 H1. destruct (fraction_inv r) as [[s ->]|(m & e & -> & Hb & He)]; [done|left; by exists s|right].
  exists m, e. split; [done|]. pose proof (bounded_digits m e Hb) as Hm.
  unfold bounded, canonical_mantissa in Hb. apply andb_prop in Hb as [Hc _]. apply Zeq_bool_eq in Hc. unfold fexp, emin in Hc.
  split; [split_and!; lia|]. split; [lia|]. rewrite one_is in H1. apply f64_le_finite in H1 as [H1|[-> H1]].
  - assert (2 ^ 53 ≤ 2 ^ (- e))%Z by (apply Z.pow_le_mono_r; lia). lia.
  - exact H1.
Qed.

Lemma positive_gt_zero x : positive_f64 x → f64_gt x f64_zero = true.
Proof. by intros (m & e & -> & _). Qed.

Lemma positive_finite x : positive_f64 x → f64_is_finite x = true.
Proof. by intros (m & e & -> & _). Qed.

(** ** Sums are numbers *)

Lemma round_number s m e l : (0 ≤ m)%Z → binary_round_aux prec emax s m e l ≠ S754_nan.
Proof.
  intros Hm. unfold binary_round_aux.
  pose proof (shr_fexp_le m e l Hm) as H1. destruct (shr_fexp prec emax m e l) as [r1 e1]. destruct H1 as (Hr1 & _).
  pose proof (round_nearest_le (shr_m r1) (loc_of_shr_record r1)) as Hn.
  pose proof (shr_fexp_le (round_nearest_even (shr_m r1) (loc_of_shr_record r1)) e1 loc_Exact) as H2.
  destruct (shr_fexp prec emax _ e1 loc_Exact) as [r2 e2]. destruct H2 as (Hr2 & _); [lia|].
  destruct (shr_m r2); [done|by destruct (_ <=? _)%Z|lia].
Qed.

Lemma normalize_number m e s : binary_normalize prec emax m e s ≠ S754_nan.
Proof.
  destruct m as [|m|m]; cbn [binary_normalize]; [done|..]; unfold binary_round; destruct (shl_align m e _);
    by apply round_number.
Qed.

(** The sum of two finite doubles is a number. *)
Lemma add_number x y : f64_is_finite x = true → f64_is_finite y = true → f64_add x y ≠ S754_nan.
Proof.
  unfold f64_add. destruct x as [[]| | |sx mx ex], y as [[]| | |sy my ey]; try done. intros _ _.
  unfold SFadd. apply normalize_number.
Qed.
