(* ===== verification/F64Order.v ===== *)
(** The order of the doubles: [<=] is a total preorder of the numbers and [>] its complement;
    the lattice operations [f64::min] and [f64::clamp]; signs and infinities of products,
    quotients and sums. *)
From Stdlib Require Import SpecFloat.
From S2P Require Import Prelude F64 F64Mono F64Sum.

Definition is_number (x : f64) : Prop := x ≠ S754_nan.

#[export] Instance is_number_dec x : Decision (is_number x).
Proof. unfold is_number. destruct x; (left; done) || (right; by intros []). Defined.

(** [f64::min] ignores a NaN. *)
Definition f64_min (x y : f64) : f64 :=
  match x, y with
  | S754_nan, _ => y
  | _, S754_nan => x
  | _, _ => if f64_lt y x then y else x
  end.

(** So does [f64::max]. *)
Definition f64_max (x y : f64) : f64 :=
  match x, y with
  | S754_nan, _ => y
  | _, S754_nan => x
  | _, _ => if f64_lt x y then y else x
  end.

(** [f64::clamp], whose assertion [lo <= hi] is left to its callers. *)
Definition f64_clamp (x lo hi : f64) : f64 := if f64_lt x lo then lo else if f64_gt x hi then hi else x.

(** ** The preorder *)

Ltac compare_cases :=
  cbn [SFcompare] in *; change (Pos.compare_cont Eq) with Pos.compare in *;
  repeat match goal with
    | |- context [Z.compare ?a ?b] => destruct (Z.compare_spec a b)
    | H : context [Z.compare ?a ?b] |- _ => destruct (Z.compare_spec a b)
    end;
  repeat match goal with
    | |- context [Pos.compare ?a ?b] => destruct (Pos.compare_spec a b)
    | H : context [Pos.compare ?a ?b] |- _ => destruct (Pos.compare_spec a b)
    end;
  cbn [CompOpp] in *; try done; try lia.

Ltac double_cases x := destruct x as [[]|[]| |[] ? ?].

Lemma f64_le_number x y : f64_le x y = true → is_number x ∧ is_number y.
Proof. unfold is_number. double_cases x; double_cases y; done. Qed.

Lemma f64_lt_number x y : f64_lt x y = true → is_number x ∧ is_number y.
Proof. unfold is_number. double_cases x; double_cases y; done. Qed.

Lemma finite_is_number x : f64_is_finite x = true → is_number x.
Proof. unfold is_number. by double_cases x. Qed.

Lemma f64_le_refl x : is_number x → f64_le x x = true.
Proof. unfold f64_le, SFleb. intros Hx. double_cases x; try done; compare_cases. Qed.

Lemma f64_le_trans x y z : f64_le x y = true → f64_le y z = true → f64_le x z = true.
Proof.
  unfold f64_le, SFleb. double_cases x; double_cases y; double_cases z; try done; intros H1 H2; compare_cases.
Qed.

(** The complement. *)
Lemma f64_lt_nle x y : is_number x → is_number y → f64_lt x y = negb (f64_le y x).
Proof. unfold is_number, f64_lt, f64_le, SFltb, SFleb. double_cases x; double_cases y; try done; intros; compare_cases. Qed.

Lemma f64_lt_le x y : f64_lt x y = true → f64_le x y = true.
Proof. unfold f64_lt, f64_le, SFltb, SFleb. double_cases x; double_cases y; try done; intros; compare_cases. Qed.

Lemma f64_le_total x y : is_number x → is_number y → f64_le x y = true ∨ f64_le y x = true.
Proof.
  intros Hx Hy. destruct (f64_le x y) eqn:E; [by left|right]. apply f64_lt_le. by rewrite f64_lt_nle, E.
Qed.

Lemma f64_lt_le_trans x y z : f64_lt x y = true → f64_le y z = true → f64_lt x z = true.
Proof.
  intros H1 H2. destruct (f64_lt_number _ _ H1) as [Hx Hy], (f64_le_number _ _ H2) as [_ Hz].
  rewrite f64_lt_nle in * by done. apply negb_true_iff in H1. apply negb_true_iff.
  destruct (f64_le z x) eqn:E; [|done]. by rewrite (f64_le_trans _ _ _ H2 E) in H1.
Qed.

Lemma f64_le_lt_trans x y z : f64_le x y = true → f64_lt y z = true → f64_lt x z = true.
Proof.
  intros H1 H2. destruct (f64_lt_number _ _ H2) as [Hy Hz], (f64_le_number _ _ H1) as [Hx _].
  rewrite f64_lt_nle in * by done. apply negb_true_iff in H2. apply negb_true_iff.
  destruct (f64_le z x) eqn:E; [|done]. by rewrite (f64_le_trans _ _ _ E H1) in H2.
Qed.

Lemma f64_lt_irrefl x : f64_lt x x = false.
Proof. destruct (f64_lt x x) eqn:E; [|done]. destruct (f64_lt_number _ _ E). by rewrite f64_lt_nle, f64_le_refl in E. Qed.

(** ** Minimum and clamping *)

Lemma f64_min_cases x y : is_number x → is_number y → f64_min x y = if f64_lt y x then y else x.
Proof. unfold is_number. by destruct x, y. Qed.

(** The minimum is below a bound exactly when one of the two is. *)
Lemma f64_min_le x y b : is_number x → is_number y → f64_le (f64_min x y) b = f64_le x b || f64_le y b.
Proof.
  intros Hx Hy. rewrite f64_min_cases by done. destruct (f64_lt y x) eqn:E.
  - destruct (f64_le x b) eqn:Eb; [|done]. by rewrite (f64_le_trans _ _ _ (f64_lt_le _ _ E) Eb).
  - destruct (f64_le y b) eqn:Eb; [|by rewrite orb_false_r]. rewrite orb_true_r.
    rewrite f64_lt_nle in E by done. apply negb_false_iff in E. by apply (f64_le_trans _ y).
Qed.

Lemma f64_min_number x y : is_number x → is_number y → is_number (f64_min x y).
Proof. intros Hx Hy. rewrite f64_min_cases by done. by destruct (f64_lt y x). Qed.

Lemma f64_min_lower x y : is_number x → is_number y → f64_le (f64_min x y) x = true ∧ f64_le (f64_min x y) y = true.
Proof. intros Hx Hy. rewrite !f64_min_le by done. rewrite !f64_le_refl by done. by rewrite orb_true_r. Qed.

Lemma min_mono x y c : is_number x → is_number y → is_number c → f64_le x y = true → f64_le (f64_min x c) (f64_min y c) = true.
Proof.
  intros Hx Hy Hc Hle. rewrite (f64_min_cases y) by done. destruct (f64_lt c y); [by apply f64_min_lower|].
  rewrite f64_min_le by done. by rewrite Hle.
Qed.

Lemma f64_max_upper x y : is_number x → is_number y → f64_le x (f64_max x y) = true ∧ f64_le y (f64_max x y) = true.
Proof.
  intros Hx Hy. assert (f64_max x y = if f64_lt x y then y else x) as -> by (unfold is_number in *; by destruct x, y).
  destruct (f64_lt x y) eqn:E; [split; [by apply f64_lt_le|by apply f64_le_refl]|split; [by apply f64_le_refl|]].
  rewrite f64_lt_nle in E by done. by apply negb_false_iff in E.
Qed.

Lemma f64_clamp_bounds x lo hi : is_number x → f64_le lo hi = true →
  f64_le lo (f64_clamp x lo hi) = true ∧ f64_le (f64_clamp x lo hi) hi = true.
Proof.
  intros Hx Hle. destruct (f64_le_number _ _ Hle) as [Hl Hh]. unfold f64_clamp, f64_gt. destruct (f64_lt x lo) eqn:E1.
  - split; [by apply f64_le_refl|done].
  - change (SFltb hi x) with (f64_lt hi x). destruct (f64_lt hi x) eqn:E2; [split; [done|by apply f64_le_refl]|].
    rewrite f64_lt_nle in E1, E2 by done. by apply negb_false_iff in E1, E2.
Qed.

Lemma f64_clamp_number x lo hi : is_number x → is_number lo → is_number hi → is_number (f64_clamp x lo hi).
Proof. intros. unfold f64_clamp. by repeat destruct (_ : bool). Qed.

(** Between finite bounds everything is finite. *)
Lemma between_finite lo x hi : f64_is_finite lo = true → f64_is_finite hi = true → f64_le lo x = true → f64_le x hi = true →
  f64_is_finite x = true.
Proof. double_cases x; double_cases lo; double_cases hi; done. Qed.

(** ** Products and quotients of magnitudes *)

(** A zero of either sign, or positive. *)
Definition magnitude (x : f64) : Prop :=
  match x with S754_zero _ | S754_finite false _ _ | S754_infinity false => True | _ => False end.

Lemma magnitude_number x : magnitude x → is_number x.
Proof. unfold is_number. by destruct x as [|[]| |[]]. Qed.

Lemma round_magnitude m e l : (0 ≤ m)%Z → magnitude (binary_round_aux 53 1024 false m e l).
Proof.
  intros Hm. pose proof (round_number false m e l Hm) as Hn. unfold binary_round_aux in *.
  destruct (shr_fexp 53 1024 m e l) as [r1 e1]. destruct (shr_fexp 53 1024 _ e1 loc_Exact) as [r2 e2].
  destruct (shr_m r2); [done|by destruct (_ <=? _)%Z|done].
Qed.

Definition positive_finite (x : f64) : Prop := match x with S754_finite false _ _ => True | _ => False end.

Lemma mul_magnitude x y : magnitude x → f64_is_finite x = true → positive_finite y → magnitude (f64_mul x y).
Proof.
  destruct x as [[]|[]| |[] mx ex], y as [|[]| |[] my ey]; try done; intros _ _ _; unfold f64_mul; cbn [SFmul xorb]; apply round_magnitude; lia.
Qed.

Lemma div_core_nonneg m1 e1 m2 e2 : (0 < m2)%Z → (0 ≤ m1)%Z → (0 ≤ (SFdiv_core_binary 53 1024 m1 e1 m2 e2).1.1)%Z.
Proof.
  intros H2 H1. unfold SFdiv_core_binary. set (e' := Z.min _ _).
  set (m' := match (e1 - e2 - e')%Z with Z.pos _ => Z.shiftl m1 _ | Z0 => m1 | Z.neg _ => Z0 end).
  assert (0 ≤ m')%Z as Hm' by (unfold m'; destruct (e1 - e2 - e')%Z; [done|by apply Z.shiftl_nonneg|done]).
  destruct (SFdiv_core_binary 53 1024 m1 e1 m2 e2) as [[q e] l] eqn:E. unfold SFdiv_core_binary in E. fold e' m' in E.
  pose proof (Z.div_eucl_eq m' m2) as Hq. unfold Z.div in *. destruct (Z.div_eucl m' m2) as [q' r'] eqn:Eq. injection E as <- _ _.
  cbn. pose proof (Z.div_pos m' m2 Hm' H2) as Hp. unfold Z.div in Hp. by rewrite Eq in Hp.
Qed.

Lemma div_magnitude x y : magnitude x → positive_finite y → magnitude (f64_div x y).
Proof.
  destruct x as [[]|[]| |[] mx ex], y as [|[]| |[] my ey]; try done; intros _ _; unfold f64_div; cbn [SFdiv xorb].
  pose proof (div_core_nonneg (Zpos mx) ex (Zpos my) ey ltac:(lia) ltac:(lia)) as Hq.
  destruct (SFdiv_core_binary 53 1024 (Zpos mx) ex (Zpos my) ey) as [[q e] l]. by apply round_magnitude.
Qed.

(** Capped at a finite magnitude, a magnitude is finite. *)
Lemma min_finite x y : magnitude x → f64_is_finite y = true → f64_is_finite (f64_min x y) = true.
Proof.
  intros Hx Hy. rewrite f64_min_cases by first [by apply magnitude_number|by apply finite_is_number].
  destruct (f64_lt y x) eqn:E; [done|]. by destruct x as [|[]| |[]], y as [[]|[]| |[]].
Qed.

Lemma of_Z_positive n : (0 < n < 2 ^ 64)%Z → positive_finite (f64_of_Z n).
Proof.
  intros Hn. pose proof (small_finite _ _ _ _ (of_Z_small n ltac:(lia))) as Hf. pose proof (of_Z_nonzero n Hn) as Hz.
  assert (magnitude (f64_of_Z n)) as Hm.
  { unfold f64_of_Z. rewrite (proj2 (Z.ltb_ge _ _)) by lia. unfold f64_ratio. rewrite (proj2 (Z.leb_gt _ _)) by lia.
    pose proof (div_core_nonneg n 0 1 0 ltac:(lia) ltac:(lia)) as Hq. destruct (SFdiv_core_binary 53 1024 n 0 1 0) as [[q e] l]. by apply round_magnitude. }
  destruct (f64_of_Z n) as [s|[]| |[]]; try done. by edestruct Hz.
Qed.
