(* ===== verification/F64Round.v ===== *)
(** Normal doubles: quotients and sums of them stay normal, and division is monotone in the
    dividend, rounding included. What is nearer to a double than half a unit of its last place
    rounds below it; so averages of fractions are fractions, and midpoints stay in a range. Rounding does not
    cross a double, so a double is between its difference to and its sum with a width. *)
From Stdlib Require Import SpecFloat.
From S2P Require Import Prelude F64 F64Mono F64Sum F64Order.

Local Notation prec := 53%Z.
Local Notation emax := 1024%Z.

Definition digits (m : positive) : Z := Zpos (digits2_pos m).

(** Positive, with a full significand and a bounded exponent. *)
Definition normal (lo hi : Z) (x : f64) : Prop :=
  ∃ m e, x = S754_finite false m e ∧ digits m = 53%Z ∧ (lo ≤ e ≤ hi)%Z.

Lemma normal_weaken lo hi lo' hi' x : normal lo hi x → (lo' ≤ lo)%Z → (hi ≤ hi')%Z → normal lo' hi' x.
Proof. intros (m & e & -> & Hd & He) ? ?. exists m, e. split_and!; [done|done|lia..]. Qed.

Lemma normal_range m : digits m = 53%Z → (2 ^ 52 ≤ Zpos m < 2 ^ 53)%Z.
Proof. intros Hd. pose proof (digits_lower m). pose proof (digits_upper m). unfold digits in Hd. rewrite Hd in *. lia. Qed.

Lemma digits_of m n : (2 ^ (n - 1) ≤ Zpos m < 2 ^ n)%Z → (0 < n)%Z → digits m = n.
Proof. apply digits_unique. Qed.

Lemma le_finite m e m' e' : ((e < e')%Z ∨ e = e' ∧ (Zpos m ≤ Zpos m')%Z) →
  f64_le (S754_finite false m e) (S754_finite false m' e') = true.
Proof.
  unfold f64_le, SFleb. cbn [SFcompare]. change (Pos.compare_cont Eq) with Pos.compare. intros [He|[-> Hm]].
  - by rewrite (proj2 (Z.compare_lt_iff e e')).
  - rewrite Z.compare_refl. destruct (Pos.compare_spec m m'); try done. lia.
Qed.

(** ** Rounding *)

Lemma round_normal m E k : digits m = (53 + k)%Z → (0 < k)%Z → (-1074 ≤ E)%Z → (E + k < 971)%Z →
  normal (E + k) (E + k + 1) (binary_round_aux prec emax false (Zpos m) E loc_Exact).
Proof.
  intros Hd Hk HE Hmax. pose proof (rne_normal m k Hd Hk) as [Hl Hu].
  destruct (round_long m E k Hd Hk HE) as (q & e & -> & (_ & _ & Hn) & Hq); [lia..|]. exists q, e.
  unfold digits in *. split_and!; [done|apply Hn; lia|destruct Hq as [[_ ->]|(_ & _ & ->)]; lia..].
Qed.

(** Rounding respects the order of the exact values. *)
Lemma round_le m E k m' E' k' : digits m = (53 + k)%Z → digits m' = (53 + k')%Z → (0 < k)%Z → (0 < k')%Z →
  (-1074 ≤ E)%Z → (E + k < 971)%Z → (E' + k' < 971)%Z → (E ≤ E')%Z → (Zpos m ≤ Zpos m' * 2 ^ (E' - E))%Z →
  f64_le (binary_round_aux prec emax false (Zpos m) E loc_Exact) (binary_round_aux prec emax false (Zpos m') E' loc_Exact) = true.
Proof.
  intros Hd Hd' Hk Hk' HE Hmax Hmax' HEE Hm. unfold digits in *.
  destruct (rne_normal m k Hd Hk) as [Hl Hu], (rne_normal m' k' Hd' Hk') as [Hl' Hu'].
  assert (E + k ≤ E' + k')%Z as Hexp.
  { destruct (Z.le_gt_cases (E + k) (E' + k')) as [?|Hgt]; [done|exfalso].
    pose proof (digits_lower m) as Hlo. pose proof (digits_upper m') as Hup. rewrite Hd in Hlo. rewrite Hd' in Hup.
    assert (2 ^ (53 + k') * 2 ^ (E' - E) ≤ 2 ^ (53 + k - 1))%Z.
    { rewrite <- Z.pow_add_r by lia. apply Z.pow_le_mono_r; lia. }
    assert (0 < 2 ^ (E' - E))%Z by (apply Z.pow_pos_nonneg; lia). nia. }
  destruct (round_long m E k) as (q & e & -> & _ & Hq); [done|done|lia|lia|lia|].
  destruct (round_long m' E' k') as (q' & e' & -> & (_ & Hc & _) & Hq'); [done|done|lia|lia|lia|].
  assert (Zpos q' < 2 ^ 53)%Z by (eapply Z.lt_le_trans; [apply digits_upper|apply Z.pow_le_mono_r; lia]).
  apply le_finite. destruct (Z.eq_dec (E + k) (E' + k')) as [Heq|Hne].
  - assert (rne (Zpos m) k ≤ rne (Zpos m') k')%Z as Hr.
    { rewrite <- (rne_scale (Zpos m') k' (E' - E)) by lia. replace (k' + (E' - E))%Z with k by lia. apply rne_mono; lia. }
    destruct Hq as [[Hq ->]|(Hq & Hq2 & ->)], Hq' as [[Hq' ->]|(Hq' & Hq2' & ->)]; lia.
  - destruct Hq as [[Hq ->]|(Hq & Hq2 & ->)], Hq' as [[Hq' ->]|(Hq' & Hq2' & ->)]; lia.
Qed.

(** ** A quotient with its location as an exact significand two bits longer *)

Definition code (l : location) : Z :=
  match l with loc_Exact => 0 | loc_Inexact Lt => 1 | loc_Inexact Eq => 2 | loc_Inexact Gt => 3 end.

Lemma code_range l : (0 ≤ code l ≤ 3)%Z.
Proof. by destruct l as [|[]]. Qed.

Lemma shr_two q l M : Zpos M = (4 * Zpos q + code l)%Z →
  SpecFloat.iter_pos shr_1 2 (Build_shr_record (Zpos M) false false) = shr_record_of_loc (Zpos q) l.
Proof.
  intros HM. pose proof (code_range l). rewrite iter_pos_nat. change (Pos.to_nat 2) with 2. rewrite (iter_shr_record (Zpos M) 1) by lia.
  change (2 ^ Z.of_nat 2)%Z with 4%Z. change (2 ^ Z.of_nat 1)%Z with 2%Z. change (Z.of_nat 1) with 1%Z.
  rewrite Z.testbit_odd, Z.shiftr_div_pow2 by lia. change (2 ^ 1)%Z with 2%Z. rewrite HM.
  replace ((4 * Zpos q + code l) / 4)%Z with (Zpos q) by (Z.to_euclidean_division_equations; lia).
  replace ((4 * Zpos q + code l) / 2)%Z with (2 * Zpos q + code l / 2)%Z by (Z.to_euclidean_division_equations; lia).
  replace ((4 * Zpos q + code l) mod 2)%Z with (code l mod 2)%Z by (Z.to_euclidean_division_equations; lia).
  rewrite Z.odd_add, Z.odd_mul. by destruct l as [|[]].
Qed.

Lemma round_sticky q e l M : Zpos M = (4 * Zpos q + code l)%Z → (53 ≤ digits q)%Z → (-1074 ≤ e)%Z →
  binary_round_aux prec emax false (Zpos q) e l = binary_round_aux prec emax false (Zpos M) (e - 2) loc_Exact.
Proof.
  intros HM Hd He. pose proof (code_range l) as Hc. unfold binary_round_aux.
  assert (shr_fexp prec emax (Zpos M) (e - 2) loc_Exact = shr_fexp prec emax (Zpos q) e l) as ->; [|done].
  assert (digits M = digits q + 2)%Z as HdM.
  { unfold digits in *. apply digits_unique; [|lia]. pose proof (digits_lower q) as Hl. pose proof (digits_upper q) as Hu.
    replace (Zpos (digits2_pos q) + 2 - 1)%Z with (2 + (Zpos (digits2_pos q) - 1))%Z by lia.
    replace (Zpos (digits2_pos q) + 2)%Z with (2 + Zpos (digits2_pos q))%Z by lia. rewrite !Z.pow_add_r by lia. lia. }
  unfold shr_fexp, shr, digits in *. cbn [Zdigits2 shr_record_of_loc]. rewrite HdM.
  set (d := Zpos (digits2_pos q)) in *.
  replace (fexp prec emax (d + 2 + (e - 2)) - (e - 2))%Z with (2 + (d - 53))%Z by (unfold fexp, emin; lia).
  replace (fexp prec emax (d + e) - e)%Z with (d - 53)%Z by (unfold fexp, emin; lia).
  destruct (d - 53)%Z as [|n|n] eqn:En; [|..|lia].
  - change (2 + 0)%Z with 2%Z. cbv iota. rewrite (shr_two q l M HM). f_equal. lia.
  - change (2 + Zpos n)%Z with (Zpos (2 + n)). cbv iota. f_equal; [|lia]. rewrite !iter_pos_nat, Pos2Nat.inj_add.
    assert (∀ a b (r : shr_record), Nat.iter (a + b) shr_1 r = Nat.iter b shr_1 (Nat.iter a shr_1 r)) as Hadd.
    { intros a b r. rewrite Nat.add_comm. apply Nat.iter_add. }
    rewrite Hadd, <- (iter_pos_nat _ 2), (shr_two q l M HM). done.
Qed.

(** The significand of a quotient is off by less than a quarter of the divisor. *)
Lemma quotient_code N D : (0 < D)%Z → (0 ≤ N)%Z →
  (4 * N - D < (4 * (N / D) + code (new_location D (N mod D))) * D < 4 * N + D)%Z.
Proof.
  intros HD HN. pose proof (Z.div_mod N D ltac:(lia)) as HN'. pose proof (Z.mod_pos_bound N D HD) as Hr.
  set (q := (N / D)%Z) in *. set (r := (N mod D)%Z) in *. clearbody q r.
  assert (4 * r - D < code (new_location D r) * D < 4 * r + D)%Z as Hcr; [|rewrite Z.mul_add_distr_r; lia].
  unfold new_location. destruct (Z.even D) eqn:Ev; unfold new_location_even, new_location_odd; destruct (Z.eqb_spec r 0) as [->|Hr0].
  - cbn [code]. lia.
  - destruct (Z.compare_spec (2 * r) D); cbn [code]; lia.
  - cbn [code]. lia.
  - assert (2 * r ≠ D)%Z by (intros He; rewrite <- He, Z.even_mul in Ev; done).
    destruct (Z.compare_spec (2 * r + 1) D); cbn [code]; lia.
Qed.

Lemma code_mono D r r' : (0 ≤ r ≤ r')%Z → (r' < D)%Z → (code (new_location D r) ≤ code (new_location D r'))%Z.
Proof.
  intros Hr HD. unfold new_location. destruct (Z.even D) eqn:Ev; unfold new_location_even, new_location_odd;
    destruct (Z.eqb_spec r 0), (Z.eqb_spec r' 0); try (cbn [code]; lia); try (apply code_range).
  - destruct (Z.compare_spec (2 * r) D), (Z.compare_spec (2 * r') D); cbn [code]; lia.
  - destruct (Z.compare_spec (2 * r + 1) D), (Z.compare_spec (2 * r' + 1) D); cbn [code]; lia.
Qed.

Lemma quotient_mono N N' D : (0 < D)%Z → (0 ≤ N ≤ N')%Z →
  (4 * (N / D) + code (new_location D (N mod D)) ≤ 4 * (N' / D) + code (new_location D (N' mod D)))%Z.
Proof.
  intros HD HN. pose proof (Z.div_le_mono N N' D HD ltac:(lia)). pose proof (code_range (new_location D (N mod D))).
  pose proof (code_range (new_location D (N' mod D))). destruct (Z.eq_dec (N / D) (N' / D)) as [Heq|]; [|lia].
  pose proof (Z.div_mod N D ltac:(lia)). pose proof (Z.div_mod N' D ltac:(lia)). rewrite <- Heq in *.
  pose proof (Z.mod_pos_bound N D HD). pose proof (Z.mod_pos_bound N' D HD). pose proof (code_mono D (N mod D) (N' mod D)). lia.
Qed.

(** ** Division *)

(** The quotient of two normal doubles before its rounding. *)
Lemma div_sticky m e m' e' : digits m = 53%Z → digits m' = 53%Z → (-1000 ≤ e - e')%Z →
  ∃ M, f64_div (S754_finite false m e) (S754_finite false m' e') = binary_round_aux prec emax false (Zpos M) (e - e' - 55) loc_Exact ∧
    (4 * (Zpos m * 2 ^ 53) - Zpos m' < Zpos M * Zpos m' < 4 * (Zpos m * 2 ^ 53) + Zpos m')%Z ∧
    (digits M = 55 ∨ digits M = 56)%Z ∧ Zpos M = (4 * (Zpos m * 2 ^ 53 / Zpos m') + code (new_location (Zpos m') ((Zpos m * 2 ^ 53) mod Zpos m')))%Z.
Proof.
  intros Hd Hd' He. pose proof (normal_range m Hd) as Hm. pose proof (normal_range m' Hd') as Hm'.
  unfold f64_div. cbn [SFdiv xorb]. unfold SFdiv_core_binary. cbn [Zdigits2]. fold (digits m) (digits m'). rewrite Hd, Hd'.
  replace (Z.min (fexp prec emax (53 + e - (53 + e'))) (e - e')) with (e - e' - 53)%Z by (unfold fexp, emin; lia).
  replace (e - e' - (e - e' - 53))%Z with 53%Z by lia. rewrite Z.shiftl_mul_pow2 by lia.
  set (N := (Zpos m * 2 ^ 53)%Z). pose proof (quotient_code N (Zpos m') ltac:(lia) ltac:(lia)) as HM.
  pose proof (code_range (new_location (Zpos m') (N mod Zpos m'))) as Hc. set (c := code _) in *.
  assert (2 ^ 52 ≤ N / Zpos m' < 2 ^ 54)%Z as Hq.
  { split; [apply Z.div_le_lower_bound|apply Z.div_lt_upper_bound]; lia. }
  assert (Z.div_eucl N (Zpos m') = (N / Zpos m', N mod Zpos m')%Z) as -> by (unfold Z.div, Z.modulo; by destruct (Z.div_eucl N (Zpos m'))).
  destruct (N / Zpos m')%Z as [|q|q] eqn:Eq; [lia| |lia].
  destruct (4 * Zpos q + c)%Z as [|M|M] eqn:EM; [lia| |lia]. exists M.
  assert (digits q = 53 ∨ digits q = 54)%Z as Hdq.
  { destruct (Z.lt_ge_cases (Zpos q) (2 ^ 53)); [left|right]; apply digits_of; lia. }
  split_and!; [|lia|lia| |done].
  - replace (e - e' - 55)%Z with (e - e' - 53 - 2)%Z by lia. apply round_sticky; [done|lia|lia].
  - destruct (Z.lt_ge_cases (Zpos M) (2 ^ 55)); [left|right]; apply digits_of; lia.
Qed.

Lemma div_normal lo hi lo' hi' x y : normal lo hi x → normal lo' hi' y → (-1000 ≤ lo - hi')%Z → (hi - lo' ≤ 1000)%Z →
  normal (lo - hi' - 53) (hi - lo' - 51) (f64_div x y).
Proof.
  intros (m & e & -> & Hd & He) (m' & e' & -> & Hd' & He') Hl Hh.
  destruct (div_sticky m e m' e') as (M & -> & _ & [Hk|Hk] & _); [done|done|lia|..].
  - eapply normal_weaken; [apply (round_normal M _ 2); lia|lia|lia].
  - eapply normal_weaken; [apply (round_normal M _ 3); lia|lia|lia].
Qed.

(** Division by a normal double is monotone. *)
Lemma div_le lo hi lo' hi' x x' y : normal lo hi x → normal lo hi x' → normal lo' hi' y → (-1000 ≤ lo - hi')%Z → (hi - lo' ≤ 1000)%Z →
  f64_le x x' = true → f64_le (f64_div x y) (f64_div x' y) = true.
Proof.
  intros (m1 & e1 & -> & Hd1 & He1) (m2 & e2 & -> & Hd2 & He2) (m & e & -> & Hd & He) Hl Hh Hle%f64_le_finite.
  pose proof (normal_range m1 Hd1). pose proof (normal_range m2 Hd2). pose proof (normal_range m Hd).
  destruct (div_sticky m1 e1 m e) as (M1 & -> & HM1 & Hk1 & EM1); [done|done|lia|].
  destruct (div_sticky m2 e2 m e) as (M2 & -> & HM2 & Hk2 & EM2); [done|done|lia|].
  set (k1 := (digits M1 - 53)%Z). assert (digits M1 = 53 + k1 ∧ 2 ≤ k1 ≤ 3)%Z as (HD1 & ?) by lia.
  set (k2 := (digits M2 - 53)%Z). assert (digits M2 = 53 + k2 ∧ 2 ≤ k2 ≤ 3)%Z as (HD2 & ?) by lia.
  apply (round_le M1 _ k1 M2 _ k2); [done|done|lia|lia|lia|lia|lia|lia|].
  destruct Hle as [Hlt|[-> Hm]].
  - replace (e2 - e - 55 - (e1 - e - 55))%Z with (1 + (e2 - e1 - 1))%Z by lia. rewrite Z.pow_add_r by lia.
    assert (0 < 2 ^ (e2 - e1 - 1))%Z by (apply Z.pow_pos_nonneg; lia). set (t := (2 ^ (e2 - e1 - 1))%Z) in *. clearbody t. nia.
  - rewrite Z.sub_diag, Z.mul_1_r, EM1, EM2. apply quotient_mono; lia.
Qed.

Lemma div_self lo hi x : normal lo hi x → f64_div x x = f64_of_Z 1.
Proof.
  intros (m & e & -> & Hd & He). destruct (div_sticky m e m e) as (M & -> & _ & _ & HM); [done|done|lia|].
  rewrite (Z.mul_comm (Zpos m)), Z.div_mul, Z.mod_mul in HM by lia.
  assert (code (new_location (Zpos m) 0) = 0%Z) as Hc by (unfold new_location; by destruct (Z.even _)).
  rewrite Hc in HM. replace (e - e - 55)%Z with (-55)%Z by lia. replace (Zpos M) with (2 ^ 55)%Z by lia. by vm_compute.
Qed.

(** ** Integers *)

Lemma of_Z_exact n : (0 < n < 2 ^ 53)%Z →
  ∃ m e, f64_of_Z n = S754_finite false m e ∧ digits m = 53%Z ∧ (-52 ≤ e ≤ 0)%Z ∧ Zpos m = (n * 2 ^ (- e))%Z.
Proof.
  intros Hn. unfold f64_of_Z. rewrite (proj2 (Z.ltb_ge _ _)) by lia. unfold f64_ratio. rewrite (proj2 (Z.leb_gt _ _)) by lia.
  destruct n as [|p|p]; [lia| |lia]. pose proof (digits_lower p) as Hl. pose proof (digits_upper p) as Hu.
  set (d := Zpos (digits2_pos p)) in *.
  assert (1 ≤ d ≤ 53)%Z as Hd.
  { pose proof (Zdigits2_le (Zpos p) 53) as H. cbn [Zdigits2] in H. fold d in H. unfold d in *. lia. }
  unfold SFdiv_core_binary. cbn [Zdigits2]. fold d. change (Zpos (digits2_pos 1)) with 1%Z.
  replace (Z.min (fexp prec emax (d + 0 - (1 + 0))) (0 - 0)) with (d - 54)%Z by (unfold fexp, emin; lia).
  replace (0 - 0 - (d - 54))%Z with (54 - d)%Z by lia.
  assert (match (54 - d)%Z with Z0 => Zpos p | Zpos _ => Z.shiftl (Zpos p) (54 - d) | Zneg _ => 0%Z end = (Zpos p * 2 ^ (54 - d))%Z) as ->.
  { destruct (54 - d)%Z eqn:E; [lia| |lia]. by rewrite Z.shiftl_mul_pow2. }
  assert (0 < 2 ^ (54 - d))%Z by (apply Z.pow_pos_nonneg; lia).
  assert (Z.div_eucl (Zpos p * 2 ^ (54 - d)) 1 = (Zpos p * 2 ^ (54 - d), 0)%Z) as ->.
  { pose proof (Z.div_1_r (Zpos p * 2 ^ (54 - d))) as H1. pose proof (Z.mod_1_r (Zpos p * 2 ^ (54 - d))) as H2.
    unfold Z.div, Z.modulo in *. by destruct (Z.div_eucl _ 1); subst. }
  change (new_location 1 0) with loc_Exact. destruct (Zpos p * 2 ^ (54 - d))%Z as [|q|q] eqn:Eq; [lia| |lia].
  assert (digits q = 53 + 1)%Z as Hq.
  { apply digits_of; [|lia]. rewrite <- Eq. replace (53 + 1)%Z with (d + (54 - d))%Z by lia.
    replace (d + (54 - d) - 1)%Z with (d - 1 + (54 - d))%Z by lia. rewrite !Z.pow_add_r by lia. nia. }
  replace (54 - d)%Z with (1 + (53 - d))%Z in Eq by lia. rewrite Z.pow_add_r in Eq by lia.
  assert (rne (Zpos q) 1 = Zpos p * 2 ^ (53 - d))%Z as Hr.
  { rewrite <- Eq. replace (Zpos p * (2 ^ 1 * 2 ^ (53 - d)))%Z with (Zpos p * 2 ^ (53 - d) * 2 ^ 1)%Z by lia.
    rewrite (rne_scale _ 0 1) by lia. unfold rne. rewrite Z.div_1_r, Z.mod_1_r. done. }
  assert (0 < 2 ^ (53 - d))%Z by (apply Z.pow_pos_nonneg; lia).
  destruct (round_long q (d - 54) 1 Hq) as (m & e & -> & (_ & _ & Hfull) & Hm); [lia..|].
  destruct Hm as [[Hm ->]|(Hm & _ & ->)]; rewrite Hr in Hm.
  - exists m, (d - 54 + 1)%Z. split_and!; [done|apply Hfull; lia|lia|lia|]. by replace (- (d - 54 + 1))%Z with (53 - d)%Z by lia.
  - exfalso. assert (2 ^ d * 2 ^ (53 - d) = 2 ^ 53)%Z as Hp by (rewrite <- Z.pow_add_r by lia; f_equal; lia). nia.
Qed.

Lemma of_Z_normal n : (0 < n < 2 ^ 53)%Z → normal (-52) 0 (f64_of_Z n).
Proof. intros (m & e & -> & Hd & He & _)%of_Z_exact. by exists m, e. Qed.

Lemma of_Z_le a b : (0 < a ≤ b)%Z → (b < 2 ^ 53)%Z → f64_le (f64_of_Z a) (f64_of_Z b) = true.
Proof.
  intros Ha Hb. destruct (of_Z_exact a ltac:(lia)) as (m & e & -> & Hd & He & Hm), (of_Z_exact b ltac:(lia)) as (m' & e' & -> & Hd' & He' & Hm').
  pose proof (normal_range m Hd). pose proof (normal_range m' Hd'). apply le_finite.
  destruct (Z.lt_trichotomy e e') as [|[->|Hgt]]; [by left|right; split; [done|rewrite Hm, Hm'; apply Z.mul_le_mono_nonneg_r; lia]|exfalso].
  replace (- e')%Z with (1 + (e - e' - 1) + - e)%Z in Hm' by lia. rewrite !Z.pow_add_r in Hm' by lia.
  assert (1 ≤ 2 ^ (e - e' - 1))%Z by (apply (Z.pow_le_mono_r 2 0); lia). set (t := (2 ^ (e - e' - 1))%Z) in *.
  replace (b * (2 ^ 1 * t * 2 ^ (- e)))%Z with (2 * t * (b * 2 ^ (- e)))%Z in Hm' by lia.
  assert (a * 2 ^ (- e) ≤ b * 2 ^ (- e))%Z by (apply Z.mul_le_mono_nonneg_r; [apply Z.pow_nonneg; lia|lia]). nia.
Qed.

(** ** Sums *)

(** A normal double of the unit interval. *)
Definition share_f64 (x : f64) : Prop := normal (-900) (-52) x ∧ f64_le x (f64_of_Z 1) = true.

Lemma share_bound m e : (e ≤ -52)%Z → digits m = 53%Z → f64_le (S754_finite false m e) (f64_of_Z 1) = true → (Zpos m ≤ 2 ^ (- e))%Z.
Proof.
  intros He Hd Hle. pose proof (normal_range m Hd). rewrite one_is in Hle. apply f64_le_finite in Hle as [Hlt|[-> Hm]].
  - assert (2 ^ 53 ≤ 2 ^ (- e))%Z by (apply Z.pow_le_mono_r; lia). lia.
  - exact Hm.
Qed.

(** Sums of shares are normal. *)
Lemma add_share a r : normal (-900) 4 a → share_f64 r → normal (-900) 4 (f64_add a r).
Proof.
  intros (m & e & -> & Hd & He) [(m' & e' & -> & Hd' & He') Hle]. pose proof (share_bound m' e' ltac:(lia) Hd' Hle) as Hm'.
  destruct (Z.le_gt_cases 2 e) as [Hbig|Hsmall].
  { rewrite add_absorbed; [by exists m, e| |lia|lia|done]. unfold digits in Hd. split_and!; [lia|lia|done]. }
  unfold f64_add. rewrite add_finite. set (ez := Z.min e e').
  pose proof (normal_range m Hd) as Hm. pose proof (normal_range m' Hd') as Hmr.
  assert (1 ≤ 2 ^ (e - ez))%Z by (apply (Z.pow_le_mono_r 2 0); lia). assert (1 ≤ 2 ^ (e' - ez))%Z by (apply (Z.pow_le_mono_r 2 0); lia).
  destruct (Zpos m * 2 ^ (e - ez) + Zpos m' * 2 ^ (e' - ez))%Z as [|M|M] eqn:EM; [lia| |lia]. cbn [binary_normalize].
  assert (2 ^ 53 ≤ Zpos M)%Z as HMl by nia.
  assert (digits M + ez ≤ 56)%Z as HMu.
  { pose proof (Zdigits2_le (Zpos M) (56 - ez)) as HdM. cbn [Zdigits2] in HdM. unfold digits.
    assert (2 ^ (e - ez) ≤ 2 ^ (2 - ez) ∧ 2 ^ (e' - ez) ≤ 2 ^ (2 - ez))%Z as [? ?] by (split; apply Z.pow_le_mono_r; lia).
    assert (2 ^ (56 - ez) = 2 ^ 54 * 2 ^ (2 - ez))%Z as Hp by (rewrite <- Z.pow_add_r by lia; f_equal; lia).
    change (2 ^ 54)%Z with (2 ^ 53 + 2 ^ 53)%Z in Hp. assert (Zpos M < 2 ^ (56 - ez))%Z by nia. lia. }
  assert (54 ≤ digits M)%Z as HMd.
  { pose proof (digits_upper M) as Hu. fold (digits M) in Hu. destruct (Z.le_gt_cases 54 (digits M)); [done|].
    assert (2 ^ digits M ≤ 2 ^ 53)%Z by (apply Z.pow_le_mono_r; lia). lia. }
  unfold binary_round. fold (digits M). assert (shl_align M ez (fexp prec emax (digits M + ez)) = (M, ez)) as ->.
  { unfold shl_align. replace (fexp prec emax (digits M + ez) - ez)%Z with (digits M - 53)%Z by (unfold fexp, emin; lia).
    by destruct (digits M - 53)%Z eqn:E1; [|done|lia]. }
  eapply normal_weaken; [apply (round_normal M ez (digits M - 53)); lia|lia|lia].
Qed.

Lemma sum_shares l : ∀ a, normal (-900) 4 a → Forall share_f64 l → normal (-900) 4 (fold_left f64_add l a).
Proof. induction l as [|x l IH]; intros a Ha Hl; [done|]. apply Forall_cons in Hl as [Hx Hl]. cbn. apply IH; [by apply add_share|done]. Qed.

Lemma zero_plus_share x : share_f64 x → f64_add f64_zero x = x.
Proof. by intros [(m & e & -> & _) _]. Qed.

(** The sum of some shares, from zero. *)
Lemma sum_shares_normal l : l ≠ [] → Forall share_f64 l → normal (-900) 4 (fold_left f64_add l f64_zero).
Proof.
  destruct l as [|x l]; [done|]. intros _ [Hx Hl]%Forall_cons. cbn [fold_left]. rewrite zero_plus_share by done.
  apply sum_shares; [|done]. eapply normal_weaken; [apply Hx|lia|lia].
Qed.

(** The ratio of two positive integers in order is a share. *)
Lemma ratio_share a b : (0 < a ≤ b)%Z → (b < 2 ^ 53)%Z → share_f64 (f64_div (f64_of_Z a) (f64_of_Z b)).
Proof.
  intros Ha Hb. pose proof (of_Z_normal a ltac:(lia)) as Na. pose proof (of_Z_normal b ltac:(lia)) as Nb.
  assert (f64_le (f64_div (f64_of_Z a) (f64_of_Z b)) (f64_of_Z 1) = true) as H1.
  { rewrite <- (div_self _ _ _ Nb). eapply (div_le (-52) 0 (-52) 0); [done|done|done|lia|lia|by apply of_Z_le]. }
  split; [|done]. destruct (div_normal _ _ _ _ _ _ Na Nb) as (m & e & Hx & Hd & He); [lia|lia|]. rewrite Hx in *.
  exists m, e. split_and!; [done|done|lia|]. rewrite one_is in H1. apply f64_le_finite in H1. lia.
Qed.

(** ** Rounded results are doubles *)

Lemma Zdigits2_div M n : (0 ≤ M)%Z → (0 ≤ n)%Z → Zdigits2 (M / 2 ^ n) = Z.max 0 (Zdigits2 M - n).
Proof.
  intros HM Hn. assert (0 < 2 ^ n)%Z as Hp by (apply Z.pow_pos_nonneg; lia). destruct M as [|p|p]; [rewrite Z.div_0_l by lia; cbn; lia| |lia].
  cbn [Zdigits2]. pose proof (digits_lower p) as Hl. pose proof (digits_upper p) as Hu. destruct (Z.le_gt_cases (Zpos (digits2_pos p)) n) as [Hd|Hd].
  - rewrite Z.div_small; [cbn; lia|]. split; [lia|]. assert (2 ^ Zpos (digits2_pos p) ≤ 2 ^ n)%Z by (apply Z.pow_le_mono_r; lia). lia.
  - assert (2 ^ (Zpos (digits2_pos p) - n - 1) ≤ Zpos p / 2 ^ n < 2 ^ (Zpos (digits2_pos p) - n))%Z as [H1 H2].
    { split.
      - apply Z.div_le_lower_bound; [lia|]. rewrite <- Z.pow_add_r by lia. by replace (n + (Zpos (digits2_pos p) - n - 1))%Z with (Zpos (digits2_pos p) - 1)%Z by lia.
      - apply Z.div_lt_upper_bound; [lia|]. rewrite <- Z.pow_add_r by lia. by replace (n + (Zpos (digits2_pos p) - n))%Z with (Zpos (digits2_pos p)) by lia. }
    destruct (Zpos p / 2 ^ n)%Z as [|q|q].
    + assert (0 < 2 ^ (Zpos (digits2_pos p) - n - 1))%Z by (apply Z.pow_pos_nonneg; lia). lia.
    + cbn [Zdigits2]. rewrite (digits_unique q (Zpos (digits2_pos p) - n)) by lia. lia.
    + assert (0 < 2 ^ (Zpos (digits2_pos p) - n - 1))%Z by (apply Z.pow_pos_nonneg; lia). lia.
Qed.

Lemma Zdigits2_mono a b : (0 ≤ a ≤ b)%Z → (Zdigits2 a ≤ Zdigits2 b)%Z.
Proof.
  intros [Ha Hab]. destruct a as [|a|a]; [destruct b; cbn; lia| |lia]. destruct b as [|b|b]; [lia| |lia]. cbn [Zdigits2].
  pose proof (digits_lower a). pose proof (digits_upper b). destruct (Z.le_gt_cases (Zpos (digits2_pos a)) (Zpos (digits2_pos b))) as [|Hlt]; [done|].
  assert (2 ^ Zpos (digits2_pos b) ≤ 2 ^ (Zpos (digits2_pos a) - 1))%Z by (apply Z.pow_le_mono_r; lia). lia.
Qed.

(** Enough digits for the exponent: rounding only shifts to the right. *)
Definition roundable (m e : Z) : Prop := (0 ≤ m)%Z ∧ (e ≤ fexp prec emax (Zdigits2 m + e))%Z.

Lemma shr_fexp_roundable m e l : roundable m e →
  shr_m (shr_fexp prec emax m e l).1 = (m / 2 ^ (fexp prec emax (Zdigits2 m + e) - e))%Z ∧
  (shr_fexp prec emax m e l).2 = fexp prec emax (Zdigits2 m + e).
Proof.
  intros [Hm He]. unfold shr_fexp, shr. set (F := fexp _ _ _) in *. assert (shr_m (shr_record_of_loc m l) = m) as Hl by by destruct l as [|[]].
  destruct (F - e)%Z as [|p|p] eqn:E; cbn [fst snd]; [|rewrite iter_shr_div by (rewrite Hl; lia); rewrite Hl; split; [done|lia]|lia].
  rewrite Hl, Z.pow_0_r, Z.div_1_r. split; [done|lia].
Qed.

Lemma round_valid s m e l : roundable m e → valid_f64 (binary_round_aux prec emax s m e l).
Proof.
  intros Hr. pose proof (shr_fexp_roundable m e l Hr) as [H1 H1']. destruct Hr as [Hm He]. unfold binary_round_aux.
  destruct (shr_fexp prec emax m e l) as [r1 e1]. cbn [fst snd] in H1, H1'.
  assert (shr_m r1 ≤ round_nearest_even (shr_m r1) (loc_of_shr_record r1))%Z as Hn.
  { unfold round_nearest_even. destruct (loc_of_shr_record r1) as [|[]]; [lia| |lia..]. destruct (Z.even _); lia. }
  set (m1 := round_nearest_even _ _) in *.
  pose proof (Zdigits2_div m (fexp prec emax (Zdigits2 m + e) - e) Hm ltac:(lia)) as Hd. rewrite <- H1 in Hd.
  assert (0 ≤ shr_m r1)%Z as Hr1 by (rewrite H1; apply Z.div_pos; [done|apply Z.pow_pos_nonneg; lia]).
  pose proof (Zdigits2_mono (shr_m r1) m1 ltac:(lia)) as Hdm.
  assert (roundable m1 e1) as Hr2.
  { split; [lia|]. unfold fexp, emin in *. lia. }
  pose proof (shr_fexp_roundable m1 e1 loc_Exact Hr2) as [H2 H2']. destruct Hr2 as [Hm1 He1].
  destruct (shr_fexp prec emax m1 e1 loc_Exact) as [r2 e2]. cbn [fst snd] in H2, H2'.
  pose proof (Zdigits2_div m1 (fexp prec emax (Zdigits2 m1 + e1) - e1) Hm1 ltac:(lia)) as Hd2. rewrite <- H2 in Hd2.
  destruct (shr_m r2) as [|p|p]; [done| |done]. cbn [Zdigits2] in Hd2. destruct (e2 <=? emax - prec)%Z eqn:Eb; [|done].
  unfold valid_f64. cbn [valid_binary]. unfold bounded, canonical_mantissa. rewrite Eb, andb_true_r. apply Zeq_is_eq_bool. unfold fexp, emin in *. lia.
Qed.

Lemma div_core_roundable m1 e1 m2 e2 : (0 < m1)%Z → (0 < m2)%Z →
  let '(q, e, _) := SFdiv_core_binary prec emax m1 e1 m2 e2 in roundable q e.
Proof.
  intros Hm1 Hm2. unfold SFdiv_core_binary. set (e' := Z.min _ _). set (s := (e1 - e2 - e')%Z).
  assert (0 ≤ s)%Z as Hs by (unfold s, e'; lia).
  assert (match s with Z0 => m1 | Zpos _ => Z.shiftl m1 s | Zneg _ => 0%Z end = m1 * 2 ^ s)%Z as ->.
  { destruct s as [|p|p]; [rewrite Z.pow_0_r; lia|by rewrite Z.shiftl_mul_pow2|lia]. }
  pose proof (Z_div_mod (m1 * 2 ^ s) m2 ltac:(lia)) as Hdiv. destruct (Z.div_eucl (m1 * 2 ^ s) m2) as [q r]. destruct Hdiv as [Hq Hrem].
  destruct m1 as [|p1|p1]; [lia| |lia]. destruct m2 as [|p2|p2]; [lia| |lia]. cbn [Zdigits2] in *.
  pose proof (digits_lower p1) as Hl1. pose proof (digits_upper p2) as Hu2. assert (0 < 2 ^ s)%Z as Hps by (apply Z.pow_pos_nonneg; lia).
  split; [nia|]. assert (Zpos (digits2_pos p1) + s - Zpos (digits2_pos p2) ≤ Zdigits2 q)%Z as Hdq.
  { destruct (Z.le_gt_cases (Zpos (digits2_pos p1) + s - Zpos (digits2_pos p2)) (Zdigits2 q)) as [|Hgt]; [done|exfalso].
    assert (q < 2 ^ Zdigits2 q)%Z as Hqu by (apply Zdigits2_upper; nia).
    assert (0 ≤ Zdigits2 q)%Z by (destruct q; cbn; lia).
    assert (q + 1 ≤ 2 ^ (Zpos (digits2_pos p1) + s - Zpos (digits2_pos p2) - 1))%Z as Hq1.
    { assert (2 ^ Zdigits2 q ≤ 2 ^ (Zpos (digits2_pos p1) + s - Zpos (digits2_pos p2) - 1))%Z by (apply Z.pow_le_mono_r; lia). lia. }
    assert (Zpos p1 * 2 ^ s < Zpos p2 * (q + 1))%Z as H1 by lia.
    assert (2 ^ (Zpos (digits2_pos p1) - 1) * 2 ^ s ≤ Zpos p1 * 2 ^ s)%Z as H2 by (apply Z.mul_le_mono_nonneg_r; lia).
    assert (Zpos p2 * (q + 1) ≤ 2 ^ Zpos (digits2_pos p2) * 2 ^ (Zpos (digits2_pos p1) + s - Zpos (digits2_pos p2) - 1))%Z as H3
      by (apply Z.mul_le_mono_nonneg; nia).
    rewrite <- Z.pow_add_r in H2 by lia. rewrite <- Z.pow_add_r in H3 by lia.
    replace (Zpos (digits2_pos p2) + (Zpos (digits2_pos p1) + s - Zpos (digits2_pos p2) - 1))%Z with (Zpos (digits2_pos p1) - 1 + s)%Z in H3 by lia. lia. }
  unfold s, e' in *. unfold fexp, emin in *. lia.
Qed.

Lemma product_digits_lower a b : (Zpos (digits2_pos a) + Zpos (digits2_pos b) - 1 ≤ Zpos (digits2_pos (a * b)))%Z.
Proof.
  pose proof (digits_lower a) as La. pose proof (digits_lower b) as Lb. pose proof (digits_upper (a * b)) as U.
  destruct (Z.le_gt_cases (Zpos (digits2_pos a) + Zpos (digits2_pos b) - 1) (Zpos (digits2_pos (a * b)))) as [|Hgt]; [done|exfalso].
  assert (2 ^ Zpos (digits2_pos (a * b)) ≤ 2 ^ (Zpos (digits2_pos a) - 1 + (Zpos (digits2_pos b) - 1)))%Z as H by (apply Z.pow_le_mono_r; lia).
  rewrite Z.pow_add_r in H by lia. assert (0 < 2 ^ (Zpos (digits2_pos b) - 1))%Z by (apply Z.pow_pos_nonneg; lia). nia.
Qed.

(** Quotients and products of doubles are doubles. *)
Lemma div_valid x y : valid_f64 (f64_div x y).
Proof.
  unfold f64_div, SFdiv. destruct x as [sx|sx| |sx mx ex], y as [sy|sy| |sy my ey]; try done.
  pose proof (div_core_roundable (Zpos mx) ex (Zpos my) ey ltac:(lia) ltac:(lia)) as H.
  destruct (SFdiv_core_binary prec emax (Zpos mx) ex (Zpos my) ey) as [[q e] l]. by apply round_valid.
Qed.

Lemma mul_valid x y : valid_f64 x → valid_f64 y → valid_f64 (f64_mul x y).
Proof.
  unfold f64_mul, SFmul, valid_f64. destruct x as [sx|sx| |sx mx ex], y as [sy|sy| |sy my ey]; try done. cbn [valid_binary]. intros Hx Hy.
  apply round_valid. split; [lia|]. pose proof (product_digits_lower mx my) as Hp. unfold bounded, canonical_mantissa in Hx, Hy.
  apply andb_prop in Hx as [Hx _], Hy as [Hy _]. apply Zeq_bool_eq in Hx, Hy. cbn [Zdigits2] in *. unfold fexp, emin in *. lia.
Qed.

Lemma clamp_valid x lo hi : valid_f64 x → valid_f64 lo → valid_f64 hi → valid_f64 (f64_clamp x lo hi).
Proof. intros. unfold f64_clamp. by repeat destruct (_ : bool). Qed.

(** ** Rounding below a double *)

(** A rounded value: nearest on the grid of its exponent, and normalized. *)
Lemma round_grid M E : roundable (Zpos M) E → let F := fexp prec emax (Zpos (digits2_pos M) + E) in
  shr_m (shr_fexp prec emax (Zpos M) E loc_Exact).1 = (Zpos M / 2 ^ (F - E))%Z ∧
  round_nearest_even (shr_m (shr_fexp prec emax (Zpos M) E loc_Exact).1) (loc_of_shr_record (shr_fexp prec emax (Zpos M) E loc_Exact).1) = rne (Zpos M) (F - E) ∧
  (shr_fexp prec emax (Zpos M) E loc_Exact).2 = F.
Proof.
  intros Hr F. destruct (shr_fexp_roundable _ _ loc_Exact Hr) as [H1 H2]. split_and!; [done| |done].
  destruct Hr as [_ He]. cbn [Zdigits2] in *. fold F in He. unfold shr_fexp, shr. cbn [Zdigits2]. fold F.
  destruct (F - E)%Z as [|p|p] eqn:Ep; [|apply shr_rne; lia|lia].
  cbn. unfold rne. rewrite Z.pow_0_r, Z.mod_1_r, Z.div_1_r. done.
Qed.

Lemma rne_le M k q : (0 ≤ k)%Z → (2 * M < (2 * q + 1) * 2 ^ k)%Z → (rne M k ≤ q)%Z.
Proof.
  intros Hk HM. assert (0 < 2 ^ k)%Z as Hp by (apply Z.pow_pos_nonneg; lia). pose proof (Z.div_mod M (2 ^ k) ltac:(lia)) as Hd.
  pose proof (Z.mod_pos_bound M (2 ^ k) Hp) as Hm. unfold rne. set (a := (M / 2 ^ k)%Z) in *. set (b := (M mod 2 ^ k)%Z) in *.
  assert (a ≤ q)%Z by nia. destruct (Z.eq_dec a q) as [->|Hne]; [|repeat case_match; lia].
  assert (2 * b < 2 ^ k)%Z by nia. rewrite (proj2 (Z.ltb_lt _ _)) by lia. lia.
Qed.

(** What is nearer to a double than half a unit of its last place rounds below it. *)
Lemma round_upper M E q e t : roundable (Zpos M) E → canonical q e → (e ≤ 971)%Z → (t ≤ E)%Z → (t ≤ e)%Z →
  (2 * Zpos M * 2 ^ (E - t) < (2 * Zpos q + 1) * 2 ^ (e - t))%Z →
  f64_le (binary_round_aux prec emax false (Zpos M) E loc_Exact) (S754_finite false q e) = true.
Proof.
  intros Hr (He & Hq & Hn) Hmax HtE Hte Hlt. destruct (round_grid M E Hr) as (H1 & H2 & H3). set (F := fexp prec emax (Zpos (digits2_pos M) + E)) in *.
  pose proof Hr as [_ HF]. cbn [Zdigits2] in HF. fold F in HF.
  assert (-1074 ≤ F)%Z as HF0 by (unfold F, fexp, emin; lia).
  pose proof (digits_lower M) as HMl. pose proof (digits_upper M) as HMu. pose proof (digits_upper q) as Hqu. pose proof (digits_lower q) as Hql.
  assert (0 < 2 ^ (E - t))%Z as Hp1 by (apply Z.pow_pos_nonneg; lia). assert (0 < 2 ^ (e - t))%Z as Hp2 by (apply Z.pow_pos_nonneg; lia).
  (* the grid of the result is not coarser *)
  assert (F ≤ e)%Z as HFe.
  { destruct (Z.le_gt_cases F e) as [|Hgt]; [done|exfalso]. assert (Zpos (digits2_pos M) + E = F + 53)%Z as Hd by (unfold F, fexp, emin in *; lia).
    assert (2 ^ (Zpos (digits2_pos M) - 1) * 2 ^ (E - t) = 2 ^ (F - e - 1) * (2 ^ 53 * 2 ^ (e - t)))%Z as HM.
    { rewrite <- !Z.pow_add_r by lia. f_equal. lia. }
    assert (1 ≤ 2 ^ (F - e - 1))%Z by (apply (Z.pow_le_mono_r 2 0); lia).
    assert (Zpos q < 2 ^ 53)%Z by (eapply Z.lt_le_trans; [exact Hqu|apply Z.pow_le_mono_r; lia]).
    assert (2 ^ 53 * 2 ^ (e - t) ≤ Zpos M * 2 ^ (E - t))%Z by nia. nia. }
  assert (0 < 2 ^ (F - E))%Z as Hp3 by (apply Z.pow_pos_nonneg; lia). assert (0 < 2 ^ (e - F))%Z as Hp4 by (apply Z.pow_pos_nonneg; lia).
  assert (rne (Zpos M) (F - E) ≤ Zpos q * 2 ^ (e - F))%Z as Hrne.
  { apply rne_le; [lia|]. destruct (Z.eq_dec e F) as [Heq|Hne].
    - assert (2 ^ (e - t) = 2 ^ (F - E) * 2 ^ (E - t))%Z as Hs by (rewrite <- !Z.pow_add_r by lia; f_equal; lia).
      rewrite Heq, Z.sub_diag, Z.pow_0_r, Z.mul_1_r. rewrite Hs in Hlt. nia.
    - (* the value is below every double of the exponent [e] *)
      rewrite Hn in Hql by lia. change (2 ^ (53 - 1))%Z with (2 ^ 52)%Z in Hql.
      assert (Zpos M < 2 ^ 53 * 2 ^ (F - E))%Z as HM.
      { eapply Z.lt_le_trans; [exact HMu|]. rewrite <- Z.pow_add_r by lia. apply Z.pow_le_mono_r; [lia|]. unfold F, fexp, emin. lia. }
      assert (2 ≤ 2 ^ (e - F))%Z by (apply (Z.pow_le_mono_r 2 1); lia).
      assert (2 ^ 52 * 2 ≤ Zpos q * 2 ^ (e - F))%Z by (apply Z.mul_le_mono_nonneg; lia). change (2 ^ 53)%Z with (2 ^ 52 * 2)%Z in HM. nia. }
  unfold binary_round_aux. destruct (shr_fexp prec emax (Zpos M) E loc_Exact) as [r1 e1]. cbn [fst snd] in *. subst e1.
  rewrite H2. set (m1 := rne (Zpos M) (F - E)) in *.
  pose proof (rne_bounds (Zpos M) (F - E) ltac:(lia)) as [Hb _]. fold m1 in Hb.
  assert (0 ≤ Zpos M / 2 ^ (F - E))%Z as Hq0 by (apply Z.div_pos; lia).
  assert (roundable m1 F) as Hr1.
  { split; [lia|]. pose proof (Zdigits2_div (Zpos M) (F - E) ltac:(lia) ltac:(lia)) as Hd. pose proof (Zdigits2_mono _ m1 (conj Hq0 Hb)) as Hm.
    cbn [Zdigits2] in Hd. unfold F, fexp, emin in *. lia. }
  destruct (shr_fexp_roundable m1 F loc_Exact Hr1) as [Hs1 Hs2]. destruct Hr1 as [Hm1 HF1]. set (F' := fexp prec emax (Zdigits2 m1 + F)) in *.
  assert (F' ≤ e)%Z as HF'.
  { pose proof (Zdigits2_le m1 (Zpos (digits2_pos q) + (e - F))) as Hd. assert (m1 < 2 ^ (Zpos (digits2_pos q) + (e - F)))%Z.
    { rewrite Z.pow_add_r by lia. nia. }
    unfold F', fexp, emin. lia. }
  destruct (shr_fexp prec emax m1 F loc_Exact) as [r2 e2]. cbn [fst snd] in *. subst e2.
  assert (0 < 2 ^ (F' - F))%Z as Hp5 by (apply Z.pow_pos_nonneg; lia).
  assert (e = F' → shr_m r2 ≤ Zpos q)%Z as Hm2.
  { intros Heq. rewrite Hs1. apply Z.div_le_upper_bound; [lia|]. rewrite <- Heq. lia. }
  destruct (shr_m r2) as [|m2|m2]; [done| |].
  - rewrite (proj2 (Z.leb_le F' (emax - prec))) by lia. apply le_finite. lia.
  - exfalso. pose proof (Z.div_pos m1 (2 ^ (F' - F))). lia.
Qed.

(** ** Products and sums of fractions *)

Lemma unit_valid x : unit_f64 x → valid_f64 x.
Proof.
  intros [[s ->]|(m & e & -> & (He & Hd & Hn) & He0 & _)]; [done|]. unfold valid_f64. cbn [valid_binary]. unfold bounded, canonical_mantissa.
  apply andb_true_iff. split; [apply Zeq_is_eq_bool; unfold fexp, emin; destruct (Z.eq_dec e (-1074)); lia|lia].
Qed.

Lemma binary_round_aligned M E : (-1074 ≤ E)%Z → ∃ M' E', binary_round prec emax false M E = binary_round_aux prec emax false (Zpos M') E' loc_Exact ∧
  roundable (Zpos M') E' ∧ (-1074 ≤ E' ≤ E)%Z ∧ (Zpos M' * 2 ^ (E' + 1074) = Zpos M * 2 ^ (E + 1074))%Z.
Proof.
  intros HE. unfold binary_round. set (F := fexp prec emax (Zpos (digits2_pos M) + E)). destruct (Z.le_gt_cases F E) as [HF|HF].
  - destruct (shl_align_spec M E F HF) as [Hm He]. destruct (shl_align M E F) as [M' E']. cbn [fst snd] in *. subst E'.
    pose proof (digits_shift M (E - F) ltac:(lia) M' Hm) as Hd. exists M', F. split; [done|].
    assert (-1074 ≤ F)%Z by (unfold F, fexp, emin; lia). split_and!; [split; [lia|cbn [Zdigits2]; rewrite Hd; unfold F, fexp, emin in *; lia]|lia|lia|].
    rewrite Hm, <- Z.mul_assoc, <- Z.pow_add_r by lia. do 2 f_equal. lia.
  - assert (shl_align M E F = (M, E)) as -> by (unfold shl_align; by destruct (F - E)%Z eqn:E1; [lia| |lia]).
    exists M, E. split_and!; [done|split; [lia|cbn [Zdigits2]; fold F; lia]|lia|lia|done].
Qed.

Lemma canonical_digits q e : canonical q e → (Zpos q < 2 ^ 53)%Z.
Proof. intros (_ & Hd & _). pose proof (digits_upper q). eapply Z.lt_le_trans; [done|]. apply Z.pow_le_mono_r; lia. Qed.

(** A double times a fraction is not larger. *)
Lemma mul_unit_le m e c : canonical m e → (e ≤ 971)%Z → unit_f64 c → f64_le (f64_mul (S754_finite false m e) c) (S754_finite false m e) = true.
Proof.
  intros Hc He [[s ->]|(mc & ec & -> & Hcc & Hec & Hmc)]; [by destruct s|]. unfold f64_mul. cbn [SFmul xorb].
  apply (round_upper _ _ _ _ (e + ec)); [|done|done|lia|lia|].
  - split; [lia|]. pose proof (product_digits_lower m mc) as Hp. cbn [Zdigits2]. destruct Hc as (H1 & H2 & H3), Hcc as (H1' & H2' & H3').
    unfold fexp, emin. destruct (Z.eq_dec e (-1074)), (Z.eq_dec ec (-1074)); lia.
  - rewrite Z.sub_diag, Z.pow_0_r. replace (e - (e + ec))%Z with (- ec)%Z by lia. assert (0 < 2 ^ (- ec))%Z by (apply Z.pow_pos_nonneg; lia). nia.
Qed.

(** The order of two doubles is the order of their values. *)
Lemma le_value m e m' e' : canonical m e → canonical m' e' → f64_le (S754_finite false m e) (S754_finite false m' e') = true →
  (Zpos m * 2 ^ (e + 1074) ≤ Zpos m' * 2 ^ (e' + 1074))%Z.
Proof.
  intros Hc Hc' [Hlt|[-> Hle]]%f64_le_finite; [|apply Z.mul_le_mono_nonneg_r; [apply Z.pow_nonneg; lia|done]].
  pose proof (canonical_digits _ _ Hc) as Hu. destruct Hc as (He & _), Hc' as (He' & _ & Hn). specialize (Hn ltac:(lia)).
  pose proof (digits_lower m') as Hl. rewrite Hn in Hl. change (2 ^ (53 - 1))%Z with (2 ^ 52)%Z in Hl.
  assert (2 ^ (e' + 1074) = 2 ^ (e' - e) * 2 ^ (e + 1074))%Z as -> by (rewrite <- Z.pow_add_r by lia; f_equal; lia).
  assert (2 ≤ 2 ^ (e' - e))%Z by (apply (Z.pow_le_mono_r 2 1); lia). assert (2 ^ 52 * 2 ≤ Zpos m' * 2 ^ (e' - e))%Z by (apply Z.mul_le_mono_nonneg; lia).
  rewrite Z.mul_assoc. apply Z.mul_le_mono_nonneg_r; [apply Z.pow_nonneg; lia|]. change (2 ^ 53)%Z with (2 ^ 52 * 2)%Z in Hu. lia.
Qed.

Lemma rne_error M k : (0 ≤ k)%Z → (2 * (rne M k * 2 ^ k) ≤ 2 * M + 2 ^ k)%Z.
Proof.
  intros Hk. assert (0 < 2 ^ k)%Z as Hp by (apply Z.pow_pos_nonneg; lia). pose proof (Z.div_mod M (2 ^ k) ltac:(lia)) as Hd.
  pose proof (Z.mod_pos_bound M (2 ^ k) Hp) as Hm. unfold rne. set (a := (M / 2 ^ k)%Z) in *. set (b := (M mod 2 ^ k)%Z) in *.
  repeat case_match; nia.
Qed.

(** A rounded value is at most the nearest point of its grid. *)
Lemma round_value_le M E q f : roundable (Zpos M) E → (-1074 ≤ E)%Z → binary_round_aux prec emax false (Zpos M) E loc_Exact = S754_finite false q f →
  let F := fexp prec emax (Zpos (digits2_pos M) + E) in (Zpos q * 2 ^ (f + 1074) ≤ rne (Zpos M) (F - E) * 2 ^ (F + 1074))%Z.
Proof.
  intros Hr HE. cbv zeta. destruct (round_grid M E Hr) as (H1 & H2 & H3). set (F := fexp prec emax (Zpos (digits2_pos M) + E)) in *.
  pose proof Hr as [_ HF]. cbn [Zdigits2] in HF. fold F in HF.
  unfold binary_round_aux. destruct (shr_fexp prec emax (Zpos M) E loc_Exact) as [r1 e1]. cbn [fst snd] in *. subst e1. rewrite H2.
  set (m1 := rne (Zpos M) (F - E)) in *. pose proof (rne_bounds (Zpos M) (F - E) ltac:(lia)) as [Hb _]. fold m1 in Hb.
  assert (0 ≤ Zpos M / 2 ^ (F - E))%Z as Hq0 by (apply Z.div_pos; [lia|apply Z.pow_pos_nonneg; lia]).
  assert (roundable m1 F) as Hr1.
  { split; [lia|]. pose proof (Zdigits2_div (Zpos M) (F - E) ltac:(lia) ltac:(lia)) as Hd. pose proof (Zdigits2_mono _ m1 (conj Hq0 Hb)) as Hm.
    cbn [Zdigits2] in Hd. unfold F, fexp, emin in *. lia. }
  destruct (shr_fexp_roundable m1 F loc_Exact Hr1) as [Hs1 Hs2]. destruct Hr1 as [Hm1 HF1]. set (F' := fexp prec emax (Zdigits2 m1 + F)) in *.
  destruct (shr_fexp prec emax m1 F loc_Exact) as [r2 e2]. cbn [fst snd] in *. subst e2.
  assert (0 < 2 ^ (F' - F))%Z as Hp5 by (apply Z.pow_pos_nonneg; lia).
  destruct (shr_m r2) as [|m2|m2]; [done| |done]. destruct (F' <=? emax - prec)%Z; [|done]. intros [= -> <-].
  replace (F' + 1074)%Z with (F' - F + (F + 1074))%Z by lia. rewrite Z.pow_add_r, Z.mul_assoc by lia.
  apply Z.mul_le_mono_nonneg_r; [apply Z.pow_nonneg; lia|]. rewrite Hs1, Z.mul_comm. by apply Z.mul_div_le.
Qed.

(** One minus a fraction is at most the exact complement and a quarter of the spacing at 1. *)
Lemma complement_error m e : canonical m e → (e ≤ 0)%Z → (Zpos m ≤ 2 ^ (- e))%Z →
  (∃ s, f64_sub (f64_of_Z 1) (S754_finite false m e) = S754_zero s) ∨
  ∃ q f, f64_sub (f64_of_Z 1) (S754_finite false m e) = S754_finite false q f ∧ canonical q f ∧ (f ≤ 971)%Z ∧
    (2 * (Zpos q * 2 ^ (f + 1074)) + 2 * (Zpos m * 2 ^ (e + 1074)) ≤ 2 * 2 ^ 1074 + 2 ^ 1021)%Z.
Proof.
  intros Hc He0 Hm. destruct (one_minus_unit (S754_finite false m e)) as [[s Hs]|(q & f & Hs & Hcq & Hf & Hq)]; [right; by exists m, e|left; by exists s|].
  right. exists q, f. split_and!; [done|done|lia|]. revert Hs. rewrite one_is. pose proof Hc as (He & Hd & Hn).
  assert (e ≤ -52)%Z as He52.
  { destruct (Z.le_gt_cases e (-52)) as [?|Hgt]; [done|exfalso]. pose proof (digits_lower m) as Hl. rewrite Hn in Hl by lia.
    assert (2 ^ (- e) ≤ 2 ^ 51)%Z by (apply Z.pow_le_mono_r; lia). change (2 ^ (53 - 1))%Z with (2 * 2 ^ 51)%Z in Hl. lia. }
  unfold f64_sub, SFsub. rewrite Z.min_r by lia. cbn [cond_Zopp].
  destruct (shl_align_spec (2 ^ 52) (-52) e) as [-> _]; [lia|]. destruct (shl_align_spec m e e) as [-> _]; [lia|].
  rewrite Z.sub_diag, Z.pow_0_r, Z.mul_1_r. change (Zpos (2 ^ 52)) with (2 ^ 52)%Z. rewrite <- Z.pow_add_r by lia.
  replace (52 + (-52 - e))%Z with (- e)%Z by lia.
  destruct (2 ^ (- e) - Zpos m)%Z as [|M|M] eqn:EM; [done| |lia]. cbn [binary_normalize].
  assert (Zpos M * 2 ^ (e + 1074) + Zpos m * 2 ^ (e + 1074) = 2 ^ 1074)%Z as Hsum.
  { rewrite <- Z.mul_add_distr_r. replace (Zpos M + Zpos m)%Z with (2 ^ (- e))%Z by lia. rewrite <- Z.pow_add_r by lia. f_equal. lia. }
  pose proof (Zdigits2_le (Zpos M) (- e)) as HdM. cbn [Zdigits2] in HdM. specialize (HdM ltac:(lia) ltac:(lia)).
  destruct (binary_round_aligned M e ltac:(lia)) as (M' & E' & -> & Hr & HE' & Hv). intros Hs.
  pose proof (round_value_le _ _ _ _ Hr ltac:(lia) Hs) as Hle. cbv zeta in Hle. set (F := fexp prec emax (Zpos (digits2_pos M') + E')) in *.
  pose proof Hr as [_ HF]. cbn [Zdigits2] in HF. fold F in HF.
  assert (Zpos (digits2_pos M') + E' ≤ 0)%Z as Hd'.
  { destruct (Z.le_gt_cases (Zpos (digits2_pos M') + E') 0) as [|Hgt]; [done|exfalso]. pose proof (digits_lower M') as Hl.
    assert (2 ^ 1074 ≤ 2 ^ (Zpos (digits2_pos M') - 1) * 2 ^ (E' + 1074))%Z by (rewrite <- Z.pow_add_r by lia; apply Z.pow_le_mono_r; lia).
    assert (0 < 2 ^ (E' + 1074))%Z by (apply Z.pow_pos_nonneg; lia). assert (0 < Zpos m * 2 ^ (e + 1074))%Z by (apply Z.mul_pos_pos; [lia|apply Z.pow_pos_nonneg; lia]). nia. }
  pose proof (rne_error (Zpos M') (F - E') ltac:(lia)) as Herr.
  assert (2 ^ (F + 1074) = 2 ^ (F - E') * 2 ^ (E' + 1074))%Z as Hp by (rewrite <- Z.pow_add_r by lia; f_equal; lia).
  assert (2 ^ (F + 1074) ≤ 2 ^ 1021)%Z by (apply Z.pow_le_mono_r; unfold F, fexp, emin; lia).
  assert (0 < 2 ^ (E' + 1074))%Z as HB by (apply Z.pow_pos_nonneg; lia). rewrite Hp in *.
  apply (Z.mul_le_mono_nonneg_r _ _ (2 ^ (E' + 1074))) in Herr; [|lia]. lia.
Qed.

(** The sum of two fractions whose values add to one and a quarter of the spacing is a fraction. *)
Lemma add_to_one y f a e : canonical y f → canonical a e → (f ≤ -52)%Z → (e ≤ -52)%Z →
  (2 * (Zpos y * 2 ^ (f + 1074)) + 2 * (Zpos a * 2 ^ (e + 1074)) ≤ 2 * 2 ^ 1074 + 2 ^ 1021)%Z →
  unit_f64 (f64_add (S754_finite false y f) (S754_finite false a e)).
Proof.
  intros Hy Ha Hf He Hsum. unfold f64_add. rewrite add_finite. set (E := Z.min f e). assert (-1074 ≤ E)%Z as HE by (destruct Hy, Ha; lia).
  assert (0 < 2 ^ (f - E))%Z by (apply Z.pow_pos_nonneg; lia). assert (0 < 2 ^ (e - E))%Z by (apply Z.pow_pos_nonneg; lia).
  destruct (Zpos y * 2 ^ (f - E) + Zpos a * 2 ^ (e - E))%Z as [|M|M] eqn:EM; [lia| |lia]. cbn [binary_normalize].
  assert (Zpos M * 2 ^ (E + 1074) = Zpos y * 2 ^ (f + 1074) + Zpos a * 2 ^ (e + 1074))%Z as Hv.
  { rewrite <- EM, Z.mul_add_distr_r, <- !Z.mul_assoc, <- !Z.pow_add_r by lia.
    replace (f - E + (E + 1074))%Z with (f + 1074)%Z by lia. by replace (e - E + (E + 1074))%Z with (e + 1074)%Z by lia. }
  destruct (binary_round_aligned M E HE) as (M' & E' & -> & Hr & HE' & Hv').
  apply unit_interval_fraction; [by apply round_valid| |].
  - pose proof (round_magnitude (Zpos M') E' loc_Exact ltac:(lia)) as Hm. by destruct (binary_round_aux _ _ _ _ _ _) as [[]|[]| |[] ? ?].
  - rewrite one_is. apply (round_upper _ _ _ _ (-1074)); [done|by split_and!|lia|lia|lia|].
    replace (E' - -1074)%Z with (E' + 1074)%Z by lia. change (-52 - -1074)%Z with 1022%Z.
    assert (2 ^ 1074 = 2 ^ 52 * 2 ^ 1022)%Z as Hp by (by rewrite <- Z.pow_add_r). assert (2 ^ 1022 = 2 * 2 ^ 1021)%Z as Hp' by (by rewrite <- Z.pow_succ_r).
    change (Zpos (2 ^ 52)) with (2 ^ 52)%Z. assert (0 < 2 ^ 1021)%Z by done. lia.
Qed.

Lemma unit_exponent m e : canonical m e → (e ≤ 0)%Z → (Zpos m ≤ 2 ^ (- e))%Z → (e ≤ -52)%Z.
Proof.
  intros (_ & _ & Hn) He0 Hm. destruct (Z.le_gt_cases e (-52)) as [?|Hgt]; [done|exfalso]. pose proof (digits_lower m) as Hl. rewrite Hn in Hl by lia.
  assert (2 ^ (- e) ≤ 2 ^ 51)%Z by (apply Z.pow_le_mono_r; lia). change (2 ^ (53 - 1))%Z with (2 * 2 ^ 51)%Z in Hl. lia.
Qed.

Lemma unit_le_one x : unit_f64 x → f64_le x (f64_of_Z 1) = true.
Proof.
  intros [[[] ->]|(m & e & -> & Hc & He0 & Hm)]; [done..|]. rewrite one_is. apply le_finite. pose proof (unit_exponent m e Hc He0 Hm).
  destruct (Z.eq_dec e (-52)) as [->|]; [right; split; [done|exact Hm]|left; lia].
Qed.

(** The product of two fractions is a fraction, at most the first. *)
Lemma mul_fraction x c : unit_f64 x → unit_f64 c → unit_f64 (f64_mul x c) ∧ ((∃ s, f64_mul x c = S754_zero s) ∨
  ∃ m e y f, x = S754_finite false m e ∧ f64_mul x c = S754_finite false y f ∧ canonical y f ∧ (f ≤ -52)%Z ∧ (Zpos y * 2 ^ (f + 1074) ≤ Zpos m * 2 ^ (e + 1074))%Z).
Proof.
  intros Hx Hc. pose proof (mul_valid _ _ (unit_valid _ Hx) (unit_valid _ Hc)) as Hv.
  destruct Hx as [[s ->]|(m & e & -> & Hcx & He0 & Hm)]; [split; [left|left]; destruct Hc as [[[] ->]|(? & ? & -> & _)]; by eexists|].
  pose proof (mul_unit_le m e c Hcx ltac:(lia) Hc) as Hle.
  assert (f64_le (S754_finite false m e) (f64_of_Z 1) = true) as H1 by (apply unit_le_one; right; by exists m, e).
  assert (magnitude (f64_mul (S754_finite false m e) c)) as Hmag.
  { destruct Hc as [[s ->]|(mc & ec & -> & _)]; [by destruct s|]. unfold f64_mul. cbn [SFmul xorb]. apply round_magnitude. lia. }
  destruct (unit_interval_fraction (f64_mul (S754_finite false m e) c)) as [Hz|(y & f & Hy & Hcy & Hf0 & Hyf)]; [done| |by apply (f64_le_trans _ (S754_finite false m e))|split; [by left|by left]|].
  - by destruct (f64_mul _ _) as [[]|[]| |[] ? ?].
  - split; [right; by exists y, f|right]. exists m, e, y, f. rewrite Hy in Hle. split_and!; [done|done|done|by apply (unit_exponent y)|by apply le_value].
Qed.

(** An average of two fractions, rounded four times, is a fraction. *)
Lemma average_unit alpha c w : unit_f64 alpha → unit_f64 c → unit_f64 w →
  unit_f64 (f64_add (f64_mul (f64_sub (f64_of_Z 1) alpha) c) (f64_mul alpha w)).
Proof.
  intros Ha Hc Hw. pose proof (one_minus_unit _ Ha) as H1.
  destruct (mul_fraction _ _ H1 Hc) as [Hu1 Hc1], (mul_fraction _ _ Ha Hw) as [Hu2 Hc2].
  destruct Hc2 as [[s2 H2]|(m & e & y2 & f2 & -> & H2 & Hk2 & Hf2 & Hv2)]; rewrite H2 in *.
  - destruct Hc1 as [[s1 H1']|(? & ? & y1 & f1 & _ & H1' & _)]; rewrite H1' in *; [left; destruct s1, s2; by eexists|done].
  - destruct Hc1 as [[s1 H1']|(q & g & y1 & f1 & Hq & H1' & Hk1 & Hf1 & Hv1)]; rewrite H1' in *; [done|].
    destruct Ha as [[s Hs]|(m' & e' & [= <- <-] & Hca & He0 & Hm)]; [done|].
    destruct (complement_error m e Hca He0 Hm) as [[s Hs]|(q' & g' & Hq' & _ & _ & Hsum)]; [congruence|].
    assert (q' = q ∧ g' = g) as [-> ->] by (split; congruence). apply add_to_one; [done..|lia].
Qed.

(** ** Midpoints *)

Lemma round_sign M E l : binary_round_aux prec emax true M E l = SFopp (binary_round_aux prec emax false M E l).
Proof.
  unfold binary_round_aux. destruct (shr_fexp prec emax M E l) as [r1 e1]. destruct (shr_fexp prec emax _ e1 loc_Exact) as [r2 e2].
  destruct (shr_m r2); [done|by destruct (_ <=? _)%Z|done].
Qed.

Lemma round_abs s M E l : (0 ≤ M)%Z → f64_abs (binary_round_aux prec emax s M E l) = binary_round_aux prec emax false M E l.
Proof.
  intros HM. pose proof (round_magnitude M E l HM) as Hm. destruct s; [rewrite round_sign|]; destruct (binary_round_aux prec emax false M E l) as [[]|[]| |[] ? ?] eqn:Er;
    try done; exfalso; revert Er; unfold binary_round_aux; destruct (shr_fexp prec emax M E l) as [r1 e1]; destruct (shr_fexp prec emax _ e1 loc_Exact) as [r2 e2];
    destruct (shr_m r2); try done; by destruct (_ <=? _)%Z.
Qed.

(** A double of absolute value at most [q * 2 ^ g]. *)
Definition within (q : positive) (g : Z) (x : f64) : Prop := valid_f64 x ∧ f64_le (f64_abs x) (S754_finite false q g) = true.

Lemma valid_canonical s m e : valid_f64 (S754_finite s m e) → canonical m e ∧ (e ≤ 971)%Z.
Proof.
  unfold valid_f64. cbn [valid_binary]. intros Hb. pose proof (bounded_digits m e Hb) as Hm. pose proof (digits_lower m) as Hl.
  unfold bounded, canonical_mantissa in Hb. apply andb_prop in Hb as [Hc He]. apply Zeq_bool_eq in Hc. unfold fexp, emin in Hc. split; [|lia].
  split_and!; lia.
Qed.

Lemma within_inv q g x : canonical q g → within q g x → (∃ s, x = S754_zero s) ∨
  ∃ s m e, x = S754_finite s m e ∧ canonical m e ∧ (e ≤ 971)%Z ∧ (Zpos m * 2 ^ (e + 1074) ≤ Zpos q * 2 ^ (g + 1074))%Z.
Proof.
  intros Hq [Hv Hle]. destruct x as [s|[]| |s m e]; [left; by exists s|done..|right]. destruct (valid_canonical _ _ _ Hv) as [Hc He].
  exists s, m, e. split_and!; [done|done|done|by apply le_value].
Qed.

Lemma add_signed s m e s' m' e' : SFadd prec emax (S754_finite s m e) (S754_finite s' m' e') =
  binary_normalize prec emax (cond_Zopp s (Zpos m * 2 ^ (e - Z.min e e')) + cond_Zopp s' (Zpos m' * 2 ^ (e' - Z.min e e'))) (Z.min e e') false.
Proof.
  unfold SFadd. destruct (shl_align_spec m e (Z.min e e')) as [-> _]; [lia|]. by destruct (shl_align_spec m' e' (Z.min e e')) as [-> _]; [lia|].
Qed.

Lemma normalize_within M E q g : canonical q g → (g ≤ 971)%Z → (-1074 ≤ E)%Z → (Z.abs M * 2 ^ (E + 1074) ≤ Zpos q * 2 ^ (g + 1074))%Z →
  within q g (binary_normalize prec emax M E false).
Proof.
  intros Hq Hg HE HM. assert (∀ s p, (Zpos p * 2 ^ (E + 1074) ≤ Zpos q * 2 ^ (g + 1074))%Z → within q g (binary_round prec emax s p E)) as Hp.
  { intros s p Hp. destruct (binary_round_aligned p E HE) as (M' & E' & Hr & Hro & HE' & Hv).
    assert (binary_round prec emax s p E = binary_round_aux prec emax s (Zpos M') E' loc_Exact) as ->.
    { revert Hr. unfold binary_round. destruct (shl_align p E _) as [p' E'']. destruct s; [rewrite !round_sign|done]. by intros ->. }
    split; [by apply round_valid|]. rewrite round_abs by lia. destruct Hq as (H1 & H2 & H3).
    apply (round_upper _ _ _ _ (-1074)); [done|by split_and!|done|lia|lia|].
    replace (E' - -1074)%Z with (E' + 1074)%Z by lia. replace (g - -1074)%Z with (g + 1074)%Z by lia.
    assert (0 < 2 ^ (g + 1074))%Z by (apply Z.pow_pos_nonneg; lia). lia. }
  destruct M as [|p|p]; cbn [binary_normalize]; [by split|by apply Hp..].
Qed.

(** The midpoint of two doubles within a bound is within the bound. *)
Lemma midpoint_within q g x y : canonical q g → (-1074 < g < 971)%Z → within q g x → within q g y →
  within q g (f64_mul (f64_add x y) (f64_ratio 1 2)).
Proof.
  intros Hq Hg Hx Hy. assert (canonical q (g + 1)) as Hq' by (destruct Hq as (? & ? & Hn); split_and!; [lia|done|intros _; apply Hn; lia]).
  assert (2 ^ (g + 1 + 1074) = 2 * 2 ^ (g + 1074))%Z as Hp by (rewrite <- Z.pow_succ_r by lia; f_equal; lia).
  assert (0 < 2 ^ (g + 1074))%Z as Hp0 by (apply Z.pow_pos_nonneg; lia).
  assert (∀ z, within q g z → within q (g + 1) z) as Hw.
  { intros z [Hv Hz]. split; [done|]. apply (f64_le_trans _ _ _ Hz), le_finite. lia. }
  assert (within q (g + 1) (f64_add x y)) as Hs.
  { pose proof (within_inv q g x Hq Hx) as [[s ->]|(s & m & e & -> & Hc & He & Hv)].
    { pose proof (within_inv q g y Hq Hy) as [[s' ->]|(s' & m' & e' & -> & _)]; [by destruct s, s'|by apply Hw]. }
    pose proof (within_inv q g y Hq Hy) as [[s' ->]|(s' & m' & e' & -> & Hc' & He' & Hv')]; [by apply Hw|].
    unfold f64_add. rewrite add_signed. apply normalize_within; [done|lia|destruct Hc, Hc'; lia|].
    set (E := Z.min e e') in *. assert (-1074 ≤ E)%Z by (destruct Hc, Hc'; lia).
    assert (Zpos m * 2 ^ (e - E) * 2 ^ (E + 1074) = Zpos m * 2 ^ (e + 1074))%Z as H1.
    { rewrite <- Z.mul_assoc, <- Z.pow_add_r by lia. do 2 f_equal. lia. }
    assert (Zpos m' * 2 ^ (e' - E) * 2 ^ (E + 1074) = Zpos m' * 2 ^ (e' + 1074))%Z as H2.
    { rewrite <- Z.mul_assoc, <- Z.pow_add_r by lia. do 2 f_equal. lia. }
    set (a := (Zpos m * 2 ^ (e - E))%Z) in *. set (b := (Zpos m' * 2 ^ (e' - E))%Z) in *.
    assert (0 ≤ a ∧ 0 ≤ b)%Z as [Ha Hb] by (split; apply Z.mul_nonneg_nonneg; try lia; apply Z.pow_nonneg; lia).
    assert (Z.abs (cond_Zopp s a + cond_Zopp s' b) ≤ a + b)%Z as Habs by (destruct s, s'; cbn [cond_Zopp]; lia).
    assert (0 < 2 ^ (E + 1074))%Z by (apply Z.pow_pos_nonneg; lia). rewrite Hp. nia. }
  pose proof (within_inv q (g + 1) _ Hq' Hs) as [[s Hz]|(s & m & e & Hz & Hc & He & Hv)]; rewrite Hz in *; [by destruct s|].
  assert (f64_ratio 1 2 = S754_finite false (2 ^ 52) (-53)) as -> by by vm_compute.
  split; [apply mul_valid; [apply Hs|done]|]. unfold f64_mul. cbn [SFmul]. rewrite round_abs by lia.
  apply (round_upper _ _ _ _ (-1127)); [|done|lia|destruct Hc; lia|lia|].
  - split; [lia|]. pose proof (product_digits_lower m (2 ^ 52)) as Hd. change (Zpos (digits2_pos (2 ^ 52))) with 53%Z in Hd. cbn [Zdigits2].
    destruct Hc as (H1 & H2 & H3). unfold fexp, emin. lia.
  - replace (e + -53 - -1127)%Z with (e + 1074)%Z by lia. replace (g - -1127)%Z with (53 + (g + 1074))%Z by lia. rewrite (Z.pow_add_r 2 53) by lia.
    rewrite Pos2Z.inj_mul. change (Zpos (2 ^ 52)) with (2 ^ 52)%Z. change (2 ^ 53)%Z with (2 * 2 ^ 52)%Z. rewrite Hp in Hv. lia.
Qed.

(** ** Rounding above a double *)

(** What is at least a double rounds to at least that double. *)
Lemma round_lower M E q e : roundable (Zpos M) E → (-1074 ≤ E)%Z → canonical q e →
  (Zpos q * 2 ^ (e + 1074) ≤ Zpos M * 2 ^ (E + 1074))%Z →
  f64_le (S754_finite false q e) (binary_round_aux prec emax false (Zpos M) E loc_Exact) = true.
Proof.
  intros Hr HE Hc Hv. pose proof (round_valid false _ _ loc_Exact Hr) as Hvalid. destruct (round_grid M E Hr) as (H1 & H2 & H3).
  set (F := fexp prec emax (Zpos (digits2_pos M) + E)) in *. pose proof Hr as [_ HF]. cbn [Zdigits2] in HF. fold F in HF.
  assert (-1074 ≤ F)%Z as HF0 by (unfold F, fexp, emin; lia).
  assert (0 < 2 ^ (F - E))%Z as Hp by (apply Z.pow_pos_nonneg; lia).
  (* the significand on the grid of the result *)
  assert ((F ≤ e → Zpos q * 2 ^ (e - F) ≤ Zpos M / 2 ^ (F - E)) ∧ (0 < Zpos M / 2 ^ (F - E)))%Z as [Hq H0].
  { assert (F ≤ e → Zpos q * 2 ^ (e - F) ≤ Zpos M / 2 ^ (F - E))%Z as Hq.
    { intros Hle. apply Z.div_le_lower_bound; [done|]. apply (Z.mul_le_mono_pos_r _ _ (2 ^ (E + 1074))); [apply Z.pow_pos_nonneg; lia|].
      replace (2 ^ (F - E) * (Zpos q * 2 ^ (e - F)) * 2 ^ (E + 1074))%Z with (Zpos q * (2 ^ (F - E) * 2 ^ (e - F) * 2 ^ (E + 1074)))%Z by lia.
      rewrite <- !Z.pow_add_r by lia. by replace (F - E + (e - F) + (E + 1074))%Z with (e + 1074)%Z by lia. }
    split; [done|]. destruct (Z.le_gt_cases F e) as [Hle|Hgt].
    - specialize (Hq Hle). assert (0 < 2 ^ (e - F))%Z by (apply Z.pow_pos_nonneg; lia). lia.
    - apply Z.div_str_pos. split; [done|]. destruct Hc as [Hc _]. pose proof (digits_lower M). etrans; [|done]. apply Z.pow_le_mono_r; [lia|]. unfold F, fexp, emin in *. lia. }
  unfold binary_round_aux in *. destruct (shr_fexp prec emax (Zpos M) E loc_Exact) as [r1 e1]. cbn [fst snd] in *. subst e1. rewrite H2 in *.
  set (m1 := rne (Zpos M) (F - E)) in *. pose proof (rne_bounds (Zpos M) (F - E) ltac:(lia)) as [Hb _]. fold m1 in Hb.
  assert (roundable m1 F) as Hr1.
  { split; [lia|]. pose proof (Zdigits2_div (Zpos M) (F - E) ltac:(lia) ltac:(lia)) as Hd. pose proof (Zdigits2_mono _ m1 (conj (Z.lt_le_incl _ _ H0) Hb)) as Hm.
    cbn [Zdigits2] in Hd. unfold F, fexp, emin in *. lia. }
  destruct (shr_fexp_roundable m1 F loc_Exact Hr1) as [Hs1 Hs2]. destruct Hr1 as [Hm1 HF1]. set (F' := fexp prec emax (Zdigits2 m1 + F)) in *.
  destruct (shr_fexp prec emax m1 F loc_Exact) as [r2 e2]. cbn [fst snd] in *. subst e2.
  assert (0 < 2 ^ (F' - F))%Z as Hp5 by (apply Z.pow_pos_nonneg; lia).
  assert (0 < shr_m r2)%Z as Hpos.
  { rewrite Hs1. apply Z.div_str_pos. split; [done|]. destruct m1 as [|m1|m1]; [lia| |lia]. cbn [Zdigits2] in *. pose proof (digits_lower m1).
    destruct (Z.eq_dec F' F) as [->|]; [rewrite Z.sub_diag; lia|]. etrans; [|done]. apply Z.pow_le_mono_r; [lia|]. unfold F', fexp, emin in *. lia. }
  destruct (shr_m r2) as [|m2|m2]; [lia| |lia]. destruct (F' <=? emax - prec)%Z; [|done]. apply le_finite.
  destruct (Z.lt_ge_cases e F') as [Hlt|Hge]; [by left|right].
  assert (Zpos q * 2 ^ (e - F') ≤ Zpos m2)%Z as Hm2.
  { rewrite Hs1. apply Z.div_le_lower_bound; [done|]. etrans; [|exact (Z.le_trans _ _ _ (Hq ltac:(lia)) Hb)].
    rewrite Z.mul_comm, <- Z.mul_assoc, <- Z.pow_add_r by lia. by replace (e - F' + (F' - F))%Z with (e - F)%Z by lia. }
  destruct (Z.eq_dec e F') as [He|He]; [split; [done|]; by rewrite He, Z.sub_diag, Z.mul_1_r in Hm2|exfalso].
  apply valid_canonical in Hvalid as [Hm _]. apply canonical_digits in Hm. destruct Hc as (_ & _ & Hc). specialize (Hc ltac:(lia)). pose proof (digits_lower q) as Hql.
  rewrite Hc in Hql. change (2 ^ (53 - 1))%Z with (2 ^ 52)%Z in Hql. assert (2 ≤ 2 ^ (e - F'))%Z by (apply (Z.pow_le_mono_r 2 1); lia).
  assert (2 ^ 52 * 2 ≤ Zpos q * 2 ^ (e - F'))%Z by (apply Z.mul_le_mono_nonneg; lia). change (2 ^ 53)%Z with (2 ^ 52 * 2)%Z in Hm. lia.
Qed.

Lemma round_aligned s M E : (-1074 ≤ E)%Z → ∃ M' E', binary_round prec emax s M E = binary_round_aux prec emax s (Zpos M') E' loc_Exact ∧
  roundable (Zpos M') E' ∧ (-1074 ≤ E' ≤ E)%Z ∧ (Zpos M' * 2 ^ (E' + 1074) = Zpos M * 2 ^ (E + 1074))%Z.
Proof.
  intros HE. destruct (binary_round_aligned M E HE) as (M' & E' & Hr & Hro). exists M', E'. split; [|done].
  revert Hr. unfold binary_round. destruct (shl_align M E _) as [p' E'']. destruct s; [rewrite !round_sign|done]. by intros ->.
Qed.

Lemma opp_le x y : f64_le (SFopp x) (SFopp y) = f64_le y x.
Proof. unfold f64_le, SFleb. destruct x as [[]|[]| |[] ? ?], y as [[]|[]| |[] ? ?]; cbn [SFopp negb]; try done; compare_cases. Qed.

Lemma zero_le_round M E : (0 ≤ M)%Z → f64_le f64_zero (binary_round_aux prec emax false M E loc_Exact) = true.
Proof. intros HM. pose proof (round_magnitude M E loc_Exact HM) as Hm. by destruct (binary_round_aux prec emax false M E loc_Exact) as [[]|[]| |[] ? ?]. Qed.

(** The value of a finite double in units of the smallest one. *)
Definition units (s : bool) (m : positive) (e : Z) : Z := cond_Zopp s (Zpos m * 2 ^ (e + 1074)).

(** Rounding does not cross a double, whichever sign. *)
Lemma normalize_above M E s m e : canonical m e → (e ≤ 971)%Z → (-1074 ≤ E)%Z → (units s m e ≤ M * 2 ^ (E + 1074))%Z →
  f64_le (S754_finite s m e) (binary_normalize prec emax M E false) = true.
Proof.
  intros Hc He HE HM. assert (0 < 2 ^ (E + 1074))%Z as Hp by (apply Z.pow_pos_nonneg; lia). assert (0 < 2 ^ (e + 1074))%Z as Hp' by (apply Z.pow_pos_nonneg; destruct Hc; lia).
  unfold units in HM. destruct M as [|p|p]; cbn [binary_normalize].
  - destruct s; [done|]. cbn [cond_Zopp] in HM. lia.
  - destruct (round_aligned false p E HE) as (M' & E' & -> & Hro & HE' & Hv). destruct s.
    + apply (f64_le_trans _ f64_zero); [done|by apply zero_le_round].
    + apply round_lower; [done|lia|done|]. cbn [cond_Zopp] in HM. lia.
  - destruct (round_aligned true p E HE) as (M' & E' & -> & Hro & HE' & Hv). destruct s; cbn [cond_Zopp] in HM; [|lia].
    rewrite round_sign. change (S754_finite true m e) with (SFopp (S754_finite false m e)). rewrite opp_le.
    apply (round_upper _ _ _ _ (-1074)); [done|done|done|lia|destruct Hc; lia|].
    replace (E' - -1074)%Z with (E' + 1074)%Z by lia. replace (e - -1074)%Z with (e + 1074)%Z by lia. lia.
Qed.

Lemma normalize_opp M E : M ≠ 0%Z → binary_normalize prec emax (- M) E false = SFopp (binary_normalize prec emax M E false).
Proof.
  assert (∀ p, binary_round prec emax true p E = SFopp (binary_round prec emax false p E)) as Hr.
  { intros p. unfold binary_round. destruct (shl_align p E _) as [p' E']. apply round_sign. }
  assert (∀ x, SFopp (SFopp x) = x) as Hi by (by intros [[]|[]| |[]]).
  destruct M as [|p|p]; [done|..]; intros _.
  - change (- Zpos p)%Z with (Zneg p). cbn [binary_normalize]. by rewrite Hr.
  - change (- Zneg p)%Z with (Zpos p). cbn [binary_normalize]. by rewrite Hr, Hi.
Qed.

Lemma normalize_below M E s m e : canonical m e → (e ≤ 971)%Z → (-1074 ≤ E)%Z → (M * 2 ^ (E + 1074) ≤ units s m e)%Z →
  f64_le (binary_normalize prec emax M E false) (S754_finite s m e) = true.
Proof.
  intros Hc He HE HM. destruct (Z.eq_dec M 0) as [->|HM0].
  - assert (0 < 2 ^ (e + 1074))%Z by (apply Z.pow_pos_nonneg; destruct Hc; lia). destruct s; [|done]. unfold units in HM. cbn [cond_Zopp] in HM. lia.
  - rewrite <- opp_le, <- normalize_opp by done. apply normalize_above; [done|done|done|]. unfold units in *. destruct s; cbn [negb cond_Zopp] in *; lia.
Qed.

Lemma sub_signed s m e s' m' e' : SFsub prec emax (S754_finite s m e) (S754_finite s' m' e') =
  binary_normalize prec emax (cond_Zopp s (Zpos m * 2 ^ (e - Z.min e e')) - cond_Zopp s' (Zpos m' * 2 ^ (e' - Z.min e e'))) (Z.min e e') false.
Proof.
  unfold SFsub. destruct (shl_align_spec m e (Z.min e e')) as [-> _]; [lia|]. by destruct (shl_align_spec m' e' (Z.min e e')) as [-> _]; [lia|].
Qed.

(** Zero or a positive double. *)
Definition width (h : f64) : Prop := valid_f64 h ∧ f64_le f64_zero h = true ∧ f64_is_finite h = true.

Lemma width_inv h : width h → (∃ s, h = S754_zero s) ∨ ∃ m e, h = S754_finite false m e ∧ canonical m e ∧ (e ≤ 971)%Z.
Proof. intros (Hv & H0 & Hf). destruct h as [s| | |[] m e]; try done; [left; by exists s|right]. apply valid_canonical in Hv as [? ?]. by exists m, e. Qed.

Lemma aligned_units m e E : (-1074 ≤ E ≤ e)%Z → (Zpos m * 2 ^ (e - E) * 2 ^ (E + 1074) = Zpos m * 2 ^ (e + 1074))%Z.
Proof. intros HE. rewrite <- Z.mul_assoc, <- Z.pow_add_r by lia. do 2 f_equal. lia. Qed.

(** A finite double is between its sum with a width and its difference to it. *)
Lemma interval_around x h : valid_f64 x → f64_is_finite x = true → width h →
  f64_le (f64_sub x h) x = true ∧ f64_le x (f64_add x h) = true.
Proof.
  intros Hx Hfx Hh. destruct x as [s| | |s m e]; try done.
  { destruct (width_inv h Hh) as [[s' ->]|(m & e & -> & _)]; destruct s; try destruct s'; done. }
  destruct (width_inv h Hh) as [[s' ->]|(m' & e' & -> & Hc' & He')].
  { split; by apply (f64_le_refl (S754_finite s m e)). }
  apply valid_canonical in Hx as [Hc He]. unfold f64_sub, f64_add. rewrite sub_signed, add_signed. cbn [cond_Zopp].
  set (E := Z.min e e'). assert (-1074 ≤ E ∧ E ≤ e ∧ E ≤ e')%Z as (HE & HEe & HEe') by (destruct Hc, Hc'; lia).
  pose proof (aligned_units m e E ltac:(lia)) as Ha. pose proof (aligned_units m' e' E ltac:(lia)) as Ha'.
  assert (0 < 2 ^ (e' + 1074))%Z by (apply Z.pow_pos_nonneg; lia).
  split; [apply normalize_below|apply normalize_above]; try done; unfold units; destruct s; cbn [cond_Zopp]; lia.
Qed.

(** ** Results are doubles *)

Lemma normalize_valid M E : (-1074 ≤ E)%Z → valid_f64 (binary_normalize prec emax M E false).
Proof.
  intros HE. destruct M as [|p|p]; cbn [binary_normalize]; [done|destruct (round_aligned false p E HE) as (M' & E' & -> & Hr & _)|
    destruct (round_aligned true p E HE) as (M' & E' & -> & Hr & _)]; by apply round_valid.
Qed.

Lemma sub_valid x y : valid_f64 x → valid_f64 y → valid_f64 (f64_sub x y).
Proof.
  intros Hx Hy. destruct x as [s|s| |s m e], y as [s'|s'| |s' m' e']; try (destruct s; try destruct s'; done); try done; try by destruct s.
  unfold f64_sub. rewrite sub_signed. apply normalize_valid. apply valid_canonical in Hx as [[? _] _], Hy as [[? _] _]. lia.
Qed.

Lemma add_valid x y : valid_f64 x → valid_f64 y → valid_f64 (f64_add x y).
Proof.
  intros Hx Hy. destruct x as [s|s| |s m e], y as [s'|s'| |s' m' e']; try (destruct s; try destruct s'; done); try done; try by destruct s.
  unfold f64_add. rewrite add_signed. apply normalize_valid. apply valid_canonical in Hx as [[? _] _], Hy as [[? _] _]. lia.
Qed.

Lemma sqrt_digits a : (0 < a)%Z → Zdigits2 (Z.sqrt a) = Z.div2 (Zdigits2 a + 1).
Proof.
  intros Ha. pose proof (Z.sqrt_spec a ltac:(lia)) as [Hl Hu]. assert (0 < Z.sqrt a)%Z as Hq by (apply Z.sqrt_pos; lia).
  destruct a as [|a|]; [lia| |lia]. set (q := Z.sqrt (Zpos a)) in *. destruct q as [|q|]; [lia| |lia]. cbn [Zdigits2].
  pose proof (digits_lower a) as Hal. pose proof (digits_upper a) as Hau. set (d := Zpos (digits2_pos a)) in *.
  assert (0 < d)%Z as Hd by (unfold d; lia). rewrite Z.div2_div. set (k := ((d + 1) / 2)%Z).
  assert (2 * k - 1 ≤ d ≤ 2 * k)%Z as Hk by (unfold k; pose proof (Z.div_mod (d + 1) 2); pose proof (Z.mod_pos_bound (d + 1) 2); lia).
  apply digits_unique; [|lia].
  assert (2 ^ (2 * k) = 2 ^ k * 2 ^ k)%Z as Hp by (rewrite <- Z.pow_add_r by lia; f_equal; lia).
  assert (2 ^ k = 2 * 2 ^ (k - 1))%Z as Hp1 by (rewrite <- Z.pow_succ_r by lia; f_equal; lia).
  assert (0 < 2 ^ (k - 1))%Z by (apply Z.pow_pos_nonneg; lia).
  assert (Zpos a < 2 ^ (2 * k))%Z as H1 by (eapply Z.lt_le_trans; [exact Hau|apply Z.pow_le_mono_r; lia]).
  assert (2 ^ (2 * (k - 1)) ≤ Zpos a)%Z as H2 by (etrans; [|exact Hal]; apply Z.pow_le_mono_r; lia).
  assert (2 ^ (2 * (k - 1)) = 2 ^ (k - 1) * 2 ^ (k - 1))%Z as Hp2 by (rewrite <- Z.pow_add_r by lia; f_equal; lia).
  split; nia.
Qed.

Lemma sqrt_valid x : valid_f64 x → valid_f64 (SFsqrt prec emax x).
Proof.
  intros Hx. destruct x as [|[]| |[] m e]; try done. cbn [SFsqrt]. unfold SFsqrt_core_binary.
  set (e' := Z.min _ _). set (s := (e - 2 * e')%Z). assert (0 ≤ s)%Z as Hs.
  { unfold s, e'. rewrite (Z.div2_div e). pose proof (Z.div_mod e 2). pose proof (Z.mod_pos_bound e 2). lia. }
  set (m' := match s with Z0 => Zpos m | Zpos _ => Z.shiftl (Zpos m) s | Zneg _ => 0%Z end).
  assert (m' = Zpos m * 2 ^ s)%Z as Hm'.
  { unfold m'. destruct s; [lia|by rewrite Z.shiftl_mul_pow2|lia]. }
  pose proof (Z.sqrtrem_sqrt m') as Hq. destruct (Z.sqrtrem m') as [q r]. cbn [fst] in Hq. subst q. apply round_valid.
  assert (0 < m')%Z as Hpos by (rewrite Hm'; apply Z.mul_pos_pos; [lia|apply Z.pow_pos_nonneg; lia]).
  split; [apply Z.sqrt_nonneg|]. rewrite sqrt_digits by done.
  assert (Zdigits2 m' = Zdigits2 (Zpos m) + s)%Z as ->.
  { destruct m' as [|p|]; [lia| |lia]. cbn [Zdigits2]. by apply digits_shift. }
  replace (Zdigits2 (Zpos m) + s + 1)%Z with (Zdigits2 (Zpos m) + e + 1 + (- e') * 2)%Z by (unfold s; lia).
  rewrite Z.div2_div, Z.div_add by lia. rewrite <- Z.div2_div. unfold e' at 1.
  replace (Z.div2 (Zdigits2 (Zpos m) + e + 1) + - e' + e')%Z with (Z.div2 (Zdigits2 (Zpos m) + e + 1)) by lia. lia.
Qed.

(** One half, against the complement of a level below it. *)
Lemma half_complement alpha : valid_f64 alpha → f64_lt f64_zero alpha = true → f64_lt alpha (f64_ratio 1 2) = true →
  f64_le (f64_ratio 1 2) (f64_sub (f64_of_Z 1) alpha) = true.
Proof.
  intros Hv H0 H1. apply f64_lt_le in H1. destruct alpha as [[]|[]| |[] m e]; try done. apply valid_canonical in Hv as [Hc He].
  assert (f64_ratio 1 2 = S754_finite false (2 ^ 52) (-53)) as Hh by by vm_compute. rewrite Hh in *. rewrite one_is.
  apply le_value in H1; [|done|by split_and!]. unfold f64_sub. rewrite sub_signed. cbn [cond_Zopp].
  set (E := Z.min (-52) e). assert (-1074 ≤ E ∧ E ≤ e ∧ E ≤ -52)%Z as (HE & HEe & HE0) by (destruct Hc; lia).
  pose proof (aligned_units (2 ^ 52) (-52) E ltac:(lia)) as Ha. pose proof (aligned_units m e E ltac:(lia)) as Ha'.
  apply normalize_above; [by split_and!|lia|done|]. unfold units. cbn [cond_Zopp]. rewrite Z.mul_sub_distr_r, Ha, Ha'.
  assert (2 ^ (-52 + 1074) = 2 * 2 ^ (-53 + 1074))%Z as Hp by (rewrite <- Z.pow_succ_r by lia; done). rewrite Hp. lia.
Qed.
