(* ===== verification/Ast.v ===== *)
(** MetricQL: syntax tree and source spans
    ([validators/metricql/ast.rs]). *)
From S2P Require Import Prelude Bytes F64.

(** Half-open byte range into the source. *)
Record Span := mk_span { sp_start : nat; sp_end : nat }.

Inductive AggFunc :=
| AggUnknown | Mean | Sum | Count | CountDistinct | Proportion | Percentile.

Inductive ArithOp := ArithUnknown | Add | Sub | Mul | Div.

(** [Op] of the source. *)
Inductive PredOp := OpEq | OpNeq | OpLt | OpLte | OpGt | OpGte | OpIn.

Inductive WindowUnit := Hours | Days.

Record MetricRef := mk_metric_ref { mr_id : str; mr_span : Span }.
Record Literal := mk_literal { lit_value : f64; lit_span : Span }.
Record Ratio := mk_ratio { numerator : MetricRef; denominator : MetricRef; ratio_span : Span }.
Record Source := mk_source { event_type : str; src_field : str; src_span : Span }.
Record FieldRef := mk_field_ref { namespace : str; fname : str }.

(** [Value] with its [ValueKind] and span. *)
Inductive Value :=
| VString (s : str) (sp : Span)
| VNumber (n : f64) (sp : Span)
| VList (l : list Value) (sp : Span).

Definition value_span (v : Value) : Span :=
  match v with VString _ sp | VNumber _ sp | VList _ sp => sp end.

Record Predicate := mk_predicate
  { pr_field : FieldRef; operator : PredOp; pr_value : Value; pr_span : Span }.
Record Filter := mk_filter { predicates : list Predicate; filter_span : Span }.
Record Window := mk_window { win_n : Z; win_unit : WindowUnit; win_span : Span }.

Record Aggregation := mk_aggregation
  { agg_func : AggFunc; agg_percentile : f64; agg_source : Source;
    agg_filter : option Filter; agg_window : option Window; agg_span : Span }.

(** [Composite] and [Negate] are the boxed structs of the source, inlined. *)
Inductive Node :=
| NAggregation (a : Aggregation)
| NComposite (op : ArithOp) (left right : Node) (sp : Span)
| NNegate (operand : Node) (sp : Span)
| NRatio (r : Ratio)
| NMetricRef (m : MetricRef)
| NLiteral (l : Literal).

#[export] Instance span_eq_dec : EqDecision Span.
Proof. solve_decision. Defined.
#[export] Instance agg_func_eq_dec : EqDecision AggFunc.
Proof. solve_decision. Defined.
#[export] Instance arith_op_eq_dec : EqDecision ArithOp.
Proof. solve_decision. Defined.
#[export] Instance pred_op_eq_dec : EqDecision PredOp.
Proof. solve_decision. Defined.
#[export] Instance window_unit_eq_dec : EqDecision WindowUnit.
Proof. solve_decision. Defined.
