(* ===== verification/Lexer.v ===== *)
(** MetricQL lexer ([validators/metricql/lexer.rs]): the tokenizer with its
    position-indexed loop, and its theorems: it never panics on well-formed
    text, its tokens tile the source, every token has the shape of its kind, and
    lexing a spaced-out token list gives that list back. *)
From Stdlib Require Import Ascii String.
From S2P Require Import Prelude Bytes F64 Ast.

Inductive TokenKind :=
| Eof | Ident | Number | TString | Keyword
| At | LParen | RParen | LBracket | RBracket | Comma | Dot
| Plus | Minus | Star | Slash
| Eq | Neq | Lt | Lte | Gt | Gte.

#[export] Instance token_kind_eq_dec : EqDecision TokenKind.
Proof. solve_decision. Defined.

Record Token := mk_token { kind : TokenKind; value : str; span : Span }.

(** The texts of [LexError::message], one constructor per text. *)
Inductive LexMessage :=
| UnexpectedBang              (* unexpected '!' (expected '!=') *)
| UnexpectedCharacter (c : ascii)  (* unexpected character {:?} *)
| UnterminatedString.         (* unterminated string literal *)

Record LexError := mk_lex_error { le_span : Span; le_message : LexMessage }.

Definition reserved_keywords : list str :=
  [lit "where"; lit "and"; lit "in"; lit "within"; lit "of"; lit "exposure";
   lit "hours"; lit "days"; lit "ratio"; lit "mean"; lit "sum"; lit "count";
   lit "count_distinct"; lit "proportion"; lit "percentile"].

Record Lexer := mk_lexer { lx_source : str; lx_pos : nat; lx_tokens : list Token }.

Definition lex_result := result LexError.

(** [Lexer::new]. *)
Definition new (source : str) : Lexer := mk_lexer source 0 [].

(** [self.pos = p]. *)
Definition set_pos (l : Lexer) (p : nat) : Lexer :=
  mk_lexer (lx_source l) p (lx_tokens l).

(** Byte classes of the dispatch. *)
Definition is_ws (c : ascii) : bool :=
  is_byte " " c || is_byte "009" c || is_byte "010" c || is_byte "013" c.
Definition is_ident_start (c : ascii) : bool := is_ascii_lowercase c || is_byte "_" c.
Definition is_ident_char (c : ascii) : bool :=
  is_ascii_lowercase c || is_ascii_digit c || is_byte "_" c.
Definition not_quote (c : ascii) : bool := negb (is_byte "'" c).

(** The single-byte arms of the dispatch. *)
Definition punct_kind (c : ascii) : option TokenKind :=
  if is_byte "@" c then Some At
  else if is_byte "(" c then Some LParen
  else if is_byte ")" c then Some RParen
  else if is_byte "[" c then Some LBracket
  else if is_byte "]" c then Some RBracket
  else if is_byte "," c then Some Comma
  else if is_byte "." c then Some Dot
  else if is_byte "+" c then Some Plus
  else if is_byte "-" c then Some Minus
  else if is_byte "*" c then Some Star
  else if is_byte "/" c then Some Slash
  else if is_byte "=" c then Some Eq
  else None.

(** [self.pos + k < len && bytes[self.pos + k] satisfies p]. *)
Definition byte_at_is (p : ascii → bool) (s : str) (i : nat) : bool :=
  match s !! i with Some c => p c | None => false end.

(** [Lexer::emit]: the value is the slice [source[start..end]]. *)
Definition emit (k : TokenKind) (st en : nat) (l : Lexer) : lex_result Lexer :=
  v ← slice (lx_source l) st en;
  mret (mk_lexer (lx_source l) (lx_pos l)
                 (lx_tokens l ++ [mk_token k v (mk_span st en)])).

Definition err_at {A} (pos : nat) (m : LexMessage) : lex_result A :=
  Err (mk_lex_error (mk_span pos (pos + 1)) m).

(** [Lexer::lex_number]. *)
Definition lex_number (start : nat) (l : Lexer) : lex_result Lexer :=
  let s := lx_source l in
  let p1 := scan_while is_ascii_digit s (lx_pos l) in
  let p2 :=
    if byte_at_is (is_byte ".") s p1 && byte_at_is is_ascii_digit s (p1 + 1)
    then scan_while is_ascii_digit s (p1 + 1) else p1 in
  emit Number start p2 (set_pos l p2).

(** [Lexer::lex_string]. *)
Definition lex_string (start : nat) (l : Lexer) : lex_result Lexer :=
  let s := lx_source l in
  let p := scan_while not_quote s (lx_pos l + 1) in
  if length s <=? p then err_at start UnterminatedString
  else emit TString start (p + 1) (set_pos l (p + 1)).

(** [Lexer::lex_ident_or_keyword]. *)
Definition lex_ident_or_keyword (start : nat) (l : Lexer) : lex_result Lexer :=
  let s := lx_source l in
  let en := scan_while is_ident_char s (lx_pos l) in
  text ← slice s start en;
  let k := if bool_decide (text ∈ reserved_keywords) then Keyword else Ident in
  emit k start en (set_pos l en).

(** [Lexer::emit] followed by [self.pos += n]. *)
Definition emit_advance (k : TokenKind) (start n : nat) (l : Lexer) : lex_result Lexer :=
  l' ← emit k start (lx_pos l + n) l;
  mret (set_pos l' (lx_pos l + n)).

(** One iteration of the loop of [Lexer::tokenize]. *)
Definition tokenize_step (l : Lexer) : lex_result Lexer :=
  match lx_source l !! lx_pos l with
  | None => Panics
  | Some c =>
      if is_ws c then mret (set_pos l (lx_pos l + 1))
      else
        let start := lx_pos l in
        let next_is_eq := byte_at_is (is_byte "=") (lx_source l) (lx_pos l + 1) in
        match punct_kind c with
        | Some k => emit_advance k start 1 l
        | None =>
            if is_byte "!" c then
              if next_is_eq then emit_advance Neq start 2 l
              else err_at start UnexpectedBang
            else if is_byte "<" c then
              if next_is_eq then emit_advance Lte start 2 l
              else emit_advance Lt start 1 l
            else if is_byte ">" c then
              if next_is_eq then emit_advance Gte start 2 l
              else emit_advance Gt start 1 l
            else if is_byte "'" c then lex_string start l
            else if is_ascii_digit c then lex_number start l
            else if is_ident_start c then lex_ident_or_keyword start l
            else err_at start (UnexpectedCharacter c)
        end
  end.

(** The loop of [Lexer::tokenize]; the [Eof] token ends the stream. *)
Fixpoint tokenize_loop (fuel : nat) (l : Lexer) : lex_result (list Token) :=
  if lx_pos l <? length (lx_source l) then
    match fuel with
    | 0 => OutOfFuel
    | S fuel => tokenize_step l ≫= tokenize_loop fuel
    end
  else
    let eof_pos := length (lx_source l) in
    mret (lx_tokens l ++ [mk_token Eof [] (mk_span eof_pos eof_pos)]).

(** [tokenize]: every iteration consumes at least one byte, so the length of
    the source is enough fuel. *)
Definition tokenize (source : str) : lex_result (list Token) :=
  tokenize_loop (length source) (new source).

(** ** Specification: the lexical grammar

    [munch k v rest]: before the text [rest], the longest lexeme is [v], of kind
    [k]. *)

Definition head_is (p : ascii → bool) (s : str) : bool := byte_at_is p s 0.

Inductive munch : TokenKind → str → str → Prop :=
| munch_punct c k rest : punct_kind c = Some k → munch k [c] rest
| munch_neq rest : munch Neq (lit "!=") rest
| munch_lte rest : munch Lte (lit "<=") rest
| munch_gte rest : munch Gte (lit ">=") rest
| munch_lt rest : head_is (is_byte "=") rest = false → munch Lt (lit "<") rest
| munch_gt rest : head_is (is_byte "=") rest = false → munch Gt (lit ">") rest
| munch_string body rest :
    forallb not_quote body = true →
    munch TString ("'"%char :: body ++ ["'"%char]) rest
| munch_int c ds rest :
    forallb is_ascii_digit (c :: ds) = true →
    head_is is_ascii_digit rest = false →
    head_is (is_byte ".") rest && byte_at_is is_ascii_digit rest 1 = false →
    munch Number (c :: ds) rest
| munch_frac c ds d fs rest :
    forallb is_ascii_digit (c :: ds) = true →
    forallb is_ascii_digit (d :: fs) = true →
    head_is is_ascii_digit rest = false →
    munch Number ((c :: ds) ++ "."%char :: d :: fs) rest
| munch_word c t rest :
    is_ident_start c = true → forallb is_ident_char t = true →
    head_is is_ident_char rest = false →
    munch (if bool_decide (c :: t ∈ reserved_keywords) then Keyword else Ident)
          (c :: t) rest.

(** [lex_stuck s m]: no lexeme starts at [s], and the lexer says [m]. *)
Inductive lex_stuck : str → LexMessage → Prop :=
| stuck_bang rest :
    head_is (is_byte "=") rest = false → lex_stuck ("!"%char :: rest) UnexpectedBang
| stuck_string body :
    forallb not_quote body = true →
    lex_stuck ("'"%char :: body) UnterminatedString
| stuck_char c rest :
    is_ws c = false → punct_kind c = None → is_byte "!" c = false →
    is_byte "<" c = false → is_byte ">" c = false → is_byte "'" c = false →
    is_ascii_digit c = false → is_ident_start c = false →
    lex_stuck (c :: rest) (UnexpectedCharacter c).

(** [lexes p s r]: the text [s] found at offset [p] of the source lexes to [r],
    a token stream or the first error. *)
Inductive lexes : nat → str → LexError + list Token → Prop :=
| lexes_eof p : lexes p [] (inr [mk_token Eof [] (mk_span p p)])
| lexes_ws p c s r : is_ws c = true → lexes (S p) s r → lexes p (c :: s) r
| lexes_token p k v rest ts :
    munch k v rest → lexes (p + length v) rest (inr ts) →
    lexes p (v ++ rest) (inr (mk_token k v (mk_span p (p + length v)) :: ts))
| lexes_later_error p k v rest e :
    munch k v rest → lexes (p + length v) rest (inl e) → lexes p (v ++ rest) (inl e)
| lexes_error p s m :
    lex_stuck s m → lexes p s (inl (mk_lex_error (mk_span p (p + 1)) m)).

(** ** The dispatch follows the grammar *)

Definition lex_outcome (r : LexError + list Token) (before : list Token) :
    lex_result (list Token) :=
  match r with inl e => Err e | inr ts => Ok (before ++ ts) end.

(** Every byte class of the dispatch, at once. *)
Record dispatch (c : ascii) (ws : bool) (pk : option TokenKind)
    (bang lt gt quote digit start : bool) : Prop :=
  { d_ws : is_ws c = ws; d_punct : punct_kind c = pk; d_bang : is_byte "!" c = bang;
    d_lt : is_byte "<" c = lt; d_gt : is_byte ">" c = gt;
    d_quote : is_byte "'" c = quote; d_digit : is_ascii_digit c = digit;
    d_start : is_ident_start c = start }.

Lemma dispatch_punct c k :
  punct_kind c = Some k → dispatch c false (Some k) false false false false false false.
Proof. byte_cases c; vm_compute; intros [=]; subst; by constructor. Qed.

Lemma dispatch_digit c :
  is_ascii_digit c = true → dispatch c false None false false false false true false.
Proof. byte_cases c; vm_compute; intros [=]; by constructor. Qed.

Lemma dispatch_ident c :
  is_ident_start c = true → dispatch c false None false false false false false true.
Proof. byte_cases c; vm_compute; intros [=]; by constructor. Qed.

Lemma byte_at_is_drop f s p i : byte_at_is f s (p + i) = byte_at_is f (drop p s) i.
Proof. unfold byte_at_is. by rewrite lookup_drop. Qed.

Lemma head_is_prefix_len p s : head_is p s = false → prefix_len p s = 0.
Proof. destruct s as [|c s]; [done|]. unfold head_is, byte_at_is. simpl. by intros ->. Qed.

Lemma prefix_len_stop_head p s : head_is p (drop (prefix_len p s) s) = false.
Proof.
  unfold head_is, byte_at_is. rewrite lookup_drop_0.
  destruct (s !! prefix_len p s) as [c|] eqn:E; [|done]. by apply prefix_len_stop in E.
Qed.

(** The longest [p]-prefix of [v ++ rest] is [v] when [rest] does not continue it. *)
Lemma prefix_len_exact p v rest :
  forallb p v = true → head_is p rest = false → prefix_len p (v ++ rest) = length v.
Proof. intros Hv Hr. rewrite prefix_len_app, head_is_prefix_len by done. lia. Qed.

Lemma munch_nonempty k v rest : munch k v rest → v ≠ [].
Proof. by destruct 1. Qed.

Lemma munch_ascii_ends k v rest :
  munch k v rest →
  ∃ c d, v !! 0 = Some c ∧ is_ascii c = true ∧
         v !! pred (length v) = Some d ∧ is_ascii d = true.
Proof.
  assert (∀ p w, (∀ c, p c = true → is_ascii c = true) → forallb p w = true → w ≠ [] →
            ∃ d, last w = Some d ∧ is_ascii d = true) as Hlast.
  { intros p w Hp Hw Hne. destruct (last w) as [d|] eqn:Hd.
    - exists d. split; [done|]. apply Hp. rewrite forallb_forall in Hw. apply Hw.
      apply list_elem_of_In. rewrite last_lookup in Hd. by eapply list_elem_of_lookup_2.
    - by apply last_None in Hd. }
  assert (∀ c, is_ascii_digit c = true → is_ascii c = true) as Hdig
    by (intros c; unfold_bytes; lia).
  assert (∀ c, is_ident_char c = true → is_ascii c = true) as Hid
    by (intros c; byte_dec c).
  assert (∀ w d, last w = Some d → is_ascii d = true →
            ∃ d, w !! pred (length w) = Some d ∧ is_ascii d = true) as Hl.
  { intros w d Hw ?. exists d. by rewrite <- last_lookup. }
  destruct 1 as [c k rest Hp| | | | | |body rest Hb|c ds rest Hd
                 |c ds d fs rest Hd Hf|c t rest Hc Ht Hr]; try by eexists _, _.
  - exists c, c. revert Hp. byte_dec c.
  - exists "'"%char, "'"%char. split_and!; try done.
    rewrite <- last_lookup. by rewrite last_cons, last_snoc.
  - destruct (Hlast _ _ Hdig Hd) as (d & Hld & Hda); [done|].
    destruct (Hl _ _ Hld Hda) as (d' & ? & ?).
    exists c, d'. split_and!; try done. simpl in Hd. bool_prop. auto.
  - destruct (Hlast _ _ Hdig Hf) as (e & Hle & Hea); [done|].
    exists c, e. simpl in Hd. bool_prop. split_and!; auto.
    rewrite <- last_lookup, last_app, last_cons, Hle. done.
  - destruct (Hlast is_ident_char (c :: t) Hid) as (d & Hld & Hda); [|done|].
    { simpl. rewrite Ht. revert Hc. byte_dec c. }
    destruct (Hl _ _ Hld Hda) as (d' & ? & ?).
    exists c, d'. split_and!; try done. revert Hc. byte_dec c.
Qed.

Lemma munch_slice {E} src p k v rest :
  valid_utf8 src = true → drop p src = v ++ rest → munch k v rest →
  slice (E:=E) src p (p + length v) = Ok v.
Proof.
  intros Hv Hd Hm.
  destruct (munch_ascii_ends _ _ _ Hm) as (c & d & Hc & Hca & Hl & Hla).
  pose proof (lookup_lt_Some _ _ _ Hc). pose proof (lookup_lt_Some _ _ _ Hl).
  rewrite slice_ok; [|lia| |].
  - by rewrite Hd, Nat.add_comm, Nat.add_sub, take_app_length.
  - apply (is_char_boundary_ascii _ _ c); [|done].
    rewrite <- lookup_drop_0, Hd, lookup_app_l by done. done.
  - replace (p + length v) with (S (p + pred (length v))) by lia.
    apply (is_char_boundary_after_ascii _ _ d); [done| |done].
    rewrite <- lookup_drop, Hd, lookup_app_l by done. done.
Qed.

Lemma munch_emit src p k v rest kk q ts :
  valid_utf8 src = true → drop p src = v ++ rest → munch k v rest →
  emit kk p (p + length v) (mk_lexer src q ts) =
    Ok (mk_lexer src q (ts ++ [mk_token kk v (mk_span p (p + length v))])).
Proof. intros Hv Hd Hm. unfold emit. simpl. by rewrite (munch_slice _ _ k v rest). Qed.

Lemma punct_not_number c : punct_kind c ≠ Some Number.
Proof. byte_cases c; vm_compute; discriminate. Qed.

Lemma ident_start_char c : is_ident_start c = true → is_ident_char c = true.
Proof. byte_dec c. Qed.

Section step.
Context (src : str) (Hvalid : valid_utf8 src = true).

(** The number scanner, read on the remaining text. *)
Definition numeral_len (s : str) : nat :=
  let n := prefix_len is_ascii_digit s in
  if head_is (is_byte ".") (drop n s) && byte_at_is is_ascii_digit (drop n s) 1
  then n + (1 + prefix_len is_ascii_digit (drop 1 (drop n s))) else n.

Lemma lex_number_eq p ts :
  let en := p + numeral_len (drop p src) in
  lex_number p (mk_lexer src p ts) = emit Number p en (mk_lexer src en ts).
Proof.
  unfold lex_number, scan_while, set_pos, numeral_len, head_is. simpl.
  rewrite <- !Nat.add_assoc, !byte_at_is_drop.
  rewrite <- !(byte_at_is_drop _ _ (prefix_len _ _)), Nat.add_0_r, !drop_drop.
  by destruct (_ && _).
Qed.

Lemma numeral_len_munch v rest : munch Number v rest → numeral_len (v ++ rest) = length v.
Proof.
  intros Hm. unfold numeral_len.
  inversion Hm as [c k rest' Hp| | | | | | |c ds rest' Hds Hr Hfr
    |c ds d fs rest' Hds Hfs Hr|c t rest' Hc Ht Hr Hk]; subst.
  - by apply punct_not_number in Hp.
  - by rewrite prefix_len_exact, drop_app_length, Hfr by done.
  - assert (is_ascii_digit d = true) as Hdd by (simpl in Hfs; by bool_prop).
    rewrite <- app_assoc, prefix_len_exact, drop_app_length by done.
    change (head_is (is_byte ".") _) with true.
    change (byte_at_is is_ascii_digit _ 1) with (is_ascii_digit d).
    rewrite Hdd. simpl andb. simpl drop.
    change (d :: fs ++ rest) with ((d :: fs) ++ rest).
    rewrite prefix_len_exact by done. rewrite length_app. simpl. lia.
  - case_bool_decide; discriminate.
Qed.

Lemma lex_number_munch p v rest ts :
  drop p src = v ++ rest → munch Number v rest →
  lex_number p (mk_lexer src p ts) =
    emit Number p (p + length v) (mk_lexer src (p + length v) ts).
Proof. intros Hd Hm. by rewrite lex_number_eq, Hd, numeral_len_munch. Qed.

Lemma lex_string_munch p body rest ts :
  drop p src = ("'"%char :: body ++ ["'"%char]) ++ rest →
  forallb not_quote body = true →
  lex_string p (mk_lexer src p ts) =
    emit TString p (p + S (S (length body)))
         (mk_lexer src (p + S (S (length body))) ts).
Proof.
  intros Hd Hb. unfold lex_string, scan_while, set_pos. simpl.
  rewrite <- drop_drop, Hd. simpl drop. rewrite <- app_assoc.
  rewrite drop_0, prefix_len_exact by done.
  assert (length src = p + S (S (length body)) + length rest) as Hlen.
  { apply (f_equal length) in Hd. rewrite length_drop in Hd.
    rewrite !length_app in Hd. simpl in Hd. rewrite length_app in Hd. simpl in Hd. lia. }
  rewrite (proj2 (Nat.leb_gt _ _)) by lia.
  by replace (p + 1 + length body + 1) with (p + S (S (length body))) by lia.
Qed.

Lemma lex_word_munch p c t rest ts :
  drop p src = (c :: t) ++ rest →
  is_ident_start c = true → forallb is_ident_char t = true →
  head_is is_ident_char rest = false →
  lex_ident_or_keyword p (mk_lexer src p ts) =
    emit (if bool_decide (c :: t ∈ reserved_keywords) then Keyword else Ident)
         p (p + length (c :: t)) (mk_lexer src (p + length (c :: t)) ts).
Proof.
  intros Hd Hc Ht Hr. unfold lex_ident_or_keyword, scan_while, set_pos. simpl lx_source.
  simpl lx_pos. simpl lx_tokens.
  assert (forallb is_ident_char (c :: t) = true) as Hct.
  { simpl. by rewrite Ht, ident_start_char. }
  rewrite Hd, prefix_len_exact by done.
  by rewrite (munch_slice _ _ _ _ _ Hvalid Hd (munch_word c t rest Hc Ht Hr)).
Qed.

(** One iteration, on the remaining text [c :: s]. *)
Lemma tokenize_step_eq p c s ts :
  drop p src = c :: s →
  tokenize_step (mk_lexer src p ts) =
    let l := mk_lexer src p ts in
    if is_ws c then Ok (mk_lexer src (p + 1) ts)
    else match punct_kind c with
    | Some k => emit_advance k p 1 l
    | None =>
        if is_byte "!" c then
          if head_is (is_byte "=") s then emit_advance Neq p 2 l
          else err_at p UnexpectedBang
        else if is_byte "<" c then
          if head_is (is_byte "=") s then emit_advance Lte p 2 l
          else emit_advance Lt p 1 l
        else if is_byte ">" c then
          if head_is (is_byte "=") s then emit_advance Gte p 2 l
          else emit_advance Gt p 1 l
        else if is_byte "'" c then lex_string p l
        else if is_ascii_digit c then lex_number p l
        else if is_ident_start c then lex_ident_or_keyword p l
        else err_at p (UnexpectedCharacter c)
    end.
Proof.
  intros Hd. unfold tokenize_step. cbn [lx_source lx_pos].
  rewrite byte_at_is_drop, Hd, (drop_cons_lookup _ _ _ _ Hd). done.
Qed.

Lemma emit_advance_munch p k v rest ts :
  drop p src = v ++ rest → munch k v rest →
  emit_advance k p (length v) (mk_lexer src p ts) =
    Ok (mk_lexer src (p + length v)
                 (ts ++ [mk_token k v (mk_span p (p + length v))])).
Proof.
  intros Hd Hm. unfold emit_advance. cbn [lx_pos].
  by rewrite (munch_emit src p k v rest) by done.
Qed.

Lemma step_munch p k v rest ts :
  drop p src = v ++ rest → munch k v rest →
  tokenize_step (mk_lexer src p ts) =
    Ok (mk_lexer src (p + length v)
                 (ts ++ [mk_token k v (mk_span p (p + length v))])).
Proof.
  intros Hd Hm. pose proof (emit_advance_munch p k v rest ts Hd Hm) as Hadv.
  pose proof (λ q, munch_emit src p k v rest k q ts Hvalid Hd Hm) as Hemit.
  destruct Hm as [c k rest Hp| | |rest|rest Heq|rest Heq|body rest Hb|c ds rest Hds Hr Hfr
    |c ds d fs rest Hds Hfs Hr|c t rest Hc Ht Hr].
  - rewrite (tokenize_step_eq p c rest) by done.
    by destruct (dispatch_punct c k Hp) as [-> -> _ _ _ _ _ _].
  - rewrite (tokenize_step_eq p "!"%char ("="%char :: rest) ts Hd). exact Hadv.
  - rewrite (tokenize_step_eq p "<"%char ("="%char :: rest) ts Hd). exact Hadv.
  - rewrite (tokenize_step_eq p ">"%char ("="%char :: rest) ts Hd). exact Hadv.
  - rewrite (tokenize_step_eq p "<"%char rest ts Hd). cbn -[emit_advance head_is].
    rewrite Heq. exact Hadv.
  - rewrite (tokenize_step_eq p ">"%char rest ts Hd). cbn -[emit_advance head_is].
    rewrite Heq. exact Hadv.
  - rewrite (tokenize_step_eq p _ _ ts Hd). cbn -[lex_string].
    rewrite (lex_string_munch p body rest) by done.
    specialize (Hemit (p + S (S (length body)))).
    simpl length in Hemit |- *. rewrite length_app, Nat.add_1_r in *. done.
  - assert (is_ascii_digit c = true) as Hc by (simpl in Hds; by bool_prop).
    rewrite (tokenize_step_eq p _ _ ts Hd). cbn zeta.
    destruct (dispatch_digit c Hc) as [-> -> -> -> -> -> -> _].
    rewrite (lex_number_munch p (c :: ds) rest) by (done || by constructor). done.
  - assert (is_ascii_digit c = true) as Hc by (simpl in Hds; by bool_prop).
    rewrite (tokenize_step_eq p _ _ ts Hd). cbn zeta.
    destruct (dispatch_digit c Hc) as [-> -> -> -> -> -> -> _].
    rewrite (lex_number_munch p ((c :: ds) ++ "."%char :: d :: fs) rest)
      by (done || by constructor). done.
  - rewrite (tokenize_step_eq p _ _ ts Hd). cbn zeta.
    destruct (dispatch_ident c Hc) as [-> -> -> -> -> -> -> ->].
    rewrite (lex_word_munch p c t rest) by done. done.
Qed.

Lemma lex_step_stuck p s m ts :
  drop p src = s → lex_stuck s m →
  tokenize_step (mk_lexer src p ts) = err_at p m.
Proof.
  intros Hd Hs. destruct Hs as [rest Heq|body Hb|c rest Hw Hp H1 H2 H3 H4 H5 H6].
  - rewrite (tokenize_step_eq p _ _ ts Hd). cbn -[head_is]. by rewrite Heq.
  - rewrite (tokenize_step_eq p _ _ ts Hd). cbn. unfold lex_string, scan_while. simpl.
    rewrite <- drop_drop, Hd. simpl drop. rewrite drop_0.
    apply (f_equal length) in Hd. rewrite length_drop in Hd. simpl in Hd.
    rewrite <- (app_nil_r body), prefix_len_exact by done.
    by rewrite (proj2 (Nat.leb_le _ _)) by lia.
  - rewrite (tokenize_step_eq p _ _ ts Hd). cbn zeta.
    by rewrite Hw, Hp, H1, H2, H3, H4, H5, H6.
Qed.

Lemma drop_cons_ltb p c s : drop p src = c :: s → (p <? length src) = true.
Proof.
  intros Hd. by apply Nat.ltb_lt, (lookup_lt_Some _ _ c), (drop_cons_lookup _ _ _ _ Hd).
Qed.

Lemma loop_munch p k v rest fuel ts :
  munch k v rest → drop p src = v ++ rest → length (v ++ rest) ≤ fuel →
  ∃ fuel', length rest ≤ fuel' ∧ drop (p + length v) src = rest ∧
    p + length v ≤ length src ∧
    tokenize_loop fuel (mk_lexer src p ts) =
    tokenize_loop fuel' (mk_lexer src (p + length v)
                          (ts ++ [mk_token k v (mk_span p (p + length v))])).
Proof.
  intros Hm Hd Hfuel. pose proof (munch_nonempty _ _ _ Hm) as Hne.
  destruct v as [|c v]; [done|]. rewrite length_app in Hfuel.
  destruct fuel as [|fuel]; [simpl in Hfuel; lia|]. exists fuel.
  assert (length (c :: v) + length rest ≤ length src - p) as Hlen.
  { apply (f_equal length) in Hd. rewrite length_drop, length_app in Hd. lia. }
  split_and!; [simpl in Hfuel; lia|by apply drop_app_add|simpl in *; lia|].
  cbn [tokenize_loop lx_pos lx_source].
  by rewrite (drop_cons_ltb p _ _ Hd), (step_munch p k (c :: v) rest).
Qed.

Lemma loop_spec p s r : lexes p s r → ∀ fuel ts,
  drop p src = s → p ≤ length src → length s ≤ fuel →
  tokenize_loop fuel (mk_lexer src p ts) = lex_outcome r ts.
Proof.
  induction 1 as [p|p c s r Hw Hl IH|p k v rest ts' Hm Hl IH|p k v rest e Hm Hl IH
                 |p s m Hs]; intros fuel ts Hd Hp Hfuel.
  - assert (p = length src) as -> by (apply drop_nil_ge in Hd; lia).
    by destruct fuel; simpl; rewrite (proj2 (Nat.ltb_ge _ _)) by lia.
  - destruct fuel as [|fuel]; [simpl in Hfuel; lia|]. cbn [tokenize_loop lx_pos lx_source].
    rewrite (drop_cons_ltb _ _ _ Hd), (tokenize_step_eq _ _ _ _ Hd), Hw.
    cbn -[tokenize_loop]. rewrite Nat.add_1_r. apply IH; [|simpl in *..].
    + by apply (drop_cons_S _ _ c).
    + apply (f_equal length) in Hd. rewrite length_drop in Hd. simpl in Hd. lia.
    + lia.
  - destruct (loop_munch p k v rest fuel ts Hm Hd Hfuel) as (fuel' & ? & ? & ? & ->).
    rewrite IH by done. simpl. by rewrite <- app_assoc.
  - destruct (loop_munch p k v rest fuel ts Hm Hd Hfuel) as (fuel' & ? & ? & ? & ->).
    by rewrite IH.
  - assert (∃ c t, s = c :: t) as (c & t & ->) by (destruct Hs; eauto).
    destruct fuel as [|fuel]; [simpl in Hfuel; lia|]. cbn [tokenize_loop lx_pos lx_source].
    by rewrite (drop_cons_ltb _ _ _ Hd), (lex_step_stuck p _ m ts Hd Hs).
Qed.
End step.

(** ** Every text lexes *)

Lemma split_prefix p s :
  ∃ u r, s = u ++ r ∧ forallb p u = true ∧ head_is p r = false.
Proof.
  exists (take (prefix_len p s) s), (drop (prefix_len p s) s). split_and!.
  - by rewrite take_drop.
  - apply prefix_len_take.
  - apply prefix_len_stop_head.
Qed.

Lemma head_is_cons p s : head_is p s = true → ∃ c t, s = c :: t ∧ p c = true.
Proof. destruct s as [|c t]; [done|]. cbn. eauto. Qed.

Lemma digit_lexeme c s :
  is_ascii_digit c = true → ∃ v rest, c :: s = v ++ rest ∧ munch Number v rest.
Proof.
  intros Hc. destruct (split_prefix is_ascii_digit s) as (ds & r & -> & Hds & Hr).
  assert (forallb is_ascii_digit (c :: ds) = true) as Hcds by (simpl; by rewrite Hc).
  destruct (head_is (is_byte ".") r && byte_at_is is_ascii_digit r 1) eqn:Hfr.
  - apply andb_true_iff in Hfr as [Hdot Hd1].
    destruct (head_is_cons _ _ Hdot) as (e & r' & -> & ->%is_byte_spec).
    change (head_is is_ascii_digit r' = true) in Hd1.
    destruct (head_is_cons _ _ Hd1) as (d & r'' & -> & Hd).
    destruct (split_prefix is_ascii_digit r'') as (fs & rest & -> & Hfs & Hrest).
    exists ((c :: ds) ++ "."%char :: d :: fs), rest. split.
    + simpl. by rewrite <- app_assoc.
    + constructor; [done| |done]. simpl. by rewrite Hd.
  - exists (c :: ds), r. split; [done|by constructor].
Qed.

(** A non-empty text starts with white space, a lexeme, or an error. *)
Lemma lex_progress c s :
  is_ws c = true
  ∨ (∃ k v rest, c :: s = v ++ rest ∧ munch k v rest)
  ∨ (∃ m, lex_stuck (c :: s) m).
Proof.
  destruct (is_ws c) eqn:Hw; [by left|right].
  destruct (punct_kind c) as [k|] eqn:Hp.
  { left. exists k, [c], s. split; [done|by constructor]. }
  destruct (is_byte "!" c) eqn:H1.
  { apply is_byte_spec in H1 as ->. destruct (head_is (is_byte "=") s) eqn:He.
    - destruct (head_is_cons _ _ He) as (d & t & -> & ->%is_byte_spec).
      left. eexists Neq, _, t. split; [|apply munch_neq]. done.
    - right. eexists. by constructor. }
  destruct (is_byte "<" c) eqn:H2.
  { apply is_byte_spec in H2 as ->. left. destruct (head_is (is_byte "=") s) eqn:He.
    - destruct (head_is_cons _ _ He) as (d & t & -> & ->%is_byte_spec).
      eexists Lte, _, t. split; [|apply munch_lte]. done.
    - eexists Lt, _, s. split; [|by apply munch_lt]. done. }
  destruct (is_byte ">" c) eqn:H3.
  { apply is_byte_spec in H3 as ->. left. destruct (head_is (is_byte "=") s) eqn:He.
    - destruct (head_is_cons _ _ He) as (d & t & -> & ->%is_byte_spec).
      eexists Gte, _, t. split; [|apply munch_gte]. done.
    - eexists Gt, _, s. split; [|by apply munch_gt]. done. }
  destruct (is_byte "'" c) eqn:H4.
  { apply is_byte_spec in H4 as ->.
    destruct (split_prefix not_quote s) as (body & r & -> & Hb & Hr).
    destruct r as [|d t].
    - right. eexists. rewrite app_nil_r. by constructor.
    - left. cbn in Hr. apply negb_false_iff, is_byte_spec in Hr as ->.
      eexists TString, _, t. split; [|by apply munch_string]. simpl. by rewrite <- app_assoc. }
  destruct (is_ascii_digit c) eqn:H5.
  { left. exists Number. by apply digit_lexeme. }
  destruct (is_ident_start c) eqn:H6.
  { left. destruct (split_prefix is_ident_char s) as (t & r & -> & Ht & Hr).
    eexists _, (c :: t), r. split; [done|by constructor]. }
  right. eexists. by constructor.
Qed.

Lemma lexes_total p s : ∃ r, lexes p s r.
Proof.
  remember (length s) as n eqn:Hn. revert p s Hn.
  induction (lt_wf n) as [n _ IH]. intros p s ->.
  destruct s as [|c s]; [eexists; constructor|].
  destruct (lex_progress c s) as [Hw|[(k & v & rest & Heq & Hm)|[m Hs]]].
  - destruct (IH (length s) ltac:(simpl; lia) (S p) s eq_refl) as [r Hr].
    exists r. by constructor.
  - rewrite Heq. pose proof (munch_nonempty _ _ _ Hm) as Hne.
    destruct (IH (length rest)) with (p := p + length v) (s := rest) as [[e|ts] Hr];
      [|done| |].
    + rewrite Heq, length_app. destruct v; [done|simpl; lia].
    + eexists. by eapply lexes_later_error.
    + eexists. by eapply lexes_token.
  - eexists. by constructor.
Qed.

(** ** Results *)

Lemma lexes_tokenize src r :
  valid_utf8 src = true → lexes 0 src r → tokenize src = lex_outcome r [].
Proof.
  intros Hv Hl. unfold tokenize, new.
  apply (loop_spec src Hv 0 src r Hl); [by rewrite drop_0|lia|done].
Qed.

Lemma lex_outcome_inj r r' : lex_outcome r [] = lex_outcome r' [] → r = r'.
Proof. destruct r, r'; simpl; congruence. Qed.

Lemma tokenize_lexes src r :
  valid_utf8 src = true → tokenize src = lex_outcome r [] → lexes 0 src r.
Proof.
  intros Hv Ht. destruct (lexes_total 0 src) as [r' Hr].
  rewrite (lexes_tokenize _ _ Hv Hr) in Ht. by apply lex_outcome_inj in Ht as <-.
Qed.

Lemma tokenize_ok_lexes src ts :
  valid_utf8 src = true → tokenize src = Ok ts → lexes 0 src (inr ts).
Proof. intros Hv Ht. by apply tokenize_lexes. Qed.

(** The lexical shape of a token, by kind. *)
Definition is_ident_text (v : str) : bool :=
  match v with c :: t => is_ident_start c && forallb is_ident_char t | [] => false end.

Definition numeral_parts (v : str) : str * str :=
  let n := prefix_len is_ascii_digit v in (take n v, drop n v).

Definition is_numeral (v : str) : bool :=
  let '(int, rest) := numeral_parts v in
  negb (bool_decide (int = [])) &&
  match rest with
  | [] => true
  | dot :: fs => is_byte "." dot && negb (bool_decide (fs = [])) && forallb is_ascii_digit fs
  end.

Definition is_quoted (v : str) : bool :=
  match v with
  | q :: t =>
      is_byte "'" q && forallb not_quote (take (pred (length t)) t)
      && head_is (is_byte "'") (drop (pred (length t)) t)
  | [] => false
  end.

Definition token_ok (t : Token) : bool :=
  let v := value t in
  match kind t with
  | Ident => is_ident_text v && negb (bool_decide (v ∈ reserved_keywords))
  | Keyword => bool_decide (v ∈ reserved_keywords)
  | Number => is_numeral v
  | TString => is_quoted v
  | Eof => bool_decide (v = [])
  | Neq => bool_decide (v = lit "!=")
  | Lt => bool_decide (v = lit "<") | Lte => bool_decide (v = lit "<=")
  | Gt => bool_decide (v = lit ">") | Gte => bool_decide (v = lit ">=")
  | k => match v with [c] => bool_decide (punct_kind c = Some k) | _ => false end
  end.

Lemma digits_numeral_parts ds r :
  forallb is_ascii_digit ds = true → head_is is_ascii_digit r = false →
  numeral_parts (ds ++ r) = (ds, r).
Proof.
  intros Hd Hr. unfold numeral_parts.
  by rewrite prefix_len_exact, take_app_length, drop_app_length.
Qed.

Lemma munch_token_ok k v rest sp : munch k v rest → token_ok (mk_token k v sp) = true.
Proof.
  intros Hm. destruct Hm as [c k rest Hp| | | | | |body rest Hb|c ds rest Hds Hr Hfr
      |c ds d fs rest Hds Hfs Hr|c t rest Hc Ht Hr]; try done.
  - revert Hp. byte_cases c; vm_compute; intros [=]; by subst.
  - unfold token_ok, is_quoted. cbn [value kind]. rewrite length_app. simpl length.
    rewrite Nat.add_1_r. cbn [pred]. by rewrite take_app_length, drop_app_length, Hb.
  - unfold token_ok, is_numeral. cbn [value kind].
    by rewrite <- (app_nil_r (c :: ds)), digits_numeral_parts.
  - unfold token_ok, is_numeral. cbn [value kind].
    rewrite digits_numeral_parts by done. by rewrite Hfs.
  - case_bool_decide as Hk; unfold token_ok; cbn [value kind is_ident_text].
    + by rewrite bool_decide_true.
    + by rewrite Hc, Ht, bool_decide_false.
Qed.

Lemma lexes_tokens_ok p s ts : lexes p s (inr ts) → Forall (λ t, token_ok t = true) ts.
Proof.
  remember (inr ts) as r eqn:Hr. intros Hl. revert ts Hr.
  induction Hl as [p|p c s r Hw Hl IH|p k v rest ts' Hm Hl IH| |]; intros ts Hr;
    simplify_eq; eauto.
  - constructor; [by eapply munch_token_ok|eauto].
Qed.

Lemma lexes_last_eof p s ts :
  lexes p s (inr ts) → ∃ body, ts = body ++ [mk_token Eof [] (mk_span (p + length s) (p + length s))].
Proof.
  remember (inr ts) as r eqn:Hr. intros Hl. revert ts Hr.
  induction Hl as [p|p c s r Hw Hl IH|p k v rest ts' Hm Hl IH| |]; intros ts Hr; simplify_eq.
  - exists []. by rewrite Nat.add_0_r.
  - destruct (IH _ eq_refl) as [body ->]. exists body. simpl. by rewrite Nat.add_succ_r.
  - destruct (IH _ eq_refl) as [body ->]. eexists (_ :: body). simpl.
    by rewrite length_app, Nat.add_assoc.
Qed.

Lemma punct_not_eof c : punct_kind c ≠ Some Eof.
Proof. byte_cases c; vm_compute; discriminate. Qed.

Lemma munch_not_eof k v rest : munch k v rest → k ≠ Eof.
Proof.
  intros Hm ->. inversion Hm as [c ? ? Hp| | | | | | | | |? ? ? ? ? ? Hk].
  - by apply punct_not_eof in Hp.
  - case_bool_decide; discriminate.
Qed.

Lemma lexes_eof_only_last p s ts i t :
  lexes p s (inr ts) → ts !! i = Some t → kind t = Eof → i = pred (length ts).
Proof.
  remember (inr ts) as r eqn:Hr. intros Hl. revert ts Hr i.
  induction Hl as [p|p c s r Hw Hl IH|p k v rest ts' Hm Hl IH| |]; intros ts Hr i Hi Hk;
    simplify_eq; eauto.
  - destruct i; [done|]. by apply lookup_lt_Some in Hi; simpl in Hi; lia.
  - destruct i as [|i]; simplify_eq/=.
    + by destruct (munch_not_eof _ _ _ Hm).
    + rewrite (IH _ eq_refl i Hi Hk). apply lookup_lt_Some in Hi. lia.
Qed.

(** The tokens tile the source from [p] on: each value is the source text of its
    span, spans are non-empty, in order and disjoint, and only white space lies
    between them; a zero-width [Eof] at the end of the source closes the list. *)
Fixpoint tiles (src : str) (p : nat) (ts : list Token) : Prop :=
  match ts with
  | [] => False
  | t :: ts' =>
      let st := sp_start (span t) in
      let en := sp_end (span t) in
      p ≤ st ∧ forallb is_ws (take (st - p) (drop p src)) = true ∧
      match ts' with
      | [] => kind t = Eof ∧ value t = [] ∧ st = length src ∧ en = length src
      | _ :: _ =>
          kind t ≠ Eof ∧ st < en ≤ length src
          ∧ value t = take (en - st) (drop st src) ∧ tiles src en ts'
      end
  end.

Lemma lexes_tiles src p q s ts :
  lexes p s (inr ts) → drop p src = s → q ≤ p ≤ length src →
  forallb is_ws (take (p - q) (drop q src)) = true → tiles src q ts.
Proof.
  remember (inr ts) as r eqn:Hr. intros Hl. revert ts Hr q.
  induction Hl as [p|p c s r Hw Hl IH|p k v rest ts' Hm Hl IH| |];
    intros ts Hr q Hd Hq Hgap; simplify_eq.
  - assert (p = length src) as -> by (apply drop_nil_ge in Hd; lia).
    simpl. split_and!; try done; lia.
  - assert (S p ≤ length src) as HSp.
    { apply (f_equal length) in Hd. rewrite length_drop in Hd. simpl in Hd. lia. }
    apply (IH _ eq_refl); [by apply (drop_cons_S _ _ c)|lia|].
    replace (S p - q) with (S (p - q)) by lia.
    rewrite (take_S_r _ _ c), forallb_app, Hgap; simpl; [by rewrite Hw|].
    rewrite lookup_drop. replace (q + (p - q)) with p by lia.
    by apply (drop_cons_lookup _ _ _ s).
  - pose proof (munch_nonempty _ _ _ Hm) as Hne.
    assert (0 < length v) by (destruct v; [done|simpl; lia]).
    assert (p + length v ≤ length src) as Hlen.
    { apply (f_equal length) in Hd. rewrite length_drop, length_app in Hd. lia. }
    assert (tiles src (p + length v) ts') as Ht'.
    { apply (IH _ eq_refl); [by apply drop_app_add|lia|]. by rewrite Nat.sub_diag. }
    cbn [tiles span sp_start sp_end kind value].
    destruct (lexes_last_eof _ _ _ Hl) as [body Hts'].
    destruct ts' as [|t' ts'']; [by destruct body|].
    split_and!; try done; try lia.
    + by eapply munch_not_eof.
    + rewrite Hd. replace (p + length v - p) with (length v) by lia.
      by rewrite take_app_length.
Qed.

(** Rendering: every lexeme followed by a space. *)
Fixpoint render (l : list (TokenKind * str)) : str :=
  match l with
  | [] => []
  | (_, v) :: l' => v ++ " "%char :: render l'
  end.

(** A lexeme stays a lexeme in front of a space. *)
Lemma munch_before_space k v rest rest' : munch k v rest → munch k v (" "%char :: rest').
Proof. intros Hm. destruct Hm; by econstructor. Qed.

Lemma lexes_render p l :
  Forall (λ kv, ∃ rest, munch kv.1 kv.2 rest) l →
  ∃ ts, lexes p (render l) (inr ts) ∧
        map (λ t, (kind t, value t)) ts = l ++ [(Eof, [])].
Proof.
  intros Hl. revert p. induction Hl as [|[k v] l [rest Hm] Hl IH]; intros p.
  - eexists. by split; [constructor|].
  - destruct (IH (S (p + length v))) as (ts & Hts & Hmap).
    eexists. split.
    + simpl. apply lexes_token; [by eapply munch_before_space|].
      apply lexes_ws; [done|exact Hts].
    + simpl. by rewrite Hmap.
Qed.

(** [C8] The lexer refines the lexical grammar: on well-formed text [tokenize]
    returns the longest-match token stream of the grammar, or the grammar's
    first error with its one-byte span, and nothing else; in particular it
    neither panics on a slice nor exhausts its fuel. *)
Theorem tokenize_refines_grammar src r :
  valid_utf8 src = true → (lexes 0 src r ↔ tokenize src = lex_outcome r []).
Proof. split; [by apply lexes_tokenize|by apply tokenize_lexes]. Qed.

Lemma tokenize_refines_grammar_witness :
  lexes 0 (lit "a - 1") (inr [mk_token Ident "a" (mk_span 0 1);
     mk_token Minus "-" (mk_span 2 3); mk_token Number "1" (mk_span 4 5);
     mk_token Eof [] (mk_span 5 5)]).
Proof. apply tokenize_refines_grammar; vm_compute; reflexivity. Defined.

(** Tokens tile the source: values are the source text of their spans, the
    spans are disjoint and in order with only white space between them, and the
    stream ends with one zero-width [Eof] at the end of the source. *)
Theorem tokenize_tiles src ts :
  valid_utf8 src = true → tokenize src = Ok ts → tiles src 0 ts.
Proof.
  intros Hv Ht. apply (lexes_tiles src 0 0 src); [by apply tokenize_ok_lexes| |lia|done].
  by rewrite drop_0.
Qed.

Lemma tokenize_tiles_witness :
  ∃ ts, tokenize (lit "sum(e.v) where x in ['a', 2.5]") = Ok ts ∧
        tiles (lit "sum(e.v) where x in ['a', 2.5]") 0 ts.
Proof.
  eexists. split; [vm_compute; reflexivity|].
  apply tokenize_tiles; vm_compute; reflexivity.
Defined.

(** Lexing undoes printing: any list of lexemes, each printed with a space
    after it, lexes back to exactly those kinds and values, then [Eof]. *)
Theorem tokenize_render l :
  Forall (λ kv, ∃ rest, munch kv.1 kv.2 rest) l → valid_utf8 (render l) = true →
  ∃ ts, tokenize (render l) = Ok ts ∧
        map (λ t, (kind t, value t)) ts = l ++ [(Eof, [])].
Proof.
  intros Hl Hv. destruct (lexes_render 0 l Hl) as (ts & Hts & Hmap).
  exists ts. split; [|done]. by rewrite (lexes_tokenize _ _ Hv Hts).
Qed.

Lemma tokenize_render_witness :
  ∃ ts, tokenize (render [(Minus, lit "-"); (Number, lit "0.5"); (Keyword, lit "and")]) = Ok ts
    ∧ map (λ t, (kind t, value t)) ts =
      [(Minus, lit "-"); (Number, lit "0.5"); (Keyword, lit "and"); (Eof, [])].
Proof.
  apply (tokenize_render [(Minus, lit "-"); (Number, lit "0.5"); (Keyword, lit "and")]);
    [|vm_compute; reflexivity].
  repeat constructor.
  - exists []. by apply (munch_punct "-"%char).
  - exists []. by apply (munch_frac "0"%char [] "5"%char []).
  - exists []. by apply (munch_word "a"%char (lit "nd") []).
Defined.
