(* ===== verification/Parser.v ===== *)
(** MetricQL recursive-descent parser ([validators/metricql/parser.rs]): the
    parser state, its token-stream helpers and one definition per grammar
    production, in the state-and-error monad the methods of [Parser] run in. The
    recursive productions take fuel; [ParserSpec] shows that [fuel_for] is enough
    and that the parser implements the grammar. *)
From Stdlib Require Import Ascii String SpecFloat.
From S2P Require Import Prelude Bytes F64 Ast Lexer.

(** The texts of [ParseError::message], one constructor per [format!], with the
    values it interpolates. *)
Inductive ParseMessage :=
| FromLexer (m : LexMessage)
| UnexpectedTrailing (got : TokenKind)
| Expected (description : str) (got : TokenKind)
| ExpectedKeyword (kw : str) (got : TokenKind) (v : str)
| ExpectedExprGotKeyword (kw : str)
| ExpectedExpr (got : TokenKind)
| ExpectedAggFunction (got : TokenKind)
| ExpectedPercentileNumber (got : TokenKind)
| InvalidPercentile (v : str)
| PercentileNotInRange (pct : f64)
| UnknownAggFunction (v : str)
| ExpectedOperator (got : TokenKind) (v : str)
| EmptyInList
| InvalidNumber (v : str)
| ExpectedValue (got : TokenKind)
| InvalidWindowSize (v : str)
| WindowNotPositiveInteger (n : f64)
| ExpectedHoursOrDays (got : TokenKind) (v : str)
| ExpectedFactorGotKeyword (v : str)
| ExpectedFactor (got : TokenKind).

Record ParseError := mk_parse_error { pe_span : Span; pe_message : ParseMessage }.

(** [impl From<LexError> for ParseError]. *)
Definition parse_error_from (e : LexError) : ParseError :=
  mk_parse_error (le_span e) (FromLexer (le_message e)).

Record Parser := mk_parser { ps_tokens : list Token; ps_pos : nat }.

(** ** The monad of the parser methods *)

Definition P (A : Type) : Type := Parser → result ParseError (A * Parser).

#[export] Instance P_ret : MRet P := λ A a p, Ok (a, p).
#[export] Instance P_bind : MBind P := λ A B f m p, '(a, p') ← m p; f a p'.

Definition fail {A} (sp : Span) (m : ParseMessage) : P A := λ _, Err (mk_parse_error sp m).
Definition no_fuel {A} : P A := λ _, OutOfFuel.
Definition of_option {A} (o : option A) (sp : Span) (m : ParseMessage) : P A :=
  match o with Some a => mret a | None => fail sp m end.

(** ** Token-stream helpers *)

Definition peek_at (offset : nat) : P Token := λ p,
  match ps_tokens p !! (ps_pos p + offset) with
  | Some t => Ok (t, p)
  | None => match last (ps_tokens p) with Some t => Ok (t, p) | None => Panics end
  end.

Definition peek : P Token := λ p,
  match ps_tokens p !! ps_pos p with
  | Some t => Ok (t, p)
  | None => match last (ps_tokens p) with Some t => Ok (t, p) | None => Panics end
  end.

Definition advance : P Token := λ p,
  match ps_tokens p !! ps_pos p with
  | Some t => Ok (t, mk_parser (ps_tokens p) (ps_pos p + 1))
  | None => Panics
  end.

Definition is_kind (k : TokenKind) (t : Token) : bool := bool_decide (kind t = k).
Definition is_keyword (kw : str) (t : Token) : bool :=
  is_kind Keyword t && bool_decide (value t = kw).

Definition expect (k : TokenKind) (description : str) : P Token :=
  t ← peek;
  if is_kind k t then advance else fail (span t) (Expected description (kind t)).

Definition expect_keyword (kw : str) : P Token :=
  t ← peek;
  if is_keyword kw t then advance
  else fail (span t) (ExpectedKeyword kw (kind t) (value t)).

Definition span_from_to (st en : Span) : Span := mk_span (sp_start st) (sp_end en).

Definition node_span (n : Node) : Span :=
  match n with
  | NAggregation a => agg_span a
  | NComposite _ _ _ sp | NNegate _ sp => sp
  | NRatio r => ratio_span r
  | NMetricRef m => mr_span m
  | NLiteral l => lit_span l
  end.

Definition restamp_span (n : Node) (sp : Span) : Node :=
  match n with
  | NComposite op l r _ => NComposite op l r sp
  | NNegate x _ => NNegate x sp
  | NLiteral l => NLiteral (mk_literal (lit_value l) sp)
  | NMetricRef m => NMetricRef (mk_metric_ref (mr_id m) sp)
  | NRatio r => NRatio (mk_ratio (numerator r) (denominator r) sp)
  | other => other
  end.

(** ** Aggregations *)

Definition parse_source : P Source :=
  ev_tok ← expect Ident "event identifier";
  t ← peek;
  if is_kind Dot t then
    _ ← advance;
    f_tok ← expect Ident "field identifier after '.'";
    mret (mk_source (value ev_tok) (value f_tok) (span_from_to (span ev_tok) (span f_tok)))
  else mret (mk_source (value ev_tok) [] (span_from_to (span ev_tok) (span ev_tok))).

Definition parse_field_ref : P (FieldRef * Span * Span) :=
  t1 ← expect Ident "field identifier";
  t ← peek;
  if is_kind Dot t then
    _ ← advance;
    t2 ← expect Ident "field identifier after '.'";
    mret (mk_field_ref (value t1) (value t2), span t1, span t2)
  else mret (mk_field_ref [] (value t1), span t1, span t1).

(** The arms of [parse_operator]. *)
Definition operator_of (t : Token) : option PredOp :=
  match kind t with
  | Eq => Some OpEq | Neq => Some OpNeq | Lt => Some OpLt | Lte => Some OpLte
  | Gt => Some OpGt | Gte => Some OpGte
  | Keyword => if bool_decide (value t = lit "in") then Some OpIn else None
  | _ => None
  end.

Definition parse_operator : P PredOp :=
  t ← peek;
  match operator_of t with
  | Some op => _ ← advance; mret op
  | None => fail (span t) (ExpectedOperator (kind t) (value t))
  end.

(** Invariant 5: the quotes of a string token are stripped. *)
Definition strip_quotes (v : str) : str :=
  if (2 <=? length v) && head_is (is_byte "'") v
     && match last v with Some c => is_byte "'" c | None => false end
  then take (length v - 2) (drop 1 v) else v.

Fixpoint parse_value (fuel : nat) : P Value :=
  match fuel with
  | 0 => no_fuel
  | S fuel =>
      t ← peek;
      match kind t with
      | TString => _ ← advance; mret (VString (strip_quotes (value t)) (span t))
      | Number =>
          _ ← advance;
          n ← of_option (f64_parse (value t)) (span t) (InvalidNumber (value t));
          mret (VNumber n (span t))
      | LBracket =>
          start_tok ← advance;
          first_t ← peek;
          if is_kind RBracket first_t then fail (span first_t) EmptyInList
          else
            items ← parse_items fuel [];
            end_tok ← expect RBracket "']' to close in-list";
            mret (VList items (span_from_to (span start_tok) (span end_tok)))
      | k => fail (span t) (ExpectedValue k)
      end
  end
(** The [loop] of the list arm, with the items collected so far. *)
with parse_items (fuel : nat) (items : list Value) : P (list Value) :=
  match fuel with
  | 0 => no_fuel
  | S fuel =>
      v ← parse_value fuel;
      let items := items ++ [v] in
      t ← peek;
      if is_kind Comma t then _ ← advance; parse_items fuel items else mret items
  end.

Definition parse_predicate (fuel : nat) : P Predicate :=
  '(field, fr_start, _) ← parse_field_ref;
  op ← parse_operator;
  v ← parse_value fuel;
  mret (mk_predicate field op v (span_from_to fr_start (value_span v))).

(** The [while] loop of [parse_filter]. *)
Fixpoint parse_more_predicates (fuel : nat) (preds : list Predicate) (end_span : Span) :
    P (list Predicate * Span) :=
  match fuel with
  | 0 => no_fuel
  | S fuel =>
      t ← peek;
      if is_keyword "and" t then
        _ ← advance;
        next ← parse_predicate fuel;
        parse_more_predicates fuel (preds ++ [next]) (pr_span next)
      else mret (preds, end_span)
  end.

Definition parse_filter (fuel : nat) : P Filter :=
  start_tok ← expect_keyword "where";
  first ← parse_predicate fuel;
  '(preds, end_span) ← parse_more_predicates fuel [first] (pr_span first);
  mret (mk_filter preds (span_from_to (span start_tok) end_span)).

Definition parse_window : P Window :=
  start_tok ← expect_keyword "within";
  n_tok ← expect Number "NUMBER after 'within'";
  n_float ← of_option (f64_parse (value n_tok)) (span n_tok) (InvalidWindowSize (value n_tok));
  if negb (f64_eq n_float (f64_trunc n_float)) || f64_le n_float f64_zero
  then fail (span n_tok) (WindowNotPositiveInteger n_float)
  else
    unit_tok ← peek;
    if is_keyword "hours" unit_tok || is_keyword "days" unit_tok then
      _ ← advance;
      let u := if bool_decide (value unit_tok = lit "hours") then Hours else Days in
      _ ← expect_keyword "of";
      end_tok ← expect_keyword "exposure";
      mret (mk_window (f64_as_u32 n_float) u (span_from_to (span start_tok) (span end_tok)))
    else fail (span unit_tok) (ExpectedHoursOrDays (kind unit_tok) (value unit_tok)).

(** [func] and [percentile] of [parse_aggregation]. *)
Definition parse_agg_func (start_tok : Token) : P (AggFunc * f64) :=
  let v := value start_tok in
  if bool_decide (v = lit "mean") then _ ← advance; mret (Mean, f64_zero)
  else if bool_decide (v = lit "sum") then _ ← advance; mret (Sum, f64_zero)
  else if bool_decide (v = lit "count") then _ ← advance; mret (Count, f64_zero)
  else if bool_decide (v = lit "count_distinct") then
    _ ← advance; mret (CountDistinct, f64_zero)
  else if bool_decide (v = lit "proportion") then _ ← advance; mret (Proportion, f64_zero)
  else if bool_decide (v = lit "percentile") then
    _ ← advance;
    _ ← expect LParen "'(' after 'percentile'";
    num_tok ← peek;
    if is_kind Number num_tok then
      pct ← of_option (f64_parse (value num_tok)) (span num_tok)
                      (InvalidPercentile (value num_tok));
      if f64_le pct f64_zero || f64_ge pct (f64_of_Z 100)
      then fail (span num_tok) (PercentileNotInRange pct)
      else
        _ ← advance;
        _ ← expect RParen "')' after percentile value";
        mret (Percentile, pct)
    else fail (span num_tok) (ExpectedPercentileNumber (kind num_tok))
  else fail (span start_tok) (UnknownAggFunction v).

Definition parse_aggregation (fuel : nat) : P Aggregation :=
  start_tok ← peek;
  if is_kind Keyword start_tok then
    '(func, percentile) ← parse_agg_func start_tok;
    _ ← expect LParen "'(' after aggregation function";
    source ← parse_source;
    close_tok ← expect RParen "')' after aggregation source";
    tf ← peek;
    filter ← (if is_keyword "where" tf then f ← parse_filter fuel; mret (Some f)
              else mret None);
    tw ← peek;
    window ← (if is_keyword "within" tw then w ← parse_window; mret (Some w)
              else mret None);
    let end_span :=
      match window, filter with
      | Some w, _ => win_span w
      | None, Some f => filter_span f
      | None, None => span close_tok
      end in
    mret (mk_aggregation func percentile source filter window
            (span_from_to (span start_tok) end_span))
  else fail (span start_tok) (ExpectedAggFunction (kind start_tok)).

(** ** Composite expressions *)

Definition parse_metric_ref : P MetricRef :=
  at_tok ← expect At "'@'";
  id_tok ← expect Ident "metric identifier after '@'";
  mret (mk_metric_ref (value id_tok) (span_from_to (span at_tok) (span id_tok))).

Definition parse_ratio : P Ratio :=
  start_tok ← expect_keyword "ratio";
  _ ← expect LParen "'(' after 'ratio'";
  num ← parse_metric_ref;
  _ ← expect Comma "',' between ratio arguments";
  den ← parse_metric_ref;
  end_tok ← expect RParen "')' to close ratio";
  mret (mk_ratio num den (span_from_to (span start_tok) (span end_tok))).

(** The node a binary operator builds over its operands. *)
Definition binary (op : ArithOp) (left right : Node) : Node :=
  NComposite op left right (span_from_to (node_span left) (node_span right)).

Definition negation (minus : Token) (operand : Node) : Node :=
  NNegate operand (span_from_to (span minus) (node_span operand)).

Fixpoint parse_composite (fuel : nat) : P Node :=
  match fuel with
  | 0 => no_fuel
  | S fuel => left ← parse_term fuel; composite_loop fuel left
  end
with composite_loop (fuel : nat) (left : Node) : P Node :=
  match fuel with
  | 0 => no_fuel
  | S fuel =>
      t ← peek;
      if is_kind Plus t || is_kind Minus t then
        _ ← advance;
        right ← parse_term fuel;
        let op := if is_kind Plus t then Add else Sub in
        composite_loop fuel (binary op left right)
      else mret left
  end
with parse_term (fuel : nat) : P Node :=
  match fuel with
  | 0 => no_fuel
  | S fuel => left ← parse_unary fuel; term_loop fuel left
  end
with term_loop (fuel : nat) (left : Node) : P Node :=
  match fuel with
  | 0 => no_fuel
  | S fuel =>
      t ← peek;
      if is_kind Star t || is_kind Slash t then
        _ ← advance;
        right ← parse_unary fuel;
        let op := if is_kind Star t then Mul else Div in
        term_loop fuel (binary op left right)
      else mret left
  end
with parse_unary (fuel : nat) : P Node :=
  match fuel with
  | 0 => no_fuel
  | S fuel =>
      t ← peek;
      if is_kind Minus t then
        minus_tok ← advance;
        operand ← parse_factor fuel;
        mret (negation minus_tok operand)
      else parse_factor fuel
  end
with parse_factor (fuel : nat) : P Node :=
  match fuel with
  | 0 => no_fuel
  | S fuel =>
      t ← peek;
      match kind t with
      | At => mr ← parse_metric_ref; mret (NMetricRef mr)
      | Number =>
          _ ← advance;
          v ← of_option (f64_parse (value t)) (span t) (InvalidNumber (value t));
          mret (NLiteral (mk_literal v (span t)))
      | LParen =>
          start_tok ← advance;
          inner ← parse_composite fuel;
          end_tok ← expect RParen "')' to close parenthesized expression";
          mret (restamp_span inner (span_from_to (span start_tok) (span end_tok)))
      | Keyword =>
          if bool_decide (value t = lit "ratio")
          then r ← parse_ratio; mret (NRatio r)
          else fail (span t) (ExpectedFactorGotKeyword (value t))
      | k => fail (span t) (ExpectedFactor k)
      end
  end.

(** ** Entry points *)

Definition is_agg_keyword (v : str) : bool :=
  bool_decide (v ∈ [lit "mean"; lit "sum"; lit "count"; lit "count_distinct";
                    lit "proportion"; lit "percentile"]).

Definition parse_expression (fuel : nat) : P Node :=
  t ← peek;
  if is_kind Keyword t then
    if is_agg_keyword (value t) then a ← parse_aggregation fuel; mret (NAggregation a)
    else if bool_decide (value t = lit "ratio") then parse_composite fuel
    else fail (span t) (ExpectedExprGotKeyword (value t))
  else match kind t with
  | At | LParen | Number | Minus => parse_composite fuel
  | k => fail (span t) (ExpectedExpr k)
  end.

(** Fuel for a token stream: eight calls of depth per token are enough. *)
Definition fuel_for (tokens : list Token) : nat := 8 * length tokens + 8.

Definition parse_tokens (tokens : list Token) : result ParseError Node :=
  '(expr, p) ← parse_expression (fuel_for tokens) (mk_parser tokens 0);
  '(next, _) ← peek p;
  if negb (is_kind Eof next)
  then Err (mk_parse_error (span next) (UnexpectedTrailing (kind next)))
  else Ok expr.

Definition parse (source : str) : result ParseError Node :=
  tokens ← map_err parse_error_from (tokenize source);
  '(expr, p) ← parse_expression (fuel_for tokens) (mk_parser tokens 0);
  '(next, _) ← peek p;
  if negb (is_kind Eof next)
  then Err (mk_parse_error (span next) (UnexpectedTrailing (kind next)))
  else Ok expr.
