(* ===== verification/Grammar.v ===== *)
(** MetricQL attribute grammar: the grammar summary at the top of
    [validators/metricql/parser.rs], one relation per production. Each relates a
    token sequence to the tree it denotes, spans included. It knows nothing of
    the parser's state, look-ahead or loops. *)
From Stdlib Require Import Ascii String SpecFloat.
From S2P Require Import Prelude Bytes F64 Ast Lexer Parser.

Definition tok (k : TokenKind) (t : Token) : Prop := kind t = k.
Definition kw (s : str) (t : Token) : Prop := kind t = Keyword ∧ value t = s.

(** [source = IDENT ( '.' IDENT )?] *)
Inductive d_source : list Token → Source → Prop :=
| ds_event e :
    tok Ident e → d_source [e] (mk_source (value e) [] (span_from_to (span e) (span e)))
| ds_field e d f :
    tok Ident e → tok Dot d → tok Ident f →
    d_source [e; d; f] (mk_source (value e) (value f) (span_from_to (span e) (span f))).

(** [field_ref = IDENT ( '.' IDENT )?], with its first and last span *)
Inductive d_field_ref : list Token → FieldRef * Span * Span → Prop :=
| df_name n :
    tok Ident n → d_field_ref [n] (mk_field_ref [] (value n), span n, span n)
| df_namespaced n d f :
    tok Ident n → tok Dot d → tok Ident f →
    d_field_ref [n; d; f] (mk_field_ref (value n) (value f), span n, span f).

(** [operator = '=' | '!=' | '<' | '<=' | '>' | '>=' | 'in'] *)
Inductive d_operator : Token → PredOp → Prop :=
| do_eq t : tok Eq t → d_operator t OpEq
| do_neq t : tok Neq t → d_operator t OpNeq
| do_lt t : tok Lt t → d_operator t OpLt
| do_lte t : tok Lte t → d_operator t OpLte
| do_gt t : tok Gt t → d_operator t OpGt
| do_gte t : tok Gte t → d_operator t OpGte
| do_in t : kw (lit "in") t → d_operator t OpIn.

(** [value = STRING | NUMBER | '[' value ( ',' value )* ']'] *)
Inductive d_value : list Token → Value → Prop :=
| dv_string t :
    tok TString t → d_value [t] (VString (strip_quotes (value t)) (span t))
| dv_number t n :
    tok Number t → f64_parse (value t) = Some n → d_value [t] (VNumber n (span t))
| dv_list lb ts vs rb :
    tok LBracket lb → d_items ts vs → tok RBracket rb →
    d_value (lb :: ts ++ [rb]) (VList vs (span_from_to (span lb) (span rb)))
with d_items : list Token → list Value → Prop :=
| di_one ts v : d_value ts v → d_items ts [v]
| di_more ts v c ts' vs :
    d_value ts v → tok Comma c → d_items ts' vs → d_items (ts ++ c :: ts') (v :: vs).

(** [predicate = field_ref operator value] *)
Inductive d_predicate : list Token → Predicate → Prop :=
| dp_intro ft f st en ot op vt v :
    d_field_ref ft (f, st, en) → d_operator ot op → d_value vt v →
    d_predicate (ft ++ ot :: vt) (mk_predicate f op v (span_from_to st (value_span v))).

(** [( 'and' predicate )*], with the span the clause ends at *)
Inductive d_more : Span → list Token → list Predicate * Span → Prop :=
| dm_done sp : d_more sp [] ([], sp)
| dm_and sp a ts p ts' ps sp' :
    kw (lit "and") a → d_predicate ts p → d_more (pr_span p) ts' (ps, sp') →
    d_more sp (a :: ts ++ ts') (p :: ps, sp').

(** [filter = 'where' predicate ( 'and' predicate )*] *)
Inductive d_filter : list Token → Filter → Prop :=
| df_intro w ts p ts' ps sp :
    kw (lit "where") w → d_predicate ts p → d_more (pr_span p) ts' (ps, sp) →
    d_filter (w :: ts ++ ts') (mk_filter (p :: ps) (span_from_to (span w) sp)).

Definition unit_of (t : Token) : WindowUnit :=
  if bool_decide (value t = lit "hours") then Hours else Days.

(** [window = 'within' NUMBER ( 'hours' | 'days' ) 'of' 'exposure'], where the
    number is a positive integer *)
Inductive d_window : list Token → Window → Prop :=
| dw_intro w n u o e x :
    kw (lit "within") w → tok Number n → f64_parse (value n) = Some x →
    f64_eq x (f64_trunc x) = true → f64_le x f64_zero = false →
    kw (lit "hours") u ∨ kw (lit "days") u → kw (lit "of") o → kw (lit "exposure") e →
    d_window [w; n; u; o; e]
      (mk_window (f64_as_u32 x) (unit_of u) (span_from_to (span w) (span e))).

(** The five plain aggregation keywords. *)
Definition plain_agg : list (str * AggFunc) :=
  [(lit "mean", Mean); (lit "sum", Sum); (lit "count", Count);
   (lit "count_distinct", CountDistinct); (lit "proportion", Proportion)].

(** [agg_func], where a percentile lies strictly between 0 and 100 *)
Inductive d_agg_func : list Token → AggFunc * f64 → Prop :=
| da_plain t v f :
    kw v t → (v, f) ∈ plain_agg → d_agg_func [t] (f, f64_zero)
| da_percentile t lp n rp pct :
    kw (lit "percentile") t → tok LParen lp → tok Number n →
    f64_parse (value n) = Some pct →
    f64_le pct f64_zero = false → f64_ge pct (f64_of_Z 100) = false → tok RParen rp →
    d_agg_func [t; lp; n; rp] (Percentile, pct).

Inductive d_opt {A} (R : list Token → A → Prop) : list Token → option A → Prop :=
| d_none : d_opt R [] None
| d_some ts a : R ts a → d_opt R ts (Some a).

Definition agg_end (close : Token) (f : option Filter) (w : option Window) : Span :=
  match w, f with
  | Some w, _ => win_span w
  | None, Some f => filter_span f
  | None, None => span close
  end.

(** [aggregation = agg_func '(' source ')' filter? window?] *)
Inductive d_aggregation : list Token → Aggregation → Prop :=
| dg_intro t ts0 fn pct lp ts1 src rp ts2 f ts3 w :
    d_agg_func (t :: ts0) (fn, pct) → tok LParen lp → d_source ts1 src → tok RParen rp →
    d_opt d_filter ts2 f → d_opt d_window ts3 w →
    d_aggregation ((t :: ts0) ++ lp :: ts1 ++ rp :: ts2 ++ ts3)
      (mk_aggregation fn pct src f w (span_from_to (span t) (agg_end rp f w))).

(** [metric_ref = '@' IDENT] *)
Inductive d_metric_ref : list Token → MetricRef → Prop :=
| dr_intro a i :
    tok At a → tok Ident i →
    d_metric_ref [a; i] (mk_metric_ref (value i) (span_from_to (span a) (span i))).

(** [ratio = 'ratio' '(' metric_ref ',' metric_ref ')'] *)
Inductive d_ratio : list Token → Ratio → Prop :=
| dt_intro r lp ts1 m1 c ts2 m2 rp :
    kw (lit "ratio") r → tok LParen lp → d_metric_ref ts1 m1 → tok Comma c →
    d_metric_ref ts2 m2 → tok RParen rp →
    d_ratio (r :: lp :: ts1 ++ c :: ts2 ++ [rp])
      (mk_ratio m1 m2 (span_from_to (span r) (span rp))).

(** [composite = term ( ( '+' | '-' ) term )*],
    [term = unary ( ( '*' | '/' ) unary )*], both left-associative,
    [unary = '-'? factor],
    [factor = metric_ref | NUMBER | '(' composite ')' | ratio].
    [d_sums left ts n]: the operators and operands [ts] extend [left] to [n]. *)
Inductive d_composite : list Token → Node → Prop :=
| dc_intro ts l ts' n : d_term ts l → d_sums l ts' n → d_composite (ts ++ ts') n
with d_sums : Node → list Token → Node → Prop :=
| dsm_done n : d_sums n [] n
| dsm_add l o ts r ts' n :
    tok Plus o → d_term ts r → d_sums (binary Add l r) ts' n → d_sums l (o :: ts ++ ts') n
| dsm_sub l o ts r ts' n :
    tok Minus o → d_term ts r → d_sums (binary Sub l r) ts' n → d_sums l (o :: ts ++ ts') n
with d_term : list Token → Node → Prop :=
| dtm_intro ts l ts' n : d_unary ts l → d_products l ts' n → d_term (ts ++ ts') n
with d_products : Node → list Token → Node → Prop :=
| dpr_done n : d_products n [] n
| dpr_mul l o ts r ts' n :
    tok Star o → d_unary ts r → d_products (binary Mul l r) ts' n →
    d_products l (o :: ts ++ ts') n
| dpr_div l o ts r ts' n :
    tok Slash o → d_unary ts r → d_products (binary Div l r) ts' n →
    d_products l (o :: ts ++ ts') n
with d_unary : list Token → Node → Prop :=
| du_negate m ts n : tok Minus m → d_factor ts n → d_unary (m :: ts) (negation m n)
| du_factor ts n : d_factor ts n → d_unary ts n
with d_factor : list Token → Node → Prop :=
| dfa_ref ts m : d_metric_ref ts m → d_factor ts (NMetricRef m)
| dfa_number t v :
    tok Number t → f64_parse (value t) = Some v →
    d_factor [t] (NLiteral (mk_literal v (span t)))
| dfa_parens lp ts n rp :
    tok LParen lp → d_composite ts n → tok RParen rp →
    d_factor (lp :: ts ++ [rp]) (restamp_span n (span_from_to (span lp) (span rp)))
| dfa_ratio ts r : d_ratio ts r → d_factor ts (NRatio r).

(** [expression = aggregation | composite] *)
Inductive d_expression : list Token → Node → Prop :=
| de_aggregation ts a : d_aggregation ts a → d_expression ts (NAggregation a)
| de_composite ts n : d_composite ts n → d_expression ts n.

Scheme d_value_mind := Minimality for d_value Sort Prop
with d_items_mind := Minimality for d_items Sort Prop.
Combined Scheme d_value_items_ind from d_value_mind, d_items_mind.

Scheme d_composite_mind := Minimality for d_composite Sort Prop
with d_sums_mind := Minimality for d_sums Sort Prop
with d_term_mind := Minimality for d_term Sort Prop
with d_products_mind := Minimality for d_products Sort Prop
with d_unary_mind := Minimality for d_unary Sort Prop
with d_factor_mind := Minimality for d_factor Sort Prop.
Combined Scheme d_expr_ind from d_composite_mind, d_sums_mind, d_term_mind,
  d_products_mind, d_unary_mind, d_factor_mind.
