(* ===== verification/ParserSpec.v ===== *)
(** The MetricQL parser implements its grammar: soundness, totality and
    completeness of [Parser] with respect to [Grammar]. *)
From Stdlib Require Import Ascii String SpecFloat.
From S2P Require Import Prelude Bytes F64 Ast Lexer Parser Grammar.

(** ** Positions in the token stream *)

(** The tokens still to be read. *)
Definition ahead (p : Parser) : list Token := drop (ps_pos p) (ps_tokens p).
Definition remaining (p : Parser) : nat := length (ahead p).

(** The stream ends with [Eof] and the parser stands on one of its tokens. *)
Definition wf (p : Parser) : Prop :=
  ps_pos p < length (ps_tokens p) ∧ ∃ e, last (ps_tokens p) = Some e ∧ kind e = Eof.

(** [p'] is [p] after reading the tokens [ts]. *)
Definition consumed (p : Parser) (ts : list Token) (p' : Parser) : Prop :=
  ps_tokens p' = ps_tokens p ∧ ahead p = ts ++ ahead p' ∧ ps_pos p' = ps_pos p + length ts.

(** [m] run at [p] never panics nor runs out of fuel, and a success reads tokens
    [ts] and returns [a] with [R ts a]. *)
Definition yields {A} (R : list Token → A → Prop) (m : P A) (p : Parser) : Prop :=
  match m p with
  | Ok (a, p') => ∃ ts, consumed p ts p' ∧ wf p' ∧ R ts a
  | Err _ => True
  | Panics | OutOfFuel => False
  end.

Lemma P_bind_eq {A B} (m : P A) (f : A → P B) p :
  (m ≫= f) p = match m p with
               | Ok (a, p') => f a p'
               | Err e => Err e
               | Panics => Panics
               | OutOfFuel => OutOfFuel
               end.
Proof. unfold mbind at 1, P_bind. destruct (m p) as [[a p']| | |]; done. Qed.

Lemma wf_head p : wf p → ∃ t, ps_tokens p !! ps_pos p = Some t ∧ ahead p = t :: ahead (mk_parser (ps_tokens p) (ps_pos p + 1)).
Proof.
  intros [Hlt _]. destruct (lookup_lt_is_Some_2 _ _ Hlt) as [t Ht].
  exists t. split; [done|]. unfold ahead. simpl.
  by rewrite (drop_lookup_cons _ _ t Ht), Nat.add_1_r.
Qed.

Lemma consumed_remaining p ts p' :
  consumed p ts p' → remaining p = length ts + remaining p'.
Proof. intros (_ & H & _). unfold remaining. by rewrite H, length_app. Qed.

Lemma consumed_trans p ts p' ts' p'' :
  consumed p ts p' → consumed p' ts' p'' → consumed p (ts ++ ts') p''.
Proof.
  intros (H1 & H2 & H3) (H4 & H5 & H6). split_and!.
  - congruence.
  - by rewrite H2, H5, app_assoc.
  - rewrite length_app. lia.
Qed.

Lemma yields_ret {A} (R : list Token → A → Prop) a p : wf p → R [] a → yields R (mret a) p.
Proof.
  intros Hw Hr. exists []. unfold consumed. split_and!; simpl; auto with lia.
Qed.

Lemma yields_fail {A} (R : list Token → A → Prop) sp m p : yields R (fail sp m) p.
Proof. exact I. Qed.

Lemma yields_mono {A} (R R' : list Token → A → Prop) m p :
  yields R m p → (∀ ts a, R ts a → R' ts a) → yields R' m p.
Proof. unfold yields. destruct (m p) as [[a p']| | |]; naive_solver. Qed.

Lemma yields_bind {A B} (R1 : list Token → A → Prop) (R : list Token → B → Prop) m f p :
  yields R1 m p →
  (∀ ts a p', consumed p ts p' → wf p' → R1 ts a →
     yields (λ ts', R (ts ++ ts')) (f a) p') →
  yields R (m ≫= f) p.
Proof.
  unfold yields. rewrite P_bind_eq. destruct (m p) as [[a p']| | |]; simpl; try done.
  intros (ts & Hc & Hw & Ha) Hf. specialize (Hf ts a p' Hc Hw Ha).
  unfold yields in Hf. destruct (f a p') as [[b p'']| | |]; try done.
  destruct Hf as (ts' & Hc' & Hw' & Hb). exists (ts ++ ts').
  split_and!; try done. by eapply consumed_trans.
Qed.

Lemma yields_peek {B} (R : list Token → B → Prop) f p :
  wf p → (∀ t, ps_tokens p !! ps_pos p = Some t → yields R (f t) p) →
  yields R (peek ≫= f) p.
Proof.
  intros Hw Hf. destruct (wf_head p Hw) as (t & Ht & _).
  unfold yields. rewrite P_bind_eq. unfold peek. rewrite Ht. by apply Hf.
Qed.

Lemma consumed_one p t :
  ps_tokens p !! ps_pos p = Some t →
  consumed p [t] (mk_parser (ps_tokens p) (ps_pos p + 1)).
Proof.
  intros Ht. split_and!; simpl; [done| |done].
  unfold ahead. simpl. by rewrite (drop_lookup_cons _ _ t Ht), Nat.add_1_r.
Qed.

Lemma wf_next p t :
  wf p → ps_tokens p !! ps_pos p = Some t → kind t ≠ Eof →
  wf (mk_parser (ps_tokens p) (ps_pos p + 1)).
Proof.
  intros [Hlt (e & He & Hk)] Ht Hne. split; simpl; [|by exists e].
  destruct (decide (ps_pos p = pred (length (ps_tokens p)))) as [Heq|?]; [|lia].
  rewrite Heq, <- last_lookup in Ht. congruence.
Qed.

Lemma yields_advance {B} (R : list Token → B → Prop) f p t :
  wf p → ps_tokens p !! ps_pos p = Some t → kind t ≠ Eof →
  (∀ p', consumed p [t] p' → wf p' → yields (λ ts, R (t :: ts)) (f t) p') →
  yields R (advance ≫= f) p.
Proof.
  intros Hw Ht Hne Hf.
  apply (yields_bind (λ ts a, ts = [t] ∧ a = t)).
  - unfold yields, advance. rewrite Ht.
    exists [t]. split_and!; try done; [by apply consumed_one|by eapply wf_next].
  - intros ts a p' Hc Hw' [-> ->]. by apply Hf.
Qed.

Lemma yields_expect p k d :
  wf p → k ≠ Eof → yields (λ ts t, ts = [t] ∧ tok k t) (expect k d) p.
Proof.
  intros Hw Hk. apply yields_peek; [done|]. intros t Ht.
  unfold is_kind. case_bool_decide as Hkt; [|apply yields_fail].
  unfold yields, advance. rewrite Ht. exists [t].
  split_and!; try done; [by apply consumed_one|eapply wf_next; [done..|congruence]].
Qed.

Lemma is_keyword_spec s t : is_keyword s t = true ↔ kw s t.
Proof.
  unfold is_keyword, is_kind, kw.
  by rewrite andb_true_iff, !bool_decide_eq_true.
Qed.

Lemma is_kind_spec k t : is_kind k t = true ↔ tok k t.
Proof. unfold is_kind, tok. by rewrite bool_decide_eq_true. Qed.

Lemma yields_expect_keyword p s :
  wf p → yields (λ ts t, ts = [t] ∧ kw s t) (expect_keyword s) p.
Proof.
  intros Hw. apply yields_peek; [done|]. intros t Ht.
  destruct (is_keyword s t) eqn:Hk; [|apply yields_fail].
  apply is_keyword_spec in Hk. unfold yields, advance. rewrite Ht. exists [t].
  split_and!; try done; [by apply consumed_one|].
  eapply wf_next; [done..|]. destruct Hk. congruence.
Qed.

Lemma yields_of_option {A B} (R : list Token → B → Prop) (o : option A) sp m f p :
  (∀ a, o = Some a → yields R (f a) p) → yields R (of_option o sp m ≫= f) p.
Proof.
  intros Hf. destruct o; simpl; [|apply yields_fail].
  unfold yields. rewrite P_bind_eq. by apply Hf.
Qed.

(** Change the token list of a derivation to an equal one. *)
Lemma derive {A} (R : list Token → A → Prop) ts ts' a : R ts a → ts = ts' → R ts' a.
Proof. by intros ? <-. Qed.

Ltac list_norm := simpl; rewrite ?app_nil_r, <- ?app_assoc; simpl; reflexivity.

(** One step of a parser body. *)
Ltac y_step :=
  match goal with
  | |- yields _ (peek ≫= _) _ =>
      apply yields_peek; [assumption|]; let t := fresh "t" in let H := fresh "Ht" in
      intros t H; cbn beta
  | |- yields _ (expect _ _ ≫= _) _ =>
      eapply yields_bind; [apply yields_expect; [assumption|discriminate]|];
      let t := fresh "t" in let p := fresh "p" in let H := fresh "Hk" in
      intros ? t p ? ? [-> H]; cbn beta
  | |- yields _ (expect_keyword _ ≫= _) _ =>
      eapply yields_bind; [apply yields_expect_keyword; assumption|];
      let t := fresh "t" in let p := fresh "p" in let H := fresh "Hk" in
      intros ? t p ? ? [-> H]; cbn beta
  | |- yields _ (of_option _ _ _ ≫= _) _ =>
      apply yields_of_option; let a := fresh "x" in let H := fresh "Hx" in
      intros a H; cbn beta
  | Ht : ps_tokens ?p !! ps_pos ?p = Some ?t |- yields _ (advance ≫= _) ?p =>
      apply (yields_advance _ _ _ t); [assumption|exact Ht| |];
      [unfold tok, kw in *; intuition congruence
      |let q := fresh "p" in intros q ? ?; cbn beta]
  | |- yields _ (mret _) _ => apply yields_ret; [assumption|]
  | |- yields _ (fail _ _) _ => apply yields_fail
  | |- yields _ (if is_kind ?k ?t then _ else _) _ =>
      let H := fresh "Hk" in destruct (is_kind k t) eqn:H; [apply is_kind_spec in H|]
  | |- yields _ (if is_keyword ?k ?t then _ else _) _ =>
      let H := fresh "Hk" in destruct (is_keyword k t) eqn:H; [apply is_keyword_spec in H|]
  | |- yields _ (let '(_, _) := _ in _) _ => idtac
  end.

(** ** Soundness and totality *)

Lemma parse_source_yields p : wf p → yields d_source parse_source p.
Proof.
  intros Hw. unfold parse_source. repeat y_step.
  - eapply derive; [by apply ds_field|done].
  - eapply derive; [by apply ds_event|done].
Qed.

Lemma parse_field_ref_yields p : wf p → yields d_field_ref parse_field_ref p.
Proof.
  intros Hw. unfold parse_field_ref. repeat y_step.
  - eapply derive; [by apply df_namespaced|done].
  - eapply derive; [by apply df_name|done].
Qed.

Lemma parse_metric_ref_yields p : wf p → yields d_metric_ref parse_metric_ref p.
Proof. intros Hw. unfold parse_metric_ref. repeat y_step. by apply dr_intro. Qed.

Lemma parse_ratio_yields p : wf p → yields d_ratio parse_ratio p.
Proof.
  intros Hw. unfold parse_ratio. repeat y_step.
  eapply yields_bind; [by apply parse_metric_ref_yields|]. intros ts1 m1 p2 ? ? Hm1. cbn beta.
  repeat y_step.
  eapply yields_bind; [by apply parse_metric_ref_yields|]. intros ts2 m2 p4 ? ? Hm2. cbn beta.
  repeat y_step. eapply derive; [by apply dt_intro|list_norm].
Qed.

Lemma operator_of_spec t op : operator_of t = Some op ↔ d_operator t op.
Proof.
  unfold operator_of. split.
  - destruct (kind t) eqn:Hk; try discriminate; try (intros [= <-]; by constructor).
    case_bool_decide; [|discriminate]. intros [= <-]. by constructor.
  - destruct 1 as [t Ht|t Ht|t Ht|t Ht|t Ht|t Ht|t [Ht Hv]]; rewrite Ht; try done.
    by rewrite bool_decide_true.
Qed.

Lemma d_operator_not_eof t op : d_operator t op → kind t ≠ Eof.
Proof. unfold tok, kw. destruct 1; unfold tok, kw in *; intuition congruence. Qed.

Lemma parse_operator_yields p :
  wf p → yields (λ ts op, ∃ t, ts = [t] ∧ d_operator t op) parse_operator p.
Proof.
  intros Hw. unfold parse_operator. y_step.
  destruct (operator_of t) as [op|] eqn:Ho; [|y_step]. apply operator_of_spec in Ho.
  eapply yields_advance; [done|done|by eapply d_operator_not_eof|].
  intros p' ? ?. y_step. eauto.
Qed.

Lemma consumed_nonempty p ts p' :
  consumed p ts p' → ts ≠ [] → remaining p' < remaining p.
Proof.
  intros Hc ?. apply consumed_remaining in Hc. destruct ts; [done|]. simpl in Hc. lia.
Qed.

(** Turn [consumed] facts into arithmetic on the remaining length. *)
Ltac rem_lia :=
  repeat match goal with
  | H : consumed _ _ _ |- _ => apply consumed_remaining in H
  end; simpl length in *; lia.

Lemma d_value_nonempty ts v : d_value ts v → ts ≠ [].
Proof. by destruct 1. Qed.

Lemma d_value_length ts v : d_value ts v → 0 < length ts.
Proof. intros H%d_value_nonempty. destruct ts; [done|simpl; lia]. Qed.

Lemma parse_value_items_yields n :
  (∀ p, wf p → 4 * remaining p + 1 ≤ n → yields d_value (parse_value n) p) ∧
  (∀ p items, wf p → 4 * remaining p + 3 ≤ n →
     yields (λ ts l, ∃ vs, l = items ++ vs ∧ d_items ts vs) (parse_items n items) p).
Proof.
  induction n as [|n [IHv IHi]]; [split; intros; lia|]. split.
  - intros p Hw Hn. cbn [parse_value]. y_step.
    destruct (kind t) eqn:Hk; try by y_step.
    + repeat y_step. eapply derive; [by apply dv_number|done].
    + repeat y_step. by apply dv_string.
    + y_step. repeat y_step.
      eapply yields_bind; [apply IHi; [done|rem_lia]|].
      intros ts l p1 ? ? (vs & -> & Hvs). cbn beta. repeat y_step.
      eapply derive; [by apply dv_list|list_norm].
  - intros p items Hw Hn. cbn [parse_items].
    eapply yields_bind; [apply IHv; [done|lia]|].
    intros ts v p1 Hc ? Hv. cbn beta zeta. y_step. y_step.
    + y_step. pose proof (d_value_length _ _ Hv).
      eapply yields_mono; [apply IHi; [done|rem_lia]|].
      intros ts' l (vs & -> & Hvs). exists (v :: vs). split; [by rewrite <- app_assoc|].
      by apply di_more.
    + y_step. exists [v]. split; [done|]. eapply derive; [by apply di_one|list_norm].
Qed.

Lemma parse_value_yields n p :
  wf p → 4 * remaining p + 1 ≤ n → yields d_value (parse_value n) p.
Proof. apply (parse_value_items_yields n). Qed.

Lemma parse_predicate_yields n p :
  wf p → 4 * remaining p + 1 ≤ n → yields d_predicate (parse_predicate n) p.
Proof.
  intros Hw Hn. unfold parse_predicate.
  eapply yields_bind; [by apply parse_field_ref_yields|].
  intros ts [[f st] en] p1 ? ? Hf. cbn beta iota.
  eapply yields_bind; [by apply parse_operator_yields|].
  intros ? op p2 ? ? (ot & -> & Hop). cbn beta.
  eapply yields_bind; [apply parse_value_yields; [done|rem_lia]|].
  intros vt v p3 ? ? Hv. y_step.
  eapply derive; [by eapply dp_intro|list_norm].
Qed.

Lemma parse_more_yields n : ∀ p preds sp,
  wf p → 4 * remaining p + 1 ≤ n →
  yields (λ ts '(l, sp'), ∃ ps, l = preds ++ ps ∧ d_more sp ts (ps, sp'))
    (parse_more_predicates n preds sp) p.
Proof.
  induction n as [|n IH]; [intros; lia|]. intros p preds sp Hw Hn.
  cbn [parse_more_predicates]. y_step. y_step.
  - y_step. eapply yields_bind; [apply parse_predicate_yields; [done|rem_lia]|].
    intros ts pr p1 ? ? Hp. cbn beta.
    eapply yields_mono; [apply IH; [done|rem_lia]|].
    intros ts' [l sp'] (ps & -> & Hps). exists (pr :: ps).
    split; [by rewrite <- app_assoc|]. by apply dm_and.
  - y_step. exists []. split; [by rewrite app_nil_r|constructor].
Qed.

Lemma parse_filter_yields n p :
  wf p → 4 * remaining p + 1 ≤ n → yields d_filter (parse_filter n) p.
Proof.
  intros Hw Hn. unfold parse_filter. repeat y_step.
  eapply yields_bind; [apply parse_predicate_yields; [done|rem_lia]|].
  intros ts pr p2 ? ? Hp. cbn beta.
  eapply yields_bind; [apply parse_more_yields; [done|rem_lia]|].
  intros ts' [l sp] p3 ? ? (ps & -> & Hps). cbn beta iota. y_step.
  eapply derive; [by eapply df_intro|list_norm].
Qed.

Lemma parse_window_yields p : wf p → yields d_window parse_window p.
Proof.
  intros Hw. unfold parse_window. repeat y_step. cbn beta.
  destruct (negb _ || _) eqn:Hint; [y_step|]. bool_prop. repeat y_step.
  - destruct (is_keyword "hours" t1 || is_keyword "days" t1) eqn:Hu; [|y_step].
    assert (kw (lit "hours") t1 ∨ kw (lit "days") t1) as Hu'.
    { rewrite <- !is_keyword_spec. by apply orb_true_iff. }
    repeat y_step. eapply derive; [by eapply dw_intro|done].
Qed.

Lemma parse_agg_func_yields p t :
  wf p → ps_tokens p !! ps_pos p = Some t → tok Keyword t →
  yields (λ ts r, ∃ ts', ts = t :: ts' ∧ d_agg_func ts r) (parse_agg_func t) p.
Proof.
  intros Hw Ht Hk. unfold parse_agg_func.
  assert (∀ v f, value t = v → (v, f) ∈ plain_agg → d_agg_func [t] (f, f64_zero)) as Hplain.
  { intros v f Hv Hin. by apply (da_plain t v f). }
  repeat (case_bool_decide as Hv;
    [solve [repeat y_step; eexists; split; [reflexivity|];
            eapply derive; [eapply Hplain; [eassumption|set_solver]|done]]|clear Hv]).
  case_bool_decide as Hv; [|y_step].
  repeat y_step. destruct (f64_le _ _ || f64_ge _ _) eqn:Hr; [y_step|]. bool_prop.
  repeat y_step. eexists. split; [reflexivity|].
  eapply derive; [by eapply da_percentile|done].
Qed.

(** An optional clause introduced by a keyword. *)
Lemma yields_optional {A} (R : list Token → A → Prop) s (m : P A) p t :
  wf p → (∀ p', wf p' → remaining p' = remaining p → yields R m p') →
  yields (d_opt R) (if is_keyword s t then a ← m; mret (Some a) else mret None) p.
Proof.
  intros Hw Hm. destruct (is_keyword s t).
  - eapply yields_bind; [by apply Hm|]. intros ts a p' ? ? Ha. y_step.
    eapply derive; [by apply d_some|list_norm].
  - y_step. constructor.
Qed.

Lemma parse_aggregation_yields n p :
  wf p → 4 * remaining p + 1 ≤ n → yields d_aggregation (parse_aggregation n) p.
Proof.
  intros Hw Hn. unfold parse_aggregation. y_step. y_step; [|y_step].
  eapply yields_bind; [by apply parse_agg_func_yields|].
  intros ts0 [fn pct] p1 ? ? (ts0' & -> & Hfn). cbn beta iota. y_step.
  eapply yields_bind; [by apply parse_source_yields|]. intros ts1 src p3 ? ? Hsrc. cbn beta.
  y_step. y_step. rename t1 into rp, t2 into tf.
  eapply yields_bind.
  { apply yields_optional; [done|]. intros p' ? ?. apply parse_filter_yields; [done|rem_lia]. }
  intros ts2 f p5 ? ? Hf. cbn beta. y_step.
  eapply yields_bind.
  { apply yields_optional; [done|]. intros p' ? ?. by apply parse_window_yields. }
  intros ts3 w p6 ? ? Hwin. cbn beta zeta. y_step.
  eapply derive; [by eapply (dg_intro t ts0' fn pct t0 ts1 src rp ts2 f ts3 w)|list_norm].
Qed.

Lemma d_unary_nonempty ts n : d_unary ts n → 0 < length ts.
Proof.
  destruct 1 as [m ts n ? _|ts n Hf]; [simpl; lia|].
  destruct Hf as [? ? Hm| | |? ? Hr]; simpl; try lia; [by destruct Hm; simpl; lia|].
  destruct Hr; simpl; lia.
Qed.

Lemma d_term_nonempty ts n : d_term ts n → 0 < length ts.
Proof. destruct 1 as [ts l ts' n Hu _]. apply d_unary_nonempty in Hu. rewrite length_app. lia. Qed.

Lemma expr_yields n :
  (∀ p, wf p → 8 * remaining p + 6 ≤ n → yields d_composite (parse_composite n) p) ∧
  (∀ p l, wf p → 8 * remaining p + 5 ≤ n → yields (d_sums l) (composite_loop n l) p) ∧
  (∀ p, wf p → 8 * remaining p + 4 ≤ n → yields d_term (parse_term n) p) ∧
  (∀ p l, wf p → 8 * remaining p + 3 ≤ n → yields (d_products l) (term_loop n l) p) ∧
  (∀ p, wf p → 8 * remaining p + 2 ≤ n → yields d_unary (parse_unary n) p) ∧
  (∀ p, wf p → 8 * remaining p + 1 ≤ n → yields d_factor (parse_factor n) p).
Proof.
  induction n as [|n (IHc & IHs & IHt & IHp & IHu & IHf)].
  { split_and!; intros; lia. }
  split_and!.
  - intros p Hw Hn. cbn [parse_composite].
    eapply yields_bind; [apply IHt; [done|lia]|]. intros ts l p1 ? ? Hl. cbn beta.
    eapply yields_mono; [apply IHs; [done|rem_lia]|]. intros. by eapply dc_intro.
  - intros p l Hw Hn. cbn [composite_loop]. y_step.
    destruct (is_kind Plus t || is_kind Minus t) eqn:Hk; [|y_step; constructor].
    assert (tok Plus t ∨ tok Minus t) as Hk'
      by (rewrite <- !is_kind_spec; by apply orb_true_iff).
    y_step. eapply yields_bind; [apply IHt; [done|rem_lia]|]. intros ts r p2 ? ? Hr.
    cbn beta zeta. eapply yields_mono; [apply IHs; [done|rem_lia]|].
    intros ts' m Hm. destruct (is_kind Plus t) eqn:Hp.
    + apply is_kind_spec in Hp. by eapply dsm_add.
    + apply is_kind_spec in Hk. by eapply dsm_sub.
  - intros p Hw Hn. cbn [parse_term].
    eapply yields_bind; [apply IHu; [done|lia]|]. intros ts l p1 ? ? Hl. cbn beta.
    eapply yields_mono; [apply IHp; [done|rem_lia]|]. intros. by eapply dtm_intro.
  - intros p l Hw Hn. cbn [term_loop]. y_step.
    destruct (is_kind Star t || is_kind Slash t) eqn:Hk; [|y_step; constructor].
    assert (tok Star t ∨ tok Slash t) as Hk'
      by (rewrite <- !is_kind_spec; by apply orb_true_iff).
    y_step. eapply yields_bind; [apply IHu; [done|rem_lia]|]. intros ts r p2 ? ? Hr.
    cbn beta zeta. eapply yields_mono; [apply IHp; [done|rem_lia]|].
    intros ts' m Hm. destruct (is_kind Star t) eqn:Hp.
    + apply is_kind_spec in Hp. by eapply dpr_mul.
    + apply is_kind_spec in Hk. by eapply dpr_div.
  - intros p Hw Hn. cbn [parse_unary]. y_step. y_step.
    + y_step. eapply yields_bind; [apply IHf; [done|rem_lia]|]. intros ts m p2 ? ? Hm.
      cbn beta. y_step. eapply derive; [by apply du_negate|list_norm].
    + eapply yields_mono; [apply IHf; [done|lia]|]. intros. by apply du_factor.
  - intros p Hw Hn. cbn [parse_factor]. y_step.
    destruct (kind t) eqn:Hk; try by y_step.
    + repeat y_step. eapply derive; [by apply dfa_number|done].
    + case_bool_decide; [|y_step].
      eapply yields_bind; [by apply parse_ratio_yields|]. intros ts r p1 ? ? Hr. cbn beta.
      y_step. eapply derive; [by apply dfa_ratio|list_norm].
    + eapply yields_bind; [by apply parse_metric_ref_yields|]. intros ts r p1 ? ? Hr. cbn beta.
      y_step. eapply derive; [by apply dfa_ref|list_norm].
    + y_step. eapply yields_bind; [apply IHc; [done|rem_lia]|]. intros ts m p2 ? ? Hm.
      cbn beta. repeat y_step. eapply derive; [by apply dfa_parens|list_norm].
Qed.

Lemma parse_composite_yields n p :
  wf p → 8 * remaining p + 6 ≤ n → yields d_composite (parse_composite n) p.
Proof. apply (expr_yields n). Qed.

Lemma parse_expression_yields n p :
  wf p → 8 * remaining p + 6 ≤ n → yields d_expression (parse_expression n) p.
Proof.
  intros Hw Hn. unfold parse_expression. y_step.
  assert (yields d_expression (parse_composite n) p) as Hc.
  { eapply yields_mono; [by apply parse_composite_yields|]. intros. by apply de_composite. }
  y_step.
  - destruct (is_agg_keyword _); [|by case_bool_decide; [|y_step]].
    eapply yields_bind; [apply parse_aggregation_yields; [done|lia]|].
    intros ts a p1 ? ? Ha. cbn beta. y_step.
    eapply derive; [by apply de_aggregation|list_norm].
  - by destruct (kind t); try y_step.
Qed.

(** ** Completeness *)

Definition jump (p : Parser) (n : nat) : Parser := mk_parser (ps_tokens p) (ps_pos p + n).

Lemma jump_jump p a b : jump (jump p a) b = jump p (a + b).
Proof. unfold jump. simpl. f_equal. lia. Qed.

Lemma jump_0 p : jump p 0 = p.
Proof. destruct p. unfold jump. simpl. f_equal. lia. Qed.

Lemma ahead_jump p ts l : ahead p = ts ++ l → ahead (jump p (length ts)) = l.
Proof. apply drop_app_add. Qed.

Lemma ahead_jump1 p t l : ahead p = t :: l → ahead (jump p 1) = l.
Proof. apply (ahead_jump p [t]). Qed.

Lemma ahead_lookup p t l : ahead p = t :: l → ps_tokens p !! ps_pos p = Some t.
Proof. apply drop_cons_lookup. Qed.

(** [m] accepts the language of [R]: on tokens [ts] with [R ts a], followed by
    tokens in [F], it returns [a] and stops after [ts]. *)
Definition accepts {A} (F : list Token → Prop) (R : list Token → A → Prop)
    (m : P A) : Prop :=
  ∀ p ts a rest, R ts a → ahead p = ts ++ rest → F rest →
    m p = Ok (a, jump p (length ts)).

(** Follow sets: some token comes next, of none of the kinds [ks]. *)
Definition next_not (ks : list TokenKind) (l : list Token) : Prop :=
  match l with [] => False | t :: _ => kind t ∉ ks end.

Definition any_next : list Token → Prop := next_not [].

Lemma next_not_any ks l : next_not ks l → any_next l.
Proof. destruct l; simpl; [done|set_solver]. Qed.

Lemma any_next_cons t l : any_next (t :: l).
Proof. unfold any_next. simpl. set_solver. Qed.

Section accept_rules.
Context {B : Type} (f : Token → P B) (p : Parser) (t : Token) (l : list Token).
Context (Ha : ahead p = t :: l).

Lemma peek_bind : (peek ≫= f) p = f t p.
Proof. rewrite P_bind_eq. unfold peek. by rewrite (ahead_lookup p t l). Qed.

Lemma advance_bind : (advance ≫= f) p = f t (jump p 1).
Proof. rewrite P_bind_eq. unfold advance. by rewrite (ahead_lookup p t l). Qed.

Lemma expect_bind k d : tok k t → (expect k d ≫= f) p = f t (jump p 1).
Proof.
  intros Hk. rewrite P_bind_eq. unfold expect. rewrite P_bind_eq. unfold peek.
  rewrite (ahead_lookup p t l) by done. rewrite (proj2 (is_kind_spec k t)) by done.
  unfold advance. by rewrite (ahead_lookup p t l).
Qed.

Lemma expect_keyword_bind s : kw s t → (expect_keyword s ≫= f) p = f t (jump p 1).
Proof.
  intros Hk. rewrite P_bind_eq. unfold expect_keyword. rewrite P_bind_eq. unfold peek.
  rewrite (ahead_lookup p t l) by done. rewrite (proj2 (is_keyword_spec s t)) by done.
  unfold advance. by rewrite (ahead_lookup p t l).
Qed.
End accept_rules.

Lemma accept_bind {A B} (m : P A) (f : A → P B) p a p' :
  m p = Ok (a, p') → (m ≫= f) p = f a p'.
Proof. intros Hm. by rewrite P_bind_eq, Hm. Qed.

Lemma mret_jump {A} (a : A) p n m : n = m → (mret a : P A) (jump p n) = Ok (a, jump p m).
Proof. by intros <-. Qed.

Lemma is_kind_false k k' t : tok k t → k ≠ k' → is_kind k' t = false.
Proof. unfold tok, is_kind. intros <- ?. by apply bool_decide_false. Qed.

Lemma next_not_is_kind k ks t l : next_not ks (t :: l) → k ∈ ks → is_kind k t = false.
Proof. unfold next_not, is_kind. intros Hn Hk. apply bool_decide_false. by intros <-. Qed.

(** Steps of an accepting run; each keeps the tokens [ahead] in view. *)
Ltac c_norm := cbn beta iota zeta; simpl app in *.
Ltac c_next H :=
  let H' := fresh "Ha" in pose proof (ahead_jump1 _ _ _ H) as H'; simpl app in H'.
Ltac c_step :=
  match goal with
  | H : ahead ?p = ?t :: ?l |- (peek ≫= _) ?p = _ => rewrite (peek_bind _ p t l H); c_norm
  | H : ahead ?p = ?t :: ?l |- (advance ≫= _) ?p = _ =>
      rewrite (advance_bind _ p t l H); c_next H; c_norm
  | H : ahead ?p = ?t :: ?l |- (expect ?k _ ≫= _) ?p = _ =>
      rewrite (expect_bind _ p t l H k) by assumption; c_next H; c_norm
  | H : ahead ?p = ?t :: ?l |- (expect_keyword ?s ≫= _) ?p = _ =>
      rewrite (expect_keyword_bind _ p t l H s) by assumption; c_next H; c_norm
  | H : tok ?k ?t |- context[is_kind ?k ?t] =>
      rewrite (proj2 (is_kind_spec k t) H); c_norm
  | H : tok ?k ?t |- context[is_kind ?k' ?t] =>
      rewrite (is_kind_false k k' t H) by discriminate; c_norm
  | H : kw ?s ?t |- context[is_keyword ?s ?t] =>
      rewrite (proj2 (is_keyword_spec s t) H); c_norm
  | H : ?o = Some _ |- context[of_option ?o _ _] => rewrite H; c_norm
  end.
Ltac len_lia := do 5 (simpl length; rewrite ?length_app); lia.
Ltac c_done := rewrite ?jump_jump; apply mret_jump; len_lia.

Lemma parse_source_accepts : accepts (next_not [Dot]) d_source parse_source.
Proof.
  intros p ts a rest Hd Ha Hf. unfold parse_source. destruct Hd; simpl in Ha.
  - c_step. destruct rest as [|t rest]; [done|]. c_step.
    rewrite (next_not_is_kind Dot _ _ _ Hf) by set_solver. c_done.
  - repeat c_step. c_done.
Qed.

Lemma parse_field_ref_accepts : accepts (next_not [Dot]) d_field_ref parse_field_ref.
Proof.
  intros p ts a rest Hd Ha Hf. unfold parse_field_ref. destruct Hd; simpl in Ha.
  - c_step. destruct rest as [|t rest]; [done|]. c_step.
    rewrite (next_not_is_kind Dot _ _ _ Hf) by set_solver. c_done.
  - repeat c_step. c_done.
Qed.

Lemma parse_metric_ref_accepts : accepts any_next d_metric_ref parse_metric_ref.
Proof.
  intros p ts a rest Hd Ha Hf. unfold parse_metric_ref. destruct Hd; simpl in Ha.
  repeat c_step. c_done.
Qed.

(** Arithmetic on remaining lengths, from the [ahead] facts. *)
Ltac c_lia :=
  unfold remaining in *;
  repeat match goal with
  | H : @eq (list Token) _ _ |- _ =>
      apply (f_equal length) in H
  end; do 4 (simpl length in *; rewrite ?length_app in *); lia.

(** Run a sub-parser whose acceptance lemma is [lem], on the tokens [ts]. *)
Ltac c_sub lem Ha :=
  erewrite accept_bind by (eapply lem; [|exact Ha|];
    first [eassumption | apply any_next_cons | (eapply next_not_any; eassumption)]);
  let H' := fresh "Ha" in
  pose proof Ha as H'; apply ahead_jump in H'; simpl app in H'; c_norm.

Lemma parse_ratio_accepts : accepts any_next d_ratio parse_ratio.
Proof.
  intros p ts a rest Hd Ha Hf. unfold parse_ratio.
  destruct Hd as [r lp ts1 m1 c ts2 m2 rp H1 H2 H3 H4 H5 H6]. simpl in Ha.
  rewrite <- !app_assoc in Ha. simpl in Ha. rewrite <- app_assoc in Ha.
  do 2 c_step. c_sub parse_metric_ref_accepts Ha1. c_step.
  c_sub parse_metric_ref_accepts Ha3. c_step. c_done.
Qed.

Lemma operator_not_dot t op : d_operator t op → kind t ∉ [Dot].
Proof.
  intros Hd. rewrite list_elem_of_singleton.
  destruct Hd; unfold tok, kw in *; intuition congruence.
Qed.

Lemma parse_operator_accepts p t op rest :
  d_operator t op → ahead p = t :: rest → parse_operator p = Ok (op, jump p 1).
Proof.
  intros Hd Ha. unfold parse_operator. c_step.
  apply operator_of_spec in Hd as ->. by c_step.
Qed.

Lemma d_value_head ts v :
  d_value ts v → ∃ t l, ts = t :: l ∧ kind t ∈ [TString; Number; LBracket].
Proof. unfold tok. destruct 1; eexists _, _; (split; [done|set_solver]). Qed.

Lemma d_items_head ts vs :
  d_items ts vs → ∃ t l, ts = t :: l ∧ kind t ∈ [TString; Number; LBracket].
Proof.
  destruct 1 as [ts v Hv|ts v c ts' vs Hv _ _];
    destruct (d_value_head _ _ Hv) as (t & l & -> & Hk); eexists _, _; by split.
Qed.

Lemma value_items_accepts :
  (∀ ts v, d_value ts v → ∀ n p rest, ahead p = ts ++ rest → any_next rest →
     4 * remaining p + 1 ≤ n → parse_value n p = Ok (v, jump p (length ts))) ∧
  (∀ ts vs, d_items ts vs → ∀ n p rest items, ahead p = ts ++ rest → next_not [Comma] rest →
     4 * remaining p + 3 ≤ n → parse_items n items p = Ok (items ++ vs, jump p (length ts))).
Proof.
  apply d_value_items_ind.
  - intros t Ht n p rest Ha Hf Hn. destruct n; [lia|]. cbn [parse_value]. simpl in Ha.
    c_step. rewrite Ht. by c_step.
  - intros t x Ht Hx n p rest Ha Hf Hn. destruct n; [lia|]. cbn [parse_value]. simpl in Ha.
    c_step. rewrite Ht. c_step. by c_step.
  - intros lb ts vs rb Hlb Hd IH Hrb n p rest Ha Hf Hn. destruct n; [lia|]. cbn [parse_value].
    simpl in Ha. rewrite <- app_assoc in Ha.
    destruct (d_items_head _ _ Hd) as (t & l & Heq & Hk). subst ts. simpl app in Ha.
    c_step. rewrite Hlb. c_step. c_step. unfold is_kind at 1. rewrite bool_decide_false by (intros E; rewrite E in Hk; set_solver).
    erewrite accept_bind by (eapply IH; [exact Ha0| |c_lia]; simpl; rewrite Hrb; set_solver).
    pose proof (ahead_jump (jump p 1) (t :: l) _ Ha0) as Ha2. c_norm. c_step. c_done.
  - intros ts v Hd IH n p rest items Ha Hf Hn. destruct n; [lia|]. cbn [parse_items].
    erewrite accept_bind by (eapply IH; [exact Ha|by eapply next_not_any|lia]).
    pose proof (ahead_jump p ts _ Ha) as Ha2. c_norm.
    destruct rest as [|t rest]; [done|]. c_step.
    rewrite (next_not_is_kind Comma _ _ _ Hf) by set_solver. done.
  - intros ts v c ts' vs Hd IH Hc Hd' IH' n p rest items Ha Hf Hn. destruct n; [lia|].
    cbn [parse_items]. rewrite <- app_assoc in Ha. simpl in Ha.
    pose proof (d_value_length _ _ Hd) as Hlen.
    erewrite accept_bind by (eapply IH; [exact Ha|by apply any_next_cons|lia]).
    pose proof (ahead_jump p ts _ Ha) as Ha2. c_norm. c_step. c_step. c_step.
    erewrite IH'; [|exact Ha0|done|c_lia].
    rewrite <- app_assoc, !jump_jump. apply mret_jump. len_lia.
Qed.

Lemma parse_value_accepts n p ts v rest :
  d_value ts v → ahead p = ts ++ rest → any_next rest → 4 * remaining p + 1 ≤ n →
  parse_value n p = Ok (v, jump p (length ts)).
Proof. intros. by eapply value_items_accepts. Qed.

Lemma parse_predicate_accepts n p ts pr rest :
  d_predicate ts pr → ahead p = ts ++ rest → any_next rest → 4 * remaining p + 1 ≤ n →
  parse_predicate n p = Ok (pr, jump p (length ts)).
Proof.
  intros Hd Ha Hf Hn. destruct Hd as [ft f st en ot op vt v Hfr Hop Hv]. unfold parse_predicate.
  rewrite <- app_assoc in Ha. simpl in Ha.
  assert (next_not [Dot] (ot :: vt ++ rest)) as Hnd.
  { by eapply operator_not_dot. }
  c_sub parse_field_ref_accepts Ha.
  erewrite accept_bind by (by eapply parse_operator_accepts). c_next Ha0. c_norm.
  erewrite accept_bind by (eapply parse_value_accepts; [done|exact Ha1|done|c_lia]).
  c_norm. c_done.
Qed.

(** The next token is there and is not the keyword [s]. *)
Definition next_not_kw (s : str) (l : list Token) : Prop :=
  match l with [] => False | t :: _ => is_keyword s t = false end.

Lemma next_not_kw_any s l : next_not_kw s l → any_next l.
Proof. destruct l as [|t l]; [done|intros _; exact (any_next_cons t l)]. Qed.

Lemma kw_next_not s s' t l : kw s t → s ≠ s' → next_not_kw s' (t :: l).
Proof.
  intros [Hk Hv] Hne. simpl. unfold is_keyword. rewrite Hv.
  rewrite (bool_decide_false (s = s')) by done. apply andb_false_r.
Qed.

Lemma kind_next_not s t l : kind t ≠ Keyword → next_not_kw s (t :: l).
Proof. intros Hk. simpl. unfold is_keyword, is_kind. by rewrite bool_decide_false. Qed.

Lemma parse_more_accepts sp ts ps sp' :
  d_more sp ts (ps, sp') → ∀ n p rest preds, ahead p = ts ++ rest →
  next_not_kw "and" rest → 4 * remaining p + 1 ≤ n →
  parse_more_predicates n preds sp p = Ok ((preds ++ ps, sp'), jump p (length ts)).
Proof.
  remember (ps, sp') as r eqn:Hr. intros Hd. revert ps Hr.
  induction Hd as [sp|sp a ts pr ts' ps1 sp1 Ha1 Hp Hd IH]; intros ps Hr n p rest preds Ha Hf Hn;
    simplify_eq; (destruct n; [lia|]); cbn [parse_more_predicates]; simpl in Ha.
  - destruct rest as [|t rest]; [done|]. c_step. simpl in Hf. rewrite Hf.
    rewrite app_nil_r. by rewrite jump_0.
  - rewrite <- app_assoc in Ha. do 3 c_step.
    assert (any_next (ts' ++ rest)) as Hany.
    { inversion Hd; subst; [by eapply next_not_kw_any|apply any_next_cons]. }
    erewrite accept_bind by (eapply parse_predicate_accepts; [done|exact Ha0|done|c_lia]).
    pose proof (ahead_jump _ _ _ Ha0) as Ha2. c_norm.
    erewrite IH; [|done|exact Ha2|done|c_lia].
    rewrite <- app_assoc, !jump_jump. apply mret_jump. len_lia.
Qed.

Lemma parse_filter_accepts n p ts f rest :
  d_filter ts f → ahead p = ts ++ rest → next_not_kw "and" rest →
  4 * remaining p + 1 ≤ n → parse_filter n p = Ok (f, jump p (length ts)).
Proof.
  intros Hd Ha Hf Hn. destruct Hd as [w ts pr ts' ps sp Hw Hp Hm]. unfold parse_filter.
  simpl in Ha. rewrite <- app_assoc in Ha. c_step.
  assert (any_next (ts' ++ rest)) as Hany.
  { inversion Hm; subst; [by eapply next_not_kw_any|apply any_next_cons]. }
  erewrite accept_bind by (eapply parse_predicate_accepts; [done|exact Ha0|done|c_lia]).
  pose proof (ahead_jump _ _ _ Ha0) as Ha2. c_norm.
  erewrite accept_bind by (eapply parse_more_accepts; [done|exact Ha2|done|c_lia]).
  c_norm. c_done.
Qed.

Lemma parse_window_accepts p ts w rest :
  d_window ts w → ahead p = ts ++ rest → parse_window p = Ok (w, jump p (length ts)).
Proof.
  intros Hd Ha. destruct Hd as [w n u o e x Hw Hn Hx Hi Hp Hu Ho He]. unfold parse_window.
  simpl in Ha. c_step. c_step.
  rewrite Hx. unfold of_option. rewrite P_bind_eq. cbn [mret P_ret].
  rewrite Hi, Hp. cbn [negb orb]. c_step.
  assert (is_keyword "hours" u || is_keyword "days" u = true) as ->.
  { apply orb_true_iff. by rewrite !is_keyword_spec. }
  do 3 c_step. c_done.
Qed.

(** Decide the comparisons of literal texts. *)
Ltac decide_texts :=
  repeat first [rewrite bool_decide_true by done | rewrite bool_decide_false by done].

Lemma parse_agg_func_accepts p t ts r rest :
  d_agg_func (t :: ts) r → ahead p = (t :: ts) ++ rest →
  parse_agg_func t p = Ok (r, jump p (length (t :: ts))).
Proof.
  intros Hd Ha. inversion Hd as [t' v f Hk Hin|t' lp n rp pct Hk Hlp Hn Hpct H1 H2 Hrp]; subst.
  - unfold parse_agg_func. destruct Hk as [_ ->]. simpl in Ha.
    unfold plain_agg in Hin. rewrite !elem_of_cons, elem_of_nil in Hin.
    destruct_or! Hin; simplify_eq; decide_texts; by c_step.
  - unfold parse_agg_func. rewrite (proj2 Hk). simpl in Ha.
    decide_texts. c_step. c_step. c_step. c_step.
    rewrite Hpct. unfold of_option. rewrite P_bind_eq. cbn [mret P_ret].
    rewrite H1, H2. cbn [orb]. do 2 c_step. c_done.
Qed.

Lemma d_opt_head s ts rest {A} (R : list Token → A → Prop) o :
  d_opt R ts o → (∀ ts a, R ts a → ∃ t l, ts = t :: l ∧ kw s t) →
  next_not_kw s rest →
  match ts ++ rest with
  | t :: _ => is_keyword s t = match o with Some _ => true | None => false end
  | [] => False
  end.
Proof.
  intros Ho Hh Hr. destruct Ho as [|ts a Ha]; simpl; [by destruct rest|].
  destruct (Hh _ _ Ha) as (t & l & -> & Hk). simpl. by apply is_keyword_spec.
Qed.

Lemma d_filter_head ts f : d_filter ts f → ∃ t l, ts = t :: l ∧ kw (lit "where") t.
Proof. destruct 1. eauto. Qed.

Lemma d_window_head ts f : d_window ts f → ∃ t l, ts = t :: l ∧ kw (lit "within") t.
Proof. destruct 1. eauto. Qed.

(** Only the end of input follows an expression. *)
Definition at_eof (l : list Token) : Prop := match l with [] => False | t :: _ => tok Eof t end.

Lemma at_eof_next_not_kw s l : at_eof l → next_not_kw s l.
Proof. destruct l; [done|]. unfold at_eof, tok. intros ?. apply kind_next_not. congruence. Qed.

Lemma opt_window_next s ts w rest :
  s ≠ lit "within" → d_opt d_window ts w → at_eof rest → next_not_kw s (ts ++ rest).
Proof.
  intros Hs Ho Hr. destruct Ho as [|ts a Hw]; [by apply at_eof_next_not_kw|].
  destruct (d_window_head _ _ Hw) as (t & l & -> & Hk). by apply (kw_next_not (lit "within")).
Qed.

Lemma optional_accepts {A} (R : list Token → A → Prop) s (m : P A) p ts o t l rest :
  d_opt R ts o → ahead p = ts ++ rest → ts ++ rest = t :: l →
  is_keyword s t = match o with Some _ => true | None => false end →
  (∀ a, R ts a → m p = Ok (a, jump p (length ts))) →
  (if is_keyword s t then a ← m; mret (Some a) else mret None) p = Ok (o, jump p (length ts)).
Proof.
  intros Ho Ha Heq -> Hm. destruct Ho as [|ts a Hr].
  - simpl. by rewrite jump_0.
  - erewrite accept_bind by (by apply Hm). done.
Qed.

Lemma d_agg_func_head ts r : d_agg_func ts r → ∃ t l, ts = t :: l ∧ tok Keyword t.
Proof. destruct 1 as [t v f [Hk _] _|t lp n rp pct [Hk _]]; eauto. Qed.

Lemma parse_aggregation_accepts n p ts a rest :
  d_aggregation ts a → ahead p = ts ++ rest → at_eof rest → 4 * remaining p + 1 ≤ n →
  parse_aggregation n p = Ok (a, jump p (length ts)).
Proof.
  intros Hd Ha Hf Hn. unfold parse_aggregation.
  destruct Hd as [t ts0 fn pct lp ts1 src rp ts2 f ts3 w Hfn Hlp Hsrc Hrp Hfil Hwin].
  destruct (d_agg_func_head _ _ Hfn) as (t' & l' & [= <- <-] & Hk).
  simpl in Ha. rewrite <- !app_assoc in Ha. simpl in Ha. rewrite <- !app_assoc in Ha.
  simpl in Ha. rewrite <- !app_assoc in Ha.
  c_step. c_step.
  erewrite accept_bind by (by eapply parse_agg_func_accepts).
  pose proof (ahead_jump p (t :: ts0) _ Ha) as Ha0. c_norm. c_step.
  assert (next_not [Dot] (rp :: ts2 ++ ts3 ++ rest)) as Hnd.
  { simpl. rewrite list_elem_of_singleton. by rewrite Hrp. }
  c_sub parse_source_accepts Ha1. c_step.
  pose proof (d_opt_head _ _ _ _ _ Hfil d_filter_head
                (opt_window_next "where" _ _ _ ltac:(done) Hwin Hf)) as Hh2.
  pose proof (d_opt_head _ _ _ _ _ Hwin d_window_head (at_eof_next_not_kw "within" _ Hf)) as Hh3.
  destruct (ts2 ++ ts3 ++ rest) as [|tf l2] eqn:E2; [done|]. c_step.
  rewrite <- E2 in Ha3.
  match type of Ha3 with ahead ?q = _ =>
    assert (4 * remaining q + 1 ≤ n) as Hn' by c_lia
  end.
  erewrite accept_bind
    by (eapply (optional_accepts d_filter); [exact Hfil|exact Ha3|exact E2|exact Hh2|];
        intros f' Hf'; eapply parse_filter_accepts; [done|exact Ha3| |exact Hn'];
        by apply (opt_window_next _ _ w)).
  pose proof (ahead_jump _ _ _ Ha3) as Ha4. c_norm.
  destruct (ts3 ++ rest) as [|tw l3] eqn:E3; [done|]. c_step. rewrite <- E3 in Ha4.
  erewrite accept_bind
    by (eapply (optional_accepts d_window); [exact Hwin|exact Ha4|exact E3|exact Hh3|];
        intros w' Hw'; by eapply parse_window_accepts).
  c_norm. c_done.
Qed.

Ltac kinds_differ :=
  let E := fresh "E" in
  intros E; repeat (apply elem_of_cons in E as [E|E]; [discriminate E|]);
  by apply elem_of_nil in E.

(** Follow sets of the expression productions. *)
Definition sum_next : list Token → Prop := next_not [Plus; Minus; Star; Slash].
Definition product_next : list Token → Prop := next_not [Star; Slash].

Lemma sum_next_product l : sum_next l → product_next l.
Proof. destruct l as [|t l]; [done|]. simpl. rewrite !not_elem_of_cons. tauto. Qed.

Lemma tok_next_not k ks t l : tok k t → k ∉ ks → next_not ks (t :: l).
Proof. simpl. by intros ->. Qed.

Lemma sums_next l ts n rest : d_sums l ts n → sum_next rest → product_next (ts ++ rest).
Proof.
  destruct 1; intros Hr; [by apply sum_next_product|..];
    (eapply tok_next_not; [eassumption|kinds_differ]).
Qed.

Lemma products_next l ts n rest : d_products l ts n → product_next rest → any_next (ts ++ rest).
Proof. destruct 1; intros Hr; [by eapply next_not_any|apply any_next_cons..]. Qed.

Lemma d_factor_head ts n :
  d_factor ts n → ∃ t l, ts = t :: l ∧ is_kind Minus t = false.
Proof.
  destruct 1 as [ts m Hm|t v Ht _|lp ts n rp Hlp _ _|ts r Hr].
  - destruct Hm as [a i Ha _]. eexists _, _. split; [done|]. by apply (is_kind_false At).
  - eexists _, _. split; [done|]. by apply (is_kind_false Number).
  - eexists _, _. split; [done|]. by apply (is_kind_false LParen).
  - destruct Hr as [r ? ? ? ? ? ? ? [Hk _]]. eexists _, _. split; [done|].
    by apply (is_kind_false Keyword).
Qed.

(** The two operator loops take one more operand. *)
Lemma composite_loop_step n p l o op r rest ts p' :
  is_kind Plus o || is_kind Minus o = true → (if is_kind Plus o then Add else Sub) = op →
  ahead p = o :: ts ++ rest → parse_term n (jump p 1) = Ok (r, p') →
  composite_loop (S n) l p = composite_loop n (binary op l r) p'.
Proof.
  intros Hk Hop Ha Hr. cbn [composite_loop]. c_step. rewrite Hk, Hop. c_step.
  by rewrite (accept_bind _ _ _ _ _ Hr).
Qed.

Lemma term_loop_step n p l o op r rest ts p' :
  is_kind Star o || is_kind Slash o = true → (if is_kind Star o then Mul else Div) = op →
  ahead p = o :: ts ++ rest → parse_unary n (jump p 1) = Ok (r, p') →
  term_loop (S n) l p = term_loop n (binary op l r) p'.
Proof.
  intros Hk Hop Ha Hr. cbn [term_loop]. c_step. rewrite Hk, Hop. c_step.
  by rewrite (accept_bind _ _ _ _ _ Hr).
Qed.

(** [run_ok F need m ts a]: the statement proved of each expression production. *)
Definition run_ok {A} (F : list Token → Prop) (need : nat) (m : nat → P A)
    (ts : list Token) (a : A) : Prop :=
  ∀ n p rest, ahead p = ts ++ rest → F rest → 8 * remaining p + need ≤ n →
    m n p = Ok (a, jump p (length ts)).

Lemma sums_ok_step l o op ts r ts' n :
  is_kind Plus o || is_kind Minus o = true → (if is_kind Plus o then Add else Sub) = op →
  run_ok product_next 4 parse_term ts r → d_sums (binary op l r) ts' n →
  run_ok sum_next 5 (λ k, composite_loop k (binary op l r)) ts' n →
  run_ok sum_next 5 (λ k, composite_loop k l) (o :: ts ++ ts') n.
Proof.
  intros Hk Hop IHt Hs IHs m p rest Ha Hf Hn. simpl in Ha. rewrite <- app_assoc in Ha.
  pose proof (ahead_jump1 _ _ _ Ha) as Ha1. pose proof (ahead_jump _ _ _ Ha1) as Ha2.
  destruct m as [|m]; [c_lia|].
  erewrite composite_loop_step; [|done|done|exact Ha|].
  - rewrite IHs; [|exact Ha2|done|c_lia]. rewrite !jump_jump. apply mret_jump. len_lia.
  - apply (IHt m _ (ts' ++ rest)); [exact Ha1|by eapply sums_next|c_lia].
Qed.

Lemma products_ok_step l o op ts r ts' n :
  is_kind Star o || is_kind Slash o = true → (if is_kind Star o then Mul else Div) = op →
  run_ok any_next 2 parse_unary ts r → d_products (binary op l r) ts' n →
  run_ok product_next 3 (λ k, term_loop k (binary op l r)) ts' n →
  run_ok product_next 3 (λ k, term_loop k l) (o :: ts ++ ts') n.
Proof.
  intros Hk Hop IHt Hs IHs m p rest Ha Hf Hn. simpl in Ha. rewrite <- app_assoc in Ha.
  pose proof (ahead_jump1 _ _ _ Ha) as Ha1. pose proof (ahead_jump _ _ _ Ha1) as Ha2.
  destruct m as [|m]; [c_lia|].
  erewrite term_loop_step; [|done|done|exact Ha|].
  - rewrite IHs; [|exact Ha2|done|c_lia]. rewrite !jump_jump. apply mret_jump. len_lia.
  - apply (IHt m _ (ts' ++ rest)); [exact Ha1|by eapply products_next|c_lia].
Qed.

Lemma factor_ok_parens lp ts n rp :
  tok LParen lp → tok RParen rp → run_ok sum_next 6 parse_composite ts n →
  run_ok any_next 1 parse_factor (lp :: ts ++ [rp])
    (restamp_span n (span_from_to (span lp) (span rp))).
Proof.
  intros Hlp Hrp IH m p rest Ha Hf Hn. simpl in Ha. rewrite <- app_assoc in Ha.
  destruct m as [|m]; [c_lia|]. cbn [parse_factor]. c_step. rewrite Hlp. c_step.
  erewrite accept_bind by (apply (IH m _ (rp :: rest)); [exact Ha0| |c_lia];
    eapply tok_next_not; [exact Hrp|kinds_differ]).
  pose proof (ahead_jump _ _ _ Ha0) as Ha2. c_norm. c_step. c_done.
Qed.

Lemma factor_ok_ref ts m :
  d_metric_ref ts m → run_ok any_next 1 parse_factor ts (NMetricRef m).
Proof.
  intros Hm n p rest Ha Hf Hn. destruct n as [|n]; [lia|]. cbn [parse_factor].
  pose proof (parse_metric_ref_accepts p ts m rest Hm Ha Hf) as Hrun.
  destruct Hm as [a i Hat Hi]. simpl in Ha. c_step. rewrite Hat.
  by rewrite (accept_bind _ _ _ _ _ Hrun).
Qed.

Lemma factor_ok_number t v :
  tok Number t → f64_parse (value t) = Some v →
  run_ok any_next 1 parse_factor [t] (NLiteral (mk_literal v (span t))).
Proof.
  intros Ht Hv n p rest Ha Hf Hn. destruct n as [|n]; [lia|]. cbn [parse_factor].
  simpl in Ha. c_step. rewrite Ht. c_step. by rewrite Hv.
Qed.

Lemma factor_ok_ratio ts r : d_ratio ts r → run_ok any_next 1 parse_factor ts (NRatio r).
Proof.
  intros Hr n p rest Ha Hf Hn. destruct n as [|n]; [lia|]. cbn [parse_factor].
  pose proof (parse_ratio_accepts p ts r rest Hr Ha Hf) as Hrun.
  destruct Hr as [r lp ts1 m1 c ts2 m2 rp [Hk Hval] Hlp Hm1 Hc Hm2 Hrp].
  simpl in Ha. c_step. rewrite Hk, Hval, bool_decide_true by done.
  by rewrite (accept_bind _ _ _ _ _ Hrun).
Qed.

Lemma expr_accepts :
  (∀ ts n, d_composite ts n → run_ok sum_next 6 parse_composite ts n) ∧
  (∀ l ts n, d_sums l ts n → run_ok sum_next 5 (λ k, composite_loop k l) ts n) ∧
  (∀ ts n, d_term ts n → run_ok product_next 4 parse_term ts n) ∧
  (∀ l ts n, d_products l ts n → run_ok product_next 3 (λ k, term_loop k l) ts n) ∧
  (∀ ts n, d_unary ts n → run_ok any_next 2 parse_unary ts n) ∧
  (∀ ts n, d_factor ts n → run_ok any_next 1 parse_factor ts n).
Proof.
  apply d_expr_ind.
  - intros ts l ts' n Ht IHt Hs IHs m p rest Ha Hf Hn. rewrite <- app_assoc in Ha.
    destruct m as [|m]; [lia|]. cbn [parse_composite].
    pose proof (ahead_jump _ _ _ Ha) as Ha1.
    rewrite (accept_bind _ _ _ _ _ (IHt m p _ Ha (sums_next _ _ _ _ Hs Hf) ltac:(lia))).
    rewrite IHs; [|exact Ha1|done|c_lia]. rewrite jump_jump. apply mret_jump. len_lia.
  - intros l m p rest Ha Hf Hn. destruct m as [|m]; [lia|]. simpl in Ha.
    cbn [composite_loop]. destruct rest as [|t rest]; [done|]. c_step.
    unfold sum_next in Hf. rewrite (next_not_is_kind Plus _ _ _ Hf), (next_not_is_kind Minus _ _ _ Hf) by set_solver.
    by rewrite jump_0.
  - intros l o ts r ts' n Ho Ht IHt Hs IHs. unfold tok in Ho.
    eapply sums_ok_step; eauto; unfold is_kind; by rewrite Ho.
  - intros l o ts r ts' n Ho Ht IHt Hs IHs. unfold tok in Ho.
    eapply sums_ok_step; eauto; unfold is_kind; by rewrite Ho.
  - intros ts l ts' n Ht IHt Hs IHs m p rest Ha Hf Hn. rewrite <- app_assoc in Ha.
    destruct m as [|m]; [lia|]. cbn [parse_term].
    pose proof (ahead_jump _ _ _ Ha) as Ha1.
    rewrite (accept_bind _ _ _ _ _ (IHt m p _ Ha (products_next _ _ _ _ Hs Hf) ltac:(lia))).
    rewrite IHs; [|exact Ha1|done|c_lia]. rewrite jump_jump. apply mret_jump. len_lia.
  - intros l m p rest Ha Hf Hn. destruct m as [|m]; [lia|]. simpl in Ha.
    cbn [term_loop]. destruct rest as [|t rest]; [done|]. c_step.
    unfold product_next in Hf. rewrite (next_not_is_kind Star _ _ _ Hf), (next_not_is_kind Slash _ _ _ Hf) by set_solver.
    by rewrite jump_0.
  - intros l o ts r ts' n Ho Ht IHt Hs IHs. unfold tok in Ho.
    eapply products_ok_step; eauto; unfold is_kind; by rewrite Ho.
  - intros l o ts r ts' n Ho Ht IHt Hs IHs. unfold tok in Ho.
    eapply products_ok_step; eauto; unfold is_kind; by rewrite Ho.
  - intros mt ts n Ho Hd IH m p rest Ha Hf Hn. destruct m as [|m]; [lia|].
    cbn [parse_unary]. simpl in Ha. do 3 c_step.
    rewrite (accept_bind _ _ _ _ _ (IH m _ rest Ha0 Hf ltac:(c_lia))). c_norm. c_done.
  - intros ts n Hd IH m p rest Ha Hf Hn. destruct m as [|m]; [lia|].
    cbn [parse_unary]. pose proof Ha as Ha'.
    destruct (d_factor_head _ _ Hd) as (t & l & -> & Ht). simpl in Ha'. c_step. rewrite Ht.
    by apply (IH m p rest); [..|lia].
  - intros. by apply factor_ok_ref.
  - intros. by apply factor_ok_number.
  - intros. by apply factor_ok_parens.
  - intros. by apply factor_ok_ratio.
Qed.

(** The first token of an expression. *)
Definition starts_composite (ts : list Token) : Prop :=
  ∃ t l, ts = t :: l ∧ (kind t ∈ [At; LParen; Number; Minus] ∨ kw (lit "ratio") t).

Lemma starts_kind k ks l t :
  tok k t → k ∈ [At; LParen; Number; Minus] → ks = t :: l → starts_composite ks.
Proof. intros Ht Hk ->. exists t, l. split; [done|]. left. by rewrite Ht. Qed.

Lemma d_factor_starts ts n : d_factor ts n → starts_composite ts.
Proof.
  destruct 1 as [ts m Hm|t v Ht _|lp ts n rp Hlp _ _|ts r Hr].
  - destruct Hm as [a i Ha _]. eapply starts_kind; [exact Ha|set_solver|done].
  - eapply starts_kind; [exact Ht|set_solver|done].
  - eapply starts_kind; [exact Hlp|set_solver|done].
  - destruct Hr. eexists _, _. split; [done|]. by right.
Qed.

Lemma starts_app ts ts' : starts_composite ts → starts_composite (ts ++ ts').
Proof. intros (t & l & -> & Hk). by exists t, (l ++ ts'). Qed.

Lemma d_composite_head ts n : d_composite ts n → starts_composite ts.
Proof.
  destruct 1 as [ts l ts' n Ht _]. apply starts_app.
  destruct Ht as [ts l ts1 n1 Hu _]. apply starts_app.
  destruct Hu as [m ts n2 Hm _|ts n2 Hf]; [|by eapply d_factor_starts].
  eapply starts_kind; [exact Hm|set_solver|done].
Qed.

Lemma at_eof_sum_next l : at_eof l → sum_next l.
Proof. destruct l as [|t l]; [done|]. intros Ht. eapply tok_next_not; [exact Ht|kinds_differ]. Qed.

Lemma parse_expression_accepts n p ts e rest :
  d_expression ts e → ahead p = ts ++ rest → at_eof rest → 8 * remaining p + 6 ≤ n →
  parse_expression n p = Ok (e, jump p (length ts)).
Proof.
  intros Hd Ha Hf Hn. unfold parse_expression. destruct Hd as [ts a Hagg|ts e Hc].
  - assert (∃ t l v f, ts = t :: l ∧ kw v t ∧
              v ∈ [lit "mean"; lit "sum"; lit "count"; lit "count_distinct";
                   lit "proportion"; lit "percentile"] ∧ (f : AggFunc) = f)
      as (t & l & v & f & -> & Hk & Hv & _).
    { destruct Hagg as [t ts0 fn pct lp ts1 src rp ts2 f ts3 w Hfn _ _ _ _ _].
      inversion Hfn as [t' v f' Hk Hin|t' ? ? ? ? Hk]; subst; simpl;
        eexists _, _, _, Mean; (split_and!; [done|exact Hk| |done]); [|set_solver].
      unfold plain_agg in Hin. set_solver. }
    pose proof Ha as Ha'. simpl in Ha'. c_step. destruct Hk as [Hk ->].
    unfold is_kind at 1. rewrite bool_decide_true by done.
    unfold is_agg_keyword. rewrite bool_decide_true by done.
    rewrite (accept_bind _ _ _ _ _
               (parse_aggregation_accepts n p _ _ rest Hagg Ha Hf ltac:(lia))). done.
  - pose proof (proj1 expr_accepts _ _ Hc n p rest Ha (at_eof_sum_next _ Hf) Hn) as Hrun.
    destruct (d_composite_head _ _ Hc) as (t & l & -> & Hk). simpl in Ha. c_step.
    destruct Hk as [Hk|[Hk Hv]].
    + unfold is_kind at 1.
      repeat (apply elem_of_cons in Hk as [Hk|Hk]; [by rewrite Hk|]).
      by apply elem_of_nil in Hk.
    + unfold is_kind at 1. rewrite bool_decide_true by done. rewrite Hv.
      unfold is_agg_keyword. decide_texts. done.
Qed.

(** ** Whole token streams *)

(** A token stream as the lexer makes it: [Eof] last and nowhere else. *)
Definition stream (body : list Token) (e : Token) : list Token := body ++ [e].
Definition no_eof (body : list Token) : Prop := Forall (λ t, kind t ≠ Eof) body.

Lemma stream_wf body e : tok Eof e → wf (mk_parser (stream body e) 0).
Proof.
  intros He. split; simpl; [unfold stream; rewrite length_app; simpl; lia|].
  exists e. split; [|done]. apply last_snoc.
Qed.

Lemma stream_remaining body e : remaining (mk_parser (stream body e) 0) = length (stream body e).
Proof. unfold remaining, ahead. simpl. by rewrite drop_0. Qed.

Lemma fuel_enough body e :
  8 * remaining (mk_parser (stream body e) 0) + 6 ≤ fuel_for (stream body e).
Proof. rewrite stream_remaining. unfold fuel_for. lia. Qed.

Lemma parse_tokens_returns body e : tok Eof e → returns (parse_tokens (stream body e)).
Proof.
  intros He. pose proof (parse_expression_yields _ _ (stream_wf body e He) (fuel_enough body e)) as Hy.
  unfold parse_tokens, yields in *.
  destruct (parse_expression _ _) as [[n p']| | |]; simpl; try done.
  destruct Hy as (ts & _ & Hw & _). destruct (wf_head p' Hw) as (t & Ht & _).
  unfold peek. rewrite Ht. simpl. by destruct (is_kind Eof t).
Qed.

(** The only [Eof] of a stream is its last token. *)
Lemma stream_split body e ts t l :
  no_eof body → stream body e = ts ++ t :: l → tok Eof t → ts = body.
Proof.
  unfold stream. intros Hb Heq Ht.
  assert (¬ length ts < length body) as Hge.
  { intros Hlt. apply (Forall_lookup_1 _ _ (length ts) t Hb); [|done].
    rewrite <- (lookup_app_l body [e]) by done.
    by rewrite Heq, lookup_app_r, Nat.sub_diag by lia. }
  assert (length ts = length body) as Hlen.
  { apply (f_equal length) in Heq. rewrite !length_app in Heq. simpl in Heq. lia. }
  by apply app_inj_1 in Heq as [<- _].
Qed.

Lemma parse_tokens_sound body e n :
  no_eof body → tok Eof e → parse_tokens (stream body e) = Ok n → d_expression body n.
Proof.
  intros Hb He Hp. pose proof (parse_expression_yields _ _ (stream_wf body e He) (fuel_enough body e)) as Hy.
  unfold parse_tokens, yields in *.
  destruct (parse_expression _ _) as [[n' p']| | |]; simpl in Hp; try done.
  destruct Hy as (ts & (_ & Hc & _) & Hw & Hd).
  destruct (wf_head p' Hw) as (t & Ht & Hat). unfold peek in Hp. rewrite Ht in Hp. simpl in Hp.
  destruct (is_kind Eof t) eqn:Hk; simplify_eq/=. apply is_kind_spec in Hk.
  unfold ahead in Hc at 1. simpl in Hc. rewrite drop_0, Hat in Hc.
  by rewrite <- (stream_split body e ts t _ Hb Hc Hk).
Qed.

Lemma parse_tokens_complete body e n :
  tok Eof e → d_expression body n → parse_tokens (stream body e) = Ok n.
Proof.
  intros He Hd. unfold parse_tokens.
  assert (ahead (mk_parser (stream body e) 0) = body ++ [e]) as Ha
    by (unfold ahead; simpl; by rewrite drop_0).
  rewrite (parse_expression_accepts _ _ _ _ [e] Hd Ha He (fuel_enough body e)). simpl.
  unfold peek, jump. simpl. unfold stream. rewrite lookup_app_r, Nat.sub_diag by lia. simpl.
  by rewrite (proj2 (is_kind_spec Eof e) He).
Qed.

(** The token stream of a source, split at its [Eof]. *)
Lemma tokenize_stream src ts :
  valid_utf8 src = true → tokenize src = Ok ts →
  ∃ body e, ts = stream body e ∧ tok Eof e ∧ no_eof body.
Proof.
  intros Hv Ht. pose proof (tokenize_ok_lexes _ _ Hv Ht) as Hl.
  destruct (lexes_last_eof _ _ _ Hl) as [body ->]. eexists body, _. split_and!; [done..|].
  apply Forall_lookup_2. intros i t Hi Hk.
  pose proof (lookup_lt_Some _ _ _ Hi) as Hlt.
  rewrite <- (lookup_app_l body [mk_token Eof [] (mk_span (0 + length src) (0 + length src))])
    in Hi by done.
  apply (lexes_eof_only_last _ _ _ _ _ Hl) in Hi; [|done].
  rewrite length_app in Hi. simpl in Hi. lia.
Qed.

Lemma parse_as_tokens src ts : tokenize src = Ok ts → parse src = parse_tokens ts.
Proof. intros Ht. unfold parse. by rewrite Ht. Qed.

Lemma parse_ok_derivation src n :
  valid_utf8 src = true → parse src = Ok n →
  ∃ body e, tokenize src = Ok (stream body e) ∧ tok Eof e ∧ no_eof body ∧ d_expression body n.
Proof.
  intros Hv Hp. destruct (tokenize src) as [ts|e| |] eqn:Ht;
    try (unfold parse in Hp; rewrite Ht in Hp; discriminate).
  destruct (tokenize_stream _ _ Hv Ht) as (body & e & -> & He & Hb).
  exists body, e. split_and!; [done..|]. rewrite (parse_as_tokens _ _ Ht) in Hp.
  by eapply parse_tokens_sound.
Qed.

(** [C3] The parser implements its grammar: on well-formed source text [parse]
    succeeds with a tree exactly when the lexer's tokens derive that tree
    (structure, associativity, values and spans) in the documented grammar. *)
Theorem parse_iff_grammar src n :
  valid_utf8 src = true →
  (parse src = Ok n ↔
   ∃ body e, tokenize src = Ok (stream body e) ∧ tok Eof e ∧ d_expression body n).
Proof.
  intros Hv. split.
  - intros Hp. destruct (parse_ok_derivation _ _ Hv Hp) as (body & e & ? & ? & _ & ?). eauto.
  - intros (body & e & Ht & He & Hd). rewrite (parse_as_tokens _ _ Ht).
    by apply parse_tokens_complete.
Qed.

Lemma parse_iff_grammar_witness :
  ∃ n body e, parse (lit "-@a - 2 * ratio(@b, @c)") = Ok n ∧
    tokenize (lit "-@a - 2 * ratio(@b, @c)") = Ok (stream body e) ∧ tok Eof e ∧
    d_expression body n.
Proof.
  destruct (parse (lit "-@a - 2 * ratio(@b, @c)")) as [n| | |] eqn:Hp;
    try (vm_compute in Hp; discriminate).
  exists n. pose proof Hp as Hd. apply parse_iff_grammar in Hd; [|vm_compute; reflexivity].
  destruct Hd as (body & e & H). exists body, e. split; [reflexivity|exact H].
Defined.

Lemma parse_returns src : valid_utf8 src = true → returns (parse src).
Proof.
  intros Hv. destruct (tokenize src) as [ts|e| |] eqn:Ht.
  - destruct (tokenize_stream _ _ Hv Ht) as (body & e & -> & He & _).
    rewrite (parse_as_tokens _ _ Ht). by apply parse_tokens_returns.
  - unfold parse. by rewrite Ht.
  - destruct (lexes_total 0 src) as [r Hr].
    rewrite (lexes_tokenize _ _ Hv Hr) in Ht. by destruct r.
  - destruct (lexes_total 0 src) as [r Hr].
    rewrite (lexes_tokenize _ _ Hv Hr) in Ht. by destruct r.
Qed.

(** Parsing is total: on well-formed text [parse] returns a tree or an
    error; no token access is out of range, no slice panics, and the fuel never
    runs out, however deeply the source nests. *)
Theorem parse_total src : valid_utf8 src = true → returns (parse src).
Proof. apply parse_returns. Qed.

Lemma parse_total_witness : returns (parse (lit "mean(x.y) where p in [[1, 'a'], 2")).
Proof. apply parse_total. vm_compute. reflexivity. Defined.
