(* ===== verification/Analyze.v ===== *)
(** MetricQL semantic analysis and entry points ([validators/metricql/analyze.rs],
    [diagnostic.rs], [mod.rs]): the collect-all walk over the tree, the extraction
    of metric references, [validate_metricql] and [parse_only]. *)
From Stdlib Require Import Ascii String SpecFloat.
From S2P Require Import Prelude Bytes F64 Ast Lexer Parser Grammar ParserSpec.

(** ** Diagnostics *)

Inductive Severity := SevError | SevWarning.

(** The texts of the analyzer, one constructor per message, with the values it
    interpolates; [FrontEnd] carries a lexer or parser message. *)
Inductive DiagMessage :=
| FrontEnd (m : ParseMessage)
| BareMetricRef
| BareLiteral
| InvalidEventType (ev : str)
| InvalidField (field : str)
| PercentileOutOfRange (p : f64)
| FieldNotAllowed (fn_name field ev : str)
| FieldRequired (fn_name ev : str)
| InvalidNamespace (ns : str)
| InvalidFieldName (name : str)
| InvalidMetricRef (id : str)
| UnknownMetricRef (id : str).

Record Diagnostic := mk_diagnostic
  { severity : Severity; message : DiagMessage; diag_span : Span }.

(** [Diagnostic::error]. *)
Definition error (sp : Span) (m : DiagMessage) : Diagnostic := mk_diagnostic SevError m sp.

(** ** Analyzer *)

(** [AnalyzeContext]: [None] skips the existence checks. *)
Definition AnalyzeContext : Type := option (gset str).

(** [identifier_re()]: the pattern [^[a-z_][a-z0-9_]*$]. *)
Definition identifier_re (s : str) : bool :=
  match s with c :: t => is_ident_start c && forallb is_ident_char t | [] => false end.

Definition agg_func_name (f : AggFunc) : str :=
  match f with
  | Mean => lit "mean" | Sum => lit "sum" | Count => lit "count"
  | CountDistinct => lit "count_distinct" | Proportion => lit "proportion"
  | Percentile => lit "percentile" | AggUnknown => lit "unknown"
  end.

Definition is_empty (s : str) : bool := match s with [] => true | _ => false end.

(** [if cond { diags.push(d) }] *)
Definition push_if (cond : bool) (d : Diagnostic) (diags : list Diagnostic) : list Diagnostic :=
  if cond then diags ++ [d] else diags.

Definition analyze_predicate (pred : Predicate) (diags : list Diagnostic) : list Diagnostic :=
  let f := pr_field pred in
  let diags := push_if (negb (is_empty (namespace f)) && negb (identifier_re (namespace f)))
                 (error (pr_span pred) (InvalidNamespace (namespace f))) diags in
  push_if (negb (identifier_re (fname f)))
    (error (pr_span pred) (InvalidFieldName (fname f))) diags.

Definition analyze_filter (f : Filter) (diags : list Diagnostic) : list Diagnostic :=
  fold_left (λ ds pred, analyze_predicate pred ds) (predicates f) diags.

Definition takes_no_field (f : AggFunc) : bool :=
  match f with Count | Proportion => true | _ => false end.
Definition needs_field (f : AggFunc) : bool :=
  match f with Mean | Sum | CountDistinct | Percentile => true | _ => false end.

Definition analyze_aggregation (a : Aggregation) (ctx : AnalyzeContext)
    (diags : list Diagnostic) : list Diagnostic :=
  let src := agg_source a in
  let fn := agg_func_name (agg_func a) in
  let diags := push_if (negb (identifier_re (event_type src)))
                 (error (src_span src) (InvalidEventType (event_type src))) diags in
  let diags := push_if (negb (is_empty (src_field src)) && negb (identifier_re (src_field src)))
                 (error (src_span src) (InvalidField (src_field src))) diags in
  let diags := push_if (bool_decide (agg_func a = Percentile)
                        && (f64_le (agg_percentile a) f64_zero
                            || f64_ge (agg_percentile a) (f64_of_Z 100)))
                 (error (agg_span a) (PercentileOutOfRange (agg_percentile a))) diags in
  let diags := push_if (takes_no_field (agg_func a) && negb (is_empty (src_field src)))
                 (error (src_span src) (FieldNotAllowed fn (src_field src) (event_type src))) diags in
  let diags := push_if (needs_field (agg_func a) && is_empty (src_field src))
                 (error (src_span src) (FieldRequired fn (event_type src))) diags in
  match agg_filter a with Some f => analyze_filter f diags | None => diags end.

Definition analyze_metric_ref (m : MetricRef) (ctx : AnalyzeContext)
    (diags : list Diagnostic) : list Diagnostic :=
  if negb (identifier_re (mr_id m))
  then diags ++ [error (mr_span m) (InvalidMetricRef (mr_id m))]
  else match ctx with
  | Some known =>
      push_if (negb (bool_decide (mr_id m ∈ known)))
        (error (mr_span m) (UnknownMetricRef (mr_id m))) diags
  | None => diags
  end.

Definition analyze_ratio (r : Ratio) (ctx : AnalyzeContext) (diags : list Diagnostic) :
    list Diagnostic :=
  analyze_metric_ref (denominator r) ctx (analyze_metric_ref (numerator r) ctx diags).

Fixpoint analyze_node (n : Node) (ctx : AnalyzeContext) (diags : list Diagnostic) :
    list Diagnostic :=
  match n with
  | NAggregation a => analyze_aggregation a ctx diags
  | NComposite _ l r _ => analyze_node r ctx (analyze_node l ctx diags)
  | NNegate x _ => analyze_node x ctx diags
  | NMetricRef m => analyze_metric_ref m ctx diags
  | NLiteral _ => diags
  | NRatio r => analyze_ratio r ctx diags
  end.

Definition analyze (root : Node) (ctx : AnalyzeContext) : list Diagnostic :=
  match root with
  | NMetricRef m => [error (mr_span m) BareMetricRef]
  | NLiteral l => [error (lit_span l) BareLiteral]
  | _ => analyze_node root ctx []
  end.

Fixpoint collect_refs (n : Node) (seen : gset str) : gset str :=
  match n with
  | NAggregation _ => seen
  | NComposite _ l r _ => collect_refs r (collect_refs l seen)
  | NNegate x _ => collect_refs x seen
  | NMetricRef m => {[mr_id m]} ∪ seen
  | NLiteral _ => seen
  | NRatio r => {[mr_id (denominator r)]} ∪ ({[mr_id (numerator r)]} ∪ seen)
  end.

Definition extract_metric_refs (root : Node) : list str :=
  sort_strs (elements (collect_refs root ∅)).

(** ** Entry points *)

Definition diag_of_lex (e : LexError) : list Diagnostic :=
  [error (le_span e) (FrontEnd (FromLexer (le_message e)))].
Definition diag_of_parse (e : ParseError) : list Diagnostic :=
  [error (pe_span e) (FrontEnd (pe_message e))].

Definition validate_metricql (source : str) (ctx : AnalyzeContext) :
    result (list Diagnostic) (list str) :=
  tokens ← map_err diag_of_lex (tokenize source);
  ast ← map_err diag_of_parse (parse_tokens tokens);
  let diags := analyze ast ctx in
  if negb (bool_decide (length diags = 0)) then Err diags
  else Ok (extract_metric_refs ast).

Definition parse_only (source : str) : result Diagnostic Node :=
  map_err (λ e, error (pe_span e) (FrontEnd (pe_message e))) (parse source).

(** ** Specification *)

(** The metric references of a tree, in source order. *)
Fixpoint node_refs (n : Node) : list MetricRef :=
  match n with
  | NAggregation _ | NLiteral _ => []
  | NComposite _ l r _ => node_refs l ++ node_refs r
  | NNegate x _ => node_refs x
  | NMetricRef m => [m]
  | NRatio r => [numerator r; denominator r]
  end.

(** The aggregations of a tree. *)
Fixpoint node_aggs (n : Node) : list Aggregation :=
  match n with
  | NAggregation a => [a]
  | NComposite _ l r _ => node_aggs l ++ node_aggs r
  | NNegate x _ => node_aggs x
  | _ => []
  end.

Definition opt_identifier (s : str) : Prop := s = [] ∨ identifier_re s = true.

Definition field_ref_ok (f : FieldRef) : Prop :=
  opt_identifier (namespace f) ∧ identifier_re (fname f) = true.

Definition source_ok (f : AggFunc) (s : Source) : Prop :=
  identifier_re (event_type s) = true ∧ opt_identifier (src_field s) ∧
  (takes_no_field f = true → src_field s = []) ∧ (needs_field f = true → src_field s ≠ []).

Definition percentile_ok (f : AggFunc) (p : f64) : Prop :=
  f = Percentile → f64_le p f64_zero = false ∧ f64_ge p (f64_of_Z 100) = false.

Definition aggregation_ok (a : Aggregation) : Prop :=
  source_ok (agg_func a) (agg_source a) ∧ percentile_ok (agg_func a) (agg_percentile a) ∧
  match agg_filter a with
  | Some f => Forall (λ p, field_ref_ok (pr_field p)) (predicates f)
  | None => True
  end.

Definition metric_ref_ok (ctx : AnalyzeContext) (m : MetricRef) : Prop :=
  identifier_re (mr_id m) = true ∧
  match ctx with Some known => mr_id m ∈ known | None => True end.

Definition is_bare (n : Node) : bool :=
  match n with NMetricRef _ | NLiteral _ => true | _ => false end.

(** A tree the analyzer accepts. *)
Definition semantically_ok (ctx : AnalyzeContext) (n : Node) : Prop :=
  is_bare n = false ∧ Forall aggregation_ok (node_aggs n) ∧
  Forall (metric_ref_ok ctx) (node_refs n).
