(* ===== verification/AnalyzeSpec.v ===== *)
(** MetricQL semantics: what the analyzer reports and what [validate_metricql]
    accepts and returns, stated on the tree, the tokens and the grammar. *)
From Stdlib Require Import Ascii String SpecFloat.
From stdpp Require Import sorting.
From S2P Require Import Prelude Bytes F64 Ast Lexer Parser Grammar ParserSpec Analyze.

(** ** The walk collects every diagnostic *)

Lemma push_if_app c d ds : push_if c d ds = ds ++ push_if c d [].
Proof. destruct c; simpl; by rewrite ?app_nil_r. Qed.

Lemma push_if_tail c d ds x : push_if c d (ds ++ x) = ds ++ push_if c d x.
Proof. destruct c; simpl; by rewrite ?app_assoc. Qed.

Lemma push_if_nil c d : push_if c d [] = [] ↔ c = false.
Proof. destruct c; simpl; naive_solver. Qed.

(** What one part of a tree contributes. *)
Definition predicate_diags (p : Predicate) : list Diagnostic := analyze_predicate p [].
Definition ref_diags (ctx : AnalyzeContext) (m : MetricRef) : list Diagnostic :=
  analyze_metric_ref m ctx [].
Definition header_diags (ctx : AnalyzeContext) (a : Aggregation) : list Diagnostic :=
  analyze_aggregation (mk_aggregation (agg_func a) (agg_percentile a) (agg_source a)
    None (agg_window a) (agg_span a)) ctx [].
Definition agg_diags (ctx : AnalyzeContext) (a : Aggregation) : list Diagnostic :=
  header_diags ctx a ++
  match agg_filter a with Some f => flat_map predicate_diags (predicates f) | None => [] end.

(** The aggregations and references of a tree, in source order. *)
Fixpoint node_parts (n : Node) : list (Aggregation + MetricRef) :=
  match n with
  | NAggregation a => [inl a]
  | NComposite _ l r _ => node_parts l ++ node_parts r
  | NNegate x _ => node_parts x
  | NMetricRef m => [inr m]
  | NLiteral _ => []
  | NRatio r => [inr (numerator r); inr (denominator r)]
  end.

Definition part_diags (ctx : AnalyzeContext) (p : Aggregation + MetricRef) : list Diagnostic :=
  match p with inl a => agg_diags ctx a | inr m => ref_diags ctx m end.

Lemma analyze_predicate_app p ds : analyze_predicate p ds = ds ++ predicate_diags p.
Proof.
  unfold predicate_diags, analyze_predicate.
  rewrite push_if_app, (push_if_app _ _ ds), (push_if_app _ _ (push_if _ _ [])).
  by rewrite app_assoc.
Qed.

Lemma analyze_filter_app f ds :
  analyze_filter f ds = ds ++ flat_map predicate_diags (predicates f).
Proof.
  unfold analyze_filter. revert ds. induction (predicates f) as [|p ps IH]; intros ds; simpl.
  - by rewrite app_nil_r.
  - by rewrite IH, analyze_predicate_app, app_assoc.
Qed.

Lemma analyze_aggregation_app a ctx ds :
  analyze_aggregation a ctx ds = ds ++ agg_diags ctx a.
Proof.
  enough (∀ ds', ds' = ds ++ [] → analyze_aggregation a ctx ds' = ds ++ agg_diags ctx a) as H
    by (apply H; by rewrite app_nil_r).
  intros ds' ->. unfold agg_diags, header_diags, analyze_aggregation. simpl.
  rewrite !push_if_tail.
  destruct (agg_filter a); [by rewrite analyze_filter_app, app_assoc|by rewrite app_nil_r].
Qed.

Lemma analyze_metric_ref_app m ctx ds :
  analyze_metric_ref m ctx ds = ds ++ ref_diags ctx m.
Proof.
  unfold ref_diags, analyze_metric_ref. destruct (negb _); [done|].
  destruct ctx; [apply push_if_app|by rewrite app_nil_r].
Qed.

Lemma analyze_node_app n ctx ds :
  analyze_node n ctx ds = ds ++ flat_map (part_diags ctx) (node_parts n).
Proof.
  revert ds. induction n as [a|op l IHl r IHr sp|x IH sp|r|m|l]; intros ds; simpl.
  - by rewrite app_nil_r, analyze_aggregation_app.
  - by rewrite IHl, IHr, flat_map_app, app_assoc.
  - apply IH.
  - unfold analyze_ratio. by rewrite !analyze_metric_ref_app, app_nil_r, app_assoc.
  - by rewrite app_nil_r, analyze_metric_ref_app.
  - by rewrite app_nil_r.
Qed.

Lemma analyze_parts n ctx :
  is_bare n = false → analyze n ctx = flat_map (part_diags ctx) (node_parts n).
Proof. intros Hb. destruct n; try done; exact (analyze_node_app _ _ []). Qed.

(** ** No diagnostic: the tree is semantically correct *)

Lemma is_empty_spec s : is_empty s = true ↔ s = [].
Proof. by destruct s. Qed.

Lemma opt_identifier_spec s :
  negb (is_empty s) && negb (identifier_re s) = false ↔ opt_identifier s.
Proof. unfold opt_identifier. destruct s; simpl; [naive_solver|]. rewrite negb_false_iff. naive_solver. Qed.

Lemma predicate_diags_nil p : predicate_diags p = [] ↔ field_ref_ok (pr_field p).
Proof.
  unfold predicate_diags, analyze_predicate, field_ref_ok.
  rewrite push_if_app, app_nil, !push_if_nil, opt_identifier_spec, negb_false_iff.
  done.
Qed.

Lemma flat_map_nil {A B} (f : A → list B) l : flat_map f l = [] ↔ Forall (λ x, f x = []) l.
Proof.
  induction l as [|x l IH]; simpl; [done|]. by rewrite app_nil, Forall_cons, IH.
Qed.

Lemma field_rules f s :
  takes_no_field f && negb (is_empty s) = false ∧ needs_field f && is_empty s = false ↔
  (takes_no_field f = true → s = []) ∧ (needs_field f = true → s ≠ []).
Proof. rewrite <- is_empty_spec. destruct f, s; simpl; naive_solver. Qed.

Lemma percentile_rule f p :
  bool_decide (f = Percentile) && (f64_le p f64_zero || f64_ge p (f64_of_Z 100)) = false ↔
  percentile_ok f p.
Proof.
  unfold percentile_ok. case_bool_decide; [|naive_solver].
  rewrite andb_true_l, orb_false_iff. naive_solver.
Qed.

Lemma header_diags_nil ctx a :
  header_diags ctx a = [] ↔
  source_ok (agg_func a) (agg_source a) ∧ percentile_ok (agg_func a) (agg_percentile a).
Proof.
  unfold header_diags, analyze_aggregation. simpl.
  rewrite push_if_app, app_nil, push_if_nil.
  rewrite push_if_app, app_nil, push_if_nil.
  rewrite push_if_app, app_nil, push_if_nil.
  rewrite push_if_app, app_nil, !push_if_nil.
  rewrite percentile_rule, opt_identifier_spec, negb_false_iff.
  unfold source_ok. rewrite <- field_rules. tauto.
Qed.

Lemma agg_diags_nil ctx a : agg_diags ctx a = [] ↔ aggregation_ok a.
Proof.
  unfold agg_diags, aggregation_ok. rewrite app_nil, header_diags_nil.
  destruct (agg_filter a) as [f|]; [|tauto].
  rewrite flat_map_nil. setoid_rewrite predicate_diags_nil. tauto.
Qed.

Lemma ref_diags_nil ctx m : ref_diags ctx m = [] ↔ metric_ref_ok ctx m.
Proof.
  unfold ref_diags, analyze_metric_ref, metric_ref_ok.
  destruct (identifier_re _); simpl; [|naive_solver].
  destruct ctx as [known|]; [|tauto].
  rewrite push_if_nil, negb_false_iff, bool_decide_eq_true. tauto.
Qed.

Lemma node_parts_forall (Q : Aggregation → Prop) (R : MetricRef → Prop) n :
  Forall (λ p, match p with inl a => Q a | inr m => R m end) (node_parts n) ↔
  Forall Q (node_aggs n) ∧ Forall R (node_refs n).
Proof.
  induction n as [a|op l IHl r IHr sp|x IH sp|r|m|l]; simpl;
    rewrite ?Forall_app, ?IHl, ?IHr, ?IH, ?Forall_cons, ?Forall_nil; tauto.
Qed.

Lemma analyze_nil n ctx : analyze n ctx = [] ↔ semantically_ok ctx n.
Proof.
  unfold semantically_ok. destruct (is_bare n) eqn:Hb.
  { destruct n; try done; simpl; naive_solver. }
  rewrite analyze_parts by done. rewrite flat_map_nil, <- node_parts_forall.
  enough (∀ p, part_diags ctx p = [] ↔
    match p with inl a => aggregation_ok a | inr m => metric_ref_ok ctx m end) as Hp
    by (setoid_rewrite Hp; tauto).
  intros [a|m]; [apply agg_diags_nil|apply ref_diags_nil].
Qed.

(** ** The extracted references *)

Lemma collect_refs_elem n seen x :
  x ∈ collect_refs n seen ↔ x ∈ seen ∨ x ∈ mr_id <$> node_refs n.
Proof.
  revert seen. induction n as [a|op l IHl r IHr sp|y IH sp|r|m|l]; intros seen; simpl;
    rewrite ?fmap_app, ?elem_of_app, ?IHr, ?IHl, ?IH, ?elem_of_cons, ?elem_of_union,
      ?elem_of_singleton, ?elem_of_nil; tauto.
Qed.

Lemma extract_metric_refs_elem n x : x ∈ extract_metric_refs n ↔ x ∈ mr_id <$> node_refs n.
Proof.
  unfold extract_metric_refs. rewrite sort_strs_elem, elem_of_elements, collect_refs_elem.
  set_solver.
Qed.

Lemma extract_metric_refs_nodup n : NoDup (extract_metric_refs n).
Proof.
  unfold extract_metric_refs. rewrite sort_strs_perm. apply NoDup_elements.
Qed.

(** ** References of a parsed tree: the identifiers after [@] *)

Fixpoint ref_ids (ts : list Token) : list str :=
  match ts with
  | [] => []
  | a :: rest =>
      (if is_kind At a then match rest with i :: _ => [value i] | [] => [] end else [])
      ++ ref_ids rest
  end.

(** The tokens [ts] contribute the references [ids], wherever they stand. *)
Definition refs_of (ts : list Token) (ids : list str) : Prop :=
  ∀ rest, ref_ids (ts ++ rest) = ids ++ ref_ids rest.

Lemma refs_of_nil : refs_of [] [].
Proof. by intros rest. Qed.

Lemma refs_of_cons t ts ids : kind t ≠ At → refs_of ts ids → refs_of (t :: ts) ids.
Proof. intros Ht H rest. simpl. unfold is_kind. rewrite bool_decide_false by done. apply H. Qed.

Lemma refs_of_app ts ts' ids ids' : refs_of ts ids → refs_of ts' ids' → refs_of (ts ++ ts') (ids ++ ids').
Proof. intros H H' rest. by rewrite <- !app_assoc, H, H'. Qed.

Lemma refs_of_app_nil ts ts' : refs_of ts [] → refs_of ts' [] → refs_of (ts ++ ts') [].
Proof. apply (refs_of_app _ _ [] []). Qed.

Lemma refs_of_snoc ts t ids : refs_of ts ids → kind t ≠ At → refs_of (ts ++ [t]) ids.
Proof.
  intros H Ht. rewrite <- (app_nil_r ids).
  apply refs_of_app; [done|by apply refs_of_cons, refs_of_nil].
Qed.

Lemma refs_of_whole ts ids : refs_of ts ids → ref_ids ts = ids.
Proof. intros H. rewrite <- (app_nil_r ts), H. apply app_nil_r. Qed.

Lemma tok_not_at k t : tok k t → k ≠ At → kind t ≠ At.
Proof. unfold tok. congruence. Qed.

Lemma kw_not_at s t : kw s t → kind t ≠ At.
Proof. unfold kw. intros [? _]. congruence. Qed.

Lemma operator_not_at t op : d_operator t op → kind t ≠ At.
Proof. destruct 1; first [eapply tok_not_at; [eassumption|done] | by eapply kw_not_at]. Qed.

Create HintDb refs.
#[local] Hint Resolve refs_of_nil refs_of_cons refs_of_app refs_of_app_nil refs_of_snoc kw_not_at
  operator_not_at : refs.
#[local] Hint Extern 2 (kind ?t ≠ At) =>
  match goal with H : tok _ t |- _ => by apply (tok_not_at _ _ H) end : refs.
Ltac refs := eauto 12 with refs.

Lemma d_source_refs ts s : d_source ts s → refs_of ts [].
Proof. destruct 1; refs. Qed.

Lemma d_field_ref_refs ts r : d_field_ref ts r → refs_of ts [].
Proof. destruct 1; refs. Qed.

Lemma d_value_items_refs :
  (∀ ts v, d_value ts v → refs_of ts []) ∧ (∀ ts vs, d_items ts vs → refs_of ts []).
Proof. apply d_value_items_ind; intros; refs. Qed.

Lemma d_value_refs ts v : d_value ts v → refs_of ts [].
Proof. apply d_value_items_refs. Qed.
#[local] Hint Resolve d_source_refs d_field_ref_refs d_value_refs : refs.

Lemma d_predicate_refs ts p : d_predicate ts p → refs_of ts [].
Proof. destruct 1; refs. Qed.
#[local] Hint Resolve d_predicate_refs : refs.

Lemma d_more_refs sp ts r : d_more sp ts r → refs_of ts [].
Proof. induction 1; refs. Qed.
#[local] Hint Resolve d_more_refs : refs.

Lemma d_filter_refs ts f : d_filter ts f → refs_of ts [].
Proof. destruct 1; refs. Qed.

Lemma d_window_refs ts w : d_window ts w → refs_of ts [].
Proof. destruct 1 as [w n u o e x ? ? ? ? ? Hu]. destruct Hu; refs. Qed.

Lemma d_opt_refs {A} (R : list Token → A → Prop) ts o :
  (∀ ts a, R ts a → refs_of ts []) → d_opt R ts o → refs_of ts [].
Proof. intros HR [|]; refs. Qed.

Lemma d_agg_func_refs ts r : d_agg_func ts r → refs_of ts [].
Proof. destruct 1; refs. Qed.

#[local] Hint Resolve d_agg_func_refs d_opt_refs d_filter_refs d_window_refs : refs.

Lemma d_aggregation_refs ts a : d_aggregation ts a → refs_of ts [].
Proof. destruct 1; refs. Qed.

Lemma d_metric_ref_refs ts m : d_metric_ref ts m → refs_of ts [mr_id m].
Proof.
  destruct 1 as [a i Ha Hi]. intros rest. simpl. unfold tok in *. unfold is_kind.
  rewrite bool_decide_true, bool_decide_false by congruence. done.
Qed.
#[local] Hint Resolve d_metric_ref_refs : refs.

Lemma d_ratio_refs ts r :
  d_ratio ts r → refs_of ts [mr_id (numerator r); mr_id (denominator r)].
Proof.
  destruct 1. do 2 (apply refs_of_cons; [refs|]).
  apply (refs_of_app _ _ [_] [_]); refs.
Qed.
#[local] Hint Resolve d_ratio_refs : refs.

Lemma restamp_span_refs n sp : mr_id <$> node_refs (restamp_span n sp) = mr_id <$> node_refs n.
Proof. by destruct n. Qed.

(** [ts] adds the references by which [n] exceeds [l]. *)
Definition adds_refs (l : Node) (ts : list Token) (n : Node) : Prop :=
  ∃ ids, refs_of ts ids ∧ mr_id <$> node_refs n = (mr_id <$> node_refs l) ++ ids.

Lemma adds_refs_step l op o ts r ts' n :
  kind o ≠ At → refs_of ts (mr_id <$> node_refs r) → adds_refs (binary op l r) ts' n →
  adds_refs l (o :: ts ++ ts') n.
Proof.
  intros Ho Hr (ids & H & Heq). exists ((mr_id <$> node_refs r) ++ ids). split; [refs|].
  rewrite Heq. simpl. by rewrite fmap_app, app_assoc.
Qed.

Lemma adds_refs_done n : adds_refs n [] n.
Proof. exists []. split; [refs|by rewrite app_nil_r]. Qed.

Lemma adds_refs_whole ts l ts' n :
  refs_of ts (mr_id <$> node_refs l) → adds_refs l ts' n →
  refs_of (ts ++ ts') (mr_id <$> node_refs n).
Proof. intros H (ids & H' & ->). refs. Qed.

Lemma d_expr_refs :
  (∀ ts n, d_composite ts n → refs_of ts (mr_id <$> node_refs n)) ∧
  (∀ l ts n, d_sums l ts n → adds_refs l ts n) ∧
  (∀ ts n, d_term ts n → refs_of ts (mr_id <$> node_refs n)) ∧
  (∀ l ts n, d_products l ts n → adds_refs l ts n) ∧
  (∀ ts n, d_unary ts n → refs_of ts (mr_id <$> node_refs n)) ∧
  (∀ ts n, d_factor ts n → refs_of ts (mr_id <$> node_refs n)).
Proof.
  apply d_expr_ind; intros; rewrite ?restamp_span_refs; simpl; refs;
    try (by eapply adds_refs_whole); try apply adds_refs_done;
    try (eapply adds_refs_step; refs).
Qed.

Lemma d_expression_refs ts n : d_expression ts n → ref_ids ts = mr_id <$> node_refs n.
Proof.
  destruct 1 as [ts a Ha|ts n Hn]; apply refs_of_whole.
  - by apply (d_aggregation_refs _ a).
  - by apply (proj1 d_expr_refs).
Qed.

(** ** Well-formed trees *)

Definition is_nil {A} (l : list A) : bool := match l with [] => true | _ => false end.

(** In-lists are non-empty at every depth. *)
Fixpoint value_wf (v : Value) : bool :=
  match v with
  | VList l _ => negb (is_nil l) && forallb value_wf l
  | VString _ _ | VNumber _ _ => true
  end.

Definition predicate_wf (p : Predicate) : Prop :=
  field_ref_ok (pr_field p) ∧ value_wf (pr_value p) = true.

Definition filter_wf (f : Filter) : Prop :=
  predicates f ≠ [] ∧ Forall predicate_wf (predicates f).

Definition window_wf (w : Window) : Prop := (1 ≤ win_n w ≤ u32_max)%Z.

Definition option_wf {A} (Q : A → Prop) (o : option A) : Prop :=
  match o with Some a => Q a | None => True end.

Definition aggregation_wf (a : Aggregation) : Prop :=
  agg_func a ≠ AggUnknown ∧ percentile_ok (agg_func a) (agg_percentile a) ∧
  identifier_re (event_type (agg_source a)) = true ∧
  opt_identifier (src_field (agg_source a)) ∧
  option_wf filter_wf (agg_filter a) ∧ option_wf window_wf (agg_window a).

Fixpoint node_wf (n : Node) : Prop :=
  match n with
  | NAggregation a => aggregation_wf a
  | NComposite op l r _ => op ≠ ArithUnknown ∧ node_wf l ∧ node_wf r
  | NNegate x _ => node_wf x
  | NMetricRef m => identifier_re (mr_id m) = true
  | NLiteral _ => True
  | NRatio r =>
      identifier_re (mr_id (numerator r)) = true ∧ identifier_re (mr_id (denominator r)) = true
  end.

Lemma ident_text t : token_ok t = true → tok Ident t → identifier_re (value t) = true.
Proof.
  unfold token_ok, tok. intros H Hk. rewrite Hk in H. by apply andb_prop in H as [? _].
Qed.
#[local] Hint Resolve ident_text : core.

Definition toks_ok (ts : list Token) : Prop := Forall (λ t, token_ok t = true) ts.

(** Split [toks_ok] along the productions. *)
Ltac toks_ok :=
  unfold toks_ok in *;
  repeat match goal with
  | H : Forall _ (_ :: _) |- _ => apply Forall_cons in H as [? H]
  | H : Forall _ (_ ++ _) |- _ => apply Forall_app in H as [? H]
  end.

Lemma d_source_wf ts s :
  d_source ts s → toks_ok ts → identifier_re (event_type s) = true ∧ opt_identifier (src_field s).
Proof. unfold opt_identifier. destruct 1; intros Ht; toks_ok; simpl; eauto. Qed.

Lemma d_field_ref_wf ts r : d_field_ref ts r → toks_ok ts → field_ref_ok r.1.1.
Proof. unfold field_ref_ok, opt_identifier. destruct 1; intros Ht; toks_ok; simpl; eauto. Qed.

Lemma d_value_items_wf :
  (∀ ts v, d_value ts v → value_wf v = true) ∧
  (∀ ts vs, d_items ts vs → negb (is_nil vs) && forallb value_wf vs = true).
Proof.
  apply d_value_items_ind; simpl; try done.
  - intros ts v _ ->. done.
  - intros ts v c ts' vs _ Hv _ _ Hs. rewrite Hv. by apply andb_prop in Hs as [_ ->].
Qed.

Lemma d_predicate_wf ts p : d_predicate ts p → toks_ok ts → predicate_wf p.
Proof.
  destruct 1 as [ft f st en ot op vt v Hf _ Hv]. intros Ht. toks_ok. split; simpl.
  - by apply (d_field_ref_wf _ _ Hf).
  - by apply (proj1 d_value_items_wf vt).
Qed.

Lemma d_more_wf sp ts r : d_more sp ts r → toks_ok ts → Forall predicate_wf r.1.
Proof.
  induction 1 as [|sp a ts p ts' ps sp' _ Hp _ IH]; intros Ht; toks_ok; simpl; [done|].
  constructor; [by eapply d_predicate_wf|auto].
Qed.

Lemma d_filter_wf ts f : d_filter ts f → toks_ok ts → filter_wf f.
Proof.
  destruct 1 as [w ts p ts' ps sp _ Hp Hm]. intros Ht. toks_ok. split; simpl; [done|].
  constructor; [by eapply d_predicate_wf|by apply (d_more_wf _ _ _ Hm)].
Qed.

(** A positive integral double casts into [1, u32::MAX]. *)
Lemma as_u32_positive x :
  f64_eq x (f64_trunc x) = true → f64_le x f64_zero = false →
  (1 ≤ f64_as_u32 x ≤ u32_max)%Z.
Proof.
  destruct x as [s|[]| |[] m e]; try done.
  intros Heq _. unfold f64_trunc, f64_as_u32 in *. unfold u32_max.
  destruct (0 <=? e)%Z eqn:He.
  - rewrite Z.shiftl_mul_pow2 by lia. pose proof (Z.pow_pos_nonneg 2 e). nia.
  - destruct (Z.shiftr (Zpos m) (- e) =? 0)%Z eqn:Hk; [done|].
    pose proof (proj2 (Z.shiftr_nonneg (Zpos m) (- e)) ltac:(lia)). lia.
Qed.

Lemma d_window_wf ts w : d_window ts w → window_wf w.
Proof. destruct 1. by apply as_u32_positive. Qed.

Lemma d_opt_wf {A} (R : list Token → A → Prop) (Q : A → Prop) ts o :
  (∀ a, R ts a → Q a) → d_opt R ts o → option_wf Q o.
Proof. intros HQ Ho. destruct Ho; simpl; auto. Qed.

Lemma d_agg_func_wf ts r :
  d_agg_func ts r → r.1 ≠ AggUnknown ∧ percentile_ok r.1 r.2.
Proof.
  unfold percentile_ok. destruct 1 as [t v f _ Hin|]; simpl; [|naive_solver].
  unfold plain_agg in Hin. set_unfold in Hin. naive_solver.
Qed.

Lemma d_aggregation_wf ts a : d_aggregation ts a → toks_ok ts → aggregation_wf a.
Proof.
  destruct 1 as [t ts0 fn pct lp ts1 src rp ts2 f ts3 w Hf _ Hs _ Hfl Hw].
  intros Ht. unfold aggregation_wf. cbn [agg_func agg_percentile agg_source agg_filter agg_window].
  assert (toks_ok ts1 ∧ toks_ok ts2) as [H1 H2] by (by toks_ok).
  destruct (d_agg_func_wf _ _ Hf) as [? ?]. destruct (d_source_wf _ _ Hs H1) as [? ?].
  split_and!; [done..| |].
  - apply (d_opt_wf _ _ ts2 _ (λ f Hd, d_filter_wf _ f Hd H2) Hfl).
  - apply (d_opt_wf _ _ ts3 _ (d_window_wf ts3) Hw).
Qed.

Lemma d_metric_ref_wf ts m : d_metric_ref ts m → toks_ok ts → identifier_re (mr_id m) = true.
Proof. destruct 1; intros Ht; toks_ok; simpl; eauto. Qed.

Lemma d_ratio_wf ts r : d_ratio ts r → toks_ok ts → node_wf (NRatio r).
Proof.
  destruct 1; intros Ht; toks_ok; simpl.
  split; eapply d_metric_ref_wf; eauto.
Qed.

Lemma restamp_span_wf n sp : node_wf (restamp_span n sp) ↔ node_wf n.
Proof. by destruct n. Qed.

Lemma d_expr_wf :
  (∀ ts n, d_composite ts n → toks_ok ts → node_wf n) ∧
  (∀ l ts n, d_sums l ts n → toks_ok ts → node_wf l → node_wf n) ∧
  (∀ ts n, d_term ts n → toks_ok ts → node_wf n) ∧
  (∀ l ts n, d_products l ts n → toks_ok ts → node_wf l → node_wf n) ∧
  (∀ ts n, d_unary ts n → toks_ok ts → node_wf n) ∧
  (∀ ts n, d_factor ts n → toks_ok ts → node_wf n).
Proof.
  apply d_expr_ind; intros; rewrite ?restamp_span_wf; toks_ok; simpl in *; auto.
  - eapply d_metric_ref_wf; eauto.
  - eapply d_ratio_wf; eauto.
Qed.

Lemma d_expression_wf ts n : d_expression ts n → toks_ok ts → node_wf n.
Proof.
  destruct 1 as [ts a Ha|ts n Hn].
  - by apply d_aggregation_wf.
  - by apply (proj1 d_expr_wf).
Qed.

Lemma parse_tokens_ok src body e :
  valid_utf8 src = true → tokenize src = Ok (stream body e) → toks_ok body.
Proof.
  intros Hv Ht. apply tokenize_ok_lexes, lexes_tokens_ok in Ht; [|done].
  by apply Forall_app in Ht as [? _].
Qed.

Lemma parse_wf src n : valid_utf8 src = true → parse src = Ok n → node_wf n.
Proof.
  intros Hv Hp. destruct (parse_ok_derivation _ _ Hv Hp) as (body & e & Ht & _ & _ & Hd).
  eapply d_expression_wf; [done|by eapply parse_tokens_ok].
Qed.

(** ** Spans: a parsed tree spans its first to its last token *)

Definition covers (ts : list Token) (sp : Span) : Prop :=
  ∃ t u, head ts = Some t ∧ last ts = Some u ∧ sp = span_from_to (span t) (span u).

Lemma covers_one t : covers [t] (span t).
Proof. exists t, t. split_and!; [done..|]. by destruct (span t). Qed.

Lemma covers_ends t ts u : covers (t :: ts ++ [u]) (span_from_to (span t) (span u)).
Proof. exists t, u. split_and!; [done| |done]. by rewrite app_comm_cons, last_snoc. Qed.

Lemma last_app_some {A} (l k : list A) x : last k = Some x → last (l ++ k) = Some x.
Proof. intros H. by rewrite last_app, H. Qed.

Lemma covers_app ts ts' sp sp' :
  covers ts sp → covers ts' sp' → covers (ts ++ ts') (span_from_to sp sp').
Proof.
  intros (t & u & Ht & _ & ->) (t' & u' & _ & Hu' & ->). exists t, u'.
  split_and!; [by destruct ts; simplify_eq/=|by apply last_app_some|done].
Qed.

Lemma covers_cons t ts sp : covers ts sp → covers (t :: ts) (span_from_to (span t) sp).
Proof. apply (covers_app [t]), covers_one. Qed.

Lemma covers_mid ts t ts' sp sp' :
  covers ts sp → covers ts' sp' → covers (ts ++ t :: ts') (span_from_to sp sp').
Proof. intros H H'. exact (covers_app _ _ _ _ H (covers_cons t _ _ H')). Qed.

Lemma d_field_ref_covers ts r : d_field_ref ts r → covers ts (span_from_to r.1.2 r.2).
Proof. destruct 1 as [n|n d f]; [by exists n, n|by exists n, f]. Qed.

Lemma d_value_covers ts v : d_value ts v → covers ts (value_span v).
Proof. destruct 1; [apply covers_one..|apply covers_ends]. Qed.

Lemma d_predicate_covers ts p : d_predicate ts p → covers ts (pr_span p).
Proof.
  destruct 1 as [ft f st en ot op vt v Hf _ Hv].
  exact (covers_mid _ ot _ _ _ (d_field_ref_covers _ _ Hf) (d_value_covers _ _ Hv)).
Qed.

(** The span a filter ends at covers the predicate it is extended from. *)
Lemma d_more_covers sp ts r : d_more sp ts r → ∀ pre,
  covers pre sp → ∃ st, covers (pre ++ ts) (mk_span st (sp_end r.2)).
Proof.
  induction 1 as [sp|sp a ts p ts' ps sp' _ Hp _ IH]; intros pre Hpre.
  - exists (sp_start sp). rewrite app_nil_r. by destruct sp.
  - destruct (IH ts (d_predicate_covers _ _ Hp)) as [st Hst].
    exists (sp_start sp). exact (covers_mid _ a _ _ _ Hpre Hst).
Qed.

Lemma d_filter_covers ts f : d_filter ts f → covers ts (filter_span f).
Proof.
  destruct 1 as [w ts p ts' ps sp _ Hp Hm].
  destruct (d_more_covers _ _ _ Hm _ (d_predicate_covers _ _ Hp)) as [st Hst].
  exact (covers_cons w _ _ Hst).
Qed.

Lemma d_window_covers ts w : d_window ts w → covers ts (win_span w).
Proof. destruct 1 as [w n u o e]. apply (covers_ends w [n; u; o] e). Qed.

(** A suffix ends where the whole ends. *)
Lemma covers_suffix t l pre ts sp :
  l = pre ++ ts → covers ts sp → covers (t :: l) (span_from_to (span t) sp).
Proof.
  intros -> (u & v & _ & Hv & ->). exists t, v. split_and!; [done| |done].
  rewrite app_comm_cons. by apply last_app_some.
Qed.

Lemma d_aggregation_covers ts a : d_aggregation ts a → covers ts (agg_span a).
Proof.
  destruct 1 as [t ts0 fn pct lp ts1 src rp ts2 f ts3 w _ _ _ _ Hf Hw]. simpl.
  destruct Hw as [|ts3 w Hw]; [destruct Hf as [|ts2 f Hf]|]; simpl; rewrite ?app_nil_r.
  - apply (covers_suffix t _ (ts0 ++ lp :: ts1) [rp]); [by simplify_list_eq|apply covers_one].
  - apply (covers_suffix t _ (ts0 ++ lp :: ts1 ++ [rp]) ts2); [by simplify_list_eq|].
    by apply d_filter_covers.
  - apply (covers_suffix t _ (ts0 ++ lp :: ts1 ++ rp :: ts2) ts3); [by simplify_list_eq|].
    by apply d_window_covers.
Qed.

Lemma d_metric_ref_covers ts m : d_metric_ref ts m → covers ts (mr_span m).
Proof. destruct 1 as [a i]. apply (covers_ends a [] i). Qed.

Lemma d_ratio_covers ts r : d_ratio ts r → covers ts (ratio_span r).
Proof.
  destruct 1 as [r lp ts1 m1 c ts2 m2 rp].
  apply (covers_suffix r _ (lp :: ts1 ++ c :: ts2) [rp]); [by simplify_list_eq|apply covers_one].
Qed.

Lemma binary_covers op l ts o ts' r :
  covers ts (node_span l) → covers ts' (node_span r) →
  covers (ts ++ o :: ts') (node_span (binary op l r)).
Proof. apply covers_mid. Qed.

Definition no_aggregation (n : Node) : Prop := node_aggs n = [].

(** A composite expression contains no aggregation, and spans its tokens. *)
Definition exact (ts : list Token) (n : Node) : Prop :=
  no_aggregation n ∧ covers ts (node_span n).

Definition extends (l : Node) (ts : list Token) (n : Node) : Prop :=
  ∀ pre, exact pre l → exact (pre ++ ts) n.

Lemma extends_step op l o ts r ts' n :
  exact ts r → extends (binary op l r) ts' n → extends l (o :: ts ++ ts') n.
Proof.
  intros [Hr Hc] He pre [Hl Hp]. rewrite app_comm_cons, app_assoc. apply He.
  split; [|by apply binary_covers].
  unfold no_aggregation in *. simpl. by rewrite Hl, Hr.
Qed.

Lemma exact_restamp ts n t u :
  exact ts n → exact (t :: ts ++ [u]) (restamp_span n (span_from_to (span t) (span u))).
Proof.
  intros [Hn _]. pose proof (covers_ends t ts u). destruct n; by split.
Qed.

Lemma d_expr_exact :
  (∀ ts n, d_composite ts n → exact ts n) ∧
  (∀ l ts n, d_sums l ts n → extends l ts n) ∧
  (∀ ts n, d_term ts n → exact ts n) ∧
  (∀ l ts n, d_products l ts n → extends l ts n) ∧
  (∀ ts n, d_unary ts n → exact ts n) ∧
  (∀ ts n, d_factor ts n → exact ts n).
Proof.
  apply d_expr_ind; try (by intros; eapply extends_step; eauto);
    try (by intros n pre; rewrite app_nil_r); auto.
  - intros m ts n _ _ [Hn Hc]. split; [done|by apply covers_cons].
  - intros ts m Hm. split; [done|by apply d_metric_ref_covers].
  - intros t v Ht Hv. split; [done|apply covers_one].
  - intros lp ts n rp _ _ He _. by apply exact_restamp.
  - intros ts r Hr. split; [done|by apply d_ratio_covers].
Qed.

Lemma d_expression_covers ts n : d_expression ts n → covers ts (node_span n).
Proof.
  destruct 1 as [ts a Ha|ts n Hn]; [by apply d_aggregation_covers|].
  by apply (proj1 d_expr_exact) in Hn as [_ ?].
Qed.

(** ** The claims *)

Lemma validate_unfold src ctx ts n :
  tokenize src = Ok ts → parse_tokens ts = Ok n →
  validate_metricql src ctx =
  if bool_decide (analyze n ctx = []) then Ok (extract_metric_refs n) else Err (analyze n ctx).
Proof.
  intros Ht Hp. unfold validate_metricql. rewrite Ht. simpl. rewrite Hp. simpl.
  destruct (analyze n ctx); repeat case_bool_decide; naive_solver.
Qed.

(** The analyzer is a collect-all pass: on a tree that is not a bare
    reference or literal it reports, in source order, every diagnostic of every
    aggregation and metric reference; and it reports nothing exactly when the
    tree is semantically correct (identifiers, percentile range, a field where
    the function needs one and none where it does not, known references). *)
Theorem analyze_collects_all n ctx :
  (is_bare n = false → analyze n ctx = flat_map (part_diags ctx) (node_parts n)) ∧
  (analyze n ctx = [] ↔ semantically_ok ctx n).
Proof. split; [apply analyze_parts|apply analyze_nil]. Qed.

Lemma analyze_collects_all_witness :
  let n := NNegate (NRatio (mk_ratio (mk_metric_ref (lit "a") (mk_span 7 9))
             (mk_metric_ref (lit "b") (mk_span 11 13)) (mk_span 1 14))) (mk_span 0 14) in
  is_bare n = false ∧
  analyze n (Some {[lit "c"]}) = flat_map (part_diags (Some {[lit "c"]})) (node_parts n).
Proof. split; [reflexivity|]. apply analyze_collects_all. reflexivity. Defined.

(** [C7] [validate_metricql] accepts a source with the references [refs]
    exactly when its tokens derive a semantically correct tree in the grammar and
    [refs] is, without duplicates and in byte order, the set of identifiers that
    follow an [@] in the token stream. *)
Theorem validate_metricql_ok src ctx refs :
  valid_utf8 src = true →
  (validate_metricql src ctx = Ok refs ↔
   ∃ body e n, tokenize src = Ok (stream body e) ∧ tok Eof e ∧ d_expression body n ∧
     semantically_ok ctx n ∧
     NoDup refs ∧ Sorted str_le refs ∧ ∀ x, x ∈ refs ↔ x ∈ ref_ids body).
Proof.
  intros Hv. split.
  - intros Hval. unfold validate_metricql in Hval.
    destruct (tokenize src) as [ts|e| |] eqn:Ht; try discriminate. simpl in Hval.
    destruct (parse_tokens ts) as [n| | |] eqn:Hp; try discriminate. simpl in Hval.
    destruct (analyze n ctx) eqn:Ha; simplify_eq/=.
    destruct (tokenize_stream _ _ Hv Ht) as (body & e & -> & He & Hb).
    pose proof (parse_tokens_sound _ _ _ Hb He Hp) as Hd.
    exists body, e, n. split_and!; [done..|by apply analyze_nil| | |].
    + apply extract_metric_refs_nodup.
    + apply sort_strs_sorted.
    + intros x. by rewrite extract_metric_refs_elem, (d_expression_refs _ _ Hd).
  - intros (body & e & n & Ht & He & Hd & Hs & Hnd & Hso & Hel).
    rewrite (validate_unfold _ _ _ _ Ht (parse_tokens_complete _ _ _ He Hd)).
    rewrite bool_decide_true by (by apply analyze_nil). f_equal.
    eapply (Sorted_unique str_le); [apply sort_strs_sorted|done|].
    apply NoDup_Permutation; [apply extract_metric_refs_nodup|done|].
    intros x. change (x ∈ extract_metric_refs n ↔ x ∈ refs).
    by rewrite extract_metric_refs_elem, Hel, (d_expression_refs _ _ Hd).
Qed.

Lemma validate_metricql_ok_witness :
  let src := lit "@b - ratio(@a, @b) * 2" in
  validate_metricql src (Some (list_to_set [lit "a"; lit "b"])) = Ok [lit "a"; lit "b"] ∧
  ∃ body e n, tokenize src = Ok (stream body e) ∧ tok Eof e ∧ d_expression body n ∧
    semantically_ok (Some (list_to_set [lit "a"; lit "b"])) n ∧
    NoDup [lit "a"; lit "b"] ∧ Sorted str_le [lit "a"; lit "b"] ∧
    ∀ x, x ∈ [lit "a"; lit "b"] ↔ x ∈ ref_ids body.
Proof.
  split; [vm_compute; reflexivity|].
  apply validate_metricql_ok; vm_compute; reflexivity.
Defined.

(** The diagnostics an operator can meet on a source that parses. *)
Definition reachable_message (m : DiagMessage) : bool :=
  match m with
  | BareMetricRef | BareLiteral | FieldNotAllowed _ _ _ | FieldRequired _ _
  | UnknownMetricRef _ => true
  | _ => false
  end.

Definition proper_diag (d : Diagnostic) : Prop :=
  severity d = SevError ∧ reachable_message (message d) = true.

Lemma push_if_forall (Q : Diagnostic → Prop) c d ds :
  Forall Q ds → (c = true → Q d) → Forall Q (push_if c d ds).
Proof. destruct c; simpl; intros; rewrite ?Forall_app, ?Forall_singleton; auto. Qed.

Lemma predicate_diags_wf p : field_ref_ok (pr_field p) → predicate_diags p = [].
Proof. by apply predicate_diags_nil. Qed.

Lemma agg_diags_wf ctx a : aggregation_wf a → Forall proper_diag (agg_diags ctx a).
Proof.
  intros (_ & Hp & He & Hf & Hfl & _). unfold agg_diags.
  apply Forall_app. split.
  - unfold header_diags, analyze_aggregation. simpl.
    rewrite He, (proj2 (opt_identifier_spec _) Hf), (proj2 (percentile_rule _ _) Hp). simpl.
    repeat apply push_if_forall; done.
  - destruct (agg_filter a) as [f|]; [|done]. destruct Hfl as [_ Hfl].
    rewrite (proj2 (flat_map_nil predicate_diags (predicates f))); [done|].
    eapply Forall_impl; [exact Hfl|]. intros p [? _]. by apply predicate_diags_wf.
Qed.

Lemma ref_diags_wf ctx m :
  identifier_re (mr_id m) = true → Forall proper_diag (ref_diags ctx m).
Proof.
  intros Hm. unfold ref_diags, analyze_metric_ref. rewrite Hm. simpl.
  destruct ctx; [|done]. by apply push_if_forall.
Qed.

Lemma analyze_wf n ctx : node_wf n → Forall proper_diag (analyze n ctx).
Proof.
  intros Hn. destruct (is_bare n) eqn:Hb.
  { destruct n; try done; by repeat constructor. }
  rewrite analyze_parts by done. clear Hb.
  induction n as [a|op l IHl r IHr sp|x IH sp|r|m|l]; simpl in *.
  - rewrite app_nil_r. by apply agg_diags_wf.
  - rewrite flat_map_app. apply Forall_app. naive_solver.
  - auto.
  - destruct Hn. rewrite app_nil_r. apply Forall_app. split; by apply ref_diags_wf.
  - rewrite app_nil_r. by apply ref_diags_wf.
  - done.
Qed.

(** [C40] Every tree the parser builds is well formed: identifiers match the
    identifier pattern, a percentile lies strictly between 0 and 100, a window
    is between 1 and [u32::MAX], filters and in-lists are non-empty, no
    [Unknown] function or operator occurs; so of the analyzer's diagnostics only the
    bare-root, field-rule and unknown-reference ones can be reported; and the root
    span runs from the first token to the last. *)
Theorem parsed_tree_ok src n ctx :
  valid_utf8 src = true → parse src = Ok n →
  node_wf n ∧ Forall proper_diag (analyze n ctx) ∧
  ∃ body e, tokenize src = Ok (stream body e) ∧ covers body (node_span n).
Proof.
  intros Hv Hp. pose proof (parse_wf _ _ Hv Hp) as Hw.
  destruct (parse_ok_derivation _ _ Hv Hp) as (body & e & Ht & _ & _ & Hd).
  split_and!; [done|by apply analyze_wf|].
  exists body, e. split; [done|by apply d_expression_covers].
Qed.

Lemma parsed_tree_ok_witness :
  ∃ n, parse (lit "count(x.y) within 3 days of exposure") = Ok n ∧ node_wf n ∧
    Forall proper_diag (analyze n None) ∧
    ∃ body e, tokenize (lit "count(x.y) within 3 days of exposure") = Ok (stream body e) ∧
      covers body (node_span n).
Proof.
  destruct (parse (lit "count(x.y) within 3 days of exposure")) as [n| | |] eqn:Hp;
    try (vm_compute in Hp; discriminate).
  exists n. pose proof (parsed_tree_ok (lit "count(x.y) within 3 days of exposure") n None) as H.
  split; [reflexivity|]. apply H; [vm_compute; reflexivity|exact Hp].
Defined.

Lemma validate_metricql_returns src ctx :
  valid_utf8 src = true → returns (validate_metricql src ctx).
Proof.
  intros Hv. pose proof (parse_returns src Hv) as Hr. unfold validate_metricql.
  destruct (tokenize src) as [ts|e| |] eqn:Ht; try (unfold parse in Hr; by rewrite Ht in Hr).
  rewrite (parse_as_tokens _ _ Ht) in Hr. cbn [map_err mbind result_bind].
  destruct (parse_tokens ts); try done. cbn [map_err mbind result_bind]. by destruct (negb _).
Qed.

(** [validate_metricql] is total, and an [Err] is never empty: it is one
    front-end diagnostic when the source does not lex or parse, and otherwise
    all of the analyzer's diagnostics, each of error severity. *)
Theorem validate_metricql_total src ctx :
  valid_utf8 src = true →
  (∃ refs, validate_metricql src ctx = Ok refs) ∨
  (∃ d, validate_metricql src ctx = Err [d] ∧ severity d = SevError ∧
     (∀ n, parse src ≠ Ok n) ∧ ∃ m, message d = FrontEnd m) ∨
  (∃ n, parse src = Ok n ∧ validate_metricql src ctx = Err (analyze n ctx) ∧
     analyze n ctx ≠ [] ∧ Forall proper_diag (analyze n ctx)).
Proof.
  intros Hv. pose proof (parse_returns src Hv) as Hr.
  destruct (tokenize src) as [ts|e| |] eqn:Ht.
  - pose proof (parse_as_tokens _ _ Ht) as Hts.
    destruct (parse src) as [n|e| |] eqn:Hp; try done; symmetry in Hts.
    + rewrite (validate_unfold _ ctx _ _ Ht Hts). case_bool_decide; [eauto|].
      right. right. exists n. split_and!; [done..|]. eapply analyze_wf, parse_wf; eauto.
    + right. left. unfold validate_metricql. rewrite Ht. simpl. rewrite Hts. simpl. eauto 8.
  - right. left. unfold validate_metricql, parse. rewrite Ht. simpl. eauto 8.
  - unfold parse in Hr. by rewrite Ht in Hr.
  - unfold parse in Hr. by rewrite Ht in Hr.
Qed.

Lemma validate_metricql_total_witness :
  let src := lit "@a + count(x)" in
  valid_utf8 src = true ∧
  ((∃ refs, validate_metricql src None = Ok refs) ∨
   (∃ d, validate_metricql src None = Err [d] ∧ severity d = SevError ∧
      (∀ n, parse src ≠ Ok n) ∧ ∃ m, message d = FrontEnd m) ∨
   (∃ n, parse src = Ok n ∧ validate_metricql src None = Err (analyze n None) ∧
      analyze n None ≠ [] ∧ Forall proper_diag (analyze n None))).
Proof. split; [reflexivity|]. apply validate_metricql_total. reflexivity. Defined.

(** ** Two limits of the numbers *)

(** A literal of 400 digits parses to infinity: the parser does not guarantee
    finite literals. *)
Lemma literal_overflow :
  ∃ sp sp' sp'' r, parse (lit "@a * 1" ++ replicate 400 "0"%char) =
    Ok (NComposite Mul (NMetricRef (mk_metric_ref (lit "a") sp))
          (NLiteral (mk_literal (S754_infinity false) sp')) sp'') ∧
    validate_metricql (lit "@a * 1" ++ replicate 400 "0"%char) None = Ok r.
Proof. do 4 eexists. split; vm_compute; reflexivity. Qed.

(** A window size above [u32::MAX] is accepted and clamped. *)
Lemma window_saturates :
  match parse (lit "count(x) within 99999999999 hours of exposure") with
  | Ok (NAggregation a) => option_map win_n (agg_window a) = Some u32_max
  | _ => False
  end.
Proof. vm_compute. reflexivity. Qed.
