(* ===== verification/Hash.v ===== *)
(** User hashing ([experimentation-hash/src/murmur3.rs], [lib.rs]): MurmurHash3
    x86-32 on 32-bit words kept in [Z], and the bucket functions built on it. *)
From Stdlib Require Import Ascii String.
From S2P Require Import Prelude Bytes.

Local Open Scope Z_scope.

(** ** 32-bit words *)

Definition is_u32 (x : Z) : Prop := 0 ≤ x < 2 ^ 32.

Definition wrapping_mul (x y : Z) : Z := u32_wrap (x * y).
Definition wrapping_add (x y : Z) : Z := u32_wrap (x + y).
Definition rotate_left (x k : Z) : Z :=
  Z.lor (u32_wrap (Z.shiftl x k)) (Z.shiftr x (32 - k)).

Definition u32_from_le_bytes (b0 b1 b2 b3 : Z) : Z :=
  Z.lor b0 (Z.lor (Z.shiftl b1 8) (Z.lor (Z.shiftl b2 16) (Z.shiftl b3 24))).

Definition byte_z (c : ascii) : Z := Z.of_N (code c).

(** [data[i] as u32]: panics out of range. *)
Definition byte_at {E} (data : str) (i : nat) : result E Z :=
  match data !! i with Some c => Ok (byte_z c) | None => Panics end.

(** ** MurmurHash3 *)

Definition C1 : Z := 0xcc9e2d51.
Definition C2 : Z := 0x1b873593.

Definition fmix32 (h : Z) : Z :=
  let h := Z.lxor h (Z.shiftr h 16) in
  let h := wrapping_mul h 0x85ebca6b in
  let h := Z.lxor h (Z.shiftr h 13) in
  let h := wrapping_mul h 0xc2b2ae35 in
  Z.lxor h (Z.shiftr h 16).

(** [k1 * C1], rotated by 15, [* C2]. *)
Definition mix_k1 (k1 : Z) : Z :=
  let k1 := wrapping_mul k1 C1 in
  let k1 := rotate_left k1 15 in
  wrapping_mul k1 C2.

(** One iteration of the body loop. *)
Definition body_step {E} (data : str) (h1 : Z) (i : nat) : result E Z :=
  let offset := (i * 4)%nat in
  b0 ← byte_at data offset;
  b1 ← byte_at data (offset + 1);
  b2 ← byte_at data (offset + 2);
  b3 ← byte_at data (offset + 3);
  let k1 := mix_k1 (u32_from_le_bytes b0 b1 b2 b3) in
  let h1 := Z.lxor h1 k1 in
  let h1 := rotate_left h1 13 in
  mret (wrapping_add (wrapping_mul h1 5) 0xe6546b64).

(** [for i in 0..n_blocks]. *)
Fixpoint body_loop {E} (data : str) (h1 : Z) (blocks : list nat) : result E Z :=
  match blocks with
  | [] => mret h1
  | i :: rest => h1 ← body_step data h1 i; body_loop data h1 rest
  end.

(** The three arms of the tail [match], which the source writes out separately. *)
Definition tail_mix (tail : str) (h1 : Z) : Z :=
  match tail with
  | [t0; t1; t2] =>
      let k1 := Z.lxor 0 (Z.shiftl (byte_z t2) 16) in
      let k1 := Z.lxor k1 (Z.shiftl (byte_z t1) 8) in
      let k1 := Z.lxor k1 (byte_z t0) in
      Z.lxor h1 (mix_k1 k1)
  | [t0; t1] =>
      let k1 := Z.lxor 0 (Z.shiftl (byte_z t1) 8) in
      let k1 := Z.lxor k1 (byte_z t0) in
      Z.lxor h1 (mix_k1 k1)
  | [t0] =>
      let k1 := Z.lxor 0 (byte_z t0) in
      Z.lxor h1 (mix_k1 k1)
  | _ => h1
  end.

Definition murmurhash3_x86_32 {E} (data : str) (seed : Z) : result E Z :=
  let len := length data in
  let n_blocks := (len / 4)%nat in
  h1 ← body_loop data seed (seq 0 n_blocks);
  let tail := drop (n_blocks * 4) data in
  let h1 := tail_mix tail h1 in
  let h1 := Z.lxor h1 (u32_wrap (Z.of_nat len)) in
  mret (fmix32 h1).

(** ** Buckets *)

Definition nul : ascii := Ascii.zero.

(** [format!("{user_id}\x00{salt}")]. *)
Definition bucket_key (user_id salt : str) : str := user_id ++ nul :: salt.

Definition bucket {E} (user_id salt : str) (total_buckets : Z) : result E Z :=
  if negb (0 <? total_buckets) then Panics
  else
    hash ← murmurhash3_x86_32 (bucket_key user_id salt) 0;
    mret (hash mod total_buckets).

Definition is_in_allocation (b start_bucket end_bucket : Z) : bool :=
  (start_bucket <=? b) && (b <=? end_bucket).

(** ** Specification: the reference algorithm, on lists *)

(** Four bytes at a time; the remainder is the tail. *)
Fixpoint murmur_body (data : str) (h : Z) : Z * str :=
  match data with
  | a :: b :: c :: d :: rest =>
      let k := u32_from_le_bytes (byte_z a) (byte_z b) (byte_z c) (byte_z d) in
      murmur_body rest (u32_wrap (rotate_left (Z.lxor h (mix_k1 k)) 13 * 5 + 0xe6546b64))
  | tail => (h, tail)
  end.

(** The tail as a little-endian number. *)
Fixpoint le_value (s : str) : Z :=
  match s with [] => 0 | c :: s => byte_z c + 256 * le_value s end.

Definition murmur_spec (data : str) (seed : Z) : Z :=
  let '(h, tail) := murmur_body data seed in
  let h := if bool_decide (tail = []) then h else Z.lxor h (mix_k1 (le_value tail)) in
  fmix32 (Z.lxor h (u32_wrap (Z.of_nat (length data)))).

Example hash_vectors :
  (@murmurhash3_x86_32 unit [] 0, @murmurhash3_x86_32 unit (lit "hello") 0,
   @murmurhash3_x86_32 unit (lit "hello") 1) = (Ok 0, Ok 0x248bfa47, Ok 0xbb4abcad).
Proof. vm_compute. reflexivity. Qed.

(** The first entries of [test-vectors/hash_vectors.json]. *)
Example bucket_vectors :
  (λ u, @bucket unit (lit u) (lit "experiment_default_salt") 10000) <$>
    ["user_000000"; "user_000001"; "user_000002"; "user_000003"; "user_000009"]%string
  = [Ok 3913; Ok 4234; Ok 5578; Ok 8009; Ok 27].
Proof. vm_compute. reflexivity. Qed.
