(* ===== verification/HashSpec.v ===== *)
(** Properties of the hash: it is MurmurHash3, its mixing steps are invertible
    on 32-bit words, and buckets lie in range. *)
From Stdlib Require Import Ascii String.
From S2P Require Import Prelude Bytes Hash.

Local Open Scope Z_scope.

(** ** Words *)

Lemma u32_bits x : 0 ≤ x → (x < 2 ^ 32 ↔ ∀ l, 32 ≤ l → Z.testbit x l = false).
Proof. by apply Z.bounded_iff_bits_nonneg. Qed.

Lemma is_u32_wrap x : is_u32 (u32_wrap x).
Proof. apply u32_wrap_range. Qed.

Lemma u32_wrap_id x : is_u32 x → u32_wrap x = x.
Proof. apply Z.mod_small. Qed.

Lemma is_u32_lxor x y : is_u32 x → is_u32 y → is_u32 (Z.lxor x y).
Proof.
  unfold is_u32. intros [Hx Hx'] [Hy Hy'].
  assert (0 ≤ Z.lxor x y) by (apply Z.lxor_nonneg; lia). split; [done|].
  rewrite u32_bits in Hx', Hy' |- * by done. intros l Hl.
  by rewrite Z.lxor_spec, Hx', Hy'.
Qed.

Lemma is_u32_shiftr x k : 0 ≤ k → is_u32 x → is_u32 (Z.shiftr x k).
Proof.
  unfold is_u32. intros Hk [? ?]. rewrite Z.shiftr_div_pow2 by done.
  pose proof (Z.pow_pos_nonneg 2 k). split; [apply Z.div_pos; lia|].
  apply Z.div_lt_upper_bound; nia.
Qed.

Lemma land_disjoint a b k : 0 ≤ k → 0 ≤ a < 2 ^ k → b mod 2 ^ k = 0 → Z.land a b = 0.
Proof.
  intros Hk [Ha Ha'] Hb. apply Z.bits_inj'. intros n Hn.
  rewrite Z.land_spec, Z.bits_0. destruct (decide (n < k)).
  - rewrite <- (Z.mod_pow2_bits_low b k) by lia. by rewrite Hb, Z.bits_0, andb_false_r.
  - by rewrite (proj1 (Z.bounded_iff_bits_nonneg k a Hk Ha) Ha' n) by lia.
Qed.

Lemma lor_add a b k : 0 ≤ k → 0 ≤ a < 2 ^ k → b mod 2 ^ k = 0 → Z.lor a b = a + b.
Proof. intros Hk Ha Hb. symmetry. by eapply Z.add_nocarry_lor, land_disjoint. Qed.

Lemma lxor_add a b k : 0 ≤ k → 0 ≤ a < 2 ^ k → b mod 2 ^ k = 0 → Z.lxor b a = a + b.
Proof.
  intros Hk Ha Hb. rewrite Z.lxor_comm. symmetry. by eapply Z.add_nocarry_lxor, land_disjoint.
Qed.

Lemma rotate_left_arith x k :
  0 < k < 32 → is_u32 x → rotate_left x k = (x mod 2 ^ (32 - k)) * 2 ^ k + x / 2 ^ (32 - k).
Proof.
  intros Hk [Hx Hx']. unfold rotate_left, u32_wrap.
  assert (2 ^ 32 = 2 ^ (32 - k) * 2 ^ k) as E by (rewrite <- Z.pow_add_r by lia; f_equal; lia).
  rewrite Z.shiftl_mul_pow2, Z.shiftr_div_pow2, E, Zmult_mod_distr_r by lia.
  rewrite Z.lor_comm, (lor_add _ _ k); [lia|lia| |apply Z_mod_mult].
  pose proof (Z.pow_pos_nonneg 2 (32 - k)).
  split; [apply Z.div_pos; lia|apply Z.div_lt_upper_bound; lia].
Qed.

Lemma is_u32_rotate x k : 0 < k < 32 → is_u32 x → is_u32 (rotate_left x k).
Proof.
  intros Hk Hx. rewrite rotate_left_arith by done. destruct Hx as [Hx Hx'].
  assert (2 ^ 32 = 2 ^ (32 - k) * 2 ^ k) as E by (rewrite <- Z.pow_add_r by lia; f_equal; lia).
  pose proof (Z.pow_pos_nonneg 2 (32 - k)). pose proof (Z.pow_pos_nonneg 2 k).
  pose proof (Z.mod_pos_bound x (2 ^ (32 - k))).
  pose proof (Z.div_pos x (2 ^ (32 - k))).
  pose proof (Z.div_lt_upper_bound x (2 ^ (32 - k)) (2 ^ k)).
  unfold is_u32. rewrite E in *. nia.
Qed.

Lemma rotate_left_inv x k :
  0 < k < 32 → is_u32 x → rotate_left (rotate_left x k) (32 - k) = x.
Proof.
  intros Hk Hx. rewrite rotate_left_arith; [|lia|by apply is_u32_rotate].
  rewrite rotate_left_arith by done. replace (32 - (32 - k)) with k by lia.
  destruct Hx as [Hx Hx'].
  assert (2 ^ 32 = 2 ^ (32 - k) * 2 ^ k) as E by (rewrite <- Z.pow_add_r by lia; f_equal; lia).
  pose proof (Z.pow_pos_nonneg 2 (32 - k)). pose proof (Z.pow_pos_nonneg 2 k).
  pose proof (Z.div_pos x (2 ^ (32 - k))).
  pose proof (Z.div_lt_upper_bound x (2 ^ (32 - k)) (2 ^ k)).
  pose proof (Z.div_mod x (2 ^ (32 - k))) as Hdm.
  set (q := x / 2 ^ (32 - k)) in *. set (r := x mod 2 ^ (32 - k)) in *.
  rewrite (Z.add_comm (r * 2 ^ k) q), Z_mod_plus_full, Z.div_add, Z.mod_small, Z.div_small by lia.
  lia.
Qed.

(** Multiplication by [c] is undone by its inverse modulo 2^32. *)
Lemma wrapping_mul_inv c c' x :
  u32_wrap (c * c') = 1 → is_u32 x → wrapping_mul (wrapping_mul x c) c' = x.
Proof.
  intros Hc Hx. unfold wrapping_mul, u32_wrap in *.
  rewrite Z.mul_mod_idemp_l, <- Z.mul_assoc, <- Z.mul_mod_idemp_r, Hc, Z.mul_1_r by lia.
  by apply Z.mod_small.
Qed.

(** [h ^ (h >> k)] is undone by xoring the shifts of its result. *)
Lemma xorshift_16_inv x :
  is_u32 x → Z.lxor (Z.lxor x (Z.shiftr x 16)) (Z.shiftr (Z.lxor x (Z.shiftr x 16)) 16) = x.
Proof.
  intros [Hx Hx']. rewrite u32_bits in Hx' by done. apply Z.bits_inj'. intros n Hn.
  rewrite !Z.lxor_spec, !Z.shiftr_spec, !Z.lxor_spec, !Z.shiftr_spec by lia.
  rewrite (Hx' (n + 16 + 16)) by lia. by destruct (Z.testbit x n), (Z.testbit x (n + 16)).
Qed.

Definition unshift13 (y : Z) : Z := Z.lxor y (Z.lxor (Z.shiftr y 13) (Z.shiftr y 26)).

Lemma xorshift_13_inv x : is_u32 x → unshift13 (Z.lxor x (Z.shiftr x 13)) = x.
Proof.
  intros [Hx Hx']. rewrite u32_bits in Hx' by done. apply Z.bits_inj'. intros n Hn.
  unfold unshift13.
  repeat (rewrite ?Z.lxor_spec; rewrite ?Z.shiftr_spec by lia).
  rewrite (Hx' (n + 26 + 13)) by lia.
  replace (n + 13 + 13) with (n + 26) by lia.
  by destruct (Z.testbit x n), (Z.testbit x (n + 13)), (Z.testbit x (n + 26)).
Qed.

Lemma unshift13_inv y : is_u32 y → Z.lxor (unshift13 y) (Z.shiftr (unshift13 y) 13) = y.
Proof.
  intros [Hx Hx']. rewrite u32_bits in Hx' by done. apply Z.bits_inj'. intros n Hn.
  unfold unshift13.
  repeat (rewrite ?Z.lxor_spec; rewrite ?Z.shiftr_spec by lia).
  rewrite (Hx' (n + 13 + 26)) by lia.
  replace (n + 13 + 13) with (n + 26) by lia.
  by destruct (Z.testbit y n), (Z.testbit y (n + 13)), (Z.testbit y (n + 26)).
Qed.

(** ** The mixing steps are bijections of 32-bit words *)

#[local] Hint Resolve is_u32_lxor is_u32_rotate is_u32_wrap : u32.
#[local] Hint Extern 1 (is_u32 (Z.shiftr _ _)) => apply is_u32_shiftr; [lia|] : u32.
#[local] Hint Extern 1 (is_u32 (wrapping_mul _ _)) => apply is_u32_wrap : u32.
#[local] Hint Extern 1 (0 < _ < 32) => lia : u32.
#[local] Hint Unfold unshift13 : u32.

Definition unfmix32 (h : Z) : Z :=
  let h := Z.lxor h (Z.shiftr h 16) in
  let h := wrapping_mul h 0x7ed1b41d in
  let h := unshift13 h in
  let h := wrapping_mul h 0xa5cb9243 in
  Z.lxor h (Z.shiftr h 16).

Lemma fmix32_u32 h : is_u32 h → is_u32 (fmix32 h).
Proof. intros H. unfold fmix32. cbv zeta. auto 8 with u32. Qed.

Lemma unfmix32_fmix32 h : is_u32 h → unfmix32 (fmix32 h) = h.
Proof.
  intros H. unfold unfmix32, fmix32. cbv zeta.
  rewrite xorshift_16_inv by auto with u32.
  rewrite wrapping_mul_inv by auto with u32.
  rewrite xorshift_13_inv by auto with u32.
  rewrite wrapping_mul_inv by auto with u32.
  by apply xorshift_16_inv.
Qed.

Lemma fmix32_unfmix32 h : is_u32 h → fmix32 (unfmix32 h) = h.
Proof.
  intros H. unfold unfmix32, fmix32. cbv zeta.
  rewrite xorshift_16_inv by auto with u32.
  rewrite wrapping_mul_inv by (try reflexivity; unfold unshift13; auto 8 with u32).
  rewrite unshift13_inv by auto with u32.
  rewrite wrapping_mul_inv by auto with u32.
  by apply xorshift_16_inv.
Qed.

Definition unmix_k1 (k : Z) : Z :=
  wrapping_mul (rotate_left (wrapping_mul k 0x56ed309b) 17) 0xdee13bb1.

Lemma mix_k1_u32 k : is_u32 (mix_k1 k).
Proof. apply is_u32_wrap. Qed.

Lemma unmix_mix k : is_u32 k → unmix_k1 (mix_k1 k) = k.
Proof.
  intros H. unfold unmix_k1, mix_k1, C1, C2. cbv zeta.
  rewrite wrapping_mul_inv by auto with u32.
  rewrite (rotate_left_inv _ 15) by auto with u32.
  by apply wrapping_mul_inv.
Qed.

(** The body's update of [h1] by the mixed block [k]. *)
Definition absorb (h k : Z) : Z :=
  u32_wrap (rotate_left (Z.lxor h k) 13 * 5 + 0xe6546b64).

Definition unabsorb (h' k : Z) : Z :=
  Z.lxor (rotate_left (wrapping_mul (h' - 0xe6546b64) 0xcccccccd) 19) k.

Lemma lxor_cancel x y : Z.lxor (Z.lxor x y) y = x.
Proof. by rewrite Z.lxor_assoc, Z.lxor_nilpotent, Z.lxor_0_r. Qed.

Lemma absorb_inv h k : is_u32 h → is_u32 k → unabsorb (absorb h k) k = h.
Proof.
  intros Hh Hk. unfold unabsorb, absorb.
  set (r := rotate_left _ 13).
  assert (is_u32 r) as Hr by (subst r; auto with u32).
  assert (wrapping_mul (u32_wrap (r * 5 + 0xe6546b64) - 0xe6546b64) 0xcccccccd = r) as ->.
  { unfold wrapping_mul, u32_wrap.
    rewrite <- Z.mul_mod_idemp_l, Zminus_mod_idemp_l, Z.mul_mod_idemp_l by lia.
    replace ((r * 5 + 0xe6546b64 - 0xe6546b64) * 0xcccccccd) with (r * 5 * 0xcccccccd) by lia.
    rewrite <- (Z.mul_mod_idemp_l (r * 5)) by lia. by apply (wrapping_mul_inv 5). }
  subst r. rewrite (rotate_left_inv _ 13) by auto with u32. apply lxor_cancel.
Qed.

Lemma absorb_inj_l h h' k :
  is_u32 h → is_u32 h' → is_u32 k → absorb h k = absorb h' k → h = h'.
Proof. intros Hh Hh' Hk E. by rewrite <- (absorb_inv h k), E, absorb_inv. Qed.

Lemma absorb_inj_r h k k' :
  is_u32 h → is_u32 k → is_u32 k' → absorb h k = absorb h k' → k = k'.
Proof.
  unfold absorb. rewrite !(Z.lxor_comm h). intros Hh Hk Hk'. by apply absorb_inj_l.
Qed.

Lemma fmix32_inj h h' : is_u32 h → is_u32 h' → fmix32 h = fmix32 h' → h = h'.
Proof. intros H H' E. by rewrite <- (unfmix32_fmix32 h), E, unfmix32_fmix32. Qed.

Lemma mix_k1_inj k k' : is_u32 k → is_u32 k' → mix_k1 k = mix_k1 k' → k = k'.
Proof. intros H H' E. by rewrite <- (unmix_mix k), E, unmix_mix. Qed.

Lemma lxor_inj_r a b c : Z.lxor a b = Z.lxor a c → b = c.
Proof. rewrite !(Z.lxor_comm a). intros E. by rewrite <- (lxor_cancel b a), E, lxor_cancel. Qed.

Lemma lxor_inj_l a b c : Z.lxor a c = Z.lxor b c → a = b.
Proof. rewrite !(Z.lxor_comm _ c). apply lxor_inj_r. Qed.

(** ** Bytes of a word *)

Lemma byte_z_range c : 0 ≤ byte_z c < 256.
Proof. unfold byte_z, code. pose proof (N_ascii_bounded c). lia. Qed.

Lemma byte_z_inj c d : byte_z c = byte_z d → c = d.
Proof.
  unfold byte_z, code. intros H. rewrite <- (ascii_N_embedding c), <- (ascii_N_embedding d).
  f_equal. lia.
Qed.

Lemma le_value_range s : 0 ≤ le_value s < 256 ^ Z.of_nat (length s).
Proof.
  induction s as [|c s IH]; simpl; [lia|].
  pose proof (byte_z_range c). rewrite Nat2Z.inj_succ, Z.pow_succ_r by lia. lia.
Qed.

Lemma le_value_inj s t : length s = length t → le_value s = le_value t → s = t.
Proof.
  revert t. induction s as [|c s IH]; intros [|d t] Hl Hv; simplify_eq/=; [done|].
  pose proof (byte_z_range c). pose proof (byte_z_range d).
  rewrite (byte_z_inj c d) by lia. f_equal. apply IH; lia.
Qed.

Lemma le_value_u32 s : (length s ≤ 4)%nat → is_u32 (le_value s).
Proof.
  intros H. pose proof (le_value_range s).
  pose proof (Z.pow_le_mono_r 256 (Z.of_nat (length s)) 4). unfold is_u32. lia.
Qed.

Lemma from_le_bytes_value a b c d :
  u32_from_le_bytes (byte_z a) (byte_z b) (byte_z c) (byte_z d) = le_value [a; b; c; d].
Proof.
  unfold u32_from_le_bytes. simpl.
  pose proof (byte_z_range a). pose proof (byte_z_range b).
  pose proof (byte_z_range c). pose proof (byte_z_range d).
  rewrite !Z.shiftl_mul_pow2 by lia.
  rewrite (lor_add (byte_z c * 2 ^ 16) (byte_z d * 2 ^ 24) 24); [|lia|lia|apply Z_mod_mult].
  rewrite (lor_add (byte_z b * 2 ^ 8) _ 16); [|lia|lia|].
  2: { replace (byte_z c * 2 ^ 16 + byte_z d * 2 ^ 24)
         with ((byte_z c + byte_z d * 256) * 2 ^ 16) by lia. apply Z_mod_mult. }
  rewrite (lor_add (byte_z a) _ 8); [lia|lia|lia|].
  replace (byte_z b * 2 ^ 8 + (byte_z c * 2 ^ 16 + byte_z d * 2 ^ 24))
    with ((byte_z b + (byte_z c * 256 + byte_z d * 65536)) * 2 ^ 8) by lia. apply Z_mod_mult.
Qed.

(** ** The code computes the reference algorithm *)

Lemma body_step_eq {E} data h i a b c d rest :
  drop (i * 4) data = a :: b :: c :: d :: rest →
  @body_step E data h i = Ok (absorb h (mix_k1 (le_value [a; b; c; d]))).
Proof.
  intros Hd. unfold body_step, byte_at.
  rewrite <- (lookup_drop_0 data (i * 4)), <- !lookup_drop, Hd. simpl.
  rewrite from_le_bytes_value. do 2 f_equal. unfold absorb, wrapping_add, wrapping_mul, u32_wrap.
  by rewrite Zplus_mod_idemp_l.
Qed.

Lemma murmur_body_4 a b c d rest h :
  murmur_body (a :: b :: c :: d :: rest) h =
  murmur_body rest (absorb h (mix_k1 (le_value [a; b; c; d]))).
Proof. cbn [murmur_body]. by rewrite from_le_bytes_value. Qed.

Lemma murmur_body_short s h : (length s < 4)%nat → murmur_body s h = (h, s).
Proof. intros H. destruct s as [|? [|? [|? [|? ?]]]]; simpl in *; try done; lia. Qed.

(** Induction over the four-byte blocks of a byte string. *)
Lemma blocks_ind (Q : str → Prop) :
  (∀ s, (length s < 4)%nat → Q s) →
  (∀ a b c d rest, Q rest → Q (a :: b :: c :: d :: rest)) → ∀ s, Q s.
Proof.
  intros Hs Hb s. remember (length s) as n eqn:Hn.
  revert s Hn. induction (lt_wf n) as [n _ IH]. intros s ->.
  destruct s as [|a [|b [|c [|d rest]]]]; try (apply Hs; simpl; lia).
  apply Hb. eapply IH; [|reflexivity]. simpl. lia.
Qed.

Lemma body_loop_eq {E} data s :
  ∀ j h, drop (j * 4) data = s →
  @body_loop E data h (seq j (length s / 4)) = Ok (murmur_body s h).1 ∧
  drop (length s / 4 * 4) s = (murmur_body s h).2 ∧ (length (murmur_body s h).2 < 4)%nat.
Proof.
  induction s as [s Hs|a b c d rest IH] using blocks_ind; intros j h Hd.
  - rewrite murmur_body_short, Nat.div_small by done. by simpl.
  - rewrite murmur_body_4.
    replace (length (a :: b :: c :: d :: rest) / 4)%nat with (S (length rest / 4)).
    2: { change (length (a :: b :: c :: d :: rest)) with (4 + length rest)%nat.
         rewrite <- (Nat.mul_1_l 4) at 2. by rewrite Nat.div_add_l by lia. }
    cbn [seq body_loop]. rewrite (body_step_eq _ _ _ _ _ _ _ _ Hd). simpl mbind.
    apply (IH (S j)). simpl. rewrite <- (drop_app_add data (j * 4) [a; b; c; d] rest Hd).
    simpl. f_equal. lia.
Qed.

Lemma tail_mix_eq t h :
  (length t < 4)%nat →
  tail_mix t h = if bool_decide (t = []) then h else Z.lxor h (mix_k1 (le_value t)).
Proof.
  intros Ht. destruct t as [|a [|b [|c [|? ?]]]]; simpl in Ht; try lia; try done;
    rewrite bool_decide_false by done; unfold tail_mix; do 2 f_equal;
    rewrite ?Z.lxor_0_l, ?Z.shiftl_mul_pow2 by lia; simpl le_value; [lia| |].
  - pose proof (byte_z_range a). rewrite (lxor_add _ _ 8); [lia|lia|lia|apply Z_mod_mult].
  - pose proof (byte_z_range a). pose proof (byte_z_range b).
    rewrite (lxor_add (byte_z b * 2 ^ 8) _ 16); [|lia|lia|apply Z_mod_mult].
    rewrite (lxor_add (byte_z a) _ 8); [lia|lia|lia|].
    replace (byte_z b * 2 ^ 8 + byte_z c * 2 ^ 16)
      with ((byte_z b + byte_z c * 256) * 2 ^ 8) by lia. apply Z_mod_mult.
Qed.

Lemma murmur_ok {E} data seed : @murmurhash3_x86_32 E data seed = Ok (murmur_spec data seed).
Proof.
  unfold murmurhash3_x86_32, murmur_spec. cbv zeta.
  destruct (@body_loop_eq E data data 0 seed eq_refl) as (Hb & Ht & Hl).
  rewrite Hb. unfold mbind, result_bind. cbv beta iota. rewrite Ht.
  rewrite tail_mix_eq by done. by destruct (murmur_body data seed).
Qed.

(** ** Invertibility of the whole hash *)

Lemma absorb_u32 h k : is_u32 (absorb h k).
Proof. apply is_u32_wrap. Qed.

Lemma murmur_body_u32 s h : is_u32 h → is_u32 (murmur_body s h).1.
Proof.
  revert h. induction s as [s Hs|a b c d rest IH] using blocks_ind; intros h Hh.
  - by rewrite murmur_body_short.
  - rewrite murmur_body_4. apply IH, absorb_u32.
Qed.

Lemma murmur_body_tail s h h' : (murmur_body s h).2 = (murmur_body s h').2.
Proof.
  revert h h'. induction s as [s Hs|a b c d rest IH] using blocks_ind; intros h h'.
  - by rewrite !murmur_body_short.
  - rewrite !murmur_body_4. apply IH.
Qed.

Lemma murmur_body_inj s h h' :
  is_u32 h → is_u32 h' → (murmur_body s h).1 = (murmur_body s h').1 → h = h'.
Proof.
  revert h h'. induction s as [s Hs|a b c d rest IH] using blocks_ind; intros h h' Hh Hh'.
  - by rewrite !murmur_body_short.
  - rewrite !murmur_body_4. intros E. apply IH in E; [|apply absorb_u32..].
    apply absorb_inj_l in E; auto using mix_k1_u32.
Qed.

Lemma murmur_spec_u32 s h : is_u32 h → is_u32 (murmur_spec s h).
Proof.
  intros Hh. unfold murmur_spec. pose proof (murmur_body_u32 s h Hh) as Hb.
  destruct (murmur_body s h) as [h1 t]. simpl in Hb.
  apply fmix32_u32. apply is_u32_lxor; [|apply is_u32_wrap].
  case_bool_decide; auto using mix_k1_u32 with u32.
Qed.

Lemma murmur_body_app p q h n :
  length p = (4 * n)%nat → murmur_body (p ++ q) h = murmur_body q (murmur_body p h).1.
Proof.
  revert n h. induction p as [p Hp|a b c d rest IH] using blocks_ind; intros n h Hl.
  - destruct p; [done|]. simpl in *. lia.
  - rewrite <- !app_comm_cons, !murmur_body_4. apply (IH (n - 1)%nat). simpl in Hl. lia.
Qed.

(** The last steps of the hash, from the state after the blocks. *)
Definition finish (len : nat) (r : Z * str) : Z :=
  let '(h, tail) := r in
  fmix32 (Z.lxor (if bool_decide (tail = []) then h else Z.lxor h (mix_k1 (le_value tail)))
            (u32_wrap (Z.of_nat len))).

Lemma murmur_spec_finish s h : murmur_spec s h = finish (length s) (murmur_body s h).
Proof. unfold murmur_spec, finish. by destruct (murmur_body s h). Qed.

Lemma finish_inj_state len h h' t :
  is_u32 h → is_u32 h' → finish len (h, t) = finish len (h', t) → h = h'.
Proof.
  intros Hh Hh' E. unfold finish in E. apply fmix32_inj in E.
  - apply lxor_inj_l in E. case_bool_decide; [done|]. by apply lxor_inj_l in E.
  - apply is_u32_lxor; [|apply is_u32_wrap]. case_bool_decide; auto using mix_k1_u32 with u32.
  - apply is_u32_lxor; [|apply is_u32_wrap]. case_bool_decide; auto using mix_k1_u32 with u32.
Qed.

Lemma finish_inj_tail len h t t' :
  is_u32 h → (0 < length t ≤ 3)%nat → length t = length t' →
  finish len (h, t) = finish len (h, t') → t = t'.
Proof.
  intros Hh Ht Hl E. unfold finish in E.
  rewrite !bool_decide_false in E by (intros ->; simpl in *; lia).
  apply fmix32_inj in E; [|by auto 8 using mix_k1_u32 with u32..].
  apply lxor_inj_l, lxor_inj_r, mix_k1_inj in E; [|apply le_value_u32; lia..].
  by apply le_value_inj.
Qed.

Lemma finish_body_inj len q h h' :
  is_u32 h → is_u32 h' →
  finish len (murmur_body q h) = finish len (murmur_body q h') → h = h'.
Proof.
  intros Hh Hh' E. apply (murmur_body_inj q); [done..|].
  pose proof (murmur_body_u32 q h Hh) as Hb. pose proof (murmur_body_u32 q h' Hh') as Hb'.
  pose proof (murmur_body_tail q h h') as Ht.
  destruct (murmur_body q h) as [h1 t], (murmur_body q h') as [h1' t']. simpl in *. subst t'.
  by apply finish_inj_state in E.
Qed.

(** ** The claims *)



(** The finaliser is a bijection of the 32-bit words, with [unfmix32]
    as its inverse on both sides. *)
Theorem fmix32_bijective h :
  is_u32 h →
  is_u32 (fmix32 h) ∧ unfmix32 (fmix32 h) = h ∧ fmix32 (unfmix32 h) = h.
Proof.
  intros Hh. split_and!; [by apply fmix32_u32|by apply unfmix32_fmix32|by apply fmix32_unfmix32].
Qed.

Lemma fmix32_bijective_witness :
  is_u32 0x12345678 ∧ is_u32 (fmix32 0x12345678) ∧
  unfmix32 (fmix32 0x12345678) = 0x12345678 ∧ fmix32 (unfmix32 0x12345678) = 0x12345678.
Proof. split; [done|]. by apply fmix32_bijective. Defined.

(** No entropy is lost in the hash: for fixed data it is injective in
    the seed, and for a fixed seed two inputs of the same length that differ only
    inside one aligned four-byte word (or inside the tail) never collide. *)
Theorem murmurhash3_no_local_collision p w w' q seed seed' h n :
  is_u32 seed → is_u32 seed' →
  (@murmurhash3_x86_32 unit (p ++ w ++ q) seed = Ok h →
   @murmurhash3_x86_32 unit (p ++ w ++ q) seed' = Ok h → seed = seed') ∧
  (length p = (4 * n)%nat → length w = length w' →
   length w = 4%nat ∨ (0 < length w ≤ 3)%nat ∧ q = [] →
   @murmurhash3_x86_32 unit (p ++ w ++ q) seed = Ok h →
   @murmurhash3_x86_32 unit (p ++ w' ++ q) seed = Ok h → w = w').
Proof.
  intros Hs Hs'. rewrite !murmur_ok. split.
  { intros [= <-] [= E]. rewrite !murmur_spec_finish in E. by eapply finish_body_inj. }
  intros Hp Hl Hc [= <-] [= E]. rewrite !murmur_spec_finish, !length_app, Hl in E.
  rewrite !(murmur_body_app p _ _ n) in E by done.
  pose proof (murmur_body_u32 p seed Hs) as Hh. set (hp := (murmur_body p seed).1) in *.
  destruct Hc as [H4|[Hw ->]].
  - apply le_value_inj; [done|].
    rewrite H4 in Hl.
    destruct w as [|a [|b [|c [|d [|? ?]]]]], w' as [|a' [|b' [|c' [|d' [|? ?]]]]]; try done.
    rewrite <- !app_comm_cons, !app_nil_l, !murmur_body_4 in E.
    apply finish_body_inj, absorb_inj_r, mix_k1_inj in E;
      auto using absorb_u32, mix_k1_u32, le_value_u32.
  - rewrite !app_nil_r, !murmur_body_short in E by lia.
    symmetry. apply (finish_inj_tail _ _ _ _ Hh) in E; auto with lia.
Qed.

Lemma murmurhash3_no_local_collision_witness :
  @murmurhash3_x86_32 unit (lit "user" ++ lit "_001" ++ lit "x") 7 = Ok 169177727 ∧
  @murmurhash3_x86_32 unit (lit "user" ++ lit "_002" ++ lit "x") 7 ≠ Ok 169177727.
Proof.
  assert (is_u32 7) as H7 by done.
  assert (@murmurhash3_x86_32 unit (lit "user" ++ lit "_001" ++ lit "x") 7 = Ok 169177727) as H1
    by (vm_compute; reflexivity).
  split; [exact H1|]. intros H2.
  discriminate (proj2 (murmurhash3_no_local_collision (lit "user") (lit "_001") (lit "_002")
    (lit "x") 7 7 169177727 1 H7 H7) eq_refl eq_refl (or_introl eq_refl) H1 H2).
Defined.

Lemma bucket_key_inj u s u' s' :
  nul ∉ u → nul ∉ u' → bucket_key u s = bucket_key u' s' → u = u' ∧ s = s'.
Proof.
  unfold bucket_key. revert u'.
  induction u as [|c u IH]; intros [|c' u']; rewrite ?not_elem_of_cons; simpl.
  - intros _ _ [= ->]. done.
  - intros _ [Hn _] [= E _]. done.
  - intros [Hn _] _ [= E _]. done.
  - intros [_ Hu] [_ Hu'] [= -> E]. by destruct (IH u' Hu Hu' E) as [-> ->].
Qed.

(** Bucketing is total for a positive bucket count: the bucket is the
    hash of the separated key modulo the count and lies in [0, total); a count of
    0 panics; and users whose ids hold no NUL byte share a key only when id and
    salt are equal. *)
Theorem bucket_correct u s n :
  (0 < n → ∃ b, @bucket unit u s n = Ok b ∧ 0 ≤ b < n ∧
                b = murmur_spec (bucket_key u s) 0 mod n) ∧
  @bucket unit u s 0 = Panics ∧
  (∀ u' s', nul ∉ u → nul ∉ u' → bucket_key u s = bucket_key u' s' → u = u' ∧ s = s').
Proof.
  split_and!; [|done|intros u' s'; apply bucket_key_inj].
  intros Hn. unfold bucket. rewrite (proj2 (Z.ltb_lt 0 n) Hn). simpl negb. cbv iota.
  rewrite murmur_ok. eexists. split; [reflexivity|]. split; [|done]. by apply Z.mod_pos_bound.
Qed.

(** The separator does not keep every pair of strings apart: a NUL byte inside the
    user id or the salt moves it. *)
Lemma bucket_key_nul_collision n :
  let u := lit "a" in let s := lit "b" ++ nul :: lit "c" in
  let u' := lit "a" ++ nul :: lit "b" in let s' := lit "c" in
  u ≠ u' ∧ @bucket unit u s n = @bucket unit u' s' n.
Proof. split; [discriminate|reflexivity]. Qed.
