(* ===== verification/Config.v ===== *)
(** Assignment configuration ([experimentation-assignment/src/config.rs]): the
    experiment and layer records the assignment service reads, and the indexes
    built over them. Decoding JSON is the serde library's and is not modelled. *)
From Stdlib Require Import Ascii String.
From S2P Require Import Prelude Bytes F64.

Record TargetingPredicate := mk_targeting_predicate
  { attribute_key : str; tp_operator : str; tp_values : list str }.
Record TargetingGroup := mk_targeting_group { tg_predicates : list TargetingPredicate }.
Record TargetingRule := mk_targeting_rule { groups : list TargetingGroup }.

Record SessionConfig := mk_session_config
  { session_id_attribute : str; allow_cross_session_variation : bool }.

Record InterleavingConfig := mk_interleaving_config
  { il_method : str; algorithm_ids : list str; max_list_size : nat }.

Record SlateConfig := mk_slate_config { num_slots : Z; candidate_pool_size : Z }.

Record BanditArmConfig := mk_bandit_arm_config
  { arm_id : str; arm_name : str; arm_payload_json : str }.

Record BanditConfig := mk_bandit_config
  { algorithm : str; arms : list BanditArmConfig; reward_metric_id : str;
    context_feature_keys : list str; min_exploration_fraction : f64;
    warmup_observations : Z; content_id : option str; cold_start_window_days : option Z;
    slate_config : option SlateConfig }.

Record SwitchbackConfig := mk_switchback_config
  { block_duration_secs : Z; planned_cycles : Z; cluster_attribute : str;
    washout_period_secs : Z; design : str }.

Record MetaVariantObjective := mk_meta_variant_objective
  { mvo_variant_id : str; reward_weights : gmap str f64 }.
Record MetaExperimentConfig := mk_meta_experiment_config
  { base_algorithm : str; variant_objectives : list MetaVariantObjective;
    outcome_metric_ids : list str }.

Record VariantConfig := mk_variant_config
  { variant_id : str; traffic_fraction : f64; is_control : bool; payload_json : str }.

Record AllocationConfig := mk_allocation_config { start_bucket : Z; end_bucket : Z }.

Record LayerConfig := mk_layer_config { lc_layer_id : str; total_buckets : Z }.

(** The field [r#type] is [exp_type]. *)
Record ExperimentConfig := mk_experiment_config
  { experiment_id : str; exp_name : str; state : str; exp_type : str; hash_salt : str;
    layer_id : str; variants : list VariantConfig; allocation : AllocationConfig;
    targeting_rule : option TargetingRule; session_config : option SessionConfig;
    interleaving_config : option InterleavingConfig; bandit_config : option BanditConfig;
    is_cumulative_holdout : bool; switchback_config : option SwitchbackConfig;
    meta_experiment_config : option MetaExperimentConfig }.

Record Config := mk_config
  { experiments : list ExperimentConfig; layers : list LayerConfig;
    experiments_by_id : gmap str ExperimentConfig; layers_by_id : gmap str LayerConfig }.

(** [iter().map(|e| (key, e)).collect::<HashMap<_, _>>()]: a later entry replaces an
    earlier one with the same key. *)
Definition index_by {A} (key : A → str) (l : list A) : gmap str A :=
  fold_left (λ m e, <[key e := e]> m) l ∅.

Definition from_experiments_and_layers (es : list ExperimentConfig) (ls : list LayerConfig) :
    Config :=
  mk_config es ls (index_by experiment_id es) (index_by lc_layer_id ls).

(** [assert_finite]. *)
Definition assert_finite {E} (x : f64) : result E unit :=
  if f64_is_finite x then Ok tt else Panics.

(** [from_json], after decoding: every traffic fraction is checked, then the indexes
    are built. *)
Definition from_decoded {E} (c : Config) : result E Config :=
  if forallb (λ e, forallb (λ v, f64_is_finite (traffic_fraction v)) (variants e)) (experiments c)
  then Ok (from_experiments_and_layers (experiments c) (layers c))
  else Panics.

(** ** The indexes *)

Section index.
Context {A : Type} (key : A → str).

Lemma index_by_snoc l e : index_by key (l ++ [e]) = <[key e := e]> (index_by key l).
Proof. unfold index_by. by rewrite fold_left_app. Qed.

(** A key maps to the last element of the list that carries it. *)
Lemma index_by_lookup l k e :
  index_by key l !! k = Some e ↔
  key e = k ∧ ∃ l1 l2, l = l1 ++ e :: l2 ∧ Forall (λ x, key x ≠ k) l2.
Proof.
  induction l as [|x l IH] using rev_ind.
  { unfold index_by. simpl. rewrite lookup_empty. split; [done|].
    intros (_ & [|? ?] & l2 & ? & _); done. }
  rewrite index_by_snoc, lookup_insert_Some, IH. split.
  - intros [[Hk ->]|(Hk & He & l1 & l2 & -> & Hl2)].
    + split; [done|]. by exists l, [].
    + split; [done|]. exists l1, (l2 ++ [x]).
      rewrite <- app_assoc, Forall_app, Forall_singleton. done.
  - intros (He & l1 & l2 & Heq & Hl2). destruct l2 as [|y l2 _] using rev_ind.
    + apply app_inj_tail in Heq as [-> ->]. by left.
    + rewrite app_comm_cons, app_assoc in Heq. apply app_inj_tail in Heq as [-> ->].
      apply Forall_app in Hl2 as [Hl2 Hy]. rewrite Forall_singleton in Hy. right.
      split; [done|]. split; [done|]. eauto.
Qed.

Lemma index_by_elem l k e : index_by key l !! k = Some e → e ∈ l ∧ key e = k.
Proof.
  rewrite index_by_lookup. intros (? & l1 & l2 & -> & _). set_solver.
Qed.

(** With distinct keys every element is found under its own. *)
Lemma index_by_nodup l e : NoDup (key <$> l) → e ∈ l → index_by key l !! key e = Some e.
Proof.
  intros Hnd He. apply index_by_lookup. split; [done|].
  apply list_elem_of_split in He as (l1 & l2 & ->). exists l1, l2. split; [done|].
  rewrite fmap_app, fmap_cons in Hnd. apply NoDup_app in Hnd as (_ & _ & Hnd).
  apply NoDup_cons in Hnd as [Hk _]. apply Forall_forall. intros x Hx Hxk. apply Hk.
  rewrite <- Hxk. by apply list_elem_of_fmap_2.
Qed.
End index.
