(* ===== verification/Targeting.v ===== *)
(** Targeting rules ([experimentation-assignment/src/targeting.rs]). *)
From Stdlib Require Import Ascii String.
From S2P Require Import Prelude Bytes F64 Config.

Abbreviation attributes := (gmap str str).

(** [s == "LITERAL"]. *)
Definition is_lit (s : str) (l : string) : bool := bool_decide (s = lit l).

Definition compare_numeric (attr_value : str) (vals : list str) (cmp : f64 → f64 → bool) : bool :=
  match f64_parse attr_value with
  | None => false
  | Some a =>
      match head vals ≫= f64_parse with
      | Some b => cmp a b
      | None => false
      end
  end.

(** [Option::is_some_and]. *)
Definition is_some_and {A} (o : option A) (p : A → bool) : bool :=
  match o with Some a => p a | None => false end.

Definition evaluate_predicate (pred : TargetingPredicate) (attrs : attributes) : bool :=
  match attrs !! attribute_key pred with
  | None => false
  | Some attr_value =>
      let op := tp_operator pred in
      let vals := tp_values pred in
      if is_lit op "EQUALS" then is_some_and (head vals) (λ v, bool_decide (v = attr_value))
      else if is_lit op "NOT_EQUALS" then
        is_some_and (head vals) (λ v, negb (bool_decide (v = attr_value)))
      else if is_lit op "IN" then existsb (λ v, bool_decide (v = attr_value)) vals
      else if is_lit op "NOT_IN" then negb (existsb (λ v, bool_decide (v = attr_value)) vals)
      else if is_lit op "CONTAINS" then is_some_and (head vals) (λ v, contains attr_value v)
      else if is_lit op "GT" || is_lit op "GREATER_THAN" then compare_numeric attr_value vals f64_gt
      else if is_lit op "LT" || is_lit op "LESS_THAN" then compare_numeric attr_value vals f64_lt
      else if is_lit op "GTE" then compare_numeric attr_value vals f64_ge
      else if is_lit op "LTE" then compare_numeric attr_value vals f64_le
      else false
  end.

Definition evaluate_group (group : TargetingGroup) (attrs : attributes) : bool :=
  match tg_predicates group with
  | [] => true
  | preds => existsb (λ p, evaluate_predicate p attrs) preds
  end.

Definition evaluate (rule : TargetingRule) (attrs : attributes) : bool :=
  match groups rule with
  | [] => true
  | gs => forallb (λ g, evaluate_group g attrs) gs
  end.

(** ** Specification *)

Inductive operator_matches : str → list str → str → Prop :=
| om_equals vs v : operator_matches (lit "EQUALS") (v :: vs) v
| om_not_equals vs w v : w ≠ v → operator_matches (lit "NOT_EQUALS") (w :: vs) v
| om_in vs v : v ∈ vs → operator_matches (lit "IN") vs v
| om_not_in vs v : v ∉ vs → operator_matches (lit "NOT_IN") vs v
| om_contains vs w pre post : operator_matches (lit "CONTAINS") (w :: vs) (pre ++ w ++ post)
| om_numeric op cmp vs w v x y :
    (op, cmp) ∈ [(lit "GT", f64_gt); (lit "GREATER_THAN", f64_gt); (lit "LT", f64_lt);
                 (lit "LESS_THAN", f64_lt); (lit "GTE", f64_ge); (lit "LTE", f64_le)] →
    f64_parse v = Some x → f64_parse w = Some y → cmp x y = true →
    operator_matches op (w :: vs) v.

Definition predicate_holds (attrs : attributes) (p : TargetingPredicate) : Prop :=
  ∃ v, attrs !! attribute_key p = Some v ∧ operator_matches (tp_operator p) (tp_values p) v.

Definition group_holds (attrs : attributes) (g : TargetingGroup) : Prop :=
  tg_predicates g = [] ∨ Exists (predicate_holds attrs) (tg_predicates g).

(** A conjunction of disjunctions. *)
Definition rule_holds (attrs : attributes) (r : TargetingRule) : Prop :=
  Forall (group_holds attrs) (groups r).

Lemma existsb_eq_spec (vs : list str) v :
  existsb (λ w, bool_decide (w = v)) vs = true ↔ v ∈ vs.
Proof.
  rewrite existsb_exists. setoid_rewrite bool_decide_eq_true. setoid_rewrite <- list_elem_of_In.
  naive_solver.
Qed.

Lemma compare_numeric_spec v vs cmp :
  compare_numeric v vs cmp = true ↔
  ∃ w vs' x y, vs = w :: vs' ∧ f64_parse v = Some x ∧ f64_parse w = Some y ∧ cmp x y = true.
Proof.
  unfold compare_numeric. destruct (f64_parse v) as [x|]; [|naive_solver].
  destruct vs as [|w vs]; simpl; [naive_solver|].
  destruct (f64_parse w) as [y|] eqn:Hy; [|naive_solver].
  split; [intros ?; by exists w, vs, x, y|naive_solver].
Qed.

Lemma is_lit_true s l : is_lit s l = true ↔ s = lit l.
Proof. unfold is_lit. by rewrite bool_decide_eq_true. Qed.

Lemma evaluate_predicate_complete attrs p v :
  attrs !! attribute_key p = Some v →
  operator_matches (tp_operator p) (tp_values p) v → evaluate_predicate p attrs = true.
Proof.
  intros Hv Hm. unfold evaluate_predicate. rewrite Hv. cbv zeta.
  destruct Hm as [vs v|vs w v Hne|vs v Hin|vs v Hin|vs w pre post|op cmp vs w v x y Hop Hx Hy Hc].
  - change (is_lit (lit "EQUALS") "EQUALS") with true. simpl. by apply bool_decide_eq_true.
  - change (is_lit (lit "NOT_EQUALS") "EQUALS") with false.
    change (is_lit (lit "NOT_EQUALS") "NOT_EQUALS") with true. simpl.
    by rewrite bool_decide_false.
  - change (existsb (λ w, bool_decide (w = v)) vs = true). by apply existsb_eq_spec.
  - change (negb (existsb (λ w, bool_decide (w = v)) vs) = true).
    apply negb_true_iff, not_true_iff_false. by rewrite existsb_eq_spec.
  - change (contains (pre ++ w ++ post) w = true). apply contains_spec. eauto.
  - assert (compare_numeric v (w :: vs) cmp = true) as Hn
      by (apply compare_numeric_spec; eauto 8).
    rewrite !elem_of_cons, elem_of_nil in Hop.
    destruct_or! Hop; simplify_eq; exact Hn || done.
Qed.

Lemma evaluate_predicate_sound attrs p :
  evaluate_predicate p attrs = true → predicate_holds attrs p.
Proof.
  unfold evaluate_predicate, predicate_holds.
  destruct (attrs !! attribute_key p) as [v|]; [|done]. cbv zeta. intros H. exists v.
  split; [done|]. revert H. generalize (tp_operator p), (tp_values p). intros op vs.
  assert (∀ cmp, (op, cmp) ∈ [(lit "GT", f64_gt); (lit "GREATER_THAN", f64_gt);
      (lit "LT", f64_lt); (lit "LESS_THAN", f64_lt); (lit "GTE", f64_ge); (lit "LTE", f64_le)] →
      compare_numeric v vs cmp = true → operator_matches op vs v) as Hnum.
  { intros cmp Hop Hc. apply compare_numeric_spec in Hc as (w & vs' & x & y & -> & ? & ? & ?).
    by eapply om_numeric. }
  repeat match goal with
  | |- context [if ?b then _ else _] => destruct b eqn:?
  end; rewrite ?orb_true_iff, ?is_lit_true in *; subst; intros H; try done.
  - destruct vs as [|w vs]; [done|]. simpl in H. apply bool_decide_eq_true in H as ->. constructor.
  - destruct vs as [|w vs]; [done|]. simpl in H. rewrite negb_true_iff, bool_decide_eq_false in H.
    by constructor.
  - constructor. by apply existsb_eq_spec.
  - constructor. by rewrite <- existsb_eq_spec, not_true_iff_false, <- negb_true_iff.
  - destruct vs as [|w vs]; [done|]. apply contains_spec in H as (u & t & ->). constructor.
  - apply (Hnum f64_gt); [|done]. rewrite !elem_of_cons. naive_solver.
  - apply (Hnum f64_lt); [|done]. rewrite !elem_of_cons. naive_solver.
  - apply (Hnum f64_ge); [|done]. rewrite !elem_of_cons. naive_solver.
  - apply (Hnum f64_le); [|done]. rewrite !elem_of_cons. naive_solver.
Qed.

Lemma evaluate_predicate_spec attrs p :
  evaluate_predicate p attrs = true ↔ predicate_holds attrs p.
Proof.
  split; [apply evaluate_predicate_sound|].
  intros (v & Hv & Hm). by eapply evaluate_predicate_complete.
Qed.

Lemma evaluate_group_spec attrs g : evaluate_group g attrs = true ↔ group_holds attrs g.
Proof.
  unfold evaluate_group, group_holds. destruct (tg_predicates g) as [|p ps]; [naive_solver|].
  rewrite existsb_exists, Exists_exists. setoid_rewrite list_elem_of_In.
  setoid_rewrite evaluate_predicate_spec. naive_solver.
Qed.

Lemma evaluate_rule_spec attrs r : evaluate r attrs = true ↔ rule_holds attrs r.
Proof.
  unfold evaluate, rule_holds. destruct (groups r) as [|g gs]; [done|].
  rewrite forallb_forall, Forall_forall. setoid_rewrite list_elem_of_In.
  by setoid_rewrite evaluate_group_spec.
Qed.

(** Targeting is the conjunction over groups of the disjunction over
    predicates, an empty rule or group matching everyone; a missing attribute never
    matches, so more attributes never make an eligible user ineligible. *)
Theorem evaluate_spec r attrs :
  (evaluate r attrs = true ↔ rule_holds attrs r) ∧
  (∀ attrs', attrs ⊆ attrs' → evaluate r attrs = true → evaluate r attrs' = true).
Proof.
  split; [apply evaluate_rule_spec|]. intros attrs' Hsub. rewrite !evaluate_rule_spec.
  intros Hr. eapply Forall_impl; [exact Hr|]. intros g [?|Hex]; [by left|right].
  eapply Exists_impl; [exact Hex|]. intros p (v & Hv & Hm). exists v.
  split; [|done]. by eapply lookup_weaken.
Qed.

Lemma evaluate_spec_witness :
  let r := mk_targeting_rule [mk_targeting_group
    [mk_targeting_predicate (lit "age") (lit "GTE") [lit "18"]]] in
  let attrs := {[lit "age" := lit "21.5"]} in
  attrs ⊆ <[lit "country" := lit "FR"]> attrs ∧
  evaluate r (<[lit "country" := lit "FR"]> attrs) = true.
Proof.
  split; [by apply insert_subseteq|].
  apply (proj2 (evaluate_spec _ {[lit "age" := lit "21.5"]}));
    [by apply insert_subseteq|vm_compute; reflexivity].
Defined.
