(* ===== verification/Switchback.v ===== *)
(** Switchback assignment ([experimentation-assignment/src/switchback.rs]): blocks
    of wall-clock time, the washout window and the three designs. *)
From Stdlib Require Import Ascii String Zquot.
From stdpp Require Import pretty.
From S2P Require Import Prelude Bytes F64 Config Targeting Hash HashSpec.

Local Open Scope Z_scope.

Definition MIN_BLOCK_DURATION_SECS : Z := 3600.
Definition MIN_PLANNED_CYCLES : Z := 4.

(** [div_euclid]/[rem_euclid] with a positive divisor are [Z.div]/[Z.modulo]. *)
Definition compute_block_index (current_unix_secs block_duration_secs : Z) : Z :=
  if block_duration_secs <=? 0 then 0 else current_unix_secs / block_duration_secs.

Definition is_in_washout (current_unix_secs block_duration_secs washout_period_secs : Z) : bool :=
  if (washout_period_secs <=? 0) || (block_duration_secs <=? 0) then false
  else
    let offset_in_block := current_unix_secs mod block_duration_secs in
    offset_in_block <? washout_period_secs.

(** [format!("{n}")] of an [i64]. *)
Definition i64_to_string (n : Z) : str := lit (pretty n).

(** Rust's [%] truncates toward zero. *)
Definition simple_alternating (block_index : Z) : bool := negb (Z.rem block_index 2 =? 0).

Definition regular_balanced {E} (block_index : Z) (cluster_value experiment_id : str) :
    result E bool :=
  let seed := cluster_value ++ nul :: experiment_id ++ nul :: lit "group" in
  h ← murmurhash3_x86_32 seed 0;
  let group := h mod 2 in
  let base := simple_alternating block_index in
  mret (if group =? 0 then base else negb base).

Definition randomized {E} (block_index : Z) (cluster_value experiment_id : str) :
    result E bool :=
  let seed := experiment_id ++ nul :: cluster_value ++ nul :: i64_to_string block_index in
  hash ← murmurhash3_x86_32 seed 0;
  mret (negb (hash mod 2 =? 0)).

(** [iter().position(p)]. *)
Fixpoint position {A} (p : A → bool) (l : list A) : option nat :=
  match l with
  | [] => None
  | x :: l => if p x then Some 0%nat else S <$> position p l
  end.

(** [variants[i]]. *)
Definition index {E A} (l : list A) (i : nat) : result E A :=
  match l !! i with Some x => Ok x | None => Panics end.

Definition select_variant {E} (block_index : Z) (design cluster_value experiment_id : str)
    (variants : list VariantConfig) : result E VariantConfig :=
  if bool_decide (variants = []) then Panics
  else
    let control_idx := default 0%nat (position is_control variants) in
    let treatment_idx :=
      if (control_idx =? 0)%nat then Nat.min 1 (length variants - 1) else 0%nat in
    use_treatment ←
      (if is_lit design "REGULAR_BALANCED"
       then regular_balanced block_index cluster_value experiment_id
       else if is_lit design "RANDOMIZED" then randomized block_index cluster_value experiment_id
       else mret (simple_alternating block_index));
    if use_treatment : bool then index variants treatment_idx else index variants control_idx.

Inductive SwitchbackError :=
| BlockTooShort (secs : Z)
| TooFewCycles (cycles : Z)
| WashoutNegative (secs : Z)
| WashoutTooLong (washout block : Z).

Definition validate_config (config : SwitchbackConfig) : result SwitchbackError unit :=
  _ ← reject_if (block_duration_secs config <? MIN_BLOCK_DURATION_SECS)
        (BlockTooShort (block_duration_secs config));
  _ ← reject_if (planned_cycles config <? MIN_PLANNED_CYCLES)
        (TooFewCycles (planned_cycles config));
  _ ← reject_if (washout_period_secs config <? 0) (WashoutNegative (washout_period_secs config));
  _ ← reject_if ((0 <? washout_period_secs config)
                 && (block_duration_secs config <=? washout_period_secs config))
        (WashoutTooLong (washout_period_secs config) (block_duration_secs config));
  mret tt.

(** ** Blocks and washout *)

Definition block_start (n d : Z) : Z := n * d.

Lemma block_index_unique t d n :
  0 < d → (compute_block_index t d = n ↔ block_start n d ≤ t < block_start (n + 1) d).
Proof.
  intros Hd. unfold compute_block_index, block_start.
  destruct (d <=? 0) eqn:E; [lia|]. pose proof (Z.div_mod t d). pose proof (Z.mod_pos_bound t d).
  split; [intros <-; lia|]. intros. symmetry. apply (Z.div_unique t d n (t - n * d)); lia.
Qed.

Lemma washout_window t d w :
  0 < d →
  (is_in_washout t d w = true ↔
   let s := block_start (compute_block_index t d) d in s ≤ t < s + w).
Proof.
  intros Hd. unfold is_in_washout, compute_block_index, block_start. cbv zeta.
  destruct (d <=? 0) eqn:E; [lia|]. pose proof (Z.div_mod t d). pose proof (Z.mod_pos_bound t d).
  destruct (w <=? 0) eqn:Ew; simpl; lia.
Qed.

Definition config_ok (c : SwitchbackConfig) : Prop :=
  3600 ≤ block_duration_secs c ∧ 4 ≤ planned_cycles c ∧
  0 ≤ washout_period_secs c < block_duration_secs c.

Lemma validate_config_ok c : validate_config c = Ok tt ↔ config_ok c.
Proof.
  unfold validate_config, config_ok, MIN_BLOCK_DURATION_SECS, MIN_PLANNED_CYCLES. split.
  - intros H. ok_inv. lia.
  - intros (H1 & H2 & H3).
    replace (block_duration_secs c <? 3600) with false by lia.
    replace (planned_cycles c <? 4) with false by lia.
    replace (washout_period_secs c <? 0) with false by lia.
    replace (block_duration_secs c <=? washout_period_secs c) with false by lia.
    by rewrite andb_false_r.
Qed.

(** ** Variant selection *)

Lemma position_lookup {A} (p : A → bool) l i :
  position p l = Some i → ∃ x, l !! i = Some x ∧ p x = true.
Proof.
  revert i. induction l as [|x l IH]; intros i; simpl; [done|].
  destruct (p x) eqn:Hp; [intros [= <-]; by exists x|].
  destruct (position p l) as [j|]; simpl; [|done]. intros [= <-]. by apply IH.
Qed.

Lemma position_none {A} (p : A → bool) l : position p l = None → Forall (λ x, p x = false) l.
Proof.
  induction l as [|x l IH]; simpl; [done|].
  destruct (p x) eqn:Hp; [done|]. destruct (position p l); [done|]. auto.
Qed.

(** The arm of a design in a block: [true] is treatment. *)
Definition design_arm (design cluster_value experiment_id : str) (block_index : Z) : bool :=
  if is_lit design "REGULAR_BALANCED" then
    let h := murmur_spec (cluster_value ++ nul :: experiment_id ++ nul :: lit "group") 0 in
    xorb (Z.odd block_index) (Z.odd h)
  else if is_lit design "RANDOMIZED" then
    Z.odd (murmur_spec (experiment_id ++ nul :: cluster_value ++ nul ::
                        i64_to_string block_index) 0)
  else Z.odd block_index.

Lemma simple_alternating_odd b : simple_alternating b = Z.odd b.
Proof.
  unfold simple_alternating. rewrite Zrem_odd.
  destruct (Z.odd b) eqn:Ho; [|done]. destruct b; [discriminate Ho|done|done].
Qed.

Lemma mod2_odd h : (h mod 2 =? 0) = negb (Z.odd h).
Proof. rewrite Zmod_odd. by destruct (Z.odd h). Qed.

(** The arm [select_variant] computes, panics aside. *)
Lemma use_treatment_eq {E} b design cv eid :
  (if is_lit design "REGULAR_BALANCED" then regular_balanced b cv eid
   else if is_lit design "RANDOMIZED" then randomized b cv eid
   else mret (simple_alternating b)) = @Ok E bool (design_arm design cv eid b).
Proof.
  unfold design_arm. destruct (is_lit design "REGULAR_BALANCED");
    [|destruct (is_lit design "RANDOMIZED")].
  - unfold regular_balanced. rewrite murmur_ok. simpl.
    rewrite mod2_odd, simple_alternating_odd. do 2 f_equal.
    by destruct (Z.odd b), (Z.odd (murmur_spec _ 0)).
  - unfold randomized. rewrite murmur_ok. simpl. by rewrite mod2_odd, negb_involutive.
  - by rewrite simple_alternating_odd.
Qed.

(** One control variant, and another one. *)
Definition one_control (vs : list VariantConfig) : Prop :=
  (2 ≤ length vs)%nat ∧ length (filter (λ v, is_control v = true) vs) = 1%nat.

Lemma one_control_other vs i j v w :
  one_control vs → i ≠ j → vs !! i = Some v → vs !! j = Some w →
  is_control v = true → is_control w = false.
Proof.
  intros [_ H1] Hij Hi Hj Hv. destruct (is_control w) eqn:Hw; [exfalso|done].
  revert i j Hij Hi Hj. induction vs as [|x vs IH]; intros i j Hij Hi Hj; [done|].
  assert (∀ k y, vs !! k = Some y → is_control y = true →
    0 < length (filter (λ v, is_control v = true) vs))%nat as Hpos.
  { intros k y Hk Hy. assert (y ∈ filter (λ v, is_control v = true) vs) as Hin
      by (apply list_elem_of_filter; eauto using list_elem_of_lookup_2).
    destruct (filter _ vs); [by apply elem_of_nil in Hin|simpl; lia]. }
  rewrite filter_cons in H1. case_decide as Hx; simpl in H1.
  - destruct i, j; simplify_eq/=; try done;
      [pose proof (Hpos _ _ Hj Hw)|pose proof (Hpos _ _ Hi Hv)|pose proof (Hpos _ _ Hj Hw)]; lia.
  - destruct i, j; simplify_eq/=; eauto.
Qed.

Lemma one_control_position vs : one_control vs → ∃ i, position is_control vs = Some i.
Proof.
  intros [_ H1]. destruct (position is_control vs) as [i|] eqn:Hp; [eauto|exfalso].
  apply position_none in Hp. destruct (filter _ vs) as [|v l] eqn:Hf; [done|].
  assert (v ∈ filter (λ v, is_control v = true) vs) as Hin by (rewrite Hf; left).
  apply list_elem_of_filter in Hin as [Hv Hin]. rewrite Forall_forall in Hp.
  by rewrite Hp in Hv.
Qed.

Lemma select_variant_total {E} b design cv eid vs :
  vs ≠ [] → ∃ v, @select_variant E b design cv eid vs = Ok v ∧ v ∈ vs ∧
    (one_control vs → is_control v = negb (design_arm design cv eid b)).
Proof.
  intros Hne. unfold select_variant. rewrite bool_decide_false, use_treatment_eq by done.
  cbv zeta. unfold mbind, result_bind. cbv beta iota.
  set (ci := default 0%nat (position is_control vs)).
  set (ti := if (ci =? 0)%nat then Nat.min 1 (length vs - 1) else 0%nat).
  assert (0 < length vs)%nat as Hlen by (destruct vs; [done|simpl; lia]).
  assert (ci < length vs)%nat as Hci.
  { subst ci. destruct (position is_control vs) as [i|] eqn:Hp; simpl; [|done].
    apply position_lookup in Hp as (x & Hx & _). by apply lookup_lt_Some in Hx. }
  destruct (lookup_lt_is_Some_2 vs ci Hci) as [c Hc].
  destruct (lookup_lt_is_Some_2 vs ti) as [t Ht].
  { subst ti. destruct (ci =? 0)%nat; lia. }
  assert (one_control vs → is_control c = true ∧ is_control t = false) as Hone.
  { intros H1. destruct (one_control_position vs H1) as [i Hp].
    assert (ci = i) as Hi by (subst ci; by rewrite Hp). clearbody ci. subst ci.
    apply position_lookup in Hp as (x & Hx & Hxc). simplify_eq. split; [done|].
    eapply (one_control_other vs i ti); [done| |done..].
    destruct H1 as [? _]. subst ti. destruct (Nat.eqb_spec i 0); lia. }
  unfold index. destruct (design_arm _ _ _ _).
  - rewrite Ht. exists t. split_and!; [done|by eapply list_elem_of_lookup_2|]. intros H1. by apply Hone.
  - rewrite Hc. exists c. split_and!; [done|by eapply list_elem_of_lookup_2|]. intros H1. by apply Hone.
Qed.

Lemma design_arm_alternates design cv eid b :
  design ≠ lit "RANDOMIZED" →
  design_arm design cv eid (b + 1) = negb (design_arm design cv eid b).
Proof.
  intros Hd. unfold design_arm, is_lit. rewrite (bool_decide_false (design = lit "RANDOMIZED")) by done.
  rewrite Z.add_1_r, Z.odd_succ, <- Z.negb_odd.
  case_bool_decide; [|done]. by destruct (Z.odd b), (Z.odd (murmur_spec _ 0)).
Qed.

(** A valid switchback config makes time a sequence of blocks: the block
    index of [t] is the only [n] whose block [n*d, (n+1)*d) holds [t], the washout
    is exactly the first [w] seconds of the block, and every block keeps some time
    outside it. *)
Theorem switchback_blocks c t n :
  validate_config c = Ok tt →
  let d := block_duration_secs c in let w := washout_period_secs c in
  (compute_block_index t d = n ↔ block_start n d ≤ t < block_start (n + 1) d) ∧
  (is_in_washout t d w = true ↔
     let s := block_start (compute_block_index t d) d in s ≤ t < s + w) ∧
  is_in_washout (block_start n d + w) d w = false ∧
  compute_block_index (block_start n d + w) d = n.
Proof.
  intros Hc. apply validate_config_ok in Hc as (Hd & _ & Hw). cbv zeta.
  set (d := block_duration_secs c) in *. set (w := washout_period_secs c) in *.
  assert (compute_block_index (block_start n d + w) d = n) as Hn.
  { apply block_index_unique; unfold block_start; lia. }
  split_and!; [apply block_index_unique; lia|apply washout_window; lia| |done].
  apply not_true_iff_false. rewrite washout_window by lia. cbv zeta. rewrite Hn. lia.
Qed.

Lemma switchback_blocks_witness :
  let c := mk_switchback_config 3600 4 [] 300 [] in
  validate_config c = Ok tt ∧ is_in_washout (block_start 2 3600 + 300) 3600 300 = false.
Proof.
  split; [reflexivity|].
  apply (switchback_blocks (mk_switchback_config 3600 4 [] 300 []) 0 2). reflexivity.
Defined.

(** Variant selection is total on a non-empty list; with exactly one
    control it returns the control or a non-control variant as the design's arm
    says, and under every design but RANDOMIZED a cluster changes arm at every
    block boundary. *)
Theorem switchback_select b design cv eid vs :
  vs ≠ [] →
  (∃ v, @select_variant unit b design cv eid vs = Ok v ∧ v ∈ vs ∧
     (one_control vs → is_control v = negb (design_arm design cv eid b))) ∧
  (design ≠ lit "RANDOMIZED" →
     design_arm design cv eid (b + 1) = negb (design_arm design cv eid b)).
Proof.
  intros Hne. split; [by apply select_variant_total|apply design_arm_alternates].
Qed.

Definition sample_variants : list VariantConfig :=
  [mk_variant_config (lit "control") (f64_ratio 1 2) true [];
   mk_variant_config (lit "treatment") (f64_ratio 1 2) false []].

Lemma switchback_select_witness :
  sample_variants ≠ [] ∧
  ∃ v, @select_variant unit 7 (lit "REGULAR_BALANCED") (lit "US") (lit "e") sample_variants = Ok v ∧
    v ∈ sample_variants ∧
    (one_control sample_variants →
     is_control v = negb (design_arm (lit "REGULAR_BALANCED") (lit "US") (lit "e") 7)).
Proof. split; [done|]. by apply switchback_select. Defined.

(** REGULAR_BALANCED does not keep half of the clusters in each arm: the groups
    are parities of independent hashes, and these clusters share one. *)
Lemma regular_balanced_unbalanced :
  Forall (λ cv, design_arm (lit "REGULAR_BALANCED") (lit cv) (lit "exp_1") 0 = true)
    ["US"; "FR"; "JP"; "BR"; "UK"; "CA"]%string.
Proof. repeat constructor. Qed.
