(* ===== verification/Rng.v ===== *)
(** The random source of the program: the [rand] crate's [Rng] and [SeedableRng],
    as an interface. The crate is not part of the repository, so its generators are
    instances the definitions are parametric in; the laws are its documented ranges. *)
From S2P Require Import Prelude F64 Bytes Hash HashSpec.

(** [seed_from_u64], [gen_range(0..n)], [gen_bool(0.5)] and [gen::<f64>()]. *)
Class Rng (R : Type) := {
  seed_from_u64 : Z → R;
  gen_range : nat → R → nat * R;
  gen_bool_half : R → bool * R;
  gen_f64 : R → f64 * R
}.

(** [gen_range(0..n)] lies in its range when the range is not empty (it panics
    otherwise, which no caller of the program does). *)
Class RngLaws (R : Type) `{Rng R} := {
  gen_range_lt : ∀ n (r : R), 0 < n → (gen_range n r).1 < n
}.

(** A concrete source for the witnesses: a counter. *)
Definition counter : Type := nat.

#[export] Instance counter_rng : Rng counter := {
  seed_from_u64 z := Z.to_nat (z mod 1000);
  gen_range n r := (r mod n, S r);
  gen_bool_half r := (Nat.even r, S r);
  gen_f64 r := (f64_ratio (Z.of_nat (r mod 10)) 10, S r)
}.

#[export] Instance counter_laws : RngLaws counter.
Proof. split. intros n r Hn. apply Nat.mod_upper_bound. lia. Qed.

(** The 64-bit seed of a key: two 32-bit hashes, [(hi << 32) | lo]. *)
Definition seed_of {E} (seed_input : str) : result E Z :=
  lo ← murmurhash3_x86_32 seed_input 0;
  hi ← murmurhash3_x86_32 seed_input 1;
  mret (Z.lor (Z.shiftl hi 32) lo).

Definition seed_value (s : str) : Z :=
  Z.lor (Z.shiftl (murmur_spec s 1) 32) (murmur_spec s 0).

Lemma seed_of_ok {E} s : @seed_of E s = Ok (seed_value s).
Proof. unfold seed_of. by rewrite !murmur_ok. Qed.
