(* ===== verification/Assignment.v ===== *)
(** The assignment service ([experimentation-assignment/src/service.rs],
    [bandit_client.rs]): routing of one experiment, variant selection, bandit,
    META and slate delegation with their fallbacks, and the two-phase batch.

    The M4b bandit service is a remote peer: [select_arm] and [select_slate] stand
    for the outcome of its RPCs ([None] of a client: not configured; [None] of a
    call: timeout or gRPC error, on which the service falls back). *)
From Stdlib Require Import Ascii String.
From S2P Require Import Prelude Bytes F64 Config Targeting Hash Switchback Rng.

(** ** Responses and errors *)

Record GetAssignmentResponse := mk_assignment
  { ar_experiment_id : str; ar_variant_id : str; ar_payload_json : str;
    ar_probability : f64; is_active : bool; ar_block_index : Z; ar_is_control : bool }.

(** [GetAssignmentResponse { experiment_id, is_active, ..Default::default() }]. *)
Definition empty_assignment (id : str) (active : bool) : GetAssignmentResponse :=
  mk_assignment id [] [] f64_zero active 0 false.

Inductive StatusMessage :=
| ExperimentMissing (id : str)
| LayerMissing (id : str)
| SessionIdRequired
| NoBanditConfig (id : str)
| NoArms (id : str)
| NoSwitchbackConfig (id : str)
| SwitchbackInvalid (e : SwitchbackError)
| MetaNoBanditConfig (id : str)
| MetaNoArms (id : str)
| MissingSlateConfig (id : str)
| ZeroSlots (id : str)
| TooFewCandidates (count : nat) (slots : Z)
| NotRunning (id state : str)
| NoInterleavingConfig (id : str)
| TooFewAlgorithms (n : nat)
| MissingAlgorithmList (id : str)
| UnsupportedMethod (m : str)
| ExpectedTwoLists (n : nat)
| ExpectedTwoAlgorithms (n : nat).

Inductive Code := NotFound | Internal | InvalidArgument | FailedPrecondition.
Record Status := mk_status { code_of : Code; message_of : StatusMessage }.

Definition service := result Status.

(** [Option::ok_or_else(..)?]. *)
Definition ok_or {E A} (o : option A) (e : E) : result E A :=
  match o with Some a => Ok a | None => Err e end.

(** ** Bandit client helpers *)

Record ArmSelectionResult := mk_arm_selection_result
  { sel_arm_id : str; sel_probability : f64; sel_all : gmap str f64 }.

Record ArmSelection := mk_arm_selection
  { as_arm_id : str; as_probability : f64; as_payload_json : str; as_all : gmap str f64 }.

Record SlateSlot := mk_slate_slot { slot_index : Z; slot_item_id : str; slot_probability : f64 }.
Record SlateSelectionResult := mk_slate_selection
  { sr_item_ids : list str; sr_slots : list SlateSlot; sr_uniform : bool }.

Definition lookup_arm_payload (arms : list BanditArmConfig) (id : str) : str :=
  default [] (arm_payload_json <$> List.find (λ a, bool_decide (arm_id a = id)) arms).

Definition extract_context_features (bc : BanditConfig) (attrs : attributes) : gmap str f64 :=
  fold_left
    (λ m key, match attrs !! key ≫= f64_parse with Some v => <[key := v]> m | None => m end)
    (context_feature_keys bc) ∅.

Definition f64_one : f64 := f64_of_u32 1.

(** [a.swap(i, j)]. *)
Definition swap {E A} (l : list A) (i j : nat) : result E (list A) :=
  x ← index l i;
  y ← index l j;
  mret (<[j := x]> (<[i := y]> l)).

Section service.
Context {R : Type} `{Rng R}.

Definition select_arm_uniform (bc : BanditConfig) (rng : R) :
    result Status (option (ArmSelection * R)) :=
  let n := length (arms bc) in
  if (n =? 0)%nat then mret None
  else
    let prob := f64_div f64_one (f64_of_u32 (Z.of_nat n)) in
    let '(idx, rng) := gen_range n rng in
    arm ← index (arms bc) idx;
    let all := fold_left (λ m a, <[arm_id a := prob]> m) (arms bc) ∅ in
    mret (Some (mk_arm_selection (arm_id arm) prob (arm_payload_json arm) all, rng)).

(** The remote bandit service, as the client sees it. *)
Context (select_arm : option (str → str → gmap str f64 → option ArmSelectionResult)).
Context (select_slate :
  option (str → str → list str → Z → gmap str f64 → option SlateSelectionResult)).

(** [if let Some(client) = .. { if let Ok(r) = client.select_arm(..) {..} }]. *)
Definition try_select_arm (key user_id : str) (features : gmap str f64) :
    option ArmSelectionResult :=
  select_arm ≫= λ client, client key user_id features.

Definition assign_bandit (exp : ExperimentConfig) (user_id experiment_id : str)
    (attrs : attributes) : service GetAssignmentResponse :=
  bc ← ok_or (bandit_config exp) (mk_status FailedPrecondition (NoBanditConfig experiment_id));
  match try_select_arm experiment_id user_id (extract_context_features bc attrs) with
  | Some r =>
      mret (mk_assignment experiment_id (sel_arm_id r) (lookup_arm_payload (arms bc) (sel_arm_id r))
              (sel_probability r) true 0 false)
  | None =>
      seed ← seed_of (user_id ++ nul :: experiment_id);
      o ← select_arm_uniform bc (seed_from_u64 seed);
      '(s, _) ← ok_or o (mk_status FailedPrecondition (NoArms experiment_id));
      mret (mk_assignment experiment_id (as_arm_id s) (as_payload_json s) (as_probability s)
              true 0 false)
  end.

Definition assign_meta (exp : ExperimentConfig) (user_id experiment_id : str)
    (variant : VariantConfig) (attrs : attributes) : service GetAssignmentResponse :=
  let policy_key := experiment_id ++ lit ":" ++ variant_id variant in
  bc ← ok_or (bandit_config exp) (mk_status FailedPrecondition (MetaNoBanditConfig experiment_id));
  match try_select_arm policy_key user_id (extract_context_features bc attrs) with
  | Some r =>
      mret (mk_assignment experiment_id (sel_arm_id r) (lookup_arm_payload (arms bc) (sel_arm_id r))
              (f64_mul (traffic_fraction variant) (sel_probability r)) true 0 (is_control variant))
  | None =>
      seed ← seed_of (user_id ++ nul :: experiment_id ++ nul :: variant_id variant);
      o ← select_arm_uniform bc (seed_from_u64 seed);
      '(s, _) ← ok_or o (mk_status FailedPrecondition (MetaNoArms experiment_id));
      mret (mk_assignment experiment_id (as_arm_id s) (as_payload_json s)
              (f64_mul (traffic_fraction variant) (as_probability s)) true 0 (is_control variant))
  end.

(** [now_secs] is the server's clock. *)
Definition assign_switchback (now_secs : Z) (exp : ExperimentConfig) (experiment_id : str)
    (attrs : attributes) : service GetAssignmentResponse :=
  sb ← ok_or (switchback_config exp)
         (mk_status FailedPrecondition (NoSwitchbackConfig experiment_id));
  _ ← map_err (λ e, mk_status FailedPrecondition (SwitchbackInvalid e)) (validate_config sb);
  if is_in_washout now_secs (block_duration_secs sb) (washout_period_secs sb)
  then mret (empty_assignment experiment_id true)
  else
    let block_index := compute_block_index now_secs (block_duration_secs sb) in
    let cluster_value :=
      if bool_decide (cluster_attribute sb = []) then []
      else default [] (attrs !! cluster_attribute sb) in
    variant ← Switchback.select_variant block_index (design sb) cluster_value experiment_id
                (variants exp);
    mret (mk_assignment experiment_id (variant_id variant) (payload_json variant) f64_one true
            block_index (is_control variant)).

(** The loop of [select_variant]. *)
Fixpoint select_loop (vs : list VariantConfig) (alloc_size relative_bucket cumulative : f64) :
    option VariantConfig :=
  match vs with
  | [] => None
  | v :: vs =>
      let cumulative := f64_add cumulative (f64_mul (traffic_fraction v) alloc_size) in
      if f64_lt relative_bucket cumulative then Some v
      else select_loop vs alloc_size relative_bucket cumulative
  end.

(** Release builds wrap on [u32] overflow. *)
Definition select_variant (exp : ExperimentConfig) (b : Z) : service VariantConfig :=
  let st := start_bucket (allocation exp) in
  let alloc_size := f64_of_u32 (u32_wrap (u32_wrap (end_bucket (allocation exp) - st) + 1)) in
  let relative_bucket := f64_of_u32 (u32_wrap (b - st)) in
  match select_loop (variants exp) alloc_size relative_bucket f64_zero with
  | Some v => mret v
  | None => match last (variants exp) with Some v => mret v | None => Panics end
  end.

(** Step 6 of [assign]: what the bucket is computed from. *)
Definition hash_input (exp : ExperimentConfig) (user_id session_id : str) : service str :=
  if is_lit (exp_type exp) "SESSION_LEVEL" then
    if bool_decide (session_id = []) then Err (mk_status InvalidArgument SessionIdRequired)
    else
      let cross_session :=
        match session_config exp with
        | Some sc => allow_cross_session_variation sc
        | None => true
        end in
      mret (if cross_session then session_id else user_id)
  else mret user_id.

Definition assign (config : Config) (now_secs : Z) (experiment_id user_id session_id : str)
    (attrs : attributes) : service GetAssignmentResponse :=
  exp ← ok_or (experiments_by_id config !! experiment_id)
          (mk_status NotFound (ExperimentMissing experiment_id));
  if negb (is_lit (state exp) "RUNNING") then mret (empty_assignment experiment_id false)
  else if match targeting_rule exp with
          | Some rule => negb (evaluate rule attrs)
          | None => false
          end
  then mret (empty_assignment experiment_id true)
  else
    layer ← ok_or (layers_by_id config !! layer_id exp)
              (mk_status Internal (LayerMissing (layer_id exp)));
    if is_lit (exp_type exp) "MAB" || is_lit (exp_type exp) "CONTEXTUAL_BANDIT"
    then assign_bandit exp user_id experiment_id attrs
    else if is_lit (exp_type exp) "SWITCHBACK"
    then assign_switchback now_secs exp experiment_id attrs
    else if is_lit (exp_type exp) "SLATE_BANDIT"
    then mret (empty_assignment experiment_id true)
    else
      input ← hash_input exp user_id session_id;
      b ← bucket input (hash_salt exp) (total_buckets layer);
      if negb (is_in_allocation b (start_bucket (allocation exp)) (end_bucket (allocation exp)))
      then mret (empty_assignment experiment_id true)
      else
        variant ← select_variant exp b;
        if is_lit (exp_type exp) "META"
        then assign_meta exp user_id experiment_id variant attrs
        else mret (mk_assignment experiment_id (variant_id variant) (payload_json variant)
                     (traffic_fraction variant) true 0 (is_control variant)).

(** ** Slates *)

Record SlotProbability := mk_slot_probability
  { sp_index : Z; sp_item_id : str; sp_probability : f64 }.
Record GetSlateAssignmentResponse := mk_slate_response
  { gs_experiment_id : str; gs_items : list str; gs_slots : list SlotProbability;
    gs_uniform : bool }.

(** [for i in (1..len).rev() { j = gen_range(0..=i); swap(i, j) }]. *)
Fixpoint shuffle_loop (idxs : list nat) (l : list str) (rng : R) : service (list str * R) :=
  match idxs with
  | [] => mret (l, rng)
  | i :: idxs =>
      let '(j, rng) := gen_range (S i) rng in
      l ← swap l i j;
      shuffle_loop idxs l rng
  end.

Definition shuffle (l : list str) (rng : R) : service (list str * R) :=
  shuffle_loop (rev (seq 1 (length l - 1))) l rng.

(** The slots of M4b's answer, each probability checked. *)
Fixpoint checked_slots (slots : list SlateSlot) : service (list SlotProbability) :=
  match slots with
  | [] => mret []
  | s :: slots =>
      _ ← assert_finite (slot_probability s);
      rest ← checked_slots slots;
      mret (mk_slot_probability (slot_index s) (slot_item_id s) (slot_probability s) :: rest)
  end.

(** [num_slots as usize]. *)
Definition as_usize (n : Z) : Z := (n mod 2 ^ 64)%Z.
(** [n_slots as i32]. *)
Definition as_i32 (n : Z) : Z := ((n + 2 ^ 31) mod 2 ^ 32 - 2 ^ 31)%Z.

Definition try_select_slate (id user_id : str) (items : list str) (n : Z)
    (features : gmap str f64) : option SlateSelectionResult :=
  select_slate ≫= λ client, client id user_id items n features.

Definition assign_slate (config : Config) (experiment_id user_id : str)
    (candidate_item_ids : list str) (attrs : attributes) : service GetSlateAssignmentResponse :=
  exp ← ok_or (experiments_by_id config !! experiment_id)
          (mk_status NotFound (ExperimentMissing experiment_id));
  if negb (is_lit (state exp) "RUNNING") then mret (mk_slate_response experiment_id [] [] false)
  else
    sc ← ok_or (bandit_config exp ≫= slate_config)
           (mk_status FailedPrecondition (MissingSlateConfig experiment_id));
    let n_slots := as_usize (num_slots sc) in
    let count := length candidate_item_ids in
    _ ← reject_if (n_slots =? 0)%Z (mk_status FailedPrecondition (ZeroSlots experiment_id));
    _ ← reject_if (Z.of_nat count <? n_slots)%Z
          (mk_status InvalidArgument (TooFewCandidates count n_slots));
    let features :=
      match bandit_config exp with Some bc => extract_context_features bc attrs | None => ∅ end in
    match try_select_slate experiment_id user_id candidate_item_ids (as_i32 n_slots) features with
    | Some r =>
        slots ← checked_slots (sr_slots r);
        mret (mk_slate_response experiment_id (sr_item_ids r) slots (sr_uniform r))
    | None =>
        seed ← seed_of (user_id ++ nul :: experiment_id);
        '(candidates, _) ← shuffle candidate_item_ids (seed_from_u64 seed);
        let slate := take (Z.to_nat n_slots) candidates in
        let prob := f64_div f64_one (f64_of_u32 (Z.of_nat count)) in
        mret (mk_slate_response experiment_id slate
                (imap (λ i item, mk_slot_probability (Z.of_nat i) item prob) slate) true)
    end.

(** ** The batch *)

Section batch.
(** Every [assign] of a batch takes its own snapshot of the live config and reads
    the clock: [snap k] and [clock k] are what the [k]-th call sees. *)
Context (snap : nat → Config) (clock : nat → Z).
Context (user_id session_id : str) (attrs : attributes).

Definition assign_nth (k : nat) (exp : ExperimentConfig) : service GetAssignmentResponse :=
  assign (snap k) (clock k) (experiment_id exp) user_id session_id attrs.

Fixpoint holdout_loop (k : nat) (hs : list ExperimentConfig) (holdout_layers : gset str)
    (assignments : list GetAssignmentResponse) :
    service (nat * gset str * list GetAssignmentResponse) :=
  match hs with
  | [] => mret (k, holdout_layers, assignments)
  | exp :: hs =>
      match assign_nth k exp with
      | Ok resp =>
          let holdout_layers :=
            if bool_decide (ar_variant_id resp = []) then holdout_layers
            else {[layer_id exp]} ∪ holdout_layers in
          holdout_loop (S k) hs holdout_layers (assignments ++ [resp])
      | Err _ => holdout_loop (S k) hs ({[layer_id exp]} ∪ holdout_layers) assignments
      | Panics => Panics
      | OutOfFuel => OutOfFuel
      end
  end.

Fixpoint regular_loop (k : nat) (rs : list ExperimentConfig) (holdout_layers : gset str)
    (assignments : list GetAssignmentResponse) : service (list GetAssignmentResponse) :=
  match rs with
  | [] => mret assignments
  | exp :: rs =>
      if bool_decide (layer_id exp ∈ holdout_layers)
      then regular_loop k rs holdout_layers assignments
      else
        match assign_nth k exp with
        | Ok resp => regular_loop (S k) rs holdout_layers (assignments ++ [resp])
        | Err _ => regular_loop (S k) rs holdout_layers assignments
        | Panics => Panics
        | OutOfFuel => OutOfFuel
        end
  end.

Definition assign_batch (config : Config) : service (list GetAssignmentResponse) :=
  let holdouts := filter (λ e, is_cumulative_holdout e = true) (experiments config) in
  let regular := filter (λ e, is_cumulative_holdout e = false) (experiments config) in
  '(k, holdout_layers, assignments) ← holdout_loop 0 holdouts ∅ [];
  regular_loop k regular holdout_layers assignments.
End batch.
End service.
