(* ===== verification/AssignmentSpec.v ===== *)
(** Properties of the assignment service: who is enrolled, into which variant, the
    partition of an allocation, exclusion inside a layer, holdout precedence in a
    batch, and the local fallbacks of the bandit calls. *)
From Stdlib Require Import Ascii String.
From S2P Require Import Prelude Bytes F64 Config Targeting Hash HashSpec Switchback Rng Assignment.

Lemma Forall_filter_weaken {A} (Q P : A → Prop) `{∀ x, Decision (Q x)} l :
  Forall P l → Forall P (filter Q l).
Proof. rewrite !Forall_forall. intros Hl x [_ Hx]%list_elem_of_filter. auto. Qed.

(** ** Variant selection *)

(** The index [select_variant] picks, as a number. *)
Fixpoint loop_index (vs : list VariantConfig) (alloc_size relative_bucket cumulative : f64) : nat :=
  match vs with
  | [] => 0
  | v :: vs =>
      let cumulative := f64_add cumulative (f64_mul (traffic_fraction v) alloc_size) in
      if f64_lt relative_bucket cumulative then 0
      else S (loop_index vs alloc_size relative_bucket cumulative)
  end.

(** The position of the variant of bucket [b]: the last one when no cumulative
    share exceeds the relative bucket. *)
Definition variant_index (exp : ExperimentConfig) (b : Z) : nat :=
  let st := start_bucket (allocation exp) in
  let alloc_size := f64_of_u32 (u32_wrap (u32_wrap (end_bucket (allocation exp) - st) + 1)) in
  Nat.min (loop_index (variants exp) alloc_size (f64_of_u32 (u32_wrap (b - st))) f64_zero)
          (length (variants exp) - 1).

Lemma select_loop_index vs a r c :
  select_loop vs a r c = vs !! loop_index vs a r c.
Proof.
  revert c. induction vs as [|v vs IH]; intros c; simpl; [done|].
  destruct (f64_lt _ _); [done|]. apply IH.
Qed.

Lemma loop_index_le vs a r c : loop_index vs a r c ≤ length vs.
Proof.
  revert c. induction vs as [|v vs IH]; intros c; simpl; [done|].
  destruct (f64_lt _ _); [lia|]. specialize (IH (f64_add c (f64_mul (traffic_fraction v) a))). lia.
Qed.

Lemma select_variant_index exp b :
  select_variant exp b = index (variants exp) (variant_index exp b).
Proof.
  unfold select_variant, variant_index, index. cbv zeta. rewrite select_loop_index.
  set (a := f64_of_u32 _). set (r := f64_of_u32 (u32_wrap (b - _))).
  pose proof (loop_index_le (variants exp) a r f64_zero) as Hle.
  destruct (decide (loop_index (variants exp) a r f64_zero < length (variants exp))) as [Hlt|Hge].
  - rewrite Nat.min_l by lia. by destruct (lookup_lt_is_Some_2 _ _ Hlt) as [v ->].
  - rewrite lookup_ge_None_2 by lia. rewrite Nat.min_r by lia.
    by rewrite last_lookup, Nat.sub_1_r.
Qed.

Lemma variant_index_lt exp b :
  variants exp ≠ [] → variant_index exp b < length (variants exp).
Proof. intros H. unfold variant_index. cbv zeta. destruct (variants exp); [done|simpl; lia]. Qed.

Lemma loop_index_mono vs a c r r' :
  (0 ≤ r ≤ r')%Z → (r' < 2 ^ 53)%Z →
  loop_index vs a (f64_of_u32 r) c ≤ loop_index vs a (f64_of_u32 r') c.
Proof.
  intros Hr Hr'. revert c. induction vs as [|v vs IH]; intros c; simpl; [done|].
  set (c' := f64_add c _).
  destruct (f64_lt (f64_of_u32 r') c') eqn:E'.
  - rewrite (f64_of_u32_lt_mono r r' c') by done. done.
  - destruct (f64_lt (f64_of_u32 r) c'); [lia|]. apply le_n_S, IH.
Qed.

(** A 32-bit inclusive allocation. *)
Definition alloc_ok (a : AllocationConfig) : Prop :=
  (0 ≤ start_bucket a ≤ end_bucket a ∧ end_bucket a < 2 ^ 32)%Z.

Lemma variant_index_mono exp b b' :
  alloc_ok (allocation exp) →
  (start_bucket (allocation exp) ≤ b ≤ b' ∧ b' ≤ end_bucket (allocation exp))%Z →
  variant_index exp b ≤ variant_index exp b'.
Proof.
  intros [Ha He] [Hb Hb']. unfold variant_index. cbv zeta.
  apply Nat.min_le_compat_r. unfold u32_wrap at 3 6.
  rewrite !(Z.mod_small (_ - start_bucket _)) by lia. apply loop_index_mono; lia.
Qed.

(** ** Routing *)

Section routing.
Context {R : Type} `{RngLaws R}.
Context (select_arm : option (str → str → gmap str f64 → option ArmSelectionResult)).
Implicit Types (cfg : Config) (exp : ExperimentConfig) (attrs : attributes).

Abbreviation assign := (assign (R := R) select_arm).
Abbreviation assign_meta := (assign_meta (R := R) select_arm).
Abbreviation assign_bandit := (assign_bandit (R := R) select_arm).

(** The types that are neither delegated to a bandit nor to the clock. *)
Definition plain_type (ty : str) : Prop :=
  ty ∉ [lit "MAB"; lit "CONTEXTUAL_BANDIT"; lit "SWITCHBACK"; lit "SLATE_BANDIT"; lit "META"].

Definition bucketed_type (ty : str) : Prop :=
  ty ∉ [lit "MAB"; lit "CONTEXTUAL_BANDIT"; lit "SWITCHBACK"; lit "SLATE_BANDIT"].

Definition targeted (exp : ExperimentConfig) (attrs : attributes) : Prop :=
  match targeting_rule exp with Some rule => rule_holds attrs rule | None => True end.

Lemma is_lit_false s l : s ≠ lit l → is_lit s l = false.
Proof. intros Hs. unfold is_lit. by rewrite bool_decide_false. Qed.

Lemma plain_bucketed ty : plain_type ty → bucketed_type ty.
Proof. unfold plain_type, bucketed_type. rewrite !not_elem_of_cons. tauto. Qed.

Lemma targeted_spec exp attrs :
  match targeting_rule exp with Some rule => negb (evaluate rule attrs) | None => false end = false
  ↔ targeted exp attrs.
Proof.
  unfold targeted. destruct (targeting_rule exp) as [r|]; [|done].
  by rewrite negb_false_iff, evaluate_rule_spec.
Qed.

(** What [assign] runs once the experiment is known to run and to target the user. *)
Definition routed cfg (now : Z) exp (id user session : str) attrs :
    service GetAssignmentResponse :=
  layer ← ok_or (layers_by_id cfg !! layer_id exp)
            (mk_status Internal (LayerMissing (layer_id exp)));
  if is_lit (exp_type exp) "MAB" || is_lit (exp_type exp) "CONTEXTUAL_BANDIT"
  then assign_bandit exp user id attrs
  else if is_lit (exp_type exp) "SWITCHBACK" then assign_switchback now exp id attrs
  else if is_lit (exp_type exp) "SLATE_BANDIT" then mret (empty_assignment id true)
  else
    input ← hash_input exp user session;
    b ← bucket input (hash_salt exp) (total_buckets layer);
    if negb (is_in_allocation b (start_bucket (allocation exp)) (end_bucket (allocation exp)))
    then mret (empty_assignment id true)
    else
      variant ← select_variant exp b;
      if is_lit (exp_type exp) "META" then assign_meta exp user id variant attrs
      else mret (mk_assignment id (variant_id variant) (payload_json variant)
                   (traffic_fraction variant) true 0 (is_control variant)).

Lemma assign_inv cfg now id user session attrs r :
  assign cfg now id user session attrs = Ok r →
  r = empty_assignment id false ∨ r = empty_assignment id true ∨
  ∃ exp, experiments_by_id cfg !! id = Some exp ∧ state exp = lit "RUNNING" ∧
         targeted exp attrs ∧ routed cfg now exp id user session attrs = Ok r.
Proof.
  unfold Assignment.assign. destruct (experiments_by_id cfg !! id) as [exp|]; [|done].
  simpl. destruct (is_lit (state exp) "RUNNING") eqn:Hs; simpl; [|intros [= <-]; by left].
  apply is_lit_true in Hs.
  destruct (match targeting_rule exp with Some _ => _ | None => _ end) eqn:Ht.
  { intros [= <-]. by right; left. }
  apply targeted_spec in Ht. intros Hr. right. right. exists exp. done.
Qed.

Lemma assign_routed cfg now id user session attrs exp :
  experiments_by_id cfg !! id = Some exp → state exp = lit "RUNNING" → targeted exp attrs →
  assign cfg now id user session attrs = routed cfg now exp id user session attrs.
Proof.
  intros Hl Hs Ht. unfold Assignment.assign. rewrite Hl. simpl.
  rewrite Hs. change (is_lit (lit "RUNNING") "RUNNING") with true. simpl.
  by rewrite (proj2 (targeted_spec exp attrs) Ht).
Qed.

(** The bucketed part of [routed]. *)
Lemma routed_bucketed cfg now exp id user session attrs r :
  bucketed_type (exp_type exp) →
  routed cfg now exp id user session attrs = Ok r →
  ∃ layer input b,
    layers_by_id cfg !! layer_id exp = Some layer ∧ hash_input exp user session = Ok input ∧
    @bucket Status input (hash_salt exp) (total_buckets layer) = Ok b ∧
    if is_in_allocation b (start_bucket (allocation exp)) (end_bucket (allocation exp))
    then ∃ v, variants exp !! variant_index exp b = Some v ∧
      if is_lit (exp_type exp) "META" then assign_meta exp user id v attrs = Ok r
      else r = mk_assignment id (variant_id v) (payload_json v) (traffic_fraction v) true 0
                 (is_control v)
    else r = empty_assignment id true.
Proof.
  unfold bucketed_type, routed. rewrite !not_elem_of_cons. intros (H1 & H2 & H3 & H4 & _).
  rewrite !(is_lit_false (exp_type exp)) by done. simpl.
  destruct (layers_by_id cfg !! layer_id exp) as [layer|]; [|done]. simpl. intros Hr.
  apply bind_ok_inv in Hr as (input & Hin & Hr). apply bind_ok_inv in Hr as (b & Hb & Hr).
  exists layer, input, b. split_and!; [done..|].
  destruct (is_in_allocation _ _ _); simpl in Hr; [|by injection Hr as <-].
  apply bind_ok_inv in Hr as (v & Hv & Hr). rewrite select_variant_index in Hv.
  unfold index in Hv. destruct (variants exp !! _) as [v'|] eqn:Hl; [|done].
  injection Hv as ->. exists v. split; [done|].
  destruct (is_lit (exp_type exp) "META"); [done|]. by injection Hr as <-.
Qed.

Lemma in_allocation_range b st en : is_in_allocation b st en = true ↔ (st ≤ b ≤ en)%Z.
Proof. unfold is_in_allocation. lia. Qed.

Lemma bucket_ok_inv {E} u s n b :
  @bucket E u s n = Ok b → (0 < n ∧ b = murmur_spec (bucket_key u s) 0 mod n)%Z.
Proof.
  unfold bucket. destruct (0 <? n)%Z eqn:Hn; simpl; [|done].
  rewrite murmur_ok. simpl. intros [= <-]. split; [lia|done].
Qed.

Lemma bucket_eq {E} u s n :
  (0 < n)%Z → @bucket E u s n = Ok (murmur_spec (bucket_key u s) 0 mod n)%Z.
Proof. intros Hn. unfold bucket. rewrite (proj2 (Z.ltb_lt 0 n) Hn). simpl. by rewrite murmur_ok. Qed.

Lemma assign_bandit_id exp user id attrs r :
  assign_bandit exp user id attrs = Ok r → ar_experiment_id r = id.
Proof.
  unfold Assignment.assign_bandit. intros H1. apply bind_ok_inv in H1 as (bc & _ & H1).
  destruct (try_select_arm _ _ _ _); [by injection H1 as <-|].
  apply bind_ok_inv in H1 as (seed & _ & H1). apply bind_ok_inv in H1 as (o & _ & H1).
  apply bind_ok_inv in H1 as ([s rng] & _ & H1). by injection H1 as <-.
Qed.

Lemma assign_meta_id exp user id v attrs r :
  assign_meta exp user id v attrs = Ok r → ar_experiment_id r = id.
Proof.
  unfold Assignment.assign_meta. intros H1. apply bind_ok_inv in H1 as (bc & _ & H1).
  destruct (try_select_arm _ _ _ _); [by injection H1 as <-|].
  apply bind_ok_inv in H1 as (seed & _ & H1). apply bind_ok_inv in H1 as (o & _ & H1).
  apply bind_ok_inv in H1 as ([s rng] & _ & H1). by injection H1 as <-.
Qed.

Lemma assign_switchback_id now exp id attrs r :
  assign_switchback now exp id attrs = Ok r → ar_experiment_id r = id.
Proof.
  unfold assign_switchback. intros H1. apply bind_ok_inv in H1 as (sb & _ & H1).
  apply bind_ok_inv in H1 as ([] & _ & H1). destruct (is_in_washout _ _ _); [by injection H1 as <-|].
  cbv zeta in H1. apply bind_ok_inv in H1 as (v & _ & H1). by injection H1 as <-.
Qed.

Lemma assign_id cfg now id user session attrs r :
  assign cfg now id user session attrs = Ok r → ar_experiment_id r = id.
Proof.
  intros [->|[->|(exp & _ & _ & _ & Hr)]]%assign_inv; [done..|].
  destruct (decide (bucketed_type (exp_type exp))) as [Hb|Hb].
  - apply routed_bucketed in Hr as (layer & input & b & _ & _ & _ & Hr); [|done].
    destruct (is_in_allocation _ _ _); [|by subst]. destruct Hr as (v & _ & Hr).
    destruct (is_lit _ "META"); [by apply assign_meta_id in Hr|by subst].
  - unfold routed in Hr. apply bind_ok_inv in Hr as (layer & _ & Hr).
    destruct (_ || _); [by apply assign_bandit_id in Hr|].
    destruct (is_lit _ "SWITCHBACK") eqn:?; [by apply assign_switchback_id in Hr|].
    destruct (is_lit _ "SLATE_BANDIT"); [by injection Hr as <-|].
    apply bind_ok_inv in Hr as (input & _ & Hr). apply bind_ok_inv in Hr as (b & _ & Hr).
    destruct (negb _); [by injection Hr as <-|]. apply bind_ok_inv in Hr as (v & _ & Hr).
    destruct (is_lit _ "META"); [by apply assign_meta_id in Hr|by injection Hr as <-].
Qed.

(** The bucket of a hash input under an experiment's salt. *)
Definition bucket_of (exp : ExperimentConfig) (layer : LayerConfig) (input : str) : Z :=
  (murmur_spec (bucket_key input (hash_salt exp)) 0 mod total_buckets layer)%Z.

(** What a response with a variant says of the experiment and the user. *)
Lemma assign_inv_enrolled cfg now id user session attrs r :
  assign cfg now id user session attrs = Ok r → ar_variant_id r ≠ [] →
  ∃ exp, experiments_by_id cfg !! id = Some exp ∧ state exp = lit "RUNNING" ∧
    targeted exp attrs ∧
    (bucketed_type (exp_type exp) → ∃ layer input v,
       layers_by_id cfg !! layer_id exp = Some layer ∧ (0 < total_buckets layer)%Z ∧
       hash_input exp user session = Ok input ∧
       let b := bucket_of exp layer input in
       (start_bucket (allocation exp) ≤ b ≤ end_bucket (allocation exp))%Z ∧
       variants exp !! variant_index exp b = Some v ∧
       (plain_type (exp_type exp) →
        r = mk_assignment id (variant_id v) (payload_json v) (traffic_fraction v) true 0
              (is_control v))).
Proof.
  intros Ha Hv.
  apply assign_inv in Ha as [->|[->|(exp & Hl & Hs & Ht & Hr)]]; [done..|].
  exists exp. split_and!; [done..|]. intros Hb.
  apply routed_bucketed in Hr as (layer & input & b & Hlay & Hin & Hbk & Hr); [|done].
  apply bucket_ok_inv in Hbk as [Hpos Hbk].
  destruct (is_in_allocation _ _ _) eqn:Hal; [|by subst].
  apply in_allocation_range in Hal. destruct Hr as (v & Hvl & Hr).
  exists layer, input, v. unfold bucket_of. cbv zeta. rewrite <- Hbk.
  split_and!; [done..|lia|lia|done|]. intros Hp.
  rewrite is_lit_false in Hr; [done|]. intros E. apply Hp. rewrite E, !elem_of_cons. tauto.
Qed.

(** [C1] Enrolment is safe: a response that carries a variant is for a
    running experiment whose targeting rule holds of the user; unless the experiment
    is delegated to a bandit or to the clock, the bucket of the hashed id lies in
    the experiment's inclusive allocation, and a plain experiment serves exactly the
    configured variant of that bucket. *)
Theorem assign_enrolls cfg now id user session attrs r :
  assign cfg now id user session attrs = Ok r → ar_variant_id r ≠ [] →
  ar_experiment_id r = id ∧
  ∃ exp, experiments_by_id cfg !! id = Some exp ∧ state exp = lit "RUNNING" ∧
    targeted exp attrs ∧
    (bucketed_type (exp_type exp) → ∃ layer input v,
       layers_by_id cfg !! layer_id exp = Some layer ∧ (0 < total_buckets layer)%Z ∧
       hash_input exp user session = Ok input ∧
       let b := bucket_of exp layer input in
       (start_bucket (allocation exp) ≤ b ≤ end_bucket (allocation exp))%Z ∧
       variants exp !! variant_index exp b = Some v ∧
       (plain_type (exp_type exp) →
        r = mk_assignment id (variant_id v) (payload_json v) (traffic_fraction v) true 0
              (is_control v))).
Proof.
  intros Ha Hv. split; [by apply assign_id in Ha|by eapply assign_inv_enrolled].
Qed.

(** Assignment to a plain experiment is complete and sticky: for a
    running, targeted experiment with variants in a layer with buckets the call
    succeeds, and its result is a function of the experiment, the layer's bucket
    count and the hashed id alone: not of the time, of other experiments, of the
    remaining attributes, or of the session when the user id is hashed. *)
Theorem assign_plain_functional cfg now id user session attrs exp layer input :
  experiments_by_id cfg !! id = Some exp → state exp = lit "RUNNING" → targeted exp attrs →
  plain_type (exp_type exp) → variants exp ≠ [] →
  layers_by_id cfg !! layer_id exp = Some layer → (0 < total_buckets layer)%Z →
  hash_input exp user session = Ok input →
  ∃ v, variants exp !! variant_index exp (bucket_of exp layer input) = Some v ∧
  assign cfg now id user session attrs =
  Ok (if is_in_allocation (bucket_of exp layer input) (start_bucket (allocation exp))
           (end_bucket (allocation exp))
      then mk_assignment id (variant_id v) (payload_json v) (traffic_fraction v) true 0
             (is_control v)
      else empty_assignment id true).
Proof.
  intros Hl Hs Ht Hp Hv Hlay Hpos Hin. rewrite (assign_routed _ _ _ _ _ _ exp) by done.
  unfold routed. rewrite Hlay. simpl.
  unfold plain_type in Hp. rewrite !not_elem_of_cons in Hp. destruct Hp as (? & ? & ? & ? & ? & _).
  rewrite !(is_lit_false (exp_type exp)) by done. simpl. rewrite Hin. simpl.
  rewrite bucket_eq by done. simpl. fold (bucket_of exp layer input).
  destruct (lookup_lt_is_Some_2 _ _ (variant_index_lt exp (bucket_of exp layer input) Hv)) as [v Hvl].
  exists v. split; [done|]. destruct (is_in_allocation _ _ _); [|done]. simpl.
  rewrite select_variant_index. unfold index. by rewrite Hvl.
Qed.

(** Experiments of one layer are mutually exclusive for a user when
    they hash the same id under the same salt and their inclusive allocations are
    disjoint: no two of them both serve a variant. *)
Theorem layer_exclusive cfg now now' id id' user session attrs exp exp' input r r' :
  experiments_by_id cfg !! id = Some exp → experiments_by_id cfg !! id' = Some exp' →
  layer_id exp = layer_id exp' → hash_salt exp = hash_salt exp' →
  bucketed_type (exp_type exp) → bucketed_type (exp_type exp') →
  hash_input exp user session = Ok input → hash_input exp' user session = Ok input →
  (end_bucket (allocation exp) < start_bucket (allocation exp'))%Z →
  assign cfg now id user session attrs = Ok r → assign cfg now' id' user session attrs = Ok r' →
  ar_variant_id r = [] ∨ ar_variant_id r' = [].
Proof.
  intros Hl Hl' Hlay Hsalt Hb Hb' Hi Hi' Hd Ha Ha'.
  destruct (decide (ar_variant_id r = [])) as [|Hn]; [by left|].
  destruct (decide (ar_variant_id r' = [])) as [|Hn']; [by right|exfalso].
  apply assign_inv_enrolled in Ha as (e & He & _ & _ & Ha); [|done].
  apply assign_inv_enrolled in Ha' as (e' & He' & _ & _ & Ha'); [|done].
  rewrite Hl in He. rewrite Hl' in He'. injection He as <-. injection He' as <-.
  destruct (Ha Hb) as (l & i & v & Hll & _ & Hii & Hr & _).
  destruct (Ha' Hb') as (l' & i' & v' & Hll' & _ & Hii' & Hr' & _).
  rewrite <- Hlay, Hll in Hll'. rewrite Hi in Hii. rewrite Hi' in Hii'. simplify_eq.
  unfold bucket_of in *. cbv zeta in *. rewrite Hsalt in Hr. lia.
Qed.

(** ** The batch *)

Section batch.
Context (snap : nat → Config) (clock : nat → Z) (user session : str) (attrs : attributes).

Abbreviation assign_nth := (assign_nth (R := R) select_arm snap clock user session attrs).
Abbreviation holdout_loop := (holdout_loop (R := R) select_arm snap clock user session attrs).
Abbreviation regular_loop := (regular_loop (R := R) select_arm snap clock user session attrs).
Abbreviation assign_batch := (assign_batch (R := R) select_arm snap clock user session attrs).

(** A holdout claims its layer when it serves a variant or fails. *)
Definition claims_layer (m : service GetAssignmentResponse) : bool :=
  match m with
  | Ok r => negb (bool_decide (ar_variant_id r = []))
  | Err _ => true
  | Panics | OutOfFuel => false
  end.

Definition holdouts (cfg : Config) : list ExperimentConfig :=
  filter (λ e, is_cumulative_holdout e = true) (experiments cfg).
Definition regulars (cfg : Config) : list ExperimentConfig :=
  filter (λ e, is_cumulative_holdout e = false) (experiments cfg).

Lemma holdout_loop_inv hs : ∀ k L acc k' L' acc',
  holdout_loop k hs L acc = Ok (k', L', acc') →
  L ⊆ L' ∧
  (∀ j h, hs !! j = Some h → claims_layer (assign_nth (k + j) h) = true → layer_id h ∈ L') ∧
  (∀ r, r ∈ acc' → r ∈ acc ∨ ∃ h, h ∈ hs ∧ ar_experiment_id r = experiment_id h).
Proof.
  induction hs as [|h hs IH]; intros k L acc k' L' acc'; simpl.
  { intros [= <- <- <-]. split_and!; [done|done|by left]. }
  assert (∀ L1 acc1,
    (claims_layer (assign_nth k h) = true → layer_id h ∈ L1) → L ⊆ L1 →
    (∀ r, r ∈ acc1 → r ∈ acc ∨ ar_experiment_id r = experiment_id h) →
    holdout_loop (S k) hs L1 acc1 = Ok (k', L', acc') →
    L ⊆ L' ∧
    (∀ j h', (h :: hs) !! j = Some h' → claims_layer (assign_nth (k + j) h') = true →
       layer_id h' ∈ L') ∧
    (∀ r, r ∈ acc' → r ∈ acc ∨ ∃ h', h' ∈ h :: hs ∧ ar_experiment_id r = experiment_id h'))
    as Hstep.
  { intros L1 acc1 Hc HL Hacc Hl. apply IH in Hl as (HL1 & Hj & Hr). split_and!; [set_solver| |].
    - intros [|j] h' Hh'; simpl in Hh'.
      + injection Hh' as <-. rewrite Nat.add_0_r. set_solver.
      + rewrite Nat.add_succ_r. apply (Hj j h' Hh').
    - intros r Hin. destruct (Hr r Hin) as [Ha1|(h' & ? & ?)]; [destruct (Hacc r Ha1); [by left|]|].
      + right. exists h. split; [left|done].
      + right. exists h'. split; [by right|done]. }
  destruct (assign_nth k h) as [r|e| |] eqn:Ha; [..|done|done]; apply Hstep; simpl.
  - case_bool_decide; [done|set_solver].
  - case_bool_decide; set_solver.
  - intros r'. rewrite elem_of_app, list_elem_of_singleton. intros [? | ->]; [by left|right].
    by eapply assign_id.
  - set_solver.
  - set_solver.
  - by left.
Qed.

Lemma regular_loop_inv es : ∀ k L acc rs,
  regular_loop k es L acc = Ok rs →
  ∀ r, r ∈ rs → r ∈ acc ∨ ∃ e, e ∈ es ∧ layer_id e ∉ L ∧ ar_experiment_id r = experiment_id e.
Proof.
  induction es as [|e es IH]; intros k L acc rs; simpl.
  { intros [= <-]. by left. }
  case_bool_decide as HL.
  { intros Hl r Hr. destruct (IH _ _ _ _ Hl r Hr) as [|(e' & ? & ? & ?)]; [by left|right].
    exists e'. split; [by right|done]. }
  destruct (assign_nth k e) as [r0|err| |] eqn:Ha; [| |done|done]; intros Hl r Hr;
    (destruct (IH _ _ _ _ Hl r Hr) as [Hin|(e' & ? & ? & ?)];
     [|right; exists e'; split; [by right|done]]).
  - apply elem_of_app in Hin as [? | ->%list_elem_of_singleton]; [by left|right].
    exists e. split; [left|]. split; [done|by eapply assign_id].
  - by left.
Qed.

Lemma assign_batch_inv cfg rs :
  assign_batch cfg = Ok rs →
  ∃ k L acc, holdout_loop 0 (holdouts cfg) ∅ [] = Ok (k, L, acc) ∧
             regular_loop k (regulars cfg) L acc = Ok rs.
Proof.
  unfold Assignment.assign_batch. intros Hb. apply bind_ok_inv in Hb as ([[k L] acc] & Hh & Hr).
  eauto.
Qed.

(** [C5] Holdouts take precedence, whatever the live configuration does
    between the calls of a batch: if a holdout serves a variant or fails, no
    response of the batch is for a regular experiment of its layer. *)
Theorem batch_holdout_precedence cfg rs k h e r :
  assign_batch cfg = Ok rs →
  NoDup (experiment_id <$> experiments cfg) →
  holdouts cfg !! k = Some h → claims_layer (assign_nth k h) = true →
  e ∈ regulars cfg → layer_id e = layer_id h →
  r ∈ rs → ar_experiment_id r ≠ experiment_id e.
Proof.
  intros (k' & L & acc & Hh & Hr)%assign_batch_inv Hnd Hk Hc He Hlay Hin Hid.
  apply holdout_loop_inv in Hh as (_ & HL & Hacc).
  assert (∀ e', e' ∈ experiments cfg → experiment_id e' = experiment_id e → e' = e) as Huniq.
  { intros e' He' Heq. apply list_elem_of_filter in He as [_ He].
    apply list_elem_of_lookup in He as [i Hi], He' as [j Hj].
    assert (j = i) as ->; [|congruence].
    eapply NoDup_lookup; [exact Hnd|rewrite list_lookup_fmap, Hj; reflexivity|].
    by rewrite list_lookup_fmap, Hi, Heq. }
  pose proof (proj1 (list_elem_of_filter _ _ _) He) as [Hreg _].
  destruct (regular_loop_inv _ _ _ _ _ Hr r Hin) as [Ha|(e' & He' & HnL & Hid')].
  - destruct (Hacc r Ha) as [Hnil|(h' & Hh' & Hid')]; [by apply not_elem_of_nil in Hnil|].
    apply list_elem_of_filter in Hh' as [Hh' Hin']. rewrite (Huniq h') in Hh'; congruence.
  - apply list_elem_of_filter in He' as [_ He']. rewrite (Huniq e') in HnL by congruence.
    apply HnL. rewrite Hlay. by apply (HL k).
Qed.

(** The response of a call, if it succeeded. *)
Definition response (m : service GetAssignmentResponse) : option GetAssignmentResponse :=
  match m with Ok r => Some r | _ => None end.
End batch.

(** In a stable configuration the result of a call does not depend on its index. *)
Section stable.
Context (cfg : Config) (now : Z) (user session : str) (attrs : attributes).

Definition attempt (e : ExperimentConfig) : service GetAssignmentResponse :=
  assign cfg now (experiment_id e) user session attrs.

Definition claimed_layers (hs : list ExperimentConfig) : gset str :=
  list_to_set (layer_id <$> filter (λ h, claims_layer (attempt h) = true) hs).

Lemma claimed_layers_cons h hs :
  claimed_layers (h :: hs) =
  (if claims_layer (attempt h) then {[layer_id h]} else ∅) ∪ claimed_layers hs.
Proof.
  unfold claimed_layers. rewrite filter_cons.
  destruct (claims_layer (attempt h)); case_decide; try done. by rewrite union_empty_l_L.
Qed.

Lemma holdout_loop_stable hs : ∀ k L acc,
  Forall (λ h, returns (attempt h)) hs →
  holdout_loop select_arm (λ _, cfg) (λ _, now) user session attrs k hs L acc =
  Ok (k + length hs, claimed_layers hs ∪ L, acc ++ omap (λ h, response (attempt h)) hs).
Proof.
  induction hs as [|h hs IH]; intros k L acc Hf; simpl.
  { rewrite app_nil_r, Nat.add_0_r. do 3 f_equal. unfold claimed_layers. simpl.
    by rewrite union_empty_l_L. }
  apply Forall_cons in Hf as [Hr Hf]. rewrite claimed_layers_cons.
  change (assign_nth _ _ _ _ _ _ k h) with (attempt h).
  destruct (attempt h) as [r|e| |]; try done; rewrite IH by done; simpl;
    rewrite ?Nat.add_succ_r, <- ?app_assoc; do 3 f_equal; clear;
    generalize (claimed_layers hs); intros C.
  - case_bool_decide; simpl; set_solver.
  - set_solver.
Qed.

Lemma regular_loop_stable es : ∀ k L acc,
  Forall (λ e, layer_id e ∉ L → returns (attempt e)) es →
  regular_loop select_arm (λ _, cfg) (λ _, now) user session attrs k es L acc =
  Ok (acc ++ omap (λ e, response (attempt e)) (filter (λ e, layer_id e ∉ L) es)).
Proof.
  induction es as [|e es IH]; intros k L acc Hf; simpl; [by rewrite app_nil_r|].
  apply Forall_cons in Hf as [Hr Hf]. rewrite filter_cons.
  case_bool_decide as HL; case_decide; try done; [by apply IH|].
  change (assign_nth _ _ _ _ _ _ k e) with (attempt e). specialize (Hr HL). simpl.
  destruct (attempt e) as [r|err| |]; try done; rewrite IH by done; simpl; [|done].
  by rewrite <- app_assoc.
Qed.

(** The batch over an unchanging configuration: when no call panics, it
    answers with every holdout that evaluates, then with every regular experiment
    that evaluates and whose layer no holdout has claimed, in configuration order;
    failed regular experiments are dropped and nothing else is. *)
Theorem batch_functional :
  Forall (λ e, returns (attempt e)) (experiments cfg) →
  assign_batch select_arm (λ _, cfg) (λ _, now) user session attrs cfg =
  Ok (omap (λ h, response (attempt h)) (holdouts cfg) ++
      omap (λ e, response (attempt e))
        (filter (λ e, layer_id e ∉ claimed_layers (holdouts cfg)) (regulars cfg))).
Proof.
  intros Hf. unfold assign_batch. fold (holdouts cfg) (regulars cfg).
  rewrite holdout_loop_stable by (by apply Forall_filter_weaken). simpl.
  rewrite union_empty_r_L.
  rewrite regular_loop_stable; [done|]. apply Forall_filter_weaken.
  eapply Forall_impl; [exact Hf|done].
Qed.
End stable.

(** ** Fallbacks *)

Lemma index_lt {E A} (l : list A) i : i < length l → ∃ x, l !! i = Some x ∧ @index E A l i = Ok x.
Proof.
  intros Hi. destruct (lookup_lt_is_Some_2 l i Hi) as [x Hx]. exists x. unfold index. by rewrite Hx.
Qed.

Lemma swap_perm {E} (l : list str) i j :
  i < length l → j < length l → ∃ l', @swap E str l i j = Ok l' ∧ l' ≡ₚ l ∧ length l' = length l.
Proof.
  intros Hi Hj. destruct (@index_lt E _ l i Hi) as (x & Hx & Ex), (@index_lt E _ l j Hj) as (y & Hy & Ey).
  unfold swap. rewrite Ex. simpl. rewrite Ey. simpl. eexists. split; [reflexivity|].
  rewrite !length_insert. split; [by apply Permutation_insert_swap|done].
Qed.

Lemma shuffle_loop_perm idxs : ∀ l (rng : R),
  Forall (λ i, i < length l) idxs →
  ∃ l' rng', shuffle_loop idxs l rng = Ok (l', rng') ∧ l' ≡ₚ l.
Proof.
  induction idxs as [|i idxs IH]; intros l rng Hf; simpl; [by exists l, rng|].
  apply Forall_cons in Hf as [Hi Hf].
  pose proof (gen_range_lt (S i) rng ltac:(lia)) as Hj.
  destruct (gen_range (S i) rng) as [j rng'] eqn:Hg. simpl in Hj.
  destruct (@swap_perm Status l i j) as (l' & -> & Hp & Hlen); [lia..|]. simpl.
  destruct (IH l' rng') as (l'' & rng'' & -> & Hp'); [by rewrite Hlen|].
  exists l'', rng''. split; [done|]. by rewrite Hp'.
Qed.

Lemma shuffle_perm l (rng : R) : ∃ l' rng', shuffle l rng = Ok (l', rng') ∧ l' ≡ₚ l.
Proof.
  apply shuffle_loop_perm. apply Forall_forall. intros i Hi.
  apply list_elem_of_In, in_rev, in_seq in Hi. lia.
Qed.

Lemma submseteq_take_perm (l l' : list str) n : l' ≡ₚ l → take n l' ⊆+ l.
Proof. intros <-. rewrite <- (take_drop n l') at 2. apply submseteq_inserts_r. done. Qed.

(** The local slate fallback: when M4b is absent or fails, a running
    experiment with [n] slots answers with exactly [n] of the candidates, none used
    more often than it was offered, numbered from 0 and marked uniform; fewer
    candidates than slots are rejected, and nothing panics. *)
Theorem slate_fallback select_slate cfg id user items attrs exp sc n :
  experiments_by_id cfg !! id = Some exp → state exp = lit "RUNNING" →
  bandit_config exp ≫= slate_config = Some sc → as_usize (num_slots sc) = Z.of_nat n → 0 < n →
  (∀ features, try_select_slate select_slate id user items (as_i32 (Z.of_nat n)) features = None) →
  if decide (length items < n)
  then assign_slate (R := R) select_slate cfg id user items attrs =
       Err (mk_status InvalidArgument (TooFewCandidates (length items) (Z.of_nat n)))
  else ∃ resp, assign_slate (R := R) select_slate cfg id user items attrs = Ok resp ∧
    gs_experiment_id resp = id ∧ gs_uniform resp = true ∧
    length (gs_items resp) = n ∧ gs_items resp ⊆+ items ∧
    sp_item_id <$> gs_slots resp = gs_items resp ∧
    sp_index <$> gs_slots resp = Z.of_nat <$> seq 0 n.
Proof.
  intros Hl Hs Hsc Hn Hpos Hnone. unfold assign_slate. rewrite Hl. simpl.
  rewrite Hs. change (is_lit (lit "RUNNING") "RUNNING") with true. simpl.
  rewrite Hsc. simpl. rewrite Hn. unfold reject_if.
  destruct (Z.of_nat n =? 0)%Z eqn:E0; [lia|]. simpl.
  destruct (Z.of_nat (length items) <? Z.of_nat n)%Z eqn:El; case_decide; try lia; [done|]. simpl.
  rewrite Hnone, seed_of_ok. simpl.
  destruct (shuffle_perm items (seed_from_u64 (seed_value (user ++ nul :: id))))
    as (l' & rng' & -> & Hp). simpl. rewrite Nat2Z.id.
  assert (length (take n l') = n) as Hlen by (rewrite length_take, Hp; lia).
  eexists. split; [reflexivity|]. simpl. split_and!; [done..| | |].
  - by apply submseteq_take_perm.
  - rewrite fmap_imap. rewrite <- (list_fmap_id (take n l')) at 2. apply imap_const.
  - rewrite fmap_imap. rewrite <- Hlen at 2. generalize (take n l'). intros l.
    clear. apply list_eq. intros i. rewrite list_lookup_imap, list_lookup_fmap.
    destruct (l !! i) as [x|] eqn:Hx; simpl.
    + rewrite lookup_seq_lt; [done|]. by eapply lookup_lt_Some.
    + rewrite lookup_seq_ge; [done|]. by apply lookup_ge_None_1.
Qed.

(** The bandit fallback of MAB, CONTEXTUAL_BANDIT and META experiments is
    total: with a configured, non-empty arm list it serves one of the arms with
    its own payload, whatever the remote service did; with no arms or no bandit
    config it is a precondition error. *)
Theorem bandit_fallback exp user id attrs :
  (∀ features, try_select_arm select_arm id user features = None) →
  match bandit_config exp with
  | None => assign_bandit exp user id attrs =
            Err (mk_status FailedPrecondition (NoBanditConfig id))
  | Some bc =>
      match arms bc with
      | [] => assign_bandit exp user id attrs = Err (mk_status FailedPrecondition (NoArms id))
      | _ => ∃ arm, arm ∈ arms bc ∧
          assign_bandit exp user id attrs =
          Ok (mk_assignment id (arm_id arm) (arm_payload_json arm)
                (f64_div f64_one (f64_of_u32 (Z.of_nat (length (arms bc))))) true 0 false)
      end
  end.
Proof.
  intros Hnone. unfold Assignment.assign_bandit. destruct (bandit_config exp) as [bc|]; [|done].
  simpl. rewrite Hnone, seed_of_ok. simpl. unfold select_arm_uniform.
  destruct (arms bc) as [|a l] eqn:Ha; [done|]. rewrite <- Ha.
  destruct (length (arms bc) =? 0)%nat eqn:E; [apply Nat.eqb_eq in E; by rewrite Ha in E|].
  set (rng := seed_from_u64 _).
  pose proof (gen_range_lt (length (arms bc)) rng) as Hlt.
  destruct (gen_range (length (arms bc)) rng) as [i rng']. simpl in Hlt.
  destruct (@index_lt Status _ (arms bc) i) as (arm & Hx & Hix).
  { apply Hlt. rewrite Ha. simpl. lia. }
  rewrite Hix. simpl. exists arm. split; [by eapply list_elem_of_lookup_2|done].
Qed.
End routing.

(** [C39] The variants of an experiment partition its allocation into
    consecutive blocks: every bucket of the allocation gets a variant (there is no
    gap and no panic), and a larger bucket never gets an earlier variant, whatever
    the traffic fractions are, rounding included. *)
Theorem select_variant_partition exp b b' :
  alloc_ok (allocation exp) → variants exp ≠ [] →
  (start_bucket (allocation exp) ≤ b ≤ b' ∧ b' ≤ end_bucket (allocation exp))%Z →
  ∃ v v', Assignment.select_variant exp b = Ok v ∧
    Assignment.select_variant exp b' = Ok v' ∧
    variants exp !! variant_index exp b = Some v ∧
    variants exp !! variant_index exp b' = Some v' ∧
    variant_index exp b ≤ variant_index exp b'.
Proof.
  intros Ha Hv Hb. rewrite !select_variant_index.
  destruct (@index_lt Status _ (variants exp) (variant_index exp b)) as (v & Hv1 & ->);
    [by apply variant_index_lt|].
  destruct (@index_lt Status _ (variants exp) (variant_index exp b')) as (v' & Hv2 & ->);
    [by apply variant_index_lt|].
  exists v, v'. split_and!; [done..|]. by apply variant_index_mono.
Qed.

(** ** Witnesses *)

Definition sample_exp (id salt layer : str) (st en : Z) (holdout : bool) : ExperimentConfig :=
  mk_experiment_config id [] (lit "RUNNING") (lit "AB") salt layer sample_variants
    (mk_allocation_config st en)
    (Some (mk_targeting_rule [mk_targeting_group
       [mk_targeting_predicate (lit "country") (lit "IN") [lit "FR"; lit "US"]]]))
    None None None holdout None None.

Definition sample_config : Config :=
  from_experiments_and_layers
    [sample_exp (lit "h") (lit "s") (lit "L") 0 4999 true;
     sample_exp (lit "e1") (lit "s") (lit "L") 5000 9999 false;
     sample_exp (lit "e2") (lit "t") (lit "L") 0 4999 false;
     sample_exp (lit "e3") (lit "s") (lit "M") 0 9999 false]
    [mk_layer_config (lit "L") 10000; mk_layer_config (lit "M") 10000].

Definition sample_attrs : attributes := {[lit "country" := lit "US"]}.

Definition run_assign (id user : str) : service GetAssignmentResponse :=
  assign (R := counter) None sample_config 0 id user (lit "session") sample_attrs.

(** Disjoint allocations do not keep the experiments of a layer apart when their
    salts differ: [e1] and [e2] of layer [L] both serve the same user. *)
Lemma layer_not_exclusive :
  let e1 := sample_exp (lit "e1") (lit "s") (lit "L") 5000 9999 false in
  let e2 := sample_exp (lit "e2") (lit "t") (lit "L") 0 4999 false in
  experiments_by_id sample_config !! lit "e1" = Some e1 ∧
  experiments_by_id sample_config !! lit "e2" = Some e2 ∧
  layer_id e1 = layer_id e2 ∧
  (end_bucket (allocation e2) < start_bucket (allocation e1))%Z ∧
  ∃ user r1 r2, run_assign (lit "e1") user = Ok r1 ∧ run_assign (lit "e2") user = Ok r2 ∧
    ar_variant_id r1 ≠ [] ∧ ar_variant_id r2 ≠ [].
Proof.
  cbv zeta. split_and!; [reflexivity|reflexivity|reflexivity|reflexivity|].
  exists (lit "u4"). eexists _, _. split_and!; [vm_compute; reflexivity..| |]; discriminate.
Qed.

Lemma assign_enrolls_witness :
  ∃ r, run_assign (lit "e1") (lit "u4") = Ok r ∧ ar_variant_id r ≠ [] ∧
    ar_experiment_id r = lit "e1".
Proof.
  destruct (run_assign (lit "e1") (lit "u4")) as [r| | |] eqn:E; try (vm_compute in E; discriminate).
  exists r. split; [reflexivity|].
  assert (ar_variant_id r ≠ []) as Hv by (vm_compute in E; injection E as <-; discriminate).
  split; [exact Hv|]. exact (proj1 (assign_enrolls None _ _ _ _ _ _ r E Hv)).
Defined.

Lemma sample_targeted exp :
  targeting_rule exp = Some (mk_targeting_rule [mk_targeting_group
    [mk_targeting_predicate (lit "country") (lit "IN") [lit "FR"; lit "US"]]]) →
  targeted exp sample_attrs.
Proof.
  intros Hr. unfold targeted. rewrite Hr. apply evaluate_rule_spec. vm_compute. reflexivity.
Qed.

Lemma assign_plain_functional_witness :
  let e := sample_exp (lit "e3") (lit "s") (lit "M") 0 9999 false in
  let l := mk_layer_config (lit "M") 10000 in
  ∃ v, variants e !! variant_index e (bucket_of e l (lit "u1")) = Some v ∧
    run_assign (lit "e3") (lit "u1") =
    Ok (if is_in_allocation (bucket_of e l (lit "u1")) 0 9999
        then mk_assignment (lit "e3") (variant_id v) (payload_json v) (traffic_fraction v) true 0
               (is_control v)
        else empty_assignment (lit "e3") true).
Proof.
  apply (assign_plain_functional None sample_config 0 (lit "e3") (lit "u1") (lit "session")
    sample_attrs (sample_exp (lit "e3") (lit "s") (lit "M") 0 9999 false)
    (mk_layer_config (lit "M") 10000) (lit "u1"));
    [reflexivity|reflexivity|by apply sample_targeted| |done|reflexivity|reflexivity|reflexivity].
  unfold plain_type. apply (bool_decide_unpack _). vm_compute. exact I.
Defined.

Lemma layer_exclusive_witness :
  let h := sample_exp (lit "h") (lit "s") (lit "L") 0 4999 true in
  let e1 := sample_exp (lit "e1") (lit "s") (lit "L") 5000 9999 false in
  ∃ r r', run_assign (lit "h") (lit "u4") = Ok r ∧ run_assign (lit "e1") (lit "u4") = Ok r' ∧
    (ar_variant_id r = [] ∨ ar_variant_id r' = []).
Proof.
  destruct (run_assign (lit "h") (lit "u4")) as [r| | |] eqn:E; try (vm_compute in E; discriminate).
  destruct (run_assign (lit "e1") (lit "u4")) as [r'| | |] eqn:E'; try (vm_compute in E'; discriminate).
  exists r, r'. split; [reflexivity|]. split; [reflexivity|].
  eapply (layer_exclusive None sample_config 0 0 (lit "h") (lit "e1") (lit "u4") (lit "session")
    sample_attrs (sample_exp (lit "h") (lit "s") (lit "L") 0 4999 true)
    (sample_exp (lit "e1") (lit "s") (lit "L") 5000 9999 false) (lit "u4") r r');
    [reflexivity|reflexivity|reflexivity|reflexivity| | |reflexivity|reflexivity|reflexivity|
     exact E|exact E'];
    unfold bucketed_type; apply (bool_decide_unpack _); vm_compute; exact I.
Defined.

Lemma batch_holdout_precedence_witness :
  ∃ rs, assign_batch (R := counter) None (λ _, sample_config) (λ _, 0%Z) (lit "u1") (lit "session")
          sample_attrs sample_config = Ok rs ∧
    Forall (λ r, ar_experiment_id r ≠ lit "e1") rs.
Proof.
  destruct (assign_batch (R := counter) None (λ _, sample_config) (λ _, 0%Z) (lit "u1")
    (lit "session") sample_attrs sample_config) as [rs| | |] eqn:E;
    try (vm_compute in E; discriminate).
  exists rs. split; [reflexivity|]. apply Forall_forall. intros r Hr.
  apply (batch_holdout_precedence None (λ _, sample_config) (λ _, 0%Z) (lit "u1") (lit "session")
    sample_attrs sample_config rs 0 (sample_exp (lit "h") (lit "s") (lit "L") 0 4999 true)
    (sample_exp (lit "e1") (lit "s") (lit "L") 5000 9999 false) r E);
    [apply (bool_decide_unpack _); vm_compute; exact I|reflexivity|vm_compute; reflexivity
    |apply list_elem_of_lookup_2 with 0; reflexivity|reflexivity|exact Hr].
Defined.

Lemma batch_functional_witness :
  ∃ rs, assign_batch (R := counter) None (λ _, sample_config) (λ _, 0%Z) (lit "u4") (lit "session")
          sample_attrs sample_config = Ok rs ∧ length rs = 4.
Proof.
  assert (Forall (λ e, returns (attempt (R := counter) None sample_config 0 (lit "u4")
            (lit "session") sample_attrs e)) (experiments sample_config)) as Hf
    by (apply (bool_decide_unpack _); vm_compute; exact I).
  eexists. split; [exact (batch_functional (R := counter) None sample_config 0 (lit "u4")
    (lit "session") sample_attrs Hf)|]. vm_compute. reflexivity.
Defined.

Definition sample_bandit : BanditConfig :=
  mk_bandit_config [] [mk_bandit_arm_config (lit "a") [] (lit "{1}");
                       mk_bandit_arm_config (lit "b") [] (lit "{2}")] [] [] f64_zero 0 None None
    (Some (mk_slate_config 2 5)).

Definition sample_slate_config : Config :=
  from_experiments_and_layers
    [mk_experiment_config (lit "sl") [] (lit "RUNNING") (lit "SLATE_BANDIT") [] (lit "L") []
       (mk_allocation_config 0 0) None None None (Some sample_bandit) false None None] [].

Lemma slate_fallback_witness :
  ∃ resp, assign_slate (R := counter) None sample_slate_config (lit "sl") (lit "u")
      [lit "x"; lit "y"; lit "z"] ∅ = Ok resp ∧
    gs_experiment_id resp = lit "sl" ∧ gs_uniform resp = true ∧ length (gs_items resp) = 2 ∧
    gs_items resp ⊆+ [lit "x"; lit "y"; lit "z"] ∧
    sp_item_id <$> gs_slots resp = gs_items resp ∧
    sp_index <$> gs_slots resp = Z.of_nat <$> seq 0 2.
Proof.
  eapply (slate_fallback None sample_slate_config (lit "sl") (lit "u") [lit "x"; lit "y"; lit "z"] ∅
    _ (mk_slate_config 2 5) 2); [reflexivity|reflexivity|reflexivity|reflexivity|lia|reflexivity].
Defined.

Lemma bandit_fallback_witness :
  ∃ arm, arm ∈ arms sample_bandit ∧
    assign_bandit (R := counter) None
      (mk_experiment_config (lit "b") [] (lit "RUNNING") (lit "MAB") [] (lit "L") []
         (mk_allocation_config 0 0) None None None (Some sample_bandit) false None None)
      (lit "u") (lit "b") ∅ =
    Ok (mk_assignment (lit "b") (arm_id arm) (arm_payload_json arm)
          (f64_div f64_one (f64_of_u32 (Z.of_nat (length (arms sample_bandit))))) true 0 false).
Proof.
  exact (bandit_fallback (R := counter) None
      (mk_experiment_config (lit "b") [] (lit "RUNNING") (lit "MAB") [] (lit "L") []
         (mk_allocation_config 0 0) None None None (Some sample_bandit) false None None)
      (lit "u") (lit "b") ∅ (λ _, eq_refl)).
Defined.

Lemma select_variant_partition_witness :
  let e := sample_exp (lit "e3") (lit "s") (lit "M") 0 9999 false in
  ∃ v v', Assignment.select_variant e 4999 = Ok v ∧ Assignment.select_variant e 5000 = Ok v' ∧
    variants e !! variant_index e 4999 = Some v ∧ variants e !! variant_index e 5000 = Some v' ∧
    variant_index e 4999 ≤ variant_index e 5000.
Proof. apply select_variant_partition; [by split|done|by split]. Defined.
