(* ===== verification/StateMachine.v ===== *)
(** Experiment lifecycle states ([experimentation-management/src/state_machine.rs])
    and the conditional [UPDATE] statements every transition is made of
    ([store.rs], the lifecycle section). *)
From Stdlib Require Import Ascii String.
From S2P Require Import Prelude Bytes Targeting.

(** ** States *)

Inductive ExperimentState :=
| Draft | Starting | Running | Paused | Concluding | Concluded | Archived.

#[export] Instance experiment_state_eq_dec : EqDecision ExperimentState.
Proof. solve_decision. Defined.

Definition all_states : list ExperimentState :=
  [Draft; Starting; Running; Paused; Concluding; Concluded; Archived].

Definition from_db_str (s : str) : option ExperimentState :=
  if is_lit s "DRAFT" then Some Draft
  else if is_lit s "STARTING" then Some Starting
  else if is_lit s "RUNNING" then Some Running
  else if is_lit s "PAUSED" then Some Paused
  else if is_lit s "CONCLUDING" then Some Concluding
  else if is_lit s "CONCLUDED" then Some Concluded
  else if is_lit s "ARCHIVED" then Some Archived
  else None.

Definition as_str (s : ExperimentState) : str :=
  match s with
  | Draft => lit "DRAFT" | Starting => lit "STARTING" | Running => lit "RUNNING"
  | Paused => lit "PAUSED" | Concluding => lit "CONCLUDING" | Concluded => lit "CONCLUDED"
  | Archived => lit "ARCHIVED"
  end.

Definition valid_successors (s : ExperimentState) : list ExperimentState :=
  match s with
  | Draft => [Starting]
  | Starting => [Running; Draft]
  | Running => [Paused; Concluding]
  | Paused => [Running; Concluding]
  | Concluding => [Concluded]
  | Concluded => [Archived]
  | Archived => []
  end.

Definition can_transition_to (s target : ExperimentState) : bool :=
  bool_decide (target ∈ valid_successors s).

(** ** The [experiments] table *)

Abbreviation Uuid := positive.

Record ExperimentRow := mk_row
  { row_state : str; started_at : option Z; paused_at : option Z; pause_reason : option str;
    resumed_at : option Z; concluded_at : option Z; archived_at : option Z; updated_at : Z }.

Abbreviation Db := (gmap Uuid ExperimentRow).

(** [UPDATE experiments SET .. WHERE experiment_id = $id AND p(state)], one atomic
    statement: the new table and [rows_affected()]. *)
Definition update_where (id : Uuid) (p : str → bool) (set : ExperimentRow → ExperimentRow)
    (db : Db) : Db * Z :=
  match db !! id with
  | Some row => if p (row_state row) then (<[id := set row]> db, 1%Z) else (db, 0%Z)
  | None => (db, 0%Z)
  end.

Definition set_state (s : str) (now : Z) (r : ExperimentRow) : ExperimentRow :=
  mk_row s (started_at r) (paused_at r) (pause_reason r) (resumed_at r) (concluded_at r)
    (archived_at r) now.

(** [transition_state_raw]. *)
Definition transition_state_raw (now : Z) (id : Uuid) (from to : str) (db : Db) : Db * Z :=
  update_where id (λ s, bool_decide (s = from)) (set_state to now) db.

Definition start_transition (now : Z) (id : Uuid) (db : Db) : Db * Z :=
  update_where id (λ s, is_lit s "DRAFT")
    (λ r, mk_row (lit "STARTING") (Some now) (paused_at r) (pause_reason r) (resumed_at r)
            (concluded_at r) (archived_at r) now) db.

Definition run_transition (now : Z) (id : Uuid) (db : Db) : Db * Z :=
  update_where id (λ s, is_lit s "STARTING") (set_state (lit "RUNNING") now) db.

Definition revert_to_draft (now : Z) (id : Uuid) (db : Db) : Db * Z :=
  update_where id (λ s, is_lit s "STARTING")
    (λ r, mk_row (lit "DRAFT") None (paused_at r) (pause_reason r) (resumed_at r)
            (concluded_at r) (archived_at r) now) db.

Definition pause_transition (now : Z) (id : Uuid) (reason : str) (db : Db) : Db * Z :=
  update_where id (λ s, is_lit s "RUNNING")
    (λ r, mk_row (lit "PAUSED") (started_at r) (Some now) (Some reason) (resumed_at r)
            (concluded_at r) (archived_at r) now) db.

Definition resume_transition (now : Z) (id : Uuid) (db : Db) : Db * Z :=
  update_where id (λ s, is_lit s "PAUSED")
    (λ r, mk_row (lit "RUNNING") (started_at r) (paused_at r) None (Some now)
            (concluded_at r) (archived_at r) now) db.

Definition conclude_transition (now : Z) (id : Uuid) (db : Db) : Db * Z :=
  update_where id (λ s, is_lit s "RUNNING" || is_lit s "PAUSED")
    (set_state (lit "CONCLUDING") now) db.

Definition mark_concluded (now : Z) (id : Uuid) (db : Db) : Db * Z :=
  update_where id (λ s, is_lit s "CONCLUDING")
    (λ r, mk_row (lit "CONCLUDED") (started_at r) (paused_at r) (pause_reason r) (resumed_at r)
            (Some now) (archived_at r) now) db.

Definition archive_transition (now : Z) (id : Uuid) (db : Db) : Db * Z :=
  update_where id (λ s, is_lit s "CONCLUDED")
    (λ r, mk_row (lit "ARCHIVED") (started_at r) (paused_at r) (pause_reason r) (resumed_at r)
            (concluded_at r) (Some now) now) db.

(** ** The executor *)

Inductive TransitionError :=
| Conflict (experiment_id : Uuid)
| Invalid (from to : ExperimentState)
| NotFound (experiment_id : Uuid).

Definition experiment_exists (id : Uuid) (db : Db) : bool := bool_decide (is_Some (db !! id)).

(** [transition]: the update and the existence check are separate statements;
    [between] is what other writers do to the table in the meantime. *)
Definition transition (now : Z) (between : Db → Db) (id : Uuid) (from to : ExperimentState)
    (db : Db) : result TransitionError unit * Db :=
  if negb (can_transition_to from to) then (Err (Invalid from to), db)
  else
    let '(db', rows) := transition_state_raw now id (as_str from) (as_str to) db in
    if (rows =? 0)%Z then
      if negb (experiment_exists id (between db')) then (Err (NotFound id), db')
      else (Err (Conflict id), db')
    else (Ok tt, db').

(** ** Properties *)

Lemma from_db_str_as_str s : from_db_str (as_str s) = Some s.
Proof. by destruct s. Qed.

Lemma as_str_inj s t : as_str s = as_str t → s = t.
Proof. intros H. apply (f_equal from_db_str) in H. rewrite !from_db_str_as_str in H. congruence. Qed.

Lemma from_db_str_inv v s : from_db_str v = Some s → v = as_str s.
Proof.
  unfold from_db_str. intros H.
  repeat match type of H with
  | (if is_lit v ?l then _ else _) = _ => destruct (is_lit v l) eqn:E;
      [apply is_lit_true in E; by injection H as <-|clear E]
  end. done.
Qed.

(** [edges*]: reachability in the state machine. *)
Definition edge (s t : ExperimentState) : Prop := t ∈ valid_successors s.

#[export] Instance edge_dec s t : Decision (edge s t).
Proof. unfold edge. apply _. Defined.

Definition stage (s : ExperimentState) : nat :=
  match s with
  | Draft | Starting => 0 | Running | Paused => 1 | Concluding => 2 | Concluded => 3
  | Archived => 4
  end.

Lemma edge_stage s t : edge s t → stage s ≤ stage t.
Proof. unfold edge. destruct s; simpl; rewrite ?elem_of_cons, elem_of_nil; intros; destruct_or?; subst; simpl; try lia; done. Qed.

Lemma path_trans s t u : rtc edge s t → rtc edge t u → rtc edge s u.
Proof. intros ? ?. by etrans. Qed.

Lemma path_stage s t : rtc edge s t → stage s ≤ stage t.
Proof. induction 1 as [|s u t Hs _ IH]; [done|]. apply edge_stage in Hs. lia. Qed.

Lemma update_where_spec id p set (db : Db) :
  (∃ row, db !! id = Some row ∧ p (row_state row) = true ∧
     update_where id p set db = (<[id := set row]> db, 1%Z)) ∨
  ((∀ row, db !! id = Some row → p (row_state row) = false) ∧
     update_where id p set db = (db, 0%Z)).
Proof.
  unfold update_where. destruct (db !! id) as [row|] eqn:Hl; [|by right].
  destruct (p (row_state row)) eqn:Hp; [left; eauto|right]. split; [|done].
  intros row' [= <-]. done.
Qed.

(** The state of an experiment, when its row holds a valid one. *)
Definition state_of (db : Db) (id : Uuid) : option ExperimentState :=
  db !! id ≫= λ r, from_db_str (row_state r).

Lemma state_of_some db id s : state_of db id = Some s ↔ ∃ r, db !! id = Some r ∧ row_state r = as_str s.
Proof.
  unfold state_of. destruct (db !! id) as [r|]; simpl; [|naive_solver]. split.
  - intros H%from_db_str_inv. eauto.
  - intros (r' & [= <-] & ->). apply from_db_str_as_str.
Qed.

Lemma state_of_insert_eq db id r s : row_state r = as_str s → state_of (<[id := r]> db) id = Some s.
Proof. intros H. apply state_of_some. exists r. by rewrite lookup_insert_eq. Qed.

Lemma state_of_insert_ne db id id' r : id ≠ id' → state_of (<[id := r]> db) id' = state_of db id'.
Proof. intros H. unfold state_of. by rewrite lookup_insert_ne. Qed.

(** The lifecycle graph: the seven names are exactly the strings the
    parser accepts and parsing undoes printing; every state is reachable from
    DRAFT and can reach ARCHIVED, which is terminal; and no path returns to an
    earlier phase (setup, active, concluding, concluded, archived). *)
Theorem lifecycle_graph :
  (∀ v s, from_db_str v = Some s ↔ v = as_str s) ∧
  (∀ s, rtc edge Draft s ∧ rtc edge s Archived) ∧
  (∀ s, can_transition_to Archived s = false) ∧
  (∀ s t, rtc edge s t → stage s ≤ stage t).
Proof.
  assert (∀ s t, can_transition_to s t = true → edge s t) as He
    by (intros s t; apply bool_decide_eq_true).
  assert (rtc edge Starting Running ∧ rtc edge Draft Starting) as [H1 H0]
    by (split; apply rtc_once, He; reflexivity).
  assert (rtc edge Concluded Archived) as H4 by (apply rtc_once, He; reflexivity).
  assert (rtc edge Concluding Concluded) as H3 by (apply rtc_once, He; reflexivity).
  assert (rtc edge Running Concluding) as H2 by (apply rtc_once, He; reflexivity).
  assert (rtc edge Running Paused ∧ rtc edge Paused Concluding) as [Hp Hp']
    by (split; apply rtc_once, He; reflexivity).
  split_and!; [|split|by intros []|apply path_stage].
  - intros v s. split; [apply from_db_str_inv|intros ->; apply from_db_str_as_str].
  - destruct s; eauto using rtc_refl, path_trans.
  - destruct s; eauto 7 using rtc_refl, path_trans.
Qed.

(** The transition executor is a compare-and-swap on valid edges: it
    succeeds exactly when the edge exists and the row is in the expected state, and
    then only that row's state and update time change; otherwise the table is left
    alone and the error says which check failed. Once it has moved a row, a second
    transition from the same state fails until the row returns to it. *)
Theorem transition_cas now between id from to db :
  let '(res, db') := transition now between id from to db in
  (res = Ok tt ↔ edge from to ∧ state_of db id = Some from) ∧
  (res = Ok tt → ∃ row, db !! id = Some row ∧ db' = <[id := set_state (as_str to) now row]> db ∧
     ∀ now' between' to', (transition now' between' id from to' db').1 ≠ Ok tt) ∧
  (res ≠ Ok tt → db' = db ∧
     res = Err (if decide (edge from to)
                then if experiment_exists id (between db) then Conflict id else NotFound id
                else Invalid from to)).
Proof.
  unfold transition, can_transition_to, edge. case_bool_decide as He; simpl.
  2: { split_and!; [naive_solver|done|]. intros _. by rewrite decide_False. }
  assert (from ≠ to) as Hne by (intros <-; destruct from; simpl in He;
    rewrite ?elem_of_cons, elem_of_nil in He; naive_solver).
  destruct (update_where_spec id (λ s, bool_decide (s = as_str from)) (set_state (as_str to) now) db)
    as [(row & Hl & Hp & Hu)|(Hp & Hu)]; unfold transition_state_raw; rewrite Hu; simpl.
  - apply bool_decide_eq_true in Hp. split; [|split; [intros _|done]].
    + split; [intros _|done]. split; [done|]. apply state_of_some. eauto.
    + exists row. split_and!; [done..|]. intros now' between' to'. case_bool_decide; simpl; [|done].
      unfold update_where. rewrite lookup_insert_eq. simpl.
      rewrite bool_decide_false by (intros ->%as_str_inj; done). simpl. by destruct (negb _).
  - assert (¬ state_of db id = Some from) as Hn.
    { intros (r & Hr & Hs)%state_of_some.
      apply Hp in Hr. by rewrite Hs, bool_decide_true in Hr. }
    rewrite decide_True by done.
    destruct (experiment_exists id (between db)); simpl; (split; [|split; [done|done]]);
      split; [done|tauto|done|tauto].
Qed.
