(* ===== verification/Lifecycle.v ===== *)
(** The lifecycle handlers ([experimentation-management/src/grpc.rs], start /
    conclude / archive / pause / resume, and the guardrail consumer of [kafka.rs])
    as threads of atomic steps over one database, one version counter and one
    broadcast channel. Each [sqlx] statement is one step, and between two steps of
    a handler any other handler may run; a statement may fail, before or after the
    database applied it. *)
From Stdlib Require Import Ascii String.
From S2P Require Import Prelude Bytes Targeting StateMachine.

(** A [ConfigUpdateEvent]: the row it was built from, as read by the handler. *)
Record ConfigUpdateEvent := mk_event
  { ev_id : Uuid; ev_row : ExperimentRow; ev_is_deletion : bool; ev_version : Z }.

(** Where a handler stands: before the named statement, or finished with [Ok]/[Err]. *)
Inductive Thread :=
| StartBegin (id : Uuid)
| StartLoad (id : Uuid)
| StartLoadVariants (id : Uuid)
| StartRevert (id : Uuid)
| StartRun (id : Uuid)
| StartReload (id : Uuid)
| ConcludeBegin (id : Uuid)
| ConcludeMark (id : Uuid)
| ArchiveBegin (id : Uuid)
| PauseBegin (id : Uuid) (reason : str)
| ResumeBegin (id : Uuid)
| GuardrailPause (id : Uuid) (reason : str)
| RejectLoad (id : Uuid)
| Reload (id : Uuid) (is_deletion : bool)
| ReloadVariants (id : Uuid) (row : ExperimentRow) (is_deletion : bool)
| PublishVersion (id : Uuid) (row : ExperimentRow) (is_deletion : bool)
| PublishSend (event : ConfigUpdateEvent)
| Done (ok : bool).

(** The requests a thread starts from. *)
Definition is_request (t : Thread) : bool :=
  match t with
  | StartBegin _ | ConcludeBegin _ | ArchiveBegin _ | PauseBegin _ _ | ResumeBegin _
  | GuardrailPause _ _ => true
  | _ => false
  end.

Section handlers.
(** [validate_starting] on the experiment's stored contents; no statement of the
    service changes them after creation. *)
Context (validate_starting : Uuid → bool).

(** The [UPDATE] a thread is about to run. *)
Definition statement (now : Z) (t : Thread) : option (Db → Db * Z) :=
  match t with
  | StartBegin id => Some (start_transition now id)
  | StartRevert id => Some (revert_to_draft now id)
  | StartRun id => Some (run_transition now id)
  | ConcludeBegin id => Some (conclude_transition now id)
  | ConcludeMark id => Some (mark_concluded now id)
  | ArchiveBegin id => Some (archive_transition now id)
  | PauseBegin id reason | GuardrailPause id reason => Some (pause_transition now id reason)
  | ResumeBegin id => Some (resume_transition now id)
  | _ => None
  end.

(** [if rows == 0 { get_experiment; return Err(failed_precondition) }]. *)
Definition or_reject (id : Uuid) (rows : Z) (next : Thread) : Thread :=
  if (rows =? 0)%Z then RejectLoad id else next.

(** [start_experiment]: after DRAFT→STARTING the row is loaded and validated; after
    STARTING→RUNNING, which reports a conflict when no row moved, it is published. *)
Definition start_began (id : Uuid) (rows : Z) : Thread := or_reject id rows (StartLoad id).
Definition start_validated (id : Uuid) : Thread :=
  if validate_starting id then StartRun id else StartRevert id.
Definition start_ran (id : Uuid) (rows : Z) : Thread :=
  if (rows =? 0)%Z then Done false else StartReload id.

(** [conclude_experiment]: RUNNING→CONCLUDING, then CONCLUDING→CONCLUDED, whose
    result is ignored, then a publication with [is_deletion]. *)
Definition conclude_began (id : Uuid) (rows : Z) : Thread := or_reject id rows (ConcludeMark id).
Definition conclude_marked (id : Uuid) : Thread := Reload id true.

(** [archive_experiment], [pause_experiment], [resume_experiment]. *)
Definition archive_began (id : Uuid) (rows : Z) : Thread := or_reject id rows (Reload id true).
Definition pause_began (id : Uuid) (rows : Z) : Thread := or_reject id rows (Reload id false).
Definition resume_began (id : Uuid) (rows : Z) : Thread := or_reject id rows (Reload id false).

(** The guardrail consumer logs every outcome and takes the next message; it has
    no channel to publish to. *)
Definition guardrail_paused : Thread := Done true.

#[local] Arguments or_reject _ _ _ /.
#[local] Arguments start_began _ _ /.
#[local] Arguments start_validated _ /.
#[local] Arguments start_ran _ _ /.
#[local] Arguments conclude_began _ _ /.
#[local] Arguments conclude_marked _ /.
#[local] Arguments archive_began _ _ /.
#[local] Arguments pause_began _ _ /.
#[local] Arguments resume_began _ _ /.
#[local] Arguments guardrail_paused /.

(** Where a thread goes after its statement returned [rows]. *)
Definition after_statement (t : Thread) (rows : Z) : Thread :=
  match t with
  | StartBegin id => start_began id rows
  | StartRevert _ => Done false
  | StartRun id => start_ran id rows
  | ConcludeBegin id => conclude_began id rows
  | ConcludeMark id => conclude_marked id
  | ArchiveBegin id => archive_began id rows
  | PauseBegin id _ => pause_began id rows
  | ResumeBegin id => resume_began id rows
  | GuardrailPause _ _ => guardrail_paused
  | t => t
  end.

(** Where a thread goes when its statement reports an error: the results of
    [revert_to_draft] and [mark_concluded] are ignored, the consumer only logs, and
    the other handlers return the error. *)
Definition after_error (t : Thread) : Thread :=
  match t with
  | ConcludeMark id => conclude_marked id
  | GuardrailPause _ _ => guardrail_paused
  | _ => Done false
  end.

(** The read-only and publishing steps. *)
Definition read_step (t : Thread) (db : Db) : option Thread :=
  match t with
  | StartLoad id =>
      Some (match db !! id with Some _ => StartLoadVariants id | None => Done false end)
  | StartLoadVariants id => Some (start_validated id)
  | StartReload id =>
      Some (match db !! id with Some row => PublishVersion id row false | None => Done false end)
  | RejectLoad _ => Some (Done false)
  | Reload id del =>
      Some (match db !! id with Some row => ReloadVariants id row del | None => Done false end)
  | ReloadVariants id row del => Some (PublishVersion id row del)
  | _ => None
  end.

Record World := mk_world
  { db : Db; version : Z; channel : list ConfigUpdateEvent; threads : list Thread }.

(** One atomic step of thread [i]. *)
Inductive step : World → World → Prop :=
| step_request w t :
    is_request t = true →
    step w (mk_world (db w) (version w) (channel w) (threads w ++ [t]))
| step_statement w i t now f db' rows :
    threads w !! i = Some t → statement now t = Some f → f (db w) = (db', rows) →
    step w (mk_world db' (version w) (channel w) (<[i := after_statement t rows]> (threads w)))
| step_error_before w i t now f :
    threads w !! i = Some t → statement now t = Some f →
    step w (mk_world (db w) (version w) (channel w) (<[i := after_error t]> (threads w)))
| step_error_after w i t now f db' rows :
    threads w !! i = Some t → statement now t = Some f → f (db w) = (db', rows) →
    step w (mk_world db' (version w) (channel w) (<[i := after_error t]> (threads w)))
| step_read w i t t' :
    threads w !! i = Some t → read_step t (db w) = Some t' →
    step w (mk_world (db w) (version w) (channel w) (<[i := t']> (threads w)))
| step_read_error w i t t' :
    threads w !! i = Some t → read_step t (db w) = Some t' →
    step w (mk_world (db w) (version w) (channel w) (<[i := Done false]> (threads w)))
| step_publish_version w i id row del :
    threads w !! i = Some (PublishVersion id row del) →
    step w (mk_world (db w) (version w + 1) (channel w)
              (<[i := PublishSend (mk_event id row del (version w))]> (threads w)))
| step_publish_send w i e :
    threads w !! i = Some (PublishSend e) →
    step w (mk_world (db w) (version w) (channel w ++ [e]) (<[i := Done true]> (threads w))).

(** A service over rows all in DRAFT, with no handler running. *)
Definition initial (w : World) : Prop :=
  threads w = [] ∧ channel w = [] ∧ ∀ id row, db w !! id = Some row → row_state row = lit "DRAFT".

Definition reachable (w : World) : Prop := ∃ w0, initial w0 ∧ rtc step w0 w.

(** ** The database moves along edges *)

(** The state one statement leads to, by the state it starts from. *)
Definition target_of (t : Thread) (s : ExperimentState) : option ExperimentState :=
  match t, s with
  | StartBegin _, Draft => Some Starting
  | StartRevert _, Starting => Some Draft
  | StartRun _, Starting => Some Running
  | ConcludeBegin _, Running | ConcludeBegin _, Paused => Some Concluding
  | ConcludeMark _, Concluding => Some Concluded
  | ArchiveBegin _, Concluded => Some Archived
  | PauseBegin _ _, Running | GuardrailPause _ _, Running => Some Paused
  | ResumeBegin _, Paused => Some Running
  | _, _ => None
  end.

Definition thread_id (t : Thread) : option Uuid :=
  match t with
  | StartBegin id | StartLoad id | StartLoadVariants id | StartRevert id | StartRun id | StartReload id
  | ConcludeBegin id | ConcludeMark id | ArchiveBegin id | PauseBegin id _ | ResumeBegin id
  | GuardrailPause id _ | RejectLoad id | Reload id _ | ReloadVariants id _ _
  | PublishVersion id _ _ => Some id
  | PublishSend e => Some (ev_id e)
  | Done _ => None
  end.

Lemma target_edge t s s' : target_of t s = Some s' → edge s s'.
Proof. unfold edge. destruct t, s; simpl; intros [=]; subst; set_solver. Qed.

(** Side conditions on the source states of one statement. *)
Ltac sources :=
  lazymatch goal with
  | |- ∀ v, _ = existsb _ _ => intros v; unfold is_lit; simpl; by rewrite ?orb_false_r
  | |- ∀ s, s ∈ _ → _ =>
      intros s Hs; rewrite !elem_of_cons, elem_of_nil in Hs; destruct_or! Hs; by subst
  | |- ∀ s, s ∉ _ → _ => intros [] Hs; try done; exfalso; apply Hs; set_solver
  | |- _ => done
  end.

Lemma statement_effect now t f (d d' : Db) rows id :
  statement now t = Some f → f d = (d', rows) → thread_id t = Some id →
  (∃ s s', state_of d id = Some s ∧ target_of t s = Some s' ∧ rows = 1%Z ∧
     state_of d' id = Some s' ∧ ∀ id', id' ≠ id → state_of d' id' = state_of d id') ∨
  (rows = 0%Z ∧ d' = d ∧ ∀ s, state_of d id = Some s → target_of t s = None).
Proof.
  assert (∀ (p : str → bool) set (sources : list ExperimentState) s',
    (∀ v, p v = existsb (λ s, bool_decide (v = as_str s)) sources) →
    (∀ r, row_state (set r) = as_str s') →
    (∀ s, s ∈ sources → target_of t s = Some s') →
    (∀ s, s ∉ sources → target_of t s = None) →
    update_where id p set d = (d', rows) →
    (∃ s s', state_of d id = Some s ∧ target_of t s = Some s' ∧ rows = 1%Z ∧
       state_of d' id = Some s' ∧ ∀ id', id' ≠ id → state_of d' id' = state_of d id') ∨
    (rows = 0%Z ∧ d' = d ∧ ∀ s, state_of d id = Some s → target_of t s = None)) as Hgen.
  { intros p set sources s' Hp' Hset Hin Hout Hu.
    assert (∀ v, p v = true ↔ ∃ s, s ∈ sources ∧ v = as_str s) as Hp.
    { intros v. rewrite Hp', existsb_exists. setoid_rewrite bool_decide_eq_true.
      by setoid_rewrite list_elem_of_In. }
    destruct (update_where_spec id p set d) as [(row & Hl & Hr & Hu')|(Hr & Hu')];
      rewrite Hu' in Hu; injection Hu as <- <-.
    - left. apply Hp in Hr as (s & Hs & Hv). exists s, s'.
      split_and!; [apply state_of_some; eauto|auto|done|by apply state_of_insert_eq|].
      intros id' Hne. by apply state_of_insert_ne.
    - right. split_and!; [done..|]. intros s (r & Hrow & Hv)%state_of_some.
      apply Hout. intros Hs. apply Hr in Hrow. rewrite (proj2 (Hp (row_state r))) in Hrow; [done|].
      eauto. }
  intros Hs Hf Hid.
  destruct t; simpl in Hs; try done; injection Hs as <-; injection Hid as ->.
  - eapply (Hgen _ _ [Draft] Starting); [..|exact Hf]; sources.
  - eapply (Hgen _ _ [Starting] Draft); [..|exact Hf]; sources.
  - eapply (Hgen _ _ [Starting] Running); [..|exact Hf]; sources.
  - eapply (Hgen _ _ [Running; Paused] Concluding); [..|exact Hf]; sources.
  - eapply (Hgen _ _ [Concluding] Concluded); [..|exact Hf]; sources.
  - eapply (Hgen _ _ [Concluded] Archived); [..|exact Hf]; sources.
  - eapply (Hgen _ _ [Running] Paused); [..|exact Hf]; sources.
  - eapply (Hgen _ _ [Paused] Running); [..|exact Hf]; sources.
  - eapply (Hgen _ _ [Running] Paused); [..|exact Hf]; sources.
Qed.

(** ** The invariant *)

(** A thread between the two halves of a start or of a conclusion owns the
    experiment, in the transitional state it is in. *)
Definition owner (t : Thread) : option (Uuid * ExperimentState) :=
  match t with
  | StartLoad id | StartLoadVariants id | StartRevert id | StartRun id => Some (id, Starting)
  | ConcludeMark id => Some (id, Concluding)
  | _ => None
  end.

Definition owners_ok (ts : list Thread) (d : Db) : Prop :=
  ∀ i t id s, ts !! i = Some t → owner t = Some (id, s) → state_of d id = Some s.

Definition owners_unique (ts : list Thread) : Prop :=
  ∀ i j t u id s s', ts !! i = Some t → ts !! j = Some u →
    owner t = Some (id, s) → owner u = Some (id, s') → i = j.

Definition runs_validated (ts : list Thread) : Prop :=
  ∀ i id, ts !! i = Some (StartRun id) → validate_starting id = true.

(** Whatever has left the setup phase passed validation. *)
Definition active_validated (d : Db) : Prop :=
  ∀ id s, state_of d id = Some s → 1 ≤ stage s → validate_starting id = true.

Record invariant (w : World) : Prop := mk_invariant
  { inv_owners : owners_ok (threads w) (db w);
    inv_unique : owners_unique (threads w);
    inv_runs : runs_validated (threads w);
    inv_active : active_validated (db w) }.

(** Replacing a thread by one that owns no more than it did. *)
Lemma insert_thread_inv ts d i t t' :
  ts !! i = Some t → owner t' = owner t ∨ owner t' = None →
  (∀ id, t' = StartRun id → validate_starting id = true) →
  owners_ok ts d ∧ owners_unique ts ∧ runs_validated ts →
  owners_ok (<[i := t']> ts) d ∧ owners_unique (<[i := t']> ts) ∧ runs_validated (<[i := t']> ts).
Proof.
  intros Hi Ho Hr (Hok & Hu & Hv).
  assert (∀ j u, <[i := t']> ts !! j = Some u → owner u ≠ None →
    ∃ u0, ts !! j = Some u0 ∧ owner u0 = owner u) as Hback.
  { intros j u Hj Hn. apply list_lookup_insert_Some in Hj as [(<- & <- & _)|[Hne Hj]]; [|eauto].
    exists t. split; [done|]. destruct Ho as [Ho|Ho]; congruence. }
  split_and!.
  - intros j u id s Hj Ho'. destruct (Hback j u Hj) as (u0 & Hu0 & E); [congruence|].
    apply (Hok j u0); congruence.
  - intros j k u v id s s' Hj Hk Hou Hov.
    destruct (Hback j u Hj) as (u0 & Hu0 & E); [congruence|].
    destruct (Hback k v Hk) as (v0 & Hv0 & E'); [congruence|].
    apply (Hu j k u0 v0 id s s'); congruence.
  - intros j id Hj. apply list_lookup_insert_Some in Hj as [(<- & E & _)|[_ Hj]]; eauto.
Qed.

(** Starting or finishing a transitional phase is done by its owner only. *)
Lemma target_owner t s s' id :
  thread_id t = Some id → target_of t s = Some s' → s = Starting ∨ s = Concluding →
  owner t = Some (id, s).
Proof. destruct t, s; simpl; intros [=] [=] [|]; by subst. Qed.

Lemma after_statement_owner now t f id rows id' s :
  statement now t = Some f → thread_id t = Some id →
  owner (after_statement t rows) = Some (id', s) →
  id' = id ∧ rows ≠ 0%Z ∧ (s = Starting ∨ s = Concluding) ∧ owner t = None ∧
  ∀ s0 s1, target_of t s0 = Some s1 → s1 = s.
Proof.
  destruct t; simpl; intros Hs Hid; try done;
    destruct (rows =? 0)%Z eqn:E; simpl; try done; intros [= <- <-]; injection Hid as ->;
    (split_and!; [done|lia|tauto|done|]); intros [] s1; simpl; congruence.
Qed.

Lemma after_statement_not_run now t f rows id :
  statement now t = Some f → after_statement t rows ≠ StartRun id.
Proof. destruct t; simpl; try done; destruct (rows =? 0)%Z; done. Qed.

Lemma statement_thread_id now t f : statement now t = Some f → ∃ id, thread_id t = Some id.
Proof. destruct t; simpl; intros [=]; eauto. Qed.

Lemma after_error_owner t : owner (after_error t) = None ∧ ∀ id, after_error t ≠ StartRun id.
Proof. by destruct t. Qed.

(** A statement that changed a row. *)
Lemma statement_moved ts d d' i t t' id s s' :
  ts !! i = Some t → thread_id t = Some id →
  state_of d id = Some s → target_of t s = Some s' →
  state_of d' id = Some s' → (∀ id', id' ≠ id → state_of d' id' = state_of d id') →
  owners_ok ts d → owners_unique ts → runs_validated ts → active_validated d →
  owner t' = None ∨ owner t' = Some (id, s') ∧ owner t = None →
  (∀ id0, t' ≠ StartRun id0) →
  owners_ok (<[i := t']> ts) d' ∧ owners_unique (<[i := t']> ts) ∧
  runs_validated (<[i := t']> ts) ∧ active_validated d'.
Proof.
  intros Hi Hid Hs Ht Hs' Hother Hok Hu Hv Hact Ho Hnr.
  (* no other thread owns [id] *)
  assert (∀ j u s0, j ≠ i → ts !! j = Some u → owner u = Some (id, s0) → False) as Halone.
  { intros j u s0 Hne Hj Hou. pose proof (Hok j u id s0 Hj Hou) as Hst. rewrite Hs in Hst.
    injection Hst as <-. assert (s = Starting ∨ s = Concluding) as Hsc
      by (destruct u; simpl in Hou; try done; injection Hou as _ <-; tauto).
    apply Hne. eapply Hu; [exact Hj|exact Hi|exact Hou|by apply (target_owner t s s' id)]. }
  split_and!.
  - intros j u id0 s0 Hj Hou. apply list_lookup_insert_Some in Hj as [(<- & <- & _)|[Hne Hj]].
    + destruct Ho as [Ho|[Ho _]]; congruence.
    + destruct (decide (id0 = id)) as [->|Hne']; [by destruct (Halone j u s0 (not_eq_sym Hne) Hj)|].
      rewrite Hother by done. eauto.
  - intros j k u v id0 s0 s1 Hj Hk Hou Hov.
    apply list_lookup_insert_Some in Hj as [(<- & <- & _)|[Hne Hj]];
      apply list_lookup_insert_Some in Hk as [(<- & <- & _)|[Hne' Hk]]; try done.
    + destruct Ho as [Ho|[Ho _]]; [congruence|]. rewrite Ho in Hou. injection Hou as <- <-.
      by destruct (Halone k v s1 (not_eq_sym Hne') Hk).
    + destruct Ho as [Ho|[Ho _]]; [congruence|]. rewrite Ho in Hov. injection Hov as <- <-.
      by destruct (Halone j u s0 (not_eq_sym Hne) Hj).
    + eauto.
  - intros j id0 Hj. apply list_lookup_insert_Some in Hj as [(<- & E & _)|[_ Hj]]; [|eauto].
    by destruct (Hnr id0).
  - intros id0 s0 Hst Hstage. destruct (decide (id0 = id)) as [->|Hne].
    + rewrite Hs' in Hst. injection Hst as <-.
      destruct (decide (1 ≤ stage s)) as [|Hlow]; [by eapply Hact|].
      (* the only way out of the setup phase is [StartRun] *)
      assert (t = StartRun id) as -> by (destruct t, s; simpl in *; simplify_eq; simpl in *; lia || done).
      by eapply Hv.
    + rewrite Hother in Hst by done. by eapply Hact.
Qed.

(** Running a statement, then going to a thread that owns nothing new. *)
Lemma statement_invariant_gen w now t f d' rows i t' v c :
  invariant w → threads w !! i = Some t → statement now t = Some f → f (db w) = (d', rows) →
  (∀ id, t' ≠ StartRun id) →
  owner t' = None ∨ t' = after_statement t rows →
  invariant (mk_world d' v c (<[i := t']> (threads w))).
Proof.
  intros [Hok Hu Hv Hact] Hi Hs Hf Hn Ho.
  destruct (statement_thread_id _ _ _ Hs) as [id Hid].
  assert (∀ id' s, owner t' = Some (id', s) → id' = id ∧ rows ≠ 0%Z ∧ owner t = None ∧
            ∀ s0 s1, target_of t s0 = Some s1 → s1 = s) as Hown.
  { intros id' s Hos. destruct Ho as [Ho | ->]; [congruence|].
    destruct (after_statement_owner _ _ _ _ _ _ _ Hs Hid Hos) as (? & ? & _ & ? & ?). done. }
  destruct (statement_effect _ _ _ _ _ _ _ Hs Hf Hid)
    as [(s & s' & Hst & Ht & -> & Hst' & Hother)|(-> & -> & _)].
  - destruct (statement_moved (threads w) (db w) d' i t t' id s s') as (? & ? & ? & ?); auto.
    + destruct (owner t') as [[id' s0]|] eqn:Eo; [right|by left].
      destruct (Hown _ _ eq_refl) as (-> & _ & ? & Hall). by rewrite (Hall s s' Ht).
    + by constructor.
  - destruct (insert_thread_inv (threads w) (db w) i t t') as (? & ? & ?); auto.
    + right. destruct (owner t') as [[id' s0]|] eqn:Eo; [|done].
      by destruct (Hown _ _ eq_refl) as (_ & ? & _).
    + intros id0 E. by destruct (Hn id0).
    + by constructor.
Qed.

Lemma step_invariant w w' : step w w' → invariant w → invariant w'.
Proof.
  intros Hstep [Hok Hu Hv Hact].
  assert (∀ i t t', threads w !! i = Some t → owner t' = owner t ∨ owner t' = None →
    (∀ id, t' = StartRun id → validate_starting id = true) →
    ∀ v c, invariant (mk_world (db w) v c (<[i := t']> (threads w)))) as Hquiet.
  { intros i t t' Hi Ho Hr v c.
    destruct (insert_thread_inv (threads w) (db w) i t t') as (? & ? & ?); auto. by constructor. }
  destruct Hstep as [w t Hreq|w i t now f d' rows Hi Hs Hf|w i t now f Hi Hs
    |w i t now f d' rows Hi Hs Hf|w i t t' Hi Hr|w i t t' Hi Hr|w i id row del Hi|w i e Hi].
  - assert (owner t = None ∧ ∀ id, t ≠ StartRun id) as [Ho Hn] by by destruct t.
    constructor; simpl; [| | |done].
    + intros i u id s Hi Hou. apply lookup_app_Some in Hi as [Hi|[_ Hi]]; [by eapply Hok|].
      apply list_lookup_singleton_Some in Hi as [_ <-]. congruence.
    + intros i j u v id s s' Hi Hj Hou Hov.
      apply lookup_app_Some in Hi as [Hi|[_ Hi]];
        [|apply list_lookup_singleton_Some in Hi as [_ <-]; congruence].
      apply lookup_app_Some in Hj as [Hj|[_ Hj]];
        [|apply list_lookup_singleton_Some in Hj as [_ <-]; congruence]. by eapply Hu.
    + intros i id Hi. apply lookup_app_Some in Hi as [Hi|[_ Hi]]; [by eapply Hv|].
      apply list_lookup_singleton_Some in Hi as [_ E]. by destruct (Hn id).
  - apply (statement_invariant_gen w now t f d' rows); auto; [by constructor|].
    intros id. by apply (after_statement_not_run now t f).
  - destruct (after_error_owner t) as [Ho Hn]. apply (Hquiet i t); auto.
    intros id E. by destruct (Hn id).
  - destruct (after_error_owner t) as [Ho Hn].
    apply (statement_invariant_gen w now t f d' rows); auto. by constructor.
  - apply (Hquiet i t); [done| |].
    + destruct t; simpl in Hr; simplify_eq; simpl; auto;
        repeat case_match; simplify_eq; auto.
    + intros id ->. destruct t; simpl in Hr; simplify_eq; repeat case_match; simplify_eq; done.
  - apply (Hquiet i t); [done|by right|done].
  - eapply (Hquiet i); [exact Hi|by left|done].
  - eapply (Hquiet i); [exact Hi|by left|done].
Qed.

Lemma initial_invariant w : initial w → invariant w.
Proof.
  intros (Ht & _ & Hd). constructor.
  - intros i t id s Hi. by rewrite Ht in Hi.
  - intros i j t u id s s' Hi. by rewrite Ht in Hi.
  - intros i id Hi. by rewrite Ht in Hi.
  - intros id s (r & Hr & Hs)%state_of_some Hstage. apply Hd in Hr.
    assert (s = Draft) as -> by (apply as_str_inj; by rewrite <- Hs). simpl in Hstage. lia.
Qed.

Lemma reachable_invariant w : reachable w → invariant w.
Proof.
  intros (w0 & H0 & Hsteps). apply initial_invariant in H0.
  induction Hsteps; eauto using step_invariant.
Qed.

(** The states of one step. *)
Lemma step_states w w' id :
  step w w' →
  state_of (db w') id = state_of (db w) id ∨
  ∃ i t s s', threads w !! i = Some t ∧ thread_id t = Some id ∧ target_of t s = Some s' ∧
    state_of (db w) id = Some s ∧ state_of (db w') id = Some s'.
Proof.
  assert (∀ i t now f d' rows, threads w !! i = Some t → statement now t = Some f →
    f (db w) = (d', rows) →
    state_of d' id = state_of (db w) id ∨
    ∃ i t s s', threads w !! i = Some t ∧ thread_id t = Some id ∧ target_of t s = Some s' ∧
      state_of (db w) id = Some s ∧ state_of d' id = Some s') as Hgen.
  { intros i t now f d' rows Hi Hs Hf. destruct (statement_thread_id _ _ _ Hs) as [id0 Hid].
    destruct (statement_effect _ _ _ _ _ _ _ Hs Hf Hid)
      as [(s & s' & Hst & Ht & _ & Hst' & Hother)|(_ & -> & _)]; [|by left].
    destruct (decide (id = id0)) as [->|Hne]; [right; eauto 10|left; by apply Hother]. }
  destruct 1; simpl; eauto.
Qed.

(** [C2] Whatever the interleaving, and whichever statements fail, an
    experiment that is or has been active passed the STARTING validation; and the
    handler that moved it into a transitional state is the only one that can move
    it out, so its next statement always updates exactly one row (the "concurrent
    transition conflict" reply of StartExperiment cannot occur). *)
Theorem active_experiments_validated w :
  reachable w →
  (∀ id s, state_of (db w) id = Some s → s ≠ Draft → s ≠ Starting →
     validate_starting id = true) ∧
  (∀ i j t u id s, threads w !! i = Some t → threads w !! j = Some u →
     owner t = Some (id, s) → owner u = Some (id, s) → i = j) ∧
  (∀ i id now, threads w !! i = Some (StartRun id) →
     ∃ d', run_transition now id (db w) = (d', 1%Z) ∧ state_of d' id = Some Running).
Proof.
  intros [Hok Hu Hv Hact]%reachable_invariant. split_and!.
  - intros id s Hs Hd Hst. apply (Hact id s Hs). destruct s; simpl; done || lia.
  - intros i j t u id s Hi Hj Ho Ho'. by eapply Hu.
  - intros i id now Hi. pose proof (Hok i _ id Starting Hi eq_refl) as Hs.
    destruct (run_transition now id (db w)) as [d' rows] eqn:Hr.
    destruct (statement_effect now (StartRun id) _ _ _ _ id eq_refl Hr eq_refl)
      as [(s & s' & Hs0 & Ht & -> & Hs' & _)|(_ & _ & Hnone)].
    + exists d'. split; [done|]. rewrite Hs in Hs0. injection Hs0 as <-. by injection Ht as <-.
    + by apply Hnone in Hs.
Qed.

(** Along any execution every experiment's state follows the lifecycle
    graph: rows are never lost and never jump, so an archived experiment stays
    archived and a concluded one never runs again. *)
Theorem execution_follows_graph w w' id s :
  rtc step w w' → state_of (db w) id = Some s →
  ∃ s', state_of (db w') id = Some s' ∧ rtc edge s s'.
Proof.
  intros Hsteps. revert s. induction Hsteps as [w|w w1 w' Hstep _ IH]; intros s Hs; [eauto using rtc_refl|].
  destruct (step_states w w1 id Hstep) as [He|(i & t & s0 & s1 & _ & _ & Ht & Hs0 & Hs1)].
  - apply IH. by rewrite He.
  - rewrite Hs in Hs0. injection Hs0 as <-. destruct (IH s1 Hs1) as (s' & Hs' & Hp).
    exists s'. split; [done|]. eapply rtc_l; [by eapply target_edge|done].
Qed.

(** No thread owns the experiment. *)
Definition unowned (id : Uuid) (ts : list Thread) : Prop :=
  ∀ i t s, ts !! i = Some t → owner t ≠ Some (id, s).

Lemma read_step_owner t d t' : read_step t d = Some t' → owner t' = owner t ∨ owner t' = None.
Proof. destruct t; simpl; intros [=]; subst; simpl; auto; repeat case_match; auto. Qed.

Lemma unowned_insert id ts i t' :
  unowned id ts → (∀ s, owner t' ≠ Some (id, s)) → unowned id (<[i := t']> ts).
Proof.
  intros Hu Ht j t s Hj. apply list_lookup_insert_Some in Hj as [(_ & <- & _)|[_ Hj]]; eauto.
Qed.

Lemma step_stuck_state w w' id s :
  step w w' → s = Starting ∨ s = Concluding →
  state_of (db w) id = Some s → unowned id (threads w) →
  state_of (db w') id = Some s ∧ unowned id (threads w').
Proof.
  intros Hstep Hs Hst Hun. split.
  { destruct (step_states w w' id Hstep) as [->|(i & t & s0 & s1 & Hi & Hid & Ht & Hs0 & _)]; [done|].
    rewrite Hst in Hs0. injection Hs0 as <-.
    destruct (Hun i t s Hi). by eapply target_owner. }
  assert (∀ i t now f d' rows, threads w !! i = Some t → statement now t = Some f →
    f (db w) = (d', rows) → unowned id (<[i := after_statement t rows]> (threads w))) as Hstmt.
  { intros i t now f d' rows Hi Hf Hfd. apply unowned_insert; [done|]. intros s0 Ho.
    destruct (statement_thread_id _ _ _ Hf) as [id0 Hid].
    destruct (after_statement_owner _ _ _ _ _ _ _ Hf Hid Ho) as (-> & Hrows & Hs0 & _ & Hall).
    destruct (statement_effect _ _ _ _ _ _ _ Hf Hfd Hid)
      as [(s1 & s2 & Hs1 & Ht & _)|(-> & _)]; [|done].
    rewrite Hst in Hs1. injection Hs1 as <-. apply (Hun i t s Hi). by eapply target_owner. }
  destruct Hstep as [w t Hreq|w i t now f d' rows Hi Hf Hfd|w i t now f Hi Hf
    |w i t now f d' rows Hi Hf Hfd|w i t t' Hi Hr|w i t t' Hi Hr|w i id0 row del Hi|w i e Hi];
    simpl in *; try (apply unowned_insert; [done|]; intros s0; done).
  - intros i u s0 Hi. apply lookup_app_Some in Hi as [Hi|[_ Hi]]; [by eapply Hun|].
    apply list_lookup_singleton_Some in Hi as [_ <-]. by destruct t.
  - by eapply Hstmt.
  - apply unowned_insert; [done|]. intros s0. by rewrite (proj1 (after_error_owner t)).
  - apply unowned_insert; [done|]. intros s0. by rewrite (proj1 (after_error_owner t)).
  - apply unowned_insert; [done|]. intros s0. destruct (read_step_owner _ _ _ Hr) as [-> | ->]; [|done].
    by apply (Hun i).
Qed.

(** A transitional state whose handler is gone is permanent: when no
    handler owns a STARTING or CONCLUDING experiment, no sequence of requests ever
    moves it again. *)
Theorem orphaned_transition_is_permanent w w' id s :
  rtc step w w' → s = Starting ∨ s = Concluding →
  state_of (db w) id = Some s → unowned id (threads w) →
  state_of (db w') id = Some s.
Proof.
  intros Hsteps Hs. induction Hsteps as [w|w w1 w' Hstep _ IH]; intros Hst Hun; [done|].
  destruct (step_stuck_state w w1 id s Hstep Hs Hst Hun). auto.
Qed.

(** ** Executable runs *)

Inductive op :=
| Request (t : Thread)
| Exec (i : nat) (now : Z)
| FailBefore (i : nat)
| FailAfter (i : nat)
| ReadOp (i : nat)
| ReadFail (i : nat)
| Version (i : nat)
| Send (i : nat).

Definition run_op (o : op) (w : World) : option World :=
  match o with
  | Request t =>
      if is_request t then Some (mk_world (db w) (version w) (channel w) (threads w ++ [t])) else None
  | Exec i now =>
      t ← threads w !! i; f ← statement now t;
      let '(d, rows) := f (db w) in
      Some (mk_world d (version w) (channel w) (<[i := after_statement t rows]> (threads w)))
  | FailBefore i =>
      t ← threads w !! i; f ← statement 0 t;
      Some (mk_world (db w) (version w) (channel w) (<[i := after_error t]> (threads w)))
  | FailAfter i =>
      t ← threads w !! i; f ← statement 0 t;
      let '(d, _) := f (db w) in
      Some (mk_world d (version w) (channel w) (<[i := after_error t]> (threads w)))
  | ReadOp i =>
      t ← threads w !! i; t' ← read_step t (db w);
      Some (mk_world (db w) (version w) (channel w) (<[i := t']> (threads w)))
  | ReadFail i =>
      t ← threads w !! i; _ ← read_step t (db w);
      Some (mk_world (db w) (version w) (channel w) (<[i := Done false]> (threads w)))
  | Version i =>
      match threads w !! i with
      | Some (PublishVersion id row del) =>
          Some (mk_world (db w) (version w + 1) (channel w)
                  (<[i := PublishSend (mk_event id row del (version w))]> (threads w)))
      | _ => None
      end
  | Send i =>
      match threads w !! i with
      | Some (PublishSend e) =>
          Some (mk_world (db w) (version w) (channel w ++ [e]) (<[i := Done true]> (threads w)))
      | _ => None
      end
  end.

Fixpoint run_ops (os : list op) (w : World) : option World :=
  match os with [] => Some w | o :: os => run_op o w ≫= run_ops os end.

Lemma run_op_step o w w' : run_op o w = Some w' → step w w'.
Proof.
  destruct o as [t|i now|i|i|i|i|i|i]; simpl.
  - destruct (is_request t) eqn:E; [|done]. intros [= <-]. by apply step_request.
  - destruct (threads w !! i) as [t|] eqn:Hi; [|done]. simpl.
    destruct (statement now t) as [f|] eqn:Hf; [|done]. simpl.
    destruct (f (db w)) as [d rows] eqn:Hfd. intros [= <-]. by eapply step_statement.
  - destruct (threads w !! i) as [t|] eqn:Hi; [|done]. simpl.
    destruct (statement 0 t) as [f|] eqn:Hf; [|done]. intros [= <-]. by eapply step_error_before.
  - destruct (threads w !! i) as [t|] eqn:Hi; [|done]. simpl.
    destruct (statement 0 t) as [f|] eqn:Hf; [|done]. simpl.
    destruct (f (db w)) as [d rows] eqn:Hfd. intros [= <-]. by eapply step_error_after.
  - destruct (threads w !! i) as [t|] eqn:Hi; [|done]. simpl.
    destruct (read_step t (db w)) as [t'|] eqn:Hr; [|done]. intros [= <-]. by eapply step_read.
  - destruct (threads w !! i) as [t|] eqn:Hi; [|done]. simpl.
    destruct (read_step t (db w)) as [t'|] eqn:Hr; [|done]. intros [= <-]. by eapply step_read_error.
  - destruct (threads w !! i) as [[]|] eqn:Hi; try done. intros [= <-]. by apply step_publish_version.
  - destruct (threads w !! i) as [[]|] eqn:Hi; try done. intros [= <-]. by apply step_publish_send.
Qed.

Lemma run_ops_steps os : ∀ w w', run_ops os w = Some w' → rtc step w w'.
Proof.
  induction os as [|o os IH]; intros w w'; simpl; [intros [= <-]; apply rtc_refl|].
  destruct (run_op o w) as [w1|] eqn:E; simpl; [|done]. intros H.
  eapply rtc_l; [by eapply run_op_step|by apply IH].
Qed.
End handlers.

(** ** Witnesses and races *)

Definition draft_row : ExperimentRow := mk_row (lit "DRAFT") None None None None None None 0.
Definition draft_world : World := mk_world {[1%positive := draft_row]} 1 [] [].

Lemma draft_world_initial : initial draft_world.
Proof.
  split; [done|]. split; [done|]. intros id row Hl.
  unfold draft_world in Hl. simpl in Hl. apply lookup_singleton_Some in Hl as [_ <-]. reflexivity.
Qed.

Definition accept_all (_ : Uuid) : bool := true.

(** One start request, run to completion by thread [i]. *)
Definition start_ops (i : nat) : list op :=
  [Request (StartBegin 1); Exec i 10; ReadOp i; ReadOp i; Exec i 11; ReadOp i;
   Version i; Send i].

Lemma run_reachable validate os w :
  run_ops validate os draft_world = Some w → reachable validate w.
Proof. intros H. exists draft_world. split; [apply draft_world_initial|by eapply run_ops_steps]. Qed.

Lemma active_experiments_validated_witness :
  ∃ w, reachable accept_all w ∧ state_of (db w) 1 = Some Running ∧ accept_all 1 = true.
Proof.
  destruct (run_ops accept_all (start_ops 0) draft_world) as [w|] eqn:E;
    [|vm_compute in E; discriminate].
  exists w. pose proof (run_reachable _ _ _ E) as Hr. split; [exact Hr|].
  assert (state_of (db w) 1 = Some Running) as Hs.
  { replace w with (default draft_world (run_ops accept_all (start_ops 0) draft_world))
      by (rewrite E; reflexivity). vm_compute. reflexivity. }
  split; [exact Hs|].
  exact (proj1 (active_experiments_validated accept_all w Hr) 1%positive Running Hs
           ltac:(discriminate) ltac:(discriminate)).
Defined.

Lemma execution_follows_graph_witness :
  ∃ w s', state_of (db w) 1 = Some s' ∧ rtc edge Draft s'.
Proof.
  destruct (run_ops accept_all (start_ops 0) draft_world) as [w|] eqn:E;
    [|vm_compute in E; discriminate].
  exists w. apply (execution_follows_graph accept_all draft_world w 1 Draft);
    [exact (run_ops_steps _ _ _ _ E)|reflexivity].
Defined.

(** A start whose first statement is applied but reported as failed. *)
Definition orphaned : World :=
  default draft_world (run_ops accept_all [Request (StartBegin 1); FailAfter 0] draft_world).

Lemma orphaned_transition_is_permanent_witness :
  reachable accept_all orphaned ∧ threads orphaned = [Done false] ∧
  ∀ w', rtc (step accept_all) orphaned w' → state_of (db w') 1 = Some Starting.
Proof.
  split; [apply (run_reachable _ [Request (StartBegin 1); FailAfter 0]); reflexivity|].
  split; [reflexivity|]. intros w' Hw.
  apply (orphaned_transition_is_permanent accept_all orphaned w' 1 Starting Hw);
    [left; reflexivity|vm_compute; reflexivity|].
  intros [|i] t s Hi; simpl in Hi; [injection Hi as <-; discriminate|discriminate Hi].
Defined.

(** The last event published for an experiment. *)
Definition last_event (w : World) (id : Uuid) : option ConfigUpdateEvent :=
  last (filter (λ e, ev_id e = id) (channel w)).

Definition quiescent (w : World) : bool :=
  forallb (λ t, match t with Done _ => true | _ => false end) (threads w).

(** A resume and a pause can publish in the opposite order of their updates: every
    handler has finished, the experiment is PAUSED, and the last event the
    assignment service received says RUNNING. *)
Lemma stale_publish :
  ∃ w e, reachable accept_all w ∧ quiescent w = true ∧ state_of (db w) 1 = Some Paused ∧
    last_event w 1 = Some e ∧ row_state (ev_row e) = lit "RUNNING" ∧ ev_is_deletion e = false.
Proof.
  set (os := start_ops 0 ++
    [Request (PauseBegin 1 []); Exec 1 20; ReadOp 1; ReadOp 1; Version 1; Send 1;
     Request (ResumeBegin 1); Exec 2 30; ReadOp 2;
     Request (PauseBegin 1 []); Exec 3 40; ReadOp 3; ReadOp 3; Version 3; Send 3;
     ReadOp 2; Version 2; Send 2]).
  exists (default draft_world (run_ops accept_all os draft_world)). eexists.
  split; [apply (run_reachable _ os); vm_compute; reflexivity|].
  split_and!; vm_compute; reflexivity.
Qed.

(** A guardrail pause is not published on the config channel at all. *)
Lemma guardrail_pause_unpublished :
  ∃ w e, reachable accept_all w ∧ quiescent w = true ∧ state_of (db w) 1 = Some Paused ∧
    last_event w 1 = Some e ∧ row_state (ev_row e) = lit "RUNNING" ∧ length (channel w) = 1.
Proof.
  set (os := start_ops 0 ++ [Request (GuardrailPause 1 (lit "p99")); Exec 1 20]).
  exists (default draft_world (run_ops accept_all os draft_world)). eexists.
  split; [apply (run_reachable _ os); vm_compute; reflexivity|].
  split_and!; vm_compute; reflexivity.
Qed.
