(* ===== verification/BucketReuse.v ===== *)
(** The bucket allocator ([experimentation-management/src/bucket_reuse.rs]): half-open
    bucket ranges in layers, overlap detection against active and cooling
    allocations, release with cooldown, and the listing. *)
From Stdlib Require Import Ascii String.
From stdpp Require Import sorting.
From S2P Require Import Prelude StateMachine Hash.

Local Open Scope Z_scope.

(** ** Tables *)

(** A row of [layer_allocations]; [AllocationRow] has the same fields. *)
Record Allocation := mk_allocation
  { allocation_id : Uuid; layer_id : Uuid; experiment_id : Uuid;
    start_bucket : Z; end_bucket : Z;
    activated_at : option Z; released_at : option Z; reusable_after : option Z }.

Record LayerRow := mk_layer_row { total_buckets : Z; bucket_reuse_cooldown_seconds : Z }.

Abbreviation Layers := (gmap Uuid LayerRow).
Abbreviation Table := (list Allocation).

Inductive AllocatorError :=
| Overlap (experiment : Uuid) (start_b end_b : Z)
| LayerNotFound (layer : Uuid)
| InvalidRange (start_b end_b : Z).

(** The WHERE clause of the overlap query. *)
Definition conflicts (now : Z) (layer exclude_experiment : Uuid) (start_b end_b : Z)
    (in_cooldown : bool) (a : Allocation) : bool :=
  bool_decide (layer_id a = layer) && negb (bool_decide (experiment_id a = exclude_experiment)) &&
  (if in_cooldown
   then match released_at a, reusable_after a with
        | Some _, Some r => now <? r
        | _, _ => false
        end
   else match released_at a with None => true | Some _ => false end) &&
  (start_bucket a <? end_b) && (start_b <? end_bucket a).

(** [LIMIT 1]: the first match in table order stands for the one the database picks. *)
Definition check_overlap (now : Z) (tbl : Table) (layer exclude_experiment : Uuid)
    (start_b end_b : Z) (in_cooldown : bool) : result AllocatorError unit :=
  match List.find (conflicts now layer exclude_experiment start_b end_b in_cooldown) tbl with
  | Some c => Err (Overlap (experiment_id c) (start_bucket c) (end_bucket c))
  | None => Ok tt
  end.

(** Steps 1 to 4 of [allocate]; [tbl1] and [tbl2] are the table as the two checks see it. *)
Definition allocate_checks (layers : Layers) (now : Z) (tbl1 tbl2 : Table)
    (layer experiment : Uuid) (start_b end_b : Z) : result AllocatorError unit :=
  match layers !! layer with
  | None => Err (LayerNotFound layer)
  | Some l =>
      _ ← reject_if ((end_b <=? start_b) || (start_b <? 0) || (total_buckets l <? end_b))
            (InvalidRange start_b end_b);
      _ ← check_overlap now tbl1 layer experiment start_b end_b false;
      check_overlap now tbl2 layer experiment start_b end_b true
  end.

(** Step 5: the row [INSERT] creates at [now]. *)
Definition new_row (id : Uuid) (now : Z) (layer experiment : Uuid) (start_b end_b : Z) :
    Allocation :=
  mk_allocation id layer experiment start_b end_b (Some now) None None.

(** [allocate] with nothing in between: checks at [now], insert at [now']. *)
Definition allocate (layers : Layers) (id : Uuid) (now now' : Z) (layer experiment : Uuid)
    (start_b end_b : Z) (tbl : Table) : result AllocatorError (Allocation * Table) :=
  _ ← allocate_checks layers now tbl tbl layer experiment start_b end_b;
  let row := new_row id now' layer experiment start_b end_b in
  mret (row, tbl ++ [row]).

Definition cooldown_secs (layers : Layers) (layer : Uuid) : Z :=
  match layers !! layer with Some l => bucket_reuse_cooldown_seconds l | None => 86400 end.

(** The [UPDATE] of [release] on one row. *)
Definition release_row (now cooldown : Z) (layer experiment : Uuid) (a : Allocation) : Allocation :=
  if bool_decide (layer_id a = layer) && bool_decide (experiment_id a = experiment) &&
     match released_at a with None => true | Some _ => false end
  then mk_allocation (allocation_id a) (layer_id a) (experiment_id a) (start_bucket a)
         (end_bucket a) (activated_at a) (Some now) (Some (now + cooldown))
  else a.

Definition release (layers : Layers) (now : Z) (layer experiment : Uuid) (tbl : Table) : Table :=
  map (release_row now (cooldown_secs layers layer) layer experiment) tbl.

Definition by_start (a b : Allocation) : Prop := start_bucket a ≤ start_bucket b.
#[export] Instance by_start_dec a b : Decision (by_start a b).
Proof. unfold by_start. apply _. Defined.

Definition list_allocations (layer : Uuid) (include_released : bool) (tbl : Table) : Table :=
  merge_sort by_start
    (filter (λ a, layer_id a = layer ∧ (include_released = true ∨ released_at a = None)) tbl).

(** ** Specification *)

(** Two half-open ranges share a bucket. *)
Definition ranges_overlap (a b : Allocation) : Prop :=
  ∃ k, start_bucket a ≤ k < end_bucket a ∧ start_bucket b ≤ k < end_bucket b.

Definition range_ok (layers : Layers) (a : Allocation) : Prop :=
  ∃ l, layers !! layer_id a = Some l ∧ 0 ≤ start_bucket a < end_bucket a ∧
       end_bucket a ≤ total_buckets l.

(** [a] had left its buckets, cooldown included, when [b] took them. *)
Definition gone_before (a b : Allocation) : Prop :=
  ∃ r t, reusable_after a = Some r ∧ activated_at b = Some t ∧ r ≤ t.

(** No two experiments of a layer ever hold a bucket at the same time or within a
    cooldown: of two overlapping rows the older one was gone before the newer. *)
Definition separated (tbl : Table) : Prop :=
  ∀ i j a b, (i < j)%nat → tbl !! i = Some a → tbl !! j = Some b →
    layer_id a = layer_id b → experiment_id a ≠ experiment_id b → ranges_overlap a b →
    gone_before a b.

Definition table_ok (layers : Layers) (tbl : Table) : Prop :=
  separated tbl ∧ Forall (range_ok layers) tbl ∧
  Forall (λ a, is_Some (activated_at a) ∧ (released_at a = None ↔ reusable_after a = None)) tbl.

(** Histories of serialized calls: the insert is not earlier than its checks. *)
Inductive history (layers : Layers) : Table → Prop :=
| history_empty : history layers []
| history_allocate tbl id now now' layer experiment s e row tbl' :
    history layers tbl → now ≤ now' →
    allocate layers id now now' layer experiment s e tbl = Ok (row, tbl') →
    history layers tbl'
| history_release tbl now layer experiment :
    history layers tbl → history layers (release layers now layer experiment tbl).

(** ** Proofs *)

Lemma ranges_overlap_lt a b :
  start_bucket a < end_bucket a → start_bucket b < end_bucket b →
  (ranges_overlap a b ↔ start_bucket a < end_bucket b ∧ start_bucket b < end_bucket a).
Proof.
  intros Ha Hb. unfold ranges_overlap. split; [intros (k & ? & ?); lia|].
  intros [? ?]. exists (Z.max (start_bucket a) (start_bucket b)). lia.
Qed.

Lemma check_overlap_ok now tbl layer experiment s e c :
  check_overlap now tbl layer experiment s e c = Ok tt ↔
  Forall (λ a, conflicts now layer experiment s e c a = false) tbl.
Proof.
  unfold check_overlap. split.
  - destruct (List.find _ tbl) eqn:Hf; [done|]. intros _. apply Forall_forall. intros a Ha.
    apply (find_none _ _ Hf). by apply list_elem_of_In.
  - intros Hf. destruct (List.find _ tbl) as [a|] eqn:He; [|done].
    apply find_some in He as [Ha Hc]. rewrite Forall_forall in Hf.
    by rewrite Hf in Hc by (by apply list_elem_of_In).
Qed.

Lemma allocate_checks_ok layers now tbl1 tbl2 layer experiment s e :
  allocate_checks layers now tbl1 tbl2 layer experiment s e = Ok tt ↔
  (∃ l, layers !! layer = Some l ∧ 0 ≤ s < e ∧ e ≤ total_buckets l) ∧
  Forall (λ a, conflicts now layer experiment s e false a = false) tbl1 ∧
  Forall (λ a, conflicts now layer experiment s e true a = false) tbl2.
Proof.
  unfold allocate_checks. destruct (layers !! layer) as [l|]; [|naive_solver].
  rewrite <- !check_overlap_ok. split.
  - intros H. ok_inv. destruct x0. split_and!; [|done|done]. exists l. split; [done|]. lia.
  - intros ((l' & [= <-] & Hr & Ht) & H1 & H2).
    replace ((e <=? s) || (s <? 0) || (total_buckets l <? e)) with false by lia.
    simpl. rewrite H1. simpl. exact H2.
Qed.

(** A row that does not conflict with a request has gone before it, or is disjoint. *)
Lemma no_conflict_gone now now' id layer experiment s e a :
  now ≤ now' → s < e → start_bucket a < end_bucket a →
  (released_at a = None ↔ reusable_after a = None) →
  conflicts now layer experiment s e false a = false →
  conflicts now layer experiment s e true a = false →
  layer_id a = layer → experiment_id a ≠ experiment →
  ranges_overlap a (new_row id now' layer experiment s e) →
  gone_before a (new_row id now' layer experiment s e).
Proof.
  intros Hn Hse Ha Hrel H1 H2 <- Hexp Hov. apply ranges_overlap_lt in Hov as [Ho1 Ho2]; [|done..].
  unfold conflicts in *. simpl in *. rewrite bool_decide_true, bool_decide_false in * by done.
  simpl in *. apply Z.ltb_lt in Ho1, Ho2. rewrite Ho1, Ho2 in *. simpl in *.
  rewrite !andb_true_r in *. destruct (released_at a) as [t|]; [|done].
  destruct (reusable_after a) as [r|] eqn:Hr; [|by specialize (proj2 Hrel eq_refl)].
  exists r, now'. split_and!; [done..|lia].
Qed.

Lemma release_row_same now c layer experiment a :
  let a' := release_row now c layer experiment a in
  layer_id a' = layer_id a ∧ experiment_id a' = experiment_id a ∧
  start_bucket a' = start_bucket a ∧ end_bucket a' = end_bucket a ∧
  activated_at a' = activated_at a ∧
  (is_Some (reusable_after a) → is_Some (released_at a) → a' = a).
Proof.
  unfold release_row. cbv zeta. destruct (released_at a) as [t|] eqn:E;
    destruct (_ && _ && _) eqn:E'; simpl; split_and!; try done.
  - by rewrite andb_false_r in E'.
Qed.

Lemma history_ok layers tbl : history layers tbl → table_ok layers tbl.
Proof.
  induction 1 as [|tbl id now now' layer experiment s e row tbl' _ (Hs & Hr & Ht) Hn Hal
                  |tbl now layer experiment _ (Hs & Hr & Ht)].
  - split_and!; [by intros i j a b|constructor..].
  - unfold allocate in Hal. apply bind_ok_inv in Hal as ([] & Hc & Hal).
    injection Hal as <- <-. apply allocate_checks_ok in Hc as ((l & Hl & Hse & Htot) & H1 & H2).
    rewrite Forall_forall in H1, H2. split_and!.
    + intros i j a b Hij Hi Hj Hlay Hexp Hov.
      apply lookup_app_Some in Hj as [Hj|[Hlen Hj]].
      { eapply Hs; eauto. apply lookup_app_Some in Hi as [?|[? _]]; [done|].
        apply lookup_lt_Some in Hj. lia. }
      apply list_lookup_singleton_Some in Hj as [Hj0 <-].
      apply lookup_app_Some in Hi as [Hi|[? Hi]];
        [|apply list_lookup_singleton_Some in Hi as [? _]; lia].
      pose proof (list_elem_of_lookup_2 _ _ _ Hi) as Ha.
      rewrite Forall_forall in Hr, Ht. destruct (Hr a Ha) as (la & _ & ? & _).
      destruct (Ht a Ha) as [_ Hrel].
      eapply (no_conflict_gone now now'); eauto; lia.
    + apply Forall_app. split; [done|]. apply Forall_singleton. exists l. simpl. done.
    + apply Forall_app. split; [done|]. apply Forall_singleton. simpl. split; [by eexists|done].
  - set (c := cooldown_secs layers layer). unfold release. fold c. split_and!.
    + intros i j a b Hij Hi Hj Hlay Hexp Hov.
      change (map ?f tbl) with (f <$> tbl) in *.
      rewrite list_lookup_fmap in Hi, Hj.
      destruct (tbl !! i) as [a0|] eqn:Hi0; [|done]. destruct (tbl !! j) as [b0|] eqn:Hj0; [|done].
      injection Hi as <-. injection Hj as <-.
      destruct (release_row_same now c layer experiment a0) as (La & Ea & Sa & Na & Aa & Ra).
      destruct (release_row_same now c layer experiment b0) as (Lb & Eb & Sb & Nb & Ab & _).
      unfold ranges_overlap in Hov. rewrite La, Lb in Hlay. rewrite Ea, Eb in Hexp.
      rewrite Sa, Sb, Na, Nb in Hov.
      destruct (Hs i j a0 b0 Hij Hi0 Hj0 Hlay Hexp Hov) as (r & t & Hr0 & Ht0 & Hle).
      exists r, t. rewrite Ab. split_and!; [|done..].
      rewrite Ra; [done|by eexists|]. rewrite Forall_forall in Ht.
      destruct (Ht a0) as [_ Hrel]; [by eapply list_elem_of_lookup_2|].
      destruct (released_at a0); [by eexists|]. rewrite (proj1 Hrel eq_refl) in Hr0. done.
    + apply Forall_map. eapply Forall_impl; [exact Hr|]. intros a (l & Hl & H).
      destruct (release_row_same now c layer experiment a) as (La & _ & Sa & Na & _).
      exists l. by rewrite La, Sa, Na.
    + apply Forall_map. eapply Forall_impl; [exact Ht|]. intros a [Ha Hrel].
      unfold release_row. destruct (_ && _ && _); simpl; [|done]. split; [done|]. done.
Qed.

Lemma conflicts_spec now layer experiment s e c a :
  s < e → start_bucket a < end_bucket a →
  (conflicts now layer experiment s e c a = true ↔
   layer_id a = layer ∧ experiment_id a ≠ experiment ∧
   ranges_overlap a (new_row 1%positive 0 layer experiment s e) ∧
   if c then ∃ t r, released_at a = Some t ∧ reusable_after a = Some r ∧ now < r
   else released_at a = None).
Proof.
  intros Hse Ha. rewrite ranges_overlap_lt by done. unfold conflicts. simpl.
  rewrite !andb_true_iff, negb_true_iff, bool_decide_eq_true, bool_decide_eq_false, !Z.ltb_lt.
  destruct c, (released_at a) as [t|], (reusable_after a) as [r|];
    rewrite ?Z.ltb_lt; naive_solver.
Qed.


(** [allocate] succeeds exactly when the layer exists, the range is a
    non-empty part of it, and every overlapping row of another experiment in the
    layer has been released and has passed its cooldown; it then appends one active
    row, and otherwise leaves the table alone. *)
Theorem allocate_functional layers id now now' layer experiment s e tbl row tbl' :
  history layers tbl →
  (allocate layers id now now' layer experiment s e tbl = Ok (row, tbl') ↔
   row = new_row id now' layer experiment s e ∧ tbl' = tbl ++ [row] ∧
   (∃ l, layers !! layer = Some l ∧ 0 ≤ s < e ∧ e ≤ total_buckets l) ∧
   ∀ a, a ∈ tbl → layer_id a = layer → experiment_id a ≠ experiment →
     ranges_overlap a row → ∃ r, reusable_after a = Some r ∧ r ≤ now).
Proof.
  intros (_ & Hr & Ht)%history_ok. rewrite Forall_forall in Hr, Ht.
  assert (∀ a, a ∈ tbl → start_bucket a < end_bucket a ∧
    (released_at a = None ↔ reusable_after a = None)) as Hrow.
  { intros a Ha. destruct (Hr a Ha) as (l & _ & ? & _), (Ht a Ha) as [_ ?]. split; [lia|done]. }
  unfold allocate. split.
  - intros H. apply bind_ok_inv in H as ([] & Hc & H). injection H as <- <-.
    apply allocate_checks_ok in Hc as (Hl & H1 & H2). rewrite Forall_forall in H1, H2.
    split_and!; [done..|]. intros a Ha Hlay Hexp Hov. destruct (Hrow a Ha) as [Hlt Hrel].
    destruct Hl as (l & _ & Hse & _).
    destruct (no_conflict_gone now now id layer experiment s e a) as (r & t & ? & Ht' & ?);
      try lia; auto.
    injection Ht' as <-. eauto.
  - intros (-> & -> & Hl & Hall).
    rewrite (proj2 (allocate_checks_ok layers now tbl tbl layer experiment s e)); [done|].
    split; [done|]. destruct Hl as (l & _ & Hse & _).
    split; apply Forall_forall; intros a Ha; destruct (Hrow a Ha) as [Hlt Hrel];
      apply not_true_iff_false; rewrite conflicts_spec by lia; intros (Hlay & Hexp & Hov & Hx);
      destruct (Hall a Ha Hlay Hexp Hov) as (r & Hre & Hle).
    + by rewrite (proj1 Hrel Hx) in Hre.
    + destruct Hx as (t & r' & _ & Hr' & ?). simplify_eq. lia.
Qed.

(** The listing is exactly the rows of the layer (the active ones only,
    unless released rows are asked for), in order of their first bucket; and
    releasing is idempotent: a second release neither moves the release time nor
    extends the cooldown. *)
Theorem listing_and_release layers layer experiment include tbl now now' :
  Sorted by_start (list_allocations layer include tbl) ∧
  (∀ a, a ∈ list_allocations layer include tbl ↔
     a ∈ tbl ∧ layer_id a = layer ∧ (include = true ∨ released_at a = None)) ∧
  length (list_allocations layer include tbl) =
    length (filter (λ a, layer_id a = layer ∧ (include = true ∨ released_at a = None)) tbl) ∧
  release layers now' layer experiment (release layers now layer experiment tbl) =
    release layers now layer experiment tbl.
Proof.
  assert (Total by_start) as Htot by (intros a b; unfold by_start; lia).
  split_and!.
  - apply Sorted_merge_sort, _.
  - intros a. unfold list_allocations. rewrite merge_sort_Permutation, list_elem_of_filter. tauto.
  - unfold list_allocations. by rewrite merge_sort_Permutation.
  - unfold release. rewrite map_map. apply map_ext. intros a. unfold release_row.
    destruct (bool_decide (layer_id a = layer)) eqn:E1; simpl; [|by rewrite E1].
    destruct (bool_decide (experiment_id a = experiment)) eqn:E2; simpl; [|by rewrite E1, E2].
    destruct (released_at a) eqn:E3; simpl; rewrite E1, E2; simpl; [by rewrite E3|done].
Qed.

(** ** Witnesses and limits *)

Definition sample_layers : Layers := {[1%positive := mk_layer_row 1000 3600]}.

(** Experiment 10 takes [0, 500) and leaves; 11 takes [500, 1000), 12 the free half. *)
Definition sample_table : Table :=
  [mk_allocation 1 1 10 0 500 (Some 0) (Some 100) (Some 3700);
   mk_allocation 2 1 11 500 1000 (Some 5) None None].

Lemma sample_history : history sample_layers sample_table.
Proof.
  change sample_table with (release sample_layers 100 1 10
    [new_row 1 0 1 10 0 500; new_row 2 5 1 11 500 1000]).
  apply history_release. eapply (history_allocate _ [new_row 1 0 1 10 0 500] 2 5 5 1 11 500 1000);
    [|lia|vm_compute; reflexivity].
  eapply (history_allocate _ [] 1 0 0 1 10 0 500); [constructor|lia|vm_compute; reflexivity].
Qed.


Lemma allocate_functional_witness :
  let row := new_row 3 3700 1 12 0 500 in
  history sample_layers sample_table ∧
  allocate sample_layers 3 3700 3700 1 12 0 500 sample_table = Ok (row, sample_table ++ [row]).
Proof.
  split; [exact sample_history|].
  apply (allocate_functional sample_layers 3 3700 3700 1 12 0 500 sample_table); [exact sample_history|].
  split; [reflexivity|]. split; [reflexivity|]. split.
  - exists (mk_layer_row 1000 3600). split; [reflexivity|]. simpl. lia.
  - intros a Ha _ _ (k & Hk & Hk'). unfold sample_table in Ha.
    apply elem_of_cons in Ha as [->|Ha]; [exists 3700; split; [reflexivity|lia]|].
    apply list_elem_of_singleton in Ha as ->. simpl in *. lia.
Defined.

(** The check and the insert are separate statements: two requests that both check
    before either inserts both succeed, on overlapping ranges. *)
Lemma allocate_race :
  let check e := allocate_checks sample_layers 0 [] [] 1 e 0 500 in
  check 10%positive = Ok tt ∧ check 11%positive = Ok tt ∧
  ¬ separated [new_row 1 0 1 10 0 500; new_row 2 0 1 11 0 500].
Proof.
  split; [reflexivity|]. split; [reflexivity|]. intros Hs.
  destruct (Hs 0%nat 1%nat _ _ ltac:(lia) eq_refl eq_refl) as (r & t & Hr & _); [done|done| |done].
  exists 0. simpl. lia.
Qed.

(** The allocator's ranges are half-open and the assignment service's are inclusive:
    of two adjacent allocations both enrol the bucket between them. *)
Lemma adjacent_allocations_share_bucket :
  ∃ a b, a ∈ sample_table ∧ b ∈ sample_table ∧ ¬ ranges_overlap a b ∧
    is_in_allocation 500 (start_bucket a) (end_bucket a) = true ∧
    is_in_allocation 500 (start_bucket b) (end_bucket b) = true.
Proof.
  eexists _, _. split; [left|]. split; [right; left|]. split; [|done].
  intros (k & ? & ?). simpl in *. lia.
Qed.
