(* ===== verification/FilterSql.v ===== *)
(** The FILTERED_MEAN predicate allow-list
    ([experimentation-management/src/validators/filter_sql.rs]): the pre-scans, the
    tokenizer with its byte cursor, and the validation loop. Bytes are read as
    Latin-1 characters ([b as char]), as the source does. *)
From Stdlib Require Import Ascii String.
From S2P Require Import Prelude Bytes.

Definition MAX_FILTER_SQL_LEN : nat := 4096.

(** The messages of [Status::invalid_argument]. *)
Inductive FilterError :=
| FilterEmpty
| FilterTooLong
| FilterSemicolon
| FilterComment
| FilterFunctionCall
| FilterSubquery
| UnterminatedString
| IsNeedsNull
| IsNotNeedsNull
| IsNotGot (w : str)
| IsGot (w : str)
| Disallowed (w : str).

(** On bytes: a byte of a multi-byte character fails every test, as the character does. *)
Definition is_word_start (c : ascii) : bool := is_ascii_lowercase c || is_byte "_" c.
Definition is_identifier (s : str) : bool :=
  match s with
  | [] => false
  | first :: rest =>
      is_word_start first
      && forallb (λ c, is_ascii_lowercase c || is_ascii_digit c || is_byte "_" c) rest
  end.

(** [(b as char).is_ascii_alphanumeric() || b == b'_']. *)
Definition is_word_byte (c : ascii) : bool := is_ascii_alphanumeric c || is_byte "_" c.
(** [(b as char).is_whitespace()]: the byte read as U+0000..U+00FF. *)
Definition is_space_byte (c : ascii) : bool := is_whitespace (code c).

(** ** Pre-tokenization scanners *)

Definition KEYWORDS_FOLLOWABLE_BY_PAREN : list str :=
  [lit "IN"; lit "NOT"; lit "AND"; lit "OR"].

Fixpoint mask_from (in_string : bool) (s : str) : list bool :=
  match s with
  | [] => []
  | b :: s =>
      if is_byte "'" b then true :: mask_from (negb in_string) s
      else in_string :: mask_from in_string s
  end.

Definition string_literal_mask (sql : str) : list bool := mask_from false sql.

Definition eq_ignore_ascii_case (a b : str) : bool :=
  (length a =? length b) && forallb (λ '(x, y), byte_eq_ignore_case x y) (zip a b).

Definition is_keyword_followable_by_paren (word : str) : bool :=
  existsb (eq_ignore_ascii_case word) KEYWORDS_FOLLOWABLE_BY_PAREN.

(** The loop of [contains_function_call] over the remaining bytes and their mask;
    [bytes] is the whole text, [i] the index, [word_start] the loop variable. *)
Fixpoint function_call_loop (bytes : str) (rest : list (ascii * bool)) (i : nat)
    (word_start : option nat) : bool :=
  match rest with
  | [] => false
  | (b, masked) :: rest =>
      if masked : bool then function_call_loop bytes rest (S i) None
      else if is_word_byte b
      then function_call_loop bytes rest (S i)
             (match word_start with None => Some i | Some _ => word_start end)
      else if is_byte "(" b &&
              match word_start with
              | Some start =>
                  negb (is_keyword_followable_by_paren (take (i - start) (drop start bytes)))
              | None => false
              end
      then true
      else function_call_loop bytes rest (S i) None
  end.

Definition contains_function_call (sql : str) : bool :=
  function_call_loop sql (zip sql (string_literal_mask sql)) 0 None.

(** [mask[i]], [p(s[i])]: the indices below are in range. *)
Definition masked_at (mask : list bool) (i : nat) : bool := default false (mask !! i).
Definition byte_is (p : ascii → bool) (s : str) (i : nat) : bool :=
  match s !! i with Some c => p c | None => false end.

(** One round of the ['outer] loop: is there a match at [i]? *)
Definition keyword_at (s k : str) (mask : list bool) (i : nat) : bool :=
  negb (masked_at mask i)
  && negb ((0 <? i) && byte_is is_word_byte s (i - 1))
  && forallb (λ '(j, kb), negb (masked_at mask (i + j)) &&
                          byte_is (λ c, byte_eq_ignore_case c kb) s (i + j))
       (imap (λ j kb, (j, kb)) k)
  && negb ((i + length k <? length s) && byte_is is_word_byte s (i + length k)).

Definition contains_keyword_ci (sql kw : str) : bool :=
  if length sql <? length kw then false
  else existsb (keyword_at sql kw (string_literal_mask sql))
         (seq 0 (length sql - length kw + 1)).

Definition contains_select_keyword (sql : str) : bool := contains_keyword_ci sql (lit "SELECT").

(** ** Tokenizer *)

Inductive Token :=
| Identifier (s : str)
| Numeric
| StringLiteral
| Operator
| LParen
| RParen
| Comma.

(** [Tokenizer::rest]. *)
Definition rest_at (src : str) (pos : nat) : result FilterError str := slice src pos (length src).

Definition skip_whitespace (src : str) (pos : nat) : nat := scan_while is_space_byte src pos.

Definition match_symbolic_operator (rest : str) : option nat :=
  match rest with
  | b0 :: b1 :: _ =>
      if (is_byte "!" b0 || is_byte "<" b0 || is_byte ">" b0) && is_byte "=" b1 then Some 2
      else if is_byte "=" b0 || is_byte "<" b0 || is_byte ">" b0 then Some 1 else None
  | [b0] => if is_byte "=" b0 || is_byte "<" b0 || is_byte ">" b0 then Some 1 else None
  | [] => None
  end.

(** [b[0]] panics on an empty rest. *)
Definition match_numeric (rest : str) : result FilterError (option nat) :=
  match rest with
  | [] => Panics
  | b0 :: after =>
      let i := if is_byte "-" b0 then 1 else 0 in
      let digit_start := i in
      let i := scan_while is_ascii_digit rest i in
      if i =? digit_start then mret None
      else if byte_is (is_byte ".") rest i then
        let frac_start := i + 1 in
        let i := scan_while is_ascii_digit rest frac_start in
        if i =? frac_start then mret None else mret (Some i)
      else mret (Some i)
  end.

Definition word_len (rest : str) : nat := prefix_len is_word_byte rest.

(** The error of a stray character: the offending run, at most 32 bytes, sliced out
    of the rest. *)
Definition reject_run {A} (rest : str) : result FilterError A :=
  let n := Nat.min 32 (prefix_len (λ c, negb (is_space_byte c)) rest) in
  w ← slice rest 0 n;
  Err (Disallowed w).

(** The [IS] arm; [pos] is the cursor after [IS]. *)
Definition next_is (src : str) (pos : nat) : result FilterError (Token * nat) :=
  let pos := skip_whitespace src pos in
  after_is ← rest_at src pos;
  let next_wlen := word_len after_is in
  if next_wlen =? 0 then Err IsNeedsNull
  else
    next_word ← slice after_is 0 next_wlen;
    let next_upper := to_ascii_uppercase next_word in
    if bool_decide (next_upper = lit "NULL") then mret (Operator, pos + next_wlen)
    else if bool_decide (next_upper = lit "NOT") then
      let pos := skip_whitespace src (pos + next_wlen) in
      after_not ← rest_at src pos;
      let final_wlen := word_len after_not in
      if final_wlen =? 0 then Err IsNotNeedsNull
      else
        final_word ← slice after_not 0 final_wlen;
        if eq_ignore_ascii_case final_word (lit "NULL") then mret (Operator, pos + final_wlen)
        else Err (IsNotGot final_word)
    else Err (IsGot next_word).

Definition next_word_token (src : str) (pos : nat) (rest : str) :
    result FilterError (Token * nat) :=
  let wlen := word_len rest in
  word ← slice rest 0 wlen;
  let upper := to_ascii_uppercase word in
  if bool_decide (upper ∈ [lit "AND"; lit "OR"; lit "NOT"; lit "IN"]) then mret (Operator, pos + wlen)
  else if bool_decide (upper = lit "IS") then next_is src (pos + wlen)
  else if is_identifier word then mret (Identifier word, pos + wlen)
  else Err (Disallowed word).

(** The string-literal arm: [i] scans to the closing quote. *)
Definition next_string (pos : nat) (rest : str) : result FilterError (Token * nat) :=
  let i := scan_while (λ c, negb (is_byte "'" c)) rest 1 in
  if length rest <=? i then Err UnterminatedString else mret (StringLiteral, pos + (i + 1)).

(** The word arm and the final rejection. *)
Definition next_other (src : str) (pos : nat) (first : ascii) (rest : str) :
    result FilterError (Token * nat) :=
  if is_ascii_alphabetic first || is_byte "_" first then next_word_token src pos rest
  else reject_run rest.

(** The arms of [next_token], on the first byte after the white space. *)
Definition next_allowed (src : str) (pos : nat) (first : ascii) (rest : str) :
    result FilterError (Token * nat) :=
  if is_byte "(" first then mret (LParen, pos + 1)
  else if is_byte ")" first then mret (RParen, pos + 1)
  else if is_byte "," first then mret (Comma, pos + 1)
  else match match_symbolic_operator rest with
  | Some consumed => mret (Operator, pos + consumed)
  | None =>
      if is_byte "'" first then next_string pos rest
      else if is_byte "-" first || is_ascii_digit first then
        n ← match_numeric rest;
        match n with
        | Some consumed => mret (Numeric, pos + consumed)
        | None => next_other src pos first rest
        end
      else next_other src pos first rest
  end.

Definition next_token (src : str) (pos : nat) : result FilterError (option Token * nat) :=
  let pos := skip_whitespace src pos in
  rest ← rest_at src pos;
  match rest with
  | [] => mret (None, pos)
  | first :: _ => '(tok, pos) ← next_allowed src pos first rest; mret (Some tok, pos)
  end.

(** The [while let] loop. *)
Fixpoint token_loop (fuel : nat) (src : str) (pos : nat) : result FilterError unit :=
  match fuel with
  | 0 => OutOfFuel
  | S fuel =>
      '(tok, pos) ← next_token src pos;
      match tok with None => mret tt | Some _ => token_loop fuel src pos end
  end.

Definition validate_filter_sql (sql : str) : result FilterError unit :=
  _ ← reject_if (bool_decide (sql = []) || trim_is_empty sql) FilterEmpty;
  _ ← reject_if (MAX_FILTER_SQL_LEN <? length sql) FilterTooLong;
  _ ← reject_if (contains sql (lit ";")) FilterSemicolon;
  _ ← reject_if (contains sql (lit "--") || contains sql (lit "/*") || contains sql (lit "*/"))
        FilterComment;
  _ ← reject_if (contains_function_call sql) FilterFunctionCall;
  _ ← reject_if (contains_select_keyword sql) FilterSubquery;
  token_loop (S (length sql)) sql 0.

Example accepts_sample :
  validate_filter_sql (lit "platform = 'mobile' AND (d >= -0.5 OR x IN('US', 'FR')) and c is not null")
  = Ok tt.
Proof. vm_compute. reflexivity. Qed.

(** ** Where it departs from its documentation *)

(** Two bytes of UTF-8 are enough to panic: the second byte of [à] reads as a
    no-break space, so the error message is cut inside the character. *)
Lemma panics_on_a_grave :
  let sql := map ascii_of_N [195; 160]%N in
  valid_utf8 sql = true ∧ validate_filter_sql sql = Panics.
Proof. vm_compute. split; reflexivity. Qed.

(** The 32-byte cut of the message can also fall inside a character. *)
Lemma panics_on_long_run :
  let sql := concat (replicate 11 (map ascii_of_N [226; 130; 172]%N)) in
  valid_utf8 sql = true ∧ validate_filter_sql sql = Panics.
Proof. vm_compute. split; reflexivity. Qed.

(** Lower-case [like], [between], [exists], a call with a space before its
    parenthesis, and unbalanced parentheses are all accepted. *)
Lemma accepts_undocumented :
  Forall (λ s, validate_filter_sql (lit s) = Ok tt)
    ["a like 'x%'"; "a between 1 and 2"; "exists (a)"; "count (distinct a) = 1"; "((a";
     "union"; "(1.5select a)"]%string.
Proof. repeat constructor; vm_compute; reflexivity. Qed.
