(* ===== verification/FilterSqlSpec.v ===== *)
(** Specification of the [filter_sql] validator: the text it accepts is a declarative
    token language in which every byte outside a string literal is on the allowlist,
    and its two scanners are the properties their error messages name. *)
From Stdlib Require Import Ascii String.
From S2P Require Import Prelude Bytes FilterSql.

(** ** The token language *)

(** White space of the language: on well-formed text the tokenizer only ever skips
    ASCII white space, although its test also holds of the bytes 0x85 and 0xA0. *)
Definition is_blank (c : ascii) : bool := is_ascii c && is_space_byte c.

(** The byte after a token. *)
Definition next_byte (p : ascii → bool) (rest : str) : bool :=
  match rest with c :: _ => p c | [] => false end.

Definition keyword_of (k : str) (w : str) : Prop := to_ascii_uppercase w = k.

Definition logic_word (w : str) : Prop :=
  to_ascii_uppercase w ∈ [lit "AND"; lit "OR"; lit "NOT"; lit "IN"].

Definition sign (s : str) : Prop := s = [] ∨ s = lit "-".
Definition digits (s : str) : Prop := s ≠ [] ∧ forallb is_ascii_digit s = true.
Definition blanks (s : str) : Prop := forallb is_blank s = true.
Definition word (w rest : str) : Prop :=
  w ≠ [] ∧ forallb is_word_byte w = true ∧ next_byte is_word_byte rest = false.

(** [sql_lexeme t rest]: [t] is the allowlisted token at the head of [t ++ rest]. *)
Inductive sql_lexeme : str → str → Prop :=
| lx_punct c rest : c ∈ lit "(),=" → sql_lexeme [c] rest
| lx_compare c rest : c ∈ lit "<>" → next_byte (is_byte "=") rest = false → sql_lexeme [c] rest
| lx_compare_eq c rest : c ∈ lit "!<>" → sql_lexeme [c; "="%char] rest
| lx_string body rest : "'"%char ∉ body → sql_lexeme ("'"%char :: body ++ lit "'") rest
| lx_integer s ds rest :
    sign s → digits ds → next_byte (λ c, is_ascii_digit c || is_byte "." c) rest = false →
    sql_lexeme (s ++ ds) rest
| lx_decimal s ds fs rest :
    sign s → digits ds → digits fs → next_byte is_ascii_digit rest = false →
    sql_lexeme (s ++ ds ++ lit "." ++ fs) rest
| lx_logic w rest : word w rest → logic_word w → sql_lexeme w rest
| lx_identifier w rest :
    word w rest → is_identifier w = true → ¬ logic_word w → ¬ keyword_of (lit "IS") w →
    sql_lexeme w rest
| lx_is_null w ws n rest :
    keyword_of (lit "IS") w → ws ≠ [] → blanks ws → keyword_of (lit "NULL") n →
    next_byte is_word_byte rest = false → sql_lexeme (w ++ ws ++ n) rest
| lx_is_not_null w ws o ws' n rest :
    keyword_of (lit "IS") w → ws ≠ [] → blanks ws → keyword_of (lit "NOT") o →
    ws' ≠ [] → blanks ws' → keyword_of (lit "NULL") n →
    next_byte is_word_byte rest = false → sql_lexeme (w ++ ws ++ o ++ ws' ++ n) rest.

Inductive sql_text : str → Prop :=
| st_end ws : blanks ws → sql_text ws
| st_token ws t rest :
    blanks ws → sql_lexeme t rest → sql_text rest → sql_text (ws ++ t ++ rest).

(** ** Well-formed suffixes *)

Lemma valid_utf8_drop_after s i c :
  valid_utf8 s = true → s !! i = Some c → is_ascii c = true → valid_utf8 (drop (S i) s) = true.
Proof.
  intros Hv. revert i. pattern s. apply valid_utf8_ind; [done| |done].
  clear s Hv. intros ch rest Hch Hr IH i Hi Ha.
  destruct (decide (i < length ch)) as [Hlt|Hge].
  - destruct ch as [|b t]; [done|]. destruct Hch as [[_ ->]|(Hb & _ & _ & Ht)].
    { destruct i; [done|simpl in Hlt; lia]. }
    rewrite lookup_app_l in Hi by done. destruct i as [|i]; [simplify_eq/=; congruence|].
    apply (Forall_lookup_1 _ _ _ _ Ht) in Hi. by rewrite (ascii_not_cont _ Ha) in Hi.
  - rewrite lookup_app_r in Hi by lia. rewrite drop_app_ge by lia.
    replace (S i - length ch) with (S (i - length ch)) by lia. by apply IH.
Qed.

Lemma valid_utf8_suffix t c rest :
  valid_utf8 (t ++ c :: rest) = true → is_ascii c = true → valid_utf8 rest = true.
Proof.
  intros Hv Ha. replace rest with (drop (S (length t)) (t ++ c :: rest)).
  - apply (valid_utf8_drop_after _ _ c); [done| |done]. by apply list_lookup_middle.
  - rewrite drop_app_ge by lia. by replace (S (length t) - length t) with 1 by lia.
Qed.

(** A suffix after ASCII text. *)
Lemma valid_utf8_app_ascii t rest :
  forallb is_ascii t = true → valid_utf8 (t ++ rest) = true → valid_utf8 rest = true.
Proof.
  induction t as [|c t IH]; [done|]. simpl. intros [Hc Ht]%andb_true_iff Hv.
  apply IH; [done|]. by apply (valid_utf8_suffix [] c).
Qed.

Lemma rest_at_ok src pos :
  pos ≤ length src → valid_utf8 (drop pos src) = true → rest_at src pos = Ok (drop pos src).
Proof.
  intros Hp Hv. unfold rest_at. rewrite slice_ok.
  - f_equal. apply take_ge. rewrite length_drop. lia.
  - done.
  - unfold is_char_boundary. destruct (src !! pos) as [c|] eqn:Hc.
    + rewrite (valid_utf8_head (drop pos src) c), orb_true_r; [done|done|].
      by rewrite lookup_drop_0.
    + apply lookup_ge_None in Hc. apply Nat.eqb_eq. lia.
  - apply is_char_boundary_length.
Qed.

(** A slice of a suffix up to the end of a run of ASCII bytes. *)
Lemma slice_ascii {E} t rest :
  t ≠ [] → forallb is_ascii t = true → valid_utf8 (t ++ rest) = true →
  slice (E:=E) (t ++ rest) 0 (length t) = Ok t.
Proof.
  intros Hne Ha Hv. rewrite slice_ok; [by rewrite Nat.sub_0_r, drop_0, take_app_length|lia| |].
  - destruct t as [|c t]; [done|]. simpl in Ha. apply andb_true_iff in Ha as [Ha _].
    by apply (is_char_boundary_ascii _ _ c).
  - pose proof (valid_utf8_app_ascii _ _ Ha Hv) as Hr. unfold is_char_boundary.
    destruct ((t ++ rest) !! length t) as [c|] eqn:Hc.
    + rewrite (valid_utf8_head rest c), orb_true_r; [done|done|].
      by rewrite lookup_app_r, Nat.sub_diag in Hc by lia.
    + apply lookup_ge_None in Hc. apply Nat.eqb_eq. rewrite length_app in *. lia.
Qed.

(** ** Runs of bytes *)

Lemma run_split p s :
  ∃ t rest, s = t ++ rest ∧ forallb p t = true ∧ next_byte p rest = false ∧
            prefix_len p s = length t.
Proof.
  induction s as [|c s (t & rest & E & Ht & Hr & Hl)]; [by exists [], []|]. simpl.
  destruct (p c) eqn:Hc.
  - exists (c :: t), rest. split_and!; [by rewrite E|simpl; by rewrite Hc|done|simpl; by rewrite Hl].
  - by exists [], (c :: s).
Qed.

Lemma run_len p t rest :
  forallb p t = true → next_byte p rest = false → prefix_len p (t ++ rest) = length t.
Proof.
  intros Ht Hr. rewrite prefix_len_app by done. destruct rest as [|c rest]; simpl in *.
  - lia.
  - rewrite Hr. lia.
Qed.

Lemma forallb_weaken {A} (p q : A → bool) l :
  (∀ x, p x = true → q x = true) → forallb p l = true → forallb q l = true.
Proof. rewrite !forallb_forall. eauto. Qed.

Lemma word_byte_ascii c : is_word_byte c = true → is_ascii c = true.
Proof. unfold is_word_byte, is_byte. destruct (Ascii.eqb_spec c "_"); [by subst|]. unfold_bytes. lia. Qed.

Lemma digit_ascii c : is_ascii_digit c = true → is_ascii c = true.
Proof. unfold_bytes. lia. Qed.

Lemma digit_word c : is_ascii_digit c = true → is_word_byte c = true.
Proof. unfold is_word_byte, is_byte. unfold_bytes. lia. Qed.

Lemma blank_space c : is_blank c = true → is_space_byte c = true.
Proof. unfold is_blank. by intros [_ ?]%andb_true_iff. Qed.

Lemma blank_ascii c : is_blank c = true → is_ascii c = true.
Proof. unfold is_blank. by intros [? _]%andb_true_iff. Qed.

Lemma blank_not_word c : is_space_byte c = true → is_word_byte c = false.
Proof.
  unfold is_space_byte, is_whitespace, is_word_byte, is_byte.
  destruct (Ascii.eqb_spec c "_"); [by subst|]. unfold_bytes. lia.
Qed.

(** At a character boundary a white-space byte is ASCII. *)
Lemma spaces_blank ws rest :
  valid_utf8 (ws ++ rest) = true → forallb is_space_byte ws = true →
  blanks ws ∧ valid_utf8 rest = true.
Proof.
  unfold blanks. induction ws as [|c ws IH]; [done|]. intros Hv.
  cbn [forallb]. intros [Hc Hws]%andb_true_iff.
  assert (is_ascii c = true) as Ha.
  { pose proof (valid_utf8_head ((c :: ws) ++ rest) c Hv eq_refl) as Hn.
    revert Hc Hn. unfold is_space_byte, is_whitespace. unfold_bytes.
    pose proof (N_ascii_bounded c). unfold code. lia. }
  destruct IH as [Hb Hr]; [by apply (valid_utf8_suffix [] c)|done|].
  split; [|done]. unfold is_blank at 1. by rewrite Ha, Hc, Hb.
Qed.

(** ** The cursor *)

Definition at_ (src : str) (pos : nat) (s : str) : Prop :=
  pos ≤ length src ∧ drop pos src = s ∧ valid_utf8 s = true.

Lemma at_jump src pos t rest :
  at_ src pos (t ++ rest) → valid_utf8 rest = true → at_ src (pos + length t) rest.
Proof.
  intros (Hp & Hd & _) Hv. split_and!; [|by apply (drop_app_add src pos t)|done].
  apply (f_equal length) in Hd. rewrite length_drop, length_app in Hd. lia.
Qed.

Lemma at_ascii src pos t rest :
  at_ src pos (t ++ rest) → forallb is_ascii t = true → at_ src (pos + length t) rest.
Proof.
  intros H Ha. apply (at_jump _ _ _ _ H). destruct H as (_ & _ & Hv).
  by apply (valid_utf8_app_ascii t).
Qed.

Lemma at_rest src pos s : at_ src pos s → rest_at src pos = Ok s.
Proof. intros (Hp & <- & Hv). by apply rest_at_ok. Qed.

Lemma blanks_ascii ws : blanks ws → forallb is_ascii ws = true.
Proof. apply forallb_weaken, blank_ascii. Qed.

(** White space is skipped up to the next byte that is not white space. *)
Lemma skip_sound src pos s :
  at_ src pos s →
  ∃ ws rest, s = ws ++ rest ∧ blanks ws ∧ next_byte is_space_byte rest = false ∧
    skip_whitespace src pos = pos + length ws ∧ at_ src (pos + length ws) rest.
Proof.
  intros H. destruct (run_split is_space_byte s) as (ws & rest & -> & Hw & Hr & Hl).
  destruct (spaces_blank ws rest) as [Hb Hv]; [by destruct H as (_ & _ & ?)|done|].
  exists ws, rest. split_and!; try done; [|by apply at_jump].
  destruct H as (_ & Hd & _). unfold skip_whitespace, scan_while. by rewrite Hd, Hl.
Qed.

Lemma skip_complete src pos ws rest :
  at_ src pos (ws ++ rest) → blanks ws → next_byte is_space_byte rest = false →
  skip_whitespace src pos = pos + length ws ∧ at_ src (pos + length ws) rest.
Proof.
  intros H Hb Hr. split; [|by apply at_ascii, blanks_ascii].
  destruct H as (_ & Hd & _). unfold skip_whitespace, scan_while.
  rewrite Hd, run_len; [done| |done]. by apply (forallb_weaken is_blank), Hb; apply blank_space.
Qed.

(** ** Words *)

Lemma eq_ignore_upper a b :
  eq_ignore_ascii_case a b = bool_decide (to_ascii_uppercase a = to_ascii_uppercase b).
Proof.
  unfold eq_ignore_ascii_case, to_ascii_uppercase. revert b.
  induction a as [|x a IH]; intros [|y b]; try done.
  specialize (IH b). cbn [length zip zip_with forallb fmap list_fmap]. simpl in IH |- *.
  unfold byte_eq_ignore_case at 1. destruct (Ascii.eqb_spec (to_upper x) (to_upper y)) as [E|E].
  - rewrite andb_true_l, IH. apply bool_decide_ext. rewrite E. split; [by intros ->|by intros [= ->]].
  - rewrite andb_false_l, andb_false_r. symmetry. apply bool_decide_eq_false. congruence.
Qed.

Lemma upper_word w : forallb is_word_byte (to_ascii_uppercase w) = forallb is_word_byte w.
Proof.
  unfold to_ascii_uppercase. induction w as [|c w IH]; [done|]. cbn. rewrite IH. f_equal.
  destruct c as [[] [] [] [] [] [] [] []]; reflexivity.
Qed.

(** A word with a given upper-case form. *)
Lemma keyword_word k w :
  keyword_of k w → k ≠ [] → forallb is_word_byte k = true →
  w ≠ [] ∧ forallb is_word_byte w = true.
Proof. intros <- Hne Hk. rewrite upper_word in Hk. split; [by intros ->|done]. Qed.

Lemma null_word n : keyword_of (lit "NULL") n → n ≠ [] ∧ forallb is_word_byte n = true.
Proof. intros H. by apply (keyword_word _ _ H). Qed.
Lemma not_word o : keyword_of (lit "NOT") o → o ≠ [] ∧ forallb is_word_byte o = true.
Proof. intros H. by apply (keyword_word _ _ H). Qed.
Lemma is_word w : keyword_of (lit "IS") w → w ≠ [] ∧ forallb is_word_byte w = true.
Proof. intros H. by apply (keyword_word _ _ H). Qed.

Lemma word_ascii w rest : word w rest → forallb is_ascii w = true.
Proof. intros (_ & H & _). by apply (forallb_weaken is_word_byte), H; apply word_byte_ascii. Qed.

(** Two readings of a run of word bytes. *)
Lemma word_len_cases s :
  (word_len s = 0 ∧ next_byte is_word_byte s = false) ∨
  ∃ w rest, s = w ++ rest ∧ word w rest ∧ word_len s = length w ∧ length w ≠ 0.
Proof.
  unfold word_len. destruct (run_split is_word_byte s) as (w & rest & -> & Hw & Hr & ->).
  destruct w as [|c w]; [by left|right]. by exists (c :: w), rest.
Qed.

Lemma word_len_word w rest : word w rest → word_len (w ++ rest) = length w.
Proof. intros (_ & ? & ?). by apply run_len. Qed.

Lemma slice_word {E} src pos w rest :
  at_ src pos (w ++ rest) → word w rest →
  slice (E:=E) (w ++ rest) 0 (word_len (w ++ rest)) = Ok w.
Proof.
  intros (_ & _ & Hv) Hw. rewrite word_len_word by done.
  apply slice_ascii; [apply Hw|by eapply word_ascii|done].
Qed.

Lemma word_next_space w rest : word w rest → next_byte is_space_byte (w ++ rest) = false.
Proof.
  intros (Hne & Hw & _). destruct w as [|c w]; [done|]. simpl in *.
  destruct (is_space_byte c) eqn:E; [|done]. by rewrite (blank_not_word _ E) in Hw.
Qed.

Lemma sep_nonempty ws w rest :
  next_byte is_word_byte (ws ++ w ++ rest) = false → w ≠ [] → forallb is_word_byte w = true → ws ≠ [].
Proof. intros H Hne Hw ->. destruct w as [|c w]; [done|]. simpl in *. by rewrite H in Hw. Qed.

(** [IS]: the text after it. *)
Lemma next_is_sound src pos s tok pos' :
  at_ src pos s → next_byte is_word_byte s = false → next_is src pos = Ok (tok, pos') →
  ∃ t rest, s = t ++ rest ∧ at_ src pos' rest ∧ (∀ w, keyword_of (lit "IS") w → sql_lexeme (w ++ t) rest).
Proof.
  intros H Hn. unfold next_is.
  destruct (skip_sound _ _ _ H) as (ws & s1 & -> & Hws & Hs & -> & H1).
  rewrite (at_rest _ _ _ H1). simpl. destruct (word_len_cases s1) as [[-> _]|(w & rest & -> & Hw & Hlen & Hl0)]; [done|].
  rewrite (proj2 (Nat.eqb_neq _ _)) by (rewrite Hlen; done).
  rewrite (slice_word _ _ _ _ H1 Hw), Hlen. simpl.
  pose proof (at_ascii _ _ _ _ H1 (word_ascii _ _ Hw)) as H2.
  pose proof (sep_nonempty _ _ _ Hn (proj1 Hw) (proj1 (proj2 Hw))) as Hne.
  case_bool_decide as Enull.
  { intros [= <- <-]. exists (ws ++ w), rest. rewrite <- !app_assoc. split_and!; [done|done|].
    intros i Hi. apply lx_is_null; try done. apply Hw. }
  case_bool_decide as Enot; [|done].
  destruct (skip_sound _ _ _ H2) as (ws' & s2 & -> & Hws' & Hs' & -> & H3).
  rewrite (at_rest _ _ _ H3). simpl. destruct (word_len_cases s2) as [[-> _]|(n & rest' & -> & Hw' & Hlen' & Hl0')]; [done|].
  rewrite (proj2 (Nat.eqb_neq _ _)) by (rewrite Hlen'; done).
  rewrite (slice_word _ _ _ _ H3 Hw'), Hlen'. simpl. rewrite eq_ignore_upper.
  case_bool_decide as En; [|done]. intros [= <- <-].
  exists (ws ++ w ++ ws' ++ n), rest'. split_and!; [by rewrite <- !app_assoc|by eapply at_ascii, word_ascii|].
  intros i Hi. apply lx_is_not_null; try done; [|apply Hw'].
  by eapply sep_nonempty; [apply Hw|apply Hw'|apply Hw'].
Qed.

Lemma next_byte_app p t rest : t ≠ [] → next_byte p (t ++ rest) = next_byte p t.
Proof. by destruct t. Qed.

Lemma next_byte_forall p t rest : t ≠ [] → forallb p t = true → next_byte p (t ++ rest) = true.
Proof. destruct t; [done|]. simpl. by intros _ [? _]%andb_true_iff. Qed.

Lemma blanks_next_word ws rest :
  ws ≠ [] → blanks ws → next_byte is_word_byte (ws ++ rest) = false.
Proof.
  intros Hne Hb. destruct ws as [|c ws]; [done|]. unfold blanks in Hb. simpl in Hb |- *.
  apply andb_true_iff in Hb as [Hc _]. by apply blank_not_word, blank_space.
Qed.

Lemma next_is_complete_null src pos ws n rest :
  at_ src pos (ws ++ n ++ rest) → blanks ws → keyword_of (lit "NULL") n →
  next_byte is_word_byte rest = false →
  next_is src pos = Ok (Operator, pos + length (ws ++ n)).
Proof.
  intros H Hb Hn Hr. destruct (null_word _ Hn) as [Hne Hw]. unfold next_is.
  assert (word n rest) as Hwd by done.
  destruct (skip_complete _ _ _ _ H Hb (word_next_space _ _ Hwd)) as [-> H1].
  rewrite (at_rest _ _ _ H1). simpl.
  rewrite (slice_word _ _ _ _ H1 Hwd), (word_len_word _ _ Hwd).
  rewrite (proj2 (Nat.eqb_neq _ _)) by (destruct n; done). simpl.
  rewrite bool_decide_eq_true_2 by done. rewrite length_app. do 2 f_equal. lia.
Qed.

Lemma next_is_complete_not_null src pos ws o ws' n rest :
  at_ src pos (ws ++ o ++ ws' ++ n ++ rest) → blanks ws → keyword_of (lit "NOT") o →
  ws' ≠ [] → blanks ws' → keyword_of (lit "NULL") n → next_byte is_word_byte rest = false →
  next_is src pos = Ok (Operator, pos + length (ws ++ o ++ ws' ++ n)).
Proof.
  intros H Hb Ho Hne' Hb' Hn Hr. destruct (null_word _ Hn) as [Hne Hw], (not_word _ Ho) as [Hneo Hwo].
  unfold next_is. assert (word o (ws' ++ n ++ rest)) as Hwo'
    by (split_and!; [done..|by apply blanks_next_word]).
  destruct (skip_complete _ _ _ _ H Hb (word_next_space _ _ Hwo')) as [-> H1].
  rewrite (at_rest _ _ _ H1). simpl.
  rewrite (slice_word _ _ _ _ H1 Hwo'), (word_len_word _ _ Hwo').
  rewrite (proj2 (Nat.eqb_neq _ _)) by (destruct o; done). simpl.
  rewrite Ho, bool_decide_eq_false_2, bool_decide_eq_true_2 by done.
  pose proof (at_ascii _ _ _ _ H1 (word_ascii _ _ Hwo')) as H2.
  assert (word n rest) as Hwd by done.
  destruct (skip_complete _ _ _ _ H2 Hb' (word_next_space _ _ Hwd)) as [-> H3].
  rewrite (at_rest _ _ _ H3). simpl.
  rewrite (slice_word _ _ _ _ H3 Hwd), (word_len_word _ _ Hwd).
  rewrite (proj2 (Nat.eqb_neq _ _)) by (destruct n; done). simpl.
  rewrite eq_ignore_upper, Hn, bool_decide_eq_true_2 by done.
  rewrite !length_app. do 2 f_equal. lia.
Qed.

Lemma next_word_sound src pos s tok pos' :
  at_ src pos s → next_byte is_word_byte s = true →
  next_word_token src pos s = Ok (tok, pos') →
  ∃ t rest, s = t ++ rest ∧ t ≠ [] ∧ sql_lexeme t rest ∧ at_ src pos' rest.
Proof.
  intros H Hn. unfold next_word_token.
  destruct (word_len_cases s) as [[_ Hf]|(w & rest & -> & Hw & Hlen & Hl0)]; [congruence|].
  rewrite (slice_word _ _ _ _ H Hw), Hlen. simpl.
  pose proof (at_ascii _ _ _ _ H (word_ascii _ _ Hw)) as H1.
  case_bool_decide as Elogic.
  { intros [= <- <-]. exists w, rest. split_and!; [done|apply Hw|by apply lx_logic|done]. }
  case_bool_decide as Eis.
  { intros E. destruct (next_is_sound _ _ _ _ _ H1 (proj2 (proj2 Hw)) E) as (t & rest' & -> & H2 & Ht).
    exists (w ++ t), rest'. split_and!; [by rewrite app_assoc| |by apply Ht|done].
    destruct Hw as (Hw & _). by destruct w. }
  destruct (is_identifier w) eqn:Ei; [|done]. intros [= <- <-].
  exists w, rest. split_and!; [done|apply Hw|by apply lx_identifier|done].
Qed.

Lemma next_word_eq src pos w rest :
  at_ src pos (w ++ rest) → word w rest →
  next_word_token src pos (w ++ rest) =
  if bool_decide (to_ascii_uppercase w ∈ [lit "AND"; lit "OR"; lit "NOT"; lit "IN"])
  then Ok (Operator, pos + length w)
  else if bool_decide (to_ascii_uppercase w = lit "IS") then next_is src (pos + length w)
  else if is_identifier w then Ok (Identifier w, pos + length w) else Err (Disallowed w).
Proof.
  intros H Hw. unfold next_word_token.
  by rewrite (slice_word _ _ _ _ H Hw), (word_len_word _ _ Hw).
Qed.

(** ** Numbers *)

Lemma scan_from s p a t rest :
  s = a ++ t ++ rest → forallb p t = true → next_byte p rest = false →
  scan_while p s (length a) = length (a ++ t).
Proof.
  intros -> Ht Hr. unfold scan_while. rewrite drop_app_length, run_len by done.
  by rewrite length_app.
Qed.

Lemma byte_is_next p a s : byte_is p (a ++ s) (length a) = next_byte p s.
Proof. unfold byte_is. rewrite lookup_app_r, Nat.sub_diag by lia. by destruct s. Qed.

(** [match_numeric] on a sign, a run of digits and what follows it. *)
Lemma match_numeric_eq s ds rest :
  sign s → forallb is_ascii_digit ds = true → next_byte is_ascii_digit rest = false →
  (s = [] → next_byte (is_byte "-") (ds ++ rest) = false) → s ++ ds ++ rest ≠ [] →
  match_numeric (s ++ ds ++ rest) =
  Ok (if bool_decide (ds = []) then None
      else if next_byte (is_byte ".") rest
      then let fs := prefix_len is_ascii_digit (drop 1 rest) in
           if fs =? 0 then None else Some (length s + length ds + 1 + fs)
      else Some (length s + length ds)).
Proof.
  intros Hs Hds Hr Hminus Hne. unfold match_numeric.
  destruct (s ++ ds ++ rest) as [|b0 after] eqn:E; [done|]. rewrite <- E.
  assert ((if is_byte "-" b0 then 1 else 0) = length s) as ->.
  { destruct Hs as [-> | ->]; simpl in E.
    - specialize (Hminus eq_refl). rewrite E in Hminus. simpl in Hminus. by rewrite Hminus.
    - injection E as <- _. reflexivity. }
  rewrite (scan_from _ _ s ds rest eq_refl Hds Hr).
  case_bool_decide as Ed.
  { subst ds. by rewrite app_nil_r, Nat.eqb_refl. }
  rewrite (proj2 (Nat.eqb_neq _ _)) by (rewrite length_app; destruct ds; simpl; [done|lia]).
  rewrite app_assoc, byte_is_next. rewrite length_app.
  destruct (next_byte (is_byte ".") rest) eqn:Edot; [|done].
  destruct rest as [|c rest]; [done|]. simpl in Edot. change (drop 1 (c :: rest)) with rest.
  replace (scan_while is_ascii_digit ((s ++ ds) ++ c :: rest) (length s + length ds + 1))
    with (length s + length ds + 1 + prefix_len is_ascii_digit rest).
  - destruct (prefix_len is_ascii_digit rest =? 0) eqn:Ef.
    + apply Nat.eqb_eq in Ef. rewrite Ef, Nat.add_0_r, Nat.eqb_refl. reflexivity.
    + apply Nat.eqb_neq in Ef. cbv zeta. by rewrite !(proj2 (Nat.eqb_neq _ _)) by lia.
  - unfold scan_while. f_equal. f_equal.
    rewrite drop_app_ge by (rewrite length_app; lia). rewrite length_app.
    by replace (length s + length ds + 1 - (length s + length ds)) with 1 by lia.
Qed.

(** Any text splits at a sign and a run of digits. *)
Lemma number_split b0 after :
  ∃ s ds rest, b0 :: after = s ++ ds ++ rest ∧ sign s ∧ forallb is_ascii_digit ds = true ∧
    next_byte is_ascii_digit rest = false ∧ (s = [] → next_byte (is_byte "-") (ds ++ rest) = false).
Proof.
  destruct (is_byte "-" b0) eqn:Em.
  - apply is_byte_spec in Em as ->.
    destruct (run_split is_ascii_digit after) as (ds & rest & -> & Hds & Hr & _).
    exists (lit "-"), ds, rest. split_and!; [done|by right|done..].
  - destruct (run_split is_ascii_digit (b0 :: after)) as (ds & rest & E & Hds & Hr & _).
    exists [], ds, rest. split_and!; [done|by left|done..|]. intros _. rewrite <- E. done.
Qed.

Lemma sign_ascii s : sign s → forallb is_ascii s = true.
Proof. by intros [-> | ->]. Qed.

Lemma digits_ascii ds : forallb is_ascii_digit ds = true → forallb is_ascii ds = true.
Proof. apply forallb_weaken, digit_ascii. Qed.

Lemma match_numeric_sound s n :
  match_numeric s = Ok (Some n) →
  ∃ t rest, s = t ++ rest ∧ t ≠ [] ∧ sql_lexeme t rest ∧ n = length t ∧ forallb is_ascii t = true.
Proof.
  destruct s as [|b0 after]; [done|].
  destruct (number_split b0 after) as (s & ds & rest & E & Hs & Hds & Hr & Hm). rewrite E.
  rewrite (match_numeric_eq _ _ _ Hs Hds Hr Hm) by (by rewrite <- E).
  case_bool_decide as Ed; [done|].
  assert (digits ds) as Hd by done. assert (s ++ ds ≠ []) as Hne by (by destruct s, ds).
  destruct (next_byte (is_byte ".") rest) eqn:Edot.
  - destruct rest as [|c rest]; [done|]. simpl in Edot. apply is_byte_spec in Edot as ->.
    change (drop 1 ("."%char :: rest)) with rest. cbv zeta.
    destruct (run_split is_ascii_digit rest) as (fs & rest' & -> & Hfs & Hr' & ->).
    destruct (length fs =? 0) eqn:Ef; [done|]. apply Nat.eqb_neq in Ef. intros [= <-].
    exists (s ++ ds ++ lit "." ++ fs), rest'. split_and!.
    + by rewrite <- !app_assoc.
    + rewrite app_assoc. destruct (s ++ ds); done.
    + apply lx_decimal; try done. by destruct fs.
    + rewrite !length_app. change (length (lit ".")) with 1. lia.
    + by rewrite !forallb_app, (sign_ascii s), (digits_ascii ds), (digits_ascii fs) by done.
  - intros [= <-]. exists (s ++ ds), rest. split_and!; try done.
    + by rewrite <- app_assoc.
    + apply lx_integer; try done. destruct rest as [|c rest]; [done|]. simpl in Hr, Edot |- *.
      by rewrite Hr, Edot.
    + by rewrite length_app.
    + by rewrite forallb_app, sign_ascii, digits_ascii.
Qed.

Lemma match_numeric_total s : s ≠ [] → ∃ o, match_numeric s = Ok o.
Proof.
  destruct s as [|b0 after]; [done|]. intros Hne.
  destruct (number_split b0 after) as (s & ds & rest & E & Hs & Hds & Hr & Hm). rewrite E in Hne |- *.
  rewrite (match_numeric_eq _ _ _ Hs Hds Hr Hm Hne). eauto.
Qed.

Lemma match_symbolic_sound s n :
  match_symbolic_operator s = Some n →
  ∃ t rest, s = t ++ rest ∧ t ≠ [] ∧ sql_lexeme t rest ∧ n = length t ∧ forallb is_ascii t = true.
Proof.
  assert (∀ b0 rest, (is_byte "=" b0 || is_byte "<" b0 || is_byte ">" b0) = true →
    ((is_byte "!" b0 || is_byte "<" b0 || is_byte ">" b0) && next_byte (is_byte "=") rest) = false →
    ∃ t rest', b0 :: rest = t ++ rest' ∧ t ≠ [] ∧ sql_lexeme t rest' ∧ 1 = length t ∧
      forallb is_ascii t = true) as Hone.
  { intros b0 rest H H2. exists [b0], rest. split_and!; try done.
    - rewrite !orb_true_iff, !is_byte_spec in H. destruct H as [[-> | ->] | ->].
      + apply lx_punct. rewrite list_elem_of_In. simpl. tauto.
      + apply lx_compare; [rewrite list_elem_of_In; simpl; tauto|]. exact H2.
      + apply lx_compare; [rewrite list_elem_of_In; simpl; tauto|]. exact H2.
    - rewrite !orb_true_iff, !is_byte_spec in H. by destruct H as [[-> | ->] | ->]. }
  destruct s as [|b0 [|b1 rest]]; simpl; [done| |].
  - destruct (is_byte "=" b0 || is_byte "<" b0 || is_byte ">" b0) eqn:E; [|done].
    intros [= <-]. apply Hone; [done|]. simpl. by rewrite andb_false_r.
  - destruct ((is_byte "!" b0 || is_byte "<" b0 || is_byte ">" b0) && is_byte "=" b1) eqn:E2.
    + intros [= <-]. apply andb_true_iff in E2 as [E0 E1]. apply is_byte_spec in E1 as ->.
      exists [b0; "="%char], rest. rewrite !orb_true_iff, !is_byte_spec in E0.
      split_and!; try done; [|by destruct E0 as [[-> | ->] | ->]].
      apply lx_compare_eq. rewrite list_elem_of_In. simpl. naive_solver.
    + destruct (is_byte "=" b0 || is_byte "<" b0 || is_byte ">" b0) eqn:E; [|done].
      intros [= <-]. by apply Hone.
Qed.

(** A quoted run: the text up to the next quote, if there is one. *)
Lemma next_string_cases pos rest0 :
  (next_string pos ("'"%char :: rest0) = Err UnterminatedString ∧ "'"%char ∉ rest0) ∨
  ∃ body rest, rest0 = body ++ "'"%char :: rest ∧ "'"%char ∉ body ∧
    next_string pos ("'"%char :: rest0) = Ok (StringLiteral, pos + length ("'"%char :: body ++ lit "'")).
Proof.
  unfold next_string, scan_while. change (drop 1 ("'"%char :: rest0)) with rest0.
  destruct (run_split (λ c, negb (is_byte "'" c)) rest0) as (body & rest & -> & Hb & Hr & ->).
  assert ("'"%char ∉ body) as Hnot.
  { intros Hin. rewrite forallb_forall in Hb.
    specialize (Hb _ (proj1 (list_elem_of_In _ _) Hin)). by rewrite is_byte_refl in Hb. }
  destruct rest as [|c rest].
  - left. rewrite app_nil_r. simpl. by rewrite Nat.leb_refl.
  - right. simpl in Hr. apply negb_false_iff, is_byte_spec in Hr as ->.
    exists body, rest. split_and!; [done..|]. cbn [length]. rewrite !length_app. simpl.
    rewrite (proj2 (Nat.leb_gt _ _)) by lia. do 2 f_equal; lia.
Qed.

(** ** One token *)

Lemma next_other_sound src pos c s tok pos' :
  at_ src pos (c :: s) → next_other src pos c (c :: s) = Ok (tok, pos') →
  ∃ t rest, c :: s = t ++ rest ∧ t ≠ [] ∧ sql_lexeme t rest ∧ at_ src pos' rest.
Proof.
  intros H. unfold next_other.
  destruct (is_ascii_alphabetic c || is_byte "_" c) eqn:Ec.
  - apply next_word_sound; [done|]. simpl. unfold is_word_byte, is_ascii_alphanumeric.
    apply orb_true_iff in Ec as [-> | ->]; [done|by rewrite orb_true_r].
  - unfold reject_run. intros (w & _ & E)%bind_ok_inv. done.
Qed.

Lemma next_allowed_sound src pos c s tok pos' :
  at_ src pos (c :: s) → next_allowed src pos c (c :: s) = Ok (tok, pos') →
  ∃ t rest, c :: s = t ++ rest ∧ t ≠ [] ∧ sql_lexeme t rest ∧ at_ src pos' rest.
Proof.
  intros H. unfold next_allowed.
  assert (∀ d, c = d → d ∈ lit "(),=" → is_ascii d = true →
    ∃ t rest, c :: s = t ++ rest ∧ t ≠ [] ∧ sql_lexeme t rest ∧ at_ src (pos + 1) rest) as Hpunct.
  { intros d -> Hd Ha. exists [d], s. split_and!; [done..|by apply lx_punct|].
    apply (at_ascii _ _ [d] s H). simpl. by rewrite Ha. }
  destruct (is_byte "(" c) eqn:E1.
  { apply is_byte_spec in E1. intros [= <- <-]. apply (Hpunct _ E1); [|done].
    rewrite list_elem_of_In. simpl. tauto. }
  destruct (is_byte ")" c) eqn:E2.
  { apply is_byte_spec in E2. intros [= <- <-]. apply (Hpunct _ E2); [|done].
    rewrite list_elem_of_In. simpl. tauto. }
  destruct (is_byte "," c) eqn:E3.
  { apply is_byte_spec in E3. intros [= <- <-]. apply (Hpunct _ E3); [|done].
    rewrite list_elem_of_In. simpl. tauto. }
  destruct (match_symbolic_operator (c :: s)) as [n|] eqn:Esym.
  { apply match_symbolic_sound in Esym as (t & rest & E & Hne & Ht & -> & Ha).
    intros [= <- <-]. exists t, rest. rewrite E in H |- *. by eauto using at_ascii. }
  destruct (is_byte "'" c) eqn:Eq.
  { apply is_byte_spec in Eq as ->.
    destruct (next_string_cases pos s) as [[-> _]|(body & rest & -> & Hb & ->)]; [done|].
    intros [= <- <-]. exists ("'"%char :: body ++ lit "'"), rest.
    assert ("'"%char :: body ++ "'"%char :: rest = ("'"%char :: body ++ lit "'") ++ rest) as E
      by (simpl; by rewrite <- app_assoc).
    split_and!; [done..|by apply lx_string|]. rewrite E in H. apply (at_jump _ _ _ _ H).
    destruct H as (_ & _ & Hv). rewrite <- E in Hv.
    by apply (valid_utf8_suffix ("'"%char :: body) "'"%char). }
  destruct (is_byte "-" c || is_ascii_digit c) eqn:En; [|by apply next_other_sound].
  intros (o & Eo & E)%bind_ok_inv. destruct o as [n|]; [|by eapply next_other_sound].
  apply match_numeric_sound in Eo as (t & rest & E' & Hne & Ht & -> & Ha).
  injection E as <- <-. exists t, rest. rewrite E' in H |- *. by eauto using at_ascii.
Qed.

Lemma next_token_sound src pos s tok pos' :
  at_ src pos s → next_token src pos = Ok (tok, pos') →
  match tok with
  | None => blanks s
  | Some _ => ∃ ws t rest, s = ws ++ t ++ rest ∧ blanks ws ∧ t ≠ [] ∧ sql_lexeme t rest ∧
      at_ src pos' rest
  end.
Proof.
  intros H. unfold next_token. destruct (skip_sound _ _ _ H) as (ws & s1 & -> & Hws & _ & -> & H1).
  rewrite (at_rest _ _ _ H1). simpl. destruct s1 as [|c s1].
  { intros [= <- <-]. by rewrite app_nil_r. }
  intros ([tk p] & E1 & E2)%bind_ok_inv. injection E2 as <- <-.
  apply next_allowed_sound in E1 as (t & rest & E & Hne & Ht & H2); [|done].
  exists ws, t, rest. by rewrite E.
Qed.

(** ** Completeness of one token *)

Definition word_head (c : ascii) : bool := is_ascii_alphabetic c || is_byte "_" c.

Lemma word_head_facts c :
  word_head c = true →
  (is_byte "(" c || is_byte ")" c || is_byte "," c || is_byte "=" c || is_byte "<" c
   || is_byte ">" c || is_byte "!" c || is_byte "'" c || is_byte "-" c || is_ascii_digit c
   || is_space_byte c) = false.
Proof. byte_cases c; vm_compute; congruence. Qed.

Lemma number_head_facts c :
  (is_byte "-" c || is_ascii_digit c) = true →
  (is_byte "(" c || is_byte ")" c || is_byte "," c || is_byte "=" c || is_byte "<" c
   || is_byte ">" c || is_byte "!" c || is_byte "'" c || is_space_byte c) = false.
Proof. byte_cases c; vm_compute; congruence. Qed.

Ltac byte_facts :=
  repeat match goal with H : _ || _ = false |- _ => apply orb_false_iff in H as [H ?] end.

Lemma match_symbolic_none c s :
  (is_byte "=" c || is_byte "<" c || is_byte ">" c || is_byte "!" c) = false →
  match_symbolic_operator (c :: s) = None.
Proof.
  intros H. byte_facts. destruct s; simpl;
    repeat match goal with E : is_byte _ _ = false |- _ => rewrite E; clear E end; done.
Qed.

Lemma next_allowed_word src pos c s :
  word_head c = true → next_allowed src pos c (c :: s) = next_word_token src pos (c :: s).
Proof.
  intros Hc. pose proof (word_head_facts c Hc) as H. unfold next_allowed, next_other.
  change (is_ascii_alphabetic c || is_byte "_" c) with (word_head c). rewrite Hc.
  rewrite match_symbolic_none by (byte_facts; by repeat (apply orb_false_iff; split)).
  byte_facts. repeat match goal with E : is_byte _ _ = false |- _ => rewrite E; clear E end.
  by match goal with E : is_ascii_digit _ = false |- _ => rewrite E end.
Qed.

Lemma next_allowed_number src pos c s n :
  (is_byte "-" c || is_ascii_digit c) = true → match_numeric (c :: s) = Ok (Some n) →
  next_allowed src pos c (c :: s) = Ok (Numeric, pos + n).
Proof.
  intros Hc E. pose proof (number_head_facts c Hc) as H. unfold next_allowed.
  rewrite match_symbolic_none by (byte_facts; by repeat (apply orb_false_iff; split)).
  rewrite Hc, E. byte_facts.
  by repeat match goal with E : is_byte _ _ = false |- _ => rewrite E; clear E end.
Qed.

Lemma keyword_head k c w :
  keyword_of k (c :: w) → next_byte is_ascii_uppercase k = true → word_head c = true.
Proof.
  intros <-. cbn. unfold word_head. byte_cases c; vm_compute; congruence.
Qed.

Lemma logic_head c w : logic_word (c :: w) → word_head c = true.
Proof.
  unfold logic_word. rewrite !elem_of_cons.
  intros [E|[E|[E|[E|[]%elem_of_nil]]]]; by apply (keyword_head _ _ _ E).
Qed.

Lemma identifier_head c w : is_identifier (c :: w) = true → word_head c = true.
Proof.
  simpl. intros [H _]%andb_true_iff. revert H. unfold is_word_start, word_head, is_ascii_alphabetic.
  intros [-> | ->]%orb_true_iff; [done|by rewrite orb_true_r].
Qed.

(** A number token is what [match_numeric] consumes. *)
Lemma match_numeric_integer s ds rest :
  sign s → digits ds → next_byte (λ c, is_ascii_digit c || is_byte "." c) rest = false →
  match_numeric ((s ++ ds) ++ rest) = Ok (Some (length (s ++ ds))).
Proof.
  intros Hs [Hne Hds] Hr.
  assert (next_byte is_ascii_digit rest = false ∧ next_byte (is_byte ".") rest = false) as [Hr1 Hr2]
    by (destruct rest; [done|]; by apply orb_false_iff).
  rewrite <- app_assoc, match_numeric_eq; [|done..| |].
  - by rewrite bool_decide_eq_false_2, Hr2, length_app by done.
  - intros _. destruct ds as [|d ds]; [done|]. simpl in Hds |- *.
    apply andb_true_iff in Hds as [Hd _]. apply is_byte_false. by intros ->.
  - by destruct s, ds.
Qed.

Lemma match_numeric_decimal s ds fs rest :
  sign s → digits ds → digits fs → next_byte is_ascii_digit rest = false →
  match_numeric ((s ++ ds ++ lit "." ++ fs) ++ rest) = Ok (Some (length (s ++ ds ++ lit "." ++ fs))).
Proof.
  intros Hs [Hne Hds] [Hnf Hfs] Hr. rewrite <- !app_assoc, match_numeric_eq; [|done..| |].
  - rewrite bool_decide_eq_false_2 by done. change (next_byte (is_byte ".") (lit "." ++ fs ++ rest)) with true.
    change (drop 1 (lit "." ++ fs ++ rest)) with (fs ++ rest). cbv zeta. rewrite run_len by done.
    rewrite (proj2 (Nat.eqb_neq _ _)) by (by destruct fs).
    rewrite !length_app. change (length (lit ".")) with 1. do 2 f_equal. lia.
  - intros _. destruct ds as [|d ds]; [done|]. simpl in Hds |- *.
    apply andb_true_iff in Hds as [Hd _]. apply is_byte_false. by intros ->.
  - by destruct s, ds.
Qed.

Lemma number_head s ds rest c t :
  sign s → digits ds → s ++ ds ++ rest = c :: t → (is_byte "-" c || is_ascii_digit c) = true.
Proof.
  intros [-> | ->] [Hne Hds] E; [|by injection E as <- _].
  destruct ds as [|d ds]; [done|]. injection E as <- _. simpl in Hds.
  apply andb_true_iff in Hds as [-> _]. by rewrite orb_true_r.
Qed.

Lemma word_run_ascii w : forallb is_word_byte w = true → forallb is_ascii w = true.
Proof. apply forallb_weaken, word_byte_ascii. Qed.

Lemma punct_ascii c d s : c ∈ s → forallb is_ascii s = true → forallb is_ascii d = true →
  forallb is_ascii (c :: d) = true.
Proof. rewrite list_elem_of_In, forallb_forall. intros Hc Hs Hd. simpl. by rewrite Hs. Qed.

Lemma lexeme_suffix t rest :
  sql_lexeme t rest → valid_utf8 (t ++ rest) = true → valid_utf8 rest = true.
Proof.
  destruct 1 as [c rest Hc|c rest Hc _|c rest Hc|body rest _|s ds rest Hs [_ Hd] _
    |s ds fs rest Hs [_ Hd] [_ Hf] _|w rest Hw _|w rest Hw _ _ _|w ws n rest Hi _ Hb Hn _
    |w ws o ws' n rest Hi _ Hb Ho _ Hb' Hn _].
  1-3: by apply valid_utf8_app_ascii; eapply punct_ascii.
  - cbn [app]. rewrite <- app_assoc. intros Hv. by apply (valid_utf8_suffix ("'"%char :: body) "'"%char).
  - apply valid_utf8_app_ascii. by rewrite forallb_app, (sign_ascii s), (digits_ascii ds).
  - apply valid_utf8_app_ascii. by rewrite !forallb_app, (sign_ascii s), (digits_ascii ds), (digits_ascii fs).
  - by eapply valid_utf8_app_ascii, word_ascii.
  - by eapply valid_utf8_app_ascii, word_ascii.
  - apply valid_utf8_app_ascii. rewrite !forallb_app, (blanks_ascii ws) by done.
    by rewrite (word_run_ascii w (proj2 (is_word _ Hi))), (word_run_ascii n (proj2 (null_word _ Hn))).
  - apply valid_utf8_app_ascii. rewrite !forallb_app, (blanks_ascii ws), (blanks_ascii ws') by done.
    by rewrite (word_run_ascii w (proj2 (is_word _ Hi))), (word_run_ascii o (proj2 (not_word _ Ho))),
      (word_run_ascii n (proj2 (null_word _ Hn))).
Qed.

(** [next_allowed] consumes exactly [t] from [t ++ rest]. *)
Definition takes (src : str) (pos : nat) (t rest : str) : Prop :=
  ∃ c s tok, t ++ rest = c :: s ∧ is_space_byte c = false ∧
    next_allowed src pos c (c :: s) = Ok (tok, pos + length t).

Lemma takes_word src pos t rest tok :
  next_byte word_head t = true → next_word_token src pos (t ++ rest) = Ok (tok, pos + length t) →
  takes src pos t rest.
Proof.
  destruct t as [|c t]; [done|]. simpl. intros Hc E. exists c, (t ++ rest), tok.
  pose proof (word_head_facts c Hc) as Hf. byte_facts. split_and!; [done..|].
  by rewrite next_allowed_word.
Qed.

Lemma takes_number src pos s ds tl rest :
  sign s → digits ds → match_numeric ((s ++ ds ++ tl) ++ rest) = Ok (Some (length (s ++ ds ++ tl))) →
  takes src pos (s ++ ds ++ tl) rest.
Proof.
  intros Hs Hd E. destruct (s ++ ds ++ tl) as [|c t] eqn:Et; [by destruct Hd, s, ds|].
  exists c, (t ++ rest), Numeric. pose proof (number_head _ _ _ _ _ Hs Hd Et) as Hc.
  pose proof (number_head_facts c Hc) as Hf. byte_facts. split_and!; [done..|].
  by apply next_allowed_number.
Qed.

Lemma takes_punct src pos c rest : c ∈ lit "(),=" → takes src pos [c] rest.
Proof.
  intros Hc%list_elem_of_In. simpl in Hc. exists c, rest.
  destruct Hc as [<-|[<-|[<-|[<-|[]]]]]; eexists; (split_and!; [done..|]); try reflexivity.
  unfold next_allowed. by destruct rest.
Qed.

Lemma takes_compare src pos c rest :
  c ∈ lit "<>" → next_byte (is_byte "=") rest = false → takes src pos [c] rest.
Proof.
  intros Hc%list_elem_of_In Hr. simpl in Hc. exists c, rest, Operator.
  split_and!; [done|naive_solver|]. unfold next_allowed.
  destruct rest as [|d rest]; simpl in Hr |- *; [|rewrite Hr]; by destruct Hc as [<-|[<-|[]]].
Qed.

Lemma takes_compare_eq src pos c rest : c ∈ lit "!<>" → takes src pos [c; "="%char] rest.
Proof.
  intros Hc%list_elem_of_In. simpl in Hc. exists c, ("="%char :: rest), Operator.
  split_and!; [done|naive_solver|]. by destruct Hc as [<-|[<-|[<-|[]]]].
Qed.

Lemma first_quote_unique (body b rest r : str) :
  body ++ "'"%char :: rest = b ++ "'"%char :: r → "'"%char ∉ body → "'"%char ∉ b → body = b.
Proof.
  revert b. induction body as [|x body IH]; intros [|y b] E Hb Hq; [done| | |].
  - injection E as <- _. destruct Hq. by left.
  - injection E as -> _. destruct Hb. by left.
  - injection E as -> E. rewrite not_elem_of_cons in Hb, Hq. f_equal. apply IH; [done|apply Hb|apply Hq].
Qed.

Lemma takes_string src pos body rest :
  "'"%char ∉ body → takes src pos ("'"%char :: body ++ lit "'") rest.
Proof.
  intros Hq. exists "'"%char, (body ++ "'"%char :: rest), StringLiteral.
  split_and!; [simpl; by rewrite <- app_assoc|done|].
  unfold next_allowed. rewrite match_symbolic_none by done.
  destruct (next_string_cases pos (body ++ "'"%char :: rest)) as [[_ Hf]|(b & r & E & Hb & Eb)].
  - destruct Hf. apply elem_of_app. right. by left.
  - etransitivity; [exact Eb|]. by rewrite (first_quote_unique _ _ _ _ E Hq Hb).
Qed.

Lemma takes_logic src pos w rest :
  at_ src pos (w ++ rest) → word w rest → logic_word w → takes src pos w rest.
Proof.
  intros H Hw Hl. apply (takes_word _ _ _ _ Operator).
  - destruct w as [|c w]; [by destruct Hw|]. by apply (logic_head c w).
  - rewrite (next_word_eq _ _ _ _ H Hw). by rewrite bool_decide_eq_true_2.
Qed.

Lemma takes_identifier src pos w rest :
  at_ src pos (w ++ rest) → word w rest → is_identifier w = true → ¬ logic_word w →
  ¬ keyword_of (lit "IS") w → takes src pos w rest.
Proof.
  intros H Hw Hi Hl Hk. apply (takes_word _ _ _ _ (Identifier w)).
  - destruct w as [|c w]; [done|]. by eapply identifier_head.
  - rewrite (next_word_eq _ _ _ _ H Hw). by rewrite !bool_decide_eq_false_2, Hi.
Qed.

(** An [IS] token starts with the word [IS], and the [IS] arm is taken. *)
Lemma takes_is src pos w s rest tok :
  at_ src pos (w ++ s ++ rest) → keyword_of (lit "IS") w →
  next_byte is_word_byte (s ++ rest) = false →
  (at_ src (pos + length w) (s ++ rest) →
   next_is src (pos + length w) = Ok (tok, pos + length w + length s)) →
  takes src pos (w ++ s) rest.
Proof.
  intros H Hi Hs E. destruct (is_word _ Hi) as [Hne Hw]. assert (word w (s ++ rest)) as Hwd by done.
  apply (takes_word _ _ _ _ tok).
  - destruct w as [|c w]; [done|]. by apply (keyword_head _ _ _ Hi).
  - rewrite <- app_assoc, (next_word_eq _ _ _ _ H Hwd), Hi. simpl. rewrite E, length_app.
    + by rewrite Nat.add_assoc.
    + by eapply at_ascii, word_ascii.
Qed.

Lemma lexeme_takes src pos t rest :
  at_ src pos (t ++ rest) → sql_lexeme t rest → takes src pos t rest.
Proof.
  intros H Hlx. destruct Hlx as [c rest Hc|c rest Hc Hn|c rest Hc|body rest Hq|s ds rest Hs Hd Hn
    |s ds fs rest Hs Hd Hf Hn|w rest Hw Hl|w rest Hw Hi Hl Hk|w ws n rest Hi Hne Hb Hn Hr
    |w ws o ws' n rest Hi Hne Hb Ho Hne' Hb' Hn Hr].
  - by apply takes_punct.
  - by apply takes_compare.
  - by apply takes_compare_eq.
  - by apply takes_string.
  - rewrite <- (app_nil_r ds). apply takes_number; [done..|]. rewrite app_nil_r.
    by apply match_numeric_integer.
  - apply takes_number; [done..|]. by apply match_numeric_decimal.
  - by apply takes_logic.
  - by apply takes_identifier.
  - rewrite <- !app_assoc in H. apply (takes_is _ _ _ _ _ Operator); rewrite <- ?app_assoc;
      [done..|by apply blanks_next_word|intros H1; by eapply next_is_complete_null].
  - rewrite <- !app_assoc in H. apply (takes_is _ _ _ _ _ Operator); rewrite <- ?app_assoc;
      [done..|by apply blanks_next_word|intros H1; by eapply next_is_complete_not_null].
Qed.

Lemma lexeme_nonempty t rest : sql_lexeme t rest → t ≠ [].
Proof.
  destruct 1 as [c rest Hc|c rest Hc _|c rest Hc|body rest _|s ds rest _ [Hd _] _
    |s ds fs rest _ [Hd _] _ _|w rest [Hw _] _|w rest [Hw _] _ _ _|w ws n rest Hi _ _ _ _
    |w ws o ws' n rest Hi _ _ _ _ _ _ _]; try done.
  - by destruct s, ds.
  - by destruct s, ds.
  - destruct (is_word _ Hi). by destruct w.
  - destruct (is_word _ Hi). by destruct w.
Qed.

Lemma next_token_complete src pos ws t rest :
  at_ src pos (ws ++ t ++ rest) → blanks ws → sql_lexeme t rest →
  ∃ tok pos', next_token src pos = Ok (Some tok, pos') ∧ at_ src pos' rest ∧ length rest < length (ws ++ t ++ rest).
Proof.
  intros H Hb Hlx. unfold next_token.
  assert (at_ src (pos + length ws) (t ++ rest)) as H1 by (by apply at_ascii, blanks_ascii).
  destruct (lexeme_takes _ _ _ _ H1 Hlx) as (c & s & tok & E & Hc & Ht). rewrite E in H, H1.
  destruct (skip_complete _ _ _ _ H Hb Hc) as [-> _]. rewrite (at_rest _ _ _ H1). simpl. rewrite Ht.
  simpl. do 2 eexists. split; [reflexivity|]. rewrite <- E in H1. split.
  - apply (at_jump _ _ _ _ H1), (lexeme_suffix _ _ Hlx). by destruct H1 as (_ & _ & ?).
  - rewrite !length_app. pose proof (lexeme_nonempty _ _ Hlx). destruct t; [done|simpl; lia].
Qed.

(** ** The whole text *)

Lemma next_token_end src pos ws :
  at_ src pos ws → blanks ws → ∃ pos', next_token src pos = Ok (None, pos').
Proof.
  intros H Hb. rewrite <- (app_nil_r ws) in H. unfold next_token.
  destruct (skip_complete _ _ _ _ H Hb eq_refl) as [-> H1]. rewrite (at_rest _ _ _ H1). by eexists.
Qed.

Lemma token_loop_sound fuel src pos s :
  at_ src pos s → token_loop fuel src pos = Ok tt → sql_text s.
Proof.
  revert pos s. induction fuel as [|fuel IH]; intros pos s H; [done|]. cbn [token_loop].
  intros ([tok pos'] & E & Hl)%bind_ok_inv. apply (next_token_sound _ _ _ _ _ H) in E.
  destruct tok as [tok|]; [|by apply st_end].
  destruct E as (ws & t & rest & -> & Hws & _ & Ht & H1). apply st_token; eauto.
Qed.

Lemma token_loop_complete s :
  sql_text s → ∀ fuel src pos, at_ src pos s → length s < fuel → token_loop fuel src pos = Ok tt.
Proof.
  induction 1 as [ws Hws|ws t rest Hws Ht _ IH]; intros [|fuel] src pos H Hlen; try lia; cbn [token_loop].
  - destruct (next_token_end _ _ _ H Hws) as [pos' ->]. done.
  - destruct (next_token_complete _ _ _ _ _ H Hws Ht) as (tok & pos' & -> & H1 & Hlt). simpl.
    apply IH; [done|lia].
Qed.

(** The tokenizer does not run out of fuel, and on ASCII text it does not panic. *)
Lemma reject_run_returns {A} s : valid_utf8 s = true → forallb is_ascii s = true →
  returns (reject_run (A:=A) s).
Proof.
  intros Hv Ha. unfold reject_run. set (n := Nat.min _ _).
  assert (n ≤ length s) as Hn
    by (pose proof (prefix_len_le (λ c, negb (is_space_byte c)) s); lia).
  destruct (decide (n = 0)) as [->|Hn0].
  { rewrite slice_ok; [done|lia|..]; (destruct s as [|c s]; [done|]); by unfold is_char_boundary. }
  rewrite <- (take_drop n s) in Ha, Hv |- *. rewrite forallb_app in Ha.
  apply andb_true_iff in Ha as [Ha _].
  assert (length (take n s) = n) as Hlen by (rewrite length_take; lia).
  rewrite <- Hlen at 3. rewrite slice_ascii; [done| |done..]. intros E. rewrite E in Hlen. simpl in Hlen. lia.
Qed.

Lemma next_is_returns src pos s : at_ src pos s → returns (next_is src pos).
Proof.
  intros H. unfold next_is. destruct (skip_sound _ _ _ H) as (ws & s1 & -> & _ & _ & -> & H1).
  rewrite (at_rest _ _ _ H1). simpl.
  destruct (word_len_cases s1) as [[-> _]|(w & rest & -> & Hw & Hlen & Hl0)]; [done|].
  rewrite (slice_word _ _ _ _ H1 Hw), Hlen, (proj2 (Nat.eqb_neq _ _)) by done. simpl.
  case_bool_decide; [done|]. case_bool_decide; [|done].
  pose proof (at_ascii _ _ _ _ H1 (word_ascii _ _ Hw)) as Hat.
  destruct (skip_sound _ _ _ Hat) as (ws' & s2 & -> & _ & _ & -> & H3).
  rewrite (at_rest _ _ _ H3). simpl.
  destruct (word_len_cases s2) as [[-> _]|(n & rest' & -> & Hw' & Hlen' & Hl0')]; [done|].
  rewrite (slice_word _ _ _ _ H3 Hw'), Hlen', (proj2 (Nat.eqb_neq _ _)) by done. simpl.
  by destruct (eq_ignore_ascii_case n (lit "NULL")).
Qed.

Lemma next_word_returns src pos c s :
  at_ src pos (c :: s) → is_word_byte c = true → returns (next_word_token src pos (c :: s)).
Proof.
  intros H Hc. destruct (word_len_cases (c :: s)) as [[_ Hf]|(w & rest & E & Hw & _ & _)].
  { simpl in Hf. congruence. }
  rewrite E in H |- *. rewrite (next_word_eq _ _ _ _ H Hw).
  case_bool_decide; [done|]. case_bool_decide; [|by destruct (is_identifier w)].
  eapply next_is_returns, at_ascii; [done|by eapply word_ascii].
Qed.

Lemma next_other_returns src pos c s :
  at_ src pos (c :: s) → forallb is_ascii (c :: s) = true → returns (next_other src pos c (c :: s)).
Proof.
  intros H Ha. unfold next_other. destruct (is_ascii_alphabetic c || is_byte "_" c) eqn:Ec.
  - apply next_word_returns; [done|]. unfold is_word_byte, is_ascii_alphanumeric.
    apply orb_true_iff in Ec as [-> | ->]; [done|by rewrite orb_true_r].
  - apply reject_run_returns; [by destruct H as (_ & _ & ?)|done].
Qed.

Lemma next_token_returns src pos s :
  at_ src pos s → forallb is_ascii s = true → returns (next_token src pos).
Proof.
  intros H Ha. unfold next_token. destruct (skip_sound _ _ _ H) as (ws & s1 & -> & _ & _ & -> & H1).
  rewrite (at_rest _ _ _ H1). simpl. rewrite forallb_app in Ha. apply andb_true_iff in Ha as [_ Ha].
  destruct s1 as [|c s1]; [done|]. apply bind_returns; [|by intros [? ?] _].
  unfold next_allowed. repeat case_match; try done.
  - unfold next_string. by case_match.
  - apply bind_returns; [by destruct (match_numeric_total (c :: s1)) as [o ->]|].
    intros [n|] _; [done|by apply next_other_returns].
  - by apply next_other_returns.
Qed.

Lemma token_loop_returns s : ∀ fuel src pos,
  at_ src pos s → forallb is_ascii s = true → length s < fuel → returns (token_loop fuel src pos).
Proof.
  induction (well_founded_ltof _ length s) as [s _ IH]. intros [|fuel] src pos H Ha Hlen; [lia|].
  cbn [token_loop]. apply bind_returns; [by eapply next_token_returns|].
  intros [tok pos'] E. apply (next_token_sound _ _ _ _ _ H) in E. destruct tok as [tok|]; [|done].
  destruct E as (ws & t & rest & -> & _ & Hne & _ & H1).
  rewrite !forallb_app in Ha. apply andb_true_iff in Ha as [_ Ha]. apply andb_true_iff in Ha as [_ Ha].
  assert (length rest < length (ws ++ t ++ rest)) as Hlt
    by (rewrite !length_app; destruct t; [done|simpl; lia]).
  apply (IH rest); [done..|lia].
Qed.

(** Running out of fuel is ruled out on every text, ASCII or not. *)
Lemma slice_no_fuel {E} s i j : slice (E:=E) s i j ≠ OutOfFuel.
Proof. unfold slice. by destruct (_ && _). Qed.

Lemma next_token_no_fuel src pos s : at_ src pos s → next_token src pos ≠ OutOfFuel.
Proof.
  intros H. unfold next_token. destruct (skip_sound _ _ _ H) as (ws & s1 & -> & _ & _ & -> & H1).
  rewrite (at_rest _ _ _ H1). simpl. destruct s1 as [|c s1]; [done|].
  assert (next_other src (pos + length ws) c (c :: s1) ≠ OutOfFuel) as Hother.
  { unfold next_other, reject_run. destruct (is_ascii_alphabetic c || is_byte "_" c) eqn:Ec.
    - intros E. assert (is_word_byte c = true) as Hw.
      { unfold is_word_byte, is_ascii_alphanumeric.
        apply orb_true_iff in Ec as [-> | ->]; [done|by rewrite orb_true_r]. }
      pose proof (next_word_returns _ _ _ _ H1 Hw) as Hr. by rewrite E in Hr.
    - pose proof (slice_no_fuel (E:=FilterError) (c :: s1) 0
        (32 `min` prefix_len (λ c0, negb (is_space_byte c0)) (c :: s1))) as Hs.
      by destruct (slice _ _ _). }
  assert (next_allowed src (pos + length ws) c (c :: s1) ≠ OutOfFuel) as Ha.
  { unfold next_allowed. repeat case_match; try done.
    - unfold next_string. by case_match.
    - destruct (match_numeric_total (c :: s1)) as [[n|] ->]; done. }
  by destruct (next_allowed _ _ _ _) as [[]| | |].
Qed.

Lemma token_loop_no_fuel s : ∀ fuel src pos,
  at_ src pos s → length s < fuel → token_loop fuel src pos ≠ OutOfFuel.
Proof.
  induction (well_founded_ltof _ length s) as [s _ IH]. intros [|fuel] src pos H Hlen; [lia|].
  cbn [token_loop]. pose proof (next_token_no_fuel _ _ _ H) as Hn.
  destruct (next_token src pos) as [[tok pos']| | |] eqn:E; try done. simpl.
  apply (next_token_sound _ _ _ _ _ H) in E. destruct tok as [tok|]; [|done].
  destruct E as (ws & t & rest & -> & _ & Hne & _ & H1).
  assert (length rest < length (ws ++ t ++ rest)) as Hlt
    by (rewrite !length_app; destruct t; [done|simpl; lia]).
  apply (IH rest); [done..|lia].
Qed.

(** ** The scanners *)

(** Is the position after [u] inside a string literal? *)
Definition quoted_from (q : bool) (u : str) : bool :=
  fold_left (λ q c, if is_byte "'" c then negb q else q) u q.
Definition quoted (u : str) : bool := quoted_from false u.

(** No word runs into the position after [u]. *)
Definition word_boundary (u : str) : Prop :=
  ∀ u' c, u = u' ++ [c] → is_word_byte c = false.

Definition followable (w : str) : Prop :=
  to_ascii_uppercase w ∈ KEYWORDS_FOLLOWABLE_BY_PAREN.

(** Outside string literals, a word that no keyword allows is directly followed by an
    opening parenthesis. *)
Definition ends_in_call (p : str) : Prop :=
  ∃ u w, p = u ++ w ∧ word_boundary u ∧ quoted u = false ∧ w ≠ [] ∧
    forallb is_word_byte w = true ∧ ¬ followable w.
Definition has_call (sql : str) : Prop := ∃ p v, sql = p ++ "("%char :: v ∧ ends_in_call p.

(** Outside string literals, the keyword [k] stands as a word, in any case. *)
Definition has_keyword (k sql : str) : Prop :=
  ∃ u w v, sql = u ++ w ++ v ∧ keyword_of k w ∧ quoted u = false ∧ word_boundary u ∧
    next_byte is_word_byte v = false.

Lemma quoted_app u v : quoted (u ++ v) = quoted_from (quoted u) v.
Proof. unfold quoted, quoted_from. apply fold_left_app. Qed.

Lemma quoted_word q w : forallb is_word_byte w = true → quoted_from q w = q.
Proof.
  unfold quoted_from. induction w as [|c w IH]; [done|]. simpl. intros [Hc Hw]%andb_true_iff.
  assert (is_byte "'" c = false) as -> by (apply is_byte_false; by intros ->). by apply IH.
Qed.

Lemma quoted_snoc u c : quoted (u ++ [c]) = if is_byte "'" c then negb (quoted u) else quoted u.
Proof. by rewrite quoted_app. Qed.

Lemma boundary_nil : word_boundary [].
Proof. intros u' c E. by destruct u'. Qed.

Lemma boundary_snoc u c : word_boundary (u ++ [c]) ↔ is_word_byte c = false.
Proof.
  split; [intros H; by apply (H u)|]. intros Hc u' c' E. by apply app_inj_2 in E as [_ [= ->]].
Qed.

Lemma boundary_dec u : word_boundary u ∨ ∃ u' c, u = u' ++ [c] ∧ is_word_byte c = true.
Proof.
  destruct u as [|c u _] using rev_ind; [left; apply boundary_nil|].
  destruct (is_word_byte c) eqn:E; [right; eauto|left; by apply boundary_snoc].
Qed.

(** The word that ends a text is determined by the text. *)
Lemma last_word_unique u w u' w' :
  u ++ w = u' ++ w' → word_boundary u → word_boundary u' →
  forallb is_word_byte w = true → forallb is_word_byte w' = true → u = u' ∧ w = w'.
Proof.
  assert (∀ u w d u' w', u = u' ++ d → w' = d ++ w → word_boundary u →
    forallb is_word_byte w' = true → d = []) as Haux.
  { intros v x d v' x' -> -> Hb Hw. destruct d as [|c d _] using rev_ind; [done|].
    rewrite app_assoc in Hb. apply boundary_snoc in Hb.
    rewrite !forallb_app in Hw. simpl in Hw. rewrite Hb in Hw. simpl in Hw.
    by rewrite andb_false_r in Hw. }
  intros E Hu Hu' Hw Hw'. apply app_eq_app in E as (d & [[E1 E2]|[E1 E2]]);
    pose proof (Haux _ _ _ _ _ E1 E2) as Hd; rewrite Hd in E1, E2 by done;
    rewrite app_nil_r in E1; simpl in E2; split; congruence.
Qed.

Lemma keyword_followable w : is_keyword_followable_by_paren w = true ↔ followable w.
Proof.
  assert (∀ k, In k KEYWORDS_FOLLOWABLE_BY_PAREN → to_ascii_uppercase k = k) as Hup
    by (by intros k [<-|[<-|[<-|[<-|[]]]]]).
  unfold is_keyword_followable_by_paren, followable. rewrite existsb_exists.
  setoid_rewrite eq_ignore_upper. setoid_rewrite bool_decide_eq_true. split.
  - intros (k & Hk & ->). by rewrite (Hup k Hk), list_elem_of_In.
  - intros H%list_elem_of_In. exists (to_ascii_uppercase w). by rewrite (Hup _ H).
Qed.

(** The [word_start] variable after the bytes [p]. *)
Definition word_start_ok (p : str) (ws : option nat) : Prop :=
  match ws with
  | Some st => ∃ u w, p = u ++ w ∧ st = length u ∧ word_boundary u ∧ quoted u = false ∧
      w ≠ [] ∧ forallb is_word_byte w = true
  | None => quoted p = true ∨ word_boundary p
  end.

Lemma call_word u w :
  word_boundary u → quoted u = false → w ≠ [] → forallb is_word_byte w = true →
  ends_in_call (u ++ w) ↔ ¬ followable w.
Proof.
  intros Hb Hq Hne Hw. split.
  - intros (u' & w' & E & Hb' & _ & _ & Hw' & Hf).
    apply last_word_unique in E as [_ ->]; done.
  - intros Hf. by exists u, w.
Qed.

Lemma no_call_none p : word_start_ok p None → ¬ ends_in_call p.
Proof.
  intros Hp (u & w & -> & Hb & Hq & Hne & Hw & _). destruct Hp as [Hp|Hp].
  - rewrite quoted_app, Hq, quoted_word in Hp by done. done.
  - destruct w as [|c w _] using rev_ind; [done|]. rewrite app_assoc in Hp.
    apply boundary_snoc in Hp. rewrite forallb_app in Hw. simpl in Hw. rewrite Hp in Hw.
    by rewrite andb_false_r in Hw.
Qed.

(** A call found after [p], one byte further. *)
Definition call_after (p v : str) : Prop :=
  ∃ v1 v2, v = v1 ++ "("%char :: v2 ∧ ends_in_call (p ++ v1).

Lemma call_after_cons p b v :
  call_after p (b :: v) ↔ (b = "("%char ∧ ends_in_call p) ∨ call_after (p ++ [b]) v.
Proof.
  split.
  - intros ([|c v1] & v2 & E & H); injection E as -> ->.
    + rewrite app_nil_r in H. by left.
    + right. exists v1, v2. by rewrite <- app_assoc.
  - intros [[-> H]|(v1 & v2 & -> & H)].
    + exists [], v. by rewrite app_nil_r.
    + exists (b :: v1), v2. rewrite <- app_assoc in H. done.
Qed.

Lemma function_call_loop_spec v : ∀ p ws,
  word_start_ok p ws →
  function_call_loop (p ++ v) (zip v (mask_from (quoted p) v)) (length p) ws = true ↔ call_after p v.
Proof.
  induction v as [|b v IH]; intros p ws Hws.
  { simpl. split; [done|]. intros (v1 & v2 & E & _). by destruct v1. }
  assert (∀ ws', word_start_ok (p ++ [b]) ws' →
    function_call_loop (p ++ b :: v) (zip v (mask_from (quoted (p ++ [b])) v)) (S (length p)) ws' = true
    ↔ call_after (p ++ [b]) v) as Hrec.
  { intros ws' H'. rewrite <- (IH (p ++ [b]) ws' H'). rewrite <- app_assoc, length_app. simpl.
    by rewrite Nat.add_1_r. }
  rewrite call_after_cons. cbn [mask_from]. rewrite quoted_snoc in Hrec.
  destruct (is_byte "'" b) eqn:Eq.
  { apply is_byte_spec in Eq as ->. cbn [zip zip_with function_call_loop].
    rewrite Hrec by (right; by apply boundary_snoc).
    split; [by right|]. intros [[E _]|H]; [discriminate E|done]. }
  cbn [zip zip_with function_call_loop]. destruct (quoted p) eqn:Eqp.
  { rewrite Hrec by (left; by rewrite quoted_snoc, Eq, Eqp).
    split; [by right|]. intros [[_ H]|H]; [|done]. exfalso.
    apply (no_call_none p); [by left|done]. }
  destruct (is_word_byte b) eqn:Eb.
  { rewrite Hrec; [split; [by right|]; intros [[-> _]|H]; [by vm_compute in Eb|done]|].
    destruct ws as [st|]; simpl in Hws |- *.
    - destruct Hws as (u & w & -> & -> & ? & ? & ? & Hw). exists u, (w ++ [b]).
      split_and!; [by rewrite app_assoc|done|done|done|by destruct w|].
      rewrite forallb_app, Hw. simpl. by rewrite Eb.
    - destruct Hws as [?|Hws]; [congruence|]. exists p, [b]. split_and!; try done. simpl. by rewrite Eb. }
  assert (word_start_ok (p ++ [b]) None) as Hnone by (right; by apply boundary_snoc).
  destruct (is_byte "(" b) eqn:Ep; [apply is_byte_spec in Ep as ->|].
  2: { simpl. rewrite Hrec by done. apply is_byte_false in Ep. naive_solver. }
  destruct ws as [st|]; simpl.
  2: { rewrite Hrec by done. pose proof (no_call_none p Hws). naive_solver. }
  destruct Hws as (u & w & -> & -> & Hb & Hq & Hne & Hw).
  replace (take (length (u ++ w) - length u) (drop (length u) ((u ++ w) ++ "("%char :: v))) with w.
  2: { rewrite <- app_assoc, drop_app_length, length_app.
       replace (length u + length w - length u) with (length w) by lia. by rewrite take_app_length. }
  rewrite (call_word u w), <- keyword_followable by done.
  destruct (is_keyword_followable_by_paren w); simpl; [|naive_solver]. rewrite Hrec by done. naive_solver.
Qed.

Lemma contains_function_call_spec sql : contains_function_call sql = true ↔ has_call sql.
Proof.
  unfold contains_function_call, string_literal_mask.
  rewrite (function_call_loop_spec sql [] None) by (right; apply boundary_nil). done.
Qed.

Lemma mask_lookup s : ∀ q i,
  masked_at (mask_from q s) i =
  match s !! i with Some c => is_byte "'" c || quoted_from q (take i s) | None => false end.
Proof.
  unfold masked_at. induction s as [|c s IH]; intros q [|i]; try done; cbn [mask_from].
  - simpl. by destruct (is_byte "'" c).
  - destruct (is_byte "'" c) eqn:E; simpl; rewrite IH; unfold quoted_from; simpl; by rewrite E.
Qed.

Lemma forallb_imap_pair (P : nat * ascii → bool) k :
  forallb P (imap (λ j b, (j, b)) k) = true ↔ ∀ j b, k !! j = Some b → P (j, b) = true.
Proof.
  rewrite forallb_forall. split.
  - intros H j b Hj. apply H, list_elem_of_In, list_elem_of_lookup. exists j.
    by rewrite list_lookup_imap, Hj.
  - intros H [j b] [j' Hj]%list_elem_of_In%list_elem_of_lookup.
    rewrite list_lookup_imap in Hj. apply fmap_Some in Hj as (b' & Hb & [= -> ->]). eauto.
Qed.

Lemma upper_eq_lookup w k :
  length w = length k →
  to_ascii_uppercase w = to_ascii_uppercase k ↔
  ∀ j a b, w !! j = Some a → k !! j = Some b → byte_eq_ignore_case a b = true.
Proof.
  intros Hlen. unfold to_ascii_uppercase, byte_eq_ignore_case. setoid_rewrite Ascii.eqb_eq. split.
  - intros E j a b Ha Hb. apply (f_equal (lookup j)) in E.
    rewrite !list_lookup_fmap, Ha, Hb in E. by injection E.
  - intros H. eapply list_eq_same_length; [reflexivity|by rewrite !length_fmap|].
    intros j x y _. rewrite !list_lookup_fmap. intros Hx Hy.
    apply fmap_Some in Hx as (a & Ha & ->). apply fmap_Some in Hy as (b & Hb & ->). eauto.
Qed.

Lemma boundary_byte u s :
  (0 <? length u) && byte_is is_word_byte (u ++ s) (length u - 1) = false ↔ word_boundary u.
Proof.
  destruct u as [|c u _] using rev_ind; [split; [intros _; apply boundary_nil|done]|].
  rewrite boundary_snoc, length_app. simpl. replace (length u + 1 - 1) with (length u) by lia.
  rewrite <- app_assoc, byte_is_next. simpl. by rewrite (proj2 (Nat.ltb_lt _ _)) by lia.
Qed.

Lemma after_byte u v :
  (length u <? length (u ++ v)) && byte_is is_word_byte (u ++ v) (length u) = false ↔
  next_byte is_word_byte v = false.
Proof.
  rewrite byte_is_next, length_app. destruct v as [|c v]; simpl.
  - by rewrite andb_false_r.
  - by rewrite (proj2 (Nat.ltb_lt _ _)) by lia.
Qed.

Lemma keyword_at_spec k u w v :
  k ≠ [] → forallb is_word_byte k = true → length w = length k →
  keyword_at (u ++ w ++ v) k (string_literal_mask (u ++ w ++ v)) (length u) = true ↔
  to_ascii_uppercase w = to_ascii_uppercase k ∧ quoted u = false ∧ word_boundary u ∧
  next_byte is_word_byte v = false.
Proof.
  intros Hne Hk Hlen. unfold keyword_at, string_literal_mask.
  rewrite !andb_true_iff, !negb_true_iff, boundary_byte, <- Hlen.
  rewrite <- length_app, app_assoc, after_byte, <- app_assoc, forallb_imap_pair, upper_eq_lookup by done.
  assert (∀ j c, w !! j = Some c → masked_at (mask_from false (u ++ w ++ v)) (length u + j) =
    is_byte "'" c || quoted_from (quoted u) (take j w)) as Hmask.
  { intros j c Hj. rewrite mask_lookup, lookup_app_r by lia.
    replace (length u + j - length u) with j by lia.
    rewrite (lookup_app_l_Some _ _ _ _ Hj). f_equal. rewrite take_app_ge by lia.
    replace (length u + j - length u) with j by lia. apply lookup_lt_Some in Hj.
    rewrite take_app_le by lia. apply quoted_app. }
  assert (∀ j c, w !! j = Some c → (u ++ w ++ v) !! (length u + j) = Some c) as Hat.
  { intros j c Hj. rewrite lookup_app_r by lia. replace (length u + j - length u) with j by lia.
    by apply lookup_app_l_Some. }
  split.
  - intros [[[Hm Hb] Hall] Hv]. destruct w as [|c w]; [by destruct k|].
    assert (quoted u = false) as Hq.
    { rewrite <- (Nat.add_0_r (length u)), (Hmask 0 c) in Hm by done.
      by apply orb_false_iff in Hm as [_ ?]. }
    split_and!; [|done..]. intros j a b Ha Hkb. specialize (Hall j b Hkb). cbv beta iota in Hall.
    apply andb_true_iff in Hall as [_ Hall]. unfold byte_is in Hall. by rewrite (Hat _ _ Ha) in Hall.
  - intros (Heq & Hq & Hb & Hv). pose proof Heq as E. rewrite <- upper_eq_lookup in E by done.
    assert (forallb is_word_byte w = true) as Hw by (by rewrite <- upper_word, E, upper_word).
    assert (∀ j c, w !! j = Some c → masked_at (mask_from false (u ++ w ++ v)) (length u + j) = false) as Hm.
    { intros j c Hj. rewrite (Hmask _ _ Hj), Hq. apply orb_false_iff. rewrite forallb_forall in Hw. split.
      - apply is_byte_false. intros ->. specialize (Hw "'"%char).
        rewrite <- list_elem_of_In in Hw. by discriminate (Hw (list_elem_of_lookup_2 _ _ _ Hj)).
      - apply quoted_word, forallb_forall. intros x Hx. apply Hw. rewrite <- (take_drop j w).
        apply in_app_iff. by left. }
    split; [split; [split|]|]; try done.
    + destruct w as [|c w]; [by destruct k|]. rewrite <- (Nat.add_0_r (length u)). by apply (Hm 0 c).
    + intros j b Hj. destruct (w !! j) as [c|] eqn:Hc.
      * rewrite (Hm _ _ Hc). simpl. unfold byte_is. rewrite (Hat _ _ Hc). by apply (Heq j).
      * apply lookup_ge_None in Hc. apply lookup_lt_Some in Hj. lia.
Qed.

Lemma contains_keyword_spec k sql :
  k ≠ [] → forallb is_word_byte k = true → to_ascii_uppercase k = k →
  contains_keyword_ci sql k = true ↔ has_keyword k sql.
Proof.
  intros Hne Hk Hup. unfold contains_keyword_ci, has_keyword, keyword_of. split.
  - destruct (length sql <? length k) eqn:El; [done|]. apply Nat.ltb_ge in El.
    intros (i & Hi & H)%existsb_exists. apply in_seq in Hi.
    exists (take i sql), (take (length k) (drop i sql)), (drop (length k) (drop i sql)).
    assert (sql = take i sql ++ take (length k) (drop i sql) ++ drop (length k) (drop i sql)) as E
      by (by rewrite !take_drop).
    rewrite E in H at 1 2. replace i with (length (take i sql)) in H at 7 by (rewrite length_take; lia).
    apply keyword_at_spec in H as (Hw & ? & ? & ?); [|done..|rewrite length_take, length_drop; lia].
    rewrite Hup in Hw. done.
  - intros (u & w & v & -> & Hw & Hq & Hb & Hv).
    assert (length w = length k) as Hlen.
    { rewrite <- Hw. unfold to_ascii_uppercase. by rewrite length_fmap. }
    rewrite (proj2 (Nat.ltb_ge _ _)) by (rewrite !length_app; lia).
    apply existsb_exists. exists (length u). split; [apply in_seq; rewrite !length_app; lia|].
    apply keyword_at_spec; [done..|]. by rewrite Hup, Hw.
Qed.

(** ** What an accepted text is made of *)

Definition plain_byte (c : ascii) : bool :=
  is_word_byte c || is_blank c || existsb (is_byte c) (lit "(),=!<>.-").
Definition allowed_byte (c : ascii) : bool := plain_byte c || is_byte "'" c.

(** Every byte outside the string literals is allowed, and the last literal is closed. *)
Definition only_allowed (s : str) : Prop :=
  quoted s = false ∧ ∀ u c v, s = u ++ c :: v → quoted u = false → allowed_byte c = true.

Lemma plain_not_quote c : plain_byte c = true → is_byte "'" c = false.
Proof. byte_cases c; vm_compute; congruence. Qed.

Lemma only_allowed_plain t : forallb plain_byte t = true → only_allowed t.
Proof.
  intros Ht. split.
  - assert (∀ q, quoted_from q t = q) as Hq; [|apply Hq]. unfold quoted_from.
    induction t as [|c t IH]; [done|]. simpl in Ht |- *. apply andb_true_iff in Ht as [Hc Ht].
    intros q. by rewrite (plain_not_quote c Hc), (IH Ht).
  - intros u c v -> _. rewrite forallb_app in Ht. simpl in Ht. unfold allowed_byte.
    apply andb_true_iff in Ht as [_ Ht]. by apply andb_true_iff in Ht as [-> _].
Qed.

Lemma only_allowed_app s t : only_allowed s → only_allowed t → only_allowed (s ++ t).
Proof.
  intros [Hs Ha] [Ht Hb]. split; [by rewrite quoted_app, Hs|].
  intros u c v E Hu. apply app_eq_app in E as (d & [[-> E]|[-> E]]).
  - destruct d as [|x d]; [apply (Hb [] c v); [done|done]|]. injection E as <- ->.
    by apply (Ha u c d).
  - apply (Hb d c v E). by rewrite quoted_app, Hs in Hu.
Qed.

Lemma only_allowed_string body : "'"%char ∉ body → only_allowed ("'"%char :: body ++ lit "'").
Proof.
  intros Hb. assert (∀ u v, body = u ++ v → quoted ("'"%char :: u) = true) as Hq.
  { intros u v ->. unfold quoted, quoted_from. simpl. revert Hb. clear.
    induction u as [|c u IH]; [done|]. simpl. rewrite not_elem_of_cons. intros [Hc Hu].
    by rewrite (proj2 (is_byte_false "'" c)), IH by done. }
  split.
  - change ("'"%char :: body ++ lit "'") with (("'"%char :: body) ++ ["'"%char]).
    rewrite quoted_snoc, (Hq body []); [done|by rewrite app_nil_r].
  - intros [|q u] c v E Hu; injection E as <- E; [done|].
    apply app_eq_app in E as (d & [[-> E]|[-> E]]).
    + by rewrite (Hq u d) in Hu.
    + destruct d as [|x d]; injection E as <- E; [done|by destruct d].
Qed.

Lemma word_plain w : forallb is_word_byte w = true → forallb plain_byte w = true.
Proof. apply forallb_weaken. intros c Hc. unfold plain_byte. by rewrite Hc. Qed.

Lemma digits_plain w : forallb is_ascii_digit w = true → forallb plain_byte w = true.
Proof. intros H. by apply word_plain, (forallb_weaken is_ascii_digit), H; apply digit_word. Qed.

Lemma blanks_plain w : blanks w → forallb plain_byte w = true.
Proof. apply forallb_weaken. intros c Hc. unfold plain_byte. by rewrite Hc, orb_true_r. Qed.

Lemma punct_plain c s : c ∈ s → forallb plain_byte s = true → plain_byte c = true.
Proof. rewrite list_elem_of_In, forallb_forall. eauto. Qed.

Lemma sign_plain s : sign s → forallb plain_byte s = true.
Proof. by intros [-> | ->]. Qed.

Lemma lexeme_allowed t rest : sql_lexeme t rest → only_allowed t.
Proof.
  destruct 1 as [c rest Hc|c rest Hc _|c rest Hc|body rest Hq|s ds rest Hs [_ Hd] _
    |s ds fs rest Hs [_ Hd] [_ Hf] _|w rest Hw _|w rest Hw _ _ _|w ws n rest Hi _ Hb Hn _
    |w ws o ws' n rest Hi _ Hb Ho _ Hb' Hn _].
  4: by apply only_allowed_string.
  all: apply only_allowed_plain; rewrite ?forallb_app; cbn [forallb].
  1-3: by rewrite (punct_plain _ _ Hc).
  - by rewrite sign_plain, digits_plain.
  - by rewrite (sign_plain s Hs), (digits_plain ds Hd), (digits_plain fs Hf).
  - apply word_plain, Hw.
  - apply word_plain, Hw.
  - by rewrite (word_plain w (proj2 (is_word _ Hi))), (word_plain n (proj2 (null_word _ Hn))), blanks_plain.
  - by rewrite (word_plain w (proj2 (is_word _ Hi))), (word_plain o (proj2 (not_word _ Ho))),
      (word_plain n (proj2 (null_word _ Hn))), (blanks_plain ws Hb), (blanks_plain ws' Hb').
Qed.

Lemma sql_text_allowed s : sql_text s → only_allowed s.
Proof.
  induction 1 as [ws Hws|ws t rest Hws Ht _ IH]; [by apply only_allowed_plain, blanks_plain|].
  apply only_allowed_app; [by apply only_allowed_plain, blanks_plain|].
  apply only_allowed_app; [by eapply lexeme_allowed|done].
Qed.

(** ** The validator *)

Definition occurs (pat s : str) : Prop := ∃ u t, s = u ++ pat ++ t.

Lemma contains_false s pat : contains s pat = false ↔ ¬ occurs pat s.
Proof. unfold occurs. rewrite <- contains_spec. by destruct (contains s pat). Qed.

Lemma false_iff (b : bool) (P : Prop) : (b = true ↔ P) → (b = false ↔ ¬ P).
Proof. intros <-. by destruct b. Qed.

Lemma select_keyword_spec sql : contains_select_keyword sql = true ↔ has_keyword (lit "SELECT") sql.
Proof. by apply contains_keyword_spec. Qed.

Lemma at_start sql : valid_utf8 sql = true → at_ sql 0 sql.
Proof. intros Hv. split_and!; [lia|by rewrite drop_0|done]. Qed.

(** Past the six rejections the result is the token loop's. *)
Lemma validate_cases sql :
  validate_filter_sql sql = token_loop (S (length sql)) sql 0 ∨
  ∃ e, validate_filter_sql sql = Err e.
Proof.
  unfold validate_filter_sql. rewrite !reject_bind.
  repeat match goal with |- context [if ?b then _ else _] => destruct b; [right; by eexists|] end.
  by left.
Qed.


(** Nothing escapes the allowlist: in an accepted text every string
    literal is closed, and every byte outside the literals is a word byte, ASCII white
    space, or one of the listed punctuation marks. *)
Theorem filter_sql_bytes sql :
  valid_utf8 sql = true → validate_filter_sql sql = Ok tt → only_allowed sql.
Proof.
  intros Hv H. apply sql_text_allowed.
  destruct (validate_cases sql) as [E|[e E]]; rewrite E in H; [|done].
  by apply (token_loop_sound _ _ _ _ (at_start sql Hv)) in H.
Qed.

Lemma ascii_valid s : forallb is_ascii s = true → valid_utf8 s = true.
Proof.
  induction s as [|c s IH]; [done|]. cbn [forallb valid_utf8]. intros [-> Hs]%andb_true_iff. by apply IH.
Qed.

Lemma ascii_filter_returns sql : forallb is_ascii sql = true → returns (validate_filter_sql sql).
Proof.
  intros Ha. destruct (validate_cases sql) as [-> | [e ->]]; [|done]. 
  by apply (token_loop_returns sql); [by apply at_start, ascii_valid| |lia].
Qed.

(** The validator terminates on every text, and returns (accepting or
    with an error) on every ASCII text; when it panics the text was not one to accept. *)
Theorem filter_sql_total sql :
  valid_utf8 sql = true →
  validate_filter_sql sql ≠ OutOfFuel ∧
  (forallb is_ascii sql = true → returns (validate_filter_sql sql)) ∧
  (validate_filter_sql sql = Panics → ¬ sql_text sql).
Proof.
  intros Hv. pose proof (at_start sql Hv) as Hat.
  destruct (validate_cases sql) as [-> | [e ->]]; [|done].
  assert (length sql < S (length sql)) as Hl by lia. split_and!.
  - by apply (token_loop_no_fuel sql).
  - intros Ha. by apply (token_loop_returns sql).
  - intros E Ht. by rewrite (token_loop_complete _ Ht) in E.
Qed.

Definition sample_filter : str :=
  lit "platform = 'mobile' AND (d >= -0.5 OR x IN('US', 'FR')) and c is not null".


Lemma filter_sql_bytes_witness : only_allowed sample_filter.
Proof. apply (filter_sql_bytes sample_filter); vm_compute; reflexivity. Defined.

Lemma filter_sql_total_witness : returns (validate_filter_sql sample_filter).
Proof. apply (filter_sql_total sample_filter); vm_compute; reflexivity. Defined.
