(* ===== verification/ConfigCache.v ===== *)
(** The live configuration cache of the assignment service
    ([experimentation-assignment/src/config_cache.rs]): the maps the stream task
    keeps, the snapshot its readers see, and the updates that change them. *)
From Stdlib Require Import Ascii String.
From S2P Require Import Prelude Bytes F64 Config.

(** ** The wire messages ([proto/experimentation/common/v1/experiment.proto]) *)

Record Variant := mk_variant
  { v_variant_id : str; v_traffic_fraction : f64; v_is_control : bool; v_payload_json : str }.

(** The fields the cache reads; the two enums arrive as [i32]. *)
Record Experiment := mk_experiment
  { p_experiment_id : str; p_name : str; p_state : Z; p_type : Z; p_hash_salt : str;
    p_layer_id : str; p_variants : list Variant; p_is_cumulative_holdout : bool }.

Record ConfigUpdate := mk_config_update
  { cu_experiment : option Experiment; cu_is_deletion : bool; cu_version : Z }.

(** [ExperimentState::try_from(i32)] and [as_str_name], as the enum declares them. *)
Definition state_str_name (n : Z) : option str :=
  match n with
  | 0 => Some (lit "EXPERIMENT_STATE_UNSPECIFIED") | 1 => Some (lit "EXPERIMENT_STATE_DRAFT")
  | 2 => Some (lit "EXPERIMENT_STATE_STARTING") | 3 => Some (lit "EXPERIMENT_STATE_RUNNING")
  | 4 => Some (lit "EXPERIMENT_STATE_CONCLUDING") | 5 => Some (lit "EXPERIMENT_STATE_CONCLUDED")
  | 6 => Some (lit "EXPERIMENT_STATE_ARCHIVED") | 7 => Some (lit "EXPERIMENT_STATE_PAUSED")
  | _ => None
  end%Z.

Definition type_str_name (n : Z) : option str :=
  match n with
  | 0 => Some (lit "EXPERIMENT_TYPE_UNSPECIFIED") | 1 => Some (lit "EXPERIMENT_TYPE_AB")
  | 2 => Some (lit "EXPERIMENT_TYPE_MULTIVARIATE") | 3 => Some (lit "EXPERIMENT_TYPE_INTERLEAVING")
  | 4 => Some (lit "EXPERIMENT_TYPE_SESSION_LEVEL") | 5 => Some (lit "EXPERIMENT_TYPE_PLAYBACK_QOE")
  | 6 => Some (lit "EXPERIMENT_TYPE_MAB") | 7 => Some (lit "EXPERIMENT_TYPE_CONTEXTUAL_BANDIT")
  | 8 => Some (lit "EXPERIMENT_TYPE_CUMULATIVE_HOLDOUT") | 9 => Some (lit "EXPERIMENT_TYPE_META")
  | 10 => Some (lit "EXPERIMENT_TYPE_SWITCHBACK") | 11 => Some (lit "EXPERIMENT_TYPE_QUASI")
  | _ => None
  end%Z.

(** [str::strip_prefix]. *)
Definition strip_prefix (pre s : str) : option str :=
  if starts_with pre s then Some (drop (length pre) s) else None.

Definition short_name (pre : str) (name : option str) : str :=
  match name with
  | Some n => default n (strip_prefix pre n)
  | None => lit "UNSPECIFIED"
  end.

(** ** Conversion *)

Definition variant_from_proto {E : Type} (v : Variant) : result E VariantConfig :=
  _ ← assert_finite (v_traffic_fraction v);
  mret (mk_variant_config (v_variant_id v) (v_traffic_fraction v) (v_is_control v) (v_payload_json v)).

Fixpoint variants_from_proto {E : Type} (vs : list Variant) : result E (list VariantConfig) :=
  match vs with
  | [] => mret []
  | v :: vs => v ← variant_from_proto v; vs ← variants_from_proto vs; mret (v :: vs)
  end.

(** The stream carries no allocation: a known experiment keeps its own, an unknown one
    gets every bucket of a default layer. *)
Definition default_allocation : AllocationConfig := mk_allocation_config 0 9999.

Definition experiment_from_proto {E : Type} (p : Experiment) (existing : option ExperimentConfig) :
    result E ExperimentConfig :=
  vs ← variants_from_proto (p_variants p);
  mret (mk_experiment_config (p_experiment_id p) (p_name p)
    (short_name (lit "EXPERIMENT_STATE_") (state_str_name (p_state p)))
    (short_name (lit "EXPERIMENT_TYPE_") (type_str_name (p_type p)))
    (p_hash_salt p) (p_layer_id p) vs
    (match existing with Some e => allocation e | None => default_allocation end)
    (existing ≫= targeting_rule) (existing ≫= session_config)
    (existing ≫= interleaving_config) (existing ≫= bandit_config)
    (p_is_cumulative_holdout p) (existing ≫= switchback_config)
    (existing ≫= meta_experiment_config)).

(** ** The cache *)

(** The order in which [HashMap::values] visits a map is unspecified: it is an argument
    of every rebuild, known only to visit each value once. *)
Record HashOrder := mk_hash_order
  { experiment_values : gmap str ExperimentConfig → list ExperimentConfig;
    layer_values : gmap str LayerConfig → list LayerConfig;
    experiment_values_perm m : experiment_values m ≡ₚ (map_to_list m).*2;
    layer_values_perm m : layer_values m ≡ₚ (map_to_list m).*2 }.

(** [published] is the value the watch channel holds, what [snapshot] returns. *)
Record ConfigCache := mk_config_cache
  { published : Config; cc_experiments : gmap str ExperimentConfig;
    cc_layers : gmap str LayerConfig; last_version : Z }.

Definition new (initial : Config) : ConfigCache :=
  mk_config_cache initial (index_by experiment_id (experiments initial))
    (index_by lc_layer_id (layers initial)) 0.

Definition snapshot (c : ConfigCache) : Config := published c.

Definition publish (o : HashOrder) (c : ConfigCache) : ConfigCache :=
  mk_config_cache
    (from_experiments_and_layers (experiment_values o (cc_experiments c)) (layer_values o (cc_layers c)))
    (cc_experiments c) (cc_layers c) (last_version c).

(** A layer the cache does not know is registered with the schema's default size. *)
Definition register_layer (layer_id : str) (layers : gmap str LayerConfig) : gmap str LayerConfig :=
  if bool_decide (layer_id ≠ [] ∧ layers !! layer_id = None)
  then <[layer_id := mk_layer_config layer_id 10000]> layers else layers.

Definition apply_maps {E : Type} (u : ConfigUpdate) (es : gmap str ExperimentConfig)
    (ls : gmap str LayerConfig) : result E (gmap str ExperimentConfig * gmap str LayerConfig) :=
  let exp_id := match cu_experiment u with Some p => p_experiment_id p | None => [] end in
  if cu_is_deletion u then mret (delete exp_id es, ls)
  else match cu_experiment u with
  | Some p =>
      e ← experiment_from_proto p (es !! exp_id);
      mret (<[exp_id := e]> es, register_layer (layer_id e) ls)
  | None => mret (es, ls)
  end.

Definition apply_update {E : Type} (o : HashOrder) (u : ConfigUpdate) (c : ConfigCache) :
    result E ConfigCache :=
  '(es, ls) ← apply_maps u (cc_experiments c) (cc_layers c);
  let version := if (last_version c <? cu_version u)%Z then cu_version u else last_version c in
  mret (publish o (mk_config_cache (published c) es ls version)).

(** The stream task: one update after the other. *)
Fixpoint apply_updates {E : Type} (us : list (HashOrder * ConfigUpdate)) (c : ConfigCache) :
    result E ConfigCache :=
  match us with
  | [] => mret c
  | (o, u) :: us => c ← apply_update o u c; apply_updates us c
  end.

(** ** The cache and its snapshot agree *)

Definition config_ok (c : Config) : Prop :=
  experiments_by_id c = index_by experiment_id (experiments c) ∧
  layers_by_id c = index_by lc_layer_id (layers c).

Record cache_ok (c : ConfigCache) : Prop := mk_cache_ok
  { ok_experiments : experiments_by_id (published c) = cc_experiments c;
    ok_layers : layers_by_id (published c) = cc_layers c;
    ok_published : config_ok (published c);
    ok_experiment_keys k e : cc_experiments c !! k = Some e → experiment_id e = k;
    ok_layer_keys k l : cc_layers c !! k = Some l → lc_layer_id l = k }.

Section values.
Context {A : Type} (key : A → str) (m : gmap str A) (l : list A).
Context (Hkey : ∀ k e, m !! k = Some e → key e = k) (Hperm : l ≡ₚ (map_to_list m).*2).

Lemma values_elem e : e ∈ l ↔ m !! key e = Some e.
Proof using Hkey Hperm.
  rewrite Hperm, list_elem_of_fmap. split.
  - intros ([k e'] & -> & Hk%elem_of_map_to_list). simpl. by rewrite (Hkey _ _ Hk).
  - intros He. exists (key e, e). by rewrite elem_of_map_to_list.
Qed.

Lemma values_keys_nodup : NoDup (key <$> l).
Proof using Hkey Hperm.
  rewrite Hperm, <- list_fmap_compose.
  replace ((key ∘ snd) <$> map_to_list m) with ((map_to_list m).*1).
  - apply NoDup_fst_map_to_list.
  - apply list_fmap_ext. intros i [k e] Hi%list_elem_of_lookup_2%elem_of_map_to_list.
    simpl. symmetry. by apply Hkey.
Qed.

(** Rebuilding the index of the values gives back the map, whatever the order. *)
Lemma index_by_values : index_by key l = m.
Proof using Hkey Hperm.
  apply map_eq. intros k. destruct (m !! k) as [e|] eqn:Hk.
  - pose proof (Hkey _ _ Hk) as <-.
    apply index_by_nodup; [apply values_keys_nodup|by apply values_elem].
  - destruct (index_by key l !! k) as [e|] eqn:He; [|done].
    apply index_by_elem in He as [He <-]. apply values_elem in He. congruence.
Qed.
End values.

Lemma index_by_key {A} (key : A → str) l k e : index_by key l !! k = Some e → key e = k.
Proof. intros H. by apply index_by_elem in H as [_ ?]. Qed.

Lemma new_ok c : config_ok c → cache_ok (new c).
Proof. intros [He Hl]. constructor; simpl; try done; apply index_by_key. Qed.

Lemma experiment_from_proto_id {E : Type} p ex e :
  experiment_from_proto (E:=E) p ex = Ok e → experiment_id e = p_experiment_id p ∧ layer_id e = p_layer_id p.
Proof. unfold experiment_from_proto. intros (vs & _ & [= <-])%bind_ok_inv. done. Qed.

Lemma register_layer_lookup lid ls k :
  register_layer lid ls !! k =
  if bool_decide (k = lid ∧ lid ≠ [] ∧ ls !! lid = None) then Some (mk_layer_config lid 10000)
  else ls !! k.
Proof.
  unfold register_layer. repeat case_bool_decide; try naive_solver.
  - destruct H0 as [-> _]. by rewrite lookup_insert_eq.
  - rewrite lookup_insert_ne; [done|]. naive_solver.
Qed.

(** The maps after an update keep their keys. *)
Lemma apply_maps_keys {E : Type} u es ls es' ls' :
  apply_maps (E:=E) u es ls = Ok (es', ls') →
  (∀ k e, es !! k = Some e → experiment_id e = k) →
  (∀ k l, ls !! k = Some l → lc_layer_id l = k) →
  (∀ k e, es' !! k = Some e → experiment_id e = k) ∧
  (∀ k l, ls' !! k = Some l → lc_layer_id l = k).
Proof.
  unfold apply_maps. intros H Hes Hls. destruct (cu_is_deletion u); [injection H as <- <-|].
  { split; [|done]. intros k e [_ ?]%lookup_delete_Some. eauto. }
  destruct (cu_experiment u) as [p|]; [|by injection H as <- <-].
  apply bind_ok_inv in H as (e & He & [= <- <-]).
  apply experiment_from_proto_id in He as [Hid _]. split.
  - intros k e' [[<- <-]|[_ ?]]%lookup_insert_Some; eauto.
  - intros k l. rewrite register_layer_lookup. case_bool_decide; [|eauto].
    destruct H as [-> _]. by intros [= <-].
Qed.

Lemma publish_ok o c :
  (∀ k e, cc_experiments c !! k = Some e → experiment_id e = k) →
  (∀ k l, cc_layers c !! k = Some l → lc_layer_id l = k) → cache_ok (publish o c).
Proof.
  intros He Hl. constructor; simpl; try done.
  - by apply index_by_values; [|apply experiment_values_perm].
  - by apply index_by_values; [|apply layer_values_perm].
Qed.

Lemma apply_update_inv {E : Type} o u c c' :
  apply_update (E:=E) o u c = Ok c' →
  ∃ es ls, apply_maps (E:=E) u (cc_experiments c) (cc_layers c) = Ok (es, ls) ∧
    cc_experiments c' = es ∧ cc_layers c' = ls ∧
    last_version c' = Z.max (last_version c) (cu_version u) ∧
    published c' = from_experiments_and_layers (experiment_values o es) (layer_values o ls).
Proof.
  unfold apply_update. intros ([es ls] & Hm & [= <-])%bind_ok_inv. exists es, ls.
  split_and!; try done. simpl. destruct (Z.ltb_spec (last_version c) (cu_version u)); lia.
Qed.

Lemma apply_update_ok {E : Type} o u c c' :
  cache_ok c → apply_update (E:=E) o u c = Ok c' → cache_ok c'.
Proof.
  intros [_ _ _ He Hl]. unfold apply_update. intros ([es ls] & Hm & [= <-])%bind_ok_inv.
  destruct (apply_maps_keys _ _ _ _ _ Hm He Hl). by apply publish_ok.
Qed.

Lemma apply_updates_ok {E : Type} us : ∀ c c',
  cache_ok c → apply_updates (E:=E) us c = Ok c' → cache_ok c'.
Proof.
  induction us as [|[o u] us IH]; intros c c' Hc; simpl; [by intros [= <-]|].
  intros (c1 & H1 & H)%bind_ok_inv. eapply IH; [|done]. by eapply apply_update_ok.
Qed.
