(* ===== verification/ConfigCacheSpec.v ===== *)
(** What the live configuration cache promises to the assignment service: its snapshots
    are consistent, an update changes one experiment only, and a stopped or deleted
    experiment is no longer served. *)
From Stdlib Require Import Ascii String.
From S2P Require Import Prelude Bytes F64 Config Targeting Hash HashSpec Rng Assignment ConfigCache.

(** The experiment an update is about. *)
Definition update_id (u : ConfigUpdate) : str :=
  match cu_experiment u with Some p => p_experiment_id p | None => [] end.

(** An update that deletes the experiment or says it is in another state than RUNNING. *)
Definition revokes (u : ConfigUpdate) : Prop :=
  cu_is_deletion u = true ∨ ∃ p, cu_experiment u = Some p ∧ p_state p ≠ 3%Z.

Definition finite_variants (p : Experiment) : bool :=
  forallb (λ v, f64_is_finite (v_traffic_fraction v)) (p_variants p).

(** The entry an update writes. *)
Definition streamed (p : Experiment) (existing : option ExperimentConfig) : ExperimentConfig :=
  mk_experiment_config (p_experiment_id p) (p_name p)
    (short_name (lit "EXPERIMENT_STATE_") (state_str_name (p_state p)))
    (short_name (lit "EXPERIMENT_TYPE_") (type_str_name (p_type p)))
    (p_hash_salt p) (p_layer_id p)
    ((λ v, mk_variant_config (v_variant_id v) (v_traffic_fraction v) (v_is_control v) (v_payload_json v))
       <$> p_variants p)
    (match existing with Some e => allocation e | None => default_allocation end)
    (existing ≫= targeting_rule) (existing ≫= session_config)
    (existing ≫= interleaving_config) (existing ≫= bandit_config)
    (p_is_cumulative_holdout p) (existing ≫= switchback_config)
    (existing ≫= meta_experiment_config).

Lemma variants_from_proto_eq {E : Type} vs :
  variants_from_proto (E:=E) vs =
  if forallb (λ v, f64_is_finite (v_traffic_fraction v)) vs
  then Ok ((λ v, mk_variant_config (v_variant_id v) (v_traffic_fraction v) (v_is_control v)
                   (v_payload_json v)) <$> vs)
  else Panics.
Proof.
  induction vs as [|v vs IH]; [done|]. cbn [variants_from_proto forallb].
  unfold variant_from_proto, assert_finite.
  destruct (f64_is_finite (v_traffic_fraction v)); simpl; [|done]. rewrite IH.
  by destruct (forallb _ vs).
Qed.

Lemma experiment_from_proto_eq {E : Type} p ex :
  experiment_from_proto (E:=E) p ex = if finite_variants p then Ok (streamed p ex) else Panics.
Proof.
  unfold experiment_from_proto, finite_variants. rewrite variants_from_proto_eq.
  by destruct (forallb _ _).
Qed.

Lemma state_running n :
  short_name (lit "EXPERIMENT_STATE_") (state_str_name n) = lit "RUNNING" ↔ n = 3%Z.
Proof.
  split; [|by intros ->]. unfold state_str_name.
  repeat (case_match; try (vm_compute; congruence)).
Qed.

(** ** One update *)

Lemma apply_maps_other {E : Type} u es ls es' ls' k :
  apply_maps (E:=E) u es ls = Ok (es', ls') → k ≠ update_id u → es' !! k = es !! k.
Proof.
  unfold apply_maps, update_id. intros H Hk. destruct (cu_is_deletion u).
  { injection H as <- <-. by rewrite lookup_delete_ne by done. }
  destruct (cu_experiment u) as [p|]; [|by injection H as <- <-].
  apply bind_ok_inv in H as (e & _ & [= <- <-]). by rewrite lookup_insert_ne by done.
Qed.

Lemma apply_maps_layers {E : Type} u es ls es' ls' k l :
  apply_maps (E:=E) u es ls = Ok (es', ls') → ls !! k = Some l → ls' !! k = Some l.
Proof.
  unfold apply_maps. intros H Hk. destruct (cu_is_deletion u); [by injection H as <- <-|].
  destruct (cu_experiment u) as [p|]; [|by injection H as <- <-].
  apply bind_ok_inv in H as (e & _ & [= <- <-]). rewrite register_layer_lookup.
  case_bool_decide as Hc; [|done]. destruct Hc as (-> & _ & Hc). congruence.
Qed.

Lemma apply_maps_revoked {E : Type} u es ls es' ls' :
  apply_maps (E:=E) u es ls = Ok (es', ls') → revokes u →
  ∀ e, es' !! update_id u = Some e → state e ≠ lit "RUNNING".
Proof.
  unfold apply_maps, update_id. intros H Hr e.
  destruct (cu_is_deletion u) eqn:Ed.
  { injection H as <- <-. by rewrite lookup_delete_eq. }
  destruct Hr as [?|(p & Ep & Hp)]; [congruence|]. rewrite Ep in H |- *.
  apply bind_ok_inv in H as (e' & He & [= <- <-]). rewrite lookup_insert_eq. intros [= <-].
  rewrite experiment_from_proto_eq in He. destruct (finite_variants p); [|done].
  injection He as <-. simpl. by rewrite state_running.
Qed.

Section service.
Context {R : Type} `{Rng R}.
Context (select_arm : option (str → str → gmap str f64 → option ArmSelectionResult)).
Notation assign := (Assignment.assign select_arm).

(** [assign] reads its experiment and that experiment's layer, and nothing else. *)
Lemma assign_local cfg cfg' now id user session attrs :
  experiments_by_id cfg !! id = experiments_by_id cfg' !! id →
  (∀ e, experiments_by_id cfg !! id = Some e →
     layers_by_id cfg !! layer_id e = layers_by_id cfg' !! layer_id e) →
  assign cfg now id user session attrs = assign cfg' now id user session attrs.
Proof.
  intros He Hl. unfold Assignment.assign. rewrite <- He.
  destruct (experiments_by_id cfg !! id) as [e|]; [|done]. simpl. by rewrite <- (Hl e).
Qed.

Lemma assign_not_running cfg now id user session attrs :
  (∀ e, experiments_by_id cfg !! id = Some e → state e ≠ lit "RUNNING") →
  assign cfg now id user session attrs =
  Err (mk_status NotFound (ExperimentMissing id)) ∨
  assign cfg now id user session attrs = Ok (empty_assignment id false).
Proof.
  intros Hs. unfold Assignment.assign. destruct (experiments_by_id cfg !! id) as [e|]; [|by left].
  right. simpl. assert (is_lit (state e) "RUNNING" = false) as ->; [|done].
  apply bool_decide_eq_false. by apply Hs.
Qed.

(** ** Runs of updates *)

Lemma updates_others {E : Type} us id : ∀ c c',
  apply_updates (E:=E) us c = Ok c' → Forall (λ ou, update_id ou.2 ≠ id) us →
  cc_experiments c' !! id = cc_experiments c !! id ∧
  ∀ k l, cc_layers c !! k = Some l → cc_layers c' !! k = Some l.
Proof.
  induction us as [|[o u] us IH]; intros c c'; simpl; [by intros [= <-] _|].
  intros (c1 & H1 & Hrest)%bind_ok_inv [Hu Hus]%Forall_cons.
  apply apply_update_inv in H1 as (es & ls & Hm & <- & <- & _).
  destruct (IH _ _ Hrest Hus) as [He Hl]. split.
  - rewrite He. by eapply apply_maps_other.
  - intros k l Hk. by eapply Hl, apply_maps_layers.
Qed.

Lemma updates_version {E : Type} us : ∀ c c',
  apply_updates (E:=E) us c = Ok c' →
  last_version c' = foldr (λ ou v, Z.max (cu_version ou.2) v) (last_version c) us.
Proof.
  induction us as [|[o u] us IH]; intros c c'; simpl; [by intros [= <-]|].
  intros (c1 & H1 & Hrest)%bind_ok_inv. rewrite (IH _ _ Hrest).
  apply apply_update_inv in H1 as (es & ls & _ & _ & _ & -> & _). clear.
  induction us as [|[o' u'] us IH]; simpl; lia.
Qed.

(** Every snapshot a reader can see is consistent: after any run of updates
    the lookup maps of the published configuration are the cache's own maps and are
    the indexes of the published lists, which hold each experiment once, whatever
    order the hash maps are visited in; and the version is the largest seen. *)
Theorem snapshot_consistent {E : Type} initial us c :
  config_ok initial → apply_updates (E:=E) us (new initial) = Ok c →
  experiments_by_id (snapshot c) = cc_experiments c ∧
  layers_by_id (snapshot c) = cc_layers c ∧ config_ok (snapshot c) ∧
  (us ≠ [] → NoDup (experiment_id <$> experiments (snapshot c)) ∧
     ∀ e, e ∈ experiments (snapshot c) ↔
          experiments_by_id (snapshot c) !! experiment_id e = Some e) ∧
  last_version c = foldr (λ ou v, Z.max (cu_version ou.2) v) 0%Z us.
Proof.
  intros Hi Hus. pose proof (apply_updates_ok us _ _ (new_ok _ Hi) Hus) as [He Hl Hc Hk _].
  split_and!; try done; [|by apply updates_version in Hus].
  destruct us as [|ou us _] using rev_ind; [done|]. intros _.
  assert (∀ us c c', apply_updates (E:=E) (us ++ [ou]) c = Ok c' →
    ∃ c0, apply_update (E:=E) ou.1 ou.2 c0 = Ok c') as Hlast.
  { clear. induction us as [|[o u] us IH]; intros c c'; simpl.
    - destruct ou as [o u]. intros (c1 & H1 & [= <-])%bind_ok_inv. eauto.
    - intros (c1 & _ & Hr)%bind_ok_inv. eauto. }
  apply Hlast in Hus as (c0 & Hus).
  apply apply_update_inv in Hus as (es & ls & _ & Hes & _ & _ & Hp).
  unfold snapshot in *. rewrite He, Hes in *. rewrite Hp. simpl. split.
  - eapply values_keys_nodup; [done|apply experiment_values_perm].
  - intros e. apply values_elem; [done|apply experiment_values_perm].
Qed.

(** What one update does: a deletion removes the experiment; an upsert with
    finite traffic fractions writes the streamed entry, which keeps the allocation
    and the configurations the stream does not carry, and registers an unknown layer;
    a non-finite fraction panics before anything is published. *)
Theorem apply_update_functional {E : Type} o u c :
  cache_ok c →
  let id := update_id u in
  match apply_update (E:=E) o u c with
  | Ok c' =>
      experiments_by_id (snapshot c') =
        (if cu_is_deletion u then delete id (experiments_by_id (snapshot c))
         else match cu_experiment u with
              | Some p => <[id := streamed p (experiments_by_id (snapshot c) !! id)]>
                            (experiments_by_id (snapshot c))
              | None => experiments_by_id (snapshot c)
              end) ∧
      layers_by_id (snapshot c') =
        (if cu_is_deletion u then layers_by_id (snapshot c)
         else match cu_experiment u with
              | Some p => register_layer (p_layer_id p) (layers_by_id (snapshot c))
              | None => layers_by_id (snapshot c)
              end)
  | Panics => cu_is_deletion u = false ∧
      ∃ p, cu_experiment u = Some p ∧ finite_variants p = false
  | Err _ | OutOfFuel => False
  end.
Proof.
  intros Hc id. unfold apply_update.
  assert (∀ es ls v, apply_maps (E:=E) u (cc_experiments c) (cc_layers c) = Ok (es, ls) →
    cache_ok (publish o (mk_config_cache (published c) es ls v))) as Hok.
  { intros es ls v Hm. destruct (apply_maps_keys _ _ _ _ _ Hm (ok_experiment_keys _ Hc)
      (ok_layer_keys _ Hc)). by apply publish_ok. }
  destruct (apply_maps u (cc_experiments c) (cc_layers c)) as [[es ls]|e| |] eqn:Hm; simpl.
  1: { specialize (Hok es ls
         (if (last_version c <? cu_version u)%Z then cu_version u else last_version c) eq_refl).
       pose proof (ok_experiments _ Hok) as H1. pose proof (ok_layers _ Hok) as H2.
       unfold snapshot. rewrite (ok_experiments _ Hc), (ok_layers _ Hc).
       simpl in H1, H2. rewrite H1, H2. clear Hok H1 H2. revert Hm. unfold apply_maps, id, update_id.
       destruct (cu_is_deletion u); [by intros [= <- <-]|].
       destruct (cu_experiment u) as [p|]; [|by intros [= <- <-]].
       rewrite experiment_from_proto_eq. by destruct (finite_variants p); intros [= <- <-]. }
  all: revert Hm; unfold apply_maps; destruct (cu_is_deletion u); [done|];
    destruct (cu_experiment u) as [p|]; [|done]; rewrite experiment_from_proto_eq;
    destruct (finite_variants p) eqn:Ef; try done. eauto.
Qed.

(** Updates are isolated: a run of updates about other experiments does not
    change what any user is assigned in an experiment whose layer is known. *)
Theorem updates_isolated {E : Type} us c c' now id user session attrs :
  cache_ok c → apply_updates (E:=E) us c = Ok c' → Forall (λ ou, update_id ou.2 ≠ id) us →
  (∀ e, experiments_by_id (snapshot c) !! id = Some e →
     is_Some (layers_by_id (snapshot c) !! layer_id e)) →
  assign (snapshot c') now id user session attrs = assign (snapshot c) now id user session attrs.
Proof.
  intros Hc Hus Hid Hlayer. pose proof (apply_updates_ok us _ _ Hc Hus) as Hc'.
  destruct (updates_others us id _ _ Hus Hid) as [He Hl]. unfold snapshot in *.
  symmetry. apply assign_local.
  - by rewrite (ok_experiments _ Hc), (ok_experiments _ Hc').
  - intros e Hlk. destruct (Hlayer e Hlk) as [l Hll]. rewrite Hll. symmetry.
    rewrite (ok_layers _ Hc'). apply Hl. by rewrite <- (ok_layers _ Hc).
Qed.

(** [C26] Revocation is durable: from the update that deletes an experiment or
    takes it out of RUNNING on, until another update for it arrives, no user is
    assigned a variant of it; the call answers "not found" or "inactive". *)
Theorem revocation_durable {E : Type} o u us c c' now user session attrs :
  cache_ok c → apply_updates (E:=E) ((o, u) :: us) c = Ok c' → revokes u →
  Forall (λ ou, update_id ou.2 ≠ update_id u) us →
  assign (snapshot c') now (update_id u) user session attrs =
    Err (mk_status NotFound (ExperimentMissing (update_id u))) ∨
  assign (snapshot c') now (update_id u) user session attrs = Ok (empty_assignment (update_id u) false).
Proof.
  intros Hc Hall Hr Hus. pose proof (apply_updates_ok _ _ _ Hc Hall) as Hc'.
  simpl in Hall. apply bind_ok_inv in Hall as (c1 & H1 & H2).
  apply assign_not_running. intros e. unfold snapshot. rewrite (ok_experiments _ Hc').
  destruct (updates_others us _ _ _ H2 Hus) as [-> _].
  apply apply_update_inv in H1 as (es & ls & Hm & -> & _). by eapply apply_maps_revoked.
Qed.
End service.

(** ** Witnesses, and two streams that surprise *)

Definition key_order : HashOrder :=
  mk_hash_order (λ m, (map_to_list m).*2) (λ m, (map_to_list m).*2)
    (λ m, Permutation_refl _) (λ m, Permutation_refl _).

Definition half : f64 := f64_ratio 1 2.
Definition two_arms : list Variant :=
  [mk_variant (lit "control") half true (lit "{}"); mk_variant (lit "treatment") half false (lit "{}")].

Definition streamed_ab (id : str) (st : Z) : Experiment :=
  mk_experiment id (lit "name") st 1 (lit "salt") (lit "layer-1") two_arms false.

Definition upsert (id : str) (st version : Z) : HashOrder * ConfigUpdate :=
  (key_order, mk_config_update (Some (streamed_ab id st)) false version).

Definition empty_config : Config := from_experiments_and_layers [] [].

Lemma empty_config_ok : config_ok empty_config.
Proof. by split. Qed.

Definition after (us : list (HashOrder * ConfigUpdate)) : ConfigCache :=
  match apply_updates (E:=unit) us (new empty_config) with Ok c => c | _ => new empty_config end.

Definition serves (c : ConfigCache) (id user : str) : bool :=
  match Assignment.assign (R:=counter) None (snapshot c) 0 id user [] ∅ with
  | Ok r => match ar_variant_id r with [] => false | _ => true end
  | _ => false
  end.

(** The version of an update is not compared with the last one: an older update that
    arrives late is applied, and a paused experiment is served again. *)
Lemma stale_update_applied :
  let c := after [upsert (lit "e") 3 1; upsert (lit "e") 7 3; upsert (lit "e") 3 2] in
  last_version c = 3%Z ∧ serves c (lit "e") (lit "u1") = true.
Proof. vm_compute. split; reflexivity. Qed.

(** Two experiments that arrive by the stream in one layer get every bucket of it
    each, and serve the same users. *)
Lemma streamed_experiments_collide :
  let c := after [upsert (lit "e1") 3 1; upsert (lit "e2") 3 2] in
  Forall (λ u, serves c (lit "e1") u = true ∧ serves c (lit "e2") u = true)
    (lit <$> ["u1"; "u2"; "u3"; "u4"]%string).
Proof. repeat constructor; vm_compute; reflexivity. Qed.

Lemma snapshot_consistent_witness :
  ∃ c, apply_updates (E:=unit) [upsert (lit "e") 3 1; upsert (lit "f") 1 2] (new empty_config) = Ok c ∧
    experiments_by_id (snapshot c) = cc_experiments c ∧ last_version c = 2%Z.
Proof.
  destruct (apply_updates (E:=unit) [upsert (lit "e") 3 1; upsert (lit "f") 1 2] (new empty_config))
    as [c| | |] eqn:E; try (vm_compute in E; discriminate).
  exists c. split; [reflexivity|].
  destruct (snapshot_consistent (E:=unit) empty_config _ c empty_config_ok E) as (H & _ & _ & _ & Hv).
  split; [exact H|exact Hv].
Defined.

Lemma apply_update_functional_witness :
  match apply_update (E:=unit) key_order
          (mk_config_update (Some (streamed_ab (lit "e") 3)) false 1) (new empty_config) with
  | Ok c' => experiments_by_id (snapshot c') = {[lit "e" := streamed (streamed_ab (lit "e") 3) None]}
  | _ => False
  end.
Proof.
  pose proof (apply_update_functional (E:=unit) key_order
    (mk_config_update (Some (streamed_ab (lit "e") 3)) false 1) (new empty_config)
    (new_ok _ empty_config_ok)) as H. cbv zeta in H. revert H.
  destruct (apply_update key_order _ (new empty_config)) as [c'|e| |]; [|done| |done].
  - intros [H _]. exact H.
  - intros [_ (p & [= <-] & Hf)]. vm_compute in Hf. discriminate Hf.
Defined.

Lemma updates_isolated_witness :
  ∃ c c', apply_updates (E:=unit) [upsert (lit "f") 3 2] c = Ok c' ∧
    serves c (lit "e") (lit "u1") = true ∧
    Assignment.assign (R:=counter) None (snapshot c') 0 (lit "e") (lit "u1") [] ∅ =
    Assignment.assign (R:=counter) None (snapshot c) 0 (lit "e") (lit "u1") [] ∅.
Proof.
  pose (c := after [upsert (lit "e") 3 1]). exists c.
  destruct (apply_updates (E:=unit) [upsert (lit "f") 3 2] c) as [c'| | |] eqn:E;
    try (vm_compute in E; discriminate).
  exists c'. split; [reflexivity|]. split; [vm_compute; reflexivity|].
  apply (updates_isolated (E:=unit) None [upsert (lit "f") 3 2] c c' 0 (lit "e") (lit "u1") [] ∅).
  - apply (apply_updates_ok (E:=unit) [upsert (lit "e") 3 1] (new empty_config)).
    + apply new_ok, empty_config_ok.
    + vm_compute. reflexivity.
  - exact E.
  - constructor; [discriminate|constructor].
  - intros e He. vm_compute in He. injection He as <-. vm_compute. eexists. reflexivity.
Defined.

Lemma revocation_durable_witness :
  ∃ c', apply_updates (E:=unit) [upsert (lit "e") 7 2; upsert (lit "f") 3 3]
          (after [upsert (lit "e") 3 1]) = Ok c' ∧
    serves (after [upsert (lit "e") 3 1]) (lit "e") (lit "u1") = true ∧
    (Assignment.assign (R:=counter) None (snapshot c') 0 (lit "e") (lit "u1") [] ∅ =
       Err (mk_status NotFound (ExperimentMissing (lit "e"))) ∨
     Assignment.assign (R:=counter) None (snapshot c') 0 (lit "e") (lit "u1") [] ∅ =
       Ok (empty_assignment (lit "e") false)).
Proof.
  destruct (apply_updates (E:=unit) [upsert (lit "e") 7 2; upsert (lit "f") 3 3]
    (after [upsert (lit "e") 3 1])) as [c'| | |] eqn:E; try (vm_compute in E; discriminate).
  exists c'. split; [reflexivity|]. split; [vm_compute; reflexivity|].
  apply (revocation_durable (E:=unit) None key_order
    (mk_config_update (Some (streamed_ab (lit "e") 7)) false 2) [upsert (lit "f") 3 3]
    (after [upsert (lit "e") 3 1]) c' 0 (lit "u1") [] ∅).
  - apply (apply_updates_ok (E:=unit) [upsert (lit "e") 3 1] (new empty_config)).
    + apply new_ok, empty_config_ok.
    + vm_compute. reflexivity.
  - exact E.
  - right. exists (streamed_ab (lit "e") 7). split; [reflexivity|discriminate].
  - constructor; [discriminate|constructor].
Defined.
