(* ===== verification/Interleaving.v ===== *)
(** Merging ranked lists ([experimentation-interleaving]): team draft, team-draft
    multileave and the softmax ("optimized") interleaving, over the random source of
    [Rng]. The platform's [log2] and [exp] are parameters of the third. *)
From Stdlib Require Import Ascii String SpecFloat.
From S2P Require Import Prelude Bytes F64 F64Order Hash Switchback Rng.

(** A merged list with provenance metadata. *)
Record InterleavedResult := mk_interleaved
  { merged_list : list str; provenance : gmap str str }.

(** [while idx < list.len() && seen.contains(&list[idx]) { idx += 1 }]. *)
Fixpoint seen_prefix (seen : gset str) (l : list str) : nat :=
  match l with
  | [] => 0
  | x :: l => if bool_decide (x ∈ seen) then S (seen_prefix seen l) else 0
  end.
Definition skip_seen (seen : gset str) (l : list str) (idx : nat) : nat :=
  idx + seen_prefix seen (drop idx l).

Section interleaving.
Context {R : Type} `{Rng R} {E : Type}.

(** ** Team draft *)

Record DraftState := mk_draft
  { td_merged : list str; td_provenance : gmap str str; td_seen : gset str;
    td_idx_a : nat; td_idx_b : nat; td_count_a : nat; td_count_b : nat; td_rng : R }.

Section team_draft.
Context (list_a list_b : list str) (algo_a_id algo_b_id : str) (k : nat).

(** Which team picks: the one with items left, then the one with fewer picks, then a
    fair coin. *)
Definition a_picks (a_has_items b_has_items : bool) (s : DraftState) : bool * R :=
  if negb a_has_items then (false, td_rng s)
  else if negb b_has_items || (td_count_a s <? td_count_b s) then (true, td_rng s)
  else if td_count_b s <? td_count_a s then (false, td_rng s)
  else gen_bool_half (td_rng s).

Definition pick_a (idx_a idx_b : nat) (rng : R) (s : DraftState) : result E DraftState :=
  item ← index list_a idx_a;
  mret (mk_draft (td_merged s ++ [item]) (<[item := algo_a_id]> (td_provenance s))
          ({[item]} ∪ td_seen s) (idx_a + 1) idx_b (td_count_a s + 1) (td_count_b s) rng).

Definition pick_b (idx_a idx_b : nat) (rng : R) (s : DraftState) : result E DraftState :=
  item ← index list_b idx_b;
  mret (mk_draft (td_merged s ++ [item]) (<[item := algo_b_id]> (td_provenance s))
          ({[item]} ∪ td_seen s) idx_a (idx_b + 1) (td_count_a s) (td_count_b s + 1) rng).

Fixpoint team_draft_loop (fuel : nat) (s : DraftState) : result E DraftState :=
  match fuel with
  | 0 => OutOfFuel
  | S fuel =>
      if (length (td_merged s) <? k)
         && ((td_idx_a s <? length list_a) || (td_idx_b s <? length list_b))
      then
        let idx_a := skip_seen (td_seen s) list_a (td_idx_a s) in
        let idx_b := skip_seen (td_seen s) list_b (td_idx_b s) in
        let a_has_items := idx_a <? length list_a in
        let b_has_items := idx_b <? length list_b in
        if negb a_has_items && negb b_has_items then mret s
        else
          let '(picks, rng) := a_picks a_has_items b_has_items s in
          s ← (if picks then pick_a idx_a idx_b rng s else pick_b idx_a idx_b rng s);
          team_draft_loop fuel s
      else mret s
  end.

(** One round adds an item or ends: [S k] rounds are enough. *)
Definition team_draft (rng : R) : result E InterleavedResult :=
  s ← team_draft_loop (S k) (mk_draft [] ∅ ∅ 0 0 0 0 rng);
  mret (mk_interleaved (td_merged s) (td_provenance s)).
End team_draft.

(** ** Multileave *)

Record MultiState := mk_multi
  { ml_merged : list str; ml_provenance : gmap str str; ml_seen : gset str;
    ml_pointers : list nat; ml_counts : list nat; ml_rng : R }.

Section multileave.
Context (lists : list (list str * str)) (k : nat).

(** Every team's pointer moves past the seen items; [pointers] has one entry a team. *)
Definition advance_pointers (seen : gset str) (pointers : list nat) : list nat :=
  zip_with (λ l p, skip_seen seen l.1 p) lists pointers.

(** The least count of the eligible teams ([min().unwrap()], [eligible] not empty). *)
Definition min_count (counts : list nat) (eligible : list nat) : nat :=
  match eligible with
  | [] => 0
  | i :: rest => fold_left (λ m i, Nat.min m (counts !!! i)) rest (counts !!! i)
  end.

Definition multileave_step (s : MultiState) : result E (option MultiState) :=
  let pointers := advance_pointers (ml_seen s) (ml_pointers s) in
  let eligible :=
    filter (λ i, pointers !!! i < length ((lists !!! i).1)) (seq 0 (length lists)) in
  match eligible with
  | [] => mret None
  | _ =>
      let least := min_count (ml_counts s) eligible in
      let candidates := filter (λ i, ml_counts s !!! i = least) eligible in
      let '(j, rng) := gen_range (length candidates) (ml_rng s) in
      chosen_team ← index candidates j;
      team ← index lists chosen_team;
      item ← index team.1 (pointers !!! chosen_team);
      mret (Some (mk_multi (ml_merged s ++ [item]) (<[item := team.2]> (ml_provenance s))
              ({[item]} ∪ ml_seen s)
              (<[chosen_team := (pointers !!! chosen_team) + 1]> pointers)
              (<[chosen_team := (ml_counts s !!! chosen_team) + 1]> (ml_counts s)) rng))
  end.

Fixpoint multileave_loop (fuel : nat) (s : MultiState) : result E MultiState :=
  match fuel with
  | 0 => OutOfFuel
  | S fuel =>
      if length (ml_merged s) <? k then
        o ← multileave_step s;
        match o with Some s => multileave_loop fuel s | None => mret s end
      else mret s
  end.

Definition multileave (rng : R) : result E InterleavedResult :=
  let n := length lists in
  s ← multileave_loop (S k) (mk_multi [] ∅ ∅ (replicate n 0) (replicate n 0) rng);
  mret (mk_interleaved (ml_merged s) (ml_provenance s)).
End multileave.

(** ** Optimized interleaving *)

Record Candidate := mk_candidate { c_item : str; c_source : nat; c_rank : nat }.

(** The two-element arrays [count] and [lists], read at 0 or 1. *)
Definition at2 {A} (p : A * A) (i : nat) : A := match i with 0 => p.1 | _ => p.2 end.
Definition bump2 (p : nat * nat) (i : nat) : nat * nat :=
  match i with 0 => (p.1 + 1, p.2) | _ => (p.1, p.2 + 1) end.

Section optimized.
Context (log2 exp : f64 → f64).
Context (list_a list_b : list str) (algo_a_id algo_b_id : str) (k : nat).

Definition source_candidates (seen : gset str) (count : nat * nat) (balance_cap source : nat)
    (l : list str) : list Candidate :=
  if balance_cap <=? at2 count source then []
  else omap (λ '(rank, item), if bool_decide (item ∈ seen) then None
                              else Some (mk_candidate item source rank))
         (imap (λ rank item, (rank, item)) l).

(** [candidates.retain(|c| dedup_seen.insert(c.item.clone()))]. *)
Fixpoint retain_first (dedup_seen : gset str) (cs : list Candidate) : list Candidate :=
  match cs with
  | [] => []
  | c :: cs =>
      if bool_decide (c_item c ∈ dedup_seen) then retain_first dedup_seen cs
      else c :: retain_first ({[c_item c]} ∪ dedup_seen) cs
  end.

Definition build_candidates (seen : gset str) (count : nat * nat) (balance_cap : nat) :
    list Candidate :=
  retain_first ∅ (source_candidates seen count balance_cap 0 list_a ++
                  source_candidates seen count balance_cap 1 list_b).

Definition f64_nat (n : nat) : f64 := f64_of_u32 (Z.of_nat n).
Definition f64_one : f64 := f64_of_u32 1.
Definition f64_half : f64 := f64_div f64_one (f64_of_u32 2).

Definition score_candidate (c : Candidate) (pos : nat) (count : nat * nat) : f64 :=
  let rank_quality := f64_div f64_one (f64_add (f64_nat (c_rank c)) f64_one) in
  let position_weight := f64_div f64_one (log2 (f64_nat (pos + 2))) in
  let own := at2 count (c_source c) in
  let other := at2 count (1 - c_source c) in
  let balance_bonus :=
    if own <? other then f64_half
    else if other <? own then SFopp f64_half else f64_zero in
  f64_add (f64_mul rank_quality position_weight) balance_bonus.

(** The first index whose running total reaches the threshold. *)
Fixpoint cumulative_index (threshold cumulative : f64) (es : list f64) (i : nat) : option nat :=
  match es with
  | [] => None
  | e :: es =>
      let cumulative := f64_add cumulative e in
      if f64_ge cumulative threshold then Some i else cumulative_index threshold cumulative es (S i)
  end.

Definition softmax_sample (scores : list f64) (rng : R) : nat * R :=
  if length scores =? 1 then (0, rng)
  else
    let max_score := fold_left f64_max scores (S754_infinity true) in
    let exp_scores := (λ s, exp (f64_sub s max_score)) <$> scores in
    let sum_exp := fold_left f64_add exp_scores f64_zero in
    let '(u, rng) := gen_f64 rng in
    (default (length scores - 1) (cumulative_index (f64_mul u sum_exp) f64_zero exp_scores 0), rng).

Record OptState := mk_opt
  { op_merged : list str; op_provenance : gmap str str; op_seen : gset str;
    op_count : nat * nat; op_rng : R }.

(** The positions left to fill, from [pos] on. *)
Fixpoint optimized_loop (todo pos : nat) (s : OptState) : result E OptState :=
  match todo with
  | 0 => mret s
  | S todo =>
      match build_candidates (op_seen s) (op_count s) (Nat.div (k + 1) 2) with
      | [] => mret s
      | candidates =>
          let scores := (λ c, score_candidate c pos (op_count s)) <$> candidates in
          let '(idx, rng) := softmax_sample scores (op_rng s) in
          c ← index candidates idx;
          optimized_loop todo (pos + 1)
            (mk_opt (op_merged s ++ [c_item c])
               (<[c_item c := at2 (algo_a_id, algo_b_id) (c_source c)]> (op_provenance s))
               ({[c_item c]} ∪ op_seen s) (bump2 (op_count s) (c_source c)) rng)
      end
  end.

Definition optimized_interleave (rng : R) : result E InterleavedResult :=
  s ← optimized_loop k 0 (mk_opt [] ∅ ∅ (0, 0) rng);
  mret (mk_interleaved (op_merged s) (op_provenance s)).
End optimized.
End interleaving.
Arguments DraftState R : clear implicits.
Arguments MultiState R : clear implicits.
Arguments OptState R : clear implicits.
