(* ===== verification/InterleavingSpec.v ===== *)
(** Specification of the list mergers. Team draft and multileave both implement one
    abstract draft: teams pick in turn, each its best item nobody has picked, and a
    team picks only when no team with items left has picked less often. *)
From Stdlib Require Import Ascii String SpecFloat.
From S2P Require Import Prelude Bytes F64 Hash Switchback Rng Interleaving.

(** ** The abstract draft *)

(** The items of a list nobody has picked; a pick is a team and an item. *)
Definition unseen (S : gset str) (l : list str) : list str := filter (λ x, x ∉ S) l.
Definition items (tr : list (nat * str)) : gset str := list_to_set tr.*2.
Definition picks_of (t : nat) (tr : list (nat * str)) : list str :=
  (filter (λ p, p.1 = t) tr).*2.
Definition count_of (t : nat) (tr : list (nat * str)) : nat := length (picks_of t tr).

Record draft_pick (ls : list (list str)) (tr : list (nat * str)) (p : nat * str) : Prop :=
  mk_draft_pick
  { pick_best : ∃ l, ls !! p.1 = Some l ∧ head (unseen (items tr) l) = Some p.2;
    pick_fair t' l' : ls !! t' = Some l' → unseen (items tr) l' ≠ [] →
      count_of p.1 tr ≤ count_of t' tr }.

Inductive draft (ls : list (list str)) : list (nat * str) → Prop :=
| draft_nil : draft ls []
| draft_snoc tr p : draft ls tr → draft_pick ls tr p → draft ls (tr ++ [p]).

(** The draft ends with [k] picks, or when no team has an item left. *)
Definition complete (ls : list (list str)) (k : nat) (tr : list (nat * str)) : Prop :=
  length tr ≤ k ∧ (length tr < k → ∀ l, l ∈ ls → unseen (items tr) l = []).

Definition credit (ids : nat → str) (tr : list (nat * str)) : gmap str str :=
  fold_left (λ m p, <[p.2 := ids p.1]> m) tr ∅.

Lemma items_snoc tr t x : items (tr ++ [(t, x)]) = {[x]} ∪ items tr.
Proof. unfold items. rewrite fmap_app. simpl. rewrite list_to_set_app_L. set_solver. Qed.

Lemma picks_of_snoc t tr t' x :
  picks_of t (tr ++ [(t', x)]) = picks_of t tr ++ (if decide (t' = t) then [x] else []).
Proof.
  unfold picks_of. rewrite filter_app, fmap_app. f_equal.
  rewrite filter_cons, filter_nil. simpl. by destruct (decide (t' = t)).
Qed.

Lemma count_of_snoc t tr t' x :
  count_of t (tr ++ [(t', x)]) = count_of t tr + (if decide (t' = t) then 1 else 0).
Proof. unfold count_of. rewrite picks_of_snoc, length_app. by destruct (decide (t' = t)). Qed.

Lemma credit_snoc ids tr t x : credit ids (tr ++ [(t, x)]) = <[x := ids t]> (credit ids tr).
Proof. unfold credit. by rewrite fold_left_app. Qed.

Lemma unseen_head S l x : head (unseen S l) = Some x → x ∈ l ∧ x ∉ S.
Proof.
  intros H. assert (x ∈ unseen S l) as Hx by (destruct (unseen S l); simplify_eq/=; by left).
  apply list_elem_of_filter in Hx. tauto.
Qed.

Lemma unseen_nil S l : unseen S l = [] ↔ ∀ x, x ∈ l → x ∈ S.
Proof.
  split.
  - intros H x Hx. destruct (decide (x ∈ S)) as [|Hn]; [done|].
    assert (x ∈ unseen S l) as Hu by (by apply list_elem_of_filter). rewrite H in Hu.
    by apply elem_of_nil in Hu.
  - intros H. destruct (unseen S l) as [|x u] eqn:E; [done|].
    destruct (unseen_head S l x) as [Hx Hn]; [by rewrite E|]. by destruct Hn; apply H.
Qed.

Lemma unseen_mono S S' l : S ⊆ S' → unseen S' l ≠ [] → unseen S l ≠ [].
Proof. rewrite !unseen_nil. intros Hs H Hall. apply H. set_solver. Qed.

(** The provenance names the team that picked the item. *)
Lemma credit_lookup ids tr x a :
  NoDup tr.*2 → credit ids tr !! x = Some a ↔ ∃ t, (t, x) ∈ tr ∧ a = ids t.
Proof.
  induction tr as [|[t0 x0] tr IH] using rev_ind; intros Hnd.
  - unfold credit. simpl. rewrite lookup_empty. split; [done|]. by intros (t & ?%elem_of_nil & _).
  - rewrite fmap_app in Hnd. apply NoDup_app in Hnd as (Hnd & Hx & _).
    rewrite credit_snoc, lookup_insert_Some, (IH Hnd).
    setoid_rewrite elem_of_app. setoid_rewrite list_elem_of_singleton. split.
    + intros [[-> <-]|(Hne & t & Ht & ->)]; [exists t0; tauto|]. exists t. tauto.
    + intros (t & [Ht|[= -> ->]] & ->); [|by left]. right. split; [|eauto]. intros ->.
      apply (Hx x); [apply list_elem_of_fmap; by exists (t, x)|by left].
Qed.

(** ** Properties of every draft *)

Section draft.
Context (ls : list (list str)).

Lemma draft_nodup tr : draft ls tr → NoDup tr.*2.
Proof.
  induction 1 as [|tr [t x] _ IH [(l & _ & Hx) _]]; [constructor|].
  apply unseen_head in Hx as [_ Hx]. rewrite fmap_app. apply NoDup_app. split_and!; [done| |].
  - intros y Hy Hxy. apply list_elem_of_singleton in Hxy as ->. apply Hx. by apply elem_of_list_to_set.
  - apply NoDup_singleton.
Qed.

Lemma draft_member tr t x : draft ls tr → (t, x) ∈ tr → ∃ l, ls !! t = Some l ∧ x ∈ l.
Proof.
  induction 1 as [|tr [t' x'] _ IH [(l & Hl & Hx) _]]; [by intros ?%elem_of_nil|].
  rewrite elem_of_app, list_elem_of_singleton. intros [?|[= -> ->]]; [by apply IH|].
  apply unseen_head in Hx as [Hx _]. eauto.
Qed.

(** The whole catalogue. *)
Definition catalogue : gset str := list_to_set (concat ls).

Lemma draft_items tr : draft ls tr → items tr ⊆ catalogue ∧ size (items tr) = length tr.
Proof.
  intros Hd. split.
  - intros x Hx. apply elem_of_list_to_set, list_elem_of_fmap in Hx as ([t y] & -> & Hx).
    destruct (draft_member _ _ _ Hd Hx) as (l & Hl & Hxl).
    apply elem_of_list_to_set, list_elem_of_In, in_concat. exists l.
    rewrite <- !list_elem_of_In. split; [by eapply list_elem_of_lookup_2|done].
  - unfold items. rewrite size_list_to_set by (by apply draft_nodup). by rewrite length_fmap.
Qed.

(** A complete draft fills every slot the catalogue can fill. *)
Lemma draft_length k tr : draft ls tr → complete ls k tr → length tr = Nat.min k (size catalogue).
Proof.
  intros Hd [Hk Hend]. destruct (draft_items tr Hd) as [Hsub Hsize].
  pose proof (subseteq_size _ _ Hsub) as Hle. destruct (decide (length tr < k)) as [Hlt|]; [|lia].
  assert (catalogue ⊆ items tr) as Hsup.
  { intros x Hx. apply elem_of_list_to_set, list_elem_of_In, in_concat in Hx as (l & Hl & Hx).
    apply list_elem_of_In in Hl. apply list_elem_of_In in Hx. by apply (proj1 (unseen_nil _ _) (Hend Hlt l Hl)). }
  pose proof (subseteq_size _ _ Hsup). lia.
Qed.

(** A team that still has items is at most one pick behind any other. *)
Lemma draft_balanced tr t t' l' :
  draft ls tr → ls !! t' = Some l' → unseen (items tr) l' ≠ [] →
  count_of t tr ≤ count_of t' tr + 1.
Proof.
  intros Hd Hl. induction Hd as [|tr [t0 x] Hd IH [_ Hfair]]; [intros _; unfold count_of; simpl; lia|]. intros Hu.
  rewrite items_snoc in Hu.
  assert (unseen (items tr) l' ≠ []) as Hu' by (eapply unseen_mono; [|exact Hu]; set_solver).
  specialize (IH Hu'). specialize (Hfair t' l' Hl Hu'). simpl in Hfair.
  rewrite !count_of_snoc. repeat case_decide; subst; lia.
Qed.

(** A team's picks come in the order of its list. *)
Lemma draft_rank_order tr t l : draft ls tr → ls !! t = Some l → picks_of t tr `sublist_of` l.
Proof.
  intros Hd Hl.
  assert (∃ p, picks_of t tr `sublist_of` take p l ∧ Forall (λ x, x ∈ items tr) (take p l)) as (p & Hs & _).
  { induction Hd as [|tr [t0 x] Hd (p & Hs & Hp) [(l0 & Hl0 & Hx) _]].
    - exists 0. rewrite take_0. split; [constructor|constructor].
    - simpl in *. rewrite items_snoc, picks_of_snoc. destruct (decide (t0 = t)) as [->|Hne].
      2: { rewrite app_nil_r. exists p. split; [done|]. eapply Forall_impl; [done|]. set_solver. }
      assert (l0 = l) as -> by congruence.
      destruct (unseen_head _ _ _ Hx) as [_ Hnew].
      assert (∃ l1 l2, l = l1 ++ x :: l2 ∧ Forall (λ y, y ∈ items tr) l1) as (l1 & l2 & -> & H1).
      { clear -Hx. induction l as [|y l IH]; [done|]. unfold unseen in *.
        rewrite filter_cons in Hx. destruct (decide (y ∉ items tr)) as [Hy|Hy].
        - injection Hx as ->. by exists [], l.
        - destruct (IH Hx) as (l1 & l2 & -> & H1). exists (y :: l1), l2. split; [done|].
          constructor; [|done]. by apply dec_stable. }
      assert (p ≤ length l1) as Hpl.
      { apply Nat.le_ngt. intros Hlt. apply Hnew. rewrite Forall_forall in Hp. apply Hp.
        apply list_elem_of_lookup. exists (length l1). rewrite lookup_take_lt by done.
        by rewrite lookup_app_r, Nat.sub_diag by lia. }
      exists (S (length l1)). rewrite take_app_ge by lia.
      replace (S (length l1) - length l1) with 1 by lia. simpl. rewrite take_0. split.
      + apply sublist_app; [|done]. rewrite take_app_le in Hs by done. etrans; [exact Hs|].
        apply sublist_take.
      + apply Forall_app. split; [eapply Forall_impl; [done|]; set_solver|].
        constructor; [set_solver|constructor]. }
  etrans; [exact Hs|apply sublist_take].
Qed.

End draft.

(** What the callers of a merger rely on. *)
Definition drafted (ls : list (list str)) (ids : nat → str) (k : nat) (r : InterleavedResult) : Prop :=
  ∃ tr, merged_list r = tr.*2 ∧ provenance r = credit ids tr ∧ draft ls tr ∧ complete ls k tr.

(** ** Skipping seen items *)

Lemma seen_prefix_spec S l :
  Forall (λ x, x ∈ S) (take (seen_prefix S l) l) ∧ head (unseen S l) = l !! seen_prefix S l.
Proof.
  induction l as [|x l [IH1 IH2]]; [done|]. cbn [seen_prefix]. unfold unseen. rewrite filter_cons.
  case_bool_decide as Hx.
  - rewrite (decide_False (P := x ∉ S)) by tauto. split; [|done]. by constructor.
  - rewrite decide_True by done. split; [constructor|done].
Qed.

Lemma skip_seen_spec S l i :
  Forall (λ x, x ∈ S) (take i l) →
  Forall (λ x, x ∈ S) (take (skip_seen S l i) l) ∧ head (unseen S l) = l !! skip_seen S l i ∧
  (skip_seen S l i < length l ↔ unseen S l ≠ []).
Proof.
  intros Hi. unfold skip_seen. destruct (seen_prefix_spec S (drop i l)) as [H1 H2].
  assert (head (unseen S l) = l !! (i + seen_prefix S (drop i l))) as Hhead.
  { rewrite <- lookup_drop, <- H2. unfold unseen. rewrite <- (take_drop i l) at 1.
    rewrite filter_app. fold (unseen S (take i l)).
    rewrite (proj2 (unseen_nil S (take i l))); [done|]. by apply Forall_forall. }
  split_and!; [|done|].
  - rewrite <- take_take_drop. by apply Forall_app.
  - rewrite <- lookup_lt_is_Some, <- Hhead. destruct (unseen S l); split; try done; by intros [? ?].
Qed.

Lemma take_snoc_seen (S : gset str) l i x :
  l !! i = Some x → Forall (λ y, y ∈ S) (take i l) → Forall (λ y, y ∈ {[x]} ∪ S) (take (i + 1) l).
Proof.
  intros Hl Hi. rewrite Nat.add_1_r, (take_S_r _ _ _ Hl). apply Forall_app. split.
  - eapply Forall_impl; [done|]. set_solver.
  - constructor; [set_solver|constructor].
Qed.

Lemma seen_grow (S : gset str) l i x :
  Forall (λ y, y ∈ S) (take i l) → Forall (λ y, y ∈ {[x]} ∪ S) (take i l).
Proof. intros H. eapply Forall_impl; [done|]. set_solver. Qed.

Section refinement.
Context {R : Type} `{RngLaws R} {E : Type}.

(** ** Team draft implements the draft *)

Section team_draft.
Context (list_a list_b : list str) (algo_a_id algo_b_id : str) (k : nat).
Notation ls := [list_a; list_b].
Definition pair_ids (a b : str) (t : nat) : str := at2 (a, b) t.
Notation ids := (pair_ids algo_a_id algo_b_id).

Record td_inv (s : DraftState R) (tr : list (nat * str)) : Prop := mk_td_inv
  { inv_merged : td_merged s = tr.*2; inv_credit : td_provenance s = credit ids tr;
    inv_seen : td_seen s = items tr; inv_draft : draft ls tr;
    inv_a : Forall (λ x, x ∈ items tr) (take (td_idx_a s) list_a);
    inv_b : Forall (λ x, x ∈ items tr) (take (td_idx_b s) list_b);
    inv_count_a : td_count_a s = count_of 0 tr; inv_count_b : td_count_b s = count_of 1 tr }.

(** The team that picks has an item, and is not ahead of a team that has one. *)
Lemma a_picks_fair (s : DraftState R) (pa pb : bool) picks rng :
  pa || pb = true → a_picks pa pb s = (picks, rng) →
  if picks then pa = true ∧ (pb = true → td_count_a s ≤ td_count_b s)
  else pb = true ∧ (pa = true → td_count_b s ≤ td_count_a s).
Proof.
  intros Hp. unfold a_picks. destruct pa, pb; try done; simpl.
  2,3: by intros [= <- _].
  destruct (td_count_a s <? td_count_b s) eqn:E1; [intros [= <- _]; lia|].
  destruct (td_count_b s <? td_count_a s) eqn:E2; [intros [= <- _]; lia|].
  intros _. destruct picks; lia.
Qed.

Lemma two_lists t l : ls !! t = Some l → (t = 0 ∧ l = list_a) ∨ (t = 1 ∧ l = list_b).
Proof. destruct t as [|[|t]]; intros [= <-]; tauto. Qed.

Lemma team_draft_step s tr :
  td_inv s tr →
  let idx_a := skip_seen (td_seen s) list_a (td_idx_a s) in
  let idx_b := skip_seen (td_seen s) list_b (td_idx_b s) in
  let a_has := idx_a <? length list_a in let b_has := idx_b <? length list_b in
  (a_has || b_has = false → ∀ l, l ∈ ls → unseen (items tr) l = []) ∧
  (a_has || b_has = true → ∀ picks rng, a_picks a_has b_has s = (picks, rng) →
     ∃ s' p, (if picks then pick_a list_a algo_a_id idx_a idx_b rng s
              else pick_b list_b algo_b_id idx_a idx_b rng s) = Ok (E:=E) s' ∧ td_inv s' (tr ++ [p])).
Proof.
  intros [Hm Hc Hs Hd Ha Hb Hna Hnb]. cbv zeta. rewrite Hs.
  destruct (skip_seen_spec _ _ _ Ha) as (Ha1 & Ha2 & Ha3).
  destruct (skip_seen_spec _ _ _ Hb) as (Hb1 & Hb2 & Hb3).
  set (ia := skip_seen _ list_a _) in *. set (ib := skip_seen _ list_b _) in *. clearbody ia ib.
  rewrite <- Nat.ltb_lt in Ha3, Hb3. split.
  - intros [Ea Eb]%orb_false_iff l [-> | ->%list_elem_of_singleton]%elem_of_cons; apply dec_stable.
    + rewrite <- Ha3, Ea. auto.
    + rewrite <- Hb3, Eb. auto.
  - intros Hor picks rng Hp. apply (a_picks_fair _ _ _ _ _ Hor) in Hp. destruct picks.
    + destruct Hp as [Hhas Hfair]. pose proof Hhas as Hlt. apply Nat.ltb_lt, lookup_lt_is_Some in Hlt as [x Hx].
      unfold pick_a, index. rewrite Hx. exists (mk_draft (td_merged s ++ [x])
        (<[x := algo_a_id]> (td_provenance s)) ({[x]} ∪ td_seen s) (ia + 1) ib (td_count_a s + 1)
        (td_count_b s) rng), (0, x). split; [done|].
      constructor; simpl; rewrite ?items_snoc, ?count_of_snoc, ?credit_snoc, ?fmap_app; simpl.
      * by rewrite Hm.
      * by rewrite Hc.
      * by rewrite Hs.
      * constructor; [done|]. constructor; simpl; [exists list_a; by rewrite Ha2|].
        intros t l [[-> ->]|[-> ->]]%two_lists Hu; [lia|]. rewrite <- Hna, <- Hnb. tauto.
      * by apply take_snoc_seen.
      * by apply seen_grow.
      * lia.
      * lia.
    + destruct Hp as [Hhas Hfair]. pose proof Hhas as Hlt. apply Nat.ltb_lt, lookup_lt_is_Some in Hlt as [x Hx].
      unfold pick_b, index. rewrite Hx. exists (mk_draft (td_merged s ++ [x])
        (<[x := algo_b_id]> (td_provenance s)) ({[x]} ∪ td_seen s) ia (ib + 1) (td_count_a s)
        (td_count_b s + 1) rng), (1, x). split; [done|].
      constructor; simpl; rewrite ?items_snoc, ?count_of_snoc, ?credit_snoc, ?fmap_app; simpl.
      * by rewrite Hm.
      * by rewrite Hc.
      * by rewrite Hs.
      * constructor; [done|]. constructor; simpl; [exists list_b; by rewrite Hb2|].
        intros t l [[-> ->]|[-> ->]]%two_lists Hu; [|lia]. rewrite <- Hna, <- Hnb. tauto.
      * by apply seen_grow.
      * by apply take_snoc_seen.
      * lia.
      * lia.
Qed.

Lemma team_draft_loop_spec fuel : ∀ s tr,
  td_inv s tr → length tr ≤ k → k < length tr + fuel →
  ∃ s' tr', team_draft_loop (E:=E) list_a list_b algo_a_id algo_b_id k fuel s = Ok s' ∧
    td_inv s' tr' ∧ complete ls k tr'.
Proof.
  induction fuel as [|fuel IH]; intros s tr Hinv Hk Hf; [lia|]. cbn [team_draft_loop].
  assert (length (td_merged s) = length tr) as Hlen by (by rewrite (inv_merged _ _ Hinv), length_fmap).
  rewrite Hlen. destruct (length tr <? k) eqn:Elt; simpl.
  2: { exists s, tr. split_and!; [done..|]. split; lia. }
  destruct (team_draft_step s tr Hinv) as [Hend Hstep].
  destruct ((td_idx_a s <? length list_a) || (td_idx_b s <? length list_b)) eqn:Ei.
  - rewrite <- negb_orb.
    destruct ((skip_seen (td_seen s) list_a (td_idx_a s) <? length list_a)
              || (skip_seen (td_seen s) list_b (td_idx_b s) <? length list_b)) eqn:Eh; simpl.
    + destruct (a_picks _ _ s) as [picks rng] eqn:Ep.
      destruct (Hstep eq_refl picks rng eq_refl) as (s' & p & -> & Hinv'). simpl.
      apply (IH s' (tr ++ [p])); [done|rewrite length_app; simpl; lia..].
    + exists s, tr. split_and!; [done..|]. split; [lia|]. intros _. by apply Hend.
  - apply orb_false_iff in Ei as [Ea Eb]. exists s, tr. split_and!; [done..|]. split; [lia|].
    intros _. destruct Hinv as [_ _ _ _ Ha Hb _ _].
    rewrite take_ge in Ha by lia. rewrite take_ge in Hb by lia. rewrite Forall_forall in Ha, Hb.
    intros l [-> | ->%list_elem_of_singleton]%elem_of_cons; by apply unseen_nil.
Qed.
End team_draft.

Lemma team_draft_drafted list_a list_b algo_a_id algo_b_id k (rng : R) :
  ∃ r, team_draft (E:=E) list_a list_b algo_a_id algo_b_id k rng = Ok r ∧
    drafted [list_a; list_b] (pair_ids algo_a_id algo_b_id) k r.
Proof.
  destruct (team_draft_loop_spec list_a list_b algo_a_id algo_b_id k (S k)
    (mk_draft [] ∅ ∅ 0 0 0 0 rng) []) as (s & tr & Hl & Hinv & Hc).
  - constructor; try done; rewrite ?take_0; constructor.
  - simpl. lia.
  - simpl. lia.
  - unfold team_draft. rewrite Hl. simpl. eexists. split; [done|]. exists tr.
    destruct Hinv. by split_and!.
Qed.
(** ** Multileave implements the draft *)

Section multileave.
Context (lists : list (list str * str)) (k : nat).
Notation ls := (lists.*1).
Definition team_ids (t : nat) : str := (lists !!! t).2.

Record ml_inv (s : MultiState R) (tr : list (nat * str)) : Prop := mk_ml_inv
  { mi_merged : ml_merged s = tr.*2; mi_credit : ml_provenance s = credit team_ids tr;
    mi_seen : ml_seen s = items tr; mi_draft : draft ls tr;
    mi_pointers : length (ml_pointers s) = length lists;
    mi_counts : length (ml_counts s) = length lists;
    mi_passed i l : ls !! i = Some l → Forall (λ x, x ∈ items tr) (take (ml_pointers s !!! i) l);
    mi_count i : i < length lists → ml_counts s !!! i = count_of i tr }.

Lemma fold_min_spec (f : nat → nat) l m :
  let r := fold_left (λ m i, Nat.min m (f i)) l m in
  (r = m ∨ ∃ i, i ∈ l ∧ r = f i) ∧ r ≤ m ∧ ∀ i, i ∈ l → r ≤ f i.
Proof.
  revert m. induction l as [|j l IH]; intros m; simpl.
  - split_and!; [by left|done|by intros ? ?%elem_of_nil].
  - destruct (IH (Nat.min m (f j))) as (Hr & Hle & Hall). set (r := fold_left _ _ _) in *.
    split_and!; [|lia|].
    + destruct Hr as [Hr|(i & Hi & Hr)]; [|right; exists i; split; [by right|done]].
      destruct (Nat.min_spec m (f j)) as [[_ Em]|[_ Em]]; rewrite Em in Hr; [by left|right].
      exists j. split; [by left|done].
    + intros i [-> |Hi]%elem_of_cons; [lia|by apply Hall].
Qed.

Lemma min_count_spec counts eligible :
  eligible ≠ [] →
  (∃ i, i ∈ eligible ∧ counts !!! i = min_count counts eligible) ∧
  ∀ i, i ∈ eligible → min_count counts eligible ≤ counts !!! i.
Proof.
  destruct eligible as [|i l]; [done|]. intros _. unfold min_count.
  destruct (fold_min_spec (λ i, counts !!! i) l (counts !!! i)) as ([Hr|(j & Hj & Hr)] & Hle & Hall).
  - split; [exists i; split; [by left|done]|]. intros j [-> |Hj]%elem_of_cons; [done|by apply Hall].
  - split; [exists j; split; [by right|done]|]. intros j' [-> |Hj']%elem_of_cons; [done|by apply Hall].
Qed.

Lemma advance_lookup seen pointers i l :
  length pointers = length lists → ls !! i = Some l →
  advance_pointers lists seen pointers !!! i = skip_seen seen l (pointers !!! i).
Proof.
  intros Hlen Hl. rewrite list_lookup_fmap in Hl. apply fmap_Some in Hl as ([l' a] & Hi & ->).
  assert (is_Some (pointers !! i)) as [p Hp].
  { apply lookup_lt_is_Some. rewrite Hlen. by eapply lookup_lt_Some. }
  rewrite (list_lookup_total_correct pointers _ _ Hp).
  apply list_lookup_total_correct. unfold advance_pointers.
  rewrite lookup_zip_with, Hi. simpl. by rewrite Hp.
Qed.

Lemma team_list i : i < length lists → ls !! i = Some (lists !!! i).1 ∧ lists !! i = Some (lists !!! i).
Proof.
  intros Hi. apply lookup_lt_is_Some in Hi as [q Hq].
  rewrite list_lookup_fmap, (list_lookup_total_correct _ _ _ Hq), Hq. done.
Qed.

Lemma multileave_step_spec s tr :
  ml_inv s tr →
  (multileave_step (E:=E) lists s = Ok None ∧ ∀ l, l ∈ ls → unseen (items tr) l = []) ∨
  ∃ s' p, multileave_step (E:=E) lists s = Ok (Some s') ∧ ml_inv s' (tr ++ [p]).
Proof.
  intros [Hm Hc Hs Hd Hlp Hlc Hpass Hcnt]. unfold multileave_step. cbv zeta.
  set (ptrs := advance_pointers lists (ml_seen s) (ml_pointers s)).
  assert (length ptrs = length lists) as Hlp'.
  { unfold ptrs, advance_pointers. rewrite length_zip_with. lia. }
  assert (∀ i l, ls !! i = Some l →
    Forall (λ x, x ∈ items tr) (take (ptrs !!! i) l) ∧ head (unseen (items tr) l) = l !! (ptrs !!! i) ∧
    (ptrs !!! i < length l ↔ unseen (items tr) l ≠ [])) as Hskip.
  { intros i l Hl. unfold ptrs. rewrite (advance_lookup _ _ _ _ Hlp Hl), Hs.
    by apply skip_seen_spec, Hpass. }
  clearbody ptrs.
  set (eligible := filter (λ i, ptrs !!! i < length (lists !!! i).1) (seq 0 (length lists))).
  assert (∀ i, i ∈ eligible ↔ i < length lists ∧ unseen (items tr) (lists !!! i).1 ≠ []) as Hel.
  { intros i. unfold eligible. rewrite list_elem_of_filter, list_elem_of_In, in_seq. split.
    - intros [Hp [_ Hi]]. split; [lia|]. by apply (Hskip i); [apply team_list|].
    - intros [Hi Hu]. split; [|lia]. by apply (Hskip i (lists !!! i).1); [apply team_list|]. }
  clearbody eligible. destruct (decide (eligible = [])) as [->|Hne].
  { left. split; [done|]. intros l [i Hl]%list_elem_of_lookup. apply dec_stable. intros Hu.
    pose proof (lookup_lt_Some _ _ _ Hl) as Hi. rewrite length_fmap in Hi.
    destruct (team_list i Hi) as [Hl' _]. assert (l = (lists !!! i).1) as -> by congruence.
    by apply (not_elem_of_nil i), Hel. }
  right. replace (match eligible with [] => _ | _ => _ end) with
    (let least := min_count (ml_counts s) eligible in
     let candidates := filter (λ i, ml_counts s !!! i = least) eligible in
     let '(j, rng) := gen_range (length candidates) (ml_rng s) in
     chosen_team ← index candidates j; team ← index lists chosen_team;
     item ← index team.1 (ptrs !!! chosen_team);
     mret (M:=result E) (Some (mk_multi (ml_merged s ++ [item]) (<[item := team.2]> (ml_provenance s))
       ({[item]} ∪ ml_seen s) (<[chosen_team := (ptrs !!! chosen_team) + 1]> ptrs)
       (<[chosen_team := (ml_counts s !!! chosen_team) + 1]> (ml_counts s)) rng)))
    by (by destruct eligible).
  destruct (min_count_spec (ml_counts s) eligible Hne) as [(i0 & Hi0 & Hmin0) Hmin]. cbv zeta.
  set (candidates := filter (λ i, ml_counts s !!! i = min_count (ml_counts s) eligible) eligible).
  assert (0 < length candidates) as Hpos.
  { assert (i0 ∈ candidates) as Hi by (by apply list_elem_of_filter).
    destruct candidates; [by apply elem_of_nil in Hi|simpl; lia]. }
  pose proof (gen_range_lt (length candidates) (ml_rng s) Hpos) as Hj.
  destruct (gen_range (length candidates) (ml_rng s)) as [j rng]. simpl in Hj.
  apply lookup_lt_is_Some in Hj as [t Ht].
  assert (t ∈ candidates) as Hcand by (by eapply list_elem_of_lookup_2).
  apply list_elem_of_filter in Hcand as [Htmin Htel]. pose proof Htel as Htel'.
  apply Hel in Htel' as [Htn Htu]. destruct (team_list t Htn) as [Hlt Hlt'].
  destruct (Hskip _ _ Hlt) as (_ & Hhead & Hsome). apply Hsome, lookup_lt_is_Some in Htu as [x Hx].
  unfold index. rewrite Ht. cbn [mbind result_bind]. rewrite Hlt'. cbn [mbind result_bind]. rewrite Hx. cbn [mbind result_bind].
  do 2 eexists. split; [reflexivity|]. instantiate (1 := (t, x)).
  constructor; simpl; rewrite ?items_snoc, ?credit_snoc, ?fmap_app, ?length_insert; simpl; try done.
  - by rewrite Hm.
  - by rewrite Hc.
  - by rewrite Hs.
  - constructor; [done|]. constructor; simpl; [exists (lists !!! t).1; by rewrite Hhead|].
    intros t' l' Hl' Hu. pose proof (lookup_lt_Some _ _ _ Hl') as Hi. rewrite length_fmap in Hi.
    destruct (team_list t' Hi) as [Hl'' _]. assert (l' = (lists !!! t').1) as -> by congruence.
    rewrite <- !Hcnt, Htmin by done. apply Hmin. by apply Hel.
  - intros i l Hl. destruct (decide (i = t)) as [->|Hne'].
    + rewrite list_lookup_total_insert_eq by lia.
      assert (l = (lists !!! t).1) as -> by congruence. apply take_snoc_seen; [done|]. by apply Hskip.
    + rewrite list_lookup_total_insert_ne by done. apply seen_grow. by apply Hskip.
  - intros i Hi. rewrite count_of_snoc. destruct (decide (t = i)) as [->|Hne'].
    + rewrite list_lookup_total_insert_eq by lia. by rewrite Hcnt.
    + rewrite list_lookup_total_insert_ne by done. rewrite Hcnt by done. lia.
Qed.

Lemma multileave_loop_spec fuel : ∀ s tr,
  ml_inv s tr → length tr ≤ k → k < length tr + fuel →
  ∃ s' tr', multileave_loop (E:=E) lists k fuel s = Ok s' ∧ ml_inv s' tr' ∧ complete ls k tr'.
Proof.
  induction fuel as [|fuel IH]; intros s tr Hinv Hk Hf; [lia|]. cbn [multileave_loop].
  rewrite (mi_merged _ _ Hinv), length_fmap. destruct (length tr <? k) eqn:Elt; simpl.
  2: { exists s, tr. split_and!; [done..|]. split; lia. }
  destruct (multileave_step_spec s tr Hinv) as [[-> Hend]|(s' & p & -> & Hinv')]; simpl.
  - exists s, tr. split_and!; [done..|]. by split.
  - apply (IH s' (tr ++ [p])); [done|rewrite length_app; simpl; lia..].
Qed.
End multileave.

Lemma multileave_drafted lists k (rng : R) :
  ∃ r, multileave (E:=E) lists k rng = Ok r ∧ drafted lists.*1 (team_ids lists) k r.
Proof.
  destruct (multileave_loop_spec lists k (S k)
    (mk_multi [] ∅ ∅ (replicate (length lists) 0) (replicate (length lists) 0) rng) [])
    as (s & tr & Hl & Hinv & Hc).
  - constructor; simpl; try done; rewrite ?length_replicate; try done; [apply draft_nil| |].
    + intros i l Hl. apply lookup_lt_Some in Hl. rewrite length_fmap in Hl.
      simpl. rewrite lookup_total_replicate_2 by done. rewrite take_0. constructor.
    + intros i Hi. simpl. by rewrite lookup_total_replicate_2.
  - simpl. lia.
  - simpl. lia.
  - unfold multileave. rewrite Hl. simpl. eexists. split; [done|]. exists tr.
    destruct Hinv. by split_and!.
Qed.
(** ** Optimized interleaving stays within its balance cap *)

(** A merge of the lists that takes no item twice and at most [cap] from each list, and
    stops early only when every list is exhausted or at its cap. *)
Record capped (ls : list (list str)) (cap k : nat) (tr : list (nat * str)) : Prop := mk_capped
  { cap_nodup : NoDup tr.*2;
    cap_member t x : (t, x) ∈ tr → ∃ l, ls !! t = Some l ∧ x ∈ l;
    cap_count t : count_of t tr ≤ cap;
    cap_length : length tr ≤ k;
    cap_full t l : length tr < k → ls !! t = Some l → count_of t tr = cap ∨ unseen (items tr) l = [] }.

Section optimized.
Context (log2 exp : f64 → f64).
Context (list_a list_b : list str) (algo_a_id algo_b_id : str) (k : nat).
Notation ls := [list_a; list_b].
Notation ids := (pair_ids algo_a_id algo_b_id).
Notation cap := ((k + 1) / 2).

Lemma source_candidates_elem seen count bc src l c :
  c ∈ source_candidates seen count bc src l ↔
  at2 count src < bc ∧ c_source c = src ∧ c_item c ∉ seen ∧ l !! c_rank c = Some (c_item c).
Proof.
  unfold source_candidates. destruct (bc <=? at2 count src) eqn:Eb.
  { rewrite elem_of_nil. split; [done|lia]. }
  rewrite list_elem_of_omap. split.
  - intros ([rank item] & Hin & Hc). apply list_elem_of_lookup in Hin as [i Hi].
    rewrite list_lookup_imap in Hi. apply fmap_Some in Hi as (y & Hy & [= -> ->]).
    case_bool_decide; [done|]. injection Hc as <-. split_and!; [lia|done..].
  - intros (_ & Hs & Hn & Hl). exists (c_rank c, c_item c). split.
    + apply list_elem_of_lookup. exists (c_rank c). by rewrite list_lookup_imap, Hl.
    + rewrite bool_decide_eq_false_2 by done. destruct c; simpl in *. by subst.
Qed.

Lemma retain_first_elem cs : ∀ seen c, c ∈ retain_first seen cs → c ∈ cs.
Proof.
  induction cs as [|c0 cs IH]; intros seen c; [done|]. cbn [retain_first].
  case_bool_decide; [intros ?; right; by eapply IH|].
  intros [-> |Hc]%elem_of_cons; [by left|right; by eapply IH].
Qed.

Lemma build_candidates_elem seen count c :
  c ∈ build_candidates list_a list_b seen count cap →
  ∃ l, ls !! c_source c = Some l ∧ at2 count (c_source c) < cap ∧ c_item c ∉ seen ∧ c_item c ∈ l.
Proof.
  intros [Hc|Hc]%retain_first_elem%elem_of_app;
    apply source_candidates_elem in Hc as (Hcap & -> & Hn & Hl);
    eexists; split_and!; [done|done|done|by eapply list_elem_of_lookup_2
                         |done|done|done|by eapply list_elem_of_lookup_2].
Qed.

Lemma build_candidates_nil seen count t l :
  build_candidates list_a list_b seen count cap = [] → ls !! t = Some l →
  cap ≤ at2 count t ∨ unseen seen l = [].
Proof.
  intros Hnil Hl. destruct (decide (cap ≤ at2 count t)) as [|Hc]; [by left|right].
  apply unseen_nil. intros x [i Hi]%list_elem_of_lookup. apply dec_stable. intros Hx.
  assert (source_candidates seen count cap 0 list_a ++ source_candidates seen count cap 1 list_b = [])
    as Hn.
  { unfold build_candidates in Hnil. destruct (_ ++ _) as [|c cs]; [done|].
    cbn [retain_first] in Hnil. by rewrite bool_decide_eq_false_2 in Hnil by set_solver. }
  assert (mk_candidate x t i ∈ source_candidates seen count cap 0 list_a
          ++ source_candidates seen count cap 1 list_b) as Hin.
  { apply elem_of_app. destruct (two_lists list_a list_b t l Hl) as [[-> ->]|[-> ->]]; [left|right];
      apply source_candidates_elem; split_and!; simpl in *; (lia || done). }
  rewrite Hn in Hin. by apply elem_of_nil in Hin.
Qed.

Lemma cumulative_index_lt threshold es : ∀ cum i j,
  cumulative_index threshold cum es i = Some j → i ≤ j < i + length es.
Proof.
  induction es as [|e es IH]; intros cum i j; [done|]. cbn [cumulative_index].
  destruct (f64_ge _ _); [intros [= <-]; simpl; lia|]. intros Hj%IH. simpl. lia.
Qed.

Lemma softmax_sample_lt (scores : list f64) (rng : R) :
  scores ≠ [] → (softmax_sample exp scores rng).1 < length scores.
Proof.
  intros Hne. unfold softmax_sample.
  assert (0 < length scores) by (destruct scores; [done|simpl; lia]).
  destruct (length scores =? 1); [simpl; lia|]. destruct (gen_f64 rng) as [u rng']. simpl.
  destruct (cumulative_index _ _ _ 0) as [j|] eqn:Ej; simpl; [|lia].
  apply cumulative_index_lt in Ej. rewrite length_fmap in Ej. lia.
Qed.

Record op_inv (s : OptState R) (tr : list (nat * str)) : Prop := mk_op_inv
  { oi_merged : op_merged s = tr.*2; oi_credit : op_provenance s = credit ids tr;
    oi_seen : op_seen s = items tr; oi_count : op_count s = (count_of 0 tr, count_of 1 tr);
    oi_nodup : NoDup tr.*2;
    oi_member t x : (t, x) ∈ tr → ∃ l, ls !! t = Some l ∧ x ∈ l;
    oi_cap t : count_of t tr ≤ cap }.

Lemma at2_count tr t l : ls !! t = Some l → at2 (count_of 0 tr, count_of 1 tr) t = count_of t tr.
Proof. by intros [[-> _]|[-> _]]%two_lists. Qed.

Lemma op_inv_pick s tr c rng :
  op_inv s tr → c ∈ build_candidates list_a list_b (op_seen s) (op_count s) cap →
  op_inv (mk_opt (op_merged s ++ [c_item c])
            (<[c_item c := at2 (algo_a_id, algo_b_id) (c_source c)]> (op_provenance s))
            ({[c_item c]} ∪ op_seen s) (bump2 (op_count s) (c_source c)) rng)
         (tr ++ [(c_source c, c_item c)]).
Proof.
  intros [Hm Hc Hs Hn Hnd Hmem Hcap] (l & Hl & Hlt & Hnew & Hx)%build_candidates_elem.
  rewrite Hs in Hnew. rewrite Hn, (at2_count _ _ _ Hl) in Hlt.
  constructor; cbn [op_merged op_provenance op_seen op_count]; rewrite ?items_snoc, ?credit_snoc, ?fmap_app.
  - by rewrite Hm.
  - by rewrite Hc.
  - by rewrite Hs.
  - rewrite Hn, !count_of_snoc. destruct (two_lists _ _ _ _ Hl) as [[-> _]|[-> _]]; simpl; f_equal; lia.
  - apply NoDup_app. split_and!; [done| |apply NoDup_singleton].
    intros y Hy Hyx. apply list_elem_of_singleton in Hyx as ->. apply Hnew. by apply elem_of_list_to_set.
  - intros t x. rewrite elem_of_app, list_elem_of_singleton. intros [?|[= -> ->]]; eauto.
  - intros t. rewrite count_of_snoc. pose proof (Hcap t). case_decide; subst; lia.
Qed.

Lemma optimized_loop_spec todo : ∀ pos s tr,
  op_inv s tr → length tr + todo = k →
  ∃ s' tr', optimized_loop (E:=E) log2 exp list_a list_b algo_a_id algo_b_id k todo pos s = Ok s' ∧
    op_inv s' tr' ∧ capped ls cap k tr'.
Proof.
  induction todo as [|todo IH]; intros pos s tr Hinv Hlen; cbn [optimized_loop].
  { exists s, tr. destruct Hinv. split_and!; [done..|]. constructor; (done || lia). }
  destruct (build_candidates list_a list_b (op_seen s) (op_count s) cap) as [|c0 cs] eqn:Ec.
  { exists s, tr. split_and!; [done..|]. destruct Hinv as [_ _ Hs Hn ? ? Hcap].
    constructor; try done; [lia|]. intros t l _ Hl.
    destruct (build_candidates_nil _ _ _ _ Ec Hl) as [Hle|Hu].
    - left. rewrite Hn, (at2_count _ _ _ Hl) in Hle. pose proof (Hcap t). lia.
    - right. by rewrite <- Hs. }
  rewrite <- Ec. pose proof (softmax_sample_lt
    ((λ c, score_candidate log2 c pos (op_count s)) <$>
       build_candidates list_a list_b (op_seen s) (op_count s) cap) (op_rng s)) as Hidx.
  destruct (softmax_sample exp _ (op_rng s)) as [idx rng]. cbn [fst] in Hidx.
  rewrite length_fmap in Hidx.
  assert (is_Some (build_candidates list_a list_b (op_seen s) (op_count s) cap !! idx)) as [c Hc].
  { apply lookup_lt_is_Some, Hidx. by rewrite Ec. }
  unfold index. rewrite Hc. cbn [mbind result_bind].
  apply (IH _ _ (tr ++ [(c_source c, c_item c)])); [|rewrite length_app; simpl; lia].
  apply op_inv_pick; [done|]. by eapply list_elem_of_lookup_2.
Qed.

Lemma optimized_capped (rng : R) :
  ∃ r tr, optimized_interleave (E:=E) log2 exp list_a list_b algo_a_id algo_b_id k rng = Ok r ∧
    merged_list r = tr.*2 ∧ provenance r = credit ids tr ∧ capped ls cap k tr.
Proof.
  destruct (optimized_loop_spec k 0 (mk_opt [] ∅ ∅ (0, 0) rng) []) as (s & tr & Hl & Hinv & Hc).
  - constructor; try done; [constructor|by intros t x ?%elem_of_nil|intros t; unfold count_of; simpl; lia].
  - done.
  - unfold optimized_interleave. rewrite Hl. cbn [mbind result_bind]. do 2 eexists. split; [done|].
    destruct Hinv. by split_and!.
Qed.
End optimized.
End refinement.

(** ** The mergers *)

(** What an experimenter relies on: no item twice, as many items as the lists can give,
    credit to the team that picked the item, every team's items in its own order, and
    no team ahead by more than one pick of a team that still has items. *)
Definition fair_merge (ls : list (list str)) (ids : nat → str) (k : nat) (r : InterleavedResult)
    (tr : list (nat * str)) : Prop :=
  NoDup (merged_list r) ∧ length (merged_list r) = Nat.min k (size (catalogue ls)) ∧
  (∀ x a, provenance r !! x = Some a ↔ ∃ t, (t, x) ∈ tr ∧ a = ids t) ∧
  (∀ t l, ls !! t = Some l → picks_of t tr `sublist_of` l) ∧
  (∀ t t' l', ls !! t' = Some l' → unseen (items tr) l' ≠ [] → count_of t tr ≤ count_of t' tr + 1).

Lemma drafted_fair ls ids k r :
  drafted ls ids k r →
  ∃ tr, merged_list r = tr.*2 ∧ draft ls tr ∧ complete ls k tr ∧ fair_merge ls ids k r tr.
Proof.
  intros (tr & Hm & Hp & Hd & Hc). exists tr. split_and!; [done..|]. unfold fair_merge.
  rewrite Hm, Hp, length_fmap. split_and!.
  - by eapply draft_nodup.
  - by apply draft_length.
  - intros x a. by eapply credit_lookup, draft_nodup.
  - intros t l. by apply draft_rank_order.
  - intros t t' l'. by apply draft_balanced.
Qed.

(** Team draft is total and implements the two-team draft: whatever the coin
    does, the merge is the outcome of a complete fair draft. *)
Theorem team_draft_correct {R : Type} `{RngLaws R} {E : Type} list_a list_b ida idb k (rng : R) :
  ∃ r (tr : list (nat * str)), team_draft (E:=E) list_a list_b ida idb k rng = Ok r ∧
    merged_list r = tr.*2 ∧ draft [list_a; list_b] tr ∧ complete [list_a; list_b] k tr ∧
    fair_merge [list_a; list_b] (pair_ids ida idb) k r tr.
Proof.
  destruct (team_draft_drafted (E:=E) list_a list_b ida idb k rng) as (r & Hr & Hd).
  destruct (drafted_fair _ _ _ _ Hd) as (tr & ?). by exists r, tr.
Qed.

(** Multileave is total and implements the same draft for any number of teams:
    no index is out of range and no empty range is sampled. *)
Theorem multileave_correct {R : Type} `{RngLaws R} {E : Type} lists k (rng : R) :
  ∃ r (tr : list (nat * str)), multileave (E:=E) lists k rng = Ok r ∧
    merged_list r = tr.*2 ∧ draft lists.*1 tr ∧ complete lists.*1 k tr ∧
    fair_merge lists.*1 (team_ids lists) k r tr.
Proof.
  destruct (multileave_drafted (E:=E) lists k rng) as (r & Hr & Hd).
  destruct (drafted_fair _ _ _ _ Hd) as (tr & ?). by exists r, tr.
Qed.

(** Optimized interleaving is total whatever the scores are (NaN and
    infinities included): it takes no item twice, only items of the list it credits,
    at most half the slots (rounded up) from either list, and stops before [k] items
    only when every list is exhausted or at that cap. *)
Theorem optimized_correct {R : Type} `{RngLaws R} {E : Type} log2 exp list_a list_b ida idb k (rng : R) :
  ∃ r (tr : list (nat * str)), optimized_interleave (E:=E) log2 exp list_a list_b ida idb k rng = Ok r ∧
    merged_list r = tr.*2 ∧ provenance r = credit (pair_ids ida idb) tr ∧
    capped [list_a; list_b] ((k + 1) / 2) k tr.
Proof. apply optimized_capped. Qed.

Lemma team_draft_correct_witness :
  ∃ r (tr : list (nat * str)), team_draft (R:=counter) (E:=unit) [lit "x"; lit "y"] [lit "y"; lit "z"] (lit "A") (lit "B") 5 0
          = Ok r ∧ merged_list r = tr.*2 ∧
    fair_merge [[lit "x"; lit "y"]; [lit "y"; lit "z"]] (pair_ids (lit "A") (lit "B")) 5 r tr.
Proof.
  destruct (team_draft_correct (R:=counter) (E:=unit) [lit "x"; lit "y"] [lit "y"; lit "z"]
    (lit "A") (lit "B") 5 0) as (r & tr & Hr & Hm & _ & _ & Hf).
  exists r, tr. split; [exact Hr|]. split; [exact Hm|exact Hf].
Defined.

Lemma multileave_correct_witness :
  ∃ r (tr : list (nat * str)), multileave (R:=counter) (E:=unit)
            [([lit "x"; lit "y"], lit "A"); ([lit "y"], lit "B"); ([lit "z"], lit "C")] 4 0 = Ok r ∧
    merged_list r = tr.*2 ∧ length (merged_list r) = 3.
Proof.
  destruct (multileave_correct (R:=counter) (E:=unit)
    [([lit "x"; lit "y"], lit "A"); ([lit "y"], lit "B"); ([lit "z"], lit "C")] 4 0)
    as (r & tr & Hr & Hm & _ & _ & Hf).
  exists r, tr. split; [exact Hr|]. split; [exact Hm|]. exact (proj1 (proj2 Hf)).
Defined.

Lemma optimized_correct_witness :
  ∃ r (tr : list (nat * str)), optimized_interleave (R:=counter) (E:=unit) (λ x, x) (λ x, x) [lit "x"; lit "y"]
            [lit "y"; lit "z"] (lit "A") (lit "B") 4 0 = Ok r ∧
    merged_list r = tr.*2 ∧ capped [[lit "x"; lit "y"]; [lit "y"; lit "z"]] 2 4 tr.
Proof.
  destruct (optimized_correct (R:=counter) (E:=unit) (λ x, x) (λ x, x) [lit "x"; lit "y"]
    [lit "y"; lit "z"] (lit "A") (lit "B") 4 0) as (r & tr & Hr & Hm & _ & Hc).
  exists r, tr. split; [exact Hr|]. split; [exact Hm|exact Hc].
Defined.
