(* ===== verification/Interleave.v ===== *)
(** [AssignmentServiceImpl::interleave] and [extract_pairwise] ([service.rs]): the RPC
    that merges the ranked lists of a request, and what it answers. *)
From Stdlib Require Import Ascii String SpecFloat.
From S2P Require Import Prelude Bytes F64 Config Targeting Hash HashSpec Switchback Rng Assignment Interleaving InterleavingSpec.

Abbreviation AlgorithmLists := (gmap str (list str)).

Record GetInterleavedListResponse := mk_interleaved_response
  { gi_merged_list : list str; gi_provenance : gmap str str }.

Definition extract_pairwise (il_config : InterleavingConfig) (lists : AlgorithmLists) :
    service (str * str * list str * list str) :=
  _ ← reject_if (negb (size lists =? 2))
        (mk_status InvalidArgument (ExpectedTwoLists (size lists)));
  _ ← reject_if (negb (length (algorithm_ids il_config) =? 2))
        (mk_status FailedPrecondition (ExpectedTwoAlgorithms (length (algorithm_ids il_config))));
  algo_a_id ← index (algorithm_ids il_config) 0;
  algo_b_id ← index (algorithm_ids il_config) 1;
  list_a ← ok_or (lists !! algo_a_id) (mk_status InvalidArgument (MissingAlgorithmList algo_a_id));
  list_b ← ok_or (lists !! algo_b_id) (mk_status InvalidArgument (MissingAlgorithmList algo_b_id));
  mret (algo_a_id, algo_b_id, list_a, list_b).

(** The [MULTILEAVE] loop over the configured algorithms. *)
Fixpoint ordered_lists (ids : list str) (lists : AlgorithmLists) : service (list (list str * str)) :=
  match ids with
  | [] => mret []
  | id :: ids =>
      ranked ← ok_or (lists !! id) (mk_status InvalidArgument (MissingAlgorithmList id));
      rest ← ordered_lists ids lists;
      mret ((ranked, id) :: rest)
  end.

Definition total_items (ls : list (list str * str)) : nat := sum_list ((λ l, length l.1) <$> ls).

Section interleave.
Context {R : Type} `{Rng R} (log2 exp : f64 → f64).

Definition merge_lists (il_config : InterleavingConfig) (lists : AlgorithmLists) (rng : R) :
    service InterleavedResult :=
  let pairwise (merge : list str → list str → str → str → nat → R → service InterleavedResult) :=
    '(algo_a_id, algo_b_id, list_a, list_b) ← extract_pairwise il_config lists;
    let k := Nat.min (max_list_size il_config) (length list_a + length list_b) in
    merge list_a list_b algo_a_id algo_b_id k rng in
  if is_lit (il_method il_config) "TEAM_DRAFT" || is_lit (il_method il_config) ""
  then pairwise team_draft
  else if is_lit (il_method il_config) "OPTIMIZED"
  then pairwise (optimized_interleave log2 exp)
  else if is_lit (il_method il_config) "MULTILEAVE"
  then
    _ ← reject_if (length (algorithm_ids il_config) <? 3)
          (mk_status FailedPrecondition (TooFewAlgorithms (length (algorithm_ids il_config))));
    ls ← ordered_lists (algorithm_ids il_config) lists;
    multileave ls (Nat.min (max_list_size il_config) (total_items ls)) rng
  else Err (mk_status InvalidArgument (UnsupportedMethod (il_method il_config))).

Definition interleave (config : Config) (experiment_id user_id : str) (lists : AlgorithmLists) :
    service GetInterleavedListResponse :=
  exp ← ok_or (experiments_by_id config !! experiment_id)
          (mk_status NotFound (ExperimentMissing experiment_id));
  _ ← reject_if (negb (is_lit (state exp) "RUNNING"))
        (mk_status FailedPrecondition (NotRunning experiment_id (state exp)));
  il_config ← ok_or (interleaving_config exp)
                (mk_status FailedPrecondition (NoInterleavingConfig experiment_id));
  seed ← seed_of (user_id ++ nul :: experiment_id);
  r ← merge_lists il_config lists (seed_from_u64 seed);
  mret (mk_interleaved_response (merged_list r) (provenance r)).
End interleave.

(** ** What the RPC answers *)

(** Every served item is served once, and credited to a configured algorithm whose list
    in the request holds it; nothing else is credited. *)
Definition attributed (names : list str) (lists : AlgorithmLists) (merged : list str)
    (prov : gmap str str) : Prop :=
  NoDup merged ∧
  (∀ x, x ∈ merged → ∃ a l, prov !! x = Some a ∧ a ∈ names ∧ lists !! a = Some l ∧ x ∈ l) ∧
  (∀ x a, prov !! x = Some a → x ∈ merged).

(** A merge of lists [ls] named by [ids] is attributed when every list is the
    request's list of its name. *)
Lemma picks_attributed names lists (ls : list (list str)) (ids : nat → str) (tr : list (nat * str))
    (merged : list str) prov :
  NoDup merged → merged = tr.*2 →
  (∀ x a, prov !! x = Some a ↔ ∃ t, (t, x) ∈ tr ∧ a = ids t) →
  (∀ t x, (t, x) ∈ tr → ∃ l, ls !! t = Some l ∧ x ∈ l) →
  (∀ t l, ls !! t = Some l → ids t ∈ names ∧ lists !! ids t = Some l) →
  attributed names lists merged prov.
Proof.
  intros Hnd -> Hprov Hmem Hids. split_and!; [done| |].
  - intros x ([t y] & -> & Hx)%list_elem_of_fmap. simpl. destruct (Hmem _ _ Hx) as (l & Hl & Hxl).
    destruct (Hids _ _ Hl) as [Hn Hlk]. exists (ids t), l. split_and!; [|done..].
    apply Hprov. eauto.
  - intros x a (t & Ht & _)%Hprov. apply list_elem_of_fmap. by exists (t, x).
Qed.

Lemma fair_attributed names lists ls ids k r tr :
  merged_list r = tr.*2 → draft ls tr → complete ls k tr → fair_merge ls ids k r tr →
  (∀ t l, ls !! t = Some l → ids t ∈ names ∧ lists !! ids t = Some l) →
  attributed names lists (merged_list r) (provenance r) ∧ length (merged_list r) ≤ k.
Proof.
  intros Hm Hd [Hk _] (Hnd & _ & Hprov & _) Hids. split; [|by rewrite Hm, length_fmap].
  apply (picks_attributed names lists ls ids tr); try done. intros t x. by apply draft_member.
Qed.

Lemma extract_pairwise_ok il lists a b la lb :
  extract_pairwise il lists = Ok (a, b, la, lb) →
  algorithm_ids il = [a; b] ∧ lists !! a = Some la ∧ lists !! b = Some lb.
Proof.
  unfold extract_pairwise, reject_if, index.
  destruct (size lists =? 2); [|done]. cbn [negb mbind result_bind].
  destruct (algorithm_ids il) as [|x [|y [|? ?]]]; try done. simpl.
  destruct (lists !! x) as [lx|] eqn:Ex; [|done]. simpl.
  destruct (lists !! y) as [ly|] eqn:Ey; [|done]. simpl. intros [= <- <- <- <-]. done.
Qed.

Lemma extract_pairwise_returns il lists : returns (extract_pairwise il lists).
Proof.
  unfold extract_pairwise, reject_if, index. destruct (size lists =? 2); [|done].
  cbn [negb mbind result_bind]. destruct (algorithm_ids il) as [|x [|y [|? ?]]]; try done. simpl.
  destruct (lists !! x); [|done]. simpl. by destruct (lists !! y).
Qed.

Lemma pair_lists (names : list str) (lists : AlgorithmLists) a b la lb :
  names = [a; b] → lists !! a = Some la → lists !! b = Some lb →
  ∀ t l, [la; lb] !! t = Some l → pair_ids a b t ∈ names ∧ lists !! pair_ids a b t = Some l.
Proof.
  intros -> Ha Hb t l [[-> ->]|[-> ->]]%two_lists; simpl; (split; [|done]).
  - by left.
  - right. by left.
Qed.

Lemma ordered_lists_ok ids lists ls :
  ordered_lists ids lists = Ok ls →
  ∀ t p, ls !! t = Some p → ids !! t = Some p.2 ∧ lists !! p.2 = Some p.1.
Proof.
  revert ls. induction ids as [|id ids IH]; intros ls; simpl; [by intros [= <-]|].
  destruct (lists !! id) as [ranked|] eqn:Er; [|done]. simpl.
  intros (rest & Hrest & [= <-])%bind_ok_inv [|t] p; simpl; [by intros [= <-]|]. by apply IH.
Qed.

Lemma ordered_lists_returns ids lists : returns (ordered_lists ids lists).
Proof.
  induction ids as [|id ids IH]; [done|]. simpl. destruct (lists !! id); [|done]. simpl.
  apply bind_returns; [done|]. done.
Qed.

Section correct.
Context {R : Type} `{RngLaws R} (log2 exp : f64 → f64).

Lemma merge_lists_correct il lists (rng : R) :
  returns (merge_lists log2 exp il lists rng) ∧
  ∀ r, merge_lists log2 exp il lists rng = Ok r →
    attributed (algorithm_ids il) lists (merged_list r) (provenance r) ∧
    length (merged_list r) ≤ max_list_size il.
Proof.
  assert (∀ merge : list str → list str → str → str → nat → R → service InterleavedResult,
    (∀ la lb a b k, algorithm_ids il = [a; b] → lists !! a = Some la → lists !! b = Some lb →
       ∃ r, merge la lb a b k rng = Ok r ∧
         attributed (algorithm_ids il) lists (merged_list r) (provenance r) ∧
         length (merged_list r) ≤ k) →
    let m := ('(a, b, la, lb) ← extract_pairwise il lists;
              merge la lb a b (Nat.min (max_list_size il) (length la + length lb)) rng) in
    returns m ∧ ∀ r, m = Ok r → attributed (algorithm_ids il) lists (merged_list r) (provenance r) ∧
      length (merged_list r) ≤ max_list_size il) as Hpair.
  { intros merge Hmerge. pose proof (extract_pairwise_returns il lists) as Hret. cbv zeta.
    destruct (extract_pairwise il lists) as [[[[a b] la] lb]|e| |] eqn:E; try done. simpl.
    apply extract_pairwise_ok in E as (Hids & Ha & Hb).
    destruct (Hmerge la lb a b (Nat.min (max_list_size il) (length la + length lb)) Hids Ha Hb)
      as (r & -> & Hatt & Hlen). split; [done|]. intros ? [= <-]. split; [done|lia]. }
  unfold merge_lists. destruct (_ || _).
  { apply Hpair. intros la lb a b k Hids Ha Hb.
    destruct (team_draft_drafted (E:=Status) la lb a b k rng) as (r & Hr & Hd).
    destruct (drafted_fair _ _ _ _ Hd) as (tr & Hm & Hdr & Hc & Hf). exists r. split; [done|].
    eapply fair_attributed; [done..|]. by apply pair_lists. }
  destruct (is_lit (il_method il) "OPTIMIZED").
  { apply Hpair. intros la lb a b k Hids Ha Hb.
    destruct (optimized_capped (E:=Status) log2 exp la lb a b k rng) as (r & tr & Hr & Hm & Hp & Hc).
    exists r. split; [done|]. split; [|rewrite Hm, length_fmap; by apply (cap_length _ _ _ _ Hc)].
    eapply (picks_attributed _ _ [la; lb] (pair_ids a b) tr).
    - rewrite Hm. by apply (cap_nodup _ _ _ _ Hc).
    - done.
    - intros x y. rewrite Hp. by apply credit_lookup, (cap_nodup _ _ _ _ Hc).
    - by apply (cap_member _ _ _ _ Hc).
    - by apply pair_lists. }
  destruct (is_lit (il_method il) "MULTILEAVE"); [|done].
  unfold reject_if. destruct (_ <? 3); [done|]. cbn [mbind result_bind].
  pose proof (ordered_lists_returns (algorithm_ids il) lists) as Hret.
  destruct (ordered_lists (algorithm_ids il) lists) as [ls|e| |] eqn:E; try done. simpl.
  destruct (multileave_drafted (E:=Status) ls (Nat.min (max_list_size il) (total_items ls)) rng)
    as (r & -> & Hd).
  destruct (drafted_fair _ _ _ _ Hd) as (tr & Hm & Hdr & Hc & Hf). split; [done|]. intros ? [= <-].
  destruct (fair_attributed (algorithm_ids il) lists _ _ _ _ _ Hm Hdr Hc Hf) as [Ha Hk]; [|split; [done|lia]].
  intros t l Hl. rewrite list_lookup_fmap in Hl. apply fmap_Some in Hl as (p & Hp & ->).
  unfold team_ids. rewrite (list_lookup_total_correct _ _ _ Hp).
  destruct (ordered_lists_ok _ _ _ E t p Hp) as [Hid Hlk]. split; [|done].
  by eapply list_elem_of_lookup_2.
Qed.

(** The interleaving RPC never panics; it answers only for a running
    experiment with an interleaving configuration, with at most [max_list_size] items,
    each served once and credited to a configured algorithm whose list in the request
    holds it. This is so for all three methods. *)
Theorem interleave_correct cfg id user lists :
  returns (interleave (R:=R) log2 exp cfg id user lists) ∧
  ∀ resp, interleave (R:=R) log2 exp cfg id user lists = Ok resp →
    ∃ exp il, experiments_by_id cfg !! id = Some exp ∧ state exp = lit "RUNNING" ∧
      interleaving_config exp = Some il ∧
      attributed (algorithm_ids il) lists (gi_merged_list resp) (gi_provenance resp) ∧
      length (gi_merged_list resp) ≤ max_list_size il.
Proof.
  unfold interleave. destruct (experiments_by_id cfg !! id) as [e|] eqn:He; [|done]. simpl.
  unfold reject_if. destruct (is_lit (state e) "RUNNING") eqn:Es; [|done]. simpl.
  destruct (interleaving_config e) as [il|] eqn:Eil; [|done]. simpl. rewrite seed_of_ok.
  cbn [mbind result_bind]. set (rng := seed_from_u64 _).
  destruct (merge_lists_correct il lists rng) as [Hret Hok].
  destruct (merge_lists log2 exp il lists rng) as [r|err| |]; try done. simpl. split; [done|].
  intros resp [= <-]. simpl. destruct (Hok r eq_refl) as [Ha Hk]. exists e, il.
  split_and!; try done. by apply bool_decide_eq_true in Es.
Qed.
End correct.

Definition sample_interleaving : Config :=
  from_experiments_and_layers
    [mk_experiment_config (lit "il") [] (lit "RUNNING") (lit "INTERLEAVING") (lit "s") (lit "L") []
       (mk_allocation_config 0 9999) None None
       (Some (mk_interleaving_config (lit "TEAM_DRAFT") [lit "A"; lit "B"] 3)) None false None None] [].

Definition sample_lists : AlgorithmLists :=
  {[lit "A" := [lit "x"; lit "y"]; lit "B" := [lit "y"; lit "z"]]}.

Lemma interleave_correct_witness :
  ∃ resp, interleave (R:=counter) (λ x, x) (λ x, x) sample_interleaving (lit "il") (lit "u1") sample_lists
          = Ok resp ∧ length (gi_merged_list resp) = 3 ∧ NoDup (gi_merged_list resp).
Proof.
  destruct (interleave (R:=counter) (λ x, x) (λ x, x) sample_interleaving (lit "il") (lit "u1")
    sample_lists) as [resp| | |] eqn:E; try (vm_compute in E; discriminate).
  exists resp. split; [reflexivity|]. split; [vm_compute in E; injection E as <-; reflexivity|].
  destruct (interleave_correct (R:=counter) (λ x, x) (λ x, x) sample_interleaving (lit "il") (lit "u1")
    sample_lists) as [_ H]. destruct (H resp E) as (e & il & _ & _ & _ & (Hnd & _) & _). exact Hnd.
Defined.
