(* ===== verification/MetricStore.v ===== *)
(** Metric definitions as the management store keeps them, and [MetricLookup], the
    interface through which the validators read them ([validators/metric_definition.rs],
    [store.rs]). The PostgreSQL table is the map of its rows. *)
From Stdlib Require Import Ascii String SpecFloat.
From S2P Require Import Prelude Bytes F64 Ast Parser Analyze Targeting.

Inductive MetricType :=
| MetricUnspecified | Mean | Proportion | Ratio | Count | Percentile | Custom
| FilteredMean | Composite | WindowedCount | Metricql.

#[export] Instance metric_type_eq_dec : EqDecision MetricType.
Proof. solve_decision. Defined.

(** [CompositeOperator], after [try_from(i32).unwrap_or(Unspecified)]. *)
Inductive CompositeOperator :=
| OpUnspecified | OpAdd | OpSubtract | OpMultiply | OpDivide | OpWeightedSum.

Definition composite_operator (n : Z) : CompositeOperator :=
  match n with
  | 1 => OpAdd | 2 => OpSubtract | 3 => OpMultiply | 4 => OpDivide | 5 => OpWeightedSum
  | _ => OpUnspecified
  end%Z.

Record CompositeOperand := mk_operand { operand_id : str; operand_weight : f64 }.
Record CompositeConfig := mk_composite { operands : list CompositeOperand; operator : Z }.
Record FilteredMeanConfig := mk_filtered_mean { fm_filter_sql : str; value_column : str }.
Record WindowedCountConfig := mk_windowed_count
  { event_type : str; wc_filter_sql : str; window_hours : Z }.

Inductive TypeConfig :=
| TypeFilteredMean (cfg : FilteredMeanConfig)
| TypeComposite (cfg : CompositeConfig)
| TypeWindowedCount (cfg : WindowedCountConfig).

(** The fields of [MetricDefinition] the validators and the row constraints read. *)
Record MetricDefinition := mk_metric
  { metric_id : str; metric_name : str; metric_type : MetricType;
    type_config : option TypeConfig; metricql_expression : str; custom_sql : str }.

Inductive StoreError := NotFound (msg : str) | AlreadyExists (msg : str) | DbError.

(** ** Rows *)

Definition metric_type_to_sql (t : MetricType) : str :=
  match t with
  | MetricUnspecified => [] | Mean => lit "MEAN" | Proportion => lit "PROPORTION"
  | Ratio => lit "RATIO" | Count => lit "COUNT" | Percentile => lit "PERCENTILE"
  | Custom => lit "CUSTOM" | FilteredMean => lit "FILTERED_MEAN" | Composite => lit "COMPOSITE"
  | WindowedCount => lit "WINDOWED_COUNT" | Metricql => lit "METRICQL"
  end.

Definition metric_type_from_sql (s : str) : MetricType :=
  if is_lit s "MEAN" then Mean else if is_lit s "PROPORTION" then Proportion
  else if is_lit s "RATIO" then Ratio else if is_lit s "COUNT" then Count
  else if is_lit s "PERCENTILE" then Percentile else if is_lit s "CUSTOM" then Custom
  else if is_lit s "FILTERED_MEAN" then FilteredMean else if is_lit s "COMPOSITE" then Composite
  else if is_lit s "WINDOWED_COUNT" then WindowedCount else if is_lit s "METRICQL" then Metricql
  else MetricUnspecified.

(** A row of [metric_definitions]. The JSON of [type_config] is kept as the oneof it
    was built from ([build_metric_type_config] writes every field of it). *)
Record MetricRow := mk_metric_row
  { row_type : str; row_type_config : option TypeConfig; row_expression : option str;
    row_custom_sql : option str }.

Abbreviation Metrics := (gmap str MetricRow).

(** [opt_str]: the empty proto string is NULL. *)
Definition opt_str (s : str) : option str := match s with [] => None | _ => Some s end.

Definition row_of (m : MetricDefinition) : MetricRow :=
  mk_metric_row (metric_type_to_sql (metric_type m)) (type_config m)
    (opt_str (metricql_expression m)) (opt_str (custom_sql m)).

Definition set_columns {A} (o : option A) : nat := match o with Some _ => 1 | None => 0 end.

(** The CHECK constraints [metric_definitions_type_check] and
    [metric_definitions_single_definition_source]. *)
Definition row_checks (r : MetricRow) : bool :=
  negb (bool_decide (metric_type_from_sql (row_type r) = MetricUnspecified))
  && (set_columns (row_custom_sql r) + set_columns (row_type_config r)
      + set_columns (row_expression r) <=? 1).

(** [create_metric]: the INSERT, on the primary key [metric_id]. *)
Definition create_metric (m : MetricDefinition) (db : Metrics) : result StoreError Metrics :=
  if bool_decide (is_Some (db !! metric_id m)) then Err (AlreadyExists (metric_id m))
  else if row_checks (row_of m) then Ok (<[metric_id m := row_of m]> db) else Err DbError.

(** ** The lookup interface *)

(** What the validators need of a store: four read-only queries. *)
Class MetricLookup (S : Type) := {
  exists_all_metrics : S → list str → result StoreError bool;
  get_composite_operands : S → str → result StoreError (list str);
  get_metricql_refs : S → str → result StoreError (list str);
  get_metric_type : S → str → result StoreError MetricType
}.

Definition find_row (db : Metrics) (id : str) : result StoreError MetricRow :=
  match db !! id with Some r => Ok r | None => Err (NotFound id) end.

Definition pg_exists_all (db : Metrics) (ids : list str) : result StoreError bool :=
  match ids with
  | [] => Ok true
  | _ =>
      let owned := remove_dups ids in
      Ok (length (filter (λ id, is_Some (db !! id)) owned) =? length owned)
  end.

Definition pg_composite_operands (db : Metrics) (id : str) : result StoreError (list str) :=
  r ← find_row db id;
  if negb (is_lit (row_type r) "COMPOSITE") then mret []
  else match row_type_config r with
  | Some (TypeComposite cfg) => mret (operand_id <$> operands cfg)
  | _ => mret []
  end.

Definition pg_metricql_refs (db : Metrics) (id : str) : result StoreError (list str) :=
  r ← find_row db id;
  if negb (is_lit (row_type r) "METRICQL") then mret []
  else match row_expression r with
  | Some e =>
      if trim_is_empty e then mret []
      else match parse_only e with
      | Ok n => mret (extract_metric_refs n)
      | Err _ => mret []
      | Panics => Panics
      | OutOfFuel => OutOfFuel
      end
  | None => mret []
  end.

Definition pg_metric_type (db : Metrics) (id : str) : result StoreError MetricType :=
  r ← find_row db id; mret (metric_type_from_sql (row_type r)).

#[export] Instance management_store : MetricLookup Metrics := {
  exists_all_metrics := pg_exists_all;
  get_composite_operands := pg_composite_operands;
  get_metricql_refs := pg_metricql_refs;
  get_metric_type := pg_metric_type
}.

(** The successors of a metric in the reference graph, dispatched on its type. *)
Definition neighbors {S} `{MetricLookup S} (lookup : S) (id : str) : result StoreError (list str) :=
  t ← get_metric_type lookup id;
  match t with
  | Composite => get_composite_operands lookup id
  | Metricql => get_metricql_refs lookup id
  | _ => mret []
  end.

(** ** Facts about the store *)

Lemma metric_type_round_trip t : metric_type_from_sql (metric_type_to_sql t) = t.
Proof. by destruct t. Qed.

Lemma pg_exists_all_true db ids :
  pg_exists_all db ids = Ok true ↔ ∀ id, id ∈ ids → is_Some (db !! id).
Proof.
  unfold pg_exists_all. destruct ids as [|i ids].
  { split; [|done]. by intros _ id ?%elem_of_nil. }
  remember (i :: ids) as l eqn:El. clear El i ids.
  assert (length (filter (λ id, is_Some (db !! id)) (remove_dups l)) = length (remove_dups l) ↔
          ∀ id, id ∈ l → is_Some (db !! id)) as <-.
  2: { rewrite <- Nat.eqb_eq. destruct (_ =? _); naive_solver. }
  setoid_rewrite <- elem_of_remove_dups. generalize (remove_dups l). clear l. intros l.
  induction l as [|x l IH]; [split; [by intros _ id ?%elem_of_nil|done]|].
  rewrite filter_cons. pose proof (length_filter (λ id, is_Some (db !! id)) l) as Hlen.
  destruct (decide (is_Some (db !! x))) as [Hx|Hx]; simpl.
  - split.
    + intros [= E] id [-> |Hid]%elem_of_cons; [done|]. by apply IH.
    + intros Hall. f_equal. apply IH. intros id Hid. apply Hall. by right.
  - split; [lia|]. intros Hall. destruct Hx. apply Hall. by left.
Qed.
