(* ===== verification/Cycle.v ===== *)
(** The cycle and depth check over the metric reference graph
    ([validators/cycle.rs]): an iterative three-colour depth-first walk, against the
    lookup interface. *)
From Stdlib Require Import Ascii String.
From S2P Require Import Prelude Bytes Ast Parser ParserSpec Analyze MetricStore.

Inductive Color := Gray | Black.

Inductive CycleError :=
| SelfReference (id : str)
| DepthExceeded (depth cap : nat)
| CycleDetected (path : list str) (child : str)
| OperandNotFound (child : str)
| OperandLookupFailed (child : str)
| WalkFailed (e : StoreError).

(** A stack frame: a node, its children still to visit, its depth, and the path to it. *)
Record Frame := mk_frame
  { f_node : str; f_remaining : list str; f_depth : nat; f_path : list str }.

Section cycle.
Context {S : Type} `{MetricLookup S} (lookup : S).

(** The children of a metric, dispatched on its type; a missing row is an error of its
    own at either query. *)
Definition child_neighbors (child : str) : result CycleError (list str) :=
  match get_metric_type lookup child with
  | Ok t =>
      match
        match t with
        | Composite => get_composite_operands lookup child
        | Metricql => get_metricql_refs lookup child
        | _ => Ok []
        end
      with
      | Ok v => Ok v
      | Err (NotFound _) => Err (OperandLookupFailed child)
      | Err e => Err (WalkFailed e)
      | Panics => Panics
      | OutOfFuel => OutOfFuel
      end
  | Err (NotFound _) => Err (OperandNotFound child)
  | Err e => Err (WalkFailed e)
  | Panics => Panics
  | OutOfFuel => OutOfFuel
  end.

Section walk.
Context (depth_cap : nat).

Fixpoint walk (fuel : nat) (color : gmap str Color) (stack : list Frame) : result CycleError unit :=
  match fuel with
  | 0 => OutOfFuel
  | Datatypes.S fuel =>
      match stack with
      | [] => mret tt
      | frame :: below =>
          match f_remaining frame with
          | child :: remaining =>
              let child_depth := f_depth frame + 1 in
              let frame' := mk_frame (f_node frame) remaining (f_depth frame) (f_path frame) in
              if depth_cap <? child_depth then Err (DepthExceeded child_depth depth_cap)
              else match color !! child with
              | Some Gray => Err (CycleDetected (f_path frame) child)
              | Some Black => walk fuel color (frame' :: below)
              | None =>
                  grandchildren ← child_neighbors child;
                  walk fuel (<[child := Gray]> color)
                    (mk_frame child grandchildren child_depth (f_path frame ++ [child])
                     :: frame' :: below)
              end
          | [] => walk fuel (<[f_node frame := Black]> color) below
          end
      end
  end.

(** A bound on the rounds: the size of the unfolding of the graph to the depth cap. *)
Definition children_of (id : str) : list str :=
  match child_neighbors id with Ok ns => ns | _ => [] end.

Fixpoint unfolding (levels : nat) (ops : list str) : nat :=
  match levels with
  | 0 => length ops
  | Datatypes.S levels => sum_list ((λ c, 2 + unfolding levels (children_of c)) <$> ops)
  end.
End walk.

Definition check_no_cycles (start_metric_id : str) (direct_operands : list str)
    (depth_cap : nat) : result CycleError unit :=
  _ ← reject_if (bool_decide (start_metric_id ∈ direct_operands)) (SelfReference start_metric_id);
  _ ← reject_if ((depth_cap =? 0) && negb (bool_decide (direct_operands = [])))
        (DepthExceeded 1 depth_cap);
  walk depth_cap (unfolding depth_cap direct_operands + 2)
    {[start_metric_id := Gray]}
    [mk_frame start_metric_id direct_operands 0 [start_metric_id]].
End cycle.

(** ** Specification *)

Section spec.
Context {S : Type} `{MetricLookup S} (lookup : S).
Context (start : str) (ops : list str) (cap : nat).
Notation child_neighbors := (child_neighbors lookup).

(** The reference graph with the new metric added. *)
Definition succ (x y : str) : Prop :=
  if decide (x = start) then y ∈ ops else ∃ ns, child_neighbors x = Ok ns ∧ y ∈ ns.

Definition resolves (x : str) : Prop := x = start ∨ ∃ ns, child_neighbors x = Ok ns.

(** Consecutive elements are edges. *)
Fixpoint chain (path : list str) : Prop :=
  match path with
  | x :: ((y :: _) as path') => succ x y ∧ chain path'
  | _ => True
  end.

(** What an error says of the graph. *)
Definition explains (e : CycleError) : Prop :=
  match e with
  | SelfReference id => id = start ∧ succ start start
  | DepthExceeded d c => c = cap ∧ cap < d ∧ ∃ x, nsteps succ d start x
  | CycleDetected path child =>
      head path = Some start ∧ chain (path ++ [child]) ∧ child ∈ path ∧ tc succ child child
  | e => ∃ x, x ≠ start ∧ rtc succ start x ∧ child_neighbors x = Err e
  end.

(** A listing of finished nodes: every successor of a node comes before it. *)
Definition topological (fin : list str) : Prop :=
  ∀ i x, fin !! i = Some x → resolves x ∧ ∀ y, succ x y → ∃ j, j < i ∧ fin !! j = Some y.

Lemma topological_snoc fin x :
  topological fin → resolves x → (∀ y, succ x y → y ∈ fin) → topological (fin ++ [x]).
Proof.
  intros Ht Hx Hs i z Hi. apply lookup_app_Some in Hi as [Hi|[Hge Hi]].
  - destruct (Ht i z Hi) as [Hr Hz]. split; [done|]. intros y Hy.
    destruct (Hz y Hy) as (j & Hj & Hl). exists j. split; [done|]. by apply lookup_app_l_Some.
  - apply list_lookup_singleton_Some in Hi as [Hi <-]. split; [done|]. intros y Hy.
    apply Hs, list_elem_of_lookup in Hy as [j Hj]. exists j. pose proof (lookup_lt_Some _ _ _ Hj).
    split; [lia|]. by apply lookup_app_l_Some.
Qed.

Lemma topological_closed fin x y : topological fin → x ∈ fin → rtc succ x y → y ∈ fin.
Proof.
  intros Ht Hx Hxy. induction Hxy as [|x y z Hs _ IH]; [done|]. apply IH.
  apply list_elem_of_lookup in Hx as [i Hi]. destruct (Ht i x Hi) as [_ Hy].
  destruct (Hy y Hs) as (j & _ & Hj). by eapply list_elem_of_lookup_2.
Qed.

Lemma topological_earlier fin i x y :
  topological fin → fin !! i = Some x → tc succ x y → ∃ j, j < i ∧ fin !! j = Some y.
Proof.
  intros Ht Hi Hxy. revert i Hi. induction Hxy as [x y Hs|x y z Hs _ IH]; intros i Hi.
  - by apply (Ht i x Hi).
  - destruct (Ht i x Hi) as [_ Hy]. destruct (Hy y Hs) as (j & Hj & Hl).
    destruct (IH j Hl) as (j' & Hj' & Hl'). exists j'. split; [lia|done].
Qed.

Lemma topological_acyclic fin x : topological fin → x ∈ fin → ¬ tc succ x x.
Proof.
  intros Ht [i Hi]%list_elem_of_lookup Hc. revert Hi. induction (lt_wf i) as [i _ IH]. intros Hi.
  destruct (topological_earlier _ _ _ _ Ht Hi Hc) as (j & Hj & Hl). by apply (IH j).
Qed.

(** ** The invariant of the walk *)

(** The frames form a path of the graph from the root up. *)
Inductive stack_ok : list Frame → Prop :=
| so_nil : stack_ok []
| so_root rem : stack_ok [mk_frame start rem 0 [start]]
| so_push child rem f below :
    stack_ok (f :: below) → succ (f_node f) child →
    stack_ok (mk_frame child rem (f_depth f + 1) (f_path f ++ [child]) :: f :: below).

(** The successors of a frame's node are still to visit, finished, or just above. *)
Definition covered (color : gmap str Color) (above : option str) (f : Frame) : Prop :=
  resolves (f_node f) ∧
  ∀ y, succ (f_node f) y → y ∈ f_remaining f ∨ color !! y = Some Black ∨ above = Some y.

Fixpoint all_covered (color : gmap str Color) (above : option str) (stack : list Frame) : Prop :=
  match stack with
  | [] => True
  | f :: below => covered color above f ∧ all_covered color (Some (f_node f)) below
  end.

Record walk_inv (color : gmap str Color) (stack : list Frame) : Prop := mk_walk_inv
  { wi_stack : stack_ok stack;
    wi_gray x : color !! x = Some Gray ↔ x ∈ f_node <$> stack;
    wi_nodup : NoDup (f_node <$> stack);
    wi_fin : ∃ fin, topological fin ∧ ∀ x, color !! x = Some Black ↔ x ∈ fin;
    wi_covered : all_covered color None stack;
    wi_rem : Forall (λ f, ∀ y, y ∈ f_remaining f → succ (f_node f) y) stack;
    wi_start : stack = [] → color !! start = Some Black }.

(** What a topological listing of the reachable nodes says of the graph. *)
Lemma finished_sound :
  (∃ fin, topological fin ∧ start ∈ fin) →
  ∀ x, rtc succ start x → resolves x ∧ ¬ tc succ x x.
Proof.
  intros (fin & Ht & Hs) x Hx. assert (x ∈ fin) as Hin by by eapply topological_closed.
  split; [|by eapply topological_acyclic].
  apply list_elem_of_lookup in Hin as [i Hi]. by apply (Ht i x).
Qed.

Lemma stack_ok_remaining f below rem :
  stack_ok (f :: below) → stack_ok (mk_frame (f_node f) rem (f_depth f) (f_path f) :: below).
Proof. inversion_clear 1; by constructor. Qed.

Lemma stack_ok_tail f below : stack_ok (f :: below) → stack_ok below.
Proof. inversion 1; subst; [constructor|done]. Qed.

Lemma stack_ok_steps f below : stack_ok (f :: below) → nsteps succ (f_depth f) start (f_node f).
Proof.
  remember (f :: below) as st eqn:E. intros Hst. revert f below E.
  induction Hst as [|rem|child rem g below' Hst IH Hs]; intros f below E; simplify_eq/=.
  - constructor.
  - rewrite Nat.add_1_r. eapply nsteps_r; [by eapply IH|done].
Qed.

Lemma stack_ok_reach f below x : stack_ok (f :: below) → x ∈ f_node <$> (f :: below) → rtc succ x (f_node f).
Proof.
  remember (f :: below) as st eqn:E. intros Hst. revert f below E.
  induction Hst as [|rem|child rem g below' Hst IH Hs]; intros f below E; simplify_eq/=.
  - intros [-> | []%elem_of_nil]%elem_of_cons. constructor.
  - intros [-> |Hx]%elem_of_cons; [constructor|]. eapply rtc_r; [|done]. by eapply IH.
Qed.

Lemma stack_ok_start f below : stack_ok (f :: below) → start ∈ f_node <$> (f :: below).
Proof.
  remember (f :: below) as st eqn:E. intros Hst. revert f below E.
  induction Hst as [|rem|child rem g below' Hst IH Hs]; intros f below E; simplify_eq/=; [by left|].
  right. by apply (IH g below').
Qed.

Lemma all_covered_mono color color' above stack :
  (∀ x, color !! x = Some Black → color' !! x = Some Black) →
  all_covered color above stack → all_covered color' above stack.
Proof.
  intros Hc. revert above. induction stack as [|f below IH]; intros above; [done|]. simpl.
  intros [[Hr Hf] Hb]. split; [|by apply IH]. split; [done|]. intros y Hy.
  destruct (Hf y Hy) as [?|[?|?]]; auto.
Qed.

Lemma suc_remaining f below child rem :
  Forall (λ f, ∀ y, y ∈ f_remaining f → succ (f_node f) y) (f :: below) →
  f_remaining f = child :: rem →
  Forall (λ f, ∀ y, y ∈ f_remaining f → succ (f_node f) y)
    (mk_frame (f_node f) rem (f_depth f) (f_path f) :: below).
Proof.
  intros [Hf Hb]%Forall_cons Hrem. constructor; [|done]. simpl. intros y Hy. apply Hf.
  rewrite Hrem. by right.
Qed.

Lemma succ_inner x ns y : x ≠ start → child_neighbors x = Ok ns → succ x y ↔ y ∈ ns.
Proof.
  intros Hx Hns. unfold succ. rewrite decide_False, Hns by done. naive_solver.
Qed.

(** Popping a finished frame. *)
Lemma walk_inv_pop color f below :
  walk_inv color (f :: below) → f_remaining f = [] → walk_inv (<[f_node f := Black]> color) below.
Proof.
  intros [Hst Hg Hnd (fin & Ht & Hfin) [[Hr Hcov] Hbelow] Hsuc _] Hrem. simpl in Hnd.
  apply NoDup_cons in Hnd as [Hnew Hnd]. constructor.
  - by eapply stack_ok_tail.
  - intros x. destruct (decide (x = f_node f)) as [->|Hne].
    + rewrite lookup_insert_eq. split; [done|]. by intros ?%Hnew.
    + rewrite lookup_insert_ne, Hg by done. simpl. rewrite elem_of_cons. naive_solver.
  - done.
  - exists (fin ++ [f_node f]). split.
    + apply topological_snoc; [done..|]. intros y Hy. apply Hfin.
      destruct (Hcov y Hy) as [Hin|[?|?]]; [|done..]. rewrite Hrem in Hin. by apply elem_of_nil in Hin.
    + intros x. rewrite elem_of_app, list_elem_of_singleton.
      destruct (decide (x = f_node f)) as [->|Hne].
      * rewrite lookup_insert_eq. tauto.
      * rewrite lookup_insert_ne, Hfin by done. tauto.
  - clear Hst Hg Hnd Hcov Hr. destruct below as [|g below]; [done|].
    destruct Hbelow as [[Hr Hcov] Hrest]. split.
    + split; [done|]. intros y Hy. destruct (decide (y = f_node f)) as [->|Hne].
      * right. left. by rewrite lookup_insert_eq.
      * destruct (Hcov y Hy) as [?|[?|HN]]; [by left| |congruence]. right. left.
        by rewrite lookup_insert_ne.
    + eapply all_covered_mono; [|exact Hrest]. intros x Hx.
      destruct (decide (x = f_node f)) as [->|Hne]; [by rewrite lookup_insert_eq|].
      by rewrite lookup_insert_ne.
  - by inversion Hsuc.
  - intros ->. inversion Hst; subst. simpl. by rewrite lookup_insert_eq.
Qed.

(** Skipping a finished child. *)
Lemma walk_inv_skip color f below child rem :
  walk_inv color (f :: below) → f_remaining f = child :: rem → color !! child = Some Black →
  walk_inv color (mk_frame (f_node f) rem (f_depth f) (f_path f) :: below).
Proof.
  intros [Hst Hg Hnd Hfin [[Hr Hcov] Hbelow] Hsuc _] Hrem Hb.
  constructor; simpl; try done; [by apply stack_ok_remaining| |by apply suc_remaining with child].
  split; [|done]. split; [done|]. simpl. intros y Hy.
  destruct (Hcov y Hy) as [Hin|?]; [|by right]. rewrite Hrem in Hin.
  apply elem_of_cons in Hin as [->|?]; [right; by left|by left].
Qed.

(** Descending into a new child. *)
Lemma walk_inv_push color f below child rem ns :
  walk_inv color (f :: below) → f_remaining f = child :: rem → succ (f_node f) child →
  color !! child = None → child_neighbors child = Ok ns →
  walk_inv (<[child := Gray]> color)
    (mk_frame child ns (f_depth f + 1) (f_path f ++ [child])
     :: mk_frame (f_node f) rem (f_depth f) (f_path f) :: below).
Proof.
  intros [Hst Hg Hnd (fin & Ht & Hfin) [[Hr Hcov] Hbelow] Hsuc _] Hrem Hs Hnone Hns.
  assert (∀ x, color !! x = Some Black → <[child := Gray]> color !! x = Some Black) as Hmono.
  { intros x Hx. rewrite lookup_insert_ne; [done|]. congruence. }
  assert (child ∉ f_node <$> (f :: below)) as Hnew by (intros Hin%Hg; congruence).
  assert (child ≠ start) as Hcs by (intros ->; by apply Hnew, stack_ok_start).
  constructor; simpl.
  - apply (so_push child ns (mk_frame (f_node f) rem (f_depth f) (f_path f))); [|done].
    by apply stack_ok_remaining.
  - intros x. rewrite elem_of_cons. destruct (decide (x = child)) as [->|Hne].
    + rewrite lookup_insert_eq. tauto.
    + rewrite lookup_insert_ne, Hg by done. simpl. tauto.
  - by constructor.
  - exists fin. split; [done|]. intros x. destruct (decide (x = child)) as [->|Hne].
    + rewrite lookup_insert_eq. rewrite <- Hfin. split; congruence.
    + by rewrite lookup_insert_ne.
  - split; [split|split; [split|]].
    + right. by exists ns.
    + simpl. intros y Hy. left. by apply (succ_inner child).
    + done.
    + simpl. intros y Hy. destruct (Hcov y Hy) as [Hin|[Hb|HN]]; [|by auto|discriminate HN].
      rewrite Hrem in Hin. apply elem_of_cons in Hin as [->|?]; auto.
    + eapply all_covered_mono; [|exact Hbelow]. done.
  - constructor; [|by apply suc_remaining with child]. simpl. intros y Hy. by apply (succ_inner child ns).
  - done.
Qed.

Lemma chain_snoc p x y : chain p → last p = Some x → succ x y → chain (p ++ [y]).
Proof.
  induction p as [|a [|b p] IH]; [done| |].
  - intros _ [= ->] Hs. by split.
  - intros [Ha Hp] Hl Hs. split; [done|]. by apply IH.
Qed.

(** The path of a frame runs from the root through the frames of the stack. *)
Lemma stack_ok_path f below : stack_ok (f :: below) →
  head (f_path f) = Some start ∧ last (f_path f) = Some (f_node f) ∧ chain (f_path f) ∧
  ∀ x, x ∈ f_node <$> (f :: below) → x ∈ f_path f.
Proof.
  remember (f :: below) as st eqn:E. intros Hst. revert f below E.
  induction Hst as [|rem|child rem g below' Hst IH Hs]; intros f below E; simplify_eq/=.
  - done.
  - destruct (IH g below' eq_refl) as (Hh & Hl & Hc & Hin). split_and!.
    + destruct (f_path g); [done|exact Hh].
    + by rewrite last_snoc.
    + by eapply chain_snoc.
    + intros x. rewrite elem_of_cons, elem_of_app, list_elem_of_singleton. intros [?|?]; auto.
Qed.

Lemma gray_child_explains color f below child :
  walk_inv color (f :: below) → succ (f_node f) child → color !! child = Some Gray →
  explains (CycleDetected (f_path f) child).
Proof.
  intros Hinv Hs Hgray%(wi_gray _ _ Hinv). pose proof (wi_stack _ _ Hinv) as Hst.
  destruct (stack_ok_path _ _ Hst) as (Hh & Hl & Hc & Hin). simpl. split_and!; [done| |by apply Hin|].
  - by eapply chain_snoc.
  - eapply tc_rtc_l; [by eapply stack_ok_reach|by apply tc_once].
Qed.

Lemma lookup_error_explains x e :
  x ≠ start → rtc succ start x → child_neighbors x = Err e → explains e.
Proof.
  intros Hne Hx He. destruct e; try (by exists x);
    unfold Cycle.child_neighbors in He; repeat case_match; discriminate.
Qed.

Lemma walk_outcome fuel color stack : walk_inv color stack →
  match walk lookup cap fuel color stack with
  | Ok _ => ∃ fin, topological fin ∧ start ∈ fin
  | Err e => explains e
  | _ => True
  end.
Proof.
  revert color stack. induction fuel as [|fuel IH]; intros color stack Hinv; [done|]. simpl.
  destruct stack as [|f below].
  { destruct (wi_fin _ _ Hinv) as (fin & Ht & Hfin). exists fin. split; [done|].
    by apply Hfin, (wi_start _ _ Hinv). }
  destruct (f_remaining f) as [|child rem] eqn:Hrem; [by apply IH, walk_inv_pop|].
  pose proof (wi_rem _ _ Hinv) as [Hsuc _]%Forall_cons.
  assert (succ (f_node f) child) as Hs by (apply Hsuc; rewrite Hrem; by left).
  pose proof (stack_ok_steps _ _ (wi_stack _ _ Hinv)) as Hsteps.
  destruct (cap <? f_depth f + 1) eqn:Hcap.
  { apply Nat.ltb_lt in Hcap. split_and!; [done..|]. exists child. rewrite Nat.add_1_r.
    by eapply nsteps_r. }
  destruct (color !! child) as [[]|] eqn:Hcol.
  - by apply (gray_child_explains color f below).
  - by apply IH, walk_inv_skip with child.
  - destruct (child_neighbors child) as [ns|e| |] eqn:Hns; cbn [mbind result_bind]; [| |done..].
    + apply IH. by eapply walk_inv_push.
    + apply (lookup_error_explains child); [| |done].
      { intros ->. assert (start ∈ f_node <$> f :: below) as Hin%(wi_gray _ _ Hinv); [|congruence].
        eapply stack_ok_start, wi_stack, Hinv. }
      eapply rtc_r; [|exact Hs]. by eapply rtc_nsteps_2.
Qed.

Lemma walk_inv_init : start ∉ ops →
  walk_inv {[start := Gray]} [mk_frame start ops 0 [start]].
Proof.
  intros Hself. assert (∀ y, succ start y ↔ y ∈ ops) as Hs.
  { intros y. unfold succ. by rewrite decide_True. }
  constructor; simpl.
  - constructor.
  - intros x. rewrite list_elem_of_singleton. destruct (decide (x = start)) as [->|Hne].
    + by rewrite lookup_singleton_eq.
    + by rewrite lookup_singleton_ne.
  - apply NoDup_singleton.
  - exists []. split; [by intros i x Hi|]. intros x. rewrite elem_of_nil, lookup_singleton. by case_match.
  - split; [|done]. split; [by left|]. intros y Hy. left. by apply Hs.
  - constructor; [|done]. simpl. intros y. apply Hs.
  - done.
Qed.

Lemma check_no_cycles_outcome :
  match check_no_cycles lookup start ops cap with
  | Ok _ => ∃ fin, topological fin ∧ start ∈ fin
  | Err e => explains e
  | _ => True
  end.
Proof.
  assert (∀ y, succ start y ↔ y ∈ ops) as Hs.
  { intros y. unfold succ. by rewrite decide_True. }
  unfold check_no_cycles, reject_if.
  destruct (bool_decide (start ∈ ops)) eqn:Hself; cbn [mbind result_bind].
  { apply bool_decide_eq_true in Hself. split; [done|]. by apply Hs. }
  apply bool_decide_eq_false in Hself.
  destruct ((cap =? 0) && negb (bool_decide (ops = []))) eqn:Hcap; cbn [mbind result_bind].
  - apply andb_true_iff in Hcap as [Hcap%Nat.eqb_eq Hops%negb_true_iff].
    apply bool_decide_eq_false in Hops. split_and!; [done|lia|].
    destruct ops as [|x l]; [done|]. exists x. apply nsteps_once, Hs. by left.
  - by apply walk_outcome, walk_inv_init.
Qed.

(** An acyclic graph that resolves is only ever rejected for its depth. *)
Lemma chain_reach p x y :
  chain (p ++ [y]) → head p = Some x → rtc succ x y.
Proof.
  revert x. induction p as [|a p IH]; [done|]. intros x Hc [= ->]. destruct p as [|b p].
  - destruct Hc as [Hs _]. by apply rtc_once.
  - destruct Hc as [Hs Hc]. eapply rtc_l; [exact Hs|]. by apply IH.
Qed.

Lemma sound_explains e :
  (∀ x, rtc succ start x → resolves x ∧ ¬ tc succ x x) → explains e →
  ∃ d, e = DepthExceeded d cap.
Proof.
  intros Hs He.
  assert ((∃ x, x ≠ start ∧ rtc succ start x ∧ child_neighbors x = Err e) → ∃ d, e = DepthExceeded d cap)
    as Hlook.
  { intros (x & Hne & Hx & Hl). destruct (Hs x Hx) as [[?|[ns Hns]] _]; [done|congruence]. }
  destruct e as [id|d c|path child|child|child|e]; try (by apply Hlook).
  - destruct He as [-> He]. destruct (Hs start) as [_ Hn]; [done|]. by destruct Hn; apply tc_once.
  - destruct He as (-> & _). eauto.
  - destruct He as (Hh & Hc & _ & Ht). destruct (Hs child) as [_ Hn]; [by eapply chain_reach|done].
Qed.

(** ** The walk returns *)

Definition frame_size (f : Frame) : nat :=
  unfolding lookup (cap - f_depth f) (f_remaining f) + 1.

Lemma unfolding_cons levels c l :
  unfolding lookup (Datatypes.S levels) (c :: l) =
  2 + unfolding lookup levels (children_of lookup c) + unfolding lookup (Datatypes.S levels) l.
Proof. done. Qed.

Definition stack_size (stack : list Frame) : nat := sum_list (frame_size <$> stack).

Lemma stack_size_cons f below : stack_size (f :: below) = frame_size f + stack_size below.
Proof. done. Qed.

Lemma walk_returns fuel color stack :
  (∀ x, returns (child_neighbors x)) → Forall (λ f, f_depth f ≤ cap) stack →
  stack_size stack < fuel → returns (walk lookup cap fuel color stack).
Proof.
  intros Hret. revert color stack. induction fuel as [|fuel IH]; intros color stack Hd Hf; [lia|].
  destruct stack as [|f below]; [done|]. cbn [walk].
  apply Forall_cons in Hd as [Hfd Hd]. rewrite stack_size_cons in Hf.
  destruct (f_remaining f) as [|child rem] eqn:Hrem.
  { apply IH; [done|]. unfold frame_size in Hf at 1. lia. }
  destruct (cap <? f_depth f + 1) eqn:Hcap; [done|]. apply Nat.ltb_ge in Hcap.
  assert (cap - f_depth f = Datatypes.S (cap - (f_depth f + 1))) as Hlev by lia.
  unfold frame_size in Hf at 1. rewrite Hrem, Hlev, unfolding_cons, <- Hlev in Hf.
  destruct (color !! child) as [[]|]; [done| |].
  - apply IH; [by constructor|]. rewrite stack_size_cons. unfold frame_size at 1. simpl. lia.
  - pose proof (Hret child) as Hc. unfold children_of in Hf.
    destruct (child_neighbors child) as [ns|e| |]; [|done..]. cbn [mbind result_bind].
    apply IH; [constructor; [simpl; lia|by constructor]|]. rewrite !stack_size_cons.
    unfold frame_size at 1 2. simpl. lia.
Qed.

Lemma check_no_cycles_returns :
  (∀ x, returns (child_neighbors x)) → returns (check_no_cycles lookup start ops cap).
Proof.
  intros Hret. unfold check_no_cycles, reject_if.
  destruct (bool_decide (start ∈ ops)); cbn [mbind result_bind]; [done|].
  destruct (_ && _); cbn [mbind result_bind]; [done|]. apply walk_returns; [done| |].
  - constructor; [simpl; lia|done].
  - unfold stack_size, frame_size. simpl. rewrite Nat.sub_0_r. lia.
Qed.
End spec.


(** The table answers every query of the walk. *)
Lemma table_returns (db : Metrics) :
  (∀ x r e, db !! x = Some r → row_expression r = Some e → valid_utf8 e = true) →
  ∀ x, returns (child_neighbors db x).
Proof.
  intros Ht x. unfold child_neighbors.
  cbn [get_metric_type get_composite_operands get_metricql_refs management_store].
  unfold pg_metric_type, pg_composite_operands, pg_metricql_refs, find_row.
  destruct (db !! x) as [r|] eqn:Hr; [|done]. cbn [mbind result_bind mret result_ret].
  destruct (metric_type_from_sql (row_type r)); try done.
  - destruct (negb _); [done|]. by destruct (row_type_config r) as [[]|].
  - destruct (negb _); [done|]. destruct (row_expression r) as [e|] eqn:He; [|done].
    destruct (trim_is_empty e); [done|]. pose proof (parse_returns e (Ht x r e Hr He)) as Hp.
    unfold parse_only. by destruct (parse e).
Qed.

Definition composite_row (ids : list str) : MetricRow :=
  mk_metric_row (lit "COMPOSITE")
    (Some (TypeComposite (mk_composite ((λ i, mk_operand i (SpecFloat.S754_zero false)) <$> ids) 1))) None None.
Definition mean_row : MetricRow := mk_metric_row (lit "MEAN") None None None.
Definition diamond : Metrics :=
  {[lit "a" := mean_row; lit "b" := composite_row [lit "a"; lit "a"];
    lit "c" := composite_row [lit "a"; lit "b"]]}.

