(* ===== verification/MetricDefinition.v ===== *)
(** The metric-definition validator ([validators/metric_definition.rs]) and the
    handler that stores what it accepts ([create_metric_definition] of [grpc.rs]). *)
From Stdlib Require Import Ascii String SpecFloat.
From S2P Require Import Prelude Bytes F64 Ast Lexer Parser ParserSpec Analyze AnalyzeSpec Targeting FilterSql FilterSqlSpec MetricStore Cycle.

Inductive MetricError :=
| MetricRequired | MetricIdRequired | NameRequired
| FilteredMeanConfigRequired | ValueColumnRequired | ValueColumnInvalid (got : str)
| FilterSqlRequired | FilterSqlRejected (e : FilterError)
| WindowedCountConfigRequired | EventTypeRequired | EventTypeInvalid (got : str)
| WindowHoursNotPositive | WindowHoursTooLarge
| CompositeConfigRequired | OperatorRequired
| TooFewOperands (op : CompositeOperator) (n : nat) | NotTwoOperands (op : CompositeOperator) (n : nat)
| WeightInvalid (id : str) (weight : f64) | OperandIdEmpty | OperandsMissing (id : str)
| ExpressionRequired | ExpressionRejected (diags : list Diagnostic) | RefsMissing (id : str)
| GraphRejected (e : CycleError) | StoreFailed (e : StoreError).

Definition ok_or {E A} (o : option A) (e : E) : result E A :=
  match o with Some a => Ok a | None => Err e end.

Definition validate_metric_common_fields (m : MetricDefinition) : result MetricError unit :=
  _ ← reject_if (trim_is_empty (metric_id m)) MetricIdRequired;
  _ ← reject_if (trim_is_empty (metric_name m)) NameRequired;
  mret tt.

Definition filtered_mean_cfg (m : MetricDefinition) : option FilteredMeanConfig :=
  match type_config m with Some (TypeFilteredMean cfg) => Some cfg | _ => None end.

Definition windowed_count_cfg (m : MetricDefinition) : option WindowedCountConfig :=
  match type_config m with Some (TypeWindowedCount cfg) => Some cfg | _ => None end.

Definition composite_cfg (m : MetricDefinition) : option CompositeConfig :=
  match type_config m with Some (TypeComposite cfg) => Some cfg | _ => None end.

Definition validate_filtered_mean (cfg : option FilteredMeanConfig) : result MetricError unit :=
  cfg ← ok_or cfg FilteredMeanConfigRequired;
  _ ← reject_if (trim_is_empty (value_column cfg)) ValueColumnRequired;
  _ ← reject_if (negb (is_identifier (value_column cfg))) (ValueColumnInvalid (value_column cfg));
  _ ← reject_if (trim_is_empty (fm_filter_sql cfg)) FilterSqlRequired;
  map_err FilterSqlRejected (validate_filter_sql (fm_filter_sql cfg)).

Definition WINDOWED_COUNT_MAX_HOURS : Z := 8760.

Definition validate_windowed_count (cfg : option WindowedCountConfig) : result MetricError unit :=
  cfg ← ok_or cfg WindowedCountConfigRequired;
  _ ← reject_if (bool_decide (event_type cfg = [])) EventTypeRequired;
  _ ← reject_if (negb (is_identifier (event_type cfg))) (EventTypeInvalid (event_type cfg));
  _ ← reject_if (window_hours cfg <=? 0)%Z WindowHoursNotPositive;
  _ ← reject_if (WINDOWED_COUNT_MAX_HOURS <? window_hours cfg)%Z WindowHoursTooLarge;
  if bool_decide (wc_filter_sql cfg = []) then mret tt
  else map_err FilterSqlRejected (validate_filter_sql (wc_filter_sql cfg)).

Definition DEFAULT_DEPTH_CAP : nat := 5.

(** The arity rules, per operator. *)
Definition check_arity (op : CompositeOperator) (n : nat) : result MetricError unit :=
  match op with
  | OpAdd | OpMultiply | OpWeightedSum => reject_if (n <? 2) (TooFewOperands op n)
  | OpSubtract | OpDivide => reject_if (negb (n =? 2)) (NotTwoOperands op n)
  | OpUnspecified => Panics
  end.

Definition weight_ok (o : CompositeOperand) : bool :=
  f64_is_finite (operand_weight o) && negb (f64_le (operand_weight o) f64_zero).

Fixpoint check_weights (ops : list CompositeOperand) : result MetricError unit :=
  match ops with
  | [] => mret tt
  | o :: ops =>
      _ ← reject_if (negb (weight_ok o)) (WeightInvalid (operand_id o) (operand_weight o));
      check_weights ops
  end.

Section validate.
Context {S : Type} `{MetricLookup S}.

Definition validate_composite (cfg : option CompositeConfig) (this_metric_id : str) (lookup : S) :
    result MetricError unit :=
  cfg ← ok_or cfg CompositeConfigRequired;
  let op := composite_operator (operator cfg) in
  _ ← reject_if (match op with OpUnspecified => true | _ => false end) OperatorRequired;
  _ ← check_arity op (length (operands cfg));
  _ ← match op with OpWeightedSum => check_weights (operands cfg) | _ => mret tt end;
  _ ← reject_if (existsb (λ o, trim_is_empty (operand_id o)) (operands cfg)) OperandIdEmpty;
  let operand_ids := operand_id <$> operands cfg in
  all_present ← map_err StoreFailed (exists_all_metrics lookup operand_ids);
  _ ← reject_if (negb all_present) (OperandsMissing this_metric_id);
  map_err GraphRejected (check_no_cycles lookup this_metric_id operand_ids DEFAULT_DEPTH_CAP).

Definition validate_metricql_arm (expression this_metric_id : str) (lookup : S) :
    result MetricError unit :=
  _ ← reject_if (trim_is_empty expression) ExpressionRequired;
  refs ← map_err ExpressionRejected (validate_metricql expression None);
  if bool_decide (refs = []) then mret tt
  else
    all_present ← map_err StoreFailed (exists_all_metrics lookup refs);
    _ ← reject_if (negb all_present) (RefsMissing this_metric_id);
    map_err GraphRejected (check_no_cycles lookup this_metric_id refs DEFAULT_DEPTH_CAP).

Definition validate_metric_definition (m : MetricDefinition) (lookup : S) :
    result MetricError unit :=
  _ ← validate_metric_common_fields m;
  match metric_type m with
  | FilteredMean => validate_filtered_mean (filtered_mean_cfg m)
  | Composite => validate_composite (composite_cfg m) (metric_id m) lookup
  | WindowedCount => validate_windowed_count (windowed_count_cfg m)
  | Metricql => validate_metricql_arm (metricql_expression m) (metric_id m) lookup
  | _ => mret tt
  end.
End validate.

(** The handler: validate, insert, and flag a stored CUSTOM type as deprecated. *)
Definition create_metric_definition (request : option MetricDefinition) (db : Metrics) :
    result MetricError (Metrics * bool) :=
  m ← ok_or request MetricRequired;
  _ ← validate_metric_definition m db;
  db' ← map_err StoreFailed (create_metric m db);
  mret (db', bool_decide (metric_type_from_sql (row_type (row_of m)) = Custom)).

(** ** The reference graph of the table *)

Definition edge (db : Metrics) (x y : str) : Prop := ∃ ns, neighbors db x = Ok ns ∧ y ∈ ns.

(** Every stored reference resolves, no metric is defined through itself, and the
    stored expressions are text. *)
Record store_ok (db : Metrics) : Prop := mk_store_ok
  { so_resolved x y : edge db x y → is_Some (db !! y);
    so_acyclic x : ¬ tc (edge db) x x;
    so_text x r e : db !! x = Some r → row_expression r = Some e → valid_utf8 e = true }.

Lemma neighbors_local (db db' : Metrics) x :
  db !! x = db' !! x → neighbors db x = neighbors db' x.
Proof.
  intros E. unfold neighbors. cbn [get_metric_type get_composite_operands get_metricql_refs management_store].
  unfold pg_metric_type, pg_composite_operands, pg_metricql_refs, find_row. by rewrite E.
Qed.

Lemma create_metric_ok m db db' :
  create_metric m db = Ok db' →
  db !! metric_id m = None ∧ row_checks (row_of m) = true ∧ db' = <[metric_id m := row_of m]> db.
Proof.
  unfold create_metric. case_bool_decide as Hx; [done|]. destruct (row_checks _); [|done].
  intros [= <-]. split_and!; [|done..]. by apply eq_None_not_Some.
Qed.

Lemma edge_other m db x y :
  x ≠ metric_id m → edge (<[metric_id m := row_of m]> db) x y ↔ edge db x y.
Proof.
  intros Hx. unfold edge. rewrite (neighbors_local _ db) by (by rewrite lookup_insert_ne). done.
Qed.

(** The edges the row of [m] brings. *)
Lemma edge_new m db y :
  edge (<[metric_id m := row_of m]> db) (metric_id m) y →
  (metric_type m = Composite ∧ ∃ cfg, composite_cfg m = Some cfg ∧ y ∈ operand_id <$> operands cfg) ∨
  (metric_type m = Metricql ∧
   ∃ n, parse (metricql_expression m) = Ok n ∧ y ∈ extract_metric_refs n).
Proof.
  intros (ns & Hns & Hy). revert Hns. unfold neighbors.
  cbn [get_metric_type get_composite_operands get_metricql_refs management_store].
  unfold pg_metric_type, pg_composite_operands, pg_metricql_refs, find_row.
  rewrite lookup_insert_eq. cbn [mbind result_bind mret result_ret].
  cbn [row_of row_type row_type_config row_expression]. rewrite metric_type_round_trip.
  unfold composite_cfg.
  destruct (metric_type m) eqn:Ht; cbn [mret result_ret];
    try (by intros [= <-]; apply elem_of_nil in Hy).
  - change (negb (is_lit (metric_type_to_sql Composite) "COMPOSITE")) with false. cbv iota.
    destruct (type_config m) as [[]|]; intros [= <-]; try (by apply elem_of_nil in Hy). left. eauto.
  - change (negb (is_lit (metric_type_to_sql Metricql) "METRICQL")) with false. cbv iota.
    destruct (metricql_expression m) as [|c e] eqn:He; cbn [opt_str]; [by intros [= <-]; apply elem_of_nil in Hy|].
    destruct (trim_is_empty _); [by intros [= <-]; apply elem_of_nil in Hy|].
    unfold parse_only. destruct (parse (c :: e)) as [n| | |] eqn:Hp; cbn [map_err]; try done;
      intros [= <-]; [|by apply elem_of_nil in Hy]. right. eauto.
Qed.

Lemma validate_metricql_refs src ctx refs n :
  validate_metricql src ctx = Ok refs → parse src = Ok n → refs = extract_metric_refs n.
Proof.
  intros Hv Hp. unfold validate_metricql in Hv. destruct (tokenize src) as [ts| | |] eqn:Ht; try done.
  rewrite (parse_as_tokens _ _ Ht) in Hp. cbn [map_err mbind result_bind] in Hv. rewrite Hp in Hv.
  cbn [map_err mbind result_bind] in Hv. destruct (negb _); [done|]. by injection Hv.
Qed.

(** ** What acceptance says of the references *)

Section accepted.
Context {S : Type} `{MetricLookup S} (lookup : S).

Lemma validate_composite_ok cfg id :
  validate_composite cfg id lookup = Ok tt →
  ∃ c, cfg = Some c ∧ exists_all_metrics lookup (operand_id <$> operands c) = Ok true ∧
    check_no_cycles lookup id (operand_id <$> operands c) DEFAULT_DEPTH_CAP = Ok tt.
Proof.
  unfold validate_composite. intros Hv. destruct cfg as [c|]; [|done]. exists c. split; [done|].
  cbn [ok_or mbind result_bind] in Hv.
  do 4 apply bind_ok_inv in Hv as (? & _ & Hv). apply bind_ok_inv in Hv as ([] & He & Hv); [|done].
  apply map_err_ok in He. apply bind_ok_inv in Hv as (? & _ & Hv). by apply map_err_ok in Hv.
Qed.

Lemma validate_metricql_arm_ok e id :
  validate_metricql_arm e id lookup = Ok tt →
  ∃ refs, validate_metricql e None = Ok refs ∧
    (refs = [] ∨ exists_all_metrics lookup refs = Ok true ∧
       check_no_cycles lookup id refs DEFAULT_DEPTH_CAP = Ok tt).
Proof.
  unfold validate_metricql_arm. intros Hv. apply bind_ok_inv in Hv as (? & _ & Hv).
  apply bind_ok_inv in Hv as (refs & Hr & Hv). apply map_err_ok in Hr. exists refs. split; [done|].
  case_bool_decide; [by left|right]. apply bind_ok_inv in Hv as ([] & He & Hv); [|done].
  apply map_err_ok in He. apply bind_ok_inv in Hv as (? & _ & Hv). by apply map_err_ok in Hv.
Qed.

(** The references of an accepted metric all exist, as far as the lookup says. *)
Lemma accepted_references m db y :
  (∀ ids, exists_all_metrics lookup ids = Ok true → ∀ id, id ∈ ids → is_Some (db !! id)) →
  validate_metric_definition m lookup = Ok tt →
  edge (<[metric_id m := row_of m]> db) (metric_id m) y → is_Some (db !! y).
Proof.
  intros Hex Hv He. unfold validate_metric_definition in Hv.
  apply bind_ok_inv in Hv as (_ & _ & Hv).
  apply edge_new in He as [(Ht & cfg & Hc & Hy)|(Ht & n & Hn & Hy)]; rewrite Ht in Hv.
  - rewrite Hc in Hv. apply validate_composite_ok in Hv as (c & [= <-] & Hall & _).
    by eapply Hex.
  - apply validate_metricql_arm_ok in Hv as (refs & Hr & Hv).
    rewrite (validate_metricql_refs _ _ _ _ Hr Hn) in Hv. destruct Hv as [Hnil|[Hall _]].
    + rewrite Hnil in Hy. by apply elem_of_nil in Hy.
    + by eapply Hex.
Qed.
End accepted.

(** ** Inserting an accepted metric *)

Lemma edge_source db x y : edge db x y → is_Some (db !! x).
Proof.
  intros (ns & Hns & _). destruct (db !! x) eqn:E; [done|]. revert Hns. unfold neighbors.
  cbn [get_metric_type management_store]. unfold pg_metric_type, find_row. by rewrite E.
Qed.

Section insert.
Context (m : MetricDefinition) (db : Metrics).
Context (Hnew : db !! metric_id m = None) (Hok : store_ok db).
Context (Href : ∀ y, edge (<[metric_id m := row_of m]> db) (metric_id m) y → is_Some (db !! y)).
Notation db' := (<[metric_id m := row_of m]> db).

(** Paths of the new table end in old metrics, and off the new one they are old paths. *)
Lemma path_old x y : tc (edge db') x y → is_Some (db !! y) ∧ (x ≠ metric_id m → tc (edge db) x y).
Proof.
  assert (∀ a b, edge db' a b → is_Some (db !! b)) as Hin.
  { intros a b Hab. destruct (decide (a = metric_id m)) as [-> |Ha]; [by apply Href|].
    apply edge_other in Hab; [|done]. by eapply so_resolved. }
  assert (∀ a b, edge db' a b → b ≠ metric_id m) as Hne.
  { intros a b Hab ->. destruct (Hin _ _ Hab) as [r Hr]. congruence. }
  induction 1 as [x y Hxy|x y z Hxy _ [Hz IH]].
  - split; [by eapply Hin|]. intros Hx. apply tc_once. by apply (edge_other m).
  - split; [done|]. intros Hx. eapply tc_l; [by apply (edge_other m)|]. apply IH. by eapply Hne.
Qed.

Lemma store_ok_insert : valid_utf8 (metricql_expression m) = true → store_ok db'.
Proof.
  intros Ht. constructor.
  - intros x y Hxy. destruct (path_old x y) as [[r Hr] _]; [by apply tc_once|].
    exists r. rewrite lookup_insert_ne; [done|]. congruence.
  - intros x Hx. destruct (decide (x = metric_id m)) as [-> |Hne].
    + destruct (path_old _ _ Hx) as [[r Hr] _]. congruence.
    + apply path_old in Hx as [_ Hx]. by eapply so_acyclic, Hx.
  - intros x r e Hx He. destruct (decide (x = metric_id m)) as [-> |Hne].
    + rewrite lookup_insert_eq in Hx. injection Hx as <-. cbn [row_of row_expression] in He.
      unfold opt_str in He. by destruct (metricql_expression m); simplify_eq.
    + rewrite lookup_insert_ne in Hx by done. by eapply so_text.
Qed.
End insert.

(** ** Concurrent requests *)

(** A validation reads while other requests insert: each of its queries sees a
    snapshot of the table of its own. *)
Record Reads := mk_reads
  { at_exists : Metrics; at_type : str → Metrics; at_operands : str → Metrics;
    at_refs : str → Metrics }.

#[export] Instance interleaved_reads : MetricLookup Reads := {
  exists_all_metrics r := pg_exists_all (at_exists r);
  get_composite_operands r id := pg_composite_operands (at_operands r id) id;
  get_metricql_refs r id := pg_metricql_refs (at_refs r id) id;
  get_metric_type r id := pg_metric_type (at_type r id) id
}.

Definition reads_from (hist : list Metrics) (r : Reads) : Prop :=
  at_exists r ∈ hist ∧ ∀ id, at_type r id ∈ hist ∧ at_operands r id ∈ hist ∧ at_refs r id ∈ hist.

(** The tables a run of concurrent [create_metric_definition] calls goes through,
    latest first: the reads of an insert are any earlier tables. *)
Inductive history : list Metrics → Prop :=
| history_start : history [∅]
| history_create hist db r m db' :
    history (db :: hist) → reads_from (db :: hist) r → valid_utf8 (metricql_expression m) = true →
    validate_metric_definition m r = Ok tt → create_metric m db = Ok db' →
    history (db' :: db :: hist).

Lemma history_invariant hist : history hist →
  ∃ db past, hist = db :: past ∧ store_ok db ∧ ∀ old, old ∈ hist → old ⊆ db.
Proof.
  induction 1 as [|hist db r m db' _ (? & ? & [= <- <-] & Hok & Hsub) Hr Ht Hv Hc].
  - exists ∅, []. split_and!; [done| |by intros ? ->%list_elem_of_singleton].
    assert (∀ x y, ¬ edge ∅ x y) as Hno by (intros x y [r Hr]%edge_source; by rewrite lookup_empty in Hr).
    constructor; [by intros x y ?%Hno| |by intros x r e Hx; rewrite lookup_empty in Hx].
    intros x Hx. inversion Hx; subst; by eapply Hno.
  - apply create_metric_ok in Hc as (Hnew & _ & ->). exists (<[metric_id m := row_of m]> db), (db :: hist).
    split_and!; [done| |].
    + apply store_ok_insert; [done..| |done]. intros y Hy. eapply accepted_references; [|done..].
      intros ids Hall id Hid. cbn [exists_all_metrics interleaved_reads] in Hall.
      destruct (proj1 (pg_exists_all_true _ _) Hall id Hid) as [row Hrow].
      exists row. eapply lookup_weaken; [exact Hrow|]. by apply Hsub, Hr.
    + intros old [-> |Hold]%elem_of_cons; [done|]. etrans; [by apply Hsub|]. by apply insert_subseteq.
Qed.

(** The stored reference graph stays sound under concurrent requests:
    whatever tables the queries of each validation see, at every point of every run
    of [create_metric_definition] calls each stored reference names a stored metric,
    no metric is defined through itself, and no earlier row is changed or lost. *)
Theorem metric_graph_sound db past :
  history (db :: past) →
  (∀ x y, edge db x y → is_Some (db !! y)) ∧ (∀ x, ¬ tc (edge db) x x) ∧
  ∀ old, old ∈ past → old ⊆ db.
Proof.
  intros (? & ? & [= <- <-] & Hok & Hsub)%history_invariant. split_and!; [apply Hok..|].
  intros old Hold. apply Hsub. by right.
Qed.

Definition reads_at (db : Metrics) : Reads := mk_reads db (λ _, db) (λ _, db) (λ _, db).
Definition mean_a : MetricDefinition := mk_metric (lit "a") (lit "A") Mean None [] [].
Definition twice_a : MetricDefinition :=
  mk_metric (lit "b") (lit "B") Composite
    (Some (TypeComposite (mk_composite [mk_operand (lit "a") f64_zero; mk_operand (lit "a") f64_zero] 1))) [] [].
Definition ql_ab : MetricDefinition :=
  mk_metric (lit "c") (lit "C") Metricql None (lit "@a + 2 * @b") [].
Definition db_a : Metrics := <[lit "a" := row_of mean_a]> ∅.
Definition db_ab : Metrics := <[lit "b" := row_of twice_a]> db_a.
Definition db_abc : Metrics := <[lit "c" := row_of ql_ab]> db_ab.

Lemma metric_graph_sound_witness :
  history [db_abc; db_ab; db_a; ∅] ∧ ¬ tc (edge db_abc) (lit "c") (lit "c").
Proof.
  assert (history [db_abc; db_ab; db_a; ∅]) as Hh.
  { eapply (history_create _ _ (reads_at db_ab) ql_ab).
    - eapply (history_create _ _ (reads_at db_a) twice_a).
      + eapply (history_create _ _ (reads_at ∅) mean_a); [constructor| |vm_compute; reflexivity..].
        split; [|intros id; split_and!]; by left.
      + split; [|intros id; split_and!]; by left.
      + vm_compute; reflexivity.
      + vm_compute; reflexivity.
      + vm_compute; reflexivity.
    - split; [|intros id; split_and!]; by left.
    - vm_compute; reflexivity.
    - vm_compute; reflexivity.
    - vm_compute; reflexivity. }
  split; [exact Hh|]. exact (proj1 (proj2 (metric_graph_sound _ _ Hh)) (lit "c")).
Defined.

(** ** Acceptance *)

(** The new metric's references resolve, and so does everything they reach; nothing
    reachable is defined through itself. *)
Definition graph_sound (db : Metrics) (id : str) (refs : list str) : Prop :=
  (∀ y, y ∈ refs → is_Some (db !! y)) ∧
  ∀ x, rtc (succ db id refs) id x → resolves db id x ∧ ¬ tc (succ db id refs) x x.

Definition composite_valid (c : CompositeConfig) : Prop :=
  match composite_operator (operator c) with
  | OpUnspecified => False
  | OpAdd | OpMultiply => 2 ≤ length (operands c)
  | OpWeightedSum => 2 ≤ length (operands c) ∧ Forall (λ o, weight_ok o = true) (operands c)
  | OpSubtract | OpDivide => length (operands c) = 2
  end ∧ Forall (λ o, trim_is_empty (operand_id o) = false) (operands c).

Definition filter_valid (sql : str) : Prop :=
  trim_is_empty sql = false ∧ validate_filter_sql sql = Ok tt.

(** What an accepted definition satisfies, with respect to the stored metrics. *)
Definition metric_valid (db : Metrics) (m : MetricDefinition) : Prop :=
  trim_is_empty (metric_id m) = false ∧ trim_is_empty (metric_name m) = false ∧
  match metric_type m with
  | FilteredMean => ∃ c, type_config m = Some (TypeFilteredMean c) ∧
      is_identifier (value_column c) = true ∧ filter_valid (fm_filter_sql c)
  | WindowedCount => ∃ c, type_config m = Some (TypeWindowedCount c) ∧
      is_identifier (event_type c) = true ∧ (0 < window_hours c ≤ 24 * 365)%Z ∧
      (wc_filter_sql c = [] ∨ validate_filter_sql (wc_filter_sql c) = Ok tt)
  | Composite => ∃ c, type_config m = Some (TypeComposite c) ∧ composite_valid c ∧
      graph_sound db (metric_id m) (operand_id <$> operands c)
  | Metricql => trim_is_empty (metricql_expression m) = false ∧
      ∃ refs, validate_metricql (metricql_expression m) None = Ok refs ∧
        graph_sound db (metric_id m) refs
  | _ => True
  end.

Lemma check_weights_ok ops :
  check_weights ops = Ok tt ↔ Forall (λ o, weight_ok o = true) ops.
Proof.
  induction ops as [|o ops IH]; [done|]. rewrite Forall_cons. cbn [check_weights].
  destruct (weight_ok o); cbn; [rewrite IH|]; naive_solver.
Qed.

Lemma check_weights_returns ops : returns (check_weights ops).
Proof. induction ops as [|o ops IH]; [done|]. cbn [check_weights]. by destruct (weight_ok o). Qed.

Lemma graph_sound_intro db id refs :
  pg_exists_all db refs = Ok true →
  check_no_cycles db id refs DEFAULT_DEPTH_CAP = Ok tt → graph_sound db id refs.
Proof.
  intros Hex Hc. split; [by apply pg_exists_all_true|].
  pose proof (check_no_cycles_outcome db id refs DEFAULT_DEPTH_CAP) as Ho. rewrite Hc in Ho.
  by apply finished_sound.
Qed.

(** A METRICQL metric without references is a graph of its own. *)
Lemma graph_sound_nil db id : graph_sound db id [].
Proof.
  assert (∀ y, ¬ succ db id [] id y) as Hno.
  { intros y. unfold succ. rewrite decide_True by done. apply not_elem_of_nil. }
  split; [by intros y ?%elem_of_nil|]. intros x Hx.
  assert (x = id) as -> by (inversion Hx; subst; [done|by edestruct Hno]).
  split; [by left|]. intros Hc. inversion Hc; subst; by eapply Hno.
Qed.

Lemma existsb_blank_ids ops :
  existsb (λ o, trim_is_empty (operand_id o)) ops = false →
  Forall (λ o, trim_is_empty (operand_id o) = false) ops.
Proof. induction ops as [|o ops IH]; simpl; [done|]. intros [? ?]%orb_false_iff. auto. Qed.

Lemma composite_sound db cfg id :
  validate_composite cfg id db = Ok tt →
  ∃ c, cfg = Some c ∧ composite_valid c ∧ graph_sound db id (operand_id <$> operands c).
Proof.
  intros Hv. pose proof (validate_composite_ok _ _ _ Hv) as (c & -> & Hex & Hc). exists c.
  split; [done|]. split; [|by apply graph_sound_intro]. revert Hv.
  unfold validate_composite. cbn [ok_or mbind result_bind]. intros Hv.
  apply bind_ok_inv in Hv as ([] & Hop%reject_if_ok & Hv).
  apply bind_ok_inv in Hv as ([] & Har & Hv). apply bind_ok_inv in Hv as ([] & Hw & Hv).
  apply bind_ok_inv in Hv as ([] & Hids%reject_if_ok & _).
  split; [|by apply existsb_blank_ids].
  destruct (composite_operator (operator c)); try done; cbn [check_arity] in Har;
    apply reject_if_ok in Har; try (by apply Nat.ltb_ge in Har);
    try (by apply negb_false_iff, Nat.eqb_eq in Har).
  split; [by apply Nat.ltb_ge|by apply check_weights_ok].
Qed.

Lemma filtered_mean_sound cfg :
  validate_filtered_mean cfg = Ok tt →
  ∃ c, cfg = Some c ∧ is_identifier (value_column c) = true ∧ filter_valid (fm_filter_sql c).
Proof.
  destruct cfg as [c|]; [|done]. unfold validate_filtered_mean. cbn [ok_or mbind result_bind].
  intros Hv. ok_inv. exists c. split_and!; [done|by apply negb_false_iff|]. split; [done|].
  by apply map_err_ok in Hv.
Qed.

Lemma windowed_count_sound cfg :
  validate_windowed_count cfg = Ok tt →
  ∃ c, cfg = Some c ∧ is_identifier (event_type c) = true ∧ (0 < window_hours c ≤ 24 * 365)%Z ∧
    (wc_filter_sql c = [] ∨ validate_filter_sql (wc_filter_sql c) = Ok tt).
Proof.
  destruct cfg as [c|]; [|done]. unfold validate_windowed_count, WINDOWED_COUNT_MAX_HOURS.
  cbn [ok_or mbind result_bind]. intros Hv. ok_inv. exists c.
  split_and!; [done|by apply negb_false_iff|lia|lia|].
  case_bool_decide; [by left|right]. by apply map_err_ok in Hv.
Qed.

(** ** Rejection *)

Definition texts_ok (db : Metrics) : Prop :=
  ∀ x r e, db !! x = Some r → row_expression r = Some e → valid_utf8 e = true.

Definition filter_ascii (m : MetricDefinition) : Prop :=
  match type_config m with
  | Some (TypeFilteredMean c) => forallb is_ascii (fm_filter_sql c) = true
  | Some (TypeWindowedCount c) => forallb is_ascii (wc_filter_sql c) = true
  | _ => True
  end.

Lemma is_identifier_nonblank s : is_identifier s = true → trim_is_empty s = false.
Proof.
  destruct s as [|c s]; [done|]. cbn [is_identifier]. intros [Hc _]%andb_true_iff.
  unfold trim_is_empty. cbn [chars].
  destruct c as [[] [] [] [] [] [] [] []]; vm_compute in Hc; try discriminate Hc; reflexivity.
Qed.

Lemma is_identifier_nonempty s : is_identifier s = true → s ≠ [].
Proof. by destruct s. Qed.

Definition depth_error (e : MetricError) : bool :=
  match e with GraphRejected (DepthExceeded _ _) => true | _ => false end.

(** Accepted, or rejected only for the depth of its references. *)
Definition ok_up_to_depth (r : result MetricError unit) : Prop :=
  match r with Ok _ => True | Err e => depth_error e = true | _ => False end.

Lemma graph_complete db id refs :
  texts_ok db → graph_sound db id refs →
  ok_up_to_depth (map_err GraphRejected (check_no_cycles db id refs DEFAULT_DEPTH_CAP)).
Proof.
  intros Ht [_ Hs]. pose proof (check_no_cycles_returns db id refs DEFAULT_DEPTH_CAP (table_returns db Ht)).
  pose proof (check_no_cycles_outcome db id refs DEFAULT_DEPTH_CAP) as Ho.
  destruct (check_no_cycles _ _ _ _) as [|e| |]; try done.
  apply (sound_explains db id refs DEFAULT_DEPTH_CAP e Hs) in Ho as [d ->]. done.
Qed.

Lemma forall_blank_ids ops :
  Forall (λ o, trim_is_empty (operand_id o) = false) ops →
  existsb (λ o, trim_is_empty (operand_id o)) ops = false.
Proof. induction 1 as [|o ops Ho _ IH]; [done|]. simpl. by rewrite Ho. Qed.

Lemma composite_complete db c id :
  texts_ok db → composite_valid c → graph_sound db id (operand_id <$> operands c) →
  ok_up_to_depth (validate_composite (Some c) id db).
Proof.
  intros Ht [Hop Hids] Hg. unfold validate_composite. cbn [ok_or mbind result_bind].
  assert (match composite_operator (operator c) with OpUnspecified => true | _ => false end = false
          ∧ check_arity (composite_operator (operator c)) (length (operands c)) = Ok tt
          ∧ match composite_operator (operator c) with
            | OpWeightedSum => check_weights (operands c) | _ => mret tt end = Ok tt) as (-> & -> & ->).
  { destruct (composite_operator (operator c)); try done; cbn [check_arity];
      rewrite reject_if_ok; split_and!; try done; try (by apply Nat.ltb_ge);
      try (by rewrite Hop).
    - by apply Nat.ltb_ge, Hop. - by apply check_weights_ok, Hop. }
  rewrite forall_blank_ids by done. cbn [mbind result_bind reject_if exists_all_metrics management_store].
  rewrite (proj2 (pg_exists_all_true _ _)) by apply Hg. cbn [map_err mbind result_bind negb reject_if].
  by apply graph_complete.
Qed.

Lemma metricql_complete db e id refs :
  texts_ok db → trim_is_empty e = false → validate_metricql e None = Ok refs →
  graph_sound db id refs → ok_up_to_depth (validate_metricql_arm e id db).
Proof.
  intros Ht Hb Hr Hg. unfold validate_metricql_arm. rewrite Hb, Hr.
  cbn [map_err mbind result_bind reject_if]. case_bool_decide; [done|].
  cbn [exists_all_metrics management_store].
  rewrite (proj2 (pg_exists_all_true _ _)) by apply Hg. cbn [map_err mbind result_bind negb reject_if].
  by apply graph_complete.
Qed.

Lemma filtered_mean_complete c :
  is_identifier (value_column c) = true → filter_valid (fm_filter_sql c) →
  validate_filtered_mean (Some c) = Ok tt.
Proof.
  intros Hi [Hb Hf]. unfold validate_filtered_mean. cbn [ok_or mbind result_bind].
  rewrite Hi, (is_identifier_nonblank (value_column c)), Hb, Hf by done. done.
Qed.

Lemma windowed_count_complete c :
  is_identifier (event_type c) = true → (0 < window_hours c ≤ 24 * 365)%Z →
  (wc_filter_sql c = [] ∨ validate_filter_sql (wc_filter_sql c) = Ok tt) →
  validate_windowed_count (Some c) = Ok tt.
Proof.
  intros Hi Hw Hf. unfold validate_windowed_count, WINDOWED_COUNT_MAX_HOURS. cbn [ok_or mbind result_bind].
  rewrite (bool_decide_eq_false_2 (event_type c = [])) by by apply is_identifier_nonempty.
  rewrite Hi, (proj2 (Z.leb_gt _ _)), (proj2 (Z.ltb_ge _ _)) by lia. cbn [reject_if mbind result_bind negb].
  case_bool_decide; [done|]. destruct Hf as [?| ->]; done.
Qed.

Lemma metric_complete db m :
  texts_ok db → metric_valid db m → ok_up_to_depth (validate_metric_definition m db).
Proof.
  intros Ht (Hi & Hn & Hv). unfold validate_metric_definition, validate_metric_common_fields.
  rewrite Hi, Hn. cbn [reject_if mbind result_bind mret result_ret].
  destruct (metric_type m); try done.
  - destruct Hv as (c & E & ? & ?). unfold filtered_mean_cfg. rewrite E.
    by rewrite filtered_mean_complete.
  - destruct Hv as (c & E & ? & ?). unfold composite_cfg. rewrite E. by apply composite_complete.
  - destruct Hv as (c & E & ? & ? & ?). unfold windowed_count_cfg. rewrite E.
    by rewrite windowed_count_complete.
  - destruct Hv as (Hb & refs & Hr & Hg). by eapply metricql_complete.
Qed.

(** ** The validator returns *)

Lemma check_arity_returns op n :
  match op with OpUnspecified => true | _ => false end = false → returns (check_arity op n).
Proof. destruct op; [done|intros _; apply reject_if_returns..]. Qed.

Lemma walk_arm_returns db id refs (e : MetricError) :
  texts_ok db →
  returns (all_present ← map_err StoreFailed (pg_exists_all db refs);
           _ ← reject_if (negb all_present) e;
           map_err GraphRejected (check_no_cycles db id refs DEFAULT_DEPTH_CAP)).
Proof.
  intros Ht. apply bind_returns; [unfold pg_exists_all; by destruct refs|]. intros b _.
  apply bind_returns; [apply reject_if_returns|]. intros _ _.
  by apply map_err_returns, check_no_cycles_returns, table_returns.
Qed.

Lemma composite_returns db cfg id : texts_ok db → returns (validate_composite cfg id db).
Proof.
  intros Ht. unfold validate_composite. destruct cfg as [c|]; [|done]. cbn [ok_or mbind result_bind].
  apply bind_returns; [apply reject_if_returns|]. intros _ Hop%reject_if_ok.
  apply bind_returns; [by apply check_arity_returns|]. intros _ _.
  apply bind_returns; [destruct (composite_operator _); try done; apply check_weights_returns|]. intros _ _.
  apply bind_returns; [apply reject_if_returns|]. intros _ _. by apply walk_arm_returns.
Qed.

Lemma metricql_returns db e id :
  texts_ok db → valid_utf8 e = true → returns (validate_metricql_arm e id db).
Proof.
  intros Ht He. unfold validate_metricql_arm. apply bind_returns; [apply reject_if_returns|]. intros _ _.
  apply bind_returns; [by apply map_err_returns, validate_metricql_returns|]. intros refs _.
  case_bool_decide; [done|]. by apply walk_arm_returns.
Qed.

Lemma filter_returns sql :
  forallb is_ascii sql = true → returns (map_err FilterSqlRejected (validate_filter_sql sql)).
Proof. intros Ha. by apply map_err_returns, ascii_filter_returns. Qed.

Lemma filtered_mean_returns cfg :
  match cfg with Some c => forallb is_ascii (fm_filter_sql c) = true | None => True end →
  returns (validate_filtered_mean cfg).
Proof.
  destruct cfg as [c|]; [|done]. intros Ha. unfold validate_filtered_mean. cbn [ok_or mbind result_bind].
  do 3 (apply bind_returns; [apply reject_if_returns|]; intros _ _). by apply filter_returns.
Qed.

Lemma windowed_count_returns cfg :
  match cfg with Some c => forallb is_ascii (wc_filter_sql c) = true | None => True end →
  returns (validate_windowed_count cfg).
Proof.
  destruct cfg as [c|]; [|done]. intros Ha. unfold validate_windowed_count. cbn [ok_or mbind result_bind].
  do 4 (apply bind_returns; [apply reject_if_returns|]; intros _ _).
  case_bool_decide; [done|]. by apply filter_returns.
Qed.

Lemma metric_returns db m :
  texts_ok db → valid_utf8 (metricql_expression m) = true → filter_ascii m →
  returns (validate_metric_definition m db).
Proof.
  intros Ht He Ha. unfold validate_metric_definition, validate_metric_common_fields.
  apply bind_returns.
  { do 2 (apply bind_returns; [apply reject_if_returns|]; intros _ _). done. }
  intros _ _. unfold filter_ascii in Ha. destruct (metric_type m); try done.
  - apply filtered_mean_returns. unfold filtered_mean_cfg. by destruct (type_config m) as [[]|].
  - by apply composite_returns.
  - apply windowed_count_returns. unfold windowed_count_cfg. by destruct (type_config m) as [[]|].
  - by apply metricql_returns.
Qed.

Lemma metric_sound db m : validate_metric_definition m db = Ok tt → metric_valid db m.
Proof.
  unfold validate_metric_definition, validate_metric_common_fields. intros Hv.
  apply bind_ok_inv in Hv as ([] & Hc & Hv).
  apply bind_ok_inv in Hc as (? & Hi%reject_if_ok & Hc). apply bind_ok_inv in Hc as (? & Hn%reject_if_ok & _).
  split_and!; [done..|].
  destruct (metric_type m); try done.
  - apply filtered_mean_sound in Hv as (c & E & ? & ?). exists c. split_and!; [|done..].
    unfold filtered_mean_cfg in E. destruct (type_config m) as [[]|]; congruence.
  - apply composite_sound in Hv as (c & E & ? & ?). exists c. split_and!; [|done..].
    unfold composite_cfg in E. destruct (type_config m) as [[]|]; congruence.
  - apply windowed_count_sound in Hv as (c & E & ? & ? & ?). exists c. split_and!; [|done|lia..|done].
    unfold windowed_count_cfg in E. destruct (type_config m) as [[]|]; congruence.
  - unfold validate_metricql_arm in Hv. apply bind_ok_inv in Hv as ([] & Hb%reject_if_ok & Hv).
    apply bind_ok_inv in Hv as (refs & Hr%map_err_ok & Hv). split; [done|]. exists refs. split; [done|].
    case_bool_decide; [subst; apply graph_sound_nil|].
    apply bind_ok_inv in Hv as ([] & He%map_err_ok & Hv); [|done].
    apply bind_ok_inv in Hv as (? & _ & Hv%map_err_ok). by apply graph_sound_intro.
Qed.

(** The validator decides what it documents. On any metric whose filter
    is ASCII it returns; it accepts only definitions with a complete configuration of
    their type whose references all exist and reach no cycle, and it rejects only
    definitions that are not so, or whose references are nested too deep. *)
Theorem validate_metric_definition_correct m db :
  texts_ok db → valid_utf8 (metricql_expression m) = true → filter_ascii m →
  match validate_metric_definition m db with
  | Ok _ => metric_valid db m
  | Err e => ¬ metric_valid db m ∨ depth_error e = true
  | Panics | OutOfFuel => False
  end.
Proof.
  intros Ht He Ha. pose proof (metric_returns db m Ht He Ha) as Hr.
  pose proof (metric_sound db m) as Hs. pose proof (metric_complete db m Ht) as Hc.
  destruct (validate_metric_definition m db) as [[]|e| |]; try done; [by apply Hs|].
  destruct (depth_error e) eqn:Hd; [by right|left]. intros Hv. apply Hc in Hv. cbn [ok_up_to_depth] in Hv. congruence.
Qed.

Lemma validate_metric_definition_correct_witness :
  validate_metric_definition ql_ab db_ab = Ok tt ∧ metric_valid db_ab ql_ab.
Proof.
  assert (validate_metric_definition ql_ab db_ab = Ok tt) as E by (vm_compute; reflexivity).
  split; [exact E|]. assert (texts_ok db_ab) as Ht.
  { intros x r e Hx He. unfold db_ab, db_a in Hx.
    apply lookup_insert_Some in Hx as [[_ <-]|[_ Hx]]; [discriminate He|].
    apply lookup_insert_Some in Hx as [[_ <-]|[_ Hx]]; [discriminate He|].
    rewrite lookup_empty in Hx. discriminate Hx. }
  pose proof (validate_metric_definition_correct ql_ab db_ab Ht) as Hc. rewrite E in Hc.
  apply Hc; vm_compute; reflexivity.
Defined.

(** ** The depth cap depends on the order of the operands *)

Fixpoint tower (n : nat) : Metrics :=
  match n with
  | 0 => {[ [ascii_of_nat 97] := mean_row ]}
  | Datatypes.S n => <[ [ascii_of_nat (98 + n)] := composite_row [[ascii_of_nat (97 + n)]; [ascii_of_nat (97 + n)]] ]> (tower n)
  end.

Definition sum_of (ids : list str) : MetricDefinition :=
  mk_metric (lit "top") (lit "Top") Composite
    (Some (TypeComposite (mk_composite ((λ i, mk_operand i f64_zero) <$> ids) 1))) [] [].

(** [a] is a mean and each of [b] to [f] the sum of its predecessor twice. The sum of
    [e] and [f] is accepted, which nests [a] six levels deep; the sum of [f] and [e]
    is rejected for that depth: a finished node is not measured again. *)
Lemma depth_cap_order :
  validate_metric_definition (sum_of [lit "e"; lit "f"]) (tower 5) = Ok tt ∧
  validate_metric_definition (sum_of [lit "f"; lit "e"]) (tower 5)
    = Err (GraphRejected (DepthExceeded 6 DEFAULT_DEPTH_CAP)).
Proof. split; vm_compute; reflexivity. Qed.
