(* ===== verification/Validation.v ===== *)
(** Event validation and EBVS classification ([experimentation-ingest/src/validation.rs],
    [classification.rs]). An instant is its number of nanoseconds since the epoch;
    [DateTime::from_timestamp] of chrono is a parameter. *)
From Stdlib Require Import Ascii String SpecFloat.
From S2P Require Import Prelude Bytes F64 Config.

(** ** Events *)

Record Timestamp := mk_timestamp { seconds : Z; nanos : Z }.

(** The entries of the provenance map are listed in its iteration order. *)
Record ExposureEvent := mk_exposure
  { ex_event_id : str; ex_experiment_id : str; ex_user_id : str; ex_variant_id : str;
    ex_timestamp : option Timestamp; assignment_probability : f64;
    interleaving_provenance : list (str * str) }.

Record MetricEvent := mk_metric_event
  { me_event_id : str; me_user_id : str; me_event_type : str; me_timestamp : option Timestamp;
    me_value : f64 }.

Record RewardEvent := mk_reward
  { re_event_id : str; re_experiment_id : str; re_user_id : str; arm_id : str;
    re_timestamp : option Timestamp; reward : f64 }.

Record ModelRetrainingEvent := mk_retraining
  { mr_event_id : str; model_id : str; training_data_start : option Timestamp;
    training_data_end : option Timestamp }.

Record PlaybackMetrics := mk_playback
  { time_to_first_frame_ms : Z; rebuffer_count : Z; rebuffer_ratio : f64; avg_bitrate_kbps : Z;
    resolution_switches : Z; peak_resolution_height : Z; startup_failure_rate : f64;
    playback_duration_ms : Z; ebvs_detected : bool }.

Record QoEEvent := mk_qoe
  { qe_event_id : str; qe_session_id : str; qe_content_id : str; qe_user_id : str;
    qe_metrics : option PlaybackMetrics; qe_timestamp : option Timestamp }.

Record HeartbeatEvent := mk_heartbeat
  { hb_user_id : str; hb_session_id : str; hb_device_id : str; hb_content_id : str;
    hb_timestamp : option Timestamp; current_bitrate_kbps : Z; current_resolution_height : Z;
    buffer_health_seconds : f64; is_rebuffering : bool; is_startup : bool }.

(** ** Errors *)

Inductive ValidationError :=
| OutsideWindow (event_time now : Z)
| Required (field : string)
| NegativeNanos (field : string) (nanos : Z)
| InvalidTimestamp (field : string) (t : Timestamp)
| EmptyItemId | EmptyAlgorithmId (item_id : str)
| EmptyTrainingWindow
| NotIn (field : string) (lo hi : Z) (got : Z)
| RatioOutOfRange (got : f64) | FailureRateNotBoolean (got : f64) | NegativeBufferHealth (got : f64)
| MetricsRequired.

Abbreviation validation := (result ValidationError).

(** ** Validators *)

Definition nanos_per_sec : Z := 10 ^ 9.
Definition hours (h : Z) : Z := h * 3600 * nanos_per_sec.

Definition validate_required (field : str) (field_name : string) : validation unit :=
  reject_if (bool_decide (field = [])) (Required field_name).

Section clock.
Context (from_timestamp : Z → Z → option Z) (now : Z).

Definition validate_timestamp (event_time : Z) : validation unit :=
  reject_if ((event_time <? now - hours 24) || (now + hours 24 <? event_time))%Z
    (OutsideWindow event_time now).

(** Shared by the two timestamp readers: the field is there and converts. *)
Definition parse_timestamp (ts : option Timestamp) (name : string) : validation Z :=
  ts ← match ts with Some ts => Ok ts | None => Err (Required name) end;
  _ ← reject_if (nanos ts <? 0)%Z (NegativeNanos name (nanos ts));
  match from_timestamp (seconds ts) (nanos ts) with
  | Some dt => Ok dt
  | None => Err (InvalidTimestamp name ts)
  end.

Definition require_timestamp (ts : option Timestamp) (name : string) : validation Z :=
  dt ← parse_timestamp ts name;
  _ ← validate_timestamp dt;
  mret dt.

Definition require_retraining_timestamp : option Timestamp → string → validation Z := parse_timestamp.

Fixpoint validate_interleaving_provenance (provenance : list (str * str)) : validation unit :=
  match provenance with
  | [] => mret tt
  | (item_id, algorithm_id) :: rest =>
      _ ← reject_if (bool_decide (item_id = [])) EmptyItemId;
      _ ← reject_if (bool_decide (algorithm_id = [])) (EmptyAlgorithmId item_id);
      validate_interleaving_provenance rest
  end.

Definition validate_exposure (e : ExposureEvent) : validation unit :=
  _ ← validate_required (ex_event_id e) "event_id";
  _ ← validate_required (ex_experiment_id e) "experiment_id";
  _ ← validate_required (ex_user_id e) "user_id";
  _ ← validate_required (ex_variant_id e) "variant_id";
  _ ← require_timestamp (ex_timestamp e) "timestamp";
  _ ← (if negb (f64_eq (assignment_probability e) f64_zero)
       then assert_finite (assignment_probability e) else mret tt);
  _ ← validate_interleaving_provenance (interleaving_provenance e);
  mret tt.

Definition validate_metric_event (e : MetricEvent) : validation unit :=
  _ ← validate_required (me_event_id e) "event_id";
  _ ← validate_required (me_user_id e) "user_id";
  _ ← validate_required (me_event_type e) "event_type";
  _ ← require_timestamp (me_timestamp e) "timestamp";
  assert_finite (me_value e).

Definition validate_reward_event (e : RewardEvent) : validation unit :=
  _ ← validate_required (re_event_id e) "event_id";
  _ ← validate_required (re_experiment_id e) "experiment_id";
  _ ← validate_required (re_user_id e) "user_id";
  _ ← validate_required (arm_id e) "arm_id";
  _ ← require_timestamp (re_timestamp e) "timestamp";
  assert_finite (reward e).

Definition validate_model_retraining_event (e : ModelRetrainingEvent) : validation unit :=
  _ ← validate_required (mr_event_id e) "event_id";
  _ ← validate_required (model_id e) "model_id";
  start ← require_retraining_timestamp (training_data_start e) "training_data_start";
  end_ ← require_retraining_timestamp (training_data_end e) "training_data_end";
  reject_if (end_ <=? start)%Z EmptyTrainingWindow.

Definition check_range (field : string) (lo hi got : Z) : validation unit :=
  reject_if ((got <? lo) || (hi <? got))%Z (NotIn field lo hi got).

Definition validate_heartbeat_event (e : HeartbeatEvent) : validation unit :=
  _ ← validate_required (hb_user_id e) "user_id";
  _ ← validate_required (hb_device_id e) "device_id";
  _ ← validate_required (hb_content_id e) "content_id";
  _ ← require_timestamp (hb_timestamp e) "timestamp";
  _ ← assert_finite (buffer_health_seconds e);
  _ ← reject_if (f64_lt (buffer_health_seconds e) f64_zero) (NegativeBufferHealth (buffer_health_seconds e));
  _ ← check_range "current_bitrate_kbps" 0 200000 (current_bitrate_kbps e);
  check_range "current_resolution_height" 0 8640 (current_resolution_height e).

Definition validate_playback_metrics (m : PlaybackMetrics) : validation unit :=
  _ ← assert_finite (rebuffer_ratio m);
  _ ← reject_if (f64_lt (rebuffer_ratio m) f64_zero || f64_gt (rebuffer_ratio m) (f64_of_Z 1))
        (RatioOutOfRange (rebuffer_ratio m));
  _ ← assert_finite (startup_failure_rate m);
  _ ← reject_if (negb (f64_eq (startup_failure_rate m) f64_zero)
                 && negb (f64_eq (startup_failure_rate m) (f64_of_Z 1)))
        (FailureRateNotBoolean (startup_failure_rate m));
  _ ← check_range "time_to_first_frame_ms" 0 120000 (time_to_first_frame_ms m);
  _ ← check_range "rebuffer_count" 0 10000 (rebuffer_count m);
  _ ← check_range "avg_bitrate_kbps" 0 200000 (avg_bitrate_kbps m);
  _ ← check_range "resolution_switches" 0 10000 (resolution_switches m);
  _ ← check_range "playback_duration_ms" 0 86400000 (playback_duration_ms m);
  check_range "peak_resolution_height" 0 8640 (peak_resolution_height m).

Definition validate_qoe_event (e : QoEEvent) : validation unit :=
  _ ← validate_required (qe_event_id e) "event_id";
  _ ← validate_required (qe_session_id e) "session_id";
  _ ← validate_required (qe_content_id e) "content_id";
  _ ← validate_required (qe_user_id e) "user_id";
  _ ← require_timestamp (qe_timestamp e) "timestamp";
  match qe_metrics e with
  | Some metrics => validate_playback_metrics metrics
  | None => Err MetricsRequired
  end.
End clock.

(** [format!("{}:{}", model_id, start_secs)]; the decimal rendering of an [i64]. *)
Definition digit (n : Z) : ascii := ascii_of_N (Z.to_N (48 + n)).

Fixpoint digits (fuel : nat) (n : Z) (acc : str) : str :=
  match fuel with
  | 0 => acc
  | S fuel => if (n <? 10)%Z then digit n :: acc else digits fuel (n / 10) (digit (n mod 10) :: acc)
  end.

Definition show_i64 (n : Z) : str :=
  if (n <? 0)%Z then "-"%char :: digits 20 (- n) [] else digits 20 n [].

Definition model_retraining_dedup_key (e : ModelRetrainingEvent) : option str :=
  t ← training_data_start e; Some (model_id e ++ lit ":" ++ show_i64 (seconds t)).

(** ** Classification *)

Definition EBVS_DEFAULT_THRESHOLD_MS : Z := 10000.

Definition classify_ebvs (ttff_ms duration_ms threshold_ms : Z) : bool :=
  if (0 <? duration_ms)%Z then false
  else
    let ttff := Z.max ttff_ms 0 in
    let threshold := Z.max threshold_ms 0 in
    (ttff =? 0)%Z || (threshold <? ttff)%Z.

Definition set_ebvs_detected (m : PlaybackMetrics) (threshold_ms : Z) : PlaybackMetrics :=
  mk_playback (time_to_first_frame_ms m) (rebuffer_count m) (rebuffer_ratio m) (avg_bitrate_kbps m)
    (resolution_switches m) (peak_resolution_height m) (startup_failure_rate m)
    (playback_duration_ms m)
    (classify_ebvs (time_to_first_frame_ms m) (playback_duration_ms m) threshold_ms).
