(* ===== verification/Dedup.v ===== *)
(** The rotating Bloom filter of the ingestion pipeline
    ([experimentation-ingest/src/dedup.rs]). The [bloomfilter] crate is an interface;
    instants are nanoseconds of the monotonic clock. *)
From Stdlib Require Import Ascii String SpecFloat.
From S2P Require Import Prelude Bytes F64 Validation.

(** The operations of [Bloom<str>]. *)
Class Bloom (B : Type) := {
  new_for_fp_rate : Z → f64 → B;
  check : B → str → bool;
  set : B → str → B
}.

(** What the crate documents: a Bloom filter has no false negatives. *)
Class BloomLaws (B : Type) `{Bloom B} : Prop := {
  check_set_same f x : check (set f x) x = true;
  check_set_mono f x y : check f y = true → check (set f x) y = true
}.

Record DedupConfig := mk_dedup_config
  { cfg_items_per_interval : Z; cfg_fp_rate : f64; cfg_rotation_interval_secs : Z }.

Definition u64_max : Z := 2 ^ 64 - 1.

Section dedup.
Context {B : Type} `{Bloom B}.

Record EventDedup := mk_dedup
  { current : B; previous : option B; items_per_interval : Z; fp_rate : f64;
    rotation_interval_secs : Z; last_rotation : Z; current_count : nat; previous_count : nat }.

Definition with_config (config : DedupConfig) (now : Z) : EventDedup :=
  mk_dedup (new_for_fp_rate (cfg_items_per_interval config) (cfg_fp_rate config)) None
    (cfg_items_per_interval config) (cfg_fp_rate config) (cfg_rotation_interval_secs config) now 0 0.

(** [EventDedup::new]: an interval no elapsed time reaches. *)
Definition new (expected_items : Z) (rate : f64) (now : Z) : EventDedup :=
  with_config (mk_dedup_config expected_items rate u64_max) now.

Definition rotate (now : Z) (d : EventDedup) : EventDedup :=
  mk_dedup (new_for_fp_rate (items_per_interval d) (fp_rate d)) (Some (current d))
    (items_per_interval d) (fp_rate d) (rotation_interval_secs d) now 0 (current_count d).

(** [last_rotation.elapsed().as_secs()]: the clock is read at [t], and saturates. *)
Definition elapsed_secs (t : Z) (d : EventDedup) : Z := Z.max 0 (t - last_rotation d) / nanos_per_sec.

(** The clock is read again, at [t'], when the filter rotates. *)
Definition maybe_rotate (t t' : Z) (d : EventDedup) : EventDedup :=
  if (rotation_interval_secs d <=? elapsed_secs t d)%Z then rotate t' d else d.

Definition insert_current (event_id : str) (d : EventDedup) : EventDedup :=
  mk_dedup (set (current d) event_id) (previous d) (items_per_interval d) (fp_rate d)
    (rotation_interval_secs d) (last_rotation d) (current_count d + 1) (previous_count d).

Definition is_duplicate (t t' : Z) (event_id : str) (d : EventDedup) : EventDedup * bool :=
  let d := maybe_rotate t t' d in
  if check (current d) event_id then (d, true)
  else match previous d with
  | Some prev =>
      if check prev event_id then (insert_current event_id d, true)
      else (insert_current event_id d, false)
  | None => (insert_current event_id d, false)
  end.

Definition total_items (d : EventDedup) : nat := current_count d + previous_count d.

(** One call of a run: its two clock readings and its event. *)
Record Call := mk_call { c_time : Z; c_rotate_time : Z; c_event : str }.

Fixpoint run (calls : list Call) (d : EventDedup) : EventDedup * list bool :=
  match calls with
  | [] => (d, [])
  | c :: calls =>
      let '(d, r) := is_duplicate (c_time c) (c_rotate_time c) (c_event c) d in
      let '(d, rs) := run calls d in (d, r :: rs)
  end.
End dedup.
#[global] Arguments EventDedup B : clear implicits.

(** ** An event is remembered for a rotation interval *)

Section window.
Context {B : Type} `{BloomLaws B}.
Implicit Types (d : EventDedup B) (id : str).

(** [id] was seen at an instant not before [since]: it is in the current filter, or in
    the previous one and no rotation happened before [since]. *)
Definition remembered (id : str) (since : Z) (d : EventDedup B) : Prop :=
  check (current d) id = true ∨
  ∃ prev, previous d = Some prev ∧ check prev id = true ∧ (since ≤ last_rotation d)%Z.

Lemma remembered_detected id since t t' d :
  remembered id since d → (0 < rotation_interval_secs d)%Z →
  (t - since < rotation_interval_secs d * nanos_per_sec)%Z →
  remembered id since (maybe_rotate t t' d) ∨ (t' < since)%Z.
Proof.
  intros Hr Hint Ht. unfold maybe_rotate. destruct (_ <=? _)%Z eqn:E; [|by left].
  destruct Hr as [Hc|(prev & Hp & Hc & Hl)].
  - destruct (decide (t' < since)%Z); [by right|]. left. right. exists (current d).
    split_and!; [done..|]. simpl. lia.
  - exfalso. apply Z.leb_le in E. unfold elapsed_secs, nanos_per_sec in *.
    change (10 ^ 9)%Z with 1000000000%Z in *. Z.to_euclidean_division_equations. lia.
Qed.

Lemma remembered_insert id id' since d :
  remembered id since d → remembered id since (insert_current id' d).
Proof.
  intros [Hc|Hp]; [left|by right]. simpl. by apply check_set_mono.
Qed.

Lemma is_duplicate_state t t' id d :
  (is_duplicate t t' id d).1 = maybe_rotate t t' d ∨
  (is_duplicate t t' id d).1 = insert_current id (maybe_rotate t t' d).
Proof.
  unfold is_duplicate. destruct (check (current _) id); [by left|].
  destruct (previous _) as [p|]; [destruct (check p id)|]; by right.
Qed.

Lemma remembered_step id id' since t t' d :
  remembered id since d → (0 < rotation_interval_secs d)%Z → (since ≤ t')%Z →
  (t - since < rotation_interval_secs d * nanos_per_sec)%Z →
  remembered id since (is_duplicate t t' id' d).1.
Proof.
  intros Hr Hint Hs Ht. destruct (remembered_detected id since t t' d Hr Hint Ht) as [Hm|?]; [|lia].
  destruct (is_duplicate_state t t' id' d) as [-> | ->]; [done|by apply remembered_insert].
Qed.

Lemma is_duplicate_remembers t t' id d : remembered id t' (is_duplicate t t' id d).1.
Proof.
  unfold is_duplicate. destruct (check (current _) id) eqn:E; [by left|].
  destruct (previous _) as [p|]; [destruct (check p id)|]; left; apply check_set_same.
Qed.

Lemma is_duplicate_interval t t' id d :
  rotation_interval_secs (is_duplicate t t' id d).1 = rotation_interval_secs d.
Proof.
  destruct (is_duplicate_state t t' id d) as [-> | ->]; simpl; unfold maybe_rotate; by case_match.
Qed.

Lemma remembered_is_duplicate id since t t' d :
  remembered id since d → (0 < rotation_interval_secs d)%Z → (since ≤ t')%Z →
  (t - since < rotation_interval_secs d * nanos_per_sec)%Z →
  (is_duplicate t t' id d).2 = true.
Proof.
  intros Hr Hint Hs Ht. destruct (remembered_detected id since t t' d Hr Hint Ht) as [Hm|?]; [|lia].
  unfold is_duplicate. destruct Hm as [-> |(prev & Hp & Hc & _)]; [done|].
  destruct (check (current _) id); [done|]. by rewrite Hp, Hc.
Qed.

Lemma remembered_run id since calls d :
  remembered id since d → (0 < rotation_interval_secs d)%Z →
  Forall (λ c, since ≤ c_rotate_time c ∧ c_time c - since < rotation_interval_secs d * nanos_per_sec)%Z calls →
  remembered id since (run calls d).1 ∧
  rotation_interval_secs (run calls d).1 = rotation_interval_secs d.
Proof.
  revert d. induction calls as [|c calls IH]; intros d Hr Hint Hcs; [done|].
  apply Forall_cons in Hcs as [[Hs Ht] Hcs]. cbn [run].
  pose proof (remembered_step id (c_event c) since _ _ d Hr Hint Hs Ht) as Hr'.
  pose proof (is_duplicate_interval (c_time c) (c_rotate_time c) (c_event c) d) as Hi.
  destruct (is_duplicate _ _ _ d) as [d' r]. cbn [fst] in *.
  destruct (run calls d') as [d'' rs] eqn:E. cbn [fst].
  destruct (IH d' Hr') as [IH1 IH2]; [by rewrite Hi..|]. rewrite E in IH1, IH2. cbn [fst] in *.
  split; [done|congruence].
Qed.

Lemma run_app calls calls' d :
  run (calls ++ calls') d =
  let '(d', rs) := run calls d in let '(d'', rs') := run calls' d' in (d'', rs ++ rs').
Proof.
  revert d. induction calls as [|c calls IH]; intros d; cbn [run app].
  - by destruct (run calls' d).
  - destruct (is_duplicate _ _ _ d) as [d1 r]. rewrite IH. destruct (run calls d1) as [d2 rs].
    by destruct (run calls' d2).
Qed.

(** Deduplication has no false negative inside a window: an event that comes again
    less than a rotation interval after a call saw it is reported as a duplicate,
    whatever happened in between. *)
Theorem dedup_window d first calls again :
  (0 < rotation_interval_secs d)%Z →
  Forall (λ c, c_rotate_time first ≤ c_rotate_time c ∧
               c_time c - c_rotate_time first < rotation_interval_secs d * nanos_per_sec)%Z
    (calls ++ [again]) →
  c_event again = c_event first →
  last (run (first :: calls ++ [again]) d).2 = Some true.
Proof.
  intros Hint [Hcs [[Hs Ht] _]%Forall_cons]%Forall_app Hev.
  cbn [run]. pose proof (is_duplicate_remembers (c_time first) (c_rotate_time first) (c_event first) d) as Hr.
  pose proof (is_duplicate_interval (c_time first) (c_rotate_time first) (c_event first) d) as Hi.
  destruct (is_duplicate _ _ (c_event first) d) as [d1 r1]. cbn [fst] in *.
  destruct (remembered_run _ _ calls d1 Hr) as [Hr' Hi']; [by rewrite Hi..|].
  rewrite run_app. destruct (run calls d1) as [d2 rs]. cbn [fst] in *. cbn [run].
  pose proof (remembered_is_duplicate _ _ (c_time again) (c_rotate_time again) d2 Hr') as Hd.
  rewrite Hev. destruct (is_duplicate _ _ (c_event first) d2) as [d3 r3]. cbn [snd] in *.
  rewrite Hd by (rewrite ?Hi', ?Hi; done). by rewrite app_comm_cons, last_snoc.
Qed.
End window.

(** ** A filter without errors *)

(** Sets of event ids satisfy the interface, and have no false positives either. *)
#[export] Instance exact_filter : Bloom (gset str) := {
  new_for_fp_rate _ _ := ∅;
  check f x := bool_decide (x ∈ f);
  set f x := {[x]} ∪ f
}.

#[export] Instance exact_filter_laws : BloomLaws (gset str).
Proof.
  constructor.
  - intros f x. cbn [check set exact_filter]. apply bool_decide_eq_true_2. set_solver.
  - intros f x y. cbn [check set exact_filter]. rewrite !bool_decide_eq_true. set_solver.
Qed.

Lemma run_length (calls : list Call) (d : EventDedup (gset str)) : length (run calls d).2 = length calls.
Proof.
  revert d. induction calls as [|c calls IH]; intros d; [done|]. cbn [run].
  destruct (is_duplicate _ _ _ d) as [d1 r]. specialize (IH d1). destruct (run calls d1).
  simpl in *. by rewrite IH.
Qed.

Definition all_seen (seen : list str) (d : EventDedup (gset str)) : Prop :=
  (∀ x, x ∈ current d → x ∈ seen) ∧ ∀ prev x, previous d = Some prev → x ∈ prev → x ∈ seen.

Lemma all_seen_step seen c d :
  all_seen seen d →
  let '(d', r) := is_duplicate (c_time c) (c_rotate_time c) (c_event c) d in
  all_seen (c_event c :: seen) d' ∧ (r = true → c_event c ∈ seen).
Proof.
  intros Hs. assert (all_seen seen (maybe_rotate (c_time c) (c_rotate_time c) d)) as [Hc Hp].
  { unfold maybe_rotate. case_match; [|done]. destruct Hs as [Hc Hp]. split; simpl.
    - intros x Hx. by apply elem_of_empty in Hx.
    - intros prev x [= <-]. apply Hc. }
  assert (all_seen (c_event c :: seen) (insert_current (c_event c)
    (maybe_rotate (c_time c) (c_rotate_time c) d))) as Hins.
  { split; simpl.
    - intros x [->%elem_of_singleton|Hx]%elem_of_union; [by left|right; by apply Hc].
    - intros prev x E Hx. right. by eapply Hp. }
  unfold is_duplicate. cbn [check exact_filter].
  destruct (bool_decide (c_event c ∈ current _)) eqn:E.
  - apply bool_decide_eq_true in E. split; [|intros _; by apply Hc]. split.
    + intros x Hx. right. by apply Hc.
    + intros prev x E' Hx. right. by eapply Hp.
  - destruct (previous _) as [prev|] eqn:Ep; [|done].
    destruct (bool_decide (c_event c ∈ prev)) eqn:E'; [|done].
    split; [done|]. intros _. apply bool_decide_eq_true in E'. by eapply Hp.
Qed.

(** With such a filter only events that came before are reported: rotation and the
    re-insertion of old events introduce no duplicates of their own. *)
Lemma exact_dedup_from before c d seen :
  all_seen seen d → last (run (before ++ [c]) d).2 = Some true →
  c_event c ∈ (c_event <$> before) ++ seen.
Proof.
  revert d seen. induction before as [|b before IH]; intros d seen Hs; cbn [run app].
  - pose proof (all_seen_step seen c d Hs) as Hstep. destruct (is_duplicate _ _ _ d) as [d1 r].
    intros [= ->]. by apply Hstep.
  - pose proof (all_seen_step seen b d Hs) as Hstep. destruct (is_duplicate _ _ _ d) as [d1 r].
    destruct Hstep as [Hs1 _]. specialize (IH d1 _ Hs1).
    destruct (run (before ++ [c]) d1) as [d2 rs] eqn:E. cbn [snd] in *.
    destruct rs as [|r1 rs1] eqn:Er.
    { exfalso. pose proof (run_length (before ++ [c]) d1) as Hl. rewrite E, length_app in Hl. simpl in Hl. lia. }
    intros Hl. change (last (r1 :: rs1) = Some true) in Hl. apply IH in Hl.
    rewrite fmap_cons. clear -Hl. set_solver.
Qed.

Lemma exact_dedup before c d :
  all_seen [] d → last (run (before ++ [c]) d).2 = Some true → c_event c ∈ c_event <$> before.
Proof. intros Hs Hl. rewrite <- (app_nil_r (c_event <$> before)). by eapply exact_dedup_from. Qed.

Definition call_at (t : Z) (id : string) : Call := mk_call (t * nanos_per_sec) (t * nanos_per_sec) (lit id).

Lemma dedup_window_witness :
  last (run [call_at 3590 "e"; call_at 3605 "f"; call_at 7100 "e"]
    (with_config (B := gset str) (mk_dedup_config 100 f64_zero 3600) 0)).2 = Some true.
Proof.
  apply (dedup_window (B := gset str) _ (call_at 3590 "e") [call_at 3605 "f"] (call_at 7100 "e")).
  - reflexivity.
  - repeat constructor; vm_compute; discriminate.
  - reflexivity.
Defined.
