(* ===== verification/Buffer.v ===== *)
(** The write-ahead log of the ingestion pipeline
    ([experimentation-pipeline/src/buffer.rs]): its length-prefixed entries, the
    bounded append that drops the oldest entries, and reading after a crash. A file is
    the bytes it holds, [None] when it does not exist; a fault makes a write stop
    part-way. *)
From Stdlib Require Import Ascii String.
From S2P Require Import Prelude Bytes.

Record BufferedEvent := mk_event { topic : str; key : str; payload : str }.

(** [io::Error], by the kinds the code tells apart. *)
Inductive IoError := UnexpectedEof | InvalidData | Fault.

Abbreviation io := (result IoError).

Definition zlen (s : str) : Z := Z.of_nat (length s).

(** ** Entries *)

(** [u32::to_le_bytes] and [u32::from_le_bytes]. *)
Definition to_le_bytes (n : Z) : str :=
  (λ k, ascii_of_N (Z.to_N (Z.land (Z.shiftr n (8 * k)) 255))) <$> [0; 1; 2; 3]%Z.

Definition from_le_bytes (s : str) : Z :=
  foldr (λ c acc, Z.of_N (code c) + 256 * acc)%Z 0%Z s.

Definition serialize_field (s : str) : str := to_le_bytes (u32_wrap (zlen s)) ++ s.

Definition serialize_entry (e : BufferedEvent) : str :=
  serialize_field (topic e) ++ serialize_field (key e) ++ serialize_field (payload e).

(** [Read::read_exact]: the bytes and the rest of the input. *)
Definition read_exact (n : Z) (input : str) : io (str * str) :=
  if (zlen input <? n)%Z then Err UnexpectedEof
  else Ok (take (Z.to_nat n) input, drop (Z.to_nat n) input).

Definition from_utf8 (s : str) : io str := if valid_utf8 s then Ok s else Err InvalidData.

Definition read_field (input : str) : io (str * str) :=
  '(len_buf, input) ← read_exact 4 input;
  read_exact (from_le_bytes len_buf) input.

(** [deserialize_entry]: [None] at a clean end of the input. *)
Definition deserialize_entry (input : str) : io (option (BufferedEvent * str)) :=
  match read_exact 4 input with
  | Err UnexpectedEof => Ok None
  | Err e => Err e
  | Panics => Panics
  | OutOfFuel => OutOfFuel
  | Ok (len_buf, input) =>
      '(topic_buf, input) ← read_exact (from_le_bytes len_buf) input;
      t ← from_utf8 topic_buf;
      '(key_buf, input) ← read_field input;
      k ← from_utf8 key_buf;
      '(p, input) ← read_field input;
      mret (Some (mk_event t k p, input))
  end.

(** ** The log *)

Record DiskBuffer := mk_buffer { max_size_bytes : Z; file : option str; current_size : Z }.

(** [DiskBuffer::new] on what a previous run left. *)
Definition new (max : Z) (file : option str) : DiskBuffer :=
  mk_buffer max file (match file with Some s => zlen s | None => 0 end).

Fixpoint read_loop (fuel : nat) (input : str) : io (list BufferedEvent) :=
  match fuel with
  | 0 => OutOfFuel
  | S fuel =>
      match deserialize_entry input with
      | Ok (Some (e, input)) => es ← read_loop fuel input; mret (e :: es)
      | Ok None => mret []
      | Err UnexpectedEof => mret []
      | Err e => Err e
      | Panics => Panics
      | OutOfFuel => OutOfFuel
      end
  end.

(** [read_all]: each round consumes the four bytes of a length. *)
Definition read_all (b : DiskBuffer) : io (list BufferedEvent) :=
  match file b with
  | Some s => if (current_size b =? 0)%Z then mret [] else read_loop (S (length s)) s
  | None => mret []
  end.

Definition has_pending (b : DiskBuffer) : bool := (0 <? current_size b)%Z.

Definition clear (b : DiskBuffer) : DiskBuffer := mk_buffer (max_size_bytes b) None 0.

(** The scan of [compact] from the newest entry: what is kept, newest first. *)
Fixpoint keep_newest (target kept_size : Z) (newest_first : list BufferedEvent) :
    list BufferedEvent * Z :=
  match newest_first with
  | [] => ([], kept_size)
  | e :: es =>
      let entry_size := zlen (serialize_entry e) in
      if (target <? kept_size + entry_size)%Z then ([], kept_size)
      else let '(kept, size) := keep_newest target (kept_size + entry_size) es in (e :: kept, size)
  end.

Definition file_of (es : list BufferedEvent) : str := concat (serialize_entry <$> es).

(** Where an operation on the files can fail: while the compacted copy is written, or
    after the first bytes of the appended entry. *)
Inductive FaultAt := InCompact | InWrite (written : nat).

#[export] Instance fault_at_eq_dec : EqDecision FaultAt.
Proof. solve_decision. Defined.

Definition compact (needed_bytes : Z) (fault : option FaultAt) (b : DiskBuffer) : io DiskBuffer :=
  events ← read_all b;
  let target_size := Z.max 0 (max_size_bytes b - needed_bytes) in
  let '(kept, kept_size) := keep_newest target_size 0 (reverse events) in
  match fault with
  | Some InCompact => Err Fault
  | _ => mret (mk_buffer (max_size_bytes b) (Some (file_of (reverse kept))) kept_size)
  end.

(** The write at the end of [append]; a failed one leaves its first bytes. *)
Definition write_entry (entry : str) (fault : option FaultAt) (b : DiskBuffer) : DiskBuffer * io unit :=
  let old := default [] (file b) in
  match fault with
  | Some (InWrite n) =>
      (mk_buffer (max_size_bytes b) (Some (old ++ take n entry)) (current_size b), Err Fault)
  | _ =>
      (mk_buffer (max_size_bytes b) (Some (old ++ entry)) (current_size b + zlen entry), mret tt)
  end.

Definition append (e : BufferedEvent) (fault : option FaultAt) (b : DiskBuffer) : DiskBuffer * io unit :=
  let entry := serialize_entry e in
  if (max_size_bytes b <? zlen entry)%Z then (b, mret tt)
  else if (max_size_bytes b <? current_size b + zlen entry)%Z then
    match compact (zlen entry) fault b with
    | Ok b' => write_entry entry fault b'
    | Err err => (b, Err err)
    | Panics => (b, Panics)
    | OutOfFuel => (b, OutOfFuel)
    end
  else write_entry entry fault b.

(** ** Entries round-trip *)

Definition entry_ok (e : BufferedEvent) : Prop :=
  valid_utf8 (topic e) = true ∧ valid_utf8 (key e) = true ∧
  (zlen (topic e) < 2 ^ 32)%Z ∧ (zlen (key e) < 2 ^ 32)%Z ∧ (zlen (payload e) < 2 ^ 32)%Z.

Lemma code_of_byte z : (0 ≤ z < 256)%Z → Z.of_N (code (ascii_of_N (Z.to_N z))) = z.
Proof. intros Hz. unfold code. rewrite N_ascii_embedding; lia. Qed.

Lemma le_bytes_round_trip n : (0 ≤ n < 2 ^ 32)%Z → from_le_bytes (to_le_bytes n) = n.
Proof.
  intros Hn. unfold from_le_bytes, to_le_bytes. cbn [fmap list_fmap foldr].
  assert (∀ k, (0 ≤ Z.land (Z.shiftr n (8 * k)) 255 < 256)%Z) as Hb.
  { intros k. change 255%Z with (Z.ones 8). rewrite Z.land_ones by lia. by apply Z.mod_pos_bound. }
  rewrite !code_of_byte by apply Hb. change 255%Z with (Z.ones 8). rewrite !Z.land_ones by lia.
  rewrite !Z.shiftr_div_pow2 by lia. change (2 ^ 8)%Z with 256%Z.
  change (2 ^ (8 * 0))%Z with 1%Z. change (2 ^ (8 * 1))%Z with 256%Z.
  change (2 ^ (8 * 2))%Z with 65536%Z. change (2 ^ (8 * 3))%Z with 16777216%Z.
  change (2 ^ 32)%Z with 4294967296%Z in Hn. Z.to_euclidean_division_equations. lia.
Qed.

Lemma zlen_app s t : zlen (s ++ t) = (zlen s + zlen t)%Z.
Proof. unfold zlen. rewrite length_app. lia. Qed.

Lemma zlen_nonneg s : (0 ≤ zlen s)%Z.
Proof. unfold zlen. lia. Qed.

Lemma read_exact_app s rest : read_exact (zlen s) (s ++ rest) = Ok (s, rest).
Proof.
  unfold read_exact. rewrite zlen_app. pose proof (zlen_nonneg rest).
  rewrite (proj2 (Z.ltb_ge _ _)) by lia. unfold zlen. rewrite Nat2Z.id.
  by rewrite take_app_length, drop_app_length.
Qed.

Lemma read_exact_short n s : (zlen s < n)%Z → read_exact n s = Err UnexpectedEof.
Proof. intros H. unfold read_exact. by rewrite (proj2 (Z.ltb_lt _ _)). Qed.

Lemma read_len s rest :
  (zlen s < 2 ^ 32)%Z →
  read_exact 4 (serialize_field s ++ rest) = Ok (to_le_bytes (u32_wrap (zlen s)), s ++ rest) ∧
  from_le_bytes (to_le_bytes (u32_wrap (zlen s))) = zlen s.
Proof.
  intros Hs. pose proof (zlen_nonneg s). split.
  - unfold serialize_field. rewrite <- app_assoc. apply (read_exact_app (to_le_bytes _)).
  - rewrite le_bytes_round_trip by apply u32_wrap_range. unfold u32_wrap. by rewrite Z.mod_small by lia.
Qed.

Lemma read_field_app s rest :
  (zlen s < 2 ^ 32)%Z → read_field (serialize_field s ++ rest) = Ok (s, rest).
Proof.
  intros Hs. destruct (read_len s rest Hs) as [E1 E2]. unfold read_field. rewrite E1.
  cbn [mbind result_bind]. rewrite E2. apply read_exact_app.
Qed.

Lemma from_utf8_ok s : valid_utf8 s = true → from_utf8 s = Ok s.
Proof. intros H. unfold from_utf8. by rewrite H. Qed.

Lemma entry_round_trip e rest :
  entry_ok e → deserialize_entry (serialize_entry e ++ rest) = Ok (Some (e, rest)).
Proof.
  intros (Ht & Hk & Lt & Lk & Lp). destruct e as [t k p]. cbn [topic key payload] in *.
  unfold deserialize_entry, serialize_entry. cbn [topic key payload]. rewrite <- !app_assoc.
  destruct (read_len t (serialize_field k ++ serialize_field p ++ rest) Lt) as [-> ->].
  rewrite read_exact_app. cbn [mbind result_bind]. rewrite from_utf8_ok by done. cbn [mbind result_bind].
  rewrite read_field_app by done. cbn [mbind result_bind]. rewrite from_utf8_ok by done.
  cbn [mbind result_bind]. by rewrite read_field_app.
Qed.

(** ** A torn entry reads as the end of the log *)

Definition torn (input : str) : Prop :=
  deserialize_entry input = Ok None ∨ deserialize_entry input = Err UnexpectedEof.

Lemma length_le_bytes n : length (to_le_bytes n) = 4.
Proof. done. Qed.

(** A proper prefix of a field stops one of the two reads of the field. *)
Lemma read_field_torn s n :
  (zlen s < 2 ^ 32)%Z → n < length (serialize_field s) →
  read_field (take n (serialize_field s)) = Err UnexpectedEof.
Proof.
  intros Hs Hn. unfold read_field. destruct (decide (n < 4)) as [H4|H4].
  - rewrite read_exact_short; [done|]. unfold zlen. rewrite length_take. lia.
  - destruct (read_len s [] Hs) as [_ Hlen]. unfold serialize_field in *.
    rewrite length_app, (length_le_bytes (u32_wrap (zlen s))) in Hn.
    rewrite take_app_ge by (rewrite length_le_bytes; lia). rewrite length_le_bytes.
    rewrite (read_exact_app (to_le_bytes _) (take (n - 4) s) : read_exact 4 _ = _).
    cbn [mbind result_bind]. rewrite Hlen. apply read_exact_short.
    unfold zlen. rewrite length_take. lia.
Qed.

Lemma take_app_split {A} (l k : list A) n :
  take n (l ++ k) = if decide (n < length l) then take n l else l ++ take (n - length l) k.
Proof.
  case_decide; [by rewrite take_app_le by lia|by rewrite take_app_ge by lia].
Qed.

Lemma entry_torn e n : entry_ok e → n < length (serialize_entry e) → torn (take n (serialize_entry e)).
Proof.
  intros (Ht & Hk & Lt & Lk & Lp) Hn. destruct e as [t k p]. cbn [topic key payload] in *.
  unfold serialize_entry in *. cbn [topic key payload] in *. rewrite !length_app in Hn.
  rewrite !take_app_split. unfold torn, deserialize_entry. case_decide as H1.
  { pose proof (read_field_torn t n Lt H1) as E. unfold read_field in E.
    destruct (read_exact 4 _) as [[l i]|[]| |]; try done; [|by left].
    cbn [mbind result_bind] in E. rewrite E. by right. }
  destruct (read_len t (if decide (n - length (serialize_field t) < length (serialize_field k))
    then take (n - length (serialize_field t)) (serialize_field k)
    else serialize_field k ++ take (n - length (serialize_field t) - length (serialize_field k)) (serialize_field p)) Lt)
    as [-> ->].
  rewrite read_exact_app. cbn [mbind result_bind]. rewrite from_utf8_ok by done. cbn [mbind result_bind].
  right. case_decide as H2; [by rewrite read_field_torn|].
  rewrite read_field_app by done. cbn [mbind result_bind]. rewrite from_utf8_ok by done.
  cbn [mbind result_bind]. rewrite read_field_torn by (try done; lia). done.
Qed.

(** ** The log reads back *)

Lemma file_of_cons e es : file_of (e :: es) = serialize_entry e ++ file_of es.
Proof. done. Qed.

Lemma file_of_app es es' : file_of (es ++ es') = file_of es ++ file_of es'.
Proof. unfold file_of. by rewrite fmap_app, concat_app. Qed.

Lemma entry_length e : 12 ≤ length (serialize_entry e).
Proof. unfold serialize_entry, serialize_field. rewrite !length_app, !length_le_bytes. lia. Qed.

Lemma torn_nil : torn [].
Proof. by left. Qed.

Lemma read_loop_torn fuel tail : torn tail → 0 < fuel → read_loop fuel tail = Ok [].
Proof. intros Ht Hf. destruct fuel as [|fuel]; [lia|]. cbn [read_loop]. by destruct Ht as [-> | ->]. Qed.

Lemma read_loop_file es tail fuel :
  Forall entry_ok es → torn tail → length (file_of es ++ tail) < fuel →
  read_loop fuel (file_of es ++ tail) = Ok es.
Proof.
  intros Hes Htail. revert fuel. induction Hes as [|e es He _ IH]; intros fuel Hf.
  - apply read_loop_torn; [done|lia].
  - destruct fuel as [|fuel]; [lia|]. rewrite file_of_cons, <- app_assoc in *. cbn [read_loop].
    rewrite entry_round_trip by done. rewrite IH; [done|].
    rewrite length_app in Hf. pose proof (entry_length e). lia.
Qed.

Lemma read_after_restart max es tail :
  Forall entry_ok es → torn tail → read_all (new max (Some (file_of es ++ tail))) = Ok es.
Proof.
  intros Hes Ht. unfold read_all, new. cbn [file current_size].
  destruct (zlen _ =? 0)%Z eqn:E; [|by apply read_loop_file; [..|lia]].
  destruct es as [|e es]; [done|]. apply Z.eqb_eq in E. unfold zlen in E.
  rewrite file_of_cons, !length_app in E. pose proof (entry_length e). lia.
Qed.

(** [b] holds exactly the entries [es]. *)
Definition holds (b : DiskBuffer) (es : list BufferedEvent) : Prop :=
  (file b = Some (file_of es) ∨ file b = None ∧ es = []) ∧
  current_size b = zlen (file_of es) ∧ (current_size b ≤ max_size_bytes b)%Z ∧ Forall entry_ok es.

Lemma holds_new max : (0 ≤ max)%Z → holds (new max None) [].
Proof. intros H. split_and!; [by right|done|done|constructor]. Qed.

Lemma holds_read b es : holds b es → read_all b = Ok es.
Proof.
  intros ([Hf|[Hf ->]] & Hs & _ & Hes); unfold read_all; rewrite Hf; [|done].
  destruct (current_size b =? 0)%Z eqn:E.
  - apply Z.eqb_eq in E. destruct es as [|e es]; [done|]. rewrite Hs in E. unfold zlen in E.
    rewrite file_of_cons, length_app in E. pose proof (entry_length e). lia.
  - rewrite <- (app_nil_r (file_of es)). apply read_loop_file; [done|apply torn_nil|lia].
Qed.

(** ** What compaction keeps *)

Definition size_of (es : list BufferedEvent) : Z := zlen (file_of es).

Lemma size_of_cons e es : size_of (e :: es) = (zlen (serialize_entry e) + size_of es)%Z.
Proof. unfold size_of. by rewrite file_of_cons, zlen_app. Qed.

Lemma size_of_app es es' : size_of (es ++ es') = (size_of es + size_of es')%Z.
Proof. unfold size_of. by rewrite file_of_app, zlen_app. Qed.

Lemma size_of_nil : size_of [] = 0%Z.
Proof. done. Qed.

Lemma size_of_reverse es : size_of (reverse es) = size_of es.
Proof.
  induction es as [|e es IH]; [done|]. rewrite reverse_cons, size_of_app, IH, !size_of_cons, size_of_nil. lia.
Qed.

Lemma keep_newest_spec target es : ∀ k kept size,
  keep_newest target k es = (kept, size) → (k ≤ target)%Z →
  ∃ dropped, es = kept ++ dropped ∧ size = (k + size_of kept)%Z ∧ (size ≤ target)%Z ∧
    ∀ e rest, dropped = e :: rest → (target < size + zlen (serialize_entry e))%Z.
Proof.
  induction es as [|e es IH]; intros k kept size Hk Hle; cbn [keep_newest] in Hk.
  - injection Hk as <- <-. exists []. split_and!; [done|rewrite size_of_nil; lia|done|done].
  - destruct (target <? _)%Z eqn:E.
    + injection Hk as <- <-. exists (e :: es). split_and!; [done|rewrite size_of_nil; lia|done|].
      intros ? ? [= <- <-]. lia.
    + destruct (keep_newest _ _ es) as [kept' size'] eqn:E'. injection Hk as <- <-.
      apply IH in E' as (dropped & -> & -> & ? & ?); [|lia]. exists dropped.
      split_and!; [done|rewrite size_of_cons; lia|done|done].
Qed.

(** The newest entries that leave room for [needed] bytes. *)
Definition kept_for (max needed : Z) (es kept : list BufferedEvent) : Prop :=
  ∃ dropped, es = dropped ++ kept ∧ (size_of kept + needed ≤ max)%Z ∧
    ∀ rest e, dropped = rest ++ [e] → (max < size_of (e :: kept) + needed)%Z.

Lemma kept_all max needed es : (size_of es + needed ≤ max)%Z → kept_for max needed es es.
Proof. intros H. exists []. split_and!; [done|done|]. intros rest e E. by destruct rest. Qed.

Lemma compact_spec b es needed fault :
  holds b es → (needed ≤ max_size_bytes b)%Z →
  (compact needed fault b = Err Fault ∧ fault = Some InCompact) ∨
  ∃ kept b', compact needed fault b = Ok b' ∧ kept_for (max_size_bytes b) needed es kept ∧
    b' = mk_buffer (max_size_bytes b) (Some (file_of kept)) (size_of kept) ∧ Forall entry_ok kept.
Proof.
  intros Hb Hn. pose proof (holds_read _ _ Hb) as Hr. destruct Hb as (_ & _ & _ & Hes).
  unfold compact. rewrite Hr. cbn [mbind result_bind].
  destruct (keep_newest _ _ _) as [kept size] eqn:E.
  apply keep_newest_spec in E as (dropped & Hsplit & -> & Hle & Hmax); [|lia].
  apply (f_equal reverse) in Hsplit. rewrite reverse_involutive, reverse_app in Hsplit.
  destruct (decide (fault = Some InCompact)) as [->|Hf]; [by left|]. right.
  exists (reverse kept). eexists. split.
  { destruct fault as [[]|]; [done|reflexivity..]. }
  split_and!.
  - exists (reverse dropped). split_and!; [done|rewrite size_of_reverse; lia|].
    intros rest e He. apply (f_equal reverse) in He. rewrite reverse_involutive, reverse_snoc in He.
    rewrite size_of_cons, size_of_reverse. apply Hmax in He. lia.
  - by rewrite size_of_reverse, Z.add_0_l.
  - subst es. apply Forall_app in Hes. apply Hes.
Qed.

(** ** Appending *)

(** The entries the append works on: all of them when the new one fits. *)
Definition room_for (max needed : Z) (es kept : list BufferedEvent) : Prop :=
  if (size_of es + needed <=? max)%Z then kept = es else kept_for max needed es kept.

Lemma room_for_kept max needed es kept : room_for max needed es kept → kept_for max needed es kept.
Proof. unfold room_for. case_match; [intros ->; apply kept_all; lia|done]. Qed.

Lemma write_spec b kept e fault :
  holds b kept → entry_ok e → (size_of kept + zlen (serialize_entry e) ≤ max_size_bytes b)%Z →
  match fault with
  | Some (InWrite n) =>
      ∃ b', write_entry (serialize_entry e) fault b = (b', Err Fault) ∧
        file b' = Some (file_of kept ++ take n (serialize_entry e))
  | _ => ∃ b', write_entry (serialize_entry e) fault b = (b', Ok tt) ∧ holds b' (kept ++ [e]) ∧
        max_size_bytes b' = max_size_bytes b
  end.
Proof.
  intros (Hf & Hs & Hle & Hes) He Hroom.
  assert (default [] (file b) = file_of kept) as Hfile.
  { destruct Hf as [-> | [-> ->]]; done. }
  assert (file_of (kept ++ [e]) = file_of kept ++ serialize_entry e) as Hsnoc.
  { rewrite file_of_app, file_of_cons. by rewrite app_nil_r. }
  unfold write_entry. rewrite Hfile.
  assert (holds (mk_buffer (max_size_bytes b) (Some (file_of kept ++ serialize_entry e))
            (current_size b + zlen (serialize_entry e))) (kept ++ [e])) as Hnew.
  { split_and!; cbn [file current_size max_size_bytes].
    - left. by rewrite Hsnoc.
    - by rewrite Hsnoc, zlen_app, Hs.
    - rewrite Hs. unfold size_of in Hroom. lia.
    - apply Forall_app. auto. }
  destruct fault as [[|n]|]; [|by eexists|]; eexists; split_and!; try done.
Qed.

(** The entry is too large for the log: it is dropped, and the call still succeeds. *)
Lemma append_oversized b e fault :
  (max_size_bytes b < zlen (serialize_entry e))%Z → append e fault b = (b, Ok tt).
Proof. intros H. unfold append. by rewrite (proj2 (Z.ltb_lt _ _)). Qed.

Lemma append_cases b es e fault :
  holds b es → entry_ok e → (zlen (serialize_entry e) ≤ max_size_bytes b)%Z →
  (append e fault b = (b, Err Fault) ∧ fault = Some InCompact) ∨
  ∃ kept b1, room_for (max_size_bytes b) (zlen (serialize_entry e)) es kept ∧ holds b1 kept ∧
    max_size_bytes b1 = max_size_bytes b ∧ append e fault b = write_entry (serialize_entry e) fault b1.
Proof.
  intros Hb He Hle. pose proof Hb as (_ & Hs & Hmax & Hes). unfold append.
  rewrite (proj2 (Z.ltb_ge _ _)) by lia. destruct (_ <? _)%Z eqn:Hfit.
  - destruct (compact_spec b es (zlen (serialize_entry e)) fault Hb Hle)
      as [[-> ->]|(kept & b' & -> & Hk & -> & Hok)]; [by left|]. right.
    exists kept, (mk_buffer (max_size_bytes b) (Some (file_of kept)) (size_of kept)).
    split; [|split; [|split; reflexivity]].
    + unfold room_for. rewrite (proj2 (Z.leb_gt _ _)); [done|]. unfold size_of. lia.
    + split_and!; cbn [file current_size max_size_bytes]; [by left|done| |done].
      destruct Hk as (? & _ & ? & _). pose proof (zlen_nonneg (serialize_entry e)). lia.
  - right. exists es, b. split; [|by split]. unfold room_for.
    rewrite (proj2 (Z.leb_le _ _)); [done|]. unfold size_of. lia.
Qed.

Lemma append_keeps b es e :
  holds b es → entry_ok e → (zlen (serialize_entry e) ≤ max_size_bytes b)%Z →
  ∃ kept b', room_for (max_size_bytes b) (zlen (serialize_entry e)) es kept ∧
    append e None b = (b', Ok tt) ∧ holds b' (kept ++ [e]) ∧ max_size_bytes b' = max_size_bytes b.
Proof.
  intros Hb He Hle. destruct (append_cases b es e None Hb He Hle) as [[_ ?]|(kept & b1 & Hk & Hb1 & Hm & ->)]; [done|].
  pose proof (room_for_kept _ _ _ _ Hk) as (_ & _ & Hsize & _).
  destruct (write_spec b1 kept e None Hb1 He) as (b' & -> & Hb' & Hm'); [lia|].
  exists kept, b'. split_and!; try done; [apply Hb'..|congruence].
Qed.

(** Serving the append: the oldest entries go, as few as possible, the rest keep
    their order, and the log stays within its bound and readable. *)
Theorem wal_append b es e :
  holds b es → entry_ok e → (zlen (serialize_entry e) ≤ max_size_bytes b)%Z →
  ∃ kept b', room_for (max_size_bytes b) (zlen (serialize_entry e)) es kept ∧
    append e None b = (b', Ok tt) ∧ holds b' (kept ++ [e]) ∧
    max_size_bytes b' = max_size_bytes b ∧ read_all b' = Ok (kept ++ [e]).
Proof.
  intros Hb He Hle. destruct (append_keeps b es e Hb He Hle) as (kept & b' & Hk & E & Hb' & Hm).
  exists kept, b'. pose proof (holds_read _ _ Hb'). done.
Qed.

Lemma holds_restart max b es : holds b es → read_all (new max (file b)) = Ok es.
Proof.
  intros ([-> | [-> ->]] & _ & _ & Hes); [|done]. rewrite <- (app_nil_r (file_of es)).
  apply read_after_restart; [done|apply torn_nil].
Qed.

(** [C30] Whatever the fault, a restart reads what was there: all old entries, or those that
    compaction kept, or these with the new one; a success means the new one is there. *)
Theorem wal_crash_recovery b es e fault b' r :
  holds b es → entry_ok e → (zlen (serialize_entry e) ≤ max_size_bytes b)%Z →
  append e (Some fault) b = (b', r) →
  ∃ kept survivors, room_for (max_size_bytes b) (zlen (serialize_entry e)) es kept ∧
    read_all (new (max_size_bytes b) (file b')) = Ok survivors ∧
    (survivors = es ∨ survivors = kept ∨ survivors = kept ++ [e]) ∧
    (r = Ok tt → survivors = kept ++ [e]).
Proof.
  intros Hb He Hle Ha.
  destruct (append_cases b es e (Some fault) Hb He Hle) as [[E Hf]|(kept & b1 & Hk & Hb1 & Hm & E)];
    rewrite Ha in E.
  - injection E as -> ->. destruct (append_cases b es e None Hb He Hle) as [[_ ?]|(kept & _ & Hk & _)]; [done|].
    exists kept, es. split_and!; [done| |by left|done]. by apply holds_restart.
  - pose proof (room_for_kept _ _ _ _ Hk) as (_ & _ & Hsize & _).
    pose proof (write_spec b1 kept e (Some fault) Hb1 He) as Hw. rewrite <- E, Hm in Hw.
    destruct fault as [|n].
    + destruct Hw as (b2 & [= <- ->] & Hb2 & Hm2); [lia|]. exists kept, (kept ++ [e]).
      split_and!; [done| |by right; right|done]. rewrite <- Hm2. by apply holds_restart.
    + destruct Hw as (b2 & [= <- ->] & Hfile); [lia|]. rewrite Hfile.
      pose proof Hb1 as (_ & _ & _ & Hok).
      destruct (decide (n < length (serialize_entry e))) as [Hn|Hn].
      * exists kept, kept. split_and!; [done| |by right; left|done].
        apply read_after_restart; [done|by apply entry_torn].
      * exists kept, (kept ++ [e]). split_and!; [done| |by right; right|done].
        rewrite take_ge by lia. pose proof (read_after_restart (max_size_bytes b) (kept ++ [e]) []) as Hr.
        rewrite file_of_app, file_of_cons, !app_nil_r in Hr. apply Hr; [|apply torn_nil].
        apply Forall_app. auto.
Qed.

(** ** Witnesses and a limit *)

Definition sample (p : string) : BufferedEvent := mk_event (lit "exposures") (lit "exp") (lit p).

Lemma sample_holds : holds (new 70 (Some (file_of [sample "one"; sample "two"]))) [sample "one"; sample "two"].
Proof.
  split_and!; [by left|reflexivity|vm_compute; discriminate|].
  repeat constructor; vm_compute; reflexivity.
Qed.

Lemma wal_append_witness :
  ∃ b', append (sample "three") None (new 70 (Some (file_of [sample "one"; sample "two"]))) = (b', Ok tt) ∧
    read_all b' = Ok [sample "two"; sample "three"].
Proof.
  destruct (wal_append _ _ (sample "three") sample_holds) as (kept & b' & _ & E & _ & _ & Hr).
  - repeat constructor; vm_compute; reflexivity.
  - vm_compute. discriminate.
  - exists b'. split; [exact E|]. vm_compute in E. injection E as <-. vm_compute. reflexivity.
Defined.

Lemma wal_crash_recovery_witness :
  ∃ b' r survivors,
    append (sample "three") (Some (InWrite 20)) (new 70 (Some (file_of [sample "one"; sample "two"]))) = (b', r) ∧
    read_all (new 70 (file b')) = Ok survivors ∧ length survivors = 1.
Proof.
  destruct (append (sample "three") (Some (InWrite 20)) (new 70 (Some (file_of [sample "one"; sample "two"]))))
    as [b' r] eqn:E.
  destruct (wal_crash_recovery _ _ (sample "three") _ _ _ sample_holds
    ltac:(repeat constructor; vm_compute; reflexivity) ltac:(vm_compute; discriminate) E)
    as (kept & survivors & _ & Hr & _).
  exists b', r, survivors. split; [reflexivity|]. split; [exact Hr|].
  vm_compute in E. injection E as <- <-. vm_compute in Hr. injection Hr as <-. reflexivity.
Defined.

(** A failed write leaves a torn entry in the file, and nothing removes it: the next
    append succeeds behind it, and reading takes the bytes of the new entry for the
    missing payload of the torn one; the accepted entry is lost. *)
Lemma torn_tail_corrupts :
  let b1 := (append (sample "one") (Some (InWrite 20)) (new 1000 None)).1 in
  let '(b2, r) := append (sample "two") None (new 1000 (file b1)) in
  r = Ok tt ∧ read_all b2 = Ok [sample "exposures"].
Proof. vm_compute. split_and!; reflexivity. Qed.
