(* ===== verification/Pipeline.v ===== *)
(** The event-ingestion service ([experimentation-pipeline/src/service.rs]):
    validate, deduplicate, publish, and buffer to disk when the broker is down; and the
    replay at start-up ([main.rs]). The broker is the list of the events it took, its
    answers are given from outside; a message comes with its encoded bytes. Counters,
    headers and tracing are left out. *)
From Stdlib Require Import Ascii String.
From S2P Require Import Prelude Bytes F64 Config Validation Dedup Buffer.

(** What the broker answers to one publish. *)
Inductive Produce := Delivered | QueueFull | KafkaError.

Inductive Status := InvalidArgument (e : ValidationError) | EventRequired | ResourceExhausted.

(** The surroundings of one event: wall and monotonic clocks, broker and disk. *)
Record Env := mk_env
  { wall : Z; mono : Z; mono_rotate : Z; outcome : Produce; disk : option FaultAt }.

Definition TOPIC_EXPOSURES : str := lit "exposures".
Definition TOPIC_METRIC_EVENTS : str := lit "metric_events".
Definition TOPIC_REWARD_EVENTS : str := lit "reward_events".
Definition TOPIC_QOE_EVENTS : str := lit "qoe_events".
Definition TOPIC_MODEL_RETRAINING_EVENTS : str := lit "model_retraining_events".

Section service.
Context {B : Type} `{Bloom B} (from_timestamp : Z → Z → option Z).

Record Service := mk_service
  { dedup : EventDedup B; buffer : DiskBuffer; published : list BufferedEvent }.

Definition publish (e : BufferedEvent) (s : Service) : Service :=
  mk_service (dedup s) (buffer s) (published s ++ [e]).

Definition is_duplicate (env : Env) (event_id : str) (s : Service) : Service * bool :=
  let '(d, dup) := Dedup.is_duplicate (mono env) (mono_rotate env) event_id (dedup s) in
  (mk_service d (buffer s) (published s), dup).

(** A failure to buffer is only logged. *)
Definition buffer_event (env : Env) (e : BufferedEvent) (s : Service) : Service :=
  mk_service (dedup s) (append e (disk env) (buffer s)).1 (published s).

Definition process_event (env : Env) (event_id : str) (e : BufferedEvent)
    (validate : validation unit) (s : Service) : Service * result Status bool :=
  match validate with
  | Err err => (s, Err (InvalidArgument err))
  | Panics => (s, Panics)
  | OutOfFuel => (s, OutOfFuel)
  | Ok _ =>
      let '(s, dup) := is_duplicate env event_id s in
      if dup then (s, Ok false)
      else match outcome env with
      | Delivered => (publish e s, Ok true)
      | QueueFull => (s, Err ResourceExhausted)
      | KafkaError => (buffer_event env e s, Ok true)
      end
  end.

Record Counts := mk_counts { accepted_count : Z; duplicate_count : Z; invalid_count : Z }.

Definition add_counts (c d : Counts) : Counts :=
  mk_counts (accepted_count c + accepted_count d) (duplicate_count c + duplicate_count d)
    (invalid_count c + invalid_count d).

Definition process_batch_event (env : Env) (event_id : str) (e : BufferedEvent)
    (validate_result : validation unit) (s : Service) : Service * result Status Counts :=
  match validate_result with
  | Err _ => (s, Ok (mk_counts 0 0 1))
  | Panics => (s, Panics)
  | OutOfFuel => (s, OutOfFuel)
  | Ok _ =>
      let '(s, dup) := is_duplicate env event_id s in
      if dup then (s, Ok (mk_counts 0 1 0))
      else match outcome env with
      | Delivered => (publish e s, Ok (mk_counts 1 0 0))
      | QueueFull => (s, Err ResourceExhausted)
      | KafkaError => (buffer_event env e s, Ok (mk_counts 1 0 0))
      end
  end.

(** A message with its bytes, and where it is published. *)
Record Prepared := mk_prepared { p_id : str; p_event : BufferedEvent; p_valid : Z → validation unit }.

Definition prepare_exposure (m : ExposureEvent * str) : Prepared :=
  mk_prepared (ex_event_id m.1) (mk_event TOPIC_EXPOSURES (ex_experiment_id m.1) m.2)
    (λ now, validate_exposure from_timestamp now m.1).

Definition prepare_metric (m : MetricEvent * str) : Prepared :=
  mk_prepared (me_event_id m.1) (mk_event TOPIC_METRIC_EVENTS (me_user_id m.1) m.2)
    (λ now, validate_metric_event from_timestamp now m.1).

Definition prepare_reward (m : RewardEvent * str) : Prepared :=
  mk_prepared (re_event_id m.1) (mk_event TOPIC_REWARD_EVENTS (re_experiment_id m.1) m.2)
    (λ now, validate_reward_event from_timestamp now m.1).

Definition prepare_qoe (m : QoEEvent * str) : Prepared :=
  mk_prepared (qe_event_id m.1) (mk_event TOPIC_QOE_EVENTS (qe_session_id m.1) m.2)
    (λ now, validate_qoe_event from_timestamp now m.1).

Definition prepare_retraining (m : ModelRetrainingEvent * str) : Prepared :=
  mk_prepared (default (mr_event_id m.1) (model_retraining_dedup_key m.1))
    (mk_event TOPIC_MODEL_RETRAINING_EVENTS (model_id m.1) m.2)
    (λ _, validate_model_retraining_event from_timestamp m.1).

Definition process (env : Env) (p : Prepared) : Service → Service * result Status bool :=
  process_event env (p_id p) (p_event p) (p_valid p (wall env)).

(** The body the single-event handlers share. *)
Definition ingest_one {M : Type} (prepare : M → Prepared) (env : Env) (request : option M)
    (s : Service) : Service * result Status bool :=
  match request with
  | Some m => process env (prepare m) s
  | None => (s, Err EventRequired)
  end.

(** The loop of the batch handlers: the first error answers for the whole batch. *)
Fixpoint batch_loop (ps : list (Env * Prepared)) (counts : Counts) (s : Service) :
    Service * result Status Counts :=
  match ps with
  | [] => (s, Ok counts)
  | (env, p) :: ps =>
      match process_batch_event env (p_id p) (p_event p) (p_valid p (wall env)) s with
      | (s, Ok c) => batch_loop ps (add_counts counts c) s
      | (s, Err e) => (s, Err e)
      | (s, Panics) => (s, Panics)
      | (s, OutOfFuel) => (s, OutOfFuel)
      end
  end.

Definition ingest_batch {M : Type} (prepare : M → Prepared) (events : list (Env * M)) :
    Service → Service * result Status Counts :=
  batch_loop (prod_map id prepare <$> events) (mk_counts 0 0 0).

Definition ingest_exposure := ingest_one prepare_exposure.
Definition ingest_exposure_batch := ingest_batch prepare_exposure.
Definition ingest_metric_event := ingest_one prepare_metric.
Definition ingest_metric_event_batch := ingest_batch prepare_metric.
Definition ingest_reward_event := ingest_one prepare_reward.
Definition ingest_qo_e_event := ingest_one prepare_qoe.
Definition ingest_qo_e_event_batch := ingest_batch prepare_qoe.
Definition ingest_model_retraining_event := ingest_one prepare_retraining.

(** ** Start-up *)

(** The loop of [replay_buffer] over the broker's answers: the service, whether it ran
    to the end, and how many publishes failed. *)
Fixpoint replay_loop (events : list (BufferedEvent * Produce)) (failed : nat) (s : Service) :
    Service * option nat :=
  match events with
  | [] => (s, Some failed)
  | (e, Delivered) :: events => replay_loop events failed (publish e s)
  | (e, QueueFull) :: events => replay_loop events (S failed) s
  | (e, KafkaError) :: _ => (s, None)
  end.

Definition replay_buffer (answers : nat → Produce) (s : Service) : Service :=
  if negb (has_pending (buffer s)) then s
  else match read_all (buffer s) with
  | Ok events =>
      match replay_loop (imap (λ i e, (e, answers i)) events) 0 s with
      | (s, Some 0) => mk_service (dedup s) (clear (buffer s)) (published s)
      | (s, _) => s
      end
  | _ => s
  end.

(** A new process over the files and the broker of the old one. *)
Definition restart (config : DedupConfig) (now : Z) (answers : nat → Produce) (s : Service) : Service :=
  replay_buffer answers
    (mk_service (with_config config now)
       (Buffer.new (max_size_bytes (buffer s)) (file (buffer s))) (published s)).
End service.
#[global] Arguments Service B : clear implicits.
