(* ===== verification/PipelineSpec.v ===== *)
(** What the ingestion service guarantees: events are published at most once in a
    deduplication window, accepted events are never lost while the log has room, and
    batches behave like the sequence of their events. *)
From Stdlib Require Import Ascii String.
From S2P Require Import Prelude Bytes F64 Config Validation Dedup Buffer Pipeline.

Section spec.
Context {B : Type} `{BloomLaws B}.
Implicit Types (s : Service B).

Definition process_all (ps : list (Env * Prepared)) (s : Service B) : Service B :=
  foldl (λ s '(env, p), (process env p s).1) s ps.

(** ** At most once *)

(** The clock readings of [env] fall in the window opened at [since]. *)
Definition in_window (since : Z) (s : Service B) (env : Env) : Prop :=
  (since ≤ mono_rotate env ∧
   mono env - since < rotation_interval_secs (dedup s) * nanos_per_sec)%Z.

Lemma process_dedup env p s :
  dedup (process env p s).1 = dedup s ∨
  dedup (process env p s).1 = (Dedup.is_duplicate (mono env) (mono_rotate env) (p_id p) (dedup s)).1.
Proof.
  unfold process, process_event. destruct (p_valid p (wall env)); [|by left..]. right.
  unfold is_duplicate. destruct (Dedup.is_duplicate _ _ _ _) as [d dup].
  destruct dup; [done|]. by destruct (outcome env).
Qed.

Lemma process_remembered id since env p s :
  remembered id since (dedup s) → (0 < rotation_interval_secs (dedup s))%Z → in_window since s env →
  remembered id since (dedup (process env p s).1) ∧
  rotation_interval_secs (dedup (process env p s).1) = rotation_interval_secs (dedup s).
Proof.
  intros Hr Hi [Hs Ht]. destruct (process_dedup env p s) as [-> | ->]; [done|].
  split; [by apply remembered_step|apply is_duplicate_interval].
Qed.

Lemma process_all_remembered id since ps : ∀ s,
  remembered id since (dedup s) → (0 < rotation_interval_secs (dedup s))%Z →
  Forall (λ ep, in_window since s ep.1) ps →
  remembered id since (dedup (process_all ps s)) ∧
  rotation_interval_secs (dedup (process_all ps s)) = rotation_interval_secs (dedup s).
Proof.
  induction ps as [|[env p] ps IH]; intros s Hr Hi Hw; [done|].
  apply Forall_cons in Hw as [Hw Hws]. cbn [process_all foldl].
  destruct (process_remembered id since env p s Hr Hi Hw) as [Hr' Hi'].
  destruct (IH (process env p s).1 Hr') as [IH1 IH2].
  - by rewrite Hi'.
  - eapply Forall_impl; [exact Hws|]. intros [e' q]. unfold in_window. by rewrite Hi'.
  - split; [exact IH1|]. rewrite <- Hi'. exact IH2.
Qed.

(** Once an event has passed validation, the same id is a duplicate for a rotation
    interval, whatever the first attempt answered and whatever happens in between:
    the retry is answered as a duplicate and neither published nor buffered. *)
Theorem seen_once_in_window s env p ps env' p' :
  (0 < rotation_interval_secs (dedup s))%Z →
  p_valid p (wall env) = Ok tt → p_valid p' (wall env') = Ok tt → p_id p' = p_id p →
  Forall (λ ep, in_window (mono_rotate env) s ep.1) ps → in_window (mono_rotate env) s env' →
  let s1 := process_all ps (process env p s).1 in
  ∃ s2, process env' p' s1 = (s2, Ok false) ∧
    published s2 = published s1 ∧ buffer s2 = buffer s1.
Proof.
  intros Hi Hv Hv' Hid Hps [Hs Ht]. cbv zeta.
  assert (remembered (p_id p) (mono_rotate env) (dedup (process env p s).1) ∧
          rotation_interval_secs (dedup (process env p s).1) = rotation_interval_secs (dedup s))
    as [Hr Hi1].
  { unfold process, process_event. rewrite Hv. unfold is_duplicate.
    pose proof (is_duplicate_remembers (mono env) (mono_rotate env) (p_id p) (dedup s)) as Hr.
    pose proof (is_duplicate_interval (mono env) (mono_rotate env) (p_id p) (dedup s)) as Hi1.
    destruct (Dedup.is_duplicate _ _ _ _) as [d dup]. cbn [fst] in *.
    destruct dup; [done|]. by destruct (outcome env). }
  destruct (process_all_remembered (p_id p) (mono_rotate env) ps _ Hr) as [Hr2 Hi2].
  { by rewrite Hi1. }
  { eapply Forall_impl; [exact Hps|]. intros [e' q]. unfold in_window. by rewrite Hi1. }
  set (s1 := process_all ps (process env p s).1) in *.
  assert ((Dedup.is_duplicate (mono env') (mono_rotate env') (p_id p) (dedup s1)).2 = true) as Hdup.
  { apply (remembered_is_duplicate (p_id p) (mono_rotate env)); [done|by rewrite Hi2, Hi1|done|by rewrite Hi2, Hi1]. }
  unfold process, process_event. rewrite Hv', Hid. unfold is_duplicate.
  destruct (Dedup.is_duplicate _ _ _ (dedup s1)) as [d dup]. cbn [snd] in Hdup. subst dup.
  eexists. split; [reflexivity|]. done.
Qed.

(** ** Batches *)

Definition counts_of (r : result Status bool) : Counts :=
  match r with
  | Ok true => mk_counts 1 0 0
  | Ok false => mk_counts 0 1 0
  | _ => mk_counts 0 0 1
  end.

Lemma batch_event_single env p s :
  match process_batch_event env (p_id p) (p_event p) (p_valid p (wall env)) s with
  | (s', Ok c) => (process env p s).1 = s' ∧ counts_of (process env p s).2 = c ∧
      (process env p s).2 ≠ Err ResourceExhausted ∧ returns (process env p s).2
  | (s', Err e) => process env p s = (s', Err e) ∧ e = ResourceExhausted
  | (s', Panics) => process env p s = (s', Panics)
  | (s', OutOfFuel) => process env p s = (s', OutOfFuel)
  end.
Proof.
  unfold process, process_batch_event, process_event. destruct (p_valid p (wall env)); try done.
  destruct (is_duplicate env (p_id p) s) as [s' []]; [done|]. by destruct (outcome env).
Qed.

Definition total (c : Counts) : Z := accepted_count c + duplicate_count c + invalid_count c.

(** The answers of the events one by one. *)
Fixpoint answers_of (ps : list (Env * Prepared)) (s : Service B) : list (result Status bool) :=
  match ps with
  | [] => []
  | (env, p) :: ps => (process env p s).2 :: answers_of ps (process env p s).1
  end.

Definition sum_counts (rs : list (result Status bool)) : Counts :=
  foldl (λ c r, add_counts c (counts_of r)) (mk_counts 0 0 0) rs.

Lemma foldl_counts rs c :
  foldl (λ c r, add_counts c (counts_of r)) c rs = add_counts c (sum_counts rs).
Proof.
  unfold sum_counts. revert c. induction rs as [|r rs IH]; intros c; simpl.
  - destruct c. unfold add_counts. simpl. f_equal; lia.
  - rewrite IH, (IH (add_counts _ _)). unfold add_counts. simpl. f_equal; lia.
Qed.

Lemma batch_loop_spec ps : ∀ counts s,
  match batch_loop ps counts s with
  | (s', Ok c) => s' = process_all ps s ∧ c = add_counts counts (sum_counts (answers_of ps s)) ∧
      total c = (total counts + Z.of_nat (length ps))%Z
  | (s', r) => ∃ done env p rest, ps = done ++ (env, p) :: rest ∧
      s' = (process env p (process_all done s)).1 ∧
      match r with Err e => (process env p (process_all done s)).2 = Err ResourceExhausted ∧
                              e = ResourceExhausted
              | _ => ¬ returns (process env p (process_all done s)).2 end
  end.
Proof.
  induction ps as [|[env p] ps IH]; intros counts s; cbn [batch_loop].
  { split_and!; [done| |simpl; lia]. destruct counts. unfold add_counts, sum_counts. simpl. f_equal; lia. }
  pose proof (batch_event_single env p s) as Hb.
  destruct (process_batch_event _ _ _ _ s) as [s1 [c|e| |]].
  - destruct Hb as (Hs & Hc & _ & _). specialize (IH (add_counts counts c) s1).
    destruct (batch_loop ps _ s1) as [s2 [c2|e| |]].
    + destruct IH as (-> & -> & Ht). cbn [process_all foldl answers_of].
      rewrite Hs. split_and!; [done| |].
      * unfold sum_counts. cbn [foldl]. rewrite foldl_counts, Hc, foldl_counts.
        unfold add_counts. simpl. f_equal; lia.
      * rewrite Ht. subst c. cbn [length]. unfold total, add_counts, counts_of.
        destruct (process env p s).2 as [[]| | |]; simpl; lia.
    + destruct IH as (dn & env' & p' & rest & -> & -> & Hr). exists ((env, p) :: dn), env', p', rest.
      cbn [process_all foldl]. by rewrite Hs.
    + destruct IH as (dn & env' & p' & rest & -> & -> & Hr). exists ((env, p) :: dn), env', p', rest.
      cbn [process_all foldl]. by rewrite Hs.
    + destruct IH as (dn & env' & p' & rest & -> & -> & Hr). exists ((env, p) :: dn), env', p', rest.
      cbn [process_all foldl]. by rewrite Hs.
  - destruct Hb as [E ->]. exists [], env, p, ps. cbn [process_all foldl]. by rewrite E.
  - exists [], env, p, ps. cbn [process_all foldl]. rewrite Hb. split_and!; [done..|by intros []].
  - exists [], env, p, ps. cbn [process_all foldl]. rewrite Hb. split_and!; [done..|by intros []].
Qed.

(** A batch is the sequence of its events: when it answers, its counts are those of
    the single calls and add up to its length; when it fails, a queue-full event
    stopped it, and the events before that one were processed all the same. *)
Theorem batch_is_sequence {M : Type} (prepare : M → Prepared) (events : list (Env * M)) s :
  let ps := prod_map id prepare <$> events in
  match ingest_batch prepare events s with
  | (s', Ok c) => s' = process_all ps s ∧ c = sum_counts (answers_of ps s) ∧
      total c = Z.of_nat (length events)
  | (s', r) => ∃ before env p rest, ps = before ++ (env, p) :: rest ∧
      s' = (process env p (process_all before s)).1 ∧
      match r with
      | Err e => (process env p (process_all before s)).2 = Err ResourceExhausted ∧ e = ResourceExhausted
      | _ => ¬ returns (process env p (process_all before s)).2
      end
  end.
Proof.
  cbv zeta. unfold ingest_batch. pose proof (batch_loop_spec (prod_map id prepare <$> events) (mk_counts 0 0 0) s) as Hb.
  destruct (batch_loop _ _ s) as [s' [c|e| |]]; [|done..]. destruct Hb as (-> & -> & Ht).
  split_and!; [done|unfold add_counts; simpl; by destruct (sum_counts _)|].
  rewrite Ht, length_fmap. unfold total. simpl. lia.
Qed.
End spec.

(** ** Accepted events are durable *)

Section durable.
Context {B : Type} `{Bloom B}.
Implicit Types (s : Service B) (es acc : list BufferedEvent).

Inductive Op :=
| OpEvent (env : Env) (p : Prepared)
| OpRestart (config : DedupConfig) (now : Z) (answers : nat → Produce).

(** The accepted events after an answer. *)
Definition accept (acc : list BufferedEvent) (e : BufferedEvent) (r : result Status bool) : list BufferedEvent :=
  match r with Ok true => acc ++ [e] | _ => acc end.

(** A step, with the events answered as accepted so far. *)
Definition step (op : Op) (sa : Service B * list BufferedEvent) : Service B * list BufferedEvent :=
  let '(s, acc) := sa in
  match op with
  | OpEvent env p =>
      let '(s', r) := process env p s in
      (s', accept acc (p_event p) r)
  | OpRestart config now answers => (restart config now answers s, acc)
  end.

Definition run_ops (ops : list Op) (sa : Service B * list BufferedEvent) : Service B * list BufferedEvent :=
  foldl (λ sa op, step op sa) sa ops.

(** The operation meets no disk fault and its event is well-formed. *)
Definition op_ok (op : Op) : Prop :=
  match op with OpEvent env p => disk env = None ∧ entry_ok (p_event p) | OpRestart _ _ _ => True end.

Record durable (s : Service B) (acc es : list BufferedEvent) : Prop := mk_durable
  { du_holds : holds (buffer s) es;
    du_sublist : sublist es acc;
    du_stored e : e ∈ acc → e ∈ published s ∨ e ∈ es }.

Lemma size_of_sublist es acc : sublist es acc → (size_of es ≤ size_of acc)%Z.
Proof.
  induction 1 as [|e es acc _ IH|e es acc _ IH]; [done|rewrite !size_of_cons; lia|].
  rewrite size_of_cons. pose proof (zlen_nonneg (serialize_entry e)). lia.
Qed.

Lemma size_of_nonneg es : (0 ≤ size_of es)%Z.
Proof. apply zlen_nonneg. Qed.

(** With room in the log the append keeps everything. *)
Lemma append_with_room b es e :
  holds b es → entry_ok e → (size_of es + zlen (serialize_entry e) ≤ max_size_bytes b)%Z →
  holds (append e None b).1 (es ++ [e]) ∧ max_size_bytes (append e None b).1 = max_size_bytes b.
Proof.
  intros Hb He Hfit. pose proof (size_of_nonneg es).
  destruct (append_keeps b es e Hb He) as (kept & b' & Hk & -> & Hb' & Hm); [lia|].
  unfold room_for in Hk. rewrite (proj2 (Z.leb_le _ _)) in Hk by done. subst kept. done.
Qed.

Lemma replay_loop_spec events : ∀ failed s s' n,
  replay_loop events failed s = (s', n) →
  dedup s' = dedup s ∧ buffer s' = buffer s ∧ (∀ e, e ∈ published s → e ∈ published s') ∧
  (n = Some failed → ∀ e, e ∈ events.*1 → e ∈ published s') ∧ (∀ k, n = Some k → failed ≤ k).
Proof.
  induction events as [|[e []] events IH]; intros failed s s' n E; cbn [replay_loop] in E.
  - injection E as <- <-. split_and!; try done; [by intros _ e ?%elem_of_nil|by intros k [= <-]].
  - apply IH in E as (Hd & Hb & Hp & Hall & Hk). split_and!; try done.
    + intros x Hx. apply Hp. simpl. apply elem_of_app. by left.
    + intros Hn x. cbn [fmap list_fmap]. intros [->|Hx]%elem_of_cons; [|by apply Hall].
      apply Hp. simpl. apply elem_of_app. right. by left.
  - apply IH in E as (Hd & Hb & Hp & Hall & Hk). split_and!; try done.
    + intros ->. specialize (Hk failed eq_refl). lia.
    + intros k Hn. specialize (Hk k Hn). lia.
  - injection E as <- <-. split_and!; done.
Qed.

Lemma durable_restart config now answers s acc es :
  durable s acc es → ∃ es', durable (restart config now answers s) acc es' ∧
    max_size_bytes (buffer (restart config now answers s)) = max_size_bytes (buffer s).
Proof.
  intros [Hh Hsub Hst]. set (s0 := mk_service (with_config config now)
    (Buffer.new (max_size_bytes (buffer s)) (file (buffer s))) (published s)).
  assert (holds (buffer s0) es) as Hh0.
  { destruct Hh as (Hf & Hs & Hle & Hok). rewrite Hs in Hle.
    split_and!; simpl; [done| | |done]; by destruct Hf as [-> | [-> ->]]. }
  unfold restart. fold s0. unfold replay_buffer.
  destruct (negb (has_pending (buffer s0))); [exists es; split; [by constructor|done]|].
  rewrite (holds_read _ _ Hh0).
  destruct (replay_loop _ 0 s0) as [s' n] eqn:E. apply replay_loop_spec in E as (Hd & Hb & Hp & Hall & _).
  assert (durable s' acc es) as Hs'.
  { constructor; [by rewrite Hb|done|]. intros e He. destruct (Hst e He); [left; by apply Hp|by right]. }
  destruct n as [[|n]|]; [|exists es; split; [done|by rewrite Hb]..].
  exists []. split; [|simpl; by rewrite Hb]. constructor; simpl.
  - apply holds_new. destruct Hh0 as (_ & Hs & Hle & _). rewrite Hb. pose proof (zlen_nonneg (file_of es)). lia.
  - apply sublist_nil_l.
  - intros e He. left. destruct (Hst e He) as [?|Hin]; [by apply Hp|]. apply Hall; [done|].
    rewrite fmap_imap. apply list_elem_of_lookup in Hin as [i Hi]. apply list_elem_of_lookup. exists i.
    rewrite list_lookup_imap. by rewrite Hi.
Qed.

Lemma durable_event env p s acc es s' r :
  durable s acc es → disk env = None → entry_ok (p_event p) → process env p s = (s', r) →
  (size_of (accept acc (p_event p) r) ≤ max_size_bytes (buffer s))%Z →
  (∃ es', durable s' (accept acc (p_event p) r) es') ∧ max_size_bytes (buffer s') = max_size_bytes (buffer s).
Proof.
  intros [Hh Hsub Hst] Hdisk Hok. unfold process, process_event.
  assert (durable s acc es) as Hd by done.
  destruct (p_valid p (wall env)); [|by intros [= <- <-]; split; [exists es|]..].
  unfold is_duplicate. destruct (Dedup.is_duplicate _ _ _ _) as [d dup].
  destruct dup; [intros [= <- <-]; split; [by exists es|done]|].
  destruct (outcome env).
  - intros [= <- <-] _. cbn [accept]. split; [|done]. exists es. constructor; simpl; [done| |].
    + by apply sublist_inserts_r.
    + intros e. rewrite !elem_of_app. intros [He|He]; [destruct (Hst e He); auto|auto].
  - intros [= <- <-] _. cbn [accept]. split; [by exists es|done].
  - intros [= <- <-] Hfit. cbn [accept] in *. unfold buffer_event. cbn [buffer]. rewrite Hdisk.
    assert (size_of es + zlen (serialize_entry (p_event p)) ≤ max_size_bytes (buffer s))%Z as Hroom.
    { rewrite size_of_app, size_of_cons, size_of_nil in Hfit.
      pose proof (size_of_sublist _ _ Hsub). lia. }
    destruct (append_with_room _ _ _ Hh Hok Hroom) as [Hh' Hm]. split; [|done].
    exists (es ++ [p_event p]). constructor; simpl; [done| |].
    + apply sublist_app; [done|reflexivity].
    + intros e. rewrite !elem_of_app. intros [He|He]; [destruct (Hst e He); auto|auto].
Qed.

Lemma run_ops_grows ops : ∀ s acc, (size_of acc ≤ size_of (run_ops ops (s, acc)).2)%Z.
Proof.
  induction ops as [|op ops IH]; intros s acc; [done|]. cbn [run_ops foldl].
  destruct (step op (s, acc)) as [s1 acc1] eqn:E. etrans; [|apply IH].
  destruct op as [env p|]; simpl in E; [|by injection E as _ <-].
  destruct (process env p s) as [s' r]. injection E as _ <-.
  destruct r as [[]| | |]; cbn [accept]; try done. rewrite size_of_app. pose proof (size_of_nonneg [p_event p]). lia.
Qed.

Lemma durable_run ops : ∀ s acc es,
  durable s acc es → Forall op_ok ops →
  (size_of (run_ops ops (s, acc)).2 ≤ max_size_bytes (buffer s))%Z →
  let '(s', acc') := run_ops ops (s, acc) in ∃ es', durable s' acc' es'.
Proof.
  induction ops as [|op ops IH]; intros s acc es Hd Hops Hfit; [by exists es|].
  apply Forall_cons in Hops as [Hop Hops]. cbn [run_ops foldl] in *.
  destruct op as [env p|config now answers]; cbn [step] in *.
  - destruct (process env p s) as [s1 r] eqn:E. destruct Hop as [Hdisk Hok].
    destruct (durable_event env p s acc es s1 r Hd Hdisk Hok E) as [[es1 Hd1] Hm].
    { etrans; [|exact Hfit]. apply run_ops_grows. }
    apply (IH s1 _ es1); [done..|by rewrite Hm].
  - destruct (durable_restart config now answers s acc es Hd) as (es1 & Hd1 & Hm).
    apply (IH _ _ es1); [done..|by rewrite Hm].
Qed.

End durable.

(** ** Witnesses and two ways to lose an accepted or retried event *)

Definition to_nanos (secs nsecs : Z) : option Z := Some (secs * nanos_per_sec + nsecs)%Z.

Definition sample_metric (id : string) : Prepared :=
  prepare_metric to_nanos
    (mk_metric_event (lit id) (lit "u1") (lit "play_start") (Some (mk_timestamp 100 0)) f64_zero, lit id).

Definition env_at (secs : Z) (o : Produce) : Env :=
  mk_env (secs * nanos_per_sec) (secs * nanos_per_sec) (secs * nanos_per_sec) o None.

Definition hourly : DedupConfig := mk_dedup_config 1000 f64_zero 3600.

Definition fresh_service (max : Z) : Service (gset str) :=
  mk_service (with_config hourly 0) (Buffer.new max None) [].

Lemma seen_once_in_window_witness :
  let s := (process (env_at 1 Delivered) (sample_metric "e1") (fresh_service 1000)).1 in
  ∃ s2, process (env_at 9 Delivered) (sample_metric "e1")
          (process (env_at 5 KafkaError) (sample_metric "e2") s).1 = (s2, Ok false) ∧
    length (published s2) = 1.
Proof.
  destruct (seen_once_in_window (fresh_service 1000) (env_at 1 Delivered) (sample_metric "e1")
    [(env_at 5 KafkaError, sample_metric "e2")] (env_at 9 Delivered) (sample_metric "e1"))
    as (s2 & E & Hp & _); try reflexivity.
  - repeat constructor; vm_compute; discriminate.
  - split; vm_compute; [discriminate|reflexivity].
  - exists s2. split; [exact E|]. rewrite Hp. vm_compute. reflexivity.
Defined.

Definition sample_ops : list (@Op) :=
  [OpEvent (env_at 1 KafkaError) (sample_metric "e1"); OpEvent (env_at 2 Delivered) (sample_metric "e2");
   OpRestart hourly (3 * nanos_per_sec) (λ _, KafkaError); OpEvent (env_at 4 KafkaError) (sample_metric "e3")].


(** An event turned away because the broker's queue is full has already entered the
    filter: the retry the client is asked for is answered as a duplicate, and the event
    is neither published nor buffered. *)
Lemma queue_full_retry_lost :
  let '(s1, r1) := process (env_at 1 QueueFull) (sample_metric "e1") (fresh_service 1000) in
  let '(s2, r2) := process (env_at 2 Delivered) (sample_metric "e1") s1 in
  r1 = Err ResourceExhausted ∧ r2 = Ok false ∧ published s2 = [] ∧ file (buffer s2) = None.
Proof. vm_compute. split_and!; reflexivity. Qed.

(** The client is told that its event was accepted even when it could not be buffered. *)
Lemma accepted_but_not_buffered :
  let env := mk_env nanos_per_sec nanos_per_sec nanos_per_sec KafkaError (Some (InWrite 0)) in
  let '(s, r) := process env (sample_metric "e1") (fresh_service 1000) in
  r = Ok true ∧ published s = [] ∧ read_all (buffer s) = Ok [].
Proof. vm_compute. split_and!; reflexivity. Qed.

(** A replay that is turned away half-way keeps the whole log: the events it already
    published are published again at the next start. *)
Lemma replay_repeats :
  let s := (process (env_at 1 KafkaError) (sample_metric "e1") (fresh_service 1000)).1 in
  let s := (process (env_at 2 KafkaError) (sample_metric "e2") s).1 in
  let s := restart hourly 0 (λ i, if i =? 0 then Delivered else KafkaError) s in
  let s := restart hourly 0 (λ _, Delivered) s in
  payload <$> published s = [lit "e1"; lit "e1"; lit "e2"].
Proof. vm_compute. reflexivity. Qed.
