(* ===== verification/Sessionizer.v ===== *)
(** Heartbeat sessionization ([experimentation-ingest/src/sessionization.rs]):
    heartbeats of one viewer, device and content are folded into a running state, and a
    gap, a sweep or a drain turns the state into one [QoEEvent]. *)
From Stdlib Require Import Ascii String SpecFloat.
From S2P Require Import Prelude Bytes F64 F64Order Config Validation.

Definition DEFAULT_SESSION_GAP_SECS : Z := 30.
Definition MAX_TIME_TO_FIRST_FRAME_MS : Z := 120000.
Definition MAX_PLAYBACK_DURATION_MS : Z := 86400000.
Definition MAX_REBUFFER_COUNT : Z := 10000.
Definition MAX_RESOLUTION_SWITCHES : Z := 10000.
Definition MAX_AVG_BITRATE_KBPS : Z := 200000.
Definition MAX_PEAK_RESOLUTION_HEIGHT : Z := 8640.

(** The session key [(user_id, device_id, content_id)]. *)
Definition SessionKey : Type := str * str * str.

Definition key_of (hb : HeartbeatEvent) : SessionKey :=
  (hb_user_id hb, hb_device_id hb, hb_content_id hb).

Record SessionState := mk_session
  { client_session_id : str; first_timestamp : Z; last_timestamp : Z;
    first_frame_timestamp : option Z; rebuffer_transitions : Z; prev_is_rebuffering : bool;
    total_rebuffer_ms : Z; bitrate_sum : Z; heartbeat_count : Z;
    prev_resolution_height : option Z; ss_resolution_switches : Z;
    ss_peak_resolution_height : Z; startup_completed : bool }.

(** ** Integer operations of the standard library *)

Definition saturate (lo hi x : Z) : Z := Z.max lo (Z.min hi x).
Definition i32_saturating_add (x y : Z) : Z := saturate (- 2 ^ 31) (2 ^ 31 - 1) (x + y).
Definition i64_saturating_add (x y : Z) : Z := saturate (- 2 ^ 63) (2 ^ 63 - 1) (x + y).
Definition to_i32 (x : Z) : Z := (x + 2 ^ 31) mod 2 ^ 32 - 2 ^ 31.

(** [clamp] on integers. *)
Definition clamp (x lo hi : Z) : Z := if (x <? lo)%Z then lo else if (hi <? x)%Z then hi else x.

(** [Duration::num_milliseconds] of a difference of instants. *)
Definition nanos_per_ms : Z := 10 ^ 6.
Definition num_milliseconds (d : Z) : Z := Z.quot d nanos_per_ms.

(** ** The running state *)

Definition open_session (hb : HeartbeatEvent) (ts : Z) : SessionState :=
  let completed := negb (is_startup hb) in
  mk_session (hb_session_id hb) ts ts (if completed then Some ts else None)
    (if is_rebuffering hb then 1 else 0) (is_rebuffering hb) 0 (current_bitrate_kbps hb) 1
    (Some (current_resolution_height hb)) 0 (Z.max (current_resolution_height hb) 0) completed.

Definition apply_heartbeat (hb : HeartbeatEvent) (ts : Z) (s : SessionState) : SessionState :=
  let elapsed_ms := num_milliseconds (ts - last_timestamp s) in
  let completes := negb (is_startup hb) && negb (startup_completed s) in
  mk_session (client_session_id s) (first_timestamp s) ts
    (if completes then Some ts else first_frame_timestamp s)
    (if negb (prev_is_rebuffering s) && is_rebuffering hb
     then i32_saturating_add (rebuffer_transitions s) 1 else rebuffer_transitions s)
    (is_rebuffering hb)
    (if prev_is_rebuffering s && (0 <? elapsed_ms)%Z
     then i64_saturating_add (total_rebuffer_ms s) elapsed_ms else total_rebuffer_ms s)
    (i64_saturating_add (bitrate_sum s) (current_bitrate_kbps hb))
    (i64_saturating_add (heartbeat_count s) 1)
    (Some (current_resolution_height hb))
    (match prev_resolution_height s with
     | Some prev =>
         if bool_decide (prev ≠ current_resolution_height hb)
         then i32_saturating_add (ss_resolution_switches s) 1 else ss_resolution_switches s
     | None => ss_resolution_switches s
     end)
    (if (ss_peak_resolution_height s <? current_resolution_height hb)%Z
     then current_resolution_height hb else ss_peak_resolution_height s)
    (if completes then true else startup_completed s).

(** [format!("srv-sess-{}-{}-{}", user_id, device_id, millis)]. *)
Definition srv_session_id (key : SessionKey) (first : Z) : str :=
  lit "srv-sess-" ++ key.1.1 ++ lit "-" ++ key.1.2 ++ lit "-" ++ show_i64 (first / nanos_per_ms).

Definition duration_ms (s : SessionState) : Z :=
  Z.max (num_milliseconds (last_timestamp s - first_timestamp s)) 0.

Definition rebuffer_ratio_of {E : Type} (s : SessionState) : result E f64 :=
  let d := duration_ms s in
  if (0 <? d)%Z then
    let ratio := f64_div (f64_of_Z (Z.min (total_rebuffer_ms s) d)) (f64_of_Z d) in
    _ ← assert_finite ratio;
    mret (f64_clamp ratio f64_zero (f64_of_Z 1))
  else mret f64_zero.

Definition playback_of (s : SessionState) (ratio : f64) : PlaybackMetrics :=
  let ttff :=
    Z.min (match first_frame_timestamp s with
           | Some t => Z.max (num_milliseconds (t - first_timestamp s)) 0
           | None => 0
           end) MAX_TIME_TO_FIRST_FRAME_MS in
  let avg_bitrate :=
    if (0 <? heartbeat_count s)%Z then to_i32 (Z.quot (bitrate_sum s) (heartbeat_count s)) else 0%Z in
  mk_playback ttff (clamp (rebuffer_transitions s) 0 MAX_REBUFFER_COUNT) ratio
    (clamp avg_bitrate 0 MAX_AVG_BITRATE_KBPS)
    (clamp (ss_resolution_switches s) 0 MAX_RESOLUTION_SWITCHES)
    (clamp (ss_peak_resolution_height s) 0 MAX_PEAK_RESOLUTION_HEIGHT)
    (if startup_completed s then f64_zero else f64_of_Z 1)
    (Z.min (duration_ms s) MAX_PLAYBACK_DURATION_MS)
    (negb (startup_completed s)).

(** [finalize]; [uuid] is the fresh event id. *)
Definition finalize {E : Type} (uuid : str) (key : SessionKey) (s : SessionState) : result E QoEEvent :=
  ratio ← rebuffer_ratio_of s;
  let session_id :=
    match client_session_id s with [] => srv_session_id key (first_timestamp s) | id => id end in
  mret (mk_qoe uuid session_id key.2 key.1.1 (Some (playback_of s ratio))
          (Some (mk_timestamp (last_timestamp s / nanos_per_sec) (last_timestamp s mod nanos_per_sec)))).

(** ** The sessionizer *)

Record HeartbeatSessionizer := mk_sessionizer
  { sessions : gmap SessionKey SessionState; session_gap : Z; dropped_out_of_order : Z }.

Definition with_config (gap : Z) : HeartbeatSessionizer := mk_sessionizer ∅ gap 0.

Definition active_sessions (z : HeartbeatSessionizer) : nat := size (sessions z).

Section sessionizer.
Context (from_timestamp : Z → Z → option Z).

(** The heartbeat joins the session of its key, or opens one. *)
Definition append_or_open (hb : HeartbeatEvent) (ts : Z) (z : HeartbeatSessionizer) : HeartbeatSessionizer :=
  let s := match sessions z !! key_of hb with
           | Some s => apply_heartbeat hb ts s
           | None => open_session hb ts
           end in
  mk_sessionizer (<[key_of hb := s]> (sessions z)) (session_gap z) (dropped_out_of_order z).

(** [ingest] once the heartbeat is validated and its instant read. *)
Definition ingest_at {E : Type} (uuid : str) (hb : HeartbeatEvent) (ts : Z) (z : HeartbeatSessionizer) :
    result E (HeartbeatSessionizer * option QoEEvent) :=
  match sessions z !! key_of hb with
  | Some existing =>
      let gap := (ts - last_timestamp existing)%Z in
      if (gap <? 0)%Z then
        mret (mk_sessionizer (sessions z) (session_gap z)
                (Z.min (2 ^ 64 - 1) (dropped_out_of_order z + 1)), None)
      else if (session_gap z <? gap)%Z then
        event ← finalize uuid (key_of hb) existing;
        let z := mk_sessionizer (delete (key_of hb) (sessions z)) (session_gap z)
                   (dropped_out_of_order z) in
        mret (append_or_open hb ts z, Some event)
      else mret (append_or_open hb ts z, None)
  | None => mret (append_or_open hb ts z, None)
  end.

(** The wall clock is read twice, by the two timestamp checks. *)
Definition ingest (now now' : Z) (uuid : str) (hb : HeartbeatEvent) (z : HeartbeatSessionizer) :
    result ValidationError (HeartbeatSessionizer * option QoEEvent) :=
  _ ← validate_heartbeat_event from_timestamp now hb;
  ts ← require_timestamp from_timestamp now' (hb_timestamp hb) "timestamp";
  ingest_at uuid hb ts z.

(** The events of some sessions, in the order they are listed. *)
Fixpoint finalize_all {E : Type} (uuid : SessionKey → str) (l : list (SessionKey * SessionState)) :
    result E (list QoEEvent) :=
  match l with
  | [] => mret []
  | (k, s) :: l => e ← finalize (uuid k) k s; es ← finalize_all uuid l; mret (e :: es)
  end.

Definition expired (now : Z) (z : HeartbeatSessionizer) (ks : SessionKey * SessionState) : Prop :=
  (last_timestamp ks.2 < now - session_gap z)%Z.

#[global] Instance expired_dec now z ks : Decision (expired now z ks).
Proof. unfold expired. apply _. Defined.

Definition flush_expired {E : Type} (now : Z) (uuid : SessionKey → str) (z : HeartbeatSessionizer) :
    result E (HeartbeatSessionizer * list QoEEvent) :=
  let old := filter (expired now z) (map_to_list (sessions z)) in
  events ← finalize_all uuid old;
  mret (mk_sessionizer (filter (λ ks, ¬ expired now z ks) (sessions z)) (session_gap z)
          (dropped_out_of_order z), events).

Definition drain {E : Type} (uuid : SessionKey → str) (z : HeartbeatSessionizer) :
    result E (HeartbeatSessionizer * list QoEEvent) :=
  events ← finalize_all uuid (map_to_list (sessions z));
  mret (mk_sessionizer ∅ (session_gap z) (dropped_out_of_order z), events).
End sessionizer.
