(* ===== verification/SessionizerSpec.v ===== *)
(** What sessionization guarantees: the heartbeats of a key are split at the gaps and
    each part is aggregated into one event, and every emitted event is well-formed. *)
From Stdlib Require Import Ascii String SpecFloat.
From S2P Require Import Prelude Bytes F64 F64Mono F64Order Config Validation Sessionizer.

Abbreviation Beat := (HeartbeatEvent * Z)%type.

(** ** Reference: splitting the heartbeats of one key *)

(** The heartbeats that are not older than the last one kept. *)
Fixpoint keep_in_order (newest : option Z) (l : list Beat) : list Beat :=
  match l with
  | [] => []
  | x :: l =>
      match newest with
      | Some t => if (x.2 <? t)%Z then keep_in_order newest l else x :: keep_in_order (Some x.2) l
      | None => x :: keep_in_order (Some x.2) l
      end
  end.

(** Maximal runs without a gap; [cur] is the run so far. *)
Fixpoint split_gaps (gap : Z) (cur : list Beat) (l : list Beat) : list (list Beat) :=
  match l with
  | [] => match cur with [] => [] | _ => [cur] end
  | x :: l =>
      match last cur with
      | Some y => if (gap <? x.2 - y.2)%Z then cur :: split_gaps gap [x] l
                  else split_gaps gap (cur ++ [x]) l
      | None => split_gaps gap [x] l
      end
  end.

(** The running state of a run of heartbeats. *)
Definition fold_session (g : list Beat) : option SessionState :=
  match g with
  | [] => None
  | (hb, ts) :: g => Some (foldl (λ s b, apply_heartbeat b.1 b.2 s) (open_session hb ts) g)
  end.

Lemma fold_session_snoc g s x :
  fold_session g = Some s → fold_session (g ++ [x]) = Some (apply_heartbeat x.1 x.2 s).
Proof. destruct g as [|[hb ts] g]; [done|]. simpl. intros [= <-]. by rewrite foldl_snoc. Qed.

Lemma fold_session_last g s : fold_session g = Some s → snd <$> last g = Some (last_timestamp s).
Proof.
  destruct g as [|[hb ts] g]; [done|]. simpl. intros [= <-].
  induction g as [|x g IH] using rev_ind; [done|].
  rewrite foldl_snoc. rewrite app_comm_cons, last_snoc. done.
Qed.

Lemma fold_session_none g : fold_session g = None ↔ g = [].
Proof. destruct g as [|[]]; split; try done. Qed.

(** ** Runs of the sessionizer *)

Section run.
Context {E : Type}.

(** The events a run emits, with the keys of their sessions. *)
Fixpoint run_ingest (inputs : list (str * Beat)) (z : HeartbeatSessionizer) :
    result E (HeartbeatSessionizer * list (SessionKey * QoEEvent)) :=
  match inputs with
  | [] => mret (z, [])
  | (uuid, (hb, ts)) :: inputs =>
      '(z, e) ← ingest_at uuid hb ts z;
      '(z, es) ← run_ingest inputs z;
      mret (z, match e with Some e => (key_of hb, e) :: es | None => es end)
  end.

Definition of_key (k : SessionKey) (inputs : list (str * Beat)) : list Beat :=
  filter (λ b, key_of b.1 = k) inputs.*2.

Definition events_of (k : SessionKey) (es : list (SessionKey * QoEEvent)) : list QoEEvent :=
  (filter (λ ke, ke.1 = k) es).*2.

Lemma of_key_cons k uuid hb ts inputs :
  of_key k ((uuid, (hb, ts)) :: inputs) =
  if decide (key_of hb = k) then (hb, ts) :: of_key k inputs else of_key k inputs.
Proof. unfold of_key. rewrite fmap_cons, filter_cons. simpl. by repeat case_decide. Qed.

Lemma events_of_cons k k' e es :
  events_of k ((k', e) :: es) = if decide (k' = k) then e :: events_of k es else events_of k es.
Proof. unfold events_of. rewrite filter_cons. simpl. by repeat case_decide. Qed.

(** What the session of a key stands for. *)
Definition split_of (gap : Z) (cur l : list Beat) : list (list Beat) :=
  split_gaps gap cur (keep_in_order (snd <$> last cur) l).

Definition emitted (k : SessionKey) (e : QoEEvent) (g : list Beat) : Prop :=
  ∃ uuid s, fold_session g = Some s ∧ finalize (E:=E) uuid k s = Ok e.

Lemma ingest_at_other uuid hb ts z z' e k :
  ingest_at (E:=E) uuid hb ts z = Ok (z', e) → key_of hb ≠ k →
  sessions z' !! k = sessions z !! k.
Proof.
  unfold ingest_at, append_or_open. intros Hi Hk.
  destruct (sessions z !! key_of hb) as [s|] eqn:Hs.
  - destruct (_ <? 0)%Z; [by injection Hi as <- _|]. destruct (_ <? _)%Z.
    + destruct (finalize uuid (key_of hb) s); try discriminate Hi. injection Hi as <- _. simpl.
      rewrite lookup_delete_eq. by rewrite lookup_insert_ne, lookup_delete_ne.
    + injection Hi as <- _. simpl. by rewrite lookup_insert_ne.
  - injection Hi as <- _. simpl. by rewrite lookup_insert_ne.
Qed.

Lemma ingest_at_gap uuid hb ts z z' e :
  ingest_at (E:=E) uuid hb ts z = Ok (z', e) → session_gap z' = session_gap z.
Proof.
  unfold ingest_at, append_or_open. intros Hi. destruct (sessions z !! key_of hb) as [s|].
  - destruct (_ <? 0)%Z; [by injection Hi as <- _|]. destruct (_ <? _)%Z; [|by injection Hi as <- _].
    destruct (finalize uuid (key_of hb) s); try discriminate Hi. by injection Hi as <- _.
  - by injection Hi as <- _.
Qed.

(** The next run of the key after a heartbeat, and what is emitted on the way. *)
Lemma ingest_at_same uuid hb ts z z' e cur l :
  ingest_at (E:=E) uuid hb ts z = Ok (z', e) → sessions z !! key_of hb = fold_session cur →
  ∃ cur', sessions z' !! key_of hb = fold_session cur' ∧
    match e with
    | Some e => split_of (session_gap z) cur ((hb, ts) :: l) = cur :: split_of (session_gap z) cur' l ∧
                emitted (key_of hb) e cur
    | None => split_of (session_gap z) cur ((hb, ts) :: l) = split_of (session_gap z) cur' l
    end.
Proof.
  intros Hi Hcur. unfold ingest_at in Hi. unfold split_of. cbn [keep_in_order snd].
  destruct (sessions z !! key_of hb) as [s|] eqn:Hs.
  - symmetry in Hcur. pose proof (fold_session_last _ _ Hcur) as Hlast. rewrite Hlast.
    destruct (last cur) as [y|] eqn:Hy; [|done]. cbn [fmap option_fmap option_map] in Hlast.
    injection Hlast as Hlast.
    destruct (ts - last_timestamp s <? 0)%Z eqn:Hneg.
    + injection Hi as <- <-. exists cur. rewrite (proj2 (Z.ltb_lt _ _)) by lia. cbn [sessions]. split; [by rewrite Hs, Hcur|].
      rewrite Hy. cbn [fmap option_fmap option_map]. by rewrite Hlast.
    + rewrite (proj2 (Z.ltb_ge _ _)) by lia. cbn [split_gaps]. rewrite Hy. cbn [snd].
      rewrite Hlast. destruct (session_gap z <? ts - last_timestamp s)%Z eqn:Hgap.
      * destruct (finalize uuid (key_of hb) s) as [ev| | |] eqn:Hf; try discriminate Hi.
        injection Hi as <- <-. exists [(hb, ts)]. unfold append_or_open. cbn [sessions].
        rewrite lookup_delete_eq, lookup_insert_eq. split; [done|]. split; [done|]. by exists uuid, s.
      * injection Hi as <- <-. exists (cur ++ [(hb, ts)]). unfold append_or_open. cbn [sessions].
        rewrite Hs, lookup_insert_eq. split; [by rewrite (fold_session_snoc _ _ _ Hcur)|].
        by rewrite last_snoc.
  - symmetry in Hcur. apply fold_session_none in Hcur as ->. injection Hi as <- <-.
    exists [(hb, ts)]. unfold append_or_open. cbn [sessions]. by rewrite Hs, lookup_insert_eq.
Qed.

Lemma run_ingest_split inputs : ∀ z z' es,
  run_ingest inputs z = Ok (z', es) →
  ∀ k cur, sessions z !! k = fold_session cur →
  ∃ closed cur', split_of (session_gap z) cur (of_key k inputs) = closed ++ split_of (session_gap z) cur' [] ∧
    Forall2 (emitted k) (events_of k es) closed ∧ sessions z' !! k = fold_session cur'.
Proof.
  induction inputs as [|[uuid [hb ts]] inputs IH]; intros z z' es Hrun k cur Hcur; cbn [run_ingest] in Hrun.
  { injection Hrun as <- <-. exists [], cur. split_and!; [done|constructor|done]. }
  apply bind_ok_inv in Hrun as ([z1 e] & Hi & Hrun).
  apply bind_ok_inv in Hrun as ([z2 es1] & Hrest & Hrun). injection Hrun as <- <-.
  pose proof (ingest_at_gap _ _ _ _ _ _ Hi) as Hgap. rewrite of_key_cons. case_decide as Hk.
  - subst k. destruct (ingest_at_same _ _ _ _ _ _ cur (of_key (key_of hb) inputs) Hi Hcur) as (cur1 & Hcur1 & He).
    destruct (IH _ _ _ Hrest (key_of hb) cur1 Hcur1) as (closed & cur' & Hsplit & Hev & Hs').
    rewrite Hgap in Hsplit. destruct e as [e|].
    + destruct He as [-> He]. exists (cur :: closed), cur'. rewrite Hsplit, events_of_cons, decide_True by done.
      split_and!; [done|by constructor|done].
    + exists closed, cur'. by rewrite He, Hsplit.
  - rewrite <- (ingest_at_other _ _ _ _ _ _ k Hi Hk) in Hcur.
    destruct (IH _ _ _ Hrest k cur Hcur) as (closed & cur' & Hsplit & Hev & Hs').
    rewrite Hgap in Hsplit. exists closed, cur'. split_and!; [done| |done].
    destruct e as [e|]; [|done]. by rewrite events_of_cons, decide_False.
Qed.
End run.

(** ** What a session aggregates *)

Definition rebuffers (b : Beat) : bool := is_rebuffering b.1.

(** Consecutive heartbeats. *)
Definition steps (g : list Beat) : list (Beat * Beat) := zip g (tail g).

Definition rebuffer_start (ab : Beat * Beat) : Prop := rebuffers ab.1 = false ∧ rebuffers ab.2 = true.

Definition switched (ab : Beat * Beat) : Prop :=
  current_resolution_height ab.1.1 ≠ current_resolution_height ab.2.1.

#[local] Instance rebuffer_start_dec ab : Decision (rebuffer_start ab).
Proof. unfold rebuffer_start. apply _. Defined.
#[local] Instance switched_dec ab : Decision (switched ab).
Proof. unfold switched. apply _. Defined.

Definition rebuffer_starts (g : list Beat) : Z :=
  (if decide (rebuffers <$> head g = Some true) then 1 else 0) +
  Z.of_nat (length (filter rebuffer_start (steps g))).

Definition rebuffer_span (ab : Beat * Beat) : Z :=
  if rebuffers ab.1 then Z.max 0 (num_milliseconds (ab.2.2 - ab.1.2)) else 0.

Definition sum_Z (l : list Z) : Z := foldr Z.add 0%Z l.

Lemma sum_Z_snoc l x : sum_Z (l ++ [x]) = (sum_Z l + x)%Z.
Proof. unfold sum_Z. induction l; simpl in *; lia. Qed.

Lemma sum_Z_nonneg l : Forall (λ x, 0 ≤ x)%Z l → (0 ≤ sum_Z l)%Z.
Proof. unfold sum_Z. induction 1; simpl in *; lia. Qed.

Lemma steps_snoc g y x : last g = Some y → steps (g ++ [x]) = steps g ++ [(y, x)].
Proof.
  unfold steps. revert y. induction g as [|a [|b g] IH]; intros y Hy; [done| |].
  - by injection Hy as ->.
  - cbn [app tail zip zip_with] in *. f_equal. apply IH. exact Hy.
Qed.

Record aggregates (g : list Beat) (s : SessionState) : Prop := mk_aggregates
  { ag_id : hb_session_id ∘ fst <$> head g = Some (client_session_id s);
    ag_first : snd <$> head g = Some (first_timestamp s);
    ag_last : snd <$> last g = Some (last_timestamp s);
    ag_frame : first_frame_timestamp s = snd <$> head (filter (λ b, is_startup b.1 = false) g);
    ag_completed : startup_completed s = bool_decide (filter (λ b, is_startup b.1 = false) g ≠ []);
    ag_starts : rebuffer_transitions s = Z.min (2 ^ 31 - 1) (rebuffer_starts g);
    ag_rebuffer : total_rebuffer_ms s = Z.min (2 ^ 63 - 1) (sum_Z (rebuffer_span <$> steps g));
    ag_count : heartbeat_count s = Z.min (2 ^ 63 - 1) (Z.of_nat (length g));
    ag_bitrate : bitrate_sum s = Z.min (2 ^ 63 - 1) (sum_Z (current_bitrate_kbps ∘ fst <$> g));
    ag_switches : ss_resolution_switches s = Z.min (2 ^ 31 - 1) (Z.of_nat (length (filter switched (steps g))));
    ag_peak : ss_peak_resolution_height s = foldr Z.max 0%Z (current_resolution_height ∘ fst <$> g) }.

(** The two values of the last heartbeat the next one is compared with. *)
Definition remembers (g : list Beat) (s : SessionState) : Prop :=
  rebuffers <$> last g = Some (prev_is_rebuffering s) ∧
  current_resolution_height ∘ fst <$> last g = prev_resolution_height s.

Lemma foldr_max_snoc l x : foldr Z.max 0%Z (l ++ [x]) = Z.max (foldr Z.max 0%Z l) x.
Proof. induction l; simpl in *; lia. Qed.

Lemma length_filter_snoc {A} (P : A → Prop) `{∀ x, Decision (P x)} l x :
  length (filter P (l ++ [x])) = length (filter P l) + (if decide (P x) then 1 else 0).
Proof. rewrite filter_app, length_app, filter_cons. by case_decide. Qed.

Lemma head_snoc {A} (l : list A) x y : head l = Some y → head (l ++ [x]) = Some y.
Proof. by destruct l. Qed.

Lemma num_milliseconds_pos d : (0 ≤ d)%Z → (0 ≤ num_milliseconds d)%Z.
Proof. intros. unfold num_milliseconds, nanos_per_ms. apply Z.quot_pos; lia. Qed.

(** Saturating addition of a non-negative amount to a saturated sum. *)
Lemma saturating_i64 t d : (0 ≤ t)%Z → (0 ≤ d)%Z →
  i64_saturating_add (Z.min (2 ^ 63 - 1) t) d = Z.min (2 ^ 63 - 1) (t + d).
Proof. intros. unfold i64_saturating_add, saturate. lia. Qed.

Lemma saturating_i32 t d : (0 ≤ t)%Z → (0 ≤ d)%Z →
  i32_saturating_add (Z.min (2 ^ 31 - 1) t) d = Z.min (2 ^ 31 - 1) (t + d).
Proof. intros. unfold i32_saturating_add, saturate. lia. Qed.

Lemma rebuffer_span_nonneg l : Forall (λ x, 0 ≤ x)%Z (rebuffer_span <$> l).
Proof.
  apply Forall_fmap, Forall_true. intros ab. unfold compose, rebuffer_span. destruct (rebuffers _); lia.
Qed.

Definition bitrate_ok (b : Beat) : Prop := (0 ≤ current_bitrate_kbps b.1 ≤ 200000)%Z.

Lemma bitrates_nonneg g : Forall bitrate_ok g → Forall (λ x, 0 ≤ x)%Z (current_bitrate_kbps ∘ fst <$> g).
Proof. intros H. apply Forall_fmap. eapply Forall_impl; [exact H|]. intros b Hb. apply Hb. Qed.

Lemma fmap_snoc {A B} (f : A → B) l x : f <$> (l ++ [x]) = (f <$> l) ++ [f x].
Proof. by rewrite fmap_app. Qed.

(** One more heartbeat. *)
Lemma aggregates_snoc g s x :
  Forall bitrate_ok g → bitrate_ok x → aggregates g s → remembers g s →
  aggregates (g ++ [x]) (apply_heartbeat x.1 x.2 s) ∧ remembers (g ++ [x]) (apply_heartbeat x.1 x.2 s).
Proof.
  intros Hg Hx Ha [Hr1 Hr2]. destruct x as [hb ts].
  assert (∃ y, last g = Some y) as [y Hy] by (destruct (last g); [by eexists|done]).
  rewrite Hy in Hr1, Hr2. cbn [fmap option_fmap option_map] in Hr1, Hr2. injection Hr1 as Hr1.
  pose proof (ag_last g s Ha) as Hl. rewrite Hy in Hl. injection Hl as Hl.
  assert (∃ h, head g = Some h) as [h Hh] by (destruct g; [done|by eexists]).
  split; [|unfold remembers; by rewrite last_snoc].
  constructor; cbn [apply_heartbeat client_session_id first_timestamp last_timestamp first_frame_timestamp
    rebuffer_transitions total_rebuffer_ms bitrate_sum heartbeat_count ss_resolution_switches
    ss_peak_resolution_height startup_completed]; cbn [fst snd].
  - rewrite (head_snoc g (hb, ts) h Hh), <- Hh. apply Ha.
  - rewrite (head_snoc g (hb, ts) h Hh), <- Hh. apply Ha.
  - by rewrite last_snoc.
  - rewrite filter_app, filter_cons. cbn [fst snd]. rewrite (ag_frame g s Ha), (ag_completed g s Ha).
    destruct (is_startup hb); cbn [negb andb]; [by rewrite decide_False, app_nil_r|].
    rewrite decide_True by done. by destruct (filter _ g).
  - rewrite filter_app, filter_cons. cbn [fst snd]. rewrite (ag_completed g s Ha).
    destruct (is_startup hb); cbn [negb andb]; [by rewrite decide_False, app_nil_r|].
    rewrite decide_True by done. by destruct (filter _ g).
  - unfold rebuffer_starts. rewrite (head_snoc g (hb, ts) h Hh), <- Hh, (steps_snoc g y) by done.
    rewrite length_filter_snoc, (ag_starts g s Ha). unfold rebuffer_starts. rewrite Nat2Z.inj_add, Z.add_assoc.
    assert (rebuffer_start (y, (hb, ts)) ↔ prev_is_rebuffering s = false ∧ is_rebuffering hb = true) as Hiff.
    { unfold rebuffer_start. cbn [fst snd]. by rewrite Hr1. }
    rewrite (decide_ext _ _ 1 0 Hiff). set (first := if decide (_ = Some true) then 1%Z else 0%Z).
    assert (0 ≤ first)%Z by (subst first; case_decide; lia). clearbody first.
    destruct (prev_is_rebuffering s), (is_rebuffering hb); cbn [andb negb]; case_decide;
      try (exfalso; intuition congruence); rewrite ?Z.add_0_r; try reflexivity.
    apply saturating_i32; lia.
  - rewrite (steps_snoc g y) by done. rewrite fmap_snoc, sum_Z_snoc, (ag_rebuffer g s Ha).
    assert (rebuffer_span (y, (hb, ts)) = if prev_is_rebuffering s
      then Z.max 0 (num_milliseconds (ts - last_timestamp s)) else 0%Z) as ->.
    { unfold rebuffer_span. cbn [fst snd]. by rewrite Hr1, Hl. }
    pose proof (sum_Z_nonneg _ (rebuffer_span_nonneg (steps g))).
    destruct (prev_is_rebuffering s); cbn [andb]; [|by rewrite Z.add_0_r].
    destruct (0 <? _)%Z eqn:E; [rewrite saturating_i64 by lia; f_equal; lia|f_equal; lia].
  - rewrite length_app, Nat2Z.inj_add, (ag_count g s Ha). apply saturating_i64; [lia|done].
  - rewrite fmap_snoc, sum_Z_snoc, (ag_bitrate g s Ha). apply saturating_i64; [|apply Hx].
    by apply sum_Z_nonneg, bitrates_nonneg.
  - rewrite (steps_snoc g y) by done. rewrite length_filter_snoc, <- Hr2, (ag_switches g s Ha), Nat2Z.inj_add. cbn [compose fst].
    unfold compose. rewrite <- (decide_bool_decide (current_resolution_height y.1 ≠ current_resolution_height hb)).
    rewrite (decide_ext (switched (y, (hb, ts))) (current_resolution_height y.1 ≠ current_resolution_height hb) 1 0) by done.
    case_decide; [apply saturating_i32; lia|by rewrite Z.add_0_r].
  - rewrite fmap_snoc, foldr_max_snoc, <- (ag_peak g s Ha). cbn [compose fst]. destruct (_ <? _)%Z eqn:E; lia.
Qed.

Lemma aggregates_one hb ts : bitrate_ok (hb, ts) →
  aggregates [(hb, ts)] (open_session hb ts) ∧ remembers [(hb, ts)] (open_session hb ts).
Proof.
  intros [Hb0 Hb1]. simpl in Hb0, Hb1. split; [|done].
  constructor; try done; cbn [open_session]; unfold rebuffer_starts, open_session; simpl.
  - rewrite filter_cons. simpl. by destruct (is_startup hb).
  - rewrite filter_cons. simpl. by destruct (is_startup hb).
  - unfold rebuffers. simpl. by destruct (is_rebuffering hb).
  - unfold sum_Z. simpl. lia.
Qed.

Lemma fold_aggregates g s : Forall bitrate_ok g → fold_session g = Some s → aggregates g s ∧ remembers g s.
Proof.
  destruct g as [|[hb ts] g]; [done|]. intros [Hb Hg]%Forall_cons. simpl. intros [= <-].
  induction g as [|x g IH] using rev_ind; [by apply aggregates_one|].
  apply Forall_app in Hg as [Hg Hx]. rewrite foldl_snoc, app_comm_cons.
  rewrite Forall_singleton in Hx. destruct (IH Hg) as [Ha Hr]. apply aggregates_snoc; [by constructor|done..].
Qed.

(** ** Emitted events are well-formed *)

Section valid.
Context (from_timestamp : Z → Z → option Z).

(** An instant chrono can hold: within its range of years, and read back from the
    seconds and nanoseconds it prints as. *)
Definition representable (t : Z) : Prop :=
  (- 2 ^ 73 < t < 2 ^ 73)%Z ∧ from_timestamp (t / nanos_per_sec) (t mod nanos_per_sec) = Some t.

(** What chrono documents of [from_timestamp]. *)
Context (from_timestamp_ok : ∀ s n t, from_timestamp s n = Some t → representable t).

Record session_ok (k : SessionKey) (s : SessionState) : Prop := mk_session_ok
  { sk_user : k.1.1 ≠ []; sk_content : k.2 ≠ [];
    sk_first : representable (first_timestamp s); sk_last : representable (last_timestamp s);
    sk_rebuffer : (0 ≤ total_rebuffer_ms s)%Z }.

(** The event passes the validation of client events whenever it is young enough. *)
Definition event_ok (e : QoEEvent) : Prop :=
  ∃ t, parse_timestamp from_timestamp (qe_timestamp e) "timestamp" = Ok t ∧
    ∀ now, (now - hours 24 ≤ t ≤ now + hours 24)%Z → validate_qoe_event from_timestamp now e = Ok tt.

Lemma clamp_range x lo hi : (lo ≤ hi)%Z → (lo ≤ clamp x lo hi ≤ hi)%Z.
Proof. intros H. unfold clamp. repeat case_match; lia. Qed.

Lemma check_range_ok f lo hi x : (lo ≤ x ≤ hi)%Z → check_range f lo hi x = Ok tt.
Proof.
  intros H. unfold check_range. rewrite (proj2 (Z.ltb_ge _ _)), (proj2 (Z.ltb_ge _ _)) by lia. done.
Qed.

(** The interval [0, 1] of doubles, as the validator tests it. *)
Definition unit_interval (x : f64) : Prop :=
  f64_is_finite x = true ∧ f64_lt x f64_zero = false ∧ f64_gt x (f64_of_Z 1) = false.

Lemma f64_clamp_unit x : f64_is_finite x = true → unit_interval (f64_clamp x f64_zero (f64_of_Z 1)).
Proof.
  intros Hx. unfold f64_clamp. destruct (f64_lt x f64_zero) eqn:E0; [by vm_compute|].
  destruct (f64_gt x (f64_of_Z 1)) eqn:E1; [by vm_compute|done].
Qed.

Lemma duration_range k s : session_ok k s → (0 ≤ duration_ms s < 2 ^ 64)%Z.
Proof.
  intros [_ _ [Hf _] [Hl _] _]. unfold duration_ms, num_milliseconds, nanos_per_ms.
  split; [lia|]. apply Z.max_lub_lt; [|done].
  assert (Z.quot (last_timestamp s - first_timestamp s) (10 ^ 6) ≤ Z.quot (2 ^ 74) (10 ^ 6))%Z.
  { apply Z.quot_le_mono; lia. }
  assert (Z.quot (2 ^ 74) (10 ^ 6) < 2 ^ 64)%Z by (vm_compute; done). lia.
Qed.

Lemma rebuffer_ratio_ok {E : Type} k s : session_ok k s →
  ∃ r, rebuffer_ratio_of (E:=E) s = Ok r ∧ unit_interval r.
Proof.
  intros Hs. pose proof (duration_range k s Hs) as Hd. pose proof (sk_rebuffer k s Hs).
  unfold rebuffer_ratio_of. destruct (0 <? duration_ms s)%Z eqn:E0; [|exists f64_zero; by vm_compute].
  assert (f64_is_finite (f64_div (f64_of_Z (Z.min (total_rebuffer_ms s) (duration_ms s)))
    (f64_of_Z (duration_ms s))) = true) as Hfin by (apply f64_div_finite; lia).
  unfold assert_finite. rewrite Hfin. eexists. split; [reflexivity|]. by apply f64_clamp_unit.
Qed.

Lemma playback_ok s r : unit_interval r → validate_playback_metrics (playback_of s r) = Ok tt.
Proof.
  intros (Hf & H0 & H1). unfold validate_playback_metrics, playback_of.
  cbn [rebuffer_ratio startup_failure_rate time_to_first_frame_ms rebuffer_count avg_bitrate_kbps
       resolution_switches playback_duration_ms peak_resolution_height].
  assert (assert_finite (E:=ValidationError) r = Ok tt) as -> by (unfold assert_finite; by rewrite Hf).
  rewrite H0, H1. cbn [orb reject_if mbind result_bind].
  assert (∀ b : bool, assert_finite (E:=ValidationError) (if b then f64_zero else f64_of_Z 1) = Ok tt ∧
    negb (f64_eq (if b then f64_zero else f64_of_Z 1) f64_zero) &&
    negb (f64_eq (if b then f64_zero else f64_of_Z 1) (f64_of_Z 1)) = false) as Hb.
  { intros []; vm_compute; auto. }
  destruct (Hb (startup_completed s)) as [-> ->]. cbn [reject_if mbind result_bind].
  unfold MAX_TIME_TO_FIRST_FRAME_MS, MAX_REBUFFER_COUNT, MAX_AVG_BITRATE_KBPS, MAX_RESOLUTION_SWITCHES,
    MAX_PLAYBACK_DURATION_MS, MAX_PEAK_RESOLUTION_HEIGHT, duration_ms.
  rewrite !check_range_ok; try (by apply clamp_range); try done; destruct (first_frame_timestamp s); lia.
Qed.

Lemma finalize_ok {E : Type} uuid k s : session_ok k s → uuid ≠ [] →
  ∃ e, finalize (E:=E) uuid k s = Ok e ∧ event_ok e.
Proof.
  intros Hs Hu. destruct (rebuffer_ratio_ok (E:=E) k s Hs) as (r & Hr & Hunit).
  unfold finalize. rewrite Hr. cbn [mbind result_bind]. eexists. split; [reflexivity|].
  destruct (sk_last k s Hs) as [_ Hl]. exists (last_timestamp s).
  assert (parse_timestamp from_timestamp
    (Some (mk_timestamp (last_timestamp s / nanos_per_sec) (last_timestamp s mod nanos_per_sec)))
    "timestamp" = Ok (last_timestamp s)) as Hp.
  { unfold parse_timestamp. cbn [mbind result_bind nanos seconds].
    rewrite (proj2 (Z.ltb_ge _ _)) by (apply Z.mod_pos_bound; done). cbn [reject_if mbind result_bind].
    by rewrite Hl. }
  split; [exact Hp|]. intros now Hnow. unfold validate_qoe_event.
  cbn [qe_event_id qe_session_id qe_content_id qe_user_id qe_timestamp qe_metrics].
  unfold validate_required, require_timestamp. rewrite Hp. unfold validate_timestamp.
  rewrite !bool_decide_eq_false_2.
  - cbn [reject_if mbind result_bind]. rewrite (proj2 (Z.ltb_ge _ _)), (proj2 (Z.ltb_ge _ _)) by lia.
    cbn [orb reject_if mbind result_bind]. by apply playback_ok.
  - done.
  - by destruct (client_session_id s).
  - apply Hs.
  - apply Hs.
Qed.

Lemma i64_add_nonneg x y : (0 ≤ x)%Z → (0 ≤ y)%Z → (0 ≤ i64_saturating_add x y)%Z.
Proof. intros. unfold i64_saturating_add, saturate. lia. Qed.

Lemma apply_ok k s hb ts : session_ok k s → representable ts → session_ok k (apply_heartbeat hb ts s).
Proof.
  intros [Hu Hc Hf Hl Hr] Ht. constructor; try done. simpl.
  destruct (prev_is_rebuffering s && (0 <? num_milliseconds (ts - last_timestamp s))%Z) eqn:E; [|done].
  apply i64_add_nonneg; [done|lia].
Qed.

Lemma open_ok hb ts : hb_user_id hb ≠ [] → hb_content_id hb ≠ [] → representable ts →
  session_ok (key_of hb) (open_session hb ts).
Proof. intros. by constructor. Qed.

(** A heartbeat that passed validation, at its instant. *)
Lemma validated_heartbeat now now' hb ts :
  validate_heartbeat_event from_timestamp now hb = Ok tt →
  require_timestamp from_timestamp now' (hb_timestamp hb) "timestamp" = Ok ts →
  hb_user_id hb ≠ [] ∧ hb_content_id hb ≠ [] ∧ representable ts.
Proof.
  intros Hv Ht. unfold validate_heartbeat_event, validate_required in Hv.
  apply bind_ok_inv in Hv as (? & H1%reject_if_ok%bool_decide_eq_false & Hv).
  apply bind_ok_inv in Hv as (? & _ & Hv).
  apply bind_ok_inv in Hv as (? & H2%reject_if_ok%bool_decide_eq_false & _).
  split_and!; [done..|]. unfold require_timestamp in Ht. apply bind_ok_inv in Ht as (dt & Hp & Ht).
  apply bind_ok_inv in Ht as (? & _ & Ht). injection Ht as ->.
  unfold parse_timestamp in Hp. apply bind_ok_inv in Hp as (t & _ & Hp).
  apply bind_ok_inv in Hp as (? & _ & Hp). destruct (from_timestamp _ _) eqn:E; [|done].
  injection Hp as ->. by eapply from_timestamp_ok.
Qed.

Definition sessionizer_ok (z : HeartbeatSessionizer) : Prop :=
  map_Forall session_ok (sessions z).

Lemma append_or_open_ok hb ts z :
  sessionizer_ok z → hb_user_id hb ≠ [] → hb_content_id hb ≠ [] → representable ts →
  sessionizer_ok (append_or_open hb ts z).
Proof.
  intros Hz Hu Hc Ht. unfold append_or_open, sessionizer_ok. simpl. apply map_Forall_insert_2; [|done].
  destruct (sessions z !! key_of hb) as [s|] eqn:Hs; [|by apply open_ok].
  apply apply_ok; [|done]. by apply Hz.
Qed.

Lemma ingest_at_ok {E : Type} uuid hb ts z :
  sessionizer_ok z → uuid ≠ [] → hb_user_id hb ≠ [] → hb_content_id hb ≠ [] → representable ts →
  ∃ z' e, ingest_at (E:=E) uuid hb ts z = Ok (z', e) ∧ sessionizer_ok z' ∧ ∀ ev, e = Some ev → event_ok ev.
Proof.
  intros Hz Hu Hn Hc Ht. unfold ingest_at.
  destruct (sessions z !! key_of hb) as [s|] eqn:Hs.
  - destruct (_ <? 0)%Z; [by eexists _, _|]. destruct (_ <? _)%Z.
    + destruct (finalize_ok (E:=E) uuid (key_of hb) s) as (ev & -> & Hev); [by apply Hz|done|].
      cbn [mbind result_bind]. eexists _, _. split; [reflexivity|].
      split; [|by intros ? [= <-]]. apply append_or_open_ok; [|done..].
      unfold sessionizer_ok. simpl. by apply map_Forall_delete.
    + eexists _, _. split; [reflexivity|]. split; [by apply append_or_open_ok|done].
  - eexists _, _. split; [reflexivity|]. split; [by apply append_or_open_ok|done].
Qed.

Lemma finalize_all_ok {E : Type} uuid l : (∀ k, uuid k ≠ []) → Forall (λ ks, session_ok ks.1 ks.2) l →
  ∃ es, finalize_all (E:=E) uuid l = Ok es ∧ Forall event_ok es ∧ length es = length l.
Proof.
  intros Hu. induction 1 as [|[k s] l Hs _ IH]; [by exists []|]. cbn [finalize_all].
  destruct (finalize_ok (E:=E) (uuid k) k s Hs (Hu k)) as (e & -> & He). cbn [mbind result_bind].
  destruct IH as (es & -> & Hes & Hl). cbn [mbind result_bind]. eexists. split; [reflexivity|].
  split; [by constructor|simpl; by rewrite Hl].
Qed.

Lemma sessions_list_ok z : sessionizer_ok z → Forall (λ ks, session_ok ks.1 ks.2) (map_to_list (sessions z)).
Proof.
  intros Hz. apply Forall_forall. intros [k s] Hks%elem_of_map_to_list. by apply Hz.
Qed.

Lemma expired_ok now z : sessionizer_ok z →
  Forall (λ ks, session_ok ks.1 ks.2) (filter (expired now z) (map_to_list (sessions z))).
Proof.
  intros Hz. apply Forall_forall. intros ks [_ Hks]%list_elem_of_filter. revert ks Hks.
  by apply Forall_forall, sessions_list_ok.
Qed.

(** The states and events of a sessionizer in use: heartbeats, sweeps and drains. *)
Inductive in_use (gap : Z) : HeartbeatSessionizer → list QoEEvent → Prop :=
| use_start : in_use gap (with_config gap) []
| use_ingest z es now now' uuid hb z' e :
    in_use gap z es → uuid ≠ [] → ingest from_timestamp now now' uuid hb z = Ok (z', e) →
    in_use gap z' (es ++ option_list e)
| use_flush z es now uuid z' es' :
    in_use gap z es → (∀ k, uuid k ≠ []) → flush_expired (E:=ValidationError) now uuid z = Ok (z', es') →
    in_use gap z' (es ++ es')
| use_drain z es uuid z' es' :
    in_use gap z es → (∀ k, uuid k ≠ []) → drain (E:=ValidationError) uuid z = Ok (z', es') →
    in_use gap z' (es ++ es').

Lemma in_use_ok gap z es : in_use gap z es → sessionizer_ok z ∧ Forall event_ok es.
Proof.
  induction 1 as [|z es now now' uuid hb z' e _ [Hz Hes] Hu Hi
                 |z es now uuid z' es' _ [Hz Hes] Hu Hf|z es uuid z' es' _ [Hz Hes] Hu Hd].
  - split; [apply map_Forall_empty|constructor].
  - unfold ingest in Hi. apply bind_ok_inv in Hi as ([] & Hv & Hi).
    apply bind_ok_inv in Hi as (ts & Ht & Hi).
    destruct (validated_heartbeat _ _ _ _ Hv Ht) as (Hn & Hc & Hr).
    destruct (ingest_at_ok (E:=ValidationError) uuid hb ts z Hz Hu Hn Hc Hr) as (z1 & e1 & E1 & Hz1 & He1).
    rewrite E1 in Hi. injection Hi as <- <-. split; [done|]. apply Forall_app. split; [done|].
    destruct e1 as [ev|]; [|constructor]. constructor; [by apply He1|constructor].
  - unfold flush_expired in Hf. set (old := filter (expired now z) (map_to_list (sessions z))) in *.
    destruct (finalize_all_ok (E:=ValidationError) uuid old Hu) as (es1 & E1 & He1 & _).
    { by apply expired_ok. }
    rewrite E1 in Hf. injection Hf as <- <-. split; [|by apply Forall_app].
    unfold sessionizer_ok. simpl. intros k s [Hk _]%map_lookup_filter_Some. by apply Hz.
  - unfold drain in Hd. destruct (finalize_all_ok (E:=ValidationError) uuid _ Hu (sessions_list_ok z Hz)) as (es1 & E1 & He1 & _).
    rewrite E1 in Hd. injection Hd as <- <-. split; [apply map_Forall_empty|by apply Forall_app].
Qed.

(** An identified heartbeat at an instant chrono can hold. *)
Definition input_ok (i : str * Beat) : Prop :=
  i.1 ≠ [] ∧ hb_user_id i.2.1 ≠ [] ∧ hb_content_id i.2.1 ≠ [] ∧ representable i.2.2.

Lemma run_ingest_returns {E : Type} inputs : Forall input_ok inputs → ∀ z, sessionizer_ok z →
  ∃ z' es, run_ingest (E:=E) inputs z = Ok (z', es).
Proof.
  induction 1 as [|[uuid [hb ts]] inputs (Hu & Hn & Hc & Ht) _ IH]; intros z Hz; [by eexists _, _|].
  cbn [run_ingest]. destruct (ingest_at_ok (E:=E) uuid hb ts z Hz Hu Hn Hc Ht) as (z1 & e & -> & Hz1 & _).
  cbn [mbind result_bind]. destruct (IH z1 Hz1) as (z' & es & ->). by eexists _, _.
Qed.

End valid.

(** The state of a session is the aggregate of its heartbeats: the first and last
    instants, the first heartbeat past startup, the rebuffering periods entered and the time
    spent in them, the mean bitrate's numerator and denominator, the changes of resolution
    and its peak, each counter saturated at the width the code gives it. *)
Theorem session_aggregates g s : Forall bitrate_ok g → fold_session g = Some s → aggregates g s.
Proof. intros Hg Hs. by apply fold_aggregates. Qed.

(** ** Examples *)

(** A clock of the range chrono documents. *)
Definition epoch (s n : Z) : option Z :=
  let t := (s * nanos_per_sec + n)%Z in
  if ((0 <=? n) && (n <? nanos_per_sec) && (- 2 ^ 73 <? t) && (t <? 2 ^ 73))%Z then Some t else None.

Lemma epoch_ok s n t : epoch s n = Some t → representable epoch t.
Proof.
  unfold epoch. destruct (_ && _) eqn:Hc; [|done]. intros [= <-].
  apply andb_prop in Hc as [[[H0 H1]%andb_prop H2]%andb_prop H3].
  assert (nanos_per_sec = 10 ^ 9)%Z as Hn by done.
  assert ((s * nanos_per_sec + n) / nanos_per_sec = s)%Z as Hq.
  { rewrite Z.add_comm, Z.div_add, Z.div_small by lia. lia. }
  assert ((s * nanos_per_sec + n) mod nanos_per_sec = n)%Z as Hm.
  { rewrite Z.add_comm, Z.mod_add, Z.mod_small by lia. lia. }
  split; [lia|]. rewrite Hq, Hm. unfold epoch. by rewrite H0, H1, H2, H3.
Qed.

Definition beat (secs : Z) (rebuffering startup : bool) : HeartbeatEvent :=
  mk_heartbeat (lit "u1") (lit "") (lit "tv") (lit "movie") (Some (mk_timestamp secs 0)) 2500 1080
    f64_zero rebuffering startup.

Definition beat_at (secs : Z) (rebuffering startup : bool) : str * Beat :=
  (lit "id", (beat secs rebuffering startup, secs * nanos_per_sec)%Z).

Lemma representable_secs s : (- 10 ^ 12 < s < 10 ^ 12)%Z → representable epoch (s * nanos_per_sec).
Proof.
  intros H. apply (epoch_ok s 0). unfold epoch. assert (nanos_per_sec = 10 ^ 9)%Z as -> by done.
  replace (_ && _ && _ && _) with true by (symmetry; rewrite !andb_true_iff; split_and!; try done; lia).
  f_equal. lia.
Qed.


Lemma session_aggregates_witness :
  ∃ s, fold_session [(beat_at 0 false true).2; (beat_at 5 true false).2] = Some s ∧
    aggregates [(beat_at 0 false true).2; (beat_at 5 true false).2] s.
Proof.
  eexists. split; [reflexivity|]. apply session_aggregates; [|reflexivity].
  repeat constructor; vm_compute; congruence.
Defined.

(** A viewer who leaves during start-up, then a sweep. *)
Definition abandoned : list QoEEvent → Prop := λ es,
  ∃ z, in_use epoch (30 * nanos_per_sec) z es ∧ length es = 1%nat.

Lemma abandoned_reached : ∃ es, abandoned es.
Proof.
  eexists. eexists. split.
  - eapply (use_flush epoch _ _ _ (100 * nanos_per_sec) (λ _, lit "id")); [|done|].
    + eapply (use_ingest epoch _ _ _ 0 0 (lit "id") (beat 1 false true)); [|done|].
      * eapply (use_ingest epoch _ _ _ 0 0 (lit "id") (beat 0 false true)); [apply use_start|done|].
        vm_compute. reflexivity.
      * vm_compute. reflexivity.
    + vm_compute. reflexivity.
  - reflexivity.
Qed.


(** Two start-up heartbeats a second apart: exit before video start is reported with a
    positive playback duration, though the field's documentation requires it to be zero. *)
Lemma ebvs_with_duration :
  ∃ s e m, fold_session [(beat_at 0 false true).2; (beat_at 1 false true).2] = Some s ∧
    finalize (E:=ValidationError) (lit "id") (key_of (beat 0 false true)) s = Ok e ∧
    qe_metrics e = Some m ∧ ebvs_detected m = true ∧ playback_duration_ms m = 1000%Z.
Proof.
  eexists _, _, _. split; [reflexivity|]. split; [vm_compute; reflexivity|].
  split; [reflexivity|]. by vm_compute.
Qed.
