(* ===== verification/Flags.v ===== *)
(** Feature flags ([experimentation-flags/src/store.rs], [grpc.rs], [reconciler.rs],
    [kafka.rs], [admin.rs]): the flag tables, the RPC handlers, flag evaluation and the
    reconciler that resolves flags promoted to experiments. UUIDs are 128-bit integers. *)
From Stdlib Require Import Ascii String SpecFloat.
From stdpp Require Import sorting.
From S2P Require Import Prelude Bytes F64 Hash Validation.

Definition Uuid : Type := Z.

(** ** Tables *)

Record FlagVariant := mk_flag_variant
  { fv_variant_id : Uuid; fv_flag_id : Uuid; fv_value : str; fv_traffic_fraction : f64; ordinal : Z }.

(** A row of [feature_flags]; [Flag] is a row with its variants. *)
Record FlagRow := mk_flag_row
  { flag_id : Uuid; name : str; description : str; flag_type : str; default_value : str;
    enabled : bool; rollout_percentage : f64; salt : str; targeting_rule_id : option Uuid;
    created_at : Z; updated_at : Z; promoted_experiment_id : option Uuid;
    promoted_at : option Z; resolved_at : option Z }.

Record Flag := mk_flag { row : FlagRow; variants : list FlagVariant }.

(** The two tables, and the rules that [targeting_rule_id] may reference. *)
Record Db := mk_db
  { feature_flags : gmap Uuid FlagRow; flag_variants : list FlagVariant; targeting_rules : gset Uuid }.

Inductive StoreError :=
| NotFound (id : Uuid) | NoFlagForExperiment (id : Uuid) | AlreadyExists (name : str)
| InvalidPageToken | DbError.

(** What the database supplies to an insertion: [uuid_generate_v4], [gen_random_bytes], [NOW()]. *)
Record Fresh := mk_fresh { fresh_id : Uuid; fresh_salt : str; fresh_variant_id : nat → Uuid; now : Z }.

(** A statement can fail for reasons outside the data: the transaction is then rolled back,
    or it was committed and the read that follows fails. *)
Inductive Fault := BeforeCommit | AfterCommit.

(** ** Constraints of the schema *)

(** [x >= 0.0 AND x <= 1.0]: NaN is above every number in PostgreSQL, so it fails too. *)
Definition unit_check (x : f64) : bool := f64_le f64_zero x && f64_le x (f64_of_Z 1).

Definition type_check (t : str) : bool :=
  bool_decide (t ∈ [lit "BOOLEAN"; lit "STRING"; lit "NUMERIC"; lit "JSON"]).

Definition names (fs : gmap Uuid FlagRow) (n : str) (id : Uuid) : Prop :=
  map_Exists (λ i r, name r = n ∧ i ≠ id) fs.

#[global] Instance names_dec fs n id : Decision (names fs n id).
Proof. unfold names. apply _. Defined.

Definition rule_known (db : Db) (rule : option Uuid) : bool :=
  match rule with Some r => bool_decide (r ∈ targeting_rules db) | None => true end.

(** The checks of a written row, in the order PostgreSQL makes them. *)
Definition check_row (db : Db) (r : FlagRow) : result StoreError unit :=
  _ ← reject_if (negb (type_check (flag_type r) && unit_check (rollout_percentage r))) DbError;
  _ ← reject_if (bool_decide (names (feature_flags db) (name r) (flag_id r))) (AlreadyExists (name r));
  reject_if (negb (rule_known db (targeting_rule_id r))) DbError.

(** [INSERT INTO flag_variants], one statement for each variant with its position. *)
Fixpoint insert_variants (fresh : Fresh) (id : Uuid) (i : nat) (vs : list FlagVariant) (table : list FlagVariant) :
    result StoreError (list FlagVariant) :=
  match vs with
  | [] => mret table
  | v :: vs =>
      _ ← reject_if (negb (unit_check (fv_traffic_fraction v))) DbError;
      _ ← reject_if (bool_decide (fresh_variant_id fresh i ∈ fv_variant_id <$> table)) DbError;
      insert_variants fresh id (S i) vs
        (table ++ [mk_flag_variant (fresh_variant_id fresh i) id (fv_value v) (fv_traffic_fraction v) (Z.of_nat i)])
  end.

(** ** The store *)

Definition ordinal_le (v w : FlagVariant) : Prop := (ordinal v ≤ ordinal w)%Z.
#[global] Instance ordinal_le_dec v w : Decision (ordinal_le v w).
Proof. unfold ordinal_le. apply _. Defined.

Definition get_variants (id : Uuid) (db : Db) : list FlagVariant :=
  merge_sort ordinal_le (filter (λ v, fv_flag_id v = id) (flag_variants db)).

Definition with_variants (db : Db) (r : FlagRow) : Flag := mk_flag r (get_variants (flag_id r) db).

Definition get_flag (id : Uuid) (db : Db) : result StoreError Flag :=
  match feature_flags db !! id with
  | Some r => Ok (with_variants db r)
  | None => Err (NotFound id)
  end.

(** The transaction of [create_flag]. *)
Definition insert_flag (fresh : Fresh) (f : Flag) (db : Db) : result StoreError Db :=
  let r := row f in
  let created :=
    mk_flag_row (fresh_id fresh) (name r) (description r) (flag_type r) (default_value r) (enabled r)
      (rollout_percentage r) (fresh_salt fresh) (targeting_rule_id r) (now fresh) (now fresh) None None None in
  _ ← reject_if (bool_decide (is_Some (feature_flags db !! fresh_id fresh))) (AlreadyExists (name r));
  _ ← check_row db created;
  table ← insert_variants fresh (fresh_id fresh) 0 (variants f) (flag_variants db);
  mret (mk_db (<[fresh_id fresh := created]> (feature_flags db)) table (targeting_rules db)).

(** The transaction of [update_flag]. *)
Definition replace_flag (fresh : Fresh) (f : Flag) (db : Db) : result StoreError Db :=
  let r := row f in
  match feature_flags db !! flag_id r with
  | None => Err (NotFound (flag_id r))
  | Some old =>
      let updated :=
        mk_flag_row (flag_id old) (name r) (description r) (flag_type r) (default_value r) (enabled r)
          (rollout_percentage r) (salt old) (targeting_rule_id r) (created_at old) (now fresh)
          (promoted_experiment_id old) (promoted_at old) (resolved_at old) in
      _ ← check_row db updated;
      table ← insert_variants fresh (flag_id r) 0 (variants f)
                (filter (λ v, fv_flag_id v ≠ flag_id r) (flag_variants db));
      mret (mk_db (<[flag_id r := updated]> (feature_flags db)) table (targeting_rules db))
  end.

(** A transaction, then [get_flag] on the result. *)
Definition commit_then_get (fault : option Fault) (tx : result StoreError Db) (id : Uuid) (db : Db) :
    Db * result StoreError Flag :=
  match fault with
  | Some BeforeCommit => (db, Err DbError)
  | _ =>
      match tx with
      | Ok db' =>
          match fault with
          | Some _ => (db', Err DbError)
          | None => (db', get_flag id db')
          end
      | Err e => (db, Err e)
      | Panics => (db, Panics)
      | OutOfFuel => (db, OutOfFuel)
      end
  end.

Definition create_flag (fresh : Fresh) (fault : option Fault) (f : Flag) (db : Db) : Db * result StoreError Flag :=
  commit_then_get fault (insert_flag fresh f db) (fresh_id fresh) db.

Definition update_flag (fresh : Fresh) (fault : option Fault) (f : Flag) (db : Db) : Db * result StoreError Flag :=
  commit_then_get fault (replace_flag fresh f db) (flag_id (row f)) db.

(** [ON DELETE CASCADE] removes the variants. *)
Definition delete_flag (id : Uuid) (db : Db) : result StoreError Db :=
  match feature_flags db !! id with
  | None => Err (NotFound id)
  | Some _ => Ok (mk_db (delete id (feature_flags db))
                    (filter (λ v, fv_flag_id v ≠ id) (flag_variants db)) (targeting_rules db))
  end.

Definition row_le (r s : FlagRow) : Prop := (flag_id r ≤ flag_id s)%Z.
#[global] Instance row_le_dec r s : Decision (row_le r s).
Proof. unfold row_le. apply _. Defined.

(** [SELECT … WHERE P ORDER BY flag_id]. *)
Definition rows_where (P : FlagRow → Prop) `{∀ r, Decision (P r)} (db : Db) : list FlagRow :=
  merge_sort row_le (filter P (map_to_list (feature_flags db)).*2).

Definition get_all_enabled_flags (db : Db) : list Flag :=
  with_variants db <$> rows_where (λ r, enabled r = true) db.

(** [UPDATE feature_flags SET … WHERE flag_id = $1], with the rows it affected. *)
Definition update_where (id : Uuid) (set : FlagRow → FlagRow) (db : Db) : result StoreError Db :=
  match feature_flags db !! id with
  | None => Err (NotFound id)
  | Some r => Ok (mk_db (<[id := set r]> (feature_flags db)) (flag_variants db) (targeting_rules db))
  end.

Definition link_flag_to_experiment (at_ : Z) (id experiment_id : Uuid) (db : Db) : result StoreError Db :=
  update_where id (λ r, mk_flag_row (flag_id r) (name r) (description r) (flag_type r) (default_value r)
    (enabled r) (rollout_percentage r) (salt r) (targeting_rule_id r) (created_at r) at_
    (Some experiment_id) (Some at_) (resolved_at r)) db.

Inductive ResolutionAction := RolloutFull | Rollback | Keep.

Definition resolve_row (at_ : Z) (action : ResolutionAction) (r : FlagRow) : FlagRow :=
  let enabled' := match action with RolloutFull => true | Rollback => false | Keep => enabled r end in
  let rollout' := match action with
                  | RolloutFull => f64_of_Z 1 | Rollback => f64_zero | Keep => rollout_percentage r
                  end in
  mk_flag_row (flag_id r) (name r) (description r) (flag_type r) (default_value r) enabled' rollout'
    (salt r) (targeting_rule_id r) (created_at r) at_ (promoted_experiment_id r) (promoted_at r) (Some at_).

Definition resolve_flag (at_ : Z) (id : Uuid) (action : ResolutionAction) (db : Db) : result StoreError Db :=
  update_where id (resolve_row at_ action) db.

(** [fetch_optional] takes the first row; the table has no order of its own. *)
Definition get_flag_by_experiment (experiment_id : Uuid) (db : Db) : result StoreError Flag :=
  match filter (λ r, promoted_experiment_id r = Some experiment_id) (map_to_list (feature_flags db)).*2 with
  | r :: _ => Ok (with_variants db r)
  | [] => Err (NoFlagForExperiment experiment_id)
  end.

Definition promoted_desc (f g : Flag) : Prop :=
  (default 0 (promoted_at (row g)) ≤ default 0 (promoted_at (row f)))%Z.
#[global] Instance promoted_desc_dec f g : Decision (promoted_desc f g).
Proof. unfold promoted_desc. apply _. Defined.

Definition get_promoted_flags (db : Db) : list Flag :=
  merge_sort promoted_desc
    (with_variants db <$> filter (λ r, is_Some (promoted_experiment_id r)) (map_to_list (feature_flags db)).*2).

(** ** Wire form *)

Record ProtoFlagVariant := mk_pb_variant { pv_variant_id : str; pv_value : str; pv_traffic_fraction : f64 }.

Record ProtoFlag := mk_pb_flag
  { pb_flag_id : str; pb_name : str; pb_description : str; pb_type : Z; pb_default_value : str;
    pb_enabled : bool; pb_rollout_percentage : f64; pb_variants : list ProtoFlagVariant;
    pb_targeting_rule_id : str; pb_audience_rule_id : str }.

Inductive Status :=
| InvalidArgument (message : string) | SumArgument (sum : f64) | StatusNotFound (e : StoreError)
| StatusAlreadyExists (name : str) | FailedPrecondition (message : string) | Internal.

Definition flag_type_to_str (t : Z) : str :=
  if decide (t = 2%Z) then lit "STRING" else if decide (t = 3%Z) then lit "NUMERIC"
  else if decide (t = 4%Z) then lit "JSON" else lit "BOOLEAN".

Definition str_to_flag_type (s : str) : Z :=
  if decide (s = lit "BOOLEAN") then 1 else if decide (s = lit "STRING") then 2
  else if decide (s = lit "NUMERIC") then 3 else if decide (s = lit "JSON") then 4 else 0.

Definition sum_fractions (l : list f64) : f64 := fold_left f64_add l f64_zero.

Fixpoint check_fractions (vs : list ProtoFlagVariant) : result Status unit :=
  match vs with
  | [] => mret tt
  | v :: vs =>
      _ ← reject_if (f64_lt (pv_traffic_fraction v) f64_zero || f64_gt (pv_traffic_fraction v) (f64_of_Z 1))
            (InvalidArgument "variant traffic_fraction must be between 0.0 and 1.0");
      check_fractions vs
  end.

Definition validate_flag (pb : ProtoFlag) : result Status unit :=
  _ ← reject_if (negb (bool_decide (pb_audience_rule_id pb = [])))
        (InvalidArgument "audience_rule_id is not supported yet; use targeting_rule_id (#822)");
  _ ← reject_if (trim_is_empty (pb_name pb)) (InvalidArgument "name is required");
  _ ← reject_if (bool_decide (pb_type pb = 0%Z)) (InvalidArgument "type must be specified");
  _ ← reject_if (f64_lt (pb_rollout_percentage pb) f64_zero || f64_gt (pb_rollout_percentage pb) (f64_of_Z 1))
        (InvalidArgument "rollout_percentage must be between 0.0 and 1.0");
  _ ← reject_if (bool_decide (pb_type pb = 1%Z) &&
                 negb (bool_decide (pb_default_value pb = lit "true" ∨ pb_default_value pb = lit "false")))
        (InvalidArgument "boolean flag default_value must be true or false");
  match pb_variants pb with
  | [] => mret tt
  | vs =>
      let sum := sum_fractions (pv_traffic_fraction <$> vs) in
      _ ← reject_if (f64_gt (f64_abs (f64_sub sum (f64_of_Z 1))) (f64_ratio 1 1000)) (SumArgument sum);
      check_fractions vs
  end.

Definition store_err_to_status (e : StoreError) : Status :=
  match e with
  | NotFound _ | NoFlagForExperiment _ => StatusNotFound e
  | AlreadyExists n => StatusAlreadyExists n
  | InvalidPageToken => InvalidArgument "invalid page token"
  | DbError => Internal
  end.

(** ** Evaluation *)

Definition ROLLOUT_BUCKETS : Z := 10000.

(** [(rollout_percentage * 10_000.0) as u32]. *)
Definition threshold (f : Flag) : Z :=
  f64_as_u32 (f64_mul (rollout_percentage (row f)) (f64_of_Z ROLLOUT_BUCKETS)).

Fixpoint pick_variant (bucket_fraction cumulative : f64) (vs : list FlagVariant) : option FlagVariant :=
  match vs with
  | [] => None
  | v :: vs =>
      let cumulative := f64_add cumulative (fv_traffic_fraction v) in
      if f64_lt bucket_fraction cumulative then Some v else pick_variant bucket_fraction cumulative vs
  end.

(** The value and the variant it comes from, if any. *)
Definition evaluate_flag {E : Type} (f : Flag) (user_id : str) : result E (str * option Uuid) :=
  let r := row f in
  if negb (enabled r) then mret (default_value r, None)
  else
    b ← bucket user_id (salt r) ROLLOUT_BUCKETS;
    if (threshold f <=? b)%Z then mret (default_value r, None)
    else match variants f with
    | [] => mret (if decide (flag_type r = lit "BOOLEAN") then lit "true" else default_value r, None)
    | v :: vs =>
        let fraction := f64_div (f64_of_u32 b) (f64_of_Z ROLLOUT_BUCKETS) in
        let chosen := default (default v (last vs)) (pick_variant fraction f64_zero (variants f)) in
        mret (fv_value chosen, Some (fv_variant_id chosen))
    end.

(** ** Handlers *)

Section handlers.
(** The [uuid] and [base64] crates. *)
Context (parse_uuid : str → option Uuid) (print_uuid : Uuid → str).
Context (b64_decode : str → option str) (b64_encode : str → str).

Definition domain_to_proto (f : Flag) : ProtoFlag :=
  let r := row f in
  mk_pb_flag (print_uuid (flag_id r)) (name r) (description r) (str_to_flag_type (flag_type r)) (default_value r)
    (enabled r) (rollout_percentage r)
    ((λ v, mk_pb_variant (print_uuid (fv_variant_id v)) (fv_value v) (fv_traffic_fraction v)) <$> variants f)
    (match targeting_rule_id r with Some u => print_uuid u | None => [] end) [].

(** An empty id is absent, any other must parse. *)
Definition optional_uuid (s : str) (message : string) : result Status (option Uuid) :=
  if bool_decide (s = []) then mret None
  else match parse_uuid s with Some u => mret (Some u) | None => Err (InvalidArgument message) end.

Definition proto_to_domain (now : Z) (pb : ProtoFlag) : result Status Flag :=
  id ← optional_uuid (pb_flag_id pb) "invalid flag_id UUID";
  rule ← optional_uuid (pb_targeting_rule_id pb) "invalid targeting_rule_id UUID";
  let id := default 0%Z id in
  mret (mk_flag
    (mk_flag_row id (pb_name pb) (pb_description pb) (flag_type_to_str (pb_type pb)) (pb_default_value pb)
       (pb_enabled pb) (pb_rollout_percentage pb) [] rule now now None None None)
    ((λ v, mk_flag_variant 0%Z id (pv_value v) (pv_traffic_fraction v) 0%Z) <$> pb_variants pb)).

Definition require {A} (x : option A) (message : string) : result Status A :=
  match x with Some a => mret a | None => Err (InvalidArgument message) end.

Definition rpc_create_flag (fresh : Fresh) (fault : option Fault) (request : option ProtoFlag) (db : Db) :
    Db * result Status ProtoFlag :=
  let prepared :=
    pb ← require request "flag is required";
    _ ← validate_flag pb;
    proto_to_domain (now fresh) pb in
  match prepared with
  | Ok f => let '(db, created) := create_flag fresh fault f db in
            (db, domain_to_proto <$> map_err store_err_to_status created)
  | Err e => (db, Err e)
  | Panics => (db, Panics)
  | OutOfFuel => (db, OutOfFuel)
  end.

Definition required_id (id : str) : result Status Uuid :=
  _ ← reject_if (bool_decide (id = [])) (InvalidArgument "flag_id is required");
  require (parse_uuid id) "invalid flag_id UUID".

Definition rpc_get_flag (id : str) (db : Db) : result Status ProtoFlag :=
  id ← required_id id;
  domain_to_proto <$> map_err store_err_to_status (get_flag id db).

(** What the audit trail calls an update; [previous] is read before it. *)
Definition audit_action (previous : option Flag) (updated : Flag) : string :=
  match previous with
  | Some prev =>
      if bool_decide (enabled (row prev) ≠ enabled (row updated))
      then if enabled (row updated) then "enable" else "disable"
      else if f64_gt (f64_abs (f64_sub (rollout_percentage (row prev)) (rollout_percentage (row updated))))
                (f64_ratio 1 (10 ^ 9))
      then "rollout_change" else "update"
  | None => "update"
  end%string.

Definition rpc_update_flag (fresh : Fresh) (fault : option Fault) (request : option ProtoFlag) (db : Db) :
    Db * result Status (ProtoFlag * string) :=
  let prepared :=
    pb ← require request "flag is required";
    _ ← reject_if (bool_decide (pb_flag_id pb = [])) (InvalidArgument "flag_id is required");
    _ ← validate_flag pb;
    proto_to_domain (now fresh) pb in
  match prepared with
  | Ok f =>
      let previous := match get_flag (flag_id (row f)) db with Ok p => Some p | _ => None end in
      let '(db, updated) := update_flag fresh fault f db in
      (db, (λ u, (domain_to_proto u, audit_action previous u)) <$> map_err store_err_to_status updated)
  | Err e => (db, Err e)
  | Panics => (db, Panics)
  | OutOfFuel => (db, OutOfFuel)
  end.

(** The page and the token of the next one. *)
Definition list_flags (page_size : Z) (page_token : str) (db : Db) : result StoreError (list Flag * str) :=
  let page_size := if ((page_size <=? 0) || (100 <? page_size))%Z then 50%Z else page_size in
  rows ← match page_token with
         | [] => mret (rows_where (λ _, True) db)
         | _ =>
             match b64_decode page_token with
             | Some s =>
                 if valid_utf8 s then
                   match parse_uuid s with
                   | Some cursor => mret (rows_where (λ r, cursor < flag_id r)%Z db)
                   | None => Err InvalidPageToken
                   end
                 else Err InvalidPageToken
             | None => Err InvalidPageToken
             end
         end;
  let rows := take (Z.to_nat (page_size + 1)) rows in
  let page := take (Z.to_nat page_size) rows in
  let next_token :=
    if (page_size <? Z.of_nat (length rows))%Z
    then match last page with Some r => b64_encode (print_uuid (flag_id r)) | None => [] end
    else [] in
  mret (with_variants db <$> page, next_token).

Definition rpc_list_flags (page_size : Z) (page_token : str) (db : Db) : result Status (list ProtoFlag * str) :=
  page ← map_err store_err_to_status (list_flags page_size page_token db);
  mret (fmap (M:=list) domain_to_proto page.1, page.2).

Record Evaluation := mk_evaluation { ev_flag_id : str; ev_value : str; ev_variant_id : str }.

Definition variant_text (v : option Uuid) : str := match v with Some u => print_uuid u | None => [] end.

Definition rpc_evaluate_flag (id user_id : str) (db : Db) : result Status Evaluation :=
  _ ← reject_if (bool_decide (id = [])) (InvalidArgument "flag_id is required");
  _ ← reject_if (bool_decide (user_id = [])) (InvalidArgument "user_id is required");
  u ← require (parse_uuid id) "invalid flag_id UUID";
  flag ← map_err store_err_to_status (get_flag u db);
  answer ← evaluate_flag flag user_id;
  mret (mk_evaluation id answer.1 (variant_text answer.2)).

Fixpoint evaluate_all (fs : list Flag) (user_id : str) : result Status (list Evaluation) :=
  match fs with
  | [] => mret []
  | f :: fs =>
      answer ← evaluate_flag f user_id;
      rest ← evaluate_all fs user_id;
      mret (mk_evaluation (print_uuid (flag_id (row f))) answer.1 (variant_text answer.2) :: rest)
  end.

Definition rpc_evaluate_flags (user_id : str) (db : Db) : result Status (list Evaluation) :=
  _ ← reject_if (bool_decide (user_id = [])) (InvalidArgument "user_id is required");
  evaluate_all (get_all_enabled_flags db) user_id.
End handlers.

(** ** The reconciler *)

(** M5's answer to [GetExperiment]: the experiment's state, or an error. *)
Definition M5Answer : Type := option Z.

Definition is_terminal (state : Z) : bool := bool_decide (state = 5%Z ∨ state = 6%Z).

(** [reconcile_flag] after M5 has answered; a failed update is logged. *)
Definition reconcile_flag (at_ : Z) (default_action : ResolutionAction) (id : Uuid) (answer : M5Answer)
    (fault : bool) (db : Db) : Db :=
  match answer with
  | Some state =>
      if is_terminal state then
        if fault then db
        else match resolve_flag at_ id default_action db with Ok db' => db' | _ => db end
      else db
  | None => db
  end.

(** The flags of one pass of [reconcile_once], with their experiments. *)
Definition pending (db : Db) : list (Uuid * Uuid) :=
  omap (λ f, match resolved_at (row f), promoted_experiment_id (row f) with
             | None, Some e => Some (flag_id (row f), e)
             | _, _ => None
             end) (get_promoted_flags db).

(** One pass over an unchanging M5: the listing, then the flags one by one. *)
Definition reconcile_once (at_ : Uuid → Z) (default_action : ResolutionAction) (m5 : Uuid → M5Answer)
    (fault : Uuid → bool) (db : Db) : Db :=
  foldl (λ db ue, reconcile_flag (at_ ue.1) default_action ue.1 (m5 ue.2) (fault ue.1) db) db (pending db).

Definition TERMINAL_STATES : list str :=
  [lit "CONCLUDED"; lit "ARCHIVED"; lit "EXPERIMENT_STATE_CONCLUDED"; lit "EXPERIMENT_STATE_ARCHIVED"].

(** The flag a lifecycle message makes the consumer reconcile. *)
Definition lifecycle_target (parse_uuid : str → option Uuid) (experiment_id state : str) (db : Db) :
    option (Uuid * Uuid) :=
  if bool_decide (state ∈ TERMINAL_STATES) then
    match parse_uuid experiment_id with
    | Some e => match get_flag_by_experiment e db with
                | Ok f => Some (flag_id (row f), e)
                | _ => None
                end
    | None => None
    end
  else None.

Definition action_str (a : ResolutionAction) : str :=
  match a with
  | RolloutFull => lit "rollout_full" | Rollback => lit "rollback" | Keep => lit "keep"
  end.

Definition parse_action (s : str) : option ResolutionAction :=
  if decide (s = lit "rollout_full") then Some RolloutFull
  else if decide (s = lit "rollback") then Some Rollback
  else if decide (s = lit "keep") then Some Keep else None.

(** ** Promotion to an experiment *)

(** A variant of the promoted experiment; [px_value] is what [payload_json] carries. *)
Record PromotedVariant := mk_promoted_variant
  { px_name : str; px_traffic_fraction : f64; px_is_control : bool; px_value : str; px_variant_id : option Uuid }.

Definition build_variants (f : Flag) : list PromotedVariant :=
  match variants f with
  | [] =>
      [mk_promoted_variant (lit "control") (f64_sub (f64_of_Z 1) (rollout_percentage (row f))) true (lit "false") None;
       mk_promoted_variant (lit "treatment") (rollout_percentage (row f)) false (lit "true") None]
  | vs =>
      imap (λ i v, mk_promoted_variant (lit "variant_" ++ show_i64 (Z.of_nat i)) (fv_traffic_fraction v)
                     (bool_decide (i = 0)) (fv_value v) (Some (fv_variant_id v))) vs
  end.

Inductive BanditAlgorithm := ThompsonSampling | LinearUcb.

Inductive TypeConfig :=
| NoConfig | IsCumulativeHoldout | TeamDraft (algorithm_ids : list str) | BySession
| Bandit (algorithm : BanditAlgorithm) (arms : list (Uuid * str)).

Definition build_bandit_config (algorithm : BanditAlgorithm) (f : Flag) : TypeConfig :=
  Bandit algorithm ((λ v, (fv_variant_id v, fv_value v)) <$> variants f).

Definition apply_type_config (experiment_type : Z) (f : Flag) : result Status TypeConfig :=
  if decide (experiment_type = 8%Z) then mret IsCumulativeHoldout
  else if decide (experiment_type = 3%Z) then
    _ ← reject_if (length (variants f) <? 2)
          (InvalidArgument "interleaving requires at least 2 variants (algorithm_ids)");
    mret (TeamDraft (fv_value <$> variants f))
  else if decide (experiment_type = 4%Z) then mret BySession
  else if decide (experiment_type = 6%Z) then
    _ ← reject_if (length (variants f) <? 2) (InvalidArgument "MAB requires at least 2 variants (arms)");
    mret (build_bandit_config ThompsonSampling f)
  else if decide (experiment_type = 7%Z) then
    _ ← reject_if (length (variants f) <? 2)
          (InvalidArgument "contextual bandit requires at least 2 variants (arms)");
    mret (build_bandit_config LinearUcb f)
  else mret NoConfig.

Record PromotedExperiment := mk_promoted_experiment
  { pe_type : Z; pe_layer_id : str; pe_variants : list PromotedVariant; pe_primary_metric_id : str;
    pe_secondary_metric_ids : list str; pe_targeting_rule_id : option Uuid; pe_hash_salt : str;
    pe_type_config : TypeConfig }.

Record PromoteRequest := mk_promote_request
  { pr_flag_id : str; pr_experiment_type : Z; pr_primary_metric_id : str; pr_secondary_metric_ids : list str }.

(** The prost enumeration has eleven experiment types. *)
Definition known_type (t : Z) : bool := (1 <=? t)%Z && (t <=? 11)%Z.

(** M5's answer to [CreateExperiment]: the new experiment's id, or an error. *)
Definition M5Created : Type := option str.

(** The experiment handed to M5. *)
Definition prepare_promotion (parse_uuid : str → option Uuid) (default_layer_id : str) (req : PromoteRequest)
    (db : Db) : result Status (Uuid * PromotedExperiment) :=
  _ ← reject_if (bool_decide (pr_flag_id req = [])) (InvalidArgument "flag_id is required");
  _ ← reject_if (bool_decide (pr_primary_metric_id req = [])) (InvalidArgument "primary_metric_id is required");
  _ ← reject_if (negb (known_type (pr_experiment_type req))) (InvalidArgument "experiment_type is required");
  id ← require (parse_uuid (pr_flag_id req)) "invalid flag_id UUID";
  flag ← map_err store_err_to_status (get_flag id db);
  _ ← reject_if (negb (enabled (row flag))) (FailedPrecondition "flag must be enabled to promote to experiment");
  config ← apply_type_config (pr_experiment_type req) flag;
  mret (id, mk_promoted_experiment (pr_experiment_type req) default_layer_id (build_variants flag)
              (pr_primary_metric_id req) (pr_secondary_metric_ids req) (targeting_rule_id (row flag))
              (salt (row flag)) config).

(** The link to the new experiment; a failure is logged. *)
Definition link_promoted (parse_uuid : str → option Uuid) (at_ : Z) (id : Uuid) (experiment_id : str)
    (fault : bool) (db : Db) : Db :=
  if bool_decide (experiment_id = []) then db
  else match parse_uuid experiment_id with
  | Some e => if fault then db else match link_flag_to_experiment at_ id e db with Ok db' => db' | _ => db end
  | None => db
  end.

(** The whole handler over an unchanging database; without a client of M5 the answer is a
    fresh id. *)
Definition promote_to_experiment (parse_uuid : str → option Uuid) (default_layer_id : str) (at_ : Z)
    (m5 : PromotedExperiment → M5Created) (fault : bool) (req : PromoteRequest) (db : Db) :
    Db * result Status str :=
  match prepare_promotion parse_uuid default_layer_id req db with
  | Ok (id, experiment) =>
      match m5 experiment with
      | Some experiment_id => (link_promoted parse_uuid at_ id experiment_id fault db, Ok experiment_id)
      | None => (db, Err Internal)
      end
  | Err e => (db, Err e)
  | Panics => (db, Panics)
  | OutOfFuel => (db, OutOfFuel)
  end.
