(* ===== verification/FlagsSpec.v ===== *)
(** What the flag service guarantees: sticky and monotone rollouts, a consistent store,
    complete listings, and a reconciler that resolves exactly the concluded promotions. *)
From Stdlib Require Import Ascii String SpecFloat.
From stdpp Require Import sorting.
From S2P Require Import Prelude Bytes F64 F64Mono Hash HashSpec Validation Flags.

(** ** Evaluation *)

Definition enrolled (f : Flag) (user : str) : Prop :=
  enabled (row f) = true ∧
  ∃ b, bucket (E:=unit) user (salt (row f)) ROLLOUT_BUCKETS = Ok b ∧ (b < threshold f)%Z.

Definition with_rollout (r : f64) (f : Flag) : Flag :=
  mk_flag
    (mk_flag_row (flag_id (row f)) (name (row f)) (description (row f)) (flag_type (row f))
       (default_value (row f)) (enabled (row f)) r (salt (row f)) (targeting_rule_id (row f))
       (created_at (row f)) (updated_at (row f)) (promoted_experiment_id (row f)) (promoted_at (row f))
       (resolved_at (row f)))
    (variants f).

Lemma bucket_ok {E : Type} user salt :
  ∃ b, bucket (E:=E) user salt ROLLOUT_BUCKETS = Ok b ∧ (0 ≤ b < ROLLOUT_BUCKETS)%Z.
Proof.
  unfold bucket. cbn [negb]. rewrite murmur_ok. cbn [mbind result_bind].
  eexists. split; [reflexivity|]. by apply Z.mod_pos_bound.
Qed.

Lemma bucket_any {E F : Type} user salt b :
  bucket (E:=E) user salt ROLLOUT_BUCKETS = Ok b → bucket (E:=F) user salt ROLLOUT_BUCKETS = Ok b.
Proof.
  unfold bucket. cbn [negb]. rewrite !murmur_ok. cbn [mbind result_bind]. by intros [= ->].
Qed.

Lemma threshold_mono f r :
  fraction (rollout_percentage (row f)) → fraction r → f64_le (rollout_percentage (row f)) r = true →
  (threshold f ≤ threshold (with_rollout r f))%Z.
Proof.
  intros Hf Hr Hle. unfold threshold, with_rollout. cbn [row rollout_percentage].
  change (f64_of_Z ROLLOUT_BUCKETS) with (S754_finite false 5497558138880000 (-39)).
  by apply scaled_mono.
Qed.


Lemma pick_variant_in c vs : ∀ acc v, pick_variant c acc vs = Some v → v ∈ vs.
Proof.
  induction vs as [|w vs IH]; intros acc v H; [done|]. cbn [pick_variant] in H. apply elem_of_cons.
  destruct (f64_lt _ _); [left; by injection H as ->|right; by eapply IH].
Qed.

Lemma default_last_in (v : FlagVariant) vs : default v (last vs) ∈ v :: vs.
Proof.
  destruct (last vs) as [w|] eqn:Hw; [|by left]. right. apply last_Some in Hw as [l ->].
  apply elem_of_app. right. by left.
Qed.

(** Every user gets an answer; it is the default for a disabled flag, a rollout of
    zero or a user out of the rollout, and otherwise the value of one of the variants
    (true or the default when there are none); a full rollout enrolls everyone. *)
Theorem evaluate_flag_correct {E : Type} f user :
  ∃ value variant, evaluate_flag (E:=E) f user = Ok (value, variant) ∧
  (¬ enrolled f user → value = default_value (row f) ∧ variant = None) ∧
  (enrolled f user →
     match variants f with
     | [] => variant = None ∧
             value = (if decide (flag_type (row f) = lit "BOOLEAN") then lit "true" else default_value (row f))
     | vs => ∃ v, v ∈ vs ∧ value = fv_value v ∧ variant = Some (fv_variant_id v)
     end) ∧
  (f64_eq (rollout_percentage (row f)) f64_zero = true → ¬ enrolled f user) ∧
  (enabled (row f) = true → rollout_percentage (row f) = f64_of_Z 1 → enrolled f user).
Proof.
  destruct (bucket_ok (E:=unit) user (salt (row f))) as (b & Hb & Hr).
  assert (f64_eq (rollout_percentage (row f)) f64_zero = true → ¬ enrolled f user) as Hzero.
  { intros Hz (_ & b' & Hb' & Hlt). rewrite Hb in Hb'. injection Hb' as <-. unfold threshold in Hlt.
    destruct (rollout_percentage (row f)) as [s|s| |s m e]; try done; [|by destruct s..].
    change (f64_as_u32 _) with 0%Z in Hlt. lia. }
  assert (enabled (row f) = true → rollout_percentage (row f) = f64_of_Z 1 → enrolled f user) as Hone.
  { intros He H1. split; [done|]. exists b. split; [done|]. unfold threshold. rewrite H1.
    change (f64_as_u32 _) with ROLLOUT_BUCKETS. lia. }
  unfold evaluate_flag. destruct (enabled (row f)) eqn:He; cbn [negb].
  2:{ eexists _, _. split; [reflexivity|]. split_and!; [done|by intros [? _]; congruence|done|done]. }
  rewrite (bucket_any (F:=E) _ _ _ Hb). cbn [mbind result_bind].
  destruct (threshold f <=? b)%Z eqn:Ht.
  { eexists _, _. split; [reflexivity|]. split_and!; [done| |done|done].
    intros (_ & b' & Hb' & Hlt). rewrite Hb in Hb'. injection Hb' as <-. lia. }
  assert (enrolled f user) as Hen by (split; [done|exists b; split; [done|lia]]).
  destruct (variants f) as [|v vs] eqn:Hv; eexists _, _; (split; [reflexivity|]); split_and!; try done.
  intros _. destruct (pick_variant _ _ _) as [w|] eqn:Hp.
  - exists w. split; [|done]. by eapply pick_variant_in.
  - eexists. split; [apply default_last_in|done].
Qed.

(** ** The store's invariant *)

Definition variants_of (id : Uuid) (table : list FlagVariant) : list FlagVariant :=
  filter (λ v, fv_flag_id v = id) table.

Definition row_ok (db : Db) (id : Uuid) (r : FlagRow) : Prop :=
  flag_id r = id ∧ type_check (flag_type r) = true ∧ unit_check (rollout_percentage r) = true ∧
  rule_known db (targeting_rule_id r) = true.

Record db_ok (db : Db) : Prop := mk_db_ok
  { ok_rows : map_Forall (row_ok db) (feature_flags db);
    ok_names : ∀ i j r s, feature_flags db !! i = Some r → feature_flags db !! j = Some s →
                 name r = name s → i = j;
    ok_ids : NoDup (fv_variant_id <$> flag_variants db);
    ok_parents : Forall (λ v, is_Some (feature_flags db !! fv_flag_id v) ∧
                              unit_check (fv_traffic_fraction v) = true) (flag_variants db);
    ok_ordinals : ∀ id, ordinal <$> variants_of id (flag_variants db) =
                        Z.of_nat <$> seq 0 (length (variants_of id (flag_variants db))) }.

(** The variants a flag is given, as rows of the table. *)
Definition new_variants (fresh : Fresh) (id : Uuid) (i : nat) (vs : list FlagVariant) : list FlagVariant :=
  imap (λ k v, mk_flag_variant (fresh_variant_id fresh (i + k)) id (fv_value v) (fv_traffic_fraction v)
                 (Z.of_nat (i + k))) vs.

Lemma new_variants_cons fresh id i v vs :
  new_variants fresh id i (v :: vs) =
  mk_flag_variant (fresh_variant_id fresh i) id (fv_value v) (fv_traffic_fraction v) (Z.of_nat i) ::
  new_variants fresh id (S i) vs.
Proof.
  unfold new_variants. rewrite imap_cons, Nat.add_0_r. f_equal. apply imap_ext. intros k w _.
  unfold compose. by replace (i + S k) with (S i + k) by lia.
Qed.

Lemma insert_variants_ok fresh id vs : ∀ i table table',
  insert_variants fresh id i vs table = Ok table' → NoDup (fv_variant_id <$> table) →
  table' = table ++ new_variants fresh id i vs ∧ NoDup (fv_variant_id <$> table') ∧
  Forall (λ v, unit_check (fv_traffic_fraction v) = true) (new_variants fresh id i vs).
Proof.
  induction vs as [|v vs IH]; intros i table table' H Hnd; cbn [insert_variants] in H.
  { injection H as <-. rewrite app_nil_r. split_and!; [done|done|constructor]. }
  rewrite reject_bind in H. destruct (unit_check _) eqn:Hu; [|done]. cbn [negb] in H.
  rewrite reject_bind in H. destruct (bool_decide _) eqn:Hid; [done|].
  apply bool_decide_eq_false in Hid. apply IH in H as (-> & Hnd' & Hf).
  - rewrite new_variants_cons, <- app_assoc. split_and!; [done|by rewrite <- app_assoc in Hnd'|by constructor].
  - rewrite fmap_app. apply NoDup_app. split_and!; [done| |by apply NoDup_singleton].
    cbn. intros x Hx ->%list_elem_of_singleton. done.
Qed.

Lemma variants_of_app id t t' : variants_of id (t ++ t') = variants_of id t ++ variants_of id t'.
Proof. apply filter_app. Qed.

Lemma variants_of_new fresh id id' i vs :
  variants_of id' (new_variants fresh id i vs) = if decide (id = id') then new_variants fresh id i vs else [].
Proof.
  revert i. induction vs as [|v vs IH]; intros i; [by case_decide|].
  rewrite new_variants_cons. unfold variants_of in *. rewrite filter_cons, IH. cbn [fv_flag_id].
  by repeat case_decide.
Qed.

Lemma ordinals_new fresh id i vs : ordinal <$> new_variants fresh id i vs = Z.of_nat <$> seq i (length vs).
Proof.
  revert i. induction vs as [|v vs IH]; intros i; [done|]. rewrite new_variants_cons. cbn [length seq].
  rewrite !fmap_cons. f_equal. apply IH.
Qed.

Lemma length_new fresh id i vs : length (new_variants fresh id i vs) = length vs.
Proof. unfold new_variants. by rewrite length_imap. Qed.

Lemma variants_of_removed id id' table :
  variants_of id' (filter (λ v, fv_flag_id v ≠ id) table) = if decide (id = id') then [] else variants_of id' table.
Proof.
  unfold variants_of. induction table as [|v table IH]; [by case_decide|].
  rewrite (filter_cons (λ v, fv_flag_id v ≠ id)), (filter_cons (λ v, fv_flag_id v = id') v table).
  destruct (decide (fv_flag_id v ≠ id)) as [Hv|Hv].
  - rewrite filter_cons, IH. repeat case_decide; congruence.
  - rewrite IH. repeat case_decide; try congruence. naive_solver.
Qed.

Lemma nodup_removed P `{∀ v : FlagVariant, Decision (P v)} table :
  NoDup (fv_variant_id <$> table) → NoDup (fv_variant_id <$> filter P table).
Proof. intros Hnd. eapply sublist_NoDup; [exact Hnd|]. apply fmap_sublist, sublist_filter. Qed.

(** Writing a row with its variants keeps the store consistent. *)
Lemma write_ok fresh id vs db created table kept :
  db_ok db → check_row db created = Ok tt → flag_id created = id →
  sublist kept (flag_variants db) → (∀ id', variants_of id' kept = if decide (id = id') then [] else variants_of id' (flag_variants db)) →
  insert_variants fresh id 0 vs kept = Ok table →
  db_ok (mk_db (<[id := created]> (feature_flags db)) table (targeting_rules db)).
Proof.
  intros [Hrows Hnames Hids Hpar Hord] Hc Hid Hsub Hkept Hins.
  apply insert_variants_ok in Hins as (-> & Hnd & Hfr).
  2:{ eapply sublist_NoDup; [exact Hids|]. by apply fmap_sublist. }
  unfold check_row in Hc. rewrite !reject_bind in Hc.
  destruct (type_check _ && unit_check _) eqn:Hcheck; [|done]. apply andb_prop in Hcheck as [Ht Hu].
  cbn [negb] in Hc. destruct (bool_decide (names _ _ _)) eqn:Hn; [done|]. apply bool_decide_eq_false in Hn.
  apply reject_if_ok, negb_false_iff in Hc. constructor; cbn [feature_flags flag_variants targeting_rules].
  - apply map_Forall_insert_2; [done|]. exact Hrows.
  - assert (∀ j s, feature_flags db !! j = Some s → name s = name created → j = id) as Hfresh.
    { intros j s Hj Hs. destruct (decide (j = id)); [done|exfalso]. apply Hn. exists j, s.
      by rewrite Hid. }
    intros i j r s Hi Hj Heq. apply lookup_insert_Some in Hi as [[<- <-]|[Hi Hri]];
      apply lookup_insert_Some in Hj as [[<- <-]|[Hj Hrj]]; [done| | |by eapply Hnames].
    + symmetry. by eapply Hfresh.
    + by eapply Hfresh.
  - exact Hnd.
  - apply Forall_app. split.
    + apply Forall_forall. intros v Hv. rewrite Forall_forall in Hpar.
      destruct (Hpar v) as [Hp Hf]; [by eapply elem_of_sublist|]. split; [|done].
      apply lookup_insert_is_Some'. by right.
    + eapply Forall_impl; [apply Forall_and; split; [exact Hfr|]|].
      * apply Forall_forall. intros v Hv. apply elem_of_lookup_imap in Hv as (k & w & -> & _).
        instantiate (1 := λ v, fv_flag_id v = id). done.
      * intros v [Hf Hv]. split; [|exact Hf]. rewrite Hv. apply lookup_insert_is_Some'. by left.
  - intros id'. rewrite variants_of_app, Hkept, variants_of_new. case_decide.
    + cbn [app]. by rewrite ordinals_new, length_new.
    + rewrite app_nil_r. apply Hord.
Qed.

Lemma variants_of_absent db id : db_ok db → feature_flags db !! id = None → variants_of id (flag_variants db) = [].
Proof.
  intros Hdb Hid. destruct (variants_of id _) as [|v l] eqn:Hv; [done|].
  assert (v ∈ variants_of id (flag_variants db)) as [Hf Hin]%list_elem_of_filter by (rewrite Hv; by left).
  pose proof (ok_parents db Hdb) as Hp. rewrite Forall_forall in Hp.
  destruct (Hp v Hin) as [[r Hr] _]. congruence.
Qed.

Lemma insert_flag_ok fresh f db db' : db_ok db → insert_flag fresh f db = Ok db' → db_ok db'.
Proof.
  intros Hdb H. unfold insert_flag in H. rewrite reject_bind in H.
  destruct (bool_decide _) eqn:Hid; [done|]. apply bool_decide_eq_false in Hid.
  apply bind_ok_inv in H as ([] & Hc & H). apply bind_ok_inv in H as (table & Hi & H). injection H as <-.
  eapply write_ok; [done|done|done|reflexivity| |done]. intros id'. case_decide as He; [subst id'|done].
  apply variants_of_absent; [done|]. by apply eq_None_not_Some.
Qed.

Lemma replace_flag_ok fresh f db db' : db_ok db → replace_flag fresh f db = Ok db' → db_ok db'.
Proof.
  intros Hdb H. unfold replace_flag in H. destruct (feature_flags db !! _) as [old|] eqn:Hold; [|done].
  apply bind_ok_inv in H as ([] & Hc & H). apply bind_ok_inv in H as (table & Hi & H). injection H as <-.
  eapply write_ok; [done|exact Hc| | | |exact Hi]; [|apply sublist_filter|].
  - pose proof (ok_rows db Hdb _ _ Hold) as (Hid & _). exact Hid.
  - intros id'. apply variants_of_removed.
Qed.

Lemma delete_flag_ok id db db' : db_ok db → delete_flag id db = Ok db' → db_ok db'.
Proof.
  intros [Hrows Hnames Hids Hpar Hord] H. unfold delete_flag in H.
  destruct (feature_flags db !! id) as [r|]; [|done]. injection H as <-.
  constructor; cbn [feature_flags flag_variants].
  - by apply map_Forall_delete.
  - intros i j s t Hi%lookup_delete_Some Hj%lookup_delete_Some. naive_solver.
  - by apply nodup_removed.
  - apply Forall_forall. intros v [Hv Hin]%list_elem_of_filter. rewrite Forall_forall in Hpar.
    destruct (Hpar v Hin) as [Hp Hf]. split; [|done]. by rewrite lookup_delete_ne.
  - intros id'. rewrite variants_of_removed. case_decide; [done|apply Hord].
Qed.

(** An update of the columns no other row depends on. *)
Lemma update_where_ok id set db db' : db_ok db →
  (∀ r, row_ok db id r → row_ok db id (set r) ∧ name (set r) = name r) →
  update_where id set db = Ok db' → db_ok db'.
Proof.
  intros [Hrows Hnames Hids Hpar Hord] Hset H. unfold update_where in H.
  destruct (feature_flags db !! id) as [r|] eqn:Hr; [|done]. injection H as <-.
  destruct (Hset r (Hrows _ _ Hr)) as [Hok Hname].
  constructor; cbn [feature_flags flag_variants]; try done.
  - by apply map_Forall_insert_2.
  - intros i j s t Hi Hj Heq. apply lookup_insert_Some in Hi as [[<- <-]|[Hi Hri]];
      apply lookup_insert_Some in Hj as [[<- <-]|[Hj Hrj]]; [done| | |by eapply Hnames].
    + rewrite Hname in Heq. by eapply Hnames.
    + rewrite Hname in Heq. by eapply Hnames.
  - eapply Forall_impl; [exact Hpar|]. intros v [Hp Hf]. split; [|done].
    apply lookup_insert_is_Some'. by right.
Qed.

Lemma resolve_row_ok db id at_ action r : row_ok db id r →
  row_ok db id (resolve_row at_ action r) ∧ name (resolve_row at_ action r) = name r.
Proof. intros (Hi & Ht & Hu & Hr). split; [|done]. split_and!; try done. by destruct action. Qed.

(** ** Histories *)

Inductive FlagOp :=
| OpCreate (fresh : Fresh) (fault : option Fault) (request : option ProtoFlag)
| OpUpdate (fresh : Fresh) (fault : option Fault) (request : option ProtoFlag)
| OpDelete (id : Uuid)
| OpPromote (at_ : Z) (m5 : PromotedExperiment → M5Created) (fault : bool) (req : PromoteRequest)
| OpResolve (at_ : Z) (id : Uuid) (action : ResolutionAction)
| OpReconcile (at_ : Z) (default_action : ResolutionAction) (id : Uuid) (answer : M5Answer) (fault : bool).

Section histories.
Context (parse_uuid : str → option Uuid) (print_uuid : Uuid → str) (default_layer_id : str).

Definition flag_step (op : FlagOp) (db : Db) : Db :=
  match op with
  | OpCreate fresh fault request => (rpc_create_flag parse_uuid print_uuid fresh fault request db).1
  | OpUpdate fresh fault request => (rpc_update_flag parse_uuid print_uuid fresh fault request db).1
  | OpDelete id => match delete_flag id db with Ok db' => db' | _ => db end
  | OpPromote at_ m5 fault req => (promote_to_experiment parse_uuid default_layer_id at_ m5 fault req db).1
  | OpResolve at_ id action => match resolve_flag at_ id action db with Ok db' => db' | _ => db end
  | OpReconcile at_ action id answer fault => reconcile_flag at_ action id answer fault db
  end.

Lemma commit_ok fault tx id db : db_ok db → (∀ db', tx = Ok db' → db_ok db') →
  db_ok (commit_then_get fault tx id db).1.
Proof.
  intros Hdb Htx. unfold commit_then_get. destruct fault as [[]|]; [done|..]; destruct tx; cbn [fst]; auto.
Qed.

Lemma resolve_ok at_ id action db : db_ok db →
  db_ok match resolve_flag at_ id action db with Ok db' => db' | _ => db end.
Proof.
  intros Hdb. destruct (resolve_flag _ _ _ _) as [db'| | |] eqn:H; [|done..].
  eapply update_where_ok; [exact Hdb| |exact H]. apply resolve_row_ok.
Qed.

Lemma link_promoted_ok at_ id e fault db : db_ok db → db_ok (link_promoted parse_uuid at_ id e fault db).
Proof.
  intros Hdb. unfold link_promoted. repeat case_match; try done.
  eapply update_where_ok; [exact Hdb| |eassumption]. by intros r (? & ? & ? & ?).
Qed.

Lemma flag_step_ok op db : db_ok db → db_ok (flag_step op db).
Proof.
  intros Hdb. destruct op; cbn [flag_step].
  - unfold rpc_create_flag, create_flag. destruct (_ ≫= _) as [f| | |]; cbn [fst]; try done.
    pose proof (commit_ok fault (insert_flag fresh f db) (fresh_id fresh) db Hdb) as Hc.
    destruct (commit_then_get _ _ _ _). apply Hc. intros db'. by apply insert_flag_ok.
  - unfold rpc_update_flag, update_flag. destruct (_ ≫= _) as [f| | |]; cbn [fst]; try done.
    pose proof (commit_ok fault (replace_flag fresh f db) (flag_id (row f)) db Hdb) as Hc.
    destruct (commit_then_get _ _ _ _). apply Hc. intros db'. by apply replace_flag_ok.
  - destruct (delete_flag id db) eqn:H; [|done..]. by eapply delete_flag_ok.
  - unfold promote_to_experiment. destruct (prepare_promotion _ _ _ _) as [[id e]| | |]; cbn [fst]; try done.
    destruct (m5 e); [|done]. by apply link_promoted_ok.
  - by apply resolve_ok.
  - unfold reconcile_flag. repeat case_match; try done. by eapply update_where_ok; [|apply resolve_row_ok|].
Qed.

(** [C38] The store stays consistent: after any history of requests, promotions, operator
    resolutions and reconciler steps, with failures before and after commits, every row
    satisfies the schema, no two flags share a name, and the variants of each flag belong to
    it, have distinct ids and the ordinals 0, 1, 2 and so on. *)
Theorem flags_consistent rules ops :
  db_ok (foldl (λ db op, flag_step op db) (mk_db ∅ [] rules) ops).
Proof.
  induction ops as [|op ops IH] using rev_ind; [|rewrite foldl_snoc; by apply flag_step_ok].
  constructor; first [done|apply map_Forall_empty|constructor].
Qed.
End histories.

(** ** Reading back what was written *)

Lemma get_variants_ok db id : db_ok db → get_variants id db = variants_of id (flag_variants db).
Proof. intros Hdb. by apply (merge_sort_numbered ordinal _ 0); [|apply (ok_ordinals db Hdb)]. Qed.

Lemma flag_frame db db' id : db_ok db → db_ok db' →
  feature_flags db' !! id = feature_flags db !! id →
  variants_of id (flag_variants db') = variants_of id (flag_variants db) →
  get_flag id db' = get_flag id db.
Proof.
  intros Hdb Hdb' Hr Hv. unfold get_flag. rewrite Hr. destruct (feature_flags db !! id) as [r|] eqn:Hid; [|done].
  unfold with_variants. destruct (ok_rows db Hdb _ _ Hid) as [Hf _]. rewrite Hf.
  by rewrite !get_variants_ok, Hv.
Qed.

(** What a write leaves in the store. *)
Lemma written_flag fresh id r vs db db' table kept :
  db_ok db → db_ok db' → insert_variants fresh id 0 vs kept = Ok table → sublist kept (flag_variants db) →
  (∀ id', variants_of id' kept = if decide (id = id') then [] else variants_of id' (flag_variants db)) →
  db' = mk_db (<[id := r]> (feature_flags db)) table (targeting_rules db) → flag_id r = id →
  get_flag id db' = Ok (mk_flag r (new_variants fresh id 0 vs)) ∧
  ∀ id', id' ≠ id → get_flag id' db' = get_flag id' db.
Proof.
  intros Hdb Hdb' Hi Hsub Hkept E Hr.
  apply insert_variants_ok in Hi as (-> & _ & _).
  2:{ eapply sublist_NoDup; [apply (ok_ids db Hdb)|]. by apply fmap_sublist. }
  split.
  - unfold get_flag. rewrite E. cbn [feature_flags]. rewrite lookup_insert_eq, <- E. unfold with_variants.
    rewrite Hr, get_variants_ok by done. rewrite E. cbn [flag_variants].
    by rewrite variants_of_app, Hkept, variants_of_new, !decide_True.
  - intros id' Hne. apply flag_frame; [done|done|by rewrite E; cbn [feature_flags]; rewrite lookup_insert_ne|].
    rewrite E. cbn [flag_variants]. by rewrite variants_of_app, Hkept, variants_of_new, !decide_False, app_nil_r.
Qed.

Section codec.
Context (parse_uuid : str → option Uuid) (print_uuid : Uuid → str).
(** What the [uuid] crate documents. *)
Context (parse_print : ∀ u, parse_uuid (print_uuid u) = Some u) (parse_empty : parse_uuid [] = None).

(** The flag a request describes, once stored under [id]. *)
Definition stored_flag (fresh : Fresh) (id : Uuid) (pb : ProtoFlag) : ProtoFlag :=
  mk_pb_flag (print_uuid id) (pb_name pb) (pb_description pb)
    (if decide (2 ≤ pb_type pb ≤ 4)%Z then pb_type pb else 1%Z) (pb_default_value pb) (pb_enabled pb)
    (pb_rollout_percentage pb)
    (imap (λ i v, mk_pb_variant (print_uuid (fresh_variant_id fresh i)) (pv_value v) (pv_traffic_fraction v))
       (pb_variants pb))
    (match parse_uuid (pb_targeting_rule_id pb) with Some u => print_uuid u | None => [] end) [].

Lemma flag_type_round_trip t :
  str_to_flag_type (flag_type_to_str t) = if decide (2 ≤ t ≤ 4)%Z then t else 1%Z.
Proof.
  unfold flag_type_to_str. destruct (decide (t = 2%Z)) as [->|]; [done|].
  destruct (decide (t = 3%Z)) as [->|]; [done|]. destruct (decide (t = 4%Z)) as [->|]; [done|].
  rewrite decide_False by lia. done.
Qed.

Lemma optional_uuid_ok s message u : optional_uuid parse_uuid s message = Ok u → parse_uuid s = u.
Proof.
  unfold optional_uuid. case_bool_decide as Hs; [subst s; by intros [= <-]|].
  destruct (parse_uuid s); intros H; [by injection H as <-|done].
Qed.

Lemma proto_to_domain_ok now pb f : proto_to_domain parse_uuid now pb = Ok f →
  name (row f) = pb_name pb ∧ description (row f) = pb_description pb ∧
  flag_type (row f) = flag_type_to_str (pb_type pb) ∧ default_value (row f) = pb_default_value pb ∧
  enabled (row f) = pb_enabled pb ∧ rollout_percentage (row f) = pb_rollout_percentage pb ∧
  targeting_rule_id (row f) = parse_uuid (pb_targeting_rule_id pb) ∧
  flag_id (row f) = default 0%Z (parse_uuid (pb_flag_id pb)) ∧
  (∀ fresh id, (λ v, mk_pb_variant (print_uuid (fv_variant_id v)) (fv_value v) (fv_traffic_fraction v)) <$>
     new_variants fresh id 0 (variants f) =
   imap (λ i v, mk_pb_variant (print_uuid (fresh_variant_id fresh i)) (pv_value v) (pv_traffic_fraction v))
     (pb_variants pb)).
Proof.
  unfold proto_to_domain. intros H. apply bind_ok_inv in H as (u & Hu%optional_uuid_ok & H).
  apply bind_ok_inv in H as (rule & Hr%optional_uuid_ok & H). injection H as <-. cbn.
  split_and!; try done; [by rewrite Hu|]. intros fresh id. unfold new_variants.
  rewrite fmap_imap, imap_fmap. apply imap_ext. done.
Qed.

Lemma require_some {A} (x : option A) message a : require x message = Ok a → x = Some a.
Proof. destruct x; intros H; [by injection H as <-|done]. Qed.

Lemma rpc_get_printed id db f : get_flag id db = Ok f →
  rpc_get_flag parse_uuid print_uuid (print_uuid id) db = Ok (domain_to_proto print_uuid f).
Proof.
  intros Hg. unfold rpc_get_flag, required_id. rewrite reject_bind, bool_decide_eq_false_2.
  - rewrite parse_print. cbn [require mbind result_bind mret result_ret]. by rewrite Hg.
  - intros He. pose proof (parse_print id). congruence.
Qed.

(** The answer to a write, from what the write left in the store. *)
Lemma written_proto fresh id pb f r db' :
  proto_to_domain parse_uuid (now fresh) pb = Ok f → flag_id r = id →
  name r = name (row f) → description r = description (row f) → flag_type r = flag_type (row f) →
  default_value r = default_value (row f) → enabled r = enabled (row f) →
  rollout_percentage r = rollout_percentage (row f) → targeting_rule_id r = targeting_rule_id (row f) →
  get_flag id db' = Ok (mk_flag r (new_variants fresh id 0 (variants f))) →
  domain_to_proto print_uuid (mk_flag r (new_variants fresh id 0 (variants f))) = stored_flag fresh id pb ∧
  rpc_get_flag parse_uuid print_uuid (print_uuid id) db' = Ok (stored_flag fresh id pb).
Proof.
  intros Hf Hid H1 H2 H3 H4 H5 H6 H7 Hg.
  apply proto_to_domain_ok in Hf as (E1 & E2 & E3 & E4 & E5 & E6 & E7 & _ & Ev).
  assert (domain_to_proto print_uuid (mk_flag r (new_variants fresh id 0 (variants f))) = stored_flag fresh id pb) as E.
  { unfold domain_to_proto, stored_flag. cbn [row variants].
    by rewrite Ev, Hid, H1, H2, H3, H4, H5, H6, H7, E1, E2, E3, E4, E5, E6, E7, flag_type_round_trip. }
  split; [exact E|]. by rewrite (rpc_get_printed _ _ _ Hg), E.
Qed.

(** What a successful write promises. *)
Definition reads_back (fresh : Fresh) (id : Uuid) (pb : ProtoFlag) (db db' : Db) (out : ProtoFlag) : Prop :=
  out = stored_flag fresh id pb ∧
  rpc_get_flag parse_uuid print_uuid (print_uuid id) db' = Ok out ∧
  ∀ id', id' ≠ id → get_flag id' db' = get_flag id' db.

Lemma create_reads_back fresh pb db db' out : db_ok db →
  rpc_create_flag parse_uuid print_uuid fresh None (Some pb) db = (db', Ok out) →
  reads_back fresh (fresh_id fresh) pb db db' out.
Proof.
  intros Hdb H. unfold rpc_create_flag in H. cbn [require mbind result_bind mret result_ret] in H.
  destruct (validate_flag pb) as [[]| | |]; try (injection H; discriminate). cbn [mbind result_bind] in H.
  destruct (proto_to_domain parse_uuid (now fresh) pb) as [f| | |] eqn:Hf; try (injection H; discriminate).
  unfold create_flag, commit_then_get in H.
  destruct (insert_flag fresh f db) as [db1| | |] eqn:Hi; try (injection H; discriminate).
  injection H as <- H. apply fmap_ok_inv in H as (g & Hg%map_err_ok & ->).
  pose proof (insert_flag_ok _ _ _ _ Hdb Hi) as Hdb1. unfold insert_flag in Hi.
  rewrite reject_bind in Hi. destruct (bool_decide _) eqn:Hnew; [done|]. apply bool_decide_eq_false in Hnew.
  apply bind_ok_inv in Hi as ([] & _ & Hi). apply bind_ok_inv in Hi as (table & Ht & Hi). injection Hi as Hi.
  eapply written_flag in Ht as [Hw Hframe];
    [|exact Hdb|exact Hdb1|reflexivity| |by rewrite Hi|reflexivity].
  - rewrite Hw in Hg. injection Hg as <-. eapply written_proto in Hw as [E1 E2]; [|exact Hf|done..].
    unfold reads_back. by rewrite E1.
  - intros id'. case_decide as He; [subst id'|done]. apply variants_of_absent; [done|]. by apply eq_None_not_Some.
Qed.

Lemma update_reads_back fresh pb db db' out action : db_ok db →
  rpc_update_flag parse_uuid print_uuid fresh None (Some pb) db = (db', Ok (out, action)) →
  ∃ id, parse_uuid (pb_flag_id pb) = Some id ∧ reads_back fresh id pb db db' out.
Proof.
  intros Hdb H. unfold rpc_update_flag in H. cbn [require mbind result_bind mret result_ret] in H.
  rewrite reject_bind in H. destruct (bool_decide _) eqn:Hid; [injection H; discriminate|].
  apply bool_decide_eq_false in Hid.
  destruct (validate_flag pb) as [[]| | |]; try (injection H; discriminate). cbn [mbind result_bind] in H.
  destruct (proto_to_domain parse_uuid (now fresh) pb) as [f| | |] eqn:Hf; try (injection H; discriminate).
  assert (parse_uuid (pb_flag_id pb) = Some (flag_id (row f))) as Hp.
  { unfold proto_to_domain in Hf. apply bind_ok_inv in Hf as (u & Hu & Hf). apply bind_ok_inv in Hf as (rule & _ & Hf).
    injection Hf as <-. unfold optional_uuid in Hu. rewrite bool_decide_eq_false_2 in Hu by done.
    destruct (parse_uuid (pb_flag_id pb)); [by injection Hu as <-|done]. }
  exists (flag_id (row f)). split; [done|]. unfold update_flag, commit_then_get in H.
  destruct (replace_flag fresh f db) as [db1| | |] eqn:Hi; try (injection H; discriminate).
  injection H as <- H. apply fmap_ok_inv in H as (g & Hg%map_err_ok & [= -> ->]).
  pose proof (replace_flag_ok _ _ _ _ Hdb Hi) as Hdb1. unfold replace_flag in Hi.
  destruct (feature_flags db !! _) as [old|] eqn:Hold; [|done].
  destruct (ok_rows db Hdb _ _ Hold) as [Hoid _].
  apply bind_ok_inv in Hi as ([] & _ & Hi). apply bind_ok_inv in Hi as (table & Ht & Hi). injection Hi as Hi.
  eapply written_flag in Ht as [Hw Hframe];
    [|exact Hdb|exact Hdb1|apply sublist_filter| |by rewrite Hi|exact Hoid].
  - rewrite Hw in Hg. injection Hg as <-. eapply written_proto in Hw as [E1 E2]; [|exact Hf|done..].
    unfold reads_back. by rewrite E1.
  - intros id'. apply variants_of_removed.
Qed.

(** What is written is what is read back: the answer to a successful create or update
    is the requested flag under its id, reading the flag returns that answer, and every
    other flag reads as before. *)
Theorem flag_read_back fresh pb db : db_ok db →
  (∀ db' out, rpc_create_flag parse_uuid print_uuid fresh None (Some pb) db = (db', Ok out) →
     reads_back fresh (fresh_id fresh) pb db db' out) ∧
  (∀ db' out action, rpc_update_flag parse_uuid print_uuid fresh None (Some pb) db = (db', Ok (out, action)) →
     ∃ id, parse_uuid (pb_flag_id pb) = Some id ∧ reads_back fresh id pb db db' out).
Proof.
  intros Hdb. split.
  - intros db' out. by apply create_reads_back.
  - intros db' out action. by apply update_reads_back.
Qed.
End codec.

(** ** Listing *)

Definition all_rows (db : Db) : list FlagRow := rows_where (λ _, True) db.

Definition id_lt (r s : FlagRow) : Prop := (flag_id r < flag_id s)%Z.

Lemma filter_everything {A} (l : list A) : filter (λ _, True) l = l.
Proof. induction l as [|x l IH]; [done|]. rewrite filter_cons, decide_True by done. by rewrite IH. Qed.

Lemma row_le_sorted l : StronglySorted row_le (merge_sort row_le l).
Proof.
  apply StronglySorted_merge_sort.
  - intros x y z. unfold row_le. lia.
  - intros x y. unfold row_le. lia.
Qed.

Lemma rows_key db r : db_ok db → r ∈ (map_to_list (feature_flags db)).*2 → feature_flags db !! flag_id r = Some r.
Proof.
  intros Hdb ([i s] & -> & Hin)%list_elem_of_fmap. apply elem_of_map_to_list in Hin.
  destruct (ok_rows db Hdb _ _ Hin) as [E _]. cbn [snd]. by rewrite E.
Qed.

Lemma rows_ids_nodup db : db_ok db → NoDup (flag_id <$> (map_to_list (feature_flags db)).*2).
Proof.
  intros Hdb. replace (flag_id <$> (map_to_list (feature_flags db)).*2) with (map_to_list (feature_flags db)).*1.
  { apply NoDup_fst_map_to_list. }
  rewrite <- list_fmap_compose. apply list_fmap_ext. intros k [i s] Hk. apply list_elem_of_lookup_2 in Hk.
  apply elem_of_map_to_list in Hk. destruct (ok_rows db Hdb _ _ Hk) as [E _]. by rewrite <- E.
Qed.

Lemma strictly_sorted l : StronglySorted row_le l → NoDup (flag_id <$> l) → StronglySorted id_lt l.
Proof.
  induction 1 as [|r l Hl IH Hr]; intros Hnd; [constructor|]. rewrite fmap_cons in Hnd.
  apply NoDup_cons in Hnd as [Hnin Hnd]. constructor; [by apply IH|].
  apply Forall_forall. intros s Hs. rewrite Forall_forall in Hr. specialize (Hr s Hs).
  assert (flag_id r ≠ flag_id s); [|unfold row_le in Hr; unfold id_lt; lia].
  intros E. apply Hnin. rewrite E. by apply list_elem_of_fmap_2.
Qed.

Lemma all_rows_sorted db : db_ok db → StronglySorted id_lt (all_rows db).
Proof.
  intros Hdb. apply strictly_sorted; [apply row_le_sorted|]. unfold all_rows, rows_where.
  rewrite merge_sort_Permutation, filter_everything. by apply rows_ids_nodup.
Qed.

Lemma rows_where_filter P `{∀ r, Decision (P r)} db : db_ok db → rows_where P db = filter P (all_rows db).
Proof.
  intros Hdb. apply (StronglySorted_unique_strong row_le).
  - intros x y Hx Hy H1 H2. unfold rows_where in Hx. rewrite merge_sort_Permutation in Hx.
    apply list_elem_of_filter in Hx as [_ Hx]. apply list_elem_of_filter in Hy as [_ Hy].
    unfold all_rows, rows_where in Hy. rewrite merge_sort_Permutation in Hy. apply list_elem_of_filter in Hy as [_ Hy].
    apply rows_key in Hx, Hy; try done. unfold row_le in *. assert (flag_id x = flag_id y) as E by lia. congruence.
  - apply row_le_sorted.
  - apply sorted_filter, row_le_sorted.
  - unfold all_rows, rows_where. by rewrite !merge_sort_Permutation, filter_everything.
Qed.

(** The rows past a cursor are the ones listed after it. *)
Lemma rows_after pre r post : StronglySorted id_lt (pre ++ r :: post) →
  filter (λ s, flag_id r < flag_id s)%Z (pre ++ r :: post) = post.
Proof.
  intros Hs. apply StronglySorted_app in Hs as (Hpre & _ & Hr). apply StronglySorted_inv in Hr as [_ Hr].
  rewrite filter_app, filter_cons, decide_False by lia.
  assert (filter (λ s, flag_id r < flag_id s)%Z pre = []) as ->.
  { destruct (filter _ pre) as [|x l] eqn:E; [done|].
    assert (x ∈ filter (λ s, flag_id r < flag_id s)%Z pre) as [Hx Hin]%list_elem_of_filter by (rewrite E; by left).
    specialize (Hpre x r Hin ltac:(by left)). unfold id_lt in Hpre. lia. }
  clear Hpre. induction post as [|x post IH]; [done|]. apply Forall_cons in Hr as [Hx Hr]. unfold id_lt in Hx.
  cbn [app]. rewrite filter_cons, decide_True by done. f_equal. by apply IH.
Qed.

Section listing.
Context (parse_uuid : str → option Uuid) (print_uuid : Uuid → str).
Context (b64_decode : str → option str) (b64_encode : str → str).
(** What the [uuid] and [base64] crates document. *)
Context (parse_print : ∀ u, parse_uuid (print_uuid u) = Some u) (parse_empty : parse_uuid [] = None).
Context (print_ascii : ∀ u, valid_utf8 (print_uuid u) = true).
Context (decode_encode : ∀ s, b64_decode (b64_encode s) = Some s) (decode_empty : b64_decode [] = Some []).

Notation list_flags := (list_flags parse_uuid print_uuid b64_decode b64_encode).

Definition page_limit (page_size : Z) : Z :=
  if ((page_size <=? 0) || (100 <? page_size))%Z then 50%Z else page_size.

Lemma page_limit_pos page_size : (1 ≤ page_limit page_size)%Z.
Proof. unfold page_limit. destruct ((page_size <=? 0) || (100 <? page_size))%Z eqn:E; lia. Qed.

(** A client that follows the tokens. *)
Fixpoint all_pages (fuel : nat) (page_size : Z) (token : str) (db : Db) : option (list (list Flag)) :=
  match fuel with
  | O => None
  | S fuel =>
      match list_flags page_size token db with
      | Ok (page, []) => Some [page]
      | Ok (page, token) => cons page <$> all_pages fuel page_size token db
      | _ => None
      end
  end.

Lemma token_nonempty u : b64_encode (print_uuid u) ≠ [].
Proof.
  intros E. pose proof (decode_encode (print_uuid u)) as H. rewrite E, decode_empty in H. injection H as H.
  pose proof (parse_print u). congruence.
Qed.

(** One page from the rows the token selects. *)
Lemma list_flags_page page_size token db rows :
  match token with
  | [] => rows = all_rows db
  | _ => ∃ c, token = b64_encode (print_uuid c) ∧ rows = rows_where (λ r, c < flag_id r)%Z db
  end →
  let n := Z.to_nat (page_limit page_size) in
  list_flags page_size token db =
  Ok (with_variants db <$> take n rows,
      if decide (n < length rows) then
        match last (take n rows) with Some r => b64_encode (print_uuid (flag_id r)) | None => [] end
      else []).
Proof.
  intros Ht n. unfold Flags.list_flags. fold (page_limit page_size).
  pose proof (page_limit_pos page_size) as Hn.
  assert (∀ r : list FlagRow, take n (take (Z.to_nat (page_limit page_size + 1)) r) = take n r) as Htake.
  { intros r. rewrite take_take. f_equal. lia. }
  assert ((match token with
           | [] => mret (rows_where (λ _, True) db)
           | _ => match b64_decode token with
                  | Some s => if valid_utf8 s then match parse_uuid s with
                                | Some cursor => mret (rows_where (λ r, cursor < flag_id r)%Z db)
                                | None => Err InvalidPageToken end else Err InvalidPageToken
                  | None => Err InvalidPageToken
                  end
           end) = Ok (E:=StoreError) rows) as ->.
  { destruct token as [|c0 token0]; [by subst rows|]. destruct Ht as (c & -> & ->).
    by rewrite decode_encode, print_ascii, parse_print. }
  cbn [mbind result_bind mret result_ret]. rewrite Htake. do 2 f_equal.
  assert (Z.of_nat n = page_limit page_size) as Hzn by (unfold n; lia). clearbody n.
  rewrite length_take. case_decide as Hlt.
  - by rewrite (proj2 (Z.ltb_lt _ _)) by lia.
  - by rewrite (proj2 (Z.ltb_ge _ _)) by lia.
Qed.

Lemma all_pages_from page_size db rows : db_ok db → ∀ fuel token pre,
  all_rows db = pre ++ rows → length rows < fuel →
  match token with
  | [] => pre = []
  | _ => ∃ c, token = b64_encode (print_uuid (flag_id c)) ∧ last pre = Some c
  end →
  ∃ pages, all_pages fuel page_size token db = Some pages ∧ concat pages = with_variants db <$> rows ∧
    Forall (λ page, Z.of_nat (length page) ≤ page_limit page_size)%Z pages.
Proof.
  intros Hdb. intros fuel. revert rows. induction fuel as [|fuel IH]; intros rows token pre Hall Hfuel Ht; [lia|].
  cbn [all_pages]. rewrite (list_flags_page page_size token db rows).
  2:{ destruct token as [|c0 token0]; [by rewrite Hall, Ht|]. destruct Ht as (c & -> & Hc). exists (flag_id c).
      split; [done|]. rewrite rows_where_filter by done. apply last_Some in Hc as [pre0 ->].
      rewrite Hall, <- app_assoc. symmetry. apply rows_after. pose proof (all_rows_sorted db Hdb) as Hs.
      by rewrite Hall, <- app_assoc in Hs. }
  set (n := Z.to_nat (page_limit page_size)).
  assert (Z.of_nat n = page_limit page_size ∧ 0 < n) as [Hn Hn0].
  { pose proof (page_limit_pos page_size). unfold n. lia. }
  assert (Z.of_nat (length (with_variants db <$> take n rows)) ≤ page_limit page_size)%Z as Hlen.
  { rewrite length_fmap, length_take. lia. }
  case_decide as Hlt.
  - destruct (last (take n rows)) as [r|] eqn:Hr.
    2:{ apply last_None in Hr. apply (f_equal length) in Hr. rewrite length_take in Hr. cbn in Hr. lia. }
    destruct (b64_encode (print_uuid (flag_id r))) as [|c0 token'] eqn:Henc; [by apply token_nonempty in Henc|].
    destruct (IH (drop n rows) (c0 :: token') (pre ++ take n rows)) as (pages & -> & Hc & Hf).
    + by rewrite <- app_assoc, take_drop.
    + rewrite length_drop. lia.
    + exists r. split; [done|]. rewrite last_app, Hr. done.
    + exists ((with_variants db <$> take n rows) :: pages). split; [done|]. split; [|by constructor].
      cbn [concat]. by rewrite Hc, <- fmap_app, take_drop.
  - eexists. split; [reflexivity|]. split; [|by constructor]. cbn [concat].
    rewrite app_nil_r, take_ge; [done|lia].
Qed.

(** Listing is complete: a client that follows the page tokens from the empty one gets
    every flag once, in the order of their ids, on pages no longer than the page size (50
    when the request has none), and the walk ends. *)
Theorem list_flags_complete page_size db : db_ok db →
  ∃ pages, all_pages (S (size (feature_flags db))) page_size [] db = Some pages ∧
    concat pages = with_variants db <$> all_rows db ∧
    Forall (λ page, Z.of_nat (length page) ≤ page_limit page_size)%Z pages ∧
    StronglySorted id_lt (row <$> concat pages) ∧
    ∀ id f, get_flag id db = Ok f ↔ f ∈ concat pages ∧ flag_id (row f) = id.
Proof.
  intros Hdb. destruct (all_pages_from page_size db (all_rows db) Hdb (S (size (feature_flags db))) [] [])
    as (pages & Hp & Hc & Hf); [done| |done|].
  { unfold all_rows, rows_where. rewrite (Permutation_length (merge_sort_Permutation _ _)), filter_everything.
    rewrite length_fmap, length_map_to_list. lia. }
  exists pages. rewrite Hc. split_and!; [done|done|done| |].
  - rewrite <- list_fmap_compose. erewrite list_fmap_ext; [rewrite list_fmap_id; by apply all_rows_sorted|done].
  - intros id f. unfold get_flag. split.
    + destruct (feature_flags db !! id) as [r|] eqn:Hr; [|done]. intros [= <-]. split; [|by apply (ok_rows db Hdb)].
      apply list_elem_of_fmap_2. unfold all_rows, rows_where. rewrite merge_sort_Permutation, filter_everything.
      apply list_elem_of_fmap. exists (id, r). split; [done|]. by apply elem_of_map_to_list.
    + intros [(r & -> & Hr)%list_elem_of_fmap <-]. unfold all_rows, rows_where in Hr.
      rewrite merge_sort_Permutation, filter_everything in Hr. apply rows_key in Hr; [|done].
      cbn [with_variants row]. by rewrite Hr.
Qed.
End listing.

(** ** The reconciler *)

Lemma get_promoted_ids db : db_ok db → NoDup ((λ f, flag_id (row f)) <$> get_promoted_flags db).
Proof.
  intros Hdb. unfold get_promoted_flags. rewrite merge_sort_Permutation, <- list_fmap_compose.
  eapply sublist_NoDup; [by apply (rows_ids_nodup db)|].
  change (λ r, flag_id (row (with_variants db r))) with flag_id.
  apply (fmap_sublist flag_id). apply sublist_filter.
Qed.

Lemma elem_of_pending db id e : db_ok db →
  (id, e) ∈ pending db ↔
  ∃ r, feature_flags db !! id = Some r ∧ resolved_at r = None ∧ promoted_experiment_id r = Some e.
Proof.
  intros Hdb. unfold pending. rewrite list_elem_of_omap. split.
  - intros (f & Hf & Hp). unfold get_promoted_flags in Hf. rewrite merge_sort_Permutation in Hf.
    apply list_elem_of_fmap in Hf as (r & -> & [_ Hr]%list_elem_of_filter). apply rows_key in Hr; [|done].
    cbn [with_variants row] in Hp. exists r. repeat case_match; naive_solver.
  - intros (r & Hr & Hn & He). exists (with_variants db r). cbn [with_variants row].
    destruct (ok_rows db Hdb _ _ Hr) as [Hid _]. rewrite Hn, He, Hid. split; [|done].
    unfold get_promoted_flags. rewrite merge_sort_Permutation. apply list_elem_of_fmap_2, list_elem_of_filter.
    split; [by rewrite He|]. apply list_elem_of_fmap. exists (id, r). split; [done|]. by apply elem_of_map_to_list.
Qed.

Lemma pending_ids db : db_ok db → NoDup (pending db).*1.
Proof.
  intros Hdb. pose proof (get_promoted_ids db Hdb) as Hnd. unfold pending.
  induction (get_promoted_flags db) as [|f l IH]; [constructor|]. rewrite fmap_cons in Hnd.
  apply NoDup_cons in Hnd as [Hn Hnd]. cbn [omap list_omap].
  destruct (resolved_at (row f)); [by apply IH|]. destruct (promoted_experiment_id (row f)); [|by apply IH].
  rewrite fmap_cons. constructor; [|by apply IH]. cbn [fst]. intros ([i e] & Hi & Hin)%list_elem_of_fmap.
  cbn [fst] in Hi. apply list_elem_of_omap in Hin as (g & Hg & Hge). apply Hn. apply list_elem_of_fmap.
  exists g. split; [|done]. repeat case_match; naive_solver.
Qed.

(** The promoted experiment of a row has concluded. *)
Definition concluded (m5 : Uuid → M5Answer) (r : FlagRow) : bool :=
  match resolved_at r, promoted_experiment_id r with
  | None, Some e => match m5 e with Some s => is_terminal s | None => false end
  | _, _ => false
  end.

Section pass.
Context (at_ : Uuid → Z) (action : ResolutionAction) (m5 : Uuid → M5Answer) (fault : Uuid → bool).

Definition reconciled (id : Uuid) (r : FlagRow) : FlagRow :=
  if concluded m5 r && negb (fault id) then resolve_row (at_ id) action r else r.

Lemma reconcile_flag_other id' ans f id db :
  id ≠ id' → feature_flags (reconcile_flag (at_ id') action id' ans f db) !! id = feature_flags db !! id.
Proof.
  intros Hne. unfold reconcile_flag, resolve_flag, update_where. repeat case_match; simplify_eq/=; try done.
  by rewrite lookup_insert_ne.
Qed.

Lemma reconcile_flag_same id e db r :
  feature_flags db !! id = Some r → resolved_at r = None → promoted_experiment_id r = Some e →
  feature_flags (reconcile_flag (at_ id) action id (m5 e) (fault id) db) !! id = Some (reconciled id r).
Proof.
  intros Hr Hn He. unfold reconcile_flag, reconciled, concluded. rewrite Hn, He.
  destruct (m5 e) as [s|]; [|done]. destruct (is_terminal s); [|done]. destruct (fault id); [done|].
  unfold resolve_flag, update_where. rewrite Hr. cbn [feature_flags]. by rewrite lookup_insert_eq.
Qed.

Lemma reconcile_flag_variants id ans f db :
  flag_variants (reconcile_flag (at_ id) action id ans f db) = flag_variants db ∧
  targeting_rules (reconcile_flag (at_ id) action id ans f db) = targeting_rules db.
Proof. unfold reconcile_flag, resolve_flag, update_where. by repeat case_match; simplify_eq/=. Qed.

Lemma reconcile_fold l : ∀ db, NoDup l.*1 →
  (∀ id e, (id, e) ∈ l → ∃ r, feature_flags db !! id = Some r ∧ resolved_at r = None ∧ promoted_experiment_id r = Some e) →
  let db' := foldl (λ db ue, reconcile_flag (at_ ue.1) action ue.1 (m5 ue.2) (fault ue.1) db) db l in
  (∀ id, feature_flags db' !! id =
     if decide (id ∈ l.*1) then reconciled id <$> feature_flags db !! id else feature_flags db !! id) ∧
  flag_variants db' = flag_variants db ∧ targeting_rules db' = targeting_rules db.
Proof.
  induction l as [|[i e] l IH]; intros db Hnd Hl; cbn [foldl].
  { split; [|done]. intros id. by rewrite decide_False by (cbn; set_solver). }
  cbn [fmap list_fmap fst] in Hnd. apply NoDup_cons in Hnd as [Hi Hnd].
  destruct (Hl i e ltac:(by left)) as (r & Hr & Hn & He). cbn [fst snd].
  set (db1 := reconcile_flag (at_ i) action i (m5 e) (fault i) db).
  assert (∀ id, id ≠ i → feature_flags db1 !! id = feature_flags db !! id) as Hother
    by (intros; by apply reconcile_flag_other).
  destruct (IH db1 Hnd) as (IHf & IHv & IHr).
  { intros j f Hj. destruct (Hl j f ltac:(by right)) as (s & Hs & ? & ?). exists s. split; [|done].
    rewrite Hother; [done|]. intros ->. apply Hi. apply list_elem_of_fmap. by exists (i, f). }
  destruct (reconcile_flag_variants i (m5 e) (fault i) db) as [Hv Hru].
  split; [|by rewrite IHv, IHr]. intros id. rewrite IHf. destruct (decide (id = i)) as [->|Hne].
  - rewrite decide_False by done. rewrite decide_True by (cbn; by left).
    rewrite Hr. by apply reconcile_flag_same.
  - rewrite Hother by done. destruct (decide (id ∈ l.*1)).
    + by rewrite decide_True by (cbn; by right).
    + by rewrite decide_False by (cbn; set_solver).
Qed.

Lemma reconcile_rows db id : db_ok db →
  feature_flags (reconcile_once at_ action m5 fault db) !! id = reconciled id <$> feature_flags db !! id.
Proof.
  intros Hdb. destruct (reconcile_fold (pending db) db (pending_ids db Hdb)) as (Hf & _).
  { intros i e. by apply elem_of_pending. }
  unfold reconcile_once. rewrite Hf. case_decide as Hin; [done|].
  destruct (feature_flags db !! id) as [r|] eqn:Hr; [|done]. cbn [fmap option_fmap option_map]. f_equal.
  unfold reconciled, concluded. destruct (resolved_at r) eqn:Hn; [done|].
  destruct (promoted_experiment_id r) as [e|] eqn:He; [|done].
  exfalso. apply Hin. apply list_elem_of_fmap. exists (id, e). split; [done|].
  apply elem_of_pending; [done|]. by exists r.
Qed.
End pass.

(** A pass of the reconciler resolves, with the configured action, exactly the promoted
    and unresolved flags whose experiment has concluded, touches nothing else, and without
    database failures leaves no such flag. *)
Theorem reconcile_pass at_ action m5 fault db : db_ok db →
  (∀ id, feature_flags (reconcile_once at_ action m5 fault db) !! id =
         reconciled at_ action m5 fault id <$> feature_flags db !! id) ∧
  flag_variants (reconcile_once at_ action m5 fault db) = flag_variants db ∧
  (∀ id r, feature_flags (reconcile_once at_ action m5 fault db) !! id = Some r →
     fault id = false → concluded m5 r = false) ∧
  db_ok (reconcile_once at_ action m5 fault db).
Proof.
  intros Hdb. split_and!.
  - intros id. by apply reconcile_rows.
  - unfold reconcile_once. by apply reconcile_fold; [apply pending_ids|intros i e; apply elem_of_pending].
  - intros id r Hr Hf. rewrite reconcile_rows in Hr by done.
    destruct (feature_flags db !! id) as [r0|]; [|done]. injection Hr as <-. unfold reconciled. rewrite Hf.
    cbn [negb]. rewrite andb_true_r. by destruct (concluded m5 r0) eqn:Hc.
  - unfold reconcile_once. set (step := λ db ue, _). generalize (pending db).
    assert (∀ l db, db_ok db → db_ok (foldl step db l)) as Hall; [|by auto].
    intros l. induction l as [|ue l IH]; intros d Hd; [done|]. cbn [foldl]. apply IH.
    unfold step, reconcile_flag. repeat case_match; try done. by eapply update_where_ok; [|apply resolve_row_ok|].
Qed.

(** ** What the service does not do *)

(** A resolved flag that is promoted again is never reconciled: the link does not clear
    [resolved_at]. *)
Lemma relinked_never_resolved at_ id e db db' r t : db_ok db →
  feature_flags db !! id = Some r → resolved_at r = Some t →
  link_flag_to_experiment at_ id e db = Ok db' → ∀ e', (id, e') ∉ pending db'.
Proof.
  intros Hdb Hr Ht Hl e' Hin. assert (db_ok db') as Hdb'.
  { eapply update_where_ok; [exact Hdb| |exact Hl]. by intros s (? & ? & ? & ?). }
  apply elem_of_pending in Hin as (s & Hs & Hn & _); [|done].
  unfold link_flag_to_experiment, update_where in Hl. rewrite Hr in Hl. injection Hl as <-.
  cbn [feature_flags] in Hs. rewrite lookup_insert_eq in Hs. injection Hs as <-. by rewrite Ht in Hn.
Qed.

(** A lifecycle message is acted upon even when the flag is resolved: delivered again after
    an operator rolled the flag back, it turns it on for everyone. *)
Lemma replayed_message_reenables parse_uuid text state id e db r at_ :
  lifecycle_target parse_uuid text state db = Some (id, e) → feature_flags db !! id = Some r →
  ∃ r', feature_flags (reconcile_flag at_ RolloutFull id (Some 5%Z) false db) !! id = Some r' ∧
    enabled r' = true ∧ rollout_percentage r' = f64_of_Z 1.
Proof.
  intros _ Hr. unfold reconcile_flag. change (is_terminal 5) with true. cbv iota.
  unfold resolve_flag, update_where. rewrite Hr. cbn [feature_flags]. rewrite lookup_insert_eq.
  by eexists.
Qed.

(** A type the enumeration does not know is accepted and stored as BOOLEAN, whatever the
    default value is. *)
Lemma unknown_type_stored_as_boolean parse_uuid now pb :
  (4 < pb_type pb)%Z → pb_default_value pb = lit "banana" → pb_audience_rule_id pb = [] →
  trim_is_empty (pb_name pb) = false → pb_rollout_percentage pb = f64_zero → pb_variants pb = [] →
  pb_flag_id pb = [] → pb_targeting_rule_id pb = [] →
  validate_flag pb = Ok tt ∧
  ∃ f, proto_to_domain parse_uuid now pb = Ok f ∧ flag_type (row f) = lit "BOOLEAN" ∧
    default_value (row f) = lit "banana".
Proof.
  intros Ht Hd Ha Hn Hr Hv Hi Hru. split.
  - unfold validate_flag. rewrite Ha, Hn, Hr, Hv. rewrite (bool_decide_eq_false_2 (pb_type pb = 0%Z)) by lia.
    rewrite (bool_decide_eq_false_2 (pb_type pb = 1%Z)) by lia. reflexivity.
  - unfold proto_to_domain, optional_uuid. rewrite Hi, Hru. cbn. eexists. split; [reflexivity|]. cbn.
    split; [|done]. unfold flag_type_to_str. by rewrite !decide_False by lia.
Qed.

(** Half of the traffic, two variants of a half each: the rollout and the choice of variant
    use the same bucket, so no user ever sees the second variant. *)
Definition half : f64 := f64_ratio 1 2.

Definition half_rolled_out (salt : str) (v w : FlagVariant) : Flag :=
  mk_flag (mk_flag_row 1%Z (lit "f") [] (lit "STRING") (lit "off") true half salt None 0%Z 0%Z None None None) [v; w].

Lemma half_bucket b : (0 ≤ b < 5000)%Z → f64_lt (f64_div (f64_of_u32 b) (f64_of_Z ROLLOUT_BUCKETS)) (f64_add f64_zero half) = true.
Proof.
  intros Hb. assert (forallb (λ k, f64_lt (f64_div (f64_of_u32 (Z.of_nat k)) (f64_of_Z ROLLOUT_BUCKETS)) (f64_add f64_zero half))
    (seq 0 5000) = true) as H by (vm_compute; reflexivity).
  rewrite forallb_forall in H. specialize (H (Z.to_nat b)). rewrite Z2Nat.id in H by lia. apply H.
  apply in_seq. lia.
Qed.

Lemma partial_rollout_starves {E : Type} salt v w user :
  fv_traffic_fraction v = half → fv_traffic_fraction w = half → fv_variant_id v ≠ fv_variant_id w →
  ∀ value, evaluate_flag (E:=E) (half_rolled_out salt v w) user ≠ Ok (value, Some (fv_variant_id w)).
Proof.
  intros Hv Hw Hne value. destruct (bucket_ok (E:=E) user salt) as (b & Hb & Hr). unfold evaluate_flag.
  cbn [half_rolled_out row enabled Flags.salt negb]. rewrite Hb. cbn [mbind result_bind].
  change (threshold (half_rolled_out salt v w)) with 5000%Z.
  destruct (5000 <=? b)%Z eqn:Ht; [done|]. cbn [half_rolled_out variants pick_variant].
  rewrite Hv, half_bucket by lia. intros H. injection H. congruence.
Qed.

(** ** Witnesses *)

Lemma print_id_ascii u : valid_utf8 (print_id u) = true.
Proof.
  assert (∀ p, valid_utf8 (print_bits p) = true) as Hp.
  { induction p as [p IH|p IH|]; [exact IH..|done]. }
  destruct u as [|p|p]; [done|apply Hp..].
Qed.

Definition sample_request : ProtoFlag :=
  mk_pb_flag [] (lit "dark-mode") (lit "") 2%Z (lit "off") true half
    [mk_pb_variant [] (lit "a") half; mk_pb_variant [] (lit "b") half] [] [].

Definition sample_fresh : Fresh := mk_fresh 7%Z (lit "salt") (λ i, 100 + Z.of_nat i)%Z 1000%Z.

Definition empty_db : Db := mk_db ∅ [] ∅.

Lemma empty_db_ok : db_ok empty_db.
Proof. constructor; first [done|apply map_Forall_empty|constructor]. Qed.

Definition sample_db : Db :=
  (rpc_create_flag parse_id print_id sample_fresh None (Some sample_request) empty_db).1.

Lemma sample_db_ok : db_ok sample_db.
Proof. apply (flag_step_ok parse_id print_id [] (OpCreate sample_fresh None (Some sample_request)) empty_db), empty_db_ok. Qed.

Lemma flag_read_back_witness :
  ∃ db' out, rpc_create_flag parse_id print_id sample_fresh None (Some sample_request) empty_db = (db', Ok out) ∧
    rpc_get_flag parse_id print_id (print_id 7%Z) db' = Ok out.
Proof.
  destruct (flag_read_back parse_id print_id parse_print_id eq_refl sample_fresh sample_request empty_db empty_db_ok)
    as [Hc _].
  destruct (rpc_create_flag parse_id print_id sample_fresh None (Some sample_request) empty_db) as [db' r] eqn:E.
  vm_compute in E. injection E as <- <-.
  eexists _, _. split; [reflexivity|]. by destruct (Hc _ _ eq_refl) as (_ & H & _).
Defined.

Lemma list_flags_complete_witness :
  ∃ pages, all_pages parse_id print_id (λ s, match s with [] => Some [] | _ :: s => Some s end) (cons "b"%char)
      (S (size (feature_flags sample_db))) 0%Z [] sample_db = Some pages ∧
    length (concat pages) = 1%nat.
Proof.
  destruct (list_flags_complete parse_id print_id (λ s, match s with [] => Some [] | _ :: s => Some s end) (cons "b"%char)
    parse_print_id eq_refl print_id_ascii (λ s, eq_refl) eq_refl 0%Z sample_db sample_db_ok) as (pages & Hp & Hc & _).
  exists pages. split; [exact Hp|]. rewrite Hc. vm_compute. reflexivity.
Defined.

Lemma reconcile_pass_witness :
  db_ok (reconcile_once (λ _, 5%Z) Rollback (λ _, Some 5%Z) (λ _, false)
    match link_flag_to_experiment 2000%Z 7%Z 42%Z sample_db with Ok db => db | _ => sample_db end).
Proof.
  assert (db_ok match link_flag_to_experiment 2000%Z 7%Z 42%Z sample_db with Ok db => db | _ => sample_db end) as H.
  { destruct (link_flag_to_experiment 2000%Z 7%Z 42%Z sample_db) eqn:E; try apply sample_db_ok.
    eapply update_where_ok; [apply sample_db_ok| |exact E]. by intros s (? & ? & ? & ?). }
  by destruct (reconcile_pass (λ _, 5%Z) Rollback (λ _, Some 5%Z) (λ _, false) _ H) as (_ & _ & _ & Hok).
Defined.

Definition ramping (r : f64) : Flag := with_rollout r (half_rolled_out (lit "salt") (mk_flag_variant 1%Z 1%Z (lit "a") half 0%Z) (mk_flag_variant 2%Z 1%Z (lit "b") half 1%Z)).

Lemma fraction_ratio : fraction half ∧ fraction (f64_of_Z 1).
Proof. repeat split; vm_compute; reflexivity. Qed.

