(* ===== verification/Experiments.v ===== *)
(** Experiment creation and the STARTING gate ([experimentation-management/src/grpc.rs]
    create_experiment and the row-to-message conversion, [store.rs] create_experiment,
    [validators/mod.rs] and [validators/experiment_types.rs]). *)
From Stdlib Require Import Ascii String SpecFloat.
From stdpp Require Import sorting.
From S2P Require Import Prelude Bytes F64 Validation MetricStore.

Definition Uuid : Type := Z.

(** ** Messages *)

Record MetaVariantObjective := mk_objective { ob_variant_id : str; reward_weights : list (str * f64) }.
Record MetaExperimentConfig := mk_meta
  { base_algorithm : Z; variant_objectives : list MetaVariantObjective; outcome_metric_ids : list str }.
Record SwitchbackConfig := mk_switchback
  { block_duration : option Z; planned_cycles : Z; cluster_attribute : str }.
Record QuasiExperimentConfig := mk_quasi
  { treated_unit_id : str; donor_unit_ids : list str; pre_treatment_start : option Timestamp;
    treatment_start : option Timestamp; outcome_metric_id : str; quasi_method : Z }.
Record EquivalenceTestConfig := mk_equivalence { delta : f64; delta_relative : option f64; alpha : f64 }.
Record SequentialTestConfig := mk_sequential { seq_method : Z; planned_looks : Z; overall_alpha : f64 }.
Record InterleavingConfig := mk_interleaving { il_method : Z; algorithm_ids : list str; max_list_size : Z }.
Record SessionConfig := mk_session_config
  { session_id_attribute : str; allow_cross_session_variation : bool; min_sessions_per_user : Z }.
Record BanditConfig := mk_bandit { algorithm : Z; reward_metric_id : str; min_exploration_fraction : f64 }.
Record AdaptiveSampleSizeConfig := mk_adaptive
  { interim_fraction : f64; promising_zone_lower : f64; favorable_zone_lower : f64; max_extension_factor : f64 }.

Record Variant := mk_variant
  { variant_id : str; variant_name : str; traffic_fraction : f64; is_control : bool; payload_json : str }.

Record Experiment := mk_experiment
  { experiment_id : str; exp_name : str; exp_description : str; owner_email : str; exp_type : Z; exp_state : Z;
    exp_variants : list Variant; layer_id : str; primary_metric_id : str; secondary_metric_ids : list str;
    guardrail_action : Z; sequential_test_config : option SequentialTestConfig; exp_targeting_rule_id : str;
    interleaving_config : option InterleavingConfig; session_config : option SessionConfig;
    surrogate_model_id : str; bandit_config : option BanditConfig; is_cumulative_holdout : bool; hash_salt : str;
    meta_experiment_config : option MetaExperimentConfig; switchback_config : option SwitchbackConfig;
    quasi_experiment_config : option QuasiExperimentConfig;
    adaptive_sample_size_config : option AdaptiveSampleSizeConfig;
    equivalence_test : option EquivalenceTestConfig; audience_rule_id : str }.

(** ** The STARTING validators *)

Inductive StartingError :=
| MetaRequired | MetaAlgorithm | MetaOutcome | MetaCount (objectives variants : nat)
| MetaNoWeights (variant : str) | MetaNonFinite (variant key : str) | MetaSum (variant : str) (sum : f64)
| SwitchbackRequired | SwitchbackCycles (got : Z) | SwitchbackBlock (got : Z)
| QuasiRequired | QuasiTreated | QuasiDonors (got : nat) | QuasiOutcome | QuasiOrder | QuasiPreStart | QuasiStart
| EquivalenceDelta (got : f64) | EquivalenceAlpha (got : f64) | EquivalenceRelative (got : f64)
| EquivalenceMetric (got : MetricType).

Abbreviation starting := (result StartingError).

(** [BanditAlgorithm::try_from] knows 0 to 6, and 0 is UNSPECIFIED. *)
Definition known_algorithm (n : Z) : bool := (1 <=? n)%Z && (n <=? 6)%Z.

Definition sum_weights (l : list f64) : f64 := fold_left f64_add l f64_zero.

Fixpoint check_weights_finite (variant : str) (ws : list (str * f64)) : starting unit :=
  match ws with
  | [] => mret tt
  | (key, w) :: ws =>
      _ ← reject_if (negb (f64_is_finite w)) (MetaNonFinite variant key);
      check_weights_finite variant ws
  end.

(** [(sum - 1.0).abs() > 1e-6]. *)
Definition off_one (sum : f64) : bool :=
  f64_gt (f64_abs (f64_sub sum (f64_of_Z 1))) (f64_ratio 1 1000000).

Fixpoint check_objectives (os : list MetaVariantObjective) : starting unit :=
  match os with
  | [] => mret tt
  | o :: os =>
      _ ← reject_if (bool_decide (reward_weights o = [])) (MetaNoWeights (ob_variant_id o));
      _ ← check_weights_finite (ob_variant_id o) (reward_weights o);
      let sum := sum_weights (reward_weights o).*2 in
      _ ← reject_if (off_one sum) (MetaSum (ob_variant_id o) sum);
      check_objectives os
  end.

Definition validate_meta_config (cfg : MetaExperimentConfig) (variant_ids : list str) : starting unit :=
  _ ← reject_if (negb (known_algorithm (base_algorithm cfg))) MetaAlgorithm;
  _ ← reject_if (bool_decide (outcome_metric_ids cfg = [])) MetaOutcome;
  _ ← reject_if (bool_decide (length (variant_objectives cfg) ≠ length variant_ids))
        (MetaCount (length (variant_objectives cfg)) (length variant_ids));
  check_objectives (variant_objectives cfg).

Definition required {A} (x : option A) (e : StartingError) : starting A :=
  match x with Some a => mret a | None => Err e end.

Definition validate_meta (exp : Experiment) : starting unit :=
  cfg ← required (meta_experiment_config exp) MetaRequired;
  validate_meta_config cfg (variant_id <$> exp_variants exp).

Definition validate_switchback_config (cfg : SwitchbackConfig) : starting unit :=
  _ ← reject_if (planned_cycles cfg <? 4)%Z (SwitchbackCycles (planned_cycles cfg));
  let block_secs := default 0%Z (block_duration cfg) in
  reject_if (block_secs <? 3600)%Z (SwitchbackBlock block_secs).

Definition validate_switchback (exp : Experiment) : starting unit :=
  cfg ← required (switchback_config exp) SwitchbackRequired;
  validate_switchback_config cfg.

(** [seconds * 1_000_000_000 + nanos] on [i64], which wraps in release builds. *)
Definition i64_wrap (x : Z) : Z := (x + 2 ^ 63) mod 2 ^ 64 - 2 ^ 63.

Definition wrapped_nanos (t : Timestamp) : Z := i64_wrap (i64_wrap (seconds t * 10 ^ 9) + nanos t).

Definition validate_quasi_config (cfg : QuasiExperimentConfig) : starting unit :=
  _ ← reject_if (trim_is_empty (treated_unit_id cfg)) QuasiTreated;
  _ ← reject_if (length (donor_unit_ids cfg) <? 2) (QuasiDonors (length (donor_unit_ids cfg)));
  _ ← reject_if (trim_is_empty (outcome_metric_id cfg)) QuasiOutcome;
  match pre_treatment_start cfg, treatment_start cfg with
  | Some pre, Some treat => reject_if (wrapped_nanos treat <=? wrapped_nanos pre)%Z QuasiOrder
  | None, _ => Err QuasiPreStart
  | _, None => Err QuasiStart
  end.

Definition validate_quasi (exp : Experiment) : starting unit :=
  cfg ← required (quasi_experiment_config exp) QuasiRequired;
  validate_quasi_config cfg.

Definition validate_equivalence_test_config (cfg : EquivalenceTestConfig) (primary : option MetricType) :
    starting unit :=
  _ ← reject_if (negb (f64_is_finite (delta cfg) && f64_gt (delta cfg) f64_zero)) (EquivalenceDelta (delta cfg));
  _ ← reject_if (negb (f64_eq (alpha cfg) f64_zero) &&
                 negb (f64_gt (alpha cfg) f64_zero && f64_lt (alpha cfg) (f64_ratio 1 2)))
        (EquivalenceAlpha (alpha cfg));
  match delta_relative cfg with
  | Some rel =>
      _ ← reject_if (negb (f64_is_finite rel && f64_gt rel f64_zero)) (EquivalenceRelative rel);
      match primary with
      | Some mt => reject_if (bool_decide (mt ≠ Mean ∧ mt ≠ MetricStore.Ratio)) (EquivalenceMetric mt)
      | None => mret tt
      end
  | None => mret tt
  end.

Definition validate_starting (exp : Experiment) : starting unit :=
  _ ← (if decide (exp_type exp = 9%Z) then validate_meta exp
       else if decide (exp_type exp = 10%Z) then validate_switchback exp
       else if decide (exp_type exp = 11%Z) then validate_quasi exp
       else mret tt);
  match equivalence_test exp with
  | Some eq => validate_equivalence_test_config eq None
  | None => mret tt
  end.

(** ** Rows *)

(** The JSON object [build_type_config] writes. *)
Record TypeConfigJson := mk_type_config
  { js_interleaving : option (Z * list str * Z); js_session : option SessionConfig;
    js_bandit : option BanditConfig; js_meta : option (Z * list str * nat);
    js_switchback : option (Z * option Z * str); js_quasi : option (str * nat * str * Z);
    js_adaptive : option AdaptiveSampleSizeConfig }.

Definition build_type_config (exp : Experiment) : TypeConfigJson :=
  mk_type_config
    ((λ c, (il_method c, algorithm_ids c, max_list_size c)) <$> interleaving_config exp)
    (session_config exp) (bandit_config exp)
    ((λ c, (base_algorithm c, outcome_metric_ids c, length (variant_objectives c))) <$> meta_experiment_config exp)
    ((λ c, (planned_cycles c, block_duration c, cluster_attribute c)) <$> switchback_config exp)
    ((λ c, (treated_unit_id c, length (donor_unit_ids c), outcome_metric_id c, quasi_method c)) <$>
       quasi_experiment_config exp)
    (adaptive_sample_size_config exp).

Record ExperimentRow := mk_experiment_row
  { er_id : Uuid; er_name : str; er_description : option str; er_owner_email : str; er_type : str;
    er_state : str; er_layer_id : Uuid; er_primary_metric_id : str; er_secondary_metric_ids : list str;
    er_guardrail_action : str; er_hash_salt : str; er_targeting_rule_id : option Uuid;
    er_is_cumulative_holdout : bool; er_type_config : TypeConfigJson; er_sequential_method : option str;
    er_planned_looks : option Z; er_overall_alpha : option f64; er_surrogate_model_id : option Uuid }.

Section json.
(** [serde_json]'s values, as the payload column holds them. *)
Context {Json : Type} (parse_json : str → option Json) (print_json : Json → str) (empty_object : Json).
(** The [uuid] crate. *)
Context (parse_uuid : str → option Uuid) (print_uuid : Uuid → str).

Record VariantRow := mk_variant_row
  { vr_id : Uuid; vr_experiment_id : Uuid; vr_name : str; vr_traffic_fraction : f64; vr_is_control : bool;
    vr_payload_json : Json; vr_ordinal : Z }.

(** The tables a creation touches, with the identifiers it may reference. *)
Record Db := mk_db
  { experiments : gmap Uuid ExperimentRow; variants : list VariantRow; layers : gset Uuid;
    rules : gset Uuid; surrogates : gset Uuid }.

Definition type_names : list (Z * str) :=
  [(1, lit "AB"); (2, lit "MULTIVARIATE"); (3, lit "INTERLEAVING"); (4, lit "SESSION_LEVEL");
   (5, lit "PLAYBACK_QOE"); (6, lit "MAB"); (7, lit "CONTEXTUAL_BANDIT"); (8, lit "CUMULATIVE_HOLDOUT");
   (9, lit "META"); (10, lit "SWITCHBACK"); (11, lit "QUASI")]%Z.

Definition state_names : list (Z * str) :=
  [(1, lit "DRAFT"); (2, lit "STARTING"); (3, lit "RUNNING"); (4, lit "CONCLUDING"); (5, lit "CONCLUDED");
   (6, lit "ARCHIVED"); (7, lit "PAUSED")]%Z.

(** The enumeration's name, if the number is one, and the number of a name. *)
Definition name_of (names : list (Z * str)) (n : Z) : option str :=
  (λ ip : nat * (Z * str), ip.2.2) <$> list_find (λ p, p.1 = n) names.

Definition number_of (names : list (Z * str)) (s : str) : Z :=
  match list_find (λ p, p.2 = s) names with Some (_, p) => p.1 | None => 0%Z end.

(** [experiment_row_to_proto]: the other fields take their defaults. *)
Definition experiment_row_to_proto (row : ExperimentRow) (vs : list VariantRow) : Experiment :=
  mk_experiment (print_uuid (er_id row)) (er_name row) (default [] (er_description row)) (er_owner_email row)
    (number_of type_names (er_type row)) (number_of state_names (er_state row))
    ((λ v, mk_variant (print_uuid (vr_id v)) (vr_name v) (vr_traffic_fraction v) (vr_is_control v)
             (print_json (vr_payload_json v))) <$> vs)
    (print_uuid (er_layer_id row)) (er_primary_metric_id row) (er_secondary_metric_ids row)
    (if decide (er_guardrail_action row = lit "AUTO_PAUSE") then 1
     else if decide (er_guardrail_action row = lit "ALERT_ONLY") then 2 else 0)%Z
    None (match er_targeting_rule_id row with Some u => print_uuid u | None => [] end)
    None None [] None (er_is_cumulative_holdout row) (er_hash_salt row) None None None None None [].

(** ** Creation *)

Inductive CreateError :=
| InvalidArgument (message : string) | NonFiniteFraction (variant : str) | FractionSum (sum : f64)
| Controls (got : nat) | AlreadyExists (name : str) | NotFound (id : Uuid) | Internal.

Fixpoint check_fractions_finite (vs : list Variant) : result CreateError unit :=
  match vs with
  | [] => mret tt
  | v :: vs =>
      _ ← reject_if (negb (f64_is_finite (traffic_fraction v))) (NonFiniteFraction (variant_name v));
      check_fractions_finite vs
  end.

Definition known_type (n : Z) : bool := (1 <=? n)%Z && (n <=? 11)%Z.

Definition validate_create (exp : Experiment) : result CreateError unit :=
  _ ← reject_if (negb (bool_decide (audience_rule_id exp = [])))
        (InvalidArgument "audience_rule_id is not supported yet; use targeting_rule_id (#822)");
  _ ← reject_if (trim_is_empty (exp_name exp)) (InvalidArgument "name is required");
  _ ← reject_if (trim_is_empty (owner_email exp)) (InvalidArgument "owner_email is required");
  _ ← reject_if (trim_is_empty (primary_metric_id exp)) (InvalidArgument "primary_metric_id is required");
  _ ← reject_if (bool_decide (layer_id exp = [])) (InvalidArgument "layer_id is required");
  _ ← reject_if (negb (known_type (exp_type exp))) (InvalidArgument "experiment type must be specified");
  _ ← reject_if (bool_decide (exp_variants exp = [])) (InvalidArgument "at least one variant is required");
  _ ← check_fractions_finite (exp_variants exp);
  let sum := sum_weights (traffic_fraction <$> exp_variants exp) in
  _ ← reject_if (off_one sum) (FractionSum sum);
  let controls := length (filter (λ v, is_control v = true) (exp_variants exp)) in
  reject_if (bool_decide (controls ≠ 1)) (Controls controls).

Definition optional_uuid (s : str) (message : string) : result CreateError (option Uuid) :=
  if bool_decide (s = []) then mret None
  else match parse_uuid s with Some u => mret (Some u) | None => Err (InvalidArgument message) end.

(** The database's defaults for the new rows. *)
Record Fresh := mk_fresh { fresh_id : Uuid; fresh_salt : str; fresh_variant_id : nat → Uuid }.

Definition sequential_name (m : Z) : option str :=
  (if decide (m = 1) then Some (lit "MSPRT") else if decide (m = 2) then Some (lit "GST_OBF")
   else if decide (m = 3) then Some (lit "GST_POCOCK") else if decide (m = 4) then Some (lit "AVLM") else None)%Z.

(** The parameters of the insertion. *)
Definition row_of (fresh : Fresh) (exp : Experiment) : result CreateError ExperimentRow :=
  layer ← match parse_uuid (layer_id exp) with Some u => mret u | None => Err (InvalidArgument "invalid layer_id UUID") end;
  rule ← optional_uuid (exp_targeting_rule_id exp) "invalid targeting_rule_id UUID";
  surrogate ← optional_uuid (surrogate_model_id exp) "invalid surrogate_model_id UUID";
  type ← match name_of type_names (exp_type exp) with
         | Some t => mret t | None => Err (InvalidArgument "experiment type unspecified") end;
  let seq := sequential_test_config exp in
  mret (mk_experiment_row (fresh_id fresh) (exp_name exp)
    (match exp_description exp with [] => None | d => Some d end) (owner_email exp) type (lit "DRAFT") layer
    (primary_metric_id exp) (secondary_metric_ids exp)
    (if decide (guardrail_action exp = 2%Z) then lit "ALERT_ONLY" else lit "AUTO_PAUSE") (fresh_salt fresh) rule
    (is_cumulative_holdout exp) (build_type_config exp) (seq ≫= λ c, sequential_name (seq_method c))
    (seq ≫= λ c, if decide (planned_looks c = 0%Z) then None else Some (planned_looks c))
    (seq ≫= λ c, if f64_eq (overall_alpha c) f64_zero then None else Some (overall_alpha c)) surrogate).

Definition references_ok (db : Db) (row : ExperimentRow) : bool :=
  bool_decide (er_layer_id row ∈ layers db) &&
  match er_targeting_rule_id row with Some r => bool_decide (r ∈ rules db) | None => true end &&
  match er_surrogate_model_id row with Some r => bool_decide (r ∈ surrogates db) | None => true end.

(** [CHECK (traffic_fraction >= 0 AND traffic_fraction <= 1)]. *)
Definition unit_check (x : f64) : bool := f64_le f64_zero x && f64_le x (f64_of_Z 1).

(** [INSERT INTO variants], with the unique index on the control variant. *)
Fixpoint insert_variants (fresh : Fresh) (i : nat) (vs : list Variant) (table : list VariantRow) :
    result CreateError (list VariantRow) :=
  match vs with
  | [] => mret table
  | v :: vs =>
      let row := mk_variant_row (fresh_variant_id fresh i) (fresh_id fresh) (variant_name v) (traffic_fraction v)
                   (is_control v) (default empty_object (parse_json (payload_json v))) (Z.of_nat i) in
      _ ← reject_if (negb (unit_check (traffic_fraction v))) Internal;
      _ ← reject_if (bool_decide (vr_id row ∈ vr_id <$> table)) Internal;
      _ ← reject_if (is_control v && bool_decide
            (Exists (λ w, vr_experiment_id w = fresh_id fresh ∧ vr_is_control w = true) table)) Internal;
      insert_variants fresh (S i) vs (table ++ [row])
  end.

Definition insert_experiment (fresh : Fresh) (row : ExperimentRow) (vs : list Variant) (db : Db) :
    result CreateError Db :=
  _ ← reject_if (bool_decide (is_Some (experiments db !! er_id row))) (AlreadyExists (er_name row));
  _ ← reject_if (negb (references_ok db row)) Internal;
  table ← insert_variants fresh 0 vs (variants db);
  mret (mk_db (<[er_id row := row]> (experiments db)) table (layers db) (rules db) (surrogates db)).

Definition ordinal_le (v w : VariantRow) : Prop := (vr_ordinal v ≤ vr_ordinal w)%Z.
#[global] Instance ordinal_le_dec v w : Decision (ordinal_le v w).
Proof. unfold ordinal_le. apply _. Defined.

Definition get_variants (id : Uuid) (db : Db) : list VariantRow :=
  merge_sort ordinal_le (filter (λ v, vr_experiment_id v = id) (variants db)).

Definition get_experiment (id : Uuid) (db : Db) : result CreateError Experiment :=
  match experiments db !! id with
  | Some row => Ok (experiment_row_to_proto row (get_variants id db))
  | None => Err (NotFound id)
  end.

(** The handler, without failures of the database itself; the audit record is non-fatal. *)
Definition create_experiment (fresh : Fresh) (request : option Experiment) (db : Db) :
    Db * result CreateError Experiment :=
  let inserted :=
    exp ← match request with Some e => mret e | None => Err (InvalidArgument "experiment is required") end;
    _ ← validate_create exp;
    row ← row_of fresh exp;
    insert_experiment fresh row (exp_variants exp) db in
  match inserted with
  | Ok db' => (db', get_experiment (fresh_id fresh) db')
  | Err e => (db, Err e)
  | Panics => (db, Panics)
  | OutOfFuel => (db, OutOfFuel)
  end.
End json.
