(* ===== verification/ExperimentsSpec.v ===== *)
(** What the STARTING gate accepts, what a creation stores, and how the two meet in the
    start handler. *)
From Stdlib Require Import Ascii String SpecFloat.
From stdpp Require Import sorting.
From S2P Require Import Prelude Bytes F64 Validation MetricStore Experiments.
From S2P Require StateMachine Lifecycle.

(** ** The gate *)

Definition objective_ok (o : MetaVariantObjective) : Prop :=
  reward_weights o ≠ [] ∧ Forall (λ kw, f64_is_finite kw.2 = true) (reward_weights o) ∧
  off_one (sum_weights (reward_weights o).*2) = false.

Definition meta_ok (exp : Experiment) : Prop :=
  ∃ cfg, meta_experiment_config exp = Some cfg ∧ (1 ≤ base_algorithm cfg ≤ 6)%Z ∧ outcome_metric_ids cfg ≠ [] ∧
    length (variant_objectives cfg) = length (exp_variants exp) ∧ Forall objective_ok (variant_objectives cfg).

Definition switchback_ok (exp : Experiment) : Prop :=
  ∃ cfg secs, switchback_config exp = Some cfg ∧ (4 ≤ planned_cycles cfg)%Z ∧
    block_duration cfg = Some secs ∧ (3600 ≤ secs)%Z.

Definition quasi_ok (exp : Experiment) : Prop :=
  ∃ cfg pre treat, quasi_experiment_config exp = Some cfg ∧ trim_is_empty (treated_unit_id cfg) = false ∧
    2 ≤ length (donor_unit_ids cfg) ∧ trim_is_empty (outcome_metric_id cfg) = false ∧
    pre_treatment_start cfg = Some pre ∧ treatment_start cfg = Some treat ∧
    (wrapped_nanos pre < wrapped_nanos treat)%Z.

Definition positive (x : f64) : Prop := f64_is_finite x = true ∧ f64_gt x f64_zero = true.

Definition equivalence_ok (cfg : EquivalenceTestConfig) : Prop :=
  positive (delta cfg) ∧
  (f64_eq (alpha cfg) f64_zero = true ∨
   f64_gt (alpha cfg) f64_zero = true ∧ f64_lt (alpha cfg) (f64_ratio 1 2) = true) ∧
  ∀ rel, delta_relative cfg = Some rel → positive rel.

Record starting_ok (exp : Experiment) : Prop := mk_starting_ok
  { st_meta : exp_type exp = 9%Z → meta_ok exp;
    st_switchback : exp_type exp = 10%Z → switchback_ok exp;
    st_quasi : exp_type exp = 11%Z → quasi_ok exp;
    st_equivalence : ∀ eq, equivalence_test exp = Some eq → equivalence_ok eq }.

Lemma bind_unit_ok {E} (m : result E unit) (f : unit → result E unit) :
  (m ≫= f) = Ok tt ↔ m = Ok tt ∧ f tt = Ok tt.
Proof. destruct m as [[]| | |]; naive_solver. Qed.

Lemma required_ok {A} (x : option A) e (f : A → starting unit) :
  (required x e ≫= f) = Ok tt ↔ ∃ a, x = Some a ∧ f a = Ok tt.
Proof. destruct x; naive_solver. Qed.

Lemma weights_finite_ok v ws :
  check_weights_finite v ws = Ok tt ↔ Forall (λ kw, f64_is_finite kw.2 = true) ws.
Proof.
  induction ws as [|[k w] ws IH]; [done|]. cbn [check_weights_finite].
  rewrite bind_unit_ok, IH, Forall_cons, reject_if_ok, negb_false_iff. done.
Qed.

Lemma check_objectives_ok os : check_objectives os = Ok tt ↔ Forall objective_ok os.
Proof.
  induction os as [|o os IH]; [done|]. cbn [check_objectives].
  rewrite !bind_unit_ok, IH, Forall_cons, !reject_if_ok, weights_finite_ok, bool_decide_eq_false.
  unfold objective_ok. tauto.
Qed.

Lemma known_algorithm_ok n : negb (known_algorithm n) = false ↔ (1 ≤ n ≤ 6)%Z.
Proof. unfold known_algorithm. lia. Qed.

Lemma validate_meta_ok exp : validate_meta exp = Ok tt ↔ meta_ok exp.
Proof.
  unfold validate_meta. rewrite required_ok. unfold meta_ok. f_equiv. intros cfg. unfold validate_meta_config.
  rewrite !bind_unit_ok, !reject_if_ok, !bool_decide_eq_false, check_objectives_ok, length_fmap, known_algorithm_ok.
  split; [intros (? & ? & ? & ?%dec_stable & ?)|intros (? & ? & ? & ? & ?)]; tauto.
Qed.

Lemma validate_switchback_ok exp : validate_switchback exp = Ok tt ↔ switchback_ok exp.
Proof.
  unfold validate_switchback. rewrite required_ok. unfold switchback_ok, validate_switchback_config.
  split.
  - intros (cfg & Hc & H). rewrite bind_unit_ok, !reject_if_ok in H. destruct H as [H1 H2].
    destruct (block_duration cfg) as [d|] eqn:Hd; [|done]. exists cfg, d. simpl in H2. split_and!; [done|lia|done|lia].
  - intros (cfg & secs & Hc & H1 & Hd & H2). exists cfg. split; [done|].
    rewrite bind_unit_ok, !reject_if_ok, Hd. simpl. split; lia.
Qed.

Lemma validate_quasi_ok exp : validate_quasi exp = Ok tt ↔ quasi_ok exp.
Proof.
  unfold validate_quasi. rewrite required_ok. unfold quasi_ok, validate_quasi_config. split.
  - intros (cfg & Hc & H). rewrite !bind_unit_ok, !reject_if_ok in H. destruct H as (H1 & H2 & H3 & H).
    destruct (pre_treatment_start cfg) as [pre|] eqn:Hp; [|done].
    destruct (treatment_start cfg) as [treat|] eqn:Ht; [|done]. rewrite reject_if_ok in H.
    exists cfg, pre, treat. split_and!; try done; lia.
  - intros (cfg & pre & treat & Hc & H1 & H2 & H3 & Hp & Ht & H). exists cfg. split; [done|].
    rewrite !bind_unit_ok, !reject_if_ok, Hp, Ht, reject_if_ok. split_and!; try done; lia.
Qed.

Lemma validate_equivalence_ok cfg : validate_equivalence_test_config cfg None = Ok tt ↔ equivalence_ok cfg.
Proof.
  unfold validate_equivalence_test_config, equivalence_ok, positive.
  rewrite !bind_unit_ok, !reject_if_ok, negb_false_iff, andb_true_iff, andb_false_iff, !negb_false_iff, andb_true_iff.
  destruct (delta_relative cfg) as [rel|].
  - rewrite bind_unit_ok, reject_if_ok, negb_false_iff, andb_true_iff. naive_solver.
  - naive_solver.
Qed.

(** A block of rejections returns. *)
Ltac returns_block := repeat (apply bind_returns; [apply reject_if_returns|intros _ _]); try apply reject_if_returns; try done.

Lemma weights_finite_returns v ws : returns (check_weights_finite v ws).
Proof. induction ws as [|[k w] ws IH]; [done|]. cbn [check_weights_finite]. by returns_block. Qed.

Lemma check_objectives_returns os : returns (check_objectives os).
Proof.
  induction os as [|o os IH]; [done|]. cbn [check_objectives].
  apply bind_returns; [apply reject_if_returns|intros _ _].
  apply bind_returns; [apply weights_finite_returns|intros _ _]. by returns_block.
Qed.

Lemma required_returns {A} (x : option A) e (f : A → starting unit) : (∀ a, returns (f a)) → returns (required x e ≫= f).
Proof. destruct x; simpl; auto. Qed.

Lemma validate_starting_returns exp : returns (validate_starting exp).
Proof.
  unfold validate_starting. apply bind_returns; [|intros _ _].
  - repeat case_decide; [| | |done]; apply required_returns; intros cfg.
    + unfold validate_meta_config. returns_block. apply check_objectives_returns.
    + unfold validate_switchback_config. returns_block.
    + unfold validate_quasi_config. returns_block. repeat case_match; by returns_block.
  - destruct (equivalence_test exp) as [eq|]; [|done]. unfold validate_equivalence_test_config.
    returns_block. destruct (delta_relative eq); by returns_block.
Qed.

(** The STARTING gate is exact: it answers, and it accepts an experiment precisely when
    the configuration its type requires is there and well-formed and its equivalence test,
    if any, has a positive margin and admissible levels. *)
Theorem validate_starting_correct exp :
  returns (validate_starting exp) ∧ (validate_starting exp = Ok tt ↔ starting_ok exp).
Proof.
  split; [apply validate_starting_returns|]. unfold validate_starting.
  rewrite bind_unit_ok.
  assert ((match equivalence_test exp with Some eq => validate_equivalence_test_config eq None | None => mret tt end)
    = Ok tt ↔ ∀ eq, equivalence_test exp = Some eq → equivalence_ok eq) as ->.
  { destruct (equivalence_test exp); [rewrite validate_equivalence_ok; naive_solver|naive_solver]. }
  split.
  - intros [H Heq]. repeat case_decide; constructor; try exact Heq; intros; try lia;
        first [by apply validate_meta_ok|by apply validate_switchback_ok|by apply validate_quasi_ok].
  - intros [H1 H2 H3 Heq]. split; [|done].
      repeat case_decide; first [by apply validate_meta_ok, H1|by apply validate_switchback_ok, H2
                                |by apply validate_quasi_ok, H3|done].
Qed.

(** ** Creation *)

Section creation.
Context {Json : Type} (parse_json : str → option Json) (print_json : Json → str) (empty_object : Json).
Context (parse_uuid : str → option Uuid) (print_uuid : Uuid → str).

Notation insert_variants := (insert_variants parse_json empty_object).
Notation create_experiment := (create_experiment parse_json print_json empty_object parse_uuid print_uuid).

(** Every variant belongs to an experiment. *)
Definition parents_ok (db : Db (Json:=Json)) : Prop :=
  Forall (λ v, is_Some (experiments db !! vr_experiment_id v)) (variants db).

(** The rows of a new experiment's variants. *)
Definition new_variants (fresh : Fresh) (i : nat) (vs : list Variant) : list (VariantRow (Json:=Json)) :=
  imap (λ k v, mk_variant_row (fresh_variant_id fresh (i + k)) (fresh_id fresh) (variant_name v) (traffic_fraction v)
                 (is_control v) (default empty_object (parse_json (payload_json v))) (Z.of_nat (i + k))) vs.

Lemma created_variants_cons fresh i v vs :
  new_variants fresh i (v :: vs) =
  mk_variant_row (fresh_variant_id fresh i) (fresh_id fresh) (variant_name v) (traffic_fraction v) (is_control v)
    (default empty_object (parse_json (payload_json v))) (Z.of_nat i) :: new_variants fresh (S i) vs.
Proof.
  unfold new_variants. rewrite imap_cons, Nat.add_0_r. f_equal. apply imap_ext. intros k w _.
  unfold compose. by replace (i + S k) with (S i + k) by lia.
Qed.

Lemma created_variants_ok fresh vs : ∀ i table table',
  insert_variants fresh i vs table = Ok table' →
  table' = table ++ new_variants fresh i vs ∧ Forall (λ v, unit_check (traffic_fraction v) = true) vs.
Proof.
  induction vs as [|v vs IH]; intros i table table' H; cbn [Experiments.insert_variants] in H.
  { injection H as <-. by rewrite app_nil_r. }
  rewrite !reject_bind in H. destruct (unit_check _) eqn:Hu; [|done]. cbn [negb] in H.
  destruct (bool_decide _); [done|]. destruct (is_control v && _); [done|].
  apply IH in H as [-> Hf]. rewrite created_variants_cons, <- app_assoc. split; [done|by constructor].
Qed.

(** The experiment a successful creation answers with. *)
Definition stored_experiment (fresh : Fresh) (row : ExperimentRow) (exp : Experiment) : Experiment :=
  experiment_row_to_proto print_json print_uuid row (new_variants fresh 0 (exp_variants exp)).

(** A variant as it is read back: a new id, and the payload normalised. *)
Definition same_variant (v w : Variant) : Prop :=
  variant_name v = variant_name w ∧ traffic_fraction v = traffic_fraction w ∧ is_control v = is_control w.

Lemma type_round_trip t n : name_of type_names t = Some n → number_of type_names n = t.
Proof.
  unfold name_of. destruct (list_find _ _) as [[i p]|] eqn:E; [|done]. intros [= <-].
  apply list_find_Some in E as (Hi & Ht & _). cbn [snd].
  do 11 (destruct i as [|i]; [injection Hi as <-; rewrite <- Ht; vm_compute; reflexivity|]). done.
Qed.

Lemma fractions_of_new fresh i vs : vr_traffic_fraction <$> new_variants fresh i vs = traffic_fraction <$> vs.
Proof.
  revert i. induction vs as [|v vs IH]; intros i; [done|]. by rewrite created_variants_cons, !fmap_cons, IH.
Qed.

Lemma read_back_variants fresh i vs :
  Forall2 same_variant vs
    ((λ v, mk_variant (print_uuid (vr_id v)) (vr_name v) (vr_traffic_fraction v) (vr_is_control v)
             (print_json (vr_payload_json v))) <$> new_variants fresh i vs).
Proof.
  revert i. induction vs as [|v vs IH]; intros i; [constructor|]. rewrite created_variants_cons, fmap_cons.
  constructor; [done|apply IH].
Qed.

Lemma new_variants_experiment fresh i vs :
  Forall (λ v, vr_experiment_id v = fresh_id fresh) (new_variants fresh i vs).
Proof.
  revert i. induction vs as [|v vs IH]; intros i; [constructor|]. rewrite created_variants_cons. by constructor.
Qed.

Lemma filter_new_variants fresh id i vs : id ≠ fresh_id fresh →
  filter (λ v, vr_experiment_id v = id) (new_variants fresh i vs) = [].
Proof.
  intros Hne. induction (new_variants_experiment fresh i vs) as [|v l Hv _ IH]; [done|].
  by rewrite filter_cons, decide_False by congruence.
Qed.

Lemma get_new_variants fresh db row vs : parents_ok db → experiments db !! fresh_id fresh = None →
  get_variants (fresh_id fresh) (mk_db row (variants db ++ new_variants fresh 0 vs) (layers db) (rules db) (surrogates db)) =
  new_variants fresh 0 vs.
Proof.
  intros Hp Hn. unfold get_variants. cbn [variants]. rewrite filter_app.
  assert (filter (λ v, vr_experiment_id v = fresh_id fresh) (variants db) = []) as ->.
  { destruct (filter _ (variants db)) as [|v l] eqn:E; [done|].
    assert (v ∈ filter (λ v, vr_experiment_id v = fresh_id fresh) (variants db)) as [Hv Hin]%list_elem_of_filter
      by (rewrite E; by left).
    unfold parents_ok in Hp. rewrite Forall_forall in Hp. destruct (Hp v Hin) as [r Hr]. congruence. }
  cbn [app]. assert (∀ i, filter (λ v, vr_experiment_id v = fresh_id fresh) (new_variants fresh i vs) = new_variants fresh i vs) as ->.
  { induction vs as [|v vs IH]; intros i; [done|]. rewrite created_variants_cons, filter_cons, decide_True by done. by rewrite IH. }
  apply (merge_sort_numbered vr_ordinal _ 0); [done|].
  assert (∀ i, vr_ordinal <$> new_variants fresh i vs = Z.of_nat <$> seq i (length (new_variants fresh i vs))) as H; [|apply H].
  induction vs as [|v vs IH]; intros i; [done|]. rewrite created_variants_cons. cbn [length seq]. by rewrite !fmap_cons, IH.
Qed.

Lemma count_controls_new vs ws : Forall2 same_variant vs ws →
  length (filter (λ v, is_control v = true) ws) = length (filter (λ v, is_control v = true) vs) ∧
  traffic_fraction <$> ws = traffic_fraction <$> vs.
Proof.
  induction 1 as [|v w vs ws (_ & Hf & Hc) _ [IH1 IH2]]; [done|].
  rewrite !filter_cons, !fmap_cons, IH2, Hf. split; [|done]. rewrite Hc. case_decide; simpl; lia.
Qed.

Lemma validate_create_inv exp : validate_create exp = Ok tt →
  exp_variants exp ≠ [] ∧ off_one (sum_weights (traffic_fraction <$> exp_variants exp)) = false ∧
  length (filter (λ v, is_control v = true) (exp_variants exp)) = 1%nat.
Proof.
  unfold validate_create. rewrite !bind_unit_ok, !reject_if_ok.
  rewrite !bool_decide_eq_false. intros (_ & _ & _ & _ & _ & _ & Hv & _ & Hs & Hc). by apply dec_stable in Hc.
Qed.

Lemma row_of_inv fresh exp row : row_of parse_uuid fresh exp = Ok row →
  er_id row = fresh_id fresh ∧ er_name row = exp_name exp ∧ er_owner_email row = owner_email exp ∧
  er_state row = lit "DRAFT" ∧ er_hash_salt row = fresh_salt fresh ∧
  er_primary_metric_id row = primary_metric_id exp ∧ number_of type_names (er_type row) = exp_type exp.
Proof.
  unfold row_of. intros H. apply bind_ok_inv in H as (layer & _ & H). apply bind_ok_inv in H as (rule & _ & H).
  apply bind_ok_inv in H as (surrogate & _ & H). apply bind_ok_inv in H as (type & Ht & H). injection H as <-.
  split_and!; try done. apply type_round_trip. cbn [er_type]. by destruct (name_of _ _); [injection Ht as ->|].
Qed.

(** What a successful creation promises. *)
Record created (fresh : Fresh) (exp out : Experiment) (db db' : Db) : Prop := mk_created
  { cr_name : exp_name out = exp_name exp; cr_type : exp_type out = exp_type exp; cr_draft : exp_state out = 1%Z;
    cr_salt : hash_salt out = fresh_salt fresh;
    cr_variants : Forall2 same_variant (exp_variants exp) (exp_variants out);
    cr_control : length (filter (λ v, is_control v = true) (exp_variants out)) = 1%nat;
    cr_units : Forall (λ v, unit_check (traffic_fraction v) = true) (exp_variants out);
    cr_sum : off_one (sum_weights (traffic_fraction <$> exp_variants out)) = false;
    cr_read : get_experiment print_json print_uuid (fresh_id fresh) db' = Ok out;
    cr_frame : ∀ id, id ≠ fresh_id fresh →
      get_experiment print_json print_uuid id db' = get_experiment print_json print_uuid id db;
    cr_parents : parents_ok db' }.

Lemma insert_created fresh exp row db db' :
  parents_ok db → validate_create exp = Ok tt → row_of parse_uuid fresh exp = Ok row →
  insert_experiment parse_json empty_object fresh row (exp_variants exp) db = Ok db' →
  created fresh exp (stored_experiment fresh row exp) db db'.
Proof.
  intros Hp Hv Hrow Hi. apply validate_create_inv in Hv as (_ & Hsum & Hctl).
  apply row_of_inv in Hrow as (Hid & Hname & Hown & Hst & Hsalt & Hpm & Hty).
  unfold insert_experiment in Hi. rewrite !reject_bind in Hi. destruct (bool_decide _) eqn:Hnew; [done|].
  apply bool_decide_eq_false, eq_None_not_Some in Hnew. destruct (references_ok _ _); [|done]. cbn [negb] in Hi.
  apply bind_ok_inv in Hi as (table & Ht & Hi). injection Hi as <-. apply created_variants_ok in Ht as [-> Hu].
  rewrite Hid in *. pose proof (read_back_variants fresh 0 (exp_variants exp)) as Hback.
  destruct (count_controls_new _ _ Hback) as [Hc Hf].
  constructor; unfold stored_experiment, experiment_row_to_proto; cbn [exp_name exp_type exp_state hash_salt exp_variants].
  - done.
  - done.
  - rewrite Hst. reflexivity.
  - done.
  - exact Hback.
  - by rewrite Hc.
  - match goal with |- Forall _ ?l => change (Forall ((λ x, unit_check x = true) ∘ traffic_fraction) l) end.
    rewrite <- Forall_fmap, Hf, Forall_fmap. exact Hu.
  - by rewrite Hf.
  - unfold get_experiment. cbn [experiments]. rewrite lookup_insert_eq. by rewrite get_new_variants.
  - intros id Hne. unfold get_experiment. cbn [experiments]. rewrite lookup_insert_ne by done.
    destruct (experiments db !! id); [|done]. do 2 f_equal. unfold get_variants. cbn [variants].
    rewrite filter_app. rewrite (filter_new_variants fresh id) by done. by rewrite app_nil_r.
  - unfold parents_ok. cbn [variants experiments]. apply Forall_app. split.
    + eapply Forall_impl; [exact Hp|]. intros v Hv. apply lookup_insert_is_Some'. by right.
    + eapply Forall_impl; [apply new_variants_experiment|]. intros v ->. apply lookup_insert_is_Some'. by left.
Qed.

Lemma check_fractions_returns vs : returns (check_fractions_finite vs).
Proof. induction vs as [|v vs IH]; [done|]. cbn [check_fractions_finite]. by returns_block. Qed.

Lemma insert_variants_returns fresh vs : ∀ i table, returns (insert_variants fresh i vs table).
Proof.
  induction vs as [|v vs IH]; intros i table; [done|]. cbn [Experiments.insert_variants]. by returns_block.
Qed.

Lemma create_experiment_returns fresh request db : returns (create_experiment fresh request db).2.
Proof.
  unfold Experiments.create_experiment.
  assert (returns (exp ← match request with Some e => mret e | None => Err (InvalidArgument "experiment is required") end;
    _ ← validate_create exp;
    row ← row_of parse_uuid fresh exp;
    insert_experiment parse_json empty_object fresh row (exp_variants exp) db)) as H.
  { apply bind_returns; [by destruct request|intros exp _]. apply bind_returns.
    { unfold validate_create. returns_block. apply bind_returns; [apply check_fractions_returns|intros _ _]. returns_block. }
    intros _ _. apply bind_returns.
    - unfold row_of, optional_uuid. repeat (apply bind_returns; [repeat case_match; done|intros ? _]). done.
    - intros row _. unfold insert_experiment. returns_block. apply bind_returns; [apply insert_variants_returns|done]. }
  destruct (_ ≫= _); [|done..]. cbn [snd]. unfold get_experiment. by destruct (experiments _ !! _).
Qed.

(** Creation answers; a refused request leaves the database as it was, and an accepted
    one stores the experiment as a draft: the answer, which is also what reading it returns,
    has the requested name, type and variants, exactly one control, fractions within [0, 1]
    that sum to one within the tolerance, and no other experiment reads differently. *)
Theorem create_experiment_correct fresh exp db : parents_ok db →
  let '(db', r) := create_experiment fresh (Some exp) db in
  returns r ∧
  match r with
  | Ok out => created fresh exp out db db'
  | _ => db' = db
  end.
Proof.
  intros Hp. pose proof (create_experiment_returns fresh (Some exp) db) as Hret.
  unfold Experiments.create_experiment in *. cbn [mbind result_bind mret result_ret] in *.
  destruct (validate_create exp) as [[]| | |] eqn:Hv; [|done..]. cbn [mbind result_bind] in *.
  destruct (row_of parse_uuid fresh exp) as [row| | |] eqn:Hrow; [|done..]. cbn [mbind result_bind] in *.
  destruct (insert_experiment _ _ _ _ _ _) as [db'| | |] eqn:Hi; [|done..].
  split; [exact Hret|]. pose proof (insert_created fresh exp row db db' Hp Hv Hrow Hi) as Hc.
  by rewrite (cr_read _ _ _ _ _ Hc).
Qed.
End creation.

(** ** The gate on stored experiments *)

Section stored.
Context {Json : Type} (print_json : Json → str) (print_uuid : Uuid → str).
(** What is stored under each id of the lifecycle's table; nothing changes it after creation. *)
Context (stored : StateMachine.Uuid → ExperimentRow * list (VariantRow (Json:=Json))).

(** [validate_starting] as the start handler calls it. *)
Definition gate (id : StateMachine.Uuid) : bool :=
  is_ok (validate_starting (experiment_row_to_proto print_json print_uuid (stored id).1 (stored id).2)).

(** The conversion leaves out every configuration, so the gate refuses all stored experiments
    of the types that need one, and never sees an equivalence test. *)
Lemma gate_by_type id :
  gate id = negb (bool_decide (number_of type_names (er_type (stored id).1) ∈ [9; 10; 11]%Z)).
Proof.
  unfold gate, validate_starting, experiment_row_to_proto. cbn [exp_type equivalence_test].
  set (t := number_of type_names _). destruct (decide (t = 9%Z)) as [->|H9]; [done|].
  destruct (decide (t = 10%Z)) as [->|H10]; [done|]. destruct (decide (t = 11%Z)) as [->|H11]; [done|].
  rewrite bool_decide_eq_false_2; [done|]. set_solver.
Qed.

(** No META, SWITCHBACK or QUASI experiment ever runs. *)
Lemma configured_types_never_start w id s :
  Lifecycle.reachable gate w → er_type (stored id).1 ∈ [lit "META"; lit "SWITCHBACK"; lit "QUASI"] →
  StateMachine.state_of (Lifecycle.db w) id = Some s → StateMachine.stage s = 0%nat.
Proof.
  intros Hw Ht Hs. pose proof (Lifecycle.inv_active _ _ (Lifecycle.reachable_invariant _ _ Hw) id s Hs) as Hact.
  destruct (StateMachine.stage s) as [|n]; [done|exfalso]. specialize (Hact ltac:(lia)).
  rewrite gate_by_type in Hact. apply negb_true_iff, bool_decide_eq_false in Hact. apply Hact.
  repeat (apply elem_of_cons in Ht as [->|Ht]; [vm_compute; set_solver|]). by apply not_elem_of_nil in Ht.
Qed.
End stored.

(** ** Examples *)

Definition sample_variant (name : string) (control : bool) : Variant :=
  mk_variant [] (lit name) (f64_ratio 1 2) control (lit "{}").

Definition sample_experiment (type : Z) (meta : option MetaExperimentConfig)
    (quasi : option QuasiExperimentConfig) : Experiment :=
  mk_experiment [] (lit "exp") [] (lit "owner@x") type 0%Z [sample_variant "a" true; sample_variant "b" false]
    (lit "layer") (lit "watch_time") [] 0%Z None [] None None [] None false [] meta None quasi None None [].

Definition sample_uuid (s : str) : option Uuid := if decide (s = []) then None else Some 5%Z.

Lemma create_experiment_correct_witness :
  ∃ db' out, create_experiment (Json:=unit) (λ _, None) (λ _, lit "{}") tt sample_uuid (λ _, lit "u")
      (mk_fresh 1%Z (lit "salt") (λ i, Z.of_nat i)) (Some (sample_experiment 1%Z None None)) (mk_db ∅ [] {[5%Z]} ∅ ∅) = (db', Ok out) ∧
    length (filter (λ v, is_control v = true) (exp_variants out)) = 1%nat.
Proof.
  pose proof (create_experiment_correct (Json:=unit) (λ _, None) (λ _, lit "{}") tt sample_uuid (λ _, lit "u")
    (mk_fresh 1%Z (lit "salt") (λ i, Z.of_nat i)) (sample_experiment 1%Z None None) (mk_db ∅ [] {[5%Z]} ∅ ∅)
    (Forall_nil_2 _)) as H.
  assert (is_ok (create_experiment (Json:=unit) (λ _, None) (λ _, lit "{}") tt sample_uuid (λ _, lit "u")
    (mk_fresh 1%Z (lit "salt") (λ i, Z.of_nat i)) (Some (sample_experiment 1%Z None None))
    (mk_db ∅ [] {[5%Z]} ∅ ∅)).2 = true) as Hok by (vm_compute; reflexivity).
  destruct (create_experiment _ _ _ _ _ _ _ _) as [db' r]. cbn [snd] in Hok.
  destruct r as [out| | |]; [|done..]. exists db', out. split; [done|]. apply H.
Defined.

(** The count of objectives is checked, not the variants they name. *)
Lemma meta_objectives_unmatched :
  let o := mk_objective (lit "other") [(lit "m", f64_of_Z 1)] in
  validate_starting (sample_experiment 9%Z (Some (mk_meta 1%Z [o; o] [lit "m"])) None) = Ok tt.
Proof. vm_compute. reflexivity. Qed.

(** The nanoseconds wrap: a pre-treatment period of the year 2262 comes before 2025. *)
Lemma quasi_order_wraps :
  let pre := mk_timestamp 9223372037%Z 0%Z in
  let treat := mk_timestamp 1735689600%Z 0%Z in
  (seconds treat < seconds pre)%Z ∧
  validate_starting (sample_experiment 11%Z None
    (Some (mk_quasi (lit "us") [lit "ca"; lit "mx"] (Some pre) (Some treat) (lit "m") 1%Z))) = Ok tt.
Proof. split; [done|]. vm_compute. reflexivity. Qed.
