(* ===== verification/Bandit.v ===== *)
(** Bandit policies ([experimentation-bandit/src]): reward composition
    ([reward_composer.rs]), Thompson sampling ([thompson.rs]), LinUCB ([linucb.rs]),
    cold-start bandits ([cold_start.rs]) and the dispatch over them ([policy.rs]).

    [nalgebra], [rand_distr] and [serde_json] are parameters of the model, each a class of
    the operations the code calls; so is [f64::exp], whose result the standard library
    leaves to the platform.

    The theorems say what the policies keep and choose: Thompson posteriors stay positive and
    finite, so a selection always answers, with probabilities that are the shares of the
    simulated wins; LinUCB chooses a maximal upper confidence bound. *)
From Stdlib Require Import Ascii String SpecFloat.
From S2P Require Import Prelude Bytes F64 F64Sum F64Order.

(** ** Errors and checks *)

(** [PolicyError] of the service the policies run in; an [assert!], [expect] or
    [assert_finite] that fails panics. *)
Inductive PolicyError :=
| ExperimentNotFound (id : str) | SnapshotNotFound (id : str)
| WrongPolicyType (expected actual : str) | Internal.

Abbreviation policy := (result PolicyError).

Definition assert_that (cond : bool) : policy unit := if cond then mret tt else Panics.
Definition assert_finite (x : f64) : policy unit := assert_that (f64_is_finite x).
Definition expect {A} (x : option A) : policy A := match x with Some a => mret a | None => Panics end.

(** [n + 1] on [u64]. *)
Definition u64_succ (n : Z) : Z := (n + 1) mod 2 ^ 64.

Definition f64_is_nan (x : f64) : bool := match x with S754_nan => true | _ => false end.
Definition f64_neg (x : f64) : f64 := SFopp x.
Definition f64_sqrt (x : f64) : f64 := SFsqrt 53 1024 x.
Definition f64_one : f64 := f64_of_Z 1.
Definition f64_neg_infinity : f64 := S754_infinity true.

Definition f64_sum (l : list f64) : f64 := fold_left f64_add l f64_zero.

Fixpoint for_each {A} (f : A → policy unit) (l : list A) : policy unit :=
  match l with
  | [] => mret tt
  | x :: l => _ ← f x; for_each f l
  end.

Fixpoint try_map {A B} (f : A → policy B) (l : list A) : policy (list B) :=
  match l with
  | [] => mret []
  | x :: l => y ← f x; ys ← try_map f l; mret (y :: ys)
  end.

Definition Features : Type := gmap str f64.

Record ArmSelection := mk_arm_selection
  { sel_arm_id : str; assignment_probability : f64; all_arm_probabilities : gmap str f64;
    is_uniform_random : bool }.

(** ** Third-party code *)

(** [serde_json] for a type whose bytes are [Bytes]. *)
Class Json (Bytes A : Type) := { to_vec : A → Bytes; from_slice : Bytes → option A }.

(** [nalgebra]'s dynamic vectors and matrices. *)
Class Nalgebra := mk_nalgebra
  { DVector : Type; DMatrix : Type;
    identity : nat → DMatrix; zeros : nat → DVector;
    vector_from_vec : list f64 → DVector; vector_as_slice : DVector → list f64;
    matrix_from_vec : nat → nat → list f64 → DMatrix; matrix_as_slice : DMatrix → list f64;
    nrows : DMatrix → nat; ncols : DMatrix → nat;
    matrix_vector : DMatrix → DVector → DVector; dot : DVector → DVector → f64;
    outer : DVector → DVector → DMatrix; matrix_div : DMatrix → f64 → DMatrix;
    matrix_sub : DMatrix → DMatrix → DMatrix; matrix_norm : DMatrix → f64;
    vector_scale : f64 → DVector → DVector; vector_add : DVector → DVector → DVector;
    vector_norm : DVector → f64 }.

(** [rand]'s generator and [rand_distr]'s [Beta::sample]. *)
Class BetaSampler := { Rng : Type; beta_sample : f64 → f64 → Rng → f64 * Rng }.

(** ** Reward composition *)

Inductive CompositionMethod := WeightedScalarization | EpsilonConstraint | Tchebycheff.

Record Objective := mk_objective { ob_metric_id : str; weight : f64; floor : f64; is_primary : bool }.

Definition EMA_ALPHA : f64 := f64_ratio 1 100.

Record MetricStats := mk_stats { mean : f64; variance : f64; ideal : f64; observations : Z }.

Definition new_stats : MetricStats := mk_stats f64_zero f64_one f64_zero 0.

Definition update_stats (s : MetricStats) (value : f64) : policy MetricStats :=
  _ ← assert_finite value;
  let d := f64_sub value (mean s) in
  let mean' := f64_add (mean s) (f64_mul EMA_ALPHA d) in
  let variance' := f64_mul (f64_sub f64_one EMA_ALPHA)
                     (f64_add (variance s) (f64_mul (f64_mul EMA_ALPHA d) d)) in
  _ ← assert_finite mean';
  _ ← assert_finite variance';
  mret (mk_stats mean' variance' (ideal s) (u64_succ (observations s))).

Definition normalize_stats (s : MetricStats) (value : f64) : policy f64 :=
  let std_dev := f64_sqrt (f64_max (variance s) (f64_ratio 1 (10 ^ 8))) in
  let z := f64_div (f64_sub value (mean s)) std_dev in
  _ ← assert_finite z;
  mret z.

Definition MetricNormalizer : Type := gmap str MetricStats.

Definition update_and_normalize (n : MetricNormalizer) (metric_id : str) (value : f64) :
    policy (MetricNormalizer * f64) :=
  s ← update_stats (default new_stats (n !! metric_id)) value;
  normalized ← normalize_stats s value;
  let s := if f64_gt normalized (ideal s)
           then mk_stats (mean s) (variance s) normalized (observations s) else s in
  mret (<[metric_id := s]> n, normalized).

Definition metric_ideal (n : MetricNormalizer) (metric_id : str) : f64 :=
  match n !! metric_id with Some s => ideal s | None => f64_zero end.

Record RewardComposer := mk_composer
  { objectives : list Objective; method : CompositionMethod; normalizer : MetricNormalizer }.

Definition new_composer (objectives : list Objective) (method : CompositionMethod) : policy RewardComposer :=
  _ ← assert_that (negb (bool_decide (objectives = [])));
  _ ← for_each (λ o, assert_that (f64_is_finite (weight o) && f64_ge (weight o) f64_zero)) objectives;
  _ ← match method with
      | WeightedScalarization =>
          let total := f64_sum (weight <$> objectives) in
          assert_that (f64_lt (f64_abs (f64_sub total f64_one)) (f64_ratio 1 1000000))
      | EpsilonConstraint =>
          assert_that (bool_decide (length (filter (λ o, is_primary o = true) objectives) = 1))
      | Tchebycheff => for_each (λ o, assert_that (f64_gt (weight o) f64_zero)) objectives
      end;
  mret (mk_composer objectives method ∅).

(** The raw value of an objective's metric. *)
Definition raw_value (metric_values : Features) (o : Objective) : policy (Objective * f64) :=
  v ← expect (metric_values !! ob_metric_id o);
  _ ← assert_finite v;
  mret (o, v).

Fixpoint normalize_all (n : MetricNormalizer) (raw : list (Objective * f64)) :
    policy (MetricNormalizer * list (Objective * f64)) :=
  match raw with
  | [] => mret (n, [])
  | (o, v) :: raw =>
      '(n, z) ← update_and_normalize n (ob_metric_id o) v;
      '(n, zs) ← normalize_all n raw;
      mret (n, (o, z) :: zs)
  end.

(** The credit of a secondary objective above its floor. *)
Definition epsilon_term (p : Objective * f64) : f64 :=
  if is_primary p.1 then f64_mul (weight p.1) p.2
  else f64_mul (weight p.1) (f64_max (f64_sub p.2 (floor p.1)) f64_zero).

(** The weighted shortfall from the metric's ideal point. *)
Definition deviation (n : MetricNormalizer) (p : Objective * f64) : f64 :=
  f64_mul (weight p.1) (f64_max (f64_sub (metric_ideal n (ob_metric_id p.1)) p.2) f64_zero).

Definition scalarize (m : CompositionMethod) (n : MetricNormalizer) (normalized : list (Objective * f64)) : f64 :=
  match m with
  | WeightedScalarization => f64_sum ((λ p, f64_mul (weight p.1) p.2) <$> normalized)
  | EpsilonConstraint => f64_sum (epsilon_term <$> normalized)
  | Tchebycheff => f64_neg (fold_left f64_max (deviation n <$> normalized) f64_neg_infinity)
  end.

Definition compose (c : RewardComposer) (metric_values : Features) : policy (RewardComposer * f64) :=
  raw ← try_map (raw_value metric_values) (objectives c);
  '(n, normalized) ← normalize_all (normalizer c) raw;
  let reward := scalarize (method c) n normalized in
  _ ← assert_finite reward;
  mret (mk_composer (objectives c) (method c) n, reward).

Definition sigmoid (exp : f64 → f64) (x : f64) : f64 := f64_div f64_one (f64_add f64_one (exp (f64_neg x))).

(** ** Thompson sampling *)

Record BetaArm := mk_beta_arm { ba_arm_id : str; alpha : f64; beta : f64 }.

Definition new_beta_arm (arm_id : str) : BetaArm := mk_beta_arm arm_id f64_one f64_one.

(** [(0.0..=1.0).contains(&reward)]. *)
Definition unit_interval (x : f64) : bool := f64_le f64_zero x && f64_le x f64_one.

Definition update_beta_arm (a : BetaArm) (reward : f64) : policy BetaArm :=
  _ ← assert_finite reward;
  _ ← assert_that (unit_interval reward);
  mret (mk_beta_arm (ba_arm_id a) (f64_add (alpha a) reward)
          (f64_add (beta a) (f64_sub f64_one reward))).

Record ThompsonSamplingPolicy := mk_thompson
  { ts_experiment_id : str; ts_arms : list BetaArm; ts_total_rewards : Z;
    reward_composer : option RewardComposer }.

Definition new_thompson (experiment_id : str) (arm_ids : list str) : ThompsonSamplingPolicy :=
  mk_thompson experiment_id (new_beta_arm <$> arm_ids) 0 None.

Definition new_multi_objective (experiment_id : str) (arm_ids : list str) (objectives : list Objective)
    (method : CompositionMethod) : policy ThompsonSamplingPolicy :=
  c ← new_composer objectives method;
  mret (mk_thompson experiment_id (new_beta_arm <$> arm_ids) 0 (Some c)).

(** [iter_mut().find(|a| a.arm_id == arm_id)], updated in place. *)
Fixpoint update_first {A} (p : A → bool) (f : A → policy A) (l : list A) : policy (list A) :=
  match l with
  | [] => Panics
  | x :: l => if p x then y ← f x; mret (y :: l) else ys ← update_first p f l; mret (x :: ys)
  end.

Definition has_beta_id (arm_id : str) (a : BetaArm) : bool := bool_decide (ba_arm_id a = arm_id).

Definition update_thompson (p : ThompsonSamplingPolicy) (arm_id : str) (reward : f64) :
    policy ThompsonSamplingPolicy :=
  arms ← update_first (has_beta_id arm_id) (λ a, update_beta_arm a reward) (ts_arms p);
  mret (mk_thompson (ts_experiment_id p) arms (u64_succ (ts_total_rewards p)) (reward_composer p)).

Definition update_multi_objective (exp : f64 → f64) (p : ThompsonSamplingPolicy) (arm_id : str)
    (metric_values : Features) : policy ThompsonSamplingPolicy :=
  c ← expect (reward_composer p);
  '(c, scalar) ← compose c metric_values;
  let binary_reward := sigmoid exp scalar in
  _ ← assert_finite binary_reward;
  arms ← update_first (has_beta_id arm_id) (λ a, update_beta_arm a binary_reward) (ts_arms p);
  mret (mk_thompson (ts_experiment_id p) arms (u64_succ (ts_total_rewards p)) (Some c)).

Section thompson.
Context `{BetaSampler}.

(** [Beta::new] refuses a parameter that is not positive. *)
Definition sample_arm (a : BetaArm) (rng : Rng) : policy (f64 * Rng) :=
  _ ← assert_that (f64_gt (alpha a) f64_zero && f64_gt (beta a) f64_zero);
  mret (beta_sample (alpha a) (beta a) rng).

Fixpoint sample_arms (arms : list BetaArm) (rng : Rng) : policy (list f64 * Rng) :=
  match arms with
  | [] => mret ([], rng)
  | a :: arms =>
      '(x, rng) ← sample_arm a rng;
      '(xs, rng) ← sample_arms arms rng;
      mret (x :: xs, rng)
  end.
End thompson.

(** [max_by(|a, b| a.1.partial_cmp(&b.1).unwrap())]: the last maximum; comparing a NaN panics. *)
Fixpoint max_by_from (best : nat * f64) (i : nat) (xs : list f64) : policy nat :=
  match xs with
  | [] => mret best.1
  | x :: xs =>
      _ ← assert_that (negb (f64_is_nan best.2 || f64_is_nan x));
      max_by_from (if f64_gt best.2 x then best else (i, x)) (S i) xs
  end.

Definition max_by_index (xs : list f64) : policy nat :=
  match xs with [] => Panics | x :: xs => max_by_from (0, x) 1 xs end.

(** The first strict improvement over the best draw so far. *)
Fixpoint winner_from (best : nat) (best_val : f64) (i : nat) (xs : list f64) : nat :=
  match xs with
  | [] => best
  | x :: xs => if f64_gt x best_val then winner_from i x (S i) xs else winner_from best best_val (S i) xs
  end.

Definition winner (draws : list f64) : nat := winner_from 0 f64_neg_infinity 0 draws.

Definition MC_SIMULATIONS : nat := 1000.

Section select_thompson.
Context `{BetaSampler}.

Fixpoint simulate (n : nat) (arms : list BetaArm) (win_counts : list nat) (rng : Rng) :
    policy (list nat * Rng) :=
  match n with
  | O => mret (win_counts, rng)
  | S n =>
      '(draws, rng) ← sample_arms arms rng;
      simulate n arms (alter S (winner draws) win_counts) rng
  end.

(** The probabilities of a map built arm by arm: a repeated id keeps its last entry. *)
Definition probability_map (ids : list str) (probs : list f64) : gmap str f64 :=
  fold_left (λ m p, <[p.1 := p.2]> m) (zip ids probs) ∅.

Definition select_thompson (arms : list BetaArm) (rng : Rng) : policy (ArmSelection * Rng) :=
  _ ← assert_that (negb (bool_decide (arms = [])));
  '(samples, rng) ← sample_arms arms rng;
  best_idx ← max_by_index samples;
  '(win_counts, rng) ← simulate MC_SIMULATIONS arms (replicate (length arms) 0) rng;
  let win_counts := alter (λ c, if c =? 0 then 1 else c) best_idx win_counts in
  let total_wins := sum_list win_counts in
  let probs := (λ c, f64_div (f64_of_Z (Z.of_nat c)) (f64_of_Z (Z.of_nat total_wins))) <$> win_counts in
  let all := probability_map (ba_arm_id <$> arms) probs in
  arm ← expect (arms !! best_idx);
  probability ← expect (all !! ba_arm_id arm);
  mret (mk_arm_selection (ba_arm_id arm) probability all false, rng).
End select_thompson.

(** ** LinUCB *)

Section linucb.
Context `{Nalgebra}.

Record LinUcbArm := mk_linucb_arm { la_arm_id : str; a_inv : DMatrix; b_vec : DVector; n_pulls : Z }.

Definition new_linucb_arm (dim : nat) (arm_id : str) : LinUcbArm :=
  mk_linucb_arm arm_id (identity dim) (zeros dim) 0.

Definition ucb_score (a : LinUcbArm) (x : DVector) (alpha : f64) : policy f64 :=
  let theta := matrix_vector (a_inv a) (b_vec a) in
  let exploitation := dot theta x in
  _ ← assert_finite exploitation;
  let exploration_var := dot x (matrix_vector (a_inv a) x) in
  _ ← assert_finite exploration_var;
  let exploration := f64_mul alpha (f64_sqrt (f64_max exploration_var f64_zero)) in
  _ ← assert_finite exploration;
  mret (f64_add exploitation exploration).

(** The Sherman-Morrison update of the inverse, skipped on a vanishing denominator. *)
Definition sherman_morrison (m : DMatrix) (x : DVector) : policy DMatrix :=
  let a_inv_x := matrix_vector m x in
  let denominator := f64_add f64_one (dot x a_inv_x) in
  _ ← assert_finite denominator;
  if f64_lt (f64_abs denominator) (f64_ratio 1 (10 ^ 10)) then mret m
  else
    let m' := matrix_sub m (matrix_div (outer a_inv_x a_inv_x) denominator) in
    _ ← assert_finite (matrix_norm m');
    mret m'.

Definition update_linucb_arm (a : LinUcbArm) (x : DVector) (reward : f64) : policy LinUcbArm :=
  _ ← assert_finite reward;
  m ← sherman_morrison (a_inv a) x;
  let b := vector_add (b_vec a) (vector_scale reward x) in
  _ ← assert_finite (vector_norm b);
  mret (mk_linucb_arm (la_arm_id a) m b (u64_succ (n_pulls a))).

Record LinUcbPolicy := mk_linucb
  { lu_experiment_id : str; lu_arms : list LinUcbArm; feature_keys : list str; lu_alpha : f64;
    min_exploration_fraction : f64; lu_total_rewards : Z }.

Definition new_linucb (experiment_id : str) (arm_ids feature_keys : list str)
    (alpha min_exploration_fraction : f64) : policy LinUcbPolicy :=
  _ ← assert_that (negb (bool_decide (arm_ids = [])));
  _ ← assert_that (negb (bool_decide (feature_keys = [])));
  _ ← assert_that (f64_gt alpha f64_zero);
  _ ← assert_that (f64_le f64_zero min_exploration_fraction && f64_lt min_exploration_fraction f64_one);
  let k := f64_of_Z (Z.of_nat (length arm_ids)) in
  _ ← assert_that (f64_le (f64_mul k min_exploration_fraction) f64_one);
  mret (mk_linucb experiment_id (new_linucb_arm (length feature_keys) <$> arm_ids) feature_keys alpha
          min_exploration_fraction 0).

(** Missing features are zero; the order is that of the feature keys. *)
Definition context_to_vector (p : LinUcbPolicy) (context : Features) : policy DVector :=
  data ← try_map (λ key, let v := default f64_zero (context !! key) in _ ← assert_finite v; mret v)
           (feature_keys p);
  mret (vector_from_vec data).

Definition has_linucb_id (arm_id : str) (a : LinUcbArm) : bool := bool_decide (la_arm_id a = arm_id).

Definition predicted_reward (p : LinUcbPolicy) (arm_id : str) (context : Features) : policy f64 :=
  x ← context_to_vector p context;
  arm ← expect (head (filter (λ a, has_linucb_id arm_id a = true) (lu_arms p)));
  let reward := dot (matrix_vector (a_inv arm) (b_vec arm)) x in
  _ ← assert_finite reward;
  mret reward.

Definition compute_probabilities (p : LinUcbPolicy) (ucb_scores : list f64) : policy (nat * gmap str f64) :=
  best_idx ← max_by_index ucb_scores;
  let k := f64_of_Z (Z.of_nat (length (lu_arms p))) in
  let min_expl := min_exploration_fraction p in
  let best_prob := f64_add min_expl (f64_sub f64_one (f64_mul k min_expl)) in
  let probs := (λ i, if i =? best_idx then best_prob else min_expl) <$> seq 0 (length (lu_arms p)) in
  mret (best_idx, probability_map (la_arm_id <$> lu_arms p) probs).

Definition select_linucb (p : LinUcbPolicy) (context : option Features) : policy ArmSelection :=
  context ← expect context;
  x ← context_to_vector p context;
  ucb_scores ← try_map (λ a, ucb_score a x (lu_alpha p)) (lu_arms p);
  '(best_idx, all) ← compute_probabilities p ucb_scores;
  arm ← expect (lu_arms p !! best_idx);
  probability ← expect (all !! la_arm_id arm);
  mret (mk_arm_selection (la_arm_id arm) probability all false).

Definition update_linucb (p : LinUcbPolicy) (arm_id : str) (reward : f64) (context : option Features) :
    policy LinUcbPolicy :=
  context ← expect context;
  x ← context_to_vector p context;
  arms ← update_first (has_linucb_id arm_id) (λ a, update_linucb_arm a x reward) (lu_arms p);
  mret (mk_linucb (lu_experiment_id p) arms (feature_keys p) (lu_alpha p) (min_exploration_fraction p)
          (u64_succ (lu_total_rewards p))).

(** ** Cold-start bandits *)

Record ColdStartConfig := mk_cold_start
  { content_id : str; content_metadata : gmap str str; window_days : Z; cs_arm_ids : list str;
    cs_feature_keys : list str; cs_alpha : f64; cs_min_exploration_fraction : f64 }.

Definition cold_start_id (content_id : str) : str := lit "cold-start:" ++ content_id.

Record AffinityScores := mk_affinity
  { af_content_id : str; segment_affinity_scores : gmap str f64; optimal_placements : gmap str str }.

Fixpoint best_placement (p : LinUcbPolicy) (context : Features) (arms : list LinUcbArm)
    (best : str * f64) : policy (str * f64) :=
  match arms with
  | [] => mret best
  | a :: arms =>
      predicted ← predicted_reward p (la_arm_id a) context;
      best_placement p context arms (if f64_gt predicted best.2 then (la_arm_id a, predicted) else best)
  end.

Definition segment_placement (p : LinUcbPolicy) (segment : str * Features) : policy (str * (str * f64)) :=
  best ← best_placement p segment.2 (lu_arms p) ([], f64_neg_infinity);
  mret (segment.1, best).

Definition export_affinity_scores (p : LinUcbPolicy) (content_id : str)
    (segment_contexts : gmap str Features) : policy AffinityScores :=
  placed ← try_map (segment_placement p) (map_to_list segment_contexts);
  let placements : gmap str (str * f64) := list_to_map placed in
  mret (mk_affinity content_id (snd <$> placements) (fst <$> placements)).

(** ** Dispatch *)

Inductive AnyPolicy := AThompson (p : ThompsonSamplingPolicy) | ALinUcb (p : LinUcbPolicy).

Definition create_cold_start_policy (c : ColdStartConfig) : policy (str * AnyPolicy) :=
  let experiment_id := cold_start_id (content_id c) in
  p ← new_linucb experiment_id (cs_arm_ids c) (cs_feature_keys c) (cs_alpha c) (cs_min_exploration_fraction c);
  mret (experiment_id, ALinUcb p).

Definition policy_type (p : AnyPolicy) : str :=
  match p with AThompson _ => lit "thompson_sampling" | ALinUcb _ => lit "linucb" end.

Definition update (p : AnyPolicy) (arm_id : str) (reward : f64) (context : option Features) : policy AnyPolicy :=
  match p with
  | AThompson p => p ← update_thompson p arm_id reward; mret (AThompson p)
  | ALinUcb p => p ← update_linucb p arm_id reward context; mret (ALinUcb p)
  end.

Definition total_rewards (p : AnyPolicy) : Z :=
  match p with AThompson p => ts_total_rewards p | ALinUcb p => lu_total_rewards p end.

Definition select_arm `{BetaSampler} (p : AnyPolicy) (context : option Features) (rng : Rng) :
    policy (ArmSelection * Rng) :=
  match p with
  | AThompson p => select_thompson (ts_arms p) rng
  | ALinUcb p => s ← select_linucb p context; mret (s, rng)
  end.

(** The snapshot form of a LinUCB policy. *)
Record SerializableArm := mk_serializable_arm
  { sa_arm_id : str; a_inv_data : list f64; a_inv_rows : nat; a_inv_cols : nat; b_data : list f64;
    sa_n_pulls : Z }.

Record LinUcbState := mk_linucb_state
  { ls_experiment_id : str; ls_arms : list SerializableArm; ls_feature_keys : list str; ls_alpha : f64;
    ls_min_exploration_fraction : f64; ls_total_rewards : Z }.

Definition to_serializable (a : LinUcbArm) : SerializableArm :=
  mk_serializable_arm (la_arm_id a) (matrix_as_slice (a_inv a)) (nrows (a_inv a)) (ncols (a_inv a))
    (vector_as_slice (b_vec a)) (n_pulls a).

(** [DMatrix::from_vec] panics on a wrong number of elements. *)
Definition into_arm (a : SerializableArm) : policy LinUcbArm :=
  _ ← assert_that (length (a_inv_data a) =? a_inv_rows a * a_inv_cols a);
  mret (mk_linucb_arm (sa_arm_id a) (matrix_from_vec (a_inv_rows a) (a_inv_cols a) (a_inv_data a))
          (vector_from_vec (b_data a)) (sa_n_pulls a)).

Definition linucb_state (p : LinUcbPolicy) : LinUcbState :=
  mk_linucb_state (lu_experiment_id p) (to_serializable <$> lu_arms p) (feature_keys p) (lu_alpha p)
    (min_exploration_fraction p) (lu_total_rewards p).

Definition of_linucb_state (s : LinUcbState) : policy LinUcbPolicy :=
  arms ← try_map into_arm (ls_arms s);
  mret (mk_linucb (ls_experiment_id s) arms (ls_feature_keys s) (ls_alpha s)
          (ls_min_exploration_fraction s) (ls_total_rewards s)).

Section serialize.
Context {Bytes : Type} `{!Json Bytes ThompsonSamplingPolicy, !Json Bytes LinUcbState}.

(** [serialize] and [deserialize]; an unknown type or unreadable bytes panic. *)
Definition serialize (p : AnyPolicy) : Bytes :=
  match p with AThompson p => to_vec p | ALinUcb p => to_vec (linucb_state p) end.

Definition deserialize (policy_type : str) (data : Bytes) : policy AnyPolicy :=
  if decide (policy_type = lit "thompson_sampling") then
    p ← expect (from_slice data); mret (AThompson p)
  else if decide (policy_type = lit "linucb") then
    s ← expect (from_slice data); p ← of_linucb_state s; mret (ALinUcb p)
  else Panics.
End serialize.
End linucb.

(** ** Panicking code *)

Lemma assert_that_ok b : assert_that b = Ok tt ↔ b = true.
Proof. by destruct b. Qed.

Lemma assert_bind {A} b (f : unit → policy A) r : (assert_that b ≫= f) = Ok r ↔ b = true ∧ f tt = Ok r.
Proof. destruct b; cbn; [tauto|]. split; [done|by intros [? _]]. Qed.

Lemma expect_ok {A} (x : option A) a : expect x = Ok a ↔ x = Some a.
Proof. destruct x; cbn; split; by intros [= ->]. Qed.

Lemma try_map_ok {A B} (f : A → policy B) l r : try_map f l = Ok r → Forall2 (λ x y, f x = Ok y) l r.
Proof.
  induction l as [|x l IH] in r |- *; cbn [try_map]; intros H; [injection H as <-; constructor|].
  apply bind_ok_inv in H as (y & Hy & H). apply bind_ok_inv in H as (ys & Hys & H). injection H as <-.
  constructor; auto.
Qed.

Lemma update_first_ok {A} (P : A → Prop) (q : A → bool) (f : A → policy A) l l' :
  (∀ x y, P x → f x = Ok y → P y) → Forall P l → update_first q f l = Ok l' → Forall P l'.
Proof.
  intros Hf. induction l as [|x l IH] in l' |- *; intros Hl H; cbn [update_first] in H; [done|].
  apply Forall_cons in Hl as [Hx Hl]. destruct (q x); apply bind_ok_inv in H as (y & Hy & H); injection H as <-;
    constructor; eauto.
Qed.

(** ** Thompson posteriors *)

Definition arm_ok (a : BetaArm) : Prop := positive_f64 (alpha a) ∧ positive_f64 (beta a).
Definition thompson_ok (p : ThompsonSamplingPolicy) : Prop := Forall arm_ok (ts_arms p) ∧ reward_composer p = None.

Lemma one_positive : positive_f64 f64_one.
Proof. unfold f64_one. rewrite one_is. exists (2 ^ 52)%positive, (-52)%Z. by split_and!. Qed.

Lemma new_thompson_ok id arms : thompson_ok (new_thompson id arms).
Proof.
  split; [|done]. cbn [ts_arms new_thompson]. apply Forall_fmap, Forall_true. intros a. split; apply one_positive.
Qed.

Lemma update_beta_arm_ok a r a' : valid_f64 r → arm_ok a → update_beta_arm a r = Ok a' → arm_ok a'.
Proof.
  intros Hv [Ha Hb] H. unfold update_beta_arm, assert_finite in H. apply assert_bind in H as [_ H].
  apply assert_bind in H as [Hu H]. injection H as <-. unfold unit_interval in Hu. apply andb_prop in Hu as [H0 H1].
  pose proof (unit_interval_fraction r Hv H0 H1) as Hr.
  split; cbn [alpha beta]; apply add_unit_positive; try done. by apply one_minus_unit.
Qed.

Lemma update_thompson_ok p arm r p' : valid_f64 r → thompson_ok p → update_thompson p arm r = Ok p' → thompson_ok p'.
Proof.
  intros Hv [Hp Hc] H. unfold update_thompson in H. apply bind_ok_inv in H as (arms & Ha & H). injection H as <-.
  split; [|done]. cbn [ts_arms]. eapply update_first_ok; [|exact Hp|exact Ha]. intros x y. by apply update_beta_arm_ok.
Qed.

(** ** Choosing the largest *)

Lemma max_by_from_lt best i xs n : best.1 < i → max_by_from best i xs = Ok n → n < i + length xs.
Proof.
  induction xs as [|x xs IH] in best, i |- *; intros Hb H; cbn [max_by_from] in H; [injection H as <-; cbn; lia|].
  apply assert_bind in H as [_ H]. apply IH in H; [cbn; lia|]. destruct (f64_gt best.2 x); cbn; lia.
Qed.

Lemma max_by_index_lt xs n : max_by_index xs = Ok n → n < length xs.
Proof. destruct xs as [|x xs]; cbn [max_by_index]; [done|]. intros H%max_by_from_lt; cbn in *; lia. Qed.

Lemma max_by_from_total best i xs : f64_is_nan best.2 = false → Forall (λ x, f64_is_nan x = false) xs →
  ∃ n, max_by_from best i xs = Ok n.
Proof.
  induction xs as [|x xs IH] in best, i |- *; intros Hb Hx; cbn [max_by_from]; [by eexists|].
  apply Forall_cons in Hx as [Hx Hxs]. rewrite Hb, Hx. cbn [orb negb assert_that mbind result_bind mret result_ret].
  apply IH; [|done]. by destruct (f64_gt best.2 x).
Qed.

Lemma max_by_index_total xs : xs ≠ [] → Forall (λ x, f64_is_nan x = false) xs → ∃ n, max_by_index xs = Ok n.
Proof. destruct xs as [|x xs]; [done|]. intros _ [Hx Hxs]%Forall_cons. by apply max_by_from_total. Qed.

Lemma winner_from_lt best v i xs : best < i + length xs → winner_from best v i xs < i + length xs.
Proof.
  induction xs as [|x xs IH] in best, v, i |- *; cbn [winner_from length]; intros Hb; [lia|].
  destruct (f64_gt x v); [specialize (IH i x (S i))|specialize (IH best v (S i))]; lia.
Qed.

Lemma winner_lt xs : xs ≠ [] → winner xs < length xs.
Proof. intros Hx. apply (winner_from_lt 0 f64_neg_infinity 0 xs). destruct xs; cbn; [done|lia]. Qed.

(** ** Counting wins *)

Lemma sum_alter_S i l : i < length l → sum_list (alter S i l) = S (sum_list l).
Proof.
  induction l as [|x l IH] in i |- *; cbn [length]; intros Hi; [lia|]. destruct i as [|i]; [done|].
  change (x + sum_list (alter S i l) = S (x + sum_list l)). rewrite IH by lia. lia.
Qed.

Lemma sum_at_least l i : ∀ c, l !! i = Some c → (c ≤ sum_list l)%nat.
Proof. induction l as [|x l IH] in i |- *; intros c H; [done|]. destruct i; cbn in *; [simplify_eq; lia|]. apply IH in H. lia. Qed.

Lemma sum_alter_one i l : i < length l →
  sum_list (alter (λ c, if c =? 0 then 1 else c) i l) = sum_list l ∨
  sum_list (alter (λ c, if c =? 0 then 1 else c) i l) = S (sum_list l).
Proof.
  induction l as [|x l IH] in i |- *; cbn [length]; intros Hi; [lia|]. destruct i as [|i].
  - destruct x; cbn; auto.
  - change (alter (λ c, if c =? 0 then 1 else c) (S i) (x :: l)) with
      (x :: alter (λ c, if c =? 0 then 1 else c) i l).
    cbn [sum_list]. destruct (IH i) as [->| ->]; [lia|left|right]; lia.
Qed.

(** A share of the simulated wins is a positive probability. *)
Definition share (c total : nat) : f64 := f64_div (f64_of_Z (Z.of_nat c)) (f64_of_Z (Z.of_nat total)).

Lemma share_positive c total : 1 ≤ c ≤ total → total = 1000 ∨ total = 1001 → f64_gt (share c total) f64_zero = true.
Proof.
  intros Hc Ht.
  assert (Forall (λ c, f64_gt (share c 1000) f64_zero && f64_gt (share c 1001) f64_zero = true) (seq 1 1001)) as H.
  { apply (bool_decide_unpack _). vm_compute. exact I. }
  rewrite Forall_forall in H. specialize (H c). rewrite elem_of_seq in H. specialize (H ltac:(lia)).
  apply andb_prop in H as [H1 H2]. by destruct Ht as [-> | ->].
Qed.

(** ** Probability maps *)

Lemma fold_insert_lookup {A} (l : list (str * A)) (m : gmap str A) k v : NoDup l.*1 → (k, v) ∈ l →
  fold_left (λ m p, <[p.1 := p.2]> m) l m !! k = Some v.
Proof.
  revert m. induction l as [|[k' v'] l IH]; intros m Hn Hin; [by apply not_elem_of_nil in Hin|].
  apply NoDup_cons in Hn as [Hk Hn]. cbn [fst snd fold_left] in *.
  apply elem_of_cons in Hin as [[= -> ->]|Hin]; [|by apply IH].
  assert (∀ m : gmap str A, m !! k' = Some v' → fold_left (λ m p, <[p.1 := p.2]> m) l m !! k' = Some v') as H;
    [|apply H, lookup_insert_eq].
  clear IH Hn. induction l as [|[k v] l IH]; intros m' Hm; [done|]. cbn [fold_left fst snd] in *.
  apply not_elem_of_cons in Hk as [Hne Hk]. apply IH; [done|]. by rewrite lookup_insert_ne.
Qed.

Lemma probability_map_lookup ids probs i id p : NoDup ids → length probs = length ids →
  ids !! i = Some id → probs !! i = Some p → probability_map ids probs !! id = Some p.
Proof.
  intros Hn Hl Hi Hp. unfold probability_map. apply fold_insert_lookup.
  - rewrite fst_zip by lia. done.
  - apply list_elem_of_lookup. exists i. rewrite lookup_zip_with, Hi. cbn. by rewrite Hp.
Qed.

(** ** Thompson selection *)

(** [rand_distr]: a sample of a beta distribution is a number. *)
Class BetaLaws `{BetaSampler} :=
  beta_number a b rng : f64_gt a f64_zero = true → f64_gt b f64_zero = true → f64_is_nan (beta_sample a b rng).1 = false.

Section select.
Context {Hbs : BetaSampler} {Hbl : BetaLaws}.

Lemma sample_arm_ok a rng : arm_ok a → ∃ x rng', sample_arm a rng = Ok (x, rng') ∧ f64_is_nan x = false.
Proof.
  intros [Ha%positive_gt_zero Hb%positive_gt_zero]. unfold sample_arm. rewrite Ha, Hb. cbn.
  pose proof (beta_number _ _ rng Ha Hb) as Hn. destruct (beta_sample (alpha a) (beta a) rng) as [x rng']. by exists x, rng'.
Qed.

Lemma sample_arms_ok arms rng : Forall arm_ok arms → ∃ xs rng', sample_arms arms rng = Ok (xs, rng') ∧
  length xs = length arms ∧ Forall (λ x, f64_is_nan x = false) xs.
Proof.
  revert rng. induction arms as [|a arms IH]; intros rng Hok; [by exists [], rng|].
  apply Forall_cons in Hok as [Ha Hok]. destruct (sample_arm_ok a rng Ha) as (x & rng1 & Hx & Hnx).
  destruct (IH rng1 Hok) as (xs & rng2 & Hxs & Hl & Hn). exists (x :: xs), rng2. cbn [sample_arms].
  rewrite Hx. cbn [mbind result_bind mret result_ret]. rewrite Hxs. cbn. split_and!; [done|by rewrite Hl|by constructor].
Qed.

Lemma simulate_ok n arms counts rng : arms ≠ [] → Forall arm_ok arms → length counts = length arms →
  ∃ counts' rng', simulate n arms counts rng = Ok (counts', rng') ∧ length counts' = length arms ∧
    sum_list counts' = (n + sum_list counts)%nat.
Proof.
  intros Hne Hok. revert counts rng. induction n as [|n IH]; intros counts rng Hl; [by exists counts, rng|].
  cbn [simulate]. destruct (sample_arms_ok arms rng Hok) as (xs & rng1 & -> & Hxl & _). cbn [mbind result_bind].
  assert (winner xs < length counts) as Hw by (rewrite Hl, <- Hxl; apply winner_lt; by destruct xs, arms).
  destruct (IH (alter S (winner xs) counts) rng1) as (counts' & rng2 & -> & Hl' & Hs); [by rewrite length_alter|].
  exists counts', rng2. split_and!; [done|done|]. rewrite Hs, sum_alter_S by done. lia.
Qed.

(** The outcome of a selection: the shares of the wins, the chosen arm among the winners. *)
Record selected (arms : list BetaArm) (s : ArmSelection) (counts : list nat) (best : nat) : Prop := mk_selected
  { se_length : length counts = length arms;
    se_total : sum_list counts = 1000 ∨ sum_list counts = 1001;
    se_shares : ∀ i a c, arms !! i = Some a → counts !! i = Some c →
      all_arm_probabilities s !! ba_arm_id a = Some (share c (sum_list counts));
    se_arm : ∃ a c, arms !! best = Some a ∧ counts !! best = Some c ∧ 1 ≤ c ∧ sel_arm_id s = ba_arm_id a ∧
      assignment_probability s = share c (sum_list counts) }.

Lemma select_thompson_spec arms rng : arms ≠ [] → NoDup (ba_arm_id <$> arms) → Forall arm_ok arms →
  ∃ s rng' counts best, select_thompson arms rng = Ok (s, rng') ∧ selected arms s counts best.
Proof.
  intros Hne Hnd Hok. unfold select_thompson. rewrite bool_decide_eq_false_2 by done.
  cbn [negb assert_that mbind result_bind mret result_ret].
  destruct (sample_arms_ok arms rng Hok) as (xs & rng1 & -> & Hxl & Hxn). cbn [mbind result_bind].
  destruct (max_by_index_total xs) as [best Hb]; [by destruct xs, arms|done|]. rewrite Hb. cbn [mbind result_bind].
  destruct (simulate_ok MC_SIMULATIONS arms (replicate (length arms) 0) rng1) as (c0 & rng2 & -> & Hl0 & Hs0);
    [done..|by rewrite length_replicate|]. cbn [mbind result_bind].
  set (f := λ c : nat, if c =? 0 then 1 else c) in *. set (counts := alter f best c0).
  assert (sum_list (replicate (length arms) 0) = 0) as Hz by (rewrite sum_list_replicate; lia).
  rewrite Hz, Nat.add_0_r in Hs0. apply max_by_index_lt in Hb. rewrite Hxl in Hb.
  assert (length counts = length arms) as Hl by (unfold counts; by rewrite length_alter).
  assert (sum_list counts = 1000 ∨ sum_list counts = 1001) as Ht.
  { destruct (sum_alter_one best c0) as [H|H]; [lia|left|right]; unfold counts, f; rewrite H, Hs0; done. }
  destruct (lookup_lt_is_Some_2 arms best Hb) as [a Ha]. destruct (lookup_lt_is_Some_2 c0 best ltac:(lia)) as [c Hc].
  assert (counts !! best = Some (f c)) as Hcb by (unfold counts; rewrite list_lookup_alter_eq, Hc; done).
  rewrite Ha. cbn [expect mbind result_bind mret result_ret].
  change (λ c : nat, f64_div (f64_of_Z (Z.of_nat c)) (f64_of_Z (Z.of_nat (sum_list counts)))) with
    (λ c, share c (sum_list counts)).
  set (probs := (λ c, share c (sum_list counts)) <$> counts).
  assert (∀ i a c, arms !! i = Some a → counts !! i = Some c →
    probability_map (ba_arm_id <$> arms) probs !! ba_arm_id a = Some (share c (sum_list counts))) as Hp.
  { intros i a' c' Hi Hci. apply (probability_map_lookup _ _ i); [done|by unfold probs; rewrite !length_fmap| |].
    - by rewrite list_lookup_fmap, Hi.
    - unfold probs. by rewrite list_lookup_fmap, Hci. }
  rewrite (Hp best a (f c)) by done. cbn [expect mbind result_bind mret result_ret].
  eexists _, rng2, counts, best. split; [done|]. split; [done|done|done|].
  exists a, (f c). split_and!; try done. unfold f. destruct c; cbn; lia.
Qed.
End select.

(** ** The largest *)

Lemma f64_not_gt_trans x y z : f64_is_nan x = false → f64_is_nan y = false → f64_is_nan z = false →
  f64_gt x y = false → f64_gt y z = false → f64_gt x z = false.
Proof.
  unfold f64_gt, SFltb. destruct x as [[]|[]| |[] mx ex], y as [[]|[]| |[] my ey], z as [[]|[]| |[] mz ez];
    intros Hx Hy Hz; try done; cbn [SFcompare]; change (Pos.compare_cont Eq) with Pos.compare;
    repeat match goal with |- context [Z.compare ?a ?b] => destruct (Z.compare_spec a b) end;
    repeat match goal with |- context [Pos.compare ?a ?b] => destruct (Pos.compare_spec a b) end;
    cbn [CompOpp]; intros; try done; lia.
Qed.

Lemma f64_gt_irrefl x : f64_gt x x = false.
Proof.
  unfold f64_gt, SFltb. destruct x as [[]|[]| |[] mx ex]; try done; cbn [SFcompare];
    change (Pos.compare_cont Eq) with Pos.compare; by rewrite Z.compare_refl, Pos.compare_refl.
Qed.

Lemma f64_gt_asym x y : f64_gt x y = true → f64_gt y x = false.
Proof.
  unfold f64_gt, SFltb. destruct x as [[]|[]| |[] mx ex], y as [[]|[]| |[] my ey]; try done;
    cbn [SFcompare]; change (Pos.compare_cont Eq) with Pos.compare;
    destruct (Z.compare_spec ey ex), (Z.compare_spec ex ey); try done; try lia;
    destruct (Pos.compare_spec my mx), (Pos.compare_spec mx my); try done; lia.
Qed.

Lemma max_by_from_max best i xs n (done_ : list f64) : length done_ = i → done_ !! best.1 = Some best.2 →
  (∀ y, y ∈ done_ → f64_is_nan y = false ∧ f64_gt y best.2 = false) →
  max_by_from best i xs = Ok n →
  ∃ v, (done_ ++ xs) !! n = Some v ∧ ∀ y, y ∈ done_ ++ xs → f64_gt y v = false.
Proof.
  induction xs as [|x xs IH] in best, i, done_ |- *; intros Hl Hb Hd H; cbn [max_by_from] in H.
  { injection H as <-. rewrite app_nil_r. exists best.2. split; [done|]. intros y Hy. by apply Hd. }
  apply assert_bind in H as [Hn H]. apply negb_true_iff, orb_false_iff in Hn as [Hnb Hnx].
  destruct (IH (if f64_gt best.2 x then best else (i, x)) (S i) (done_ ++ [x])) as (v & Hv & Hmax).
  - rewrite length_app. cbn. lia.
  - destruct (f64_gt best.2 x); cbn [fst snd]; [by apply lookup_app_l_Some|].
    rewrite lookup_app_r by lia. by rewrite Hl, Nat.sub_diag.
  - intros y [Hy|Hy%list_elem_of_singleton]%elem_of_app.
    + destruct (Hd y Hy) as [Hny Hy']. split; [done|]. destruct (f64_gt best.2 x) eqn:E; cbn [snd]; [done|].
      by apply (f64_not_gt_trans y best.2 x).
    + subst y. split; [done|]. destruct (f64_gt best.2 x) eqn:E; cbn [snd].
      * by apply f64_gt_asym.
      * apply f64_gt_irrefl.
  - done.
  - rewrite <- app_assoc in Hv. exists v. split; [done|]. intros y Hy. apply Hmax. by rewrite <- app_assoc.
Qed.

Lemma max_by_index_max xs n : max_by_index xs = Ok n →
  ∃ v, xs !! n = Some v ∧ ∀ y, y ∈ xs → f64_gt y v = false.
Proof.
  destruct xs as [|x [|y xs]]; cbn [max_by_index]; intros H; [done| |].
  - injection H as <-. exists x. split; [done|]. intros z ->%list_elem_of_singleton. apply f64_gt_irrefl.
  - assert (f64_is_nan x = false) as Hx.
    { cbn [max_by_from] in H. apply assert_bind in H as [Hn _]. by apply negb_true_iff, orb_false_iff in Hn as [? _]. }
    apply (max_by_from_max (0, x) 1 (y :: xs) n [x]); try done. intros z ->%list_elem_of_singleton.
    split; [done|apply f64_gt_irrefl].
Qed.

(** ** LinUCB *)

Section linucb.
Context {Hna : Nalgebra}.

(** The outcome of a LinUCB selection: a maximal score takes the exploitation share. *)
Record ucb_selected (p : LinUcbPolicy) (context : Features) (s : ArmSelection) (scores : list f64) (best : nat) : Prop :=
  mk_ucb_selected
  { us_scores : ∃ x, context_to_vector p context = Ok x ∧
      Forall2 (λ a score, ucb_score a x (lu_alpha p) = Ok score) (lu_arms p) scores;
    us_best : ∃ a v, lu_arms p !! best = Some a ∧ scores !! best = Some v ∧ sel_arm_id s = la_arm_id a ∧
      ∀ y, y ∈ scores → f64_gt y v = false;
    us_probabilities : let m := min_exploration_fraction p in
      let k := f64_of_Z (Z.of_nat (length (lu_arms p))) in
      let share_of i := if i =? best then f64_add m (f64_sub f64_one (f64_mul k m)) else m in
      assignment_probability s = share_of best ∧
      ∀ i a, lu_arms p !! i = Some a → all_arm_probabilities s !! la_arm_id a = Some (share_of i) }.

Lemma select_linucb_spec p context s : NoDup (la_arm_id <$> lu_arms p) → select_linucb p (Some context) = Ok s →
  ∃ scores best, ucb_selected p context s scores best.
Proof.
  intros Hnd H. unfold select_linucb in H. cbn [expect mbind result_bind mret result_ret] in H.
  apply bind_ok_inv in H as (x & Hx & H). apply bind_ok_inv in H as (scores & Hsc & H).
  apply bind_ok_inv in H as ([best all] & Hb & H). apply bind_ok_inv in H as (a & Ha%expect_ok & H).
  apply bind_ok_inv in H as (pr & Hpr%expect_ok & H). injection H as <-. apply try_map_ok in Hsc.
  unfold compute_probabilities in Hb. apply bind_ok_inv in Hb as (best' & Hmax & Hb). injection Hb as -> <-.
  exists scores, best. apply max_by_index_max in Hmax as (v & Hv & Hmax).
  split; [by exists x|by exists a, v|]. cbv zeta. cbn [assignment_probability all_arm_probabilities].
  set (m := min_exploration_fraction p) in *. set (k := f64_of_Z (Z.of_nat (length (lu_arms p)))) in *.
  set (probs := (λ i, if i =? best then f64_add m (f64_sub f64_one (f64_mul k m)) else m) <$> seq 0 (length (lu_arms p))) in *.
  assert (∀ i a, lu_arms p !! i = Some a → probability_map (la_arm_id <$> lu_arms p) probs !! la_arm_id a =
    Some (if i =? best then f64_add m (f64_sub f64_one (f64_mul k m)) else m)) as Hall.
  { intros i a' Hi. apply (probability_map_lookup _ _ i); [done|by unfold probs; rewrite !length_fmap, length_seq| |].
    - by rewrite list_lookup_fmap, Hi.
    - unfold probs. rewrite list_lookup_fmap, lookup_seq_lt by by eapply lookup_lt_Some. done. }
  split; [|done]. pose proof (eq_trans (eq_sym Hpr) (Hall best a Ha)) as Heq. by injection Heq.
Qed.

(** ** Affinity scores *)

Lemma predicted_finite p id context v : predicted_reward p id context = Ok v → f64_is_finite v = true.
Proof.
  unfold predicted_reward, assert_finite. intros H. apply bind_ok_inv in H as (x & _ & H).
  apply bind_ok_inv in H as (a & _ & H). apply assert_bind in H as [Hf H]. by injection H as <-.
Qed.

Lemma finite_number v : f64_is_finite v = true → f64_is_nan v = false ∧ f64_gt v f64_neg_infinity = true.
Proof. by destruct v as [[]| | |[]]. Qed.

(** The best arm so far has a prediction none of the arms before exceeds. *)
Definition placed p (context : Features) (seen : list LinUcbArm) (best : str * f64) : Prop :=
  (∃ a, a ∈ seen ∧ best.1 = la_arm_id a ∧ predicted_reward p (la_arm_id a) context = Ok best.2) ∧
  ∀ a v, a ∈ seen → predicted_reward p (la_arm_id a) context = Ok v → f64_gt v best.2 = false.

Lemma best_placement_spec p context arms : ∀ seen best r, placed p context seen best →
  best_placement p context arms best = Ok r → placed p context (seen ++ arms) r.
Proof.
  induction arms as [|a arms IH]; intros seen best r Hp H; cbn [best_placement] in H.
  { injection H as <-. by rewrite app_nil_r. }
  apply bind_ok_inv in H as (v & Hv & H). rewrite cons_middle, app_assoc. eapply IH; [|exact H].
  destruct Hp as [(b & Hb & Hid & Hpb) Hmax]. destruct (f64_gt v best.2) eqn:Hgt; split; cbn [fst snd].
  - exists a. split; [set_solver|done].
  - intros a' v' [Ha'|Ha'%list_elem_of_singleton]%elem_of_app Hv'; [|subst a'; assert (v' = v) as -> by congruence; apply f64_gt_irrefl].
    destruct (finite_number v) as [? _]; [by eapply predicted_finite|].
    destruct (finite_number v') as [? _]; [by eapply predicted_finite|].
    destruct (finite_number best.2) as [? _]; [by eapply predicted_finite|].
    apply (f64_not_gt_trans v' best.2 v); try done; [by eapply Hmax|by apply f64_gt_asym].
  - exists b. split; [set_solver|done].
  - intros a' v' [Ha'|Ha'%list_elem_of_singleton]%elem_of_app Hv'; [by eapply Hmax|subst a'; congruence].
Qed.

Lemma best_placement_start p context arms r : arms ≠ [] →
  best_placement p context arms ([], f64_neg_infinity) = Ok r → placed p context arms r.
Proof.
  destruct arms as [|a arms]; [done|]. intros _ H. cbn [best_placement] in H.
  apply bind_ok_inv in H as (v & Hv & H). pose proof (predicted_finite _ _ _ _ Hv) as Hf.
  cbn [snd] in H. rewrite (proj2 (finite_number v Hf)) in H.
  apply (best_placement_spec p context arms [a] (la_arm_id a, v)); [|done]. split; cbn [fst snd].
  - exists a. split; [by left|done].
  - intros a' v' ->%list_elem_of_singleton Hv'. assert (v' = v) as -> by congruence. apply f64_gt_irrefl.
Qed.

Lemma export_affinity_spec p content segments r : lu_arms p ≠ [] →
  export_affinity_scores p content segments = Ok r →
  af_content_id r = content ∧
  ∀ name, match segments !! name with
    | None => segment_affinity_scores r !! name = None ∧ optimal_placements r !! name = None
    | Some context => ∃ best, optimal_placements r !! name = Some best.1 ∧
        segment_affinity_scores r !! name = Some best.2 ∧ placed p context (lu_arms p) best
    end.
Proof.
  intros Hne H. unfold export_affinity_scores in H. apply bind_ok_inv in H as (ps & Hps%try_map_ok & H).
  injection H as <-. split; [done|]. intros name. cbn [segment_affinity_scores optimal_placements].
  rewrite !lookup_fmap.
  assert (ps.*1 = (map_to_list segments).*1) as Hkeys.
  { clear -Hps. induction Hps as [|[n ctx] [n' b] l k H Hf IH]; [done|]. rewrite !fmap_cons, IH. f_equal. cbn [fst].
    unfold segment_placement in H. apply bind_ok_inv in H as (? & _ & H). by injection H as <- _. }
  assert (NoDup ps.*1) as Hnd by (rewrite Hkeys; apply NoDup_fst_map_to_list).
  destruct (segments !! name) as [context|] eqn:Hs.
  - apply elem_of_map_to_list in Hs as Hin. apply list_elem_of_lookup in Hin as [i Hi].
    destruct (Forall2_lookup_l _ _ _ _ _ Hps Hi) as ([n b] & Hb & Hpl). unfold segment_placement in Hpl.
    apply bind_ok_inv in Hpl as (best & Hbest & Hpl). injection Hpl as <- <-. cbn [fst snd] in *.
    exists best. rewrite (elem_of_list_to_map_1 _ _ best Hnd) by (by eapply list_elem_of_lookup_2).
    split_and!; [done|done|]. by eapply best_placement_start.
  - rewrite not_elem_of_list_to_map_1; [done|]. rewrite Hkeys.
    intros ([n ctx] & Hn & Hin%elem_of_map_to_list)%list_elem_of_fmap. cbn in Hn. congruence.
Qed.
End linucb.
