(* ===== verification/Snapshots.v ===== *)
(** The policy snapshot store ([experimentation-policy/src/snapshot.rs]): one RocksDB entry
    per snapshot, under the experiment id, a NUL and the 20-digit time in milliseconds.

    RocksDB is an ordered map from byte strings; any of its operations may fail, which each
    operation of the store takes as an argument. The theorems say that the store keeps, per
    experiment, a history ordered by time: what is loaded is the newest snapshot, and pruning
    forgets the oldest ones. *)
From Stdlib Require Import Ascii String.
From stdpp Require Import sorting.
From S2P Require Import Prelude Bytes Bandit.

(** RocksDB's contents. *)
Abbreviation RocksDb := (gmap str) (only parsing).

Section snapshots.
Context {Bytes : Type}.

Record SnapshotEnvelope := mk_envelope
  { env_experiment_id : str; env_policy_type : str; env_policy_state : Bytes;
    env_total_rewards : Z; env_kafka_offset : Z; env_snapshot_at : Z;
    env_composer_state : option Bytes }.

Context `{!Json Bytes SnapshotEnvelope}.

Definition KEY_SEP : ascii := "000".

Definition digit (n : Z) : ascii := ascii_of_N (Z.to_N (48 + n mod 10)).

(** The last [w] decimal digits; a [u64] has at most 20. *)
Fixpoint zero_padded (w : nat) (n : Z) : str :=
  match w with
  | O => []
  | S w => digit (n / 10 ^ Z.of_nat w) :: zero_padded w n
  end.

Definition clamp_millis (t : Z) : Z := if (t <? 0)%Z then 0%Z else t.

Definition key_prefix (experiment_id : str) : str := experiment_id ++ [KEY_SEP].

Definition key_of (experiment_id : str) (t : Z) : str :=
  key_prefix experiment_id ++ zero_padded 20 (clamp_millis t).

Definition snapshot_key (experiment_id : str) (timestamp_millis : Z) : policy str :=
  _ ← assert_that (negb (bool_decide (KEY_SEP ∈ experiment_id)));
  mret (key_of experiment_id timestamp_millis).

(** [put], unless it fails. *)
Definition put_snapshot (fails : bool) (e : SnapshotEnvelope) (db : RocksDb Bytes) : policy (RocksDb Bytes) :=
  key ← snapshot_key (env_experiment_id e) (env_snapshot_at e);
  _ ← reject_if fails Internal;
  mret (<[key := to_vec e]> db).

Definition entry_le (a b : str * Bytes) : Prop := str_le a.1 b.1.
#[global] Instance entry_le_dec : RelDecision entry_le.
Proof. intros a b. unfold entry_le. apply _. Defined.

Definition entries (db : RocksDb Bytes) : list (str * Bytes) := merge_sort entry_le (map_to_list db).

(** What an iterator over the entries yields: the item it fails at ends it. *)
Definition iterate (fails_at : option nat) (l : list (str * Bytes)) : list (option (str * Bytes)) :=
  match fails_at with
  | None => Some <$> l
  | Some n => (Some <$> take n l) ++ [None]
  end.

Definition read_envelope (value : Bytes) : policy SnapshotEnvelope := expect (from_slice value).

Fixpoint latest_loop (prefix : str) (items : list (option (str * Bytes))) : policy (option SnapshotEnvelope) :=
  match items with
  | [] => mret None
  | None :: _ => Err Internal
  | Some (key, value) :: items =>
      if starts_with prefix key then e ← read_envelope value; mret (Some e)
      else if decide (str_le prefix key) then latest_loop prefix items
      else mret None
  end.

Definition load_latest (fails_at : option nat) (experiment_id : str) (db : RocksDb Bytes) :
    policy (option SnapshotEnvelope) :=
  latest_loop (key_prefix experiment_id) (iterate fails_at (reverse (entries db))).

Fixpoint load_all_loop (items : list (option (str * Bytes))) (latest : gmap str SnapshotEnvelope) :
    policy (gmap str SnapshotEnvelope) :=
  match items with
  | [] => mret latest
  | None :: _ => Err Internal
  | Some (_, value) :: items =>
      e ← read_envelope value;
      load_all_loop items (<[env_experiment_id e := e]> latest)
  end.

Definition load_all_latest (fails_at : option nat) (db : RocksDb Bytes) : policy (gmap str SnapshotEnvelope) :=
  load_all_loop (iterate fails_at (entries db)) ∅.

(** The keys from the prefix on, as long as they start with it. *)
Fixpoint prefix_keys (prefix : str) (items : list (option (str * Bytes))) : policy (list str) :=
  match items with
  | [] => mret []
  | None :: _ => Err Internal
  | Some (key, _) :: items =>
      if starts_with prefix key then keys ← prefix_keys prefix items; mret (key :: keys) else mret []
  end.

(** Deletions stop at the one that fails. *)
Definition delete_keys (fails_at : option nat) (keys : list str) (db : RocksDb Bytes) : RocksDb Bytes * policy unit :=
  let deleted keys := foldr delete db keys in
  match fails_at with
  | Some n => if n <? length keys then (deleted (take n keys), Err Internal) else (deleted keys, Ok tt)
  | None => (deleted keys, Ok tt)
  end.

Definition from_prefix (prefix : str) (db : RocksDb Bytes) : list (str * Bytes) :=
  filter (λ kv, str_le prefix kv.1) (entries db).

Definition prune_old_snapshots (scan_fails delete_fails : option nat) (experiment_id : str) (keep : nat)
    (db : RocksDb Bytes) : RocksDb Bytes * policy nat :=
  match prefix_keys (key_prefix experiment_id) (iterate scan_fails (from_prefix (key_prefix experiment_id) db)) with
  | Ok keys =>
      if length keys <=? keep then (db, Ok 0)
      else
        let to_delete := length keys - keep in
        let '(db, r) := delete_keys delete_fails (take to_delete keys) db in
        (db, _ ← r; mret to_delete)
  | Err e => (db, Err e)
  | Panics => (db, Panics)
  | OutOfFuel => (db, OutOfFuel)
  end.
End snapshots.
Arguments SnapshotEnvelope Bytes : clear implicits.

(** ** Keys *)

Lemma str_le_cons a b s t : str_le (a :: s) (b :: t) ↔ (code a < code b)%N ∨ a = b ∧ str_le s t.
Proof.
  unfold str_le, String.le, String.leb. simpl. unfold Ascii.compare, code.
  destruct (N.compare_spec (N_of_ascii a) (N_of_ascii b)) as [Heq|Hlt|Hgt].
  - apply (f_equal ascii_of_N) in Heq. rewrite !ascii_N_embedding in Heq. subst b. split.
    + by right.
    + intros [?|[_ ?]]; [lia|done].
  - by split; [left|].
  - split; [by intros []|]. intros [?|[-> ?]]; lia.
Qed.

Lemma str_le_nil s : str_le [] s.
Proof. by destruct s. Qed.

Lemma str_le_refl s : str_le s s.
Proof. by destruct (total str_le s s). Qed.

Lemma str_le_app p s t : str_le (p ++ s) (p ++ t) ↔ str_le s t.
Proof.
  induction p as [|a p IH]; [done|]. cbn [app]. rewrite str_le_cons, IH. split; [|auto].
  intros [?|[_ ?]]; [lia|done].
Qed.

Lemma prefix_le p t : str_le p (p ++ t).
Proof. rewrite <- (app_nil_r p) at 1. apply str_le_app, str_le_nil. Qed.

(** The strings that start with a prefix follow one another. *)
Lemma prefix_between p k t : str_le p k → str_le k (p ++ t) → starts_with p k = true.
Proof.
  revert k. induction p as [|a p IH]; intros [|b k] H1 H2; try done.
  cbn [app] in H2. rewrite str_le_cons in H1, H2. destruct H1 as [?|[-> H1]].
  { destruct H2 as [?|[-> _]]; lia. }
  destruct H2 as [?|[_ H2]]; [lia|]. cbn [starts_with]. by rewrite Ascii.eqb_refl, IH.
Qed.

Lemma digit_lt n m : (0 ≤ n < 10)%Z → (0 ≤ m < 10)%Z → (code (digit n) < code (digit m))%N ↔ (n < m)%Z.
Proof.
  intros Hn Hm. unfold digit, code. rewrite !Z.mod_small by lia.
  rewrite !N_ascii_embedding by lia. lia.
Qed.

Lemma digit_mod n : digit (n mod 10) = digit n.
Proof. unfold digit. by rewrite Zmod_mod. Qed.

Lemma zero_padded_mod w n : zero_padded w (n mod 10 ^ Z.of_nat w) = zero_padded w n.
Proof.
  assert (∀ v k, (v ≤ w)%nat → zero_padded v (k mod 10 ^ Z.of_nat w) = zero_padded v k) as H; [|by apply H].
  induction v as [|v IH]; intros k Hv; [done|]. cbn [zero_padded]. rewrite IH by lia. f_equal.
  rewrite <- (digit_mod (k / _)), <- (digit_mod (_ / _)). f_equal.
  replace (Z.of_nat w) with (Z.of_nat v + (1 + Z.of_nat (w - S v)))%Z by lia.
  rewrite !Z.pow_add_r by lia. rewrite Z.rem_mul_r by (try apply Z.pow_nonzero; try apply Z.mul_pos_pos; try apply Z.pow_pos_nonneg; lia).
  rewrite Z.mul_comm, Z.div_add by (apply Z.pow_nonzero; lia).
  rewrite Z.div_small by (apply Z.mod_pos_bound, Z.pow_pos_nonneg; lia). cbn [Z.add].
  symmetry. apply Znumtheory.Zmod_div_mod; [lia|apply Z.mul_pos_pos; [lia|apply Z.pow_pos_nonneg; lia]|].
  apply Z.divide_factor_l.
Qed.

(** Printed at a fixed width, numbers are in the order of their bytes. *)
Lemma zero_padded_le w : ∀ n m, (0 ≤ n < 10 ^ Z.of_nat w)%Z → (0 ≤ m < 10 ^ Z.of_nat w)%Z →
  str_le (zero_padded w n) (zero_padded w m) ↔ (n ≤ m)%Z.
Proof.
  induction w as [|w IH]; intros n m Hn Hm.
  { change (10 ^ Z.of_nat 0)%Z with 1%Z in *. split; [lia|by intros _]. }
  cbn [zero_padded]. rewrite str_le_cons. set (P := (10 ^ Z.of_nat w)%Z).
  assert (0 < P)%Z as HP by (apply Z.pow_pos_nonneg; lia).
  assert (10 ^ Z.of_nat (S w) = P * 10)%Z as HS.
  { rewrite Nat2Z.inj_succ, Z.pow_succ_r by lia. apply Z.mul_comm. }
  rewrite HS in Hn, Hm.
  assert (0 ≤ n / P < 10)%Z as Hnd by (split; [apply Z.div_pos|apply Z.div_lt_upper_bound]; lia).
  assert (0 ≤ m / P < 10)%Z as Hmd by (split; [apply Z.div_pos|apply Z.div_lt_upper_bound]; lia).
  pose proof (Z.div_mod n P ltac:(lia)) as En. pose proof (Z.div_mod m P ltac:(lia)) as Em.
  pose proof (Z.mod_pos_bound n P HP). pose proof (Z.mod_pos_bound m P HP).
  rewrite <- (zero_padded_mod w n), <- (zero_padded_mod w m), IH by done. fold P.
  rewrite digit_lt by done. split.
  - intros [Hlt|[Heq Hle]]; [nia|].
    assert (n / P = m / P)%Z; [|nia]. apply Z.le_antisymm; apply Z.nlt_ge; intros Hlt;
      apply (digit_lt _ _) in Hlt; try done; rewrite Heq in Hlt; lia.
  - intros Hle. destruct (Z.lt_trichotomy (n / P) (m / P)) as [?|[Heq|Hgt]]; [by left| |nia].
    right. split; [by rewrite Heq|]. rewrite Heq in En. lia.
Qed.

Lemma zero_padded_length w n : length (zero_padded w n) = w.
Proof. induction w as [|w IH] in n |- *; [done|]. cbn [zero_padded length]. by rewrite IH. Qed.

Definition millis (t : Z) : Prop := (t < 10 ^ 20)%Z.

Lemma clamp_millis_range t : millis t → (0 ≤ clamp_millis t < 10 ^ Z.of_nat 20)%Z.
Proof. unfold millis, clamp_millis. change (Z.of_nat 20) with 20%Z. destruct (t <? 0)%Z eqn:E; lia. Qed.

Lemma zero_padded_inj n m : (0 ≤ n < 10 ^ Z.of_nat 20)%Z → (0 ≤ m < 10 ^ Z.of_nat 20)%Z →
  zero_padded 20 n = zero_padded 20 m → n = m.
Proof.
  intros Hn Hm H. apply Z.le_antisymm; apply (zero_padded_le 20); try done; rewrite H; apply str_le_refl.
Qed.

Lemma key_of_inj id t id' t' : millis t → millis t' → key_of id t = key_of id' t' →
  id = id' ∧ clamp_millis t = clamp_millis t'.
Proof.
  intros Ht Ht' H. apply app_inj_2 in H as [Hp Hz]; [|by rewrite !zero_padded_length].
  apply app_inj_2 in Hp as [-> _]; [|done]. split; [done|]. apply zero_padded_inj; auto using clamp_millis_range.
Qed.

Lemma key_of_le id t t' : millis t → millis t' →
  str_le (key_of id t) (key_of id t') ↔ (clamp_millis t ≤ clamp_millis t')%Z.
Proof. intros Ht Ht'. unfold key_of. rewrite str_le_app. apply zero_padded_le; by apply clamp_millis_range. Qed.

Lemma snapshot_key_ok id t k : snapshot_key id t = Ok k ↔ KEY_SEP ∉ id ∧ k = key_of id t.
Proof.
  unfold snapshot_key, assert_that. destruct (bool_decide (KEY_SEP ∈ id)) eqn:E; cbn [negb].
  - apply bool_decide_eq_true in E. split; [done|]. by intros [? _].
  - apply bool_decide_eq_false in E. cbn [mbind result_bind mret result_ret]. split; [intros [= <-]|intros [_ ->]]; done.
Qed.

Lemma digits_not_sep w n : KEY_SEP ∉ zero_padded w n.
Proof.
  induction w as [|w IH] in n |- *; [by intros ?%not_elem_of_nil|]. cbn [zero_padded].
  rewrite not_elem_of_cons. split; [|done]. unfold digit, KEY_SEP. intros H.
  apply (f_equal N_of_ascii) in H. pose proof (Z.mod_pos_bound (n / 10 ^ Z.of_nat w) 10).
  rewrite N_ascii_embedding in H by lia. cbn in H. lia.
Qed.

(** A key belongs to the experiment of its prefix. *)
Lemma key_prefix_spec id id' t : KEY_SEP ∉ id' →
  starts_with (key_prefix id) (key_of id' t) = true ↔ id = id'.
Proof.
  intros Hid'. rewrite starts_with_spec. split; [|by intros ->; eexists].
  intros [u Hu]. unfold key_of, key_prefix in Hu. rewrite <- !app_assoc in Hu. cbn [app] in Hu.
  pose proof (digits_not_sep 20 (clamp_millis t)) as Hz. revert Hz Hu.
  generalize (zero_padded 20 (clamp_millis t)) as z. intros z Hz Hu.
  revert id' Hid' Hu. induction id as [|a id IH]; intros [|b id'] Hid' Hu; [done| | |].
  - cbn [app] in Hu. injection Hu as H _. destruct Hid'. rewrite H. by left.
  - cbn [app] in Hu. injection Hu as _ Hu. destruct Hz. rewrite Hu. set_solver.
  - cbn [app] in Hu. injection Hu as -> Hu. rewrite not_elem_of_cons in Hid'. f_equal. apply IH; [by destruct Hid'|done].
Qed.

(** ** The store *)

Section store.
Context {Bytes : Type} `{!Json Bytes (SnapshotEnvelope Bytes)}.
Implicit Types (db : RocksDb Bytes) (e : SnapshotEnvelope Bytes) (id : str).

(** Every entry is a readable envelope under its own key. *)
Definition entry_ok (key : str) (value : Bytes) : Prop :=
  ∃ e, from_slice value = Some e ∧ KEY_SEP ∉ env_experiment_id e ∧ millis (env_snapshot_at e) ∧
    key = key_of (env_experiment_id e) (env_snapshot_at e).

Definition store_ok db : Prop := map_Forall entry_ok db.

Definition saved db e : Prop := ∃ key value, db !! key = Some value ∧ from_slice value = Some e.

Definition entry_good (kv : str * Bytes) : Prop := entry_ok kv.1 kv.2.

(** The snapshots of an experiment, oldest first. *)
Definition of_experiment id (kv : str * Bytes) : option (SnapshotEnvelope Bytes) :=
  match from_slice kv.2 with
  | Some e => if decide (env_experiment_id e = id) then Some e else None
  | None => None
  end.

Definition history id db : list (SnapshotEnvelope Bytes) := omap (of_experiment id) (entries db).

Definition earlier e e' : Prop := (clamp_millis (env_snapshot_at e) < clamp_millis (env_snapshot_at e'))%Z.

#[global] Instance earlier_dec : RelDecision earlier.
Proof. intros e e'. unfold earlier. apply _. Defined.

#[local] Instance entry_le_trans : Transitive (entry_le (Bytes:=Bytes)).
Proof. intros a b c. unfold entry_le. apply transitivity. Qed.

#[local] Instance entry_le_total : Total (entry_le (Bytes:=Bytes)).
Proof. intros a b. unfold entry_le. apply (total str_le). Qed.

Lemma entries_perm db : entries db ≡ₚ map_to_list db.
Proof. apply merge_sort_Permutation. Qed.

Lemma elem_of_entries db k v : (k, v) ∈ entries db ↔ db !! k = Some v.
Proof. by rewrite entries_perm, elem_of_map_to_list. Qed.

Lemma entries_sorted db : StronglySorted entry_le (entries db).
Proof. apply StronglySorted_merge_sort; apply _. Qed.

Lemma entries_nodup db : NoDup (entries db).*1.
Proof. rewrite entries_perm. apply NoDup_fst_map_to_list. Qed.

(** A list of distinct keys in order is the entries of its map. *)
Lemma entries_unique db l : (∀ k v, (k, v) ∈ l ↔ db !! k = Some v) → NoDup l.*1 → StronglySorted entry_le l →
  entries db = l.
Proof.
  intros Hl Hn Hs. apply (StronglySorted_unique_strong entry_le); [|apply entries_sorted|done|].
  - intros [k v] [k' v'] Hx Hy H1 H2. unfold entry_le in H1, H2. cbn [fst] in *.
    assert (k = k') as -> by by apply (anti_symm str_le). rewrite elem_of_entries in Hx. apply Hl in Hy. congruence.
  - apply NoDup_Permutation.
    + eapply NoDup_fmap_1, entries_nodup.
    + by eapply NoDup_fmap_1.
    + intros [k v]. by rewrite elem_of_entries, Hl.
Qed.

Lemma entry_ok_inv k v e : entry_ok k v → from_slice v = Some e →
  KEY_SEP ∉ env_experiment_id e ∧ millis (env_snapshot_at e) ∧ k = key_of (env_experiment_id e) (env_snapshot_at e).
Proof. intros (e' & He' & H) He. by simplify_eq. Qed.

Lemma of_experiment_some id kv e : of_experiment id kv = Some e ↔ from_slice kv.2 = Some e ∧ env_experiment_id e = id.
Proof. unfold of_experiment. destruct (from_slice kv.2) as [e'|]; [|naive_solver]. case_decide; naive_solver. Qed.

Lemma of_experiment_eq id (kv : str * Bytes) e : from_slice kv.2 = Some e →
  of_experiment id kv = if decide (env_experiment_id e = id) then Some e else None.
Proof. intros He. unfold of_experiment. by rewrite He. Qed.

Lemma of_experiment_none id (kv : str * Bytes) : entry_ok kv.1 kv.2 →
  of_experiment id kv = None ↔ starts_with (key_prefix id) kv.1 = false.
Proof.
  intros Hok. pose proof Hok as (e & He & Hsep & Ht & Hk). rewrite Hk.
  rewrite <- not_true_iff_false, key_prefix_spec by done. unfold of_experiment. rewrite He.
  case_decide; naive_solver.
Qed.

Lemma entries_ok db : store_ok db → Forall entry_good (entries db).
Proof. intros Hok. apply Forall_forall. intros [k v] Hx%elem_of_entries. by apply Hok. Qed.

(** Any two entries of an experiment are in the order of their times. *)
Lemma entry_earlier id (kv kv' : str * Bytes) e e' : entry_ok kv.1 kv.2 → entry_ok kv'.1 kv'.2 →
  of_experiment id kv = Some e → of_experiment id kv' = Some e' →
  str_le kv.1 kv'.1 → kv.1 ≠ kv'.1 → earlier e e'.
Proof.
  intros Hok Hok' [He <-]%of_experiment_some [He' Hid]%of_experiment_some Hle Hne.
  destruct (entry_ok_inv _ _ e Hok He) as (_ & Ht & Hk), (entry_ok_inv _ _ e' Hok' He') as (_ & Ht' & Hk').
  rewrite Hk, Hk', Hid in *. apply key_of_le in Hle; [|done..]. unfold earlier.
  enough (clamp_millis (env_snapshot_at e) ≠ clamp_millis (env_snapshot_at e')) by lia.
  intros Heq. apply Hne. unfold key_of. by rewrite Heq.
Qed.

Lemma history_sorted_list id (l : list (str * Bytes)) : Forall entry_good l → NoDup l.*1 → StronglySorted entry_le l →
  StronglySorted earlier (omap (of_experiment id) l).
Proof.
  induction l as [|kv l IH]; intros Hok Hn Hs; [constructor|]. apply Forall_cons in Hok as [Hkv Hok].
  apply NoDup_cons in Hn as [Hnin Hn]. apply StronglySorted_inv in Hs as [Hs Hle]. cbn [omap list_omap].
  destruct (of_experiment id kv) as [e|] eqn:He; [|by apply IH]. constructor; [by apply IH|].
  apply Forall_forall. intros e' (kv' & Hin & He')%list_elem_of_omap.
  rewrite Forall_forall in Hok, Hle. apply (entry_earlier id kv kv'); [done|by apply Hok|done|done|by apply Hle|].
  intros Heq. apply Hnin. rewrite Heq. by apply (list_elem_of_fmap_2 fst).
Qed.

Lemma history_sorted id db : store_ok db → StronglySorted earlier (history id db).
Proof. intros Hok. apply history_sorted_list; auto using entries_ok, entries_nodup, entries_sorted. Qed.

(** ** Reading *)

(** What an iterator yields: everything, or what precedes a failure. *)
Lemma iterate_split f (l : list (str * Bytes)) :
  ∃ l1 l2, l = l1 ++ l2 ∧ (iterate f l = (Some <$> l1) ∧ l2 = [] ∨ f ≠ None ∧ iterate f l = (Some <$> l1) ++ [None]).
Proof.
  destruct f as [n|].
  - exists (take n l), (drop n l). by rewrite take_drop; auto.
  - exists l, []. rewrite app_nil_r. auto.
Qed.

Lemma read_entry k v : entry_ok k v → ∃ e, from_slice v = Some e.
Proof. intros (e & He & _). by exists e. Qed.

(** Below the prefix nothing starts with it. *)
Lemma below_prefix id (l : list (str * Bytes)) (kv : str * Bytes) : Forall entry_good l →
  Forall (λ kv', str_le kv'.1 kv.1) l → ¬ str_le (key_prefix id) kv.1 → omap (of_experiment id) l = [].
Proof.
  intros Hok Hle Hp. induction l as [|kv' l IH]; [done|].
  apply Forall_cons in Hok as [Hkv Hok]. apply Forall_cons in Hle as [Hkv' Hle]. cbn [omap list_omap].
  destruct (of_experiment id kv') eqn:He; [|by apply IH]. exfalso. apply Hp.
  assert (starts_with (key_prefix id) kv'.1 = true) as [t Ht]%starts_with_spec.
  { apply not_false_iff_true. intros Hf. apply of_experiment_none in Hf; [|done..]. congruence. }
  etransitivity; [|exact Hkv']. rewrite Ht. apply prefix_le.
Qed.

(** The descending scan finds the first entry of the experiment. *)
Lemma latest_loop_spec id (l1 l2 : list (str * Bytes)) t : Forall entry_good (l1 ++ l2) →
  StronglySorted (flip entry_le) (l1 ++ l2) → (t = [] ∧ l2 = []) ∨ t = [None] →
  latest_loop (key_prefix id) ((Some <$> l1) ++ t) = Ok (head (omap (of_experiment id) (l1 ++ l2))) ∨
  t = [None] ∧ latest_loop (key_prefix id) ((Some <$> l1) ++ t) = Err Internal.
Proof.
  intros Hok Hs Ht. induction l1 as [|[k v] l1 IH].
  { destruct Ht as [[-> ->]|Ht]; [by left|right]. by rewrite Ht. }
  cbn [app fmap list_fmap] in *. apply Forall_cons in Hok as [Hkv Hok].
  apply StronglySorted_inv in Hs as [Hs Hle]. cbn [latest_loop omap list_omap].
  destruct (starts_with (key_prefix id) k) eqn:Hst.
  - left. destruct (of_experiment id (k, v)) as [e|] eqn:He; [|apply of_experiment_none in He; cbn in *; [congruence|done..]].
    apply of_experiment_some in He as [He _]. cbn in He. unfold read_envelope, expect. by rewrite He.
  - assert (of_experiment id (k, v) = None) as -> by by apply of_experiment_none.
    case_decide as Hp; [by apply IH|left]. rewrite (below_prefix id _ (k, v)); done.
Qed.

Lemma load_latest_spec f id db : store_ok db →
  load_latest f id db = Ok (last (history id db)) ∨ f ≠ None ∧ load_latest f id db = Err Internal.
Proof.
  intros Hok. unfold load_latest. destruct (iterate_split f (reverse (entries db))) as (l1 & l2 & Hl & Hit).
  assert (∀ t, (t = [] ∧ l2 = []) ∨ t = [None] →
    latest_loop (key_prefix id) ((Some <$> l1) ++ t) = Ok (last (history id db)) ∨
    t = [None] ∧ latest_loop (key_prefix id) ((Some <$> l1) ++ t) = Err Internal) as H.
  { intros t Ht. unfold history. rewrite <- head_reverse, <- omap_reverse, Hl. apply latest_loop_spec; [| |done].
    - rewrite <- Hl. apply Forall_reverse, entries_ok, Hok.
    - rewrite <- Hl. apply sorted_reverse, entries_sorted. }
  destruct Hit as [[-> ->]|[Hf ->]].
  - left. destruct (H [] ltac:(by left)) as [H'|[? _]]; [|done]. by rewrite app_nil_r in H'.
  - destruct (H [None] ltac:(by right)) as [H'|[_ H']]; auto.
Qed.

Lemma load_all_loop_spec (l : list (str * Bytes)) (t : list (option (str * Bytes))) (m : gmap str (SnapshotEnvelope Bytes)) : Forall entry_good l →
  (∃ m', load_all_loop ((Some <$> l) ++ t) m = load_all_loop t m' ∧
    ∀ id, m' !! id = match last (omap (of_experiment id) l) with Some e => Some e | None => m !! id end).
Proof.
  revert m. induction l as [|[k v] l IH]; intros m Hok; [by exists m|].
  apply Forall_cons in Hok as [Hkv Hok]. destruct (read_entry k v Hkv) as [e He].
  cbn [fmap list_fmap app load_all_loop]. unfold read_envelope, expect. rewrite He. cbn [mbind result_bind mret result_ret].
  destruct (IH (<[env_experiment_id e := e]> m) Hok) as (m' & -> & Hm'). exists m'. split; [done|]. intros id.
  rewrite Hm'. cbn [omap list_omap]. rewrite (of_experiment_eq id (k, v) e) by done.
  case_decide as Hg; [|by rewrite lookup_insert_ne].
  rewrite last_cons, Hg, lookup_insert_eq. by destruct (last _).
Qed.

Lemma load_all_spec f db : store_ok db →
  (∃ m, load_all_latest f db = Ok m ∧ ∀ id, m !! id = last (history id db)) ∨
  f ≠ None ∧ load_all_latest f db = Err Internal.
Proof.
  intros Hok%entries_ok. unfold load_all_latest. destruct (iterate_split f (entries db)) as (l1 & l2 & Hl & Hit).
  rewrite Hl in Hok. apply Forall_app in Hok as [Hok _].
  destruct Hit as [[-> ->]|[Hf ->]].
  - left. destruct (load_all_loop_spec l1 [] ∅ Hok) as (m & Hm & Hlook). rewrite app_nil_r in Hm. exists m.
    split; [done|]. intros id. unfold history. rewrite Hlook, Hl, app_nil_r, lookup_empty. by destruct (last _).
  - right. destruct (load_all_loop_spec l1 [None] ∅ Hok) as (m & -> & _). done.
Qed.
(** ** Writing *)

Lemma elem_of_history id db e : e ∈ history id db ↔ saved db e ∧ env_experiment_id e = id.
Proof.
  unfold history, saved. rewrite list_elem_of_omap. split.
  - intros ([k v] & Hin%elem_of_entries & [He Hid]%of_experiment_some). split; [|done]. by exists k, v.
  - intros [(k & v & Hk & He) Hid]. exists (k, v). split; [by apply elem_of_entries|]. by apply of_experiment_some.
Qed.

(** A history is determined by its snapshots. *)
Lemma history_unique l l' : StronglySorted earlier l → StronglySorted earlier l' → (∀ e, e ∈ l ↔ e ∈ l') → l = l'.
Proof.
  assert (∀ k, StronglySorted earlier k → NoDup k) as Hnd.
  { induction 1 as [|e k Hs IH Hle]; constructor; [|done]. intros Hin. rewrite Forall_forall in Hle.
    specialize (Hle e Hin). unfold earlier in Hle. lia. }
  intros Hs Hs' Hin. apply (StronglySorted_unique_strong earlier); [|done|done|].
  - intros x y _ _ H1 H2. unfold earlier in *. lia.
  - apply NoDup_Permutation; auto.
Qed.

Lemma put_ok db e : store_ok db → KEY_SEP ∉ env_experiment_id e → millis (env_snapshot_at e) →
  from_slice (to_vec e) = Some e → store_ok (<[key_of (env_experiment_id e) (env_snapshot_at e) := to_vec e]> db).
Proof. intros Hok Hsep Ht Hse. apply map_Forall_insert_2; [|done]. by exists e. Qed.

Lemma saved_put db e e' : store_ok db → KEY_SEP ∉ env_experiment_id e → millis (env_snapshot_at e) →
  from_slice (to_vec e) = Some e →
  saved (<[key_of (env_experiment_id e) (env_snapshot_at e) := to_vec e]> db) e' ↔
  e' = e ∨ saved db e' ∧ (env_experiment_id e' = env_experiment_id e →
                          clamp_millis (env_snapshot_at e') ≠ clamp_millis (env_snapshot_at e)).
Proof.
  intros Hok Hsep Ht Hse. unfold saved. split.
  - intros (k & v & Hk & He'). apply lookup_insert_Some in Hk as [[<- <-]|[Hne Hk]]; [left; congruence|right].
    split; [by exists k, v|]. intros Hid Hc. apply Hne.
    destruct (entry_ok_inv k v e' (Hok k v Hk) He') as (_ & _ & ->). unfold key_of. by rewrite Hid, Hc.
  - intros [->|[(k & v & Hk & He') Hne]].
    + eexists _, _. by rewrite lookup_insert_eq.
    + exists k, v. split; [|done]. rewrite lookup_insert_ne; [done|]. intros Heq.
      destruct (entry_ok_inv k v e' (Hok k v Hk) He') as (_ & Ht' & ->). apply key_of_inj in Heq as [Hid Hc]; [|done..].
      by apply (Hne (eq_sym Hid)).
Qed.

(** A snapshot takes its place by time, replacing one of the same millisecond. *)
Lemma history_put id db e : store_ok db → KEY_SEP ∉ env_experiment_id e → millis (env_snapshot_at e) →
  from_slice (to_vec e) = Some e →
  let db' := <[key_of (env_experiment_id e) (env_snapshot_at e) := to_vec e]> db in
  history id db' =
    if decide (env_experiment_id e = id)
    then filter (λ e', earlier e' e) (history id db) ++ e :: filter (earlier e) (history id db)
    else history id db.
Proof.
  intros Hok Hsep Ht Hse db'. pose proof (put_ok db e Hok Hsep Ht Hse) as Hok'.
  pose proof (history_sorted id db Hok) as Hs. pose proof (history_sorted id db' Hok') as Hs'.
  apply history_unique; [done| |].
  - case_decide; [|done]. apply StronglySorted_app. split_and!; [|by apply sorted_filter|].
    + intros x y [Hx _]%list_elem_of_filter [->|[Hy _]%list_elem_of_filter]%elem_of_cons; [done|].
      unfold earlier in *. lia.
    + constructor; [by apply sorted_filter|]. apply Forall_forall. by intros y [Hy _]%list_elem_of_filter.
  - intros e'. rewrite elem_of_history. unfold db'. rewrite saved_put by done. case_decide as Hid.
    + rewrite elem_of_app, elem_of_cons, !list_elem_of_filter, elem_of_history. unfold earlier. split.
      * intros [[->|[Hs1 Hne]] Hid']; [by right; left|]. specialize (Hne ltac:(congruence)).
        destruct (Z.lt_trichotomy (clamp_millis (env_snapshot_at e')) (clamp_millis (env_snapshot_at e))) as [?|[?|?]];
          [left; auto|lia|right; right; auto].
      * intros [(H1 & H2 & H3)|[->|(H1 & H2 & H3)]]; split; auto; right; split; auto; lia.
    + rewrite elem_of_history. split; [by intros [[->|[? _]] ?]|]. intros [? Hid']. split; [right|done].
      split; [done|]. congruence.
Qed.
(** ** Pruning *)

Definition prefixed (prefix : str) (l : list (str * Bytes)) : list str :=
  filter (λ k, starts_with prefix k = true) l.*1.

Lemma prefix_keys_spec p (l1 l2 : list (str * Bytes)) t :
  StronglySorted entry_le (l1 ++ l2) → Forall (λ kv, str_le p kv.1) (l1 ++ l2) →
  (t = [] ∧ l2 = []) ∨ t = [None] →
  prefix_keys p ((Some <$> l1) ++ t) = Ok (prefixed p (l1 ++ l2)) ∨
  t = [None] ∧ prefix_keys p ((Some <$> l1) ++ t) = Err Internal.
Proof.
  intros Hs Hp Ht. induction l1 as [|[k v] l1 IH].
  { destruct Ht as [[-> ->]|Ht]; [by left|right]. by rewrite Ht. }
  cbn [app fmap list_fmap] in *. apply Forall_cons in Hp as [Hk Hp]. apply StronglySorted_inv in Hs as [Hs Hle].
  cbn [prefix_keys]. unfold prefixed. rewrite fmap_cons, filter_cons. cbn [fst] in *.
  destruct (starts_with p k) eqn:Hst.
  - rewrite decide_True by done. destruct (IH Hs Hp) as [->|[-> ->]]; auto.
  - rewrite decide_False by done. left. cbn [mret result_ret]. f_equal. symmetry. apply elem_of_nil_inv.
    intros k' [[u Hu]%starts_with_spec ([k'' v'] & -> & Hin)%list_elem_of_fmap]%list_elem_of_filter.
    rewrite Forall_forall in Hle. specialize (Hle _ Hin). unfold entry_le in Hle. cbn [fst] in *.
    rewrite Hu in Hle. apply prefix_between in Hle; [congruence|done].
Qed.

Lemma prefixed_from p db : prefixed p (from_prefix p db) = prefixed p (entries db).
Proof.
  unfold prefixed, from_prefix. induction (entries db) as [|[k v] l IH]; [done|]. rewrite filter_cons. cbn [fst].
  rewrite fmap_cons, (filter_cons _ k). case_decide as Hp.
  - rewrite fmap_cons, filter_cons, IH. done.
  - rewrite IH, decide_False; [done|]. intros [u Hu]%starts_with_spec. apply Hp. cbn [fst] in *. subst k. apply prefix_le.
Qed.

Lemma scan_keys f id db : 
  prefix_keys (key_prefix id) (iterate f (from_prefix (key_prefix id) db)) = Ok (prefixed (key_prefix id) (entries db)) ∨
  f ≠ None ∧ prefix_keys (key_prefix id) (iterate f (from_prefix (key_prefix id) db)) = Err Internal.
Proof.
  rewrite <- prefixed_from. destruct (iterate_split f (from_prefix (key_prefix id) db)) as (l1 & l2 & Hl & Hit).
  assert (StronglySorted entry_le (l1 ++ l2)) as Hs by (rewrite <- Hl; apply sorted_filter, entries_sorted).
  assert (Forall (λ kv, str_le (key_prefix id) kv.1) (l1 ++ l2)) as Hp.
  { rewrite <- Hl. apply Forall_forall. by intros kv [? _]%list_elem_of_filter. }
  rewrite Hl in *. destruct Hit as [[-> ->]|[Hf ->]].
  - left. destruct (prefix_keys_spec (key_prefix id) l1 [] []) as [H|[? _]]; auto; [|done].
    by rewrite !app_nil_r in *.
  - destruct (prefix_keys_spec (key_prefix id) l1 l2 [None]) as [H|[_ H]]; auto.
Qed.

(** The keys that are scanned are those of the history. *)
Lemma keys_history id db : store_ok db →
  prefixed (key_prefix id) (entries db) = (λ e, key_of id (env_snapshot_at e)) <$> history id db.
Proof.
  intros Hok%entries_ok. unfold prefixed, history. induction (entries db) as [|[k v] l IH]; [done|].
  apply Forall_cons in Hok as [Hkv Hok]. rewrite fmap_cons, (filter_cons _ k). cbn [fst omap list_omap].
  destruct (of_experiment id (k, v)) as [e|] eqn:He.
  - assert (starts_with (key_prefix id) k = true) as Hst.
    { apply not_false_iff_true. intros Hf. apply (of_experiment_none id (k, v)) in Hf; [congruence|done..]. }
    apply of_experiment_some in He as [He <-]. destruct (entry_ok_inv k v e Hkv He) as (_ & _ & Hk).
    rewrite decide_True, fmap_cons, <- Hk, IH by done. done.
  - apply of_experiment_none in He; [|done..]. cbn [fst] in He. rewrite decide_False, IH by congruence. done.
Qed.

Lemma store_ok_delete ks db : store_ok db → store_ok (foldr delete db ks).
Proof. intros Hok k v [_ Hk]%lookup_foldr_delete_Some. by apply Hok. Qed.

Lemma saved_delete ks db e : store_ok db →
  saved (foldr delete db ks) e ↔ saved db e ∧ key_of (env_experiment_id e) (env_snapshot_at e) ∉ ks.
Proof.
  intros Hok. unfold saved. split.
  - intros (k & v & [Hks Hk]%lookup_foldr_delete_Some & He). destruct (entry_ok_inv k v e (Hok k v Hk) He) as (_ & _ & <-).
    split; [by exists k, v|done].
  - intros [(k & v & Hk & He) Hks]. exists k, v. split; [|done]. apply lookup_foldr_delete_Some.
    by destruct (entry_ok_inv k v e (Hok k v Hk) He) as (_ & _ & ->).
Qed.

(** In a strictly sorted list, an element is past position [j] exactly if its key is not
    among the first [j] ones. *)
Lemma elem_of_drop_sorted id j h e : StronglySorted earlier h → Forall (λ e', millis (env_snapshot_at e')) h → e ∈ h →
  e ∈ drop j h ↔ key_of id (env_snapshot_at e) ∉ take j ((λ e, key_of id (env_snapshot_at e)) <$> h).
Proof.
  intros Hs Hm Hin. rewrite <- fmap_take. rewrite <- (take_drop j h) in Hs, Hin, Hm.
  apply StronglySorted_app in Hs as (Hlt & _ & _). split.
  - intros Hd (e' & Hk & Ht)%list_elem_of_fmap. specialize (Hlt e' e Ht Hd). unfold earlier in Hlt.
    rewrite Forall_forall in Hm. apply key_of_inj in Hk as [_ Hk]; [lia|apply Hm; set_solver..].
  - intros Hk. apply elem_of_app in Hin as [Ht|Hd]; [|done]. destruct Hk. by apply (list_elem_of_fmap_2 (λ e, key_of id (env_snapshot_at e))).
Qed.

Lemma history_millis id db : store_ok db → Forall (λ e, millis (env_snapshot_at e)) (history id db).
Proof.
  intros Hok. apply Forall_forall. intros e [(k & v & Hk & He) _]%elem_of_history.
  by destruct (entry_ok_inv k v e (Hok k v Hk) He) as (_ & ? & _).
Qed.

Lemma history_delete id id' j db : store_ok db →
  history id' (foldr delete db (take j (prefixed (key_prefix id) (entries db)))) =
  if decide (id = id') then drop j (history id db) else history id' db.
Proof.
  intros Hok. pose proof (history_sorted id db Hok) as Hs.
  apply history_unique; [by apply history_sorted, store_ok_delete| |].
  - case_decide; [|by apply history_sorted]. rewrite <- (take_drop j (history id db)) in Hs. by apply StronglySorted_app in Hs as (_ & _ & ?).
  - intros e. rewrite elem_of_history, saved_delete, keys_history by done. case_decide as Heq.
    + subst id'. split.
      * intros [[Hsv Hk] <-]. apply (elem_of_drop_sorted (env_experiment_id e)); auto using history_millis. by apply elem_of_history.
      * intros Hd. assert (e ∈ history id db) as Hin by (rewrite <- (take_drop j (history id db)); set_solver).
        pose proof Hin as [Hsv Hide]%elem_of_history. split; [|done]. split; [done|]. rewrite Hide.
        apply (elem_of_drop_sorted id j (history id db)); auto using history_millis.
    + rewrite elem_of_history. split; [by intros [[? _] ?]|]. intros [Hsv Hid']. split; [|done]. split; [done|].
      intros Hin%list_elem_of_In. rewrite <- list_elem_of_In, <- fmap_take in Hin.
      apply list_elem_of_fmap in Hin as (e' & Hk & Hin). destruct Hsv as (k & v & Hkv & He).
      destruct (entry_ok_inv k v e (Hok k v Hkv) He) as (_ & Hm & _). apply key_of_inj in Hk as [Hk _]; [congruence|done|].
      pose proof (history_millis id db Hok) as Hh. rewrite Forall_forall in Hh. apply Hh.
      rewrite <- (take_drop j (history id db)). set_solver.
Qed.

Lemma prune_spec sf df id keep db : store_ok db →
  ∃ j, (j ≤ length (history id db) - keep)%nat ∧ store_ok (prune_old_snapshots sf df id keep db).1 ∧
    (∀ id', history id' (prune_old_snapshots sf df id keep db).1 =
      if decide (id = id') then drop j (history id db) else history id' db) ∧
    (sf = None → df = None → j = (length (history id db) - keep)%nat ∧ (prune_old_snapshots sf df id keep db).2 = Ok j).
Proof.
  intros Hok. unfold prune_old_snapshots.
  assert (∀ j, ∀ id', history id' (foldr delete db (take j (prefixed (key_prefix id) (entries db)))) =
    if decide (id = id') then drop j (history id db) else history id' db) as Hdel by (intros; by apply history_delete).
  pose proof (Hdel 0%nat) as Hdel0. rewrite take_0 in Hdel0. cbn [foldr] in Hdel0.
  assert (length (prefixed (key_prefix id) (entries db)) = length (history id db)) as Hlen
    by (rewrite keys_history by done; apply length_fmap).
  destruct (scan_keys sf id db) as [->|[Hsf ->]]; [|by exists 0%nat; split_and!; [lia|..]].
  rewrite Hlen. destruct (length (history id db) <=? keep)%nat eqn:Hle.
  { apply Nat.leb_le in Hle. exists 0%nat. split_and!; [lia|done|done|]. intros _ _. split; [lia|done]. }
  apply Nat.leb_gt in Hle. unfold delete_keys. set (m := (length (history id db) - keep)%nat).
  destruct df as [n|]; [|by exists m; split_and!; [lia|by apply store_ok_delete|apply Hdel|]].
  rewrite length_take, Hlen. destruct (n <? m `min` length (history id db))%nat eqn:Hn.
  - apply Nat.ltb_lt in Hn. exists n. rewrite take_take. cbn [fst snd].
    split_and!; [lia|by apply store_ok_delete| |done]. rewrite Nat.min_l by lia. apply Hdel.
  - exists m. split_and!; [lia|by apply store_ok_delete|apply Hdel|done].
Qed.
(** A snapshot's place in a history. *)
Definition remember e (h : list (SnapshotEnvelope Bytes)) : list (SnapshotEnvelope Bytes) :=
  filter (λ e', earlier e' e) h ++ e :: filter (earlier e) h.

Lemma put_spec e db : store_ok db → KEY_SEP ∉ env_experiment_id e → millis (env_snapshot_at e) →
  from_slice (to_vec e) = Some e →
  ∃ db', put_snapshot false e db = Ok db' ∧ store_ok db' ∧
    ∀ id, history id db' = if decide (env_experiment_id e = id) then remember e (history id db) else history id db.
Proof.
  intros Hok Hsep Ht Hse. eexists. split; [|split; [by apply put_ok|intros id; by apply history_put]].
  unfold put_snapshot. by rewrite (proj2 (snapshot_key_ok _ _ _) (conj Hsep eq_refl)).
Qed.

(** [C32] The snapshot store refines one history per experiment, ordered by time: a put takes
    its place by time and replaces a snapshot of the same millisecond, loading returns the
    newest snapshot, loading everything returns the newest one of each experiment, and
    pruning forgets the oldest snapshots of one experiment down to the number to keep. An
    operation that RocksDB fails never answers something else, and a failed pruning has
    forgotten oldest snapshots only. *)
Theorem snapshot_store_refines db : store_ok db →
  (∀ id, StronglySorted earlier (history id db)) ∧
  (∀ f id, load_latest f id db = Ok (last (history id db)) ∨ f ≠ None ∧ load_latest f id db = Err Internal) ∧
  (∀ f, (∃ m, load_all_latest f db = Ok m ∧ ∀ id, m !! id = last (history id db)) ∨
        f ≠ None ∧ load_all_latest f db = Err Internal) ∧
  (∀ e, KEY_SEP ∉ env_experiment_id e → millis (env_snapshot_at e) → from_slice (to_vec e) = Some e →
     ∃ db', put_snapshot false e db = Ok db' ∧ store_ok db' ∧ ∀ id, history id db' =
       if decide (env_experiment_id e = id) then remember e (history id db) else history id db) ∧
  (∀ sf df id keep, ∃ j, (j ≤ length (history id db) - keep)%nat ∧
     store_ok (prune_old_snapshots sf df id keep db).1 ∧
     (∀ id', history id' (prune_old_snapshots sf df id keep db).1 =
        if decide (id = id') then drop j (history id db) else history id' db) ∧
     (sf = None → df = None → j = (length (history id db) - keep)%nat ∧
        (prune_old_snapshots sf df id keep db).2 = Ok j)).
Proof.
  intros Hok. split_and!; intros; [by apply history_sorted|by apply load_latest_spec|by apply load_all_spec
    |by apply put_spec|by apply prune_spec].
Qed.
End store.

(** ** Examples *)

(** A byte format for examples: the values themselves. *)
Inductive sample_bytes :=
| BThompson (p : ThompsonSamplingPolicy) | BLinUcb (s : LinUcbState) | BComposer (c : RewardComposer)
| BEnvelope (e : SnapshotEnvelope sample_bytes).

#[export] Instance sample_thompson_json : Json sample_bytes ThompsonSamplingPolicy :=
  {| to_vec := BThompson; from_slice b := match b with BThompson p => Some p | _ => None end |}.
#[export] Instance sample_linucb_json : Json sample_bytes LinUcbState :=
  {| to_vec := BLinUcb; from_slice b := match b with BLinUcb p => Some p | _ => None end |}.
#[export] Instance sample_composer_json : Json sample_bytes RewardComposer :=
  {| to_vec := BComposer; from_slice b := match b with BComposer p => Some p | _ => None end |}.
#[export] Instance sample_envelope_json : Json sample_bytes (SnapshotEnvelope sample_bytes) :=
  {| to_vec := BEnvelope; from_slice b := match b with BEnvelope p => Some p | _ => None end |}.

Definition sample_envelope (id : string) (t : Z) : SnapshotEnvelope sample_bytes :=
  mk_envelope (lit id) (lit "thompson_sampling") (BThompson (new_thompson (lit id) [])) 0 t t None.

Definition sample_store : RocksDb sample_bytes :=
  list_to_map ((λ e, (key_of (env_experiment_id e) (env_snapshot_at e), to_vec e)) <$>
    [sample_envelope "a" 5; sample_envelope "a" 40; sample_envelope "ab" 7]).

Lemma snapshot_store_refines_witness :
  load_latest None (lit "a") sample_store = Ok (Some (sample_envelope "a" 40)) ∧
  length (history (lit "a") (prune_old_snapshots None None (lit "a") 1 sample_store).1) = 1%nat.
Proof.
  assert (store_ok sample_store) as Hok.
  { intros k v Hk%elem_of_list_to_map_2. apply list_elem_of_fmap in Hk as (e & Hkv & Hin). injection Hkv as -> ->.
    exists e. split; [done|]. assert (KEY_SEP ∉ env_experiment_id e ∧ millis (env_snapshot_at e)) as [? ?]; [|done].
    revert e Hin. apply Forall_forall.
    unfold millis. apply (bool_decide_unpack _). by vm_compute. }
  destruct (snapshot_store_refines sample_store Hok) as (_ & Hl & _ & _ & Hp).
  split.
  - destruct (Hl None (lit "a")) as [->|[? _]]; [by vm_compute|done].
  - destruct (Hp None None (lit "a") 1%nat) as (j & _ & _ & Hh & Hj). destruct (Hj eq_refl eq_refl) as [-> _].
    rewrite Hh, decide_True by done. vm_compute. reflexivity.
Defined.
