(* ===== verification/PolicyCore.v ===== *)
(** The bandit policy service ([experimentation-policy/src]): the single-threaded policy core
    ([core.rs]), the reward consumer ([kafka.rs]) and the RPC handlers ([grpc.rs]).

    The core handles one message at a time, so a run is a sequence of the steps below. A
    panic ends the process; what is left is the snapshot store and the committed offset. *)
From Stdlib Require Import Ascii String SpecFloat.
From S2P Require Import Prelude Bytes F64 Bandit Snapshots.

(** [PolicyConfig], as far as the core reads it. *)
Record PolicyConfig := mk_policy_config { snapshot_interval : Z; max_snapshots_per_experiment : nat }.

Record RewardUpdate := mk_reward_update
  { ru_experiment_id : str; ru_arm_id : str; ru_reward : f64; ru_context : option Features;
    ru_kafka_offset : Z; ru_metric_values : option Features }.

Record MetaVariantPolicyConfig := mk_meta_variant
  { mv_variant_id : str; mv_arm_ids : list str; mv_reward_weights : list (str * f64) }.

(** Which of the database operations of a snapshot fail. *)
Record Faults := mk_faults { put_fails : bool; scan_fails : option nat; delete_fails : option nat }.

Definition no_faults : Faults := mk_faults false None None.

Section core.
Context `{!Nalgebra, !BetaSampler} {Bytes : Type}.
Context `{!Json Bytes ThompsonSamplingPolicy, !Json Bytes LinUcbState, !Json Bytes RewardComposer,
          !Json Bytes (SnapshotEnvelope Bytes)}.
Context (exp : f64 → f64) (config : PolicyConfig).

Record PolicyCore := mk_policy_core
  { policies : gmap str AnyPolicy; cold_start_configs : gmap str ColdStartConfig;
    snapshot_store : RocksDb Bytes; rewards_since_snapshot : gmap str Z; last_kafka_offset : gmap str Z;
    reward_composers : gmap str RewardComposer }.

Definition new_core (db : RocksDb Bytes) : PolicyCore := mk_policy_core ∅ ∅ db ∅ ∅ ∅.

Definition set_policies (f : gmap str AnyPolicy → gmap str AnyPolicy) (c : PolicyCore) : PolicyCore :=
  mk_policy_core (f (policies c)) (cold_start_configs c) (snapshot_store c) (rewards_since_snapshot c)
    (last_kafka_offset c) (reward_composers c).
Definition set_store (db : RocksDb Bytes) (c : PolicyCore) : PolicyCore :=
  mk_policy_core (policies c) (cold_start_configs c) db (rewards_since_snapshot c)
    (last_kafka_offset c) (reward_composers c).
Definition set_count (id : str) (n : Z) (c : PolicyCore) : PolicyCore :=
  mk_policy_core (policies c) (cold_start_configs c) (snapshot_store c) (<[id := n]> (rewards_since_snapshot c))
    (last_kafka_offset c) (reward_composers c).
Definition set_offset (id : str) (n : Z) (c : PolicyCore) : PolicyCore :=
  mk_policy_core (policies c) (cold_start_configs c) (snapshot_store c) (rewards_since_snapshot c)
    (<[id := n]> (last_kafka_offset c)) (reward_composers c).
Definition set_composer (id : str) (r : RewardComposer) (c : PolicyCore) : PolicyCore :=
  mk_policy_core (policies c) (cold_start_configs c) (snapshot_store c) (rewards_since_snapshot c)
    (last_kafka_offset c) (<[id := r]> (reward_composers c)).
Definition set_config (id : str) (r : ColdStartConfig) (c : PolicyCore) : PolicyCore :=
  mk_policy_core (policies c) (<[id := r]> (cold_start_configs c)) (snapshot_store c)
    (rewards_since_snapshot c) (last_kafka_offset c) (reward_composers c).

(** [entry(id).or_insert(p)]. *)
Definition or_insert (id : str) (p : AnyPolicy) (m : gmap str AnyPolicy) : gmap str AnyPolicy :=
  match m !! id with Some _ => m | None => <[id := p]> m end.

(** ** Start *)

Definition restore_envelope (e : SnapshotEnvelope Bytes) (c : PolicyCore) : policy PolicyCore :=
  p ← deserialize (env_policy_type e) (env_policy_state e);
  let id := env_experiment_id e in
  c ← match env_composer_state e with
      | Some bytes => r ← expect (from_slice bytes); mret (set_composer id r (set_offset id (env_kafka_offset e) c))
      | None => mret (set_offset id (env_kafka_offset e) c)
      end;
  mret (set_policies <[id := p]> c).

Fixpoint restore_all (es : list (SnapshotEnvelope Bytes)) (c : PolicyCore) : policy PolicyCore :=
  match es with
  | [] => mret c
  | e :: es => c ← restore_envelope e c; restore_all es c
  end.

Definition restore_from_snapshots (fails_at : option nat) (c : PolicyCore) : policy PolicyCore :=
  envelopes ← load_all_latest fails_at (snapshot_store c);
  restore_all (map_to_list envelopes).*2 c.

(** [main]: a store that cannot be read is logged, and the core starts empty. *)
Definition start_core (fails_at : option nat) (db : RocksDb Bytes) : policy PolicyCore :=
  match restore_from_snapshots fails_at (new_core db) with
  | Err _ => mret (new_core db)
  | r => r
  end.

(** ** Registration *)

Definition register_experiment (id : str) (arm_ids : list str) (c : PolicyCore) : PolicyCore :=
  set_policies (or_insert id (AThompson (new_thompson id arm_ids))) c.

(** [or_insert_with] builds the policy only for a new experiment. *)
Definition register_linucb_experiment (id : str) (arm_ids feature_keys : list str)
    (alpha min_exploration_fraction : f64) (c : PolicyCore) : policy PolicyCore :=
  match policies c !! id with
  | Some _ => mret c
  | None =>
      p ← new_linucb id arm_ids feature_keys alpha min_exploration_fraction;
      mret (set_policies <[id := ALinUcb p]> c)
  end.

Definition register_multi_objective_experiment (id : str) (arm_ids : list str) (composer : RewardComposer)
    (c : PolicyCore) : PolicyCore :=
  set_composer id composer (register_experiment id arm_ids c).

(** ** Snapshots *)

Definition envelope_of (now : Z) (id : str) (p : AnyPolicy) (c : PolicyCore) : SnapshotEnvelope Bytes :=
  mk_envelope id (policy_type p) (serialize p) (total_rewards p) (default (-1)%Z (last_kafka_offset c !! id)) now
    (to_vec <$> reward_composers c !! id).

Definition write_snapshot (now : Z) (faults : Faults) (id : str) (c : PolicyCore) : policy PolicyCore :=
  match policies c !! id with
  | None => mret c
  | Some p =>
      match put_snapshot (put_fails faults) (envelope_of now id p c) (snapshot_store c) with
      | Ok db =>
          mret (set_store (prune_old_snapshots (scan_fails faults) (delete_fails faults) id
                             (max_snapshots_per_experiment config) db).1 c)
      | Err _ => mret c
      | Panics => Panics
      | OutOfFuel => OutOfFuel
      end
  end.

(** ** Messages *)

Definition handle_select_arm (id : str) (context : option Features) (rng : Rng) (c : PolicyCore) :
    policy (ArmSelection * Rng) :=
  match policies c !! id with
  | Some p => select_arm p context rng
  | None => Err (ExperimentNotFound id)
  end.

(** The scalar reward: composed from the metric values if there are any and a composer. *)
Definition scalar_reward (u : RewardUpdate) (c : PolicyCore) : policy (PolicyCore * f64) :=
  let id := ru_experiment_id u in
  match ru_metric_values u with
  | Some metrics =>
      match reward_composers c !! id with
      | Some composer =>
          '(composer, composed) ← compose composer metrics;
          mret (set_composer id composer c,
                match policies c !! id with Some (AThompson _) => sigmoid exp composed | _ => composed end)
      | None => mret (c, ru_reward u)
      end
  | None => mret (c, ru_reward u)
  end.

Definition handle_reward_update (now : Z) (faults : Faults) (u : RewardUpdate) (c : PolicyCore) :
    policy PolicyCore :=
  let id := ru_experiment_id u in
  '(c, reward) ← scalar_reward u c;
  match policies c !! id with
  | None => mret c
  | Some p =>
      p ← update p (ru_arm_id u) reward (ru_context u);
      let c := set_offset id (ru_kafka_offset u) (set_policies <[id := p]> c) in
      let count := u64_succ (default 0%Z (rewards_since_snapshot c !! id)) in
      if (snapshot_interval config <=? count)%Z then write_snapshot now faults id (set_count id 0 c)
      else mret (set_count id count c)
  end.

(** Creating a cold-start bandit answers its ids. *)
Definition handle_create_cold_start (cfg : ColdStartConfig) (c : PolicyCore) : policy (PolicyCore * (str * str)) :=
  '(id, p) ← create_cold_start_policy cfg;
  mret (set_config id cfg (set_policies (or_insert id p) c), (id, content_id cfg)).

Definition handle_export_affinity (id : str) (segment_contexts : gmap str Features) (c : PolicyCore) :
    policy AffinityScores :=
  match policies c !! id with
  | None => Err (ExperimentNotFound id)
  | Some (ALinUcb p) =>
      let content := match cold_start_configs c !! id with Some cfg => content_id cfg | None => id end in
      export_affinity_scores p content segment_contexts
  | Some p => Err (WrongPolicyType (lit "linucb") (policy_type p))
  end.

Record GetSnapshotResponse := mk_snapshot_response
  { sr_experiment_id : str; sr_policy_state : Bytes; sr_total_rewards : Z; sr_kafka_offset : Z; sr_snapshot_at : Z }.

Definition snapshot_response (e : SnapshotEnvelope Bytes) : GetSnapshotResponse :=
  mk_snapshot_response (env_experiment_id e) (env_policy_state e) (env_total_rewards e) (env_kafka_offset e)
    (env_snapshot_at e).

Definition latest_snapshot (fails_at : option nat) (id : str) (c : PolicyCore) : policy (SnapshotEnvelope Bytes) :=
  e ← load_latest fails_at id (snapshot_store c);
  match e with Some e => mret e | None => Err (SnapshotNotFound id) end.

Definition handle_get_snapshot (fails_at : option nat) (id : str) (c : PolicyCore) : policy GetSnapshotResponse :=
  e ← latest_snapshot fails_at id c;
  mret (snapshot_response e).

(** The requested time is only compared for a warning; the newest snapshot is used. *)
Definition handle_rollback_policy (fails_at : option nat) (id : str) (target_snapshot_epoch_ms : Z)
    (c : PolicyCore) : policy (PolicyCore * GetSnapshotResponse) :=
  e ← latest_snapshot fails_at id c;
  p ← deserialize (env_policy_type e) (env_policy_state e);
  mret (set_policies <[id := p]> c, snapshot_response e).

Definition meta_variant_policy_id (experiment_id variant_id : str) : str :=
  experiment_id ++ lit "::v::" ++ variant_id.

Definition register_variant (experiment_id : str) (vp : MetaVariantPolicyConfig) (c : PolicyCore) :
    policy PolicyCore :=
  let policy_id := meta_variant_policy_id experiment_id (mv_variant_id vp) in
  composer ← new_composer ((λ kw, mk_objective kw.1 kw.2 f64_zero false) <$> mv_reward_weights vp)
               WeightedScalarization;
  mret (register_multi_objective_experiment policy_id (mv_arm_ids vp) composer c).

Fixpoint handle_register_meta_experiment (experiment_id : str) (vps : list MetaVariantPolicyConfig)
    (c : PolicyCore) : policy (PolicyCore * list str) :=
  match vps with
  | [] => mret (c, [])
  | vp :: vps =>
      c ← register_variant experiment_id vp c;
      '(c, ids) ← handle_register_meta_experiment experiment_id vps c;
      mret (c, meta_variant_policy_id experiment_id (mv_variant_id vp) :: ids)
  end.

(** The messages of the event loop, with what the environment decides of each. *)
Inductive Message :=
| MSelectArm (id : str) (context : option Features) (rng : Rng)
| MReward (now : Z) (faults : Faults) (u : RewardUpdate)
| MCreateColdStart (cfg : ColdStartConfig)
| MExportAffinity (id : str) (segments : gmap str Features)
| MGetSnapshot (fails_at : option nat) (id : str)
| MRollback (fails_at : option nat) (id : str) (target : Z)
| MRegisterMeta (id : str) (vps : list MetaVariantPolicyConfig).

(** A handler's error is its answer; its state is then the one before it. *)
Definition answered {A} (c : PolicyCore) (r : policy (PolicyCore * A)) : policy PolicyCore :=
  match r with Ok (c', _) => Ok c' | Err _ => Ok c | Panics => Panics | OutOfFuel => OutOfFuel end.

Definition core_step (m : Message) (c : PolicyCore) : policy PolicyCore :=
  match m with
  | MSelectArm id context rng => answered c (s ← handle_select_arm id context rng c; mret (c, s))
  | MReward now faults u => handle_reward_update now faults u c
  | MCreateColdStart cfg => answered c (handle_create_cold_start cfg c)
  | MExportAffinity id segments => answered c (s ← handle_export_affinity id segments c; mret (c, s))
  | MGetSnapshot fails_at id => answered c (s ← handle_get_snapshot fails_at id c; mret (c, s))
  | MRollback fails_at id target => answered c (handle_rollback_policy fails_at id target c)
  | MRegisterMeta id vps => answered c (handle_register_meta_experiment id vps c)
  end.
End core.

(** ** RPCs *)

Inductive Status := SNotFound | SFailedPrecondition | SInternal | SUnimplemented.

Definition policy_error_to_status (e : PolicyError) : Status :=
  match e with
  | ExperimentNotFound _ | SnapshotNotFound _ => SNotFound
  | WrongPolicyType _ _ => SFailedPrecondition
  | Internal => SInternal
  end.

(** [ProtoPolicySnapshot]: the time as seconds and nanoseconds, truncated toward zero. *)
Definition snapshot_seconds (ms : Z) : Z := Z.quot ms 1000.
Definition snapshot_nanos (ms : Z) : Z := Z.rem ms 1000 * 1000000.

Definition DEFAULT_WINDOW_DAYS : Z := 7.
Definition DEFAULT_COLD_START_ARMS : list str :=
  [lit "homepage_featured"; lit "trending_shelf"; lit "recommended_row"; lit "notification"].
Definition DEFAULT_COLD_START_FEATURES : list str :=
  [lit "user_age_bucket"; lit "watch_history_len"; lit "subscription_tier"].

Definition cold_start_config (content_id : str) (metadata : gmap str str) (window_days : Z) : ColdStartConfig :=
  mk_cold_start content_id metadata (if (0 <? window_days)%Z then window_days else DEFAULT_WINDOW_DAYS)
    DEFAULT_COLD_START_ARMS DEFAULT_COLD_START_FEATURES f64_one (f64_ratio 1 20).

Definition segment (age watched tier : Z) : Features :=
  list_to_map [(lit "user_age_bucket", f64_of_Z age); (lit "watch_history_len", f64_of_Z watched);
               (lit "subscription_tier", f64_of_Z tier)].

Definition default_segment_contexts : gmap str Features :=
  list_to_map [(lit "TRIAL", segment 1 5 0); (lit "NEW", segment 2 20 1);
               (lit "ESTABLISHED", segment 3 100 2); (lit "REACTIVATED", segment 3 50 1)].

Section rpc.
Context `{!Nalgebra, !BetaSampler} {Bytes : Type}.
Context `{!Json Bytes ThompsonSamplingPolicy, !Json Bytes LinUcbState, !Json Bytes RewardComposer,
          !Json Bytes (SnapshotEnvelope Bytes)}.
Abbreviation PolicyCore := (PolicyCore (Bytes:=Bytes)).

Definition status_of {A} (r : policy A) : result Status A := map_err policy_error_to_status r.

(** A request without features asks without a context. *)
Definition rpc_select_arm (id : str) (context_features : Features) (rng : Rng) (c : PolicyCore) :
    result Status (ArmSelection * Rng) :=
  status_of (handle_select_arm id (if decide (context_features = ∅) then None else Some context_features) rng c).

Definition rpc_get_slate_assignment : result Status Empty_set := Err SUnimplemented.
Definition rpc_select_slate : result Status Empty_set := Err SUnimplemented.

Definition rpc_create_cold_start_bandit (content_id : str) (metadata : gmap str str) (window_days : Z)
    (c : PolicyCore) : result Status (PolicyCore * (str * str)) :=
  status_of (handle_create_cold_start (cold_start_config content_id metadata window_days) c).

Definition rpc_export_affinity_scores (id : str) (c : PolicyCore) : result Status AffinityScores :=
  status_of (handle_export_affinity id default_segment_contexts c).

Definition rpc_get_policy_snapshot (fails_at : option nat) (id : str) (c : PolicyCore) :
    result Status GetSnapshotResponse :=
  status_of (handle_get_snapshot fails_at id c).

Definition rpc_rollback_policy (fails_at : option nat) (id : str) (target : Z) (c : PolicyCore) :
    result Status (PolicyCore * GetSnapshotResponse) :=
  status_of (handle_rollback_policy fails_at id target c).
End rpc.

(** ** The reward consumer *)

(** The fields of a [RewardEvent] the consumer reads. *)
Record RewardEvent := mk_reward_event
  { re_experiment_id : str; re_arm_id : str; re_reward : f64; re_context_json : str }.

Section consumer.
(** [prost]'s decoder, and the fields of a JSON object with their values as numbers. *)
Context (decode_reward_event : str → option RewardEvent) (json_object : str → option (gmap str (option f64))).

Definition parse_context_json (text : str) : option Features :=
  if decide (text = []) then None
  else match json_object text with
       | None => None
       | Some fields => let m := omap id fields in if decide (m = ∅) then None else Some m
       end.

(** One message: skipped, forwarded, or a panic on a reward that is not finite. *)
Definition consume_message (offset : Z) (payload : option str) : policy (option RewardUpdate) :=
  match payload with
  | None | Some [] => mret None
  | Some bytes =>
      match decode_reward_event bytes with
      | None => mret None
      | Some e =>
          _ ← assert_finite (re_reward e);
          mret (Some (mk_reward_update (re_experiment_id e) (re_arm_id e) (re_reward e)
                        (parse_context_json (re_context_json e)) offset None))
      end
  end.

(** A consumer of one partition: where it reads next, what the broker has committed for its
    group, and what it read since. *)
Record Consumer := mk_consumer { position : nat; committed : nat; messages_since_commit : nat }.

Definition new_consumer (committed : nat) : Consumer := mk_consumer committed committed 0.

Definition should_commit (batch_size : nat) (interval_elapsed : bool) (c : Consumer) : bool :=
  if messages_since_commit c =? 0 then false
  else (batch_size <=? messages_since_commit c) || interval_elapsed.

(** The asynchronous commit may fail; the counter is reset all the same. *)
Definition commit_offsets (fails : bool) (c : Consumer) : Consumer :=
  mk_consumer (position c) (if fails then committed c else position c) 0.

(** One turn of the loop over the partition's messages; the update it forwards, if any. *)
Definition consume_turn (batch_size : nat) (interval_elapsed commit_fails : bool) (partition : list (option str))
    (c : Consumer) : policy (Consumer * option RewardUpdate) :=
  let c := if should_commit batch_size interval_elapsed c then commit_offsets commit_fails c else c in
  match partition !! position c with
  | None => mret (c, None)
  | Some payload =>
      u ← consume_message (Z.of_nat (position c)) payload;
      mret (mk_consumer (S (position c)) (committed c) (S (messages_since_commit c)), u)
  end.
End consumer.

(** ** The service *)

Section service.
Context `{!Nalgebra, !BetaSampler} {Bytes : Type}.
Context `{!Json Bytes ThompsonSamplingPolicy, !Json Bytes LinUcbState, !Json Bytes RewardComposer,
          !Json Bytes (SnapshotEnvelope Bytes)}.
Context (exp : f64 → f64) (config : PolicyConfig) (reward_channel_depth batch_size : nat).
Context (decode_reward_event : str → option RewardEvent) (json_object : str → option (gmap str (option f64))).
Context (partition : list (option str)).

(** The core, the bounded channel of rewards to it, and the consumer that fills it. *)
Record Service := mk_service
  { core : PolicyCore (Bytes:=Bytes); reward_channel : list RewardUpdate; consumer : Consumer }.

(** What a step did, as far as the rewards are concerned. *)
Inductive Event := Consumed | Handled (u : RewardUpdate) | Served | Crashed.

(** One step of one of the threads, or a crash (by a panic or from outside) and a restart,
    which finds the store and the committed offset. A send waits for room in the channel. *)
Inductive service_step : Service → Event → Service → Prop :=
| consume_step elapsed commit_fails s k u :
    consume_turn decode_reward_event json_object batch_size elapsed commit_fails partition (consumer s) = Ok (k, u) →
    length (reward_channel s ++ option_list u) ≤ reward_channel_depth →
    service_step s Consumed (mk_service (core s) (reward_channel s ++ option_list u) k)
| reward_step now faults s u us c :
    reward_channel s = u :: us → core_step exp config (MReward now faults u) (core s) = Ok c →
    service_step s (Handled u) (mk_service c us (consumer s))
| message_step m s c :
    (∀ now faults u, m ≠ MReward now faults u) → core_step exp config m (core s) = Ok c →
    service_step s Served (mk_service c (reward_channel s) (consumer s))
| crash_step fails_at s c :
    start_core fails_at (snapshot_store (core s)) = Ok c →
    service_step s Crashed (mk_service c [] (new_consumer (committed (consumer s)))).

Inductive runs (s : Service) : list Event → Service → Prop :=
| runs_nil : runs s [] s
| runs_snoc evs s1 ev s2 : runs s evs s1 → service_step s1 ev s2 → runs s (evs ++ [ev]) s2.
End service.
