(* ===== verification/PolicyCoreSpec.v ===== *)
(** Crash recovery of the policy core: whatever the messages, the snapshots and the memory
    of an experiment are replays of the same rewards, and a restart loses fewer of them than
    the snapshot interval. *)
From Stdlib Require Import Ascii String SpecFloat.
From stdpp Require Import sorting.
From S2P Require Import Prelude Bytes F64 F64Sum Bandit Snapshots PolicyCore.

(** What the core relies on of its policies: they can be read back from what is written of
    them (not necessarily to the last bit of every number), and so can what becomes of
    them. *)
Class DurablePolicies `{!Nalgebra} {Bytes : Type} `{!Json Bytes ThompsonSamplingPolicy, !Json Bytes LinUcbState,
    !Json Bytes RewardComposer, !Json Bytes (SnapshotEnvelope Bytes)}
    (policy_ok : AnyPolicy → Prop) (composer_ok : RewardComposer → Prop) :=
  { durable_policy p : policy_ok p → ∃ q, deserialize (policy_type p) (serialize p) = Ok q ∧ policy_ok q;
    durable_update p arm r x p' : policy_ok p → valid_f64 r → update p arm r x = Ok p' → policy_ok p';
    durable_thompson id arms : policy_ok (AThompson (new_thompson id arms));
    durable_linucb id arms keys a m p : f64_is_finite a = true → new_linucb id arms keys a m = Ok p →
      policy_ok (ALinUcb p);
    durable_composer c : composer_ok c → ∃ c', from_slice (to_vec c) = Some c' ∧ composer_ok c';
    durable_new_composer ws c :
      new_composer ((λ kw : str * f64, mk_objective kw.1 kw.2 f64_zero false) <$> ws) WeightedScalarization = Ok c →
      composer_ok c;
    durable_envelope (e : SnapshotEnvelope Bytes) : from_slice (to_vec e) = Some e }.

Section recovery.
Context {Hna : Nalgebra} {Hbs : BetaSampler} {Bytes : Type}.
Context {Hjt : Json Bytes ThompsonSamplingPolicy} {Hjl : Json Bytes LinUcbState}
        {Hjc : Json Bytes RewardComposer} {Hje : Json Bytes (SnapshotEnvelope Bytes)}.
Context (policy_ok : AnyPolicy → Prop) (composer_ok : RewardComposer → Prop)
        {Hdur : DurablePolicies policy_ok composer_ok}.
Context (exp : f64 → f64) (config : PolicyConfig).
Abbreviation PolicyCore := (PolicyCore (Bytes:=Bytes)).
Implicit Types (c : PolicyCore) (db : RocksDb Bytes) (e : SnapshotEnvelope Bytes) (id : str).

(** ** Histories of rewards *)

(** What happens to a policy: rewards, and being read back from a snapshot of itself. *)
Inductive Entry := Rewarded (u : RewardUpdate) | Reloaded.

Definition apply_entry (n : Entry) (p : AnyPolicy) : policy AnyPolicy :=
  match n with
  | Rewarded u => update p (ru_arm_id u) (ru_reward u) (ru_context u)
  | Reloaded => deserialize (policy_type p) (serialize p)
  end.

(** A policy after some entries. *)
Fixpoint replay (p : AnyPolicy) (ns : list Entry) : policy AnyPolicy :=
  match ns with
  | [] => mret p
  | n :: ns => p ← apply_entry n p; replay p ns
  end.

Definition rewards_of (ns : list Entry) : list RewardUpdate :=
  omap (λ n, match n with Rewarded u => Some u | Reloaded => None end) ns.

Definition entry_valid (n : Entry) : Prop := match n with Rewarded u => valid_f64 (ru_reward u) | Reloaded => True end.

Lemma replay_app p ns ms : replay p (ns ++ ms) = (p ← replay p ns; replay p ms).
Proof. induction ns as [|n ns IH] in p |- *; [done|]. cbn [app replay]. by destruct (apply_entry n p) as [p'| | |]; cbn. Qed.

Lemma replay_ok p ns p' : policy_ok p → Forall entry_valid ns → replay p ns = Ok p' → policy_ok p'.
Proof.
  induction ns as [|n ns IH] in p |- *; intros Hp Hv H; cbn [replay] in H; [by injection H as <-|].
  apply Forall_cons in Hv as [Hn Hv]. apply bind_ok_inv in H as (q & Hq & H). apply (IH q); [|done..].
  destruct n as [u|]; cbn [apply_entry] in Hq; [by eapply durable_update|].
  destruct (durable_policy p Hp) as (q' & ? & ?). congruence.
Qed.

(** What an experiment's policy was built from, and how much of it its newest snapshot
    holds. *)
Record Trace := mk_trace { origin : AnyPolicy; log : list Entry; durable : nat }.

Definition fresh_trace (p : AnyPolicy) : Trace := mk_trace p [] 0.

Definition recorded (u : RewardUpdate) (wrote : bool) (γ : Trace) : Trace :=
  mk_trace (origin γ) (log γ ++ [Rewarded u]) (if wrote then S (length (log γ)) else durable γ).

(** What is left when the memory is lost or rolled back. *)
Definition truncated (γ : Trace) : Trace := mk_trace (origin γ) (take (durable γ) (log γ) ++ [Reloaded]) (durable γ).

(** The reward completes an interval. *)
Definition writes_snapshot (u : RewardUpdate) c : bool :=
  (snapshot_interval config <=? u64_succ (default 0%Z (rewards_since_snapshot c !! ru_experiment_id u)))%Z.

Definition trace_step (m : Message) c c' (g : gmap str Trace) : gmap str Trace :=
  match m with
  | MReward _ _ u => alter (recorded u (writes_snapshot u c)) (ru_experiment_id u) g
  | MRollback fails_at id target =>
      if is_ok (handle_rollback_policy fails_at id target c) then alter truncated id g else g
  | _ => g ∪ (fresh_trace <$> policies c')
  end.

(** The message at a time: the clock does not go back, snapshots are written, and rewards
    come from the consumer, without metric values; the exploration parameter is finite. *)
Definition admissible (t : Z) (m : Message) (t' : Z) : Prop :=
  (t ≤ t')%Z ∧ millis t' ∧
  match m with
  | MReward now faults u => now = t' ∧ put_fails faults = false ∧ ru_metric_values u = None ∧ valid_f64 (ru_reward u)
  | MCreateColdStart cfg => f64_is_finite (cs_alpha cfg) = true
  | _ => True
  end.

(** Runs of the service, from an empty store, with restarts. *)
Inductive reaches : Z → PolicyCore → gmap str Trace → Prop :=
| reaches_empty t : millis t → reaches t (new_core ∅) ∅
| reaches_step t t' c c' g m :
    reaches t c g → admissible t m t' → core_step exp config m c = Ok c' → reaches t' c' (trace_step m c c' g)
| reaches_restart t c c' g :
    reaches t c g → start_core None (snapshot_store c) = Ok c' →
    reaches t c' (truncated <$> filter (λ kγ, kγ.2.(durable) ≠ 0%nat) g).

(** ** The invariant *)

(** An envelope holds the first rewards of a trace. *)
Record holds id e (γ : Trace) : Prop := mk_holds
  { h_policy : ∃ p, replay (origin γ) (take (durable γ) (log γ)) = Ok p ∧ policy_ok p ∧
      env_policy_type e = policy_type p ∧ env_policy_state e = serialize p;
    h_offset : ∃ u, last (take (durable γ) (log γ)) = Some (Rewarded u) ∧ env_kafka_offset e = ru_kafka_offset u;
    h_composer : ∀ b, env_composer_state e = Some b → ∃ r, from_slice b = Some r ∧ composer_ok r }.

Record trace_ok c id (γ : Trace) : Prop := mk_trace_ok
  { t_origin : policy_ok (origin γ);
    t_valid : Forall entry_valid (log γ);
    t_memory : ∃ p, policies c !! id = Some p ∧ replay (origin γ) (log γ) = Ok p;
    t_durable : durable γ ≤ length (log γ);
    t_ahead : (Z.of_nat (length (rewards_of (drop (durable γ) (log γ)))) ≤ default 0 (rewards_since_snapshot c !! id))%Z;
    t_count : (0 ≤ default 0 (rewards_since_snapshot c !! id) < Z.max 1 (snapshot_interval config))%Z;
    t_none : durable γ = 0%nat → history id (snapshot_store c) = [];
    t_some : durable γ ≠ 0%nat → ∃ e, last (history id (snapshot_store c)) = Some e ∧ holds id e γ }.

Record core_ok (t : Z) c (g : gmap str Trace) : Prop := mk_core_ok
  { i_dom : ∀ id, g !! id = None → policies c !! id = None ∧ history id (snapshot_store c) = [];
    i_store : store_ok (snapshot_store c);
    i_clock : ∀ id e, e ∈ history id (snapshot_store c) → (clamp_millis (env_snapshot_at e) ≤ clamp_millis t)%Z;
    i_millis : millis t;
    i_count : ∀ id, policies c !! id = None → default 0%Z (rewards_since_snapshot c !! id) = 0%Z;
    i_composers : map_Forall (λ _, composer_ok) (reward_composers c);
    i_trace : map_Forall (trace_ok c) g }.
(** ** Writing a snapshot *)

Context (keep_some : 1 ≤ max_snapshots_per_experiment config).

Lemma last_drop_le {A} j (l : list A) : j < length l → last (drop j l) = last l.
Proof.
  intros Hj. rewrite <- (take_drop j l) at 2. rewrite last_app.
  destruct (last (drop j l)) eqn:E; [done|]. apply last_None in E. apply (f_equal length) in E.
  rewrite length_drop in E. simpl in E. lia.
Qed.

(** With the clock not going back, the snapshot is the newest one. *)
Lemma remember_newest e (h : list (SnapshotEnvelope Bytes)) :
  (∀ e', e' ∈ h → (clamp_millis (env_snapshot_at e') ≤ clamp_millis (env_snapshot_at e))%Z) →
  remember e h = filter (λ e', earlier e' e) h ++ [e].
Proof.
  intros Hle. unfold remember. do 2 f_equal. apply elem_of_nil_inv. intros e' [Hlt Hin]%list_elem_of_filter.
  specialize (Hle e' Hin). unfold earlier in Hlt. lia.
Qed.

Record snapshot_written (now : Z) id (p : AnyPolicy) c c' : Prop := mk_snapshot_written
  { w_rest : c' = set_store (snapshot_store c') c;
    w_store : store_ok (snapshot_store c');
    w_last : last (history id (snapshot_store c')) = Some (envelope_of now id p c);
    w_clock : ∀ id' e, e ∈ history id' (snapshot_store c') → (clamp_millis (env_snapshot_at e) ≤ clamp_millis now)%Z;
    w_other : ∀ id', id' ≠ id → history id' (snapshot_store c') = history id' (snapshot_store c) }.

Lemma write_snapshot_spec now f id p c c' :
  store_ok (snapshot_store c) → millis now → put_fails f = false → policies c !! id = Some p →
  (∀ id' e, e ∈ history id' (snapshot_store c) → (clamp_millis (env_snapshot_at e) ≤ clamp_millis now)%Z) →
  write_snapshot config now f id c = Ok c' → snapshot_written now id p c c'.
Proof.
  intros Hok Hnow Hf Hp Hclock H. unfold write_snapshot in H. rewrite Hp, Hf in H.
  set (e := envelope_of now id p c) in *.
  destruct (decide (KEY_SEP ∈ id)) as [Hsep|Hsep].
  { exfalso. unfold put_snapshot, snapshot_key in H. change (env_experiment_id e) with id in H.
    rewrite (bool_decide_eq_true_2 _ Hsep) in H. done. }
  destruct (put_spec e (snapshot_store c) Hok Hsep Hnow (durable_envelope e)) as (db & Hput & Hdb & Hh).
  rewrite Hput in H. cbn [mret result_ret] in H. injection H as <-.
  destruct (prune_spec (scan_fails f) (delete_fails f) id (max_snapshots_per_experiment config) db Hdb)
    as (j & Hj & Hst & Hp' & _). change (env_experiment_id e) with id in Hh.
  pose proof (Hh id) as Hid. rewrite decide_True in Hid by done. rewrite remember_newest in Hid by (intros; by eapply Hclock).
  assert (j < length (history id db)) as Hlt by (rewrite Hid, length_app in *; cbn [length] in *; lia).
  split; cbn [snapshot_store set_store]; [done|done| | |].
  - rewrite Hp', decide_True, last_drop_le, Hid by done. apply last_snoc.
  - intros id' e' Hin. assert (e' ∈ history id' db) as Hin'.
    { rewrite Hp' in Hin. case_decide; [subst id'|done]. rewrite <- (take_drop j). set_solver. }
    rewrite Hh in Hin'. case_decide; [|by eapply Hclock]. subst id'.
    rewrite remember_newest in Hin' by (intros; by eapply Hclock).
    apply elem_of_app in Hin' as [[_ Hin']%list_elem_of_filter| ->%list_elem_of_singleton]; [by eapply Hclock|apply Z.le_refl].
  - intros id' Hne. assert (id ≠ id') by congruence. rewrite Hp', decide_False, Hh, decide_False by done. done.
Qed.

(** A trace reads only its own experiment's state. *)
Lemma trace_ok_ext c c' id γ : policies c' !! id = policies c !! id →
  rewards_since_snapshot c' !! id = rewards_since_snapshot c !! id →
  history id (snapshot_store c') = history id (snapshot_store c) → trace_ok c id γ → trace_ok c' id γ.
Proof. intros Hp Hr Hh []. by split; rewrite ?Hp, ?Hr, ?Hh. Qed.
(** ** Rewards *)

Lemma clamp_mono t t' : (t ≤ t')%Z → (clamp_millis t ≤ clamp_millis t')%Z.
Proof. unfold clamp_millis. intros. destruct (t <? 0)%Z eqn:E, (t' <? 0)%Z eqn:E'; lia. Qed.

Lemma core_ok_later t t' c g : core_ok t c g → (t ≤ t')%Z → millis t' → core_ok t' c g.
Proof.
  intros [? ? Hc ? ? ?] Hle Hm. split; try done. intros id e Hin. etransitivity; [by eapply Hc|by apply clamp_mono].
Qed.

Lemma traced t c g id p : core_ok t c g → policies c !! id = Some p → ∃ γ, g !! id = Some γ ∧ trace_ok c id γ.
Proof.
  intros Hok Hp. destruct (g !! id) as [γ|] eqn:Hg.
  - exists γ. split; [done|]. by apply (i_trace _ _ _ Hok).
  - destruct (i_dom _ _ _ Hok id Hg). congruence.
Qed.

Lemma untraced t c g id : core_ok t c g → policies c !! id = None → g !! id = None.
Proof.
  intros Hok Hp. destruct (g !! id) as [γ|] eqn:Hg; [|done].
  destruct (t_memory _ _ _ (i_trace _ _ _ Hok id γ Hg)) as (p & ? & _). congruence.
Qed.

(** The core after a reward, but for the snapshot. *)
Definition rewarded (u : RewardUpdate) (p : AnyPolicy) (count : Z) c : PolicyCore :=
  set_count (ru_experiment_id u) count
    (set_offset (ru_experiment_id u) (ru_kafka_offset u) (set_policies <[ru_experiment_id u := p]> c)).

Lemma reward_inv now f u p c c' : ru_metric_values u = None → policies c !! ru_experiment_id u = Some p →
  handle_reward_update exp config now f u c = Ok c' →
  ∃ p', update p (ru_arm_id u) (ru_reward u) (ru_context u) = Ok p' ∧
    let count := u64_succ (default 0%Z (rewards_since_snapshot c !! ru_experiment_id u)) in
    if writes_snapshot u c then write_snapshot config now f (ru_experiment_id u) (rewarded u p' 0 c) = Ok c'
    else c' = rewarded u p' count c.
Proof.
  intros Hm Hp H. unfold handle_reward_update, scalar_reward in H. rewrite Hm in H.
  cbn [mbind result_bind mret result_ret] in H. rewrite Hp in H. apply bind_ok_inv in H as (p' & Hp' & H).
  exists p'. split; [done|]. unfold writes_snapshot. cbn [rewards_since_snapshot set_offset set_policies] in H.
  destruct (_ <=? _)%Z; [done|]. by injection H as <-.
Qed.

(** The policy follows the log. *)
Lemma memory_recorded u w γ p p' : replay (origin γ) (log γ) = Ok p →
  update p (ru_arm_id u) (ru_reward u) (ru_context u) = Ok p' →
  replay (origin (recorded u w γ)) (log (recorded u w γ)) = Ok p'.
Proof. intros Hr Hu. cbn [origin log recorded]. rewrite replay_app, Hr. cbn [mbind result_bind replay apply_entry]. by rewrite Hu. Qed.

Lemma rewards_ahead u d ns : d ≤ length ns →
  length (rewards_of (drop d (ns ++ [Rewarded u]))) = S (length (rewards_of (drop d ns))).
Proof. intros Hd. unfold rewards_of. rewrite drop_app_le, omap_app, length_app by done. cbn. lia. Qed.

Lemma u64_succ_small n : (0 ≤ n < Z.max 1 (snapshot_interval config))%Z → (snapshot_interval config < 2 ^ 64)%Z →
  u64_succ n = (n + 1)%Z.
Proof. intros Hn Hi. unfold u64_succ. apply Z.mod_small. split; [lia|]. apply Z.le_lt_trans with (Z.max 1 (snapshot_interval config)); [lia|]. apply Z.max_lub_lt; [done|lia]. Qed.

Context (interval_u64 : (0 ≤ snapshot_interval config < 2 ^ 64)%Z).

Lemma trace_counted u γ p p' c : valid_f64 (ru_reward u) → trace_ok c (ru_experiment_id u) γ → policies c !! ru_experiment_id u = Some p →
  update p (ru_arm_id u) (ru_reward u) (ru_context u) = Ok p' → writes_snapshot u c = false →
  trace_ok (rewarded u p' (u64_succ (default 0%Z (rewards_since_snapshot c !! ru_experiment_id u))) c)
    (ru_experiment_id u) (recorded u false γ).
Proof.
  intros Hval Hγ Hp Hu Hw. destruct Hγ as [Ho Hv (q & Hq & Hr) Hd Ha Hc Hn Hs]. assert (q = p) as -> by congruence.
  unfold writes_snapshot in Hw. set (n := default 0%Z (rewards_since_snapshot c !! ru_experiment_id u)) in *.
  rewrite u64_succ_small in * by (done || lia). apply Z.leb_gt in Hw. clearbody n.
  split; cbn [origin log durable recorded]; unfold rewarded;
    cbn [policies rewards_since_snapshot snapshot_store set_count set_offset set_policies]; rewrite ?lookup_insert_eq.
  - done.
  - apply Forall_app. by split; [|repeat constructor].
  - exists p'. split; [done|]. by apply (memory_recorded u false γ p).
  - rewrite length_app. lia.
  - rewrite rewards_ahead by done. cbn. lia.
  - cbn. lia.
  - done.
  - intros Hne. destruct (Hs Hne) as (e & He & [Hep Heo Hec]). exists e. split; [done|].
    split; cbn [origin log durable recorded]; rewrite ?take_app_le by done; done.
Qed.

Lemma trace_snapshotted now u γ p p' c c' : valid_f64 (ru_reward u) → trace_ok c (ru_experiment_id u) γ →
  policies c !! ru_experiment_id u = Some p → map_Forall (λ _, composer_ok) (reward_composers c) →
  update p (ru_arm_id u) (ru_reward u) (ru_context u) = Ok p' →
  snapshot_written now (ru_experiment_id u) p' (rewarded u p' 0 c) c' →
  trace_ok c' (ru_experiment_id u) (recorded u true γ).
Proof.
  intros Hval [Ho Hv (q & Hq & Hr) Hd Ha Hc Hn Hs] Hp Hcs Hu Hw. assert (q = p) as -> by congruence.
  pose proof (memory_recorded u true γ p p' Hr Hu) as Hmem. destruct Hw as [Hc' _ Hlast _ _].
  assert (Forall entry_valid (log γ ++ [Rewarded u])) as Hv' by (apply Forall_app; by split; [|repeat constructor]).
  assert (policy_ok p') as Hok by (eapply replay_ok; [exact Ho|exact Hv'|exact Hmem]).
  assert (take (S (length (log γ))) (log γ ++ [Rewarded u]) = log γ ++ [Rewarded u]) as Htake
    by (apply take_ge; rewrite length_app; cbn; lia).
  split; [done|done| | | | |done|].
  - exists p'. split; [|done]. rewrite Hc'. apply lookup_insert_eq.
  - cbn [durable log recorded]. rewrite length_app. cbn [length]. lia.
  - rewrite Hc'. unfold rewarded. cbn [rewards_since_snapshot set_store set_count]. rewrite lookup_insert_eq.
    cbn [durable log recorded]. rewrite drop_ge by (rewrite length_app; cbn; lia). cbn. lia.
  - rewrite Hc'. unfold rewarded. cbn [rewards_since_snapshot set_store set_count]. rewrite lookup_insert_eq. cbn. lia.
  - intros _. eexists. split; [exact Hlast|]. split; cbn [origin log durable recorded]; rewrite ?Htake.
    + by exists p'.
    + exists u. split; [apply last_snoc|]. unfold envelope_of, rewarded. cbn. by rewrite lookup_insert_eq.
    + intros b Hb. unfold envelope_of in Hb. cbn in Hb. destruct (reward_composers c !! ru_experiment_id u) as [r|] eqn:Er; [|done].
      injection Hb as <-. apply durable_composer. by eapply Hcs.
Qed.
Lemma core_ok_reward t t' f u c c' g : core_ok t c g → (t ≤ t')%Z → millis t' → put_fails f = false →
  ru_metric_values u = None → valid_f64 (ru_reward u) → handle_reward_update exp config t' f u c = Ok c' →
  core_ok t' c' (alter (recorded u (writes_snapshot u c)) (ru_experiment_id u) g).
Proof.
  intros Hok Hle Ht' Hf Hm Hval H. apply (core_ok_later t t') in Hok; [|done..]. set (id := ru_experiment_id u) in *.
  destruct (policies c !! id) as [p|] eqn:Hp.
  2:{ unfold handle_reward_update, scalar_reward in H. rewrite Hm in H. cbn [mbind result_bind mret result_ret] in H.
      fold id in H. rewrite Hp in H. injection H as <-.
      by rewrite alter_id' by (by eapply untraced). }
  destruct (reward_inv t' f u p c c' Hm Hp H) as (p' & Hu & Hc). destruct (traced t' c g id p Hok Hp) as (γ & Hγ & Htr).
  set (w := writes_snapshot u c) in *. cbv zeta in Hc.
  assert ((∃ n, snapshot_written t' id p' (rewarded u p' n c) c') ∨
          snapshot_store c' = snapshot_store c ∧ ∃ n, c' = rewarded u p' n c) as Hcases.
  { destruct w; [left|right; subst c'; eauto]. exists 0%Z.
    apply (write_snapshot_spec t' f); try done; [apply (i_store _ _ _ Hok)|by apply lookup_insert_eq|apply (i_clock _ _ _ Hok)]. }
  assert (trace_ok c' id (recorded u w γ)) as Hnew.
  { destruct w eqn:Hw; [|subst c'; by eapply trace_counted].
    eapply trace_snapshotted; [exact Hval|exact Htr|exact Hp|apply (i_composers _ _ _ Hok)|exact Hu|].
    apply (write_snapshot_spec t' f); try done; [apply (i_store _ _ _ Hok)|by apply lookup_insert_eq|apply (i_clock _ _ _ Hok)]. }
  assert (∀ id', id' ≠ id → policies c' !! id' = policies c !! id' ∧
    rewards_since_snapshot c' !! id' = rewards_since_snapshot c !! id' ∧
    history id' (snapshot_store c') = history id' (snapshot_store c)) as Hother.
  { intros id' Hne. destruct Hcases as [[n [Hr _ _ _ Ho]]|[Hst [n Hr]]]; rewrite Hr;
      unfold rewarded; cbn [policies rewards_since_snapshot snapshot_store set_store set_count set_offset set_policies];
      rewrite !lookup_insert_ne by done; split_and!; try done. rewrite Ho by done. done. }
  split.
  - intros id' Hg. destruct (decide (id' = id)) as [->|Hne]; [by rewrite lookup_alter_eq, Hγ in Hg|].
    rewrite lookup_alter_ne in Hg by done. destruct (Hother id' Hne) as (-> & _ & ->). by apply (i_dom _ _ _ Hok).
  - destruct Hcases as [[n []]|[-> _]]; [done|apply (i_store _ _ _ Hok)].
  - destruct Hcases as [[n []]|[-> _]]; [done|apply (i_clock _ _ _ Hok)].
  - done.
  - intros id' Hp'. destruct (decide (id' = id)) as [->|Hne].
    + destruct (t_memory _ _ _ Hnew) as (? & ? & _). congruence.
    + destruct (Hother id' Hne) as (Hp1 & -> & _). apply (i_count _ _ _ Hok). congruence.
  - destruct Hcases as [[n [-> _ _ _ _]]|[_ [n ->]]]; apply (i_composers _ _ _ Hok).
  - intros id' γ' Hg. destruct (decide (id' = id)) as [->|Hne].
    + rewrite lookup_alter_eq, Hγ in Hg. by injection Hg as <-.
    + rewrite lookup_alter_ne in Hg by done. destruct (Hother id' Hne) as (? & ? & ?).
      eapply trace_ok_ext; [..|by apply (i_trace _ _ _ Hok)]; done.
Qed.

(** ** New experiments *)

(** The state a registration leaves: new policies, and composers that can be stored. *)
Record registered c c' : Prop := mk_registered
  { g_store : snapshot_store c' = snapshot_store c;
    g_since : rewards_since_snapshot c' = rewards_since_snapshot c;
    g_old : ∀ id p, policies c !! id = Some p → policies c' !! id = Some p;
    g_new : ∀ id p, policies c !! id = None → policies c' !! id = Some p → policy_ok p;
    g_composers : map_Forall (λ _, composer_ok) (reward_composers c) → map_Forall (λ _, composer_ok) (reward_composers c') }.

Lemma registered_refl c : registered c c.
Proof. split; try done. intros. congruence. Qed.

Lemma registered_trans c1 c2 c3 : registered c1 c2 → registered c2 c3 → registered c1 c3.
Proof.
  intros [H1 H2 H3 H4 H5] [K1 K2 K3 K4 K5]. split; try congruence; auto.
  intros id p Hn Hs. destruct (policies c2 !! id) as [q|] eqn:Hq; [|by eapply K4].
  specialize (K3 id q Hq). assert (p = q) as -> by congruence. by eapply H4.
Qed.

Lemma core_ok_registered t c c' g : core_ok t c g → registered c c' → core_ok t c' (g ∪ (fresh_trace <$> policies c')).
Proof.
  intros Hok [Hst Hsi Hold Hnew Hcs]. split; rewrite ?Hst, ?Hsi; [| | | | | |].
  - intros id [Hg Hp]%lookup_union_None. rewrite lookup_fmap in Hp. split; [by destruct (policies c' !! id)|].
    by apply (i_dom _ _ _ Hok).
  - apply (i_store _ _ _ Hok).
  - apply (i_clock _ _ _ Hok).
  - apply (i_millis _ _ _ Hok).
  - intros id Hp. apply (i_count _ _ _ Hok). destruct (policies c !! id) eqn:E; [|done]. apply Hold in E. congruence.
  - apply Hcs, (i_composers _ _ _ Hok).
  - intros id γ [Hg|[Hg Hf]]%lookup_union_Some_raw.
    + pose proof (i_trace _ _ _ Hok id γ Hg) as Htr. destruct (t_memory _ _ _ Htr) as (p & Hp & _).
      eapply trace_ok_ext; [| | |exact Htr]; rewrite ?Hst, ?Hsi; try done. rewrite Hp. by apply Hold.
    + rewrite lookup_fmap in Hf. destruct (policies c' !! id) as [p|] eqn:Hp; [|done]. injection Hf as <-.
      destruct (i_dom _ _ _ Hok id Hg) as [Hpn Hh]. pose proof (i_count _ _ _ Hok id Hpn) as Hn.
      split; cbn [fresh_trace origin log durable length]; rewrite ?Hst, ?Hsi, ?Hn; try done; try lia.
      * by eapply Hnew.
      * by exists p.
Qed.

Lemma registered_insert id p c c' : policy_ok p → snapshot_store c' = snapshot_store c →
  rewards_since_snapshot c' = rewards_since_snapshot c → policies c' = or_insert id p (policies c) →
  (map_Forall (λ _, composer_ok) (reward_composers c) → map_Forall (λ _, composer_ok) (reward_composers c')) →
  registered c c'.
Proof.
  intros Hp Hst Hsi Hpo Hcs. split; try done; rewrite Hpo; unfold or_insert; intros id' q.
  - intros Hq. destruct (policies c !! id) eqn:E; [done|]. rewrite lookup_insert_ne; congruence.
  - intros Hn Hq. destruct (policies c !! id) eqn:E; [congruence|].
    apply lookup_insert_Some in Hq as [[_ <-]|[_ Hq]]; [done|congruence].
Qed.

Lemma cold_start_registered cfg c c' r : f64_is_finite (cs_alpha cfg) = true → handle_create_cold_start cfg c = Ok (c', r) → registered c c'.
Proof.
  unfold handle_create_cold_start. intros Ha H. apply bind_ok_inv in H as ([id p] & Hp & H). injection H as <- _.
  unfold create_cold_start_policy in Hp. apply bind_ok_inv in Hp as (q & Hq & Hp). injection Hp as <- <-.
  eapply registered_insert; [by eapply durable_linucb|done|done|reflexivity|done].
Qed.

Lemma variant_registered id vp c c' : register_variant id vp c = Ok c' → registered c c'.
Proof.
  unfold register_variant. intros H. apply bind_ok_inv in H as (r & Hr & H). injection H as <-.
  eapply registered_insert; [apply durable_thompson|done|done|reflexivity|].
  intros Hcs. apply map_Forall_insert_2; [|done]. by eapply durable_new_composer.
Qed.

Lemma meta_registered id vps : ∀ c c' ids, handle_register_meta_experiment id vps c = Ok (c', ids) → registered c c'.
Proof.
  induction vps as [|vp vps IH]; intros c c' ids H; cbn [handle_register_meta_experiment] in H.
  { injection H as <- _. apply registered_refl. }
  apply bind_ok_inv in H as (c1 & H1 & H). apply bind_ok_inv in H as ([c2 ids'] & H2 & H). injection H as <- _.
  eapply registered_trans; [by eapply variant_registered|by eapply IH].
Qed.
(** ** Rollback and restart *)

(** The newest snapshot of an experiment is readable. *)
Lemma newest_holds t c g id e : core_ok t c g → last (history id (snapshot_store c)) = Some e →
  ∃ γ, g !! id = Some γ ∧ durable γ ≠ 0%nat ∧ trace_ok c id γ ∧ holds id e γ.
Proof.
  intros Hok He. destruct (g !! id) as [γ|] eqn:Hg.
  - pose proof (i_trace _ _ _ Hok id γ Hg) as Htr. exists γ.
    assert (durable γ ≠ 0%nat) as Hd by (intros Hd; rewrite (t_none _ _ _ Htr Hd) in He; done).
    destruct (t_some _ _ _ Htr Hd) as (e' & He' & Hh). assert (e' = e) as -> by congruence. done.
  - destruct (i_dom _ _ _ Hok id Hg) as [_ Hh]. by rewrite Hh in He.
Qed.

(** Reading it back is the last thing that happened to the policy. *)
Lemma holds_reloaded id e γ : holds id e γ → ∃ p, deserialize (env_policy_type e) (env_policy_state e) = Ok p ∧
  replay (origin γ) (take (durable γ) (log γ) ++ [Reloaded]) = Ok p.
Proof.
  intros [(p & Hr & Hok & -> & ->) _ _]. destruct (durable_policy p Hok) as (q & Hq & _). exists q. split; [done|].
  rewrite replay_app, Hr. cbn [mbind result_bind replay apply_entry]. by rewrite Hq.
Qed.

Lemma trace_truncated c c' id γ e p : trace_ok c id γ → durable γ ≠ 0%nat →
  last (history id (snapshot_store c)) = Some e → holds id e γ →
  deserialize (env_policy_type e) (env_policy_state e) = Ok p → policies c' !! id = Some p →
  history id (snapshot_store c') = history id (snapshot_store c) →
  (0 ≤ default 0 (rewards_since_snapshot c' !! id) < Z.max 1 (snapshot_interval config))%Z →
  trace_ok c' id (truncated γ).
Proof.
  intros Htr Hd He Hh Hp Hpol Hhist Hcnt. destruct (holds_reloaded id e γ Hh) as (q & Hq & Hr).
  assert (q = p) as -> by congruence. pose proof (t_durable _ _ _ Htr) as Hle.
  assert (length (take (durable γ) (log γ)) = durable γ) as Hlen by (rewrite length_take; lia).
  split; cbn [truncated origin log durable]; rewrite ?Hhist; [| | | | |done|done|].
  - apply (t_origin _ _ _ Htr).
  - apply Forall_app. split; [apply Forall_take, (t_valid _ _ _ Htr)|by repeat constructor].
  - by exists p.
  - rewrite length_app, Hlen. lia.
  - rewrite drop_app_length' by done. cbn. lia.
  - intros _. exists e. split; [done|]. destruct Hh as [Hhp Hho Hhc].
    split; cbn [truncated origin log durable]; rewrite ?take_app_length' by done; done.
Qed.

Lemma core_ok_rollback t c c' g f id target r : core_ok t c g →
  handle_rollback_policy f id target c = Ok (c', r) → core_ok t c' (alter truncated id g).
Proof.
  intros Hok H. unfold handle_rollback_policy, latest_snapshot in H.
  destruct (load_latest_spec f id _ (i_store _ _ _ Hok)) as [Hl|[_ Hl]]; rewrite Hl in H; [|done].
  destruct (last (history id (snapshot_store c))) as [e|] eqn:He; [|done]. cbn [mbind result_bind mret result_ret] in H.
  destruct (newest_holds t c g id e Hok He) as (γ & Hg & Hd & Htr & Hh).
  destruct (holds_reloaded _ _ _ Hh) as (p & Hde & _). rewrite Hde in H. cbn [mbind result_bind] in H. injection H as <- _.
  assert (∀ id', g !! id' = None → policies (set_policies <[id := p]> c) !! id' = policies c !! id') as Hnone.
  { intros id' Hn. cbn [policies set_policies]. rewrite lookup_insert_ne; [done|]. intros <-. congruence. }
  split; try apply Hok.
  - intros id' Hg'. assert (g !! id' = None) as Hn by by rewrite lookup_alter_None in Hg'. rewrite Hnone by done. by apply (i_dom _ _ _ Hok).
  - intros id' Hp'. apply (i_count _ _ _ Hok). cbn [policies set_policies] in Hp'.
    by apply lookup_insert_None in Hp' as [? _].
  - intros id' γ' Hg'. destruct (decide (id' = id)) as [->|Hne].
    + rewrite lookup_alter_eq, Hg in Hg'. injection Hg' as <-.
      apply (trace_truncated c _ id γ e p); try done; [apply lookup_insert_eq|apply (t_count _ _ _ Htr)].
    + rewrite lookup_alter_ne in Hg' by done. eapply trace_ok_ext; [..|by apply (i_trace _ _ _ Hok)]; try done.
      cbn [policies set_policies]. by rewrite lookup_insert_ne.
Qed.

(** Restoring one snapshot, and all of them. *)
Definition restorable e : Prop :=
  (∃ p, deserialize (env_policy_type e) (env_policy_state e) = Ok p) ∧
  ∀ b, env_composer_state e = Some b → ∃ r, from_slice b = Some r ∧ composer_ok r.

Record restored (es : list (SnapshotEnvelope Bytes)) c c' : Prop := mk_restored
  { rs_store : snapshot_store c' = snapshot_store c;
    rs_since : rewards_since_snapshot c' = rewards_since_snapshot c;
    rs_each : ∀ e, e ∈ es → ∃ p, deserialize (env_policy_type e) (env_policy_state e) = Ok p ∧
      policies c' !! env_experiment_id e = Some p ∧ last_kafka_offset c' !! env_experiment_id e = Some (env_kafka_offset e);
    rs_other : ∀ id, id ∉ env_experiment_id <$> es → policies c' !! id = policies c !! id ∧
      last_kafka_offset c' !! id = last_kafka_offset c !! id;
    rs_composers : map_Forall (λ _, composer_ok) (reward_composers c) → map_Forall (λ _, composer_ok) (reward_composers c') }.

Lemma restore_envelope_spec e c : restorable e → ∃ c', restore_envelope e c = Ok c' ∧ restored [e] c c'.
Proof.
  intros [[p Hp] Hc]. unfold restore_envelope. rewrite Hp. cbn [mbind result_bind mret result_ret].
  destruct (env_composer_state e) as [b|] eqn:Hb.
  - destruct (Hc b eq_refl) as (r & Hr & Hok). unfold expect. rewrite Hr. cbn [mbind result_bind mret result_ret].
    eexists. split; [reflexivity|]. split; [done|done| | |].
    + intros e' ->%list_elem_of_singleton. exists p. by cbn; rewrite !lookup_insert_eq.
    + intros id Hid. cbn in *. rewrite !lookup_insert_ne by set_solver. done.
    + intros Hcs. by apply map_Forall_insert_2.
  - eexists. split; [reflexivity|]. split; [done|done| | |done].
    + intros e' ->%list_elem_of_singleton. exists p. by cbn; rewrite !lookup_insert_eq.
    + intros id Hid. cbn in *. rewrite !lookup_insert_ne by set_solver. done.
Qed.

Lemma restore_all_spec es : ∀ c, NoDup (env_experiment_id <$> es) → Forall restorable es →
  ∃ c', restore_all es c = Ok c' ∧ restored es c c'.
Proof.
  induction es as [|e es IH]; intros c Hn Hr.
  { exists c. split; [done|]. split; try done. by intros e He%not_elem_of_nil. }
  apply NoDup_cons in Hn as [Hin Hn]. apply Forall_cons in Hr as [He Hr].
  destruct (restore_envelope_spec e c He) as (c1 & H1 & [A1 A2 A3 A4 A5]).
  destruct (IH c1 Hn Hr) as (c2 & H2 & [B1 B2 B3 B4 B5]). exists c2. cbn [restore_all]. rewrite H1.
  cbn [mbind result_bind]. split; [done|]. split; [congruence|congruence| | |auto].
  - intros e' [->|He']%elem_of_cons; [|by apply B3]. destruct (A3 e) as (p & Hp & Hl & Ho); [by left|].
    destruct (B4 _ Hin) as [-> ->]. by exists p.
  - intros id Hid. rewrite fmap_cons, not_elem_of_cons in Hid. destruct Hid as [Hne Hid].
    destruct (B4 id Hid) as [-> ->]. apply A4. cbn. set_solver.
Qed.
Record restarted c c' : Prop := mk_restarted
  { ra_store : snapshot_store c' = snapshot_store c;
    ra_since : rewards_since_snapshot c' = ∅;
    ra_composers : map_Forall (λ _, composer_ok) (reward_composers c');
    ra_each : ∀ id, match last (history id (snapshot_store c)) with
      | Some e => ∃ p, deserialize (env_policy_type e) (env_policy_state e) = Ok p ∧ policies c' !! id = Some p ∧
                    last_kafka_offset c' !! id = Some (env_kafka_offset e)
      | None => policies c' !! id = None
      end }.

Lemma start_spec t c g : core_ok t c g → ∃ c', start_core None (snapshot_store c) = Ok c' ∧ restarted c c'.
Proof.
  intros Hok. unfold start_core, restore_from_snapshots. cbn [snapshot_store new_core].
  destruct (load_all_spec None _ (i_store _ _ _ Hok)) as [(m & -> & Hm)|[? _]]; [|done]. cbn [mbind result_bind].
  assert (∀ id e, m !! id = Some e → last (history id (snapshot_store c)) = Some e ∧ env_experiment_id e = id) as Hlast.
  { intros id e He. rewrite Hm in He. split; [done|]. by apply last_Some_elem_of, elem_of_history in He as [_ ?]. }
  assert (env_experiment_id <$> (map_to_list m).*2 = (map_to_list m).*1) as Hids.
  { rewrite <- list_fmap_compose. apply list_fmap_ext. intros i [id e] Hi%list_elem_of_lookup_2%elem_of_map_to_list.
    by apply Hlast in Hi as [_ ?]. }
  destruct (restore_all_spec (map_to_list m).*2 (new_core (snapshot_store c))) as (c' & Hc' & [R1 R2 R3 R4 R5]).
  - rewrite Hids. apply NoDup_fst_map_to_list.
  - apply Forall_forall. intros e ([id e'] & -> & Hin%elem_of_map_to_list)%list_elem_of_fmap. cbn [snd].
    apply Hlast in Hin as [Hin _]. destruct (newest_holds t c g id e' Hok Hin) as (γ & _ & _ & _ & Hh).
    destruct (holds_reloaded _ _ _ Hh) as (p & Hp & _). split; [by exists p|apply (h_composer _ _ _ Hh)].
  - exists c'. rewrite Hc'. split; [done|]. split; [done|done| |].
    + apply R5, map_Forall_empty.
    + intros id. rewrite <- Hm. destruct (m !! id) as [e|] eqn:He.
      * destruct (R3 e) as (p & Hp & Hl & Ho).
        { apply list_elem_of_fmap. exists (id, e). split; [done|]. by apply elem_of_map_to_list. }
        destruct (Hlast id e He) as [_ Hid]. rewrite Hid in Hl, Ho. by exists p.
      * destruct (R4 id) as [-> _]; [|done]. rewrite Hids. intros ([id' e] & -> & Hin%elem_of_map_to_list)%list_elem_of_fmap.
        cbn [fst] in He. congruence.
Qed.

Lemma core_ok_restart t c c' g : core_ok t c g → start_core None (snapshot_store c) = Ok c' →
  core_ok t c' (truncated <$> filter (λ kγ, kγ.2.(durable) ≠ 0%nat) g).
Proof.
  intros Hok H. destruct (start_spec t c g Hok) as (c'' & Hs & [Hst Hsi Hcs Heach]).
  assert (c'' = c') as -> by congruence. clear H Hs.
  split; rewrite ?Hst, ?Hsi; try apply Hok; [| |done|].
  - intros id Hg. rewrite lookup_fmap in Hg. specialize (Heach id).
    destruct (last (history id (snapshot_store c))) as [e|] eqn:He.
    + exfalso. destruct (newest_holds t c g id e Hok He) as (γ & Hγ & Hd & _).
      rewrite (map_lookup_filter_Some_2 _ g id γ Hγ Hd) in Hg. done.
    + by apply last_None in He.
  - intros id Hp. by rewrite lookup_empty.
  - intros id γ' Hg. rewrite lookup_fmap in Hg. apply fmap_Some in Hg as (γ & [Hγ Hd]%map_lookup_filter_Some & ->).
    cbn [snd] in Hd. pose proof (i_trace _ _ _ Hok id γ Hγ) as Htr. specialize (Heach id).
    destruct (t_some _ _ _ Htr Hd) as (e & He & Hh). rewrite He in Heach. destruct Heach as (p & Hp & Hpol & _).
    apply (trace_truncated c c' id γ e p); try done; [by rewrite Hst|]. rewrite Hsi, lookup_empty. cbn. lia.
Qed.

(** ** Recovery *)

Lemma answered_same {A} c c' (r : policy A) : answered c (s ← r; mret (c, s)) = Ok c' → c' = c.
Proof. destruct r; cbn; congruence. Qed.

Lemma core_ok_reads t c c' g : core_ok t c g → c' = c → core_ok t c' (g ∪ (fresh_trace <$> policies c')).
Proof. intros Hok ->. by apply (core_ok_registered t c); [|apply registered_refl]. Qed.

Lemma answered_ok {A} c c' (r : policy (PolicyCore * A)) : answered c r = Ok c' →
  (∃ a, r = Ok (c', a)) ∨ c' = c ∧ is_ok r = false.
Proof. destruct r as [[c1 a]| | |]; cbn; intros [= <-]; [left; by exists a|right; done]. Qed.

Lemma core_ok_step t t' c c' g m : core_ok t c g → admissible t m t' → core_step exp config m c = Ok c' →
  core_ok t' c' (trace_step m c c' g).
Proof.
  intros Hok (Hle & Hm & Hadm) H. pose proof (core_ok_later t t' c g Hok Hle Hm) as Hok'.
  destruct m as [id ctx rng|now f u|cfg|id segs|f id|f id target|id vps]; cbn [core_step trace_step] in *.
  - by eapply core_ok_reads, answered_same.
  - destruct Hadm as (-> & ? & ? & ?). by eapply core_ok_reward.
  - apply answered_ok in H as [[a H]|[-> _]]; [|by apply (core_ok_reads t' c)].
    by eapply core_ok_registered, cold_start_registered.
  - by eapply core_ok_reads, answered_same.
  - by eapply core_ok_reads, answered_same.
  - apply answered_ok in H as [[a H]|[-> ->]]; [|done]. rewrite H. cbn [is_ok]. by eapply core_ok_rollback.
  - apply answered_ok in H as [[a H]|[-> _]]; [|by apply (core_ok_reads t' c)].
    by eapply core_ok_registered, meta_registered.
Qed.

Lemma reaches_ok t c g : reaches t c g → core_ok t c g.
Proof.
  induction 1 as [t Ht|t t' c c' g m Hr IH Ha Hs|t c c' g Hr IH Hs].
  - assert (∀ id, history id (∅ : RocksDb Bytes) = []) as Hh by by intros.
    split; try done. intros id e. rewrite Hh. by intros ?%not_elem_of_nil.
  - by eapply core_ok_step.
  - by eapply core_ok_restart.
Qed.

(** The policy of a traced experiment, now and after a restart. *)
Record recovers c id (γ : Trace) : Prop := mk_recovers
  { re_memory : ∃ p, policies c !! id = Some p ∧ replay (origin γ) (log γ) = Ok p;
    re_durable : durable γ ≤ length (log γ);
    re_ahead : (Z.of_nat (length (rewards_of (drop (durable γ) (log γ)))) < Z.max 1 (snapshot_interval config))%Z;
    re_restart : ∃ c', start_core None (snapshot_store c) = Ok c' ∧
      match take (durable γ) (log γ) with
      | [] => policies c' !! id = None
      | ns => (∃ p, policies c' !! id = Some p ∧ replay (origin γ) (ns ++ [Reloaded]) = Ok p) ∧
          ∃ u, last ns = Some (Rewarded u) ∧ last_kafka_offset c' !! id = Some (ru_kafka_offset u)
      end }.

Lemma recovery_of_trace t c g id γ : core_ok t c g → g !! id = Some γ → recovers c id γ.
Proof.
  intros Hok Hg. pose proof (i_trace _ _ _ Hok id γ Hg) as Htr. pose proof (t_durable _ _ _ Htr) as Hle.
  split; [apply Htr|done|pose proof (t_ahead _ _ _ Htr); pose proof (t_count _ _ _ Htr); lia|].
  destruct (start_spec t c g Hok) as (c' & Hs & [_ _ _ Heach]). exists c'. split; [done|]. specialize (Heach id).
  destruct (decide (durable γ = 0%nat)) as [Hd|Hd].
  - rewrite Hd. cbn [take]. by rewrite (t_none _ _ _ Htr Hd) in Heach.
  - destruct (t_some _ _ _ Htr Hd) as (e & He & Hh). rewrite He in Heach. destruct Heach as (p & Hp & Hpol & Hoff).
    destruct (holds_reloaded _ _ _ Hh) as (q & Hq & Hr). assert (q = p) as -> by congruence.
    destruct (h_offset _ _ _ Hh) as (u & Hu & Ho). destruct (take (durable γ) (log γ)) as [|n ns] eqn:Ens; [done|].
    split; [by exists p|]. exists u. by rewrite <- Ho.
Qed.
End recovery.
