(* ===== verification/PolicyRecovery.v ===== *)
(** The bandit policies survive snapshots, so the policy core recovers from crashes; and
    what the consumer, the core and the store together do not promise. *)
From Stdlib Require Import Ascii String SpecFloat.
From S2P Require Import Prelude Bytes F64 F64Sum Bandit Snapshots PolicyCore PolicyCoreSpec.

(** ** The libraries *)

Definition finite_all (l : list f64) : Prop := Forall (λ x, f64_is_finite x = true) l.

(** [nalgebra]: the elements are those of the slice; a finite norm has finite elements. *)
Class NalgebraLaws {Hna : Nalgebra} :=
  { vector_slice l : vector_as_slice (vector_from_vec l) = l;
    matrix_slice r c l : length l = (r * c)%nat → matrix_as_slice (matrix_from_vec r c l) = l;
    matrix_rows r c l : length l = (r * c)%nat → nrows (matrix_from_vec r c l) = r;
    matrix_cols r c l : length l = (r * c)%nat → ncols (matrix_from_vec r c l) = c;
    slice_length m : length (matrix_as_slice m) = (nrows m * ncols m)%nat;
    matrix_norm_finite m : f64_is_finite (matrix_norm m) = true → finite_all (matrix_as_slice m);
    vector_norm_finite v : f64_is_finite (vector_norm v) = true → finite_all (vector_as_slice v);
    identity_finite n : finite_all (matrix_as_slice (identity n));
    zeros_finite n : finite_all (vector_as_slice (zeros n)) }.

Record arm_state_ok (a : SerializableArm) : Prop := mk_arm_state_ok
  { as_shape : length (a_inv_data a) = (a_inv_rows a * a_inv_cols a)%nat;
    as_matrix : finite_all (a_inv_data a); as_vector : finite_all (b_data a) }.

Record state_ok (s : LinUcbState) : Prop := mk_state_ok
  { st_alpha : f64_is_finite (ls_alpha s) = true;
    st_min : f64_is_finite (ls_min_exploration_fraction s) = true;
    st_arms : Forall arm_state_ok (ls_arms s) }.

Definition objective_finite (o : Objective) : Prop := f64_is_finite (weight o) = true ∧ f64_is_finite (floor o) = true.
Definition stats_finite (s : MetricStats) : Prop :=
  f64_is_finite (mean s) = true ∧ f64_is_finite (variance s) = true ∧ f64_is_finite (ideal s) = true.

Definition composer_ok (c : RewardComposer) : Prop :=
  Forall objective_finite (objectives c) ∧ map_Forall (λ _, stats_finite) (normalizer c).

(** [serde_json] reads back what it wrote, numbers up to rounding as long as they are
    finite: other numbers are written as [null]. *)
Class JsonLaws (Bytes : Type) `{!Json Bytes ThompsonSamplingPolicy, !Json Bytes LinUcbState,
    !Json Bytes RewardComposer, !Json Bytes (SnapshotEnvelope Bytes)} :=
  { json_thompson (p : ThompsonSamplingPolicy) : thompson_ok p → ∃ q, from_slice (to_vec p) = Some q ∧ thompson_ok q;
    json_linucb (s : LinUcbState) : state_ok s → ∃ t, from_slice (to_vec s) = Some t ∧ state_ok t;
    json_composer (c : RewardComposer) : composer_ok c → ∃ d, from_slice (to_vec c) = Some d ∧ composer_ok d;
    json_envelope (e : SnapshotEnvelope Bytes) : from_slice (to_vec e) = Some e }.

(** ** The policies survive snapshots *)

Section durable.
Context {Hna : Nalgebra} {Hnl : NalgebraLaws} {Bytes : Type}.
Context {Hjt : Json Bytes ThompsonSamplingPolicy} {Hjl : Json Bytes LinUcbState}
        {Hjc : Json Bytes RewardComposer} {Hje : Json Bytes (SnapshotEnvelope Bytes)} {Hjs : JsonLaws Bytes}.

Definition policy_ok (p : AnyPolicy) : Prop :=
  match p with AThompson p => thompson_ok p | ALinUcb p => state_ok (linucb_state p) end.

Lemma into_arm_ok a : arm_state_ok a → ∃ b, into_arm a = Ok b ∧ arm_state_ok (to_serializable b).
Proof.
  intros [Hs Hm Hv]. unfold into_arm. rewrite Hs, Nat.eqb_refl. cbn. eexists. split; [reflexivity|].
  unfold to_serializable. cbn [a_inv b_vec la_arm_id n_pulls].
  split; cbn [a_inv_data a_inv_rows a_inv_cols b_data]; rewrite ?matrix_slice, ?matrix_rows, ?matrix_cols, ?vector_slice; done.
Qed.

Lemma of_linucb_state_ok s : state_ok s → ∃ p, of_linucb_state s = Ok p ∧ state_ok (linucb_state p).
Proof.
  intros [Ha Hm Harms]. unfold of_linucb_state.
  assert (∃ bs, try_map into_arm (ls_arms s) = Ok bs ∧ Forall arm_state_ok (to_serializable <$> bs)) as (bs & -> & Hbs).
  { induction (ls_arms s) as [|a l IH]; [by exists []|]. apply Forall_cons in Harms as [Hh Harms].
    destruct (into_arm_ok a Hh) as (b & Hb & Hok). destruct (IH Harms) as (bs & Hbs & Hoks). exists (b :: bs).
    cbn [try_map]. rewrite Hb. cbn [mbind result_bind]. rewrite Hbs. cbn. split; [done|by constructor]. }
  cbn. eexists. split; [reflexivity|]. by split.
Qed.

Lemma update_linucb_arm_ok a x r a' : arm_state_ok (to_serializable a) → update_linucb_arm a x r = Ok a' →
  arm_state_ok (to_serializable a').
Proof.
  intros [Hs Hm Hv] H. unfold update_linucb_arm, assert_finite in H. apply assert_bind in H as [_ H].
  apply bind_ok_inv in H as (m & Hsm & H). apply assert_bind in H as [Hb H]. injection H as <-.
  split; cbn [a_inv_data a_inv_rows a_inv_cols b_data to_serializable a_inv b_vec].
  - apply slice_length.
  - unfold sherman_morrison, assert_finite in Hsm. apply assert_bind in Hsm as [_ Hsm].
    destruct (f64_lt _ _); [by injection Hsm as <-|]. apply assert_bind in Hsm as [Hn Hsm]. injection Hsm as <-.
    by apply matrix_norm_finite.
  - by apply vector_norm_finite.
Qed.

Lemma update_linucb_ok p arm r x p' : state_ok (linucb_state p) → update_linucb p arm r x = Ok p' →
  state_ok (linucb_state p').
Proof.
  intros [Ha Hm Harms] H. unfold update_linucb in H. apply bind_ok_inv in H as (ctx & _ & H).
  apply bind_ok_inv in H as (v & _ & H). apply bind_ok_inv in H as (arms & Harm & H). injection H as <-.
  split; [done|done|]. cbn [ls_arms linucb_state lu_arms] in *. rewrite Forall_fmap in *.
  eapply update_first_ok; [|exact Harms|exact Harm]. intros a b Hok. by apply update_linucb_arm_ok.
Qed.

Lemma new_linucb_ok id arms keys a m p : f64_is_finite a = true → new_linucb id arms keys a m = Ok p →
  state_ok (linucb_state p).
Proof.
  intros Ha H. unfold new_linucb in H. do 3 apply assert_bind in H as [_ H]. apply assert_bind in H as [Hm H].
  apply assert_bind in H as [_ H]. injection H as <-. split; cbn [linucb_state ls_alpha ls_min_exploration_fraction ls_arms]; [done| |].
  - apply andb_prop in Hm as [H0 H1]. by destruct m as [[]|[]| |[]].
  - cbn [lu_arms]. rewrite <- list_fmap_compose. apply Forall_fmap, Forall_true. intros i.
    split; cbn; [apply slice_length|apply identity_finite|apply zeros_finite].
Qed.

Lemma new_composer_ok ws c :
  new_composer ((λ kw : str * f64, mk_objective kw.1 kw.2 f64_zero false) <$> ws) WeightedScalarization = Ok c →
  composer_ok c.
Proof.
  intros H. unfold new_composer in H. apply assert_bind in H as [_ H]. apply bind_ok_inv in H as ([] & Hw & H).
  apply assert_bind in H as [_ H]. injection H as <-. split; [|apply map_Forall_empty]. cbn [objectives].
  induction ws as [|[k w] ws IH]; [constructor|]. rewrite fmap_cons in *. cbn [for_each] in Hw.
  apply assert_bind in Hw as [Hf Hw]. apply andb_prop in Hf as [Hf _]. constructor; [by split|by apply IH].
Qed.

#[export] Instance durable_policies : DurablePolicies policy_ok composer_ok.
Proof.
  split.
  - intros [p|p] Hp; cbn [policy_type serialize]; unfold deserialize.
    + rewrite decide_True by done. destruct (json_thompson p Hp) as (q & -> & Hq). by exists (AThompson q).
    + rewrite decide_False, decide_True by done. destruct (json_linucb (linucb_state p) Hp) as (t & -> & Ht).
      cbn [expect mbind result_bind mret result_ret]. destruct (of_linucb_state_ok t Ht) as (q & -> & Hq). by exists (ALinUcb q).
  - intros [p|p] arm r x p' Hp Hv H; cbn [update] in H; apply bind_ok_inv in H as (q & Hq & H); injection H as <-.
    + by eapply update_thompson_ok.
    + by eapply update_linucb_ok.
  - intros id arms. apply new_thompson_ok.
  - intros id arms keys a m p Ha H. by eapply new_linucb_ok.
  - apply json_composer.
  - apply new_composer_ok.
  - apply json_envelope.
Qed.
End durable.

(** ** Recovery *)

Section recovery.
Context {Hna : Nalgebra} {Hnl : NalgebraLaws} {Hbs : BetaSampler} {Bytes : Type}.
Context {Hjt : Json Bytes ThompsonSamplingPolicy} {Hjl : Json Bytes LinUcbState}
        {Hjc : Json Bytes RewardComposer} {Hje : Json Bytes (SnapshotEnvelope Bytes)} {Hjs : JsonLaws Bytes}.
Context (exp : f64 → f64) (config : PolicyConfig).

End recovery.

(** ** Examples *)

(** Column-major matrices, naively. *)
Record sample_matrix := mk_sample_matrix { sm_rows : nat; sm_cols : nat; sm_at : nat → f64 }.

Definition sample_slice (m : sample_matrix) : list f64 := sm_at m <$> seq 0 (sm_rows m * sm_cols m).
Definition sample_entry (m : sample_matrix) (i j : nat) : f64 := sm_at m (i + j * sm_rows m).
Definition sample_dot (v w : list f64) : f64 := f64_sum (zip_with f64_mul v w).
Definition sample_norm (l : list f64) : f64 :=
  if forallb f64_is_finite l then f64_sqrt (sample_dot l l) else S754_nan.

#[export] Instance sample_nalgebra : Nalgebra :=
  {| DVector := list f64; DMatrix := sample_matrix;
     identity n := mk_sample_matrix n n (λ i, if i mod S n =? 0 then f64_one else f64_zero);
     zeros n := replicate n f64_zero;
     vector_from_vec l := l; vector_as_slice l := l;
     matrix_from_vec r c l := mk_sample_matrix r c (λ i, default f64_zero (l !! i));
     matrix_as_slice := sample_slice; nrows := sm_rows; ncols := sm_cols;
     matrix_vector m v := (λ i, sample_dot (sample_entry m i <$> seq 0 (sm_cols m)) v) <$> seq 0 (sm_rows m);
     dot := sample_dot;
     outer v w := mk_sample_matrix (length v) (length w) (λ i,
       f64_mul (default f64_zero (v !! (i mod length v))) (default f64_zero (w !! (i / length v))));
     matrix_div m x := mk_sample_matrix (sm_rows m) (sm_cols m) (λ i, f64_div (sm_at m i) x);
     matrix_sub m n := mk_sample_matrix (sm_rows m) (sm_cols m) (λ i, f64_sub (sm_at m i) (sm_at n i));
     matrix_norm m := sample_norm (sample_slice m);
     vector_scale x v := f64_mul x <$> v; vector_add v w := zip_with f64_add v w;
     vector_norm := sample_norm |}.

Lemma sample_norm_finite l : f64_is_finite (sample_norm l) = true → finite_all l.
Proof.
  unfold sample_norm, finite_all. destruct (forallb f64_is_finite l) eqn:H; [|done]. intros _.
  apply Forall_forall. intros x Hx%list_elem_of_In. by apply (proj1 (forallb_forall _ _) H).
Qed.

Lemma sample_slice_of r c l : length l = (r * c)%nat →
  sample_slice (mk_sample_matrix r c (λ i, default f64_zero (l !! i))) = l.
Proof.
  intros Hl. unfold sample_slice. cbn [sm_rows sm_cols sm_at]. rewrite <- Hl. clear. induction l as [|x l IH]; [done|].
  cbn [length seq]. rewrite fmap_cons, <- fmap_S_seq, <- list_fmap_compose. by f_equal.
Qed.

#[export] Instance sample_nalgebra_laws : NalgebraLaws.
Proof.
  split; try done.
  - apply sample_slice_of.
  - intros m. cbn. unfold sample_slice. by rewrite length_fmap, length_seq.
  - intros m. apply sample_norm_finite.
  - apply sample_norm_finite.
  - intros n. cbn. unfold sample_slice. cbn. apply Forall_fmap, Forall_true. intros i. cbn. by destruct (_ =? _).
  - intros n. cbn. by apply Forall_replicate.
Qed.

(** A sampler that counts its draws and answers one of two values. *)
#[export] Instance sample_beta : BetaSampler :=
  {| Rng := nat; beta_sample a b rng := (if f64_gt a b then f64_one else f64_ratio 1 2, S rng) |}.

#[export] Instance sample_beta_laws : BetaLaws.
Proof. intros a b rng _ _. cbn. by destruct (f64_gt a b). Qed.

#[export] Instance sample_json_laws : JsonLaws sample_bytes.
Proof. split; [intros p Hp; by exists p|intros s Hs; by exists s|intros c Hc; by exists c|done]. Qed.

Definition sample_exp (x : f64) : f64 := f64_one.
Definition sample_config : PolicyConfig := mk_policy_config 2 3.
Definition sample_meta : Message :=
  MRegisterMeta (lit "e") [mk_meta_variant (lit "v") [lit "a"; lit "b"] [(lit "m", f64_one)]].
Definition sample_reward (arm : string) (reward : f64) (offset : Z) : RewardUpdate :=
  mk_reward_update (lit "e::v::v") (lit arm) reward None offset None.

(** A run of messages at their times. *)
Fixpoint sample_run (t : Z) (steps : list (Z * Message)) (c : PolicyCore (Bytes:=sample_bytes)) (g : gmap str Trace) :
    policy (Z * PolicyCore (Bytes:=sample_bytes) * gmap str Trace) :=
  match steps with
  | [] => mret (t, c, g)
  | (t', m) :: steps =>
      c' ← core_step sample_exp sample_config m c;
      sample_run t' steps c' (trace_step sample_config m c c' g)
  end.

Fixpoint all_admissible (t : Z) (steps : list (Z * Message)) : Prop :=
  match steps with
  | [] => True
  | (t', m) :: steps => admissible t m t' ∧ all_admissible t' steps
  end.

Lemma sample_run_reaches steps : ∀ t c g t' c' g', reaches sample_exp sample_config t c g → all_admissible t steps →
  sample_run t steps c g = Ok (t', c', g') → reaches sample_exp sample_config t' c' g'.
Proof.
  induction steps as [|[t1 m] steps IH]; intros t c g t' c' g' Hr Ha H; cbn [sample_run all_admissible] in *.
  { by injection H as <- <- <-. }
  destruct Ha as [Hm Ha]. apply bind_ok_inv in H as (c1 & Hc & H). eapply IH; [|exact Ha|exact H].
  by eapply reaches_step.
Qed.

Definition sample_steps : list (Z * Message) :=
  [(5, sample_meta); (10, MReward 10 no_faults (sample_reward "a" f64_one 4));
   (20, MReward 20 no_faults (sample_reward "a" f64_one 5)); (30, MReward 30 no_faults (sample_reward "b" f64_zero 7))]%Z.

Definition durable_of (r : policy (Z * PolicyCore (Bytes:=sample_bytes) * gmap str Trace)) (id : str) : option (nat * nat) :=
  match r with Ok (_, _, g) => (λ γ, (durable γ, length (log γ))) <$> g !! id | _ => None end.

