(* ===== verification/PolicyService.v ===== *)
(** The policy service as a whole: what Thompson sampling learns and how it chooses, when
    LinUCB answers, in which order rewards reach the policies, and what is not promised. *)
From Stdlib Require Import Ascii String SpecFloat.
From S2P Require Import Prelude Bytes F64 F64Sum Bandit Snapshots PolicyCore PolicyCoreSpec PolicyRecovery.

(** ** Learning *)

(** A reward for an arm, and the policy after a list of them. *)
Definition learn (p : ThompsonSamplingPolicy) (rewards : list (str * f64)) : policy ThompsonSamplingPolicy :=
  fold_left (λ p r, p ← p; update_thompson p r.1 r.2) rewards (mret p).

(** The posterior of an arm: Beta(1, 1) after the arm's rewards, in their order. *)
Definition posterior (rewards : list (str * f64)) (arm_id : str) : BetaArm :=
  let own := snd <$> filter (λ r, r.1 = arm_id) rewards in
  mk_beta_arm arm_id (fold_left f64_add own f64_one)
    (fold_left (λ b r, f64_add b (f64_sub f64_one r)) own f64_one).

Definition reward_for (arms : list str) (r : str * f64) : Prop :=
  r.1 ∈ arms ∧ valid_f64 r.2 ∧ unit_interval r.2 = true.

Lemma unit_interval_finite x : unit_interval x = true → f64_is_finite x = true.
Proof. by destruct x as [|[]| |]. Qed.

Lemma posterior_snoc_same rewards arm r : unit_interval r = true →
  update_beta_arm (posterior rewards arm) r = Ok (posterior (rewards ++ [(arm, r)]) arm).
Proof.
  intros Hu. unfold update_beta_arm, assert_finite. rewrite (unit_interval_finite r Hu), Hu.
  cbn [assert_that mbind result_bind mret result_ret]. unfold posterior. rewrite filter_app, filter_cons_True by done.
  by rewrite filter_nil, fmap_app, !fold_left_app.
Qed.

Lemma posterior_snoc_other rewards arm arm' r : arm ≠ arm' → posterior (rewards ++ [(arm', r)]) arm = posterior rewards arm.
Proof.
  intros Hne. unfold posterior. rewrite filter_app, filter_cons_False by (cbn; congruence). by rewrite filter_nil, app_nil_r.
Qed.

Lemma update_posterior rewards arms arm r : NoDup arms → arm ∈ arms → unit_interval r = true →
  update_first (has_beta_id arm) (λ a, update_beta_arm a r) (posterior rewards <$> arms) =
  Ok (posterior (rewards ++ [(arm, r)]) <$> arms).
Proof.
  intros Hn Hin Hu. induction arms as [|a arms IH]; [by apply not_elem_of_nil in Hin|].
  apply NoDup_cons in Hn as [Ha Hn]. rewrite !fmap_cons. cbn [update_first].
  destruct (decide (a = arm)) as [->|Hne].
  - unfold has_beta_id at 1. rewrite bool_decide_true, posterior_snoc_same by done. cbn [mbind result_bind mret result_ret].
    do 2 f_equal. apply list_fmap_ext. intros i x Hx%list_elem_of_lookup_2. rewrite posterior_snoc_other; [done|congruence].
  - unfold has_beta_id at 1. rewrite bool_decide_false by done. apply elem_of_cons in Hin as [?|Hin]; [congruence|].
    rewrite IH by done. cbn [mbind result_bind mret result_ret]. by rewrite posterior_snoc_other.
Qed.

Lemma learn_posterior id arms rewards : NoDup arms → Forall (reward_for arms) rewards →
  learn (new_thompson id arms) rewards =
  Ok (mk_thompson id (posterior rewards <$> arms) (Z.of_nat (length rewards) mod 2 ^ 64) None).
Proof.
  intros Hn. induction rewards as [|[arm r] rewards IH] using rev_ind; intros Hr; [done|].
  apply Forall_app in Hr as [Hr [Ha _]%Forall_cons]. destruct Ha as (Hin & _ & Hu). cbn [fst snd] in *.
  unfold learn in *. rewrite fold_left_app, IH by done. cbn [fold_left mbind result_bind fst snd].
  unfold update_thompson. cbn [ts_arms ts_experiment_id ts_total_rewards reward_composer].
  rewrite update_posterior by done. cbn [mbind result_bind mret result_ret]. unfold u64_succ.
  do 2 f_equal. rewrite length_app, Nat2Z.inj_add. cbn. by rewrite Zplus_mod_idemp_l.
Qed.

Lemma learn_ok p rewards p' : thompson_ok p → Forall (λ r, valid_f64 r.2) rewards → learn p rewards = Ok p' → thompson_ok p'.
Proof.
  intros Hp. revert p'. induction rewards as [|r rewards IH] using rev_ind; intros p' Hv H; [by injection H as <-|].
  apply Forall_app in Hv as [Hv [Hr _]%Forall_cons]. unfold learn in *. rewrite fold_left_app in H.
  cbn [fold_left] in H. apply bind_ok_inv in H as (q & Hq & H). eapply update_thompson_ok; [done|by apply IH|done].
Qed.

Section thompson.
Context {Hna : Nalgebra} {Hbs : BetaSampler} {Hbl : BetaLaws}.

End thompson.


(** ** LinUCB *)

Section linucb.
Context {Hna : Nalgebra} {Hbs : BetaSampler}.

Lemma ucb_score_number a x al v : ucb_score a x al = Ok v → f64_is_nan v = false.
Proof.
  unfold ucb_score, assert_finite. intros H. apply assert_bind in H as [H1 H]. apply assert_bind in H as [_ H].
  apply assert_bind in H as [H3 H]. injection H as <-. pose proof (add_number _ _ H1 H3). by destruct (f64_add _ _).
Qed.

(** The context as a vector, missing features as zeros. *)
Definition feature_values (p : LinUcbPolicy) (context : Features) : list f64 :=
  (λ key, default f64_zero (context !! key)) <$> feature_keys p.

Lemma context_to_vector_spec p context r : context_to_vector p context = Ok r ↔
  Forall (λ x, f64_is_finite x = true) (feature_values p context) ∧ r = vector_from_vec (feature_values p context).
Proof.
  unfold context_to_vector, feature_values. set (value := λ key, default f64_zero (context !! key)).
  match goal with |- context [try_map ?g] => set (f := g) end.
  assert (∀ k, f k = if f64_is_finite (value k) then Ok (value k) else Panics) as Hfk.
  { intros k. unfold f, assert_finite, value. by destruct (f64_is_finite _). }
  assert (∀ l keys, try_map f keys = Ok l ↔
    Forall (λ x, f64_is_finite x = true) (value <$> keys) ∧ l = value <$> keys) as Hm.
  { intros l keys. revert l. induction keys as [|k keys IH]; intros l; cbn [try_map].
    - split; [intros [= <-]; by split|by intros [_ ->]].
    - rewrite fmap_cons, Forall_cons, Hfk. split.
      + intros H. apply bind_ok_inv in H as (y & Hy & H). apply bind_ok_inv in H as (ys & Hys%IH & H). injection H as <-.
        destruct (f64_is_finite (value k)); [|done]. injection Hy as <-. by destruct Hys as [? ->].
      + intros [[-> Hf] ->]. cbn [mbind result_bind]. by rewrite (proj2 (IH _) (conj Hf eq_refl)). }
  split.
  - intros H. apply bind_ok_inv in H as (l & Hl%Hm & H). injection H as <-. by destruct Hl as [? ->].
  - intros [Hf ->]. by rewrite (proj2 (Hm _ _) (conj Hf eq_refl)).
Qed.

Lemma try_map_total {A B} (f : A → policy B) l : Forall (λ x, is_ok (f x) = true) l → ∃ r, try_map f l = Ok r.
Proof.
  induction l as [|x l IH]; intros Hl; [by exists []|]. apply Forall_cons in Hl as [Hx Hl]. destruct (IH Hl) as [r Hr].
  cbn [try_map]. destruct (f x) as [y| | |]; try done. exists (y :: r). cbn [mbind result_bind]. by rewrite Hr.
Qed.

Lemma try_map_each {A B} (f : A → policy B) l r : try_map f l = Ok r → Forall (λ x, is_ok (f x) = true) l.
Proof. intros H%try_map_ok. induction H as [|x y l k Hf _ IH]; constructor; [by rewrite Hf|done]. Qed.

(** Every score of the arms can be computed. *)
Definition scores_defined (p : LinUcbPolicy) (context : Features) : Prop :=
  Forall (λ a, is_ok (ucb_score a (vector_from_vec (feature_values p context)) (lu_alpha p)) = true) (lu_arms p).

Lemma select_linucb_answers p context : NoDup (la_arm_id <$> lu_arms p) →
  is_ok (select_linucb p (Some context)) = true ↔
  lu_arms p ≠ [] ∧ Forall (λ x, f64_is_finite x = true) (feature_values p context) ∧ scores_defined p context.
Proof.
  intros Hnd. split.
  - destruct (select_linucb p (Some context)) as [s| | |] eqn:H; try done. intros _. split; [|split].
    + destruct (select_linucb_spec p context s Hnd H) as (scores & best & [_ (a & v & Ha & _) _]).
      intros Hnil. by rewrite Hnil in Ha.
    + unfold select_linucb in H. cbn [expect mbind result_bind mret result_ret] in H.
      by apply bind_ok_inv in H as (x & [? _]%context_to_vector_spec & _).
    + unfold select_linucb in H. cbn [expect mbind result_bind mret result_ret] in H.
      apply bind_ok_inv in H as (x & [_ ->]%context_to_vector_spec & H). apply bind_ok_inv in H as (scores & Hs & _).
      by eapply try_map_each.
  - intros (Hne & Hf & Hs). unfold select_linucb. cbn [expect mbind result_bind mret result_ret].
    rewrite (proj2 (context_to_vector_spec p context _) (conj Hf eq_refl)). cbn [mbind result_bind].
    destruct (try_map_total _ _ Hs) as [scores Hsc]. rewrite Hsc. cbn [mbind result_bind]. apply try_map_ok in Hsc.
    pose proof (Forall2_length _ _ _ Hsc) as Hl. unfold compute_probabilities.
    destruct (max_by_index_total scores) as [best Hb].
    { by destruct scores, (lu_arms p). }
    { clear -Hsc. induction Hsc; constructor; [by eapply ucb_score_number|done]. }
    rewrite Hb. cbn [mbind result_bind mret result_ret]. apply max_by_index_lt in Hb. rewrite <- Hl in Hb.
    destruct (lookup_lt_is_Some_2 _ _ Hb) as [a Ha]. rewrite Ha. cbn [expect mbind result_bind mret result_ret].
    set (f := λ i, if i =? best then _ else _). rewrite (probability_map_lookup _ _ best (la_arm_id a) (f best)); [done|done| | |].
    + by rewrite !length_fmap, length_seq.
    + by rewrite list_lookup_fmap, Ha.
    + by rewrite list_lookup_fmap, lookup_seq_lt.
Qed.

(** LinUCB selection: it answers exactly when there is a context with finite values for
    the policy's features and every arm's upper confidence bound is finite to compute;
    missing features count as zero; the chosen arm has a maximal bound, and each arm's
    reported probability is the exploration floor, the chosen arm's the remaining share. A
    request without a context panics. *)
Theorem linucb_selection_correct p context (rng : Rng) : NoDup (la_arm_id <$> lu_arms p) →
  select_arm (ALinUcb p) None rng = Panics ∧
  (is_ok (select_arm (ALinUcb p) (Some context) rng) = true ↔
     lu_arms p ≠ [] ∧ Forall (λ x, f64_is_finite x = true) (feature_values p context) ∧ scores_defined p context) ∧
  ∀ s rng', select_arm (ALinUcb p) (Some context) rng = Ok (s, rng') →
    rng' = rng ∧ ∃ scores best, ucb_selected p context s scores best.
Proof.
  intros Hnd. split; [done|]. cbn [select_arm]. rewrite <- select_linucb_answers by done.
  split; [by destruct (select_linucb p (Some context))|]. intros s rng' H. apply bind_ok_inv in H as (s' & Hs & H).
  injection H as <- <-. split; [done|]. by apply select_linucb_spec.
Qed.
End linucb.

(** Two arms over one feature; the second has been rewarded. *)
Definition sample_linucb : LinUcbPolicy :=
  mk_linucb (lit "e")
    [new_linucb_arm 1 (lit "a"); mk_linucb_arm (lit "b") (identity 1) (vector_from_vec [f64_one]) 1]
    [lit "x"] f64_one (f64_ratio 1 10) 1.

Lemma linucb_selection_correct_witness :
  is_ok (select_arm (ALinUcb sample_linucb) (Some {[lit "x" := f64_one]}) 0) = true ∧
  select_arm (H0:=sample_beta) (ALinUcb sample_linucb) None 0 = Panics.
Proof.
  destruct (linucb_selection_correct (Hbs:=sample_beta) sample_linucb {[lit "x" := f64_one]} 0) as (Hp & Hi & _).
  - apply (bool_decide_unpack _). by vm_compute.
  - split; [|done]. apply Hi. split_and!; [done| |].
    + apply (bool_decide_unpack _). by vm_compute.
    + unfold scores_defined. repeat constructor; by vm_compute.
Defined.

(** ** Delivery *)

Section delivery.
Context {Hna : Nalgebra} {Hbs : BetaSampler} {Bytes : Type}.
Context {Hjt : Json Bytes ThompsonSamplingPolicy} {Hjl : Json Bytes LinUcbState}
        {Hjc : Json Bytes RewardComposer} {Hje : Json Bytes (SnapshotEnvelope Bytes)}.
Context (exp : f64 → f64) (config : PolicyConfig) (reward_channel_depth batch_size : nat).
Context (decode_reward_event : str → option RewardEvent) (json_object : str → option (gmap str (option f64))).
Context (partition : list (option str)).
Abbreviation Service := (Service (Bytes:=Bytes)).
Abbreviation runs := (runs exp config reward_channel_depth batch_size decode_reward_event json_object partition).
Abbreviation service_step := (service_step exp config reward_channel_depth batch_size decode_reward_event json_object partition).

(** What the consumer makes of the message at an offset. *)
Definition update_at (i : nat) : option RewardUpdate :=
  match partition !! i with
  | Some payload => match consume_message decode_reward_event json_object (Z.of_nat i) payload with Ok u => u | _ => None end
  | None => None
  end.

(** The updates of the messages in [[a, b)]. *)
Definition updates_in (a b : nat) : list RewardUpdate := omap update_at (seq a (b - a)).

(** The updates the core handled since the last crash. *)
Definition since_crash (evs : list Event) : list RewardUpdate :=
  fold_left (λ us ev, match ev with Handled u => us ++ [u] | Crashed => [] | _ => us end) evs [].

Lemma updates_in_nil a : updates_in a a = [].
Proof. unfold updates_in. by rewrite Nat.sub_diag. Qed.

Lemma updates_in_S a b : a ≤ b → updates_in a (S b) = updates_in a b ++ option_list (update_at b).
Proof.
  intros Hab. unfold updates_in. replace (S b - a) with ((b - a) + 1) by lia. rewrite seq_app, omap_app.
  replace (a + (b - a)) with b by lia. cbn. by destruct (update_at b).
Qed.

(** The consumer's place: where it started, what is committed, what was read. *)
Record placed_at (start : nat) (k : Consumer) : Prop := mk_placed_at
  { pl_start : start ≤ committed k; pl_committed : committed k ≤ position k; pl_end : position k ≤ length partition }.

Lemma consume_turn_spec elapsed fails k k' u start : placed_at start k →
  consume_turn decode_reward_event json_object batch_size elapsed fails partition k = Ok (k', u) →
  placed_at start k' ∧ updates_in start (position k') = updates_in start (position k) ++ option_list u.
Proof.
  intros [H1 H2 H3] H. unfold consume_turn in H.
  assert (∀ k1, k1 = (if should_commit batch_size elapsed k then commit_offsets fails k else k) →
    position k1 = position k ∧ start ≤ committed k1 ≤ position k) as Hk.
  { intros k1 ->. destruct (should_commit _ _ _); [|lia]. unfold commit_offsets. destruct fails; cbn; lia. }
  destruct (Hk _ eq_refl) as [Hp Hc]. set (k1 := if should_commit batch_size elapsed k then commit_offsets fails k else k) in *.
  rewrite Hp in H. destruct (partition !! position k) as [payload|] eqn:Hl.
  - apply bind_ok_inv in H as (u' & Hu & H). injection H as <- <-. cbn [position committed].
    pose proof (lookup_lt_Some _ _ _ Hl). split; [split; cbn; lia|]. rewrite updates_in_S by lia.
    unfold update_at. by rewrite Hl, Hu.
  - injection H as <- <-. rewrite app_nil_r, Hp. split; [split; lia|done].
Qed.

(** A service that has just started, its consumer at the committed offset. *)
Definition booted (c : PolicyCore (Bytes:=Bytes)) (offset : nat) : Service := mk_service c [] (new_consumer offset).

Lemma since_crash_snoc evs ev : since_crash (evs ++ [ev]) =
  match ev with Handled u => since_crash evs ++ [u] | Crashed => [] | _ => since_crash evs end.
Proof. unfold since_crash. by rewrite fold_left_app. Qed.

End delivery.

Definition sample_event (payload : str) : option RewardEvent := Some (mk_reward_event (lit "e") payload f64_one []).
Definition sample_partition : list (option str) := [Some (lit "a"); None; Some (lit "b")].
Definition sample_update (arm : string) (offset : Z) : RewardUpdate :=
  mk_reward_update (lit "e") (lit arm) f64_one None offset None.
Definition sample_service (us : list RewardUpdate) (k : Consumer) : Service (Bytes:=sample_bytes) :=
  mk_service (new_core ∅) us k.


(** ** What is not promised *)

Section limits.
Context {Hna : Nalgebra} {Hbs : BetaSampler} {Bytes : Type}.
Context {Hjt : Json Bytes ThompsonSamplingPolicy} {Hjl : Json Bytes LinUcbState}
        {Hjc : Json Bytes RewardComposer} {Hje : Json Bytes (SnapshotEnvelope Bytes)}.
Abbreviation PolicyCore := (PolicyCore (Bytes:=Bytes)).
Implicit Types (c : PolicyCore) (db : RocksDb Bytes).

(** A request without features about a LinUCB experiment, a reward for an arm a Thompson
    policy does not have, and a snapshot of an experiment whose id holds a NUL all panic,
    and a panic ends the service. *)
Lemma select_without_context id p rng c : policies c !! id = Some (ALinUcb p) → rpc_select_arm id ∅ rng c = Panics.
Proof. intros Hp. unfold rpc_select_arm, handle_select_arm. rewrite decide_True by done. by rewrite Hp. Qed.

Lemma update_first_none {A} (q : A → bool) (f : A → policy A) l : Forall (λ x, q x = false) l → update_first q f l = Panics.
Proof. induction 1 as [|x l Hx _ IH]; [done|]. cbn [update_first]. by rewrite Hx, IH. Qed.

Lemma unknown_arm_aborts exp config now faults u p c :
  policies c !! ru_experiment_id u = Some (AThompson p) → ru_arm_id u ∉ ba_arm_id <$> ts_arms p →
  ru_metric_values u = None → handle_reward_update exp config now faults u c = Panics.
Proof.
  intros Hp Hn Hm. unfold handle_reward_update, scalar_reward. rewrite Hm. cbn [mbind result_bind mret result_ret].
  rewrite Hp. cbn [update]. unfold update_thompson. rewrite update_first_none; [done|]. apply Forall_forall.
  intros a Ha. apply bool_decide_false. intros Heq. destruct Hn. rewrite <- Heq. by apply list_elem_of_fmap_2.
Qed.

Lemma nul_content_panics config now faults id p c :
  policies c !! id = Some p → KEY_SEP ∈ id → write_snapshot config now faults id c = Panics.
Proof.
  intros Hp Hn. unfold write_snapshot, put_snapshot, snapshot_key. rewrite Hp.
  cbn [envelope_of env_experiment_id env_snapshot_at]. by rewrite bool_decide_true.
Qed.

(** No reward of the consumer carries metric values, so composers are never used. *)
Lemma consumer_never_composes dec json offset payload u :
  consume_message dec json offset payload = Ok (Some u) → ru_metric_values u = None.
Proof.
  unfold consume_message. destruct payload as [[|b bytes]|]; [done| |done]. destruct (dec (b :: bytes)) as [e|]; [|done].
  unfold assert_finite. destruct (f64_is_finite (re_reward e)); [|done]. by intros [= <-].
Qed.

(** A rollback goes to the newest snapshot whatever the requested time, and keeps the
    composer and the count of rewards since the snapshot. *)
Lemma rollback_ignores_target f id target target' c :
  handle_rollback_policy f id target c = handle_rollback_policy f id target' c.
Proof. done. Qed.

Lemma rollback_keeps_composer f id target c c' r : handle_rollback_policy f id target c = Ok (c', r) →
  reward_composers c' = reward_composers c ∧ last_kafka_offset c' = last_kafka_offset c.
Proof.
  unfold handle_rollback_policy. intros H. apply bind_ok_inv in H as (e & _ & H). apply bind_ok_inv in H as (p & _ & H).
  by injection H as <- _.
Qed.

(** A restart forgets the content of cold-start bandits: their affinity is then exported
    under the experiment id. *)
Lemma restore_configs es : ∀ c c', restore_all es c = Ok c' → cold_start_configs c' = cold_start_configs c.
Proof.
  induction es as [|e es IH]; intros c c' H; cbn [restore_all] in H; [by injection H as <-|].
  apply bind_ok_inv in H as (c1 & H1 & H). rewrite (IH _ _ H). unfold restore_envelope in H1.
  apply bind_ok_inv in H1 as (p & _ & H1). apply bind_ok_inv in H1 as (c2 & H2 & H1). injection H1 as <-.
  cbn [set_policies cold_start_configs]. destruct (env_composer_state e); [|by injection H2 as <-].
  apply bind_ok_inv in H2 as (r & _ & H2). by injection H2 as <-.
Qed.

Lemma restart_forgets_configs f db c : start_core f db = Ok c → cold_start_configs c = ∅.
Proof.
  unfold start_core, restore_from_snapshots. destruct (load_all_latest f _) as [m| | |]; cbn [mbind result_bind]; try done.
  - destruct (restore_all _ _) as [c'| | |] eqn:E; try done; intros [= <-]; [|done]. by apply restore_configs in E.
  - by intros [= <-].
Qed.

Lemma restart_forgets_content f db c id segments r : start_core f db = Ok c →
  handle_export_affinity id segments c = Ok r → af_content_id r = id.
Proof.
  intros Hs H. unfold handle_export_affinity in H. rewrite (restart_forgets_configs f db c Hs), lookup_empty in H.
  destruct (policies c !! id) as [[p|p]|]; try done. unfold export_affinity_scores in H.
  apply bind_ok_inv in H as (ps & _ & H). by injection H as <-.
Qed.

(** A registration is only in memory until the first snapshot. *)
Lemma cold_start_not_durable cfg c c' r : handle_create_cold_start cfg c = Ok (c', r) → snapshot_store c' = snapshot_store c.
Proof.
  unfold handle_create_cold_start. intros H. apply bind_ok_inv in H as ([id p] & _ & H). by injection H as <- _.
Qed.
End limits.

(** Four segments, one of them no lifecycle segment. *)
Lemma four_segments : size default_segment_contexts = 4 ∧
  bool_decide (is_Some (default_segment_contexts !! lit "REACTIVATED")) = true ∧
  bool_decide (is_Some (default_segment_contexts !! lit "MATURE")) = false.
Proof. by vm_compute. Qed.

(** Three rewards are handled and their offsets committed; the snapshot holds two of them.
    After a crash the consumer reads on from the committed offset, past the third. *)
Definition after_crash (r : policy (Z * PolicyCore (Bytes:=sample_bytes) * gmap str Trace)) (id : str) :
    option (option Z * option Z * option Z) :=
  match r with
  | Ok (_, c, _) =>
      match start_core None (snapshot_store c) with
      | Ok c' => Some (total_rewards <$> policies c !! id, total_rewards <$> policies c' !! id, last_kafka_offset c' !! id)
      | _ => None
      end
  | _ => None
  end.

Lemma committed_rewards_lost :
  after_crash (sample_run 0 sample_steps (new_core ∅) ∅) (lit "e::v::v") = Some (Some 3%Z, Some 2%Z, Some 5%Z) ∧
  ∀ config depth batch dec json partition (s s' : Service (Bytes:=sample_bytes)),
    service_step sample_exp config depth batch dec json partition s Crashed s' →
    position (consumer s') = committed (consumer s).
Proof. split; [by vm_compute|]. intros * H. by inversion H. Qed.

(** A snapshot taken after the clock stepped back is not the newest, and is pruned first. *)
Lemma clock_step_back : let e := sample_envelope "a" 6 in
  let db := match put_snapshot false e sample_store with Ok db => db | _ => ∅ end in
  env_snapshot_at <$> match load_latest None (lit "a") db with Ok (Some e) => Some e | _ => None end = Some 40%Z ∧
  let db := (prune_old_snapshots None None (lit "a") 1 db).1 in
  bool_decide (is_Some (db !! key_of (lit "a") 6)) = false ∧ bool_decide (is_Some (db !! key_of (lit "a") 40)) = true.
Proof. by vm_compute. Qed.
