(* ===== verification/SqlAst.v ===== *)
(** Custom-metric migration: the SQL syntax trees it reads and the helpers over them
    ([migration/sql_ast.rs]).

    The trees are those of the [sqlparser] crate, as far as the migration looks at them: a
    node has the fields that are read, names are the text [to_string] prints of them, and
    the variants no code distinguishes are the last constructor of each type. *)
From Stdlib Require Import Ascii String.
From S2P Require Import Prelude Bytes.

(** ** [sqlparser::ast] *)

Inductive BinaryOperator :=
| BPlus | BMinus | BMultiply | BDivide | BEq | BNotEq | BLt | BLtEq | BGt | BGtEq | BAnd | BOr | BOther.

#[export] Instance binary_operator_eq_dec : EqDecision BinaryOperator.
Proof. solve_decision. Defined.

Inductive UnaryOperator := UNot | UOther.

Inductive SqlValue := SingleQuotedString (s : str) | SqlNumber (n : str) | SqlNull | OtherValue.

Inductive DateTimeField := FieldHour | FieldOther.

Inductive FunctionArgExpr (E : Type) := ArgExpr (e : E) | ArgWildcard | ArgQualifiedWildcard.
Inductive FunctionArg (E : Type) := Unnamed (a : FunctionArgExpr E) | Named.
Inductive FunctionArguments (E : Type) := ArgList (args : list (FunctionArg E)) | OtherArguments.
Arguments ArgExpr {E} e.
Arguments ArgWildcard {E}.
Arguments ArgQualifiedWildcard {E}.
Arguments Unnamed {E} a.
Arguments Named {E}.
Arguments ArgList {E} args.
Arguments OtherArguments {E}.

(** A call: its name, its arguments, and whether it has an [OVER] clause. *)
Record SqlFunction (E : Type) := mk_function { f_name : str; f_args : FunctionArguments E; f_over : bool }.
Arguments mk_function {E} f_name f_args f_over.
Arguments f_name {E} s.
Arguments f_args {E} s.
Arguments f_over {E} s.

Inductive Expr :=
| EIdentifier (id : str)
| ECompoundIdentifier (parts : list str)
| EValue (v : SqlValue)
| EBinaryOp (left : Expr) (op : BinaryOperator) (right : Expr)
| EUnaryOp (op : UnaryOperator) (expr : Expr)
| ENested (inner : Expr)
| ECast (expr : Expr)
| EIsNull (inner : Expr)
| EIsNotNull (inner : Expr)
| EInList (expr : Expr) (list : list Expr) (negated : bool)
| EBetween (expr low high : Expr)
| ECase (operand : option Expr) (conditions results : list Expr) (else_result : option Expr)
| EFunction (f : SqlFunction Expr)
| EInterval (value : Expr) (leading_field : option DateTimeField)
| ESubquery | EInSubquery | EExists
| EOther.

Inductive SelectItem := UnnamedExpr (e : Expr) | ExprWithAlias (e : Expr) (alias : str) | OtherItem.

(** The constraint of the join operators that have one; [OtherJoin] has none. *)
Inductive JoinConstraint := JoinOn (e : Expr) | OtherConstraint.
Inductive JoinOperator := ConstrainedJoin (c : JoinConstraint) | OtherJoin.

Inductive TableFactor := Table (name : str) | OtherFactor.
Record Join := mk_join { join_relation : TableFactor; join_operator : JoinOperator }.
Record TableWithJoins := mk_table { relation : TableFactor; joins : list Join }.

Record Select := mk_select
  { projection : list SelectItem; from : list TableWithJoins; selection : option Expr; has_lateral_views : bool }.

Inductive SetExpr := SetSelect (s : Select) | SetOperation | OtherSetExpr.
Record Query := mk_query { has_with : bool; body : SetExpr }.
Inductive Statement := SQuery (q : Query) | OtherStatement.

(** ** Text *)

(** [u8::to_ascii_lowercase]. *)
Definition to_lower (c : ascii) : ascii := if is_ascii_uppercase c then ascii_of_N (code c + 32) else c.
Definition to_ascii_lowercase (s : str) : str := to_lower <$> s.

(** [name.to_string().eq_ignore_ascii_case(target)], for a lower-case [target]. *)
Definition named (target : str) (name : str) : bool := bool_decide (to_ascii_lowercase name = to_ascii_lowercase target).

(** The first argument of a call, when it is an expression. *)
Definition first_arg {E} (f : SqlFunction E) : option E :=
  match f_args f with ArgList (Unnamed (ArgExpr e) :: _) => Some e | _ => None end.

(** The expression of a projection item. *)
Definition item_expr (i : SelectItem) : option Expr :=
  match i with UnnamedExpr e | ExprWithAlias e _ => Some e | OtherItem => None end.

(** [any] over the projection items that have an expression. *)
Definition any_item (p : Expr → bool) (items : list SelectItem) : bool :=
  existsb (λ i, match item_expr i with Some e => p e | None => false end) items.

(** ** Shape gates of the FROM clause *)

Definition table_name_from_factor_str (f : TableFactor) : option str :=
  match f with Table name => Some (to_ascii_lowercase name) | OtherFactor => None end.

(** The lower-cased name of a plain table contains the text. *)
Definition table_contains (pat : str) (f : TableFactor) : bool :=
  match table_name_from_factor_str f with Some n => contains n pat | None => false end.

Definition from_is_events_with_optional_exposures_join (l : list TableWithJoins) : bool :=
  match l with
  | [twj] =>
      table_contains (lit "metric_events") (relation twj) &&
      match joins twj with
      | [] => true
      | [j] => table_contains (lit "exposures") (join_relation j)
      | _ => false
      end
  | _ => false
  end.

Definition from_is_exposures_with_metric_events_join (l : list TableWithJoins) : bool :=
  match l with
  | [twj] =>
      table_contains (lit "exposures") (relation twj) &&
      match joins twj with
      | [j] => table_contains (lit "metric_events") (join_relation j)
      | _ => false
      end
  | _ => false
  end.

(** The first ON condition of a join list, and of the FROM clause. *)
Fixpoint join_on_expr (js : list Join) : option Expr :=
  match js with
  | [] => None
  | j :: js => match join_operator j with ConstrainedJoin (JoinOn e) => Some e | _ => join_on_expr js end
  end.

Fixpoint find_join_on_expr (l : list TableWithJoins) : option Expr :=
  match l with
  | [] => None
  | twj :: l => match join_on_expr (joins twj) with Some e => Some e | None => find_join_on_expr l end
  end.

(** ** Expressions *)

Definition extract_select (stmt : Statement) : option Select :=
  match stmt with
  | SQuery q => match body q with SetSelect s => Some s | _ => None end
  | OtherStatement => None
  end.

Fixpoint collect_and_predicates (e : Expr) : list Expr :=
  match e with
  | EBinaryOp l BAnd r => collect_and_predicates l ++ collect_and_predicates r
  | ENested inner => collect_and_predicates inner
  | other => [other]
  end.

Definition strip_table_alias (e : Expr) : option str :=
  match e with
  | EIdentifier id => Some id
  | ECompoundIdentifier parts => last parts
  | _ => None
  end.

Fixpoint unwrap_nested (e : Expr) : Expr :=
  match e with ENested inner => unwrap_nested inner | other => other end.

(** A column name, with or without a table alias. *)
Definition is_column (e : Expr) : bool :=
  match e with EIdentifier _ | ECompoundIdentifier _ => true | _ => false end.

(** [alias.col = 'literal'], for the column. *)
Definition extract_field_eq_literal (e : Expr) (col : str) : option str :=
  match e with
  | EBinaryOp l BEq r =>
      name ← strip_table_alias l;
      if decide (name = col) then match r with EValue (SingleQuotedString s) => Some s | _ => None end else None
  | _ => None
  end.
