(* ===== verification/Classifier.v ===== *)
(** Custom-metric migration: the shape of a query ([migration/classifier.rs]). *)
From Stdlib Require Import Ascii String.
From S2P Require Import Prelude Bytes SqlAst.

Inductive ShapeHint := FilteredAggregation | WindowedAggregation | CompositeArithmetic | RatioOfSums.

#[export] Instance shape_hint_eq_dec : EqDecision ShapeHint.
Proof. solve_decision. Defined.

(** [fn_args_any]: some unnamed expression argument satisfies the predicate. *)
Definition fn_args_any {E} (f : SqlFunction E) (pred : E → bool) : bool :=
  match f_args f with
  | ArgList args => existsb (λ a, match a with Unnamed (ArgExpr e) => pred e | _ => false end) args
  | OtherArguments => false
  end.

(** ** Rejections *)

Fixpoint expr_contains_window_fn (e : Expr) : bool :=
  match e with
  | EFunction f => f_over f || fn_args_any f expr_contains_window_fn
  | EBinaryOp l _ r => expr_contains_window_fn l || expr_contains_window_fn r
  | EUnaryOp _ e | ENested e | ECast e => expr_contains_window_fn e
  | _ => false
  end.

Definition opt_any (p : Expr → bool) (o : option Expr) : bool :=
  match o with Some e => p e | None => false end.

Fixpoint contains_subquery (e : Expr) : bool :=
  match e with
  | ESubquery | EInSubquery | EExists => true
  | EBinaryOp l _ r => contains_subquery l || contains_subquery r
  | EUnaryOp _ e | ENested e => contains_subquery e
  | EBetween e low high => contains_subquery e || contains_subquery low || contains_subquery high
  | EInList e list _ => contains_subquery e || existsb contains_subquery list
  | ECase operand conditions results else_result =>
      opt_any contains_subquery operand || existsb contains_subquery conditions
      || existsb contains_subquery results || opt_any contains_subquery else_result
  | _ => false
  end.

Definition NONDETERMINISTIC : list str :=
  [lit "rand"; lit "random"; lit "now"; lit "uuid"; lit "current_timestamp"].

Fixpoint expr_contains_fn_named (names : list str) (e : Expr) : bool :=
  match e with
  | EFunction f => existsb (λ n, named n (f_name f)) names || fn_args_any f (expr_contains_fn_named names)
  | EBinaryOp l _ r => expr_contains_fn_named names l || expr_contains_fn_named names r
  | EUnaryOp _ e | ENested e | ECast e => expr_contains_fn_named names e
  | _ => false
  end.

(** ** Shapes *)

Definition is_metric_summary_table (l : list TableWithJoins) : bool :=
  match l with [twj] => table_contains (lit "metric_summaries") (relation twj) | _ => false end.

Definition is_case (e : Expr) : bool := match e with ECase _ _ _ _ => true | _ => false end.

Definition is_arithmetic (op : BinaryOperator) : bool :=
  match op with BPlus | BMinus | BMultiply | BDivide => true | _ => false end.

Definition is_max_or_min {E} (f : SqlFunction E) : bool := named (lit "max") (f_name f) || named (lit "min") (f_name f).

Fixpoint expr_contains_metric_pivot (e : Expr) : bool :=
  match e with
  | EFunction f =>
      if is_max_or_min f then fn_args_any f is_case
      else if named (lit "nullif") (f_name f) then fn_args_any f expr_contains_metric_pivot
      else false
  | EBinaryOp l op r => is_arithmetic op && (expr_contains_metric_pivot l || expr_contains_metric_pivot r)
  | ENested e | ECast e => expr_contains_metric_pivot e
  | _ => false
  end.

Definition is_plain (target : str) (f : SqlFunction Expr) : bool := negb (f_over f) && named target (f_name f).

Fixpoint is_count_expr (e : Expr) : bool :=
  match e with
  | EFunction f => is_plain (lit "count") f
  | ECast e | ENested e => is_count_expr e
  | _ => false
  end.

Fixpoint on_expr_contains_interval (e : Expr) : bool :=
  match e with
  | EInterval _ _ => true
  | EBinaryOp l _ r => on_expr_contains_interval l || on_expr_contains_interval r
  | EUnaryOp _ e | ENested e => on_expr_contains_interval e
  | EBetween e low high =>
      on_expr_contains_interval e || on_expr_contains_interval low || on_expr_contains_interval high
  | _ => false
  end.

Definition from_has_interval_join (l : list TableWithJoins) : bool :=
  existsb (λ twj, existsb (λ j,
    match join_operator j with ConstrainedJoin (JoinOn e) => on_expr_contains_interval e | _ => false end) (joins twj)) l.

Fixpoint is_sum_agg (e : Expr) : bool :=
  match e with
  | EFunction f => is_plain (lit "sum") f
  | ENested e => is_sum_agg e
  | _ => false
  end.

Fixpoint is_sum_divide_sum (e : Expr) : bool :=
  match e with
  | EBinaryOp l BDivide r => is_sum_agg l && is_sum_agg r
  | ENested e => is_sum_divide_sum e
  | _ => false
  end.

Definition projection_is_ratio_of_sums (items : list SelectItem) : bool :=
  existsb is_sum_divide_sum (filter (λ e, is_column e = false) (omap item_expr items)).

Definition AGGREGATES : list str := [lit "avg"; lit "count"; lit "sum"; lit "min"; lit "max"].

Fixpoint expr_contains_plain_aggregate (aggregates : list str) (e : Expr) : bool :=
  match e with
  | EFunction f => if f_over f then false else existsb (λ a, named a (f_name f)) aggregates
  | ECast e | ENested e => expr_contains_plain_aggregate aggregates e
  | EBinaryOp l _ r => expr_contains_plain_aggregate aggregates l || expr_contains_plain_aggregate aggregates r
  | _ => false
  end.

(** The most structured shape the query has, if it has one. *)
Definition extract_shape (stmt : Statement) : option ShapeHint :=
  match stmt with
  | OtherStatement => None
  | SQuery query =>
      if has_with query then None
      else match body query with
      | SetOperation | OtherSetExpr => None
      | SetSelect select =>
          let items := projection select in
          if has_lateral_views select then None
          else if opt_any contains_subquery (selection select) then None
          else if any_item expr_contains_window_fn items then None
          else if any_item (expr_contains_fn_named NONDETERMINISTIC) items then None
          else if is_metric_summary_table (from select) && any_item expr_contains_metric_pivot items
          then Some CompositeArithmetic
          else if any_item is_count_expr items && from_has_interval_join (from select)
          then Some WindowedAggregation
          else if projection_is_ratio_of_sums items then Some RatioOfSums
          else if any_item (expr_contains_plain_aggregate AGGREGATES) items then Some FilteredAggregation
          else None
      end
  end.

(** [Parser::parse_sql] of the crate answers an error text or the statements; comments
    alone are no statement. *)
Definition zero_statements : str := lit "SQL parsed to zero statements (comments-only or empty input)".

Definition parse_or_tier3 (parse_sql : str → str + list Statement) (sql : str) : str + Statement :=
  match parse_sql sql with
  | inl e => inl e
  | inr [] => inl zero_statements
  | inr (stmt :: _) => inr stmt
  end.
