(* ===== verification/Tier1.v ===== *)
(** Custom-metric migration, tier 1: SQL to FILTERED_MEAN, WINDOWED_COUNT and COMPOSITE
    definitions ([migration/tier1.rs]). *)
From Stdlib Require Import Ascii String SpecFloat.
From S2P Require Import Prelude Bytes F64 Targeting MetricStore Cycle MetricDefinition SqlAst Classifier.

Inductive Tier := Filtered | CompositeTier | WindowedCountTier.

(** A whole [MetricDefinition] message: what the validators read, and the fields they do
    not; [Metadata] is what a migration copies. *)
Record Metadata := mk_metadata
  { description : str; lower_is_better : bool; surrogate_target_metric_id : str; is_qoe_metric : bool;
    cuped_covariate_metric_id : str; minimum_detectable_effect : f64; stakeholder : Z; aggregation_level : Z }.

Record Message := mk_message
  { definition : MetricDefinition; metadata : Metadata; source_event_type : str;
    numerator_event_type : str; denominator_event_type : str; percentile : f64 }.

Record TranslationProposal := mk_proposal { proposed : Message; proposal_tier : Tier; reason : str }.

(** [str::parse::<i32>]. *)
Definition parse_i32 (s : str) : option Z :=
  let '(neg, ds) := split_sign s in
  if bool_decide (ds = []) || negb (forallb is_ascii_digit ds) then None
  else
    let n := (if neg then - digits_value ds else digits_value ds)%Z in
    if ((- 2 ^ 31 <=? n) && (n <? 2 ^ 31))%Z then Some n else None.

(** ** FILTERED_MEAN *)

Fixpoint extract_avg_col (e : Expr) : option str :=
  match e with
  | EFunction f => if named (lit "avg") (f_name f) then inner ← first_arg f; strip_table_alias inner else None
  | ENested inner => extract_avg_col inner
  | _ => None
  end.

(** The first projection item an extractor accepts. *)
Fixpoint first_item {A} (extract : Expr → option A) (items : list SelectItem) : option A :=
  match items with
  | [] => None
  | i :: items =>
      match item_expr i ≫= extract with Some a => Some a | None => first_item extract items end
  end.

Definition find_avg_column : list SelectItem → option str := first_item extract_avg_col.

Definition is_count_star_or_one (e : Expr) : bool :=
  match e with
  | EFunction f =>
      named (lit "count") (f_name f) &&
      match f_args f with
      | ArgList [] => true
      | ArgList (Unnamed ArgWildcard :: _) => true
      | ArgList (Unnamed (ArgExpr (EValue (SqlNumber n))) :: _) => bool_decide (n = lit "1")
      | _ => false
      end
  | _ => false
  end.

Definition extract_sum_div_count_col (e : Expr) : option str :=
  match unwrap_nested e with
  | EBinaryOp l BDivide r =>
      if is_count_star_or_one (unwrap_nested r) then
        match unwrap_nested l with
        | EFunction f => if named (lit "sum") (f_name f) then inner ← first_arg f; strip_table_alias inner else None
        | _ => None
        end
      else None
  | _ => None
  end.

Definition find_sum_div_count_column : list SelectItem → option str := first_item extract_sum_div_count_col.

Definition extract_event_type_literal (e : Expr) : option str := extract_field_eq_literal e (lit "event_type").

(** The first [event_type = 'lit'] of the predicates, and the others. *)
Fixpoint split_preds (preds : list Expr) (event_type : option str) (remaining : list Expr) : option str * list Expr :=
  match preds with
  | [] => (event_type, remaining)
  | p :: preds =>
      match extract_event_type_literal p, event_type with
      | Some et, None => split_preds preds (Some et) remaining
      | _, _ => split_preds preds event_type (remaining ++ [p])
      end
  end.

Definition split_where_by_event_type (e : Expr) : option (str * list Expr) :=
  let '(event_type, remaining) := split_preds (collect_and_predicates e) None [] in
  et ← event_type; Some (et, remaining).

(** ** The filter text *)

Definition binary_op_str (op : BinaryOperator) : option str :=
  match op with
  | BEq => Some (lit "=") | BNotEq => Some (lit "!=") | BLt => Some (lit "<") | BLtEq => Some (lit "<=")
  | BGt => Some (lit ">") | BGtEq => Some (lit ">=") | BAnd => Some (lit "AND") | BOr => Some (lit "OR")
  | _ => None
  end.

Definition quoted (s : str) : str := lit "'" ++ s ++ lit "'".

Fixpoint serialize_simple_expr (e : Expr) : option str :=
  match e with
  | EIdentifier id => Some (to_ascii_lowercase id)
  | ECompoundIdentifier parts => to_ascii_lowercase <$> last parts
  | EValue (SingleQuotedString s) => Some (quoted s)
  | EValue (SqlNumber n) => Some n
  | EValue SqlNull => Some (lit "NULL")
  | ENested inner => serialize_simple_expr inner
  | _ => None
  end.

Definition words (l : list str) : str := join (lit " ") l.

Fixpoint serialize_predicate (e : Expr) : option str :=
  match e with
  | EBinaryOp l op r =>
      op_str ← binary_op_str op;
      l ← serialize_simple_expr l; r ← serialize_simple_expr r;
      Some (words [l; op_str; r])
  | ENested inner => serialize_predicate inner
  | EUnaryOp UNot e => inner ← serialize_predicate e; Some (words [lit "NOT"; inner])
  | EInList e list negated =>
      col ← serialize_simple_expr e;
      items ← mapM serialize_simple_expr list;
      Some (words [col; if negated then lit "NOT IN" else lit "IN"; lit "(" ++ join (lit ", ") items ++ lit ")"])
  | EIsNull e => col ← serialize_simple_expr e; Some (words [col; lit "IS NULL"])
  | EIsNotNull e => col ← serialize_simple_expr e; Some (words [col; lit "IS NOT NULL"])
  | _ => None
  end.

Definition predicates_to_filter_sql (preds : list Expr) : option str :=
  parts ← mapM serialize_predicate preds; Some (join (lit " AND ") parts).

(** ** The proposed definition *)

Definition migrated_id (original : MetricDefinition) : str := metric_id original ++ lit "-migrated".

Definition build_metric (original : Message) (t : MetricType) (cfg : TypeConfig) : Message :=
  let d := definition original in
  mk_message (mk_metric (migrated_id d) (metric_name d) t (Some cfg) [] []) (metadata original) [] [] [] f64_zero.

Definition with_source_event_type (et : str) (m : Message) : Message :=
  mk_message (definition m) (metadata m) et (numerator_event_type m) (denominator_event_type m) (percentile m).

Definition translate_filtered_mean (stmt : Statement) (original : Message) : option TranslationProposal :=
  select ← extract_select stmt;
  if negb (from_is_events_with_optional_exposures_join (from select)) then None
  else
    value_column ← match find_avg_column (projection select) with
                   | Some c => Some c
                   | None => find_sum_div_count_column (projection select)
                   end;
    where_expr ← selection select;
    '(event_type, preds) ← split_where_by_event_type where_expr;
    filter_sql ← predicates_to_filter_sql preds;
    if trim_is_empty filter_sql then None
    else
      let m := build_metric original FilteredMean (TypeFilteredMean (mk_filtered_mean filter_sql value_column)) in
      Some (mk_proposal (with_source_event_type event_type m) Filtered (lit "matches FILTERED_MEAN shape")).

(** ** WINDOWED_COUNT *)

Definition is_user_id (e : Expr) : bool := bool_decide (strip_table_alias e = Some (lit "user_id")).

Definition is_user_id_join_predicate (p : Expr) : bool :=
  match p with EBinaryOp l BEq r => is_user_id l && is_user_id r | _ => false end.

Definition is_event_type_predicate (p : Expr) : bool :=
  match extract_event_type_literal p with Some _ => true | None => false end.

Fixpoint expr_mentions_column (col : str) (e : Expr) : bool :=
  match e with
  | EIdentifier id => bool_decide (id = col)
  | ECompoundIdentifier parts => bool_decide (last parts = Some col)
  | EBinaryOp l _ r => expr_mentions_column col l || expr_mentions_column col r
  | EUnaryOp _ e | ENested e => expr_mentions_column col e
  | EInterval v _ => expr_mentions_column col v
  | _ => false
  end.

Definition is_timestamp_predicate (p : Expr) : bool :=
  expr_mentions_column (lit "event_timestamp") p || expr_mentions_column (lit "exposure_ts") p.

Definition extract_interval_hours (e : Expr) : option Z :=
  match e with
  | EInterval (EValue (SingleQuotedString s)) (Some FieldHour) => parse_i32 s
  | EInterval (EValue (SqlNumber n)) (Some FieldHour) => parse_i32 n
  | _ => None
  end.

Definition extract_interval_hours_from_addition (e : Expr) : option Z :=
  match e with EBinaryOp _ BPlus r => extract_interval_hours r | _ => None end.

(** The hours of a predicate [event_timestamp < _ + INTERVAL 'n' HOUR]. *)
Definition predicate_hours (mentions : str → Expr → bool) (p : Expr) : option Z :=
  match p with
  | EBinaryOp l BLt r =>
      if mentions (lit "event_timestamp") l then extract_interval_hours_from_addition r else None
  | _ => None
  end.

(** The first result of an extractor. *)
Fixpoint first_some {A B} (f : A → option B) (l : list A) : option B :=
  match l with
  | [] => None
  | x :: l => match f x with Some b => Some b | None => first_some f l end
  end.

Definition extract_window_hours_from_predicates : list Expr → option Z :=
  first_some (predicate_hours expr_mentions_column).

Definition extract_event_type_from_predicates : list Expr → option str := first_some extract_event_type_literal.

Definition is_filter_predicate (p : Expr) : bool :=
  negb (is_user_id_join_predicate p) && negb (is_event_type_predicate p) && negb (is_timestamp_predicate p).

Definition translate_windowed_count (stmt : Statement) (original : Message) : option TranslationProposal :=
  select ← extract_select stmt;
  if negb (from_is_exposures_with_metric_events_join (from select)) then None
  else
    join_on ← find_join_on_expr (from select);
    let predicates := collect_and_predicates join_on in
    event_type ← extract_event_type_from_predicates predicates;
    window_hours ← extract_window_hours_from_predicates predicates;
    filter_sql ← predicates_to_filter_sql (filter (λ p, is_filter_predicate p = true) predicates);
    Some (mk_proposal
      (build_metric original WindowedCount (TypeWindowedCount (mk_windowed_count event_type filter_sql window_hours)))
      WindowedCountTier (lit "COUNT within window")).

(** ** COMPOSITE *)

Definition aliased (alias : str) (i : SelectItem) : option Expr :=
  match i with ExprWithAlias e a => if named alias a then Some e else None | _ => None end.

Definition not_column (i : SelectItem) : option Expr :=
  e ← item_expr i; if is_column e then None else Some e.

(** The item aliased [metric_value], or else the last that is not a column. *)
Definition find_metric_value_expr (items : list SelectItem) : option Expr :=
  match first_some (aliased (lit "metric_value")) items with
  | Some e => Some e
  | None => first_some not_column (reverse items)
  end.

Definition extract_case_metric_id (e : Expr) : option str :=
  match e with
  | ECase None (cond :: _) _ _ => extract_field_eq_literal cond (lit "metric_id")
  | _ => None
  end.

Definition extract_pivot_metric_id (e : Expr) : option str :=
  match unwrap_nested e with
  | EFunction f => if is_max_or_min f then inner ← first_arg f; extract_case_metric_id inner else None
  | _ => None
  end.

Definition unwrap_nullif_pivot (e : Expr) : Expr :=
  match e with
  | EFunction f => if named (lit "nullif") (f_name f) then default e (first_arg f) else e
  | _ => e
  end.

Definition extract_number_literal (e : Expr) : option f64 :=
  match e with EValue (SqlNumber n) => f64_parse n | _ => None end.

Fixpoint collect_plus_leaves (e : Expr) : list Expr :=
  match unwrap_nested e with
  | EBinaryOp l BPlus r => collect_plus_leaves l ++ [r]
  | e => [e]
  end.

(** A weighted term: a number times a pivot, in either order. *)
Definition weighted_term (leaf : Expr) : option (str * f64) :=
  match unwrap_nested leaf with
  | EBinaryOp l BMultiply r =>
      match extract_number_literal (unwrap_nested l) with
      | Some w => id ← extract_pivot_metric_id (unwrap_nested r); Some (id, w)
      | None =>
          w ← extract_number_literal (unwrap_nested r);
          id ← extract_pivot_metric_id (unwrap_nested l); Some (id, w)
      end
  | _ => None
  end.

Definition try_weighted_sum (e : Expr) : option (list (str * f64)) :=
  let leaves := collect_plus_leaves e in
  if length leaves <? 2 then None else mapM weighted_term leaves.

Definition unweighted (id : str) : str * f64 := (id, f64_zero).

Definition try_add (e : Expr) : option (list (str * f64)) :=
  mapM (λ leaf, unweighted <$> extract_pivot_metric_id (unwrap_nested leaf)) (collect_plus_leaves e).

(** The operator and its operands of a pair of pivots. *)
Definition pair_of (op : CompositeOperator) (l r : option str) : option (CompositeOperator * list (str * f64)) :=
  a ← l; b ← r; Some (op, [unweighted a; unweighted b]).

Definition add_of (e : Expr) : option (CompositeOperator * list (str * f64)) :=
  operands ← try_add e; if 2 <=? length operands then Some (OpAdd, operands) else None.

Definition extract_composite_op_and_operands (e : Expr) : option (CompositeOperator * list (str * f64)) :=
  let e := unwrap_nested e in
  match try_weighted_sum e with
  | Some operands => Some (OpWeightedSum, operands)
  | None =>
      match e with
      | EBinaryOp l BDivide r =>
          pair_of OpDivide (extract_pivot_metric_id (unwrap_nested l))
            (extract_pivot_metric_id (unwrap_nullif_pivot (unwrap_nested r)))
      | EBinaryOp l BMinus r =>
          pair_of OpSubtract (extract_pivot_metric_id (unwrap_nested l)) (extract_pivot_metric_id (unwrap_nested r))
      | EBinaryOp l BMultiply r =>
          match pair_of OpMultiply (extract_pivot_metric_id (unwrap_nested l)) (extract_pivot_metric_id (unwrap_nested r)) with
          | Some p => Some p
          | None => add_of e
          end
      | _ => add_of e
      end
  end.

(** [CompositeOperator as i32]. *)
Definition operator_number (op : CompositeOperator) : Z :=
  match op with
  | OpUnspecified => 0 | OpAdd => 1 | OpSubtract => 2 | OpMultiply => 3 | OpDivide => 4 | OpWeightedSum => 5
  end.

Definition binary_only (op : CompositeOperator) : bool :=
  match op with OpSubtract | OpDivide => true | _ => false end.

Definition translate_composite (stmt : Statement) (original : Message) : option TranslationProposal :=
  select ← extract_select stmt;
  e ← find_metric_value_expr (projection select);
  '(op, operands) ← extract_composite_op_and_operands (unwrap_nested e);
  if length operands <? 2 then None
  else if binary_only op && negb (length operands =? 2) then None
  else
    let ops := (λ o : str * f64, mk_operand o.1 o.2) <$> operands in
    Some (mk_proposal (build_metric original Composite (TypeComposite (mk_composite ops (operator_number op))))
            CompositeTier (lit "matches COMPOSITE shape")).

(** ** Entry point *)

Definition candidate (stmt : Statement) (shape : ShapeHint) (original : Message) : option TranslationProposal :=
  match shape with
  | FilteredAggregation => translate_filtered_mean stmt original
  | WindowedAggregation => translate_windowed_count stmt original
  | CompositeArithmetic => translate_composite stmt original
  | RatioOfSums => None
  end.

(** [Ok None] is no proposal: the validator's refusals are not reported, its panics are. *)
Definition validated {S A} `{MetricLookup S} (lookup : S) (m : MetricDefinition) (a : A) : result unit (option A) :=
  match validate_metric_definition m lookup with
  | Ok _ => Ok (Some a)
  | Err _ => Ok None
  | Panics => Panics
  | OutOfFuel => OutOfFuel
  end.

Definition translate {S} `{MetricLookup S} (stmt : Statement) (shape : ShapeHint) (original : Message) (lookup : S) :
    result unit (option TranslationProposal) :=
  match candidate stmt shape original with
  | None => Ok None
  | Some c => validated lookup (definition (proposed c)) c
  end.
