(* ===== verification/Tier2.v ===== *)
(** Custom-metric migration, tier 2: SQL to MetricQL expressions ([migration/tier2.rs]). *)
From Stdlib Require Import Ascii String SpecFloat.
From S2P Require Import Prelude Bytes F64 Analyze Targeting MetricStore Cycle MetricDefinition SqlAst Classifier Tier1.

Record Tier2Proposal := mk_proposal2 { proposed2 : Message; reason2 : str }.

(** ** Numbers *)

Definition decimal_digit (n : Z) : ascii := ascii_of_N (Z.to_N (48 + n mod 10)).

Fixpoint decimal_loop (fuel : nat) (n : Z) (acc : str) : str :=
  match fuel with
  | O => acc
  | S fuel =>
      let acc := decimal_digit n :: acc in
      if (n <? 10)%Z then acc else decimal_loop fuel (n / 10) acc
  end.

(** A natural number in decimal; one bit is at most one digit. *)
Definition decimal (n : Z) : str := decimal_loop (Z.to_nat (Z.log2 n) + 1) n [].

(** The last [w] decimal digits. *)
Fixpoint decimal_padded (w : nat) (n : Z) : str :=
  match w with
  | O => []
  | S w => decimal_digit (n / 10 ^ Z.of_nat w) :: decimal_padded w n
  end.

(** The nearest integer to [n / d], ties to even. *)
Definition round_half_even (n d : Z) : Z :=
  let q := (n / d)%Z in
  let r := (2 * (n mod d))%Z in
  if (r <? d)%Z then q else if (d <? r)%Z then (q + 1)%Z else if Z.even q then q else (q + 1)%Z.

Definition signed (negative : bool) (s : str) : str := if negative then lit "-" ++ s else s.

(** [format!("{:.10}")] prints the exact value, rounded to ten decimals. *)
Definition fixed10 (x : f64) : str :=
  match x with
  | S754_nan => lit "NaN"
  | S754_infinity s => signed s (lit "inf")
  | S754_zero s => signed s (lit "0.0000000000")
  | S754_finite s m e =>
      let q := (if 0 <=? e then Zpos m * 2 ^ e * 10 ^ 10 else round_half_even (Zpos m * 10 ^ 10) (2 ^ (- e)))%Z in
      signed s (decimal (q / 10 ^ 10) ++ lit "." ++ decimal_padded 10 (q mod 10 ^ 10))
  end.

Fixpoint trim_start_matches (c : ascii) (s : str) : str :=
  match s with
  | [] => []
  | d :: t => if is_byte c d then trim_start_matches c t else s
  end.

Definition trim_end_matches (c : ascii) (s : str) : str := reverse (trim_start_matches c (reverse s)).

(** [n as i64], for an integer below 2^63. *)
Definition f64_as_integer (x : f64) : Z :=
  match x with
  | S754_finite s m e =>
      let n := (if 0 <=? e then Zpos m * 2 ^ e else Zpos m / 2 ^ (- e))%Z in if s then (- n)%Z else n
  | _ => 0%Z
  end.

Definition show_i64 (n : Z) : str := signed (n <? 0)%Z (decimal (Z.abs n)).

(** [n.fract() == 0.0]: [fract] is the difference to [trunc], NaN for an infinity. *)
Definition no_fraction (x : f64) : bool := f64_eq (f64_sub x (f64_trunc x)) f64_zero.

Definition format_number (x : f64) : str :=
  if no_fraction x && f64_lt (f64_abs x) (f64_of_Z (10 ^ 15)) then show_i64 (f64_as_integer x)
  else trim_end_matches "." (trim_end_matches "0" (fixed10 x)).

(** ** CompositeArithmetic *)

Definition unwrap_nullif (e : Expr) : Expr :=
  let e := unwrap_nested e in
  match e with
  | EFunction f =>
      if named (lit "nullif") (f_name f)
      then match f_args f with ArgList (Unnamed (ArgExpr inner) :: _) => unwrap_nested inner | _ => e end
      else e
  | _ => e
  end.

Fixpoint extract_pivot_metric_id_t2 (e : Expr) : option str :=
  match unwrap_nested e with
  | EFunction f =>
      if is_max_or_min f then inner ← first_arg f; extract_case_metric_id inner
      else if named (lit "nullif") (f_name f)
      then match f_args f with ArgList (Unnamed (ArgExpr inner) :: _) => extract_pivot_metric_id_t2 inner | _ => None end
      else None
  | _ => None
  end.

Definition arith_str (op : BinaryOperator) : option str :=
  match op with
  | BPlus => Some (lit "+") | BMinus => Some (lit "-") | BMultiply => Some (lit "*") | BDivide => Some (lit "/")
  | _ => None
  end.

Definition inner_is_additive (e : Expr) : bool :=
  match e with EBinaryOp _ BPlus _ | EBinaryOp _ BMinus _ => true | _ => false end.

Definition is_mul_or_div (op : BinaryOperator) : bool := match op with BMultiply | BDivide => true | _ => false end.

Definition parenthesized (needed : bool) (s : str) : str := if needed then lit "(" ++ s ++ lit ")" else s.

(** The operands a binary operator is emitted over. *)
Definition actual_right (op : BinaryOperator) (r : Expr) : Expr :=
  match op with BDivide => unwrap_nullif (unwrap_nested r) | _ => unwrap_nested r end.

(** Infix text, with parentheses around sums under a product or quotient. *)
Fixpoint emit_metricql_expr (e : Expr) : option str :=
  let e := unwrap_nested e in
  match extract_pivot_metric_id_t2 e with
  | Some id => Some (lit "@" ++ id)
  | None =>
      match extract_number_literal e with
      | Some n => Some (format_number n)
      | None =>
          match e with
          | EBinaryOp l op r =>
              let l := unwrap_nested l in
              let r := actual_right op r in
              op_str ← arith_str op;
              left_str ← emit_metricql_expr l;
              right_str ← emit_metricql_expr r;
              Some (words [parenthesized (is_mul_or_div op && inner_is_additive l) left_str; op_str;
                           parenthesized (is_mul_or_div op && inner_is_additive r) right_str])
          | _ => None
          end
      end
  end.

Definition translate_composite_arithmetic (stmt : Statement) : option str :=
  select ← extract_select stmt;
  e ← find_metric_value_expr (projection select);
  emit_metricql_expr (unwrap_nested e).

(** ** RatioOfSums *)

Definition is_sum_fn (e : Expr) : bool := match e with EFunction f => named (lit "sum") (f_name f) | _ => false end.

Definition is_sum_div_sum (e : Expr) : bool :=
  match e with EBinaryOp l BDivide r => is_sum_fn (unwrap_nested l) && is_sum_fn (unwrap_nested r) | _ => false end.

Definition find_sum_div_sum_expr : list SelectItem → option Expr :=
  first_item (λ e, if is_sum_div_sum (unwrap_nested e) then Some e else None).

Definition extract_sum_pivot_id (e : Expr) : option str :=
  match e with
  | EFunction f =>
      if named (lit "sum") (f_name f) then inner ← first_arg f; extract_pivot_metric_id_t2 (unwrap_nested inner) else None
  | _ => None
  end.

Definition translate_ratio_of_sums (stmt : Statement) : option str :=
  select ← extract_select stmt;
  e ← find_sum_div_sum_expr (projection select);
  match unwrap_nested e with
  | EBinaryOp l BDivide r =>
      num_id ← extract_sum_pivot_id (unwrap_nested l);
      den_id ← extract_sum_pivot_id (unwrap_nested r);
      Some (lit "ratio(@" ++ num_id ++ lit ", @" ++ den_id ++ lit ")")
  | _ => None
  end.

(** ** Filters *)

Fixpoint serialize_metricql_simple (e : Expr) : option str :=
  match e with
  | EIdentifier id => Some (to_ascii_lowercase id)
  | ECompoundIdentifier parts => to_ascii_lowercase <$> last parts
  | EValue (SingleQuotedString s) => Some (quoted s)
  | EValue (SqlNumber n) => Some n
  | EValue SqlNull => Some (lit "null")
  | ENested inner => serialize_metricql_simple inner
  | _ => None
  end.

Definition comparison_str (op : BinaryOperator) : option str :=
  match op with
  | BEq => Some (lit "=") | BNotEq => Some (lit "!=") | BLt => Some (lit "<") | BLtEq => Some (lit "<=")
  | BGt => Some (lit ">") | BGtEq => Some (lit ">=") | _ => None
  end.

Fixpoint serialize_metricql_predicate (e : Expr) : option str :=
  match e with
  | EBinaryOp l BAnd r =>
      l ← serialize_metricql_predicate l; r ← serialize_metricql_predicate r; Some (words [l; lit "and"; r])
  | EBinaryOp l op r =>
      op_str ← comparison_str op;
      l ← serialize_metricql_simple l; r ← serialize_metricql_simple r;
      Some (words [l; op_str; r])
  | EInList e list negated =>
      col ← serialize_metricql_simple e;
      items ← mapM serialize_metricql_simple list;
      let items := lit "[" ++ join (lit ", ") items ++ lit "]" in
      Some (words [col; if negated then lit "not in" else lit "in"; items])
  | ENested inner => serialize_metricql_predicate inner
  | _ => None
  end.

(** The filter of some predicates: none is no filter. *)
Definition filter_str (preds : list Expr) : option (option str) :=
  match preds with
  | [] => Some None
  | _ => parts ← mapM serialize_metricql_predicate preds; Some (Some (join (lit " and ") parts))
  end.

(** ** FilteredAggregation *)

Record AggInfo := mk_agg_info { func_name : str; source : str }.

Definition extract_fn_single_col (f : SqlFunction Expr) : option str :=
  match f_args f with
  | ArgList (Unnamed (ArgExpr inner) :: _) => strip_table_alias inner
  | ArgList (Unnamed ArgWildcard :: _) => Some []
  | ArgList [] => Some []
  | _ => None
  end.

Definition is_number_one (e : Expr) : bool :=
  match e with EValue (SqlNumber n) => bool_decide (n = lit "1") | _ => false end.

Definition extract_proportion_event_type (e : Expr) : option str :=
  match e with
  | ECase None [cond] results (Some _) =>
      if match results with r :: _ => is_number_one r | [] => true end
      then extract_field_eq_literal cond (lit "event_type") else None
  | _ => None
  end.

Definition try_extract_proportion (e : Expr) : option str :=
  match unwrap_nested e with
  | EFunction f => if is_max_or_min f then inner ← first_arg f; extract_proportion_event_type inner else None
  | _ => None
  end.

Fixpoint try_extract_agg (e : Expr) : option AggInfo :=
  match unwrap_nested e with
  | EFunction f =>
      if named (lit "avg") (f_name f) then mk_agg_info (lit "mean") <$> extract_fn_single_col f
      else if named (lit "count") (f_name f) then Some (mk_agg_info (lit "count") [])
      else if named (lit "sum") (f_name f) then mk_agg_info (lit "sum") <$> extract_fn_single_col f
      else None
  | ECast inner =>
      match try_extract_proportion (unwrap_nested inner) with
      | Some et => Some (mk_agg_info (lit "proportion") et)
      | None => try_extract_agg inner
      end
  | _ => None
  end.

Definition extract_agg_info : list SelectItem → option AggInfo := first_item try_extract_agg.

(** The predicates of a proportion's WHERE: a repeated event type is dropped, another one
    refused. *)
Fixpoint proportion_preds (source : str) (preds : list Expr) : option (list Expr) :=
  match preds with
  | [] => Some []
  | p :: preds =>
      match extract_event_type_literal p with
      | Some et => if decide (et = source) then proportion_preds source preds else None
      | None => cons p <$> proportion_preds source preds
      end
  end.

Definition aggregation_text (func source : str) (filter : option str) : str :=
  func ++ lit "(" ++ source ++ lit ")" ++ match filter with Some f => lit " where " ++ f | None => [] end.

Definition translate_filtered_aggregation (stmt : Statement) : option str :=
  select ← extract_select stmt;
  if negb (from_is_events_with_optional_exposures_join (from select)) then None
  else
    info ← extract_agg_info (projection select);
    if decide (func_name info = lit "proportion") then
      filter ← match selection select with
               | Some w => preds ← proportion_preds (source info) (collect_and_predicates w); filter_str preds
               | None => Some None
               end;
      Some (aggregation_text (lit "proportion") (source info) filter)
    else if bool_decide (func_name info = lit "count") && negb (bool_decide (source info = [])) then None
    else
      w ← selection select;
      '(event_type, preds) ← split_where_by_event_type w;
      let source_str := match source info with [] => event_type | s => event_type ++ lit "." ++ s end in
      filter ← filter_str preds;
      Some (aggregation_text (func_name info) source_str filter).

(** ** WindowedAggregation *)

Fixpoint expr_mentions_col (col : str) (e : Expr) : bool :=
  match e with
  | EIdentifier id => bool_decide (id = col)
  | ECompoundIdentifier parts => bool_decide (last parts = Some col)
  | EBinaryOp l _ r => expr_mentions_col col l || expr_mentions_col col r
  | EUnaryOp _ e | ENested e => expr_mentions_col col e
  | _ => false
  end.

Definition is_timestamp_pred (p : Expr) : bool :=
  expr_mentions_col (lit "event_timestamp") p || expr_mentions_col (lit "exposure_ts") p.

Definition is_filter_pred (p : Expr) : bool :=
  negb (is_user_id_join_predicate p) && negb (is_event_type_predicate p) && negb (is_timestamp_pred p).

Definition translate_windowed_aggregation (stmt : Statement) : option str :=
  select ← extract_select stmt;
  if negb (from_is_exposures_with_metric_events_join (from select)) then None
  else
    join_on ← find_join_on_expr (from select);
    let predicates := collect_and_predicates join_on in
    event_type ← extract_event_type_from_predicates predicates;
    window_hours ← first_some (predicate_hours expr_mentions_col) predicates;
    filter ← filter_str (filter (λ p, is_filter_pred p = true) predicates);
    Some (aggregation_text (lit "count") event_type filter
          ++ lit " within " ++ show_i64 window_hours ++ lit " hours of exposure").

(** ** Entry point *)

Definition build_metricql_metric (original : Message) (expression : str) : Message :=
  let d := definition original in
  mk_message (mk_metric (migrated_id d) (metric_name d) Metricql None expression []) (metadata original)
    [] [] [] f64_zero.

Definition metricql_of (stmt : Statement) (shape : ShapeHint) : option (str * str) :=
  match shape with
  | CompositeArithmetic => e ← translate_composite_arithmetic stmt; Some (e, lit "CompositeArithmetic → @-ref arithmetic")
  | RatioOfSums => e ← translate_ratio_of_sums stmt; Some (e, lit "RatioOfSums → ratio(@n, @d)")
  | FilteredAggregation => e ← translate_filtered_aggregation stmt; Some (e, lit "FilteredAggregation → MetricQL aggregation")
  | WindowedAggregation => e ← translate_windowed_aggregation stmt; Some (e, lit "WindowedAggregation → MetricQL windowed count")
  end.

Definition translate {S} `{MetricLookup S} (stmt : Statement) (shape : ShapeHint) (original : Message) (lookup : S) :
    result unit (option Tier2Proposal) :=
  match metricql_of stmt shape with
  | None => Ok None
  | Some (expression, why) =>
      match validate_metricql expression None with
      | Err _ => Ok None
      | Panics => Panics
      | OutOfFuel => OutOfFuel
      | Ok _ =>
          let c := build_metricql_metric original expression in
          validated lookup (definition c) (mk_proposal2 c why)
      end
  end.
