(* ===== verification/Migration.v ===== *)
(** Custom-metric migration: classification into tiers ([migration/mod.rs]), and what a
    proposal guarantees.

    The values a migration must preserve, with their own section: of the SQL arithmetic over
    pivoted metric summaries, of a COMPOSITE configuration, and of a MetricQL arithmetic tree,
    all over one arithmetic. The latter two are read off the queries the metric jobs generate
    ([composite.sql.tmpl], [metricql/compile.go]). *)
From Stdlib Require Import Ascii SpecFloat String.
From S2P Require Import Prelude Bytes F64 Ast Lexer Parser ParserSpec Analyze AnalyzeSpec Targeting FilterSql FilterSqlSpec MetricStore Cycle MetricDefinition SqlAst Classifier Tier1 Tier2.

Inductive ClassificationResult :=
| Tier1Filtered (proposal : Message) (reason : str)
| Tier1Composite (proposal : Message) (reason : str)
| Tier1WindowedCount (proposal : Message) (reason : str)
| Tier2Metricql (proposal : Message) (reason : str)
| Tier3Untranslatable (reason : str) (parse_error : option str).

Definition shape_debug (h : ShapeHint) : str :=
  match h with
  | FilteredAggregation => lit "FilteredAggregation" | WindowedAggregation => lit "WindowedAggregation"
  | CompositeArithmetic => lit "CompositeArithmetic" | RatioOfSums => lit "RatioOfSums"
  end.

Definition tier1_result (p : TranslationProposal) : ClassificationResult :=
  match proposal_tier p with
  | Filtered => Tier1Filtered (proposed p) (Tier1.reason p)
  | CompositeTier => Tier1Composite (proposed p) (Tier1.reason p)
  | WindowedCountTier => Tier1WindowedCount (proposed p) (Tier1.reason p)
  end.

(** [matches!] of the tier-1 shapes. *)
Definition is_tier1_shape (h : ShapeHint) : bool :=
  match h with FilteredAggregation | WindowedAggregation | CompositeArithmetic => true | RatioOfSums => false end.

Section classify.
Context {S : Type} `{MetricLookup S} (parse_sql : str → str + list Statement).

Definition tier3 (shape : option ShapeHint) : ClassificationResult :=
  Tier3Untranslatable
    match shape with
    | Some h => lit "shape " ++ shape_debug h ++ lit " recognized but no translator matched"
    | None => lit "SQL did not match any known translator shape"
    end None.

Definition classify_and_translate (custom_sql : str) (original : Message) (lookup : S) :
    result unit ClassificationResult :=
  if trim_is_empty custom_sql then mret (Tier3Untranslatable (lit "empty SQL") None)
  else
    match parse_or_tier3 parse_sql custom_sql with
    | inl e => mret (Tier3Untranslatable (lit "SQL parse failed: " ++ e) (Some e))
    | inr stmt =>
        let shape := extract_shape stmt in
        match shape with
        | None => mret (tier3 shape)
        | Some h =>
            p ← (if is_tier1_shape h then Tier1.translate stmt h original lookup else mret None);
            match p with
            | Some p => mret (tier1_result p)
            | None =>
                p ← Tier2.translate stmt h original lookup;
                mret match p with Some p => Tier2Metricql (proposed2 p) (reason2 p) | None => tier3 shape end
            end
        end
    end.
End classify.

(** The proposal of a classification. *)
Definition proposal_of (r : ClassificationResult) : option Message :=
  match r with
  | Tier1Filtered m _ | Tier1Composite m _ | Tier1WindowedCount m _ | Tier2Metricql m _ => Some m
  | Tier3Untranslatable _ _ => None
  end.

(** The type a tier proposes. *)
Definition proposed_type (r : ClassificationResult) : option MetricType :=
  match r with
  | Tier1Filtered _ _ => Some FilteredMean | Tier1Composite _ _ => Some Composite
  | Tier1WindowedCount _ _ => Some WindowedCount | Tier2Metricql _ _ => Some Metricql
  | Tier3Untranslatable _ _ => None
  end.

(** ** Values *)

#[export] Instance f64_eq_decision : EqDecision f64.
Proof. solve_decision. Defined.

(** An arithmetic of nullable numbers: literals, metric values, operators, NULLIF(_, 0).
    Dividing by zero gives NULL, as dividing by NULL does. *)
Class SqlArith (V : Type) := {
  num : f64 → V;
  plus : V → V → V;
  minus : V → V → V;
  times : V → V → V;
  divide : V → V → V;
  nullif0 : V → V }.

Class SqlArithLaws (V : Type) `{SqlArith V} := {
  times_comm (x y : V) : times x y = times y x;
  divide_nullif0 (x y : V) : divide x (nullif0 y) = divide x y }.

(** [MAX(CASE WHEN metric_id = 'x' THEN metric_value END)], or MIN: the value of metric x. *)
Definition pivot_case (e : Expr) : option str :=
  match e with
  | ECase None [EBinaryOp c BEq (EValue (SingleQuotedString x))] [r] None =>
      if bool_decide (strip_table_alias c = Some (lit "metric_id"))
         && bool_decide (strip_table_alias r = Some (lit "metric_value"))
      then Some x else None
  | _ => None
  end.

Definition pivot_of (f : SqlFunction Expr) : option str :=
  if is_max_or_min f && negb (f_over f)
  then match f_args f with ArgList [Unnamed (ArgExpr e)] => pivot_case e | _ => None end
  else None.

Definition is_zero_literal (e : Expr) : bool :=
  match e with EValue (SqlNumber n) => bool_decide (n = lit "0") | _ => false end.

Section values.
Context {V : Type} `{SqlArith V} (rho : str → V).

Definition sql_op (op : BinaryOperator) : option (V → V → V) :=
  match op with
  | BPlus => Some plus | BMinus => Some minus | BMultiply => Some times | BDivide => Some divide | _ => None
  end.

(** The value of a SQL expression, when it is such an arithmetic expression. *)
Fixpoint sql_value (e : Expr) : option V :=
  match e with
  | ENested inner => sql_value inner
  | EValue (SqlNumber n) => num <$> f64_parse n
  | EFunction f =>
      if named (lit "nullif") (f_name f) then
        match f_args f with
        | ArgList [Unnamed (ArgExpr a); Unnamed (ArgExpr z)] =>
            if is_zero_literal z then nullif0 <$> sql_value a else None
        | _ => None
        end
      else rho <$> pivot_of f
  | EBinaryOp l op r => f ← sql_op op; x ← sql_value l; y ← sql_value r; Some (f x y)
  | _ => None
  end.

(** The operators of [composite.sql.tmpl], each associating to the left. *)
Definition composite_op (op : CompositeOperator) : option (V → V → V) :=
  match op with
  | OpAdd | OpWeightedSum => Some plus
  | OpSubtract => Some minus
  | OpMultiply => Some times
  | OpDivide => Some (λ x y, divide x (nullif0 y))
  | OpUnspecified => None
  end.

Definition operand_value (op : CompositeOperator) (o : str * f64) : V :=
  match op with OpWeightedSum => times (num o.2) (rho o.1) | _ => rho o.1 end.

Definition composite_value (op : CompositeOperator) (operands : list (str * f64)) : option V :=
  f ← composite_op op;
  match operand_value op <$> operands with x :: xs => Some (foldl f x xs) | [] => None end.

Definition arith_op (op : ArithOp) : option (V → V → V) :=
  match op with
  | Add => Some plus | Sub => Some minus | Mul => Some times
  | Div => Some (λ x y, divide x (nullif0 y)) | ArithUnknown => None
  end.

(** The value of a MetricQL arithmetic tree of references and literals. *)
Fixpoint node_value (n : Node) : option V :=
  match n with
  | NComposite op l r _ => f ← arith_op op; x ← node_value l; y ← node_value r; Some (f x y)
  | NMetricRef m => Some (rho (mr_id m))
  | NLiteral l => Some (num (lit_value l))
  | _ => None
  end.
End values.

(** ** Expressions tier 2 can print *)

(** A literal whose printed form reads back to its value. *)
Definition literal_kept (n : str) : bool :=
  match f64_parse n with
  | Some w => is_numeral (format_number w) && bool_decide (f64_parse (format_number w) = Some w)
  | None => false
  end.

Definition is_metric_name (x : str) : bool := is_ident_text x && negb (bool_decide (x ∈ reserved_keywords)).

Definition right_fits (op : BinaryOperator) (r : Expr) : bool :=
  match op, unwrap_nested r with
  | (BPlus | BMinus), EBinaryOp _ (BPlus | BMinus) _ => false
  | (BMultiply | BDivide), EBinaryOp _ (BMultiply | BDivide) _ => false
  | _, _ => true
  end.

(** Arithmetic whose right operands need no parentheses of their own, with NULLIF only
    around divisors, metric names a reference can spell and literals that print exactly. *)
Fixpoint grouped (e : Expr) : bool :=
  match e with
  | ENested inner => grouped inner
  | EValue (SqlNumber n) => literal_kept n
  | EFunction f => match pivot_of f with Some x => is_metric_name x | None => false end
  | EBinaryOp l op r =>
      grouped l &&
      match op, r with
      | BDivide, EFunction f =>
          if named (lit "nullif") (f_name f) then
            match f_args f with
            | ArgList [Unnamed (ArgExpr a); Unnamed (ArgExpr z)] => is_zero_literal z && right_fits op a && grouped a
            | _ => false
            end
          else match pivot_of f with Some x => is_metric_name x | None => false end
      | _, r => right_fits op r && grouped r
      end
  | _ => false
  end.

(** ** A concrete arithmetic: f64 with NULL *)

Definition lift2 (f : f64 → f64 → f64) (x y : option f64) : option f64 := x ← x; y ← y; Some (f x y).
Definition null_zero (x : option f64) : option f64 := x ← x; if f64_eq x f64_zero then None else Some x.

#[export] Instance f64_arith : SqlArith (option f64) := {
  num := Some;
  plus := lift2 f64_add;
  minus := lift2 f64_sub;
  times := lift2 f64_mul;
  divide := λ x y, lift2 f64_div x (null_zero y);
  nullif0 := null_zero }.

#[export] Instance f64_arith_laws : SqlArithLaws (option f64).
Proof.
  split; cbn [times divide nullif0 f64_arith].
  - intros [x|] [y|]; cbn; [|done..]. by rewrite f64_mul_comm.
  - intros x y. f_equal. destruct y as [y|]; [|done]. cbn. destruct (f64_eq y f64_zero) eqn:E; [done|]. cbn. by rewrite E.
Qed.

(** ** Sample expressions *)

Definition col (c : string) : Expr := EIdentifier (lit c).
Definition txt (s : string) : Expr := EValue (SingleQuotedString (lit s)).
Definition number (n : string) : Expr := EValue (SqlNumber (lit n)).
Definition call (f : string) (args : list Expr) : Expr :=
  EFunction (mk_function (lit f) (ArgList ((λ a, Unnamed (ArgExpr a)) <$> args)) false).
Definition equals (c s : string) : Expr := EBinaryOp (col c) BEq (txt s).
Definition pivot (x : string) : Expr :=
  call "MAX" [ECase None [equals "metric_id" x] [col "metric_value"] None].
Definition nullif (e : Expr) : Expr := call "NULLIF" [e; number "0"].

(** [SELECT e AS metric_value FROM delta.metric_summaries], and the original it belongs to. *)
Definition summaries_query (e : Expr) : Statement :=
  SQuery (mk_query false (SetSelect
    (mk_select [ExprWithAlias e (lit "metric_value")] [mk_table (Table (lit "delta.metric_summaries")) []] None false))).

Definition sample_original : Message :=
  mk_message (mk_metric (lit "orig") (lit "Original") Custom None [] (lit "SELECT 1"))
    (mk_metadata (lit "d") true [] false [] f64_zero 1 1) [] [] [] f64_zero.

(** Metric a is 4, metric b is 2, the others are absent. *)
Definition sample_rho (x : str) : option f64 :=
  if bool_decide (x = lit "a") then Some (f64_of_Z 4) else if bool_decide (x = lit "b") then Some (f64_of_Z 2) else None.

Example sample_division : sql_value sample_rho (EBinaryOp (pivot "a") BDivide (nullif (pivot "b"))) = Some (Some (f64_of_Z 2)).
Proof. vm_compute. reflexivity. Qed.

Example sample_null : sql_value sample_rho (EBinaryOp (pivot "a") BPlus (pivot "c")) = Some None.
Proof. vm_compute. reflexivity. Qed.
