(* ===== verification/MigrationSpec.v ===== *)
(** What the migration guarantees of its proposals: they are definitions the store accepts,
    with the metadata of the original; and classification always ends. *)
From Stdlib Require Import Ascii String SpecFloat.
From S2P Require Import Prelude Bytes F64 Parser ParserSpec Analyze AnalyzeSpec Targeting FilterSql FilterSqlSpec MetricStore Cycle MetricDefinition SqlAst Classifier Tier1 Tier2 Migration.

(** ** Proposals *)

(** What the proposal of an original keeps, whatever its type. *)
Record derived (original m : Message) : Prop := mk_derived
  { dv_id : metric_id (definition m) = migrated_id (definition original);
    dv_name : metric_name (definition m) = metric_name (definition original);
    dv_metadata : metadata m = metadata original;
    dv_custom : custom_sql (definition m) = [];
    dv_source : row_checks (row_of (definition m)) = true }.

Lemma build_metric_derived original t cfg : t ≠ MetricUnspecified → derived original (build_metric original t cfg).
Proof. intros Ht. split; try done. by destruct t. Qed.

Lemma build_metricql_derived original e : derived original (build_metricql_metric original e).
Proof. split; try done. cbn. by destruct e. Qed.

Lemma candidate_derived stmt shape original p : candidate stmt shape original = Some p →
  derived original (proposed p) ∧ proposed_type (tier1_result p) = Some (metric_type (definition (proposed p))).
Proof.
  destruct shape; cbn [candidate]; [| | |done]; intros H.
  - unfold translate_filtered_mean in H. apply bind_Some in H as (s & _ & H). destruct (negb _); [done|].
    apply bind_Some in H as (c & _ & H). apply bind_Some in H as (w & _ & H). apply bind_Some in H as ([et ps] & _ & H).
    apply bind_Some in H as (sql & _ & H). destruct (trim_is_empty sql); [done|]. injection H as <-. by repeat split.
  - unfold translate_windowed_count in H. apply bind_Some in H as (s & _ & H). destruct (negb _); [done|].
    apply bind_Some in H as (j & _ & H). apply bind_Some in H as (et & _ & H). apply bind_Some in H as (n & _ & H).
    apply bind_Some in H as (sql & _ & H). injection H as <-. by repeat split.
  - unfold translate_composite in H. apply bind_Some in H as (s & _ & H). apply bind_Some in H as (e & _ & H).
    apply bind_Some in H as ([op ops] & _ & H). destruct (_ <? _); [done|]. destruct (_ && _); [done|].
    injection H as <-. by repeat split.
Qed.

Section sound.
Context {S : Type} `{MetricLookup S}.

Lemma validated_some {A} (lookup : S) m (a b : A) : validated lookup m a = Ok (Some b) →
  b = a ∧ validate_metric_definition m lookup = Ok tt.
Proof. unfold validated. destruct (validate_metric_definition m lookup) as [[]| | |]; try done. by intros [= <-]. Qed.

Lemma tier1_some stmt h original lookup p : Tier1.translate stmt h original lookup = Ok (Some p) →
  derived original (proposed p) ∧ proposed_type (tier1_result p) = Some (metric_type (definition (proposed p))) ∧
  validate_metric_definition (definition (proposed p)) lookup = Ok tt.
Proof.
  unfold Tier1.translate. destruct (candidate stmt h original) as [c|] eqn:Hc; [|done].
  intros [-> Hv]%validated_some. destruct (candidate_derived _ _ _ _ Hc). done.
Qed.

Lemma tier2_some stmt h original lookup p : Tier2.translate stmt h original lookup = Ok (Some p) →
  derived original (proposed2 p) ∧ metric_type (definition (proposed2 p)) = Metricql ∧
  validate_metric_definition (definition (proposed2 p)) lookup = Ok tt.
Proof.
  unfold Tier2.translate. destruct (metricql_of stmt h) as [[e why]|]; [|done].
  destruct (validate_metricql e None); try done. intros [-> Hv]%validated_some.
  split; [apply build_metricql_derived|done].
Qed.

Lemma classify_some parse_sql sql original lookup r m :
  classify_and_translate parse_sql sql original lookup = Ok r → proposal_of r = Some m →
  derived original m ∧ proposed_type r = Some (metric_type (definition m)) ∧
  validate_metric_definition (definition m) lookup = Ok tt.
Proof.
  unfold classify_and_translate. intros Hr Hm. destruct (trim_is_empty sql); [by injection Hr as <-|].
  destruct (parse_or_tier3 parse_sql sql) as [e|stmt]; [by injection Hr as <-|].
  destruct (extract_shape stmt) as [h|]; [|by injection Hr as <-].
  apply bind_ok_inv in Hr as ([p|] & Hp & Hr).
  - injection Hr as <-. destruct (is_tier1_shape h); [|done]. destruct (tier1_some _ _ _ _ _ Hp) as (Hd & Ht & Hv).
    assert (proposed p = m) as <- by (unfold tier1_result in Hm; by destruct (proposal_tier p); injection Hm).
    done.
  - apply bind_ok_inv in Hr as ([p|] & Hp2 & Hr); injection Hr as <-; [|done]. injection Hm as <-.
    destruct (tier2_some _ _ _ _ _ Hp2) as (Hd & Ht & Hv). cbn [proposed_type]. by rewrite Ht.
Qed.
End sound.

(** A proposal of the migration is a definition the store takes: it is of the type its
    tier says, valid (a complete configuration, existing references, no cycle), has exactly
    one definition source, keeps the original's name and metadata under the id
    [<id>-migrated], and creating it succeeds unless that id is taken. *)
Theorem migration_sound parse_sql sql original db r m :
  classify_and_translate parse_sql sql original db = Ok r → proposal_of r = Some m →
  derived original m ∧ proposed_type r = Some (metric_type (definition m)) ∧ metric_valid db (definition m) ∧
  (db !! migrated_id (definition original) = None →
   create_metric_definition (Some (definition m)) db = Ok (<[migrated_id (definition original) := row_of (definition m)]> db, false)).
Proof.
  intros Hr Hm. destruct (classify_some _ _ _ _ _ _ Hr Hm) as (Hd & Ht & Hv). split_and!; [done|done|by apply metric_sound|].
  intros Hfree. unfold create_metric_definition. cbn [ok_or mbind result_bind]. rewrite Hv. cbn [mbind result_bind].
  unfold create_metric. rewrite (dv_id _ _ Hd), Hfree.
  rewrite (bool_decide_eq_false_2 (is_Some (None (A:=MetricRow)))) by (by intros [? [=]]).
  rewrite (dv_source _ _ Hd). cbn [map_err mbind result_bind mret result_ret]. do 2 f_equal.
  cbn [row_of row_type]. apply bool_decide_eq_false_2. rewrite metric_type_round_trip.
  intros Hc. rewrite Hc in Ht. destruct r; discriminate Ht.
Qed.

(** ** Termination *)

Definition ascii_text (s : str) : bool := forallb is_ascii s.

(** Every text that can reach a proposal is ASCII. *)
Fixpoint expr_ascii (e : Expr) : bool :=
  match e with
  | EIdentifier id => ascii_text id
  | ECompoundIdentifier parts => forallb ascii_text parts
  | EValue (SingleQuotedString s) => ascii_text s
  | EValue (SqlNumber n) => ascii_text n
  | EBinaryOp l _ r => expr_ascii l && expr_ascii r
  | EUnaryOp _ e | ENested e | EIsNull e | EIsNotNull e | ECast e => expr_ascii e
  | EInList e l _ => expr_ascii e && forallb expr_ascii l
  | ECase _ conditions _ _ => forallb expr_ascii conditions
  | EFunction f => match f_args f with ArgList (Unnamed (ArgExpr a) :: _) => expr_ascii a | _ => true end
  | _ => true
  end.

Lemma ascii_app s t : ascii_text (s ++ t) = ascii_text s && ascii_text t.
Proof. apply forallb_app. Qed.

Lemma to_lower_ascii c : is_ascii c = true → is_ascii (to_lower c) = true.
Proof. byte_dec c. Qed.

Lemma ascii_lowercase s : ascii_text s = true → ascii_text (to_ascii_lowercase s) = true.
Proof.
  unfold ascii_text, to_ascii_lowercase. rewrite !forallb_forall. intros Hs c.
  rewrite <- list_elem_of_In, list_elem_of_fmap. intros (d & -> & Hd%list_elem_of_In). by apply to_lower_ascii, Hs.
Qed.

Lemma ascii_join sep l : ascii_text sep = true → forallb ascii_text l = true → ascii_text (join sep l) = true.
Proof.
  intros Hs. induction l as [|x [|y l] IH]; [done| |].
  - cbn. by intros [? _]%andb_prop.
  - intros [Hx Hl]%andb_prop. cbn [join]. rewrite !ascii_app, Hx, Hs. by apply IH.
Qed.

Lemma ascii_words l : forallb ascii_text l = true → ascii_text (words l) = true.
Proof. by apply ascii_join. Qed.

Lemma ascii_last parts s : forallb ascii_text parts = true → last parts = Some s → ascii_text s = true.
Proof. intros Hp Hl. apply (proj1 (forallb_forall _ _) Hp), list_elem_of_In. by apply last_Some_elem_of. Qed.

Lemma serialize_simple_ascii e s : expr_ascii e = true → serialize_simple_expr e = Some s → ascii_text s = true.
Proof.
  induction e as [id|parts|v|l IHl op r IHr|op e IH|e IH| | | | | | | | | | | |]; cbn [expr_ascii serialize_simple_expr];
    intros Ha H; try done.
  - injection H as <-. by apply ascii_lowercase.
  - apply fmap_Some in H as (p & Hp & ->). apply ascii_lowercase. by eapply ascii_last.
  - destruct v as [t|n| |]; try done; injection H as <-; [|done..]. unfold quoted. by rewrite !ascii_app, Ha.
  - by apply IH.
Qed.

Lemma mapM_ascii {A} (f : A → option str) (ok : A → bool) l r : (∀ x s, ok x = true → f x = Some s → ascii_text s = true) →
  forallb ok l = true → mapM f l = Some r → forallb ascii_text r = true.
Proof.
  intros Hf. revert r. induction l as [|x l IH]; intros r Hl H; [by injection H as <-|].
  apply andb_prop in Hl as [Hx Hl]. apply mapM_Some in H. inversion H as [|? y ? k Hy Hk]; subst.
  cbn [forallb]. rewrite (Hf x y) by done. apply IH; [done|]. by apply mapM_Some.
Qed.

Lemma serialize_predicate_ascii e s : expr_ascii e = true → serialize_predicate e = Some s → ascii_text s = true.
Proof.
  revert s. induction e as [ | | |l IHl op r IHr|op e IH|e IH|e IH|e IH|e IH|e IH l neg| | | | | | | |];
    intros s Ha H; cbn [expr_ascii serialize_predicate] in *; try done.
  - apply andb_prop in Ha as [Hl Hr]. apply bind_Some in H as (o & Ho & H). apply bind_Some in H as (ls & Hls & H).
    apply bind_Some in H as (rs & Hrs & H). injection H as <-. apply ascii_words. cbn [forallb].
    rewrite (serialize_simple_ascii l ls), (serialize_simple_ascii r rs) by done.
    assert (ascii_text o = true) as -> by (destruct op; try discriminate Ho; by injection Ho as <-). done.
  - destruct op; [|done]. apply bind_Some in H as (i & Hi & H). injection H as <-. apply ascii_words. cbn [forallb].
    by rewrite (IH i).
  - by apply IH.
  - apply bind_Some in H as (c & Hc & H). injection H as <-. apply ascii_words. cbn [forallb].
    by rewrite (serialize_simple_ascii e c).
  - apply bind_Some in H as (c & Hc & H). injection H as <-. apply ascii_words. cbn [forallb].
    by rewrite (serialize_simple_ascii e c).
  - apply andb_prop in Ha as [He Hl]. apply bind_Some in H as (c & Hc & H). apply bind_Some in H as (items & Hi & H).
    injection H as <-. apply ascii_words. cbn [forallb]. rewrite (serialize_simple_ascii e c) by done.
    change ("("%char :: ?t) with (lit "(" ++ t). rewrite !ascii_app, (ascii_join _ items); [by destruct neg|done|].
    by eapply (mapM_ascii serialize_simple_expr expr_ascii); [intros; by eapply serialize_simple_ascii|..].
Qed.

(** The statements whose predicates are ASCII. *)
Definition opt_ascii (o : option Expr) : bool := match o with Some e => expr_ascii e | None => true end.

Definition joins_ascii (l : list TableWithJoins) : bool :=
  forallb (λ twj, forallb (λ j, match join_operator j with ConstrainedJoin (JoinOn e) => expr_ascii e | _ => true end) (joins twj)) l.

Definition select_ascii (s : Select) : bool :=
  opt_ascii (selection s) && joins_ascii (from s) && forallb (λ i, opt_ascii (item_expr i)) (projection s).

Definition stmt_ascii (stmt : Statement) : bool :=
  match extract_select stmt with Some s => select_ascii s | None => true end.

Lemma collect_ascii e : expr_ascii e = true → forallb expr_ascii (collect_and_predicates e) = true.
Proof.
  induction e as [ | | |l IHl op r IHr| |e IH| | | | | | | | | | | |]; cbn [expr_ascii collect_and_predicates]; intros Ha;
    try (cbn [forallb expr_ascii]; by rewrite andb_true_r).
  - apply andb_prop in Ha as [Hl Hr].
    destruct op; try (cbn [forallb expr_ascii]; by rewrite Hl, Hr). rewrite forallb_app, IHl, IHr by done. done.
  - by apply IH.
Qed.

Lemma forallb_sub {A} (p : A → bool) (k l : list A) : (∀ x, x ∈ k → x ∈ l) → forallb p l = true → forallb p k = true.
Proof. rewrite !forallb_forall. intros Hs Hl x Hx%list_elem_of_In. by apply Hl, list_elem_of_In, Hs. Qed.

Lemma filter_sql_ascii preds sql : forallb expr_ascii preds = true → predicates_to_filter_sql preds = Some sql →
  ascii_text sql = true.
Proof.
  intros Hp H. unfold predicates_to_filter_sql in H. apply bind_Some in H as (parts & Hm & H). injection H as <-.
  apply ascii_join; [done|]. eapply mapM_ascii; [|exact Hp|exact Hm]. intros x s. apply serialize_predicate_ascii.
Qed.

Lemma split_preds_elem preds : ∀ et rem et' rem', split_preds preds et rem = (et', rem') →
  ∀ p, p ∈ rem' → p ∈ rem ++ preds.
Proof.
  induction preds as [|q preds IH]; intros et rem et' rem' H p Hp; cbn [split_preds] in H.
  { injection H as <- <-. by rewrite app_nil_r. }
  destruct (extract_event_type_literal q), et; specialize (IH _ _ _ _ H p Hp); rewrite elem_of_app, elem_of_cons in *;
    rewrite ?elem_of_app, ?list_elem_of_singleton in IH; tauto.
Qed.

Lemma join_on_ascii l e : joins_ascii l = true → find_join_on_expr l = Some e → expr_ascii e = true.
Proof.
  induction l as [|twj l IH]; [done|]. cbn [joins_ascii forallb find_join_on_expr]. intros [Hj Hl]%andb_prop.
  destruct (join_on_expr (joins twj)) as [e'|] eqn:He; [|by apply IH]. intros [= <-]. clear IH Hl.
  induction (joins twj) as [|j js IH]; [done|]. cbn [forallb join_on_expr] in *. apply andb_prop in Hj as [Hj Hjs].
  destruct (join_operator j) as [[]|]; [|by apply IH..]. by injection He as <-.
Qed.

Lemma candidate_ascii stmt shape original p : stmt_ascii stmt = true → candidate stmt shape original = Some p →
  filter_ascii (definition (proposed p)) ∧ metricql_expression (definition (proposed p)) = [].
Proof.
  unfold stmt_ascii. intros Hs. destruct shape; cbn [candidate]; [| | |done]; intros H.
  - unfold translate_filtered_mean in H. apply bind_Some in H as (s & Hsel & H). rewrite Hsel in Hs.
    destruct (negb _); [done|]. apply bind_Some in H as (c & _ & H). apply bind_Some in H as (w & Hw & H).
    apply bind_Some in H as ([et ps] & Hps & H). apply bind_Some in H as (sql & Hsql & H).
    destruct (trim_is_empty sql); [done|]. injection H as <-. split; [|done]. apply andb_prop in Hs as [[Hs _]%andb_prop _].
    rewrite Hw in Hs. apply (filter_sql_ascii ps); [|done]. apply (forallb_sub _ _ (collect_and_predicates w)); [|by apply collect_ascii].
    intros q Hq. unfold split_where_by_event_type in Hps. destruct (split_preds _ _ _) as [o rem] eqn:E.
    apply bind_Some in Hps as (et' & _ & Hps). injection Hps as <- <-. by apply (split_preds_elem _ _ _ _ _ E).
  - unfold translate_windowed_count in H. apply bind_Some in H as (s & Hsel & H). rewrite Hsel in Hs.
    destruct (negb _); [done|]. apply bind_Some in H as (j & Hj & H). apply bind_Some in H as (et & _ & H).
    apply bind_Some in H as (n & _ & H). apply bind_Some in H as (sql & Hsql & H). injection H as <-. split; [|done].
    apply andb_prop in Hs as [[_ Hs]%andb_prop _]. eapply filter_sql_ascii; [|exact Hsql].
    apply (forallb_sub _ _ (collect_and_predicates j)); [by intros q [_ Hq]%list_elem_of_filter|].
    by eapply collect_ascii, join_on_ascii.
  - unfold translate_composite in H. apply bind_Some in H as (s & _ & H). apply bind_Some in H as (e & _ & H).
    apply bind_Some in H as ([op ops] & _ & H). destruct (_ <? _); [done|]. destruct (_ && _); [done|].
    by injection H as <-.
Qed.

Lemma validated_returns {A} db m (a : A) : texts_ok db → valid_utf8 (metricql_expression m) = true → filter_ascii m →
  returns (validated db m a).
Proof. intros Ht He Ha. pose proof (metric_returns db m Ht He Ha). unfold validated. by destruct (validate_metric_definition m db). Qed.

(** *** The texts of tier 2 *)

Lemma ascii_reverse s : ascii_text (reverse s) = ascii_text s.
Proof.
  induction s as [|c s IH]; [done|]. rewrite reverse_cons, ascii_app, IH. cbn. by rewrite andb_true_r, andb_comm.
Qed.

Lemma decimal_digit_ascii n : is_ascii (decimal_digit n) = true.
Proof.
  unfold is_ascii, decimal_digit, code. pose proof (Z.mod_pos_bound n 10). rewrite N_ascii_embedding; lia.
Qed.

Lemma decimal_loop_ascii fuel : ∀ n acc, ascii_text acc = true → ascii_text (decimal_loop fuel n acc) = true.
Proof.
  induction fuel as [|fuel IH]; intros n acc Ha; [done|]. cbn [decimal_loop].
  assert (ascii_text (decimal_digit n :: acc) = true) as Hd by (cbn; by rewrite decimal_digit_ascii).
  destruct (n <? 10)%Z; [done|]. by apply IH.
Qed.

Lemma decimal_padded_ascii w n : ascii_text (decimal_padded w n) = true.
Proof. induction w as [|w IH]; [done|]. cbn [decimal_padded ascii_text forallb]. by rewrite decimal_digit_ascii. Qed.

Lemma signed_ascii b s : ascii_text s = true → ascii_text (signed b s) = true.
Proof. by destruct b. Qed.

Lemma fixed10_ascii x : ascii_text (fixed10 x) = true.
Proof.
  destruct x as [s|s| |s m e]; cbn [fixed10]; [by apply signed_ascii..|done|]. apply signed_ascii.
  rewrite !ascii_app, decimal_padded_ascii. unfold decimal. by rewrite decimal_loop_ascii.
Qed.

Lemma trim_end_ascii c s : ascii_text s = true → ascii_text (trim_end_matches c s) = true.
Proof.
  intros Hs. unfold trim_end_matches. rewrite ascii_reverse. rewrite <- ascii_reverse in Hs.
  induction (reverse s) as [|d t IH]; [done|]. apply andb_prop in Hs as Hs'. destruct Hs' as [_ Ht]. cbn [trim_start_matches].
  destruct (is_byte c d); [by apply IH|done].
Qed.

Lemma show_i64_ascii n : ascii_text (show_i64 n) = true.
Proof. apply signed_ascii. unfold decimal. by apply decimal_loop_ascii. Qed.

Lemma format_number_ascii x : ascii_text (format_number x) = true.
Proof.
  unfold format_number. destruct (_ && _); [apply show_i64_ascii|]. by do 2 apply trim_end_ascii; apply fixed10_ascii.
Qed.

Lemma unwrap_ascii e : expr_ascii e = true → expr_ascii (unwrap_nested e) = true.
Proof. induction e; cbn [unwrap_nested]; auto. Qed.

Lemma field_literal_ascii e col s : expr_ascii e = true → extract_field_eq_literal e col = Some s → ascii_text s = true.
Proof.
  destruct e as [ | | |l op r| | | | | | | | | | | | | |]; try done. destruct op; try done. cbn. intros [_ Hr]%andb_prop H.
  apply bind_Some in H as (n & _ & H). destruct (decide (n = col)); [|done]. destruct r as [ | |[]| | | | | | | | | | | | | | |]; try done.
  by injection H as <-.
Qed.

Lemma first_arg_ascii f a : expr_ascii (EFunction f) = true → first_arg f = Some a → expr_ascii a = true.
Proof.
  cbn [expr_ascii]. unfold first_arg. destruct (f_args f) as [[|[[]|] ?]|]; try done. by intros ? [= <-].
Qed.

Lemma case_id_ascii e s : expr_ascii e = true → extract_case_metric_id e = Some s → ascii_text s = true.
Proof.
  destruct e as [ | | | | | | | | | | |o cs rs el| | | | | |]; try done. cbn. destruct o; [done|]. destruct cs as [|c cs]; [done|].
  intros [Hc _]%andb_prop. by apply field_literal_ascii.
Qed.

(** The depth of an expression along operands and first arguments. *)
Fixpoint depth (e : Expr) : nat :=
  match e with
  | EBinaryOp l _ r => Datatypes.S (Nat.max (depth l) (depth r))
  | ENested inner => Datatypes.S (depth inner)
  | EFunction f => match f_args f with ArgList (Unnamed (ArgExpr a) :: _) => Datatypes.S (depth a) | _ => 1 end
  | _ => 1
  end.

Lemma unwrap_depth e : depth (unwrap_nested e) ≤ depth e.
Proof. induction e; cbn [unwrap_nested depth]; lia. Qed.

Lemma unwrap_idem e : unwrap_nested (unwrap_nested e) = unwrap_nested e.
Proof. induction e; cbn [unwrap_nested]; auto. Qed.

Lemma first_arg_depth f a : first_arg f = Some a → depth a < depth (EFunction f).
Proof. unfold first_arg. cbn [depth]. destruct (f_args f) as [[|[[]|] ?]|]; try done. intros [= <-]. lia. Qed.

Lemma unwrap_nullif_depth e : depth (unwrap_nullif e) ≤ depth e.
Proof.
  unfold unwrap_nullif. pose proof (unwrap_depth e). destruct (unwrap_nested e) as [ | | | | | | | | | | | |f| | | | |] eqn:E; try lia.
  destruct (named _ _); [|lia]. pose proof (first_arg_depth f) as Hf. unfold first_arg in Hf.
  destruct (f_args f) as [[|[[a| |]|] ?]|]; try lia. specialize (Hf a eq_refl). pose proof (unwrap_depth a). lia.
Qed.

Lemma actual_right_depth op r : depth (actual_right op r) ≤ depth r.
Proof.
  destruct op; cbn [actual_right]; try apply unwrap_depth. etransitivity; [apply unwrap_nullif_depth|apply unwrap_depth].
Qed.

(** Induction on the depth. *)
Lemma depth_ind (P : Expr → Prop) : (∀ e, (∀ e', depth e' < depth e → P e') → P e) → ∀ e, P e.
Proof.
  intros Hs e. remember (depth e) as n eqn:Hn. revert e Hn. induction (lt_wf n) as [n _ IH]. intros e ->.
  apply Hs. intros e' He. by apply (IH (depth e')).
Qed.

(** The equation of the pivot extractor. *)
Lemma pivot_t2_eq e : extract_pivot_metric_id_t2 e =
  match unwrap_nested e with
  | EFunction f =>
      if is_max_or_min f then inner ← first_arg f; extract_case_metric_id inner
      else if named (lit "nullif") (f_name f) then inner ← first_arg f; extract_pivot_metric_id_t2 inner else None
  | _ => None
  end.
Proof.
  destruct e; cbn [extract_pivot_metric_id_t2]; unfold first_arg; try done;
    match goal with |- context [unwrap_nested ?x] => destruct (unwrap_nested x) as [ | | | | | | | | | | | |g| | | | |] | _ => idtac end; try done;
    try (match goal with |- context [f_args ?g] => destruct (f_args g) as [[|[[]|] ?]|] end); done.
Qed.

Lemma pivot_t2_ascii e : ∀ s, expr_ascii e = true → extract_pivot_metric_id_t2 e = Some s → ascii_text s = true.
Proof.
  induction e as [e IH] using depth_ind. intros s Ha H. rewrite pivot_t2_eq in H. apply unwrap_ascii in Ha.
  pose proof (unwrap_depth e) as Hd. destruct (unwrap_nested e) as [ | | | | | | | | | | | |f| | | | |]; try done.
  destruct (is_max_or_min f).
  - apply bind_Some in H as (a & Hf & H). eapply case_id_ascii; [|exact H]. by eapply first_arg_ascii.
  - destruct (named _ _); [|done]. apply bind_Some in H as (a & Hf & H). eapply (IH a); [|by eapply first_arg_ascii|done].
    apply first_arg_depth in Hf. lia.
Qed.

Lemma actual_right_ascii op r : expr_ascii r = true → expr_ascii (actual_right op r) = true.
Proof.
  intros Hr. destruct op; cbn [actual_right]; try by apply unwrap_ascii. unfold unwrap_nullif. rewrite unwrap_idem.
  apply unwrap_ascii in Hr. destruct (unwrap_nested r) as [ | | | | | | | | | | | |f| | | | |]; try done.
  destruct (named _ _); [|done]. cbn [expr_ascii] in Hr. destruct (f_args f) as [[|[[a| |]|] ?]|] eqn:E; try done; try (cbn [expr_ascii]; by rewrite E).
  by apply unwrap_ascii.
Qed.

(** The equation of the emitter. *)
Lemma emit_eq e : emit_metricql_expr e =
  let e := unwrap_nested e in
  match extract_pivot_metric_id_t2 e with
  | Some id => Some (lit "@" ++ id)
  | None =>
      match extract_number_literal e with
      | Some n => Some (format_number n)
      | None =>
          match e with
          | EBinaryOp l op r =>
              let l := unwrap_nested l in
              let r := actual_right op r in
              op_str ← arith_str op;
              left_str ← emit_metricql_expr l;
              right_str ← emit_metricql_expr r;
              Some (words [parenthesized (is_mul_or_div op && inner_is_additive l) left_str; op_str;
                           parenthesized (is_mul_or_div op && inner_is_additive r) right_str])
          | _ => None
          end
      end
  end.
Proof. by destruct e. Qed.

Lemma parenthesized_ascii b s : ascii_text s = true → ascii_text (parenthesized b s) = true.
Proof. intros Hs. destruct b; [|done]. cbn [parenthesized]. by rewrite !ascii_app, Hs. Qed.

Lemma emit_ascii e : ∀ s, expr_ascii e = true → emit_metricql_expr e = Some s → ascii_text s = true.
Proof.
  induction e as [e IH] using depth_ind. intros s Ha H. rewrite emit_eq in H. cbv zeta in H. apply unwrap_ascii in Ha.
  pose proof (unwrap_depth e) as Hd. destruct (extract_pivot_metric_id_t2 _) as [id|] eqn:Hp.
  { injection H as <-. change (ascii_text (lit "@" ++ id) = true). rewrite ascii_app. by eapply pivot_t2_ascii. }
  destruct (extract_number_literal _) as [n|]; [injection H as <-; apply format_number_ascii|].
  destruct (unwrap_nested e) as [ | | |l op r| | | | | | | | | | | | | |]; try done. apply andb_prop in Ha as [Hl Hr].
  cbn [depth] in Hd. apply bind_Some in H as (o & Ho & H). apply bind_Some in H as (ls & Hls & H).
  apply bind_Some in H as (rs & Hrs & H). injection H as <-. apply ascii_words. cbn [forallb].
  pose proof (unwrap_depth l). pose proof (actual_right_depth op r).
  rewrite !parenthesized_ascii; [| |].
  - destruct op; try discriminate Ho; by injection Ho as <-.
  - eapply (IH (actual_right op r)); [lia|by apply actual_right_ascii|done].
  - eapply (IH (unwrap_nested l)); [lia|by apply unwrap_ascii|done].
Qed.

Lemma first_item_elem {A} (f : Expr → option A) items a : first_item f items = Some a →
  ∃ i e, i ∈ items ∧ item_expr i = Some e ∧ f e = Some a.
Proof.
  induction items as [|i items IH]; [done|]. cbn [first_item]. destruct (item_expr i ≫= f) as [b|] eqn:Hb.
  - intros [= <-]. apply bind_Some in Hb as (e & He & Hf). exists i, e. split; [by left|done].
  - intros (j & e & Hj & He)%IH. exists j, e. split; [by right|done].
Qed.

Lemma first_some_elem {A B} (f : A → option B) l b : first_some f l = Some b → ∃ a, a ∈ l ∧ f a = Some b.
Proof.
  induction l as [|x l IH]; [done|]. cbn [first_some]. destruct (f x) as [b'|] eqn:Hb.
  - intros [= <-]. exists x. split; [by left|done].
  - intros (a & Ha & Hf)%IH. exists a. split; [by right|done].
Qed.

Lemma metric_value_elem items e : find_metric_value_expr items = Some e → ∃ i, i ∈ items ∧ item_expr i = Some e.
Proof.
  unfold find_metric_value_expr. destruct (first_some (aliased _) items) as [e'|] eqn:H1.
  - intros [= <-]. apply first_some_elem in H1 as (i & Hi & H1). exists i. split; [done|].
    destruct i; try done. cbn [aliased] in H1. by destruct (named _ _).
  - intros H2. apply first_some_elem in H2 as (i & Hi & H2). exists i. rewrite elem_of_reverse in Hi. split; [done|].
    apply bind_Some in H2 as (e' & He & H2). destruct (is_column e'); [done|]. congruence.
Qed.

Lemma items_ascii items i e : forallb (λ i, opt_ascii (item_expr i)) items = true → i ∈ items → item_expr i = Some e →
  expr_ascii e = true.
Proof. rewrite forallb_forall. intros Hf Hi%list_elem_of_In He. specialize (Hf i Hi). by rewrite He in Hf. Qed.

Lemma strip_alias_ascii e s : expr_ascii e = true → strip_table_alias e = Some s → ascii_text s = true.
Proof. destruct e; cbn; try done; [by intros ? [= <-]|]. apply ascii_last. Qed.

Lemma single_col_ascii f s : expr_ascii (EFunction f) = true → extract_fn_single_col f = Some s → ascii_text s = true.
Proof.
  cbn [expr_ascii]. unfold extract_fn_single_col. destruct (f_args f) as [[|[[a| |]|] ?]|]; try done;
    [by intros _ [= <-]|by apply strip_alias_ascii|by intros _ [= <-]].
Qed.

Lemma proportion_ascii e s : expr_ascii e = true → try_extract_proportion e = Some s → ascii_text s = true.
Proof.
  intros Ha%unwrap_ascii H. unfold try_extract_proportion in H.
  destruct (unwrap_nested e) as [ | | | | | | | | | | | |f| | | | |]; try done. destruct (is_max_or_min f); [|done].
  apply bind_Some in H as (a & Hf & H). pose proof (first_arg_ascii f a Ha Hf) as Haa.
  destruct a as [ | | | | | | | | | | |o cs rs el| | | | | |]; try done. cbn in H. destruct o; [done|].
  destruct cs as [|c [|? ?]]; try done. destruct el; [|done]. cbn in Haa. apply andb_prop in Haa as [Hc _].
  destruct rs as [|r rs]; [by eapply field_literal_ascii|]. destruct (is_number_one r); [|done]. by eapply field_literal_ascii.
Qed.

Lemma agg_eq e : try_extract_agg e =
  match unwrap_nested e with
  | EFunction f =>
      if named (lit "avg") (f_name f) then mk_agg_info (lit "mean") <$> extract_fn_single_col f
      else if named (lit "count") (f_name f) then Some (mk_agg_info (lit "count") [])
      else if named (lit "sum") (f_name f) then mk_agg_info (lit "sum") <$> extract_fn_single_col f
      else None
  | ECast inner =>
      match try_extract_proportion (unwrap_nested inner) with
      | Some et => Some (mk_agg_info (lit "proportion") et)
      | None => try_extract_agg inner
      end
  | _ => None
  end.
Proof. by destruct e. Qed.

Definition info_ascii (i : AggInfo) : bool := ascii_text (func_name i) && ascii_text (source i).

Lemma agg_ascii e : ∀ i, expr_ascii e = true → try_extract_agg e = Some i → info_ascii i = true.
Proof.
  assert (∀ f i, expr_ascii (EFunction f) = true → try_extract_agg (EFunction f) = Some i → info_ascii i = true) as Hf.
  { intros f i Ha H. cbn [try_extract_agg unwrap_nested] in H. destruct (named _ _).
    { apply fmap_Some in H as (s & Hs & ->). by eapply single_col_ascii. }
    destruct (named _ _); [by injection H as <-|]. destruct (named _ _); [|done].
    apply fmap_Some in H as (s & Hs & ->). by eapply single_col_ascii. }
  induction e as [ | | | | |e IH|e IH| | | | | |f| | | | |]; intros i Ha H; try done.
  - apply IH; [done|]. rewrite agg_eq in H |- *. cbn [unwrap_nested] in H. by rewrite <- H.
  - rewrite agg_eq in H. cbn [unwrap_nested expr_ascii] in *. destruct (try_extract_proportion _) as [s|] eqn:Hp; [|by apply IH].
    injection H as <-. eapply proportion_ascii; [|exact Hp]. by apply unwrap_ascii.
  - by apply (Hf f).
Qed.

Lemma metricql_simple_ascii e s : expr_ascii e = true → serialize_metricql_simple e = Some s → ascii_text s = true.
Proof.
  induction e as [id|parts|v|l IHl op r IHr|op e IH|e IH| | | | | | | | | | | |]; cbn [expr_ascii serialize_metricql_simple];
    intros Ha H; try done.
  - injection H as <-. by apply ascii_lowercase.
  - apply fmap_Some in H as (p & Hp & ->). apply ascii_lowercase. by eapply ascii_last.
  - destruct v as [t|n| |]; try done; injection H as <-; [|done..]. unfold quoted. by rewrite !ascii_app, Ha.
  - by apply IH.
Qed.

(** The equation of the predicate serializer on operators. *)
Lemma metricql_pred_binary l op r : op ≠ BAnd → serialize_metricql_predicate (EBinaryOp l op r) =
  (op_str ← comparison_str op; l ← serialize_metricql_simple l; r ← serialize_metricql_simple r; Some (words [l; op_str; r])).
Proof. by destruct op. Qed.

Lemma metricql_pred_ascii e : ∀ s, expr_ascii e = true → serialize_metricql_predicate e = Some s → ascii_text s = true.
Proof.
  induction e as [ | | |l IHl op r IHr| |e IH| | | |e IH items neg| | | | | | | |]; intros s Ha H; try done.
  - cbn [expr_ascii] in Ha. apply andb_prop in Ha as [Hl Hr]. destruct (decide (op = BAnd)) as [->|Hne].
    + cbn [serialize_metricql_predicate] in H. apply bind_Some in H as (ls & Hls & H). apply bind_Some in H as (rs & Hrs & H).
      injection H as <-. apply ascii_words. cbn [forallb]. by rewrite (IHl ls), (IHr rs).
    + rewrite metricql_pred_binary in H by done. apply bind_Some in H as (o & Ho & H). apply bind_Some in H as (ls & Hls & H).
      apply bind_Some in H as (rs & Hrs & H). injection H as <-. apply ascii_words. cbn [forallb].
      rewrite (metricql_simple_ascii l ls), (metricql_simple_ascii r rs) by done.
      assert (ascii_text o = true) as -> by (destruct op; try discriminate Ho; by injection Ho as <-). done.
  - by apply IH.
  - cbn [expr_ascii serialize_metricql_predicate] in *. apply andb_prop in Ha as [He Hl].
    apply bind_Some in H as (c & Hc & H). apply bind_Some in H as (is' & Hi & H). injection H as <-. apply ascii_words.
    cbn [forallb]. rewrite (metricql_simple_ascii e c) by done.
    change ("["%char :: ?t) with (lit "[" ++ t). rewrite !ascii_app, (ascii_join _ is'); [by destruct neg|done|].
    by eapply (mapM_ascii serialize_metricql_simple expr_ascii); [intros; by eapply metricql_simple_ascii|..].
Qed.

Lemma filter_str_ascii preds f : forallb expr_ascii preds = true → filter_str preds = Some (Some f) → ascii_text f = true.
Proof.
  intros Hp H. destruct preds as [|p preds]; [done|]. unfold filter_str in H. apply bind_Some in H as (parts & Hm & H).
  injection H as <-. apply ascii_join; [done|]. eapply mapM_ascii; [|exact Hp|exact Hm]. intros x s. apply metricql_pred_ascii.
Qed.

Lemma aggregation_text_ascii func source f : ascii_text func = true → ascii_text source = true →
  match f with Some f => ascii_text f = true | None => True end → ascii_text (aggregation_text func source f) = true.
Proof.
  intros Hf Hs Ho. unfold aggregation_text. rewrite !ascii_app, Hf, Hs. destruct f as [f|]; [|done].
  change (lit " where " ++ f) with (lit " where " ++ f). by rewrite ascii_app, Ho.
Qed.

Lemma proportion_preds_elem source preds : ∀ rest, proportion_preds source preds = Some rest → ∀ p, p ∈ rest → p ∈ preds.
Proof.
  induction preds as [|q preds IH]; intros rest H p Hp; cbn [proportion_preds] in H; [by injection H as <-|].
  destruct (extract_event_type_literal q) as [et|].
  - destruct (decide (et = source)); [|done]. right. by eapply IH.
  - apply fmap_Some in H as (k & Hk & ->). apply elem_of_cons in Hp as [->|Hp]; [by left|]. right. by eapply IH.
Qed.

Lemma event_types_ascii preds et : forallb expr_ascii preds = true → first_some extract_event_type_literal preds = Some et →
  ascii_text et = true.
Proof.
  intros Hp (p & Hin & H)%first_some_elem. eapply field_literal_ascii; [|exact H].
  apply (proj1 (forallb_forall _ _) Hp). by apply list_elem_of_In.
Qed.

Lemma split_preds_ascii preds : ∀ et rem et' rem', split_preds preds et rem = (et', rem') → forallb expr_ascii preds = true →
  (∀ s, et = Some s → ascii_text s = true) → ∀ s, et' = Some s → ascii_text s = true.
Proof.
  induction preds as [|p preds IH]; intros et rem et' rem' H Hp He s Hs; cbn [split_preds] in H.
  { injection H as <- <-. by apply He. }
  apply andb_prop in Hp as [Hp Hps].
  assert (∃ et1 rem1, split_preds preds et1 rem1 = (et', rem') ∧ ∀ s, et1 = Some s → ascii_text s = true) as (et1 & rem1 & H1 & He1).
  { destruct (extract_event_type_literal p) as [t|] eqn:Ht, et as [et|]; do 2 eexists; (split; [exact H|]); try done.
    intros ? [= <-]. by eapply field_literal_ascii. }
  by eapply IH.
Qed.

Lemma where_ascii w et preds : expr_ascii w = true → split_where_by_event_type w = Some (et, preds) →
  ascii_text et = true ∧ forallb expr_ascii preds = true.
Proof.
  intros Hw%collect_ascii H. unfold split_where_by_event_type in H. destruct (split_preds _ _ _) as [o rem] eqn:E.
  apply bind_Some in H as (et' & Ho & H). injection H as -> ->. split.
  - by eapply (split_preds_ascii _ _ _ _ _ E Hw); [|exact Ho].
  - apply (forallb_sub _ _ _ (split_preds_elem _ _ _ _ _ E)). done.
Qed.

Lemma metricql_of_ascii stmt h e why : stmt_ascii stmt = true → metricql_of stmt h = Some (e, why) → ascii_text e = true.
Proof.
  unfold stmt_ascii. intros Hs H.
  destruct h; cbn [metricql_of] in H; apply bind_Some in H as (e' & H & He); injection He as -> <-;
    apply bind_Some in H as (s & Hsel & H); rewrite Hsel in Hs;
    apply andb_prop in Hs as [[Hw Hj]%andb_prop Hi].
  - destruct (negb _); [done|]. apply bind_Some in H as (info & Hinfo & H).
    apply first_item_elem in Hinfo as (i & x & Hin & Hx & Hagg). pose proof (items_ascii _ _ _ Hi Hin Hx) as Hxa.
    pose proof (agg_ascii x info Hxa Hagg) as [Hfn Hso]%andb_prop. destruct (decide _).
    + apply bind_Some in H as (f & Hf & H). injection H as <-. apply aggregation_text_ascii; [done|done|].
      destruct f as [f|]; [|done]. destruct (selection s) as [w|]; [|done]. apply bind_Some in Hf as (ps & Hps & Hf).
      eapply filter_str_ascii; [|exact Hf]. apply (forallb_sub _ _ _ (proportion_preds_elem _ _ _ Hps)). by apply collect_ascii.
    + destruct (_ && _); [done|]. apply bind_Some in H as (w & Hws & H). apply bind_Some in H as ([et ps] & Hps & H).
      rewrite Hws in Hw. destruct (where_ascii w et ps Hw Hps) as [Het Hpa].
      apply bind_Some in H as (f & Hf & H). injection H as <-. apply aggregation_text_ascii; [done| |].
      * destruct (source info) as [|c so] eqn:Eso; [done|]. rewrite ascii_app, Het. exact Hso.
      * destruct f as [f|]; [|done]. by eapply filter_str_ascii.
  - destruct (negb _); [done|]. apply bind_Some in H as (j & Hjo & H). apply bind_Some in H as (et & Het & H).
    apply bind_Some in H as (n & Hn & H). apply bind_Some in H as (f & Hf & H). apply (inj Some) in H as <-.
    pose proof (collect_ascii j (join_on_ascii _ _ Hj Hjo)) as Hps.
    rewrite !ascii_app, show_i64_ascii, aggregation_text_ascii; [done|done|by eapply event_types_ascii|].
    destruct f as [f|]; [|done]. eapply filter_str_ascii; [|exact Hf].
    apply (forallb_sub _ _ (collect_and_predicates j)); [by intros q [_ Hq]%list_elem_of_filter|done].
  - apply bind_Some in H as (x & Hx & H). apply metric_value_elem in Hx as (i & Hin & Hix).
    eapply emit_ascii; [|exact H]. apply unwrap_ascii. by eapply items_ascii.
  - apply bind_Some in H as (x & Hx & H). apply first_item_elem in Hx as (i & x' & Hin & Hix & Hsd).
    destruct (is_sum_div_sum _); [|done]. injection Hsd as ->. pose proof (items_ascii _ _ _ Hi Hin Hix) as Hxa%unwrap_ascii.
    destruct (unwrap_nested x) as [ | | |l op r| | | | | | | | | | | | | |]; try done. destruct op; try done.
    cbn [expr_ascii] in Hxa. apply andb_prop in Hxa as [Hl Hr].
    assert (∀ x s, expr_ascii x = true → extract_sum_pivot_id (unwrap_nested x) = Some s → ascii_text s = true) as Hsum.
    { intros y t Hy%unwrap_ascii Ht. unfold extract_sum_pivot_id in Ht.
      destruct (unwrap_nested y) as [ | | | | | | | | | | | |f| | | | |]; try done. destruct (named _ _); [|done].
      apply bind_Some in Ht as (a & Ha & Ht). eapply pivot_t2_ascii; [|exact Ht]. apply unwrap_ascii. by eapply first_arg_ascii. }
    apply bind_Some in H as (ni & Hni & H). apply bind_Some in H as (di & Hdi & H). injection H as <-.
    change (ascii_text (lit "ratio(@" ++ ni ++ lit ", @" ++ di ++ lit ")") = true).
    by rewrite !ascii_app, (Hsum l ni), (Hsum r di).
Qed.

(** Classification ends: whatever the SQL parser answers for a text, if the texts of the
    statement are ASCII then the classification is a result, never a panic. *)
Theorem classification_total parse_sql sql original db :
  texts_ok db → (∀ stmts stmt, parse_sql sql = inr stmts → stmt ∈ stmts → stmt_ascii stmt = true) →
  returns (classify_and_translate parse_sql sql original db).
Proof.
  intros Ht Hp. unfold classify_and_translate. destruct (trim_is_empty sql); [done|]. unfold parse_or_tier3.
  destruct (parse_sql sql) as [e|[|stmt stmts]]; [done..|]. specialize (Hp _ stmt eq_refl (list_elem_of_here _ _)).
  destruct (extract_shape stmt) as [h|]; [|done]. apply bind_returns.
  - destruct (is_tier1_shape h); [|done]. unfold Tier1.translate. destruct (candidate stmt h original) as [c|] eqn:Hc; [|done].
    destruct (candidate_ascii _ _ _ _ Hp Hc) as [Ha He]. apply validated_returns; [done|by rewrite He|done].
  - intros [p|] _; [done|]. apply bind_returns; [|done]. unfold Tier2.translate.
    destruct (metricql_of stmt h) as [[e why]|] eqn:Hm; [|done]. pose proof (metricql_of_ascii _ _ _ _ Hp Hm) as Ha%ascii_valid.
    pose proof (validate_metricql_returns e None Ha) as Hr. destruct (validate_metricql e None); try done.
    by apply validated_returns.
Qed.

(** ** A query and its classification *)

(** [SELECT AVG(watch_time) AS metric_value FROM delta.metric_events
     WHERE event_type = 'playback' AND platform = 'tv']. *)
Definition tv_query : Statement :=
  SQuery (mk_query false (SetSelect
    (mk_select [ExprWithAlias (call "AVG" [col "watch_time"]) (lit "metric_value")]
       [mk_table (Table (lit "delta.metric_events")) []]
       (Some (EBinaryOp (equals "event_type" "playback") BAnd (equals "platform" "tv"))) false))).

Definition parse_tv (sql : str) : str + list Statement := inr [tv_query].

Lemma migration_sound_witness : ∃ r m,
  classify_and_translate parse_tv (lit "SELECT 1") sample_original (∅ : Metrics) = Ok r ∧ proposal_of r = Some m ∧
  derived sample_original m ∧ proposed_type r = Some (metric_type (definition m)) ∧ metric_valid ∅ (definition m).
Proof.
  assert (∃ m why, classify_and_translate parse_tv (lit "SELECT 1") sample_original (∅ : Metrics) = Ok (Tier1Filtered m why)) as (m & why & Hr).
  { eexists _, _. vm_compute. reflexivity. }
  destruct (migration_sound parse_tv (lit "SELECT 1") sample_original ∅ _ m Hr eq_refl) as (Hd & Ht & Hv & _).
  exists (Tier1Filtered m why), m. split_and!; [exact Hr|reflexivity|exact Hd|exact Ht|exact Hv].
Defined.

Lemma classification_total_witness : returns (classify_and_translate parse_tv (lit "SELECT 1") sample_original (∅ : Metrics)).
Proof.
  apply classification_total.
  - intros i r e Hr _. rewrite (lookup_empty (M:=gmap str)) in Hr. discriminate.
  - intros stmts stmt [= <-] Hs. apply list_elem_of_singleton in Hs as ->. vm_compute. reflexivity.
Defined.
