(* ===== verification/Tier1Spec.v ===== *)
(** Tier 1 keeps the value of a composite: the configuration it proposes computes what the
    SQL arithmetic computes. *)
From Stdlib Require Import Ascii String SpecFloat.
From S2P Require Import Prelude Bytes F64 Ast Lexer Parser Targeting FilterSql FilterSqlSpec MetricStore Cycle MetricDefinition SqlAst Classifier Tier1 Tier2 Migration MigrationSpec.

(** [MAX] and [MIN] are not [NULLIF]. *)
Lemma max_or_min_not_nullif {E} (f : SqlFunction E) : is_max_or_min f = true → named (lit "nullif") (f_name f) = false.
Proof.
  unfold is_max_or_min, named. intros Hm. apply bool_decide_eq_false_2. intros Hn. rewrite Hn in Hm. by vm_compute in Hm.
Qed.

Section values.
Context {V : Type} `{SqlArithLaws V} (rho : str → V).

Lemma sql_value_unwrap e : sql_value rho (unwrap_nested e) = sql_value rho e.
Proof. induction e; cbn [unwrap_nested sql_value]; auto. Qed.

Lemma pivot_value e x v : extract_pivot_metric_id e = Some x → sql_value rho e = Some v → v = rho x.
Proof.
  unfold extract_pivot_metric_id. intros Hp Hv. rewrite <- sql_value_unwrap in Hv.
  destruct (unwrap_nested e) as [ | | | | | | | | | | | |f| | | | |]; try done. destruct (is_max_or_min f) eqn:Hm; [|done].
  cbn [sql_value] in Hv. rewrite max_or_min_not_nullif in Hv by done. apply fmap_Some in Hv as (y & Hy & ->). f_equal.
  unfold pivot_of in Hy. rewrite Hm in Hy. destruct (f_over f); [done|]. unfold first_arg in Hp. cbn [andb negb] in Hy.
  destruct (f_args f) as [[|[[a| |]|] [|? ?]]|]; try done. cbn [mbind option_bind] in Hp.
  destruct a as [ | | | | | | | | | | |o cs rs el| | | | | |]; try done. cbn in Hp, Hy.
  destruct o; [done|]. destruct cs as [|c [|? ?]]; try done; destruct c as [ | | |cl cop cr| | | | | | | | | | | | | |]; try done;
  destruct cop; try done; destruct cr as [ | |[s| | |]| | | | | | | | | | | | | | |]; try done.
  destruct rs as [|res [|? ?]], el; try done. destruct (bool_decide _ && _) eqn:E; [|done]. injection Hy as ->.
  apply andb_prop in E as [Hl%bool_decide_eq_true _]. cbn in Hp. rewrite Hl in Hp. cbn in Hp.
  destruct (decide _); [|done]. by injection Hp.
Qed.

Lemma pivot_unwrap_value e x v : extract_pivot_metric_id (unwrap_nested e) = Some x → sql_value rho e = Some v → v = rho x.
Proof. rewrite <- sql_value_unwrap. apply pivot_value. Qed.

Lemma binary_value l op r v : sql_value rho (EBinaryOp l op r) = Some v →
  ∃ f x y, sql_op op = Some f ∧ sql_value rho l = Some x ∧ sql_value rho r = Some y ∧ v = f x y.
Proof.
  cbn [sql_value]. intros H1. apply bind_Some in H1 as (f & Hf & H1). apply bind_Some in H1 as (x & Hx & H1).
  apply bind_Some in H1 as (y & Hy & H1). injection H1 as <-. by exists f, x, y.
Qed.

(** A chain of additions is the sum of its leaves. *)
Lemma leaves_value e : ∀ v, sql_value rho e = Some v →
  ∃ x xs, mapM (sql_value rho) (collect_plus_leaves e) = Some (x :: xs) ∧ v = foldl plus x xs.
Proof.
  assert (∀ e v, sql_value rho e = Some v → ∃ x xs, mapM (sql_value rho) [e] = Some (x :: xs) ∧ v = foldl plus x xs) as Hone.
  { intros e' v Hv. exists v, []. split; [|done]. cbn. by rewrite Hv. }
  induction e as [e IH] using depth_ind. intros v Hv. rewrite <- sql_value_unwrap in Hv.
  pose proof (unwrap_depth e) as Hd.
  assert (collect_plus_leaves e = match unwrap_nested e with
    | EBinaryOp l BPlus r => collect_plus_leaves l ++ [r] | u => [u] end) as -> by by destruct e.
  destruct (unwrap_nested e) as [ | | |l op r| | | | | | | | | | | | | |] eqn:Eu; try by apply Hone.
  destruct op; try by apply Hone. apply binary_value in Hv as (f & x & y & [= <-] & Hx & Hy & ->).
  cbn [depth] in Hd. destruct (IH l ltac:(lia) x Hx) as (z & zs & Hz & ->). exists z, (zs ++ [y]).
  rewrite foldl_app. split; [|done]. apply mapM_Some. rewrite app_comm_cons. apply Forall2_app; [by apply mapM_Some|by repeat constructor].
Qed.

(** Leaves read as operands have the operands' values. *)
Lemma mapM_values {B} (extract : Expr → option B) (value : B → V) leaves : ∀ (os : list B) (vs : list V),
  (∀ e b v, extract e = Some b → sql_value rho e = Some v → v = value b) →
  mapM extract leaves = Some os → mapM (sql_value rho) leaves = Some vs → vs = value <$> os.
Proof.
  induction leaves as [|e leaves IH]; intros os vs He Hos Hvs.
  - injection Hos as <-. by injection Hvs as <-.
  - apply mapM_Some in Hos. apply mapM_Some in Hvs. inversion Hos as [|? o ? os' Ho Hos']; inversion Hvs as [|? w ? vs' Hw Hvs']; subst.
    cbn [fmap list_fmap]. f_equal; [by eapply He|]. apply IH; [done|by apply mapM_Some|by apply mapM_Some].
Qed.

Lemma weighted_term_value e o v : weighted_term e = Some o → sql_value rho e = Some v → v = operand_value rho OpWeightedSum o.
Proof.
  unfold weighted_term. intros Ho Hv. rewrite <- sql_value_unwrap in Hv.
  assert (∀ e w v, extract_number_literal (unwrap_nested e) = Some w → sql_value rho e = Some v → v = num w) as Hnum.
  { intros e' w v' Hn Hv'. rewrite <- sql_value_unwrap in Hv'.
    destruct (unwrap_nested e') as [ | |[|n| |]| | | | | | | | | | | | | | |]; try done. cbn in Hn, Hv'. rewrite Hn in Hv'. by injection Hv'. }
  destruct (unwrap_nested e) as [ | | |l op r| | | | | | | | | | | | | |]; try done. destruct op; try done.
  apply binary_value in Hv as (f & x & y & [= <-] & Hx & Hy & ->).
  destruct (extract_number_literal (unwrap_nested l)) as [w|] eqn:Hl.
  - apply bind_Some in Ho as (id & Hid & [= <-]). cbn. by rewrite (Hnum l w x), (pivot_unwrap_value r id y).
  - apply bind_Some in Ho as (w & Hw & Ho). apply bind_Some in Ho as (id & Hid & [= <-]). cbn.
    rewrite times_comm. by rewrite (Hnum r w y), (pivot_unwrap_value l id x).
Qed.

Lemma sum_value op (extract : Expr → option (str * f64)) e os v : composite_op op = Some plus →
  (∀ e o v, extract e = Some o → sql_value rho e = Some v → v = operand_value rho op o) →
  mapM extract (collect_plus_leaves e) = Some os → sql_value rho e = Some v → composite_value rho op os = Some v.
Proof.
  intros Hop He Hos (x & xs & Hxs & ->)%leaves_value. unfold composite_value. rewrite Hop. cbn [mbind option_bind].
  by rewrite <- (mapM_values extract (operand_value rho op) _ _ _ He Hos Hxs).
Qed.

Lemma pair_value op a b p f x y : pair_of op a b = Some p → composite_op op = Some f → op ≠ OpWeightedSum →
  (∀ s, a = Some s → x = rho s) → (∀ s, b = Some s → y = rho s) → composite_value rho p.1 p.2 = Some (f x y).
Proof.
  unfold pair_of. intros Hp Hf Hw Hx Hy. apply bind_Some in Hp as (s & Hs & Hp). apply bind_Some in Hp as (t & Ht & [= <-]).
  cbn [fst snd]. unfold composite_value. rewrite Hf. cbn. rewrite (Hx s), (Hy t) by done. by destruct op.
Qed.

Lemma add_value e p v : add_of e = Some p → sql_value rho e = Some v → composite_value rho p.1 p.2 = Some v.
Proof.
  unfold add_of. intros Hp Hv. apply bind_Some in Hp as (os & Hos & Hp). destruct (2 <=? _); [|done]. injection Hp as <-.
  unfold try_add in Hos. cbn [fst snd]. eapply sum_value; [done| |exact Hos|exact Hv].
  intros e' o w Ho Hw. apply fmap_Some in Ho as (x & Hx & ->). by eapply pivot_unwrap_value.
Qed.

(** A divisor under NULLIF or not, read as a pivot. *)
Lemma divisor_value r x y z : extract_pivot_metric_id (unwrap_nullif_pivot (unwrap_nested r)) = Some x → sql_value rho r = Some y →
  divide z (nullif0 (rho x)) = divide z y.
Proof.
  intros Hx Hy. rewrite <- sql_value_unwrap in Hy.
  destruct (unwrap_nested r) as [ | | | | | | | | | | | |f| | | | |] eqn:Er; try (rewrite <- (pivot_value _ x y Hx Hy); apply divide_nullif0).
  cbn [unwrap_nullif_pivot] in Hx. cbn [sql_value] in Hy. destruct (named (lit "nullif") (f_name f)) eqn:En.
  - unfold first_arg in Hx. destruct (f_args f) as [[|[[a| |]|] [|[[b| |]|] [|? ?]]]|] eqn:Ea; try done.
    destruct (is_zero_literal b); [|done]. apply fmap_Some in Hy as (w & Hw & ->). cbn [default] in Hx.
    by rewrite <- (pivot_value a x w Hx Hw).
  - rewrite <- (pivot_value (EFunction f) x y Hx); [apply divide_nullif0|]. cbn [sql_value]. by rewrite En.
Qed.

Lemma composite_preserved_unwrapped e p v : unwrap_nested e = e → extract_composite_op_and_operands e = Some p →
  sql_value rho e = Some v → composite_value rho p.1 p.2 = Some v.
Proof.
  intros Hu Hp Hv. unfold extract_composite_op_and_operands in Hp. rewrite Hu in Hp.
  destruct (try_weighted_sum e) as [os|] eqn:Hw.
  { injection Hp as <-. unfold try_weighted_sum in Hw. destruct (_ <? 2); [done|].
    eapply sum_value; [done|exact weighted_term_value|exact Hw|done]. }
  destruct e as [ | | |l op r| | | | | | | | | | | | | |]; try by eapply add_value.
  destruct op; try by eapply add_value.
  - apply binary_value in Hv as (f & x & y & [= <-] & Hx & Hy & ->). eapply pair_value; [done..| |]; intros s Hs; by eapply pivot_unwrap_value.
  - destruct (pair_of OpMultiply _ _) as [q|] eqn:Hq; [|by eapply add_value]. injection Hp as ->.
    apply binary_value in Hv as (f & x & y & [= <-] & Hx & Hy & ->). eapply pair_value; [done..| |]; intros s Hs; by eapply pivot_unwrap_value.
  - apply binary_value in Hv as (f & x & y & [= <-] & Hx & Hy & ->). unfold pair_of in Hp.
    apply bind_Some in Hp as (s & Hs & Hp). apply bind_Some in Hp as (t & Ht & [= <-]). cbn.
    by rewrite (pivot_unwrap_value l s x), (divisor_value r t y).
Qed.

Lemma composite_preserved e p v : extract_composite_op_and_operands e = Some p →
  sql_value rho e = Some v → composite_value rho p.1 p.2 = Some v.
Proof.
  intros Hp Hv. apply (composite_preserved_unwrapped (unwrap_nested e)).
  - apply unwrap_idem.
  - unfold extract_composite_op_and_operands in *. by rewrite unwrap_idem.
  - by rewrite sql_value_unwrap.
Qed.

(** [C11] Tier 1 preserves composites: if the classification of a query over metric summaries
    proposes a COMPOSITE, and the selected expression is arithmetic over pivoted metrics with
    a value, then the proposed operator over the proposed operands has that value (weights
    commuted to the front, NULLIF moved onto every divisor, chains of additions flattened). *)
Theorem tier1_composite_preserved stmt original p e v :
  translate_composite stmt original = Some p →
  extract_select stmt ≫= (λ s, find_metric_value_expr (projection s)) = Some e → sql_value rho e = Some v →
  ∃ cfg op, type_config (definition (proposed p)) = Some (TypeComposite cfg) ∧
    MetricStore.operator cfg = operator_number op ∧
    composite_value rho op ((λ o, (operand_id o, operand_weight o)) <$> operands cfg) = Some v.
Proof.
  unfold translate_composite. intros Hp He Hv. apply bind_Some in Hp as (s & Hs & Hp). rewrite Hs in He. cbn in He.
  rewrite He in Hp. cbn [mbind option_bind] in Hp. apply bind_Some in Hp as ([op os] & Hos & Hp).
  destruct (_ <? 2); [done|]. destruct (_ && _); [done|]. injection Hp as <-.
  eexists _, op. split_and!; [done..|]. cbn [operands]. rewrite <- list_fmap_compose.
  rewrite (list_fmap_ext _ id) by by intros ? []. rewrite list_fmap_id.
  apply (composite_preserved _ (op, os) v Hos). by rewrite sql_value_unwrap.
Qed.
End values.

(** [a * 0.5 + 0.25 * b]. *)
Definition weighted_expr : Expr :=
  EBinaryOp (EBinaryOp (pivot "a") BMultiply (number "0.5")) BPlus
    (ENested (EBinaryOp (number "0.25") BMultiply (pivot "b"))).

Lemma tier1_composite_preserved_witness : ∃ p cfg op,
  translate_composite (summaries_query weighted_expr) sample_original = Some p ∧
  type_config (definition (proposed p)) = Some (TypeComposite cfg) ∧ MetricStore.operator cfg = operator_number op ∧
  composite_value sample_rho op ((λ o, (operand_id o, operand_weight o)) <$> operands cfg)
    = Some (f64_parse (lit "2.5")).
Proof.
  eexists _. destruct (tier1_composite_preserved sample_rho (summaries_query weighted_expr) sample_original _ weighted_expr
    (Some (f64_add (f64_mul (f64_of_Z 4) (default f64_zero (f64_parse (lit "0.5"))))
       (f64_mul (default f64_zero (f64_parse (lit "0.25"))) (f64_of_Z 2))))
    ltac:(vm_compute; reflexivity) ltac:(vm_compute; reflexivity) ltac:(vm_compute; reflexivity)) as (cfg & op & H1 & H2 & H3).
  exists cfg, op. split_and!; [vm_compute; reflexivity|exact H1|exact H2|]. rewrite H3. vm_compute. reflexivity.
Defined.
