(* ===== verification/Tier2Spec.v ===== *)
(** Tier 2 keeps the value of arithmetic: the MetricQL text it writes parses, and the tree
    computes what the SQL computes; and the text of an aggregation parses to that
    aggregation. *)
From Stdlib Require Import Ascii String SpecFloat.
From S2P Require Import Prelude Bytes F64 Targeting FilterSql FilterSqlSpec MetricStore Cycle MetricDefinition Ast Lexer Parser Grammar ParserSpec SqlAst Classifier Tier1 Tier2 Migration MigrationSpec Tier1Spec.

(** ** Texts and tokens *)

(** What may follow a word or a numeral that must end here. *)
Definition stops (rest : str) : bool :=
  match rest with [] => true | c :: _ => is_byte " " c || is_byte "(" c || is_byte ")" c || is_byte "]" c || is_byte "," c end.

Lemma stops_head rest : stops rest = true →
  head_is is_ident_char rest = false ∧ head_is is_ascii_digit rest = false ∧ head_is (is_byte ".") rest = false.
Proof.
  destruct rest as [|c rest]; [done|]. cbn [stops]. unfold head_is, byte_at_is. cbn [lookup list_lookup]. byte_dec c.
Qed.

(** The text [s], before anything that ends a word, lexes to tokens of [D]. *)
Definition lexed (D : list Token → Prop) (s : str) : Prop :=
  ascii_text s = true ∧
  ∀ p rest ts, stops rest = true → lexes (p + length s) rest (inr ts) →
  ∃ body, lexes p (s ++ rest) (inr (body ++ ts)) ∧ D body.

Lemma lexed_mono (D D' : list Token → Prop) s : (∀ ts, D ts → D' ts) → lexed D s → lexed D' s.
Proof. intros Hd [Ha Hl]. split; [done|]. intros p rest ts Hs Hr. destruct (Hl p rest ts Hs Hr) as (b & ? & ?). eauto. Qed.

(** One lexeme. *)
Definition one (k : TokenKind) (v : str) (ts : list Token) : Prop := ∃ sp, ts = [mk_token k v sp].

Lemma lexed_munch k v : ascii_text v = true → (∀ rest, stops rest = true → munch k v rest) → lexed (one k v) v.
Proof.
  intros Ha Hm. split; [done|]. intros p rest ts Hs Hr. eexists [_]. split; [|by eexists].
  cbn [app]. apply lexes_token; [by apply Hm|exact Hr].
Qed.

(** Texts one after the other: a space between them, or the second one ends the first. *)
Lemma lexed_app (D1 D2 D : list Token → Prop) s1 s2 :
  lexed D1 s1 → lexed D2 s2 → (∀ rest, stops rest = true → stops (s2 ++ rest) = true) →
  (∀ ts1 ts2, D1 ts1 → D2 ts2 → D (ts1 ++ ts2)) → lexed D (s1 ++ s2).
Proof.
  intros [Ha1 H1] [Ha2 H2] Hst HD. split; [by rewrite ascii_app, Ha1|]. intros p rest ts Hs Hr.
  rewrite length_app, Nat.add_assoc in Hr. destruct (H2 _ rest ts Hs Hr) as (b2 & Hb2 & HD2).
  destruct (H1 p (s2 ++ rest) (b2 ++ ts)) as (b1 & Hb1 & HD1); [by apply Hst|done|].
  exists (b1 ++ b2). rewrite <- !app_assoc. split; [done|by apply HD].
Qed.

Lemma lexed_space D s : lexed D s → lexed D (lit " " ++ s).
Proof.
  intros [Ha Hl]. split; [done|]. intros p rest ts Hs Hr. change (length (lit " " ++ s)) with (S (length s)) in Hr.
  rewrite Nat.add_succ_r, <- Nat.add_succ_l in Hr. destruct (Hl _ rest ts Hs Hr) as (b & Hb & HD). exists b.
  split; [|done]. change ((lit " " ++ s) ++ rest) with (" "%char :: s ++ rest). by apply lexes_ws.
Qed.

Lemma lexed_spaced (D1 D2 D : list Token → Prop) s1 s2 : lexed D1 s1 → lexed D2 s2 →
  (∀ ts1 ts2, D1 ts1 → D2 ts2 → D (ts1 ++ ts2)) → lexed D (s1 ++ lit " " ++ s2).
Proof. intros H1 H2%lexed_space HD. by eapply lexed_app. Qed.

(** The tokens of one text, then of another. *)
Definition both (D1 D2 : list Token → Prop) (ts : list Token) : Prop := ∃ t1 t2, ts = t1 ++ t2 ∧ D1 t1 ∧ D2 t2.

Lemma lexed_both D1 D2 s1 s2 : lexed D1 s1 → lexed D2 s2 → lexed (both D1 D2) (s1 ++ lit " " ++ s2).
Proof. intros H1 H2. eapply lexed_spaced; [exact H1|exact H2|]. intros ts1 ts2 Ht1 Ht2. by exists ts1, ts2. Qed.

(** A punctuation byte needs nothing after it. *)
Lemma lexed_punct (D1 D : list Token → Prop) c k s : punct_kind c = Some k → is_ascii c = true → lexed D1 s →
  (∀ ts1 ts, one k [c] ts1 → D1 ts → D (ts1 ++ ts)) → lexed D ([c] ++ s).
Proof.
  intros Hk Hc [Ha Hl] HD. split; [by rewrite ascii_app, Ha; cbn; rewrite Hc|]. intros p rest ts Hs Hr.
  rewrite length_app, Nat.add_assoc in Hr. destruct (Hl _ rest ts Hs Hr) as (b & Hb & HDb).
  eexists ([_] ++ b). split; [|apply HD; [by eexists|done]]. rewrite <- !app_assoc. apply lexes_token; [by constructor|exact Hb].
Qed.

Lemma lexed_char c k : punct_kind c = Some k → is_ascii c = true → lexed (one k [c]) [c].
Proof. intros Hk Hc. apply lexed_munch; [cbn; by rewrite Hc|]. intros rest _. by constructor. Qed.

Lemma munch_name x rest : is_metric_name x = true → stops rest = true → munch Ident x rest.
Proof.
  unfold is_metric_name. intros [Hx Hk%negb_true_iff]%andb_prop (Hr & _ & _)%stops_head.
  destruct x as [|c t]; [done|]. cbn [is_ident_text] in Hx. apply andb_prop in Hx as [Hc Ht].
  pose proof (munch_word c t rest Hc Ht Hr) as Hm. by rewrite Hk in Hm.
Qed.

Lemma munch_keyword x rest : x ∈ reserved_keywords → is_ident_text x = true → stops rest = true → munch Keyword x rest.
Proof.
  intros Hk Hx (Hr & _ & _)%stops_head. destruct x as [|c t]; [done|]. apply andb_prop in Hx as [Hc Ht].
  pose proof (munch_word c t rest Hc Ht Hr) as Hm. by rewrite bool_decide_eq_true_2 in Hm.
Qed.

Lemma numeral_split v : is_numeral v = true →
  (∃ c ds, v = c :: ds ∧ forallb is_ascii_digit (c :: ds) = true) ∨
  (∃ c ds d fs, v = (c :: ds) ++ "."%char :: d :: fs ∧ forallb is_ascii_digit (c :: ds) = true ∧ forallb is_ascii_digit (d :: fs) = true).
Proof.
  unfold is_numeral, numeral_parts. set (n := prefix_len is_ascii_digit v). intros Hv.
  pose proof (prefix_len_take is_ascii_digit v) as Ht. fold n in Ht. rewrite <- (take_drop n v).
  destruct (take n v) as [|c ds] eqn:Et; [done|]. cbn [andb negb] in Hv.
  destruct (drop n v) as [|dot fs]; [left; exists c, ds; by rewrite app_nil_r|].
  right. apply andb_prop in Hv as [_ Hv]. apply andb_prop in Hv as [[Hdot Hfs]%andb_prop Hd].
  destruct fs as [|d fs]; [done|]. exists c, ds, d, fs. split; [|done].
  assert (dot = "."%char) as ->; [|done]. revert Hdot. byte_dec dot.
Qed.

Lemma munch_numeral v rest : is_numeral v = true → stops rest = true → munch Number v rest.
Proof.
  intros Hv (_ & Hd & Hdot)%stops_head. destruct (numeral_split v Hv) as [(c & ds & -> & Hc)|(c & ds & d & fs & -> & Hc & Hf)].
  - apply munch_int; [done|done|]. by rewrite Hdot.
  - by apply munch_frac.
Qed.

(** A whole text whose tokens are an expression parses to it. *)
Lemma lexed_parses (P : Node → Prop) s : lexed (λ ts, ∃ n, d_expression ts n ∧ P n) s → ∃ n, parse s = Ok n ∧ P n.
Proof.
  intros [Ha Hl]. destruct (Hl 0 [] [mk_token Eof [] (mk_span (0 + length s) (0 + length s))] eq_refl) as (b & Hb & n & Hn & HP).
  { constructor. }
  exists n. split; [|done]. rewrite app_nil_r in Hb. pose proof (lexes_tokenize s _ (ascii_valid s Ha) Hb) as Ht.
  rewrite (parse_as_tokens _ _ Ht). by apply parse_tokens_complete.
Qed.

(** ** Left association *)

Definition sum_op (op : ArithOp) (k : TokenKind) : Prop := (op = Add ∧ k = Plus) ∨ (op = Sub ∧ k = Minus).
Definition product_op (op : ArithOp) (k : TokenKind) : Prop := (op = Mul ∧ k = Star) ∨ (op = Div ∧ k = Slash).

Lemma sums_snoc op k a ts n o ts' r : sum_op op k → d_sums a ts n → tok k o → d_term ts' r →
  d_sums a (ts ++ o :: ts') (binary op n r).
Proof.
  intros Hop Hs Ho Hr. induction Hs as [n|l o' ts1 r1 ts2 n Ho' Hr1 Hs IH|l o' ts1 r1 ts2 n Ho' Hr1 Hs IH]; cbn [app].
  - rewrite <- (app_nil_r ts'). destruct Hop as [[-> ->]|[-> ->]]; [apply (dsm_add _ _ _ r)|apply (dsm_sub _ _ _ r)]; try done; constructor.
  - rewrite <- app_assoc. by apply (dsm_add _ _ _ r1).
  - rewrite <- app_assoc. by apply (dsm_sub _ _ _ r1).
Qed.

Lemma composite_snoc op k ts n o ts' r : sum_op op k → d_composite ts n → tok k o → d_term ts' r →
  d_composite (ts ++ o :: ts') (binary op n r).
Proof.
  intros Hop [ts1 l ts2 m Hl Hs] Ho Hr. rewrite <- app_assoc. apply (dc_intro _ l); [done|]. by eapply sums_snoc.
Qed.

Lemma products_snoc op k a ts n o ts' r : product_op op k → d_products a ts n → tok k o → d_unary ts' r →
  d_products a (ts ++ o :: ts') (binary op n r).
Proof.
  intros Hop Hs Ho Hr. induction Hs as [n|l o' ts1 r1 ts2 n Ho' Hr1 Hs IH|l o' ts1 r1 ts2 n Ho' Hr1 Hs IH]; cbn [app].
  - rewrite <- (app_nil_r ts'). destruct Hop as [[-> ->]|[-> ->]]; [apply (dpr_mul _ _ _ r)|apply (dpr_div _ _ _ r)]; try done; constructor.
  - rewrite <- app_assoc. by apply (dpr_mul _ _ _ r1).
  - rewrite <- app_assoc. by apply (dpr_div _ _ _ r1).
Qed.

Lemma term_snoc op k ts n o ts' r : product_op op k → d_term ts n → tok k o → d_unary ts' r →
  d_term (ts ++ o :: ts') (binary op n r).
Proof.
  intros Hop [ts1 l ts2 m Hl Hs] Ho Hr. rewrite <- app_assoc. apply (dtm_intro _ l); [done|]. by eapply products_snoc.
Qed.

Lemma factor_term ts n : d_factor ts n → d_term ts n.
Proof. intros Hf. rewrite <- (app_nil_r ts). eapply dtm_intro; [by apply du_factor|constructor]. Qed.

Lemma term_composite ts n : d_term ts n → d_composite ts n.
Proof. intros Hf. rewrite <- (app_nil_r ts). eapply dc_intro; [done|constructor]. Qed.

(** ** Arithmetic *)

Section values.
Context {V : Type} `{SqlArithLaws V} (rho : str → V).

(** Tokens of a production, for a tree of a value. *)
Definition valued (D : list Token → Node → Prop) (v : V) (ts : list Token) : Prop :=
  ∃ n, D ts n ∧ node_value rho n = Some v.

(** The production the text of an expression belongs to. *)
Definition level (e : Expr) : list Token → Node → Prop :=
  match unwrap_nested e with
  | EBinaryOp _ (BPlus | BMinus) _ => d_composite
  | EBinaryOp _ _ _ => d_term
  | _ => d_factor
  end.

Lemma valued_mono (D D' : list Token → Node → Prop) v s : (∀ ts n, D ts n → D' ts n) → lexed (valued D v) s → lexed (valued D' v) s.
Proof. intros Hd. apply lexed_mono. intros ts (n & ? & ?). exists n. auto. Qed.

Lemma level_composite e v s : lexed (valued (level e) v) s → lexed (valued d_composite v) s.
Proof.
  apply valued_mono. intros ts n. unfold level.
  destruct (unwrap_nested e) as [ | | |l op r| | | | | | | | | | | | | |]; try match goal with o : BinaryOperator |- _ => destruct o end; try done; auto using factor_term, term_composite.
Qed.

Lemma level_term e v s : inner_is_additive (unwrap_nested e) = false → lexed (valued (level e) v) s → lexed (valued d_term v) s.
Proof.
  intros Hi. apply valued_mono. intros ts n. unfold level.
  destruct (unwrap_nested e) as [ | | |l op r| | | | | | | | | | | | | |]; try match goal with o : BinaryOperator |- _ => destruct o end; try done; auto using factor_term.
Qed.

Lemma restamp_value n sp : node_value rho (restamp_span n sp) = node_value rho n.
Proof. by destruct n. Qed.

Lemma lexed_parens v s : lexed (valued d_composite v) s → lexed (valued d_factor v) (lit "(" ++ s ++ lit ")").
Proof.
  intros Hs. eapply (lexed_punct (λ ts, ∃ ts1 rp n, ts = ts1 ++ [rp] ∧ tok RParen rp ∧ d_composite ts1 n ∧ node_value rho n = Some v)); [done|done| |].
  - eapply (lexed_app _ _ _ s (lit ")") Hs (lexed_char ")" RParen eq_refl eq_refl)); [by intros [|? ?]|].
    intros ts1 ts2 (n & Hn & Hv) (sp & ->). eexists _, _, n. by split_and!.
  - intros ts1 ts (sp & ->) (ts2 & rp & n & -> & Hrp & Hn & Hv). eexists. cbn [app].
    split; [by apply dfa_parens|]. by rewrite restamp_value.
Qed.

(** The operands of a product or quotient. *)
Lemma left_of_product l v s : lexed (valued (level l) v) s →
  lexed (valued d_term v) (parenthesized (inner_is_additive (unwrap_nested l)) s).
Proof.
  intros Hs. destruct (inner_is_additive _) eqn:Hi; [|by eapply level_term].
  eapply valued_mono; [by apply factor_term|]. by eapply lexed_parens, level_composite.
Qed.

Lemma right_of_product op r v s : is_mul_or_div op = true → right_fits op r = true → sql_value rho r = Some v →
  lexed (valued (level r) v) s → lexed (valued d_factor v) (parenthesized (inner_is_additive (unwrap_nested r)) s).
Proof.
  intros Hop Hfit Hv Hs. destruct (inner_is_additive _) eqn:Hi; [by eapply lexed_parens, level_composite|]. cbn [parenthesized].
  revert Hs. apply valued_mono. intros ts n. unfold level. unfold right_fits in Hfit. rewrite <- sql_value_unwrap in Hv.
  destruct (unwrap_nested r) as [ | | |l o r'| | | | | | | | | | | | | |]; try done.
  apply binary_value in Hv as (f & _ & _ & Hf & _). by destruct op, o.
Qed.

(** An operator between its operands. *)
Lemma lexed_operator (D1 D2 D : list Token → Prop) c k s1 s2 : punct_kind c = Some k → is_ascii c = true → lexed D1 s1 → lexed D2 s2 →
  (∀ ts1 o ts2, D1 ts1 → tok k o → D2 ts2 → D (ts1 ++ o :: ts2)) → lexed D (words [s1; [c]; s2]).
Proof.
  intros Hk Hc H1 H2 HD. change (words [s1; [c]; s2]) with (s1 ++ lit " " ++ [c] ++ lit " " ++ s2).
  eapply lexed_spaced; [exact H1| |].
  - eapply (lexed_spaced (one k [c]) D2 (λ ts, ∃ o ts2, ts = o :: ts2 ∧ tok k o ∧ D2 ts2)); [by apply lexed_char|exact H2|].
    intros ts1 ts2 (sp & ->) Ht. by eexists _, ts2.
  - intros ts1 ts Ht1 (o & ts2 & -> & Ho & Ht2). by apply HD.
Qed.

Lemma lexed_sum op k c x y s1 s2 f : sum_op op k → arith_op op = Some f → punct_kind c = Some k → is_ascii c = true →
  lexed (valued d_composite x) s1 → lexed (valued d_term y) s2 → lexed (valued d_composite (f x y)) (words [s1; [c]; s2]).
Proof.
  intros Hop Hf Hk Hc H1 H2. eapply lexed_operator; [done|done|exact H1|exact H2|]. intros ts1 o ts2 (n & Hn & Hx) Ho (r & Hr & Hy).
  exists (binary op n r). split; [by eapply composite_snoc|]. cbn [node_value binary]. by rewrite Hf, Hx, Hy.
Qed.

Lemma lexed_product op k c x y s1 s2 f : product_op op k → arith_op op = Some f → punct_kind c = Some k → is_ascii c = true →
  lexed (valued d_term x) s1 → lexed (valued d_factor y) s2 → lexed (valued d_term (f x y)) (words [s1; [c]; s2]).
Proof.
  intros Hop Hf Hk Hc H1 H2. eapply lexed_operator; [done|done|exact H1|exact H2|]. intros ts1 o ts2 (n & Hn & Hx) Ho (r & Hr & Hy).
  exists (binary op n r). split; [eapply term_snoc; [done..|by apply du_factor]|]. cbn [node_value binary]. by rewrite Hf, Hx, Hy.
Qed.

(** References and literals. *)
Lemma pivot_of_extracted f x : pivot_of f = Some x → extract_pivot_metric_id_t2 (EFunction f) = Some x.
Proof.
  unfold pivot_of. cbn [extract_pivot_metric_id_t2 unwrap_nested]. destruct (is_max_or_min f); [|done]. destruct (f_over f); [done|].
  unfold first_arg. cbn [andb negb]. destruct (f_args f) as [[|[[a| |]|] [|? ?]]|]; try done. cbn [mbind option_bind].
  destruct a as [ | | | | | | | | | | |o cs rs el| | | | | |]; try done. cbn. destruct o; [done|].
  destruct cs as [|c [|? ?]]; try done; destruct c as [ | | |cl cop cr| | | | | | | | | | | | | |]; try done;
    destruct cop; try done; destruct cr as [ | |[t| | |]| | | | | | | | | | | | | | |]; try done.
  destruct rs as [|r [|? ?]], el; try done. destruct (bool_decide _ && _) eqn:E; [|done]. intros [= ->].
  apply andb_prop in E as [Hl%bool_decide_eq_true _]. cbn. rewrite Hl. cbn. by destruct (decide _).
Qed.

Lemma ident_ascii c : is_ident_char c = true → is_ascii c = true.
Proof. byte_dec c. Qed.

Lemma name_ascii x : is_metric_name x = true → ascii_text x = true.
Proof.
  unfold is_metric_name. intros [Hx _]%andb_prop. destruct x as [|c t]; [done|]. apply andb_prop in Hx as [Hc Ht].
  apply forallb_forall. rewrite forallb_forall in Ht. intros d [<-|Hd]; apply ident_ascii; [by apply ident_start_char|by apply Ht].
Qed.

Lemma lexed_name x : is_metric_name x = true → lexed (one Ident x) x.
Proof. intros Hx. apply lexed_munch; [by apply name_ascii|]. intros rest. by apply munch_name. Qed.

Lemma lexed_ref x : is_metric_name x = true → lexed (valued d_factor (rho x)) (lit "@" ++ x).
Proof.
  intros Hx. eapply (lexed_punct _ _ "@"); [done|done|by apply lexed_name|]. intros ts1 ts (sp & ->) (sp' & ->).
  eexists. split; [by apply dfa_ref, dr_intro|done].
Qed.

Lemma numeral_ascii v : is_numeral v = true → ascii_text v = true.
Proof.
  assert (∀ ds, forallb is_ascii_digit ds = true → ascii_text ds = true) as Hd.
  { intros ds. unfold ascii_text. rewrite !forallb_forall. intros H1 c Hc. by apply digit_ascii, H1. }
  intros [(c & ds & -> & Hc)|(c & ds & d & fs & -> & Hc & Hf)]%numeral_split; [by apply Hd|].
  rewrite ascii_app, Hd by done. change (ascii_text (lit "." ++ d :: fs) = true). rewrite ascii_app. by rewrite (Hd (d :: fs)).
Qed.

Lemma lexed_numeral v : is_numeral v = true → lexed (one Number v) v.
Proof. intros Hv. apply lexed_munch; [by apply numeral_ascii|]. intros rest. by apply munch_numeral. Qed.

Lemma lexed_literal n : literal_kept n = true → ∃ w, f64_parse n = Some w ∧ lexed (valued d_factor (num w)) (format_number w).
Proof.
  unfold literal_kept. destruct (f64_parse n) as [w|]; [|done]. intros [Hn Hw%bool_decide_eq_true]%andb_prop. exists w.
  split; [done|]. eapply lexed_mono; [|by apply lexed_numeral]. intros ts (sp & ->). eexists. split; [by apply dfa_number|done].
Qed.

Lemma grouped_unwrap e : grouped (unwrap_nested e) = grouped e.
Proof. induction e; cbn [unwrap_nested grouped]; auto. Qed.

Lemma level_unwrap e : level (unwrap_nested e) = level e.
Proof. unfold level. by rewrite unwrap_idem. Qed.

(** What a grouped expression with a value prints as. *)
Definition prints (e : Expr) : Prop :=
  ∀ v, grouped e = true → sql_value rho e = Some v → ∃ s, emit_metricql_expr e = Some s ∧ lexed (valued (level e) v) s.

(** A divisor: the operand under NULLIF, with the same quotient. *)
Lemma divisor_fits r y : right_fits BDivide r && grouped r = true → sql_value rho r = Some y →
  actual_right BDivide r = unwrap_nested r.
Proof.
  intros [_ Hg]%andb_prop Hy. cbn [actual_right]. unfold unwrap_nullif. rewrite unwrap_idem. rewrite <- grouped_unwrap in Hg.
  destruct (unwrap_nested r) as [ | | | | | | | | | | | |f| | | | |]; try done. cbn [grouped] in Hg. unfold pivot_of in Hg.
  destruct (is_max_or_min f) eqn:Hm; [|done]. by rewrite max_or_min_not_nullif.
Qed.

Lemma divisor_operand l r y : grouped (EBinaryOp l BDivide r) = true → sql_value rho r = Some y →
  ∃ a z, actual_right BDivide r = unwrap_nested a ∧ grouped a = true ∧ right_fits BDivide a = true ∧ sql_value rho a = Some z ∧
    ∀ x, divide x (nullif0 z) = divide x y.
Proof.
  cbn [grouped]. intros [_ Hr]%andb_prop Hy.
  assert (right_fits BDivide r && grouped r = true → ∃ a z, actual_right BDivide r = unwrap_nested a ∧ grouped a = true ∧
    right_fits BDivide a = true ∧ sql_value rho a = Some z ∧ ∀ x, divide x (nullif0 z) = divide x y) as Hplain.
  { intros Hf. pose proof (divisor_fits r y Hf Hy). apply andb_prop in Hf as [? ?]. exists r, y. split_and!; [done..|]. intros. apply divide_nullif0. }
  destruct r as [ | | | | | | | | | | | |f| | | | |]; try by apply Hplain. destruct (named (lit "nullif") (f_name f)) eqn:En.
  - cbn [sql_value] in Hy. rewrite En in Hy. cbn [actual_right]. unfold unwrap_nullif. cbn [unwrap_nested]. rewrite En.
    destruct (f_args f) as [[|[[a| |]|] [|[[b| |]|] [|? ?]]]|]; try done. destruct (is_zero_literal b); [|done].
    apply andb_prop in Hr as [Hfit Hg]. cbn [andb] in Hfit. apply fmap_Some in Hy as (z & Hz & ->). by exists a, z.
  - by apply Hplain.
Qed.

Lemma emit_binary l op r : emit_metricql_expr (EBinaryOp l op r) =
  (op_str ← arith_str op; left_str ← emit_metricql_expr (unwrap_nested l); right_str ← emit_metricql_expr (actual_right op r);
   Some (words [parenthesized (is_mul_or_div op && inner_is_additive (unwrap_nested l)) left_str; op_str;
                parenthesized (is_mul_or_div op && inner_is_additive (actual_right op r)) right_str])).
Proof. done. Qed.

Lemma prints_unwrap e : prints (unwrap_nested e) → prints e.
Proof.
  intros Hu v Hg Hv. rewrite <- grouped_unwrap in Hg. rewrite <- sql_value_unwrap in Hv. destruct (Hu v Hg Hv) as (s & Hs & Hl).
  exists s. rewrite level_unwrap in Hl. split; [|done]. rewrite emit_eq in Hs |- *. cbv zeta in *. by rewrite unwrap_idem in Hs.
Qed.

Lemma prints_function f : prints (EFunction f).
Proof.
  intros v Hg Hv. cbn [grouped] in Hg. destruct (pivot_of f) as [x|] eqn:Hp; [|done]. cbn [sql_value] in Hv.
  assert (is_max_or_min f = true) as Hm by (unfold pivot_of in Hp; by destruct (is_max_or_min f)).
  rewrite max_or_min_not_nullif, Hp in Hv by done. injection Hv as <-. exists (lit "@" ++ x).
  split; [|by apply lexed_ref]. rewrite emit_eq. cbv zeta. cbn [unwrap_nested]. by rewrite (pivot_of_extracted f x).
Qed.

Lemma prints_sum l op r : op = BPlus ∨ op = BMinus → prints (unwrap_nested l) → prints (unwrap_nested r) → prints (EBinaryOp l op r).
Proof.
  intros Hop Hl Hr v Hg Hv. apply binary_value in Hv as (f & x & y & Hf & Hx & Hy & ->). cbn [grouped] in Hg.
  apply andb_prop in Hg as [Hgl Hgr]. assert (right_fits op r && grouped r = true) as [Hfit Hg2]%andb_prop by (by destruct Hop as [-> | ->]).
  rewrite <- grouped_unwrap in Hgl, Hg2. rewrite <- sql_value_unwrap in Hx, Hy.
  destruct (Hl x Hgl Hx) as (s1 & Hs1 & Hl1). destruct (Hr y Hg2 Hy) as (s2 & Hs2 & Hl2).
  apply level_composite in Hl1. apply level_term in Hl2; [|by unfold right_fits in Hfit; rewrite unwrap_idem; destruct Hop as [-> | ->], (unwrap_nested r) as [ | | |? [] ?| | | | | | | | | | | | | |]].
  destruct Hop as [-> | ->]; injection Hf as <-; rewrite emit_binary; cbn [actual_right]; rewrite Hs1, Hs2; cbn [mbind option_bind arith_str is_mul_or_div andb parenthesized];
    (eexists; split; [done|]); [eapply (lexed_sum Add Plus "+")|eapply (lexed_sum Sub Minus "-")]; try done; [by left|by right].
Qed.

Lemma prints_product l op r x y s1 s2 a aop f : sql_op op = Some f → is_mul_or_div op = true →
  lexed (valued (level l) x) s1 → emit_metricql_expr (unwrap_nested l) = Some s1 →
  actual_right op r = unwrap_nested a → right_fits op a = true → sql_value rho a = Some y →
  lexed (valued (level a) y) s2 → emit_metricql_expr (unwrap_nested a) = Some s2 →
  (op = BMultiply ∧ aop = Mul ∨ op = BDivide ∧ aop = Div) →
  ∃ g s, arith_op aop = Some g ∧ emit_metricql_expr (EBinaryOp l op r) = Some s ∧ lexed (valued (level (EBinaryOp l op r)) (g x y)) s.
Proof.
  intros Hf Hop Hl1 Hs1 Ha Hfit Hy Hl2 Hs2 Haop. apply left_of_product in Hl1. apply (right_of_product op) in Hl2; [|done..].
  rewrite emit_binary, Ha, Hs1, Hs2, Hop.
  destruct Haop as [[-> ->]|[-> ->]]; cbn [mbind option_bind arith_str andb]; eexists _, _; (split_and!; [done|done|]);
    [eapply (lexed_product Mul Star "*")|eapply (lexed_product Div Slash "/")]; try done; [by left|by right].
Qed.

Lemma prints_times l r : prints (unwrap_nested l) → prints (unwrap_nested r) → prints (EBinaryOp l BMultiply r).
Proof.
  intros Hl Hr v Hg Hv. apply binary_value in Hv as (f & x & y & Hf & Hx & Hy & ->). cbn [grouped] in Hg.
  apply andb_prop in Hg as [Hgl [Hfit Hgr]%andb_prop]. apply prints_unwrap in Hl, Hr.
  destruct (Hl x Hgl Hx) as (s1 & Hs1 & Hl1). destruct (Hr y Hgr Hy) as (s2 & Hs2 & Hl2).
  rewrite emit_eq, <- (unwrap_idem l), <- emit_eq in Hs1. rewrite emit_eq, <- (unwrap_idem r), <- emit_eq in Hs2.
  destruct (prints_product l BMultiply r x y s1 s2 r Mul f) as (g & s & Hg & Hs & Hlx); [done..|by left|].
  exists s. injection Hf as <-. injection Hg as <-. done.
Qed.

Lemma prints_divide l r : prints (unwrap_nested l) → (∀ a, actual_right BDivide r = unwrap_nested a → prints (unwrap_nested a)) →
  prints (EBinaryOp l BDivide r).
Proof.
  intros Hl Hr v Hg Hv. apply binary_value in Hv as (f & x & y & Hf & Hx & Hy & ->).
  destruct (divisor_operand l r y Hg Hy) as (a & z & Ha & Hga & Hfit & Hz & Hdiv). cbn [grouped] in Hg.
  apply andb_prop in Hg as [Hgl _]. specialize (Hr a Ha). apply prints_unwrap in Hl, Hr.
  destruct (Hl x Hgl Hx) as (s1 & Hs1 & Hl1). destruct (Hr z Hga Hz) as (s2 & Hs2 & Hl2).
  rewrite emit_eq, <- (unwrap_idem l), <- emit_eq in Hs1. rewrite emit_eq, <- (unwrap_idem a), <- emit_eq in Hs2.
  destruct (prints_product l BDivide r x z s1 s2 a Div f) as (g & s & Hg & Hs & Hlx); [done..|by right|].
  exists s. injection Hf as <-. injection Hg as <-. cbn beta in Hlx. rewrite Hdiv in Hlx. done.
Qed.

Lemma prints_all e : prints e.
Proof.
  induction e as [e IH] using depth_ind. apply prints_unwrap. pose proof (unwrap_depth e) as Hd.
  assert (unwrap_nested (unwrap_nested e) = unwrap_nested e) as Hi by apply unwrap_idem.
  destruct (unwrap_nested e) as [ | |v|l op r| |i| | | | | | |f| | | | |]; try (intros ? ? ?; done).
  - intros x Hg Hv. destruct v as [|n| |]; try done. cbn [grouped sql_value] in Hg, Hv.
    destruct (lexed_literal n Hg) as (w & Hw & Hl). rewrite Hw in Hv. injection Hv as <-. exists (format_number w).
    split; [|done]. rewrite emit_eq. cbv zeta. cbn [unwrap_nested extract_pivot_metric_id_t2 extract_number_literal]. by rewrite Hw.
  - cbn [depth] in Hd. pose proof (unwrap_depth l). pose proof (unwrap_depth r). pose proof (actual_right_depth BDivide r).
    assert (prints (unwrap_nested l)) by (apply IH; lia). assert (prints (unwrap_nested r)) by (apply IH; lia).
    destruct op; try (intros ? ? ?; done); try by apply prints_sum; auto. + by apply prints_times.
    + apply prints_divide; [done|]. intros a Ha. rewrite <- Ha. apply IH. lia.
  - apply (f_equal depth) in Hi. cbn [unwrap_nested depth] in Hi. pose proof (unwrap_depth i). lia.
  - apply prints_function.
Qed.

(** [C10] Tier 2 preserves arithmetic: for a selected expression that is arithmetic over pivoted
    metrics with a value, grouped the way the printer can express, the translation writes a
    MetricQL text, the text parses, and the parsed tree has that value (parentheses restored,
    the evaluator's NULLIF in place of the query's, literals read back exactly). *)
Theorem tier2_arithmetic_preserved stmt e v :
  extract_select stmt ≫= (λ s, find_metric_value_expr (projection s)) = Some e →
  grouped e = true → sql_value rho e = Some v →
  ∃ s n, translate_composite_arithmetic stmt = Some s ∧ parse s = Ok n ∧ node_value rho n = Some v.
Proof.
  intros He Hg Hv. rewrite <- grouped_unwrap in Hg. rewrite <- sql_value_unwrap in Hv.
  destruct (prints_all _ v Hg Hv) as (s & Hs & Hl%level_composite).
  destruct (lexed_parses (λ n, node_value rho n = Some v) s) as (n & Hn & Hv').
  { revert Hl. apply lexed_mono. intros ts (n & Hn & Hx). exists n. split; [by apply de_composite|done]. }
  exists s, n. split_and!; [|done|done]. unfold translate_composite_arithmetic.
  apply bind_Some in He as (q & Hq & He). by rewrite Hq; cbn; rewrite He.
Qed.
End values.

(** [(a + 1.5) * b / NULLIF(b + 2, 0) - a]. *)
Definition nested_expr : Expr :=
  EBinaryOp
    (EBinaryOp
      (EBinaryOp (ENested (EBinaryOp (pivot "a") BPlus (number "1.5"))) BMultiply (pivot "b"))
      BDivide (nullif (EBinaryOp (pivot "b") BPlus (number "2")))) BMinus (pivot "a").

Lemma tier2_arithmetic_preserved_witness : ∃ s n,
  translate_composite_arithmetic (summaries_query nested_expr) = Some s ∧ s = lit "(@a + 1.5) * @b / (@b + 2) - @a" ∧
  parse s = Ok n ∧ node_value sample_rho n = Some (f64_parse (lit "-1.25")).
Proof.
  destruct (tier2_arithmetic_preserved sample_rho (summaries_query nested_expr) nested_expr (f64_parse (lit "-1.25"))
    ltac:(vm_compute; reflexivity) ltac:(vm_compute; reflexivity) ltac:(vm_compute; reflexivity)) as (s & n & Hs & Hn & Hv).
  exists s, n. split_and!; [exact Hs| |exact Hn|exact Hv]. vm_compute in Hs. injection Hs as <-. reflexivity.
Defined.
