(* ===== verification/AggregationSpec.v ===== *)
(** Tier 2 keeps aggregations: the MetricQL text of a filtered aggregation parses to that
    aggregation, over the same events, with the conjuncts of the WHERE clause as its filter,
    and the text of a windowed count to that count with its window.

    At the end, what the migration's translations lose: queries it proposes a definition for
    whose meaning is not the query's. The source's header calls a wrong translation
    catastrophic and asks for tier 3 when in doubt. *)
From Stdlib Require Import Ascii String SpecFloat.
From S2P Require Import Prelude Bytes F64 Targeting FilterSql FilterSqlSpec MetricStore Cycle MetricDefinition Ast Lexer Parser Grammar ParserSpec SqlAst Classifier Tier1 Tier2 Migration MigrationSpec Tier1Spec Tier2Spec.

(** ** Predicates, without their spans *)

Inductive Operand := PString (s : str) | PNumber (x : f64) | PList (l : list Operand).

Fixpoint erase_value (v : Value) : Operand :=
  match v with VString s _ => PString s | VNumber n _ => PNumber n | VList l _ => PList (map erase_value l) end.

Definition Comparison : Type := FieldRef * PredOp * Operand.

Definition erase (p : Predicate) : Comparison := (pr_field p, Ast.operator p, erase_value (pr_value p)).

(** A SQL literal MetricQL can spell: an ASCII string without a quote, or a plain numeral. *)
Definition sql_literal (e : Expr) : option Operand :=
  match unwrap_nested e with
  | EValue (SingleQuotedString s) => if ascii_text s && forallb not_quote s then Some (PString s) else None
  | EValue (SqlNumber n) => if is_numeral n then PNumber <$> f64_parse n else None
  | _ => None
  end.

(** A column, by its name: SQL names do not depend on case. *)
Definition sql_column (e : Expr) : option FieldRef :=
  c ← strip_table_alias (unwrap_nested e);
  if is_metric_name (to_ascii_lowercase c) then Some (mk_field_ref [] (to_ascii_lowercase c)) else None.

Definition sql_comparison (op : BinaryOperator) : option PredOp :=
  match op with
  | BEq => Some OpEq | BNotEq => Some OpNeq | BLt => Some OpLt | BLtEq => Some OpLte | BGt => Some OpGt | BGtEq => Some OpGte
  | _ => None
  end.

(** The meaning of a conjunct: a column compared with a literal, or in a list of them. *)
Definition sql_predicate (e : Expr) : option Comparison :=
  match unwrap_nested e with
  | EBinaryOp l op r => o ← sql_comparison op; c ← sql_column l; v ← sql_literal r; Some (c, o, v)
  | EInList x l false =>
      c ← sql_column x; vs ← mapM sql_literal l;
      match vs with [] => None | _ => Some (c, OpIn, PList vs) end
  | _ => None
  end.

(** ** Their texts *)

Definition yields_value (x : Operand) (ts : list Token) : Prop := ∃ v, d_value ts v ∧ erase_value v = x.
Definition yields_items (xs : list Operand) (ts : list Token) : Prop := ∃ vs, d_items ts vs ∧ map erase_value vs = xs.
Definition yields_field (f : FieldRef) (ts : list Token) : Prop := ∃ st en, d_field_ref ts (f, st, en).
Definition yields_op (o : PredOp) (ts : list Token) : Prop := ∃ t, ts = [t] ∧ d_operator t o.
Definition yields_predicate (c : Comparison) (ts : list Token) : Prop := ∃ p, d_predicate ts p ∧ erase p = c.

Lemma simple_unwrap e : serialize_metricql_simple (unwrap_nested e) = serialize_metricql_simple e.
Proof. induction e; cbn [unwrap_nested serialize_metricql_simple]; auto. Qed.

Lemma predicate_unwrap e : serialize_metricql_predicate (unwrap_nested e) = serialize_metricql_predicate e.
Proof. induction e; cbn [unwrap_nested serialize_metricql_predicate]; auto. Qed.

Lemma strip_quotes_quoted s : strip_quotes (quoted s) = s.
Proof.
  unfold strip_quotes, quoted. change (lit "'" ++ s ++ lit "'") with ("'"%char :: s ++ ["'"%char]).
  rewrite last_cons, last_snoc. change (head_is _ _) with true. change (is_byte "'" "'") with true.
  assert (length ("'"%char :: s ++ ["'"%char]) = S (S (length s))) as -> by (cbn [length]; rewrite length_app; cbn; lia).
  cbn [andb Nat.leb drop]. rewrite drop_0. replace (S (S (length s)) - 2) with (length s) by lia. apply take_app_length.
Qed.

Lemma literal_printed e x : sql_literal e = Some x → ∃ s, serialize_metricql_simple e = Some s ∧ lexed (yields_value x) s.
Proof.
  unfold sql_literal. rewrite <- simple_unwrap. destruct (unwrap_nested e) as [ | |[s|n| |]| | | | | | | | | | | | | | |]; try done.
  - destruct (_ && _) eqn:E; [|done]. intros [= <-]. apply andb_prop in E as [Ha Hq]. exists (quoted s). split; [done|].
    eapply lexed_mono; [|apply lexed_munch].
    + intros ts (sp & ->). eexists. split; [by apply dv_string|]. cbn [erase_value value]. by rewrite strip_quotes_quoted.
    + unfold quoted. by rewrite !ascii_app, Ha.
    + intros rest _. by apply munch_string.
  - destruct (is_numeral n) eqn:E; [|done]. intros (w & Hw & ->)%fmap_Some. exists n. split; [done|].
    eapply lexed_mono; [|by apply lexed_numeral]. intros ts (sp & ->). eexists. split; [by apply dv_number|done].
Qed.

Lemma column_printed e f : sql_column e = Some f → ∃ s, serialize_metricql_simple e = Some s ∧ lexed (yields_field f) s.
Proof.
  unfold sql_column. rewrite <- simple_unwrap. intros H. apply bind_Some in H as (c & Hc & H).
  destruct (is_metric_name _) eqn:E; [|done]. injection H as <-. exists (to_ascii_lowercase c). split.
  - destruct (unwrap_nested e); try done; cbn in *; [by injection Hc as ->|by rewrite Hc].
  - eapply lexed_mono; [|by apply lexed_name]. intros ts (sp & ->). eexists _, _. by apply df_name.
Qed.

Lemma comparison_printed op o : sql_comparison op = Some o → ∃ s, comparison_str op = Some s ∧
  lexed (yields_op o) s.
Proof.
  assert (∀ k v o, ascii_text v = true → (∀ rest, stops rest = true → munch k v rest) → (∀ t, tok k t → d_operator t o) →
    lexed (yields_op o) v) as Hm.
  { intros k v o' Ha Hr Hd. eapply lexed_mono; [|by apply lexed_munch]. intros ts (sp & ->). eexists. split; [done|]. by apply Hd. }
  assert (∀ rest, stops rest = true → head_is (is_byte "=") rest = false) as Heq.
  { intros [|c rest]; [done|]. cbn [stops]. unfold head_is, byte_at_is. cbn [lookup list_lookup]. byte_dec c. }
  intros H. destruct op; try done; injection H as <-; (eexists; split; [done|]).
  - apply (Hm Eq); [done|intros; by constructor|apply do_eq].
  - apply (Hm Neq); [done|intros; by constructor|apply do_neq].
  - apply (Hm Lt); [done|intros; apply munch_lt; auto|apply do_lt].
  - apply (Hm Lte); [done|intros; by constructor|apply do_lte].
  - apply (Hm Gt); [done|intros; apply munch_gt; auto|apply do_gt].
  - apply (Hm Gte); [done|intros; by constructor|apply do_gte].
Qed.

(** Lists of literals between brackets. *)
Lemma items_printed l : ∀ xs, mapM sql_literal l = Some xs → xs ≠ [] →
  ∃ ss, mapM serialize_metricql_simple l = Some ss ∧ lexed (yields_items xs) (join (lit ", ") ss).
Proof.
  induction l as [|e l IH]; intros xs Hxs Hne; [by injection Hxs as <-|].
  apply mapM_Some in Hxs. inversion Hxs as [|? x ? xs' Hx Hxs']; subst. destruct (literal_printed e x Hx) as (s & Hs & Hl).
  destruct l as [|e' l].
  - inversion Hxs'; subst. exists [s]. split; [cbn; by rewrite Hs|]. eapply lexed_mono; [|exact Hl].
    intros ts (v & Hv & <-). exists [v]. split; [by constructor|done].
  - apply mapM_Some in Hxs'. destruct xs' as [|x' xs']; [by apply mapM_Some in Hxs'; inversion Hxs'|].
    destruct (IH (x' :: xs') Hxs') as (ss & Hss & Hls); [done|]. exists (s :: ss). split; [apply mapM_Some; constructor; [done|by apply mapM_Some]|].
    destruct ss as [|s' ss]; [by apply mapM_Some in Hss; inversion Hss|].
    change (join (lit ", ") (s :: s' :: ss)) with (s ++ ([","%char] ++ (lit " " ++ join (lit ", ") (s' :: ss)))).
    eapply lexed_app; [exact Hl|eapply (lexed_punct (yields_items (x' :: xs')) (λ ts, ∃ c ts2, ts = c :: ts2 ∧ tok Comma c ∧ yields_items (x' :: xs') ts2)); [done|done|by apply lexed_space|]|done|].
    + intros ts1 ts (sp & ->) Hts. by eexists _, ts.
    + intros ts1 ts (v & Hv & <-) (c & ts2 & -> & Hc & vs & Hvs & Hm). exists (v :: vs). split; [by apply di_more|]. cbn [map]. by rewrite Hm.
Qed.

Lemma lexed_in : lexed (yields_op OpIn) (lit "in").
Proof.
  eapply lexed_mono; [|apply (lexed_munch Keyword)]; [|done|intros; by apply munch_keyword; [apply (bool_decide_unpack _)|..]].
  intros ts (sp & ->). eexists. split; [done|]. by apply do_in.
Qed.

Lemma words3 a b c : words [a; b; c] = a ++ lit " " ++ b ++ lit " " ++ c.
Proof. done. Qed.

Lemma comparison_lexed f o x s1 s2 s3 : lexed (yields_field f) s1 → lexed (yields_op o) s2 → lexed (yields_value x) s3 →
  lexed (yields_predicate (f, o, x)) (words [s1; s2; s3]).
Proof.
  intros H1 H2 H3. rewrite words3.
  eapply lexed_mono; [|apply lexed_both; [exact H1|apply lexed_both; [exact H2|exact H3]]].
  intros ts (t1 & t23 & -> & (st & en & Hf) & t2 & t3 & -> & (o' & -> & Ho) & v & Hv & <-).
  eexists. split; [by eapply dp_intro|done].
Qed.

Lemma list_lexed xs s : xs ≠ [] → lexed (yields_items xs) s → lexed (yields_value (PList xs)) (lit "[" ++ s ++ lit "]").
Proof.
  intros _ Hs. eapply (lexed_punct (λ ts, ∃ ts1 rb, ts = ts1 ++ [rb] ∧ tok RBracket rb ∧ yields_items xs ts1)); [done|done| |].
  - eapply (lexed_app _ _ _ s (lit "]") Hs (lexed_char "]" RBracket eq_refl eq_refl)); [by intros [|? ?]|].
    intros ts1 ts2 Ht (sp & ->). by eexists _, _.
  - intros ts1 ts (sp & ->) (ts2 & rb & -> & Hrb & vs & Hvs & Hm). eexists. cbn [app]. split; [by apply dv_list|].
    cbn [erase_value]. by rewrite Hm.
Qed.

(** Every conjunct with a meaning is printed, and its text derives that comparison. *)
Lemma predicate_printed e c : sql_predicate e = Some c →
  ∃ s, serialize_metricql_predicate e = Some s ∧ lexed (yields_predicate c) s.
Proof.
  unfold sql_predicate. rewrite <- predicate_unwrap. destruct (unwrap_nested e) as [ | | |l op r| | | | | |x items neg| | | | | | | |]; try done; intros H.
  - apply bind_Some in H as (o & Ho & H). apply bind_Some in H as (f & Hf & H). apply bind_Some in H as (v & Hv & [= <-]).
    destruct (comparison_printed op o Ho) as (s2 & Hs2 & Hl2). destruct (column_printed l f Hf) as (s1 & Hs1 & Hl1).
    destruct (literal_printed r v Hv) as (s3 & Hs3 & Hl3). exists (words [s1; s2; s3]). split; [|by apply comparison_lexed].
    rewrite metricql_pred_binary by by intros ->. by rewrite Hs2, Hs1, Hs3.
  - destruct neg; [done|]. apply bind_Some in H as (f & Hf & H). apply bind_Some in H as (vs & Hvs & H).
    destruct vs as [|v vs]; [done|]. injection H as <-. destruct (column_printed x f Hf) as (s1 & Hs1 & Hl1).
    destruct (items_printed items (v :: vs) Hvs) as (ss & Hss & Hl); [done|].
    exists (words [s1; lit "in"; lit "[" ++ join (lit ", ") ss ++ lit "]"]). split.
    + cbn [serialize_metricql_predicate]. by rewrite Hs1, Hss.
    + apply comparison_lexed; [done|apply lexed_in|by apply list_lexed].
Qed.

(** ** Filters *)

Lemma lexed_keyword w : bool_decide (w ∈ reserved_keywords) && is_ident_text w && ascii_text w = true →
  lexed (λ ts, ∃ t, ts = [t] ∧ kw w t) w.
Proof.
  intros [[Hk%bool_decide_eq_true Hi]%andb_prop Ha]%andb_prop. eapply lexed_mono; [|apply (lexed_munch Keyword)]; [|done|].
  - intros ts (sp & ->). by eexists.
  - intros rest. by apply munch_keyword.
Qed.

Definition yields_conjunction (cs : list Comparison) (ts : list Token) : Prop :=
  ∃ t1 p t2 ps sp, ts = t1 ++ t2 ∧ d_predicate t1 p ∧ d_more (pr_span p) t2 (ps, sp) ∧ map erase (p :: ps) = cs.

Lemma conjunction_printed l : ∀ cs, mapM sql_predicate l = Some cs → cs ≠ [] →
  ∃ ss, mapM serialize_metricql_predicate l = Some ss ∧ lexed (yields_conjunction cs) (join (lit " and ") ss).
Proof.
  induction l as [|e l IH]; intros cs Hcs Hne; [by injection Hcs as <-|].
  apply mapM_Some in Hcs. inversion Hcs as [|? c ? cs' Hc Hcs']; subst. destruct (predicate_printed e c Hc) as (s & Hs & Hl).
  destruct l as [|e' l].
  - inversion Hcs'; subst. exists [s]. split; [cbn; by rewrite Hs|]. eapply lexed_mono; [|exact Hl].
    intros ts (p & Hp & <-). eexists ts, p, [], [], _. split_and!; [by rewrite app_nil_r|done|by constructor|done].
  - apply mapM_Some in Hcs'. destruct cs' as [|c' cs']; [by apply mapM_Some in Hcs'; inversion Hcs'|].
    destruct (IH (c' :: cs') Hcs') as (ss & Hss & Hls); [done|]. exists (s :: ss). split; [apply mapM_Some; constructor; [done|by apply mapM_Some]|].
    destruct ss as [|s' ss]; [by apply mapM_Some in Hss; inversion Hss|].
    change (join (lit " and ") (s :: s' :: ss)) with (s ++ lit " " ++ lit "and" ++ lit " " ++ join (lit " and ") (s' :: ss)).
    eapply lexed_mono; [|apply lexed_both; [exact Hl|apply lexed_both; [by apply (lexed_keyword (lit "and"))|exact Hls]]].
    intros ts (t1 & ? & -> & (p & Hp & <-) & ? & ? & -> & (a & -> & Ha) & t3 & p' & t4 & ps & sp & -> & Hp' & Hps & Hm).
    eexists t1, p, _, (p' :: ps), sp. split_and!; [done|done|exact (dm_and _ _ _ _ _ _ _ Ha Hp' Hps)|]. cbn [map] in *. by rewrite Hm.
Qed.

(** ** Aggregations *)

(** The aggregation a text stands for. *)
Record AggregationIs (a : Aggregation) (fn : AggFunc) (et field : str) (cs : list Comparison) (hours : option Z) : Prop := mk_aggregation_is
  { ai_func : agg_func a = fn;
    ai_event : event_type (agg_source a) = et;
    ai_field : src_field (agg_source a) = field;
    ai_filter : map erase (match agg_filter a with Some f => predicates f | None => [] end) = cs;
    ai_window : (λ w, (win_n w, win_unit w)) <$> agg_window a = (λ n, (n, Hours)) <$> hours }.

Definition source_text (et field : str) : str := match field with [] => et | _ => et ++ lit "." ++ field end.

Definition yields_source (et field : str) (ts : list Token) : Prop :=
  ∃ s, d_source ts s ∧ event_type s = et ∧ src_field s = field.

Lemma lexed_source et field : is_metric_name et = true → (field = [] ∨ is_metric_name field = true) →
  lexed (yields_source et field) (source_text et field).
Proof.
  intros He Hf. destruct field as [|c field].
  - eapply lexed_mono; [|by apply lexed_name]. intros ts (sp & ->). eexists. split_and!; [by apply ds_event|done..].
  - destruct Hf as [?|Hf]; [done|]. cbn [source_text]. destruct (lexed_punct _ (both (one Dot (lit ".")) (one Ident (c :: field))) "." Dot _
      eq_refl eq_refl (lexed_name _ Hf)) as [Ha Hl]. { intros ts1 ts H1 H2. by exists ts1, ts. }
    split; [by rewrite ascii_app, name_ascii|]. intros p rest ts Hs Hr. rewrite length_app, Nat.add_assoc in Hr.
    destruct (Hl _ rest ts Hs Hr) as (b & Hb & ? & ? & -> & (sp & ->) & (sp' & ->)).
    exists (mk_token Ident et (mk_span p (p + length et)) :: [mk_token Dot (lit ".") sp; mk_token Ident (c :: field) sp']). split.
    + unfold is_metric_name in He. apply andb_prop in He as [Hx Hk%negb_true_iff]. destruct et as [|d t]; [done|].
      apply andb_prop in Hx as [Hd Ht].
      pose proof (munch_word d t ((lit "." ++ c :: field) ++ rest) Hd Ht eq_refl) as Hm. rewrite Hk in Hm.
      rewrite <- app_assoc. exact (lexes_token p Ident _ _ _ Hm Hb).
    + eexists. split_and!; [by apply ds_field|done..].
Qed.

Definition filter_of (cs : list Comparison) (f : option str) : Prop :=
  match f with Some f => cs ≠ [] ∧ lexed (yields_conjunction cs) f | None => cs = [] end.

(** The closing parenthesis and the filter after it. *)
Definition yields_tail (cs : list Comparison) (ts : list Token) : Prop :=
  ∃ rp ts2 f, ts = rp :: ts2 ∧ tok RParen rp ∧ d_opt d_filter ts2 f ∧
    map erase (match f with Some f => predicates f | None => [] end) = cs.

Lemma lexed_tail cs f : filter_of cs f → lexed (yields_tail cs) (lit ")" ++ match f with Some f => lit " where " ++ f | None => [] end).
Proof.
  intros Hf. destruct f as [f|].
  - destruct Hf as [_ Hf]. change (lit ")" ++ lit " where " ++ f) with (lit ")" ++ lit " " ++ lit "where" ++ lit " " ++ f).
    eapply lexed_mono; [|apply lexed_both; [by apply (lexed_char ")" RParen)|apply lexed_both; [by apply (lexed_keyword (lit "where"))|exact Hf]]].
    intros ts (? & ? & -> & (sp & ->) & ? & ? & -> & (w & -> & Hw) & t1 & p & t2 & ps & sp' & -> & Hp & Hps & <-).
    eexists _, _, _. split_and!; [done|done|apply d_some; exact (df_intro _ _ _ _ _ _ Hw Hp Hps)|done].
  - cbn in Hf. subst cs. rewrite app_nil_r. eapply lexed_mono; [|by apply (lexed_char ")" RParen)]. intros ts (sp & ->).
    eexists _, _, _. split_and!; [done|done|apply d_none|done].
Qed.

Definition plain_functions : list (str * AggFunc) := [(lit "mean", Mean); (lit "sum", Sum); (lit "count", Count); (lit "proportion", Proportion)].

(** Hours whose decimal text reads back to them. *)
Definition hours_kept (n : Z) : bool :=
  is_numeral (show_i64 n) &&
  match f64_parse (show_i64 n) with
  | Some x => f64_eq x (f64_trunc x) && negb (f64_le x f64_zero) && (f64_as_u32 x =? n)%Z
  | None => false
  end.

Definition window_text (hours : option Z) : str :=
  match hours with Some n => lit " within " ++ show_i64 n ++ lit " hours of exposure" | None => [] end.

Definition yields_window (hours : option Z) (ts : list Token) : Prop :=
  ∃ w, d_opt d_window ts w ∧ (λ w, (win_n w, win_unit w)) <$> w = (λ n, (n, Hours)) <$> hours.

Lemma lexed_window n : hours_kept n = true →
  lexed (yields_window (Some n)) (lit "within" ++ lit " " ++ show_i64 n ++ lit " " ++ lit "hours" ++ lit " " ++ lit "of" ++ lit " " ++ lit "exposure").
Proof.
  unfold hours_kept. intros [Hn Hx]%andb_prop. destruct (f64_parse (show_i64 n)) as [x|] eqn:Ep; [|done].
  apply andb_prop in Hx as [[Ht Hz%negb_true_iff]%andb_prop Hu%Z.eqb_eq].
  eapply lexed_mono; [|repeat (apply lexed_both; [first [by apply lexed_keyword|by apply lexed_numeral]|]); by apply lexed_keyword].
  intros ts (? & ? & -> & (w & -> & Hw) & ? & ? & -> & (sp & ->) & ? & ? & -> & (u & -> & Hhours) & ? & ? & -> & (o & -> & Ho) & e & -> & He).
  eexists. split; [apply d_some, dw_intro; [done|done|exact Ep|done|done|by left|done|done]|].
  cbn. destruct Hhours as [_ Hv]. unfold unit_of. rewrite Hv, Hu. by rewrite bool_decide_eq_true_2.
Qed.

Definition yields_aggregation fn et field cs hours (ts : list Token) : Prop :=
  ∃ n, d_expression ts n ∧ ∃ a, n = NAggregation a ∧ AggregationIs a fn et field cs hours.

Definition hours_ok (hours : option Z) : bool := match hours with Some n => hours_kept n | None => true end.

Lemma lexed_ending cs f hours : filter_of cs f → hours_ok hours = true →
  lexed (both (yields_tail cs) (yields_window hours))
    ((lit ")" ++ match f with Some f => lit " where " ++ f | None => [] end) ++ window_text hours).
Proof.
  intros Hf%lexed_tail Hh. destruct hours as [n|]; cbn [window_text].
  - exact (lexed_both _ _ _ _ Hf (lexed_window n Hh)).
  - rewrite app_nil_r. revert Hf. apply lexed_mono. intros ts Hts. exists ts, []. split_and!; [by rewrite app_nil_r|done|].
    exists None. split; [apply d_none|done].
Qed.

Lemma lexed_function func fn : (func, fn) ∈ plain_functions → lexed (λ ts, ∃ t, ts = [t] ∧ d_agg_func [t] (fn, f64_zero)) func.
Proof.
  intros Hf. assert ((func, fn) ∈ plain_agg) as Hp.
  { unfold plain_functions, plain_agg in *. set_solver. }
  eapply lexed_mono; [|apply lexed_keyword].
  - intros ts (t & -> & Ht). exists t. split; [done|]. by eapply da_plain.
  - unfold plain_functions in Hf. rewrite !elem_of_cons in Hf. destruct Hf as [[= -> _]|[[= -> _]|[[= -> _]|[[= -> _]|Hf]]]]; [vm_compute; reflexivity..|].
    by apply not_elem_of_nil in Hf.
Qed.

(** The text of an aggregation parses to it. *)
Lemma aggregation_parses func fn et field cs f hours : (func, fn) ∈ plain_functions → is_metric_name et = true →
  (field = [] ∨ is_metric_name field = true) → filter_of cs f → hours_ok hours = true →
  ∃ a, parse (aggregation_text func (source_text et field) f ++ window_text hours) = Ok (NAggregation a) ∧
    AggregationIs a fn et field cs hours.
Proof.
  intros Hfn He Hfield Hf Hh.
  destruct (lexed_parses (λ n, ∃ a, n = NAggregation a ∧ AggregationIs a fn et field cs hours)
    (aggregation_text func (source_text et field) f ++ window_text hours)) as (n & Hn & a & -> & Ha); [|by exists a].
  unfold aggregation_text. rewrite <- !app_assoc.
  eapply (lexed_app _ (λ ts, ∃ lp ts1 ts2, ts = lp :: ts1 ++ ts2 ∧ tok LParen lp ∧ yields_source et field ts1 ∧
    both (yields_tail cs) (yields_window hours) ts2)); [by apply lexed_function| |by intros [|? ?]|].
  - eapply (lexed_punct (both (yields_source et field) (both (yields_tail cs) (yields_window hours)))); [done|done| |].
    + eapply lexed_app; [by apply lexed_source|rewrite app_assoc; by apply lexed_ending|by intros [|? ?]|].
      intros ts1 ts2 H1 H2. by exists ts1, ts2.
    + intros ts1 ts (sp & ->) (t1 & t2 & -> & H1 & H2). by eexists _, t1, t2.
  - intros ts1 ts (t & -> & Ht) (lp & t1 & ? & -> & Hlp & (s & Hs & Hev & Hfl) & ? & t3 & -> & (rp & t2 & fo & -> & Hrp & Hfo & Hcs) & w & Hw & Hwin).
    eexists. split; [apply de_aggregation; exact (dg_intro _ _ _ _ _ _ _ _ _ _ _ _ Ht Hlp Hs Hrp Hfo Hw)|].
    eexists. split; [done|]. by split.
Qed.

(** ** Statements *)

Lemma split_found preds et : ∀ rem, split_preds preds (Some et) rem = (Some et, rem ++ preds).
Proof.
  induction preds as [|q preds IH]; intros rem; cbn [split_preds]; [by rewrite app_nil_r|].
  destruct (extract_event_type_literal q); by rewrite IH, <- app_assoc.
Qed.

Lemma split_first pre p post et : ∀ rem, Forall (λ q, extract_event_type_literal q = None) pre →
  extract_event_type_literal p = Some et → split_preds (pre ++ p :: post) None rem = (Some et, rem ++ pre ++ post).
Proof.
  intros rem Hpre Hp. revert rem. induction Hpre as [|q pre Hq Hpre IH]; intros rem; cbn [app split_preds].
  - by rewrite Hp, split_found.
  - by rewrite Hq, IH, <- app_assoc.
Qed.

Lemma filter_printed preds cs : mapM sql_predicate preds = Some cs → ∃ f, filter_str preds = Some f ∧ filter_of cs f.
Proof.
  intros Hcs. destruct preds as [|p preds].
  - exists None. injection Hcs as <-. done.
  - assert (cs ≠ []) as Hne by (intros ->; apply mapM_Some in Hcs; inversion Hcs).
    destruct (conjunction_printed _ cs Hcs Hne) as (ss & Hss & Hl). exists (Some (join (lit " and ") ss)).
    split; [|done]. unfold filter_str. by rewrite Hss.
Qed.


(** [SELECT AVG(watch_time) AS metric_value FROM delta.metric_events AS me
     WHERE me.event_type = 'playback' AND platform IN ('ios', 'tv') AND watch_time >= 2.5]. *)
Definition playback_where : Expr :=
  EBinaryOp
    (EBinaryOp (EBinaryOp (ECompoundIdentifier [lit "me"; lit "event_type"]) BEq (txt "playback")) BAnd
       (EInList (col "platform") [txt "ios"; txt "tv"] false))
    BAnd (ENested (EBinaryOp (col "Watch_Time") BGtEq (number "2.5"))).

Definition events_query (item : Expr) (w : Expr) : Statement :=
  SQuery (mk_query false (SetSelect
    (mk_select [ExprWithAlias item (lit "metric_value")] [mk_table (Table (lit "delta.metric_events")) []] (Some w) false))).

Definition playback_query : Statement := events_query (call "AVG" [col "watch_time"]) playback_where.

Definition field (c : string) : FieldRef := mk_field_ref [] (lit c).


(** The shape the classifier finds for such queries is the one this tier translates. *)
Example playback_shape : extract_shape playback_query = Some FilteredAggregation.
Proof. vm_compute. reflexivity. Qed.

(** ** Windows *)

Lemma hours_of_a_year : forallb hours_kept (seqZ 1 8760) = true.
Proof. vm_compute. reflexivity. Qed.

Lemma hours_kept_year n : (1 ≤ n ≤ 8760)%Z → hours_kept n = true.
Proof.
  intros Hn. apply (proj1 (forallb_forall _ _) hours_of_a_year), list_elem_of_In, elem_of_seqZ. lia.
Qed.

(** A windowed count over the join of exposures and events: the text parses to the count of
    the events of the type within the hours, with the join's remaining conjuncts as filter. *)
Lemma tier2_window_preserved stmt s j et n cs :
  extract_select stmt = Some s → from_is_exposures_with_metric_events_join (from s) = true →
  find_join_on_expr (from s) = Some j → extract_event_type_from_predicates (collect_and_predicates j) = Some et →
  is_metric_name et = true →
  first_some (predicate_hours expr_mentions_col) (collect_and_predicates j) = Some n → (1 ≤ n ≤ 8760)%Z →
  mapM sql_predicate (filter (λ p, is_filter_pred p = true) (collect_and_predicates j)) = Some cs →
  ∃ text a, translate_windowed_aggregation stmt = Some text ∧ parse text = Ok (NAggregation a) ∧
    AggregationIs a Count et [] cs (Some n).
Proof.
  intros Hs Hfrom Hj Het He Hn Hyear%hours_kept_year Hcs. destruct (filter_printed _ cs Hcs) as (f & Hf & Hof).
  destruct (aggregation_parses (lit "count") Count et [] cs f (Some n)) as (a & Ha & His); [|done|by left|done|done|].
  { unfold plain_functions. set_solver. }
  exists (aggregation_text (lit "count") et f ++ window_text (Some n)), a. split_and!; [|done|done].
  unfold translate_windowed_aggregation. rewrite Hs. cbn [mbind option_bind]. rewrite Hfrom, Hj. cbn [negb mbind option_bind].
  rewrite Het, Hn, Hf. done.
Qed.

(** ** What is lost *)

(** A store with the metrics a and b. *)
Definition db_a_b : Metrics := <[lit "b" := mean_row]> (<[lit "a" := mean_row]> ∅).

(** The MetricQL text proposed for a statement, through the whole classification. *)
Definition proposed_metricql (stmt : Statement) : option str :=
  match classify_and_translate (λ _, inr [stmt]) (lit "SELECT") sample_original db_a_b with
  | Ok (Tier2Metricql m _) => Some (metricql_expression (definition m))
  | _ => None
  end.

(** The filter and column proposed for a FILTERED_MEAN. *)
Definition proposed_filter (stmt : Statement) : option (str * str) :=
  match classify_and_translate (λ _, inr [stmt]) (lit "SELECT") sample_original db_a_b with
  | Ok (Tier1Filtered m _) =>
      match type_config (definition m) with Some (TypeFilteredMean c) => Some (fm_filter_sql c, value_column c) | _ => None end
  | _ => None
  end.

Definition value_of_text (s : str) : option (option f64) :=
  match parse s with Ok n => node_value sample_rho n | _ => None end.

(** ** Tier 2 *)

(** [a - (b - a)] is proposed as [@a - @b - @a]: 6 becomes -2. *)
Definition right_nested : Expr := EBinaryOp (pivot "a") BMinus (ENested (EBinaryOp (pivot "b") BMinus (pivot "a"))).

Lemma right_parentheses_dropped :
  proposed_metricql (summaries_query right_nested) = Some (lit "@a - @b - @a") ∧
  sql_value sample_rho right_nested = Some (Some (f64_of_Z 6)) ∧
  value_of_text (lit "@a - @b - @a") = Some (Some (f64_of_Z (-2))).
Proof. vm_compute. done. Qed.

(** [a / (b * a)] is proposed as [@a / @b * @a]. *)
Definition divided_product : Expr := EBinaryOp (pivot "a") BDivide (ENested (EBinaryOp (pivot "b") BMultiply (pivot "a"))).

Lemma divisor_parentheses_dropped :
  proposed_metricql (summaries_query divided_product) = Some (lit "@a / @b * @a") ∧
  sql_value sample_rho divided_product = Some (f64_parse (lit "0.5")) ∧
  value_of_text (lit "@a / @b * @a") = Some (Some (f64_of_Z 8)).
Proof. vm_compute. done. Qed.

(** A literal below ten decimals is printed as 0. *)
Definition tiny_factor : Expr := EBinaryOp (EBinaryOp (pivot "a") BMultiply (number "0.00000000001")) BPlus (pivot "b").

Lemma tiny_literal_is_zero :
  proposed_metricql (summaries_query tiny_factor) = Some (lit "@a * 0 + @b") ∧
  value_of_text (lit "@a * 0 + @b") = Some (Some (f64_of_Z 2)) ∧
  sql_value sample_rho tiny_factor ≠ Some (Some (f64_of_Z 2)).
Proof. vm_compute. done. Qed.

(** A metric id is written into the text without a look at its characters. *)
Lemma metric_id_is_code :
  proposed_metricql (summaries_query (EBinaryOp (EBinaryOp (pivot "a + @b") BPlus (number "1")) BMultiply (pivot "b"))) =
    Some (lit "(@a + @b + 1) * @b").
Proof. vm_compute. reflexivity. Qed.

(** [CASE WHEN metric_id = 'a' THEN 1 END] is read as the value of a. *)
Lemma case_result_ignored result otherwise rest :
  extract_pivot_metric_id_t2 (call "MAX" [ECase None (equals "metric_id" "a" :: rest) result otherwise]) = Some (lit "a").
Proof. reflexivity. Qed.

(** The share of users whose events are all plays, MIN over 1 and 0, is proposed as the share
    that has a play. *)
Definition every_play : Expr :=
  ECast (call "MIN" [ECase None [equals "event_type" "play"] [number "1"] (Some (number "0"))]).

Lemma minimum_is_proportion :
  proposed_metricql (events_query every_play (EBinaryOp (col "user_id") BNotEq (txt ""))) =
    Some (lit "proportion(play) where user_id != ''").
Proof. vm_compute. reflexivity. Qed.

(** ** Tier 1 *)

(** [(kid OR guest) AND platform = 'tv'] loses its parentheses. *)
Definition disjunction_where : Expr :=
  EBinaryOp (EBinaryOp (equals "event_type" "play") BAnd (ENested (EBinaryOp (col "kid") BOr (col "guest")))) BAnd (equals "platform" "tv").

Lemma disjunction_unparenthesized :
  proposed_filter (events_query (call "AVG" [col "seconds"]) disjunction_where) =
    Some (lit "kid OR guest AND platform = 'tv'", lit "seconds").
Proof. vm_compute. reflexivity. Qed.

(** A string with a quote is printed without doubling it: the text ['x'' OR ''1'] of a query
    is the filter ['x' OR '1']. *)
Lemma quote_not_escaped :
  proposed_filter (events_query (call "AVG" [col "seconds"])
    (EBinaryOp (equals "event_type" "play") BAnd (equals "name" "x' OR '1"))) = Some (lit "name = 'x' OR '1'", lit "seconds").
Proof. vm_compute. reflexivity. Qed.

(** ** Clauses no translator reads *)

Definition with_where (w : option Expr) (s : Select) : Statement :=
  SQuery (mk_query false (SetSelect (mk_select (projection s) (from s) w (has_lateral_views s)))).

(** The WHERE clause of windowed counts and of composites is dropped, whatever it says. *)
Lemma where_ignored s w w' original :
  translate_windowed_count (with_where w s) original = translate_windowed_count (with_where w' s) original ∧
  translate_composite (with_where w s) original = translate_composite (with_where w' s) original ∧
  translate_windowed_aggregation (with_where w s) = translate_windowed_aggregation (with_where w' s) ∧
  translate_composite_arithmetic (with_where w s) = translate_composite_arithmetic (with_where w' s).
Proof. done. Qed.

(** In a windowed count, every condition on the event time but the first window is dropped:
    a second lower bound leaves no trace. *)
Definition play_join (extra : list Expr) : Expr :=
  foldl (λ e x, EBinaryOp e BAnd x)
    (EBinaryOp (EBinaryOp (EBinaryOp (ECompoundIdentifier [lit "e"; lit "user_id"]) BEq (ECompoundIdentifier [lit "m"; lit "user_id"])) BAnd
       (EBinaryOp (ECompoundIdentifier [lit "m"; lit "event_type"]) BEq (txt "play"))) BAnd
       (EBinaryOp (ECompoundIdentifier [lit "m"; lit "event_timestamp"]) BLt
          (EBinaryOp (ECompoundIdentifier [lit "e"; lit "exposure_ts"]) BPlus (EInterval (txt "48") (Some FieldHour))))) extra.

Definition windowed_query (extra : list Expr) : Statement :=
  SQuery (mk_query false (SetSelect (mk_select [ExprWithAlias (call "COUNT" [col "x"]) (lit "metric_value")]
    [mk_table (Table (lit "delta.exposures")) [mk_join (Table (lit "delta.metric_events")) (ConstrainedJoin (JoinOn (play_join extra)))]]
    None false))).

Definition after_a_day : Expr :=
  EBinaryOp (ECompoundIdentifier [lit "m"; lit "event_timestamp"]) BGtEq
    (EBinaryOp (ECompoundIdentifier [lit "e"; lit "exposure_ts"]) BPlus (EInterval (txt "24") (Some FieldHour))).

Definition proposed_window (stmt : Statement) : option (str * str * Z) :=
  match classify_and_translate (λ _, inr [stmt]) (lit "SELECT") sample_original db_a_b with
  | Ok (Tier1WindowedCount m _) =>
      match type_config (definition m) with
      | Some (TypeWindowedCount c) => Some (MetricStore.event_type c, wc_filter_sql c, window_hours c) | _ => None end
  | _ => None
  end.

Lemma lower_bound_dropped :
  proposed_window (windowed_query [after_a_day]) = proposed_window (windowed_query []) ∧
  proposed_window (windowed_query []) = Some (lit "play", [], 48%Z).
Proof. vm_compute. done. Qed.
