(* ===== verification/Json.v ===== *)
(** JSON documents as the migration tool and the store use them: an interface of the
    [serde_json] crate, with the documented behaviour they rely on as laws, and an instance
    of it. *)
From Stdlib Require Import Ascii String SpecFloat.
From S2P Require Import Prelude Bytes F64.

(** Building a value and looking into one. An object is given by its insertions in order. *)
Class JsonValue (J : Type) := {
  json_null : J;
  json_str : str → J;
  json_int : Z → J;
  json_float : f64 → J;
  json_bool : bool → J;
  json_array : list J → J;
  json_object : list (str * J) → J;
  is_null : J → bool;
  as_str : J → option str;
  as_i64 : J → option Z;
  as_f64 : J → option f64;
  as_array : J → option (list J);
  is_object : J → bool;
  get : J → str → option J }.

(** The last insertion of a key. *)
Fixpoint last_insertion {J} (kvs : list (str * J)) (k : str) : option J :=
  match kvs with
  | [] => None
  | (k', v) :: kvs =>
      match last_insertion kvs k with Some v' => Some v' | None => if decide (k' = k) then Some v else None end
  end.

Definition in_i64 (n : Z) : Prop := (- 2 ^ 63 ≤ n < 2 ^ 63)%Z.

(** A non-finite number has no JSON form ([json!] writes null). *)
Class JsonLaws (J : Type) `{JsonValue J} := {
  as_str_str s : as_str (json_str s) = Some s;
  as_i64_int n : in_i64 n → as_i64 (json_int n) = Some n;
  as_f64_float x : f64_is_finite x = true → as_f64 (json_float x) = Some x;
  as_array_array l : as_array (json_array l) = Some l;
  is_object_object kvs : is_object (json_object kvs) = true;
  get_object kvs k : get (json_object kvs) k = last_insertion kvs k;
  is_null_object kvs : is_null (json_object kvs) = false;
  is_null_null : is_null json_null = true }.

(** ** An instance *)

Inductive Document :=
| DNull | DStr (s : str) | DInt (n : Z) | DFloat (x : f64) | DBool (b : bool) | DArray (l : list Document) | DObject (kvs : list (str * Document)).

#[export] Instance document_json : JsonValue Document := {
  json_null := DNull;
  json_str := DStr;
  json_int := DInt;
  json_float := λ x, if f64_is_finite x then DFloat x else DNull;
  json_bool := DBool;
  json_array := DArray;
  json_object := DObject;
  is_null := λ d, match d with DNull => true | _ => false end;
  as_str := λ d, match d with DStr s => Some s | _ => None end;
  as_i64 := λ d, match d with DInt n => Some n | _ => None end;
  as_f64 := λ d, match d with DFloat x => Some x | DInt n => Some (f64_of_Z n) | _ => None end;
  as_array := λ d, match d with DArray l => Some l | _ => None end;
  is_object := λ d, match d with DObject _ => true | _ => false end;
  get := λ d k, match d with DObject kvs => last_insertion kvs k | _ => None end }.

#[export] Instance document_laws : JsonLaws Document.
Proof. split; try done. intros x Hx. cbn. by rewrite Hx. Qed.
