(* ===== verification/MetricCatalogue.v ===== *)
(** The metric catalogue: whole rows of [metric_definitions] and the audit table
    [metric_migrations], the store operations on them ([store.rs]) and the RPC handlers that
    create, read, list, lint and migrate metrics ([grpc.rs]). The validators see the columns
    of [MetricStore]. *)
From Stdlib Require Import Ascii String SpecFloat.
From S2P Require Import Prelude Bytes F64 Ast Parser Analyze Targeting FilterSql MetricStore Cycle MetricDefinition Json Tier1.

Definition Uuid := str.
Definition Instant := Z.

(** ** Columns *)

Definition stakeholder_to_sql (s : Z) : str :=
  match s with 1 => lit "USER" | 2 => lit "PROVIDER" | 3 => lit "PLATFORM" | _ => [] end%Z.

Definition aggregation_level_to_sql (a : Z) : str :=
  match a with 1 => lit "USER" | 2 => lit "EXPERIMENT" | 3 => lit "PROVIDER" | _ => [] end%Z.

Definition stakeholder_from_sql (s : str) : Z :=
  if is_lit s "USER" then 1 else if is_lit s "PROVIDER" then 2 else if is_lit s "PLATFORM" then 3 else 0%Z.

Definition aggregation_level_from_sql (s : str) : Z :=
  if is_lit s "USER" then 1 else if is_lit s "EXPERIMENT" then 2 else if is_lit s "PROVIDER" then 3 else 0%Z.

Definition opt_pos_f64 (v : f64) : option f64 := if f64_gt v f64_zero then Some v else None.

(** [MetricRow]: the columns the validators read, and the others. *)
Record CatalogueRow := mk_catalogue_row
  { base : MetricRow; row_name : str; row_description : option str; row_source_event_type : option str;
    row_numerator : option str; row_denominator : option str; row_percentile : option f64; row_lower_is_better : bool;
    row_is_qoe_metric : bool; row_cuped : option str; row_mde : option f64; row_stakeholder : str;
    row_aggregation_level : str; created_at : Instant }.

(** The row an INSERT writes. *)
Definition catalogue_row (m : Message) (now : Instant) : CatalogueRow :=
  let d := metadata m in
  mk_catalogue_row (row_of (definition m)) (metric_name (definition m)) (opt_str (description d))
    (opt_str (source_event_type m)) (opt_str (numerator_event_type m)) (opt_str (denominator_event_type m))
    (opt_pos_f64 (percentile m)) (lower_is_better d) (is_qoe_metric d) (opt_str (cuped_covariate_metric_id d))
    (opt_pos_f64 (minimum_detectable_effect d)) (stakeholder_to_sql (stakeholder d))
    (aggregation_level_to_sql (aggregation_level d)) now.

(** ** The JSON column *)

Section json.
Context {J : Type} `{JsonValue J}.

Definition build_metric_type_config (c : TypeConfig) : J :=
  match c with
  | TypeFilteredMean cfg =>
      json_object [(lit "filter_sql", json_str (fm_filter_sql cfg)); (lit "value_column", json_str (value_column cfg))]
  | TypeComposite cfg =>
      json_object [(lit "operator", json_int (operator cfg));
                   (lit "operands", json_array ((λ o, json_object [(lit "metric_id", json_str (operand_id o)); (lit "weight", json_float (operand_weight o))]) <$> operands cfg))]
  | TypeWindowedCount cfg =>
      json_object [(lit "event_type", json_str (MetricStore.event_type cfg)); (lit "filter_sql", json_str (wc_filter_sql cfg));
                   (lit "window_hours", json_int (window_hours cfg))]
  end.

(** [v.get(k).and_then(as_…).unwrap_or(default)]. *)
Definition get_str (v : J) (k : str) : str := default [] (get v k ≫= as_str).

(** [as i32]. *)
Definition as_i32 (n : Z) : Z := ((n + 2 ^ 31) mod 2 ^ 32 - 2 ^ 31)%Z.
Definition get_i32 (v : J) (k : str) : Z := as_i32 (default 0%Z (get v k ≫= as_i64)).

Definition operand_from_json (v : J) : CompositeOperand :=
  mk_operand (get_str v (lit "metric_id")) (default f64_zero (get v (lit "weight") ≫= as_f64)).

Definition composite_from_json (v : J) : CompositeConfig :=
  mk_composite (operand_from_json <$> default [] (get v (lit "operands") ≫= as_array)) (get_i32 v (lit "operator")).

Definition filtered_mean_from_json (v : J) : FilteredMeanConfig :=
  mk_filtered_mean (get_str v (lit "filter_sql")) (get_str v (lit "value_column")).

Definition windowed_count_from_json (v : J) : WindowedCountConfig :=
  mk_windowed_count (get_str v (lit "event_type")) (get_str v (lit "filter_sql")) (get_i32 v (lit "window_hours")).

Definition metric_type_config_from_json (t : MetricType) (json : option J) : option TypeConfig :=
  v ← json;
  match t with
  | FilteredMean => Some (TypeFilteredMean (filtered_mean_from_json v))
  | Composite => Some (TypeComposite (composite_from_json v))
  | WindowedCount => Some (TypeWindowedCount (windowed_count_from_json v))
  | _ => None
  end.

(** [MetricRow::into_proto], of the row under its key. *)
Definition into_proto (id : str) (r : CatalogueRow) : Message :=
  let t := metric_type_from_sql (row_type (base r)) in
  mk_message
    (mk_metric id (row_name r) t (metric_type_config_from_json t (build_metric_type_config <$> row_type_config (base r)))
       (default [] (row_expression (base r))) (default [] (row_custom_sql (base r))))
    (mk_metadata (default [] (row_description r)) (row_lower_is_better r) [] (row_is_qoe_metric r) (default [] (row_cuped r))
       (default f64_zero (row_mde r)) (stakeholder_from_sql (row_stakeholder r)) (aggregation_level_from_sql (row_aggregation_level r)))
    (default [] (row_source_event_type r)) (default [] (row_numerator r)) (default [] (row_denominator r))
    (default f64_zero (row_percentile r)).
End json.

(** ** The two tables *)

Record Migration := mk_migration
  { migration_id : Uuid; old_metric_id : str; new_metric_id : str; shadow_run_result_id : Uuid; mig_operator : str; applied_at : Instant }.

Record Catalogue := mk_catalogue { definitions : gmap str CatalogueRow; migrations : list Migration }.

(** What the validators read. *)
Definition metrics (c : Catalogue) : Metrics := base <$> definitions c.

Definition insert_definition (m : Message) (now : Instant) (c : Catalogue) : Catalogue :=
  mk_catalogue (<[metric_id (definition m) := catalogue_row m now]> (definitions c)) (migrations c).

(** The INSERT into [metric_definitions], whose conflict names what the caller says. *)
Definition insert_metric (conflict : str) (m : Message) (now : Instant) (c : Catalogue) : result StoreError Catalogue :=
  if bool_decide (is_Some (definitions c !! metric_id (definition m))) then Err (AlreadyExists conflict)
  else if row_checks (row_of (definition m)) then Ok (insert_definition m now c) else Err DbError.

(** [ManagementStore::create_metric]. *)
Definition create_metric_row (m : Message) (now : Instant) (c : Catalogue) : result StoreError Catalogue :=
  insert_metric (metric_id (definition m)) m now c.

(** The INSERT into [metric_migrations]: unique on the old metric, and on its own id. *)
Definition insert_migration (a : Migration) (c : Catalogue) : result StoreError Catalogue :=
  if bool_decide (old_metric_id a ∈ old_metric_id <$> migrations c)
  then Err (AlreadyExists (lit "old metric already migrated: " ++ old_metric_id a))
  else if bool_decide (migration_id a ∈ migration_id <$> migrations c)
  then Err (AlreadyExists (lit "migration audit-row collision for old metric: " ++ old_metric_id a))
  else Ok (mk_catalogue (definitions c) (migrations c ++ [a])).

(** What the database gives a transaction: its clock, a random identifier, and whether it
    commits. *)
Record Transaction := mk_transaction { tx_now : Instant; tx_uuid : Uuid; tx_commits : bool }.

(** [ManagementStore::migrate_metric]: both inserts or neither. *)
Definition migrate_metric (t : Transaction) (m : Message) (old : str) (shadow : Uuid) (operator : str) (c : Catalogue) :
    result StoreError (Catalogue * Migration) :=
  let a := mk_migration (tx_uuid t) old (metric_id (definition m)) shadow operator (tx_now t) in
  c1 ← insert_metric (lit "new metric_id already exists: " ++ metric_id (definition m)) m (tx_now t) c;
  c2 ← insert_migration a c1;
  if tx_commits t then Ok (c2, a) else Err DbError.

(** [get_metric], [get_metric_migration_by_id], [exists_metric]. *)
Definition get_metric (id : str) (c : Catalogue) : result StoreError CatalogueRow :=
  match definitions c !! id with Some r => Ok r | None => Err (NotFound id) end.

Definition get_metric_migration_by_id (id : Uuid) (c : Catalogue) : result StoreError Migration :=
  match List.find (λ a, bool_decide (migration_id a = id)) (migrations c) with Some a => Ok a | None => Err (NotFound id) end.

Definition exists_metric (id : str) (c : Catalogue) : bool := bool_decide (is_Some (definitions c !! id)).

(** [list_metrics]: the rows that satisfy every given condition, by identifier. *)
Record MetricFilter := mk_metric_filter { by_stakeholder : option str; by_aggregation_level : option str; by_type : option str }.

Definition column_is (want : option str) (column : str) : bool :=
  match want with Some v => bool_decide (column = v) | None => true end.

Definition matches (f : MetricFilter) (r : CatalogueRow) : bool :=
  column_is (by_stakeholder f) (row_stakeholder r) && column_is (by_aggregation_level f) (row_aggregation_level r)
  && column_is (by_type f) (row_type (base r)).

Section listing.
(** The collation of the database. *)
Context (id_le : relation str) `{!RelDecision id_le}.

Definition row_le (a b : str * CatalogueRow) : Prop := id_le a.1 b.1.

#[local] Instance row_le_dec : RelDecision row_le.
Proof. intros a b. unfold row_le. apply _. Defined.

Definition list_rows (f : MetricFilter) (c : Catalogue) : list (str * CatalogueRow) :=
  merge_sort row_le (filter (λ ir, matches f ir.2 = true) (map_to_list (definitions c))).

Definition list_metric_ids (c : Catalogue) : list str := merge_sort id_le (map_to_list (definitions c)).*1.
End listing.

(** ** Trimming *)

(** [str::trim_start] and [str::trim_end]: the first character that is not white space, the
    first place only white space follows. *)
Definition first_index (p : nat → bool) (s : str) : nat := default (length s) (List.find p (seq 0 (length s))).

Definition trim_start (s : str) : str :=
  drop (first_index (λ i, is_char_boundary s i && match chars (drop i s) with c :: _ => negb (is_whitespace c) | [] => true end) s) s.

Definition trim_end (s : str) : str := take (first_index (λ i, is_char_boundary s i && trim_is_empty (drop i s)) s) s.

Definition trim (s : str) : str := trim_end (trim_start s).

(** ** Handlers *)

Section handlers.
Context {J : Type} `{JsonValue J}.

(** [create_metric_definition] on whole rows: the stored definition as read back, and
    whether its answer carries the deprecation header. *)
Definition create_metric_definition_row (request : option Message) (now : Instant) (c : Catalogue) :
    result MetricError (Catalogue * (Message * bool)) :=
  m ← ok_or request MetricRequired;
  _ ← validate_metric_definition (definition m) (metrics c);
  c' ← map_err StoreFailed (create_metric_row m now c);
  let answer := into_proto (J:=J) (metric_id (definition m)) (catalogue_row m now) in
  mret (c', (answer, bool_decide (metric_type (definition answer) = Custom))).

Definition get_metric_definition (id : str) (c : Catalogue) : result MetricError Message :=
  _ ← reject_if (trim_is_empty id) MetricIdRequired;
  r ← map_err StoreFailed (get_metric id c);
  mret (into_proto (J:=J) id r).

(** The page size and token of the request are not looked at; the next token is empty. *)
Definition list_metric_definitions (id_le : relation str) `{!RelDecision id_le} (type_filter : MetricType) (c : Catalogue) :
    list Message * str :=
  let f := mk_metric_filter None None
    (if decide (type_filter = MetricUnspecified) then None else Some (metric_type_to_sql type_filter)) in
  ((λ ir : str * CatalogueRow, into_proto (J:=J) ir.1 ir.2) <$> list_rows id_le f c, []).
End handlers.

(** *** MigrateMetricDefinition *)

Inductive MigrateError :=
| NewMetricRequired | OldMetricIdRequired | ShadowRunRequired | OperatorMissing | ShadowRunMalformed (got : str)
| NewMetricIsCustom | NewMetricSameId
| OldMetricNotCustom (t : MetricType) | OldMetricMissing | OldMetricFailed (e : StoreError)
| NewMetricInvalid (e : MetricError)
| ShadowRunNotFound | ShadowServiceFailed (message : str) | ShadowRunNotApproved (status : str)
| MigrationFailed (e : StoreError).

(** [tonic::Code], less [Ok], which no failed call carries. *)
Inductive Code :=
| Cancelled | CodeUnknown | InvalidArgument | DeadlineExceeded | CodeNotFound | CodeAlreadyExists | PermissionDenied
| ResourceExhausted | FailedPrecondition | Aborted | OutOfRange | Unimplemented | Internal | Unavailable | DataLoss | Unauthenticated.

Definition store_err_code (e : StoreError) : Code :=
  match e with NotFound _ => CodeNotFound | AlreadyExists _ => CodeAlreadyExists | DbError => Internal end.

(** A validator answers Internal when a query of its own failed, else InvalidArgument. *)
Definition metric_error_code (e : MetricError) : Code :=
  match e with
  | StoreFailed _ | GraphRejected (OperandLookupFailed _) | GraphRejected (WalkFailed _) => Internal
  | _ => InvalidArgument
  end.

Definition migrate_code (e : MigrateError) : Code :=
  match e with
  | ShadowRunNotFound | ShadowRunNotApproved _ => FailedPrecondition
  | ShadowServiceFailed _ => Unavailable
  | OldMetricFailed e | MigrationFailed e => store_err_code e
  | NewMetricInvalid e => metric_error_code e
  | _ => InvalidArgument
  end.

Record MigrateRequest := mk_migrate_request
  { req_old_metric_id : str; req_new_metric : option Message; req_shadow_run_result_id : str; req_operator : str }.

(** The answer of M3's [GetShadowResults]: a code with a message, or the status. *)
Definition ShadowAnswer : Type := Code * str + str.

Definition check_shadow (a : ShadowAnswer) : result MigrateError unit :=
  match a with
  | inl (CodeNotFound, _) => Err ShadowRunNotFound
  | inl (_, message) => Err (ShadowServiceFailed message)
  | inr status => reject_if (negb (is_lit status "APPROVED")) (ShadowRunNotApproved status)
  end.

Section migrate.
Context (parse_uuid : str → option Uuid).

(** The request, its fields trimmed. *)
Definition migrate_shape (r : MigrateRequest) : result MigrateError (Message * str * str * Uuid * str) :=
  let old := trim (req_old_metric_id r) in
  let shadow := trim (req_shadow_run_result_id r) in
  let operator := trim (req_operator r) in
  m ← ok_or (req_new_metric r) NewMetricRequired;
  _ ← reject_if (bool_decide (old = [])) OldMetricIdRequired;
  _ ← reject_if (bool_decide (shadow = [])) ShadowRunRequired;
  _ ← reject_if (bool_decide (operator = [])) OperatorMissing;
  uuid ← ok_or (parse_uuid shadow) (ShadowRunMalformed shadow);
  _ ← reject_if (bool_decide (metric_type (definition m) = Custom)) NewMetricIsCustom;
  _ ← reject_if (bool_decide (trim (metric_id (definition m)) = old)) NewMetricSameId;
  mret (m, old, shadow, uuid, operator).

Definition check_old_metric {S} `{MetricLookup S} (lookup : S) (old : str) : result MigrateError unit :=
  match get_metric_type lookup old with
  | Ok Custom => mret tt
  | Ok t => Err (OldMetricNotCustom t)
  | Err (NotFound _) => Err OldMetricMissing
  | Err e => Err (OldMetricFailed e)
  | Panics => Panics
  | OutOfFuel => OutOfFuel
  end.

(** The checks: shape, the old metric, the validators, the shadow run, in that order. *)
Definition migrate_checks {S} `{MetricLookup S} (lookup : S) (shadow_results : str → ShadowAnswer) (r : MigrateRequest) :
    result MigrateError (Message * str * Uuid * str) :=
  '(m, old, shadow, uuid, operator) ← migrate_shape r;
  _ ← check_old_metric lookup old;
  _ ← map_err NewMetricInvalid (validate_metric_definition (definition m) lookup);
  _ ← check_shadow (shadow_results shadow);
  mret (m, old, uuid, operator).

Definition migrate_metric_definition (shadow_results : str → ShadowAnswer) (t : Transaction) (r : MigrateRequest) (c : Catalogue) :
    result MigrateError (Catalogue * Migration) :=
  '(m, old, uuid, operator) ← migrate_checks (metrics c) shadow_results r;
  map_err MigrationFailed (migrate_metric t m old uuid operator c).
End migrate.
