(* ===== verification/MetricCatalogueSpec.v ===== *)
(** The metric catalogue: whole rows implement the reduced rows the validators read, a
    created metric reads back, and the migration table stays sound in every concurrent
    history. *)
From Stdlib Require Import Ascii String SpecFloat.
From S2P Require Import Prelude Bytes F64 Ast Parser Analyze Targeting FilterSql MetricStore Cycle MetricDefinition Json SqlAst Classifier Tier1 Tier2 MetricCatalogue.

(** ** Refinement of the reduced table *)

Lemma metrics_lookup c id : metrics c !! id = base <$> definitions c !! id.
Proof. apply lookup_fmap. Qed.

Lemma metrics_insert m now c : metrics (insert_definition m now c) = <[metric_id (definition m) := row_of (definition m)]> (metrics c).
Proof. unfold metrics. cbn [insert_definition definitions]. by rewrite fmap_insert. Qed.

Lemma insert_metric_ok conflict m now c c' : insert_metric conflict m now c = Ok c' →
  definitions c !! metric_id (definition m) = None ∧ row_checks (row_of (definition m)) = true ∧ c' = insert_definition m now c.
Proof.
  unfold insert_metric. case_bool_decide as Hx; [done|]. destruct (row_checks _); [|done].
  intros [= <-]. split_and!; [|done..]. by apply eq_None_not_Some.
Qed.

(** The whole-row INSERT does to the reduced table what [create_metric] does. *)
Lemma create_row_refines m now c c' : create_metric_row m now c = Ok c' → create_metric (definition m) (metrics c) = Ok (metrics c').
Proof.
  intros (Hn & Hc & ->)%insert_metric_ok. unfold create_metric. rewrite metrics_lookup, Hn. cbn [fmap option_fmap option_map].
  rewrite (bool_decide_eq_false_2 (is_Some None)) by (by intros [? [=]]). by rewrite Hc, metrics_insert.
Qed.

(** ** Reading back *)

(** What the proto types guarantee of a message, and the finite weights JSON can hold. *)
Definition in_i32 (n : Z) : Prop := (- 2 ^ 31 ≤ n < 2 ^ 31)%Z.

Definition config_ok (c : TypeConfig) : Prop :=
  match c with
  | TypeFilteredMean _ => True
  | TypeComposite cfg => in_i32 (operator cfg) ∧ Forall (λ o, f64_is_finite (operand_weight o) = true) (operands cfg)
  | TypeWindowedCount cfg => in_i32 (window_hours cfg)
  end.

Definition message_ok (m : Message) : Prop := match type_config (definition m) with Some c => config_ok c | None => True end.

(** A configuration is read back when it is of the kind of the type. *)
Definition kept_config (t : MetricType) (c : option TypeConfig) : option TypeConfig :=
  match t, c with
  | FilteredMean, Some (TypeFilteredMean _) | Composite, Some (TypeComposite _) | WindowedCount, Some (TypeWindowedCount _) => c
  | _, _ => None
  end.

Definition positive_or_zero (x : f64) : f64 := if f64_gt x f64_zero then x else f64_zero.
Definition known (n : Z) : Z := if ((1 <=? n) && (n <=? 3))%Z then n else 0%Z.

(** The message as the catalogue keeps it. *)
Definition stored (m : Message) : Message :=
  let d := definition m in
  let md := metadata m in
  mk_message (mk_metric (metric_id d) (metric_name d) (metric_type d) (kept_config (metric_type d) (type_config d))
      (metricql_expression d) (custom_sql d))
    (mk_metadata (description md) (lower_is_better md) [] (is_qoe_metric md) (cuped_covariate_metric_id md)
       (positive_or_zero (minimum_detectable_effect md)) (known (stakeholder md)) (known (aggregation_level md)))
    (source_event_type m) (numerator_event_type m) (denominator_event_type m) (positive_or_zero (percentile m)).

Lemma opt_str_default s : default [] (opt_str s) = s.
Proof. by destruct s. Qed.

Lemma opt_pos_default x : default f64_zero (opt_pos_f64 x) = positive_or_zero x.
Proof. unfold opt_pos_f64, positive_or_zero. by destruct (f64_gt _ _). Qed.

Ltac small_enum n := destruct (decide (1 ≤ n ≤ 3)%Z) as [Hn|Hn];
  [assert (n = 1 ∨ n = 2 ∨ n = 3)%Z as [-> | [-> | ->]] by lia; reflexivity|].

Lemma stakeholder_known n : stakeholder_from_sql (stakeholder_to_sql n) = known n.
Proof.
  small_enum n. unfold known. rewrite (proj2 (andb_false_iff _ _)) by lia.
  unfold stakeholder_to_sql. destruct n as [|[[p|p|]|[p|p|]|]|p]; try lia; reflexivity.
Qed.

Lemma level_known n : aggregation_level_from_sql (aggregation_level_to_sql n) = known n.
Proof.
  small_enum n. unfold known. rewrite (proj2 (andb_false_iff _ _)) by lia.
  unfold aggregation_level_to_sql. destruct n as [|[[p|p|]|[p|p|]|]|p]; try lia; reflexivity.
Qed.

Section json.
Context {J : Type} `{JsonLaws J}.

Lemma get_object_str kvs k s : last_insertion kvs k = Some (json_str s) → get_str (json_object (J:=J) kvs) k = s.
Proof. intros Hk. unfold get_str. rewrite get_object, Hk. cbn [mbind option_bind]. by rewrite as_str_str. Qed.

Lemma as_i32_id n : in_i32 n → as_i32 n = n.
Proof. unfold in_i32, as_i32. intros Hn. rewrite Z.mod_small; lia. Qed.

Lemma get_object_i32 kvs k n : in_i32 n → last_insertion kvs k = Some (json_int n) → get_i32 (json_object (J:=J) kvs) k = n.
Proof.
  intros Hn Hk. unfold get_i32. rewrite get_object, Hk. cbn [mbind option_bind].
  rewrite as_i64_int; [by apply as_i32_id|]. unfold in_i64, in_i32 in *. lia.
Qed.

Lemma operand_round_trip o : f64_is_finite (operand_weight o) = true →
  operand_from_json (json_object (J:=J) [(lit "metric_id", json_str (operand_id o)); (lit "weight", json_float (operand_weight o))]) = o.
Proof.
  intros Hf. unfold operand_from_json. rewrite (get_object_str _ _ (operand_id o)) by reflexivity.
  rewrite get_object. cbn [last_insertion]. rewrite decide_True by done. cbn [mbind option_bind].
  rewrite as_f64_float by done. by destruct o.
Qed.

Lemma composite_round_trip cfg kvs : config_ok (TypeComposite cfg) →
  last_insertion kvs (lit "operator") = Some (json_int (operator cfg)) →
  last_insertion kvs (lit "operands") = Some (json_array ((λ o, json_object [(lit "metric_id", json_str (operand_id o)); (lit "weight", json_float (operand_weight o))]) <$> operands cfg)) →
  composite_from_json (json_object (J:=J) kvs) = cfg.
Proof.
  intros [Hi Hw] H1 H2. unfold composite_from_json. rewrite (get_object_i32 _ _ (operator cfg)) by done.
  rewrite get_object, H2. cbn [mbind option_bind]. rewrite as_array_array. cbn [from_option id].
  destruct cfg as [ops op]. cbn [operands operator] in *. f_equal. rewrite <- list_fmap_compose.
  clear H2. induction Hw as [|o ops Ho Hops IH]; [done|]. cbn [fmap list_fmap]. f_equal; [by apply operand_round_trip|exact IH].
Qed.

(** The JSON column reads back, when its kind is the type's. *)
Lemma type_config_round_trip t c : match c with Some c => config_ok c | None => True end →
  (∀ k, c = Some k → kept_config t c = c ∨ t ∉ [FilteredMean; Composite; WindowedCount]) →
  metric_type_config_from_json (J:=J) t (build_metric_type_config <$> c) = kept_config t c.
Proof.
  intros Hok Hk. destruct c as [c|]; [|by destruct t]. specialize (Hk c eq_refl). cbn [fmap option_fmap option_map].
  unfold metric_type_config_from_json. cbn [mbind option_bind].
  assert (t ∉ [FilteredMean; Composite; WindowedCount] → kept_config t (Some c) = None ∧
    match t with FilteredMean => false | Composite => false | WindowedCount => false | _ => true end = true) as Hother.
  { intros Hn. destruct t; try (by destruct c); exfalso; apply Hn; set_solver. }
  destruct t; try (destruct Hother as [-> _]; [|done]; rewrite !not_elem_of_cons; by split_and!; [..|apply not_elem_of_nil]).
  all: destruct Hk as [Hk|Hk]; [|exfalso; apply Hk; set_solver]; destruct c as [f|f|w]; try done; cbn [build_metric_type_config kept_config]; do 2 f_equal.
  - unfold filtered_mean_from_json. rewrite (get_object_str _ _ (fm_filter_sql f)), (get_object_str _ _ (value_column f)) by reflexivity. by destruct f.
  - by apply composite_round_trip.
  - unfold windowed_count_from_json. rewrite (get_object_str _ _ (MetricStore.event_type w)), (get_object_str _ _ (wc_filter_sql w)) by reflexivity.
    rewrite (get_object_i32 _ _ (window_hours w)) by done. by destruct w.
Qed.

(** A validated definition has the configuration of its type. *)
Lemma validated_kind {S} `{MetricLookup S} (lookup : S) m : validate_metric_definition m lookup = Ok tt →
  ∀ k, type_config m = Some k → kept_config (metric_type m) (type_config m) = type_config m ∨
    metric_type m ∉ [FilteredMean; Composite; WindowedCount].
Proof.
  intros Hv k Hk. unfold validate_metric_definition in Hv. apply bind_ok_inv in Hv as (_ & _ & Hv).
  unfold filtered_mean_cfg, composite_cfg, windowed_count_cfg in Hv. rewrite Hk in *.
  destruct (metric_type m); try (right; set_solver); left; by destruct k.
Qed.

Lemma into_proto_stored (m : Message) now {S} `{MetricLookup S} (lookup : S) : message_ok m →
  validate_metric_definition (definition m) lookup = Ok tt → into_proto (J:=J) (metric_id (definition m)) (catalogue_row m now) = stored m.
Proof.
  intros Hok Hv. unfold into_proto, catalogue_row, stored.
  cbn [base row_name row_description row_source_event_type row_numerator row_denominator row_percentile row_lower_is_better
    row_is_qoe_metric row_cuped row_mde row_stakeholder row_aggregation_level row_of row_type row_type_config row_expression row_custom_sql].
  rewrite metric_type_round_trip, type_config_round_trip; [|done|by eapply validated_kind].
  by rewrite !opt_str_default, !opt_pos_default, stakeholder_known, level_known.
Qed.

End json.

(** A lower-is-better composite of a, with a surrogate target and an effect. *)
Definition sample_metadata : Metadata := mk_metadata (lit "d") true (lit "t") false [] (f64_of_Z 1) 2 9.
Definition sample_metric : Message :=
  mk_message (mk_metric (lit "b") (lit "B") Composite
    (Some (TypeComposite (mk_composite [mk_operand (lit "a") f64_zero; mk_operand (lit "a") f64_zero] 1))) [] [])
    sample_metadata [] [] [] f64_zero.

Definition mean_message : Message := mk_message mean_a sample_metadata (lit "e") [] [] f64_zero.
Definition catalogue_a : Catalogue := insert_definition mean_message 0%Z (mk_catalogue ∅ []).


(** ** Concurrent histories with migrations *)

Section histories.
Context (parse_uuid : str → option Uuid).

(** The runs M3 has approved. *)
Context (approved : str → Prop).

(** The catalogues a run of concurrent create and migrate requests goes through, latest
    first. Every query of a request sees some earlier table of its own; each insertion is
    one atomic statement or transaction; M3 answers what it will, but says APPROVED only of
    an approved run. *)
Inductive catalogue_history : list Catalogue → Prop :=
| catalogue_start : catalogue_history [mk_catalogue ∅ []]
| catalogue_create hist c r m now c' :
    catalogue_history (c :: hist) → reads_from (metrics <$> c :: hist) r → valid_utf8 (metricql_expression (definition m)) = true →
    validate_metric_definition (definition m) r = Ok tt → create_metric_row m now c = Ok c' →
    catalogue_history (c' :: c :: hist)
| catalogue_migrate hist c r shadow_results req t m old uuid op c' a :
    catalogue_history (c :: hist) → reads_from (metrics <$> c :: hist) r → valid_utf8 (metricql_expression (definition m)) = true →
    (∀ s, shadow_results s = inr (lit "APPROVED") → approved s) →
    migrate_checks parse_uuid r shadow_results req = Ok (m, old, uuid, op) → migrate_metric t m old uuid op c = Ok (c', a) →
    catalogue_history (c' :: c :: hist).

(** What an audit row guarantees. *)
Definition audit_ok (c : Catalogue) (a : Migration) : Prop :=
  (∃ r, definitions c !! old_metric_id a = Some r ∧ metric_type_from_sql (row_type (base r)) = Custom) ∧
  (∃ r, definitions c !! new_metric_id a = Some r ∧ metric_type_from_sql (row_type (base r)) ∉ [Custom; MetricUnspecified]) ∧
  (∃ s, approved s ∧ parse_uuid s = Some (shadow_run_result_id a)) ∧ mig_operator a ≠ [].

Record catalogue_ok (c : Catalogue) : Prop := mk_catalogue_ok
  { co_graph : store_ok (metrics c);
    co_audit : Forall (audit_ok c) (migrations c);
    co_old : NoDup (old_metric_id <$> migrations c);
    co_new : NoDup (new_metric_id <$> migrations c);
    co_id : NoDup (migration_id <$> migrations c) }.

(** Tables only grow. *)
Definition extends (c0 c : Catalogue) : Prop := definitions c0 ⊆ definitions c ∧ migrations c0 `prefix_of` migrations c.

Lemma extends_metrics c0 c : extends c0 c → metrics c0 ⊆ metrics c.
Proof. intros [Hd _]. by apply map_fmap_mono. Qed.

Lemma audit_mono c c' a : definitions c ⊆ definitions c' → audit_ok c a → audit_ok c' a.
Proof.
  intros Hs ((r & Hr & Ht) & (r' & Hr' & Ht') & Happ). split_and!; [exists r|exists r'|apply Happ..]; (split; [|done]); by eapply lookup_weaken.
Qed.

(** A validated metric may be inserted. *)
Lemma graph_insert hist c r m now c' conflict : (∀ old, old ∈ hist → extends old c) → store_ok (metrics c) →
  reads_from (metrics <$> hist) r → valid_utf8 (metricql_expression (definition m)) = true →
  validate_metric_definition (definition m) r = Ok tt → insert_metric conflict m now c = Ok c' →
  store_ok (metrics c') ∧ extends c c'.
Proof.
  intros Hext Hok Hr Ht Hv (Hn & _ & ->)%insert_metric_ok. split.
  - rewrite metrics_insert. apply store_ok_insert; [by rewrite metrics_lookup, Hn|done| |done].
    intros y Hy. eapply accepted_references; [|done..]. intros ids Hall id Hid. cbn [exists_all_metrics interleaved_reads] in Hall.
    destruct (proj1 (pg_exists_all_true _ _) Hall id Hid) as [row Hrow]. exists row. eapply lookup_weaken; [exact Hrow|].
    destruct Hr as [Hin _]. apply list_elem_of_fmap in Hin as (c0 & -> & Hc0). by apply extends_metrics, Hext.
  - split; [by apply insert_subseteq|done].
Qed.

Lemma extends_trans c1 c2 c3 : extends c1 c2 → extends c2 c3 → extends c1 c3.
Proof. intros [? ?] [? ?]. split; by etrans. Qed.

(** What the checks of a migration establish. *)
Lemma migrate_checks_ok {S} `{MetricLookup S} (lookup : S) shadow_results req m old uuid op :
  migrate_checks parse_uuid lookup shadow_results req = Ok (m, old, uuid, op) →
  metric_type (definition m) ≠ Custom ∧ get_metric_type lookup old = Ok Custom ∧ validate_metric_definition (definition m) lookup = Ok tt ∧
  (∃ s, parse_uuid s = Some uuid ∧ shadow_results s = inr (lit "APPROVED")) ∧ op ≠ [].
Proof.
  unfold migrate_checks, migrate_shape. intros H1. apply bind_ok_inv in H1 as ([[[[m' old'] shadow] uuid'] op'] & H2 & H1).
  apply bind_ok_inv in H1 as ([] & Ho & H1). apply bind_ok_inv in H1 as ([] & Hv%map_err_ok & H1).
  apply bind_ok_inv in H1 as ([] & Hs & H1). injection H1 as <- <- <- <-.
  apply bind_ok_inv in H2 as (m1 & _ & H2). do 2 apply bind_ok_inv in H2 as (? & _ & H2).
  apply bind_ok_inv in H2 as ([] & Hop%reject_if_ok & H2). apply bind_ok_inv in H2 as (u & Hu & H2).
  apply bind_ok_inv in H2 as ([] & Hc%reject_if_ok & H2). apply bind_ok_inv in H2 as ([] & _ & H2). injection H2 as <- <- <- <- <-.
  split_and!; [by apply bool_decide_eq_false in Hc| |done| |by apply bool_decide_eq_false in Hop].
  - unfold check_old_metric in Ho. destruct (get_metric_type lookup _) as [[]|[]| |]; try done.
  - eexists. split; [unfold ok_or in Hu; destruct (parse_uuid _) eqn:E; [|done]; injection Hu as <-; exact E|]. unfold check_shadow in Hs.
    destruct (shadow_results _) as [[[] ?]|st]; try done. apply reject_if_ok, negb_false_iff in Hs.
    f_equal. unfold is_lit in Hs. by apply bool_decide_eq_true in Hs.
Qed.

Lemma insert_migration_ok a c c' : insert_migration a c = Ok c' →
  old_metric_id a ∉ old_metric_id <$> migrations c ∧ migration_id a ∉ migration_id <$> migrations c ∧
  c' = mk_catalogue (definitions c) (migrations c ++ [a]).
Proof. unfold insert_migration. case_bool_decide; [done|]. case_bool_decide; [done|]. by intros [= <-]. Qed.

Lemma migrate_metric_ok t m old uuid op c c' a : migrate_metric t m old uuid op c = Ok (c', a) →
  ∃ c1, insert_metric (lit "new metric_id already exists: " ++ metric_id (definition m)) m (tx_now t) c = Ok c1 ∧
    insert_migration a c1 = Ok c' ∧ a = mk_migration (tx_uuid t) old (metric_id (definition m)) uuid op (tx_now t).
Proof.
  unfold migrate_metric. intros H1. apply bind_ok_inv in H1 as (c1 & Hi & H1). apply bind_ok_inv in H1 as (c2 & Hm & H1).
  destruct (tx_commits t); [|done]. injection H1 as <- <-. by exists c1.
Qed.

Lemma NoDup_snoc {A} (l : list A) x : NoDup l → x ∉ l → NoDup (l ++ [x]).
Proof. intros Hl Hx. apply NoDup_app. split_and!; [done| |apply NoDup_singleton]. by intros y Hy ->%list_elem_of_singleton. Qed.

(** A migration keeps a sound catalogue sound. *)
Lemma migrate_sound hist c r shadow_results req t m old uuid op c' a : (∀ o, o ∈ hist → extends o c) → catalogue_ok c →
  reads_from (metrics <$> hist) r → valid_utf8 (metricql_expression (definition m)) = true →
  (∀ s, shadow_results s = inr (lit "APPROVED") → approved s) →
  migrate_checks parse_uuid r shadow_results req = Ok (m, old, uuid, op) → migrate_metric t m old uuid op c = Ok (c', a) →
  catalogue_ok c' ∧ extends c c'.
Proof.
  intros Hext Hok Hr Ht Happ Hc Hm. apply migrate_checks_ok in Hc as (Hnc & Hold & Hv & (s & Hu & Hs) & Hop).
  apply migrate_metric_ok in Hm as (c1 & Hi & Ha & Ea). destruct (graph_insert hist c r m _ c1 _ Hext (co_graph _ Hok) Hr Ht Hv Hi) as [Hg1 He1].
  apply insert_metric_ok in Hi as (Hn & Hchk & ->). apply insert_migration_ok in Ha as (Hno & Hni & ->).
  cbn [insert_definition migrations definitions] in *. split; [|split; [apply He1|by apply prefix_app_r]].
  assert (∀ b, b ∈ migrations c → audit_ok c b) as Hall by by apply Forall_forall, co_audit.
  assert (new_metric_id a ∉ new_metric_id <$> migrations c) as Hnn.
  { intros (b & Eb & Hb)%list_elem_of_fmap. destruct (Hall b Hb) as (_ & (rn & Hrn & _) & _). rewrite <- Eb, Ea in Hrn. cbn in Hrn. congruence. }
  constructor; cbn [migrations definitions metrics].
  - exact Hg1.
  - apply Forall_app. split; [eapply Forall_impl; [by apply co_audit|]; intros b; apply audit_mono, He1|].
    apply Forall_singleton. rewrite Ea. split_and!; cbn [old_metric_id new_metric_id shadow_run_result_id mig_operator definitions].
    + cbn [get_metric_type interleaved_reads] in Hold. unfold pg_metric_type, find_row in Hold.
      destruct (at_type r old !! old) as [row|] eqn:Erow; [|done]. cbn in Hold. injection Hold as Hold.
      destruct Hr as [_ Hr]. destruct (Hr old) as (Hin & _). apply list_elem_of_fmap in Hin as (c0 & E0 & Hc0).
      rewrite E0, metrics_lookup in Erow. apply fmap_Some in Erow as (ro & Hro & ->). exists ro. split; [|done].
      eapply lookup_weaken; [exact Hro|]. etrans; [apply (Hext c0 Hc0)|apply He1].
    + exists (catalogue_row m (tx_now t)). rewrite lookup_insert_eq. split; [done|]. cbn [base catalogue_row].
      unfold row_checks in Hchk. apply andb_prop in Hchk as [Hchk _]. apply negb_true_iff, bool_decide_eq_false in Hchk.
      rewrite !not_elem_of_cons. split_and!; [cbn [row_of row_type]; by rewrite metric_type_round_trip|done|apply not_elem_of_nil].
    + exists s. split; [by apply Happ|done].
    + done.
  - rewrite fmap_app. apply NoDup_snoc; [by apply co_old|exact Hno].
  - rewrite fmap_app. apply NoDup_snoc; [by apply co_new|exact Hnn].
  - rewrite fmap_app. apply NoDup_snoc; [by apply co_id|exact Hni].
Qed.

Lemma metrics_empty l x : metrics (mk_catalogue ∅ l) !! x = None.
Proof. rewrite metrics_lookup. cbn [definitions]. by rewrite lookup_empty. Qed.

Lemma empty_sound : catalogue_ok (mk_catalogue ∅ []).
Proof.
  assert (∀ x y, ¬ edge (metrics (mk_catalogue ∅ [])) x y) as Hno.
  { intros x y [r Hr]%edge_source. by rewrite metrics_empty in Hr. }
  constructor; try constructor.
  - by intros x y ?%Hno.
  - intros x Hx. inversion Hx; subst; by eapply Hno.
  - intros x r e Hx. by rewrite metrics_empty in Hx.
Qed.

Lemma catalogue_invariant hist : catalogue_history hist →
  ∃ c past, hist = c :: past ∧ catalogue_ok c ∧ ∀ old, old ∈ hist → extends old c.
Proof.
  assert (∀ c c' (hist : list Catalogue), extends c c' → (∀ old, old ∈ hist → extends old c) → ∀ old, old ∈ c' :: hist → extends old c') as Hgrow.
  { intros c c' hist' He Hh old [-> |Ho]%elem_of_cons; [done|]. eapply extends_trans; [by apply Hh|done]. }
  induction 1 as [|hist c r m now c' _ (? & ? & [= <- <-] & Hok & Hext) Hr Ht Hv Hc
    |hist c r sr req t m old uuid op c' a _ (? & ? & [= <- <-] & Hok & Hext) Hr Ht Happ Hc Hm].
  - eexists _, []. split_and!; [done|apply empty_sound|]. by intros ? ->%list_elem_of_singleton.
  - destruct (graph_insert _ _ _ _ _ _ _ Hext (co_graph _ Hok) Hr Ht Hv Hc) as [Hg He]. eexists _, _. split_and!; [done| |by eapply Hgrow].
    apply insert_metric_ok in Hc as (_ & _ & ->). destruct Hok as [_ Ha Ho Hn Hi]. constructor; [exact Hg| |done..].
    eapply Forall_impl; [exact Ha|]. intros b. apply audit_mono, He.
  - destruct (migrate_sound _ _ _ _ _ _ _ _ _ _ _ _ Hext Hok Hr Ht Happ Hc Hm) as [Hok' He]. eexists _, _. split_and!; [done|done|by eapply Hgrow].
Qed.

(** [C14] Migrations are sound in every interleaving: at every point of every history of
    concurrent create and migrate requests the stored references resolve without cycles; each
    audit row names a CUSTOM metric that is still there and a replacement that is there and
    is not CUSTOM, with an operator and a run M3 approved; no metric is migrated twice and no
    replacement serves two; and no metric or audit row is ever changed or lost. *)
Theorem migrations_sound c past : catalogue_history (c :: past) →
  ((∀ x y, edge (metrics c) x y → is_Some (metrics c !! y)) ∧ ∀ x, ¬ tc (edge (metrics c)) x x) ∧
  Forall (audit_ok c) (migrations c) ∧ NoDup (old_metric_id <$> migrations c) ∧ NoDup (new_metric_id <$> migrations c) ∧
  ∀ old, old ∈ past → extends old c.
Proof.
  intros (? & ? & [= <- <-] & [Hg Ha Ho Hn _] & Hext)%catalogue_invariant. split_and!; [apply Hg|apply Hg|done|done|done|].
  intros old Hold. apply Hext. by right.
Qed.
End histories.

(** ** A history, and what a migration does not check *)

Definition custom_metric : Message :=
  mk_message (mk_metric (lit "old") (lit "Old") Custom None [] (lit "SELECT 1")) sample_metadata [] [] [] f64_zero.
Definition replacement : Message :=
  mk_message (mk_metric (lit "new") (lit "New") Metricql None (lit "@old / 2") []) sample_metadata [] [] [] f64_zero.
Definition unrelated : Message := mk_message mean_a sample_metadata [] [] [] f64_zero.

Definition any_uuid (s : str) : option Uuid := Some s.
Definition run_approved (s : str) : ShadowAnswer := if bool_decide (s = lit "run") then inr (lit "APPROVED") else inr (lit "PENDING").
Definition tx_ok (id : Uuid) : Transaction := mk_transaction 1%Z id true.

Definition sample_request : MigrateRequest := mk_migrate_request (lit "old ") (Some replacement) (lit "run") (lit "alice").
Definition catalogue_custom : Catalogue := insert_definition custom_metric 0%Z (mk_catalogue ∅ []).
Definition sample_audit : Migration := mk_migration (lit "m") (lit "old") (lit "new") (lit "run") (lit "alice") 1%Z.
Definition catalogue_migrated : Catalogue :=
  mk_catalogue (definitions (insert_definition replacement 1%Z catalogue_custom)) [sample_audit].

Lemma migrations_sound_witness :
  catalogue_history any_uuid (λ s, s = lit "run") [catalogue_migrated; catalogue_custom; mk_catalogue ∅ []] ∧
  Forall (audit_ok any_uuid (λ s, s = lit "run") catalogue_migrated) (migrations catalogue_migrated).
Proof.
  assert (catalogue_history any_uuid (λ s, s = lit "run") [catalogue_migrated; catalogue_custom; mk_catalogue ∅ []]) as Hh.
  { eapply (catalogue_migrate _ _ [mk_catalogue ∅ []] catalogue_custom (reads_at (metrics catalogue_custom)) run_approved
      sample_request (tx_ok (lit "m")) replacement (lit "old") (lit "run") (lit "alice") _ sample_audit).
    - eapply (catalogue_create _ _ [] _ (reads_at (metrics (mk_catalogue ∅ []))) custom_metric 0%Z); [constructor| |vm_compute; reflexivity..].
      split; [|intros id; split_and!]; by left.
    - split; [|intros id; split_and!]; by left.
    - vm_compute; reflexivity.
    - intros s Hs. unfold run_approved in Hs. destruct (bool_decide (s = lit "run")) eqn:E; [by apply bool_decide_eq_true in E|discriminate Hs].
    - vm_compute; reflexivity.
    - vm_compute; reflexivity. }
  split; [exact Hh|]. exact (proj1 (proj2 (migrations_sound _ _ _ _ Hh))).
Defined.

(** The run is only asked for its status: any approved run, of any metric, lets any old
    metric be replaced by any valid definition. *)
Lemma shadow_run_unrelated parse_uuid {S} `{MetricLookup S} (lookup : S) answer old m run operator :
  parse_uuid (trim run) = Some (trim run) → answer (trim run) = inr (lit "APPROVED") →
  get_metric_type lookup (trim old) = Ok Custom → validate_metric_definition (definition m) lookup = Ok tt →
  metric_type (definition m) ≠ Custom → trim (metric_id (definition m)) ≠ trim old →
  trim old ≠ [] → trim run ≠ [] → trim operator ≠ [] →
  migrate_checks parse_uuid lookup answer (mk_migrate_request old (Some m) run operator) = Ok (m, trim old, trim run, trim operator).
Proof.
  intros Hu Ha Ho Hv Ht Hid H1 H2 H3. unfold migrate_checks, migrate_shape. cbn [req_old_metric_id req_new_metric req_shadow_run_result_id req_operator ok_or mbind result_bind].
  do 3 rewrite (bool_decide_eq_false_2 (trim _ = [])) by done. cbn [reject_if mbind result_bind]. rewrite Hu. cbn [ok_or mbind result_bind].
  rewrite (bool_decide_eq_false_2 (metric_type _ = Custom)), (bool_decide_eq_false_2 (trim (metric_id _) = _)) by done.
  cbn [reject_if mbind result_bind mret result_ret]. unfold check_old_metric. rewrite Ho. cbn [mbind result_bind mret result_ret].
  rewrite Hv. cbn [map_err mbind result_bind]. rewrite Ha. reflexivity.
Qed.

(** One approved run carries two migrations of unrelated metrics. *)
Lemma run_reused : ∃ c1 a1 c2 a2,
  let custom2 := mk_message (mk_metric (lit "old2") (lit "O") Custom None [] (lit "SELECT 2")) sample_metadata [] [] [] f64_zero in
  let c0 := insert_definition custom2 0%Z catalogue_custom in
  migrate_metric_definition any_uuid run_approved (tx_ok (lit "m1")) sample_request c0 = Ok (c1, a1) ∧
  migrate_metric_definition any_uuid run_approved (tx_ok (lit "m2"))
    (mk_migrate_request (lit "old2") (Some unrelated) (lit "run") (lit "bob")) c1 = Ok (c2, a2).
Proof. eexists _, _, _, _. split; vm_compute; reflexivity. Qed.

(** The surrogate target of a metric is not stored. *)
Lemma surrogate_target_lost m : surrogate_target_metric_id (metadata (stored m)) = [].
Proof. done. Qed.
