(* ===== verification/Migrator.v ===== *)
(** The custom-metric migration command line: the report and its JSON forms
    ([migration/report.rs], [migration/cli.rs]) and the four subcommands scan, translate,
    shadow and apply ([bin/custom_migrator.rs]). Files are the JSON values they hold; M3 is
    the script of its answers, M5 the catalogue and its handlers. Log lines, terminal output
    and the two wall-clock timestamps of each output file are left out. *)
From Stdlib Require Import Ascii String SpecFloat.
From S2P Require Import Prelude Bytes F64 Targeting MetricStore Cycle MetricDefinition SqlAst Tier1 Tier2 Migration Json MetricCatalogue.

(** ** Metric definitions as JSON *)

Definition metric_type_number (t : MetricType) : Z :=
  match t with
  | MetricUnspecified => 0 | Mean => 1 | Proportion => 2 | Ratio => 3 | Count => 4 | Percentile => 5 | Custom => 6
  | FilteredMean => 7 | Composite => 8 | WindowedCount => 9 | Metricql => 10
  end.

(** An unknown number reads as unspecified. *)
Definition metric_type_of_number (n : Z) : MetricType :=
  match n with
  | 1 => Mean | 2 => Proportion | 3 => Ratio | 4 => Count | 5 => Percentile | 6 => Custom
  | 7 => FilteredMean | 8 => Composite | 9 => WindowedCount | 10 => Metricql | _ => MetricUnspecified
  end%Z.

Record ReportEntry := mk_report_entry { original_metric_id : str; entry_result : ClassificationResult }.

(** [ReportSummary] and [TierCounts]. *)
Record ReportSummary := mk_summary
  { total : nat; tier1_filtered_mean : nat; tier1_composite : nat; tier1_windowed_count : nat; tier2_metricql : nat;
    tier3_untranslatable : nat }.

(** The report's name of a tier. *)
Definition tier_name (r : ClassificationResult) : str :=
  match r with
  | Tier1Filtered _ _ => lit "tier1_filtered_mean" | Tier1Composite _ _ => lit "tier1_composite"
  | Tier1WindowedCount _ _ => lit "tier1_windowed_count" | Tier2Metricql _ _ => lit "tier2_metricql"
  | Tier3Untranslatable _ _ => lit "tier3_untranslatable"
  end.

Definition result_reason (r : ClassificationResult) : str :=
  match r with
  | Tier1Filtered _ why | Tier1Composite _ why | Tier1WindowedCount _ why | Tier2Metricql _ why | Tier3Untranslatable why _ => why
  end.

Definition result_parse_error (r : ClassificationResult) : option str :=
  match r with Tier3Untranslatable _ e => e | _ => None end.

(** The entries of a tier. *)
Definition count_tier (tier : str) (entries : list ReportEntry) : nat :=
  length (filter (λ e, tier_name (entry_result e) = tier) entries).

Definition build_summary (entries : list ReportEntry) : ReportSummary :=
  mk_summary (length entries) (count_tier (lit "tier1_filtered_mean") entries) (count_tier (lit "tier1_composite") entries)
    (count_tier (lit "tier1_windowed_count") entries) (count_tier (lit "tier2_metricql") entries)
    (count_tier (lit "tier3_untranslatable") entries).

Inductive MigratorError :=
| ReportNotAnArray | EntryNotAnObject | EntriesMissing | ProposalMissing (id tier : str)
| EmptyDuration | NoUnit (s : str) | BadMagnitude (num : str) | ZeroDuration | DurationOverflow | UnknownUnit (unit : str)
| Unclassified (* never: classification has no error of its own *)
| ModeRequired | OperatorRequired | ConnectFailed | AuditNotWritten | ListFailed (c : Code) (message : str).

Section json.
Context {J : Type} `{JsonValue J}.

(** A text field that is written only when it is not empty. *)
Definition nonempty_field (k s : str) : list (str * J) := match s with [] => [] | _ => [(k, json_str s)] end.

(** The entry of the oneof, in the order of [metric_to_json]. *)
Definition type_config_entry (c : TypeConfig) : str * J :=
  match c with
  | TypeFilteredMean fm =>
      (lit "filtered_mean",
       json_object [(lit "filter_sql", json_str (fm_filter_sql fm)); (lit "value_column", json_str (value_column fm))])
  | TypeComposite comp =>
      (lit "composite",
       json_object [(lit "operands", json_array ((λ o, json_object [(lit "metric_id", json_str (operand_id o)); (lit "weight", json_float (operand_weight o))]) <$> operands comp));
                    (lit "operator", json_int (operator comp))])
  | TypeWindowedCount wc =>
      (lit "windowed_count",
       json_object [(lit "event_type", json_str (MetricStore.event_type wc)); (lit "filter_sql", json_str (wc_filter_sql wc));
                    (lit "window_hours", json_int (window_hours wc))])
  end.

Definition type_config_entries (c : option TypeConfig) : list (str * J) :=
  match c with Some c => [type_config_entry c] | None => [] end.

(** What both JSON forms start with. *)
Definition common_fields (m : Message) : list (str * J) :=
  [(lit "metric_id", json_str (metric_id (definition m))); (lit "name", json_str (metric_name (definition m)));
   (lit "type", json_int (metric_type_number (metric_type (definition m))))]
  ++ nonempty_field (lit "description") (description (metadata m))
  ++ nonempty_field (lit "source_event_type") (source_event_type m).

Definition metric_to_json (m : Message) : J :=
  json_object (common_fields m ++ type_config_entries (type_config (definition m))
    ++ nonempty_field (lit "metricql_expression") (metricql_expression (definition m))
    ++ nonempty_field (lit "custom_sql") (custom_sql (definition m))).

(** The object [scan] writes of a metric. *)
Definition scan_to_json (m : Message) : J :=
  json_object (common_fields m ++ nonempty_field (lit "custom_sql") (custom_sql (definition m))
    ++ nonempty_field (lit "metricql_expression") (metricql_expression (definition m))
    ++ type_config_entries (type_config (definition m))).

(** The first of the three nested objects that is there. *)
Definition type_config_from (v : J) : option TypeConfig :=
  match get v (lit "filtered_mean") with
  | Some fm => Some (TypeFilteredMean (filtered_mean_from_json fm))
  | None =>
      match get v (lit "windowed_count") with
      | Some wc => Some (TypeWindowedCount (windowed_count_from_json wc))
      | None =>
          match get v (lit "composite") with
          | Some comp => Some (TypeComposite (composite_from_json comp))
          | None => None
          end
      end
  end.

(** The proto3 defaults, with a description. *)
Definition default_metadata (description : str) : Metadata := mk_metadata description false [] false [] f64_zero 0 0.

Definition json_to_metric_definition (v : J) : result MigratorError Message :=
  if negb (is_object v) then Err EntryNotAnObject
  else
    mret (mk_message
      (mk_metric (get_str v (lit "metric_id")) (get_str v (lit "name")) (metric_type_of_number (get_i32 v (lit "type")))
         (type_config_from v) (get_str v (lit "metricql_expression")) (get_str v (lit "custom_sql")))
      (default_metadata (get_str v (lit "description"))) (get_str v (lit "source_event_type")) [] [] f64_zero).

(** ** The report *)

Definition nat_json (n : nat) : J := json_int (Z.of_nat n).
Definition opt_json (o : option str) : J := match o with Some s => json_str s | None => json_null end.

Definition summary_json (s : ReportSummary) : J :=
  json_object [(lit "total", nat_json (total s)); (lit "tier1_filtered_mean", nat_json (tier1_filtered_mean s));
               (lit "tier1_composite", nat_json (tier1_composite s)); (lit "tier1_windowed_count", nat_json (tier1_windowed_count s));
               (lit "tier2_metricql", nat_json (tier2_metricql s)); (lit "tier3_untranslatable", nat_json (tier3_untranslatable s))].

Definition entry_json (e : ReportEntry) : J :=
  let r := entry_result e in
  json_object [(lit "original_metric_id", json_str (original_metric_id e)); (lit "tier", json_str (tier_name r));
               (lit "reason", json_str (result_reason r));
               (lit "proposal", match proposal_of r with Some m => metric_to_json m | None => json_null end);
               (lit "parse_error", opt_json (result_parse_error r))].

Definition render_json (entries : list ReportEntry) : J :=
  json_object [(lit "summary", summary_json (build_summary entries)); (lit "entries", json_array (entry_json <$> entries))].

(** ** scan *)

(** One page of the listing for a page token: the metrics and the next token, or a failure. *)
Definition Page : Type := Code * str + list Message * str.

Fixpoint scan_loop (fuel : nat) (list_page : str → Page) (page_token : str) (all_metrics : list Message) :
    result MigratorError (list Message) :=
  match fuel with
  | O => OutOfFuel
  | S fuel =>
      match list_page page_token with
      | inl (c, message) => Err (ListFailed c message)
      | inr (metrics, next_token) =>
          let all_metrics := all_metrics ++ metrics in
          match next_token with
          | [] => mret all_metrics
          | _ => scan_loop fuel list_page next_token all_metrics
          end
      end
  end.

Definition scan (fuel : nat) (list_page : str → Page) : result MigratorError J :=
  all_metrics ← scan_loop fuel list_page [] [];
  mret (json_array (scan_to_json <$> all_metrics)).
End json.

(** ** translate *)

(** [MigratorLookup]: the scanned identifiers. *)
Record MigratorLookup := from_ids { known_ids : gset str }.

#[export] Instance migrator_lookup : MetricLookup MigratorLookup := {
  exists_all_metrics l ids := Ok (forallb (λ id, bool_decide (id ∈ known_ids l)) ids);
  get_composite_operands l id := Ok [];
  get_metricql_refs l id := Ok [];
  get_metric_type l id := if bool_decide (id ∈ known_ids l) then Ok FilteredMean else Err (NotFound id) }.

Section translate.
Context {J : Type} `{JsonValue J} (parse_sql : str → str + list Statement).

Definition translate_entry (lookup : MigratorLookup) (m : Message) : result MigratorError ReportEntry :=
  r ← map_err (λ _, Unclassified) (classify_and_translate parse_sql (custom_sql (definition m)) m lookup);
  mret (mk_report_entry (metric_id (definition m)) r).

Definition translate_subcommand (report : J) : result MigratorError (J * ReportSummary) :=
  arr ← ok_or (as_array report) ReportNotAnArray;
  metrics ← mapM json_to_metric_definition arr;
  let lookup := from_ids (list_to_set ((λ m, metric_id (definition m)) <$> metrics)) in
  entries ← mapM (translate_entry lookup) metrics;
  mret (render_json entries, build_summary entries).
End translate.

(** ** shadow *)

Definition STATUS_SCHEDULING_FAILED : str := lit "SCHEDULING_FAILED".

(** Durations are nanoseconds. *)
Definition from_secs (n : Z) : Z := (n * 10 ^ 9)%Z.
Definition as_secs (d : Z) : Z := (d / 10 ^ 9)%Z.
Definition DEFAULT_POLL_INTERVAL : Z := from_secs 60.

(** [str::parse::<u64>] of ASCII digits. *)
Definition parse_u64_digits (ds : str) : option Z :=
  if bool_decide (ds = []) || negb (forallb is_ascii_digit ds) then None
  else if (digits_value ds <? 2 ^ 64)%Z then Some (digits_value ds) else None.

(** It takes a plus sign too. *)
Definition parse_u64 (s : str) : option Z :=
  match s with
  | c :: ds => parse_u64_digits (if bool_decide (c = "+"%char) then ds else s)
  | [] => None
  end.

Definition checked_mul_u64 (a b : Z) : option Z := if (a * b <? 2 ^ 64)%Z then Some (a * b)%Z else None.

(** The leading digits, and the rest. *)
Fixpoint split_digits (s : str) : str * str :=
  match s with
  | c :: s' => if is_ascii_digit c then let '(num, unit) := split_digits s' in (c :: num, unit) else ([], s)
  | [] => ([], [])
  end.

(** The seconds of a unit. *)
Definition unit_secs (unit : str) : option Z :=
  if is_lit unit "s" then Some 1%Z else if is_lit unit "m" then Some 60%Z else if is_lit unit "h" then Some 3600%Z
  else if is_lit unit "d" then Some 86400%Z else None.

Definition parse_duration (s : str) : result MigratorError Z :=
  let s := trim s in
  _ ← reject_if (bool_decide (s = [])) EmptyDuration;
  let '(num, unit) := split_digits s in
  _ ← reject_if (bool_decide (unit = [])) (NoUnit s);
  n ← ok_or (parse_u64 num) (BadMagnitude num);
  _ ← reject_if (n =? 0)%Z ZeroDuration;
  k ← ok_or (unit_secs unit) (UnknownUnit unit);
  secs ← ok_or (checked_mul_u64 n k) DurationOverflow;
  mret (from_secs secs).

(** The environment variable, when it is set. *)
Definition poll_interval_from_env (var : option str) : Z :=
  match var ≫= parse_u64 with
  | Some n => if (0 <? n)%Z then from_secs n else DEFAULT_POLL_INTERVAL
  | None => DEFAULT_POLL_INTERVAL
  end.

(** [{:?}] of a code. *)
Definition code_debug (c : Code) : str :=
  match c with
  | Cancelled => lit "Cancelled" | CodeUnknown => lit "Unknown" | InvalidArgument => lit "InvalidArgument"
  | DeadlineExceeded => lit "DeadlineExceeded" | CodeNotFound => lit "NotFound" | CodeAlreadyExists => lit "AlreadyExists"
  | PermissionDenied => lit "PermissionDenied" | ResourceExhausted => lit "ResourceExhausted"
  | FailedPrecondition => lit "FailedPrecondition" | Aborted => lit "Aborted" | OutOfRange => lit "OutOfRange"
  | Unimplemented => lit "Unimplemented" | Internal => lit "Internal" | Unavailable => lit "Unavailable"
  | DataLoss => lit "DataLoss" | Unauthenticated => lit "Unauthenticated"
  end.

Record PromoteAnswer := mk_promote { promote_status : str; promote_result_id : str; promote_reason : str }.

(** What M3 answers to one candidate's calls, and what the clock reads since the polling
    started: after the k-th poll, and again for the message. *)
Record RunScript := mk_run_script
  { schedule : Code * str + str; promote : nat → Code * str + PromoteAnswer; elapsed : nat → Z; elapsed_again : nat → Z;
    shadow_progress : Code * str + Z * Z }.

Definition budget_exhausted (spent budget : Z) : str :=
  lit "budget exhausted before APPROVED/REJECTED (" ++ show_i64 (as_secs spent) ++ lit "s of " ++ show_i64 (as_secs budget)
  ++ lit "s elapsed)".

(** An answer that ends the polling: the status, the result identifier, the reason. *)
Definition terminal (a : Code * str + PromoteAnswer) : option (str * str * str) :=
  match a with
  | inr p =>
      if is_lit (promote_status p) "APPROVED" then Some (promote_status p, promote_result_id p, promote_reason p)
      else if is_lit (promote_status p) "REJECTED" then Some (promote_status p, [], promote_reason p)
      else if is_lit (promote_status p) "PENDING" then None
      else Some (promote_status p, [], promote_reason p)
  | inl _ => None
  end.

(** [poll_until_terminal] from its k-th poll on. The sleep is in the clock readings. *)
Fixpoint poll_until_terminal (fuel : nat) (s : RunScript) (budget : Z) (k : nat) : result MigratorError (str * str * str) :=
  match fuel with
  | O => OutOfFuel
  | S fuel =>
      match terminal (promote s k) with
      | Some r => mret r
      | None =>
          if (budget <=? elapsed s k)%Z then mret (lit "PENDING", [], budget_exhausted (elapsed_again s k) budget)
          else poll_until_terminal fuel s budget (S k)
      end
  end.

(** Polls that are enough when each waits for the interval. *)
Definition poll_fuel (budget interval : Z) : nat := Z.to_nat (budget / interval) + 2.

Definition snapshot_progress (a : Code * str + Z * Z) : Z * Z := match a with inr p => p | inl _ => (0, 0)%Z end.

Section shadow.
Context {J : Type} `{JsonValue J}.

Record ShadowOutcome := mk_shadow_outcome
  { so_original_metric_id : str; shadow_id : str; result_id : str; so_status : str; so_reason : str;
    days_within_tolerance : Z; total_days : Z; candidate_json : J }.

Record ShadowCandidate := mk_shadow_candidate
  { sc_original_metric_id : str; sc_tier : str; sc_metric : Message; sc_json : J }.

Definition is_shadow_eligible_tier (tier : str) : bool :=
  is_lit tier "tier1_filtered_mean" || is_lit tier "tier1_composite" || is_lit tier "tier1_windowed_count"
  || is_lit tier "tier2_metricql".

(** One entry of the proposals; a tier-3 one is skipped. *)
Definition shadow_candidate (entry : J) : result MigratorError (option ShadowCandidate) :=
  let id := get_str entry (lit "original_metric_id") in
  let tier := get_str entry (lit "tier") in
  if negb (is_shadow_eligible_tier tier) then mret None
  else
    proposal ← ok_or (get entry (lit "proposal") ≫= λ v, if is_null v then None else Some v) (ProposalMissing id tier);
    m ← json_to_metric_definition proposal;
    mret (Some (mk_shadow_candidate id tier m proposal)).

Definition extract_shadow_candidates (v : J) : result MigratorError (list ShadowCandidate) :=
  entries ← ok_or (get v (lit "entries") ≫= as_array) EntriesMissing;
  candidates ← mapM shadow_candidate entries;
  mret (omap id candidates).

Definition run_one_shadow (s : RunScript) (cand : ShadowCandidate) (budget poll_interval : Z) : result MigratorError ShadowOutcome :=
  match schedule s with
  | inl (c, message) =>
      mret (mk_shadow_outcome (sc_original_metric_id cand) [] [] STATUS_SCHEDULING_FAILED
        (lit "ScheduleShadowComputation failed (" ++ code_debug c ++ lit "): " ++ message) 0 0 (sc_json cand))
  | inr id =>
      '(status, result, reason) ← poll_until_terminal (poll_fuel budget poll_interval) s budget 0;
      let '(days, total) := snapshot_progress (shadow_progress s) in
      mret (mk_shadow_outcome (sc_original_metric_id cand) id result status reason days total (sc_json cand))
  end.

(** [log_summary]: the approved outcomes, counted. *)
Definition log_summary (outcomes : list ShadowOutcome) : nat :=
  length (filter (λ o, so_status o = lit "APPROVED") outcomes).

(** The script of each run: of its number and its request, an original identifier and a
    candidate. *)
Definition M3 : Type := nat → str → Message → RunScript.

Fixpoint shadow_loop (m3 : M3) (budget poll_interval : Z) (i : nat) (candidates : list ShadowCandidate) :
    result MigratorError (list ShadowOutcome) :=
  match candidates with
  | [] => mret []
  | cand :: candidates =>
      o ← run_one_shadow (m3 i (sc_original_metric_id cand) (sc_metric cand)) cand budget poll_interval;
      os ← shadow_loop m3 budget poll_interval (S i) candidates;
      mret (o :: os)
  end.

(** The exit code and the outcomes written. *)
Definition shadow_subcommand (m3 : M3) (duration_str : str) (env : option str) (proposals : J) :
    result MigratorError (Z * list ShadowOutcome) :=
  budget ← parse_duration duration_str;
  let poll_interval := poll_interval_from_env env in
  candidates ← extract_shadow_candidates proposals;
  outcomes ← shadow_loop m3 budget poll_interval 0 candidates;
  mret (if (0 <? log_summary outcomes)%nat then 0%Z else 1%Z, outcomes).
End shadow.
Arguments ShadowOutcome J : clear implicits.
Arguments ShadowCandidate J : clear implicits.

(** ** apply *)

(** Why an outcome failed, whose text the outcome carries. *)
Inductive ApplyError := DecodeFailed | Refused (e : MigrateError) | CallLost (message : str).

Record ApplyOutcome := mk_apply_outcome
  { ao_original_metric_id : str; ao_new_metric_id : str; ao_shadow_run_result_id : str; ao_migration_id : str;
    ao_applied_at : option Instant; ao_status : str; ao_error : option ApplyError }.

Record ApplyOutput := mk_apply_output
  { ap_operator : str; ap_outcomes : list ApplyOutcome; total_attempted : nat; succeeded : nat; failed : nat }.

(** What happens to a call: its request or its response may be lost, which the client sees
    as a code and a message. *)
Inductive Delivery := Delivered | RequestLost (c : Code) (message : str) | ResponseLost (c : Code) (message : str).

(** One call of the loop: what others wrote before it, the database's part of its
    transaction, what M3 answers to M5 during it, and its delivery. *)
Record ApplyCall := mk_apply_call
  { others : Catalogue → Catalogue; call_tx : Transaction; call_shadow : str → ShadowAnswer; delivery : Delivery }.

Section apply.
Context {J : Type} `{JsonValue J} (parse_uuid : str → option Uuid).

Definition partition_outcomes (outcomes : list (ShadowOutcome J)) : list (ShadowOutcome J) * list (ShadowOutcome J) :=
  let approved o := is_lit (so_status o) "APPROVED" && negb (bool_decide (result_id o = [])) in
  (List.filter approved outcomes, List.filter (λ o, negb (approved o)) outcomes).

Definition failed_outcome (o : ShadowOutcome J) (status : str) (e : ApplyError) : ApplyOutcome :=
  mk_apply_outcome (so_original_metric_id o) [] (result_id o) [] None status (Some e).

(** [format!("{:?}", code).to_uppercase()]. *)
Definition code_status (c : Code) : str := to_ascii_uppercase (code_debug c).

(** What the client makes of M5's answer. *)
Definition apply_answer (o : ShadowOutcome J) (answer : result MigrateError (Catalogue * Migration)) : result MigratorError ApplyOutcome :=
  match answer with
  | Ok (_, a) =>
      mret (mk_apply_outcome (so_original_metric_id o) (new_metric_id a) (result_id o) (migration_id a) (Some (applied_at a))
        (lit "OK") None)
  | Err e => mret (failed_outcome o (code_status (migrate_code e)) (Refused e))
  | Panics => Panics
  | OutOfFuel => OutOfFuel
  end.

Definition apply_one (call : ApplyCall) (o : ShadowOutcome J) (operator : str) (c : Catalogue) :
    result MigratorError (ApplyOutcome * Catalogue) :=
  let c := others call c in
  match json_to_metric_definition (candidate_json o) with
  | Ok new_metric =>
      let req := mk_migrate_request (so_original_metric_id o) (Some new_metric) (result_id o) operator in
      let answer := migrate_metric_definition parse_uuid (call_shadow call) (call_tx call) req c in
      let c' := match answer with Ok (c', _) => c' | _ => c end in
      match delivery call with
      | Delivered => outcome ← apply_answer o answer; mret (outcome, c')
      | RequestLost code message => mret (failed_outcome o (code_status code) (CallLost message), c)
      | ResponseLost code message => mret (failed_outcome o (code_status code) (CallLost message), c')
      end
  | Err _ => mret (failed_outcome o (lit "INVALID_INPUT") DecodeFailed, c)
  | Panics => Panics
  | OutOfFuel => OutOfFuel
  end.

Fixpoint apply_loop (calls : nat → ApplyCall) (operator : str) (i : nat) (approved : list (ShadowOutcome J)) (c : Catalogue) :
    result MigratorError (list ApplyOutcome * Catalogue) :=
  match approved with
  | [] => mret ([], c)
  | o :: approved =>
      '(outcome, c) ← apply_one (calls i) o operator c;
      '(outcomes, c) ← apply_loop calls operator (S i) approved c;
      mret (outcome :: outcomes, c)
  end.

Definition is_ok_outcome (a : ApplyOutcome) : bool := is_lit (ao_status a) "OK".

(** The audit of a run. *)
Definition audit_of (operator : str) (outcomes : list ApplyOutcome) : ApplyOutput :=
  mk_apply_output operator outcomes (length outcomes) (length (List.filter is_ok_outcome outcomes))
    (length (List.filter (λ a, negb (is_ok_outcome a)) outcomes)).

(** The connection to M5 and the file system. *)
Record ApplyIo := mk_apply_io { connects : bool; audit_writable : bool }.

(** The catalogue left behind, with the exit code and the audit written, or the error. *)
Definition apply_subcommand (io : ApplyIo) (calls : nat → ApplyCall) (outcomes : list (ShadowOutcome J)) (operator : option str)
    (dry_run confirm : bool) (c : Catalogue) : Catalogue * result MigratorError (Z * option ApplyOutput) :=
  if negb dry_run && negb confirm then (c, Err ModeRequired)
  else if confirm && bool_decide (default [] (trim <$> operator) = []) then (c, Err OperatorRequired)
  else
    let '(approved, skipped) := partition_outcomes outcomes in
    if bool_decide (approved = []) then (c, Ok (0%Z, None))
    else if dry_run then (c, Ok (0%Z, None))
    else
      match operator with
      | None => (c, Panics)
      | Some operator =>
          let operator := trim operator in
          if negb (connects io) then (c, Err ConnectFailed)
          else
            match apply_loop calls operator 0 approved c with
            | Ok (outcomes, c) =>
                let audit := audit_of operator outcomes in
                if audit_writable io then (c, Ok (if (0 <? failed audit)%nat then 1%Z else 0%Z, Some audit))
                else (c, Err AuditNotWritten)
            | Err e => (c, Err e)
            | Panics => (c, Panics)
            | OutOfFuel => (c, OutOfFuel)
            end
      end.

(** The process exit code of shadow and apply. *)
Definition exit_code {A} (r : result MigratorError (Z * A)) : Z := match r with Ok (code, _) => code | _ => 2%Z end.

(** [run_or_log], of scan and translate. *)
Definition run_or_log {A} (r : result MigratorError A) : Z := match r with Ok _ => 0%Z | _ => 1%Z end.

(** ** The dry-run plan *)

Definition describe_candidate_type (candidate : J) : str :=
  let has k := bool_decide (is_Some (get candidate (lit k) : option J)) in
  if has "filtered_mean"%string then lit "FILTERED_MEAN"
  else if has "composite"%string then lit "COMPOSITE"
  else if has "windowed_count"%string then lit "WINDOWED_COUNT"
  else if negb (bool_decide (get_str candidate (lit "metricql_expression") = [])) then lit "METRICQL"
  else
    match get candidate (lit "type") ≫= as_i64 with
    | Some 1 => lit "MEAN" | Some 2 => lit "RATIO" | Some 3 => lit "PROPORTION" | Some 4 => lit "COUNT" | Some 5 => lit "RATE"
    | Some 6 => lit "CUSTOM"
    | Some other => lit "type=" ++ show_i64 other
    | None => lit "unknown"
    end%Z.

(** A row of the plan: the two identifiers, the type, the run and the days. *)
Definition plan_row (o : ShadowOutcome J) : list str :=
  [so_original_metric_id o; get_str (candidate_json o) (lit "metric_id"); describe_candidate_type (candidate_json o); result_id o;
   if (0 <? total_days o)%Z then show_i64 (days_within_tolerance o) ++ lit "/" ++ show_i64 (total_days o) else lit "-"].

Definition default_audit_path (shadow_results : str) : str := shadow_results ++ lit ".apply.json".
End apply.
