(* ===== verification/MigratorSpec.v ===== *)
(** The migration command line: definitions survive the files between its steps, polling
    ends, an apply run accounts for every approved outcome, and what a whole pipeline puts
    into the catalogue is the translation of the metric it replaces. *)
From Stdlib Require Import Ascii String SpecFloat.
From S2P Require Import Prelude Bytes F64 Parser Analyze Targeting MetricStore Cycle MetricDefinition Json SqlAst Classifier Tier1 Tier2 Migration MigrationSpec MetricCatalogue MetricCatalogueSpec Migrator.

(** ** Definitions in the files *)

(** What is left of a definition after a file: the metadata but for the description, and the
    fields of the legacy types, become the proto defaults. *)
Definition echo (m : Message) : Message :=
  mk_message (definition m) (default_metadata (description (metadata m))) (source_event_type m) [] [] f64_zero.

Lemma metric_type_number_round_trip t : metric_type_of_number (metric_type_number t) = t.
Proof. by destruct t. Qed.

Section json.
Context {J : Type} `{JsonLaws J}.

(** The nested object of a configuration, whatever the order of a composite's keys. *)
Lemma type_config_entry_ok c : config_ok c →
  match c with
  | TypeFilteredMean fm => filtered_mean_from_json (J:=J) (type_config_entry c).2 = fm
  | TypeComposite comp => composite_from_json (J:=J) (type_config_entry c).2 = comp
  | TypeWindowedCount wc => windowed_count_from_json (J:=J) (type_config_entry c).2 = wc
  end.
Proof.
  destruct c as [f|f|w]; intros Hok; cbn [type_config_entry snd].
  - unfold filtered_mean_from_json. rewrite (get_object_str _ _ (fm_filter_sql f)), (get_object_str _ _ (value_column f)) by reflexivity. by destruct f.
  - by apply composite_round_trip.
  - unfold windowed_count_from_json. rewrite (get_object_str _ _ (MetricStore.event_type w)), (get_object_str _ _ (wc_filter_sql w)) by reflexivity.
    rewrite (get_object_i32 _ _ (window_hours w)) by done. by destruct w.
Qed.

(** An object that holds the fields of a definition, the absent ones empty. *)
Record encodes (kvs : list (str * J)) (m : Message) : Prop := mk_encodes
  { en_id : last_insertion kvs (lit "metric_id") = Some (json_str (metric_id (definition m)));
    en_name : last_insertion kvs (lit "name") = Some (json_str (metric_name (definition m)));
    en_type : last_insertion kvs (lit "type") = Some (json_int (metric_type_number (metric_type (definition m))));
    en_text k s : (k, s) ∈ [(lit "description", description (metadata m)); (lit "source_event_type", source_event_type m);
                            (lit "metricql_expression", metricql_expression (definition m)); (lit "custom_sql", custom_sql (definition m))] →
      last_insertion kvs k = match s with [] => None | _ => Some (json_str s) end;
    en_config k : k ∈ [lit "filtered_mean"; lit "windowed_count"; lit "composite"] →
      last_insertion kvs k = last_insertion (type_config_entries (type_config (definition m))) k }.

Lemma last_insertion_app (a b : list (str * J)) k :
  last_insertion (a ++ b) k = match last_insertion b k with Some v => Some v | None => last_insertion a k end.
Proof. induction a as [|[k' v] a IH]; cbn; [by destruct (last_insertion b k)|]. rewrite IH. by destruct (last_insertion b k). Qed.

Lemma last_insertion_nonempty k s k' :
  last_insertion (nonempty_field (J:=J) k s) k' = if decide (k = k') then match s with [] => None | _ => Some (json_str s) end else None.
Proof. destruct s; cbn; [by destruct (decide _)|done]. Qed.

(** The configuration's key is none of the others'. *)
Lemma config_key c k : k ∉ [lit "filtered_mean"; lit "windowed_count"; lit "composite"] →
  last_insertion (type_config_entries (J:=J) c) k = None.
Proof.
  intros Hk. rewrite !not_elem_of_cons in Hk. destruct Hk as (H1 & H2 & H3 & _).
  destruct c as [[f|f|w]|]; cbn [type_config_entries last_insertion type_config_entry]; [by rewrite decide_False..|done].
Qed.

Ltac lookup_fields := unfold common_fields; rewrite ?last_insertion_app, ?last_insertion_nonempty.

(** Either order of the fields. *)
Lemma fields_encode m a b : a = nonempty_field (lit "metricql_expression") (metricql_expression (definition m)) →
  b = nonempty_field (lit "custom_sql") (custom_sql (definition m)) →
  encodes (common_fields m ++ type_config_entries (type_config (definition m)) ++ a ++ b) m ∧
  encodes (common_fields m ++ b ++ a ++ type_config_entries (type_config (definition m))) m.
Proof.
  intros -> ->.
  assert (∀ k s, (k, s) ∈ [(lit "description", description (metadata m)); (lit "source_event_type", source_event_type m);
      (lit "metricql_expression", metricql_expression (definition m)); (lit "custom_sql", custom_sql (definition m))] →
      k = lit "description" ∧ s = description (metadata m) ∨ k = lit "source_event_type" ∧ s = source_event_type m ∨
      k = lit "metricql_expression" ∧ s = metricql_expression (definition m) ∨ k = lit "custom_sql" ∧ s = custom_sql (definition m)) as Htext.
  { intros k s. rewrite !elem_of_cons, elem_of_nil. naive_solver. }
  split; split.
  all: lookup_fields; rewrite ?config_key by (rewrite !not_elem_of_cons; split_and!; try discriminate; apply not_elem_of_nil); try reflexivity.
  all: try (intros k s [[-> ->]|[[-> ->]|[[-> ->]|[-> ->]]]]%Htext; lookup_fields;
    rewrite config_key by (rewrite !not_elem_of_cons; split_and!; try discriminate; apply not_elem_of_nil);
    match goal with |- _ = match ?s with [] => _ | _ => _ end => by destruct s end).
  all: intros k Hk; assert (k = lit "filtered_mean" ∨ k = lit "windowed_count" ∨ k = lit "composite") as [-> | [-> | ->]]
    by (rewrite !elem_of_cons, elem_of_nil in Hk; naive_solver); lookup_fields; by destruct (last_insertion (type_config_entries _) _).
Qed.

Lemma metric_to_json_encodes m : ∃ kvs, metric_to_json (J:=J) m = json_object kvs ∧ encodes kvs m.
Proof. eexists. split; [reflexivity|]. by apply fields_encode. Qed.

Lemma scan_to_json_encodes m : ∃ kvs, scan_to_json (J:=J) m = json_object kvs ∧ encodes kvs m.
Proof. eexists. split; [reflexivity|]. by apply fields_encode. Qed.

Lemma get_text kvs m k s : encodes kvs m →
  (k, s) ∈ [(lit "description", description (metadata m)); (lit "source_event_type", source_event_type m);
            (lit "metricql_expression", metricql_expression (definition m)); (lit "custom_sql", custom_sql (definition m))] →
  get_str (json_object (J:=J) kvs) k = s.
Proof.
  intros He Hk. unfold get_str. rewrite get_object, (en_text _ _ He _ _ Hk). destruct s; [done|].
  cbn [mbind option_bind]. by rewrite as_str_str.
Qed.

Lemma type_config_from_encodes kvs m : encodes kvs m → message_ok m → type_config_from (json_object (J:=J) kvs) = type_config (definition m).
Proof.
  intros He Hok. unfold type_config_from. rewrite !get_object, !(en_config _ _ He) by set_solver. unfold message_ok in Hok.
  destruct (type_config (definition m)) as [c|]; [|done]. pose proof (type_config_entry_ok c Hok) as Hc.
  assert (∀ k, last_insertion (type_config_entries (Some c)) k =
    if decide ((type_config_entry (J:=J) c).1 = k) then Some (type_config_entry c).2 else None) as Hone.
  { intros k. cbn [type_config_entries last_insertion]. by destruct (type_config_entry c). }
  rewrite !Hone. destruct c as [f|f|w].
  - rewrite decide_True by done. by rewrite Hc.
  - rewrite (decide_False (P:=_ = lit "filtered_mean")), (decide_False (P:=_ = lit "windowed_count")), decide_True by (reflexivity || discriminate). by rewrite Hc.
  - rewrite (decide_False (P:=_ = lit "filtered_mean")), decide_True by (reflexivity || discriminate). by rewrite Hc.
Qed.

Lemma decode_encoded kvs m : encodes kvs m → message_ok m → json_to_metric_definition (json_object (J:=J) kvs) = Ok (echo m).
Proof.
  intros He Hok. unfold json_to_metric_definition. rewrite is_object_object. cbn [negb].
  rewrite (type_config_from_encodes _ _ He Hok), (get_object_str _ _ _ (en_id _ _ He)), (get_object_str _ _ _ (en_name _ _ He)).
  rewrite (get_object_i32 _ _ (metric_type_number (metric_type (definition m)))); [|by destruct (metric_type _)|apply He].
  rewrite metric_type_number_round_trip. unfold echo.
  rewrite (get_text _ _ _ (metricql_expression (definition m)) He), (get_text _ _ _ (custom_sql (definition m)) He),
    (get_text _ _ _ (description (metadata m)) He), (get_text _ _ _ (source_event_type m) He) by set_solver.
  by destruct m as [[] ? ? ? ? ?].
Qed.

Lemma decode_report m : message_ok m → json_to_metric_definition (metric_to_json (J:=J) m) = Ok (echo m).
Proof. destruct (metric_to_json_encodes m) as (kvs & -> & He). by apply decode_encoded. Qed.

Lemma decode_scan m : message_ok m → json_to_metric_definition (scan_to_json (J:=J) m) = Ok (echo m).
Proof. destruct (scan_to_json_encodes m) as (kvs & -> & He). by apply decode_encoded. Qed.
End json.

Lemma echo_ok m : message_ok m → message_ok (echo m).
Proof. done. Qed.

(** ** Polling *)

(** A clock that never runs backwards and passes the interval between two polls. *)
Record clock_ok (s : RunScript) (interval : Z) : Prop := mk_clock_ok
  { ck_start : (0 ≤ elapsed s 0)%Z; ck_step k : (elapsed s k + interval ≤ elapsed s (S k))%Z }.

(** The polling stops at the n-th poll: the first terminal answer, or the budget is spent. *)
Record stops_at (s : RunScript) (budget : Z) (n : nat) (r : str * str * str) : Prop := mk_stops_at
  { st_before j : j < n → terminal (promote s j) = None ∧ (elapsed s j < budget)%Z;
    st_last : terminal (promote s n) = Some r ∨
      terminal (promote s n) = None ∧ (budget ≤ elapsed s n)%Z ∧ r = (lit "PENDING", [], budget_exhausted (elapsed_again s n) budget) }.

Lemma clock_elapsed s interval : clock_ok s interval → ∀ k, (Z.of_nat k * interval ≤ elapsed s k)%Z.
Proof. intros Hc. induction k as [|k IH]; [apply Hc|]. pose proof (ck_step _ _ Hc k). lia. Qed.

Lemma poll_stops s budget : ∀ fuel k, (∃ n, k ≤ n < k + fuel ∧ (budget ≤ elapsed s n)%Z) →
  (∀ j, j < k → terminal (promote s j) = None ∧ (elapsed s j < budget)%Z) →
  ∃ n r, poll_until_terminal fuel s budget k = Ok r ∧ stops_at s budget n r.
Proof.
  induction fuel as [|fuel IH]; intros k (n & Hn & He) Hbefore; [lia|]. cbn [poll_until_terminal].
  destruct (terminal (promote s k)) as [r|] eqn:Ht; [exists k, r; split; [done|]; split; [done|by left]|].
  destruct (budget <=? elapsed s k)%Z eqn:Eb.
  - eexists k, _. split; [done|]. split; [done|]. right. split_and!; [done|lia|done].
  - apply IH; [exists n; split; [|done]; destruct (decide (n = k)) as [-> |]; lia|].
    intros j Hj. destruct (decide (j = k)) as [-> |]; [split; [done|lia]|apply Hbefore; lia].
Qed.

Lemma poll_fuel_enough s budget interval : (0 < interval)%Z → clock_ok s interval →
  ∃ n r, poll_until_terminal (poll_fuel budget interval) s budget 0 = Ok r ∧ stops_at s budget n r.
Proof.
  intros Hi Hc. apply poll_stops; [|lia]. exists (Z.to_nat (budget / interval) + 1). unfold poll_fuel. split; [lia|].
  pose proof (clock_elapsed _ _ Hc (Z.to_nat (budget / interval) + 1)) as He.
  pose proof (Z.mul_succ_div_gt budget interval Hi). destruct (Z.le_gt_cases 0 (budget / interval)); nia.
Qed.

Lemma stops_bound s budget interval n r : (0 < interval)%Z → (0 ≤ budget)%Z → clock_ok s interval → stops_at s budget n r →
  (Z.of_nat n ≤ budget / interval + 1)%Z.
Proof.
  intros Hi Hb Hc [Hbefore _]. destruct n as [|n]; [pose proof (Z.div_pos budget interval Hb Hi); lia|].
  destruct (Hbefore n ltac:(lia)) as [_ He]. pose proof (clock_elapsed _ _ Hc n).
  pose proof (Z.div_le_lower_bound budget interval (Z.of_nat n) Hi). lia.
Qed.

(** Only an APPROVED answer carries a result. *)
Lemma terminal_result a st res why : terminal a = Some (st, res, why) →
  ∃ p, a = inr p ∧ promote_status p = st ∧ st ≠ lit "PENDING" ∧ (st = lit "APPROVED" ∧ res = promote_result_id p ∨ st ≠ lit "APPROVED" ∧ res = []).
Proof.
  destruct a as [|p]; [done|]. cbn [terminal]. unfold is_lit. case_bool_decide as Ha; [|case_bool_decide as Hb; [|case_bool_decide as Hc]]; intros Ht; try done; injection Ht as <- <- <-; exists p.
  - split_and!; [done..| |by left]. by rewrite Ha.
  - split_and!; [done..| |right; split; [|done]]; [by rewrite Hb|done].
  - split_and!; try done. by right.
Qed.

Lemma stops_approved s budget n st res why : stops_at s budget n (st, res, why) → res ≠ [] ∨ st = lit "APPROVED" →
  st = lit "APPROVED" ∧ ∃ p, promote s n = inr p ∧ promote_status p = lit "APPROVED" ∧ promote_result_id p = res.
Proof.
  intros [_ [Ht|(_ & _ & [= -> -> _])]] Hr; [|naive_solver].
  apply terminal_result in Ht as (p & -> & <- & _ & [[Ha ->]|[Ha ->]]); [|naive_solver]. split; [done|]. by exists p.
Qed.


(** M3 that approves at the second poll. *)
Definition approves_second (result : str) : RunScript :=
  mk_run_script (inr (lit "run"))
    (λ k, inr (match k with O => mk_promote (lit "PENDING") [] [] | _ => mk_promote (lit "APPROVED") result (lit "7 days") end))
    (λ k, (Z.of_nat k * from_secs 60)%Z) (λ k, (Z.of_nat k * from_secs 60)%Z) (inr (7, 7)%Z).

Lemma approves_clock result : clock_ok (approves_second result) DEFAULT_POLL_INTERVAL.
Proof. split; [done|]. intros k. cbn [approves_second elapsed]. unfold DEFAULT_POLL_INTERVAL, from_secs. lia. Qed.


(** ** The durations *)

Lemma parse_u64_digits_range s n : parse_u64_digits s = Some n → (n < 2 ^ 64)%Z.
Proof. unfold parse_u64_digits. destruct (_ || _); [done|]. destruct (digits_value s <? 2 ^ 64)%Z eqn:E; [|done]. intros [= <-]. lia. Qed.

Lemma digits_value_nonneg s : forallb is_ascii_digit s = true → (0 ≤ digits_value s)%Z.
Proof.
  unfold digits_value. assert (∀ acc, (0 ≤ acc)%Z → forallb is_ascii_digit s = true →
    (0 ≤ fold_left (λ acc c, 10 * acc + digit_value c)%Z s acc)%Z) as Hgen; [|by apply Hgen].
  induction s as [|c s IH]; intros acc Ha; [done|]. cbn [forallb fold_left]. intros [Hc Hs]%andb_prop. apply IH; [|done].
  enough (0 ≤ digit_value c)%Z by lia. clear -Hc. byte_cases c; vm_compute in Hc |- *; congruence.
Qed.

Lemma parse_u64_nonneg s n : parse_u64 s = Some n → (0 ≤ n)%Z.
Proof.
  destruct s as [|c s]; [done|]. cbn [parse_u64]. generalize (if bool_decide (c = "+"%char) then s else c :: s) as ds. intros ds.
  unfold parse_u64_digits. destruct (forallb is_ascii_digit ds) eqn:Ed; [|by rewrite orb_true_r].
  destruct (_ || _); [done|]. destruct (_ <? _)%Z; [|done]. intros [= <-]. by apply digits_value_nonneg.
Qed.

Lemma parse_duration_positive s d : parse_duration s = Ok d → (0 < d)%Z.
Proof.
  unfold parse_duration. intros Hd. apply bind_ok_inv in Hd as ([] & _ & Hd). destruct (split_digits (trim s)) as [num unit].
  apply bind_ok_inv in Hd as ([] & _ & Hd). apply bind_ok_inv in Hd as (n & Hn & Hd). apply bind_ok_inv in Hd as ([] & Hz%reject_if_ok & Hd).
  apply bind_ok_inv in Hd as (k & Hk & Hd). apply bind_ok_inv in Hd as (secs & Hs & Hd). injection Hd as <-.
  unfold ok_or in Hn, Hk, Hs. destruct (parse_u64 num) as [n'|] eqn:En; [|done]. injection Hn as <-. apply parse_u64_nonneg in En.
  destruct (unit_secs unit) as [k'|] eqn:Ek; [|done]. injection Hk as <-.
  assert (0 < k')%Z by (unfold unit_secs in Ek; repeat destruct (is_lit _ _); simplify_eq; lia).
  unfold checked_mul_u64 in Hs. destruct (_ <? _)%Z; [|done]. injection Hs as <-. unfold from_secs. nia.
Qed.

Lemma poll_interval_positive var : (0 < poll_interval_from_env var)%Z.
Proof.
  unfold poll_interval_from_env. destruct (var ≫= parse_u64) as [n|]; [|done]. destruct (0 <? n)%Z eqn:E; [|done]. unfold from_secs. lia.
Qed.

(** ** Shadow runs *)

(** M3 approved the run of a script, with that result. *)
Definition approved_by (s : RunScript) (result : str) : Prop :=
  ∃ id k p, schedule s = inr id ∧ promote s k = inr p ∧ promote_status p = lit "APPROVED" ∧ promote_result_id p = result.

Section runs.
Context {J : Type} `{JsonValue J} (budget interval : Z) (Hi : (0 < interval)%Z).

(** An outcome is its candidate's, and approved only by M3. *)
Record outcome_of (s : RunScript) (cand : ShadowCandidate J) (o : ShadowOutcome J) : Prop := mk_outcome_of
  { oo_id : so_original_metric_id o = sc_original_metric_id cand;
    oo_json : candidate_json o = sc_json cand;
    oo_approved : so_status o = lit "APPROVED" → approved_by s (result_id o);
    oo_result : result_id o ≠ [] → so_status o = lit "APPROVED" }.

Lemma run_one_shadow_outcome s cand : clock_ok s interval →
  ∃ o, run_one_shadow s cand budget interval = Ok o ∧ outcome_of s cand o.
Proof.
  intros Hc. unfold run_one_shadow. destruct (schedule s) as [[c msg]|id] eqn:Es; [eexists; split; [reflexivity|]; by split|].
  destruct (poll_fuel_enough s budget interval Hi Hc) as (n & [[st res] why] & -> & Hs). cbn [mbind result_bind].
  destruct (snapshot_progress (shadow_progress s)) as [days tot]. eexists. split; [reflexivity|].
  pose proof (stops_approved _ _ _ _ _ _ Hs) as Ha. split; cbn; [done..| |].
  - intros ->. destruct Ha as (_ & p & Hp & Hst & Hres); [by right|]. by exists id, n, p.
  - intros Hr. apply Ha. by left.
Qed.

Lemma shadow_loop_outcomes (m3 : M3) cands : (∀ i id m, clock_ok (m3 i id m) interval) → ∀ i,
  ∃ os, shadow_loop m3 budget interval i cands = Ok os ∧ length os = length cands ∧
    ∀ j o, os !! j = Some o → ∃ cand, cands !! j = Some cand ∧ outcome_of (m3 (i + j) (sc_original_metric_id cand) (sc_metric cand)) cand o.
Proof.
  intros Hc. induction cands as [|cand cands IH]; intros i; [exists []; split_and!; done|].
  cbn [shadow_loop]. destruct (run_one_shadow_outcome (m3 i (sc_original_metric_id cand) (sc_metric cand)) cand) as (o & -> & Ho); [done|].
  destruct (IH (S i)) as (os & -> & Hl & Hos). exists (o :: os). split_and!; [done|by cbn; rewrite Hl|].
  intros [|j] o' Hj; [injection Hj as <-; exists cand; by rewrite Nat.add_0_r|].
  destruct (Hos j o' Hj) as (cand' & Hc' & Ho'). exists cand'. split; [done|]. by rewrite Nat.add_succ_r.
Qed.
End runs.

(** ** Applying *)

(** The shape of a request that passed, and what the checks found. *)
Lemma migrate_definition_ok parse_uuid sr t req c c' a : migrate_metric_definition parse_uuid sr t req c = Ok (c', a) →
  ∃ m, req_new_metric req = Some m ∧ old_metric_id a = trim (req_old_metric_id req) ∧ new_metric_id a = metric_id (definition m) ∧
    mig_operator a = trim (req_operator req) ∧ parse_uuid (trim (req_shadow_run_result_id req)) = Some (shadow_run_result_id a) ∧
    old_metric_id a ∉ old_metric_id <$> migrations c ∧ definitions c !! metric_id (definition m) = None ∧
    c' = mk_catalogue (<[metric_id (definition m) := catalogue_row m (applied_at a)]> (definitions c)) (migrations c ++ [a]).
Proof.
  unfold migrate_metric_definition. intros Hm. apply bind_ok_inv in Hm as ([[[m old] uuid] op] & Hc & Hm%map_err_ok).
  apply migrate_metric_ok in Hm as (c1 & Hi & Ha & ->). apply insert_metric_ok in Hi as (Hn & _ & ->).
  apply insert_migration_ok in Ha as (Hold & _ & ->). unfold migrate_checks in Hc.
  apply bind_ok_inv in Hc as ([[[[m' old'] shadow] uuid'] op'] & Hs & Hc). do 3 apply bind_ok_inv in Hc as (? & _ & Hc). injection Hc as <- <- <- <-.
  unfold migrate_shape in Hs. apply bind_ok_inv in Hs as (m1 & Hreq & Hs). do 3 apply bind_ok_inv in Hs as (? & _ & Hs).
  apply bind_ok_inv in Hs as (u & Hu & Hs). do 2 apply bind_ok_inv in Hs as (? & _ & Hs). injection Hs as <- <- <- <- <-.
  exists m1. split_and!; try done.
  - unfold ok_or in Hreq. destruct (req_new_metric req); [by injection Hreq as <-|done].
  - unfold ok_or in Hu. cbn. destruct (parse_uuid _); [by injection Hu as <-|done].
Qed.

Lemma migrate_extends parse_uuid sr t req c c' a : migrate_metric_definition parse_uuid sr t req c = Ok (c', a) → extends c c'.
Proof.
  intros (m & _ & _ & _ & _ & _ & _ & Hn & ->)%migrate_definition_ok. split; cbn; [by apply insert_subseteq|by apply prefix_app_r].
Qed.

(** A metric that has been migrated stays so: no later request migrates it again. *)
Lemma migrated_once parse_uuid sr t req c r : migrate_metric_definition parse_uuid sr t req c = Ok r →
  trim (req_old_metric_id req) ∉ old_metric_id <$> migrations c.
Proof. destruct r as [c' a]. intros (m & _ & <- & _ & _ & _ & Hn & _)%migrate_definition_ok. exact Hn. Qed.

Lemma migrate_returns parse_uuid sr t req c : texts_ok (metrics c) →
  (∀ m, req_new_metric req = Some m → valid_utf8 (metricql_expression (definition m)) = true ∧ filter_ascii (definition m)) →
  returns (migrate_metric_definition parse_uuid sr t req c).
Proof.
  intros Ht Hm. unfold migrate_metric_definition. apply bind_returns.
  - unfold migrate_checks. apply bind_returns.
    { unfold migrate_shape. apply bind_returns; [by destruct (req_new_metric req)|]. intros m _.
      do 3 (apply bind_returns; [apply reject_if_returns|intros _ _]). apply bind_returns; [by destruct (parse_uuid _)|]. intros u _.
      by do 2 (apply bind_returns; [apply reject_if_returns|intros _ _]). }
    intros [[[[m old] shadow] uuid] op] Hs.
    assert (req_new_metric req = Some m) as Hreq.
    { unfold migrate_shape in Hs. apply bind_ok_inv in Hs as (m1 & Hreq & Hs). do 3 apply bind_ok_inv in Hs as (? & _ & Hs).
      apply bind_ok_inv in Hs as (u & _ & Hs). do 2 apply bind_ok_inv in Hs as (? & _ & Hs). injection Hs as <- _ _ _ _.
      unfold ok_or in Hreq. destruct (req_new_metric req); [by injection Hreq as <-|done]. }
    apply bind_returns.
    { unfold check_old_metric. cbn [get_metric_type management_store]. unfold pg_metric_type, find_row.
      destruct (metrics c !! old) as [r|]; [|done]. cbn. by destruct (metric_type_from_sql _). }
    intros _ _. apply bind_returns; [destruct (Hm m Hreq); apply map_err_returns; by apply metric_returns|]. intros _ _.
    apply bind_returns; [unfold check_shadow; destruct (sr shadow) as [[[] ?]|?]; try done; apply reject_if_returns|done].
  - intros [[[m old] uuid] op] _. apply map_err_returns. unfold migrate_metric. apply bind_returns.
    { unfold insert_metric. case_bool_decide; [done|]. by destruct (row_checks _). }
    intros c1 _. apply bind_returns; [unfold insert_migration; by repeat case_bool_decide|]. intros c2 _. by destruct (tx_commits t).
Qed.

Lemma metrics_texts m now c l : texts_ok (metrics c) → valid_utf8 (metricql_expression (definition m)) = true →
  texts_ok (metrics (mk_catalogue (<[metric_id (definition m) := catalogue_row m now]> (definitions c)) l)).
Proof.
  intros Ht He x r e. rewrite metrics_lookup. cbn [definitions]. destruct (decide (metric_id (definition m) = x)) as [<-|Hne].
  - rewrite lookup_insert_eq. cbn. intros [= <-]. cbn. destruct (metricql_expression (definition m)); [done|]. by intros [= <-].
  - rewrite lookup_insert_ne by done. rewrite <- metrics_lookup. apply Ht.
Qed.

Section apply.
Context {J : Type} `{JsonValue J} (parse_uuid : str → option Uuid).

(** The texts of a candidate are text. *)
Definition candidate_text (o : ShadowOutcome J) : Prop :=
  match json_to_metric_definition (candidate_json o) with
  | Ok m => valid_utf8 (metricql_expression (definition m)) = true ∧ filter_ascii (definition m)
  | _ => True
  end.

(** What others write between the calls. *)
Record others_ok (calls : nat → ApplyCall) : Prop := mk_others_ok
  { ot_extends i c : extends c (others (calls i) c);
    ot_texts i c : texts_ok (metrics c) → texts_ok (metrics (others (calls i) c)) }.

(** An outcome reported OK is in the catalogue: its replacement, the decoded candidate, and
    its audit row. *)
Definition applied (operator : str) (c : Catalogue) (o : ShadowOutcome J) (a : ApplyOutcome) : Prop :=
  ao_original_metric_id a = so_original_metric_id o ∧ ao_shadow_run_result_id a = result_id o ∧
  (is_ok_outcome a = true → ∃ m row,
    json_to_metric_definition (candidate_json o) = Ok m ∧ row ∈ migrations c ∧
    old_metric_id row = trim (so_original_metric_id o) ∧ new_metric_id row = metric_id (definition m) ∧ mig_operator row = trim operator ∧
    parse_uuid (trim (result_id o)) = Some (shadow_run_result_id row) ∧
    definitions c !! metric_id (definition m) = Some (catalogue_row m (applied_at row)) ∧
    ao_new_metric_id a = new_metric_id row ∧ ao_migration_id a = migration_id row).

Lemma applied_mono op c c' o a : extends c c' → applied op c o a → applied op c' o a.
Proof.
  intros [Hd [l Hl]] (H1 & H2 & H3). split_and!; [done..|]. intros Hok. destruct (H3 Hok) as (m & row & ? & Hr & ? & ? & ? & ? & Hdef & ?).
  exists m, row. split_and!; try done; [rewrite Hl; apply elem_of_app; by left|by eapply lookup_weaken|naive_solver..].
Qed.

Lemma code_status_not_ok c : is_lit (code_status c) "OK" = false.
Proof. by destruct c. Qed.

Lemma failed_not_ok o c e : is_ok_outcome (failed_outcome (J:=J) o (code_status c) e) = false.
Proof. apply code_status_not_ok. Qed.

Lemma applied_failed op c o s e : is_lit s "OK" = false → applied op c o (failed_outcome (J:=J) o s e).
Proof. intros Hs. split_and!; [done..|]. unfold is_ok_outcome. cbn. by rewrite Hs. Qed.

(** The audit rows a call adds when nobody else writes: one for an OK outcome. *)
Definition rows_added (a : ApplyOutcome) : nat := if is_ok_outcome a then 1 else 0.

(** Decoding does not fail but for a value that is no object. *)
Lemma decode_cases (v : J) : (∃ m, json_to_metric_definition v = Ok m) ∨ json_to_metric_definition v = Err EntryNotAnObject.
Proof. unfold json_to_metric_definition. destruct (negb (is_object v)); [by right|left; by eexists]. Qed.

Lemma apply_one_ok (call : ApplyCall) o op c a c' : (∀ c, extends c (others call c)) → apply_one parse_uuid call o op c = Ok (a, c') →
  extends c c' ∧ applied op c' o a ∧
  (others call c = c → (∀ code msg, delivery call ≠ ResponseLost code msg) → length (migrations c') = length (migrations c) + rows_added a) ∧
  (texts_ok (metrics (others call c)) → candidate_text o → texts_ok (metrics c')).
Proof.
  intros Hext. specialize (Hext c). unfold apply_one, candidate_text. cbn zeta.
  assert (∀ s e, is_lit s "OK" = false → extends c (others call c) ∧ applied op (others call c) o (failed_outcome (J:=J) o s e) ∧
    (others call c = c → (∀ code msg, delivery call ≠ ResponseLost code msg) →
     length (migrations (others call c)) = length (migrations c) + rows_added (failed_outcome (J:=J) o s e)) ∧
    (texts_ok (metrics (others call c)) → candidate_text o → texts_ok (metrics (others call c)))) as Hfail.
  { intros s e Hs. split_and!; [done|by apply applied_failed| |done]. intros -> _. unfold rows_added, is_ok_outcome. cbn. rewrite Hs. lia. }
  destruct (decode_cases (candidate_json o)) as [[m Hd]|Hd]; rewrite Hd; [|intros [= <- <-]; unfold candidate_text in Hfail; rewrite Hd in Hfail; by apply Hfail].
  unfold candidate_text in Hfail. rewrite Hd in Hfail. set (req := mk_migrate_request _ _ _ _).
  destruct (migrate_metric_definition _ _ _ _ _) as [[c1 row]|e| |] eqn:Hm; destruct (delivery call) as [|code msg|code msg] eqn:Edel;
    cbn [apply_answer mbind result_bind mret result_ret]; try discriminate; intros [= <- <-]; try (apply Hfail, code_status_not_ok).
  all: pose proof (migrate_extends _ _ _ _ _ _ _ Hm) as He; apply migrate_definition_ok in Hm as (m' & [= <-] & Ho & Hn & Hop & Huu & _ & _ & ->).
  - split_and!; [by eapply extends_trans| | |intros Ht [Hu _]; by apply metrics_texts].
    + split_and!; [done..|]. intros _. exists m, row. cbn [migrations definitions]. split_and!; try done; [|by rewrite lookup_insert_eq].
      apply elem_of_app. right. by apply list_elem_of_singleton.
    + intros -> _. cbn [migrations]. rewrite length_app. done.
  - split_and!; [by eapply extends_trans|apply applied_failed, code_status_not_ok| |intros Ht [Hu _]; by apply metrics_texts].
    intros _ Hno. by destruct (Hno code msg).
Qed.

Lemma apply_one_returns (call : ApplyCall) o op c : texts_ok (metrics (others call c)) → candidate_text o →
  returns (apply_one parse_uuid call o op c).
Proof.
  intros Ht Hc. unfold apply_one, candidate_text in *. cbn zeta. destruct (decode_cases (candidate_json o)) as [[m Hd]|Hd]; rewrite Hd in *; [|done].
  set (req := mk_migrate_request _ _ _ _).
  assert (returns (migrate_metric_definition parse_uuid (call_shadow call) (call_tx call) req (others call c))) as Hret.
  { apply migrate_returns; [done|]. by intros ? [= <-]. }
  destruct (migrate_metric_definition _ _ _ _ _) as [[c1 row]|e| |]; try done; by destruct (delivery call).
Qed.

Lemma apply_loop_ok calls op : (∀ i c, extends c (others (calls i) c)) → ∀ approved i c outs c',
  apply_loop parse_uuid calls op i approved c = Ok (outs, c') →
  extends c c' ∧ Forall2 (applied op c') approved outs ∧
  ((∀ i c, others (calls i) c = c) → (∀ i code msg, delivery (calls i) ≠ ResponseLost code msg) →
   length (migrations c') = length (migrations c) + length (List.filter is_ok_outcome outs)).
Proof.
  intros Hot. induction approved as [|o os IH]; intros i c outs c' Hr; cbn [apply_loop] in Hr.
  { injection Hr as <- <-. split_and!; [by split|constructor|cbn; lia]. }
  apply bind_ok_inv in Hr as ([a c1] & H1 & Hr). apply bind_ok_inv in Hr as ([outs1 c2] & H2 & Hr). injection Hr as <- <-.
  apply apply_one_ok in H1 as (He1 & Ha & Hn & _); [|done]. apply IH in H2 as (He & Hall & Hm).
  split_and!; [by eapply extends_trans|constructor; [by eapply applied_mono|done]|].
  intros Hs Hd. rewrite Hm, Hn by done. cbn [List.filter]. unfold rows_added. destruct (is_ok_outcome a); cbn; lia.
Qed.

Lemma apply_loop_returns calls op : others_ok calls → ∀ approved i c, texts_ok (metrics c) → Forall candidate_text approved →
  returns (apply_loop parse_uuid calls op i approved c).
Proof.
  intros Hot. induction approved as [|o os IH]; intros i c Ht Hc; [done|]. apply Forall_cons in Hc as [Ho Hos]. cbn [apply_loop].
  pose proof (ot_texts _ Hot i c Ht) as Ht'. apply bind_returns; [by apply apply_one_returns|]. intros [a c1] H1.
  apply apply_one_ok in H1 as (_ & _ & _ & Ht1); [|apply Hot]. apply bind_returns; [by apply IH; [apply Ht1|]|]. by intros [].
Qed.

Lemma filter_split {A} (f : A → bool) l : length (List.filter f l) + length (List.filter (λ a, negb (f a)) l) = length l.
Proof. induction l as [|a l IH]; [done|]. cbn. destruct (f a); cbn; lia. Qed.

(** Apply accounts for every approved outcome, whatever else is written meanwhile: a
    run answers (no panic), keeps every row of the catalogue, and writes nothing in a dry
    run; its audit has one entry per approved outcome in order, an entry says OK only when
    the decoded candidate and an audit row with its run and operator are in the catalogue,
    the counts add up, and the exit code is 0 exactly when none failed; no later request
    migrates an OK metric again; and alone, with no response lost, it adds exactly one audit
    row per OK entry. *)
Theorem apply_correct io calls outcomes operator dry_run confirm c : others_ok calls → texts_ok (metrics c) →
  Forall candidate_text outcomes →
  ∃ c' r, apply_subcommand parse_uuid io calls outcomes operator dry_run confirm c = (c', r) ∧ returns r ∧ extends c c' ∧
    (dry_run = true → c' = c) ∧
    ∀ code audit, r = Ok (code, Some audit) →
      Forall2 (applied (ap_operator audit) c') (partition_outcomes outcomes).1 (ap_outcomes audit) ∧
      succeeded audit + failed audit = total_attempted audit ∧ total_attempted audit = length (partition_outcomes outcomes).1 ∧
      (code = 0%Z ↔ failed audit = 0) ∧
      (∀ a sr t req r, a ∈ ap_outcomes audit → is_ok_outcome a = true → trim (req_old_metric_id req) = trim (ao_original_metric_id a) →
        migrate_metric_definition parse_uuid sr t req c' ≠ Ok r) ∧
      ((∀ i c, others (calls i) c = c) → (∀ i code msg, delivery (calls i) ≠ ResponseLost code msg) →
       length (migrations c') = length (migrations c) + succeeded audit).
Proof.
  intros Hot Ht Hc. assert (extends c c) as Hrefl by by split.
  assert (Forall candidate_text (partition_outcomes outcomes).1) as Happ.
  { apply Forall_forall. intros o Ho%list_elem_of_In%List.filter_In. rewrite Forall_forall in Hc. apply Hc, list_elem_of_In, Ho. }
  unfold apply_subcommand. destruct (negb dry_run && negb confirm) eqn:Em; [by eexists _, _|].
  destruct (confirm && _) eqn:Eo; [by eexists _, _|]. destruct (partition_outcomes outcomes) as [approved skipped]. cbn [fst] in *.
  assert (∃ c' r, (c, Ok (E:=MigratorError) (0%Z, @None ApplyOutput)) = (c', r) ∧ returns r ∧ extends c c' ∧ (dry_run = true → c' = c) ∧
    ∀ code audit, r ≠ Ok (code, Some audit)) as (c0 & r0 & E0 & ? & ? & ? & Hnone) by by eexists _, _; split_and!.
  destruct (bool_decide (approved = [])); [exists c0, r0; split_and!; [done..|]; intros ? ? Hr; by destruct (Hnone _ _ Hr)|].
  destruct dry_run; [exists c0, r0; split_and!; [done..|]; intros ? ? Hr; by destruct (Hnone _ _ Hr)|]. destruct confirm; [|done]. cbn [andb] in Eo.
  destruct operator as [operator|]; [|done]. destruct (connects io); [|by eexists _, _]. cbn [negb].
  pose proof (apply_loop_returns calls (trim operator) Hot approved 0 c Ht Happ) as Hret.
  destruct (apply_loop parse_uuid calls (trim operator) 0 approved c) as [[outs c']|e| |] eqn:Hl; [|by eexists c, _; split_and!|done..].
  apply apply_loop_ok in Hl as (He & Hall & Hn); [|apply Hot].
  destruct (audit_writable io); [|by eexists c', _; split_and!]. eexists c', _. split_and!; [done..|]. intros code audit [= <- <-].
  cbn [audit_of ap_operator ap_outcomes succeeded failed total_attempted].
  split_and!; [done|apply filter_split|symmetry; by eapply Forall2_length| | |done].
  - destruct (Nat.ltb_spec 0 (length (List.filter (λ a, negb (is_ok_outcome a)) outs))); split; lia.
  - intros a sr t req r Ha Hok Htrim Hm. apply migrated_once in Hm. apply Hm. rewrite Htrim.
    apply list_elem_of_lookup in Ha as (j & Hj). destruct (Forall2_lookup_r _ _ _ _ _ Hall Hj) as (o & _ & Ho1 & _ & Ho2).
    destruct (Ho2 Hok) as (m & row & _ & Hr & Eo' & _). rewrite Ho1, <- Eo'. by apply list_elem_of_fmap_2.
Qed.
End apply.

(** ** Proposals can be written *)

Lemma pair_of_weights op l r op' ops : pair_of op l r = Some (op', ops) → Forall (λ o : str * f64, o.2 = f64_zero) ops.
Proof. unfold pair_of. destruct l as [a|], r as [b|]; try done. intros [= <- <-]. by repeat constructor. Qed.

Lemma add_of_weights e op ops : add_of e = Some (op, ops) → Forall (λ o : str * f64, o.2 = f64_zero) ops.
Proof.
  unfold add_of, try_add. intros Ha. apply bind_Some in Ha as (l & Hl & Ha). destruct (_ <=? _); [|done]. injection Ha as <- <-.
  apply mapM_Some in Hl. induction Hl as [|x y xs ys Hx Hl IH]; constructor; [|exact IH].
  apply fmap_Some in Hx as (id & _ & ->). done.
Qed.

(** Only a weighted sum has weights. *)
Lemma extracted_weights e op ops : extract_composite_op_and_operands e = Some (op, ops) →
  op = OpWeightedSum ∨ Forall (λ o : str * f64, o.2 = f64_zero) ops.
Proof.
  unfold extract_composite_op_and_operands. destruct (try_weighted_sum _); [intros [= <- <-]; by left|]. intros He. right.
  destruct (unwrap_nested e) as [| | |l [] r| | | | | | | | | | | | | |]; try (by eapply add_of_weights); try (by eapply pair_of_weights).
  destruct (pair_of _ _ _) as [[op1 ops1]|] eqn:Ep; [injection He as -> ->; by eapply pair_of_weights|by eapply add_of_weights].
Qed.

Lemma operator_number_of op : composite_operator (operator_number op) = op ∧ in_i32 (operator_number op).
Proof. by destruct op. Qed.

Section proposals.
Context {S : Type} `{MetricLookup S} (parse_sql : str → str + list Statement).

Lemma composite_weights_finite cfg id (lookup : S) : validate_composite (Some cfg) id lookup = Ok tt →
  composite_operator (operator cfg) = OpWeightedSum → Forall (λ o, f64_is_finite (operand_weight o) = true) (operands cfg).
Proof.
  unfold validate_composite. cbn [ok_or mbind result_bind]. intros Hv Hop. rewrite Hop in Hv.
  do 2 apply bind_ok_inv in Hv as ([] & _ & Hv). apply bind_ok_inv in Hv as ([] & Hw%check_weights_ok & _).
  eapply Forall_impl; [exact Hw|]. by intros o [? _]%andb_prop.
Qed.

(** A proposal has the numbers JSON and protobuf hold. *)
Lemma proposal_message_ok sql original (lookup : S) r m : classify_and_translate parse_sql sql original lookup = Ok r →
  proposal_of r = Some m → message_ok m.
Proof.
  intros Hr Hm. destruct (classify_some _ _ _ _ _ _ Hr Hm) as (_ & Ht & Hv).
  unfold classify_and_translate in Hr. destruct (trim_is_empty sql); [by injection Hr as <-|].
  destruct (parse_or_tier3 parse_sql sql) as [e|stmt]; [by injection Hr as <-|].
  destruct (extract_shape stmt) as [h|]; [|by injection Hr as <-]. apply bind_ok_inv in Hr as ([p|] & Hp & Hr).
  2:{ apply bind_ok_inv in Hr as ([p|] & Hp2 & Hr); injection Hr as <-; [|done]. injection Hm as <-.
      unfold Tier2.translate in Hp2. destruct (metricql_of stmt h) as [[e why]|]; [|done].
      destruct (validate_metricql e None); try done. by apply validated_some in Hp2 as [-> _]. }
  injection Hr as <-. destruct (is_tier1_shape h); [|done]. unfold Tier1.translate in Hp.
  destruct (candidate stmt h original) as [c|] eqn:Hc; [|done]. apply validated_some in Hp as [-> _].
  assert (proposed c = m) as <- by (unfold tier1_result in Hm; by destruct (proposal_tier c); injection Hm). clear Hm Ht.
  unfold validate_metric_definition in Hv. apply bind_ok_inv in Hv as ([] & _ & Hv).
  destruct h; cbn [candidate] in Hc; [| | |done].
  - unfold translate_filtered_mean in Hc. apply bind_Some in Hc as (? & _ & Hc). destruct (negb _); [done|].
    apply bind_Some in Hc as (? & _ & Hc). apply bind_Some in Hc as (? & _ & Hc). apply bind_Some in Hc as ([] & _ & Hc).
    apply bind_Some in Hc as (? & _ & Hc). destruct (trim_is_empty _); [done|]. by injection Hc as <-.
  - unfold translate_windowed_count in Hc. apply bind_Some in Hc as (? & _ & Hc). destruct (negb _); [done|].
    apply bind_Some in Hc as (? & _ & Hc). apply bind_Some in Hc as (et & _ & Hc). apply bind_Some in Hc as (hours & _ & Hc).
    apply bind_Some in Hc as (fs & _ & Hc). injection Hc as <-.
    change (validate_windowed_count (Some (mk_windowed_count et fs hours)) = Ok tt) in Hv. apply windowed_count_sound in Hv as (? & [= <-] & _ & Hr & _).
    change (in_i32 hours). cbn [window_hours] in Hr. unfold in_i32. lia.
  - unfold translate_composite in Hc. do 2 apply bind_Some in Hc as (? & _ & Hc). apply bind_Some in Hc as ([op ops] & He & Hc).
    destruct (_ <? _); [done|]. destruct (_ && _); [done|]. injection Hc as <-. destruct (operator_number_of op) as [Hop Hin].
    split; [exact Hin|]. destruct (extracted_weights _ _ _ He) as [-> |Hz]; [by eapply (composite_weights_finite (mk_composite ((λ o : str * f64, mk_operand o.1 o.2) <$> ops) (operator_number OpWeightedSum))); [exact Hv|]|].
    cbn. apply Forall_fmap. eapply Forall_impl; [exact Hz|]. intros o Ho. cbn. by rewrite Ho.
Qed.
End proposals.

(** ** The pipeline *)

Lemma mapM_ok {E A B} (f : A → result E B) l k : mapM f l = Ok k → Forall2 (λ x y, f x = Ok y) l k.
Proof.
  revert k. induction l as [|x l IH]; intros k Hm; cbn in Hm; [injection Hm as <-; constructor|].
  apply bind_ok_inv in Hm as (y & Hy & Hm). apply bind_ok_inv in Hm as (k' & Hk & Hm). injection Hm as <-. constructor; auto.
Qed.

Section pipeline.
Context {J : Type} `{JsonLaws J} (parse_sql : str → str + list Statement) (parse_uuid : str → option Uuid).
Context (id_le : str → str → Prop) `{!RelDecision id_le}.

(** M5's listing of the CUSTOM metrics of a catalogue. *)
Definition custom_listing (c : Catalogue) : Page := inr (list_metric_definitions (J:=J) id_le Custom c).

Lemma listed_custom c m : m ∈ (list_metric_definitions (J:=J) id_le Custom c).1 →
  ∃ r, definitions c !! metric_id (definition m) = Some r ∧ row_type (base r) = lit "CUSTOM" ∧ m = into_proto (J:=J) (metric_id (definition m)) r.
Proof.
  unfold list_metric_definitions, list_rows. cbn zeta. cbn [fst]. intros ([id r] & -> & Hr)%list_elem_of_fmap.
  rewrite merge_sort_Permutation in Hr. apply list_elem_of_filter in Hr as [Hm Hr]. apply elem_of_map_to_list in Hr. exists r.
  split_and!; [done| |done]. unfold matches in Hm. apply andb_prop in Hm as [_ Hm]. cbn in Hm. by apply bool_decide_eq_true in Hm.
Qed.

Lemma custom_message_ok id r : row_type (base r) = lit "CUSTOM" → message_ok (into_proto (J:=J) id r).
Proof. intros Hr. unfold message_ok, into_proto. cbn. rewrite Hr. by destruct (row_type_config (base r)). Qed.

(** One page is all of it. *)
Lemma scan_custom fuel c : scan (S fuel) (λ _, custom_listing c) =
  Ok (json_array (scan_to_json (J:=J) <$> (list_metric_definitions (J:=J) id_le Custom c).1)).
Proof. done. Qed.

(** The proposals of a scan, each the classification of its metric's SQL. *)
Definition proposed_for (c : Catalogue) (lookup : MigratorLookup) (e : ReportEntry) : Prop :=
  ∃ r, definitions c !! original_metric_id e = Some r ∧ row_type (base r) = lit "CUSTOM" ∧
    classify_and_translate parse_sql (default [] (row_custom_sql (base r))) (echo (into_proto (J:=J) (original_metric_id e) r)) lookup = Ok (entry_result e).

Lemma decode_scanned ms ms' : (∀ m, m ∈ ms → message_ok m) → mapM (json_to_metric_definition (J:=J)) (scan_to_json (J:=J) <$> ms) = Ok ms' →
  ms' = echo <$> ms.
Proof.
  intros Hok Hm%mapM_ok. revert ms' Hm. induction ms as [|m ms IH]; intros ms' Hm; inversion Hm as [|? m' ? ms1 Hd Htl]; subst; [done|].
  rewrite decode_scan in Hd by (apply Hok; by left). injection Hd as <-. cbn. f_equal. apply IH; [|done]. intros. apply Hok. by right.
Qed.

Lemma translate_scanned c proposals counts :
  translate_subcommand parse_sql (json_array (scan_to_json (J:=J) <$> (list_metric_definitions (J:=J) id_le Custom c).1)) = Ok (proposals, counts) →
  ∃ entries lookup, proposals = render_json entries ∧ counts = build_summary entries ∧ Forall (proposed_for c lookup) entries.
Proof.
  unfold translate_subcommand. rewrite as_array_array. cbn [ok_or mbind result_bind].
  pose proof (listed_custom c) as Hl. revert Hl. generalize (list_metric_definitions (J:=J) id_le Custom c).1 as ms. intros ms Hl Ht.
  apply bind_ok_inv in Ht as (ms' & Hd & Ht). apply decode_scanned in Hd as ->.
  2:{ intros m (r & _ & Hr & ->)%Hl. by apply custom_message_ok. }
  apply bind_ok_inv in Ht as (entries & He%mapM_ok & Ht). injection Ht as <- <-. eexists entries, _. split_and!; [done..|].
  apply Forall_forall. intros e (j & Hj)%list_elem_of_lookup. destruct (Forall2_lookup_r _ _ _ _ _ He Hj) as (m' & Hm' & Hte).
  apply list_lookup_fmap_Some in Hm' as (m & -> & Hm). apply list_elem_of_lookup_2, Hl in Hm as (r & Hr & Hty & Em).
  unfold translate_entry in Hte. apply bind_ok_inv in Hte as (cl & Hcl%map_err_ok & Hte). injection Hte as <-.
  exists r. cbn [original_metric_id entry_result echo definition] in *. split_and!; [done..|].
  rewrite <- Em. rewrite Em in Hcl at 1. exact Hcl.
Qed.

(** A candidate taken from the report is an entry's proposal. *)
Lemma entry_candidate e o : (∀ m, proposal_of (entry_result e) = Some m → message_ok m) → shadow_candidate (entry_json (J:=J) e) = Ok o →
  o = (λ m, mk_shadow_candidate (original_metric_id e) (tier_name (entry_result e)) (echo m) (metric_to_json m)) <$> proposal_of (entry_result e).
Proof.
  intros Hok. unfold shadow_candidate, entry_json.
  rewrite (get_object_str _ (lit "original_metric_id") (original_metric_id e)), (get_object_str _ (lit "tier") (tier_name (entry_result e))) by reflexivity.
  rewrite get_object.
  change (last_insertion _ (lit "proposal")) with (Some (match proposal_of (entry_result e) with Some m => metric_to_json (J:=J) m | None => json_null end)).
  destruct (proposal_of (entry_result e)) as [m|] eqn:Hp.
  - assert (is_shadow_eligible_tier (tier_name (entry_result e)) = true) as -> by (by destruct (entry_result e)).
    cbn [negb mbind option_bind]. destruct (metric_to_json_encodes (J:=J) m) as (kvs & Ej & _). rewrite Ej, is_null_object, <- Ej.
    cbn [ok_or mbind result_bind]. rewrite decode_report by by apply Hok. cbn [mbind result_bind]. by intros [= <-].
  - assert (is_shadow_eligible_tier (tier_name (entry_result e)) = false) as -> by (by destruct (entry_result e)). by intros [= <-].
Qed.

Lemma candidates_of_report entries cands : (∀ e m, e ∈ entries → proposal_of (entry_result e) = Some m → message_ok m) →
  extract_shadow_candidates (render_json (J:=J) entries) = Ok cands →
  ∀ cand, cand ∈ cands → ∃ e m, e ∈ entries ∧ proposal_of (entry_result e) = Some m ∧ sc_original_metric_id cand = original_metric_id e ∧
    sc_metric cand = echo m ∧ sc_json cand = metric_to_json m.
Proof.
  intros Hok. unfold extract_shadow_candidates, render_json. rewrite get_object. cbn [last_insertion]. rewrite decide_True by done.
  cbn [mbind option_bind]. rewrite as_array_array. cbn [ok_or mbind result_bind]. intros Hc.
  apply bind_ok_inv in Hc as (os & Hos%mapM_ok & Hc). injection Hc as <-. intros cand (o & Ho & Ec)%list_elem_of_omap. cbn in Ec. subst o.
  apply list_elem_of_lookup in Ho as (j & Hj). destruct (Forall2_lookup_r _ _ _ _ _ Hos Hj) as (v & Hv & Hs).
  apply list_lookup_fmap_Some in Hv as (e & -> & He). apply list_elem_of_lookup_2 in He.
  apply entry_candidate in Hs; [|intros; by eapply Hok]. symmetry in Hs. apply fmap_Some in Hs as (m & Hm & ->). by exists e, m.
Qed.

Lemma approved_outcomes (outcomes : list (ShadowOutcome J)) o : o ∈ (partition_outcomes outcomes).1 → o ∈ outcomes ∧ so_status o = lit "APPROVED".
Proof.
  intros [Ho [Hs _]%andb_prop]%list_elem_of_In%List.filter_In. split; [by apply list_elem_of_In|]. by apply bool_decide_eq_true in Hs.
Qed.

Lemma apply_audited io calls outcomes operator dry_run confirm c c' code audit :
  apply_subcommand parse_uuid io calls outcomes operator dry_run confirm c = (c', Ok (code, Some audit)) →
  ∃ op, apply_loop parse_uuid calls op 0 (partition_outcomes outcomes).1 c = Ok (ap_outcomes audit, c').
Proof.
  unfold apply_subcommand. destruct (negb dry_run && _); [done|]. destruct (confirm && _); [done|].
  destruct (partition_outcomes outcomes) as [approved skipped]. destruct (bool_decide _); [done|]. destruct dry_run; [done|].
  destruct operator as [operator|]; [|done]. destruct (connects io); [|done]. cbn [negb fst].
  destruct (apply_loop _ _ _ _ _ _) as [[outs c1]|e| |] eqn:El; [|done..]. destruct (audit_writable io); [|done]. intros [= <- _ <-]. by eexists.
Qed.

End pipeline.

(** A definition survives the files: what [scan] and the proposals report write of a
    definition decodes to it, with its identifier, name, type, configuration, expression, SQL,
    source event type and description, and all other metadata at the proto defaults; a
    definition that has been through one file passes any further one unchanged. *)
Theorem definition_survives_files {J} `{JsonLaws J} m : message_ok m →
  json_to_metric_definition (scan_to_json (J:=J) m) = Ok (echo m) ∧ json_to_metric_definition (metric_to_json (J:=J) m) = Ok (echo m) ∧
  json_to_metric_definition (metric_to_json (J:=J) (echo m)) = Ok (echo m) ∧
  definition (echo m) = definition m ∧ description (metadata (echo m)) = description (metadata m) ∧ source_event_type (echo m) = source_event_type m.
Proof. intros Hm. split_and!; [by apply decode_scan|by apply decode_report|by apply (decode_report (echo m))|done..]. Qed.

Lemma definition_survives_files_witness :
  json_to_metric_definition (metric_to_json (J:=Document) sample_metric) = Ok (echo sample_metric).
Proof.
  assert (message_ok sample_metric) as Hok by (split; [split; reflexivity || discriminate|repeat constructor]).
  exact (proj1 (proj2 (definition_survives_files (J:=Document) sample_metric Hok))).
Defined.

(** ** A run of the pipeline *)

Definition by_any (a b : str) : Prop := True.
#[global] Instance by_any_dec : RelDecision by_any := λ a b, left I.

Definition sample_m3 : M3 := λ i id m, approves_second (lit "run").
Definition sample_calls (i : nat) : ApplyCall := mk_apply_call (λ c, c) (tx_ok (lit "m")) run_approved Delivered.
Definition sample_io : ApplyIo := mk_apply_io true true.

(** What each step of the pipeline hands to the next, on the catalogue of one CUSTOM metric. *)
Definition sample_report : Document := default json_null (match scan 1 (λ _, custom_listing (J:=Document) by_any catalogue_custom) with Ok v => Some v | _ => None end).
Definition sample_proposals : Document := default json_null (match translate_subcommand parse_tv sample_report with Ok (v, _) => Some v | _ => None end).
Definition sample_outcomes : list (ShadowOutcome Document) :=
  match shadow_subcommand sample_m3 (lit "7d") None sample_proposals with Ok (_, os) => os | _ => [] end.
Definition sample_audit_output : ApplyOutput :=
  audit_of (lit "alice") [mk_apply_outcome (lit "old") (lit "old-migrated") (lit "run") (lit "m") (Some 1%Z) (lit "OK") None].

Lemma sample_others : others_ok sample_calls.
Proof. split; [intros i c; by split|done]. Qed.

Lemma sample_run : ∃ counts c',
  scan 1 (λ _, custom_listing (J:=Document) by_any catalogue_custom) = Ok sample_report ∧
  translate_subcommand parse_tv sample_report = Ok (sample_proposals, counts) ∧
  shadow_subcommand sample_m3 (lit "7d") None sample_proposals = Ok (0%Z, sample_outcomes) ∧
  apply_subcommand any_uuid sample_io sample_calls sample_outcomes (Some (lit "alice")) false true catalogue_custom = (c', Ok (0%Z, Some sample_audit_output)).
Proof. eexists _, _. split_and!; vm_compute; reflexivity. Qed.


Lemma apply_correct_witness : ∃ c' r,
  apply_subcommand any_uuid sample_io sample_calls sample_outcomes (Some (lit "alice")) false true catalogue_custom = (c', r) ∧
  r = Ok (0%Z, Some sample_audit_output) ∧ length (migrations c') = 1.
Proof.
  destruct (apply_correct any_uuid sample_io sample_calls sample_outcomes (Some (lit "alice")) false true catalogue_custom) as (c' & r & Hr & _ & _ & _ & Haud);
    [apply sample_others| | |].
  - intros x r e Hx He. rewrite metrics_lookup in Hx. unfold catalogue_custom in Hx. cbn [insert_definition definitions] in Hx.
    apply fmap_Some in Hx as (row & Hx & ->). apply lookup_insert_Some in Hx as [[_ <-]|[_ Hx]]; [discriminate He|].
    rewrite (lookup_empty (M:=gmap str)) in Hx. discriminate Hx.
  - apply Forall_forall. intros o Ho. assert (∃ o1, sample_outcomes = [o1] ∧ candidate_text o1) as (o1 & E & Ht).
    { eexists. split; [vm_compute; reflexivity|]. vm_compute. by split. }
    rewrite E in Ho. apply list_elem_of_singleton in Ho as ->. exact Ht.
  - destruct sample_run as (_ & c1 & _ & _ & _ & H4). rewrite H4 in Hr. injection Hr as <- <-. exists c1, (Ok (0%Z, Some sample_audit_output)).
    split; [exact H4|]. split; [reflexivity|]. apply (Haud 0%Z sample_audit_output eq_refl); [done|]. intros i code msg. discriminate.
Defined.

(** ** What the command line gets wrong *)

(** The direction of a metric is lost on the way: its replacement says higher is better. *)
Lemma direction_lost : ∃ c' now row,
  apply_subcommand any_uuid sample_io sample_calls sample_outcomes (Some (lit "alice")) false true catalogue_custom = (c', Ok (0%Z, Some sample_audit_output)) ∧
  (row_lower_is_better <$> definitions c' !! lit "old") = Some true ∧
  definitions c' !! lit "old-migrated" = Some row ∧ row_lower_is_better row = false ∧ created_at row = now.
Proof. eexists _, _, _. split_and!; vm_compute; reflexivity. Qed.

(** The status of a failed outcome has no underscores. *)
Lemma status_text : code_status InvalidArgument = lit "INVALIDARGUMENT" ∧ code_status FailedPrecondition = lit "FAILEDPRECONDITION".
Proof. split; reflexivity. Qed.

(** The plan calls a PROPORTION a RATIO, a RATIO a PROPORTION and a PERCENTILE a RATE. *)
Lemma plan_labels : ∀ id, (λ t, describe_candidate_type (J:=Document) (metric_to_json (mk_message (mk_metric id id t None [] []) sample_metadata [] [] [] f64_zero)))
  <$> [Proportion; Ratio; Percentile] = [lit "RATIO"; lit "PROPORTION"; lit "RATE"].
Proof. done. Qed.

(** A metric whose identifier has surrounding space is never found by a migration, or another
    one is migrated for it. *)
Lemma padded_identifier parse_uuid sr t req c c' a : migrate_metric_definition parse_uuid sr t req c = Ok (c', a) →
  trim (req_old_metric_id req) ≠ req_old_metric_id req → old_metric_id a ≠ req_old_metric_id req.
Proof. intros (m & _ & -> & _)%migrate_definition_ok Hne. exact Hne. Qed.
