(* ===== verification/ConfigStream.v ===== *)
(** The configuration stream between the management and the assignment service:
    [SharedState::publish] and [stream_config_updates] of
    [experimentation-management/src/grpc.rs], and the loop of
    [experimentation-assignment/src/stream_client.rs] that feeds the configuration cache.

    The server is the world of [Lifecycle]: its handlers interleave with the task of the
    stream. One client is modelled, with its connection. The
    theorems say what it delivers: an uninterrupted connection leaves the client with the
    last event of every experiment over the backfill; what happened while it was away is
    lost. *)
From Stdlib Require Import Ascii String.
From stdpp Require Import sorting.
From S2P Require Import Prelude Bytes F64 Config ConfigCache ConfigCacheSpec Targeting StateMachine Lifecycle.

Definition BROADCAST_CAPACITY : nat := 512.

Abbreviation Row := (Uuid * StateMachine.ExperimentRow)%type.

(** [WHERE state IN ('RUNNING', 'PAUSED') ORDER BY experiment_id]. *)
Definition is_active (r : Row) : Prop := row_state r.2 = lit "RUNNING" ∨ row_state r.2 = lit "PAUSED".
Definition by_id (a b : Row) : Prop := (a.1 ≤ b.1)%positive.
#[export] Instance by_id_dec a b : Decision (by_id a b).
Proof. unfold by_id. apply _. Defined.
Definition active_rows (db : Db) : list Row := merge_sort by_id (filter is_active (map_to_list db)).

(** The task of one [stream_config_updates] call: the request has arrived; the version is
    loaded; the broadcast channel is subscribed, from the event at [cursor] on; the rows of
    the backfill are being sent; live. [Idle] is no call. *)
Inductive Task :=
| Idle
| Requested (last_known : Z)
| Loaded (last_known current : Z)
| Subscribed (last_known current : Z) (cursor : nat)
| Backfilling (current : Z) (rows : list Row) (cursor : nat)
| Live (cursor : nat).

(** What the client has of the stream: the rows of the experiments it knows, and the
    newest version. *)
Record Client := mk_client { view : gmap Uuid StateMachine.ExperimentRow; last_version : Z }.

(** [queue] holds what is sent and not yet received. *)
Record Sys := mk_sys { server : World; task : Task; queue : list ConfigUpdateEvent; client : Client }.

(** [apply_update]. *)
Definition apply_event (v : gmap Uuid StateMachine.ExperimentRow) (e : ConfigUpdateEvent) : gmap Uuid StateMachine.ExperimentRow :=
  if ev_is_deletion e then delete (ev_id e) v else <[ev_id e := ev_row e]> v.

Definition receive_event (c : Client) (e : ConfigUpdateEvent) : Client :=
  mk_client (apply_event (view c) e) (Z.max (last_version c) (ev_version e)).

(** The event of a backfilled row. *)
Definition backfill_event (current : Z) (r : Row) : ConfigUpdateEvent := mk_event r.1 r.2 false current.

(** One step of the server's task, given the server: the next task and what it sends. A
    subscriber that is more than the capacity behind continues at the oldest event the
    channel retains. *)
Definition task_step (w : World) (t : Task) : option (Task * list ConfigUpdateEvent) :=
  match t with
  | Idle => None
  | Requested known => Some (Loaded known (version w), [])
  | Loaded known current => Some (Subscribed known current (length (channel w)), [])
  | Subscribed known current cursor =>
      Some (if (known <? current)%Z then Backfilling current (active_rows (db w)) cursor else Live cursor, [])
  | Backfilling current (r :: rows) cursor => Some (Backfilling current rows cursor, [backfill_event current r])
  | Backfilling _ [] cursor => Some (Live cursor, [])
  | Live cursor =>
      if length (channel w) <=? cursor + BROADCAST_CAPACITY
      then e ← channel w !! cursor; Some (Live (S cursor), [e])
      else Some (Live (length (channel w) - BROADCAST_CAPACITY), [])
  end.

(** The step when the query it makes fails: the backfill, or one of its rows, is skipped. *)
Definition task_failed (t : Task) : option Task :=
  match t with
  | Subscribed known current cursor => if (known <? current)%Z then Some (Live cursor) else None
  | Backfilling current (_ :: rows) cursor => Some (Backfilling current rows cursor)
  | _ => None
  end.

Section system.
Context (validate_starting : Uuid → bool) (initial_view : gmap Uuid StateMachine.ExperimentRow).

(** The steps of a connection that is not interrupted, with no failed query. *)
Inductive connected_step : Sys → Sys → Prop :=
| connected_server s w' : Lifecycle.step validate_starting (server s) w' →
    connected_step s (mk_sys w' (task s) (queue s) (client s))
| connected_task s t' sent : task_step (server s) (task s) = Some (t', sent) →
    connected_step s (mk_sys (server s) t' (queue s ++ sent) (client s))
| connected_receive s e q : queue s = e :: q →
    connected_step s (mk_sys (server s) (task s) q (receive_event (client s) e)).

(** And the others: a query fails, the client calls, the connection breaks and loses what is
    in flight, the server restarts on its database with version 1 and no handlers. *)
Inductive sys_step : Sys → Sys → Prop :=
| sys_connected s s' : connected_step s s' → sys_step s s'
| sys_failed s t' : task_failed (task s) = Some t' → sys_step s (mk_sys (server s) t' (queue s) (client s))
| sys_connect s : task s = Idle →
    sys_step s (mk_sys (server s) (Requested (last_version (client s))) [] (client s))
| sys_disconnect s : sys_step s (mk_sys (server s) Idle [] (client s))
| sys_server_restart s : sys_step s (mk_sys (mk_world (db (server s)) 1 [] []) Idle [] (client s)).

(** Or the client restarts, with its file. *)
Inductive any_step : Sys → Sys → Prop :=
| any_sys s s' : sys_step s s' → any_step s s'
| any_client_restart s : any_step s (mk_sys (server s) Idle [] (mk_client initial_view 0)).
End system.

(** ** The client's cache *)

Section cache.
Context (print_uuid : Uuid → str) (contents : Uuid → ConfigCache.Experiment).

Definition state_number (s : str) : Z :=
  if is_lit s "DRAFT" then 1 else if is_lit s "STARTING" then 2 else if is_lit s "RUNNING" then 3
  else if is_lit s "CONCLUDING" then 4 else if is_lit s "CONCLUDED" then 5 else if is_lit s "ARCHIVED" then 6
  else if is_lit s "PAUSED" then 7 else 0.

(** The message of an event: its row's state, and what never changes. *)
Definition proto_of (id : Uuid) (row : StateMachine.ExperimentRow) : ConfigCache.Experiment :=
  let p := contents id in
  ConfigCache.mk_experiment (print_uuid id) (p_name p) (state_number (row_state row)) (p_type p) (p_hash_salt p) (p_layer_id p)
    (p_variants p) (p_is_cumulative_holdout p).

Definition update_of (e : ConfigUpdateEvent) : ConfigUpdate :=
  mk_config_update (Some (proto_of (ev_id e) (ev_row e))) (ev_is_deletion e) (ev_version e).
End cache.

(** ** Reconnecting *)

(** Milliseconds. *)
Definition INITIAL_BACKOFF : Z := 1000.
Definition MAX_BACKOFF : Z := 30000.

(** [nanos] is the sub-second part of the clock. *)
Definition rand_jitter (nanos max_ms : Z) : Z := (nanos mod (max_ms / 4 + 1))%Z.

(** How one [stream_once] ended, and the clock after it; [Shut] is a shutdown, while
    streaming or while waiting. *)
Inductive Attempt := Lost (nanos : Z) | Shut.

(** [run]: the waits before each new attempt. *)
Fixpoint run_waits (backoff : Z) (attempts : list Attempt) : list Z :=
  match attempts with
  | [] | Shut :: _ => []
  | Lost nanos :: attempts => (backoff + rand_jitter nanos backoff)%Z :: run_waits (Z.min (backoff * 2) MAX_BACKOFF) attempts
  end.

Definition waits : list Attempt → list Z := run_waits INITIAL_BACKOFF.

(** ** Replaying events *)

Definition replay (l : list ConfigUpdateEvent) (v : gmap Uuid StateMachine.ExperimentRow) : gmap Uuid StateMachine.ExperimentRow :=
  fold_left apply_event l v.

Definition last_event (id : Uuid) (l : list ConfigUpdateEvent) : option ConfigUpdateEvent := last (filter (λ e, ev_id e = id) l).

Definition outcome (e : ConfigUpdateEvent) : option StateMachine.ExperimentRow := if ev_is_deletion e then None else Some (ev_row e).

Lemma apply_event_lookup v e id : apply_event v e !! id = if decide (ev_id e = id) then outcome e else v !! id.
Proof.
  unfold apply_event, outcome. destruct (ev_is_deletion e), (decide (ev_id e = id)) as [<-|Hne];
    by rewrite ?lookup_delete_eq, ?lookup_delete_ne, ?lookup_insert_eq, ?lookup_insert_ne.
Qed.

Lemma replay_lookup l : ∀ v id, replay l v !! id = match last_event id l with Some e => outcome e | None => v !! id end.
Proof.
  unfold replay, last_event. induction l as [|e l IH]; intros v id; [done|]. cbn [fold_left]. rewrite IH, filter_cons, apply_event_lookup.
  destruct (decide (ev_id e = id)) as [<-|Hne]; [|done]. rewrite last_cons. by destruct (last _).
Qed.

Lemma replay_events_app l k v : replay (l ++ k) v = replay k (replay l v).
Proof. apply fold_left_app. Qed.

(** ** A connection *)

(** What is still to come: sent and not received, then the rest of the backfill, then the
    channel from the cursor on. *)
Definition pending (s : Sys) : list ConfigUpdateEvent :=
  queue s ++ match task s with
  | Backfilling current rows cursor => (backfill_event current <$> rows) ++ drop cursor (channel (server s))
  | Live cursor => drop cursor (channel (server s))
  | _ => []
  end.

Definition streaming (s : Sys) : Prop :=
  match task s with Backfilling _ _ cursor | Live cursor => cursor ≤ length (channel (server s)) | _ => False end.

(** The subscriber is not further behind than the channel holds. *)
Definition unlagged (s : Sys) : Prop :=
  match task s with Backfilling _ _ cursor | Live cursor => length (channel (server s)) ≤ cursor + BROADCAST_CAPACITY | _ => True end.

Section connection.
Context (validate_starting : Uuid → bool).

Lemma channel_grows w w' : Lifecycle.step validate_starting w w' → ∃ new, channel w' = channel w ++ new.
Proof. destruct 1; (exists []; by rewrite app_nil_r) || by eexists. Qed.

Lemma connected_replay s s' : streaming s → unlagged s → connected_step validate_starting s s' →
  streaming s' ∧ ∃ new, channel (server s') = channel (server s) ++ new ∧
    replay (pending s') (view (client s')) = replay (pending s ++ new) (view (client s)).
Proof.
  intros Hs Hu Hstep. destruct Hstep as [s w' Hw|s t' sent Ht|s e q Hq].
  - destruct (channel_grows _ _ Hw) as [new Hc]. unfold streaming, pending in *. cbn. rewrite Hc.
    assert (∀ c, c ≤ length (channel (server s)) → drop c (channel (server s) ++ new) = drop c (channel (server s)) ++ new) as Hd by (intros c ?; by rewrite drop_app_le).
    destruct (task s) as [| | | |cur rows c|c]; [done..| |]; (split; [rewrite length_app; lia|]); exists new; (split; [done|]); rewrite Hd by done; by rewrite <- ?app_assoc.
  - unfold streaming, unlagged, pending in *. cbn. destruct (task s) as [| | | |cur [|r rows] c|c]; try done; cbn [task_step] in Ht.
    + injection Ht as <- <-. cbn. split; [done|]. exists []. by rewrite !app_nil_r.
    + injection Ht as <- <-. cbn. split; [done|]. exists []. rewrite !app_nil_r. split; [done|]. by rewrite <- app_assoc.
    + rewrite (proj2 (Nat.leb_le _ _) Hu) in Ht. destruct (channel (server s) !! c) as [e|] eqn:He; [|done]. injection Ht as <- <-. cbn.
      split; [by apply lookup_lt_Some in He|]. exists []. rewrite !app_nil_r. split; [done|]. by rewrite (drop_S _ _ _ He), <- app_assoc.
  - unfold streaming, pending in *. cbn. split; [done|]. exists []. rewrite !app_nil_r. split; [done|]. rewrite Hq. done.
Qed.

Definition smooth_step (s s' : Sys) : Prop := unlagged s ∧ connected_step validate_starting s s'.

Lemma smooth_replay s s' : streaming s → rtc smooth_step s s' →
  streaming s' ∧ ∃ new, channel (server s') = channel (server s) ++ new ∧
    replay (pending s') (view (client s')) = replay (pending s ++ new) (view (client s)).
Proof.
  intros Hs Hr. induction Hr as [s|s s1 s2 [Hu H1] Hr IH]; [split; [done|]; exists []; by rewrite !app_nil_r|].
  destruct (connected_replay s s1 Hs Hu H1) as (Hs1 & n1 & Hc1 & Hp1). destruct (IH Hs1) as (Hs2 & n2 & Hc2 & Hp2).
  split; [done|]. exists (n1 ++ n2). rewrite Hc2, Hc1, <- app_assoc. split; [done|]. by rewrite Hp2, (replay_events_app _ n2), Hp1, <- replay_events_app, <- app_assoc.
Qed.

(** Everything the stream has is received. *)
Definition drained (s : Sys) : Prop := queue s = [] ∧ task s = Live (length (channel (server s))).

Lemma drained_pending s : drained s → pending s = [].
Proof. intros [Hq Ht]. unfold pending. by rewrite Hq, Ht, drop_all. Qed.

(** The backfill's events are the active rows. *)
Lemma backfill_last current (d : Db) id :
  last_event id (backfill_event current <$> active_rows d) =
  match d !! id with Some row => if decide (is_active (id, row)) then Some (backfill_event current (id, row)) else None | None => None end.
Proof.
  assert (∀ e, e ∈ filter (λ e, ev_id e = id) (backfill_event current <$> active_rows d) ↔
    ∃ row, d !! id = Some row ∧ is_active (id, row) ∧ e = backfill_event current (id, row)) as Hin.
  { intros e. rewrite list_elem_of_filter, list_elem_of_fmap. unfold active_rows. setoid_rewrite merge_sort_Permutation. setoid_rewrite list_elem_of_filter.
    split; [intros (He & [i r] & -> & Ha & Hm%elem_of_map_to_list); cbn in He; subst i; by exists r|].
    intros (row & Hd & Ha & ->). split; [done|]. exists (id, row). split_and!; [done|done|by apply elem_of_map_to_list]. }
  unfold last_event. destruct (last _) as [e|] eqn:El.
  - assert (e ∈ filter (λ e, ev_id e = id) (backfill_event current <$> active_rows d)) as (row & Hd & Ha & ->)%Hin by by apply last_Some_elem_of in El.
    by rewrite Hd, decide_True.
  - apply last_None in El. destruct (d !! id) as [row|] eqn:Ed; [|done]. rewrite decide_False; [done|]. intros Ha.
    assert (backfill_event current (id, row) ∈ filter (λ e, ev_id e = id) (backfill_event current <$> active_rows d)) as Hbad by (apply Hin; by exists row).
    rewrite El in Hbad. by apply not_elem_of_nil in Hbad.
Qed.

End connection.

(** ** What a client missed *)

Section missed.
Context (validate_starting : Uuid → bool) (id : Uuid).

(** Nothing that a thread still does publishes the experiment: it has not begun, is about
    another experiment, or is over. *)
Definition quiet (t : Thread) : Prop := is_request t = true ∨ thread_id t ≠ Some id ∨ (∃ i, t = RejectLoad i).

Definition archived (d : Db) : Prop := state_of d id = Some Archived.

Lemma archived_statement now t f d d' rows : archived d → statement now t = Some f → f d = (d', rows) →
  archived d' ∧ (thread_id t = Some id → rows = 0%Z).
Proof.
  intros Ha Hs Hf. destruct (statement_thread_id _ _ _ Hs) as [i Hi].
  destruct (statement_effect validate_starting now t f d d' rows i Hs Hf Hi) as [(s & s' & Hst & Htg & _ & Hst' & Ho)|(-> & -> & _)]; [|done].
  destruct (decide (i = id)) as [->|Hne]; [|split; [unfold archived; by rewrite Ho|congruence]].
  unfold archived in Ha. rewrite Ha in Hst. injection Hst as <-. by destruct t.
Qed.

Lemma quiet_after_statement now t f rows : quiet t → statement now t = Some f → (thread_id t = Some id → rows = 0%Z) →
  quiet (after_statement t rows).
Proof.
  intros Hq Hs Hr. destruct (decide (thread_id t = Some id)) as [Hid|Hid].
  - rewrite (Hr Hid). destruct Hq as [Hq|[Hq|[i ->]]]; [|by destruct Hq|done].
    destruct t; try done; cbn; try (right; left; done); right; right; by eexists.
  - right. left. destruct t; try done; cbn in Hid |- *;
      unfold start_began, start_ran, conclude_began, archive_began, pause_began, resume_began, or_reject; by repeat case_match.
Qed.

Lemma quiet_done b : quiet (Done b).
Proof. by right; left. Qed.

Lemma quiet_read t t' d : quiet t → read_step validate_starting t d = Some t' → quiet t'.
Proof.
  intros [Hq|[Hq|[i ->]]] Ht.
  - by destruct t.
  - right. left. destruct t; try done; cbn in Ht, Hq; unfold start_validated in Ht; repeat case_match; injection Ht as <-; done.
  - injection Ht as <-. by right; left.
Qed.

Lemma quiet_step w w' : Lifecycle.step validate_starting w w' → archived (db w) → Forall quiet (threads w) →
  archived (db w') ∧ Forall quiet (threads w') ∧ ∃ new, channel w' = channel w ++ new ∧ Forall (λ e, ev_id e ≠ id) new.
Proof.
  intros Hstep Ha Hq. assert (∀ i t, threads w !! i = Some t → quiet t) as Hqi by (intros i t; by apply Forall_lookup_1).
  destruct Hstep as [w t Hr|w i t now f d' rows Hi Hs Hf|w i t now f Hi Hs|w i t now f d' rows Hi Hs Hf|w i t t' Hi Hr|w i t t' Hi Hr|w i id' row del Hi|w i e Hi]; cbn.
  - split_and!; [done|apply Forall_app; split; [done|]; apply Forall_singleton; by left|exists []; by rewrite app_nil_r].
  - destruct (archived_statement now t f _ d' rows Ha Hs Hf) as [Ha' Hrows]. split_and!; [done| |exists []; by rewrite app_nil_r].
    apply Forall_insert; [done|]. eapply quiet_after_statement; [by eapply Hqi|done|done].
  - split_and!; [done| |exists []; by rewrite app_nil_r]. apply Forall_insert; [done|].
    destruct t; try done; try apply quiet_done. destruct (Hqi _ _ Hi) as [?|[Hn|[? ?]]]; try done. by right; left.
  - destruct (archived_statement now t f _ d' rows Ha Hs Hf) as [Ha' _]. split_and!; [done| |exists []; by rewrite app_nil_r].
    apply Forall_insert; [done|]. destruct t; try done; try apply quiet_done. destruct (Hqi _ _ Hi) as [?|[Hn|[? ?]]]; try done. by right; left.
  - split_and!; [done| |exists []; by rewrite app_nil_r]. apply Forall_insert; [done|]. eapply quiet_read; [by eapply Hqi|done].
  - split_and!; [done| |exists []; by rewrite app_nil_r]. apply Forall_insert; [done|apply quiet_done].
  - split_and!; [done| |exists []; by rewrite app_nil_r]. apply Forall_insert; [done|].
    destruct (Hqi _ _ Hi) as [?|[Hn|[? ?]]]; try done. right. by left.
  - split_and!; [done|apply Forall_insert; [done|apply quiet_done]|]. exists [e]. split; [done|]. apply Forall_singleton.
    destruct (Hqi _ _ Hi) as [?|[Hn|[? ?]]]; try done. intros He. apply Hn. cbn. by rewrite He.
Qed.

(** Everything the stream still has to deliver, the subscription included. *)
Definition coming (s : Sys) : list ConfigUpdateEvent :=
  queue s ++ match task s with
  | Subscribed _ _ cursor | Live cursor => drop cursor (channel (server s))
  | Backfilling current rows cursor => (backfill_event current <$> rows) ++ drop cursor (channel (server s))
  | _ => []
  end.

(** The experiment is archived and nobody is left to say so. *)
Record missed (s : Sys) : Prop := mk_missed
  { missed_archived : archived (db (server s)); missed_quiet : Forall quiet (threads (server s));
    missed_events : Forall (λ e, ev_id e ≠ id) (coming s) }.

Lemma drop_quiet c (l new : list ConfigUpdateEvent) : Forall (λ e, ev_id e ≠ id) (drop c l) → Forall (λ e, ev_id e ≠ id) new →
  Forall (λ e, ev_id e ≠ id) (drop c (l ++ new)).
Proof. intros Hl Hn. rewrite drop_app. apply Forall_app. split; [done|by apply Forall_drop]. Qed.

Lemma active_not_archived (d : Db) r : archived d → r ∈ active_rows d → r.1 ≠ id.
Proof.
  unfold active_rows. rewrite merge_sort_Permutation, list_elem_of_filter. intros Ha [Hact Hin]. destruct r as [i row]. apply elem_of_map_to_list in Hin. cbn.
  intros ->. unfold archived in Ha. apply state_of_some in Ha as (row' & Hrow & Hst). rewrite Hin in Hrow. injection Hrow as <-.
  unfold is_active in Hact. cbn in Hact. rewrite Hst in Hact. by destruct Hact.
Qed.

Lemma missed_connected s s' : missed s → connected_step validate_starting s s' → missed s' ∧ view (client s') !! id = view (client s) !! id.
Proof.
  intros [Ha Hq He] Hstep. destruct Hstep as [s w' Hw|s t' sent Ht|s e q Hqu].
  - destruct (quiet_step _ _ Hw Ha Hq) as (Ha' & Hq' & new & Hc & Hn). split; [|done]. split; [done|done|]. unfold coming in *. cbn. rewrite Hc.
    apply Forall_app in He as [H1 H2]. apply Forall_app. split; [done|]. destruct (task s); try done; try by apply drop_quiet.
    apply Forall_app in H2 as [H2 H3]. apply Forall_app. split; [done|by apply drop_quiet].
  - split; [|done]. split; [done|done|]. unfold coming in *. cbn. apply Forall_app in He as [H1 H2]. rewrite <- app_assoc. apply Forall_app. split; [done|].
    destruct (task s) as [|k|k c0|k c0 cur|c0 [|r rows] cur|cur]; cbn in Ht.
    + done.
    + by injection Ht as <- <-.
    + injection Ht as <- <-. cbn. by rewrite drop_all.
    + injection Ht as <- <-. cbn. destruct (k <? c0)%Z; [|done]. apply Forall_app. split; [|done].
      apply Forall_fmap, Forall_forall. intros r Hr. cbn. by apply (active_not_archived _ _ Ha).
    + injection Ht as <- <-. done.
    + injection Ht as <- <-. done.
    + destruct (length (channel (server s)) <=? cur + BROADCAST_CAPACITY) eqn:El.
      * destruct (channel (server s) !! cur) as [e|] eqn:Ec; [|done]. injection Ht as <- <-. by rewrite (drop_S _ _ _ Ec) in H2.
      * injection Ht as <- <-. cbn. apply Nat.leb_gt in El.
        replace (length (channel (server s)) - BROADCAST_CAPACITY) with (cur + (length (channel (server s)) - BROADCAST_CAPACITY - cur)) by lia.
        rewrite <- drop_drop. by apply Forall_drop.
  - unfold coming in He. rewrite Hqu in He. apply Forall_app in He as [[He1 He2]%Forall_cons He3]. split.
    + split; [done|done|]. unfold coming. cbn. by apply Forall_app.
    + cbn. rewrite apply_event_lookup. by rewrite decide_False.
Qed.

End missed.

(** ** Executions *)

Section execution.
Context (validate_starting : Uuid → bool).

(** The actions of an uninterrupted connection, those of the handlers by thread. *)
Inductive Action :=
| ARequest (t : Thread) | AStatement (i : nat) (now : Z) | ARead (i : nat) | AVersion (i : nat) | ASend (i : nat)
| ATask | AReceive.

Definition handler_action (a : Action) (w : World) : option World :=
  match a with
  | ARequest t => if is_request t then Some (mk_world (db w) (version w) (channel w) (threads w ++ [t])) else None
  | AStatement i now =>
      t ← threads w !! i; f ← statement now t;
      let '(db', rows) := f (db w) in
      Some (mk_world db' (version w) (channel w) (<[i := after_statement t rows]> (threads w)))
  | ARead i =>
      t ← threads w !! i; t' ← read_step validate_starting t (db w);
      Some (mk_world (db w) (version w) (channel w) (<[i := t']> (threads w)))
  | AVersion i =>
      match threads w !! i with
      | Some (PublishVersion id row del) =>
          Some (mk_world (db w) (version w + 1) (channel w) (<[i := PublishSend (mk_event id row del (version w))]> (threads w)))
      | _ => None
      end
  | ASend i =>
      match threads w !! i with
      | Some (PublishSend e) => Some (mk_world (db w) (version w) (channel w ++ [e]) (<[i := Done true]> (threads w)))
      | _ => None
      end
  | _ => None
  end.

Definition connected_action (a : Action) (s : Sys) : option Sys :=
  match a with
  | ATask => '(t, sent) ← task_step (server s) (task s); Some (mk_sys (server s) t (queue s ++ sent) (client s))
  | AReceive => match queue s with e :: q => Some (mk_sys (server s) (task s) q (receive_event (client s) e)) | [] => None end
  | a => w ← handler_action a (server s); Some (mk_sys w (task s) (queue s) (client s))
  end.

Lemma handler_action_step a w w' : handler_action a w = Some w' → Lifecycle.step validate_starting w w'.
Proof.
  destruct a as [t|i now|i|i|i| |]; cbn; try done.
  - destruct (is_request t) eqn:E; [|done]. intros [= <-]. by constructor.
  - intros (t & Ht & (f & Hf & H)%bind_Some)%bind_Some. destruct (f (db w)) as [d rows] eqn:E. injection H as <-. by econstructor.
  - intros (t & Ht & (t' & Hr & [= <-])%bind_Some)%bind_Some. by eapply step_read.
  - destruct (threads w !! i) as [[]|] eqn:E; try done. intros [= <-]. by apply step_publish_version.
  - destruct (threads w !! i) as [[]|] eqn:E; try done. intros [= <-]. by apply step_publish_send.
Qed.

Lemma connected_action_step a s s' : connected_action a s = Some s' → connected_step validate_starting s s'.
Proof.
  assert (∀ a, (w ← handler_action a (server s); Some (mk_sys w (task s) (queue s) (client s))) = Some s' → connected_step validate_starting s s') as Hh.
  { intros b (w & Hw%handler_action_step & [= <-])%bind_Some. by constructor. }
  destruct a; try apply Hh; cbn.
  - intros ([t sent] & Ht & [= <-])%bind_Some. by constructor.
  - destruct (queue s) as [|e q] eqn:E; [done|]. intros [= <-]. by constructor.
Qed.

Fixpoint run (l : list Action) (s : Sys) : option Sys :=
  match l with [] => Some s | a :: l => s' ← connected_action a s; run l s' end.

Lemma run_steps l : ∀ s s', run l s = Some s' → rtc (sys_step validate_starting) s s'.
Proof.
  induction l as [|a l IH]; intros s s'; cbn; [intros [= <-]; constructor|]. intros (s1 & H1%connected_action_step & H2)%bind_Some.
  econstructor; [by apply sys_connected|by apply IH].
Qed.

Definition is_unlagged (s : Sys) : bool :=
  match task s with Backfilling _ _ cursor | Live cursor => length (channel (server s)) <=? cursor + BROADCAST_CAPACITY | _ => true end.

Fixpoint run_smooth (l : list Action) (s : Sys) : option Sys :=
  match l with [] => Some s | a :: l => if is_unlagged s then s' ← connected_action a s; run_smooth l s' else None end.

Lemma run_smooth_steps l : ∀ s s', run_smooth l s = Some s' → rtc (smooth_step validate_starting) s s'.
Proof.
  induction l as [|a l IH]; intros s s'; cbn; [intros [= <-]; constructor|]. destruct (is_unlagged s) eqn:E; [|done].
  intros (s1 & H1%connected_action_step & H2)%bind_Some. econstructor; [|by apply IH]. split; [|done].
  unfold is_unlagged, unlagged in *. destruct (task s); try done; by apply Nat.leb_le.
Qed.
End execution.

Definition all_valid (id : Uuid) : bool := true.
Definition draft_row : StateMachine.ExperimentRow := mk_row (lit "DRAFT") None None None None None None 0.
Definition start_of (i : nat) (id : Uuid) : list Action :=
  [ARequest (StartBegin id); AStatement i 1; ARead i; ARead i; AStatement i 1; ARead i; AVersion i; ASend i].
Definition conclude_of (i : nat) (id : Uuid) : list Action :=
  [ARequest (ConcludeBegin id); AStatement i 2; AStatement i 2; ARead i; ARead i; AVersion i; ASend i].
Definition archive_of (i : nat) (id : Uuid) : list Action :=
  [ARequest (ArchiveBegin id); AStatement i 3; ARead i; ARead i; AVersion i; ASend i].
Definition subscribe_actions : list Action := [ATask; ATask; ATask; ATask].

(** One draft, nothing connected. *)
Definition one_draft : Sys := mk_sys (mk_world {[1%positive := draft_row]} 1 [] []) Idle [] (mk_client ∅ 0).

Lemma one_draft_initial : initial (server one_draft).
Proof. split_and!; [done|done|]. intros id row H. cbn in H. apply lookup_singleton_Some in H as [<- <-]. done. Qed.

(** The client connects and receives the start; it is then away while the experiment is
    concluded and archived. *)
Definition connected_once : Sys := mk_sys (server one_draft) (Requested 0) [] (client one_draft).
Definition first_actions : list Action := subscribe_actions ++ start_of 0 1 ++ [ATask; AReceive].
Definition away (s : Sys) : Sys := mk_sys (server s) Idle [] (client s).
Definition away_actions : list Action := conclude_of 1 1 ++ archive_of 2 1.
Definition back (s : Sys) : Sys := mk_sys (server s) (Requested (last_version (client s))) [] (client s).

Definition after_return : option Sys :=
  s ← run all_valid first_actions connected_once;
  s ← run all_valid away_actions (away s);
  run all_valid subscribe_actions (back s).

Definition is_running (s : Sys) (id : Uuid) : bool := match view (client s) !! id with Some row => is_lit (row_state row) "RUNNING" | None => false end.

Lemma missed_check s : state_of (db (server s)) 1 = Some Archived → (∀ t, t ∈ threads (server s) → t = Done true) → coming s = [] → missed 1 s.
Proof.
  intros Ha Ht Hc. split; [done| |by rewrite Hc]. apply Forall_forall. intros t Hin. rewrite (Ht t Hin). apply quiet_done.
Qed.

(** Reconnected, backfilled and drained, with no failure anywhere, the client has the
    archived experiment as RUNNING. *)
Lemma archived_served : ∃ s, after_return = Some s ∧ rtc (sys_step all_valid) one_draft s ∧ missed 1 s ∧ drained s ∧ is_running s 1 = true.
Proof.
  destruct (run all_valid first_actions connected_once) as [s1|] eqn:E1; [|by vm_compute in E1].
  destruct (run all_valid away_actions (away s1)) as [s2|] eqn:E2; [|vm_compute in E1; injection E1 as <-; by vm_compute in E2].
  destruct (run all_valid subscribe_actions (back s2)) as [s3|] eqn:E3; [|vm_compute in E1; injection E1 as <-; vm_compute in E2; injection E2 as <-; by vm_compute in E3].
  exists s3. split; [unfold after_return; rewrite E1; cbn [mbind option_bind]; rewrite E2; cbn [mbind option_bind]; exact E3|]. split.
  - eapply rtc_l; [by apply (sys_connect all_valid one_draft)|]. etransitivity; [by eapply run_steps|].
    eapply rtc_l; [apply sys_disconnect|]. etransitivity; [by eapply run_steps|].
    assert (task s2 = Idle) as Hidle by (vm_compute in E1; injection E1 as <-; vm_compute in E2; by injection E2 as <-).
    eapply rtc_l; [by apply sys_connect|]. by eapply run_steps.
  - vm_compute in E1. injection E1 as <-. vm_compute in E2. injection E2 as <-. vm_compute in E3. injection E3 as <-.
    split; [|split; [done|by vm_compute]]. apply missed_check; [by vm_compute| |done].
    intros t. cbn. rewrite !elem_of_cons, elem_of_nil. naive_solver.
Qed.


Definition subscribed_once : Sys := mk_sys (server one_draft) (Subscribed 0 1 0) [] (client one_draft).
Definition backfilling_once : Sys := mk_sys (server one_draft) (Backfilling 1 [] 0) [] (client one_draft).


(** ** Gaps *)

(** A server that restarts counts its versions from 1 again. A client that had received
    version 3 gets no backfill from it: a second experiment, started while the client was
    away, is RUNNING and unknown to the client, with nothing left to deliver. *)
Definition two_drafts : Sys := mk_sys (mk_world {[1%positive := draft_row; 2%positive := draft_row]} 1 [] []) (Requested 0) [] (mk_client ∅ 0).
Definition pause_of (i : nat) (id : Uuid) : list Action :=
  [ARequest (PauseBegin id []); AStatement i 4; ARead i; ARead i; AVersion i; ASend i].
Definition resume_of (i : nat) (id : Uuid) : list Action :=
  [ARequest (ResumeBegin id); AStatement i 5; ARead i; ARead i; AVersion i; ASend i].
Definition receive_one : list Action := [ATask; AReceive].
Definition restarted (s : Sys) : Sys := mk_sys (mk_world (db (server s)) 1 [] []) Idle [] (client s).

Definition after_restart : option Sys :=
  s ← run all_valid (subscribe_actions ++ start_of 0 1 ++ receive_one ++ pause_of 1 1 ++ receive_one ++ resume_of 2 1 ++ receive_one) two_drafts;
  s ← run all_valid (start_of 0 2) (restarted s);
  run all_valid [ATask; ATask; ATask] (back s).

Lemma restart_hides_start : ∃ s, after_restart = Some s ∧ last_version (client s) = 3%Z ∧
  state_of (db (server s)) 2 = Some Running ∧ view (client s) !! 2%positive = None ∧ drained s ∧
  run all_valid [ATask] s = None.
Proof.
  destruct after_restart as [s|] eqn:E; [|exfalso; by vm_compute in E]. exists s. split; [done|]. vm_compute in E. injection E as <-. by vm_compute.
Qed.

(** A subscriber 600 events behind goes on at the oldest of the last 512: 88 events are
    neither delivered nor asked for again. *)
Lemma lag_drops_events e : task_step (mk_world ∅ 601 (replicate 600 e) []) (Live 0) = Some (Live 88, []).
Proof. unfold task_step. cbn [channel]. by rewrite length_replicate. Qed.

(** ** Reconnecting *)

Lemma rand_jitter_range nanos backoff : (0 ≤ backoff → 0 ≤ rand_jitter nanos backoff ≤ backoff / 4)%Z.
Proof. intros H. unfold rand_jitter. pose proof (Z.mod_pos_bound nanos (backoff / 4 + 1) ltac:(lia)). lia. Qed.

(** The n-th wait is the n-th power of two, in seconds and at most 30, and up to a quarter
    more. It depends on the number of losses alone: a connection that worked for days in
    between does not bring the first wait back. *)
Lemma wait_bounds attempts : ∀ n w backoff, waits attempts !! n = Some w → backoff = Z.min (1000 * 2 ^ Z.of_nat n) MAX_BACKOFF →
  (backoff ≤ w ≤ backoff + backoff / 4)%Z.
Proof.
  assert (∀ attempts b n w, (0 < b ≤ MAX_BACKOFF)%Z → run_waits b attempts !! n = Some w →
    Z.min (b * 2 ^ Z.of_nat n) MAX_BACKOFF ≤ w ≤ Z.min (b * 2 ^ Z.of_nat n) MAX_BACKOFF + Z.min (b * 2 ^ Z.of_nat n) MAX_BACKOFF / 4)%Z as Hall.
  { induction attempts0 as [|[nanos|] attempts0 IH]; intros b n w Hb Hw; [done| |done]. cbn [run_waits] in Hw. destruct n as [|n]; cbn in Hw.
    - injection Hw as <-. pose proof (rand_jitter_range nanos b ltac:(lia)). change (Z.of_nat 0) with 0%Z. rewrite Z.pow_0_r, Z.mul_1_r, Z.min_l by lia. lia.
    - apply IH in Hw; [|unfold MAX_BACKOFF in *; lia]. rewrite Nat2Z.inj_succ, Z.pow_succ_r by lia.
      pose proof (Z.pow_pos_nonneg 2 (Z.of_nat n) ltac:(lia) ltac:(lia)).
      replace (Z.min (b * (2 * 2 ^ Z.of_nat n)) MAX_BACKOFF)%Z with (Z.min (Z.min (b * 2) MAX_BACKOFF * 2 ^ Z.of_nat n) MAX_BACKOFF)%Z; [done|].
      unfold MAX_BACKOFF in *. nia. }
  intros n w backoff Hw ->. apply (Hall attempts INITIAL_BACKOFF); [done|exact Hw].
Qed.

(** ** The cache behind the client *)

Section mirror.
Context (print_uuid : Uuid → str) (print_inj : ∀ u v, print_uuid u = print_uuid v → u = v) (contents : Uuid → ConfigCache.Experiment).

(** The state the cache stores for a row. *)
Definition shown_state (row : StateMachine.ExperimentRow) : str :=
  short_name (lit "EXPERIMENT_STATE_") (state_str_name (state_number (row_state row))).

Lemma shown_is_state s row : row_state row = as_str s → shown_state row = as_str s.
Proof. intros Hs. unfold shown_state. rewrite Hs. by destruct s. Qed.

Definition mirrors (c : ConfigCache) (v : gmap Uuid StateMachine.ExperimentRow) : Prop :=
  ∀ id, state <$> cc_experiments c !! print_uuid id = shown_state <$> v !! id.

(** The assignment service's cache follows the client: applying the message of an event
    leaves the experiments' states those of [apply_event]. *)
Lemma cache_mirrors {E : Type} o e c v : (∀ id, finite_variants (contents id) = true) → mirrors c v →
  ∃ c', apply_update (E:=E) o (update_of print_uuid contents e) c = Ok c' ∧ mirrors c' (apply_event v e) ∧
    ConfigCache.last_version c' = Z.max (ConfigCache.last_version c) (ev_version e).
Proof.
  intros Hf Hm. set (u := update_of print_uuid contents e).
  assert (∃ es ls, apply_maps (E:=E) u (cc_experiments c) (cc_layers c) = Ok (es, ls) ∧
    ∀ id, state <$> es !! print_uuid id = shown_state <$> apply_event v e !! id) as (es & ls & Hmaps & Hs).
  { unfold apply_maps, u, update_of. cbn [cu_experiment cu_is_deletion]. unfold apply_event. destruct (ev_is_deletion e).
    - do 2 eexists. split; [reflexivity|]. intros id. destruct (decide (ev_id e = id)) as [<-|Hne].
      + by rewrite !lookup_delete_eq.
      + rewrite !lookup_delete_ne; [apply Hm|done|]. intros Hp. by apply Hne, print_inj.
    - rewrite experiment_from_proto_eq. assert (finite_variants (proto_of print_uuid contents (ev_id e) (ev_row e)) = true) as -> by apply Hf.
      cbn. do 2 eexists. split; [reflexivity|]. intros id. destruct (decide (ev_id e = id)) as [<-|Hne].
      + by rewrite !lookup_insert_eq.
      + rewrite !lookup_insert_ne; [apply Hm|done|]. intros Hp. by apply Hne, print_inj. }
  unfold apply_update. rewrite Hmaps. cbn. eexists. split; [reflexivity|]. split; [intros id; cbn; apply Hs|]. cbn.
  destruct (Z.ltb_spec (ConfigCache.last_version c) (ev_version e)); lia.
Qed.
End mirror.
