(* ===== verification/ExperimentRpc.v ===== *)
(** The reading RPCs over experiments ([experimentation-management/src/grpc.rs]
    get_experiment, update_experiment, list_experiments; [store.rs] list_experiments), and
    the listing of a layer's allocations. Each handler runs over one snapshot. *)
From Stdlib Require Import Ascii String SpecFloat.
From stdpp Require Import sorting.
From S2P Require Import Prelude Bytes F64 StateMachine BucketReuse Experiments.

Inductive RpcError := InvalidArgument (message : string) | FailedPrecondition (message : string) | NotFound (id : Uuid).

Definition filter_name (names : list (Z * str)) (n : Z) : option str := if (n =? 0)%Z then None else name_of names n.

(** The filters of a listing, and the row they accept. *)
Record ListFilter := mk_filter { by_state : option str; by_type : option str; by_owner : option str }.

Definition accepts (wanted : option str) (value : str) : Prop := match wanted with Some w => value = w | None => True end.
#[export] Instance accepts_dec wanted value : Decision (accepts wanted value).
Proof. destruct wanted; cbn; apply _. Defined.

Definition matches (f : ListFilter) (row : ExperimentRow) : Prop :=
  accepts (by_state f) (er_state row) ∧ accepts (by_type f) (er_type row) ∧ accepts (by_owner f) (er_owner_email row).
#[export] Instance matches_dec f row : Decision (matches f row).
Proof. unfold matches. apply _. Defined.

Definition id_le (a b : ExperimentRow) : Prop := (er_id a ≤ er_id b)%Z.
#[export] Instance id_le_dec a b : Decision (id_le a b).
Proof. unfold id_le. apply _. Defined.

Section rpc.
Context {Json : Type} (print_json : Json → str) (parse_uuid : str → option Uuid) (print_uuid : Uuid → str).
Abbreviation Db := (Experiments.Db (Json:=Json)).

(** The rows of a query, in the order of their ids. *)
Definition selected (f : ListFilter) (db : Db) : list ExperimentRow := merge_sort id_le (filter (matches f) (map_to_list (experiments db)).*2).

Definition page_limit (page_size : Z) : Z := if ((page_size <=? 0) || (100 <? page_size))%Z then 50 else page_size.

(** [store.list_experiments]: one row more than the page decides whether there is a next one. *)
Definition list_rows (f : ListFilter) (page_size : Z) (page_token : option Uuid) (db : Db) : list ExperimentRow * option Uuid :=
  let page_size := page_limit page_size in
  let rows := match page_token with
              | Some cursor => filter (λ row, cursor < er_id row)%Z (selected f db)
              | None => selected f db
              end in
  let fetched := take (Z.to_nat (page_size + 1)) rows in
  if (page_size <? Z.of_nat (length fetched))%Z
  then (take (Z.to_nat page_size) fetched, er_id <$> fetched !! Z.to_nat (page_size - 1))
  else (fetched, None).

Definition message_of (db : Db) (row : ExperimentRow) : Experiment := experiment_row_to_proto print_json print_uuid row (get_variants (er_id row) db).

Definition rpc_list_experiments (state_filter type_filter : Z) (owner : str) (page_size : Z) (page_token : str) (db : Db) :
    result RpcError (list Experiment * str) :=
  let f := mk_filter (filter_name state_names state_filter) (filter_name type_names type_filter) (if bool_decide (owner = []) then None else Some owner) in
  cursor ← (if bool_decide (page_token = []) then mret None
            else match parse_uuid page_token with Some u => mret (Some u) | None => Err (InvalidArgument "invalid page_token") end);
  let '(rows, next) := list_rows f page_size cursor db in
  mret (message_of db <$> rows, match next with Some u => print_uuid u | None => [] end).

Definition row_of_id (id : Uuid) (db : Db) : result RpcError ExperimentRow :=
  match experiments db !! id with Some row => mret row | None => Err (NotFound id) end.

Definition experiment_uuid (s : str) : result RpcError Uuid :=
  match parse_uuid s with Some u => mret u | None => Err (InvalidArgument "invalid experiment_id UUID") end.

Definition rpc_get_experiment (id : str) (db : Db) : result RpcError Experiment :=
  id ← experiment_uuid id;
  row ← row_of_id id db;
  mret (message_of db row).

(** It stores nothing: the existing experiment is the answer. *)
Definition rpc_update_experiment (request : option Experiment) (db : Db) : result RpcError Experiment :=
  exp ← match request with Some e => mret e | None => Err (InvalidArgument "experiment is required") end;
  _ ← reject_if (bool_decide (experiment_id exp = [])) (InvalidArgument "experiment_id is required");
  _ ← reject_if (negb (bool_decide (audience_rule_id exp = [])))
        (InvalidArgument "audience_rule_id is not supported yet; use targeting_rule_id (#822)");
  id ← experiment_uuid (experiment_id exp);
  row ← row_of_id id db;
  _ ← reject_if (negb (bool_decide (er_state row = lit "DRAFT"))) (FailedPrecondition "only DRAFT experiments can be updated");
  mret (message_of db row).

(** A number that is no state, or no type, filters nothing. *)
Lemma unknown_filter_lists_all owner page_size db :
  rpc_list_experiments 99 (-1) owner page_size [] db = rpc_list_experiments 0 0 owner page_size [] db.
Proof. reflexivity. Qed.

(** Following the tokens of a listing from the first page. *)
Fixpoint all_pages (fuel : nat) (state_filter type_filter : Z) (owner : str) (page_size : Z) (page_token : str) (db : Db) :
    option (list (list Experiment)) :=
  match fuel with
  | O => None
  | S fuel =>
      match rpc_list_experiments state_filter type_filter owner page_size page_token db with
      | Ok (es, []) => Some [es]
      | Ok (es, next) => rest ← all_pages fuel state_filter type_filter owner page_size next db; Some (es :: rest)
      | _ => None
      end
  end.
End rpc.

(** ** Listing *)

Section listing.
Context {Json : Type} (print_json : Json → str) (parse_uuid : str → option Uuid) (print_uuid : Uuid → str).
Context (parse_print : ∀ u, parse_uuid (print_uuid u) = Some u) (print_nonempty : ∀ u, print_uuid u ≠ []).
Context (db : Experiments.Db (Json:=Json)) (keyed : ∀ id row, experiments db !! id = Some row → er_id row = id).

Lemma in_selected f row : row ∈ selected f db ↔ experiments db !! er_id row = Some row ∧ matches f row.
Proof.
  unfold selected. rewrite merge_sort_Permutation, list_elem_of_filter, list_elem_of_fmap. split.
  - intros (Hm & [id row'] & -> & Hin%elem_of_map_to_list). cbn in *. by rewrite (keyed _ _ Hin).
  - intros [Hin Hm]. split; [done|]. exists (er_id row, row). split; [done|by apply elem_of_map_to_list].
Qed.

Lemma selected_unique f : NoDup (er_id <$> selected f db).
Proof.
  unfold selected. apply NoDup_fmap_2_strong.
  - intros x y Hx Hy He. rewrite merge_sort_Permutation in Hx, Hy. apply list_elem_of_filter in Hx as [_ Hx], Hy as [_ Hy].
    apply list_elem_of_fmap in Hx as ([i x'] & -> & Hx), Hy as ([j y'] & -> & Hy). apply elem_of_map_to_list in Hx, Hy. cbn in *.
    pose proof (keyed _ _ Hx). pose proof (keyed _ _ Hy). congruence.
  - rewrite merge_sort_Permutation. apply NoDup_filter, NoDup_fmap_2_strong; [|apply NoDup_map_to_list].
    intros [i x] [j y] Hx%elem_of_map_to_list Hy%elem_of_map_to_list. cbn. intros ->. pose proof (keyed _ _ Hx). pose proof (keyed _ _ Hy). congruence.
Qed.

Lemma selected_sorted f : StronglySorted (key_lt er_id) (selected f db).
Proof.
  assert (StronglySorted id_le (selected f db)) as Hs.
  { assert (Total id_le) as Htot by (intros x y; unfold id_le; lia).
    apply Sorted_StronglySorted; [intros x y z Hxy Hyz; unfold id_le in *; lia|]. apply Sorted_merge_sort, Htot. }
  pose proof (selected_unique f) as Hnd. induction Hs as [|x l Hs IH Hx]; [constructor|]. rewrite fmap_cons, NoDup_cons in Hnd. destruct Hnd as [Hn Hnd].
  constructor; [by apply IH|]. rewrite Forall_forall in Hx |- *. intros y Hy. specialize (Hx y Hy). unfold id_le, key_lt in *.
  assert (er_id x ≠ er_id y); [|lia]. intros He. apply Hn. rewrite He. by apply list_elem_of_fmap_2.
Qed.

Lemma page_limit_range n : (1 ≤ page_limit n ≤ 100)%Z.
Proof. unfold page_limit. destruct ((n <=? 0) || (100 <? n))%Z eqn:E; lia. Qed.

(** The store's page is the page of keyset pagination. *)
Lemma list_rows_page f page_size cursor :
  list_rows f page_size cursor db = page er_id (Z.to_nat (page_limit page_size)) cursor (selected f db).
Proof.
  pose proof (page_limit_range page_size) as Hp. unfold list_rows, page.
  replace (match cursor with Some c => _ | None => _ end) with (after er_id cursor (selected f db)) by by destruct cursor.
  set (rows := after _ _ _). set (n := page_limit page_size) in *. rewrite length_take.
  case_decide as Hlt.
  - rewrite (proj2 (Z.ltb_lt _ _)) by lia. rewrite take_take. f_equal; [f_equal; lia|]. rewrite last_lookup, length_take. f_equal.
    rewrite !lookup_take_lt by lia. f_equal. lia.
  - rewrite (proj2 (Z.ltb_ge _ _)) by lia. f_equal. rewrite !take_ge by lia. done.
Qed.

Lemma experiment_pages_from f page_size state_filter type_filter owner : 
  f = mk_filter (filter_name state_names state_filter) (filter_name type_names type_filter) (if bool_decide (owner = []) then None else Some owner) →
  ∀ fuel cursor token ps, match cursor with Some u => token = print_uuid u | None => token = [] end →
  pages er_id (Z.to_nat (page_limit page_size)) fuel cursor (selected f db) = Some ps →
  all_pages print_json parse_uuid print_uuid fuel state_filter type_filter owner page_size token db =
    Some (map (map (message_of print_json print_uuid db)) ps).
Proof.
  intros Hf. induction fuel as [|fuel IH]; intros cursor token ps Ht Hps; [done|]. cbn [pages all_pages] in *.
  unfold rpc_list_experiments. rewrite <- Hf.
  assert ((if bool_decide (token = []) then mret None
           else match parse_uuid token with Some u => mret (Some u) | None => Err (InvalidArgument "invalid page_token") end) = Ok (E:=RpcError) cursor) as ->.
  { destruct cursor as [u|]; subst token; [|done]. rewrite bool_decide_eq_false_2 by done. by rewrite parse_print. }
  cbn [mbind result_bind]. rewrite list_rows_page. destruct (page er_id _ cursor (selected f db)) as [rows next] eqn:Hpage. cbn [mret result_ret].
  destruct next as [u|]; [|by injection Hps as <-]. apply bind_Some in Hps as (rest & Hrest & [= <-]).
  pose proof (IH (Some u) (print_uuid u) rest eq_refl Hrest) as Hnext.
  destruct (print_uuid u) as [|c0 t0] eqn:Hu; [by apply print_nonempty in Hu|]. by rewrite Hnext.
Qed.

(** Listing experiments is complete: a client that follows the page tokens from the
    empty one reaches an end, on pages no longer than the page size (50 when the request has
    none between 1 and 100), having received exactly the experiments that match the filters,
    once each and in the order of their ids. *)
Theorem list_experiments_complete state_filter type_filter owner page_size :
  let f := mk_filter (filter_name state_names state_filter) (filter_name type_names type_filter) (if bool_decide (owner = []) then None else Some owner) in
  ∃ ps rows, all_pages print_json parse_uuid print_uuid (S (length (selected f db))) state_filter type_filter owner page_size [] db = Some ps ∧
    concat ps = message_of print_json print_uuid db <$> rows ∧ Forall (λ p, Z.of_nat (length p) ≤ page_limit page_size)%Z ps ∧
    StronglySorted (key_lt er_id) rows ∧ ∀ row, row ∈ rows ↔ experiments db !! er_id row = Some row ∧ matches f row.
Proof.
  cbv zeta. set (f := mk_filter _ _ _). pose proof (page_limit_range page_size).
  destruct (pages_complete er_id (Z.to_nat (page_limit page_size)) ltac:(lia) (selected f db) (selected_sorted f)) as (ps & Hps & Hc & Hf).
  exists (map (map (message_of print_json print_uuid db)) ps), (selected f db). split_and!.
  - by apply (experiment_pages_from f page_size _ _ _ eq_refl _ None).
  - rewrite <- Hc. clear. induction ps as [|p ps IH]; [done|]. cbn [map concat]. by rewrite fmap_app, <- IH.
  - apply Forall_map. eapply Forall_impl; [exact Hf|]. intros p Hp. cbn in *. rewrite length_fmap. lia.
  - apply selected_sorted.
  - intros row. apply in_selected.
Qed.
End listing.

(** ** Layers *)

(** A message of the allocations' listing, its instants as the rows have them. *)
Record LayerAllocation := mk_layer_allocation
  { la_allocation_id : str; la_layer_id : str; la_experiment_id : str; la_start_bucket : Z; la_end_bucket : Z;
    la_activated_at : option Z; la_released_at : option Z; la_reusable_after : option Z }.

Section layers.
Context (parse_uuid : str → option StateMachine.Uuid) (print_uuid : StateMachine.Uuid → str).

Definition layer_allocation (a : Allocation) : LayerAllocation :=
  mk_layer_allocation (print_uuid (allocation_id a)) (print_uuid (BucketReuse.layer_id a)) (print_uuid (BucketReuse.experiment_id a))
    (start_bucket a) (end_bucket a) (activated_at a) (released_at a) (reusable_after a).

Definition rpc_get_layer_allocations (layer : str) (include_released : bool) (tbl : list Allocation) : result RpcError (list LayerAllocation) :=
  match parse_uuid layer with
  | Some layer => mret (layer_allocation <$> list_allocations layer include_released tbl)
  | None => Err (InvalidArgument "invalid layer_id UUID")
  end.
End layers.

(** ** Examples *)

Definition sample_row (id : Z) (state : string) : ExperimentRow :=
  mk_experiment_row id (lit "exp") None (lit "owner@x") (lit "AB") (lit state) 5%Z (lit "watch_time") [] (lit "ALERT_ONLY") (lit "salt")
    None false (build_type_config (mk_experiment [] [] [] [] 1%Z 0%Z [] [] [] [] 0%Z None [] None None [] None false [] None None None None None []))
    None None None None.

Definition sample_rows : Experiments.Db (Json:=unit) :=
  mk_db (list_to_map ((λ r, (er_id r, r)) <$> [sample_row 1 "RUNNING"; sample_row 2 "DRAFT"; sample_row 3 "RUNNING"; sample_row 4 "RUNNING"]))
    [] {[5%Z]} ∅ ∅.

Lemma sample_keyed id row : experiments sample_rows !! id = Some row → er_id row = id.
Proof.
  intros H. apply elem_of_list_to_map_2, list_elem_of_fmap in H as (r & [= -> ->] & _). done.
Qed.

Lemma list_experiments_complete_witness :
  ∃ ps, all_pages (λ _ : unit, []) parse_id print_id 4 3 1 [] 2 [] sample_rows = Some ps ∧
    length <$> ps = [2; 1] ∧ length (concat ps) = 3.
Proof.
  destruct (list_experiments_complete (λ _ : unit, []) parse_id print_id parse_print_id print_id_nonempty sample_rows sample_keyed 3 1 [] 2)
    as (ps & rows & Hps & Hc & _).
  exists ps. split; [exact Hps|]. vm_compute in Hps. injection Hps as <-. done.
Defined.
