(* ===== verification/MultipleComparison.v ===== *)
(** Multiple comparison corrections ([experimentation-stats/src/multiple_comparison.rs]) and
    the guardrail corrector ([guardrail.rs]): Benjamini-Hochberg with its step-up pass,
    Bonferroni on the p-values and on the threshold. *)
From Stdlib Require Import Ascii String SpecFloat.
From S2P Require Import Prelude Bytes F64 F64Mono F64Order.

Inductive StatError :=
| NoPValues | PValueOutOfRange (i : nat) (p : f64) | LevelOutOfRange
| RewardNotUserLevel | ProviderGuardrail | UnspecifiedGuardrail.

Abbreviation stat := (result StatError).

Definition assert_finite (x : f64) : stat unit := if f64_is_finite x then mret tt else Panics.

Fixpoint for_each {A} (f : A → stat unit) (l : list A) : stat unit :=
  match l with [] => mret tt | x :: l => _ ← f x; for_each f l end.

Definition f64_one : f64 := f64_of_Z 1.
Definition f64_of_nat (n : nat) : f64 := f64_of_Z (Z.of_nat n).

Inductive CorrectionMethod := BenjaminiHochberg | Bonferroni.

Record MultipleComparisonResult := mk_comparison
  { p_values_original : list f64; p_values_adjusted : list f64; rejected : list bool; method : CorrectionMethod }.

Definition check_p_value (ip : nat * f64) : stat unit :=
  let '(i, p) := ip in
  _ ← assert_finite p;
  reject_if (negb (f64_le f64_zero p && f64_le p f64_one)) (PValueOutOfRange i p).

Definition validate_p_values (p_values : list f64) : stat unit :=
  _ ← reject_if (bool_decide (p_values = [])) NoPValues;
  for_each check_p_value (imap pair p_values).

(** A level of the open unit interval. *)
Definition check_level (level : f64) : stat unit :=
  reject_if (f64_le level f64_zero || f64_ge level f64_one) LevelOutOfRange.

Definition p_at (p_values : list f64) (i : nat) : f64 := default S754_nan (p_values !! i).

Definition sorted_indices (p_values : list f64) : list nat :=
  sort_by (λ a b, f64_le (p_at p_values a) (p_at p_values b)) (seq 0 (length p_values)).

(** [p * n / rank], at most 1. *)
Definition scaled (p : f64) (n rank : nat) : f64 := f64_div (f64_mul p (f64_of_nat n)) (f64_of_nat rank).
Definition bh_adjusted (p_values : list f64) (rank_0 idx : nat) : f64 :=
  f64_min (scaled (p_at p_values idx) (length p_values) (S rank_0)) f64_one.

(** The pass from the second to last down: each value becomes the smaller of itself and the
    next. *)
Fixpoint step_up (l : list f64) : list f64 :=
  match l with
  | [] => []
  | x :: l => match step_up l with [] => [x] | y :: ys => f64_min x y :: y :: ys end
  end.

(** The value of each rank, written to its index. *)
Definition scatter (indices : list nat) (values : list f64) (n : nat) : list f64 :=
  fold_left (λ acc iv, <[iv.1 := iv.2]> acc) (zip indices values) (replicate n f64_zero).

Definition benjamini_hochberg (p_values : list f64) (fdr : f64) : stat MultipleComparisonResult :=
  _ ← validate_p_values p_values;
  _ ← check_level fdr;
  let indices := sorted_indices p_values in
  let adjusted := imap (bh_adjusted p_values) indices in
  _ ← for_each assert_finite adjusted;
  let adjusted := scatter indices (step_up adjusted) (length p_values) in
  mret (mk_comparison p_values adjusted ((λ p, f64_le p fdr) <$> adjusted) BenjaminiHochberg).

Definition bonferroni_adjusted (n : nat) (p : f64) : f64 := f64_min (f64_mul p (f64_of_nat n)) f64_one.

Definition bonferroni (p_values : list f64) (alpha : f64) : stat MultipleComparisonResult :=
  _ ← validate_p_values p_values;
  _ ← check_level alpha;
  let adjusted := bonferroni_adjusted (length p_values) <$> p_values in
  _ ← for_each assert_finite adjusted;
  mret (mk_comparison p_values adjusted ((λ p, f64_le p alpha) <$> adjusted) Bonferroni).

Record GuardrailBonferroniResult := mk_guardrail_result
  { p_values : list f64; alpha_per_guardrail : f64; fired : list bool; num_guardrails : nat }.

Definition guardrail_bonferroni (ps : list f64) (alpha : f64) : stat GuardrailBonferroniResult :=
  _ ← validate_p_values ps;
  _ ← check_level alpha;
  let k := length ps in
  let threshold := f64_div alpha (f64_of_nat k) in
  _ ← assert_finite threshold;
  mret (mk_guardrail_result ps threshold ((λ p, f64_le p threshold) <$> ps) k).

(** ** The guardrail corrector *)

Record GuardrailCorrector := mk_corrector { alpha : f64; k : nat }.

(** The assertions of [GuardrailCorrector::new]. *)
Definition new_corrector (alpha : f64) (k : nat) : stat GuardrailCorrector :=
  if f64_gt alpha f64_zero && f64_lt alpha f64_one && (0 <? k) then mret (mk_corrector alpha k) else Panics.

Definition corrected_alpha (c : GuardrailCorrector) : stat f64 :=
  let ca := f64_div (alpha c) (f64_of_nat (k c)) in
  _ ← assert_finite ca;
  mret ca.

Definition is_violated (c : GuardrailCorrector) (p_value : f64) : stat bool :=
  _ ← assert_finite p_value;
  ca ← corrected_alpha c;
  mret (f64_le p_value ca).

Inductive MetricAggregationLevel := LevelUnspecified | LevelUser | LevelExperiment | LevelProvider.

Definition validate_bandit_reward_aggregation (level : MetricAggregationLevel) : stat unit :=
  match level with LevelUser => mret tt | _ => Err RewardNotUserLevel end.

Definition validate_guardrail_aggregation (level : MetricAggregationLevel) : stat unit :=
  match level with
  | LevelUser | LevelExperiment => mret tt
  | LevelProvider => Err ProviderGuardrail
  | LevelUnspecified => Err UnspecifiedGuardrail
  end.

(** ** The step-up pass *)

(** A value after the pass is below a bound when some value from its rank on is. *)
Lemma step_up_le b l : Forall is_number l → Forall is_number (step_up l) ∧ length (step_up l) = length l ∧
  ∀ r v, step_up l !! r = Some v → f64_le v b = existsb (λ x, f64_le x b) (drop r l).
Proof.
  induction 1 as [|x l Hx Hl (IHn & IHl & IHb)]; [done|]. cbn [step_up]. destruct (step_up l) as [|y ys] eqn:E.
  - destruct l; [|done]. split_and!; [by constructor|done|]. intros [|r] v; cbn; [|done]. intros [= <-]. by rewrite orb_false_r.
  - apply Forall_cons in IHn as [Hy Hys]. split_and!; [by repeat constructor; try apply f64_min_number|cbn in *; lia|].
    intros [|r] v; cbn [lookup list_lookup]; [|by apply IHb]. intros [= <-]. rewrite f64_min_le by done. cbn [drop existsb]. f_equal.
    by rewrite (IHb 0 y eq_refl), drop_0.
Qed.

Lemma existsb_drop {A} (f : A → bool) r l : existsb f (drop r l) = true ↔ ∃ j x, r ≤ j ∧ l !! j = Some x ∧ f x = true.
Proof.
  rewrite existsb_exists. split.
  - intros (x & (i & Hi)%list_elem_of_In%list_elem_of_lookup & Hf). rewrite lookup_drop in Hi. exists (r + i), x. split_and!; [lia|done|done].
  - intros (j & x & Hj & Hl & Hf). exists x. split; [|done]. apply list_elem_of_In, list_elem_of_lookup. exists (j - r).
    rewrite lookup_drop. by replace (r + (j - r)) with j by lia.
Qed.

(** Every index receives the value of its rank. *)
Lemma scatter_fold indices : ∀ (values acc : list f64), NoDup indices → length values = length indices → (∀ i, i ∈ indices → i < length acc) →
  let out := fold_left (λ acc iv, <[iv.1 := iv.2]> acc) (zip indices values) acc in
  length out = length acc ∧ (∀ i, i ∉ indices → out !! i = acc !! i) ∧
  ∀ r i v, indices !! r = Some i → values !! r = Some v → out !! i = Some v.
Proof.
  induction indices as [|i0 indices IH]; intros [|v0 values] acc Hnd Hl Hr; try done. apply NoDup_cons in Hnd as [Hi0 Hnd].
  cbn [zip zip_with fold_left fst snd]. destruct (IH values (<[i0:=v0]> acc)) as (H1 & H2 & H3); [done|by injection Hl| |].
  { intros i Hi. rewrite length_insert. apply Hr. by right. }
  cbn zeta. rewrite length_insert in H1. split_and!; [done| |].
  - intros i [Hne Hni]%not_elem_of_cons. rewrite H2 by done. by rewrite list_lookup_insert_ne.
  - intros [|r] i v; cbn [lookup list_lookup]; [|by apply H3]. intros [= <-] [= <-]. rewrite H2 by done.
    apply list_lookup_insert_eq, Hr. by left.
Qed.

Lemma scatter_lookup indices values n r i v : indices ≡ₚ seq 0 n → length values = n → indices !! r = Some i → values !! r = Some v →
  length (scatter indices values n) = n ∧ scatter indices values n !! i = Some v.
Proof.
  intros Hp Hl Hr Hv. destruct (scatter_fold indices values (replicate n f64_zero)) as (H1 & _ & H3).
  - rewrite Hp. apply NoDup_ListNoDup, seq_NoDup.
  - by rewrite Hp, length_seq.
  - intros j. rewrite Hp, length_replicate. intros ?%elem_of_seq. lia.
  - unfold scatter. rewrite length_replicate in H1. split; [done|by eapply H3].
Qed.

(** ** Valid input *)

Definition unit_p (p : f64) : Prop := f64_le f64_zero p = true ∧ f64_le p f64_one = true.

Lemma unit_p_number p : unit_p p → is_number p.
Proof. intros [H _]. by apply f64_le_number in H as [_ ?]. Qed.

Lemma unit_p_finite p : unit_p p → f64_is_finite p = true.
Proof. intros [H0 H1]. by apply (between_finite f64_zero p f64_one). Qed.

Lemma unit_p_magnitude p : unit_p p → magnitude p.
Proof. intros [H0 H1]. by destruct p as [|[]| |[]]. Qed.

Lemma for_each_ok {A} (f : A → stat unit) l : Forall (λ x, f x = Ok tt) l → for_each f l = Ok tt.
Proof. induction 1 as [|x l Hx Hl IH]; [done|]. cbn. by rewrite Hx. Qed.

Lemma validate_valid ps : ps ≠ [] → Forall unit_p ps → validate_p_values ps = Ok tt.
Proof.
  intros Hne Hps. unfold validate_p_values. rewrite bool_decide_eq_false_2 by done. cbn [reject_if mbind result_bind].
  apply for_each_ok, Forall_lookup. intros i [j p] Hi. apply list_lookup_imap_Some in Hi as (p' & Hp & [= -> ->]).
  rewrite Forall_lookup in Hps. pose proof (Hps _ _ Hp) as Hu. unfold check_p_value, assert_finite. rewrite unit_p_finite by done.
  destruct Hu as [H0 H1]. by rewrite H0, H1.
Qed.

Definition proper_level (level : f64) : Prop := f64_lt f64_zero level = true ∧ f64_lt level f64_one = true.

Lemma check_proper level : proper_level level → check_level level = Ok tt.
Proof.
  intros [H0 H1]. destruct (f64_lt_number _ _ H0) as [? ?], (f64_lt_number _ _ H1) as [_ ?].
  unfold check_level, f64_ge. rewrite f64_lt_nle in H0, H1 by done. apply negb_true_iff in H0, H1. change (SFleb f64_one level) with (f64_le f64_one level).
  by rewrite H0, H1.
Qed.

Lemma of_nat_positive n : 0 < n → (Z.of_nat n < 2 ^ 64)%Z → positive_finite (f64_of_nat n).
Proof. intros. apply of_Z_positive. lia. Qed.

Lemma one_above level x : proper_level level → is_number x → f64_le (f64_min x f64_one) level = f64_le x level.
Proof.
  intros [_ H1] Hx. rewrite f64_min_le by done. destruct (f64_lt_number _ _ H1) as [Hl _].
  rewrite f64_lt_nle in H1 by done. apply negb_true_iff in H1. by rewrite H1, orb_false_r.
Qed.

(** ** Benjamini-Hochberg *)

Section bh.
Context (ps : list f64) (fdr : f64) (Hne : ps ≠ []) (Hps : Forall unit_p ps) (Hlen : (Z.of_nat (length ps) < 2 ^ 64)%Z).

Lemma p_at_unit i : i < length ps → unit_p (p_at ps i).
Proof.
  intros Hi. unfold p_at. destruct (lookup_lt_is_Some_2 ps i Hi) as [p Hp]. rewrite Hp. by apply (Forall_lookup_1 _ _ _ _ Hps Hp).
Qed.

Lemma length_positive : 0 < length ps.
Proof. destruct ps; [done|cbn; lia]. Qed.

Lemma sorted_indices_perm : sorted_indices ps ≡ₚ seq 0 (length ps).
Proof. apply sort_by_perm. Qed.

Lemma sorted_indices_lt r i : sorted_indices ps !! r = Some i → i < length ps.
Proof. intros Hr%list_elem_of_lookup_2. rewrite sorted_indices_perm in Hr. apply elem_of_seq in Hr. lia. Qed.

Lemma sorted_indices_sorted : StronglySorted (λ a b, f64_le (p_at ps a) (p_at ps b) = true) (sorted_indices ps).
Proof.
  apply (sort_by_sorted _ (λ i, i < length ps)).
  - intros a b Ha Hb. apply f64_le_total; apply unit_p_number; by apply p_at_unit.
  - intros a b c. apply f64_le_trans.
  - apply Forall_forall. intros i ?%elem_of_seq. lia.
Qed.

Lemma scaled_magnitude p rank : unit_p p → 0 < rank → rank ≤ length ps → magnitude (scaled p (length ps) rank).
Proof.
  intros Hp H1 H2. pose proof length_positive. apply div_magnitude; [|by apply of_nat_positive; lia].
  apply mul_magnitude; [by apply unit_p_magnitude|by apply unit_p_finite|by apply of_nat_positive].
Qed.

Lemma adjusted_lookup r i : sorted_indices ps !! r = Some i → r < length ps ∧ magnitude (scaled (p_at ps i) (length ps) (S r)).
Proof.
  intros Hr. pose proof (lookup_lt_Some _ _ _ Hr) as Hl. rewrite sorted_indices_perm, length_seq in Hl. split; [done|].
  apply scaled_magnitude; [by eapply p_at_unit, sorted_indices_lt|lia|lia].
Qed.

Definition adjusted : list f64 := imap (bh_adjusted ps) (sorted_indices ps).

Lemma adjusted_some r v : adjusted !! r = Some v → ∃ i, sorted_indices ps !! r = Some i ∧ v = bh_adjusted ps r i.
Proof. intros (i & Hi & ->)%list_lookup_imap_Some. by exists i. Qed.

Lemma one_number : is_number f64_one.
Proof. done. Qed.

Lemma adjusted_numbers : Forall is_number adjusted.
Proof.
  apply Forall_lookup. intros r v (i & Hi & ->)%adjusted_some. apply f64_min_number; [|done].
  by apply magnitude_number, (adjusted_lookup r i).
Qed.

Lemma adjusted_finite : for_each assert_finite adjusted = Ok tt.
Proof.
  apply for_each_ok, Forall_lookup. intros r v (i & Hi & ->)%adjusted_some. unfold assert_finite, bh_adjusted.
  destruct (adjusted_lookup r i Hi) as [_ Hm]. by rewrite (min_finite _ f64_one Hm).
Qed.

(** The first ranks down to the largest whose scaled p-value is within the level. *)
Definition within_level (level : f64) (indices : list nat) (r : nat) : Prop :=
  ∃ j i, r ≤ j ∧ indices !! j = Some i ∧ f64_le (scaled (p_at ps i) (length ps) (S j)) level = true.

Lemma bh_decision : proper_level fdr → ∀ r i, sorted_indices ps !! r = Some i →
  ∃ q, scatter (sorted_indices ps) (step_up adjusted) (length ps) !! i = Some q ∧
    (f64_le q fdr = true ↔ within_level fdr (sorted_indices ps) r).
Proof.
  intros Hfdr r i Hr. destruct (step_up_le fdr adjusted adjusted_numbers) as (_ & Hl & Hb).
  assert (length adjusted = length ps) as Hla by (unfold adjusted; by rewrite length_imap, sorted_indices_perm, length_seq).
  destruct (adjusted_lookup r i Hr) as [Hrl _].
  destruct (lookup_lt_is_Some_2 (step_up adjusted) r) as [q Hq]; [lia|]. exists q.
  split; [eapply scatter_lookup; [apply sorted_indices_perm|lia|done|done]|].
  rewrite (Hb r q Hq), existsb_drop. split.
  - intros (j & v & Hj & (i' & Hi' & ->)%adjusted_some & Hv). exists j, i'. split_and!; [done..|].
    unfold bh_adjusted in Hv. rewrite one_above in Hv; [done|done|]. by apply magnitude_number, (adjusted_lookup j i').
  - intros (j & i' & Hj & Hi' & Hv). exists j, (bh_adjusted ps j i'). split_and!; [done|unfold adjusted; by rewrite list_lookup_imap, Hi'|].
    unfold bh_adjusted. rewrite one_above; [done|done|]. by apply magnitude_number, (adjusted_lookup j i').
Qed.
End bh.

(** [C19] Benjamini-Hochberg is the step-up procedure: on p-values of the unit interval and a
    proper level the function answers, without tripping a finiteness check; its ranks are the
    indices in ascending order of p-value; a hypothesis is rejected exactly when, at its rank
    or a later one, the rank's p-value times the number of tests divided by the rank is within
    the level; and so a smaller p-value than a rejected one is rejected too. *)
Theorem benjamini_hochberg_step_up ps fdr : ps ≠ [] → Forall unit_p ps → (Z.of_nat (length ps) < 2 ^ 64)%Z → proper_level fdr →
  ∃ out ranks, benjamini_hochberg ps fdr = Ok out ∧ length (rejected out) = length ps ∧
    ranks ≡ₚ seq 0 (length ps) ∧ StronglySorted (λ a b, f64_le (p_at ps a) (p_at ps b) = true) ranks ∧
    (∀ r i, ranks !! r = Some i → rejected out !! i = Some true ↔ within_level ps fdr ranks r) ∧
    (∀ a b, a < length ps → f64_lt (p_at ps a) (p_at ps b) = true → rejected out !! b = Some true → rejected out !! a = Some true).
Proof.
  intros Hne Hps Hlen Hfdr. unfold benjamini_hochberg. rewrite validate_valid, check_proper by done. cbn [mbind result_bind].
  change (imap (bh_adjusted ps) (sorted_indices ps)) with (adjusted ps). rewrite adjusted_finite by done. cbn [mbind result_bind].
  eexists _, (sorted_indices ps). split; [reflexivity|]. cbn [rejected].
  assert (∀ r i, sorted_indices ps !! r = Some i →
    ((λ p, f64_le p fdr) <$> scatter (sorted_indices ps) (step_up (adjusted ps)) (length ps)) !! i = Some true ↔ within_level ps fdr (sorted_indices ps) r) as Hdec.
  { intros r i Hr. destruct (bh_decision ps fdr Hne Hps Hlen Hfdr r i Hr) as (q & Hq & Hiff). rewrite list_lookup_fmap, Hq. cbn.
    rewrite <- Hiff. split; [by intros [= ->]|by intros ->]. }
  split_and!; [|by apply sorted_indices_perm|by apply sorted_indices_sorted|done|].
  - rewrite length_fmap. unfold scatter. destruct (scatter_fold (sorted_indices ps) (step_up (adjusted ps)) (replicate (length ps) f64_zero)) as (Hl & _).
    + rewrite sorted_indices_perm. apply NoDup_ListNoDup, seq_NoDup.
    + destruct (step_up_le fdr (adjusted ps)) as (_ & -> & _); [by apply adjusted_numbers|]. unfold adjusted. by rewrite length_imap.
    + intros j. rewrite sorted_indices_perm, length_replicate. intros ?%elem_of_seq. lia.
    + by rewrite Hl, length_replicate.
  - intros a b Ha Hlt Hb.
    assert (∀ i, i < length ps → ∃ r, sorted_indices ps !! r = Some i) as Hrank.
    { intros i Hi. apply list_elem_of_lookup. rewrite sorted_indices_perm. apply elem_of_seq. lia. }
    assert (b < length ps) as Hbl.
    { destruct (decide (b < length ps)); [done|]. unfold p_at in Hlt. rewrite (lookup_ge_None_2 ps b) in Hlt by lia.
      by destruct (f64_lt_number _ _ Hlt) as [_ []]. }
    destruct (Hrank a Ha) as [ra Hra], (Hrank b Hbl) as [rb Hrb]. apply (Hdec rb b Hrb) in Hb as (j & i & Hj & Hi & Hv).
    apply (Hdec ra a Hra). exists j, i. split_and!; [|done|done]. destruct (decide (ra ≤ rb)); [lia|]. exfalso.
    assert (f64_le (p_at ps b) (p_at ps a) = true) as Hle.
    { apply (sorted_lookup_lt (λ a b, f64_le (p_at ps a) (p_at ps b) = true) (sorted_indices ps) rb ra); [by apply sorted_indices_sorted|done|done|lia]. }
    destruct (f64_lt_number _ _ Hlt). rewrite f64_lt_nle, Hle in Hlt by done. done.
Qed.

(** Three tests at level 0.05: the second rank carries the first two. *)
Definition sample_ps : list f64 := [f64_ratio 30 1000; f64_ratio 900 1000; f64_ratio 20 1000].
Definition five_percent : f64 := f64_ratio 5 100.

Lemma sample_ps_unit : Forall unit_p sample_ps.
Proof. repeat constructor. Qed.

Lemma benjamini_hochberg_step_up_witness : ∃ out,
  benjamini_hochberg sample_ps five_percent = Ok out ∧ rejected out = [true; false; true] ∧ length (rejected out) = 3.
Proof.
  destruct (benjamini_hochberg_step_up sample_ps five_percent) as (out & ranks & Hout & Hlen & _); [done|apply sample_ps_unit|done|done|].
  exists out. split; [exact Hout|]. split; [|exact Hlen].
  assert (match benjamini_hochberg sample_ps five_percent with Ok o => rejected o | _ => [] end = [true; false; true]) as Hv by (vm_compute; reflexivity).
  rewrite Hout in Hv. exact Hv.
Defined.

(** ** The guardrail corrector *)

(** [guardrail_bonferroni] decides each guardrail as a [GuardrailCorrector] for their number
    does. *)
Lemma guardrail_agrees ps level : ps ≠ [] → Forall unit_p ps → proper_level level →
  ∃ c, new_corrector level (length ps) = Ok c ∧
    match guardrail_bonferroni ps level with
    | Ok out => num_guardrails out = length ps ∧ ∀ i p, ps !! i = Some p → ∃ b, fired out !! i = Some b ∧ is_violated c p = Ok b
    | Panics => ∀ p, f64_is_finite p = true → is_violated c p = Panics
    | _ => False
    end.
Proof.
  intros Hne Hps Hlv. exists (mk_corrector level (length ps)). split.
  { unfold new_corrector. change (f64_gt level f64_zero) with (f64_lt f64_zero level). destruct Hlv as [H0 H1]. rewrite H0, H1. destruct ps; [done|reflexivity]. }
  unfold guardrail_bonferroni. rewrite validate_valid, check_proper by done. cbn [mbind result_bind].
  destruct (f64_is_finite (f64_div level (f64_of_nat (length ps)))) eqn:E; unfold assert_finite at 1; rewrite E; cbn [mbind result_bind mret result_ret].
  - split; [done|]. intros i p Hp. eexists. cbn [fired]. rewrite list_lookup_fmap, Hp. split; [reflexivity|].
    unfold is_violated, corrected_alpha, assert_finite. cbn [alpha k]. rewrite (unit_p_finite p) by by apply (Forall_lookup_1 _ _ i p Hps).
    cbn [mbind result_bind mret result_ret]. by rewrite E.
  - intros p Hp. unfold is_violated, corrected_alpha, assert_finite. cbn [alpha k]. rewrite Hp. cbn [mbind result_bind mret result_ret]. by rewrite E.
Qed.

(** Bonferroni on the p-values rejects exactly those whose product with the number of tests
    is within the level. *)
Lemma bonferroni_correct ps level : ps ≠ [] → Forall unit_p ps → (Z.of_nat (length ps) < 2 ^ 64)%Z → proper_level level →
  ∃ out, bonferroni ps level = Ok out ∧ rejected out = (λ p, f64_le (f64_mul p (f64_of_nat (length ps))) level) <$> ps.
Proof.
  intros Hne Hps Hlen Hlv. unfold bonferroni. rewrite validate_valid, check_proper by done. cbn [mbind result_bind].
  assert (0 < length ps) as Hpos by (destruct ps; [done|cbn; lia]).
  assert (∀ p, p ∈ ps → magnitude (f64_mul p (f64_of_nat (length ps)))) as Hm.
  { intros p Hp. rewrite Forall_forall in Hps. apply mul_magnitude; [by apply unit_p_magnitude, Hps|by apply unit_p_finite, Hps|by apply of_nat_positive]. }
  rewrite for_each_ok.
  2:{ apply Forall_fmap, Forall_forall. intros p Hp. cbn. unfold assert_finite, bonferroni_adjusted. by rewrite (min_finite _ f64_one (Hm p Hp)). }
  cbn [mbind result_bind mret result_ret]. eexists. split; [reflexivity|]. cbn [rejected]. rewrite <- list_fmap_compose.
  apply list_fmap_ext. intros i p Hp%list_elem_of_lookup_2. cbn. unfold bonferroni_adjusted. rewrite one_above; [done|done|]. by apply magnitude_number, Hm.
Qed.

(** A level that is not a number passes the check, and nothing is rejected. *)
Lemma nan_level_accepted : (rejected <$> match benjamini_hochberg [f64_zero] S754_nan with Ok o => Some o | _ => None end) = Some [false].
Proof. vm_compute. reflexivity. Qed.
