(* ===== verification/Portfolio.v ===== *)
(** The portfolio optimizer ([experimentation-management/src/portfolio.rs]): conflicts
    between experiments of a layer, priority-weighted shares and recommended traffic, the
    recommended significance level, and the decision rules. *)
From Stdlib Require Import Ascii String SpecFloat.
From S2P Require Import Prelude Bytes F64 F64Mono F64Order MultipleComparison.

Definition DEFAULT_PRIORITY : Z := 3.
Definition MIN_PRIORITY : Z := 1.
Definition MAX_PRIORITY : Z := 5.
Definition MAX_SINGLE_EXPERIMENT_SHARE : f64 := f64_ratio 1 2.
Definition UNDERPOWERED_THRESHOLD : f64 := f64_ratio 3 4.
Definition PER_EXPERIMENT_FDR : f64 := f64_ratio 5 100.

Record ExperimentInfo := mk_info
  { experiment_id : str; experiment_name : str; layer_id : str; primary_metric_id : str; guardrail_metric_ids : list str;
    targeting_rule_id : str; start_bucket : Z; end_bucket : Z; layer_total_buckets : Z }.

Definition traffic_fraction (e : ExperimentInfo) : f64 :=
  if (layer_total_buckets e <=? 0)%Z then f64_zero
  else
    let used := f64_div (f64_of_Z (i32_wrap (i32_wrap (end_bucket e - start_bucket e) + 1))) (f64_of_Z (layer_total_buckets e)) in
    f64_clamp used f64_zero f64_one.

Inductive ConflictType := PrimaryMetricOverlap | GuardrailMetricOverlap | PopulationOverlap.

(** The texts, with what is written into them. *)
Inductive ConflictRationale := SamePrimary (metric : str) | SharedGuardrail (metric : str) | FullPopulation.

Record Conflict := mk_conflict
  { experiment_id_a : str; experiment_id_b : str; conflict_type : ConflictType; conflict_rationale : ConflictRationale }.

Inductive Rationale :=
| UnderTrafficked (priority : Z) (current recommended : f64)
| OverTrafficked (priority : Z) (current recommended : f64)
| Consistent (priority : Z) (current recommended : f64).

Record Allocation := mk_allocation
  { al_id : str; al_name : str; al_priority : Z; current_traffic_fraction : f64; recommended_traffic_fraction : f64;
    underpowered : bool; rationale : Rationale; variance_budget_share : f64 }.

Record PortfolioStats := mk_stats
  { running_count : Z; traffic_utilization : f64; expected_false_discoveries : f64; underpowered_count : Z;
    conflict_count : Z }.

Record PortfolioResult := mk_result { allocations : list Allocation; conflicts : list Conflict; stats : PortfolioStats }.

(** ** Concluded and running experiments *)

Inductive ExperimentLearning := Unspecified | Winner | Null | Loser | Inconclusive | Directional.

Record ExperimentOutcome := mk_outcome { effect_estimate : f64; p_value : f64; achieved_power : f64; alpha : f64 }.

Definition classify_learning (o : ExperimentOutcome) : stat ExperimentLearning :=
  _ ← for_each assert_finite [effect_estimate o; p_value o; achieved_power o; alpha o];
  mret (if f64_lt (p_value o) (alpha o) then
          if f64_gt (effect_estimate o) f64_zero then Winner else Loser
        else if f64_ge (achieved_power o) (f64_ratio 8 10) then Null
        else if f64_lt (p_value o) (f64_mul (f64_of_Z 2) (alpha o)) then Directional
        else Inconclusive).

Record ImpactInput := mk_impact_input
  { im_experiment_id : str; primary_metric_effect : f64; effect_ci_lower : f64; effect_ci_upper : f64;
    daily_users : Z; im_based_on_surrogate : bool }.

Record AnnualizedImpact := mk_impact
  { an_experiment_id : str; primary_metric_annual_effect : f64; annual_effect_ci_lower : f64;
    annual_effect_ci_upper : f64; annual_users_impacted : Z; an_based_on_surrogate : bool }.

Definition i64_wrap (x : Z) : Z := ((x + 2 ^ 63) mod 2 ^ 64 - 2 ^ 63)%Z.

Definition compute_annualized_impact (i : ImpactInput) : stat AnnualizedImpact :=
  _ ← for_each assert_finite [primary_metric_effect i; effect_ci_lower i; effect_ci_upper i];
  mret (mk_impact (im_experiment_id i) (primary_metric_effect i) (effect_ci_lower i) (effect_ci_upper i)
          (i64_wrap (daily_users i * 365)) (im_based_on_surrogate i)).

Inductive Decision := Continue | Ship | Stop | Extend | SafeToMigrate | NotEquivalent.

Record DecisionInput := mk_decision_input
  { di_p_value : f64; di_alpha : f64; di_effect_estimate : f64; elapsed_fraction : f64; di_achieved_power : f64;
    guardrail_breached : bool }.

(** The end of both rules: stop at the end, extend past half of it with little power. *)
Definition by_elapsed (elapsed power : f64) : Decision :=
  if f64_ge elapsed f64_one then Stop
  else if f64_ge elapsed (f64_ratio 1 2) && f64_lt power (f64_ratio 1 2) then Extend
  else Continue.

Definition evaluate_decision (i : DecisionInput) : stat Decision :=
  _ ← for_each assert_finite [di_p_value i; di_alpha i; di_effect_estimate i; elapsed_fraction i; di_achieved_power i];
  mret (if guardrail_breached i then Stop
        else if f64_lt (di_p_value i) (di_alpha i) then
          if f64_gt (di_effect_estimate i) f64_zero then Ship else Stop
        else by_elapsed (elapsed_fraction i) (di_achieved_power i)).

Record EquivalenceDecisionInput := mk_equivalence_input
  { equivalent : bool; ci_lower : f64; ci_upper : f64; delta : f64; eq_achieved_power : f64; eq_elapsed_fraction : f64;
    eq_guardrail_breached : bool }.

Definition evaluate_equivalence_decision (i : EquivalenceDecisionInput) : stat Decision :=
  _ ← for_each assert_finite [ci_lower i; ci_upper i; delta i; eq_achieved_power i; eq_elapsed_fraction i];
  mret (if eq_guardrail_breached i then Stop
        else if equivalent i then SafeToMigrate
        else if f64_gt (ci_lower i) (delta i) || f64_lt (ci_upper i) (SFopp (delta i)) then NotEquivalent
        else by_elapsed (eq_elapsed_fraction i) (eq_achieved_power i)).

(** ** Priorities *)

Definition clamp_priority (p : Z) : Z := (Z.min (Z.max p MIN_PRIORITY) MAX_PRIORITY)%Z.

Definition priority_of (overrides : gmap str Z) (id : str) : Z :=
  match overrides !! id with Some p => clamp_priority p | None => DEFAULT_PRIORITY end.

(** A [HashMap] collected from a list: a later entry replaces an earlier one. *)
Definition collect {A} (kvs : list (str * A)) : gmap str A := fold_left (λ m kv, <[kv.1 := kv.2]> m) kvs ∅.

Definition priority_map (experiments : list ExperimentInfo) (overrides : gmap str Z) : gmap str Z :=
  collect ((λ e, (experiment_id e, priority_of overrides (experiment_id e))) <$> experiments).

(** [values().sum::<i32>()]: the wrapped sum does not depend on the order. *)
Definition total_priority (priorities : gmap str Z) : Z := map_fold (λ _ p acc, i32_wrap (acc + p)) 0%Z priorities.

Definition recommend_alpha (id : str) (experiments : list ExperimentInfo) (overrides : gmap str Z) (family_alpha : f64) :
    stat f64 :=
  _ ← assert_finite family_alpha;
  if bool_decide (experiments = []) then mret family_alpha
  else
    let priorities := priority_map experiments overrides in
    let total := total_priority priorities in
    let uniform := f64_div family_alpha (f64_of_nat (length experiments)) in
    if (total =? 0)%Z then mret uniform
    else
      let share := f64_div (f64_of_Z (default DEFAULT_PRIORITY (priorities !! id))) (f64_of_Z total) in
      mret (f64_max (f64_mul family_alpha share) uniform).

(** ** Conflicts *)

Definition shared_metrics (a b : list str) : list str := filter (λ m, m ∈ a) b.

Definition pair_conflicts (a b : ExperimentInfo) : list Conflict :=
  let conflict t r := mk_conflict (experiment_id a) (experiment_id b) t r in
  if bool_decide (layer_id a = layer_id b) then
    (if bool_decide (primary_metric_id a ≠ [] ∧ primary_metric_id a = primary_metric_id b)
     then [conflict PrimaryMetricOverlap (SamePrimary (primary_metric_id a))] else []) ++
    ((λ m, conflict GuardrailMetricOverlap (SharedGuardrail m)) <$>
       shared_metrics (guardrail_metric_ids a) (guardrail_metric_ids b)) ++
    (if bool_decide (targeting_rule_id a = [] ∧ targeting_rule_id b = [])
     then [conflict PopulationOverlap FullPopulation] else [])
  else [].

Fixpoint detect_conflicts (experiments : list ExperimentInfo) : list Conflict :=
  match experiments with
  | [] => []
  | a :: rest => (rest ≫= pair_conflicts a) ++ detect_conflicts rest
  end.

(** ** Recommended traffic *)

Definition group_by_layer (experiments : list ExperimentInfo) : gmap str (list ExperimentInfo) :=
  fold_left (λ m e, <[layer_id e := default [] (m !! layer_id e) ++ [e]]> m) experiments ∅.

Definition sum_f64 (l : list f64) : f64 := fold_left f64_add l f64_zero.

Definition share_of (shares : gmap str f64) (e : ExperimentInfo) : f64 := default f64_zero (shares !! experiment_id e).

Definition capped_share (total_weight : f64) (shares : gmap str f64) (e : ExperimentInfo) : f64 :=
  f64_min (if f64_gt total_weight f64_zero then f64_div (share_of shares e) total_weight else f64_zero)
    MAX_SINGLE_EXPERIMENT_SHARE.

Definition is_underpowered (share : f64) (e : ExperimentInfo) : bool :=
  f64_gt share f64_zero && f64_lt (traffic_fraction e) (f64_mul share UNDERPOWERED_THRESHOLD).

Definition recommend_layer (experiments : list ExperimentInfo) (shares : gmap str f64) : gmap str f64 * gmap str bool :=
  let total_weight := sum_f64 (share_of shares <$> experiments) in
  (collect ((λ e, (experiment_id e, capped_share total_weight shares e)) <$> experiments),
   collect ((λ e, (experiment_id e, is_underpowered (capped_share total_weight shares e) e)) <$> experiments)).

Definition budget_share (priorities : gmap str Z) (n : nat) (id : str) : f64 :=
  let total := total_priority priorities in
  if (0 <? total)%Z then f64_div (f64_of_Z (default 0%Z (priorities !! id))) (f64_of_Z total)
  else f64_div f64_one (f64_of_nat n).

Definition build_rationale (current recommended : f64) (underpowered : bool) (priority : Z) : Rationale :=
  let percent x := f64_mul x (f64_of_Z 100) in
  if underpowered && f64_gt recommended current then UnderTrafficked priority (percent current) (percent recommended)
  else if f64_lt recommended current then OverTrafficked priority (percent current) (percent recommended)
  else Consistent priority (percent current) (percent recommended).

(** Priority descending, then the identifier. *)
Definition allocation_before (a b : Allocation) : bool :=
  match (al_priority b ?= al_priority a)%Z with
  | Lt => true | Gt => false | Eq => bool_decide (str_le (al_id a) (al_id b))
  end.

Definition extend {A} (m extra : gmap str A) : gmap str A := extra ∪ m.

Section optimize.
(** The iteration order of a [HashMap] that is not changed in between. *)
Context (iteration : gmap str (list ExperimentInfo) → list (str * list ExperimentInfo)).

Definition layer_utilization (experiments : list ExperimentInfo) : f64 :=
  let util := sum_f64 (traffic_fraction <$> experiments) in
  if f64_gt util f64_one then f64_one else util.

Definition compute_traffic_utilization (by_layer : gmap str (list ExperimentInfo)) : f64 :=
  if bool_decide (by_layer = ∅) then f64_zero
  else
    let layers := (iteration by_layer).*2 in
    f64_min (f64_div (sum_f64 (layer_utilization <$> layers)) (f64_of_nat (length layers))) f64_one.

Definition allocation_of (priorities : gmap str Z) (shares recommendations : gmap str f64) (flags : gmap str bool)
    (e : ExperimentInfo) : stat Allocation :=
  let id := experiment_id e in
  let current := traffic_fraction e in
  let recommended := default f64_zero (recommendations !! id) in
  let flag := default false (flags !! id) in
  match priorities !! id with
  | Some priority =>
      mret (mk_allocation id (experiment_name e) priority current recommended flag
        (build_rationale current recommended flag priority) (default f64_zero (shares !! id)))
  | None => Panics
  end.

Definition optimize (experiments : list ExperimentInfo) (overrides : gmap str Z) : stat PortfolioResult :=
  if bool_decide (experiments = []) then mret (mk_result [] [] (mk_stats 0 f64_zero f64_zero 0 0))
  else
    let priorities := priority_map experiments overrides in
    let found := detect_conflicts experiments in
    let shares := collect ((λ e, (experiment_id e, budget_share priorities (length experiments) (experiment_id e))) <$> experiments) in
    let by_layer := group_by_layer experiments in
    let maps := fold_left (λ acc layer, let '(r, u) := recommend_layer layer.2 shares in
                                        (extend acc.1 r, extend acc.2 u)) (iteration by_layer) (∅, ∅) in
    assembled ← mapM (allocation_of priorities shares maps.1 maps.2) experiments;
    mret (mk_result (sort_by allocation_before assembled) found
      (mk_stats (len_i32 experiments) (compute_traffic_utilization by_layer)
        (f64_mul (f64_of_nat (length experiments)) PER_EXPERIMENT_FDR)
        (len_i32 (filter (λ a, underpowered a = true) assembled)) (len_i32 found))).
End optimize.
