(* ===== verification/PortfolioSpec.v ===== *)
(** What the portfolio optimizer computes: every experiment's priority-weighted share and
    recommendation, independently of the iteration order of its maps; the bounds of the
    results; the conflicts it finds. *)
From Stdlib Require Import Ascii String SpecFloat.
From S2P Require Import Prelude Bytes F64 F64Mono F64Sum F64Order F64Round MultipleComparison Portfolio.

(** ** Maps collected from lists *)

Section collect.
Context {A : Type}.
Implicit Types (kvs : list (str * A)) (m : gmap str A).

Lemma collect_from kvs : ∀ m k, fold_left (λ m kv, <[kv.1 := kv.2]> m) kvs m !! k =
  match (collect kvs : gmap str A) !! k with Some v => Some v | None => m !! k end.
Proof.
  unfold collect. induction kvs as [|[k0 v0] kvs IH]; intros m k; cbn [fold_left]; [by rewrite lookup_empty|].
  rewrite IH, (IH (<[_:=_]> ∅)). destruct (fold_left _ kvs ∅ !! k); [done|]. cbn [fst snd].
  destruct (decide (k0 = k)) as [->|]; [by rewrite !lookup_insert_eq|]. by rewrite !lookup_insert_ne, lookup_empty.
Qed.

Lemma collect_cons k0 (v0 : A) kvs k : collect ((k0, v0) :: kvs) !! k =
  match (collect kvs : gmap str A) !! k with Some v => Some v | None => if decide (k0 = k) then Some v0 else None end.
Proof.
  unfold collect at 1. cbn [fold_left]. rewrite collect_from. destruct (_ !! k); [done|]. cbn [fst snd].
  destruct (decide (k0 = k)) as [->|]; [by rewrite lookup_insert_eq|]. by rewrite lookup_insert_ne, lookup_empty.
Qed.

Lemma collect_none kvs k : k ∉ kvs.*1 → (collect kvs : gmap str A) !! k = None.
Proof.
  induction kvs as [|[k0 v0] kvs IH]; [done|]. rewrite fmap_cons. cbn [fst]. intros [Hne Hk]%not_elem_of_cons.
  rewrite collect_cons, IH by done. by rewrite decide_False by done.
Qed.

Lemma collect_some kvs k v : NoDup kvs.*1 → (k, v) ∈ kvs → (collect kvs : gmap str A) !! k = Some v.
Proof.
  induction kvs as [|[k0 v0] kvs IH]; [by intros _ ?%not_elem_of_nil|]. rewrite fmap_cons, NoDup_cons. cbn [fst].
  intros [Hk0 Hnd] [[= -> ->]|Hin]%elem_of_cons; rewrite collect_cons.
  - by rewrite collect_none, decide_True.
  - by rewrite IH.
Qed.

(** A map keyed by the elements themselves. *)
Lemma collect_keyed {B} (key : B → str) (f : B → A) l x : NoDup (key <$> l) → x ∈ l →
  (collect ((λ y, (key y, f y)) <$> l) : gmap str A) !! key x = Some (f x).
Proof.
  intros Hnd Hx. apply collect_some; [by rewrite <- list_fmap_compose|]. apply list_elem_of_fmap. by exists x.
Qed.

Lemma collect_to_list kvs : NoDup kvs.*1 → map_to_list (collect kvs : gmap str A) ≡ₚ kvs.
Proof.
  induction kvs as [|[k v] kvs IH]; [done|]. rewrite fmap_cons, NoDup_cons. cbn [fst]. intros [Hk Hnd].
  assert (collect ((k, v) :: kvs) = <[k := v]> (collect kvs : gmap str A)) as ->.
  { apply map_eq. intros i. rewrite collect_cons. destruct (decide (k = i)) as [<-|Hne].
    - by rewrite collect_none, lookup_insert_eq.
    - rewrite lookup_insert_ne by done. by destruct (collect kvs !! i). }
  rewrite map_to_list_insert by by apply collect_none. by rewrite IH.
Qed.
End collect.

(** ** Priorities *)

Lemma priority_range ov id : (1 ≤ priority_of ov id ≤ 5)%Z.
Proof. unfold priority_of, clamp_priority, MIN_PRIORITY, MAX_PRIORITY, DEFAULT_PRIORITY. destruct (ov !! id); lia. Qed.

(** The sum of the priorities, in their own order. *)
Definition priority_sum (ov : gmap str Z) (es : list ExperimentInfo) : Z :=
  foldr (λ e acc, acc + priority_of ov (experiment_id e))%Z 0%Z es.

Lemma priority_sum_range ov es : (Z.of_nat (length es) ≤ priority_sum ov es ≤ 5 * Z.of_nat (length es))%Z.
Proof. induction es as [|e es IH]; [done|]. cbn [priority_sum foldr length]. fold (priority_sum ov es). pose proof (priority_range ov (experiment_id e)). lia. Qed.

Lemma priority_in_sum ov es e : e ∈ es → (priority_of ov (experiment_id e) ≤ priority_sum ov es)%Z.
Proof.
  induction es as [|e' es IH]; [by intros ?%not_elem_of_nil|]. cbn [priority_sum foldr]. fold (priority_sum ov es).
  pose proof (priority_sum_range ov es). pose proof (priority_range ov (experiment_id e')). intros [->|Hin%IH]%elem_of_cons; lia.
Qed.

Definition ids_unique (es : list ExperimentInfo) : Prop := NoDup (experiment_id <$> es).

(** Fewer experiments than make the [i32] sum of the priorities wrap. *)
Definition countable (es : list ExperimentInfo) : Prop := (Z.of_nat (length es) < 2 ^ 28)%Z.

Lemma wrapped_sum (l : list (str * Z)) :
  foldr (uncurry (λ _ p acc, i32_wrap (acc + p))) 0%Z l = i32_wrap (foldr (λ kp acc, acc + kp.2)%Z 0%Z l).
Proof. induction l as [|[k p] l IH]; [done|]. cbn. by rewrite IH, i32_wrap_plus. Qed.

Lemma sum_perm (l l' : list (str * Z)) : l ≡ₚ l' → foldr (λ kp acc, acc + kp.2)%Z 0%Z l = foldr (λ kp acc, acc + kp.2)%Z 0%Z l'.
Proof. induction 1; cbn; lia. Qed.

Lemma total_priority_sum ov es : ids_unique es → countable es → total_priority (priority_map es ov) = priority_sum ov es.
Proof.
  intros Hnd Hc. unfold total_priority. rewrite map_fold_foldr, wrapped_sum.
  erewrite sum_perm by (apply collect_to_list; by rewrite <- list_fmap_compose).
  assert (foldr (λ kp acc, acc + kp.2)%Z 0%Z ((λ e, (experiment_id e, priority_of ov (experiment_id e))) <$> es) = priority_sum ov es) as ->.
  { clear. unfold priority_sum. induction es as [|e es IH]; [done|]. cbn in *. by rewrite IH. }
  apply i32_wrap_small. pose proof (priority_sum_range ov es). unfold countable in Hc. lia.
Qed.

(** ** Layers *)

Definition same_layer (l : str) (es : list ExperimentInfo) : list ExperimentInfo := filter (λ e, layer_id e = l) es.

Lemma group_from es : ∀ (m : gmap str (list ExperimentInfo)) l,
  fold_left (λ m e, <[layer_id e := default [] (m !! layer_id e) ++ [e]]> m) es m !! l =
  match same_layer l es with [] => m !! l | g => Some (default [] (m !! l) ++ g) end.
Proof.
  induction es as [|e es IH]; intros m l; [done|]. cbn [fold_left]. rewrite IH. unfold same_layer. rewrite filter_cons.
  destruct (decide (layer_id e = l)) as [<-|Hne].
  - rewrite lookup_insert_eq. cbn [default]. destruct (filter _ es) as [|y g]; cbn; [done|]. by rewrite <- app_assoc.
  - by rewrite lookup_insert_ne.
Qed.

Lemma group_lookup es l g : group_by_layer es !! l = Some g ↔ g = same_layer l es ∧ g ≠ [].
Proof. unfold group_by_layer. rewrite group_from, lookup_empty. cbn [default app]. destruct (same_layer l es) eqn:E; naive_solver. Qed.

Lemma in_same_layer l es e : e ∈ same_layer l es ↔ layer_id e = l ∧ e ∈ es.
Proof. unfold same_layer. by rewrite list_elem_of_filter. Qed.

Lemma keyed_inj {A B : Type} (key : A → B) l x y : NoDup (key <$> l) → x ∈ l → y ∈ l → key x = key y → x = y.
Proof.
  intros Hnd [i Hi]%list_elem_of_lookup [j Hj]%list_elem_of_lookup Hk.
  assert (i = j) as ->; [|congruence]. eapply NoDup_lookup; [exact Hnd| |]; rewrite list_lookup_fmap; [by rewrite Hi|by rewrite Hj, Hk].
Qed.

Lemma same_layer_unique l es : ids_unique es → ids_unique (same_layer l es).
Proof.
  unfold ids_unique, same_layer. induction es as [|e es IH]; [done|]. rewrite fmap_cons, NoDup_cons, filter_cons. intros [Hi Hnd].
  destruct (decide _); [|by apply IH]. rewrite fmap_cons, NoDup_cons. split; [|by apply IH].
  intros (y & Hy & Hin)%list_elem_of_fmap. apply Hi. apply list_elem_of_fmap. exists y. split; [done|]. by apply list_elem_of_filter in Hin as [_ ?].
Qed.

(** ** Recommendations *)

Lemma extend_all {A X : Type} (f : X → gmap str A) xs k v : (∀ x, x ∈ xs → f x !! k = None ∨ f x !! k = Some v) →
  ∀ acc, acc !! k = Some v ∨ (∃ x, x ∈ xs ∧ f x !! k = Some v) → fold_left (λ acc x, extend acc (f x)) xs acc !! k = Some v.
Proof.
  induction xs as [|x xs IH]; intros Hf acc Hacc; cbn [fold_left].
  - by destruct Hacc as [?|(x & ?%not_elem_of_nil & _)].
  - apply IH; [intros y Hy; apply Hf; by right|]. unfold extend. destruct (Hf x) as [Hx|Hx]; [by left| |].
    + destruct Hacc as [Ha|(y & [->|Hy]%elem_of_cons & Hv)]; [left; by rewrite lookup_union_r|congruence|right; by exists y].
    + left. by rewrite (lookup_union_Some_l _ _ _ v).
Qed.

Lemma fold_pair {A B X : Type} (f : X → gmap str A) (g : X → gmap str B) xs : ∀ a b,
  fold_left (λ acc x, (extend acc.1 (f x), extend acc.2 (g x))) xs (a, b) =
  (fold_left (λ acc x, extend acc (f x)) xs a, fold_left (λ acc x, extend acc (g x)) xs b).
Proof. induction xs as [|x xs IH]; intros a b; [done|]. cbn [fold_left fst snd]. by rewrite IH. Qed.

Section recommendations.
Context (iteration : gmap str (list ExperimentInfo) → list (str * list ExperimentInfo)).
Context (iteration_perm : ∀ m, iteration m ≡ₚ map_to_list m).
Context (es : list ExperimentInfo) (Hnd : ids_unique es).

(** A value every layer computes for its own experiments is found under their identifiers. *)
Lemma layer_value {A} (value : list ExperimentInfo → ExperimentInfo → A) e : e ∈ es →
  fold_left (λ acc layer, extend acc (collect ((λ x, (experiment_id x, value layer.2 x)) <$> layer.2)))
    (iteration (group_by_layer es)) ∅ !! experiment_id e = Some (value (same_layer (layer_id e) es) e).
Proof.
  intros He. apply extend_all.
  - intros [l g] Hl. rewrite iteration_perm in Hl. apply elem_of_map_to_list, group_lookup in Hl as [-> _]. cbn [snd].
    destruct (decide (layer_id e = l)) as [<-|Hne].
    + right. apply (collect_keyed experiment_id (value (same_layer (layer_id e) es))); [by apply same_layer_unique|by apply in_same_layer].
    + left. apply collect_none. rewrite <- list_fmap_compose. intros (y & Hy & [Hl Hin]%in_same_layer)%list_elem_of_fmap.
      apply Hne. rewrite <- Hl. f_equal. by apply (keyed_inj experiment_id es).
  - right. exists (layer_id e, same_layer (layer_id e) es). assert (e ∈ same_layer (layer_id e) es) as Hin by by apply in_same_layer.
    split; [rewrite iteration_perm; apply elem_of_map_to_list, group_lookup; split; [done|]; intros E; rewrite E in Hin; by apply not_elem_of_nil in Hin|].
    apply (collect_keyed experiment_id (value (same_layer (layer_id e) es))); [by apply same_layer_unique|done].
Qed.
End recommendations.

(** ** The reference: what an experiment is allotted *)

Section expected.
Context (ov : gmap str Z) (es : list ExperimentInfo).

(** An experiment's part of all priorities. *)
Definition priority_share (e : ExperimentInfo) : f64 :=
  f64_div (f64_of_Z (priority_of ov (experiment_id e))) (f64_of_Z (priority_sum ov es)).

Definition layer_weight (e : ExperimentInfo) : f64 := sum_f64 (priority_share <$> same_layer (layer_id e) es).

(** Its part of its layer's shares, at most one half. *)
Definition recommended (e : ExperimentInfo) : f64 := f64_min (f64_div (priority_share e) (layer_weight e)) MAX_SINGLE_EXPERIMENT_SHARE.

Definition starved (e : ExperimentInfo) : bool := f64_lt (traffic_fraction e) (f64_mul (recommended e) UNDERPOWERED_THRESHOLD).

Definition expected (e : ExperimentInfo) : Allocation :=
  mk_allocation (experiment_id e) (experiment_name e) (priority_of ov (experiment_id e)) (traffic_fraction e) (recommended e) (starved e)
    (build_rationale (traffic_fraction e) (recommended e) (starved e) (priority_of ov (experiment_id e))) (priority_share e).
End expected.

Section exact.
Context (iteration : gmap str (list ExperimentInfo) → list (str * list ExperimentInfo)).
Context (iteration_perm : ∀ m, iteration m ≡ₚ map_to_list m).
Context (ov : gmap str Z) (es : list ExperimentInfo) (Hnd : ids_unique es) (Hc : countable es).

Lemma share_normal e : e ∈ es → share_f64 (priority_share ov es e).
Proof.
  intros He. pose proof (priority_range ov (experiment_id e)). pose proof (priority_in_sum ov es e He). pose proof (priority_sum_range ov es).
  unfold countable in Hc. apply ratio_share; lia.
Qed.

Lemma weight_normal e : e ∈ es → normal (-900) 4 (layer_weight ov es e).
Proof.
  intros He. apply sum_shares_normal.
  - intros E%fmap_nil_inv. assert (e ∈ same_layer (layer_id e) es) as Hin by by apply in_same_layer. rewrite E in Hin. by apply not_elem_of_nil in Hin.
  - apply Forall_fmap, Forall_forall. intros x [_ Hx]%in_same_layer. by apply share_normal.
Qed.

Lemma normal_positive lo hi x : normal lo hi x → f64_lt f64_zero x = true.
Proof. by intros (m & e & -> & _). Qed.

Lemma ratio_normal e : e ∈ es → normal (-957) 797 (f64_div (priority_share ov es e) (layer_weight ov es e)).
Proof.
  intros He. eapply normal_weaken; [apply (div_normal (-900) (-52) (-900) 4)|lia|lia]; [by apply share_normal|by apply weight_normal|lia|lia].
Qed.

Lemma normal_number lo hi x : normal lo hi x → is_number x.
Proof. by intros (m & e & -> & _). Qed.

Lemma recommended_positive e : e ∈ es → f64_lt f64_zero (recommended ov es e) = true.
Proof.
  intros He. unfold recommended. rewrite f64_min_cases; [|by eapply normal_number, ratio_normal|done].
  destruct (f64_lt MAX_SINGLE_EXPERIMENT_SHARE _); [done|]. by eapply normal_positive, ratio_normal.
Qed.

(** The map of budget shares. *)
Definition shares_map : gmap str f64 :=
  collect ((λ e, (experiment_id e, budget_share (priority_map es ov) (length es) (experiment_id e))) <$> es).

Lemma priority_lookup e : e ∈ es → priority_map es ov !! experiment_id e = Some (priority_of ov (experiment_id e)).
Proof. intros He. by apply (collect_keyed experiment_id (λ e, priority_of ov (experiment_id e))). Qed.

Lemma shares_lookup e : e ∈ es → shares_map !! experiment_id e = Some (priority_share ov es e).
Proof.
  intros He. unfold shares_map.
  rewrite (collect_keyed experiment_id (λ e, budget_share (priority_map es ov) (length es) (experiment_id e)) es e) by done. f_equal.
  unfold budget_share. rewrite total_priority_sum, priority_lookup by done. cbn [default]. pose proof (priority_in_sum ov es e He).
  pose proof (priority_range ov (experiment_id e)). by rewrite (proj2 (Z.ltb_lt _ _)) by lia.
Qed.

Lemma share_of_map e : e ∈ es → share_of shares_map e = priority_share ov es e.
Proof. intros He. unfold share_of. by rewrite shares_lookup. Qed.

Lemma layer_shares e : e ∈ es → sum_f64 (share_of shares_map <$> same_layer (layer_id e) es) = layer_weight ov es e.
Proof.
  intros He. unfold layer_weight. f_equal. apply list_fmap_ext. intros i x Hx%list_elem_of_lookup_2.
  apply in_same_layer in Hx as [_ Hx]. by apply share_of_map.
Qed.

Lemma capped_is_recommended e : e ∈ es →
  capped_share (sum_f64 (share_of shares_map <$> same_layer (layer_id e) es)) shares_map e = recommended ov es e.
Proof.
  intros He. rewrite layer_shares by done. unfold capped_share. change (f64_gt (layer_weight ov es e) f64_zero) with (f64_lt f64_zero (layer_weight ov es e)).
  rewrite (normal_positive _ _ _ (weight_normal e He)), share_of_map by done. done.
Qed.

Lemma flag_is_starved e : e ∈ es → is_underpowered (recommended ov es e) e = starved ov es e.
Proof.
  intros He. unfold is_underpowered. change (f64_gt (recommended ov es e) f64_zero) with (f64_lt f64_zero (recommended ov es e)).
  by rewrite recommended_positive.
Qed.

(** The two maps the layers fill. *)
Definition layer_maps : gmap str f64 * gmap str bool :=
  fold_left (λ acc layer, let '(r, u) := recommend_layer layer.2 shares_map in (extend acc.1 r, extend acc.2 u))
    (iteration (group_by_layer es)) (∅, ∅).

Lemma allocation_expected e : e ∈ es →
  allocation_of (priority_map es ov) shares_map layer_maps.1 layer_maps.2 e = Ok (expected ov es e).
Proof.
  intros He. unfold layer_maps, recommend_layer. cbv beta iota zeta.
  rewrite (fold_pair (λ layer : str * list ExperimentInfo, collect ((λ e, (experiment_id e, capped_share (sum_f64 (share_of shares_map <$> layer.2)) shares_map e)) <$> layer.2))
    (λ layer : str * list ExperimentInfo, collect ((λ e, (experiment_id e, is_underpowered (capped_share (sum_f64 (share_of shares_map <$> layer.2)) shares_map e) e)) <$> layer.2))).
  unfold allocation_of. cbv zeta. cbn [fst snd]. rewrite priority_lookup, shares_lookup by done.
  rewrite (layer_value iteration iteration_perm es Hnd (λ g e, capped_share (sum_f64 (share_of shares_map <$> g)) shares_map e) e) by done.
  rewrite (layer_value iteration iteration_perm es Hnd (λ g e, is_underpowered (capped_share (sum_f64 (share_of shares_map <$> g)) shares_map e) e) e) by done.
  cbn [default]. by rewrite capped_is_recommended, flag_is_starved.
Qed.

Lemma mapM_every {E A B} (f : A → result E B) g l : (∀ x, x ∈ l → f x = Ok (g x)) → mapM f l = Ok (g <$> l).
Proof.
  induction l as [|x l IH]; [done|]. intros Hf. cbn. rewrite Hf by by left. cbn. rewrite IH; [done|]. intros y Hy. apply Hf. by right.
Qed.

Lemma length_filter_fmap {A B : Type} (P : B → Prop) `{∀ y, base.Decision (P y)} (f : A → B) l :
  length (filter P (f <$> l)) = length (filter (λ x, P (f x)) l).
Proof. induction l as [|x l IH]; [done|]. rewrite fmap_cons, !filter_cons. by destruct (decide _); cbn [length]; rewrite IH. Qed.

Lemma optimize_exact : es ≠ [] →
  optimize iteration es ov = Ok (mk_result (sort_by allocation_before (expected ov es <$> es)) (detect_conflicts es)
    (mk_stats (Z.of_nat (length es)) (compute_traffic_utilization iteration (group_by_layer es))
       (f64_mul (f64_of_nat (length es)) PER_EXPERIMENT_FDR) (Z.of_nat (length (filter (λ e, starved ov es e = true) es)))
       (len_i32 (detect_conflicts es)))).
Proof.
  intros Hne. unfold optimize. rewrite bool_decide_eq_false_2 by done. cbv zeta. fold shares_map. fold layer_maps.
  rewrite (mapM_every _ (expected ov es)) by apply allocation_expected. cbn [mbind result_bind mret result_ret]. do 3 f_equal.
  - unfold len_i32, countable in *. apply i32_wrap_small. lia.
  - assert (length (filter (λ a, underpowered a = true) (expected ov es <$> es)) = length (filter (λ e, starved ov es e = true) es)) as Hl.
    { etransitivity; [apply length_filter_fmap|reflexivity]. }
    unfold len_i32. rewrite Hl. pose proof (length_filter (λ e, starved ov es e = true) es). unfold countable in Hc. apply i32_wrap_small. lia.
Qed.
End exact.

(** ** Bounds *)

Lemma div_number x y : f64_is_finite x = true → positive_finite y → is_number (f64_div x y).
Proof.
  destruct x as [s|s| |s m e], y as [s'|s'| |[] m' e']; try done. intros _ _. unfold f64_div. cbn [SFdiv].
  pose proof (div_core_nonneg (Zpos m) e (Zpos m') e' ltac:(lia) ltac:(lia)) as Hq.
  destruct (SFdiv_core_binary 53 1024 (Zpos m) e (Zpos m') e') as [[q e1] l]. by apply round_number.
Qed.

Lemma of_Z_finite n : (- 2 ^ 31 ≤ n < 2 ^ 53)%Z → f64_is_finite (f64_of_Z n) = true.
Proof.
  intros Hn. destruct (Z.lt_trichotomy n 0) as [Hneg|[->|Hpos]]; [|done|].
  - unfold f64_of_Z. rewrite (proj2 (Z.ltb_lt _ _)) by lia. destruct (of_Z_normal (- n)) as (m & e & Hx & _); [lia|].
    unfold f64_of_Z in Hx. rewrite (proj2 (Z.ltb_ge _ _)) in Hx by lia. by rewrite Hx.
  - destruct (of_Z_normal n) as (m & e & -> & _); [lia|done].
Qed.

(** The [i32] of a row. *)
Definition buckets_i32 (e : ExperimentInfo) : Prop := (layer_total_buckets e < 2 ^ 31)%Z.

Lemma traffic_fraction_bounds e : buckets_i32 e →
  f64_le f64_zero (traffic_fraction e) = true ∧ f64_le (traffic_fraction e) f64_one = true.
Proof.
  intros He. unfold traffic_fraction, buckets_i32 in *. destruct (layer_total_buckets e <=? 0)%Z eqn:E; [done|].
  apply f64_clamp_bounds; [|done]. apply div_number.
  - apply of_Z_finite. pose proof (i32_wrap_range (i32_wrap (end_bucket e - start_bucket e) + 1)). lia.
  - destruct (of_Z_normal (layer_total_buckets e)) as (m & e' & -> & _); [lia|done].
Qed.

(** A zero or a share: what is summed for the utilization. *)
Definition part (x : f64) : Prop := x = f64_zero ∨ share_f64 x.
Definition level (x : f64) : Prop := x = f64_zero ∨ normal (-900) 4 x.

Lemma add_part a x : level a → part x → level (f64_add a x).
Proof.
  intros [->|Ha] [->|Hx]; [by left|..].
  - right. rewrite zero_plus_share by done. eapply normal_weaken; [apply Hx|lia|lia].
  - right. by destruct Ha as (m & e & -> & Hd & He); exists m, e.
  - right. by apply add_share.
Qed.

Lemma sum_parts l : Forall part l → level (sum_f64 l).
Proof.
  unfold sum_f64. intros Hl. assert (level f64_zero) as Ha by by left. revert Ha. generalize f64_zero. induction Hl as [|x l Hx Hl IH]; intros a Ha; [done|].
  cbn [fold_left]. by apply IH, add_part.
Qed.

Lemma one_share : share_f64 f64_one.
Proof. split; [|done]. unfold f64_one. rewrite one_is. exists (2 ^ 52)%positive, (-52)%Z. by split_and!. Qed.

Lemma part_of_normal lo hi x : normal lo hi x → (-900 ≤ lo)%Z → f64_gt x f64_one = false → share_f64 x.
Proof.
  intros Hx Hlo Hgt. assert (f64_le x f64_one = true) as Hle.
  { change (f64_gt x f64_one) with (f64_lt f64_one x) in Hgt. rewrite f64_lt_nle in Hgt by (done || by eapply normal_number). by apply negb_false_iff. }
  split; [|done]. destruct Hx as (m & e & -> & Hd & He). exists m, e. split_and!; [done|done|lia|]. unfold f64_one in Hle. rewrite one_is in Hle. apply f64_le_finite in Hle. lia.
Qed.

Lemma div_opp m e m' e' : f64_div (S754_finite true m e) (S754_finite false m' e') = SFopp (f64_div (S754_finite false m e) (S754_finite false m' e')).
Proof.
  unfold f64_div. cbn [SFdiv xorb]. destruct (SFdiv_core_binary 53 1024 (Zpos m) e (Zpos m') e') as [[q e1] l]. unfold binary_round_aux.
  destruct (shr_fexp 53 1024 q e1 l) as [r1 e2]. destruct (shr_fexp 53 1024 _ e2 loc_Exact) as [r2 e3]. destruct (shr_m r2); [done| |done]. by destruct (_ <=? _)%Z.
Qed.

Lemma traffic_fraction_part e : buckets_i32 e → part (traffic_fraction e).
Proof.
  intros He. unfold traffic_fraction, buckets_i32 in *. destruct (layer_total_buckets e <=? 0)%Z eqn:E; [by left|]. apply Z.leb_gt in E.
  set (n := i32_wrap _). assert (- 2 ^ 31 ≤ n < 2 ^ 31)%Z as Hn by apply i32_wrap_range. pose proof (of_Z_normal (layer_total_buckets e) ltac:(lia)) as Hd.
  destruct (Z.lt_trichotomy n 0) as [Hneg|[Hz|Hpos]].
  - destruct (of_Z_normal (- n) ltac:(lia)) as (m & e1 & Hx & Hm & He1). pose proof Hd as (m' & e' & Hy & _). left.
    assert (f64_of_Z n = S754_finite true m e1) as ->.
    { unfold f64_of_Z in *. rewrite (proj2 (Z.ltb_lt n 0)) by lia. rewrite (proj2 (Z.ltb_ge (- n) 0)) in Hx by lia. by rewrite Hx. }
    rewrite Hy. unfold f64_clamp. assert (f64_lt (f64_div (S754_finite true m e1) (S754_finite false m' e')) f64_zero = true) as ->; [|done].
    rewrite Hy in Hd. pose proof (div_normal (-52) 0 (-52) 0 _ _ (ex_intro _ m (ex_intro _ e1 (conj eq_refl (conj Hm He1)))) Hd ltac:(lia) ltac:(lia)) as (m2 & e2 & Hq & _).
    rewrite (div_opp m e1 m' e'), Hq. done.
  - left. rewrite Hz. destruct Hd as (m' & e' & -> & _). done.
  - pose proof (of_Z_normal n ltac:(lia)) as Hx. pose proof (div_normal _ _ _ _ _ _ Hx Hd ltac:(lia) ltac:(lia)) as Hq. right. unfold f64_clamp.
    assert (f64_lt (f64_div (f64_of_Z n) (f64_of_Z (layer_total_buckets e))) f64_zero = false) as -> by (destruct Hq as (m & e' & -> & _); done).
    destruct (f64_gt _ _) eqn:Egt; [apply one_share|]. eapply part_of_normal; [exact Hq|lia|done].
Qed.

Lemma group_size es : ∀ m : gmap str (list ExperimentInfo),
  size (fold_left (λ m e, <[layer_id e := default [] (m !! layer_id e) ++ [e]]> m) es m) ≤ size m + length es.
Proof.
  induction es as [|e es IH]; intros m; cbn [fold_left length]; [lia|]. etransitivity; [apply IH|]. rewrite map_size_insert. by destruct (m !! layer_id e); cbn; lia.
Qed.

Lemma le_number x : is_number x → f64_le x x = true.
Proof. apply f64_le_refl. Qed.

Section stats.
Context (iteration : gmap str (list ExperimentInfo) → list (str * list ExperimentInfo)).
Context (iteration_perm : ∀ m, iteration m ≡ₚ map_to_list m).

Lemma utilization_bounds es : countable es → Forall buckets_i32 es →
  let u := compute_traffic_utilization iteration (group_by_layer es) in f64_le f64_zero u = true ∧ f64_le u f64_one = true.
Proof.
  intros Hc Hb. cbv zeta. unfold compute_traffic_utilization. case_bool_decide as He; [done|].
  assert (Forall part (layer_utilization <$> (iteration (group_by_layer es)).*2)) as Hparts.
  { apply Forall_fmap, Forall_fmap, Forall_forall. intros [l g] Hl. rewrite iteration_perm in Hl. apply elem_of_map_to_list, group_lookup in Hl as [-> _].
    cbn [compose snd]. unfold layer_utilization, compose. cbn [snd]. assert (level (sum_f64 (traffic_fraction <$> same_layer l es))) as Hs.
    { apply sum_parts, Forall_fmap, Forall_forall. intros e [_ Hin]%in_same_layer. rewrite Forall_forall in Hb. by apply traffic_fraction_part, Hb. }
    destruct Hs as [->|Hs]; [by left|]. destruct (f64_gt _ _) eqn:Eg; right; [apply one_share|]. by eapply part_of_normal. }
  apply sum_parts in Hparts. set (s := sum_f64 _) in *. clearbody s. set (n := length _).
  assert (0 < Z.of_nat n < 2 ^ 53)%Z as Hn.
  { unfold n. rewrite length_fmap, iteration_perm. unfold countable in Hc. pose proof (group_size es ∅) as Hg. fold (group_by_layer es) in Hg.
    rewrite map_size_empty in Hg. rewrite length_map_to_list.
    assert (size (group_by_layer es) ≠ 0) by (by rewrite map_size_empty_iff). lia. }
  pose proof (of_Z_normal _ Hn) as Nn. fold (f64_of_nat n) in Nn. destruct Hparts as [->|Hs].
  - destruct Nn as (m & e & -> & _). done.
  - assert (is_number (f64_div s (f64_of_nat n))) as Hq by (eapply normal_number, (div_normal _ _ _ _ _ _ Hs Nn); lia).
    split; [|by apply f64_min_lower]. rewrite f64_min_cases by done. destruct (f64_lt f64_one _); [done|].
    apply f64_lt_le. eapply normal_positive, (div_normal _ _ _ _ _ _ Hs Nn); lia.
Qed.
End stats.

(** ** The theorems *)

(** What a conflict says. *)
Definition conflict_of (a b : ExperimentInfo) (c : Conflict) : Prop :=
  experiment_id_a c = experiment_id a ∧ experiment_id_b c = experiment_id b ∧ layer_id a = layer_id b ∧
  match conflict_type c, conflict_rationale c with
  | PrimaryMetricOverlap, SamePrimary m => m ≠ [] ∧ m = primary_metric_id a ∧ m = primary_metric_id b
  | GuardrailMetricOverlap, SharedGuardrail m => m ∈ guardrail_metric_ids a ∧ m ∈ guardrail_metric_ids b
  | PopulationOverlap, FullPopulation => targeting_rule_id a = [] ∧ targeting_rule_id b = []
  | _, _ => False
  end.

Lemma pair_conflicts_spec a b c : c ∈ pair_conflicts a b ↔ conflict_of a b c.
Proof.
  unfold pair_conflicts, conflict_of, shared_metrics. destruct c as [ia ib t r]. cbn. case_bool_decide as Hl; [|split; [by intros ?%not_elem_of_nil|naive_solver]].
  rewrite !elem_of_app, list_elem_of_fmap. setoid_rewrite list_elem_of_filter.
  repeat case_bool_decide; rewrite ?list_elem_of_singleton; destruct t, r; set_solver.
Qed.

Lemma detect_conflicts_spec es c : c ∈ detect_conflicts es ↔ ∃ i j a b, i < j ∧ es !! i = Some a ∧ es !! j = Some b ∧ conflict_of a b c.
Proof.
  induction es as [|x es IH]; cbn [detect_conflicts]; [split; [by intros ?%not_elem_of_nil|by intros (?&?&?&?&?&?&?)]|].
  rewrite elem_of_app, IH, list_elem_of_bind. split.
  - intros [(b & Hc%pair_conflicts_spec & [j Hj]%list_elem_of_lookup)|(i & j & a & b & Hij & Ha & Hb & Hc)].
    + exists 0, (S j), x, b. split_and!; [lia|done|done|done].
    + exists (S i), (S j), a, b. split_and!; [lia|done|done|done].
  - intros (i & [|j] & a & b & Hij & Ha & Hb & Hc); [lia|]. destruct i as [|i].
    + left. cbn in Ha. injection Ha as ->. exists b. split; [by apply pair_conflicts_spec|by eapply list_elem_of_lookup_2].
    + right. exists i, j, a, b. split_and!; [lia|done|done|done].
Qed.

(** Priority descending, identifiers ascending. *)
Definition ranks_before (a b : Allocation) : Prop :=
  (al_priority b < al_priority a)%Z ∨ al_priority a = al_priority b ∧ str_le (al_id a) (al_id b).

Lemma allocation_before_spec a b : allocation_before a b = true ↔ ranks_before a b.
Proof.
  unfold allocation_before, ranks_before. destruct (Z.compare_spec (al_priority b) (al_priority a)) as [He|Hlt|Hgt].
  - rewrite bool_decide_eq_true. split; [by right|]. intros [?|[_ ?]]; [lia|done].
  - split; [by left|done].
  - split; [done|]. intros [?|[? _]]; lia.
Qed.

Lemma sorted_allocations l : StronglySorted ranks_before (sort_by allocation_before l).
Proof.
  eapply strongly_sorted_impl; [|apply (sort_by_sorted allocation_before (λ _, True))].
  - intros a b. by apply allocation_before_spec.
  - intros a b _ _. rewrite !allocation_before_spec. unfold ranks_before. destruct (total str_le (al_id a) (al_id b)), (Z.lt_total (al_priority a) (al_priority b)) as [?|[?|?]]; naive_solver.
  - intros a b c. rewrite !allocation_before_spec. unfold ranks_before. intros [H1|[H1 H1']] [H2|[H2 H2']]; [left; lia..|right]. split; [lia|by etransitivity].
  - by apply Forall_forall.
Qed.

Section theorems.
Context (iteration : gmap str (list ExperimentInfo) → list (str * list ExperimentInfo)).

(** [C17] The optimizer is its specification, whatever the iteration order of its maps: it
    answers; every experiment gets one allocation, with its clamped priority, its share of all
    priorities, its share of its layer's weight capped at one half, and the flag that its
    current traffic is below three quarters of that; the allocations are in descending order
    of priority, then of identifier, and are the same for every iteration order; the conflicts
    are exactly the shared primary metrics, shared guardrail metrics and untargeted pairs of
    one layer; and the counts are those of the lists. *)
Theorem optimize_correct ov es : (∀ m, iteration m ≡ₚ map_to_list m) → es ≠ [] → ids_unique es → countable es →
  ∃ out, optimize iteration es ov = Ok out ∧
    allocations out ≡ₚ expected ov es <$> es ∧ StronglySorted ranks_before (allocations out) ∧
    (∀ iteration', (∀ m, iteration' m ≡ₚ map_to_list m) →
       ∃ out', optimize iteration' es ov = Ok out' ∧ allocations out' = allocations out ∧ conflicts out' = conflicts out) ∧
    (∀ c, c ∈ conflicts out ↔ ∃ i j a b, i < j ∧ es !! i = Some a ∧ es !! j = Some b ∧ conflict_of a b c) ∧
    running_count (stats out) = Z.of_nat (length es) ∧
    underpowered_count (stats out) = Z.of_nat (length (filter (λ a, underpowered a = true) (allocations out))).
Proof.
  intros Hperm Hne Hnd Hc. eexists. split; [by apply optimize_exact|]. cbn [allocations conflicts stats running_count underpowered_count].
  split_and!; [apply sort_by_perm|apply sorted_allocations| |apply detect_conflicts_spec|done|].
  - intros it' Hperm'. eexists. split; [by apply optimize_exact|done].
  - f_equal. rewrite sort_by_perm. symmetry. etransitivity; [apply length_filter_fmap|reflexivity].
Qed.

(** [C18] The recommendations are in range and fair: priorities lie in 1 to 5, current traffic
    and utilization in [0, 1], shares in (0, 1], recommendations in (0, 1/2]; and of two
    experiments the one of at least the other's priority has at least its share of the budget,
    and in the same layer at least its recommendation, floating-point rounding included. *)
Theorem recommendations_sound ov es out : (∀ m, iteration m ≡ₚ map_to_list m) → es ≠ [] → ids_unique es → countable es → Forall buckets_i32 es →
  optimize iteration es ov = Ok out →
  (∀ a, a ∈ allocations out →
     (1 ≤ al_priority a ≤ 5)%Z ∧
     f64_le f64_zero (current_traffic_fraction a) = true ∧ f64_le (current_traffic_fraction a) f64_one = true ∧
     f64_lt f64_zero (recommended_traffic_fraction a) = true ∧ f64_le (recommended_traffic_fraction a) (f64_ratio 1 2) = true ∧
     f64_lt f64_zero (variance_budget_share a) = true ∧ f64_le (variance_budget_share a) f64_one = true) ∧
  f64_le f64_zero (traffic_utilization (stats out)) = true ∧ f64_le (traffic_utilization (stats out)) f64_one = true ∧
  (∀ e e' a a', e ∈ es → e' ∈ es → a ∈ allocations out → a' ∈ allocations out → al_id a = experiment_id e → al_id a' = experiment_id e' →
     (al_priority a ≤ al_priority a')%Z →
     f64_le (variance_budget_share a) (variance_budget_share a') = true ∧
     (layer_id e = layer_id e' → f64_le (recommended_traffic_fraction a) (recommended_traffic_fraction a') = true)).
Proof.
  intros Hperm Hne Hnd Hc Hb Hout. rewrite (optimize_exact _ Hperm ov es Hnd Hc Hne) in Hout. injection Hout as <-.
  cbn [allocations stats traffic_utilization].
  assert (∀ a, a ∈ sort_by allocation_before (expected ov es <$> es) ↔ ∃ e, a = expected ov es e ∧ e ∈ es) as Hin.
  { intros a. by rewrite sort_by_perm, list_elem_of_fmap. }
  split; [|destruct (utilization_bounds _ Hperm es Hc Hb) as [? ?]; split_and!; [done|done|]].
  - intros a (e & -> & He)%Hin. cbn. destruct (share_normal ov es Hc e He) as [Hs Hs1]. rewrite Forall_forall in Hb.
    destruct (traffic_fraction_bounds e (Hb e He)) as [? ?]. pose proof (recommended_positive ov es Hc e He).
    split_and!; [apply priority_range|apply priority_range|done|done|done| |by eapply normal_positive|done].
    apply f64_min_lower; [by eapply normal_number, ratio_normal|done].
  - intros e e' a a' He He' (x & -> & Hx)%Hin (x' & -> & Hx')%Hin Hid Hid' Hp. cbn in Hid, Hid', Hp |- *.
    assert (x = e) as -> by (by apply (keyed_inj experiment_id es)). assert (x' = e') as -> by (by apply (keyed_inj experiment_id es)).
    assert (f64_le (priority_share ov es e) (priority_share ov es e') = true) as Hle.
    { pose proof (priority_range ov (experiment_id e)). pose proof (priority_range ov (experiment_id e')). pose proof (priority_sum_range ov es).
      pose proof (priority_in_sum ov es e He). unfold countable in Hc.
      eapply (div_le (-52) 0 (-52) 0); [apply of_Z_normal; lia|apply of_Z_normal; lia|apply of_Z_normal; lia|lia|lia|apply of_Z_le; lia]. }
    split; [done|]. intros Hl. unfold recommended. assert (layer_weight ov es e' = layer_weight ov es e) as -> by (unfold layer_weight; by rewrite Hl).
    apply min_mono; [by eapply normal_number, ratio_normal| |done|].
    + eapply normal_number, (div_normal (-900) (-52) (-900) 4); [by apply share_normal|by apply weight_normal|lia|lia].
    + eapply (div_le (-900) (-52) (-900) 4); [by apply share_normal|by apply share_normal|by apply weight_normal|lia|lia|done].
Qed.
End theorems.

(** ** Witnesses and limits *)

Definition sample_info (id metric : string) (start_b end_b : Z) : ExperimentInfo :=
  mk_info (lit id) (lit id) (lit "L") (lit metric) [] [] start_b end_b 1000.

Definition sample_infos : list ExperimentInfo := [sample_info "a" "watch" 0 100; sample_info "b" "watch" 100 200].
Definition sample_overrides : gmap str Z := {[lit "b" := 9%Z]}.

Lemma sample_unique : ids_unique sample_infos.
Proof. apply (bool_decide_unpack _). vm_compute. done. Qed.

Lemma optimize_correct_witness : ∃ out, optimize map_to_list sample_infos sample_overrides = Ok out ∧
  al_id <$> allocations out = [lit "b"; lit "a"] ∧ running_count (stats out) = 2%Z.
Proof.
  destruct (optimize_correct map_to_list sample_overrides sample_infos) as (out & Ho & _ & _ & _ & _ & Hc & _);
    [intros m; reflexivity|done|apply sample_unique|done|].
  exists out. split; [exact Ho|]. split; [|exact Hc].
  assert (match optimize map_to_list sample_infos sample_overrides with Ok o => al_id <$> allocations o | _ => [] end = [lit "b"; lit "a"]) as Hv by (vm_compute; reflexivity).
  rewrite Ho in Hv. exact Hv.
Defined.

Lemma recommendations_sound_witness : ∃ out, optimize map_to_list sample_infos sample_overrides = Ok out ∧
  ∀ a, a ∈ allocations out → (1 ≤ al_priority a ≤ 5)%Z.
Proof.
  destruct (optimize map_to_list sample_infos sample_overrides) as [out| | |] eqn:E; [|exfalso; vm_compute in E; discriminate E..].
  exists out. split; [reflexivity|]. intros a Ha.
  apply (recommendations_sound map_to_list sample_overrides sample_infos out);
    [intros m; reflexivity|done|apply sample_unique|done|repeat constructor|exact E|exact Ha].
Defined.

(** The allocator's ranges are half-open: [0, 100) of a layer of 1000 buckets is 10% of it,
    and the optimizer counts one bucket more. *)
Lemma one_bucket_more : traffic_fraction (sample_info "a" "watch" 0 100) = f64_div (f64_of_Z 101) (f64_of_Z 1000) ∧
  traffic_fraction (sample_info "a" "watch" 5 5) = f64_div f64_one (f64_of_Z 1000).
Proof. by vm_compute. Qed.

(** Experiments of a layer have disjoint buckets, so no user sees both; they are reported as
    a population overlap all the same. *)
Lemma disjoint_overlap_reported : conflict_type <$> detect_conflicts [sample_info "a" "watch" 0 500; sample_info "b" "clicks" 500 1000] = [PopulationOverlap].
Proof. by vm_compute. Qed.

(** A recommended level is never below the uniform one. *)
Lemma alpha_floor id es ov family a : es ≠ [] → positive_finite family → (Z.of_nat (length es) < 2 ^ 53)%Z →
  (0 < default DEFAULT_PRIORITY (priority_map es ov !! id) < 2 ^ 53)%Z → (0 < total_priority (priority_map es ov) < 2 ^ 53)%Z →
  recommend_alpha id es ov family = Ok a → f64_le (f64_div family (f64_of_nat (length es))) a = true.
Proof.
  intros Hne Hf Hlen Hp Ht. unfold recommend_alpha, assert_finite. assert (f64_is_finite family = true) as -> by by destruct family.
  cbn [mbind result_bind mret result_ret]. rewrite bool_decide_eq_false_2 by done. rewrite (proj2 (Z.eqb_neq _ _)) by lia. intros [= <-].
  assert (0 < length es) by (destruct es; [done|cbn; lia]). assert (is_number family) by by destruct family as [|[]| |[]].
  assert (positive_finite (f64_of_nat (length es))) as Hn by (apply of_Z_positive; lia).
  apply f64_max_upper; [|apply div_number; [by destruct family|done]].
  apply magnitude_number, mul_magnitude; [by destruct family as [|[]| |[]]|by destruct family|].
  destruct (div_normal _ _ _ _ _ _ (of_Z_normal _ Hp) (of_Z_normal _ Ht)) as (m & e & -> & _); [lia|lia|done].
Qed.

(** But that floor lets the levels of a portfolio sum above the family's: priorities 5 and 1
    of a family at 0.05 get 0.0416 and 0.025. *)
Definition two_priorities : gmap str Z := {[lit "a" := 5%Z; lit "b" := 1%Z]}.

Lemma family_level_exceeded : ∃ a b, recommend_alpha (lit "a") sample_infos two_priorities five_percent = Ok a ∧
  recommend_alpha (lit "b") sample_infos two_priorities five_percent = Ok b ∧ f64_gt (f64_add a b) five_percent = true.
Proof. do 2 eexists. split; [vm_compute; reflexivity|]. split; [vm_compute; reflexivity|by vm_compute]. Qed.

(** The annual effect is the observed one. *)
Lemma annual_effect_unscaled i o : compute_annualized_impact i = Ok o → primary_metric_annual_effect o = primary_metric_effect i.
Proof. unfold compute_annualized_impact. destruct (for_each _ _) as [u| | |]; cbn; [intros [= <-]; done|done..]. Qed.

(** Without any effect, a significant result is a loser. *)
Lemma no_effect_is_loser : classify_learning (mk_outcome f64_zero (f64_ratio 1 100) (f64_ratio 9 10) five_percent) = Ok Loser.
Proof. by vm_compute. Qed.
