(* ===== verification/PortfolioService.v ===== *)
(** The portfolio RPC ([experimentation-management/src/grpc.rs] get_portfolio_allocation):
    the running experiments of the store with their bucket allocations, handed to the
    optimizer; and the JSON of [type_config], in which it looks for guardrails. *)
From Stdlib Require Import Ascii String SpecFloat.
From stdpp Require Import sorting pretty.
From S2P Require Import Prelude Bytes F64 F64Order StateMachine BucketReuse Experiments Json MultipleComparison Portfolio PortfolioSpec.

(** ** [type_config] *)

Section config.
Context {J : Type} `{JsonValue J}.

Definition when {A} (x : option A) (key : string) (value : A → list (str * J)) : list (str * J) :=
  match x with Some a => [(lit key, json_object (value a))] | None => [] end.

Definition json_strs (l : list str) : J := json_array (json_str <$> l).

(** The object [build_type_config] stores. *)
Definition type_config_json (c : TypeConfigJson) : J :=
  json_object
    (when (js_interleaving c) "interleaving_config" (λ '(m, ids, size),
       [(lit "method", json_int m); (lit "algorithm_ids", json_strs ids); (lit "max_list_size", json_int size)]) ++
     when (js_session c) "session_config" (λ s,
       [(lit "session_id_attribute", json_str (session_id_attribute s));
        (lit "allow_cross_session_variation", json_bool (allow_cross_session_variation s));
        (lit "min_sessions_per_user", json_int (min_sessions_per_user s))]) ++
     when (js_bandit c) "bandit_config" (λ b,
       [(lit "algorithm", json_int (algorithm b)); (lit "reward_metric_id", json_str (reward_metric_id b));
        (lit "min_exploration_fraction", json_float (min_exploration_fraction b))]) ++
     when (js_meta c) "meta_experiment_config" (λ '(base, outcomes, n),
       [(lit "base_algorithm", json_int base); (lit "outcome_metric_ids", json_strs outcomes); (lit "variant_count", json_int (Z.of_nat n))]) ++
     when (js_switchback c) "switchback_config" (λ '(cycles, secs, attribute),
       [(lit "planned_cycles", json_int cycles);
        (lit "block_duration_seconds", match secs with Some s => json_int s | None => json_null end);
        (lit "cluster_attribute", json_str attribute)]) ++
     when (js_quasi c) "quasi_experiment_config" (λ '(unit, donors, outcome, m),
       [(lit "treated_unit_id", json_str unit); (lit "donor_count", json_int (Z.of_nat donors));
        (lit "outcome_metric_id", json_str outcome); (lit "method", json_int m)]) ++
     when (js_adaptive c) "adaptive_sample_size_config" (λ a,
       [(lit "interim_fraction", json_float (interim_fraction a)); (lit "promising_zone_lower", json_float (promising_zone_lower a));
        (lit "favorable_zone_lower", json_float (favorable_zone_lower a)); (lit "max_extension_factor", json_float (max_extension_factor a))])).

Definition extract_guardrail_ids (type_config : J) : list str :=
  match get type_config (lit "guardrail_configs") ≫= as_array with
  | Some arr => omap (λ g, get g (lit "metric_id") ≫= as_str) arr
  | None => []
  end.
End config.

(** ** The reads *)

(** [f64::round]: half away from zero. *)
Definition f64_round (x : f64) : f64 :=
  match x with
  | S754_finite s m e =>
      if (0 <=? e)%Z then x
      else let k := Z.shiftr (Zpos m + Z.shiftl 1 (- e - 1)) (- e) in
           if (k =? 0)%Z then S754_zero s else let y := f64_of_Z k in if s then SFopp y else y
  | _ => x
  end.

(** [x as i32] truncates and saturates. *)
Definition f64_as_i32 (x : f64) : Z :=
  match x with
  | S754_zero _ | S754_nan => 0
  | S754_infinity s => if s then - 2 ^ 31 else 2 ^ 31 - 1
  | S754_finite s m e =>
      let k := if (0 <=? e)%Z then Z.shiftl (Zpos m) e else Z.shiftr (Zpos m) (- e) in
      if s then Z.max (- 2 ^ 31) (- k) else Z.min (2 ^ 31 - 1) k
  end%Z.

(** The two files number the same identifiers. *)
Definition uuid_key (u : Experiments.Uuid) : StateMachine.Uuid := Z.to_pos (u + 1).

Definition id_le (a b : Experiments.ExperimentRow) : Prop := (er_id a ≤ er_id b)%Z.
#[export] Instance id_le_dec a b : base.Decision (id_le a b).
Proof. unfold id_le. apply _. Defined.

Definition is_active (row : Experiments.ExperimentRow) : Prop := er_state row = lit "RUNNING" ∨ er_state row = lit "PAUSED".

(** [WHERE state IN ('RUNNING', 'PAUSED') ORDER BY experiment_id]. *)
Definition list_active_experiments (db : gmap Experiments.Uuid Experiments.ExperimentRow) : list Experiments.ExperimentRow :=
  merge_sort id_le (filter is_active (map_to_list db).*2).

Definition get_layer_total_buckets (layers : option Layers) (layer : StateMachine.Uuid) : option Z :=
  t ← layers; total_buckets <$> t !! layer.

Inductive PortfolioError := Internal.

Section rpc.
Context {J Payload : Type} `{JsonValue J} (print_uuid : Experiments.Uuid → str).
Context (iteration : gmap str (list ExperimentInfo) → list (str * list ExperimentInfo)).

(** What each query returns, the ones of an experiment by its place; [None] when it fails. *)
Record Reads := mk_reads
  { r_experiments : option (gmap Experiments.Uuid Experiments.ExperimentRow); r_allocations : nat → option Table;
    r_layers : nat → option Layers; r_variants : nat → option (list (VariantRow (Json:=Payload))) }.

Definition answer {A} (x : option A) : result PortfolioError A := match x with Some a => mret a | None => Err Internal end.

Definition variants_of (id : Experiments.Uuid) (table : list (VariantRow (Json:=Payload))) : list (VariantRow (Json:=Payload)) :=
  merge_sort ordinal_le (filter (λ v, vr_experiment_id v = id) table).

(** The buckets of an experiment: its active allocation, or what its variants' fractions make
    of a thousand. *)
Definition buckets_of (reads : Reads) (i : nat) (exp : Experiments.ExperimentRow) : result PortfolioError (Z * Z * Z) :=
  table ← answer (r_allocations reads i);
  let allocations := list_allocations (uuid_key (er_layer_id exp)) false table in
  match List.find (λ a, bool_decide (BucketReuse.experiment_id a = uuid_key (er_id exp))) allocations with
  | Some a =>
      mret (BucketReuse.start_bucket a, BucketReuse.end_bucket a,
            default 1000%Z (get_layer_total_buckets (r_layers reads i) (uuid_key (er_layer_id exp))))
  | None =>
      rows ← answer (r_variants reads i);
      let total := sum_f64 (vr_traffic_fraction <$> variants_of (er_id exp) rows) in
      mret (0, Z.max (f64_as_i32 (f64_round (f64_mul total (f64_of_Z 1000)))) 1 - 1, 1000)%Z
  end.

Definition info_of (reads : Reads) (ie : nat * Experiments.ExperimentRow) : result PortfolioError ExperimentInfo :=
  let '(i, exp) := ie in
  b ← buckets_of reads i exp;
  let '(start_b, end_b, total) := b in
  mret (mk_info (print_uuid (er_id exp)) (er_name exp) (print_uuid (er_layer_id exp)) (er_primary_metric_id exp)
    (extract_guardrail_ids (type_config_json (J:=J) (er_type_config exp)))
    (match er_targeting_rule_id exp with Some u => print_uuid u | None => [] end) start_b end_b total).

Definition is_requested (layer_filter : str) (row : Experiments.ExperimentRow) : Prop :=
  er_state row = lit "RUNNING" ∧ (layer_filter = [] ∨ print_uuid (er_layer_id row) = layer_filter).

Definition get_portfolio_allocation (reads : Reads) (layer_filter : str) (overrides : gmap str Z) :
    result PortfolioError PortfolioResult :=
  db ← answer (r_experiments reads);
  let running := filter (is_requested layer_filter) (list_active_experiments db) in
  infos ← mapM (info_of reads) (imap pair running);
  map_err (λ _, Internal) (optimize iteration infos overrides).
End rpc.

(** ** The answer *)

Lemma last_insertion_none {J} (kvs : list (str * J)) k : k ∉ kvs.*1 → last_insertion kvs k = None.
Proof.
  induction kvs as [|[k' v] kvs IH]; [done|]. rewrite fmap_cons. intros [Hne Hk]%not_elem_of_cons. cbn. rewrite IH by done. by rewrite decide_False.
Qed.

(** No configuration a creation stores has guardrails where the RPC looks for them. *)
Lemma no_guardrails_stored {J} `{JsonLaws J} c : extract_guardrail_ids (type_config_json (J:=J) c) = [].
Proof.
  unfold extract_guardrail_ids, type_config_json. rewrite get_object, last_insertion_none; [done|]. rewrite !fmap_app. unfold when.
  rewrite !elem_of_app. intros Hin.
  repeat match goal with
    | H : _ ∨ _ |- _ => destruct H
    | H : _ ∈ (match ?x with Some _ => _ | None => _ end).*1 |- _ => destruct x; [apply list_elem_of_singleton in H; discriminate H|by apply not_elem_of_nil in H]
    end.
Qed.

Section answer.
Context {J Payload : Type} `{JsonLaws J} (print_uuid : Experiments.Uuid → str) (print_inj : ∀ u v, print_uuid u = print_uuid v → u = v).
Context (iteration : gmap str (list ExperimentInfo) → list (str * list ExperimentInfo)) (iteration_perm : ∀ m, iteration m ≡ₚ map_to_list m).
Context (db : gmap Experiments.Uuid Experiments.ExperimentRow) (keyed : ∀ id row, db !! id = Some row → er_id row = id).
Context (layer_filter : str).

Definition requested : list Experiments.ExperimentRow := filter (is_requested print_uuid layer_filter) (list_active_experiments db).

Lemma in_requested row : row ∈ requested ↔ db !! er_id row = Some row ∧ is_requested print_uuid layer_filter row.
Proof.
  unfold requested, list_active_experiments. rewrite list_elem_of_filter, merge_sort_Permutation, list_elem_of_filter, list_elem_of_fmap.
  split.
  - intros (Hr & _ & [id row'] & -> & Hin%elem_of_map_to_list). cbn in *. by rewrite (keyed _ _ Hin).
  - intros (Hin & Hr). split_and!; [done|left; apply Hr|]. exists (er_id row, row). split; [done|by apply elem_of_map_to_list].
Qed.

Lemma requested_unique : NoDup (er_id <$> requested).
Proof.
  unfold requested, list_active_experiments. apply NoDup_fmap_2_strong.
  - intros x y [_ Hx]%list_elem_of_filter [_ Hy]%list_elem_of_filter. rewrite merge_sort_Permutation in Hx, Hy.
    apply list_elem_of_filter in Hx as [_ Hx], Hy as [_ Hy]. apply list_elem_of_fmap in Hx as ([i x'] & -> & Hx), Hy as ([j y'] & -> & Hy).
    apply elem_of_map_to_list in Hx, Hy. cbn in *. intros He. pose proof (keyed _ _ Hx). pose proof (keyed _ _ Hy). congruence.
  - apply NoDup_filter. rewrite merge_sort_Permutation. apply NoDup_filter. apply NoDup_fmap_2_strong; [|apply NoDup_map_to_list].
    intros [i x] [j y] Hx%elem_of_map_to_list Hy%elem_of_map_to_list. cbn. intros ->. pose proof (keyed _ _ Hx). pose proof (keyed _ _ Hy). congruence.
Qed.

Lemma mapM_answers {A B} (f : A → result PortfolioError B) l : (∀ x, x ∈ l → ∃ y, f x = Ok y) → ∃ k, mapM f l = Ok k ∧ Forall2 (λ x y, f x = Ok y) l k.
Proof.
  induction l as [|x l IH]; intros Hf; [by exists []|]. destruct (Hf x) as [y Hy]; [by left|]. destruct IH as (k & Hk & Hf2); [intros z Hz; apply Hf; by right|].
  exists (y :: k). cbn. rewrite Hy. cbn. rewrite Hk. split; [done|by constructor].
Qed.

(** The queries answer, and a layer's bucket count is an [i32]. *)
Definition reads_ok (reads : Reads (Payload:=Payload)) : Prop :=
  r_experiments reads = Some db ∧ (∀ i, is_Some (r_allocations reads i)) ∧ (∀ i, is_Some (r_variants reads i)) ∧
  ∀ i layers l row, r_layers reads i = Some layers → layers !! l = Some row → (total_buckets row < 2 ^ 31)%Z.

Lemma info_answers reads i row : reads_ok reads → ∃ info, info_of (J:=J) print_uuid reads (i, row) = Ok info ∧
  experiment_id info = print_uuid (er_id row) ∧ guardrail_metric_ids info = [] ∧ buckets_i32 info ∧
  buckets_of reads i row = Ok (start_bucket info, end_bucket info, layer_total_buckets info).
Proof.
  intros (_ & Ha & Hv & Hl). destruct (Ha i) as [table Ht], (Hv i) as [rows Hr]. unfold info_of, buckets_of. rewrite Ht, Hr. cbn [answer mbind result_bind mret result_ret].
  destruct (List.find _ _) as [a|]; cbn [mbind result_bind mret result_ret]; eexists; (split; [reflexivity|]); cbn; (split_and!; [done|apply no_guardrails_stored| |done]); [|done].
  unfold buckets_i32, get_layer_total_buckets. cbn. destruct (r_layers reads i) as [layers|] eqn:El; [|done]. cbn.
  destruct (layers !! uuid_key (er_layer_id row)) as [r|] eqn:Er; [|done]. by eapply Hl.
Qed.

Lemma infos_answer reads : reads_ok reads → ∃ infos, mapM (info_of (J:=J) print_uuid reads) (imap pair requested) = Ok infos ∧
  length infos = length requested ∧
  ∀ i row, requested !! i = Some row → ∃ info, infos !! i = Some info ∧ experiment_id info = print_uuid (er_id row) ∧ guardrail_metric_ids info = [] ∧
    buckets_i32 info ∧ buckets_of reads i row = Ok (start_bucket info, end_bucket info, layer_total_buckets info).
Proof.
  intros Hok. destruct (mapM_answers (info_of (J:=J) print_uuid reads) (imap pair requested)) as (infos & Hm & Hf).
  { intros [i row] _. destruct (info_answers reads i row Hok) as (info & Hi & _). by exists info. }
  exists infos. split; [done|]. split; [by rewrite <- (Forall2_length _ _ _ Hf), length_imap|]. intros i row Hi.
  assert (imap pair requested !! i = Some (i, row)) as Hp by by rewrite list_lookup_imap, Hi.
  destruct (Forall2_lookup_l _ _ _ _ _ Hf Hp) as (info & Hin & Hinfo). destruct (info_answers reads i row Hok) as (info' & Hi' & Hrest).
  rewrite Hinfo in Hi'. injection Hi' as ->. by exists info'.
Qed.

(** The identifiers are those of the requested rows, in order. *)
Lemma infos_ids infos : length infos = length requested →
  (∀ i row, requested !! i = Some row → ∃ info, infos !! i = Some info ∧ experiment_id info = print_uuid (er_id row)) →
  experiment_id <$> infos = (λ row, print_uuid (er_id row)) <$> requested.
Proof.
  intros Hl Hi. apply list_eq. intros i. rewrite !list_lookup_fmap. destruct (requested !! i) as [row|] eqn:E.
  - destruct (Hi i row E) as (info & -> & He). cbn. by rewrite He.
  - apply lookup_ge_None in E. by rewrite (lookup_ge_None_2 infos i) by lia.
Qed.

(** The portfolio RPC answers when its queries do: with one allocation for each running
    experiment of the requested layer, of the priority the request gives it, whose current
    traffic is computed from the buckets the store holds for it; and although the RPC looks
    for guardrails, no response ever has a guardrail conflict. *)
Theorem portfolio_rpc_correct reads ov : reads_ok reads → (Z.of_nat (length requested) < 2 ^ 28)%Z →
  ∃ out, get_portfolio_allocation (J:=J) print_uuid iteration reads layer_filter ov = Ok out ∧
    (al_id <$> allocations out) ≡ₚ (λ row, print_uuid (er_id row)) <$> requested ∧
    (∀ c, c ∈ conflicts out → conflict_type c ≠ GuardrailMetricOverlap) ∧
    ∀ i row, requested !! i = Some row → ∃ a info, a ∈ allocations out ∧ al_id a = print_uuid (er_id row) ∧
      al_priority a = priority_of ov (print_uuid (er_id row)) ∧
      buckets_of reads i row = Ok (start_bucket info, end_bucket info, layer_total_buckets info) ∧
      current_traffic_fraction a = traffic_fraction info.
Proof.
  intros Hok Hlen. destruct (infos_answer reads Hok) as (infos & Hm & Hl & Hi). unfold get_portfolio_allocation.
  rewrite (proj1 Hok). cbn [answer mbind result_bind mret result_ret]. fold requested. rewrite Hm. cbn [mbind result_bind].
  assert (experiment_id <$> infos = (λ row, print_uuid (er_id row)) <$> requested) as Hids.
  { apply infos_ids; [done|]. intros i row Hr. destruct (Hi i row Hr) as (info & H1 & H2 & _). by exists info. }
  destruct (decide (infos = [])) as [->|Hne].
  { exists (mk_result [] [] (mk_stats 0 f64_zero f64_zero 0 0)). split; [done|]. cbn in Hids. rewrite <- Hids. split_and!; [done|by intros c ?%not_elem_of_nil|].
    intros i row Hr. destruct (Hi i row Hr) as (info & ? & _). done. }
  assert (ids_unique infos) as Hnd.
  { unfold ids_unique. rewrite Hids, (list_fmap_compose er_id print_uuid). apply NoDup_fmap_2_strong; [intros u v _ _; apply print_inj|apply requested_unique]. }
  rewrite (optimize_exact iteration iteration_perm ov infos Hnd) by (unfold countable; rewrite ?Hl; done). cbn [map_err]. eexists. split; [reflexivity|].
  cbn [allocations conflicts]. split_and!.
  - rewrite sort_by_perm, <- list_fmap_compose. change (al_id ∘ expected ov infos) with experiment_id. by rewrite Hids.
  - intros c (i & j & a & b & _ & Ha & _ & (_ & _ & _ & Hc))%detect_conflicts_spec. intros Ht. rewrite Ht in Hc. destruct (conflict_rationale c); [done| |done].
    assert (is_Some (requested !! i)) as [row Hr] by (apply lookup_lt_is_Some; rewrite <- Hl; by eapply lookup_lt_Some).
    destruct (Hi i row Hr) as (info & Hinfo & _ & Hg & _). rewrite Ha in Hinfo. injection Hinfo as <-. rewrite Hg in Hc. by destruct Hc as [?%not_elem_of_nil _].
  - intros i row Hr. destruct (Hi i row Hr) as (info & Hinfo & Hid & _ & _ & Hb). exists (expected ov infos info), info. cbn. rewrite Hid.
    split_and!; [|done|done|done|done]. rewrite sort_by_perm. apply list_elem_of_fmap. exists info. split; [done|by eapply list_elem_of_lookup_2].
Qed.
End answer.

(** ** A witness *)

Definition sample_print (u : Experiments.Uuid) : str := lit (pretty.pretty u).

Lemma sample_print_inj u v : sample_print u = sample_print v → u = v.
Proof.
  unfold sample_print, lit. intros H. apply (inj pretty.pretty). rewrite <- (string_of_list_ascii_of_string (pretty.pretty u)), <- (string_of_list_ascii_of_string (pretty.pretty v)).
  by rewrite H.
Qed.

Definition no_config : TypeConfigJson := mk_type_config None None None None None None None.
Definition sample_row (id : Z) (state : string) : Experiments.ExperimentRow :=
  mk_experiment_row id (lit "e") None (lit "o") (lit "AB") (lit state) 7%Z (lit "watch") [] (lit "AUTO_PAUSE") (lit "s") None false no_config None None None None.
Definition sample_db : gmap Experiments.Uuid Experiments.ExperimentRow := {[1%Z := sample_row 1 "RUNNING"; 2%Z := sample_row 2 "PAUSED"]}.
Definition sample_allocation : BucketReuse.Allocation := BucketReuse.mk_allocation 9 (uuid_key 7%Z) (uuid_key 1%Z) 0 100 (Some 0%Z) None None.
Definition sample_reads : Reads (Payload:=unit) :=
  mk_reads (Some sample_db) (λ _, Some [sample_allocation]) (λ _, Some {[uuid_key 7%Z := mk_layer_row 1000 3600]}) (λ _, Some []).

Lemma sample_db_rows id row : sample_db !! id = Some row → id = 1%Z ∧ row = sample_row 1 "RUNNING" ∨ id = 2%Z ∧ row = sample_row 2 "PAUSED".
Proof. unfold sample_db. rewrite lookup_insert_Some, lookup_singleton_Some. naive_solver. Qed.

Lemma sample_reads_ok : reads_ok sample_db sample_reads.
Proof.
  split_and!; [done|by eexists|by eexists|]. intros i layers l row [= <-] [<- <-]%lookup_singleton_Some. done.
Qed.

Lemma portfolio_rpc_correct_witness : ∃ out,
  get_portfolio_allocation (J:=Document) sample_print map_to_list sample_reads [] ∅ = Ok out ∧
  (al_id <$> allocations out) ≡ₚ [lit "1"].
Proof.
  destruct (portfolio_rpc_correct (J:=Document) sample_print sample_print_inj map_to_list ltac:(intros m; reflexivity) sample_db
    ltac:(intros id row H; destruct (sample_db_rows id row H) as [[-> ->]|[-> ->]]; reflexivity) [] sample_reads ∅ sample_reads_ok) as (out & Ho & Hids & _).
  { vm_compute. reflexivity. }
  exists out. split; [exact Ho|]. rewrite Hids. vm_compute. reflexivity.
Defined.
