(* ===== verification/MetricqlRpc.v ===== *)
(** The MetricQL linting and preview RPCs ([experimentation-management/src/grpc.rs]
    validate_metricql, preview_metric_definition and their helpers): the editor's diagnostics
    with their lines and columns, and the deadline handed on to the metrics service. *)
From Stdlib Require Import Ascii String SpecFloat.
From S2P Require Import Prelude Bytes F64 Ast MetricStore MetricCatalogue Migrator Lexer Parser Grammar ParserSpec Analyze AnalyzeSpec.

(** ** Diagnostics *)

Inductive LintMessage := EmptyExpression | Reported (m : DiagMessage).

Record ProtoSpan := mk_proto_span { start_offset : Z; end_offset : Z; line : Z; column : Z }.

(** [ProtoMetricqlDiagnostic]: severity 1 is an error, 2 a warning. *)
Record ProtoDiagnostic := mk_proto_diagnostic { pd_severity : Z; pd_message : LintMessage; pd_span : ProtoSpan }.

Record LintResponse := mk_lint_response { diagnostics : list ProtoDiagnostic; referenced_metric_ids : list str }.

Definition NL : ascii := Ascii.ascii_of_nat 10.

(** The loop over the bytes, the next one at index [i]. *)
Fixpoint line_col_loop (bytes : str) (i byte_offset : nat) (line col : Z) : Z * Z :=
  match bytes with
  | [] => (line, col)
  | b :: bytes =>
      if byte_offset <=? i then (line, col)
      else if bool_decide (b = NL) then line_col_loop bytes (S i) byte_offset (i32_wrap (line + 1)) 1
      else line_col_loop bytes (S i) byte_offset line (i32_wrap (col + 1))
  end.

Definition line_col_from_byte_offset (source : str) (byte_offset : nat) : Z * Z := line_col_loop source 0 byte_offset 1 1.

Definition severity_number (s : Severity) : Z := match s with SevError => 1 | SevWarning => 2 end.

Definition internal_to_proto_diag (source : str) (d : Diagnostic) : ProtoDiagnostic :=
  let '(line, column) := line_col_from_byte_offset source (sp_start (diag_span d)) in
  mk_proto_diagnostic (severity_number (severity d)) (Reported (message d))
    (mk_proto_span (i32_wrap (Z.of_nat (sp_start (diag_span d)))) (i32_wrap (Z.of_nat (sp_end (diag_span d)))) line column).

(** ** The handlers *)

Section handlers.
(** The collation of the database. *)
Context (id_le : relation str) `{!RelDecision id_le}.

Inductive LintError := CatalogueUnavailable.

Definition empty_diagnostic : ProtoDiagnostic := mk_proto_diagnostic 1 EmptyExpression (mk_proto_span 0 0 1 1).

(** The references to check against: the whole catalogue without an experiment, nothing with
    one. [readable] is whether the query succeeds. *)
Definition global_set (readable : bool) (experiment_id : str) (c : Catalogue) : result LintError AnalyzeContext :=
  if trim_is_empty experiment_id
  then if readable then mret (Some (list_to_set (list_metric_ids id_le c))) else Err CatalogueUnavailable
  else mret None.

Definition rpc_validate_metricql (readable : bool) (experiment_id expression : str) (c : Catalogue) : result LintError LintResponse :=
  if trim_is_empty expression then mret (mk_lint_response [empty_diagnostic] [])
  else
    ctx ← global_set readable experiment_id c;
    match validate_metricql expression ctx with
    | Ok refs => mret (mk_lint_response [] refs)
    | Err diags => mret (mk_lint_response (internal_to_proto_diag expression <$> diags) [])
    | Panics => Panics
    | OutOfFuel => OutOfFuel
    end.
End handlers.

(** A [Duration], in nanoseconds. *)
Definition parse_grpc_timeout (value : str) : option Z :=
  let cut := length value - 1 in
  n ← parse_u64 (take cut value);
  match drop cut value with
  | [unit] =>
      if is_byte "H" unit then from_secs <$> checked_mul_u64 n 3600
      else if is_byte "M" unit then from_secs <$> checked_mul_u64 n 60
      else if is_byte "S" unit then Some (from_secs n)
      else if is_byte "m" unit then Some (n * 10 ^ 6)%Z
      else if is_byte "u" unit then Some (n * 10 ^ 3)%Z
      else if is_byte "n" unit then Some n
      else None
  | _ => None
  end.

Section preview.
(** The metrics service's answer to an experiment id and an expression within a deadline. *)
Context {Status Diagnostics : Type} (compile_metricql_preview : Z → str → str → sum Status (str * Diagnostics)).

Inductive PreviewError := ExpressionRequired | Upstream (s : Status).

(** [header] is the caller's grpc-timeout, when it is one of visible ASCII. *)
Definition preview_metric_definition (header : option str) (experiment_id expression : str) : result PreviewError (str * Diagnostics) :=
  _ ← reject_if (trim_is_empty expression) ExpressionRequired;
  let timeout := default (from_secs 5) (header ≫= parse_grpc_timeout) in
  match compile_metricql_preview timeout experiment_id expression with
  | inl s => Err (Upstream s)
  | inr answer => mret answer
  end.
End preview.

(** ** Positions *)

(** The line and the column, from 1, of the byte after [before]. *)
Definition position (before : str) (line column : Z) : Prop :=
  ∃ lines rest, before = lines ++ rest ∧ (lines = [] ∨ last lines = Some NL) ∧ NL ∉ rest ∧
    line = (1 + Z.of_nat (length (filter (.= NL) before)))%Z ∧ column = (1 + Z.of_nat (length rest))%Z.

Lemma line_col_loop_position bytes : ∀ i offset before line col, position before line col →
  (Z.of_nat (length (before ++ bytes)) < 2 ^ 31 - 1)%Z →
  let '(line', col') := line_col_loop bytes i offset line col in position (before ++ take (offset - i) bytes) line' col'.
Proof.
  induction bytes as [|b bytes IH]; intros i offset before line col Hp Hlen; cbn [line_col_loop]; [by rewrite take_nil, app_nil_r|].
  destruct (Nat.leb_spec offset i) as [Hi|Hi]; [by rewrite (proj2 (Nat.sub_0_le _ _) Hi), app_nil_r|].
  replace (offset - i) with (S (offset - S i)) by lia. cbn [firstn take]. rewrite (assoc_L app before [b]) || rewrite cons_middle, app_assoc.
  destruct Hp as (lines & rest & -> & Hl & Hn & -> & ->). rewrite cons_middle, !app_assoc, !length_app in Hlen. cbn [length] in Hlen.
  pose proof (length_filter (.= NL) (lines ++ rest)) as Hf. rewrite length_app in Hf.
  case_bool_decide as Hb; apply IH; try (rewrite !length_app; cbn [length]; lia).
  - exists ((lines ++ rest) ++ [b]), []. rewrite app_nil_r. split_and!; [done| |by apply not_elem_of_nil| |done].
    + right. by rewrite last_snoc, Hb.
    + rewrite i32_wrap_small by (rewrite ?length_app in Hf; lia). rewrite (filter_app _ (lines ++ rest) [b]), length_app, (filter_cons_True _ b []) by done. cbn. lia.
  - exists lines, (rest ++ [b]). rewrite app_assoc. split_and!; [done|done| | |].
    + rewrite elem_of_app, list_elem_of_singleton. naive_solver.
    + rewrite (filter_app _ (lines ++ rest) [b]), length_app, (filter_cons_False _ b []) by done. cbn. lia.
    + rewrite length_app, i32_wrap_small by lia. cbn. lia.
Qed.

Lemma line_col_position source offset : (Z.of_nat (length source) < 2 ^ 31 - 1)%Z →
  let '(line, col) := line_col_from_byte_offset source offset in position (take offset source) line col.
Proof.
  intros Hlen. pose proof (line_col_loop_position source 0 offset [] 1 1) as H. rewrite Nat.sub_0_r in H. apply H; [|done].
  exists [], []. split_and!; [done|by left|by apply not_elem_of_nil|done..].
Qed.

(** ** Linting *)

Section lint.
Context (id_le : relation str) `{!RelDecision id_le}.
Abbreviation lint := (rpc_validate_metricql id_le).

Definition scope (experiment_id : str) (c : Catalogue) : AnalyzeContext :=
  if trim_is_empty experiment_id then Some (dom (definitions c)) else None.

Lemma global_set_scope experiment_id c : global_set id_le true experiment_id c = Ok (scope experiment_id c).
Proof.
  unfold global_set, scope. destruct (trim_is_empty experiment_id); [|done]. cbn. do 2 f_equal. apply set_eq. intros x.
  unfold list_metric_ids. rewrite elem_of_list_to_set, merge_sort_Permutation, elem_of_dom. split.
  - intros ([k v] & -> & Hin%elem_of_map_to_list)%list_elem_of_fmap. by exists v.
  - intros [v Hv]. apply list_elem_of_fmap. exists (x, v). split; [done|by apply elem_of_map_to_list].
Qed.

(** The diagnostic sits at [span]: its line and column are those of the span's start. *)
Definition at_span (expression : str) (sp : Span) (d : ProtoDiagnostic) : Prop :=
  start_offset (pd_span d) = i32_wrap (Z.of_nat (sp_start sp)) ∧ end_offset (pd_span d) = i32_wrap (Z.of_nat (sp_end sp)) ∧
  position (take (sp_start sp) expression) (line (pd_span d)) (column (pd_span d)).

Lemma proto_diag_at expression d : (Z.of_nat (length expression) < 2 ^ 31 - 1)%Z → at_span expression (diag_span d) (internal_to_proto_diag expression d).
Proof.
  intros Hlen. pose proof (line_col_position expression (sp_start (diag_span d)) Hlen) as Hp. unfold internal_to_proto_diag.
  by destruct (line_col_from_byte_offset _ _).
Qed.

Lemma proto_diag_message expression d : pd_message (internal_to_proto_diag expression d) = Reported (message d).
Proof. unfold internal_to_proto_diag. by destruct (line_col_from_byte_offset _ _). Qed.

(** What the validator answers, in terms of the parser. *)
Lemma lint_cases src ctx : valid_utf8 src = true →
  (∃ n, parse src = Ok n ∧ analyze n ctx = [] ∧ validate_metricql src ctx = Ok (extract_metric_refs n)) ∨
  (∃ diags, diags ≠ [] ∧ validate_metricql src ctx = Err diags ∧ Forall (λ d, severity d = SevError) diags ∧
     ∀ n, parse src = Ok n → diags = analyze n ctx).
Proof.
  intros Hv. pose proof (parse_returns src Hv) as Hr. destruct (tokenize src) as [ts|e| |] eqn:Ht.
  - pose proof (parse_as_tokens _ _ Ht) as Hts. destruct (parse src) as [n|e| |] eqn:Hp; try done; symmetry in Hts.
    + rewrite (validate_unfold _ ctx _ _ Ht Hts). case_bool_decide; [left; eauto|]. right. exists (analyze n ctx). split_and!; [done..| |by intros ? [= <-]].
      eapply Forall_impl; [by eapply analyze_wf, parse_wf|]. by intros d [? _].
    + right. unfold validate_metricql. rewrite Ht. cbn. rewrite Hts. cbn. eexists. split_and!; [|done| |]; [done|by repeat constructor|done].
  - right. unfold validate_metricql, parse. rewrite Ht. cbn. eexists. split_and!; [|done| |]; [done|by repeat constructor|done].
  - unfold parse in Hr. by rewrite Ht in Hr.
  - unfold parse in Hr. by rewrite Ht in Hr.
Qed.

Lemma wf_refs n m : node_wf n → m ∈ node_refs n → identifier_re (mr_id m) = true.
Proof. induction n; cbn; rewrite ?elem_of_app, ?elem_of_cons, ?elem_of_nil; naive_solver. Qed.

Lemma unknown_reported ctx m n : is_bare n = false → m ∈ node_refs n → identifier_re (mr_id m) = true → ctx ≠ None →
  (∀ known, ctx = Some known → mr_id m ∉ known) → error (mr_span m) (UnknownMetricRef (mr_id m)) ∈ analyze n ctx.
Proof.
  intros Hb Hm Hid Hc Hk. rewrite analyze_parts by done. rewrite list_elem_of_In, in_flat_map. exists (inr m). split.
  - rewrite <- list_elem_of_In. clear Hb. induction n; cbn in *; rewrite ?elem_of_app, ?elem_of_cons, ?elem_of_nil in *; naive_solver.
  - cbn. unfold ref_diags, analyze_metric_ref. rewrite Hid. cbn. destruct ctx as [known|]; [|done].
    rewrite bool_decide_false by (by apply Hk). cbn. by left.
Qed.

(** Linting answers every expression that is not blank, and reports nothing exactly when
    the expression parses to a tree that is semantically correct in its scope: the whole
    catalogue without an experiment, no references checked with one; the answer then lists
    the tree's references, and otherwise none. Every diagnostic has the line and the column
    of the span it is about; in the global scope each reference that the catalogue lacks is
    reported at its own span. *)
Theorem lint_correct experiment_id expression c : valid_utf8 expression = true → (Z.of_nat (length expression) < 2 ^ 31 - 1)%Z →
  trim_is_empty expression = false →
  ∃ answer, lint true experiment_id expression c = Ok answer ∧
  (diagnostics answer = [] ↔ ∃ n, parse expression = Ok n ∧ semantically_ok (scope experiment_id c) n) ∧
  (∀ x, x ∈ referenced_metric_ids answer ↔ diagnostics answer = [] ∧ ∃ n, parse expression = Ok n ∧ x ∈ mr_id <$> node_refs n) ∧
  Forall (λ d, pd_severity d = 1%Z ∧ ∃ sp, at_span expression sp d) (diagnostics answer) ∧
  ∀ n m, parse expression = Ok n → is_bare n = false → m ∈ node_refs n → trim_is_empty experiment_id = true → definitions c !! mr_id m = None →
    ∃ d, d ∈ diagnostics answer ∧ pd_message d = Reported (UnknownMetricRef (mr_id m)) ∧ at_span expression (mr_span m) d.
Proof.
  intros Hv Hlen Hb. unfold rpc_validate_metricql. rewrite Hb, global_set_scope. cbn [mbind result_bind].
  destruct (lint_cases expression (scope experiment_id c) Hv) as [(n & Hn & Ha & ->)|(diags & Hne & -> & Hs & Hd)].
  - eexists. split; [reflexivity|]. cbn [diagnostics referenced_metric_ids]. split_and!.
    + split; [|done]. intros _. exists n. split; [done|by apply analyze_nil].
    + intros x. rewrite extract_metric_refs_elem. split; [eauto|]. intros (_ & n' & Hn' & Hx). congruence.
    + constructor.
    + intros n' m Hn' Hbare Hm He Hc. rewrite Hn in Hn'. injection Hn' as <-. apply analyze_nil in Ha as (_ & _ & Hr).
      rewrite Forall_forall in Hr. destruct (Hr m Hm) as [_ Hk]. unfold scope in Hk. rewrite He in Hk. apply elem_of_dom in Hk as [? Hk]. congruence.
  - eexists. split; [reflexivity|]. cbn [diagnostics referenced_metric_ids]. split_and!.
    + split; [intros Hnil; by destruct diags|]. intros (n & Hn & Hok%analyze_nil). by rewrite (Hd n Hn) in Hne.
    + intros x. split; [by intros ?%not_elem_of_nil|]. intros (Hnil & _). by destruct diags.
    + apply Forall_fmap, Forall_forall. intros d Hin. split; [|exists (diag_span d); by apply proto_diag_at].
      rewrite Forall_forall in Hs. unfold internal_to_proto_diag. destruct (line_col_from_byte_offset _ _) as [l k]. cbn. by rewrite (Hs d Hin).
    + intros n m Hn Hbare Hm He Hc. exists (internal_to_proto_diag expression (error (mr_span m) (UnknownMetricRef (mr_id m)))). split_and!.
      * apply list_elem_of_fmap_2. rewrite (Hd n Hn). apply unknown_reported; try done.
        -- eapply wf_refs; [by eapply parse_wf|done].
        -- unfold scope. by rewrite He.
        -- unfold scope. rewrite He. intros ? [= <-]. by rewrite not_elem_of_dom.
      * apply proto_diag_message.
      * by apply (proto_diag_at expression (error (mr_span m) _)).
Qed.
End lint.

(** ** Deadlines *)

(** A deadline in milliseconds is handed on as it is; one that is missing, malformed or
    overflows becomes five seconds. *)
Lemma deadline_milliseconds ds : parse_grpc_timeout (ds ++ lit "m") = (λ n, n * 10 ^ 6)%Z <$> parse_u64 ds.
Proof.
  unfold parse_grpc_timeout. rewrite length_app. cbn [length lit]. rewrite Nat.add_sub, take_app_length, drop_app_length.
  by destruct (parse_u64 ds).
Qed.

Lemma deadline_overflow : parse_grpc_timeout (lit "99999999999999999H") = None.
Proof. reflexivity. Qed.

(** ** Examples *)

Definition no_metrics : Catalogue := mk_catalogue ∅ [].

Lemma sample_lint_tree :
  ∃ n, parse (lit "2" ++ NL :: lit " * @missing") = Ok n ∧ is_bare n = false ∧
    node_refs n = [mk_metric_ref (lit "missing") (mk_span 5 13)].
Proof. eexists. split; [vm_compute; reflexivity|]. split; vm_compute; reflexivity. Qed.

Lemma lint_correct_witness :
  let src := lit "2" ++ NL :: lit " * @missing" in
  ∃ answer d, rpc_validate_metricql str_le true [] src no_metrics = Ok answer ∧ d ∈ diagnostics answer ∧
    pd_message d = Reported (UnknownMetricRef (lit "missing")) ∧ line (pd_span d) = 2%Z ∧ column (pd_span d) = 4%Z.
Proof.
  destruct (lint_correct str_le [] (lit "2" ++ NL :: lit " * @missing") no_metrics eq_refl ltac:(vm_compute; reflexivity) eq_refl)
    as (answer & Ha & _ & _ & _ & Hm).
  destruct sample_lint_tree as (n & Hn & Hbare & Hrefs).
  destruct (Hm n (mk_metric_ref (lit "missing") (mk_span 5 13)) Hn Hbare ltac:(rewrite Hrefs; by left) eq_refl eq_refl) as (d & Hd & Hmsg & _).
  exists answer, d. vm_compute in Ha. injection Ha as <-. cbn [diagnostics] in Hd. apply list_elem_of_singleton in Hd as Hd'.
  split_and!; [reflexivity|exact Hd|exact Hmsg|by rewrite Hd'..].
Defined.
