(* ===== verification/DeltaReader.v ===== *)
(** The readers of the analysis service ([experimentation-analysis/src/delta_reader.rs]): from
    the record batches of a Delta table, filtered by experiment, to the inputs of the
    statistics. A column is the list of its cells, a cell its validity and its value; opening
    a table is an input. The hash maps of the code are finite maps; where the code iterates
    over one, the order is an argument. *)
From Stdlib Require Import Ascii String SpecFloat.
From S2P Require Import Prelude Bytes F64.

(** ** Record batches *)

Abbreviation Cells A := (list (bool * A)).

Inductive Column :=
| StringArray (cells : Cells str) | Float64Array (cells : Cells f64) | Int64Array (cells : Cells Z) | Date32Array (cells : Cells Z)
| MapArray (cells : list (Column * Column)).

Record Batch := mk_batch { columns : gmap str Column; num_rows : nat }.

Inductive ReadError :=
| TableNotFound | MissingColumn (name : str) | WrongType (name : str) | NoData (experiment_id : str) | FewVariants (experiment_id : str) (n : nat)
| NoControl (experiment_id : str) | NoTreatment (experiment_id : str) | NoTreatedUnit (experiment_id : str)
| ManyTreatedUnits (experiment_id : str) (n : nat) | NoDonors (experiment_id : str).

Abbreviation reading := (result ReadError).

Definition column_by_name (b : Batch) (name : str) : reading Column :=
  match columns b !! name with Some c => mret c | None => Err (MissingColumn name) end.

Definition downcast_string (b : Batch) (name : str) : reading (Cells str) :=
  c ← column_by_name b name; match c with StringArray l => mret l | _ => Err (WrongType name) end.
Definition downcast_f64 (b : Batch) (name : str) : reading (Cells f64) :=
  c ← column_by_name b name; match c with Float64Array l => mret l | _ => Err (WrongType name) end.
Definition downcast_i64 (b : Batch) (name : str) : reading (Cells Z) :=
  c ← column_by_name b name; match c with Int64Array l => mret l | _ => Err (WrongType name) end.
Definition downcast_date (b : Batch) (name : str) : reading (Cells Z) :=
  c ← column_by_name b name; match c with Date32Array l => mret l | _ => Err (WrongType name) end.
Definition downcast_map (b : Batch) (name : str) : reading (list (Column * Column)) :=
  c ← column_by_name b name; match c with MapArray l => mret l | _ => Err (WrongType name) end.

(** A column that older tables may lack, or have of another type. *)
Definition optional_string (b : Batch) (name : str) : option (Cells str) :=
  match columns b !! name with Some (StringArray l) => Some l | _ => None end.
Definition optional_f64 (b : Batch) (name : str) : option (Cells f64) :=
  match columns b !! name with Some (Float64Array l) => Some l | _ => None end.

(** An index past the end panics; the value of a null is what its slot holds. *)
Definition at_index {A} (l : list A) (i : nat) : reading A := match l !! i with Some a => mret a | None => Panics end.
Definition value {A} (l : Cells A) (i : nat) : reading A := match l !! i with Some (_, x) => mret x | None => Panics end.
Definition nullable {A} (l : Cells A) (i : nat) : reading (option A) := 
  match (l !! i : option (bool * A)) with Some (valid, x) => mret (if valid then Some x else None) | None => Panics end.
Definition nullable_opt {A} (l : option (Cells A)) (i : nat) : reading (option A) :=
  match l with Some l => nullable l i | None => mret None end.

(** The loop over the rows [idx] of a batch: those of other experiments are skipped. *)
Fixpoint rows_loop {S : Type} (exp : Cells str) (experiment_id : str) (step : nat → S → reading S) (idx : list nat) (s : S) : reading S :=
  match idx with
  | [] => mret s
  | i :: idx =>
      e ← nullable exp i;
      s ← (if bool_decide (e = Some experiment_id) then step i s else mret s);
      rows_loop exp experiment_id step idx s
  end.

Definition for_rows {S : Type} (b : Batch) (experiment_id : str) (exp : Cells str) (step : nat → S → reading S) (s : S) : reading S :=
  rows_loop exp experiment_id step (seq 0 (num_rows b)) s.

Fixpoint for_batches {S : Type} (step : Batch → S → reading S) (bs : list Batch) (s : S) : reading S :=
  match bs with [] => mret s | b :: bs => s ← step b s; for_batches step bs s end.

Definition opened (table : option (list Batch)) : reading (list Batch) :=
  match table with Some bs => mret bs | None => Err TableNotFound end.

(** ** Grouping *)

Section entries.
Context {A B : Type}.
(** [entry(k).or_default().push(x)], and an operation on the entry's map. *)
Definition entry_push (k : str) (x : A) (m : gmap str (list A)) : gmap str (list A) := <[k := default [] (m !! k) ++ [x]]> m.
Definition entry_with (k : str) (f : gmap str B → gmap str B) (m : gmap str (gmap str B)) : gmap str (gmap str B) :=
  <[k := f (default ∅ (m !! k))]> m.
End entries.

(** ** content_consumption *)

Record ConsumptionRow := mk_consumption_row
  { c_variant_id : str; c_content_id : str; c_watch_time_seconds : f64; c_view_count : Z; c_unique_viewers : Z }.

Record ContentConsumption := mk_content { content_id : str; watch_time_seconds : f64; view_count : Z; unique_viewers : Z }.

Record InterferenceInput := mk_interference_input
  { treatment : list ContentConsumption; control : list ContentConsumption; total_treatment_viewers : Z; total_control_viewers : Z }.

Definition u64_wrap (x : Z) : Z := (x mod 2 ^ 64)%Z.
Definition u32_of (x : Z) : Z := (x mod 2 ^ 32)%Z.

Definition extract_batch (experiment_id : str) (b : Batch) (rows : list ConsumptionRow) : reading (list ConsumptionRow) :=
  exp_arr ← downcast_string b (lit "experiment_id");
  variant_arr ← downcast_string b (lit "variant_id");
  content_arr ← downcast_string b (lit "content_id");
  watch_arr ← downcast_f64 b (lit "watch_time_seconds");
  view_arr ← downcast_i64 b (lit "view_count");
  viewer_arr ← downcast_i64 b (lit "unique_viewers");
  for_rows b experiment_id exp_arr (λ i rows,
    variant ← value variant_arr i;
    content ← value content_arr i;
    watch ← value watch_arr i;
    views ← value view_arr i;
    viewers ← value viewer_arr i;
    mret (rows ++ [mk_consumption_row variant content watch (u64_wrap views) (u64_wrap viewers)])) rows.

Definition extract_rows (experiment_id : str) (bs : list Batch) : reading (list ConsumptionRow) :=
  for_batches (extract_batch experiment_id) bs [].

Definition consumption_of (r : ConsumptionRow) : ContentConsumption :=
  mk_content (c_content_id r) (c_watch_time_seconds r) (c_view_count r) (c_unique_viewers r).

Definition by_variant (rows : list ConsumptionRow) : gmap str (list ConsumptionRow) :=
  fold_left (λ m r, entry_push (c_variant_id r) r m) rows ∅.

(** The least key of a non-empty map. *)
Definition first_key {A} (m : gmap str A) : reading str := at_index (sort_strs (map_to_list m).*1) 0.

(** [sum] on [u64]. *)
Definition u64_sum (l : list Z) : Z := fold_left (λ acc x, u64_wrap (acc + x)) l 0%Z.

Section readers.
(** The iteration orders of the hash maps. *)
Context (iter_variants : gmap str (list ConsumptionRow) → list (str * list ConsumptionRow)).
Context (iter_metrics : gmap str (list (Z * f64 * Z)) → list (str * list (Z * f64 * Z))).

Definition build_interference_input (rows : list ConsumptionRow) (experiment_id : str) : reading InterferenceInput :=
  let groups := by_variant rows in
  _ ← reject_if (size groups <? 2) (FewVariants experiment_id (size groups));
  control_variant ← (match groups !! lit "control" with Some _ => mret (lit "control") | None => first_key groups end);
  let control := consumption_of <$> default [] (groups !! control_variant) in
  let treatment := flat_map (λ vr, consumption_of <$> vr.2) (iter_variants (delete control_variant groups)) in
  let total_control_viewers := u64_sum (unique_viewers <$> control) in
  let total_treatment_viewers := u64_sum (unique_viewers <$> treatment) in
  _ ← reject_if (bool_decide (control = [])) (NoControl experiment_id);
  _ ← reject_if (bool_decide (treatment = [])) (NoTreatment experiment_id);
  mret (mk_interference_input treatment control total_treatment_viewers total_control_viewers).

Definition read_content_consumption (table : option (list Batch)) (experiment_id : str) : reading InterferenceInput :=
  bs ← opened table;
  rows ← extract_rows experiment_id bs;
  _ ← reject_if (bool_decide (rows = [])) (NoData experiment_id);
  build_interference_input rows experiment_id.

(** ** metric_summaries *)

Record ExperimentMetrics := mk_experiment_metrics
  { metrics : gmap str (gmap str (list (f64 * option f64))); variant_user_counts : gmap str nat;
    segment_data : gmap str (gmap str (gmap str (list f64))); session_data : gmap str (list (f64 * str * str));
    ipw_data : gmap str (list (f64 * str * f64)) }.

(** The variables of the loop. *)
Record Summaries := mk_summaries
  { s_metrics : gmap str (gmap str (list (f64 * option f64))); s_segments : gmap str (gmap str (gmap str (list f64)));
    s_sessions : gmap str (list (f64 * str * str)); s_ipw : gmap str (list (f64 * str * f64));
    s_users : gmap str (gset str); s_found : bool }.

Definition no_summaries : Summaries := mk_summaries ∅ ∅ ∅ ∅ ∅ false.

(** What a row adds. *)
Definition add_summary (variant user metric : str) (v : f64) (covariate : option f64) (segment session : option str) (probability : option f64)
    (s : Summaries) : Summaries :=
  mk_summaries
    (entry_with metric (entry_push variant (v, covariate)) (s_metrics s))
    (match segment with Some seg => entry_with metric (entry_with seg (entry_push variant v)) (s_segments s) | None => s_segments s end)
    (match session with Some _ => entry_push metric (v, user, variant) (s_sessions s) | None => s_sessions s end)
    (match probability with Some p => entry_push metric (v, variant, p) (s_ipw s) | None => s_ipw s end)
    (<[variant := {[user]} ∪ default ∅ (s_users s !! variant)]> (s_users s)) true.

Definition summaries_batch (experiment_id : str) (b : Batch) (s : Summaries) : reading Summaries :=
  exp_arr ← downcast_string b (lit "experiment_id");
  user_arr ← downcast_string b (lit "user_id");
  variant_arr ← downcast_string b (lit "variant_id");
  metric_arr ← downcast_string b (lit "metric_id");
  value_arr ← downcast_f64 b (lit "metric_value");
  cov_arr ← downcast_f64 b (lit "cuped_covariate");
  let segment_arr := optional_string b (lit "lifecycle_segment") in
  let session_arr := optional_string b (lit "session_id") in
  let prob_arr := optional_f64 b (lit "assignment_probability") in
  for_rows b experiment_id exp_arr (λ i s,
    variant ← value variant_arr i;
    metric ← value metric_arr i;
    v ← value value_arr i;
    covariate ← nullable cov_arr i;
    user ← value user_arr i;
    segment ← nullable_opt segment_arr i;
    session ← nullable_opt session_arr i;
    probability ← nullable_opt prob_arr i;
    mret (add_summary variant user metric v covariate segment session probability s)) s.

Definition read_metric_summaries (table : option (list Batch)) (experiment_id : str) : reading ExperimentMetrics :=
  bs ← opened table;
  s ← for_batches (summaries_batch experiment_id) bs no_summaries;
  _ ← reject_if (negb (s_found s)) (NoData experiment_id);
  mret (mk_experiment_metrics (s_metrics s) (size <$> s_users s) (s_segments s) (s_sessions s) (s_ipw s)).

(** ** interleaving_scores *)

Record InterleavingScore := mk_interleaving_score
  { user_id : str; algorithm_scores : gmap str f64; winning_algorithm_id : option str; total_engagements : Z }.

(** The entries of a row's map, inserted in turn. *)
Fixpoint scores_loop (keys : Cells str) (values : Cells f64) (idx : list nat) (m : gmap str f64) : reading (gmap str f64) :=
  match idx with
  | [] => mret m
  | j :: idx => k ← value keys j; v ← value values j; scores_loop keys values idx (<[k := v]> m)
  end.

Definition algo_scores (entries : Column * Column) : reading (gmap str f64) :=
  keys ← (match entries.1 with StringArray l => mret l | _ => Err (WrongType (lit "map keys")) end);
  values ← (match entries.2 with Float64Array l => mret l | _ => Err (WrongType (lit "map values")) end);
  scores_loop keys values (seq 0 (length keys)) ∅.

Definition scores_batch (experiment_id : str) (b : Batch) (scores : list InterleavingScore) : reading (list InterleavingScore) :=
  exp_arr ← downcast_string b (lit "experiment_id");
  user_arr ← downcast_string b (lit "user_id");
  map_arr ← downcast_map b (lit "algorithm_scores");
  winner_arr ← downcast_string b (lit "winning_algorithm_id");
  eng_arr ← downcast_i64 b (lit "total_engagements");
  for_rows b experiment_id exp_arr (λ i scores,
    entries ← at_index map_arr i;
    algo ← algo_scores entries;
    winning ← nullable winner_arr i;
    user ← value user_arr i;
    eng ← value eng_arr i;
    mret (scores ++ [mk_interleaving_score user algo winning (u32_of eng)])) scores.

Definition read_interleaving_scores (table : option (list Batch)) (experiment_id : str) : reading (list InterleavingScore) :=
  bs ← opened table;
  scores ← for_batches (scores_batch experiment_id) bs [];
  _ ← reject_if (bool_decide (scores = [])) (NoData experiment_id);
  mret scores.

(** ** daily_treatment_effects *)

Record DailyEffect := mk_daily_effect { day : Z; effect : f64; sample_size : Z }.

(** [Iterator::max_by_key]: the last of the elements with the greatest key. *)
Definition max_by_key {A} (key : A → nat) (l : list A) : option A :=
  fold_left (λ best x, match best with None => Some x | Some b => if key x <? key b then Some b else Some x end) l None.

Definition effects_batch (experiment_id : str) (b : Batch) (by_metric : gmap str (list (Z * f64 * Z))) : reading (gmap str (list (Z * f64 * Z))) :=
  exp_arr ← downcast_string b (lit "experiment_id");
  metric_arr ← downcast_string b (lit "metric_id");
  date_arr ← downcast_date b (lit "effect_date");
  effect_arr ← downcast_f64 b (lit "absolute_effect");
  size_arr ← downcast_i64 b (lit "sample_size");
  for_rows b experiment_id exp_arr (λ i by_metric,
    metric ← value metric_arr i;
    date ← value date_arr i;
    e ← value effect_arr i;
    n ← value size_arr i;
    mret (entry_push metric (date, e, u64_wrap n) by_metric)) by_metric.

Definition by_date (a b : Z * f64 * Z) : bool := (a.1.1 <=? b.1.1)%Z.

Definition daily_effect (min_date : Z) (r : Z * f64 * Z) : DailyEffect :=
  let '(date, e, n) := r in mk_daily_effect (u32_of (i32_wrap (date - min_date))) e n.

Definition read_daily_treatment_effects (table : option (list Batch)) (experiment_id : str) : reading (str * list DailyEffect) :=
  bs ← opened table;
  by_metric ← for_batches (effects_batch experiment_id) bs ∅;
  _ ← reject_if (bool_decide (by_metric = ∅)) (NoData experiment_id);
  match max_by_key (λ kv, length kv.2) (iter_metrics by_metric) with
  | None => Panics
  | Some (best_metric, rows) =>
      let rows := sort_by by_date rows in
      first ← at_index rows 0;
      mret (best_metric, daily_effect first.1.1 <$> rows)
  end.

(** ** switchback_periods *)

Record BlockOutcome := mk_block_outcome
  { block_index : Z; cluster_id : str; is_treatment : bool; metric_value : f64; user_count : Z; in_washout : bool }.

Definition periods_batch (experiment_id : str) (b : Batch) (by_metric : gmap str (list (Z * (f64 * bool)))) : reading (gmap str (list (Z * (f64 * bool)))) :=
  exp_arr ← downcast_string b (lit "experiment_id");
  metric_arr ← downcast_string b (lit "metric_id");
  period_arr ← downcast_i64 b (lit "period_id");
  value_arr ← downcast_f64 b (lit "value");
  treatment_arr ← downcast_i64 b (lit "is_treatment");
  for_rows b experiment_id exp_arr (λ i by_metric,
    metric ← value metric_arr i;
    period ← value period_arr i;
    v ← value value_arr i;
    t ← value treatment_arr i;
    mret (entry_push metric (period, (v, negb (t =? 0)%Z)) by_metric)) by_metric.

Definition by_period {A} (a b : Z * A) : bool := (a.1 <=? b.1)%Z.

Definition block_of (i : nat) (r : Z * (f64 * bool)) : BlockOutcome := mk_block_outcome (Z.of_nat i) (lit "global") r.2.2 r.2.1 0 false.

Definition read_switchback_periods (table : option (list Batch)) (experiment_id : str) : reading (list BlockOutcome) :=
  bs ← opened table;
  by_metric ← for_batches (periods_batch experiment_id) bs ∅;
  _ ← reject_if (bool_decide (by_metric = ∅)) (NoData experiment_id);
  first_metric ← first_key by_metric;
  match by_metric !! first_metric with
  | None => Panics
  | Some rows => mret (imap block_of (sort_by by_period rows))
  end.

(** ** synthetic_control_panel *)

Record SyntheticControlInput := mk_synthetic
  { treated_unit : str; treated_series : list f64; donors : list (str * list f64); pre_periods : nat; alpha : f64 }.

Record UnitData := mk_unit { is_treated : bool; pre : list (Z * f64); post : list (Z * f64) }.

(** A row's observation. The unit is treated if its last row says so. *)
Definition observe (treated is_post : bool) (x : Z * f64) (u : UnitData) : UnitData :=
  if is_post then mk_unit treated (pre u) (post u ++ [x]) else mk_unit treated (pre u ++ [x]) (post u).

Definition panel_batch (experiment_id : str) (b : Batch) (by_metric : gmap str (gmap str UnitData)) : reading (gmap str (gmap str UnitData)) :=
  exp_arr ← downcast_string b (lit "experiment_id");
  metric_arr ← downcast_string b (lit "metric_id");
  unit_arr ← downcast_string b (lit "unit_id");
  period_arr ← downcast_i64 b (lit "period");
  value_arr ← downcast_f64 b (lit "value");
  treated_arr ← downcast_i64 b (lit "is_treated_unit");
  post_arr ← downcast_i64 b (lit "is_post_treatment");
  for_rows b experiment_id exp_arr (λ i by_metric,
    metric ← value metric_arr i;
    unit_name ← value unit_arr i;
    period ← value period_arr i;
    v ← value value_arr i;
    treated ← value treated_arr i;
    is_post ← value post_arr i;
    let treated := negb (treated =? 0)%Z in
    let is_post := negb (is_post =? 0)%Z in
    mret (entry_with metric (λ units, <[unit_name := observe treated is_post (period, v) (default (mk_unit treated [] []) (units !! unit_name))]> units)
            by_metric)) by_metric.

(** The split of the units in the order of their names. *)
Record Split := mk_split { treated_map : list (Z * f64) * list (Z * f64); donor_series : list (str * (list f64 * list f64)); n_treated : nat }.

Definition split_unit (s : Split) (iu : str * UnitData) : Split :=
  let pre := sort_by by_period (pre iu.2) in
  let post := sort_by by_period (post iu.2) in
  if is_treated iu.2 then mk_split (pre, post) (donor_series s) (S (n_treated s))
  else mk_split (treated_map s) (donor_series s ++ [(iu.1, (pre.*2, post.*2))]) (n_treated s).

Definition by_name {A} (a b : str * A) : bool := bool_decide (str_le a.1 b.1).

Definition read_synthetic_control_panel (table : option (list Batch)) (experiment_id : str) : reading SyntheticControlInput :=
  bs ← opened table;
  by_metric ← for_batches (panel_batch experiment_id) bs ∅;
  _ ← reject_if (bool_decide (by_metric = ∅)) (NoData experiment_id);
  first_metric ← first_key by_metric;
  match by_metric !! first_metric with
  | None => Panics
  | Some units =>
      let sorted_units := sort_by by_name (map_to_list units) in
      let s := fold_left split_unit sorted_units (mk_split ([], []) [] 0) in
      _ ← reject_if (n_treated s =? 0) (NoTreatedUnit experiment_id);
      _ ← reject_if (1 <? n_treated s) (ManyTreatedUnits experiment_id (n_treated s));
      _ ← reject_if (bool_decide (donor_series s = [])) (NoDonors experiment_id);
      let treated_pre := (treated_map s).1.*2 in
      mret (mk_synthetic (lit "treated") (treated_pre ++ (treated_map s).2.*2)
        ((λ d : str * (list f64 * list f64), (d.1, d.2.1 ++ d.2.2)) <$> donor_series s) (length treated_pre) (f64_ratio 5 100))
  end.
End readers.

(** ** Tables of rows *)

(** A column holds the values of [f] over the rows, a null where there is none; what a null's
    slot holds does not matter. *)
Definition cell_of {R A : Type} (f : R → option A) (r : R) (c : bool * A) : Prop := f r = if c.1 then Some c.2 else None.

Definition holds {R A : Type} (con : Cells A → Column) (b : Batch) (name : string) (f : R → option A) (rows : list R) : Prop :=
  ∃ cells, columns b !! lit name = Some (con cells) ∧ Forall2 (cell_of f) rows cells.

Definition always {R A : Type} (f : R → A) (r : R) : option A := Some (f r).

(** A column that may be missing, if no row has a value. *)
Definition may_hold {R A : Type} (con : Cells A → Column) (b : Batch) (name : string) (f : R → option A) (rows : list R) : Prop :=
  holds con b name f rows ∨ columns b !! lit name = None ∧ Forall (λ r, f r = None) rows.

Lemma cells_at {R A : Type} (f : R → option A) rows cells i r : Forall2 (cell_of f) rows cells → rows !! i = Some r → nullable cells i = Ok (E:=ReadError) (f r).
Proof.
  intros Hc Hr. destruct (Forall2_lookup_l _ _ _ _ _ Hc Hr) as ([ok a] & Ha & Hf). unfold nullable. rewrite Ha. by rewrite Hf.
Qed.

Lemma values_at {R A : Type} (f : R → A) rows cells i r : Forall2 (cell_of (always f)) rows cells → rows !! i = Some r → value cells i = Ok (E:=ReadError) (f r).
Proof.
  intros Hc Hr. destruct (Forall2_lookup_l _ _ _ _ _ Hc Hr) as ([[] a] & Ha & Hf); [|done]. unfold value. rewrite Ha. by injection Hf as ->.
Qed.

Lemma downcast_string_holds {R : Type} b name (f : R → option str) rows : holds StringArray b name f rows →
  ∃ cells, downcast_string b (lit name) = Ok cells ∧ Forall2 (cell_of f) rows cells.
Proof. intros (cells & Hc & Hf). exists cells. unfold downcast_string, column_by_name. by rewrite Hc. Qed.

Lemma downcast_f64_holds {R : Type} b name (f : R → option f64) rows : holds Float64Array b name f rows →
  ∃ cells, downcast_f64 b (lit name) = Ok cells ∧ Forall2 (cell_of f) rows cells.
Proof. intros (cells & Hc & Hf). exists cells. unfold downcast_f64, column_by_name. by rewrite Hc. Qed.

Lemma downcast_i64_holds {R : Type} b name (f : R → option Z) rows : holds Int64Array b name f rows →
  ∃ cells, downcast_i64 b (lit name) = Ok cells ∧ Forall2 (cell_of f) rows cells.
Proof. intros (cells & Hc & Hf). exists cells. unfold downcast_i64, column_by_name. by rewrite Hc. Qed.

Lemma downcast_date_holds {R : Type} b name (f : R → option Z) rows : holds Date32Array b name f rows →
  ∃ cells, downcast_date b (lit name) = Ok cells ∧ Forall2 (cell_of f) rows cells.
Proof. intros (cells & Hc & Hf). exists cells. unfold downcast_date, column_by_name. by rewrite Hc. Qed.

Lemma optional_string_holds {R : Type} b name (f : R → option str) rows i r : may_hold StringArray b name f rows → rows !! i = Some r →
  nullable_opt (optional_string b (lit name)) i = Ok (E:=ReadError) (f r).
Proof.
  unfold optional_string. intros [(cells & -> & Hf)|[-> Hn]] Hr; [by eapply cells_at|]. cbn. rewrite Forall_lookup in Hn. by rewrite (Hn i r Hr).
Qed.

Lemma optional_f64_holds {R : Type} b name (f : R → option f64) rows i r : may_hold Float64Array b name f rows → rows !! i = Some r →
  nullable_opt (optional_f64 b (lit name)) i = Ok (E:=ReadError) (f r).
Proof.
  unfold optional_f64. intros [(cells & -> & Hf)|[-> Hn]] Hr; [by eapply cells_at|]. cbn. rewrite Forall_lookup in Hn. by rewrite (Hn i r Hr).
Qed.

Section table.
Context {R S : Type} (experiment : R → option str) (experiment_id : str) (add : R → S → S).

(** The rows of the experiment. *)
Definition of_experiment (rows : list R) : list R := filter (λ r, experiment r = Some experiment_id) rows.

Lemma for_rows_fold b rows exp step s : num_rows b = length rows → Forall2 (cell_of experiment) rows exp →
  (∀ i r s, rows !! i = Some r → step i s = Ok (add r s)) →
  for_rows b experiment_id exp step s = Ok (fold_left (λ s r, add r s) (of_experiment rows) s).
Proof.
  intros Hn Hexp Hstep. unfold for_rows. rewrite Hn.
  assert (∀ tl k s, drop k rows = tl → rows_loop exp experiment_id step (seq k (length tl)) s = Ok (fold_left (λ s r, add r s) (of_experiment tl) s)) as Hall;
    [|by apply (Hall rows 0)].
  induction tl as [|r tl IH]; intros k s' Hd; [done|]. assert (rows !! k = Some r) as Hr by (by rewrite <- (Nat.add_0_r k), <- lookup_drop, Hd).
  cbn [length seq rows_loop]. rewrite (cells_at _ _ _ _ _ Hexp Hr). cbn [mbind result_bind]. unfold of_experiment. rewrite filter_cons.
  assert (drop (Datatypes.S k) rows = tl) as Hd' by (rewrite <- Nat.add_1_r, <- drop_drop, Hd; done).
  destruct (decide (experiment r = Some experiment_id)) as [He|He].
  - rewrite bool_decide_true, (Hstep k r s' Hr) by done. cbn [mbind result_bind fold_left]. by apply IH.
  - rewrite bool_decide_false by done. cbn [mret result_ret mbind result_bind]. by apply IH.
Qed.

Lemma for_batches_fold (table : Batch → list R → Prop) step bs rowss : Forall2 table bs rowss →
  (∀ b rows s, table b rows → step b s = Ok (fold_left (λ s r, add r s) (of_experiment rows) s)) →
  ∀ s, for_batches step bs s = Ok (fold_left (λ s r, add r s) (of_experiment (concat rowss)) s).
Proof.
  intros Ht Hstep. induction Ht as [|b rows bs rowss Hb Ht IH]; intros s; [done|]. cbn [for_batches concat].
  rewrite (Hstep b rows s Hb). cbn [mbind result_bind]. rewrite IH. unfold of_experiment. by rewrite filter_app, fold_left_app.
Qed.
End table.

(** ** Groups *)

Definition nonempty {A : Type} (l : list A) : option (list A) := match l with [] => None | _ => Some l end.

Definition lookup2 {A : Type} (m : gmap str (gmap str A)) (j k : str) : option A := m !! j ≫= (.!! k).
Definition lookup3 {A : Type} (m : gmap str (gmap str (gmap str A))) (i j k : str) : option A := m !! i ≫= λ n, lookup2 n j k.

Lemma default_lookup {A : Type} (m : gmap str (gmap str A)) j k : default ∅ (m !! j) !! k = lookup2 m j k.
Proof. unfold lookup2. by destruct (m !! j). Qed.

Lemma entry_push_lookup {A : Type} (k : str) (x : A) m (k' : str) : entry_push k x m !! k' = if decide (k = k') then Some (default [] (m !! k') ++ [x]) else m !! k'.
Proof. unfold entry_push. destruct (decide (k = k')) as [->|Hne]; [by rewrite lookup_insert_eq|by rewrite lookup_insert_ne]. Qed.

Lemma entry_with_lookup {A : Type} (j : str) (f : gmap str A → gmap str A) m (j' k : str) :
  lookup2 (entry_with j f m) j' k = if decide (j = j') then f (default ∅ (m !! j)) !! k else lookup2 m j' k.
Proof.
  unfold entry_with, lookup2. destruct (decide (j = j')) as [->|Hne]; [by rewrite lookup_insert_eq|by rewrite lookup_insert_ne].
Qed.

Lemma nonempty_snoc {A : Type} (l : list A) x : nonempty (l ++ [x]) = Some (default [] (nonempty l) ++ [x]).
Proof. by destruct l. Qed.

(** A fold that pushes what [g] makes of each row onto its group collects, in order, what it
    makes of the rows of the group. [look] is how a group is found. *)
Section group.
Context {R K S A : Type} `{EqDecision K} (look : S → K → option (list A)) (add : R → S → S) (g : R → option (K * A)).
Context (add_look : ∀ r s k, look (add r s) k =
  match g r with Some (k', x) => if decide (k' = k) then Some (default [] (look s k) ++ [x]) else look s k | None => look s k end).

Definition in_group (k : K) (r : R) : option A := '(k', x) ← g r; if decide (k' = k) then Some x else None.

Lemma group_fold rows s k : look s k = None → look (fold_left (λ s r, add r s) rows s) k = nonempty (omap (in_group k) rows).
Proof.
  intros Hs. induction rows as [|r rows IH] using rev_ind; [done|]. rewrite fold_left_app, omap_app. cbn [fold_left omap list_omap].
  rewrite add_look. unfold in_group at 2. destruct (g r) as [[k' x]|]; cbn; [|by rewrite app_nil_r].
  destruct (decide (k' = k)); [by rewrite nonempty_snoc, IH|by rewrite app_nil_r].
Qed.
End group.

(** The groups, when every row of a condition is in one. *)
Lemma group_rows {R K A : Type} `{EqDecision K} (g : R → option (K * A)) (k : K) (x : R → A) (P : R → Prop) `{!∀ r, Decision (P r)} (rows : list R) :
  (∀ r, in_group g k r = if decide (P r) then Some (x r) else None) → omap (in_group g k) rows = x <$> filter P rows.
Proof.
  intros Hg. induction rows as [|r rows IH]; [done|]. cbn [omap list_omap]. rewrite Hg, filter_cons. destruct (decide (P r)); [|done].
  by rewrite fmap_cons, <- IH.
Qed.

(** ** Metric summaries *)

Record SummaryRow := mk_summary_row
  { sr_experiment : option str; sr_user : str; sr_variant : str; sr_metric : str; sr_value : f64; sr_covariate : option f64;
    sr_segment : option str; sr_session : option str; sr_probability : option f64 }.

Record summary_table (b : Batch) (rows : list SummaryRow) : Prop := mk_summary_table
  { st_rows : num_rows b = length rows; st_experiment : holds StringArray b "experiment_id" sr_experiment rows;
    st_user : holds StringArray b "user_id" (always sr_user) rows; st_variant : holds StringArray b "variant_id" (always sr_variant) rows;
    st_metric : holds StringArray b "metric_id" (always sr_metric) rows; st_value : holds Float64Array b "metric_value" (always sr_value) rows;
    st_covariate : holds Float64Array b "cuped_covariate" sr_covariate rows;
    st_segment : may_hold StringArray b "lifecycle_segment" sr_segment rows; st_session : may_hold StringArray b "session_id" sr_session rows;
    st_probability : may_hold Float64Array b "assignment_probability" sr_probability rows }.

Definition add_row (r : SummaryRow) : Summaries → Summaries :=
  add_summary (sr_variant r) (sr_user r) (sr_metric r) (sr_value r) (sr_covariate r) (sr_segment r) (sr_session r) (sr_probability r).

Lemma summaries_batch_fold experiment_id b rows s : summary_table b rows →
  summaries_batch experiment_id b s = Ok (fold_left (λ s r, add_row r s) (of_experiment sr_experiment experiment_id rows) s).
Proof.
  intros [Hn He Hu Hv Hm Hval Hc Hseg Hses Hp]. unfold summaries_batch.
  destruct (downcast_string_holds _ _ _ _ He) as (exp & -> & Hexp), (downcast_string_holds _ _ _ _ Hu) as (us & -> & Hus),
    (downcast_string_holds _ _ _ _ Hv) as (vs & -> & Hvs), (downcast_string_holds _ _ _ _ Hm) as (ms & -> & Hms),
    (downcast_f64_holds _ _ _ _ Hval) as (xs & -> & Hxs), (downcast_f64_holds _ _ _ _ Hc) as (cs & -> & Hcs). cbn [mbind result_bind].
  apply for_rows_fold; [done|done|]. intros i r s' Hr. rewrite (values_at _ _ _ _ _ Hvs Hr), (values_at _ _ _ _ _ Hms Hr),
    (values_at _ _ _ _ _ Hxs Hr), (cells_at _ _ _ _ _ Hcs Hr), (values_at _ _ _ _ _ Hus Hr). cbn [mbind result_bind].
  by rewrite (optional_string_holds _ _ _ _ _ _ Hseg Hr), (optional_string_holds _ _ _ _ _ _ Hses Hr), (optional_f64_holds _ _ _ _ _ _ Hp Hr).
Qed.

Definition summarise (rows : list SummaryRow) : Summaries := fold_left (λ s r, add_row r s) rows no_summaries.

Lemma summarise_found rows : s_found (summarise rows) = negb (bool_decide (rows = [])).
Proof. induction rows as [|r rows IH] using rev_ind; [done|]. unfold summarise. rewrite fold_left_app. by destruct rows. Qed.

Lemma summarise_users rows variant : s_users (summarise rows) !! variant =
  (λ us, list_to_set us) <$> nonempty (sr_user <$> filter (λ r, sr_variant r = variant) rows).
Proof.
  unfold summarise. induction rows as [|r rows IH] using rev_ind; [done|]. rewrite fold_left_app, filter_app, fmap_app. cbn [fold_left].
  cbn [add_row add_summary s_users]. rewrite filter_cons, filter_nil. destruct (decide (sr_variant r = variant)) as [<-|Hne].
  - rewrite lookup_insert_eq, IH. cbn [fmap list_fmap]. rewrite nonempty_snoc. cbn. f_equal.
    destruct (sr_user <$> _) as [|u us]; cbn; [set_solver|]. rewrite list_to_set_app_L. cbn. set_solver.
  - rewrite lookup_insert_ne by done. rewrite app_nil_r. exact IH.
Qed.

Lemma summarise_metrics rows metric variant : lookup2 (s_metrics (summarise rows)) metric variant =
  nonempty ((λ r, (sr_value r, sr_covariate r)) <$> filter (λ r, sr_metric r = metric ∧ sr_variant r = variant) rows).
Proof.
  rewrite <- (group_rows (λ r, Some ((sr_metric r, sr_variant r), (sr_value r, sr_covariate r))) (metric, variant)).
  - refine (group_fold (λ s (k : str * str), lookup2 (s_metrics s) k.1 k.2) add_row _ _ rows no_summaries (metric, variant) eq_refl). intros r s [m v]. cbn [add_row add_summary s_metrics fst snd].
    rewrite entry_with_lookup, entry_push_lookup, default_lookup. repeat case_decide; naive_solver.
  - intros r. unfold in_group. cbn. repeat case_decide; naive_solver.
Qed.

Lemma summarise_segments rows metric segment variant : lookup3 (s_segments (summarise rows)) metric segment variant =
  nonempty (sr_value <$> filter (λ r, sr_metric r = metric ∧ sr_segment r = Some segment ∧ sr_variant r = variant) rows).
Proof.
  rewrite <- (group_rows (λ r, (λ seg, ((sr_metric r, seg, sr_variant r), sr_value r)) <$> sr_segment r) (metric, segment, variant)).
  - refine (group_fold (λ s (k : str * str * str), lookup3 (s_segments s) k.1.1 k.1.2 k.2) add_row _ _ rows no_summaries (metric, segment, variant) eq_refl). intros r s [[m g] v]. cbn [add_row add_summary s_segments fst snd].
    destruct (sr_segment r) as [seg|]; [|done]. cbn [fmap option_fmap option_map]. unfold lookup3, entry_with at 1.
    destruct (decide (sr_metric r = m)) as [<-|Hm].
    + rewrite lookup_insert_eq. cbn [mbind option_bind]. rewrite entry_with_lookup, entry_push_lookup, default_lookup.
      replace (lookup2 (default ∅ (s_segments s !! sr_metric r)) seg v) with (s_segments s !! sr_metric r ≫= λ n, lookup2 n seg v)
        by by destruct (s_segments s !! sr_metric r).
      replace (lookup2 (default ∅ (s_segments s !! sr_metric r)) g v) with (s_segments s !! sr_metric r ≫= λ n, lookup2 n g v)
        by by destruct (s_segments s !! sr_metric r).
      repeat case_decide; naive_solver.
    + rewrite lookup_insert_ne by done. case_decide; naive_solver.
  - intros r. unfold in_group. destruct (sr_segment r); cbn; repeat case_decide; naive_solver.
Qed.

Lemma summarise_sessions rows metric : s_sessions (summarise rows) !! metric =
  nonempty ((λ r, (sr_value r, sr_user r, sr_variant r)) <$> filter (λ r, sr_metric r = metric ∧ is_Some (sr_session r)) rows).
Proof.
  rewrite <- (group_rows (λ r, (λ _, (sr_metric r, (sr_value r, sr_user r, sr_variant r))) <$> sr_session r) metric).
  - refine (group_fold (λ s k, s_sessions s !! k) add_row _ _ rows no_summaries metric eq_refl). intros r s m. cbn [add_row add_summary s_sessions].
    destruct (sr_session r); [|done]. cbn. rewrite entry_push_lookup. repeat case_decide; naive_solver.
  - intros r. unfold in_group. destruct (sr_session r); cbn; repeat case_decide; naive_solver.
Qed.

Lemma summarise_ipw rows metric : s_ipw (summarise rows) !! metric =
  nonempty (omap (λ r, (λ p, (sr_value r, sr_variant r, p)) <$> sr_probability r) (filter (λ r, sr_metric r = metric) rows)).
Proof.
  transitivity (nonempty (omap (in_group (λ r, (λ p, (sr_metric r, (sr_value r, sr_variant r, p))) <$> sr_probability r) metric) rows)).
  - refine (group_fold (λ s k, s_ipw s !! k) add_row _ _ rows no_summaries metric eq_refl). intros r s m. cbn [add_row add_summary s_ipw].
    destruct (sr_probability r); [|done]. cbn. rewrite entry_push_lookup. repeat case_decide; naive_solver.
  - f_equal. induction rows as [|r rows IH]; [done|]. cbn [omap list_omap]. rewrite filter_cons. unfold in_group at 1.
    destruct (decide (sr_metric r = metric)) as [He|He]; destruct (sr_probability r) as [p|] eqn:Hp; cbn; rewrite ?Hp; cbn; try (rewrite decide_True by done);
      try (rewrite decide_False by done); by rewrite ?IH.
Qed.

(** [C24] Reading the metric summaries of a table groups them exactly: every metric and variant
    has its rows' values and covariates in the order of the table, every segment, session and
    weighted group likewise with the rows that have one, every variant the number of its
    distinct users, and there is no other group; rows of other experiments, and of none, do
    not count. It fails only when the experiment has no row. *)
Theorem metric_summaries_grouped experiment_id bs rowss : Forall2 summary_table bs rowss →
  let rows := of_experiment sr_experiment experiment_id (concat rowss) in
  match read_metric_summaries (Some bs) experiment_id with
  | Ok m =>
      rows ≠ [] ∧
      (∀ metric variant, lookup2 (metrics m) metric variant =
         nonempty ((λ r, (sr_value r, sr_covariate r)) <$> filter (λ r, sr_metric r = metric ∧ sr_variant r = variant) rows)) ∧
      (∀ variant, variant_user_counts m !! variant =
         (λ us, size (list_to_set us : gset str)) <$> nonempty (sr_user <$> filter (λ r, sr_variant r = variant) rows)) ∧
      (∀ metric segment variant, lookup3 (segment_data m) metric segment variant =
         nonempty (sr_value <$> filter (λ r, sr_metric r = metric ∧ sr_segment r = Some segment ∧ sr_variant r = variant) rows)) ∧
      (∀ metric, session_data m !! metric =
         nonempty ((λ r, (sr_value r, sr_user r, sr_variant r)) <$> filter (λ r, sr_metric r = metric ∧ is_Some (sr_session r)) rows)) ∧
      (∀ metric, ipw_data m !! metric =
         nonempty (omap (λ r, (λ p, (sr_value r, sr_variant r, p)) <$> sr_probability r) (filter (λ r, sr_metric r = metric) rows)))
  | Err e => rows = [] ∧ e = NoData experiment_id
  | _ => False
  end.
Proof.
  intros Ht rows. unfold read_metric_summaries. cbn [opened mret result_ret mbind result_bind].
  rewrite (for_batches_fold sr_experiment experiment_id add_row summary_table _ bs rowss Ht (summaries_batch_fold experiment_id)). fold rows.
  cbn [mbind result_bind]. fold (summarise rows). rewrite summarise_found, negb_involutive. case_bool_decide as He; cbn; [done|]. split_and!; [done|..].
  - intros. apply summarise_metrics.
  - intros. rewrite lookup_fmap, summarise_users. by destruct (nonempty _).
  - intros. apply summarise_segments.
  - intros. apply summarise_sessions.
  - intros. apply summarise_ipw.
Qed.

(** Grouping rows by one key. *)
Section group1.
Context {R A : Type} (key : R → str) (x : R → A).

Definition group_by (rows : list R) : gmap str (list A) := fold_left (λ m r, entry_push (key r) (x r) m) rows ∅.

Lemma group_by_lookup rows k : group_by rows !! k = nonempty (x <$> filter (λ r, key r = k) rows).
Proof.
  rewrite <- (group_rows (λ r, Some (key r, x r)) k).
  - refine (group_fold (λ m k, m !! k) (λ r m, entry_push (key r) (x r) m) _ _ rows ∅ k eq_refl). intros r m k'. rewrite entry_push_lookup.
    repeat case_decide; naive_solver.
  - intros r. unfold in_group. cbn. repeat case_decide; naive_solver.
Qed.

Lemma group_by_snoc rows r : group_by (rows ++ [r]) = entry_push (key r) (x r) (group_by rows).
Proof. unfold group_by. by rewrite fold_left_app. Qed.

Lemma group_by_key rows k l : group_by rows !! k = Some l → ∃ r, r ∈ rows ∧ key r = k.
Proof.
  rewrite group_by_lookup. destruct (filter _ rows) as [|r rs] eqn:Hf; [done|]. intros _. exists r.
  assert (r ∈ filter (λ r, key r = k) rows) as Hin by (rewrite Hf; by left). by apply list_elem_of_filter in Hin as [? ?].
Qed.

Lemma group_by_row rows r : r ∈ rows → ∃ l, group_by rows !! key r = Some l ∧ l ≠ [].
Proof.
  intros Hr. rewrite group_by_lookup. assert (r ∈ filter (λ r', key r' = key r) rows) as Hin by by apply list_elem_of_filter.
  destruct (filter _ rows); [by apply not_elem_of_nil in Hin|]. cbn. eauto.
Qed.

Lemma group_by_empty rows : group_by rows = ∅ ↔ rows = [].
Proof.
  split; [|by intros ->]. intros He. destruct rows as [|r rows]; [done|]. destruct (group_by_row (r :: rows) r ltac:(by left)) as (l & Hl & _).
  by rewrite He, lookup_empty in Hl.
Qed.

(** The groups together are the rows. *)
Lemma group_by_concat rows : concat (map_to_list (group_by rows)).*2 ≡ₚ x <$> rows.
Proof.
  induction rows as [|r rows IH] using rev_ind; [done|]. rewrite group_by_snoc, fmap_app. cbn [fmap list_fmap]. rewrite <- IH. clear IH.
  set (m := group_by rows). unfold entry_push. destruct (m !! key r) as [old|] eqn:Hm; cbn [default].
  - rewrite <- insert_delete_eq, map_to_list_insert by apply lookup_delete_eq.
    rewrite <- (map_to_list_delete m (key r) old) by done. cbn [fmap list_fmap concat snd]. solve_Permutation.
  - rewrite map_to_list_insert by done. cbn [fmap list_fmap concat snd app]. by rewrite (Permutation_app_comm _ [x r]).
Qed.

Lemma group_by_delete rows k : delete k (group_by rows) = group_by (filter (λ r, key r ≠ k) rows).
Proof.
  apply map_eq. intros j. rewrite group_by_lookup, list_filter_filter. destruct (decide (k = j)) as [->|Hne].
  - rewrite lookup_delete_eq. symmetry. assert (filter (λ r, key r = j ∧ key r ≠ j) rows = []) as ->; [|done].
    apply elem_of_nil_inv. intros r Hr. apply list_elem_of_filter in Hr. naive_solver.
  - rewrite lookup_delete_ne, group_by_lookup by done. do 2 f_equal. apply list_filter_iff. intros r. naive_solver.
Qed.
End group1.

(** ** Daily effects *)

Record EffectRow := mk_effect_row { ef_experiment : option str; ef_metric : str; ef_date : Z; ef_effect : f64; ef_size : Z }.

Record effect_table (b : Batch) (rows : list EffectRow) : Prop := mk_effect_table
  { et_rows : num_rows b = length rows; et_experiment : holds StringArray b "experiment_id" ef_experiment rows;
    et_metric : holds StringArray b "metric_id" (always ef_metric) rows; et_date : holds Date32Array b "effect_date" (always ef_date) rows;
    et_effect : holds Float64Array b "absolute_effect" (always ef_effect) rows; et_size : holds Int64Array b "sample_size" (always ef_size) rows }.

Definition effect_point (r : EffectRow) : Z * f64 * Z := (ef_date r, ef_effect r, u64_wrap (ef_size r)).

Lemma effects_batch_fold experiment_id b rows m : effect_table b rows →
  effects_batch experiment_id b m =
    Ok (fold_left (λ m r, entry_push (ef_metric r) (effect_point r) m) (of_experiment ef_experiment experiment_id rows) m).
Proof.
  intros [Hn He Hm Hd Heff Hs]. unfold effects_batch.
  destruct (downcast_string_holds _ _ _ _ He) as (exp & -> & Hexp), (downcast_string_holds _ _ _ _ Hm) as (ms & -> & Hms),
    (downcast_date_holds _ _ _ _ Hd) as (ds & -> & Hds), (downcast_f64_holds _ _ _ _ Heff) as (es & -> & Hes),
    (downcast_i64_holds _ _ _ _ Hs) as (ss & -> & Hss). cbn [mbind result_bind].
  apply (for_rows_fold _ _ (λ r, entry_push (ef_metric r) (effect_point r))); [done|done|]. intros i r s' Hr.
  by rewrite (values_at _ _ _ _ _ Hms Hr), (values_at _ _ _ _ _ Hds Hr), (values_at _ _ _ _ _ Hes Hr), (values_at _ _ _ _ _ Hss Hr).
Qed.

Lemma max_by_key_spec {A : Type} (key : A → nat) l : match max_by_key key l with Some x => x ∈ l ∧ ∀ y, y ∈ l → key y ≤ key x | None => l = [] end.
Proof.
  unfold max_by_key. induction l as [|y l IH] using rev_ind; [done|]. rewrite fold_left_app. cbn [fold_left].
  destruct (fold_left _ l None) as [x|].
  - destruct IH as [Hx Hmax]. destruct (Nat.ltb_spec (key y) (key x)) as [Hlt|Hge]; (split; [rewrite elem_of_app, ?list_elem_of_singleton; by auto|]);
      intros z [Hz| ->%list_elem_of_singleton]%elem_of_app; try apply Hmax in Hz; lia.
  - subst l. cbn. split; [by left|]. by intros z ->%list_elem_of_singleton.
Qed.

Lemma day_exact d d0 : (- 2 ^ 31 ≤ d < 2 ^ 31)%Z → (- 2 ^ 31 ≤ d0 ≤ d)%Z → u32_of (i32_wrap (d - d0)) = (d - d0)%Z.
Proof.
  intros Hd Hd0. unfold u32_of, i32_wrap. rewrite Zminus_mod, Z.mod_mod, <- Zminus_mod by lia.
  replace (d - d0 + 2 ^ 31 - 2 ^ 31)%Z with (d - d0)%Z by lia. apply Z.mod_small. lia.
Qed.

Lemma sort_by_date l : StronglySorted (λ a b : Z * f64 * Z, (a.1.1 ≤ b.1.1)%Z) (sort_by by_date l).
Proof.
  eapply strongly_sorted_impl; [|apply (sort_by_sorted by_date (λ _, True))].
  - intros x y H. by apply Z.leb_le in H.
  - intros x y _ _. unfold by_date. lia.
  - intros x y z. unfold by_date. lia.
  - by apply Forall_true.
Qed.

(** The daily effects answer for an experiment with rows, and only then: with one of its
    metrics that have the most rows, all rows of it once each in the order of their dates, and
    the days counted from the first date, wrap-around of the subtraction included. Which of
    several metrics with as many rows is chosen depends on the hash map's order. *)
Theorem daily_effects_correct iter experiment_id bs rowss : (∀ m, iter m ≡ₚ map_to_list m) → Forall2 effect_table bs rowss →
  Forall (λ r, - 2 ^ 31 ≤ ef_date r < 2 ^ 31)%Z (concat rowss) →
  let rows := of_experiment ef_experiment experiment_id (concat rowss) in
  let points metric := effect_point <$> filter (λ r, ef_metric r = metric) rows in
  match read_daily_treatment_effects iter (Some bs) experiment_id with
  | Ok (metric, effects) =>
      (∀ other, length (points other) ≤ length (points metric)) ∧
      ∃ p ps, p :: ps ≡ₚ points metric ∧ StronglySorted (λ a b : Z * f64 * Z, (a.1.1 ≤ b.1.1)%Z) (p :: ps) ∧
        effects = (λ q : Z * f64 * Z, mk_daily_effect (q.1.1 - p.1.1) q.1.2 q.2) <$> p :: ps
  | Err e => rows = [] ∧ e = NoData experiment_id
  | _ => False
  end.
Proof.
  intros Hiter Ht Hdates rows points. unfold read_daily_treatment_effects. cbn [opened mret result_ret mbind result_bind].
  rewrite (for_batches_fold ef_experiment experiment_id (λ r, entry_push (ef_metric r) (effect_point r)) effect_table _ bs rowss Ht
    (effects_batch_fold experiment_id)). fold rows.
  change (fold_left _ rows ∅) with (group_by ef_metric effect_point rows). set (m := group_by _ _ rows). cbn [mbind result_bind].
  case_bool_decide as He; cbn [reject_if mbind result_bind]; [split; [by eapply group_by_empty|done]|].
  pose proof (max_by_key_spec (λ kv : str * list (Z * f64 * Z), length kv.2) (iter m)) as Hmax.
  destruct (max_by_key _ (iter m)) as [[metric l]|].
  2:{ apply He. apply map_to_list_empty_iff, Permutation_nil. by rewrite <- (Hiter m), Hmax. }
  destruct Hmax as [Hin Hmax]. rewrite Hiter in Hin. apply elem_of_map_to_list in Hin as Hl. unfold m in Hl. rewrite group_by_lookup in Hl. fold (points metric) in Hl.
  assert (l = points metric ∧ l ≠ []) as [-> Hne] by (destruct (points metric); [done|by injection Hl as <-]).
  pose proof (sort_by_perm by_date (points metric)) as Hperm. pose proof (sort_by_date (points metric)) as Hsorted.
  destruct (sort_by by_date (points metric)) as [|p ps]; [by apply Permutation_nil in Hperm|]. cbn [at_index lookup list_lookup mret result_ret mbind result_bind].
  split.
  - intros other. destruct (points other) as [|q qs] eqn:Ho; [cbn; lia|]. assert ((other, q :: qs) ∈ iter m) as Hoin.
    { rewrite Hiter. apply elem_of_map_to_list. unfold m. rewrite group_by_lookup. fold (points other). by rewrite Ho. }
    by apply Hmax in Hoin.
  - exists p, ps. split_and!; [done|done|]. apply list_fmap_ext. intros i q Hq. apply list_elem_of_lookup_2 in Hq.
    assert (∀ q, q ∈ p :: ps → (- 2 ^ 31 ≤ q.1.1 < 2 ^ 31)%Z) as Hrange.
    { intros q' Hq'. rewrite Hperm in Hq'. apply list_elem_of_fmap in Hq' as (r & -> & Hr). apply list_elem_of_filter in Hr as [_ Hr].
      apply list_elem_of_filter in Hr as [_ Hr]. rewrite Forall_forall in Hdates. exact (Hdates r Hr). }
    assert (p.1.1 ≤ q.1.1)%Z as Hle.
    { apply elem_of_cons in Hq as [->|Hq]; [lia|]. apply StronglySorted_inv in Hsorted as [_ Hs]. rewrite Forall_forall in Hs. exact (Hs q Hq). }
    destruct q as [[d e] n]. cbn in *. rewrite day_exact; [done|exact (Hrange (d, e, n) Hq)|]. pose proof (Hrange p ltac:(by left)). lia.
Qed.

(** A switchback experiment or a panel answers for the first of the metrics. *)
Lemma sort_strs_head l m : head (sort_strs l) = Some m → m ∈ l ∧ ∀ k, k ∈ l → str_le m k.
Proof.
  intros Hh. pose proof (sort_strs_perm l) as Hp. pose proof (sort_strs_sorted l) as Hs. destruct (sort_strs l) as [|m' ms] eqn:E; [done|]. injection Hh as ->.
  split; [rewrite <- Hp; by left|]. intros k Hk. rewrite <- Hp in Hk. apply elem_of_cons in Hk as [->|Hk]; [by unfold str_le|].
  apply Sorted_StronglySorted in Hs; [|apply _]. apply StronglySorted_inv in Hs as [_ Hs]. rewrite Forall_forall in Hs. by apply Hs.
Qed.

Lemma first_key_spec {A : Type} (m : gmap str A) : m ≠ ∅ → ∃ k, first_key m = Ok k ∧ is_Some (m !! k) ∧ ∀ k', is_Some (m !! k') → str_le k k'.
Proof.
  intros Hne. unfold first_key. destruct (head (sort_strs (map_to_list m).*1)) as [k|] eqn:Hh.
  - assert (∀ k', is_Some (m !! k') ↔ k' ∈ (map_to_list m).*1) as Hin.
    { intros k'. rewrite list_elem_of_fmap. split.
      - intros [x Hx]. exists (k', x). split; [done|by apply elem_of_map_to_list].
      - intros ([j x] & -> & Hx%elem_of_map_to_list). by exists x. }
    destruct (sort_strs_head _ _ Hh) as [Hk Hmin]. exists k. split_and!; [|by apply Hin|intros k' Hk'; by apply Hmin, Hin].
    destruct (sort_strs _); [done|]. by injection Hh as ->.
  - exfalso. apply Hne, map_to_list_empty_iff. pose proof (sort_strs_perm (map_to_list m).*1) as Hp. destruct (sort_strs _); [|done].
    apply Permutation_nil in Hp. by apply fmap_nil_inv in Hp.
Qed.

(** ** Interference *)

Record ConsumptionEntry := mk_entry { ce_experiment : option str; ce_variant : str; ce_content : str; ce_watch : f64; ce_views : Z; ce_viewers : Z }.

Record consumption_table (b : Batch) (rows : list ConsumptionEntry) : Prop := mk_consumption_table
  { ct_rows : num_rows b = length rows; ct_experiment : holds StringArray b "experiment_id" ce_experiment rows;
    ct_variant : holds StringArray b "variant_id" (always ce_variant) rows; ct_content : holds StringArray b "content_id" (always ce_content) rows;
    ct_watch : holds Float64Array b "watch_time_seconds" (always ce_watch) rows; ct_views : holds Int64Array b "view_count" (always ce_views) rows;
    ct_viewers : holds Int64Array b "unique_viewers" (always ce_viewers) rows }.

Definition row_of_entry (e : ConsumptionEntry) : ConsumptionRow :=
  mk_consumption_row (ce_variant e) (ce_content e) (ce_watch e) (u64_wrap (ce_views e)) (u64_wrap (ce_viewers e)).

Lemma extract_batch_fold experiment_id b rows acc : consumption_table b rows →
  extract_batch experiment_id b acc =
    Ok (fold_left (λ acc r, acc ++ [row_of_entry r]) (of_experiment ce_experiment experiment_id rows) acc).
Proof.
  intros [Hn He Hv Hc Hw Hvi Hu]. unfold extract_batch.
  destruct (downcast_string_holds _ _ _ _ He) as (exp & -> & Hexp), (downcast_string_holds _ _ _ _ Hv) as (vs & -> & Hvs),
    (downcast_string_holds _ _ _ _ Hc) as (cs & -> & Hcs), (downcast_f64_holds _ _ _ _ Hw) as (ws & -> & Hws),
    (downcast_i64_holds _ _ _ _ Hvi) as (ns & -> & His), (downcast_i64_holds _ _ _ _ Hu) as (us & -> & Hus). cbn [mbind result_bind].
  apply (for_rows_fold _ _ (λ r acc, acc ++ [row_of_entry r])); [done|done|]. intros i r s' Hr.
  by rewrite (values_at _ _ _ _ _ Hvs Hr), (values_at _ _ _ _ _ Hcs Hr), (values_at _ _ _ _ _ Hws Hr), (values_at _ _ _ _ _ His Hr),
    (values_at _ _ _ _ _ Hus Hr).
Qed.

Lemma fold_push {R A : Type} (f : R → A) rows acc : fold_left (λ acc r, acc ++ [f r]) rows acc = acc ++ (f <$> rows).
Proof. revert acc. induction rows as [|r rows IH]; intros acc; [by rewrite app_nil_r|]. cbn [fold_left]. by rewrite IH, <- app_assoc. Qed.

Lemma u64_sum_exact l : u64_sum l = u64_wrap (foldr Z.add 0 l)%Z.
Proof.
  unfold u64_sum. enough (∀ acc, u64_wrap (fold_left (λ acc x, u64_wrap (acc + x)) l acc) = u64_wrap (acc + foldr Z.add 0 l) ∧
    (u64_wrap acc = acc → u64_wrap (fold_left (λ acc x, u64_wrap (acc + x)) l acc) = fold_left (λ acc x, u64_wrap (acc + x)) l acc))%Z as H.
  { destruct (H 0%Z) as [H1 H2]. by rewrite <- H2, H1. }
  unfold u64_wrap. induction l as [|x l IH]; intros acc; cbn [fold_left foldr]; [by rewrite Z.add_0_r|]. destruct (IH ((acc + x) mod 2 ^ 64)%Z) as [H1 H2]. split.
  - rewrite H1, Zplus_mod_idemp_l. f_equal. lia.
  - intros _. apply H2. by rewrite Z.mod_mod.
Qed.

(** A map of fewer than two groups is of rows of one key. *)
Lemma one_group {R A : Type} (key : R → str) (x : R → A) rows r r' : size (group_by key x rows) < 2 → r ∈ rows → r' ∈ rows → key r = key r'.
Proof.
  intros Hs Hr Hr'. destruct (group_by_row key x rows r Hr) as (l & Hl & _), (group_by_row key x rows r' Hr') as (l' & Hl' & _).
  destruct (decide (key r = key r')) as [|Hne]; [done|]. exfalso.
  rewrite <- (insert_delete_id _ _ _ Hl), map_size_insert_None in Hs by apply lookup_delete_eq.
  assert (size (delete (key r) (group_by key x rows)) ≠ 0) as Hz; [|lia]. intros Hz%map_size_empty_inv.
  assert (delete (key r) (group_by key x rows) !! key r' = Some l') as Hl'' by by rewrite lookup_delete_ne. by rewrite Hz in Hl''.
Qed.

Lemma two_groups {R A : Type} (key : R → str) (x : R → A) rows k : ¬ size (group_by key x rows) < 2 → ∃ r, r ∈ rows ∧ key r ≠ k.
Proof.
  intros Hs. destruct (filter (λ r, key r ≠ k) rows) as [|r rs] eqn:Hf.
  - exfalso. apply Hs. assert (delete k (group_by key x rows) = ∅) as He by (rewrite group_by_delete, Hf; done).
    assert (size (group_by key x rows) ≤ S (size (delete k (group_by key x rows)))) as Hle; [|rewrite He, map_size_empty in Hle; lia].
    destruct (group_by key x rows !! k) as [l|] eqn:Hk; [|rewrite delete_id by done; lia].
    rewrite map_size_delete_Some by (by eexists). lia.
  - exists r. assert (r ∈ filter (λ r, key r ≠ k) rows) as Hin by (rewrite Hf; by left). apply list_elem_of_filter in Hin. tauto.
Qed.

Lemma flat_map_groups {A B : Type} (f : A → B) (l : list (str * list A)) : flat_map (λ kv, f <$> kv.2) l = f <$> concat l.*2.
Proof. induction l as [|[k x] l IH]; [done|]. cbn. by rewrite IH, fmap_app. Qed.

(** The interference input of an experiment with rows of at least two variants: the
    control group is the variant named control, or else the first by name; it has that
    variant's rows in order, the treatment group every other row once, each group's viewers
    are summed over its rows on 64 bits, and neither group is empty. The reader fails exactly
    when the experiment has no row, or rows of one variant only. *)
Theorem interference_input_correct iter experiment_id bs rowss : (∀ m, iter m ≡ₚ map_to_list m) → Forall2 consumption_table bs rowss →
  let rows := row_of_entry <$> of_experiment ce_experiment experiment_id (concat rowss) in
  match read_content_consumption iter (Some bs) experiment_id with
  | Ok input => ∃ c,
      (c = lit "control" ∨ (∀ r, r ∈ rows → c_variant_id r ≠ lit "control") ∧ ∀ r, r ∈ rows → str_le c (c_variant_id r)) ∧
      control input = consumption_of <$> filter (λ r, c_variant_id r = c) rows ∧ control input ≠ [] ∧
      treatment input ≡ₚ consumption_of <$> filter (λ r, c_variant_id r ≠ c) rows ∧ treatment input ≠ [] ∧
      total_control_viewers input = u64_wrap (foldr Z.add 0 (unique_viewers <$> control input))%Z ∧
      total_treatment_viewers input = u64_wrap (foldr Z.add 0 (unique_viewers <$> treatment input))%Z
  | Err (NoData e) => e = experiment_id ∧ rows = []
  | Err (FewVariants e _) => e = experiment_id ∧ rows ≠ [] ∧ ∀ r r', r ∈ rows → r' ∈ rows → c_variant_id r = c_variant_id r'
  | _ => False
  end.
Proof.
  intros Hiter Ht rows. unfold read_content_consumption, extract_rows. cbn [opened mret result_ret mbind result_bind].
  rewrite (for_batches_fold ce_experiment experiment_id (λ r acc, acc ++ [row_of_entry r]) consumption_table _ bs rowss Ht
    (extract_batch_fold experiment_id)), fold_push. fold rows. cbn [mbind result_bind app].
  case_bool_decide as He; [done|]. cbn [reject_if mbind result_bind]. unfold build_interference_input.
  change (by_variant rows) with (group_by c_variant_id (λ r, r) rows). set (groups := group_by _ _ rows).
  destruct (Nat.ltb_spec (size groups) 2) as [Hlt|Hge]; cbn [reject_if mbind result_bind].
  { split_and!; [done|done|]. intros r r'. by apply (one_group _ (λ r, r)). }
  assert (∃ c, (match groups !! lit "control" with Some _ => mret (lit "control") | None => first_key groups end) = Ok (E:=ReadError) c ∧ is_Some (groups !! c) ∧
    (c = lit "control" ∨ (∀ r, r ∈ rows → c_variant_id r ≠ lit "control") ∧ ∀ r, r ∈ rows → str_le c (c_variant_id r))) as (c & -> & [l Hl] & Hc).
  { destruct (groups !! lit "control") as [l|] eqn:Hcontrol; [exists (lit "control"); by eauto|].
    destruct (first_key_spec groups) as (k & -> & Hk & Hmin); [by intros ->%(group_by_empty c_variant_id (λ r, r))|]. exists k. split_and!; [done..|].
    right. split; intros r Hr; destruct (group_by_row c_variant_id (λ r, r) rows r Hr) as (l & Hl & _); [|by apply Hmin].
    intros Heq. rewrite Heq in Hl. unfold groups in Hcontrol. congruence. }
  cbn [mbind result_bind]. set (treat := flat_map _ (iter (delete c groups))).
  assert (consumption_of <$> default [] (groups !! c) = consumption_of <$> filter (λ r, c_variant_id r = c) rows ∧ filter (λ r, c_variant_id r = c) rows ≠ [])
    as [-> Hne].
  { unfold groups in *. rewrite group_by_lookup, list_fmap_id in Hl |- *. by destruct (filter _ rows). }
  assert (treat ≡ₚ consumption_of <$> filter (λ r, c_variant_id r ≠ c) rows) as Htreat.
  { unfold treat. rewrite (Permutation_flat_map _ (Hiter (delete c groups))), flat_map_groups. apply fmap_Permutation.
    unfold groups. rewrite group_by_delete. etransitivity; [apply group_by_concat|]. by rewrite list_fmap_id. }
  destruct (two_groups c_variant_id (λ r, r) rows c) as (r & Hr & Hrc); [fold groups; lia|].
  assert (treat ≠ []) as Htne.
  { intros Hnil. rewrite Hnil in Htreat. apply Permutation_nil, fmap_nil_inv in Htreat.
    assert (r ∈ filter (λ r, c_variant_id r ≠ c) rows) as Hin by by apply list_elem_of_filter. rewrite Htreat in Hin. by apply not_elem_of_nil in Hin. }
  rewrite (bool_decide_false (treat = [])), (bool_decide_false (_ <$> _ = [])) by (done || by intros ?%fmap_nil_inv).
  cbn [reject_if mbind result_bind mret result_ret]. exists c. cbn [control treatment total_control_viewers total_treatment_viewers].
  split_and!; [done|done|by intros ?%fmap_nil_inv|done|done|apply u64_sum_exact..].
Qed.

(** ** Switchback periods *)

Record PeriodRow := mk_period_row { pe_experiment : option str; pe_metric : str; pe_period : Z; pe_value : f64; pe_treatment : Z }.

Record period_table (b : Batch) (rows : list PeriodRow) : Prop := mk_period_table
  { pt_rows : num_rows b = length rows; pt_experiment : holds StringArray b "experiment_id" pe_experiment rows;
    pt_metric : holds StringArray b "metric_id" (always pe_metric) rows; pt_period : holds Int64Array b "period_id" (always pe_period) rows;
    pt_value : holds Float64Array b "value" (always pe_value) rows; pt_treatment : holds Int64Array b "is_treatment" (always pe_treatment) rows }.

Definition period_point (r : PeriodRow) : Z * (f64 * bool) := (pe_period r, (pe_value r, negb (pe_treatment r =? 0)%Z)).

Lemma periods_batch_fold experiment_id b rows m : period_table b rows →
  periods_batch experiment_id b m =
    Ok (fold_left (λ m r, entry_push (pe_metric r) (period_point r) m) (of_experiment pe_experiment experiment_id rows) m).
Proof.
  intros [Hn He Hm Hp Hv Ht]. unfold periods_batch.
  destruct (downcast_string_holds _ _ _ _ He) as (exp & -> & Hexp), (downcast_string_holds _ _ _ _ Hm) as (ms & -> & Hms),
    (downcast_i64_holds _ _ _ _ Hp) as (ps & -> & Hps), (downcast_f64_holds _ _ _ _ Hv) as (vs & -> & Hvs),
    (downcast_i64_holds _ _ _ _ Ht) as (ts & -> & Hts). cbn [mbind result_bind].
  apply (for_rows_fold _ _ (λ r, entry_push (pe_metric r) (period_point r))); [done|done|]. intros i r s' Hr.
  by rewrite (values_at _ _ _ _ _ Hms Hr), (values_at _ _ _ _ _ Hps Hr), (values_at _ _ _ _ _ Hvs Hr), (values_at _ _ _ _ _ Hts Hr).
Qed.

Lemma sort_by_period {A : Type} (l : list (Z * A)) : StronglySorted (λ a b, (a.1 ≤ b.1)%Z) (sort_by by_period l).
Proof.
  eapply strongly_sorted_impl; [|apply (sort_by_sorted by_period (λ _, True))].
  - intros x y H. by apply Z.leb_le in H.
  - intros x y _ _. unfold by_period. lia.
  - intros x y z. unfold by_period. lia.
  - by apply Forall_true.
Qed.

(** The first metric by name that has rows, in maps that group rows by metric. *)
Definition least_metric {R : Type} (metric_of : R → str) (rows : list R) (metric : str) : Prop :=
  (∃ r, r ∈ rows ∧ metric_of r = metric) ∧ ∀ r, r ∈ rows → str_le metric (metric_of r).

(** A switchback experiment with rows has the blocks of its first metric, all of them once, in
    the order of the periods and numbered from 0. *)
Lemma switchback_periods_correct experiment_id bs rowss : Forall2 period_table bs rowss →
  let rows := of_experiment pe_experiment experiment_id (concat rowss) in
  match read_switchback_periods (Some bs) experiment_id with
  | Ok blocks => ∃ metric ps, least_metric pe_metric rows metric ∧ ps ≡ₚ period_point <$> filter (λ r, pe_metric r = metric) rows ∧
      StronglySorted (λ a b, (a.1 ≤ b.1)%Z) ps ∧ blocks = imap block_of ps
  | Err e => rows = [] ∧ e = NoData experiment_id
  | _ => False
  end.
Proof.
  intros Ht rows. unfold read_switchback_periods. cbn [opened mret result_ret mbind result_bind].
  rewrite (for_batches_fold pe_experiment experiment_id (λ r, entry_push (pe_metric r) (period_point r)) period_table _ bs rowss Ht
    (periods_batch_fold experiment_id)). fold rows.
  change (fold_left _ rows ∅) with (group_by pe_metric period_point rows). cbn [mbind result_bind].
  case_bool_decide as He; cbn [reject_if mbind result_bind]; [split; [by eapply group_by_empty|done]|].
  destruct (first_key_spec _ He) as (k & -> & [l Hl] & Hmin). cbn [mbind result_bind]. rewrite Hl. cbn [mret result_ret].
  exists k, (sort_by by_period l). split_and!; [|rewrite sort_by_perm; rewrite group_by_lookup in Hl; by destruct (_ <$> _); [|injection Hl as <-]|apply sort_by_period|done].
  split; [by apply (group_by_key pe_metric period_point _ _ l)|]. intros r Hr. apply Hmin. destruct (group_by_row pe_metric period_point rows r Hr) as (l' & -> & _). eauto.
Qed.

(** ** Synthetic control panels *)

Record PanelRow := mk_panel_row
  { pr_experiment : option str; pr_metric : str; pr_unit : str; pr_period : Z; pr_value : f64; pr_treated : Z; pr_post : Z }.

Record panel_table (b : Batch) (rows : list PanelRow) : Prop := mk_panel_table
  { pa_rows : num_rows b = length rows; pa_experiment : holds StringArray b "experiment_id" pr_experiment rows;
    pa_metric : holds StringArray b "metric_id" (always pr_metric) rows; pa_unit : holds StringArray b "unit_id" (always pr_unit) rows;
    pa_period : holds Int64Array b "period" (always pr_period) rows; pa_value : holds Float64Array b "value" (always pr_value) rows;
    pa_treated : holds Int64Array b "is_treated_unit" (always pr_treated) rows; pa_post : holds Int64Array b "is_post_treatment" (always pr_post) rows }.

Definition row_treated (r : PanelRow) : bool := negb (pr_treated r =? 0)%Z.
Definition row_post (r : PanelRow) : bool := negb (pr_post r =? 0)%Z.
Definition observation (r : PanelRow) : Z * f64 := (pr_period r, pr_value r).

Definition observe_row (r : PanelRow) : gmap str (gmap str UnitData) → gmap str (gmap str UnitData) :=
  entry_with (pr_metric r)
    (λ units, <[pr_unit r := observe (row_treated r) (row_post r) (observation r) (default (mk_unit (row_treated r) [] []) (units !! pr_unit r))]> units).

Lemma panel_batch_fold experiment_id b rows m : panel_table b rows →
  panel_batch experiment_id b m = Ok (fold_left (λ m r, observe_row r m) (of_experiment pr_experiment experiment_id rows) m).
Proof.
  intros [Hn He Hm Hu Hp Hv Ht Hpo]. unfold panel_batch.
  destruct (downcast_string_holds _ _ _ _ He) as (exp & -> & Hexp), (downcast_string_holds _ _ _ _ Hm) as (ms & -> & Hms),
    (downcast_string_holds _ _ _ _ Hu) as (us & -> & Hus), (downcast_i64_holds _ _ _ _ Hp) as (ps & -> & Hps),
    (downcast_f64_holds _ _ _ _ Hv) as (vs & -> & Hvs), (downcast_i64_holds _ _ _ _ Ht) as (ts & -> & Hts),
    (downcast_i64_holds _ _ _ _ Hpo) as (qs & -> & Hqs). cbn [mbind result_bind].
  apply (for_rows_fold _ _ observe_row); [done|done|]. intros i r s' Hr.
  by rewrite (values_at _ _ _ _ _ Hms Hr), (values_at _ _ _ _ _ Hus Hr), (values_at _ _ _ _ _ Hps Hr), (values_at _ _ _ _ _ Hvs Hr),
    (values_at _ _ _ _ _ Hts Hr), (values_at _ _ _ _ _ Hqs Hr).
Qed.

Definition panel_of (rows : list PanelRow) : gmap str (gmap str UnitData) := fold_left (λ m r, observe_row r m) rows ∅.

(** The rows of a unit, and what they make of it. *)
Definition unit_rows (metric unit_name : str) (rows : list PanelRow) : list PanelRow :=
  filter (λ r, pr_metric r = metric ∧ pr_unit r = unit_name) rows.

Definition unit_data (us : list PanelRow) : option UnitData :=
  (λ r, mk_unit (row_treated r) (observation <$> filter (λ r, row_post r = false) us) (observation <$> filter (λ r, row_post r = true) us)) <$> last us.

Lemma panel_lookup rows metric unit_name : lookup2 (panel_of rows) metric unit_name = unit_data (unit_rows metric unit_name rows).
Proof.
  unfold panel_of, unit_rows. induction rows as [|r rows IH] using rev_ind; [done|]. rewrite fold_left_app, filter_app, filter_cons, filter_nil. cbn [fold_left].
  unfold observe_row at 1. rewrite entry_with_lookup. destruct (decide (pr_metric r = metric)) as [<-|Hm].
  2:{ rewrite decide_False by naive_solver. by rewrite app_nil_r. }
  destruct (decide (pr_unit r = unit_name)) as [<-|Hu].
  2:{ rewrite lookup_insert_ne by done. rewrite decide_False by naive_solver. rewrite app_nil_r, default_lookup. exact IH. }
  rewrite lookup_insert_eq, decide_True by done. rewrite default_lookup, IH. unfold unit_data. rewrite last_snoc. cbn [fmap option_fmap option_map]. f_equal.
  rewrite !filter_app, !filter_cons, !filter_nil, !fmap_app. set (us := filter _ rows).
  destruct (last us) as [r'|] eqn:Hl; [|apply last_None in Hl; rewrite Hl]; cbn; unfold observe; destruct (row_post r); cbn; by rewrite ?app_nil_r.
Qed.

Lemma panel_metric rows metric : is_Some (panel_of rows !! metric) ↔ ∃ r, r ∈ rows ∧ pr_metric r = metric.
Proof.
  unfold panel_of. induction rows as [|r rows IH] using rev_ind.
  - cbn [fold_left]. rewrite lookup_empty. split; [by intros []|]. intros (r & Hr & _). by apply not_elem_of_nil in Hr.
  - rewrite fold_left_app. cbn [fold_left]. unfold observe_row at 1, entry_with. destruct (decide (pr_metric r = metric)) as [<-|Hne].
    + rewrite lookup_insert_eq. split; [|by eauto]. intros _. exists r. rewrite elem_of_app, list_elem_of_singleton. auto.
    + rewrite lookup_insert_ne, IH by done. setoid_rewrite elem_of_app. setoid_rewrite list_elem_of_singleton. naive_solver.
Qed.

(** The split of a list of units. *)
Lemma split_units l : ∀ s, let s' := fold_left split_unit l s in
  donor_series s' = donor_series s ++ ((λ iu : str * UnitData, (iu.1, ((sort_by by_period (pre iu.2)).*2, (sort_by by_period (post iu.2)).*2))) <$>
    filter (λ iu, is_treated iu.2 = false) l) ∧
  n_treated s' = n_treated s + length (filter (λ iu, is_treated iu.2 = true) l) ∧
  treated_map s' = match last (filter (λ iu, is_treated iu.2 = true) l) with
                   | Some iu => (sort_by by_period (pre iu.2), sort_by by_period (post iu.2)) | None => treated_map s end.
Proof.
  induction l as [|[i u] l IH]; intros s; [cbn; rewrite app_nil_r; auto|]. cbn zeta in *. cbn [fold_left]. destruct (IH (split_unit s (i, u))) as (-> & -> & ->).
  rewrite !filter_cons. unfold split_unit. cbn [fst snd]. destruct (is_treated u) eqn:E; cbn [donor_series n_treated treated_map].
  - rewrite decide_False, decide_True by done. split_and!; [done|cbn; lia|]. rewrite last_cons. by destruct (last _).
  - rewrite decide_True, decide_False by done. split_and!; [by rewrite fmap_cons, <- app_assoc|lia|done].
Qed.

(** The series of a unit: before the treatment and then after it, each by period. *)
Definition series_of (us : list PanelRow) : list f64 :=
  (sort_by by_period (observation <$> filter (λ r, row_post r = false) us)).*2 ++ (sort_by by_period (observation <$> filter (λ r, row_post r = true) us)).*2.

(** A unit is treated if its last row says so. *)
Definition unit_treated (us : list PanelRow) : Prop := ∃ r, last us = Some r ∧ row_treated r = true.

Section panel.
Context (rows : list PanelRow) (metric : str) (units : gmap str UnitData) (Hunits : panel_of rows !! metric = Some units).
Abbreviation us := (λ u, unit_rows metric u rows).

Definition sorted_units : list (str * UnitData) := sort_by by_name (map_to_list units).
Definition treated_units : list (str * UnitData) := filter (λ iu, is_treated iu.2 = true) sorted_units.
Definition donor_units : list (str * UnitData) := filter (λ iu, is_treated iu.2 = false) sorted_units.

Lemma in_units u d : (u, d) ∈ sorted_units ↔ unit_data (us u) = Some d.
Proof.
  unfold sorted_units. rewrite sort_by_perm, elem_of_map_to_list, <- panel_lookup. unfold lookup2. by rewrite Hunits.
Qed.

Lemma units_unique : NoDup sorted_units.*1.
Proof. unfold sorted_units. rewrite sort_by_perm. apply NoDup_fst_map_to_list. Qed.

Lemma units_sorted : StronglySorted (λ a b : str * UnitData, str_le a.1 b.1) sorted_units.
Proof.
  eapply strongly_sorted_impl; [|apply (sort_by_sorted by_name (λ _, True))].
  - intros x y H. by apply bool_decide_eq_true in H.
  - intros x y _ _. unfold by_name. rewrite !bool_decide_eq_true. apply str_le_total.
  - intros x y z. unfold by_name. rewrite !bool_decide_eq_true. apply str_le_trans.
  - by apply Forall_true.
Qed.

Lemma in_treated u : (∃ d, (u, d) ∈ treated_units) ↔ unit_treated (us u).
Proof.
  unfold treated_units, unit_treated. setoid_rewrite list_elem_of_filter. setoid_rewrite in_units. unfold unit_data. split.
  - intros (d & Ht & Hd). destruct (last (us u)) as [r|]; [|done]. injection Hd as <-. by exists r.
  - intros (r & -> & Ht). eexists. split; [|reflexivity]. done.
Qed.

Lemma in_donors u d : (u, d) ∈ donor_units ↔ us u ≠ [] ∧ ¬ unit_treated (us u) ∧ unit_data (us u) = Some d.
Proof.
  unfold donor_units, unit_treated. rewrite list_elem_of_filter, in_units. unfold unit_data. cbn [snd]. split.
  - intros [Ht Hd]. destruct (last (us u)) as [r|] eqn:Hl; [|done]. split_and!; [by intros He; rewrite He in Hl| |done].
    intros (r' & [= <-] & Hr'). injection Hd as <-. cbn in Ht. congruence.
  - intros (_ & Ht & Hd). split; [|done]. destruct (last (us u)) as [r|]; [|done]. injection Hd as <-. cbn.
    apply not_true_is_false. intros Hr. apply Ht. by exists r.
Qed.

Lemma unit_exists u : us u ≠ [] → ∃ d, unit_data (us u) = Some d.
Proof. intros Hne. unfold unit_data. destruct (last (us u)) as [r|] eqn:Hl; [by eexists|]. by apply last_None in Hl. Qed.

Lemma treated_unique : NoDup treated_units.*1.
Proof. eapply sublist_NoDup; [apply units_unique|]. apply fmap_sublist, sublist_filter. Qed.

Lemma donors_unique : NoDup donor_units.*1.
Proof. eapply sublist_NoDup; [apply units_unique|]. apply fmap_sublist, sublist_filter. Qed.

Lemma donors_sorted : StronglySorted str_le donor_units.*1.
Proof.
  unfold donor_units. pose proof units_sorted as Hs. induction Hs as [|x l Hs IH Hx]; [constructor|]. rewrite filter_cons. case_decide; [|done].
  rewrite fmap_cons. constructor; [done|]. apply Forall_fmap, Forall_forall. intros y Hy. apply list_elem_of_filter in Hy as [_ Hy].
  rewrite Forall_forall in Hx. by apply Hx.
Qed.

Definition donor_entry (iu : str * UnitData) : str * (list f64 * list f64) :=
  (iu.1, ((sort_by by_period (pre iu.2)).*2, (sort_by by_period (post iu.2)).*2)).
Definition joined (d : str * (list f64 * list f64)) : str * list f64 := (d.1, d.2.1 ++ d.2.2).

Lemma joined_names l : (joined <$> (donor_entry <$> l)).*1 = l.*1.
Proof. induction l as [|x l IH]; [done|]. cbn. by f_equal. Qed.

Lemma pre_data u d : unit_data (us u) = Some d → pre d = observation <$> filter (λ r, row_post r = false) (us u).
Proof. unfold unit_data. destruct (last (us u)); [|done]. by intros [= <-]. Qed.

Lemma series_data u d : unit_data (us u) = Some d → series_of (us u) = (sort_by by_period (pre d)).*2 ++ (sort_by by_period (post d)).*2.
Proof. unfold unit_data. destruct (last (us u)); [|done]. by intros [= <-]. Qed.

Lemma joined_donors u s : (u, s) ∈ joined <$> (donor_entry <$> donor_units) ↔ us u ≠ [] ∧ ¬ unit_treated (us u) ∧ s = series_of (us u).
Proof.
  rewrite list_elem_of_fmap. setoid_rewrite list_elem_of_fmap. split.
  - intros (y & Heq & [v d] & -> & (Hne & Ht & Hd)%in_donors). injection Heq as -> ->. split_and!; [done|done|]. symmetry. by apply series_data.
  - intros (Hne & Ht & ->). destruct (unit_exists u Hne) as [d Hd]. exists (donor_entry (u, d)). rewrite (series_data _ _ Hd). split; [done|].
    exists (u, d). split; [done|]. by apply in_donors.
Qed.
End panel.

(** The panel of a synthetic control is that of the experiment's first metric: a unit is
    treated if its last row says so, the treated series is that of the only treated unit,
    split after its rows before the treatment, and the donors are all other units, once each
    in the order of their names, with their series; a series has the values before the
    treatment and then those after it, each in the order of the periods. The reader fails
    exactly when there is no row, no treated unit, more than one, or no donor. *)
Theorem synthetic_panel_correct experiment_id bs rowss : Forall2 panel_table bs rowss →
  let rows := of_experiment pr_experiment experiment_id (concat rowss) in
  match read_synthetic_control_panel (Some bs) experiment_id with
  | Ok input => ∃ metric t, least_metric pr_metric rows metric ∧ (∀ u, unit_treated (unit_rows metric u rows) ↔ u = t) ∧
      treated_series input = series_of (unit_rows metric t rows) ∧
      pre_periods input = length (filter (λ r, row_post r = false) (unit_rows metric t rows)) ∧
      donors input ≠ [] ∧ NoDup (donors input).*1 ∧ StronglySorted str_le (donors input).*1 ∧
      ∀ u s, (u, s) ∈ donors input ↔ unit_rows metric u rows ≠ [] ∧ u ≠ t ∧ s = series_of (unit_rows metric u rows)
  | Err (NoData e) => e = experiment_id ∧ rows = []
  | Err (NoTreatedUnit e) => e = experiment_id ∧ ∃ metric, least_metric pr_metric rows metric ∧ ∀ u, ¬ unit_treated (unit_rows metric u rows)
  | Err (ManyTreatedUnits e _) => e = experiment_id ∧ ∃ metric u u', least_metric pr_metric rows metric ∧ u ≠ u' ∧
      unit_treated (unit_rows metric u rows) ∧ unit_treated (unit_rows metric u' rows)
  | Err (NoDonors e) => e = experiment_id ∧ ∃ metric t, least_metric pr_metric rows metric ∧ ∀ u, unit_rows metric u rows ≠ [] → u = t
  | _ => False
  end.
Proof.
  intros Ht rows. unfold read_synthetic_control_panel. cbn [opened mret result_ret mbind result_bind].
  rewrite (for_batches_fold pr_experiment experiment_id observe_row panel_table _ bs rowss Ht (panel_batch_fold experiment_id)). fold rows.
  change (fold_left _ rows ∅) with (panel_of rows). cbn [mbind result_bind].
  case_bool_decide as He; cbn [reject_if mbind result_bind].
  { split; [done|]. destruct rows as [|r rs] eqn:E; [done|]. destruct (proj2 (panel_metric rows (pr_metric r))) as [x Hx].
    - exists r. rewrite E. split; [by left|done]. - rewrite E, He, lookup_empty in Hx. done. }
  destruct (first_key_spec _ He) as (metric & -> & [units Hunits] & Hmin). cbn [mbind result_bind]. rewrite Hunits.
  assert (least_metric pr_metric rows metric) as Hleast.
  { split; [by apply panel_metric|]. intros r Hr. apply Hmin, panel_metric. by exists r. }
  fold (sorted_units units). destruct (split_units (sorted_units units) (mk_split ([], []) [] 0)) as (-> & -> & ->).
  fold (treated_units units) (donor_units units). cbn [donor_series n_treated treated_map app Nat.add].
  pose proof (in_treated rows metric units Hunits) as Hin. pose proof (in_donors rows metric units Hunits) as Hdon.
  destruct (treated_units units) as [|[t d] [|[t' d'] T]] eqn:HT; cbn [length Nat.eqb Nat.ltb Nat.leb reject_if mbind result_bind].
  - split; [done|]. exists metric. split; [done|]. intros u (d & Hd)%Hin. by apply not_elem_of_nil in Hd.
  - assert (∀ u, unit_treated (unit_rows metric u rows) ↔ u = t) as Hu.
    { intros u. rewrite <- Hin. setoid_rewrite list_elem_of_singleton. split; [by intros (d' & [= -> _])|intros ->; by exists d]. }
    case_bool_decide as Hd; cbn [reject_if mbind result_bind mret result_ret].
    + split; [done|]. exists metric, t. split; [done|]. intros u Hne. destruct (decide (u = t)) as [|Hut]; [done|exfalso].
      destruct (unit_exists rows metric u Hne) as [du Hdu]. assert ((u, du) ∈ donor_units units) as Hbad by (apply Hdon; by rewrite Hu).
      apply fmap_nil_inv in Hd. rewrite Hd in Hbad. by apply not_elem_of_nil in Hbad.
    + exists metric, t. cbn [treated_series pre_periods donors last fst snd].
      assert (unit_data (unit_rows metric t rows) = Some d) as Hdata.
      { apply (in_units rows metric units Hunits). assert ((t, d) ∈ treated_units units) as Hin' by (rewrite HT; by left). by apply list_elem_of_filter in Hin' as [_ ?]. }
      change (λ iu : str * UnitData, (iu.1, ((sort_by by_period (pre iu.2)).*2, (sort_by by_period (post iu.2)).*2))) with donor_entry in *.
      change (λ d : str * (list f64 * list f64), (d.1, d.2.1 ++ d.2.2)) with joined. split_and!.
      * done.
      * done.
      * symmetry. by apply series_data.
      * rewrite length_fmap, (sort_by_perm by_period), (pre_data _ _ _ _ Hdata). by rewrite length_fmap.
      * by intros ?%fmap_nil_inv.
      * rewrite joined_names. apply donors_unique.
      * rewrite joined_names. apply donors_sorted.
      * intros u s. rewrite (joined_donors rows metric units Hunits), Hu. done.
  - split; [done|]. exists metric, t, t'. split_and!; [done| |apply Hin; exists d; by left|apply Hin; exists d'; right; by left].
    pose proof (treated_unique units) as Hnd. rewrite HT in Hnd. cbn in Hnd. apply NoDup_cons in Hnd as [Hnd _]. intros ->. apply Hnd. by left.
Qed.

(** ** Interleaving scores *)

Record ScoreRow := mk_score_row { sc_experiment : option str; sc_user : str; sc_scores : list (str * f64); sc_winner : option str; sc_engagements : Z }.

Record score_table (b : Batch) (rows : list ScoreRow) : Prop := mk_score_table
  { sc_rows : num_rows b = length rows; sc_has_experiment : holds StringArray b "experiment_id" sc_experiment rows;
    sc_has_user : holds StringArray b "user_id" (always sc_user) rows; sc_has_winner : holds StringArray b "winning_algorithm_id" sc_winner rows;
    sc_has_engagements : holds Int64Array b "total_engagements" (always sc_engagements) rows;
    sc_has_scores : ∃ maps, columns b !! lit "algorithm_scores" = Some (MapArray maps) ∧
      Forall2 (λ r (e : Column * Column), ∃ ks vs, e = (StringArray ks, Float64Array vs) ∧
        Forall2 (cell_of (always fst)) (sc_scores r) ks ∧ Forall2 (cell_of (always snd)) (sc_scores r) vs) rows maps }.

(** A later entry of an algorithm replaces an earlier one. *)
Definition score_of (r : ScoreRow) : InterleavingScore :=
  mk_interleaving_score (sc_user r) (list_to_map (reverse (sc_scores r))) (sc_winner r) (u32_of (sc_engagements r)).

Lemma scores_loop_map scores ks vs : Forall2 (cell_of (always fst)) scores ks → Forall2 (cell_of (always snd)) scores vs →
  scores_loop ks vs (seq 0 (length ks)) ∅ = Ok (list_to_map (reverse scores)).
Proof.
  intros Hk Hv. rewrite <- (Forall2_length _ _ _ Hk).
  enough (∀ tl done, scores = done ++ tl → scores_loop ks vs (seq (length done) (length tl)) (list_to_map (reverse done)) = Ok (list_to_map (reverse scores))) as H
    by exact (H scores [] eq_refl).
  induction tl as [|[k v] tl IH]; intros done ->; [by rewrite app_nil_r|]. cbn [length seq scores_loop].
  assert ((done ++ (k, v) :: tl) !! length done = Some (k, v)) as Hl by by rewrite list_lookup_middle.
  rewrite (values_at _ _ _ _ _ Hk Hl), (values_at _ _ _ _ _ Hv Hl). cbn [mbind result_bind fst snd].
  specialize (IH (done ++ [(k, v)])). rewrite length_app, Nat.add_1_r, reverse_snoc in IH. cbn [list_to_map foldr uncurry] in IH.
  apply IH. by rewrite <- app_assoc.
Qed.

Lemma scores_batch_fold experiment_id b rows acc : score_table b rows →
  scores_batch experiment_id b acc = Ok (fold_left (λ acc r, acc ++ [score_of r]) (of_experiment sc_experiment experiment_id rows) acc).
Proof.
  intros [Hn He Hu Hw Hg (maps & Hm & Hmaps)]. unfold scores_batch.
  destruct (downcast_string_holds _ _ _ _ He) as (exp & -> & Hexp), (downcast_string_holds _ _ _ _ Hu) as (us & -> & Hus).
  assert (downcast_map b (lit "algorithm_scores") = Ok maps) as -> by (unfold downcast_map, column_by_name; by rewrite Hm).
  destruct (downcast_string_holds _ _ _ _ Hw) as (ws & -> & Hws), (downcast_i64_holds _ _ _ _ Hg) as (gs & -> & Hgs). cbn [mbind result_bind].
  apply (for_rows_fold _ _ (λ r acc, acc ++ [score_of r])); [done|done|]. intros i r s' Hr.
  destruct (Forall2_lookup_l _ _ _ _ _ Hmaps Hr) as (e & Hei & ks & vs & -> & Hks & Hvs). unfold at_index. rewrite Hei. cbn [mret result_ret mbind result_bind].
  unfold algo_scores. cbn [fst snd mret result_ret mbind result_bind]. rewrite (scores_loop_map _ _ _ Hks Hvs). cbn [mbind result_bind].
  by rewrite (cells_at _ _ _ _ _ Hws Hr), (values_at _ _ _ _ _ Hus Hr), (values_at _ _ _ _ _ Hgs Hr).
Qed.

(** The scores are those of the experiment's rows, in order; it fails when there is none. *)
Lemma interleaving_scores_correct experiment_id bs rowss : Forall2 score_table bs rowss →
  let rows := of_experiment sc_experiment experiment_id (concat rowss) in
  read_interleaving_scores (Some bs) experiment_id = if bool_decide (rows = []) then Err (NoData experiment_id) else Ok (score_of <$> rows).
Proof.
  intros Ht rows. unfold read_interleaving_scores. cbn [opened mret result_ret mbind result_bind].
  rewrite (for_batches_fold sc_experiment experiment_id (λ r acc, acc ++ [score_of r]) score_table _ bs rowss Ht (scores_batch_fold experiment_id)), fold_push.
  fold rows. cbn [mbind result_bind app]. by destruct rows.
Qed.

(** ** Examples *)

(** The cells of a column, [d] in the slot of a null. *)
Definition cells_from {R A : Type} (d : A) (f : R → option A) (rows : list R) : Cells A :=
  (λ r, match f r with Some a => (true, a) | None => (false, d) end) <$> rows.

Lemma holds_cells {R A : Type} (con : Cells A → Column) b name (f : R → option A) d rows :
  columns b !! lit name = Some (con (cells_from d f rows)) → holds con b name f rows.
Proof.
  intros Hc. eexists. split; [exact Hc|]. unfold cells_from. apply Forall2_fmap_r, Forall_Forall2_diag, Forall_true. intros r. cbn. unfold cell_of. by destruct (f r) eqn:E; cbn; rewrite ?E.
Qed.

Definition cells_always {R A : Type} (f : R → A) (rows : list R) : Cells A := (λ r, (true, f r)) <$> rows.

Lemma holds_always {R A : Type} (con : Cells A → Column) b name (f : R → A) rows :
  columns b !! lit name = Some (con (cells_always f rows)) → holds con b name (always f) rows.
Proof. intros Hc. eexists. split; [exact Hc|]. unfold cells_always. apply Forall2_fmap_r, Forall_Forall2_diag, Forall_true. done. Qed.

Ltac table := first [eapply holds_always; reflexivity|eapply holds_cells; reflexivity|left; eapply holds_cells; reflexivity].

Definition effect_batch (rows : list EffectRow) : Batch :=
  mk_batch (list_to_map [(lit "experiment_id", StringArray (cells_from [] ef_experiment rows)); (lit "metric_id", StringArray (cells_always ef_metric rows));
    (lit "effect_date", Date32Array (cells_always ef_date rows)); (lit "absolute_effect", Float64Array (cells_always ef_effect rows));
    (lit "sample_size", Int64Array (cells_always ef_size rows))]) (length rows).

Lemma effect_batch_table rows : effect_table (effect_batch rows) rows.
Proof. split; [done|table..]. Qed.

Definition sample_effects : list EffectRow :=
  [mk_effect_row (Some (lit "e")) (lit "watch") 102 f64_zero 10; mk_effect_row (Some (lit "e")) (lit "watch") 100 f64_zero 10;
   mk_effect_row None (lit "ctr") 99 f64_zero 10; mk_effect_row (Some (lit "e")) (lit "ctr") 101 f64_zero 10].

Lemma daily_effects_correct_witness :
  ∃ effects, read_daily_treatment_effects map_to_list (Some [effect_batch sample_effects]) (lit "e") = Ok (lit "watch", effects) ∧ day <$> effects = [0; 2]%Z ∧
    ∃ p ps, effects = (λ q : Z * f64 * Z, mk_daily_effect (q.1.1 - p.1.1) q.1.2 q.2) <$> p :: ps.
Proof.
  pose proof (daily_effects_correct map_to_list (lit "e") [effect_batch sample_effects] [sample_effects] (λ m, Permutation_refl _)
    ltac:(constructor; [apply effect_batch_table|constructor]) ltac:(repeat constructor; cbn; lia)) as H. cbv zeta in H.
  assert (∃ effects, read_daily_treatment_effects map_to_list (Some [effect_batch sample_effects]) (lit "e") = Ok (lit "watch", effects) ∧ day <$> effects = [0; 2]%Z)
    as (effects & E & Hd) by (eexists; vm_compute; split; reflexivity).
  rewrite E in H. destruct H as (_ & p & ps & _ & _ & Heff). exists effects. exact (conj E (conj Hd (ex_intro _ p (ex_intro _ ps Heff)))).
Defined.

(** Of two metrics with one row each, the order of the map decides which is answered. *)
Lemma tie_depends_on_order :
  let table := Some [effect_batch [mk_effect_row (Some (lit "e")) (lit "a") 1 f64_zero 1; mk_effect_row (Some (lit "e")) (lit "b") 1 f64_zero 1]] in
  ∃ m m' es es', read_daily_treatment_effects map_to_list table (lit "e") = Ok (m, es) ∧
    read_daily_treatment_effects (λ m, reverse (map_to_list m)) table (lit "e") = Ok (m', es') ∧ m ≠ m'.
Proof. eexists _, _, _, _. split; [vm_compute; reflexivity|]. split; [vm_compute; reflexivity|]. done. Qed.

Definition consumption_batch (rows : list ConsumptionEntry) : Batch :=
  mk_batch (list_to_map [(lit "experiment_id", StringArray (cells_from [] ce_experiment rows)); (lit "variant_id", StringArray (cells_always ce_variant rows));
    (lit "content_id", StringArray (cells_always ce_content rows)); (lit "watch_time_seconds", Float64Array (cells_always ce_watch rows));
    (lit "view_count", Int64Array (cells_always ce_views rows)); (lit "unique_viewers", Int64Array (cells_always ce_viewers rows))]) (length rows).

Lemma consumption_batch_table rows : consumption_table (consumption_batch rows) rows.
Proof. split; [done|table..]. Qed.

(** The same three users who watched two titles count as six. *)
Definition sample_consumption : list ConsumptionEntry :=
  [mk_entry (Some (lit "e")) (lit "control") (lit "t1") f64_zero 3 3; mk_entry (Some (lit "e")) (lit "b") (lit "t1") f64_zero 2 2;
   mk_entry (Some (lit "e")) (lit "control") (lit "t2") f64_zero 3 3].

Lemma interference_input_correct_witness :
  ∃ input, read_content_consumption map_to_list (Some [consumption_batch sample_consumption]) (lit "e") = Ok input ∧ control input ≠ [] ∧
    total_control_viewers input = 6%Z.
Proof.
  pose proof (interference_input_correct map_to_list (lit "e") [consumption_batch sample_consumption] [sample_consumption] (λ m, Permutation_refl _)
    ltac:(constructor; [apply consumption_batch_table|constructor])) as H. cbv zeta in H.
  assert (∃ input, read_content_consumption map_to_list (Some [consumption_batch sample_consumption]) (lit "e") = Ok input ∧ total_control_viewers input = 6%Z)
    as (input & E & Hs) by (eexists; vm_compute; split; reflexivity).
  rewrite E in H. destruct H as (c & _ & _ & Hne & _). exists input. exact (conj E (conj Hne Hs)).
Defined.

Definition summary_batch (rows : list SummaryRow) : Batch :=
  mk_batch (list_to_map [(lit "experiment_id", StringArray (cells_from [] sr_experiment rows)); (lit "user_id", StringArray (cells_always sr_user rows));
    (lit "variant_id", StringArray (cells_always sr_variant rows)); (lit "metric_id", StringArray (cells_always sr_metric rows));
    (lit "metric_value", Float64Array (cells_always sr_value rows)); (lit "cuped_covariate", Float64Array (cells_from f64_zero sr_covariate rows));
    (lit "lifecycle_segment", StringArray (cells_from [] sr_segment rows)); (lit "session_id", StringArray (cells_from [] sr_session rows));
    (lit "assignment_probability", Float64Array (cells_from f64_zero sr_probability rows))]) (length rows).

Lemma summary_batch_table rows : summary_table (summary_batch rows) rows.
Proof. split; [done|table..]. Qed.

Definition sample_summaries : list SummaryRow :=
  [mk_summary_row (Some (lit "e")) (lit "u1") (lit "a") (lit "m") f64_zero None (Some (lit "NEW")) None None;
   mk_summary_row (Some (lit "e")) (lit "u1") (lit "a") (lit "m") f64_zero None None None None;
   mk_summary_row (Some (lit "f")) (lit "u2") (lit "a") (lit "m") f64_zero None None None None].

Lemma metric_summaries_grouped_witness :
  ∃ m, read_metric_summaries (Some [summary_batch sample_summaries]) (lit "e") = Ok m ∧ variant_user_counts m !! lit "a" = Some 1 ∧
    length <$> lookup2 (metrics m) (lit "m") (lit "a") = Some 2.
Proof.
  pose proof (metric_summaries_grouped (lit "e") [summary_batch sample_summaries] [sample_summaries]
    ltac:(constructor; [apply summary_batch_table|constructor])) as H. cbv zeta in H.
  assert (∃ m, read_metric_summaries (Some [summary_batch sample_summaries]) (lit "e") = Ok m) as [m E] by (eexists; vm_compute; reflexivity).
  rewrite E in H. destruct H as (_ & Hm & Hu & _). exists m. split; [exact E|]. rewrite Hu, Hm. split; vm_compute; reflexivity.
Defined.

Definition panel_batch_of (rows : list PanelRow) : Batch :=
  mk_batch (list_to_map [(lit "experiment_id", StringArray (cells_from [] pr_experiment rows)); (lit "metric_id", StringArray (cells_always pr_metric rows));
    (lit "unit_id", StringArray (cells_always pr_unit rows)); (lit "period", Int64Array (cells_always pr_period rows));
    (lit "value", Float64Array (cells_always pr_value rows)); (lit "is_treated_unit", Int64Array (cells_always pr_treated rows));
    (lit "is_post_treatment", Int64Array (cells_always pr_post rows))]) (length rows).

Lemma panel_batch_table rows : panel_table (panel_batch_of rows) rows.
Proof. split; [done|table..]. Qed.

Definition sample_panel : list PanelRow :=
  [mk_panel_row (Some (lit "e")) (lit "m") (lit "us") 2 (f64_of_Z 2) 1 1; mk_panel_row (Some (lit "e")) (lit "m") (lit "us") 1 (f64_of_Z 1) 1 0;
   mk_panel_row (Some (lit "e")) (lit "m") (lit "ca") 1 (f64_of_Z 3) 0 0].

Lemma synthetic_panel_correct_witness :
  ∃ input, read_synthetic_control_panel (Some [panel_batch_of sample_panel]) (lit "e") = Ok input ∧ NoDup (donors input).*1 ∧
    treated_series input = [f64_of_Z 1; f64_of_Z 2] ∧ (donors input).*1 = [lit "ca"].
Proof.
  pose proof (synthetic_panel_correct (lit "e") [panel_batch_of sample_panel] [sample_panel]
    ltac:(constructor; [apply panel_batch_table|constructor])) as H. cbv zeta in H.
  assert (∃ input, read_synthetic_control_panel (Some [panel_batch_of sample_panel]) (lit "e") = Ok input ∧
    treated_series input = [f64_of_Z 1; f64_of_Z 2] ∧ (donors input).*1 = [lit "ca"]) as (input & E & Hs & Hd) by (eexists; vm_compute; split_and!; reflexivity).
  rewrite E in H. destruct H as (metric & t & _ & _ & _ & _ & _ & Hnd & _). exists input. exact (conj E (conj Hnd (conj Hs Hd))).
Defined.
