(* ===== verification/Slate.v ===== *)
(** The slate bandit ([experimentation-bandit/src/slate.rs]): one Thompson sampler per slot,
    slots filled from the first with the arms not yet chosen, rewards attributed to slots
    with a correction of the position bias, and the off-policy estimate. [f64::powi] and
    [bincode] are parameters. *)
From Stdlib Require Import Ascii String SpecFloat.
From S2P Require Import Prelude Bytes F64 F64Mono F64Sum F64Order F64Round Bandit.

Inductive AttributionModel := ClickedSlotOnly | PositionWeighted | LeaveOneOut.

Inductive PositionBiasModel := BiasNone | Cascade (gamma : f64) | Examination (exam_probs : list f64).

Record SlatePolicy := mk_slate
  { sl_experiment_id : str; n_slots : nat; slot_arms : list (gmap str BetaArm); attribution : AttributionModel;
    position_bias : PositionBiasModel; total_updates : Z }.

Record SlateLog := mk_slate_log { log_slate : list str; clicked : option str; clicked_position : option nat; log_propensity : f64; log_reward : f64 }.

(** In [(0, 1]]. *)
Definition probability (p : f64) : bool := f64_gt p f64_zero && f64_le p f64_one.

Fixpoint assert_all (p : f64 → bool) (l : list f64) : policy unit :=
  match l with [] => mret tt | x :: l => _ ← assert_that (p x); assert_all p l end.

Definition assert_bias (b : PositionBiasModel) : policy unit :=
  match b with
  | BiasNone => mret tt
  | Cascade gamma => assert_that (probability gamma)
  | Examination exam_probs => assert_all probability exam_probs
  end.

Definition with_position_bias (experiment_id : str) (arm_ids : list str) (n_slots : nat) (attribution : AttributionModel)
    (position_bias : PositionBiasModel) : policy SlatePolicy :=
  _ ← assert_that (0 <? n_slots);
  _ ← assert_that (negb (bool_decide (arm_ids = [])));
  _ ← assert_bias position_bias;
  let priors := fold_left (λ m id, <[id := new_beta_arm id]> m) arm_ids ∅ in
  mret (mk_slate experiment_id n_slots (replicate n_slots priors) attribution position_bias 0).

Definition new_slate (experiment_id : str) (arm_ids : list str) (n_slots : nat) (attribution : AttributionModel) : policy SlatePolicy :=
  with_position_bias experiment_id arm_ids n_slots attribution BiasNone.

(** ** Selection *)

Section select.
Context `{BetaSampler}.

(** [Vec::remove]. *)
Definition remove_at (i : nat) (l : list str) : policy (str * list str) :=
  x ← expect (l !! i); mret (x, take i l ++ drop (S i) l).

(** The posterior of a candidate; an unknown one has the prior. *)
Definition posterior_of (posteriors : gmap str BetaArm) (id : str) : BetaArm := default (new_beta_arm id) (posteriors !! id).

Fixpoint select_loop (slots : list (gmap str BetaArm)) (n : nat) (remaining selected : list str) (rng : Rng) : policy (list str * Rng) :=
  match n with
  | O => mret (selected, rng)
  | S n =>
      match slots with
      | [] => Panics
      | posteriors :: slots =>
          '(draws, rng) ← sample_arms (posterior_of posteriors <$> remaining) rng;
          best_local ← max_by_index draws;
          '(chosen, remaining) ← remove_at best_local remaining;
          select_loop slots n remaining (selected ++ [chosen]) rng
      end
  end.

Definition select_slate (p : SlatePolicy) (candidates : list str) (slots : nat) (rng : Rng) : policy (list str * Rng) :=
  let actual_slots := min (min slots (length candidates)) (n_slots p) in
  select_loop (slot_arms p) actual_slots candidates [] rng.
End select.

(** ** Rewards *)

Definition position_weight (pos : nat) : f64 := f64_div f64_one (f64_add (f64_of_Z (Z.of_nat pos)) f64_one).

Section rewards.
Context (powi : f64 → Z → f64).

Definition exam_probability (b : PositionBiasModel) (position : nat) : f64 :=
  match b with
  | BiasNone => f64_one
  | Cascade gamma => powi gamma (i32_wrap (Z.of_nat position))
  | Examination exam_probs =>
      match exam_probs !! position with
      | Some p => p
      | None => default f64_one (last exam_probs)
      end
  end.

Definition debias_reward (b : PositionBiasModel) (reward : f64) (position : nat) : f64 :=
  let exam_prob := exam_probability b position in
  if f64_le exam_prob f64_zero then reward else f64_clamp (f64_div reward exam_prob) f64_zero f64_one.

(** [if let Some(arm) = self.slot_arms[pos].get_mut(arm_id) { arm.update(reward) }]. *)
Definition update_at (pos : nat) (arm_id : str) (reward : f64) (slots : list (gmap str BetaArm)) : policy (list (gmap str BetaArm)) :=
  m ← expect (slots !! pos);
  match m !! arm_id with
  | Some arm => arm ← update_beta_arm arm reward; mret (<[pos := <[arm_id := arm]> m]> slots)
  | None => mret slots
  end.

(** The loop over [slate.iter().enumerate()], [f] the reward of a position. *)
Fixpoint update_each (f : nat → f64) (pos : nat) (slate : list str) (slots : list (gmap str BetaArm)) : policy (list (gmap str BetaArm)) :=
  match slate with
  | [] => mret slots
  | arm_id :: slate => slots ← update_at pos arm_id (f pos) slots; update_each f (S pos) slate slots
  end.

Definition apply_clicked_slot_only (p : SlatePolicy) (slate : list str) (clicked : option nat) (reward : f64) : policy (list (gmap str BetaArm)) :=
  match clicked with
  | Some pos =>
      if (pos <? length slate) && (pos <? n_slots p)
      then arm_id ← expect (slate !! pos); update_at pos arm_id (debias_reward (position_bias p) reward pos) (slot_arms p)
      else mret (slot_arms p)
  | None => mret (slot_arms p)
  end.

Definition apply_position_weighted (p : SlatePolicy) (slate : list str) (clicked : option nat) (reward : f64) : policy (list (gmap str BetaArm)) :=
  let n := min (length slate) (n_slots p) in
  update_each (λ pos,
    if bool_decide (clicked = Some pos)
    then debias_reward (position_bias p) (f64_clamp (f64_mul reward (position_weight pos)) f64_zero f64_one) pos
    else f64_zero) 0 (take n slate) (slot_arms p).

Definition apply_leave_one_out (p : SlatePolicy) (slate : list str) (clicked : option nat) (reward : f64) : policy (list (gmap str BetaArm)) :=
  let n := min (length slate) (n_slots p) in
  let failure := debias_reward (position_bias p) f64_zero in
  match clicked with
  | Some click_pos =>
      if click_pos <? n
      then
        slots ← update_each failure 0 (take click_pos slate) (slot_arms p);
        arm_id ← expect (slate !! click_pos);
        update_at click_pos arm_id (debias_reward (position_bias p) reward click_pos) slots
      else update_each failure 0 (take n slate) (slot_arms p)
  | None => update_each failure 0 (take n slate) (slot_arms p)
  end.

Definition update_slate (p : SlatePolicy) (slate : list str) (clicked : option nat) (reward propensity : f64) : policy SlatePolicy :=
  _ ← assert_finite reward;
  _ ← assert_that (unit_interval reward);
  _ ← assert_finite propensity;
  slots ← (match attribution p with
           | ClickedSlotOnly => apply_clicked_slot_only p slate clicked reward
           | PositionWeighted => apply_position_weighted p slate clicked reward
           | LeaveOneOut => apply_leave_one_out p slate clicked reward
           end);
  mret (mk_slate (sl_experiment_id p) (n_slots p) slots (attribution p) (position_bias p) (u64_succ (total_updates p))).
End rewards.

(** ** Snapshots and the off-policy estimate *)

Section bytes.
Context (serialize : SlatePolicy → option str) (deserialize : str → option SlatePolicy).
Definition to_bytes (p : SlatePolicy) : policy str := expect (serialize p).
Definition from_bytes (data : str) : policy SlatePolicy := expect (deserialize data).
End bytes.

Fixpoint lips_loop (logged : list SlateLog) (acc : f64) : policy f64 :=
  match logged with
  | [] => mret acc
  | l :: logged =>
      if f64_le (log_propensity l) f64_zero then lips_loop logged acc
      else
        let ips := f64_div (log_reward l) (log_propensity l) in
        _ ← assert_finite ips;
        lips_loop logged (f64_add acc ips)
  end.

Definition lips_estimate (logged : list SlateLog) : policy f64 :=
  if bool_decide (logged = []) then mret f64_zero
  else
    total ← lips_loop logged f64_zero;
    mret (f64_div total (f64_of_Z (Z.of_nat (length logged)))).

(** ** Rewards stay rewards *)

(** A double of the unit interval. *)
Definition reward_ok (r : f64) : Prop := valid_f64 r ∧ unit_interval r = true.

Definition bias_ok (b : PositionBiasModel) : Prop :=
  match b with BiasNone => True | Cascade gamma => probability gamma = true | Examination ps => Forall (λ p, probability p = true) ps end.

Lemma reward_magnitude r : reward_ok r → magnitude r ∧ f64_is_finite r = true.
Proof.
  intros [_ [H0 H1]%andb_prop]. destruct (f64_le_number _ _ H0) as [_ Hr]. unfold f64_one in H1. rewrite one_is in H1.
  destruct r as [s|[]| |[] m e]; try done; by vm_compute in H0.
Qed.

Lemma clamp_reward x : is_number x → valid_f64 x → reward_ok (f64_clamp x f64_zero f64_one).
Proof.
  intros Hn Hv. assert (f64_le f64_zero f64_one = true) as Hle by by vm_compute. assert (valid_f64 f64_one) as H1 by by vm_compute.
  split; [by apply clamp_valid|]. destruct (f64_clamp_bounds x _ _ Hn Hle) as [Ha Hb]. unfold unit_interval. by rewrite Ha, Hb.
Qed.

Lemma zero_reward : reward_ok f64_zero.
Proof. done. Qed.

Lemma div_positive_number r p : magnitude r → f64_is_finite r = true → is_number p → f64_le p f64_zero = false → is_number (f64_div r p).
Proof.
  intros Hr Hf Hp H0. destruct p as [s|[]| |[] m e]; try done.
  - by destruct r as [|[]| |[]].
  - by apply magnitude_number, div_magnitude.
Qed.

Lemma position_weight_normal pos : (Z.of_nat pos < 2 ^ 53 - 1)%Z → ∃ lo hi, normal lo hi (position_weight pos).
Proof.
  intros Hp. unfold position_weight. destruct pos as [|pos].
  - exists (-52)%Z, (-52)%Z. eexists _, _. split; [vm_compute; reflexivity|]. by vm_compute.
  - assert (share_f64 f64_one) as Hone.
    { unfold f64_one. rewrite <- (div_self _ _ _ (of_Z_normal 1 ltac:(lia))). by apply ratio_share. }
    pose proof (add_share (f64_of_Z (Z.of_nat (S pos))) f64_one) as Hs. eexists _, _. eapply div_normal; [apply (of_Z_normal 1); lia|apply Hs|lia|lia].
    + eapply normal_weaken; [apply of_Z_normal; lia|lia|lia].
    + done.
Qed.

Lemma weighted_reward r pos : reward_ok r → (Z.of_nat pos < 2 ^ 53 - 1)%Z → reward_ok (f64_clamp (f64_mul r (position_weight pos)) f64_zero f64_one).
Proof.
  intros Hr Hp. destruct (reward_magnitude r Hr) as [Hm Hf]. destruct (position_weight_normal pos Hp) as (lo & hi & m & e & Hw & _). apply clamp_reward.
  - apply magnitude_number, mul_magnitude; [done|done|by rewrite Hw].
  - apply mul_valid; [apply Hr|apply div_valid].
Qed.

Section updates.
(** A power of a number of the unit interval is a number. *)
Context (powi : f64 → Z → f64) (powi_number : ∀ g n, probability g = true → is_number (powi g n)).

Lemma probability_number p : probability p = true → is_number p.
Proof. intros [H _]%andb_prop. unfold f64_gt in H. by apply f64_lt_number in H as [_ ?]. Qed.

Lemma exam_number b pos : bias_ok b → is_number (exam_probability powi b pos).
Proof.
  destruct b as [|g|ps]; cbn [bias_ok exam_probability]; intros Hb; [done|by apply powi_number|].
  destruct (ps !! pos) as [p|] eqn:Hp; [apply probability_number, (Forall_lookup_1 _ _ _ _ Hb Hp)|].
  destruct (last ps) as [p|] eqn:Hl; [|done]. rewrite last_lookup in Hl. apply probability_number, (Forall_lookup_1 _ _ _ _ Hb Hl).
Qed.

Lemma debias_ok b r pos : bias_ok b → reward_ok r → reward_ok (debias_reward powi b r pos).
Proof.
  intros Hb Hr. unfold debias_reward. destruct (f64_le (exam_probability powi b pos) f64_zero) eqn:H0; [done|].
  destruct (reward_magnitude r Hr) as [Hm Hf]. apply clamp_reward; [|apply div_valid]. apply div_positive_number; [done|done|by apply exam_number|done].
Qed.

(** ** Updates *)

Definition learned (r : f64) (a : BetaArm) : BetaArm := mk_beta_arm (ba_arm_id a) (f64_add (alpha a) r) (f64_add (beta a) (f64_sub f64_one r)).

Lemma update_beta_arm_learned a r : reward_ok r → update_beta_arm a r = Ok (learned r a).
Proof. intros Hr. destruct (reward_magnitude r Hr) as [_ Hf]. unfold update_beta_arm, assert_finite. rewrite Hf. destruct Hr as [_ ->]. done. Qed.

Lemma update_at_ok pos id r slots : reward_ok r → pos < length slots → update_at pos id r slots = Ok (alter (alter (learned r) id) pos slots).
Proof.
  intros Hr Hp. unfold update_at. destruct (lookup_lt_is_Some_2 _ _ Hp) as [m Hm]. rewrite Hm. cbn [expect mret result_ret mbind result_bind].
  assert (alter (alter (learned r) id) pos slots = <[pos := alter (learned r) id m]> slots) as ->.
  { apply list_eq. intros i. destruct (decide (pos = i)) as [<-|Hne]; [|by rewrite list_lookup_alter_ne, list_lookup_insert_ne].
    rewrite list_lookup_alter, Hm, decide_True by done. symmetry. by apply list_lookup_insert_eq. }
  destruct (m !! id) as [a|] eqn:Ha; cbn [mret result_ret mbind result_bind].
  - rewrite update_beta_arm_learned by done. cbn. do 2 f_equal. apply map_eq. intros k. destruct (decide (id = k)) as [<-|Hne].
    + by rewrite lookup_insert_eq, lookup_alter_eq, Ha.
    + by rewrite lookup_insert_ne, lookup_alter_ne.
  - f_equal. rewrite list_insert_id; [done|]. rewrite Hm. f_equal. apply map_eq. intros k. destruct (decide (id = k)) as [<-|Hne].
    + by rewrite lookup_alter_eq, Ha.
    + by rewrite lookup_alter_ne.
Qed.

(** What a slot's posteriors become: the arm shown there learns its reward. *)
Definition learn_at (shown : option str) (r : option f64) (m : gmap str BetaArm) : gmap str BetaArm :=
  match shown, r with Some id, Some r => alter (learned r) id m | _, _ => m end.

Lemma learn_none (shown : option str) (o : option (gmap str BetaArm)) : o = learn_at shown None <$> o.
Proof. by destruct o, shown. Qed.

Lemma learn_hidden (r : option f64) (o : option (gmap str BetaArm)) : o = learn_at None r <$> o.
Proof. by destruct o. Qed.

(** A slate's credits [g], applied slot by slot. *)
Definition credited (slate : list str) (g : nat → option f64) (slots slots' : list (gmap str BetaArm)) : Prop :=
  ∀ s : nat, slots' !! s = learn_at (slate !! s) (g s) <$> slots !! s.

Lemma update_each_ok f slate : ∀ pos slots, (∀ i, pos ≤ i < pos + length slate → reward_ok (f i)) → pos + length slate ≤ length slots →
  ∃ slots', update_each f pos slate slots = Ok slots' ∧
    ∀ s : nat, slots' !! s = learn_at (if pos <=? s then slate !! (s - pos) else None) (Some (f s)) <$> slots !! s.
Proof.
  induction slate as [|id slate IH]; intros pos slots Hf Hl; cbn [update_each length] in *.
  { exists slots. split; [done|]. intros s. destruct (pos <=? s); [rewrite lookup_nil|]; apply learn_hidden. }
  rewrite update_at_ok by (try apply Hf; lia). cbn [mbind result_bind].
  destruct (IH (S pos) (alter (alter (learned (f pos)) id) pos slots)) as (slots' & Hs & Hl'); [intros; apply Hf; lia|rewrite length_alter; lia|].
  exists slots'. split; [done|]. intros s. rewrite Hl'. destruct (decide (pos = s)) as [<-|Hne].
  - rewrite list_lookup_alter, decide_True by done. rewrite Nat.leb_refl, Nat.sub_diag, (proj2 (Nat.leb_gt _ _)) by lia. cbn. by destruct (slots !! pos).
  - rewrite list_lookup_alter_ne by done. destruct (Nat.leb_spec (S pos) s); [|by rewrite (proj2 (Nat.leb_gt _ _)) by lia].
    rewrite (proj2 (Nat.leb_le _ _)) by lia. by replace (s - pos) with (S (s - S pos)) by lia.
Qed.

(** What the arm at slot [s] of a slate learns, [n] slots counting. *)
Definition credit (p : SlatePolicy) (n : nat) (clicked : option nat) (reward : f64) (s : nat) : option f64 :=
  if n <=? s then None
  else match attribution p with
  | ClickedSlotOnly => if bool_decide (clicked = Some s) then Some (debias_reward powi (position_bias p) reward s) else None
  | PositionWeighted =>
      Some (if bool_decide (clicked = Some s)
            then debias_reward powi (position_bias p) (f64_clamp (f64_mul reward (position_weight s)) f64_zero f64_one) s else f64_zero)
  | LeaveOneOut =>
      match clicked with
      | Some c =>
          if n <=? c then Some (debias_reward powi (position_bias p) f64_zero s)
          else if s <? c then Some (debias_reward powi (position_bias p) f64_zero s)
          else if s =? c then Some (debias_reward powi (position_bias p) reward s) else None
      | None => Some (debias_reward powi (position_bias p) f64_zero s)
      end
  end.

Record slate_ok (p : SlatePolicy) : Prop := mk_slate_ok
  { so_length : length (slot_arms p) = n_slots p; so_slots : 0 < n_slots p; so_bound : (Z.of_nat (n_slots p) < 2 ^ 53)%Z;
    so_bias : bias_ok (position_bias p); so_arms : Forall (map_Forall (λ id a, arm_ok a ∧ ba_arm_id a = id)) (slot_arms p) }.

Lemma credit_ok p n clicked reward s r : slate_ok p → reward_ok reward → n ≤ n_slots p → credit p n clicked reward s = Some r → reward_ok r.
Proof.
  intros Hp Hr Hn. pose proof (so_bias p Hp) as Hb. pose proof (so_bound p Hp) as Hbound. unfold credit. destruct (Nat.leb_spec n s); [done|].
  destruct (attribution p).
  - destruct (bool_decide _); [|done]. intros [= <-]. by apply debias_ok.
  - intros [= <-]. destruct (bool_decide _); [|apply zero_reward]. apply debias_ok; [done|]. apply weighted_reward; [done|lia].
  - destruct clicked as [c|]; [|intros [= <-]; by apply debias_ok]. destruct (n <=? c); [intros [= <-]; by apply debias_ok|].
    destruct (s <? c); [intros [= <-]; by apply debias_ok|]. destruct (s =? c); [|done]. intros [= <-]. by apply debias_ok.
Qed.

Lemma take_some {A : Type} (l : list A) n s x : take n l !! s = Some x ↔ s < n ∧ l !! s = Some x.
Proof. destruct (decide (s < n)); [rewrite lookup_take_lt by done|rewrite lookup_take_ge by lia]; naive_solver. Qed.

Lemma attributed p slate clicked reward : slate_ok p → reward_ok reward →
  ∃ slots, (match attribution p with
            | ClickedSlotOnly => apply_clicked_slot_only powi p slate clicked reward
            | PositionWeighted => apply_position_weighted powi p slate clicked reward
            | LeaveOneOut => apply_leave_one_out powi p slate clicked reward
            end) = Ok slots ∧ credited slate (credit p (min (length slate) (n_slots p)) clicked reward) (slot_arms p) slots.
Proof.
  intros Hp Hr. pose proof (so_length p Hp) as Hlen. pose proof (so_bias p Hp) as Hb. pose proof (so_bound p Hp) as Hbound. unfold credited, credit.
  set (n := min (length slate) (n_slots p)). assert (length (take n slate) = n) as Hn by (rewrite length_take; lia).
  assert (∀ i, reward_ok (debias_reward powi (position_bias p) f64_zero i)) as Hz by (intros; by apply debias_ok).
  destruct (attribution p).
  - unfold apply_clicked_slot_only. destruct clicked as [c|].
    2:{ eexists. split; [reflexivity|]. intros s. rewrite bool_decide_false by done. destruct (n <=? s); apply learn_none. }
    destruct ((c <? length slate) && (c <? n_slots p)) eqn:Ec.
    + destruct (lookup_lt_is_Some_2 slate c ltac:(lia)) as [id Hid]. rewrite Hid. cbn [expect mret result_ret mbind result_bind].
      rewrite update_at_ok by (try apply debias_ok; try done; lia). eexists. split; [reflexivity|]. intros s. destruct (decide (c = s)) as [<-|Hne].
      * rewrite list_lookup_alter, decide_True, bool_decide_true, Hid, (proj2 (Nat.leb_gt n c)) by (done || lia). by destruct (slot_arms p !! c).
      * rewrite list_lookup_alter_ne, bool_decide_false by congruence. destruct (n <=? s); apply learn_none.
    + eexists. split; [reflexivity|]. intros s. destruct (Nat.leb_spec n s); [apply learn_none|].
      rewrite bool_decide_false by (intros [= ->]; lia). apply learn_none.
  - unfold apply_position_weighted. fold n. eset (f := λ pos : nat, if bool_decide (clicked = Some pos) then _ else f64_zero).
    destruct (update_each_ok f (take n slate) 0 (slot_arms p)) as (slots & Hs & Hl).
    { intros i Hi. unfold f. destruct (bool_decide _); [|apply zero_reward]. apply debias_ok; [done|]. apply weighted_reward; [done|lia]. }
    { lia. }
    exists slots. split; [exact Hs|]. intros s. rewrite Hl. cbn [Nat.leb]. rewrite Nat.sub_0_r. destruct (Nat.leb_spec n s).
    + rewrite lookup_take_ge by done. by destruct (slot_arms p !! s), (slate !! s).
    + by rewrite lookup_take_lt.
  - assert (∀ k, k ≤ n → ∃ slots, update_each (debias_reward powi (position_bias p) f64_zero) 0 (take k slate) (slot_arms p) = Ok slots ∧
      ∀ s : nat, slots !! s = learn_at (take k slate !! s) (Some (debias_reward powi (position_bias p) f64_zero s)) <$> slot_arms p !! s) as Hall.
    { intros k Hk. destruct (update_each_ok (debias_reward powi (position_bias p) f64_zero) (take k slate) 0 (slot_arms p)) as (slots & Hs & Hl);
        [intros; apply Hz|rewrite length_take; lia|]. exists slots. split; [done|]. intros s. rewrite Hl. cbn [Nat.leb]. by rewrite Nat.sub_0_r. }
    assert (∃ slots, update_each (debias_reward powi (position_bias p) f64_zero) 0 (take n slate) (slot_arms p) = Ok slots ∧
      ∀ s : nat, slots !! s = learn_at (slate !! s) (if n <=? s then None else Some (debias_reward powi (position_bias p) f64_zero s)) <$> slot_arms p !! s) as Hfail.
    { destruct (Hall n ltac:(lia)) as (slots & Hs & Hl). exists slots. split; [done|]. intros s. rewrite Hl. destruct (Nat.leb_spec n s).
      - rewrite lookup_take_ge by done. by destruct (slot_arms p !! s), (slate !! s).
      - by rewrite lookup_take_lt. }
    unfold apply_leave_one_out. fold n. destruct clicked as [c|]; [|exact Hfail]. destruct (Nat.ltb_spec c n) as [Hc|Hc].
    2:{ rewrite (proj2 (Nat.leb_le n c)) by done. exact Hfail. }
    rewrite (proj2 (Nat.leb_gt n c)) by done. destruct (Hall c ltac:(lia)) as (slots & -> & Hl). cbn [mbind result_bind].
    destruct (lookup_lt_is_Some_2 slate c ltac:(lia)) as [id Hid]. rewrite Hid. cbn [expect mret result_ret mbind result_bind].
    assert (length slots = length (slot_arms p)) as Hsl.
    { apply Nat.le_antisymm; apply Nat.nlt_ge; intros Hlt.
      - apply lookup_lt_is_Some_2 in Hlt as [x Hx]. by rewrite Hl, (lookup_ge_None_2 (slot_arms p)) in Hx.
      - pose proof (Hl (length slots)) as Hx. apply lookup_lt_is_Some_2 in Hlt as [x Hx']. by rewrite (lookup_ge_None_2 slots), Hx' in Hx. }
    rewrite update_at_ok by (try apply debias_ok; try done; lia). eexists. split; [reflexivity|]. intros s. destruct (decide (c = s)) as [<-|Hne].
    + rewrite list_lookup_alter, decide_True, Hl, Hid, (proj2 (Nat.leb_gt n c)), Nat.ltb_irrefl, Nat.eqb_refl, lookup_take_ge by (done || lia).
      by destruct (slot_arms p !! c).
    + rewrite list_lookup_alter_ne, Hl by done. destruct (Nat.ltb_spec s c).
      * rewrite lookup_take_lt, (proj2 (Nat.leb_gt n s)) by lia. done.
      * rewrite lookup_take_ge, (proj2 (Nat.eqb_neq s c)) by lia. destruct (n <=? s); by destruct (slot_arms p !! s), (slate !! s).
Qed.

Lemma learned_ok r a : reward_ok r → arm_ok a → arm_ok (learned r a).
Proof. intros Hr Ha. eapply update_beta_arm_ok; [apply Hr|exact Ha|by apply update_beta_arm_learned]. Qed.

End updates.

(** A policy is born with uniform posteriors. *)
Lemma slate_new_ok id arms n att bias p : (Z.of_nat n < 2 ^ 53)%Z → with_position_bias id arms n att bias = Ok p →
  slate_ok p ∧ n_slots p = n ∧ ∀ s m, slot_arms p !! s = Some m → dom m = (list_to_set arms : gset str).
Proof.
  intros Hn H. unfold with_position_bias in H. apply assert_bind in H as [Hpos H]. apply assert_bind in H as [_ H].
  apply bind_ok_inv in H as ([] & Hb & H). injection H as <-.
  assert (∀ (l : list str) (m : gmap str BetaArm), map_Forall (λ id a, arm_ok a ∧ ba_arm_id a = id) m →
    map_Forall (λ id a, arm_ok a ∧ ba_arm_id a = id) (fold_left (λ m id, <[id := new_beta_arm id]> m) l m) ∧
    dom (fold_left (λ m id, <[id := new_beta_arm id]> m) l m) = dom m ∪ (list_to_set l : gset str)) as Hfold.
  { induction l as [|x l IH]; intros m Hm; cbn [fold_left]; [split; [done|set_solver]|]. destruct (IH (<[x := new_beta_arm x]> m)) as [H1 H2].
    - apply map_Forall_insert_2; [|done]. split; [|done]. split; apply one_positive.
    - split; [done|]. rewrite H2, dom_insert_L. set_solver. }
  destruct (Hfold arms ∅) as [H1 H2]; [by intros ? ? ?|]. split_and!.
  - split; cbn; [apply length_replicate|by apply Nat.ltb_lt|done| |by apply Forall_replicate].
    destruct bias as [|g|ps]; cbn in *; [done|by apply assert_that_ok|]. clear - Hb. induction ps as [|x ps IH]; [constructor|].
    cbn in Hb. apply assert_bind in Hb as [Hx Hb]. constructor; [done|by apply IH].
  - done.
  - intros s m Hm. apply lookup_replicate in Hm as [-> _]. rewrite H2. set_solver.
Qed.

(** ** Selection *)

Section selection.
Context {Hbs : BetaSampler} {Hbl : BetaLaws}.

(** Filling the slots one by one: each draws for every arm that remains and takes one of the
    largest draw. *)
Inductive fills : list (gmap str BetaArm) → list str → Rng → list str → Rng → Prop :=
| fills_done slots remaining rng : fills slots remaining rng [] rng
| fills_slot posteriors slots remaining rng draws rng1 best chosen v slate rng2 :
    sample_arms (posterior_of posteriors <$> remaining) rng = Ok (draws, rng1) →
    remaining !! best = Some chosen → draws !! best = Some v → (∀ y, y ∈ draws → f64_gt y v = false) →
    fills slots (delete best remaining) rng1 slate rng2 →
    fills (posteriors :: slots) remaining rng (chosen :: slate) rng2.

Lemma select_loop_fills n : ∀ slots remaining selected rng, n ≤ length slots → n ≤ length remaining →
  Forall (map_Forall (λ id a, arm_ok a ∧ ba_arm_id a = id)) slots →
  ∃ slate rng', select_loop slots n remaining selected rng = Ok (selected ++ slate, rng') ∧ length slate = n ∧ fills slots remaining rng slate rng'.
Proof.
  induction n as [|n IH]; intros slots remaining selected rng Hs Hr Hok.
  { exists [], rng. rewrite app_nil_r. split; [by destruct slots|]. split; [done|constructor]. }
  destruct slots as [|posteriors slots]; [cbn in Hs; lia|]. apply Forall_cons in Hok as [Hp Hok]. cbn [select_loop length] in *.
  destruct (sample_arms_ok (posterior_of posteriors <$> remaining) rng) as (draws & rng1 & Hdraws & Hl & Hnum).
  { apply Forall_fmap, Forall_true. intros id. change (arm_ok (default (new_beta_arm id) (posteriors !! id))). destruct (posteriors !! id) as [a|] eqn:Ha; cbn [default]; [exact (proj1 (Hp id a Ha))|]. split; apply one_positive. }
  rewrite Hdraws. cbn [mbind result_bind]. rewrite length_fmap in Hl.
  destruct (max_by_index_total draws) as [best Hbest]; [intros ->; cbn in Hl; lia|done|]. rewrite Hbest. cbn [mbind result_bind].
  destruct (max_by_index_max _ _ Hbest) as (v & Hv & Hmax). pose proof (lookup_lt_Some _ _ _ Hv) as Hlt.
  destruct (lookup_lt_is_Some_2 remaining best ltac:(lia)) as [chosen Hc]. unfold remove_at. rewrite Hc. cbn [expect mret result_ret mbind result_bind].
  rewrite <- delete_take_drop. destruct (IH slots (delete best remaining) (selected ++ [chosen]) rng1) as (slate & rng' & Hsel & Hlen & Hfill);
    [lia|rewrite length_delete by (by eexists); lia|done|].
  exists (chosen :: slate), rng'. rewrite Hsel, <- app_assoc. split_and!; [done|by cbn; rewrite Hlen|]. by eapply fills_slot.
Qed.

Lemma fills_perm slots remaining rng slate rng' : fills slots remaining rng slate rng' → ∃ rest, slate ++ rest ≡ₚ remaining.
Proof.
  induction 1 as [slots remaining rng|posteriors slots remaining rng draws rng1 best chosen v slate rng2 _ Hc _ _ _ [rest IH]]; [by exists remaining|].
  exists rest. cbn. rewrite IH. symmetry. by apply delete_Permutation.
Qed.

(** Selection answers with a slate of as many slots as are asked for, the policy has and
    the candidates fill, each taken by an arm of the largest draw among those that remain;
    the slate is part of the candidates, so it repeats no arm they do not repeat. *)
Theorem slate_selection_correct p candidates slots rng : slate_ok p →
  ∃ slate rng', select_slate p candidates slots rng = Ok (slate, rng') ∧ length slate = min (min slots (length candidates)) (n_slots p) ∧
    fills (slot_arms p) candidates rng slate rng' ∧ (∃ rest, slate ++ rest ≡ₚ candidates) ∧ (NoDup candidates → NoDup slate).
Proof.
  intros Hp. destruct (select_loop_fills (min (min slots (length candidates)) (n_slots p)) (slot_arms p) candidates [] rng) as (slate & rng' & Hs & Hl & Hf).
  - rewrite (so_length p Hp). lia.
  - lia.
  - apply (so_arms p Hp).
  - destruct (fills_perm _ _ _ _ _ Hf) as [rest Hrest]. exists slate, rng'. split_and!; [exact Hs|done|done|by exists rest|].
    rewrite <- Hrest. by intros [? _]%NoDup_app.
Qed.
End selection.

(** ** Examples *)

(** A sampler that draws the mean's numerator. *)
#[local] Instance counter : BetaSampler := {| Rng := unit; beta_sample a _ rng := (if f64_is_nan a then f64_zero else a, rng) |}.
#[local] Instance counter_laws : BetaLaws.
Proof. intros a b rng _ _. cbn. by destruct (f64_is_nan a) eqn:E. Qed.

Definition one_powi (_ : f64) (_ : Z) : f64 := f64_one.

Definition sample_slate : SlatePolicy :=
  mk_slate (lit "e") 2 (replicate 2 (list_to_map [(lit "a", new_beta_arm (lit "a")); (lit "b", new_beta_arm (lit "b"))])) LeaveOneOut BiasNone 0.

Lemma sample_slate_ok : slate_ok sample_slate ∧ with_position_bias (lit "e") [lit "a"; lit "b"] 2 LeaveOneOut BiasNone = Ok sample_slate.
Proof.
  assert (with_position_bias (lit "e") [lit "a"; lit "b"] 2 LeaveOneOut BiasNone = Ok sample_slate) as H by (vm_compute; reflexivity).
  split; [|exact H]. by apply slate_new_ok in H as [? _].
Qed.


Lemma slate_selection_correct_witness :
  ∃ slate rng, select_slate sample_slate [lit "a"; lit "b"; lit "c"] 5 (tt : @Rng counter) = Ok (slate, rng) ∧ length slate = 2 ∧ NoDup slate.
Proof.
  destruct (slate_selection_correct sample_slate [lit "a"; lit "b"; lit "c"] 5 (tt : @Rng counter) (proj1 sample_slate_ok)) as (slate & rng & Hs & Hl & _ & _ & Hnd).
  exists slate, rng. split; [exact Hs|]. split; [exact Hl|]. apply Hnd. repeat constructor; set_solver.
Defined.

(** An arm added after the policy's creation is selected from the prior for ever: its
    rewards find no posterior. *)
Lemma new_arm_never_learns : ∃ p', update_slate one_powi sample_slate [lit "c"; lit "a"] (Some 0) f64_one f64_one = Ok p' ∧
  slot_arms p' = slot_arms sample_slate.
Proof. eexists. split; [vm_compute; reflexivity|]. vm_compute. reflexivity. Qed.

(** A log without propensity adds nothing to the sum and still counts in the mean. *)
Lemma skipped_log_counts :
  let l := mk_slate_log [] None None f64_one f64_one in let l0 := mk_slate_log [] None None f64_zero f64_one in
  lips_estimate [l] = Ok f64_one ∧ lips_estimate [l; l0] = Ok (f64_ratio 1 2).
Proof. split; vm_compute; reflexivity. Qed.
