(* ===== verification/Constraints.v ===== *)
(** Constrained arm selection ([experimentation-bandit/src/lp_constraints.rs]): the projection
    of a policy's probabilities onto bounds per arm by bisection, the dual ascent for linear
    constraints over it, and the decayed impression counts. [f64::exp] is a parameter, with
    what its documentation says of it as laws. *)
From Stdlib Require Import Ascii String SpecFloat.
From S2P Require Import Prelude Bytes F64 F64Mono F64Sum F64Order F64Round Bandit.

(** ** Impression tracking *)

Record LinearConstraint := mk_linear { label : str; coefficients : gmap str f64; rhs : f64 }.

Inductive ConstraintResult := Feasible (adjusted : gmap str f64) | Infeasible (raw : gmap str f64).

Definition probabilities (r : ConstraintResult) : gmap str f64 := match r with Feasible adjusted => adjusted | Infeasible raw => raw end.
Definition is_feasible (r : ConstraintResult) : bool := match r with Feasible _ => true | Infeasible _ => false end.

Record ImpressionTracker := mk_tracker { ema : gmap str f64; tracker_alpha : f64; total_selections : Z }.

Definition new_tracker (arm_ids : list str) (alpha : f64) : policy ImpressionTracker :=
  _ ← assert_that (f64_gt alpha f64_zero && f64_le alpha f64_one);
  let n := length arm_ids in
  let init := if 0 <? n then f64_div f64_one (f64_of_Z (Z.of_nat n)) else f64_zero in
  mret (mk_tracker (fold_left (λ m id, <[id := init]> m) arm_ids ∅) alpha 0).

(** The new count of an arm. *)
Definition decayed (alpha : f64) (selected_arm arm_id : str) (count : f64) : f64 :=
  let one_minus_alpha := f64_sub f64_one alpha in
  let indicator := if bool_decide (arm_id = selected_arm) then f64_one else f64_zero in
  f64_add (f64_mul one_minus_alpha count) (f64_mul alpha indicator).

Definition record (t : ImpressionTracker) (selected_arm : str) : policy ImpressionTracker :=
  let ema' := map_imap (λ id c, Some (decayed (tracker_alpha t) selected_arm id c)) (ema t) in
  _ ← assert_that (bool_decide (map_Forall (λ _ c, f64_is_finite c = true) ema'));
  mret (mk_tracker ema' (tracker_alpha t) (u64_succ (total_selections t))).

(** [entry(arm_id).or_insert(0.0)]. *)
Definition add_arm (t : ImpressionTracker) (arm_id : str) : ImpressionTracker :=
  match ema t !! arm_id with
  | Some _ => t
  | None => mk_tracker (<[arm_id := f64_zero]> (ema t)) (tracker_alpha t) (total_selections t)
  end.

(** ** The solver's state *)

Record ConstraintSolver := mk_solver
  { arm_ids : list str; per_arm : gmap str (f64 * f64); linear : list LinearConstraint; impressions : ImpressionTracker }.

Definition new_solver (ids : list str) (alpha : f64) : policy ConstraintSolver :=
  impressions ← new_tracker ids alpha; mret (mk_solver ids ∅ [] impressions).

Definition add_per_arm_bound (s : ConstraintSolver) (arm_id : str) (min_fraction max_fraction : f64) : policy ConstraintSolver :=
  _ ← assert_that (unit_interval min_fraction);
  _ ← assert_that (unit_interval max_fraction);
  _ ← assert_that (f64_le min_fraction max_fraction);
  mret (mk_solver (arm_ids s) (<[arm_id := (min_fraction, max_fraction)]> (per_arm s)) (linear s) (add_arm (impressions s) arm_id)).

Definition add_linear_constraint (s : ConstraintSolver) (l : str) (coeffs : gmap str f64) (bound : f64) : policy ConstraintSolver :=
  _ ← assert_finite bound;
  _ ← assert_that (bool_decide (map_Forall (λ _ c, f64_is_finite c = true) coeffs));
  mret (mk_solver (arm_ids s) (per_arm s) (linear s ++ [mk_linear l coeffs bound]) (impressions s)).

Definition record_impression (s : ConstraintSolver) (selected_arm : str) : policy ConstraintSolver :=
  impressions ← record (impressions s) selected_arm;
  mret (mk_solver (arm_ids s) (per_arm s) (linear s) impressions).

(** ** Projection onto the bounds *)

(** The literals [1e-9], [1e-7], [1e-6], [1e-5] and [1e-300]. *)
Definition em9 : f64 := f64_ratio 1 (10 ^ 9).
Definition em7 : f64 := f64_ratio 1 (10 ^ 7).
Definition em6 : f64 := f64_ratio 1 (10 ^ 6).
Definition em5 : f64 := f64_ratio 1 (10 ^ 5).
Definition em300 : f64 := f64_ratio 1 (10 ^ 300).
Definition f64_half : f64 := f64_ratio 1 2.
Definition f64_max_value : f64 := S754_finite false (2 ^ 53 - 1) 971.

Definition above_one : f64 := f64_add f64_one em9.
Definition below_one : f64 := f64_sub f64_one em9.

(** [f64::clamp], with its assertion. *)
Definition clamp (x lo hi : f64) : policy f64 := _ ← assert_that (f64_le lo hi); mret (f64_clamp x lo hi).

Definition dot (a q : list f64) : f64 := f64_sum (zip_with f64_mul a q).

(** The amounts by which the constraints are exceeded, and the largest one. *)
Definition violations (a_mat : list (list f64)) (b_vec q : list f64) : list f64 :=
  zip_with (λ aj bj, f64_sub (dot aj q) bj) a_mat b_vec.

Definition check_feasible (a_mat : list (list f64)) (b_vec q : list f64) : f64 :=
  fold_left f64_max (violations a_mat b_vec q) f64_neg_infinity.

Section solver.
(** [f64::exp]. *)
Context (exp : f64 → f64).

(** The arms clipped at the scale [c]; the mass they then have. *)
Definition clip_all (rows : list (f64 * f64 * f64)) (c : f64) : policy (list f64) :=
  try_map (λ row : f64 * f64 * f64, clamp (f64_div row.1.1 c) row.1.2 row.2) rows.

Definition mass (rows : list (f64 * f64 * f64)) (c : f64) : policy f64 := qs ← clip_all rows c; mret (f64_sum qs).

Fixpoint bisect_loop (n : nat) (rows : list (f64 * f64 * f64)) (log_c_lo log_c_hi : f64) : policy (f64 * f64) :=
  match n with
  | O => mret (log_c_lo, log_c_hi)
  | S n =>
      let mid := f64_mul (f64_add log_c_lo log_c_hi) f64_half in
      m ← mass rows (exp mid);
      if f64_gt m f64_one then bisect_loop n rows mid log_c_hi else bisect_loop n rows log_c_lo mid
  end.

Definition LOG_C_LO : f64 := f64_of_Z (-50).
Definition LOG_C_HI : f64 := f64_of_Z 50.

Definition bisect_kl_projection (r lo hi : list f64) : policy (option (list f64)) :=
  let k := length r in
  _ ← assert_that (length lo =? k);
  _ ← assert_that (length hi =? k);
  let sum_lo := f64_sum lo in
  let sum_hi := f64_sum hi in
  if f64_gt sum_lo above_one || f64_lt sum_hi below_one then mret None
  else
    let rows := zip (zip r lo) hi in
    f_at_lo ← mass rows (exp LOG_C_LO);
    f_at_hi ← mass rows (exp LOG_C_HI);
    if f64_lt f_at_lo below_one || f64_gt f_at_hi above_one then mret None
    else
      '(log_c_lo, log_c_hi) ← bisect_loop 64 rows LOG_C_LO LOG_C_HI;
      let c := exp (f64_mul (f64_add log_c_lo log_c_hi) f64_half) in
      q ← clip_all rows c;
      _ ← for_each assert_finite q;
      mret (Some q).

(** ** Linear constraints *)

(** The reference of the inner problem, [p_i * exp(-λᵀ a_i)]. *)
Definition modified_reference (p : list f64) (lambda : list f64) (a_mat : list (list f64)) : policy (list f64) :=
  try_map (λ i : nat,
    terms ← try_map (λ la : f64 * list f64, x ← expect (la.2 !! i); mret (f64_mul la.1 x)) (zip lambda a_mat);
    pi ← expect (p !! i);
    let ri := f64_mul pi (exp (f64_neg (f64_sum terms))) in
    _ ← assert_finite ri;
    mret ri) (seq 0 (length p)).

(** One step of the dual ascent for each constraint, projected onto [λ >= 0]. *)
Definition dual_update (base_step : f64) (lambda vs : list f64) : policy (list f64) :=
  try_map (λ lv : f64 * f64,
    let l := f64_max (f64_add lv.1 (f64_mul base_step lv.2)) f64_zero in
    _ ← assert_finite l;
    mret l) (zip lambda vs).

Definition step_size (a_mat : list (list f64)) : f64 :=
  let max_coeff := f64_max (fold_left f64_max (f64_abs <$> concat a_mat) f64_zero) f64_one in
  f64_div f64_one max_coeff.

Definition MAX_ITER : nat := 250.

Fixpoint dual_loop (n : nat) (p lo hi : list f64) (a_mat : list (list f64)) (b_vec : list f64)
    (lambda : list f64) (best_q : option (list f64)) (best_violation : f64) : policy (option (list f64)) :=
  match n with
  | O => mret (match best_q with
               | Some q => if f64_le (check_feasible a_mat b_vec q) em5 then Some q else None
               | None => None
               end)
  | S n =>
      r ← modified_reference p lambda a_mat;
      found ← bisect_kl_projection r lo hi;
      match found with
      | None => mret None
      | Some q =>
          let vs := violations a_mat b_vec q in
          let max_violation := check_feasible a_mat b_vec q in
          let '(best_q, best_violation) :=
            if f64_lt max_violation best_violation then (Some q, max_violation) else (best_q, best_violation) in
          if f64_le max_violation em7 then mret (Some q)
          else
            lambda ← dual_update (step_size a_mat) lambda vs;
            dual_loop n p lo hi a_mat b_vec lambda best_q best_violation
      end
  end.

Definition solve_kl_general (p lo hi : list f64) (a_mat : list (list f64)) (b_vec : list f64) : policy (option (list f64)) :=
  let ascend := dual_loop MAX_ITER p lo hi a_mat b_vec (replicate (length a_mat) f64_zero) None f64_max_value in
  if f64_le (check_feasible a_mat b_vec p) em9
  then
    found ← bisect_kl_projection p lo hi;
    match found with
    | Some q => if f64_le (check_feasible a_mat b_vec q) em6 then mret (Some q) else ascend
    | None => ascend
    end
  else ascend.

(** ** Applying the constraints *)

Definition bound_of (s : ConstraintSolver) (id : str) : f64 * f64 := default (f64_zero, f64_one) (per_arm s !! id).

(** The answer for a solution in the order of the arms. *)
Definition answer (s : ConstraintSolver) (raw : gmap str f64) (q : option (list f64)) : ConstraintResult :=
  match q with
  | Some q => Feasible (probability_map (arm_ids s) q)
  | None => Infeasible raw
  end.

Definition fallback_feasible_or_infeasible (s : ConstraintSolver) (raw : gmap str f64) (lo hi : list f64) : policy ConstraintResult :=
  let sum_lo := f64_sum lo in
  let sum_hi := f64_sum hi in
  if f64_gt sum_lo above_one || f64_lt sum_hi below_one then mret (Infeasible raw)
  else
    let k := length (arm_ids s) in
    let uniform := replicate k (f64_div f64_one (f64_of_Z (Z.of_nat k))) in
    q ← bisect_kl_projection uniform lo hi;
    mret (answer s raw q).

(** A raw probability, checked and clamped to the unit interval. *)
Definition raw_prob (raw_probs : gmap str f64) (id : str) : policy f64 :=
  let prob := default f64_zero (raw_probs !! id) in
  _ ← assert_finite prob;
  mret (f64_clamp prob f64_zero f64_one).

Definition coefficient_row (s : ConstraintSolver) (c : LinearConstraint) : list f64 :=
  (λ id, default f64_zero (coefficients c !! id)) <$> arm_ids s.

Definition apply (s : ConstraintSolver) (raw_probs : gmap str f64) : policy ConstraintResult :=
  if bool_decide (arm_ids s = []) then mret (Feasible ∅)
  else
    p ← try_map (raw_prob raw_probs) (arm_ids s);
    let lo := (λ id, (bound_of s id).1) <$> arm_ids s in
    let hi := (λ id, (bound_of s id).2) <$> arm_ids s in
    let p_sum := f64_sum p in
    if f64_le p_sum f64_zero then fallback_feasible_or_infeasible s raw_probs lo hi
    else
      let p := (λ pi, f64_max (f64_div pi p_sum) em300) <$> p in
      let a_mat := coefficient_row s <$> linear s in
      let b_vec := rhs <$> linear s in
      q_opt ← (if bool_decide (a_mat = []) then bisect_kl_projection p lo hi else solve_kl_general p lo hi a_mat b_vec);
      mret (answer s raw_probs q_opt).
End solver.

(** ** The documented behaviour of [f64::exp] *)

Definition fifty : f64 := f64_of_Z 50.

Class ExpLaws (exp : f64 → f64) : Prop := {
  exp_magnitude x : is_number x → magnitude (exp x);
  exp_nan : exp S754_nan = S754_nan;
  exp_normal x : f64_is_finite x = true → f64_le (f64_abs x) fifty = true → positive_finite (exp x) }.

(** ** Clipping *)

(** An arm the projection can be asked about: a reference that is not negative, bounds in
    order and in the unit interval. *)
Record row_ok (row : f64 * f64 * f64) : Prop := mk_row_ok
  { ro_reference : magnitude row.1.1; ro_order : f64_le row.1.2 row.2 = true;
    ro_low : unit_interval row.1.2 = true; ro_high : unit_interval row.2 = true }.

Definition in_bounds (lo x hi : f64) : Prop := f64_le lo x = true ∧ f64_le x hi = true.

(** The arms at the scale [c]. *)
Definition clipped (rows : list (f64 * f64 * f64)) (c : f64) : list f64 :=
  (λ row : f64 * f64 * f64, f64_clamp (f64_div row.1.1 c) row.1.2 row.2) <$> rows.

Lemma try_map_pure {A B} (f : A → policy B) (g : A → B) l : (∀ x, x ∈ l → f x = Ok (g x)) → try_map f l = Ok (g <$> l).
Proof.
  induction l as [|x l IH]; intros Hf; [done|]. cbn [try_map]. rewrite Hf by left. cbn [mbind result_bind].
  rewrite IH by (intros; apply Hf; by right). done.
Qed.

Lemma for_each_pure {A} (f : A → policy unit) l : (∀ x, x ∈ l → f x = Ok tt) → for_each f l = Ok tt.
Proof. induction l as [|x l IH]; intros Hf; [done|]. cbn [for_each]. rewrite Hf by left. apply IH. intros. apply Hf. by right. Qed.

Lemma clip_all_ok rows c : Forall row_ok rows → clip_all rows c = Ok (clipped rows c).
Proof.
  intros Hr. apply try_map_pure. intros row Hrow. rewrite Forall_forall in Hr. unfold clamp. by rewrite (ro_order _ (Hr row Hrow)).
Qed.

Lemma mass_ok rows c : Forall row_ok rows → mass rows c = Ok (f64_sum (clipped rows c)).
Proof. intros Hr. unfold mass. by rewrite clip_all_ok. Qed.

Lemma clipped_bounds rows c : Forall row_ok rows → positive_finite c → Forall2 (λ (row : f64 * f64 * f64) x, in_bounds row.1.2 x row.2) rows (clipped rows c).
Proof.
  intros Hr Hc. unfold clipped. induction Hr as [|row rows Hrow Hr IH]; [constructor|]. cbn. constructor; [|done].
  apply f64_clamp_bounds; [|apply (ro_order _ Hrow)]. by apply magnitude_number, div_magnitude; [apply (ro_reference _ Hrow)|].
Qed.

Lemma unit_finite x : unit_interval x = true → f64_is_finite x = true.
Proof. intros [H0 H1]%andb_prop. by apply (between_finite f64_zero x f64_one). Qed.

Lemma bounds_finite rows c : Forall row_ok rows → positive_finite c → Forall (λ x, f64_is_finite x = true) (clipped rows c).
Proof.
  intros Hr Hc. pose proof (clipped_bounds rows c Hr Hc) as Hb. clear Hc. revert Hr. induction Hb as [|row x rows' q [H1 H2] Hb IH]; intros Hr; [constructor|].
  apply Forall_cons in Hr as [Hrow Hr]. constructor; [|by apply IH].
  apply (between_finite row.1.2 x row.2); [apply unit_finite, Hrow|apply unit_finite, Hrow|done|done].
Qed.

(** ** The bisection *)

Section exp.
Context (exp : f64 → f64) {Hexp : ExpLaws exp}.

Definition fifty_within : f64 → Prop := within (50 * 2 ^ 47) (-47).

Lemma fifty_is : fifty = S754_finite false (50 * 2 ^ 47) (-47).
Proof. by vm_compute. Qed.

Lemma fifty_exp x : fifty_within x → positive_finite (exp x).
Proof.
  intros [Hv Hx]. rewrite <- fifty_is in Hx. apply exp_normal; [|done]. by double_cases x.
Qed.

Lemma fifty_mid x y : fifty_within x → fifty_within y → fifty_within (f64_mul (f64_add x y) f64_half).
Proof. apply midpoint_within; [by vm_compute|lia]. Qed.

(** The scale's logarithm [mid] lies between one with too much mass, or the lower end, and
    one without too much, or the upper end. *)
Record bracket (rows : list (f64 * f64 * f64)) (a b : f64) : Prop := mk_bracket
  { br_low : fifty_within a; br_high : fifty_within b;
    br_more : a = LOG_C_LO ∨ f64_gt (f64_sum (clipped rows (exp a))) f64_one = true;
    br_less : b = LOG_C_HI ∨ f64_gt (f64_sum (clipped rows (exp b))) f64_one = false }.

Lemma ends_within : fifty_within LOG_C_LO ∧ fifty_within LOG_C_HI.
Proof. by split; split; vm_compute. Qed.

Lemma bisect_ok rows n : Forall row_ok rows → ∀ a b, bracket rows a b → ∃ a' b', bisect_loop exp n rows a b = Ok (a', b') ∧ bracket rows a' b'.
Proof.
  intros Hr. induction n as [|n IH]; intros a b [Ha Hb Hm Hl]; cbn [bisect_loop]; [by exists a, b|].
  rewrite mass_ok by done. cbn [mbind result_bind]. pose proof (fifty_mid a b Ha Hb) as Hmid. destruct (f64_gt (f64_sum (clipped rows (exp (f64_mul (f64_add a b) f64_half)))) f64_one) eqn:E.
  - apply IH. by split; [..|right|].
  - apply IH. by split; [..|right].
Qed.

(** No scale of the range has the mass one: the lower bounds exceed it, or the upper bounds
    or the clipped arms fall short of it. *)
Definition out_of_reach (r lo hi : list f64) : bool :=
  let rows := zip (zip r lo) hi in
  f64_gt (f64_sum lo) above_one || f64_lt (f64_sum hi) below_one ||
  (f64_lt (f64_sum (clipped rows (exp LOG_C_LO))) below_one || f64_gt (f64_sum (clipped rows (exp LOG_C_HI))) above_one).

(** The projection always answers. It refuses when the mass one is out of reach, and
    otherwise every arm is its reference over one common scale, clipped to its bounds. *)
Lemma projection_correct r lo hi : length lo = length r → length hi = length r → Forall row_ok (zip (zip r lo) hi) →
  (out_of_reach r lo hi = true ∧ bisect_kl_projection exp r lo hi = Ok None) ∨
  out_of_reach r lo hi = false ∧ ∃ a b, bracket (zip (zip r lo) hi) a b ∧
    bisect_kl_projection exp r lo hi = Ok (Some (clipped (zip (zip r lo) hi) (exp (f64_mul (f64_add a b) f64_half)))).
Proof.
  intros Hlo Hhi Hr. unfold bisect_kl_projection, out_of_reach. rewrite Hlo, Hhi, Nat.eqb_refl. cbn [assert_that mbind result_bind].
  destruct (f64_gt (f64_sum lo) above_one || f64_lt (f64_sum hi) below_one); [by left|]. cbn [orb]. set (rows := zip (zip r lo) hi) in *.
  rewrite !mass_ok by done. cbn [mbind result_bind]. destruct (_ || _) eqn:E; [by left|]. right. split; [done|].
  destruct ends_within as [H1 H2]. destruct (bisect_ok rows 64 Hr LOG_C_LO LOG_C_HI) as (a & b & -> & Hb); [by split; [..|left|left]|]. cbn [mbind result_bind].
  exists a, b. split; [done|]. rewrite clip_all_ok by done. cbn [mbind result_bind]. rewrite for_each_pure; [done|].
  pose proof (bounds_finite rows _ Hr (fifty_exp _ (fifty_mid a b (br_low _ _ _ Hb) (br_high _ _ _ Hb)))) as Hf. rewrite Forall_forall in Hf.
  intros x Hx. unfold assert_finite. by rewrite Hf.
Qed.

Lemma projection_bounds r lo hi o : length lo = length r → length hi = length r → Forall row_ok (zip (zip r lo) hi) →
  bisect_kl_projection exp r lo hi = Ok o → match o with Some q => Forall2 (λ (row : f64 * f64 * f64) x, in_bounds row.1.2 x row.2) (zip (zip r lo) hi) q | None => True end.
Proof.
  intros Hlo Hhi Hr H. destruct (projection_correct r lo hi Hlo Hhi Hr) as [[_ H']|(_ & a & b & Hb & H')]; rewrite H in H'; injection H' as ->; [done|].
  apply clipped_bounds; [done|]. apply fifty_exp, fifty_mid; apply Hb.
Qed.

(** ** Linear constraints *)

Lemma mul_magnitudes x y : magnitude x → magnitude y → f64_is_finite (f64_mul x y) = true → magnitude (f64_mul x y).
Proof.
  destruct x as [s|[]| |[] mx ex], y as [s'|[]| |[] my ey]; try done; intros _ _ Hf;
    first [exact I|by destruct s|by destruct s'|unfold f64_mul; cbn [SFmul xorb]; apply round_magnitude; lia].
Qed.

Lemma not_number x : ¬ is_number x → x = S754_nan.
Proof. unfold is_number. intros Hx. destruct x; try done; by destruct Hx. Qed.

Lemma max_number x y : is_number y → is_number (f64_max x y).
Proof. unfold is_number. intros Hy. destruct x, y; try done; unfold f64_max; by case_match. Qed.

(** A maximum below a bound: nothing exceeds it. *)
Lemma fold_max_le vs tol : ∀ acc, is_number acc → f64_le (fold_left f64_max vs acc) tol = true → f64_le acc tol = true ∧ Forall (λ v, f64_gt v tol = false) vs.
Proof.
  induction vs as [|v vs IH]; intros acc Hacc H; [by split|]. cbn [fold_left] in H. destruct (decide (is_number v)) as [Hv|Hv].
  - destruct (IH (f64_max acc v) (max_number _ _ Hv) H) as [H1 H2]. destruct (f64_max_upper acc v Hacc Hv) as [Ha Hv'].
    split; [by apply (f64_le_trans _ _ _ Ha)|]. constructor; [|done]. pose proof (f64_le_trans _ _ _ Hv' H1) as Hle.
    destruct (f64_le_number _ _ Hle) as [_ Ht]. unfold f64_gt. change (SFltb tol v) with (f64_lt tol v). by rewrite f64_lt_nle, Hle.
  - assert (v = S754_nan) as -> by (by apply not_number).
    assert (f64_max acc S754_nan = acc) as Hm by (by destruct acc). rewrite Hm in H. destruct (IH acc Hacc H) as [H1 H2]. split; [done|]. constructor; [|done].
    unfold f64_gt. by destruct tol.
Qed.

Lemma feasible_constraints a_mat b_vec q tol : f64_le (check_feasible a_mat b_vec q) tol = true → Forall (λ v, f64_gt v tol = false) (violations a_mat b_vec q).
Proof. intros H. by apply (fold_max_le _ _ f64_neg_infinity). Qed.

Lemma reference_ok p lambda a_mat r : Forall magnitude p → modified_reference exp p lambda a_mat = Ok r → length r = length p ∧ Forall magnitude r.
Proof.
  intros Hp H. apply try_map_ok in H. split; [by rewrite <- (Forall2_length _ _ _ H), length_seq|].
  apply Forall_lookup. intros i x Hx. destruct (Forall2_lookup_r _ _ _ _ _ H Hx) as (j & Hj & Hf). clear H Hx.
  apply bind_ok_inv in Hf as (terms & _ & Hf). apply bind_ok_inv in Hf as (pi & Hpi & Hf). apply expect_ok in Hpi. unfold assert_finite in Hf.
  apply assert_bind in Hf as [Hfin Hf]. injection Hf as <-. pose proof (Forall_lookup_1 _ _ _ _ Hp Hpi) as Hm.
  apply mul_magnitudes; [done| |done]. destruct (decide (is_number (f64_neg (f64_sum terms)))) as [Hn|Hn]; [by apply exp_magnitude|].
  rewrite (not_number _ Hn), exp_nan in Hfin. by destruct pi.
Qed.

(** ** Well-formed solvers *)

Definition bounds_ok (b : f64 * f64) : Prop := f64_le b.1 b.2 = true ∧ unit_interval b.1 = true ∧ unit_interval b.2 = true.
Definition solver_ok (s : ConstraintSolver) : Prop := map_Forall (λ _ b, bounds_ok b) (per_arm s).

Lemma new_solver_ok ids alpha s : new_solver ids alpha = Ok s → solver_ok s.
Proof. intros H. apply bind_ok_inv in H as (t & _ & H). injection H as <-. by intros ? ? ?. Qed.

Lemma add_bound_ok s id lo hi s' : solver_ok s → add_per_arm_bound s id lo hi = Ok s' → solver_ok s'.
Proof.
  intros Hs H. unfold add_per_arm_bound in H. apply assert_bind in H as [H1 H]. apply assert_bind in H as [H2 H]. apply assert_bind in H as [H3 H].
  injection H as <-. apply map_Forall_insert_2; [by split|done].
Qed.

Lemma add_linear_ok s l coeffs b s' : solver_ok s → add_linear_constraint s l coeffs b = Ok s' → solver_ok s'.
Proof. intros Hs H. unfold add_linear_constraint, assert_finite in H. apply assert_bind in H as [_ H]. apply assert_bind in H as [_ H]. by injection H as <-. Qed.

Lemma bound_of_ok s id : solver_ok s → bounds_ok (bound_of s id).
Proof. intros Hs. unfold bound_of. destruct (per_arm s !! id) as [b|] eqn:Hb; [by apply (Hs id)|by split_and!]. Qed.

Definition lows (s : ConstraintSolver) : list f64 := (λ id, (bound_of s id).1) <$> arm_ids s.
Definition highs (s : ConstraintSolver) : list f64 := (λ id, (bound_of s id).2) <$> arm_ids s.

(** Every arm within its bounds. *)
Definition allowed (s : ConstraintSolver) (q : list f64) : Prop :=
  Forall2 (λ id x, in_bounds (bound_of s id).1 x (bound_of s id).2) (arm_ids s) q.

Lemma rows_ok s p : solver_ok s → length p = length (arm_ids s) → Forall magnitude p → Forall row_ok (zip (zip p (lows s)) (highs s)).
Proof.
  intros Hs. unfold lows, highs. generalize (arm_ids s) as ids. intros ids. revert p. induction ids as [|id ids IH]; intros [|x p] Hl Hp; [constructor|done|done|].
  apply Forall_cons in Hp as [Hx Hp]. cbn. constructor; [|by apply IH; [injection Hl|]]. destruct (bound_of_ok s id Hs) as (H1 & H2 & H3). by split.
Qed.

Lemma rows_allowed s p q : length p = length (arm_ids s) → Forall2 (λ (row : f64 * f64 * f64) x, in_bounds row.1.2 x row.2) (zip (zip p (lows s)) (highs s)) q → allowed s q.
Proof.
  unfold allowed, lows, highs. generalize (arm_ids s) as ids. intros ids. revert p q. induction ids as [|id ids IH]; intros [|x p] q Hl Hq; try done; cbn in Hq.
  - by apply Forall2_nil_inv_l in Hq as ->.
  - apply Forall2_cons_inv_l in Hq as (y & q' & Hy & Hq & ->). constructor; [done|]. by apply (IH p); [injection Hl|].
Qed.

Lemma projection_allowed s p q : solver_ok s → length p = length (arm_ids s) → Forall magnitude p →
  bisect_kl_projection exp p (lows s) (highs s) = Ok (Some q) → allowed s q.
Proof.
  intros Hs Hl Hp H. apply (rows_allowed s p q Hl). unfold lows, highs in *.
  by apply (projection_bounds p _ _ (Some q)); [by rewrite length_fmap..|by apply rows_ok|].
Qed.

(** A solution of the dual ascent. *)
Definition solution (s : ConstraintSolver) (a_mat : list (list f64)) (b_vec : list f64) (q : list f64) : Prop :=
  allowed s q ∧ Forall (λ v, f64_gt v em5 = false) (violations a_mat b_vec q).

Lemma solution_of s a_mat b_vec q tol : f64_le tol em5 = true → allowed s q → f64_le (check_feasible a_mat b_vec q) tol = true → solution s a_mat b_vec q.
Proof. intros Ht Ha Hc. split; [done|]. by apply feasible_constraints, (f64_le_trans _ tol). Qed.

Lemma dual_loop_sound s p a_mat b_vec q : solver_ok s → length p = length (arm_ids s) → Forall magnitude p → ∀ n lambda best_q best_violation,
  (∀ b, best_q = Some b → allowed s b) → dual_loop exp n p (lows s) (highs s) a_mat b_vec lambda best_q best_violation = Ok (Some q) → solution s a_mat b_vec q.
Proof.
  intros Hs Hl Hp. induction n as [|n IH]; intros lambda best_q best_violation Hbest H; cbn [dual_loop] in H.
  { destruct best_q as [b|]; [|done]. destruct (f64_le _ em5) eqn:E; [|done]. injection H as <-. by apply (solution_of _ _ _ _ em5); [|by apply Hbest|]. }
  apply bind_ok_inv in H as (r & Hr & H). destruct (reference_ok p lambda a_mat r Hp Hr) as [Hrl Hrm]. apply bind_ok_inv in H as (found & Hf & H).
  destruct found as [q'|]; [|done]. pose proof (projection_allowed s r q' Hs ltac:(lia) Hrm Hf) as Hq'.
  destruct (f64_lt _ best_violation); cbv beta iota zeta in H; (destruct (f64_le _ em7) eqn:E;
    [injection H as <-; by apply (solution_of _ _ _ _ em7)|apply bind_ok_inv in H as (lambda' & _ & H)]).
  - apply IH in H; [done|]. by intros b [= <-].
  - by apply IH in H.
Qed.

Lemma solve_sound s p a_mat b_vec q : solver_ok s → length p = length (arm_ids s) → Forall magnitude p →
  solve_kl_general exp p (lows s) (highs s) a_mat b_vec = Ok (Some q) → solution s a_mat b_vec q.
Proof.
  intros Hs Hl Hp H. unfold solve_kl_general in H.
  assert (dual_loop exp MAX_ITER p (lows s) (highs s) a_mat b_vec (replicate (length a_mat) f64_zero) None f64_max_value = Ok (Some q) → solution s a_mat b_vec q) as Hd
    by by apply dual_loop_sound.
  destruct (f64_le (check_feasible a_mat b_vec p) em9); [|by apply Hd]. apply bind_ok_inv in H as ([q'|] & Hf & H); [|by apply Hd].
  destruct (f64_le (check_feasible a_mat b_vec q') em6) eqn:E; [|by apply Hd]. injection H as <-.
  apply (solution_of _ _ _ _ em6); [by vm_compute| |done]. by apply (projection_allowed s p).
Qed.
End exp.

(** ** Applying the constraints *)

Section apply.
Context (exp : f64 → f64) {Hexp : ExpLaws exp}.

Lemma floor_magnitude x : magnitude (f64_max x em300).
Proof.
  assert (em300 = S754_finite false 6032057205060441 (-1049)) as -> by by vm_compute. unfold f64_max.
  destruct x as [s|[]| |[] m e]; try done; by case_match.
Qed.

Lemma linear_violations s q (l : list LinearConstraint) :
  violations (coefficient_row s <$> l) (rhs <$> l) q = (λ c, f64_sub (dot (coefficient_row s c) q) (rhs c)) <$> l.
Proof. induction l as [|c l IH]; [done|]. cbn. f_equal. exact IH. Qed.

(** The raw probabilities of the arms, clamped to the unit interval. *)
Definition clamped_raw (s : ConstraintSolver) (raw : gmap str f64) : list f64 :=
  (λ id, f64_clamp (default f64_zero (raw !! id)) f64_zero f64_one) <$> arm_ids s.

Definition finite_raw (s : ConstraintSolver) (raw : gmap str f64) : Prop :=
  ∀ id, id ∈ arm_ids s → f64_is_finite (default f64_zero (raw !! id)) = true.

Lemma raw_ok s raw : finite_raw s raw → try_map (raw_prob raw) (arm_ids s) = Ok (clamped_raw s raw).
Proof. intros Hraw. apply try_map_pure. intros id Hid. unfold raw_prob, assert_finite. by rewrite Hraw. Qed.

Lemma projection_answers s p : solver_ok s → length p = length (arm_ids s) → Forall magnitude p →
  ∃ o, bisect_kl_projection exp p (lows s) (highs s) = Ok o ∧ ∀ q, o = Some q → allowed s q.
Proof.
  intros Hs Hl Hp. destruct (projection_correct exp p (lows s) (highs s)) as [[_ H]|(_ & a & b & _ & H)];
    [by unfold lows; rewrite length_fmap|by unfold highs; rewrite length_fmap|by apply rows_ok|by exists None|].
  eexists. split; [exact H|]. intros q [= <-]. by apply (projection_allowed exp s p).
Qed.

Lemma fallback_ok s raw : solver_ok s → arm_ids s ≠ [] → (Z.of_nat (length (arm_ids s)) < 2 ^ 64)%Z →
  ∃ r, fallback_feasible_or_infeasible exp s raw (lows s) (highs s) = Ok r ∧
    (r = Infeasible raw ∨ ∃ q, r = Feasible (probability_map (arm_ids s) q) ∧ allowed s q).
Proof.
  intros Hs Hne Hk. unfold fallback_feasible_or_infeasible. destruct (_ || _); [eexists; by split; [|left]|].
  destruct (projection_answers s (replicate (length (arm_ids s)) (f64_div f64_one (f64_of_Z (Z.of_nat (length (arm_ids s))))))) as (o & -> & Ho);
    [done|by rewrite length_replicate| |].
  - apply Forall_replicate, div_magnitude; [done|]. apply of_Z_positive. destruct (arm_ids s); [done|cbn in *; lia].
  - eexists. split; [done|]. destruct o as [q|]; [right; exists q; by split; [|apply Ho]|by left].
Qed.

End apply.

(** ** Impression counts *)

Inductive TrackerStep := SRecord (selected_arm : str) | SAddArm (arm_id : str).

Fixpoint run_tracker (t : ImpressionTracker) (steps : list TrackerStep) : policy ImpressionTracker :=
  match steps with
  | [] => mret t
  | SRecord a :: steps => t ← record t a; run_tracker t steps
  | SAddArm a :: steps => run_tracker (add_arm t a) steps
  end.

Definition tracker_ok (t : ImpressionTracker) : Prop := unit_f64 (tracker_alpha t) ∧ map_Forall (λ _ c, unit_f64 c) (ema t).

Lemma unit_f64_interval x : unit_f64 x → unit_interval x = true.
Proof.
  intros Hx. unfold unit_interval, f64_one. rewrite (unit_le_one x Hx), andb_true_r. by destruct Hx as [[[] ->]|(m & e & -> & _)].
Qed.

Lemma filled_ok (init : f64) (ids : list str) : unit_f64 init → ∀ m : gmap str f64, map_Forall (λ _ c, unit_f64 c) m →
  map_Forall (λ _ c, unit_f64 c) (fold_left (λ m id, <[id := init]> m) ids m).
Proof. intros Hi. induction ids as [|id ids IH]; intros m Hm; [done|]. apply IH. by apply map_Forall_insert_2. Qed.

Lemma new_tracker_ok ids alpha t : valid_f64 alpha → (Z.of_nat (length ids) < 2 ^ 53)%Z → new_tracker ids alpha = Ok t → tracker_ok t.
Proof.
  intros Hv Hn H. unfold new_tracker in H. apply assert_bind in H as [[H0 H1]%andb_prop H]. injection H as <-. split; cbn [tracker_alpha ema].
  - apply unit_interval_fraction; [done| |done]. by apply f64_lt_le.
  - assert (unit_f64 (if 0 <? length ids then f64_div f64_one (f64_of_Z (Z.of_nat (length ids))) else f64_zero)) as Hi.
    { destruct (Nat.ltb_spec 0 (length ids)); [|left; by eexists]. destruct (ratio_share 1 (Z.of_nat (length ids))) as [(m & e & He & _) Hle]; [lia|lia|].
      apply unit_interval_fraction; [apply div_valid| |done]. unfold f64_one. by rewrite He. }
    by apply filled_ok.
Qed.

Lemma record_ok t a : tracker_ok t → ∃ t', record t a = Ok t' ∧ tracker_ok t'.
Proof.
  intros [Ha Hm]. assert (map_Forall (λ _ c, unit_f64 c) (map_imap (λ id c, Some (decayed (tracker_alpha t) a id c)) (ema t))) as Hd.
  { intros id c Hc. rewrite map_lookup_imap in Hc. destruct (ema t !! id) as [c0|] eqn:Hc0; [|done]. injection Hc as <-.
    apply average_unit; [done|by apply (Hm id)|]. case_bool_decide; [right|left; by eexists].
    exists (2 ^ 52)%positive, (-52)%Z. by split_and!. }
  unfold record. rewrite bool_decide_true; [by eexists|]. intros id c Hc. apply unit_finite, unit_f64_interval, (Hd id c Hc).
Qed.

(** The decayed impression counts stay fractions, whatever is recorded: no count leaves the
    unit interval by rounding, so recording never stops the service. *)
Theorem impressions_total ids alpha t steps : valid_f64 alpha → (Z.of_nat (length ids) < 2 ^ 53)%Z → new_tracker ids alpha = Ok t →
  ∃ t', run_tracker t steps = Ok t' ∧ map_Forall (λ _ c, unit_interval c = true) (ema t').
Proof.
  intros Hv Hn H. pose proof (new_tracker_ok ids alpha t Hv Hn H) as Ht. clear H. revert t Ht. induction steps as [|[a|a] steps IH]; intros t Ht; cbn [run_tracker].
  - exists t. split; [done|]. intros id c Hc. by apply unit_f64_interval, (proj2 Ht id).
  - destruct (record_ok t a Ht) as (t' & -> & Ht'). by apply IH.
  - apply IH. unfold add_arm. destruct (ema t !! a); [done|]. destruct Ht as [Ha Hm]. split; [done|]. apply map_Forall_insert_2; [left; by eexists|done].
Qed.

(** ** Examples *)

(** [2^(x log2 e)], the fraction of the exponent interpolated linearly. *)
Definition coarse_exp (x : f64) : f64 :=
  match x with
  | S754_nan => S754_nan
  | S754_zero _ => f64_one
  | S754_infinity s => if s then f64_zero else S754_infinity false
  | S754_finite s m e =>
      let y := Z.shiftl ((if s then - Zpos m else Zpos m) * 14427 / 10000) (e + 52) in
      S754_finite false (Z.to_pos (2 ^ 52 + y mod 2 ^ 52)) (Z.max (-1022) (Z.min 971 (y / 2 ^ 52 - 52)))
  end.

#[local] Instance coarse_exp_laws : ExpLaws coarse_exp.
Proof. split; [intros [s|[]| |s m e] Hx; done|done|intros [s|[]| |s m e] Hf Hx; done]. Qed.

(** Two arms, the first capped at 40%, the two together below 95%. *)
Definition capped : policy ConstraintSolver :=
  s ← new_solver [lit "a"; lit "b"] (f64_ratio 1 100);
  add_per_arm_bound s (lit "a") f64_zero (f64_ratio 4 10).

Definition capped_solver : ConstraintSolver := match capped with Ok s => s | _ => mk_solver [] ∅ [] (mk_tracker ∅ f64_zero 0) end.

Definition skewed : gmap str f64 := list_to_map [(lit "a", f64_ratio 9 10); (lit "b", f64_ratio 1 10)].

Lemma capped_ok : capped = Ok capped_solver ∧ solver_ok capped_solver.
Proof.
  assert (capped = Ok capped_solver) as H by (vm_compute; reflexivity). split; [exact H|]. unfold capped in H.
  apply bind_ok_inv in H as (s & Hs & H). by eapply add_bound_ok; [eapply new_solver_ok|].
Qed.


(** The cap is reached and the rest goes to the other arm, up to the spacing of the doubles. *)
Lemma capped_share :
  match apply coarse_exp capped_solver skewed with
  | Ok (Feasible m) =>
      match m !! lit "a", m !! lit "b" with
      | Some qa, Some qb => f64_eq qa (f64_ratio 4 10) && f64_le (f64_abs (f64_sub qb (f64_ratio 6 10))) (f64_ratio 1 (10 ^ 15))
      | _, _ => false
      end
  | _ => false
  end = true.
Proof. vm_compute. reflexivity. Qed.

Lemma impressions_total_witness : ∃ t t', new_tracker [lit "a"; lit "b"; lit "c"] (f64_ratio 1 100) = Ok t ∧
  run_tracker t [SRecord (lit "a"); SAddArm (lit "d"); SRecord (lit "d"); SRecord (lit "z")] = Ok t' ∧ map_Forall (λ _ c, unit_interval c = true) (ema t').
Proof.
  destruct (new_tracker [lit "a"; lit "b"; lit "c"] (f64_ratio 1 100)) as [t| | |] eqn:H; [|exfalso; revert H; vm_compute; discriminate..].
  destruct (impressions_total [lit "a"; lit "b"; lit "c"] (f64_ratio 1 100) t [SRecord (lit "a"); SAddArm (lit "d"); SRecord (lit "d"); SRecord (lit "z")] ltac:(vm_compute; reflexivity) ltac:(vm_compute; reflexivity) H)
    as (t' & Hr & Ht). exists t, t'. split; [reflexivity|]. split; [exact Hr|exact Ht].
Defined.

(** ** What is not promised *)

(** Without any raw probability the linear constraints are not looked at. *)
Definition tied : policy ConstraintSolver :=
  s ← new_solver [lit "a"; lit "b"] (f64_ratio 1 100);
  add_linear_constraint s (lit "cap") {[lit "a" := f64_one]} (f64_ratio 1 10).

Lemma degenerate_ignores_linear :
  match s ← tied; apply coarse_exp s ∅ with
  | Ok (Feasible m) => match m !! lit "a" with Some qa => f64_gt qa (f64_ratio 4 10) | None => false end
  | _ => false
  end = true.
Proof. vm_compute. reflexivity. Qed.

(** An arm with all the probability and a cap: the mass cannot go to an arm whose reference
    is the floor 1e-300, so the answer is infeasible although the bounds can be met. *)
Lemma dominated_arm_refused exp : exp LOG_C_LO = f64_scale10 19287498479639178 (-38) → exp LOG_C_HI = f64_scale10 5184705528587072 6 →
  let raw := list_to_map [(lit "a", f64_one); (lit "b", f64_zero)] in
  apply exp capped_solver raw = Ok (Infeasible raw) ∧ allowed capped_solver [f64_ratio 4 10; f64_ratio 6 10].
Proof.
  intros H1 H2. cbv zeta. split; [|by repeat constructor]. unfold apply, bisect_kl_projection. rewrite H1, H2. vm_compute. reflexivity.
Qed.

(** A constraint no distribution can meet: the dual variable grows by the violation in every
    iteration until [exp] overflows, and the check on the reference panics. *)
Section contradictory.
Context (exp : f64 → f64) {Hexp : ExpLaws exp}.
Context (exp_overflow : ∀ x, f64_le (f64_of_Z 710) x = true → exp x = S754_infinity false).

Definition pinned : policy ConstraintSolver :=
  s ← new_solver [lit "a"] (f64_ratio 1 100);
  s ← add_per_arm_bound s (lit "a") f64_one f64_one;
  add_linear_constraint s (lit "impossible") {[lit "a" := f64_neg f64_one]} (f64_of_Z (-10)).

Lemma clamp_pinned x : is_number x → f64_clamp x f64_one f64_one = f64_one.
Proof.
  intros Hx. destruct (f64_clamp_bounds x f64_one f64_one Hx) as [H1 H2]; [done|]. revert H1 H2. generalize (f64_clamp x f64_one f64_one). clear.
  assert (f64_one = S754_finite false (2 ^ 52) (-52)) as -> by by vm_compute. intros y H1 H2.
  destruct y as [[]|[]| |[] m e]; try done. apply f64_le_finite in H1, H2. assert (e = (-52)%Z) as -> by lia. f_equal. lia.
Qed.

Lemma pinned_projection r : magnitude r → bisect_kl_projection exp [r] [f64_one] [f64_one] = Ok (Some [f64_one]).
Proof.
  intros Hr. assert (Forall row_ok [(r, f64_one, f64_one)]) as Hrows by (repeat constructor; done).
  assert (∀ c, positive_finite c → clipped [(r, f64_one, f64_one)] c = [f64_one]) as Hc.
  { intros c Hc. unfold clipped. cbn. rewrite clamp_pinned; [done|]. by apply magnitude_number, div_magnitude. }
  destruct ends_within as [E1 E2].
  destruct (projection_correct exp [r] [f64_one] [f64_one] eq_refl eq_refl Hrows) as [[Ho _]|(_ & a & b & Hb & ->)].
  - exfalso. revert Ho. unfold out_of_reach. cbn [zip zip_with]. rewrite !Hc by (by apply fifty_exp). vm_compute. discriminate.
  - cbn [zip zip_with]. rewrite Hc; [done|]. apply fifty_exp, fifty_mid; [done|apply Hb..].
Qed.

(** The dual variable after [k] iterations. *)
Lemma ascent_step k : k < 79 → let lambda := f64_of_Z (9 * Z.of_nat k) in
  let x := f64_neg (f64_sum [f64_mul lambda (f64_neg f64_one)]) in
  is_number x ∧ dual_update (step_size [[f64_neg f64_one]]) [lambda] (violations [[f64_neg f64_one]] [f64_of_Z (-10)] [f64_one]) = Ok [f64_of_Z (9 * Z.of_nat (S k))].
Proof.
  set (lambda := λ k : nat, f64_of_Z (9 * Z.of_nat k)).
  assert ((λ k, (f64_is_nan (f64_neg (f64_sum [f64_mul (lambda k) (f64_neg f64_one)])),
                 dual_update (step_size [[f64_neg f64_one]]) [lambda k] (violations [[f64_neg f64_one]] [f64_of_Z (-10)] [f64_one]))) <$> seq 0 79 =
          (λ k, (false, Ok [lambda (S k)])) <$> seq 0 79) as Hall by (vm_compute; reflexivity).
  intros Hk. apply (f_equal (.!! k)) in Hall. rewrite !list_lookup_fmap, lookup_seq_lt in Hall by done. change (0 + k) with k in Hall. apply (inj Some), pair_equal_spec in Hall as [Hn Hd]. split; [|exact Hd].
  change (is_number (f64_neg (f64_sum [f64_mul (lambda k) (f64_neg f64_one)]))). intros He. by rewrite He in Hn.
Qed.

Lemma ascent_panics j : ∀ k, k + j = 79 → ∀ best_q best_violation,
  dual_loop exp (250 - k) [f64_one] [f64_one] [f64_one] [[f64_neg f64_one]] [f64_of_Z (-10)] [f64_of_Z (9 * Z.of_nat k)] best_q best_violation = Panics.
Proof.
  induction j as [|j IH]; intros k Hk best_q best_violation.
  - assert (k = 79) as -> by lia. change (250 - 79) with 171. cbn [dual_loop].
    assert (modified_reference exp [f64_one] [f64_of_Z (9 * Z.of_nat 79)] [[f64_neg f64_one]] = Panics) as ->; [|done].
    unfold modified_reference. cbn [length seq try_map zip zip_with lookup list_lookup expect mret result_ret mbind result_bind snd fst].
    rewrite exp_overflow by (vm_compute; reflexivity). vm_compute. reflexivity.
  - replace (250 - k) with (S (250 - S k)) by lia. cbn [dual_loop]. destruct (ascent_step k ltac:(lia)) as [Hx Hu]. cbv zeta in Hx, Hu.
    unfold modified_reference. cbn [length seq try_map zip zip_with lookup list_lookup expect mret result_ret mbind result_bind snd fst].
    pose proof (exp_magnitude _ Hx) as Hm. set (e := exp (f64_neg _)) in *. unfold assert_finite. destruct (f64_is_finite (f64_mul f64_one e)) eqn:Ef; [|done].
    cbn [assert_that mret result_ret mbind result_bind]. rewrite pinned_projection by (by apply mul_magnitudes). cbn [mret result_ret mbind result_bind].
    assert (f64_le (check_feasible [[f64_neg f64_one]] [f64_of_Z (-10)] [f64_one]) em7 = false) as -> by (vm_compute; reflexivity).
    rewrite Hu. destruct (f64_lt _ best_violation); cbn [mret result_ret mbind result_bind]; by apply IH; lia.
Qed.

Definition pinned_solver : ConstraintSolver := match pinned with Ok s => s | _ => mk_solver [] ∅ [] (mk_tracker ∅ f64_zero 0) end.

Lemma contradictory_constraint_panics : pinned = Ok pinned_solver ∧ apply exp pinned_solver {[lit "a" := f64_one]} = Panics.
Proof.
  split; [vm_compute; reflexivity|]. assert (arm_ids pinned_solver = [lit "a"]) as Ha by (vm_compute; reflexivity).
  unfold apply. rewrite Ha. rewrite bool_decide_false by done.
  assert (try_map (raw_prob {[lit "a" := f64_one]}) [lit "a"] = Ok [f64_one]) as -> by (vm_compute; reflexivity). cbn [mbind result_bind].
  assert (f64_le (f64_sum [f64_one]) f64_zero = false) as -> by (vm_compute; reflexivity).
  assert ((λ pi, f64_max (f64_div pi (f64_sum [f64_one])) em300) <$> [f64_one] = [f64_one]) as -> by (vm_compute; reflexivity).
  assert ((λ id, (bound_of pinned_solver id).1) <$> [lit "a"] = [f64_one]) as -> by (vm_compute; reflexivity).
  assert ((λ id, (bound_of pinned_solver id).2) <$> [lit "a"] = [f64_one]) as -> by (vm_compute; reflexivity).
  assert (coefficient_row pinned_solver <$> linear pinned_solver = [[f64_neg f64_one]]) as -> by (vm_compute; reflexivity).
  assert (rhs <$> linear pinned_solver = [f64_of_Z (-10)]) as -> by (vm_compute; reflexivity).
  rewrite bool_decide_false by done. unfold solve_kl_general.
  assert (f64_le (check_feasible [[f64_neg f64_one]] [f64_of_Z (-10)] [f64_one]) em9 = false) as -> by (vm_compute; reflexivity).
  pose proof (ascent_panics 79 0 eq_refl None f64_max_value) as H. change (f64_of_Z (9 * Z.of_nat 0)) with f64_zero in H. change (250 - 0) with MAX_ITER in H.
  cbn [length replicate]. by rewrite H.
Qed.
End contradictory.
