(* ===== verification/Mad.v ===== *)
(** Mixture adaptive design ([experimentation-bandit/src/mad.rs]): a bandit policy mixed with
    uniform assignment, and the e-process over the uniformly assigned observations.
    [f64::exp] and [serde_json] are parameters. *)
From Stdlib Require Import Ascii String SpecFloat.
From S2P Require Import Prelude Bytes F64 Hash HashSpec Rng F64Order Bandit.

(** ** The mixer *)

Record MadConfig := mk_mad_config { randomization_fraction : f64; mad_arm_ids : list str }.

(** [Error::Validation] of the core crate. *)
Definition validate_mad (c : MadConfig) : result str unit :=
  if f64_le (randomization_fraction c) f64_zero || f64_ge (randomization_fraction c) f64_one
  then Err (lit "mad_randomization_fraction must be in (0, 1)")
  else if bool_decide (mad_arm_ids c = []) then Err (lit "arm_ids must have at least one arm for MAD mixing")
  else Ok tt.

(** A [MadMixer] is its configuration. *)
Definition new_mixer (c : MadConfig) : result str MadConfig := _ ← validate_mad c; mret c.

Section mixer.
Context {R : Type} `{Rng.Rng R} `{Nalgebra} `{BetaSampler}.

(** [gen_range(0..n)] panics on an empty range. *)
Definition select_uniform (c : MadConfig) (rng : R) : policy (ArmSelection * R) :=
  let n := length (mad_arm_ids c) in
  let prob := f64_div f64_one (f64_of_Z (Z.of_nat n)) in
  _ ← assert_that (0 <? n);
  let '(idx, rng) := Rng.gen_range n rng in
  arm_id ← expect (mad_arm_ids c !! idx);
  mret (mk_arm_selection arm_id prob (probability_map (mad_arm_ids c) (replicate n prob)) true, rng).

Definition mad_select_arm (c : MadConfig) (p : AnyPolicy) (context : option Features) (rng : R) (thread_rng : Bandit.Rng) :
    policy (ArmSelection * R * Bandit.Rng) :=
  let '(coin, rng) := Rng.gen_f64 rng in
  if f64_lt coin (randomization_fraction c)
  then '(s, rng) ← select_uniform c rng; mret (s, rng, thread_rng)
  else
    '(s, thread_rng) ← select_arm p context thread_rng;
    mret (mk_arm_selection (sel_arm_id s) (assignment_probability s) (all_arm_probabilities s) false, rng, thread_rng).
End mixer.

(** ** The e-process *)

Record MadEProcess := mk_eprocess
  { sigma_sq : f64; mad_alpha : f64; uniform_sum : f64; ep_n_uniform : Z; ep_n_total : Z; log_wealth : f64; trajectory : list f64 }.

Record MadEProcessResult := mk_eresult
  { e_value : f64; log_e_value : f64; reject : bool; res_n_uniform : Z; res_n_total : Z; log_wealth_trajectory : list f64 }.

Definition new_eprocess (sigma : f64) (alpha : f64) : result str MadEProcess :=
  if f64_le sigma f64_zero then Err (lit "sigma_sq must be positive")
  else if f64_le alpha f64_zero || f64_ge alpha f64_one then Err (lit "alpha must be in (0, 1)")
  else Ok (mk_eprocess sigma alpha f64_zero 0 0 f64_zero []).

Definition update_eprocess (e : MadEProcess) (reward_diff : f64) (is_uniform : bool) : policy MadEProcess :=
  _ ← assert_finite reward_diff;
  let n_total := u64_succ (ep_n_total e) in
  if negb is_uniform
  then mret (mk_eprocess (sigma_sq e) (mad_alpha e) (uniform_sum e) (ep_n_uniform e) n_total (log_wealth e) (trajectory e))
  else
    let mu_hat_prev := if (ep_n_uniform e =? 0)%Z then f64_zero else f64_div (uniform_sum e) (f64_of_Z (ep_n_uniform e)) in
    let lambda_t := f64_div mu_hat_prev (sigma_sq e) in
    _ ← assert_finite lambda_t;
    let log_increment := f64_sub (f64_mul lambda_t reward_diff)
                           (f64_mul (f64_mul (f64_mul (f64_ratio 1 2) lambda_t) lambda_t) (sigma_sq e)) in
    _ ← assert_finite log_increment;
    let log_wealth := f64_add (log_wealth e) log_increment in
    _ ← assert_finite log_wealth;
    mret (mk_eprocess (sigma_sq e) (mad_alpha e) (f64_add (uniform_sum e) reward_diff) (u64_succ (ep_n_uniform e)) n_total
            log_wealth (trajectory e ++ [log_wealth])).

(** The literal [709.78] and [f64::MAX]. *)
Definition exp_limit : f64 := f64_ratio 70978 100.
Definition f64_MAX : f64 := S754_finite false (2 ^ 53 - 1) 971.

Section result.
Context (exp : f64 → f64).

Definition eprocess_result (e : MadEProcess) : policy MadEProcessResult :=
  e_value ← (if f64_gt (log_wealth e) exp_limit then mret f64_MAX
             else let ev := exp (log_wealth e) in _ ← assert_finite ev; mret ev);
  mret (mk_eresult e_value (log_wealth e) (f64_gt e_value (f64_div f64_one (mad_alpha e))) (ep_n_uniform e) (ep_n_total e) (trajectory e)).
End result.

Section bytes.
Context (serialize : MadEProcess → option str) (deserialize : str → option MadEProcess).
Definition eprocess_to_bytes (e : MadEProcess) : policy str := expect (serialize e).
Definition eprocess_from_bytes (data : str) : policy MadEProcess := expect (deserialize data).
End bytes.

(** ** What the mixture reports *)

Section mixture.
Context {R : Type} `{Rng.RngLaws R} `{Nalgebra} `{BetaSampler}.

(** The uniform part always answers, with an arm of the configuration, its share, and the
    flag that the e-process goes by. *)
Lemma select_uniform_ok c rng : mad_arm_ids c ≠ [] → ∃ s rng', select_uniform c rng = Ok (s, rng') ∧ sel_arm_id s ∈ mad_arm_ids c ∧
  is_uniform_random s = true ∧ assignment_probability s = f64_div f64_one (f64_of_Z (Z.of_nat (length (mad_arm_ids c)))) ∧
  all_arm_probabilities s = probability_map (mad_arm_ids c) (replicate (length (mad_arm_ids c)) (assignment_probability s)).
Proof.
  intros Hne. unfold select_uniform. assert (0 < length (mad_arm_ids c)) as Hn by (destruct (mad_arm_ids c); [done|cbn; lia]).
  rewrite (proj2 (Nat.ltb_lt _ _)) by done. cbn [assert_that mret result_ret mbind result_bind].
  pose proof (Rng.gen_range_lt (length (mad_arm_ids c)) rng Hn) as Hi. destruct (Rng.gen_range _ rng) as [i rng'] eqn:Ei. cbn [fst] in Hi.
  destruct (lookup_lt_is_Some_2 _ _ Hi) as [id Hid]. rewrite Hid. cbn [expect mret result_ret mbind result_bind].
  eexists _, _. split; [reflexivity|]. split_and!; [by eapply list_elem_of_lookup_2|done..].
Qed.

(** The flag tells which part of the mixture chose. *)
Lemma flag_tells c p context rng thread_rng s rng' thread_rng' : mad_select_arm c p context rng thread_rng = Ok (s, rng', thread_rng') →
  is_uniform_random s = f64_lt (Rng.gen_f64 rng).1 (randomization_fraction c) ∧ (is_uniform_random s = true → thread_rng' = thread_rng).
Proof.
  unfold mad_select_arm. destruct (Rng.gen_f64 rng) as [coin rng1]. cbn [fst]. destruct (f64_lt coin _); intros Hs; apply bind_ok_inv in Hs as ([s1 r1] & Hs1 & Hs).
  - injection Hs as <- <- <-. unfold select_uniform in Hs1. apply assert_bind in Hs1 as [_ Hs1].
    destruct (Rng.gen_range _ rng1) as [i r2]. apply bind_ok_inv in Hs1 as (id & _ & Hs1). by injection Hs1 as <- <-.
  - by injection Hs as <- <- <-.
Qed.
End mixture.

(** ** What the e-process depends on *)

Fixpoint run_eprocess (e : MadEProcess) (observations : list (f64 * bool)) : policy MadEProcess :=
  match observations with
  | [] => mret e
  | (x, u) :: observations => e ← update_eprocess e x u; run_eprocess e observations
  end.

(** An e-process with another count of observations. *)
Definition with_total (n : Z) (e : MadEProcess) : MadEProcess :=
  mk_eprocess (sigma_sq e) (mad_alpha e) (uniform_sum e) (ep_n_uniform e) n (log_wealth e) (trajectory e).

Lemma with_total_same e : with_total (ep_n_total e) e = e.
Proof. by destruct e. Qed.

Lemma update_with_total n e x u : update_eprocess (with_total n e) x u =
  (e' ← update_eprocess e x u; mret (with_total (u64_succ n) e')).
Proof.
  unfold update_eprocess, assert_finite, with_total. cbn [sigma_sq mad_alpha uniform_sum ep_n_uniform ep_n_total log_wealth trajectory].
  destruct (f64_is_finite x); [|done]. destruct u; [|done]. cbn [assert_that mbind result_bind mret result_ret negb].
  set (lambda := f64_div _ _). destruct (f64_is_finite lambda); [|done]. cbn [assert_that mbind result_bind mret result_ret].
  set (inc := f64_sub _ _). destruct (f64_is_finite inc); [|done]. cbn [assert_that mbind result_bind mret result_ret].
  by destruct (f64_is_finite (f64_add (log_wealth e) inc)).
Qed.

Lemma run_with_total observations : ∀ n e, run_eprocess (with_total n e) observations =
  (e' ← run_eprocess e observations; mret (with_total (Nat.iter (length observations) u64_succ n) e')).
Proof.
  induction observations as [|[x u] observations IH]; intros n e; cbn [run_eprocess length]; [done|].
  rewrite update_with_total. destruct (update_eprocess e x u) as [e1| | |]; try done. cbn [mbind result_bind mret result_ret].
  rewrite IH. by rewrite Nat.iter_succ_r.
Qed.

(** The observations the bandit assigned leave no trace but their number: the e-process is
    that of the uniformly assigned ones, panics included. *)
Theorem bandit_observations_ignored e observations : Forall (λ o, f64_is_finite o.1 = true) observations →
  run_eprocess e observations =
  (e' ← run_eprocess e (filter (λ o, o.2 = true) observations); mret (with_total (Nat.iter (length observations) u64_succ (ep_n_total e)) e')).
Proof.
  intros Hf. revert e. induction Hf as [|[x u] observations Hx Hf IH]; intros e; [cbn; by rewrite with_total_same|].
  cbn [run_eprocess length]. destruct u.
  - rewrite filter_cons_True by done. cbn [run_eprocess]. destruct (update_eprocess e x true) as [e1| | |] eqn:E; try done. cbn [mbind result_bind mret result_ret].
    rewrite IH. assert (ep_n_total e1 = u64_succ (ep_n_total e)) as ->; [|by rewrite Nat.iter_succ_r].
    revert E. unfold update_eprocess, assert_finite. intros E. apply assert_bind in E as [_ E]. cbn [negb] in E. apply assert_bind in E as [_ E].
    apply assert_bind in E as [_ E]. apply assert_bind in E as [_ E]. by injection E as <-.
  - rewrite filter_cons_False by done. assert (update_eprocess e x false = Ok (with_total (u64_succ (ep_n_total e)) e)) as ->.
    { unfold update_eprocess, assert_finite. cbn [fst] in Hx. by rewrite Hx. }
    cbn [mbind result_bind]. rewrite IH. cbn [ep_n_total with_total]. rewrite run_with_total.
    destruct (run_eprocess e _) as [e1| | |]; try done. cbn [mbind result_bind mret result_ret]. by rewrite Nat.iter_succ_r.
Qed.

(** The wealth is the last point of its trajectory, which has one point per uniformly
    assigned observation. *)
Lemma trajectory_follows e observations e' : (0 ≤ ep_n_uniform e)%Z → (ep_n_uniform e + Z.of_nat (length observations) < 2 ^ 64)%Z →
  ep_n_uniform e = Z.of_nat (length (trajectory e)) → default f64_zero (last (trajectory e)) = log_wealth e →
  run_eprocess e observations = Ok e' →
  ep_n_uniform e' = Z.of_nat (length (trajectory e')) ∧ default f64_zero (last (trajectory e')) = log_wealth e'.
Proof.
  revert e. induction observations as [|[x u] observations IH]; intros e H0 Hn Hl Hw H; cbn [run_eprocess length] in *; [by injection H as <-|].
  apply bind_ok_inv in H as (e1 & H1 & H). revert H1. unfold update_eprocess, assert_finite. intros E. apply assert_bind in E as [_ E]. destruct u; cbn [negb] in E.
  - apply assert_bind in E as [_ E]. apply assert_bind in E as [_ E]. apply assert_bind in E as [_ E]. injection E as <-.
    assert (u64_succ (ep_n_uniform e) = ep_n_uniform e + 1)%Z as Hs by (unfold u64_succ; rewrite Z.mod_small; lia).
    apply IH in H; cbn [ep_n_uniform trajectory log_wealth]; rewrite ?Hs; [done|lia|lia|rewrite length_app; cbn; lia|by rewrite last_snoc].
  - injection E as <-. apply IH in H; cbn [ep_n_uniform trajectory log_wealth]; [done|done|lia|done|done].
Qed.

Lemma bandit_observations_ignored_witness :
  let e := mk_eprocess f64_one (f64_ratio 5 100) f64_zero 0 0 f64_zero [] in
  let o := [(f64_one, true); (f64_of_Z 100, false); (f64_one, true); (f64_neg f64_one, false)] in
  new_eprocess f64_one (f64_ratio 5 100) = Ok e ∧
  run_eprocess e o = (e' ← run_eprocess e [(f64_one, true); (f64_one, true)]; mret (with_total 4 e')) ∧
  match run_eprocess e o with Ok e' => f64_eq (log_wealth e') (f64_ratio 1 2) | _ => false end = true.
Proof.
  cbv zeta. split; [vm_compute; reflexivity|]. split; [|vm_compute; reflexivity].
  refine (bandit_observations_ignored _ [(f64_one, true); (f64_of_Z 100, false); (f64_one, true); (f64_neg f64_one, false)] _). repeat constructor.
Defined.

(** A NaN passes the validation: such a mixture never assigns uniformly, and such a
    variance makes the first uniform observation panic. *)
Lemma nan_accepted : is_ok (new_mixer (mk_mad_config S754_nan [lit "a"])) = true ∧ (∀ coin, f64_lt coin S754_nan = false) ∧
  match new_eprocess S754_nan (f64_ratio 5 100) with Ok e => update_eprocess e f64_one true = Panics | _ => False end.
Proof. split; [by vm_compute|]. split; [by intros [|[]| |[]]|by vm_compute]. Qed.
