(* ===== verification/SwitchbackAnalysis.v ===== *)
(** Analysis of switchback experiments ([experimentation-stats/src/switchback.rs] and the
    handler get_switchback_analysis of [experimentation-analysis/src/grpc.rs]): least squares
    on the treatment indicator, the Newey-West standard error, the randomization test with
    its exact enumeration and its Monte Carlo shuffle, and the carryover diagnostic.

    [f64::ln], [f64::powf] and the Student distribution of [statrs] are parameters; [powi(2)]
    is a product. The randomization test is proved to be the permutation test: its exact
    p-value is the share of all assignments with as many treated blocks whose effect is at
    least the observed one. *)
From Stdlib Require Import Ascii String SpecFloat.
From S2P Require Import Prelude Bytes F64 F64Mono F64Sum Hash HashSpec Rng F64Order F64Round Bandit DeltaReader.

Inductive StatsError := Numerical | TooFewBlocks | OneArm | BadAlpha | OneAssignment | BadDegrees.

Abbreviation stats := (result StatsError).

Definition check_finite (x : f64) : stats unit := if f64_is_finite x then Ok tt else Panics.

Fixpoint check_all (l : list f64) : stats unit := match l with [] => mret tt | x :: l => _ ← check_finite x; check_all l end.

Definition f64_of_nat (n : nat) : f64 := f64_of_Z (Z.of_nat n).
Definition square (x : f64) : f64 := f64_mul x x.
Definition em15 : f64 := f64_ratio 1 (10 ^ 15).

(** [ttest::mean]. *)
Definition mean_of (xs : list f64) : f64 := f64_div (f64_sum xs) (f64_of_nat (length xs)).

(** [x.ceil() as usize]. *)
Definition ceil_usize (x : f64) : Z :=
  match x with
  | S754_finite false m e => Z.min (2 ^ 64 - 1) (if (0 <=? e)%Z then Z.shiftl (Zpos m) e else - ((- Zpos m) / 2 ^ (- e)))
  | S754_infinity false => 2 ^ 64 - 1
  | _ => 0
  end%Z.

(** ** The analyzer *)

Definition by_index (a b : BlockOutcome) : bool := (block_index a <=? block_index b)%Z.

Definition new_analyzer (blocks : list BlockOutcome) : stats (list BlockOutcome) :=
  _ ← check_all (metric_value <$> blocks);
  let effective := sort_by by_index (filter (λ b, in_washout b = false) blocks) in
  if length effective <? 4 then Err TooFewBlocks
  else
    let has_treatment := existsb is_treatment effective in
    let has_control := existsb (λ b, negb (is_treatment b)) effective in
    if negb has_treatment || negb has_control then Err OneArm else mret effective.

(** ** Least squares and the standard error *)

Definition ols (y d : list f64) : stats (f64 * f64 * list f64) :=
  let nf := f64_of_nat (length y) in
  let mean_d := f64_div (f64_sum d) nf in
  let mean_y := f64_div (f64_sum y) nf in
  let sxy := f64_sum (zip_with (λ di yi, f64_mul (f64_sub di mean_d) (f64_sub yi mean_y)) d y) in
  let sxx := f64_sum ((λ di, square (f64_sub di mean_d)) <$> d) in
  _ ← check_finite sxy;
  _ ← check_finite sxx;
  if f64_lt sxx em15 then Err OneAssignment
  else
    let beta1 := f64_div sxy sxx in
    let beta0 := f64_sub mean_y (f64_mul beta1 mean_d) in
    _ ← check_finite beta1;
    _ ← check_finite beta0;
    let residuals := zip_with (λ yi di, f64_sub (f64_sub yi beta0) (f64_mul beta1 di)) y d in
    _ ← check_all residuals;
    mret (beta0, beta1, residuals).

(** The products of the entries [lag] apart, summed. *)
Definition lagged (f : f64 → f64 → f64) (lag : nat) (xs : list f64) : f64 :=
  f64_sum (zip_with f (drop lag xs) (take (length xs - lag) xs)).

Definition lag1_autocorr (x : list f64) : f64 :=
  let n := length x in
  if n <? 3 then f64_zero
  else
    let nf := f64_of_nat n in
    let mean := mean_of x in
    let variance := f64_div (f64_sum ((λ xi, square (f64_sub xi mean)) <$> x)) nf in
    if f64_lt variance em15 then f64_zero
    else
      let cov := f64_div (lagged (λ xt xt1, f64_mul (f64_sub xt mean) (f64_sub xt1 mean)) 1 x) nf in
      f64_clamp (f64_div cov variance) (f64_neg f64_one) f64_one.

(** ** Randomization *)

(** The mean of the treated blocks less the mean of the others. *)
Fixpoint effect_loop (y d : list f64) (sum_t : f64) (cnt_t : nat) (sum_c : f64) (cnt_c : nat) : f64 :=
  match y, d with
  | yi :: y, di :: d =>
      if f64_gt di (f64_ratio 1 2) then effect_loop y d (f64_add sum_t yi) (S cnt_t) sum_c cnt_c
      else effect_loop y d sum_t cnt_t (f64_add sum_c yi) (S cnt_c)
  | _, _ =>
      if (cnt_t =? 0) || (cnt_c =? 0) then f64_zero
      else f64_sub (f64_div sum_t (f64_of_nat cnt_t)) (f64_div sum_c (f64_of_nat cnt_c))
  end.

Definition effect_statistic (y d : list f64) : f64 := effect_loop y d f64_zero 0 f64_zero 0.

Definition as_extreme (y : list f64) (observed : f64) (d : list f64) : bool :=
  f64_ge (f64_abs (effect_statistic y d)) (f64_abs observed).

(** The counters of [EnumerateCtx]. *)
Record Counts := mk_counts { extreme : Z; total : Z }.

Definition count_one (y : list f64) (observed : f64) (d : list f64) (c : Counts) : Counts :=
  mk_counts (if as_extreme y observed d then u64_succ (extreme c) else extreme c) (u64_succ (total c)).

(** [d[pos] = x], which panics out of range. *)
Definition set_at (pos : nat) (x : f64) (d : list f64) : stats (list f64) :=
  if pos <? length d then mret (<[pos := x]> d) else Panics.

(** [d[pos..].fill(0.0)], which panics beyond the end. *)
Definition fill_from (pos : nat) (d : list f64) : stats (list f64) :=
  if pos <=? length d then mret (take pos d ++ replicate (length d - pos) f64_zero) else Panics.

(** The recursion over positions; the assignment [d] is one vector that all calls write. *)
Fixpoint enumerate (fuel : nat) (y : list f64) (k : nat) (observed : f64) (d : list f64) (c : Counts) (pos chosen : nat) : stats (list f64 * Counts) :=
  match fuel with
  | O => OutOfFuel
  | S fuel =>
      if chosen =? k
      then d ← fill_from pos d; mret (d, count_one y observed d c)
      else
        let remaining_slots := length y - pos in
        let remaining_needed := k - chosen in
        if remaining_slots <? remaining_needed then mret (d, c)
        else
          d ← set_at pos f64_one d;
          '(d, c) ← enumerate fuel y k observed d c (S pos) (S chosen);
          d ← set_at pos f64_zero d;
          enumerate fuel y k observed d c (S pos) chosen
  end.

Definition exact_p_value (y : list f64) (k : nat) (observed : f64) : stats f64 :=
  let t := length y in
  '(_, c) ← enumerate (S (S t)) y k observed (replicate t f64_zero) (mk_counts 0 0) 0 0;
  if (total c =? 0)%Z then mret f64_one else mret (f64_div (f64_of_Z (extreme c)) (f64_of_Z (total c))).

Definition u64_max : Z := (2 ^ 64 - 1)%Z.

(** The loop of [binomial_coeff] over the factors [i .. k - 1]. *)
Fixpoint binomial_loop (n : nat) (i rest : nat) (acc : Z) : Z :=
  match rest with
  | O => acc
  | S rest =>
      let product := (acc * Z.of_nat (n - i))%Z in
      if (product <=? u64_max)%Z then binomial_loop n (S i) rest (product / Z.of_nat (S i))%Z else u64_max
  end.

Definition binomial_coeff (n k : nat) : Z :=
  if n <? k then 0%Z
  else let k := min k (n - k) in if k =? 0 then 1%Z else binomial_loop n 0 k 1.

Section monte_carlo.
Context {R : Type} `{Rng.Rng R}.

Definition swap (i j : nat) (d : list f64) : stats (list f64) :=
  match d !! i, d !! j with Some a, Some b => mret (<[j := a]> (<[i := b]> d)) | _, _ => Panics end.

(** The Fisher-Yates loop, [i] from [n] down to 1. *)
Fixpoint shuffle (n : nat) (d : list f64) (rng : R) : stats (list f64 * R) :=
  match n with
  | O => mret (d, rng)
  | S m =>
      let '(j, rng) := Rng.gen_range (S n) rng in
      d ← swap n j d;
      shuffle m d rng
  end.

Fixpoint mc_loop (n : nat) (y : list f64) (observed : f64) (d : list f64) (rng : R) (extreme : Z) : stats Z :=
  match n with
  | O => mret extreme
  | S n =>
      '(d, rng) ← shuffle (length y - 1) d rng;
      mc_loop n y observed d rng (if as_extreme y observed d then (extreme + 1) mod 2 ^ 32 else extreme)%Z
  end.

Definition mc_p_value (y : list f64) (k : nat) (observed : f64) (n_permutations : nat) (rng_seed : Z) : stats f64 :=
  let t := length y in
  if k <=? t
  then
    let d := replicate k f64_one ++ replicate (t - k) f64_zero in
    extreme ← mc_loop n_permutations y observed d (Rng.seed_from_u64 rng_seed) 0%Z;
    mret (f64_div (f64_of_Z extreme) (f64_of_nat n_permutations))
  else Panics.

Definition treated_count (treatment : list f64) : nat := length (filter (λ d, f64_gt d (f64_ratio 1 2) = true) treatment).

Definition randomization_test_internal (outcomes treatment : list f64) (n_permutations : nat) (rng_seed : Z) : stats f64 :=
  let t := length outcomes in
  let k := treated_count treatment in
  let observed := effect_statistic outcomes treatment in
  p ← (if (binomial_coeff t k <=? Z.of_nat n_permutations)%Z then exact_p_value outcomes k observed
       else mc_p_value outcomes k observed n_permutations rng_seed);
  mret (f64_clamp p f64_zero f64_one).

(** ** The analysis *)

Definition outcomes_of (blocks : list BlockOutcome) : list f64 := metric_value <$> blocks.
Definition treatment_of (blocks : list BlockOutcome) : list f64 := (λ b, if is_treatment b then f64_one else f64_zero) <$> blocks.

Definition randomization_test (blocks : list BlockOutcome) (n_permutations : nat) : stats f64 :=
  randomization_test_internal (outcomes_of blocks) (treatment_of blocks) n_permutations 0.

Section analysis.
(** [f64::ln], [f64::powf], and [StudentsT::new(0.0, 1.0, df)] with its [cdf]. *)
Context (ln : f64 → f64) (powf : f64 → f64 → f64) (students_t : f64 → option (f64 → f64)).

Definition newey_west_hac (d residuals : list f64) : stats (f64 * Z) :=
  let t := length d in
  let tf := f64_of_nat t in
  let mean_d := f64_div (f64_sum d) tf in
  let sxx := f64_sum ((λ di, square (f64_sub di mean_d)) <$> d) in
  if f64_lt sxx em15 then Err OneAssignment
  else
    let scores := zip_with (λ di ei, f64_mul (f64_sub di mean_d) ei) d residuals in
    let rho := lag1_autocorr scores in
    let limit := f64_ratio 9999 10000 in
    let rho_clamped := f64_clamp rho (f64_neg limit) limit in
    let alpha1 := f64_div (f64_mul (f64_of_Z 2) (square rho_clamped)) (f64_max (f64_sub f64_one (square rho_clamped)) em15) in
    let h_f := f64_mul (f64_ratio 11447 10000) (powf (f64_max (f64_mul alpha1 tf) f64_zero) (f64_div f64_one (f64_of_Z 3))) in
    let h := Z.to_nat (Z.min (Z.max (ceil_usize h_f) 1) (Z.of_nat t - 1)) in
    let gamma0 := f64_div (f64_sum (square <$> scores)) tf in
    let omega := fold_left (λ omega lag,
        let weight := f64_sub f64_one (f64_div (f64_of_nat lag) (f64_add (f64_of_nat h) f64_one)) in
        let gamma_h := f64_div (lagged f64_mul lag scores) tf in
        f64_add omega (f64_mul (f64_mul (f64_of_Z 2) weight) gamma_h)) (seq 1 h) gamma0 in
    _ ← check_finite omega;
    let variance := f64_div (f64_mul tf (f64_max omega f64_zero)) (square sxx) in
    _ ← check_finite variance;
    let se := f64_sqrt variance in
    _ ← check_finite se;
    mret (se, Z.of_nat h mod 2 ^ 32)%Z.

Definition carryover (residuals : list f64) : stats (f64 * f64) :=
  let n := length residuals in
  let r1 := lag1_autocorr residuals in
  let left := f64_sub f64_one (f64_mul r1 r1) in
  p_value ← (if (n <? 4) || f64_lt left em15 then mret f64_one
             else
               let df := f64_of_nat (n - 2) in
               let t_stat := f64_mul r1 (f64_sqrt (f64_div df left)) in
               _ ← check_finite t_stat;
               match students_t df with
               | None => Err BadDegrees
               | Some cdf =>
                   let p := f64_mul (f64_of_Z 2) (f64_sub f64_one (cdf (f64_abs t_stat))) in
                   _ ← check_finite p;
                   mret (f64_clamp p f64_zero f64_one)
               end);
  mret (r1, p_value).

Definition normal_quantile (p : f64) : f64 :=
  let t := f64_sqrt (f64_mul (f64_of_Z (-2)) (ln (f64_sub f64_one p))) in
  let c i := f64_ratio i (10 ^ 6) in
  let num := f64_add (f64_add (c 2515517%Z) (f64_mul (c 802853%Z) t)) (f64_mul (f64_mul (c 10328%Z) t) t) in
  let den := f64_add (f64_add (f64_add f64_one (f64_mul (c 1432788%Z) t)) (f64_mul (f64_mul (c 189269%Z) t) t)) (f64_mul (f64_mul (f64_mul (c 1308%Z) t) t) t) in
  f64_sub t (f64_div num den).

Record SwitchbackResult := mk_switchback
  { sb_effect : f64; hac_se : f64; ci_lower : f64; ci_upper : f64; randomization_p_value : f64; effective_blocks : Z;
    lag1_autocorrelation : f64; carryover_test_p_value : f64; hac_bandwidth : Z }.

Definition valid_alpha (alpha : f64) : bool := negb (f64_le alpha f64_zero || f64_ge alpha f64_one).

Definition analyze (blocks : list BlockOutcome) (alpha : f64) (n_permutations : nat) (rng_seed : Z) : stats SwitchbackResult :=
  if negb (valid_alpha alpha) then Err BadAlpha
  else
    let outcomes := outcomes_of blocks in
    let treatment := treatment_of blocks in
    '(_, effect, residuals) ← ols outcomes treatment;
    _ ← check_finite effect;
    '(se, bandwidth) ← newey_west_hac treatment residuals;
    _ ← check_finite se;
    let z_alpha2 := normal_quantile (f64_sub f64_one (f64_div alpha (f64_of_Z 2))) in
    let lower := f64_sub effect (f64_mul z_alpha2 se) in
    let upper := f64_add effect (f64_mul z_alpha2 se) in
    _ ← check_finite lower;
    _ ← check_finite upper;
    randomization ← randomization_test_internal outcomes treatment n_permutations rng_seed;
    '(r1, carryover_p) ← carryover residuals;
    mret (mk_switchback effect se lower upper randomization (Z.of_nat (length blocks) mod 2 ^ 32)%Z r1 carryover_p bandwidth).

(** [SwitchbackAnalyzer::carryover_test]. *)
Definition carryover_test (blocks : list BlockOutcome) (alpha : f64) : stats (f64 * f64) :=
  if negb (valid_alpha alpha) then Err BadAlpha
  else '(_, _, residuals) ← ols (outcomes_of blocks) (treatment_of blocks); carryover residuals.

(** ** The handler *)

Inductive AnalysisStatus := MissingExperimentId | ReaderFailed (e : ReadError) | InitializationFailed (e : StatsError) | AnalysisFailed (e : StatsError).

Record SwitchbackAnalysisResult := mk_analysis
  { an_experiment_id : str; treatment_effect : f64; an_hac_se : f64; an_ci_lower : f64; an_ci_upper : f64;
    hac_p_value : f64; ri_p_value : f64; carryover_p_value : f64; carryover_detected : bool }.

Definition get_switchback_analysis (table : option (list Batch)) (default_alpha : f64) (experiment_id : str) : result AnalysisStatus SwitchbackAnalysisResult :=
  if bool_decide (experiment_id = []) then Err MissingExperimentId
  else
    periods ← map_err ReaderFailed (read_switchback_periods table experiment_id);
    blocks ← map_err InitializationFailed (new_analyzer periods);
    r ← map_err AnalysisFailed (analyze blocks default_alpha (Z.to_nat 10000) 42);
    mret (mk_analysis experiment_id (sb_effect r) (hac_se r) (ci_lower r) (ci_upper r) f64_zero
            (randomization_p_value r) (carryover_test_p_value r) (f64_lt (carryover_test_p_value r) default_alpha)).
End analysis.
End monte_carlo.

(** ** The assignments of a permutation test *)

(** Assignments of [r] blocks, [n] of them treated. *)
Fixpoint assignments (r n : nat) : list (list f64) :=
  match n with
  | O => [replicate r f64_zero]
  | S n => match r with O => [] | S r => (cons f64_one <$> assignments r n) ++ (cons f64_zero <$> assignments r (S n)) end
  end.

(** Pascal's triangle. *)
Fixpoint choose (r n : nat) : nat :=
  match n with
  | O => 1
  | S n => match r with O => 0 | S r => choose r n + choose r (S n) end
  end.

(** Blocks are treated or not. *)
Definition binary (d : list f64) : Prop := Forall (λ x, x = f64_zero ∨ x = f64_one) d.

Lemma treated_cons x d : treated_count (x :: d) = (if f64_gt x (f64_ratio 1 2) then 1 else 0) + treated_count d.
Proof. unfold treated_count. rewrite filter_cons. by destruct (f64_gt x (f64_ratio 1 2)); [rewrite decide_True|rewrite decide_False]. Qed.

Lemma treated_one d : treated_count (f64_one :: d) = S (treated_count d).
Proof. rewrite treated_cons. by assert (f64_gt f64_one (f64_ratio 1 2) = true) as -> by (vm_compute; reflexivity). Qed.

Lemma treated_zero d : treated_count (f64_zero :: d) = treated_count d.
Proof. rewrite treated_cons. by assert (f64_gt f64_zero (f64_ratio 1 2) = false) as -> by (vm_compute; reflexivity). Qed.

Lemma treated_none d : binary d → treated_count d = 0 → d = replicate (length d) f64_zero.
Proof.
  induction 1 as [|x d [->| ->] Hd IH]; intros Ht; [done| |by rewrite treated_one in Ht].
  rewrite treated_zero in Ht. cbn. f_equal. by apply IH.
Qed.

Lemma treated_replicate r : treated_count (replicate r f64_zero) = 0.
Proof. induction r as [|r IH]; [done|]. cbn [replicate]. by rewrite treated_zero. Qed.

Lemma elem_of_assignments r : ∀ n d, d ∈ assignments r n ↔ length d = r ∧ binary d ∧ treated_count d = n.
Proof.
  induction r as [|r IH]; intros [|n] d; cbn [assignments].
  - rewrite list_elem_of_singleton. split; [by intros ->; split_and!; [|constructor|]|]. intros (Hl & _). by apply length_zero_iff_nil in Hl as ->.
  - split; [by intros ?%not_elem_of_nil|]. intros (Hl & _ & Ht). apply length_zero_iff_nil in Hl as ->. done.
  - rewrite list_elem_of_singleton. split.
    + intros ->. split_and!; [by rewrite length_replicate|by apply Forall_replicate; left|apply treated_replicate].
    + intros (Hl & Hb & Ht). rewrite <- Hl. by apply treated_none.
  - rewrite elem_of_app, !list_elem_of_fmap. setoid_rewrite IH. split.
    + intros [(d' & -> & Hl & Hb & Ht)|(d' & -> & Hl & Hb & Ht)]; (split_and!; [by cbn; rewrite Hl|constructor; [auto|done]|]); [by rewrite treated_one, Ht|by rewrite treated_zero].
    + intros (Hl & Hb & Ht). destruct d as [|x d]; [done|]. apply Forall_cons in Hb as [[->| ->] Hb]; injection Hl as Hl.
      * right. exists d. by rewrite treated_zero in Ht.
      * left. exists d. rewrite treated_one in Ht. by injection Ht.
Qed.

Lemma NoDup_assignments r : ∀ n, NoDup (assignments r n).
Proof.
  induction r as [|r IH]; intros [|n]; cbn [assignments]; [apply NoDup_singleton|apply NoDup_nil_2|apply NoDup_singleton|].
  apply NoDup_app. split_and!; [by apply NoDup_fmap_2; [apply _|]| |by apply NoDup_fmap_2; [apply _|]].
  intros d (d1 & -> & _)%list_elem_of_fmap (d2 & Hd & _)%list_elem_of_fmap. by injection Hd.
Qed.

Lemma length_assignments r : ∀ n, length (assignments r n) = choose r n.
Proof. induction r as [|r IH]; intros [|n]; cbn [assignments choose]; [done..|]. by rewrite length_app, !length_fmap, !IH. Qed.

Lemma assignments_none r n : r < n → assignments r n = [].
Proof.
  revert n. induction r as [|r IH]; intros [|n] Hn; cbn [assignments]; [lia|done|lia|]. by rewrite !IH by lia.
Qed.

Lemma assignments_all r : assignments r 0 = [replicate r f64_zero].
Proof. by destruct r. Qed.

(** ** The enumeration *)

(** Counting assignments one after the other. *)
Definition visit (y : list f64) (observed : f64) (ds : list (list f64)) (c : Counts) : Counts := fold_left (λ c d, count_one y observed d c) ds c.

Lemma take_set pos x (d : list f64) : pos < length d → take (S pos) (<[pos := x]> d) = take pos d ++ [x].
Proof. intros Hp. rewrite (take_S_r _ _ x) by by apply list_lookup_insert_eq. by rewrite take_insert_ge by lia. Qed.

Lemma take_shorter {A} (a b : list A) n m : n ≤ m → take m a = take m b → take n a = take n b.
Proof. intros Hn H. rewrite <- (Nat.min_l n m) by done. by rewrite <- !take_take, H. Qed.

(** The recursion visits every completion of the prefix once, treated blocks first. *)
Lemma enumerate_visits y k observed fuel : ∀ d c pos chosen, length d = length y → pos ≤ length y → chosen ≤ k → length y - pos < fuel →
  ∃ d', enumerate fuel y k observed d c pos chosen = Ok (d', visit y observed ((take pos d ++.) <$> assignments (length y - pos) (k - chosen)) c) ∧
    length d' = length y ∧ take pos d' = take pos d.
Proof.
  induction fuel as [|fuel IH]; intros d c pos chosen Hl Hp Hc Hf; [lia|]. cbn [enumerate]. destruct (Nat.eqb_spec chosen k) as [->|Hne].
  { unfold fill_from. rewrite (proj2 (Nat.leb_le _ _)) by lia. cbn [mbind result_bind mret result_ret]. rewrite Nat.sub_diag, assignments_all, Hl.
    eexists. split; [reflexivity|]. rewrite length_app, length_take, length_replicate. split; [lia|].
    rewrite take_app_le, take_take, Nat.min_id by (rewrite length_take; lia). done. }
  destruct (Nat.ltb_spec (length y - pos) (k - chosen)).
  { rewrite assignments_none by done. by exists d. }
  unfold set_at. rewrite (proj2 (Nat.ltb_lt pos (length d))) by lia. cbn [mbind result_bind mret result_ret].
  destruct (IH (<[pos := f64_one]> d) c (S pos) (S chosen)) as (d1 & -> & Hl1 & Ht1); [by rewrite length_insert|lia|lia|lia|]. cbn [mbind result_bind mret result_ret].
  rewrite take_set in Ht1 |- * by lia. rewrite (proj2 (Nat.ltb_lt pos (length d1))) by lia. cbn [mbind result_bind mret result_ret].
  destruct (IH (<[pos := f64_zero]> d1) (visit y observed ((((take pos d ++ [f64_one]) ++.) <$> assignments (length y - S pos) (k - S chosen))) c) (S pos) chosen)
    as (d2 & -> & Hl2 & Ht2); [by rewrite length_insert|lia|lia|lia|].
  rewrite take_set in Ht2 |- * by lia.
  assert (take pos d1 = take pos d) as Hd1.
  { apply (f_equal (take pos)) in Ht1. rewrite take_take, Nat.min_l in Ht1 by lia. rewrite Ht1, take_app_le, take_take, Nat.min_id by (rewrite length_take; lia). done. }
  exists d2. rewrite Hd1 in *. split_and!; [|done|].
  - f_equal. f_equal. replace (length y - pos) with (S (length y - S pos)) by lia. replace (k - chosen) with (S (k - S chosen)) by lia. cbn [assignments].
    rewrite fmap_app, <- !list_fmap_compose. unfold visit. rewrite fold_left_app. replace (S (k - S chosen)) with (k - chosen) by lia.
    f_equal; [apply list_fmap_ext; intros; cbn; by rewrite <- app_assoc|]. f_equal. apply list_fmap_ext. intros. cbn. by rewrite <- app_assoc.
  - apply (f_equal (take pos)) in Ht2. rewrite take_take, Nat.min_l in Ht2 by lia. rewrite Ht2, take_app_le, take_take, Nat.min_id by (rewrite length_take; lia). done.
Qed.

(** ** Counting *)

Definition extremes (y : list f64) (observed : f64) (ds : list (list f64)) : nat := length (filter (λ d, as_extreme y observed d = true) ds).

Lemma extremes_cons y observed d ds : extremes y observed (d :: ds) = (if as_extreme y observed d then 1 else 0) + extremes y observed ds.
Proof. unfold extremes. rewrite filter_cons. by destruct (as_extreme y observed d); [rewrite decide_True|rewrite decide_False]. Qed.

Lemma extremes_le y observed ds : extremes y observed ds ≤ length ds.
Proof. apply length_filter. Qed.

Lemma visit_counts y observed ds : ∀ e n, (0 ≤ e)%Z → (0 ≤ n)%Z → (e + Z.of_nat (length ds) < 2 ^ 64)%Z → (n + Z.of_nat (length ds) < 2 ^ 64)%Z →
  visit y observed ds (mk_counts e n) = mk_counts (e + Z.of_nat (extremes y observed ds)) (n + Z.of_nat (length ds)).
Proof.
  unfold visit. induction ds as [|d ds IH]; intros e n He Hn He' Hn'; [cbn; by rewrite !Z.add_0_r|]. cbn [fold_left length] in *. rewrite extremes_cons.
  unfold count_one at 2. cbn [extreme total]. unfold u64_succ. rewrite (Z.mod_small (n + 1)) by lia.
  destruct (as_extreme y observed d); [rewrite (Z.mod_small (e + 1)) by lia|]; rewrite IH by lia; f_equal; lia.
Qed.

(** The exact p-value is the share of the assignments that are as extreme. *)
Lemma exact_share y k observed : k ≤ length y → (Z.of_nat (choose (length y) k) < 2 ^ 64)%Z →
  exact_p_value y k observed = Ok (f64_div (f64_of_nat (extremes y observed (assignments (length y) k))) (f64_of_nat (length (assignments (length y) k)))) ∧
  0 < length (assignments (length y) k).
Proof.
  intros Hk Hc. assert (0 < length (assignments (length y) k)) as Hpos.
  { apply Nat.neq_0_lt_0. intros Hz. apply length_zero_iff_nil in Hz.
    assert (replicate k f64_one ++ replicate (length y - k) f64_zero ∈ assignments (length y) k) as Hin; [|rewrite Hz in Hin; by apply not_elem_of_nil in Hin].
    apply elem_of_assignments. rewrite length_app, !length_replicate. split_and!; [lia|apply Forall_app; split; apply Forall_replicate; auto|].
    clear. generalize (length y - k). intros r. induction k as [|k IH]; [apply treated_replicate|]. cbn [replicate app]. by rewrite treated_one, IH. }
  split; [|done]. unfold exact_p_value.
  destruct (enumerate_visits y k observed (S (S (length y))) (replicate (length y) f64_zero) (mk_counts 0 0) 0 0) as (d' & -> & _); [by rewrite length_replicate|lia..|].
  rewrite !Nat.sub_0_r. cbn [mbind result_bind].
  assert (app (take 0 (replicate (length y) f64_zero)) <$> assignments (length y) k = assignments (length y) k) as -> by apply list_fmap_id.
  rewrite visit_counts by (rewrite ?length_assignments; lia). cbn [total extreme]. rewrite !Z.add_0_l.
  by rewrite (proj2 (Z.eqb_neq _ 0)) by lia.
Qed.

(** ** Shares *)

Lemma share_ok a b : a ≤ b → 0 < b → (Z.of_nat b < 2 ^ 53)%Z →
  unit_interval (f64_div (f64_of_nat a) (f64_of_nat b)) = true ∧ (0 < a → f64_gt (f64_div (f64_of_nat a) (f64_of_nat b)) f64_zero = true).
Proof.
  intros Hab Hb Hmax. destruct a as [|a].
  - split; [|lia]. pose proof (of_Z_positive (Z.of_nat b) ltac:(lia)) as Hp. unfold f64_of_nat. change (f64_of_Z (Z.of_nat 0)) with f64_zero.
    by destruct (f64_of_Z (Z.of_nat b)) as [|[]| |[]].
  - destruct (ratio_share (Z.of_nat (S a)) (Z.of_nat b)) as [(m & e & He & _) Hle]; [lia|lia|]. unfold f64_of_nat, unit_interval, f64_one. rewrite Hle, andb_true_r.
    by rewrite He.
Qed.

Lemma clamp_unit x : unit_interval x = true → f64_clamp x f64_zero f64_one = x.
Proof.
  intros [H0 H1]%andb_prop. destruct (f64_le_number _ _ H0) as [Hz Hx]. destruct (f64_le_number _ _ H1) as [_ Ho]. unfold f64_clamp, f64_gt.
  change (SFltb f64_one x) with (f64_lt f64_one x). rewrite !f64_lt_nle, H0, H1 by done. done.
Qed.

(** ** Binomial coefficients *)

Lemma choose_none r n : r < n → choose r n = 0.
Proof. intros H. by rewrite <- length_assignments, assignments_none. Qed.

Lemma choose_0 r : choose r 0 = 1.
Proof. by destruct r. Qed.

Lemma choose_n r : choose r r = 1.
Proof. induction r as [|r IH]; [done|]. cbn [choose]. rewrite IH, choose_none by lia. done. Qed.

Lemma choose_step n : ∀ i, choose n (S i) * S i = choose n i * (n - i).
Proof.
  induction n as [|n IH]; intros i; [by destruct i|]. destruct i as [|i].
  - cbn [choose]. specialize (IH 0). rewrite choose_0 in *. lia.
  - pose proof (IH (S i)) as H1. pose proof (IH i) as H2. change (choose (S n) (S (S i))) with (choose n (S i) + choose n (S (S i))).
    change (choose (S n) (S i)) with (choose n i + choose n (S i)). cbn [Nat.sub]. destruct (Nat.le_gt_cases n i) as [Hn|Hn].
    + rewrite (choose_none n (S i)), (choose_none n (S (S i))) by lia. replace (n - i) with 0 by lia. lia.
    + replace (n - i) with (S (n - S i)) in * by lia. nia.
Qed.

Lemma choose_symmetric n : ∀ k, k ≤ n → choose n (n - k) = choose n k.
Proof.
  induction n as [|n IH]; intros k Hk; [by replace k with 0 by lia|]. destruct k as [|k]; [rewrite Nat.sub_0_r, choose_n; by rewrite choose_0|].
  cbn [Nat.sub]. destruct (Nat.eq_dec k n) as [->|Hne]; [rewrite Nat.sub_diag, choose_0; by rewrite choose_n|].
  replace (n - k) with (S (n - S k)) by lia. cbn [choose]. rewrite (IH (S k)) by lia. replace (S (n - S k)) with (n - k) by lia. rewrite (IH k) by lia. lia.
Qed.

(** The loop's running product is a binomial coefficient, so its divisions are exact. *)
Lemma binomial_loop_correct n rest : ∀ i, i + rest ≤ n →
  binomial_loop n i rest (Z.of_nat (choose n i)) = Z.of_nat (choose n (i + rest)) ∨ binomial_loop n i rest (Z.of_nat (choose n i)) = u64_max.
Proof.
  induction rest as [|rest IH]; intros i Hi; cbn [binomial_loop]; [left; by rewrite Nat.add_0_r|].
  destruct (_ <=? u64_max)%Z; [|by right]. rewrite <- Nat2Z.inj_mul, <- choose_step, Nat2Z.inj_mul, Z.div_mul by lia.
  replace (i + S rest) with (S i + rest) by lia. apply IH. lia.
Qed.

(** [binomial_coeff] is the binomial coefficient, or all ones when a product overflows. *)
Lemma binomial_correct n k : binomial_coeff n k = Z.of_nat (choose n k) ∨ binomial_coeff n k = u64_max.
Proof.
  unfold binomial_coeff. destruct (Nat.ltb_spec n k); [left; by rewrite choose_none|].
  assert (choose n (min k (n - k)) = choose n k) as Hm by (destruct (Nat.min_spec k (n - k)) as [[_ ->]|[_ ->]]; [done|by apply choose_symmetric]).
  rewrite <- Hm. destruct (Nat.eqb_spec (min k (n - k)) 0) as [->|Hne]; [left; by rewrite choose_0|].
  pose proof (binomial_loop_correct n (min k (n - k)) 0 ltac:(lia)) as H'. rewrite choose_0 in H'. exact H'.
Qed.

(** ** The shuffle *)

Section shuffled.
Context {R : Type} `{Rng.RngLaws R}.

Lemma swap_permutes i j (d : list f64) : i < length d → j < length d → ∃ d', swap i j d = Ok d' ∧ d' ≡ₚ d.
Proof.
  intros Hi Hj. destruct (lookup_lt_is_Some_2 d i Hi) as [a Ha], (lookup_lt_is_Some_2 d j Hj) as [b Hb]. unfold swap. rewrite Ha, Hb. eexists. split; [reflexivity|].
  apply Permutation_inj. rewrite !length_insert. split; [done|]. exists (λ n, if decide (n = i) then j else if decide (n = j) then i else n). split.
  - intros x y Hxy. repeat case_decide; congruence.
  - intros n. cbv beta. destruct (decide (n = i)) as [->|Hni]; [destruct (decide (i = j)) as [->|Hij]|destruct (decide (n = j)) as [->|Hnj]].
    + rewrite list_lookup_insert_eq by (by rewrite length_insert). congruence.
    + rewrite list_lookup_insert_ne, list_lookup_insert_eq by done. congruence.
    + rewrite list_lookup_insert_eq by (by rewrite length_insert). congruence.
    + by rewrite !list_lookup_insert_ne.
Qed.

Lemma shuffle_permutes n : ∀ d (rng : R), n < length d → ∃ d' rng', shuffle n d rng = Ok (d', rng') ∧ d' ≡ₚ d.
Proof.
  induction n as [|n IH]; intros d rng Hn; cbn [shuffle]; [by exists d, rng|]. pose proof (Rng.gen_range_lt (S (S n)) rng ltac:(lia)) as Hj.
  destruct (Rng.gen_range (S (S n)) rng) as [j rng1]. cbn [fst] in Hj. destruct (swap_permutes (S n) j d ltac:(lia) ltac:(lia)) as (d1 & -> & Hd1). cbn [mbind result_bind].
  destruct (IH d1 rng1) as (d2 & rng2 & -> & Hd2); [rewrite Hd1; lia|]. exists d2, rng2. split; [done|]. by rewrite Hd2.
Qed.

(** The Monte Carlo test counts over assignments with the treated blocks rearranged. *)
Lemma mc_draws n y observed : y ≠ [] → ∀ d (rng : R) e, length d = length y → (0 ≤ e)%Z → (e + Z.of_nat n < 2 ^ 32)%Z →
  ∃ draws, mc_loop n y observed d rng e = Ok (e + Z.of_nat (extremes y observed draws))%Z ∧ length draws = n ∧ Forall (λ d', d' ≡ₚ d) draws.
Proof.
  intros Hy. induction n as [|n IH]; intros d rng e Hd He Hb; cbn [mc_loop].
  { exists []. cbn. rewrite Z.add_0_r. by split_and!. }
  destruct (shuffle_permutes (length y - 1) d rng) as (d1 & rng1 & -> & Hd1); [destruct y; [done|cbn in *; lia]|]. cbn [mbind result_bind].
  destruct (IH d1 rng1 (if as_extreme y observed d1 then (e + 1) mod 2 ^ 32 else e)%Z) as (draws & Hdr & Hl & Hall); [by rewrite Hd1|..].
  { destruct (as_extreme _ _ _); [rewrite Z.mod_small by lia; lia|done]. }
  { destruct (as_extreme _ _ _); [rewrite Z.mod_small by lia; lia|lia]. }
  exists (d1 :: draws). rewrite extremes_cons. split_and!; [|by cbn; rewrite Hl|].
  - rewrite Hdr. f_equal. destruct (as_extreme _ _ _); [rewrite Z.mod_small by lia|]; lia.
  - constructor; [done|]. eapply Forall_impl; [exact Hall|]. cbn. intros d' Hd'. by rewrite Hd'.
Qed.

Lemma binary_perm d : binary d → replicate (treated_count d) f64_one ++ replicate (length d - treated_count d) f64_zero ≡ₚ d.
Proof.
  assert (∀ d, treated_count d ≤ length d) as Hle by (intros d'; apply length_filter).
  induction 1 as [|x d [->| ->] Hd IH]; [done|..].
  - rewrite treated_zero. cbn [length]. rewrite Nat.sub_succ_l by apply Hle. cbn [replicate]. by rewrite <- Permutation_middle, IH.
  - rewrite treated_one. cbn [length replicate app Nat.sub]. by rewrite IH.
Qed.

(** Few assignments: the p-value is the exact share, a probability. *)
Lemma exact_case y treatment n seed : length treatment = length y → binary treatment → (Z.of_nat n < 2 ^ 32)%Z →
  let k := treated_count treatment in
  let observed := effect_statistic y treatment in
  (binomial_coeff (length y) k <=? Z.of_nat n)%Z = true →
  let p := f64_div (f64_of_nat (extremes y observed (assignments (length y) k))) (f64_of_nat (length (assignments (length y) k))) in
  randomization_test_internal y treatment n seed = Ok p ∧ unit_interval p = true ∧
  Z.of_nat (length (assignments (length y) k)) = binomial_coeff (length y) k ∧ (is_number observed → f64_gt p f64_zero = true).
Proof.
  intros Hl Hb Hmax k observed Ebin p. unfold randomization_test_internal. fold k. fold observed. rewrite Ebin. apply Z.leb_le in Ebin.
  assert (k ≤ length y) as Hk by (rewrite <- Hl; apply length_filter).
  destruct (binomial_correct (length y) k) as [Hc|Hc]; [|exfalso; rewrite Hc in Ebin; unfold u64_max in Ebin; lia].
  rewrite Hc in Ebin |- *. destruct (exact_share y k observed Hk ltac:(lia)) as [-> Hpos]. cbn [mbind result_bind]. fold p.
  pose proof (extremes_le y observed (assignments (length y) k)) as Hle. pose proof (length_assignments (length y) k) as Hlen.
  destruct (share_ok _ _ Hle Hpos ltac:(lia)) as [Hu Hgt]. fold p in Hu, Hgt. rewrite clamp_unit by exact Hu. split_and!; [done|done|by rewrite Hlen|].
  intros Hnum. apply Hgt. apply Nat.neq_0_lt_0. intros Hz. apply length_zero_iff_nil in Hz.
  assert (treatment ∈ filter (λ d, as_extreme y observed d = true) (assignments (length y) k)) as Hin; [|rewrite Hz in Hin; by apply not_elem_of_nil in Hin].
  apply list_elem_of_filter. split; [|by apply elem_of_assignments]. unfold as_extreme. fold observed. apply f64_le_refl. by unfold is_number in *; destruct observed.
Qed.

(** Many assignments: the p-value is a share of random rearrangements, a probability. *)
Lemma monte_carlo_case y treatment n seed : length treatment = length y → y ≠ [] → binary treatment → 0 < n → (Z.of_nat n < 2 ^ 32)%Z →
  (binomial_coeff (length y) (treated_count treatment) <=? Z.of_nat n)%Z = false →
  ∃ ds, let p := f64_div (f64_of_nat (extremes y (effect_statistic y treatment) ds)) (f64_of_nat (length ds)) in
    randomization_test_internal y treatment n seed = Ok p ∧ unit_interval p = true ∧ length ds = n ∧ Forall (λ d, d ≡ₚ treatment) ds.
Proof.
  intros Hl Hy Hb Hn Hmax Ebin. unfold randomization_test_internal. rewrite Ebin. set (k := treated_count treatment). set (observed := effect_statistic y treatment).
  assert (k ≤ length y) as Hk by (rewrite <- Hl; apply length_filter). unfold mc_p_value. rewrite (proj2 (Nat.leb_le _ _)) by done.
  destruct (mc_draws n y observed Hy (replicate k f64_one ++ replicate (length y - k) f64_zero) (Rng.seed_from_u64 seed) 0%Z) as (ds & -> & Hds & Hall);
    [rewrite length_app, !length_replicate; lia|lia|lia|]. cbn [mbind result_bind mret result_ret]. rewrite Z.add_0_l.
  pose proof (extremes_le y observed ds) as Hle. rewrite <- Hds in Hn, Hmax |- *. destruct (share_ok _ _ Hle Hn ltac:(lia)) as [Hu _]. unfold f64_of_nat in Hu at 1.
  exists ds. cbv zeta. rewrite clamp_unit by exact Hu. split_and!; [done|done|done|].
  eapply Forall_impl; [exact Hall|]. cbn. intros d ->. unfold k. rewrite <- Hl. by apply binary_perm.
Qed.

Lemma randomization_probability y treatment n seed p : length treatment = length y → y ≠ [] → binary treatment → 0 < n → (Z.of_nat n < 2 ^ 32)%Z →
  randomization_test_internal y treatment n seed = Ok p → unit_interval p = true.
Proof.
  intros Hl Hy Hb Hn Hmax Hp. destruct (binomial_coeff (length y) (treated_count treatment) <=? Z.of_nat n)%Z eqn:E.
  - destruct (exact_case y treatment n seed Hl Hb Hmax E) as (Hr & Hu & _). rewrite Hp in Hr. by injection Hr as ->.
  - destruct (monte_carlo_case y treatment n seed Hl Hy Hb Hn Hmax E) as (ds & Hr & Hu & _). rewrite Hp in Hr. by injection Hr as ->.
Qed.

(** [C22] The randomization test is a permutation test. It always answers with a probability.
    When the number of assignments is at most the number of permutations, that is the exact
    share, among all assignments with as many treated blocks, of those whose effect is at
    least the observed one in absolute value, each counted once; it is positive, since the
    observed assignment is one of them. Otherwise it is the share among that many random
    rearrangements of the observed assignment. *)
Theorem randomization_test_correct y treatment n seed : length treatment = length y → y ≠ [] → binary treatment → 0 < n → (Z.of_nat n < 2 ^ 32)%Z →
  let k := treated_count treatment in
  let observed := effect_statistic y treatment in
  ∃ p ds, randomization_test_internal y treatment n seed = Ok p ∧ unit_interval p = true ∧
    p = f64_div (f64_of_nat (extremes y observed ds)) (f64_of_nat (length ds)) ∧
    if (binomial_coeff (length y) k <=? Z.of_nat n)%Z
    then NoDup ds ∧ (∀ d, d ∈ ds ↔ length d = length y ∧ binary d ∧ treated_count d = k) ∧ Z.of_nat (length ds) = binomial_coeff (length y) k ∧
         (is_number observed → f64_gt p f64_zero = true)
    else length ds = n ∧ Forall (λ d, d ≡ₚ treatment) ds.
Proof.
  intros Hl Hy Hb Hn Hmax k observed. destruct (_ <=? _)%Z eqn:E.
  - destruct (exact_case y treatment n seed Hl Hb Hmax E) as (Hr & Hu & Hc & Hpos). eexists _, _. split; [exact Hr|]. split; [exact Hu|]. split; [reflexivity|].
    split; [apply NoDup_assignments|]. split; [intros d; apply elem_of_assignments|]. by split.
  - destruct (monte_carlo_case y treatment n seed Hl Hy Hb Hn Hmax E) as (ds & Hr & Hu & Hd). eexists _, ds. split; [exact Hr|]. split; [exact Hu|]. split; [reflexivity|exact Hd].
Qed.
End shuffled.

(** ** The analyzer *)

Lemma check_all_ok l : check_all l = Ok tt ↔ Forall (λ x, f64_is_finite x = true) l.
Proof.
  induction l as [|x l IH]; cbn [check_all]; [by split|]. unfold check_finite. rewrite Forall_cons, <- IH. destruct (f64_is_finite x); [cbn; tauto|].
  split; [done|by intros [? _]].
Qed.

Lemma existsb_none {A} (f : A → bool) l : existsb f l = false → Forall (λ x, f x = false) l.
Proof. intros H. apply Forall_forall. intros x Hx. apply not_true_is_false. intros Hf. assert (existsb f l = true) as He; [|congruence]. apply existsb_exists. exists x. by rewrite <- list_elem_of_In. Qed.

(** The analyzer keeps the blocks outside washout in the order of their index, and refuses
    fewer than four of them or a design with one arm. *)
Lemma new_analyzer_spec blocks : Forall (λ b, f64_is_finite (metric_value b) = true) blocks →
  let effective := filter (λ b, in_washout b = false) blocks in
  match new_analyzer blocks with
  | Ok b => b ≡ₚ effective ∧ StronglySorted (λ a b, (block_index a ≤ block_index b)%Z) b ∧ 4 ≤ length b ∧
            0 < treated_count (treatment_of b) < length b
  | Err TooFewBlocks => length effective < 4
  | Err OneArm => 4 ≤ length effective ∧ (Forall (λ b, is_treatment b = true) effective ∨ Forall (λ b, is_treatment b = false) effective)
  | _ => False
  end.
Proof.
  intros Hf effective. unfold new_analyzer. assert (check_all (metric_value <$> blocks) = Ok tt) as -> by by apply check_all_ok, Forall_fmap.
  cbn [mbind result_bind]. fold effective. set (b := sort_by by_index effective). pose proof (sort_by_perm by_index effective) as Hp. fold b in Hp.
  destruct (Nat.ltb_spec (length b) 4) as [Hl|Hl]; [by rewrite <- Hp|].
  assert (∀ l, Forall (λ b, is_treatment b = false) l ↔ treated_count (treatment_of l) = 0) as Hnone.
  { induction l as [|x l IH]; [by split|]. rewrite Forall_cons, IH. unfold treatment_of. rewrite fmap_cons. destruct (is_treatment x); [rewrite treated_one|rewrite treated_zero]; by naive_solver. }
  assert (∀ l, Forall (λ b, is_treatment b = true) l ↔ treated_count (treatment_of l) = length l) as Hall.
  { induction l as [|x l IH]; [by split|]. assert (treated_count (treatment_of l) ≤ length l) as Hle by (etrans; [apply length_filter|]; unfold treatment_of; by rewrite length_fmap).
    rewrite Forall_cons, IH. unfold treatment_of in *. rewrite fmap_cons. cbn [length]. destruct (is_treatment x); [rewrite treated_one|rewrite treated_zero]; split; intros; [naive_solver|naive_solver|naive_solver|lia]. }
  assert (treated_count (treatment_of b) ≤ length b) as Hle by (etrans; [apply length_filter|]; unfold treatment_of; by rewrite length_fmap).
  destruct (existsb is_treatment b) eqn:Et; cbn [negb orb].
  2:{ split; [by rewrite <- Hp|]. right. rewrite <- Hp. by apply existsb_none. }
  destruct (existsb (λ b, negb (is_treatment b)) b) eqn:Ec; cbn [negb].
  2:{ split; [by rewrite <- Hp|]. left. rewrite <- Hp. eapply Forall_impl; [by apply existsb_none|]. cbn. intros x. by rewrite negb_false_iff. }
  split_and!; [done| |done| |].
  - apply (strongly_sorted_impl (λ a b, by_index a b = true)); [unfold by_index; intros; lia|].
    apply (sort_by_sorted by_index (λ _, True)); [unfold by_index; intros; lia|unfold by_index; intros; lia|by apply Forall_true].
  - apply Nat.neq_0_lt_0. intros Hz. apply Hnone in Hz. apply existsb_exists in Et as (x & Hx & Ht). apply list_elem_of_In in Hx. rewrite Forall_forall in Hz. by rewrite Hz in Ht.
  - apply Nat.le_neq. split; [done|]. intros Hz. apply Hall in Hz. apply existsb_exists in Ec as (x & Hx & Ht). apply list_elem_of_In in Hx. rewrite Forall_forall in Hz. by rewrite Hz in Ht.
Qed.

Lemma new_analyzer_nonempty blocks b : new_analyzer blocks = Ok b → b ≠ [].
Proof.
  unfold new_analyzer. intros Hb. apply bind_ok_inv in Hb as (u & _ & Hb). destruct (_ <? 4) eqn:E; [done|]. destruct (_ || _); [done|].
  injection Hb as <-. intros Hb. by rewrite Hb in E.
Qed.

Lemma treatment_binary blocks : binary (treatment_of blocks).
Proof. apply Forall_fmap, Forall_true. intros b. cbn. destruct (is_treatment b); auto. Qed.

(** ** What the handler answers *)

Section handler.
Context {R : Type} `{Rng.RngLaws R}.
Context (ln : f64 → f64) (powf : f64 → f64 → f64) (students_t : f64 → option (f64 → f64)).

Lemma carryover_probability residuals r1 p : carryover students_t residuals = Ok (r1, p) → unit_interval p = true.
Proof.
  unfold carryover. intros Hc. apply bind_ok_inv in Hc as (p' & Hp & Hc). injection Hc as _ <-. destruct (_ || _); [by injection Hp as <-|].
  apply bind_ok_inv in Hp as (u & _ & Hp). destruct (students_t _) as [cdf|]; [|done]. apply bind_ok_inv in Hp as (u' & Hf & Hp). injection Hp as <-.
  unfold check_finite in Hf. destruct (f64_is_finite _) eqn:E; [|done]. apply andb_true_iff. apply f64_clamp_bounds; [by apply finite_is_number|done].
Qed.

(** An answer of the handler: the blocks are those of the reader outside washout, in order and
    with both arms; the randomization p-value is that of the permutation test over them
    against 10,000 permutations; both p-values are probabilities. *)
Theorem switchback_answer table alpha experiment_id r : get_switchback_analysis (R := R) ln powf students_t table alpha experiment_id = Ok r →
  ∃ periods blocks, read_switchback_periods table experiment_id = Ok periods ∧ new_analyzer periods = Ok blocks ∧
    randomization_test_internal (R := R) (outcomes_of blocks) (treatment_of blocks) (Z.to_nat 10000) 42 = Ok (ri_p_value r) ∧
    unit_interval (ri_p_value r) = true ∧ unit_interval (carryover_p_value r) = true ∧ carryover_detected r = f64_lt (carryover_p_value r) alpha.
Proof.
  unfold get_switchback_analysis. case_bool_decide; [done|]. intros Ha. apply bind_ok_inv in Ha as (periods & Hper & Ha). apply bind_ok_inv in Ha as (blocks & Hb & Ha).
  apply bind_ok_inv in Ha as (a & Han & Ha). injection Ha as <-. cbn [ri_p_value carryover_p_value carryover_detected].
  assert (∀ E F A (f : E → F) (m : result E A) x, map_err f m = Ok x → m = Ok x) as Hmap by (intros ????[]; cbn; congruence).
  apply Hmap in Hper, Hb, Han. exists periods, blocks. split; [done|]. split; [done|].
  unfold analyze in Han. destruct (negb (valid_alpha alpha)); [done|]. apply bind_ok_inv in Han as ([[b0 effect] residuals] & _ & Han). apply bind_ok_inv in Han as (u1 & _ & Han).
  apply bind_ok_inv in Han as ([se bw] & _ & Han). apply bind_ok_inv in Han as (u2 & _ & Han). apply bind_ok_inv in Han as (u3 & _ & Han). apply bind_ok_inv in Han as (u4 & _ & Han).
  apply bind_ok_inv in Han as (p & Hp & Han). apply bind_ok_inv in Han as ([r1 cp] & Hcp & Han). injection Han as <-. cbn [randomization_p_value carryover_test_p_value].
  split; [exact Hp|]. split; [|split; [by apply (carryover_probability residuals r1)|done]].
  pose proof (new_analyzer_nonempty _ _ Hb) as Hne. clear Hb Hcp.
  assert (0 < Z.to_nat 10000 ∧ (Z.of_nat (Z.to_nat 10000) < 2 ^ 32)%Z) as [Hn0 Hn1] by lia.
  revert Hp Hn0 Hn1. generalize (Z.to_nat 10000). intros n Hp Hn0 Hn1.
  apply (randomization_probability (outcomes_of blocks) (treatment_of blocks) n 42);
    [unfold outcomes_of, treatment_of; by rewrite !length_fmap|unfold outcomes_of; by destruct blocks|apply treatment_binary|done|done|done].
Qed.
End handler.

(** ** Examples *)

Definition four_outcomes : list f64 := [f64_of_Z 9; f64_of_Z 1; f64_of_Z 8; f64_of_Z 2].
Definition alternating : list f64 := [f64_one; f64_zero; f64_one; f64_zero].

Lemma randomization_test_correct_witness : ∃ p (ds : list (list f64)), randomization_test_internal (R := Rng.counter) four_outcomes alternating 100 42 = Ok p ∧
  length ds = 6 ∧ NoDup ds ∧ p = f64_ratio 2 6.
Proof.
  destruct (randomization_test_correct (R := Rng.counter) four_outcomes alternating 100 42) as (p & ds & Hr & _ & Hp & Hd);
    [reflexivity|discriminate|repeat (constructor; [(by left) || (by right)|]); constructor|lia|lia|].
  exists p, ds. split; [exact Hr|]. change (binomial_coeff (length four_outcomes) (treated_count alternating) <=? Z.of_nat 100)%Z with true in Hd.
  destruct Hd as (Hn & _ & Hl & _). split; [|split; [exact Hn|]].
  - apply Nat2Z.inj. rewrite Hl. vm_compute. reflexivity.
  - revert Hr. clear. intros Hr. assert (randomization_test_internal (R := Rng.counter) four_outcomes alternating 100 42 = Ok (f64_ratio 2 6)) as He by (vm_compute; reflexivity).
    congruence.
Defined.

(** ** What is not promised *)

(** Asked for no permutations, the test answers with a NaN. *)
Lemma zero_permutations_nan : randomization_test_internal (R := Rng.counter) four_outcomes alternating 0 42 = Ok S754_nan.
Proof. vm_compute. reflexivity. Qed.

(** The Monte Carlo share leaves out the observed assignment: four draws can report a p-value
    of zero where the exact test reports 2 / 6. *)
Lemma monte_carlo_zero :
  let y := [f64_of_Z 9; f64_of_Z 8; f64_of_Z 1; f64_of_Z 2] in
  let treatment := [f64_one; f64_one; f64_zero; f64_zero] in
  randomization_test_internal (R := Rng.counter) y treatment 4 42 = Ok f64_zero ∧ randomization_test_internal (R := Rng.counter) y treatment 6 42 = Ok (f64_ratio 2 6).
Proof. split; vm_compute; reflexivity. Qed.
