(* ===== verification/Inference.v ===== *)
(** Statistical tests of the analysis service ([experimentation-stats/src/evalue.rs], [srm.rs],
    [ttest.rs], [cuped.rs], [tost.rs]) and the steps of [compute_analysis] and
    [compute_equivalence_result] ([experimentation-analysis/src/grpc.rs]) that call them.

    [f64::exp], [f64::ln] and the distributions of [statrs] are parameters; a [HashMap] that
    is walked is the list of its entries in the order of the walk; [powi(2)] is a product; the
    errors whose text prints numbers are constructors.
    The GROW martingale is proved to be the e-process of the mixture adaptive design, run on
    the rewards that were assigned uniformly; and an equivalence that is declared is one of an
    effect inside the margin, rounding included. *)
From Stdlib Require Import Ascii String SpecFloat.
From S2P Require Import Prelude Bytes F64 F64Mono F64Sum Hash HashSpec Rng F64Order F64Round Experiments ExperimentsSpec Bandit Mad SwitchbackAnalysis.

Inductive EvError :=
| Validation (message : str) | CovariateLength (group : str) (got want : nat)
| MissingFraction (variant_id : str) | ZeroExpected (variant_id : str) | Degenerate | BadDistribution
| TooFew (group : str) | NoVariance | NoCovariateVariance | BadDifference.

Abbreviation ev := (result EvError).

Definition check (x : f64) : ev unit := if f64_is_finite x then Ok tt else Panics.
Fixpoint check_all (l : list f64) : ev unit := match l with [] => mret tt | x :: l => _ ← check x; check_all l end.

Definition valid_level (alpha : f64) : ev unit :=
  reject_if (f64_le alpha f64_zero || f64_ge alpha f64_one) (Validation (lit "alpha must be in (0, 1)")).

Record EValueResult := mk_evalue { ev_e_value : f64; ev_log_e_value : f64; ev_reject : bool; ev_trajectory : list f64 }.

Section special_functions.
Context (exp ln : f64 → f64).

(** ** The GROW martingale *)

(** The loop: the sum and the wealth so far, and the trajectory. *)
Definition grow_step (sigma_sq : f64) (t : nat) (x : f64) (s : f64 * f64 * list f64) : ev (f64 * f64 * list f64) :=
  let '(running_sum, log_wealth, trajectory) := s in
  let mu_hat_prev := if t =? 0 then f64_zero else f64_div running_sum (f64_of_Z (Z.of_nat t)) in
  let lambda_t := f64_div mu_hat_prev sigma_sq in
  _ ← check lambda_t;
  let log_increment := f64_sub (f64_mul lambda_t x) (f64_mul (f64_mul (f64_mul (f64_ratio 1 2) lambda_t) lambda_t) sigma_sq) in
  _ ← check log_increment;
  let log_wealth := f64_add log_wealth log_increment in
  _ ← check log_wealth;
  mret (f64_add running_sum x, log_wealth, trajectory ++ [log_wealth]).

Fixpoint grow_loop (sigma_sq : f64) (t : nat) (observations : list f64) (s : f64 * f64 * list f64) : ev (f64 * f64 * list f64) :=
  match observations with
  | [] => mret s
  | x :: observations => s ← grow_step sigma_sq t x s; grow_loop sigma_sq (S t) observations s
  end.

Definition e_value_grow (observations : list f64) (sigma_sq alpha : f64) : ev EValueResult :=
  _ ← reject_if (bool_decide (observations = [])) (Validation (lit "observations must have at least one element"));
  _ ← reject_if (f64_le sigma_sq f64_zero) (Validation (lit "sigma_sq must be positive"));
  _ ← valid_level alpha;
  _ ← check_all observations;
  '(_, log_wealth, trajectory) ← grow_loop sigma_sq 0 observations (f64_zero, f64_zero, []);
  e_value ← (if f64_gt log_wealth exp_limit then mret f64_MAX else _ ← check (exp log_wealth); mret (exp log_wealth));
  mret (mk_evalue e_value log_wealth (f64_gt e_value (f64_div f64_one alpha)) trajectory).

(** ** The regression-adjusted mixture *)

(** [f64::EPSILON] and the literal [1e-12]. *)
Definition EPSILON : f64 := f64_ratio 1 (2 ^ 52).
Definition em12 : f64 := f64_ratio 1 (10 ^ 12).

Definition group_mean (xs : list f64) (n : f64) : f64 := f64_div (f64_sum xs) n.

(** The sums of squares and of products about the pooled means, over one group. *)
Definition moments (mean_y mean_x : f64) (yx : list (f64 * f64)) (s : f64 * f64 * f64) : f64 * f64 * f64 :=
  fold_left (λ s p, let '(ss_yy, ss_xx, ss_xy) := s in
    let dy := f64_sub p.1 mean_y in let dx := f64_sub p.2 mean_x in
    (f64_add ss_yy (f64_mul dy dy), f64_add ss_xx (f64_mul dx dx), f64_add ss_xy (f64_mul dy dx))) yx s.

Definition avlm_validate (control_y treatment_y control_x treatment_x : list f64) (tau_sq alpha : f64) : ev unit :=
  let n_c := length control_y in
  let n_t := length treatment_y in
  _ ← reject_if (n_c <? 2) (Validation (lit "control group must have at least 2 observations"));
  _ ← reject_if (n_t <? 2) (Validation (lit "treatment group must have at least 2 observations"));
  _ ← reject_if (negb (length control_x =? n_c)) (CovariateLength (lit "control") (length control_x) n_c);
  _ ← reject_if (negb (length treatment_x =? n_t)) (CovariateLength (lit "treatment") (length treatment_x) n_t);
  _ ← reject_if (f64_le tau_sq f64_zero) (Validation (lit "tau_sq must be positive"));
  _ ← valid_level alpha;
  _ ← check_all control_y; _ ← check_all treatment_y; _ ← check_all control_x; check_all treatment_x.

(** The effect and the squared standard error, adjusted for the covariate. *)
Definition avlm_adjust (control_y treatment_y control_x treatment_x : list f64) : ev (f64 * f64) :=
  let nc := f64_of_Z (Z.of_nat (length control_y)) in
  let nt := f64_of_Z (Z.of_nat (length treatment_y)) in
  let n_pooled := f64_of_Z (Z.of_nat (length control_y + length treatment_y)) in
  let mean_y_c := group_mean control_y nc in let mean_y_t := group_mean treatment_y nt in
  let mean_x_c := group_mean control_x nc in let mean_x_t := group_mean treatment_x nt in
  let mean_y := f64_div (f64_add (f64_sum control_y) (f64_sum treatment_y)) n_pooled in
  let mean_x := f64_div (f64_add (f64_sum control_x) (f64_sum treatment_x)) n_pooled in
  _ ← check mean_y; _ ← check mean_x;
  let '(ss_yy, ss_xx, ss_xy) := moments mean_y mean_x (zip treatment_y treatment_x)
                                  (moments mean_y mean_x (zip control_y control_x) (f64_zero, f64_zero, f64_zero)) in
  let dof := f64_sub n_pooled f64_one in
  let var_y := f64_div ss_yy dof in let var_x := f64_div ss_xx dof in let cov := f64_div ss_xy dof in
  _ ← check var_y; _ ← check var_x; _ ← check cov;
  let theta := if f64_lt var_x EPSILON then f64_zero else f64_div cov var_x in
  _ ← check theta;
  let delta_adj := f64_sub (f64_sub mean_y_t mean_y_c) (f64_mul theta (f64_sub mean_x_t mean_x_c)) in
  _ ← check delta_adj;
  let sigma_sq_adj := f64_max (f64_sub var_y (f64_mul (f64_mul theta theta) var_x)) (f64_mul var_y em12) in
  _ ← check sigma_sq_adj;
  let se_sq_adj := f64_add (f64_div sigma_sq_adj nc) (f64_div sigma_sq_adj nt) in
  _ ← check se_sq_adj;
  mret (delta_adj, se_sq_adj).

Definition e_value_avlm (control_y treatment_y control_x treatment_x : list f64) (tau_sq alpha : f64) : ev EValueResult :=
  _ ← avlm_validate control_y treatment_y control_x treatment_x tau_sq alpha;
  '(delta_adj, se_sq_adj) ← avlm_adjust control_y treatment_y control_x treatment_x;
  _ ← reject_if (f64_le se_sq_adj f64_zero) Degenerate;
  let se_sq_plus_tau := f64_add se_sq_adj tau_sq in
  let log_e := f64_add (f64_mul (f64_ratio 1 2) (ln (f64_div se_sq_adj se_sq_plus_tau)))
                 (f64_div (f64_mul (f64_mul delta_adj delta_adj) tau_sq) (f64_mul (f64_mul (f64_of_Z 2) se_sq_adj) se_sq_plus_tau)) in
  _ ← check log_e;
  _ ← check (exp log_e);
  mret (mk_evalue (exp log_e) log_e (f64_gt (exp log_e) (f64_div f64_one alpha)) []).
End special_functions.

(** ** Sample ratio mismatch *)

Record SrmResult := mk_srm
  { chi_squared : f64; srm_p_value : f64; is_mismatch : bool; observed : list (str * Z); expected : gmap str f64 }.

(** [values().sum()] on [u64]. *)
Definition u64_sum (l : list Z) : Z := (fold_left Z.add l 0 mod 2 ^ 64)%Z.

Definition chi_term (expected_count : f64) (count : Z) : f64 :=
  let diff := f64_sub (f64_of_Z count) expected_count in f64_div (f64_mul diff diff) expected_count.

Fixpoint chi_loop (expected : gmap str f64) (total : f64) (observed : list (str * Z)) (chi_sq : f64) : ev f64 :=
  match observed with
  | [] => mret chi_sq
  | (variant_id, count) :: observed =>
      fraction ← match expected !! variant_id with Some f => mret f | None => Err (MissingFraction variant_id) end;
      let expected_count := f64_mul fraction total in
      _ ← check expected_count;
      _ ← reject_if (f64_eq expected_count f64_zero) (ZeroExpected variant_id);
      chi_loop expected total observed (f64_add chi_sq (chi_term expected_count count))
  end.

Section chi_squared.
(** [ChiSquared::new(df)] and its [cdf]. *)
Context (chi : f64 → option (f64 → f64)).

Definition srm_check (observed : list (str * Z)) (expected : gmap str f64) (alpha : f64) : ev SrmResult :=
  _ ← reject_if (length observed <? 2) (Validation (lit "SRM requires at least 2 variants"));
  let total := u64_sum observed.*2 in
  _ ← reject_if (total =? 0)%Z (Validation (lit "total observed count is 0"));
  let df := f64_of_Z (Z.of_nat (length observed - 1)) in
  chi_sq ← chi_loop expected (f64_of_Z total) observed f64_zero;
  _ ← check chi_sq;
  cdf ← match chi df with Some cdf => mret cdf | None => Err BadDistribution end;
  let p_value := f64_sub f64_one (cdf chi_sq) in
  mret (mk_srm chi_sq p_value (f64_lt p_value alpha) observed expected).

(** ** The steps of [compute_analysis] *)

(** The map of the users read per variant, in the order of its walks; an empty one panics
    at [variants[0]]. *)
Definition control_variant (counts : list (str * Z)) : ev str :=
  if existsb (λ p, bool_decide (p.1 = lit "control")) counts then mret (lit "control")
  else match sort_by (λ a b, bool_decide (str_le a b)) counts.*1 with v :: _ => mret v | [] => Panics end.

Definition uniform_fractions (counts : list (str * Z)) : gmap str f64 :=
  let n_variants := f64_of_Z (Z.of_nat (length counts)) in
  list_to_map ((λ k, (k, f64_div f64_one n_variants)) <$> counts.*1).

Definition compute_analysis_srm (counts : list (str * Z)) : ev SrmResult :=
  srm_check counts (uniform_fractions counts) (f64_ratio 1 1000).
End chi_squared.

(** The proto number of mSPRT. *)
Definition SEQUENTIAL_METHOD_MSPRT : Z := 1.

(** The e-value of one metric and treatment; [(0, 0)] for another method and on an error. *)
Definition compute_analysis_evalue (exp : f64 → f64) (sequential_method : Z) (control_mean treatment_mean : f64) (treatment_values : list f64) (alpha : f64) : ev (f64 * f64) :=
  if negb (sequential_method =? SEQUENTIAL_METHOD_MSPRT)%Z || (length treatment_values <? 2) then mret (f64_zero, f64_zero)
  else
    let obs := (λ v, f64_sub v control_mean) <$> treatment_values in
    let square (x : f64) := f64_mul x x in
    let var_t := f64_div (f64_sum ((λ v, square (f64_sub v treatment_mean)) <$> treatment_values))
                   (f64_sub (f64_of_Z (Z.of_nat (length treatment_values))) f64_one) in
    let sigma_sq := if f64_gt var_t EPSILON then var_t else f64_one in
    match e_value_grow exp obs sigma_sq alpha with
    | Ok r => mret (ev_e_value r, ev_log_e_value r)
    | Err _ => mret (f64_zero, f64_zero)
    | Panics => Panics
    | OutOfFuel => OutOfFuel
    end.

(** ** Welch's test *)

(** A distribution of [statrs]: what the program calls of it. *)
Record Distribution := mk_distribution { cdf : f64 → f64; inverse_cdf : f64 → f64 }.

Definition f64_two : f64 := f64_of_Z 2.
Definition sample_variance (xs : list f64) (mean : f64) : f64 :=
  f64_div (f64_sum ((λ x, square (f64_sub x mean)) <$> xs)) (f64_sub (f64_of_nat (length xs)) f64_one).

(** The standard error and the degrees of freedom. *)
Definition welch_standard_error (n_c n_t var_c var_t : f64) : ev (f64 * f64) :=
  let pooled := f64_add (f64_div var_c n_c) (f64_div var_t n_t) in
  let se := f64_sqrt pooled in
  _ ← check se;
  _ ← reject_if (f64_eq se f64_zero) NoVariance;
  let df_den := f64_add (f64_div (square (f64_div var_c n_c)) (f64_sub n_c f64_one)) (f64_div (square (f64_div var_t n_t)) (f64_sub n_t f64_one)) in
  let df := f64_div (square pooled) df_den in
  _ ← check df;
  mret (se, df).

Definition two_groups (control treatment : list f64) : ev unit :=
  _ ← reject_if (length control <? 2) (TooFew (lit "control"));
  reject_if (length treatment <? 2) (TooFew (lit "treatment")).

(** The means and the variances of two groups. *)
Definition group_moments (control treatment : list f64) : ev (f64 * f64 * f64 * f64) :=
  let mean_c := mean_of control in let mean_t := mean_of treatment in
  _ ← check mean_c; _ ← check mean_t;
  let var_c := sample_variance control mean_c in let var_t := sample_variance treatment mean_t in
  _ ← check var_c; _ ← check var_t;
  mret (mean_c, mean_t, var_c, var_t).

Record TTestResult := mk_ttest
  { tt_effect : f64; tt_ci_lower : f64; tt_ci_upper : f64; tt_p_value : f64; tt_is_significant : bool; tt_df : f64;
    tt_control_mean : f64; tt_treatment_mean : f64 }.

Section distributions.
(** [StudentsT::new(0.0, 1.0, df)] and [Normal::new(0.0, 1.0)]. *)
Context (students_t : f64 → option Distribution) (normal : option Distribution).

Definition get_distribution (d : option Distribution) : ev Distribution := match d with Some d => mret d | None => Err BadDistribution end.

Definition welch_ttest (control treatment : list f64) (alpha : f64) : ev TTestResult :=
  _ ← two_groups control treatment;
  '(mean_c, mean_t, var_c, var_t) ← group_moments control treatment;
  '(se, df) ← welch_standard_error (f64_of_nat (length control)) (f64_of_nat (length treatment)) var_c var_t;
  let effect := f64_sub mean_t mean_c in
  let t_stat := f64_div effect se in
  _ ← check t_stat;
  t_dist ← get_distribution (students_t df);
  let p_value := f64_mul f64_two (f64_sub f64_one (cdf t_dist (f64_abs t_stat))) in
  _ ← check p_value;
  let t_crit := inverse_cdf t_dist (f64_sub f64_one (f64_div alpha f64_two)) in
  mret (mk_ttest effect (f64_sub effect (f64_mul t_crit se)) (f64_add effect (f64_mul t_crit se)) p_value (f64_lt p_value alpha) df mean_c mean_t).

(** ** CUPED *)

Definition covariance (y x : list f64) (mean_y mean_x : f64) : f64 :=
  f64_div (f64_sum (zip_with (λ yi xi, f64_mul (f64_sub yi mean_y) (f64_sub xi mean_x)) y x)) (f64_sub (f64_of_nat (length y)) f64_one).

(** The outcomes of one group, adjusted. *)
Fixpoint adjust_group (theta mean_x : f64) (yx : list (f64 * f64)) : ev (list f64) :=
  match yx with
  | [] => mret []
  | (y, x) :: yx =>
      let adj := f64_sub y (f64_mul theta (f64_sub x mean_x)) in
      _ ← check adj; rest ← adjust_group theta mean_x yx; mret (adj :: rest)
  end.

(** The coefficient of the pooled samples, and the covariate's mean. *)
Definition pooled_theta (all_y all_x : list f64) : ev (f64 * f64) :=
  let mean_y := mean_of all_y in let mean_x := mean_of all_x in
  _ ← check mean_y; _ ← check mean_x;
  let var_x := sample_variance all_x mean_x in
  _ ← check var_x;
  _ ← reject_if (f64_eq var_x f64_zero) NoCovariateVariance;
  let cov_xy := covariance all_y all_x mean_y mean_x in
  _ ← check cov_xy;
  let theta := f64_div cov_xy var_x in
  _ ← check theta;
  mret (theta, mean_x).

Definition paired (control_y treatment_y control_x treatment_x : list f64) : ev unit :=
  _ ← reject_if (negb (length control_y =? length control_x)) (CovariateLength (lit "control") (length control_y) (length control_x));
  reject_if (negb (length treatment_y =? length treatment_x)) (CovariateLength (lit "treatment") (length treatment_y) (length treatment_x)).

Record CupedResult := mk_cuped
  { raw_effect : f64; adjusted_effect : f64; cu_theta : f64; raw_se : f64; adjusted_se : f64; variance_reduction : f64;
    cu_ci_lower : f64; cu_ci_upper : f64; control_adjusted_mean : f64; treatment_adjusted_mean : f64 }.

Definition cuped_adjust (control_y treatment_y control_x treatment_x : list f64) (alpha : f64) : ev CupedResult :=
  _ ← paired control_y treatment_y control_x treatment_x;
  _ ← two_groups control_y treatment_y;
  let n_c := f64_of_nat (length control_y) in let n_t := f64_of_nat (length treatment_y) in
  let mean_cy := mean_of control_y in let mean_ty := mean_of treatment_y in
  _ ← check mean_cy; _ ← check mean_ty; _ ← check (mean_of control_x); _ ← check (mean_of treatment_x);
  '(theta, mean_x) ← pooled_theta (control_y ++ treatment_y) (control_x ++ treatment_x);
  control_adj ← adjust_group theta mean_x (zip control_y control_x);
  treatment_adj ← adjust_group theta mean_x (zip treatment_y treatment_x);
  let control_adj_mean := mean_of control_adj in let treatment_adj_mean := mean_of treatment_adj in
  _ ← check control_adj_mean; _ ← check treatment_adj_mean;
  let raw_effect := f64_sub mean_ty mean_cy in
  _ ← check raw_effect;
  let raw_var_diff := f64_add (f64_div (sample_variance control_y mean_cy) n_c) (f64_div (sample_variance treatment_y mean_ty) n_t) in
  let raw_se := f64_sqrt raw_var_diff in
  _ ← check raw_se;
  let adjusted_effect := f64_sub treatment_adj_mean control_adj_mean in
  _ ← check adjusted_effect;
  let adj_var_diff := f64_add (f64_div (sample_variance control_adj control_adj_mean) n_c) (f64_div (sample_variance treatment_adj treatment_adj_mean) n_t) in
  let adjusted_se := f64_sqrt adj_var_diff in
  _ ← check adjusted_se;
  let variance_reduction := if f64_gt raw_var_diff f64_zero then f64_sub f64_one (f64_div adj_var_diff raw_var_diff) else f64_zero in
  _ ← check variance_reduction;
  z ← get_distribution normal;
  let z_alpha := inverse_cdf z (f64_sub f64_one (f64_div alpha f64_two)) in
  _ ← check z_alpha;
  let ci_lower := f64_sub adjusted_effect (f64_mul z_alpha adjusted_se) in
  _ ← check ci_lower;
  let ci_upper := f64_add adjusted_effect (f64_mul z_alpha adjusted_se) in
  _ ← check ci_upper;
  mret (mk_cuped raw_effect adjusted_effect theta raw_se adjusted_se variance_reduction ci_lower ci_upper control_adj_mean treatment_adj_mean).

(** ** Two one-sided tests *)

Record TostConfig := mk_tost_config { tc_delta : f64; tc_alpha : f64 }.

Definition f64_half : f64 := f64_ratio 1 2.

(** A level below one half. *)
Definition half_level (alpha : f64) : bool := f64_lt f64_zero alpha && f64_lt alpha f64_half.

Definition validate_config (c : TostConfig) : ev unit :=
  _ ← reject_if (negb (f64_gt (tc_delta c) f64_zero && f64_is_finite (tc_delta c))) (Validation (lit "equivalence margin delta must be > 0 and finite"));
  reject_if (negb (half_level (tc_alpha c))) (Validation (lit "alpha must lie in (0, 0.5)")).

Record TostResult := mk_tost
  { point_estimate : f64; std_error : f64; to_df : f64; p_lower : f64; p_upper : f64; p_tost : f64; to_ci_lower : f64; to_ci_upper : f64;
    equivalent : bool; to_delta : f64; to_control_mean : f64; to_treatment_mean : f64 }.

Definition tost_from_moments (effect se df mean_c mean_t : f64) (c : TostConfig) : ev TostResult :=
  t_dist ← get_distribution (students_t df);
  let t_lower := f64_div (f64_add effect (tc_delta c)) se in
  _ ← check t_lower;
  let p_lower := f64_sub f64_one (cdf t_dist t_lower) in
  _ ← check p_lower;
  let t_upper := f64_div (f64_sub effect (tc_delta c)) se in
  _ ← check t_upper;
  let p_upper := cdf t_dist t_upper in
  _ ← check p_upper;
  let t_crit := inverse_cdf t_dist (f64_sub f64_one (tc_alpha c)) in
  _ ← check t_crit;
  let half_width := f64_mul t_crit se in
  let ci_lower := f64_sub effect half_width in let ci_upper := f64_add effect half_width in
  _ ← check ci_lower; _ ← check ci_upper;
  let equivalent := f64_gt ci_lower (f64_neg (tc_delta c)) && f64_lt ci_upper (tc_delta c) in
  mret (mk_tost effect se df p_lower p_upper (f64_max p_lower p_upper) ci_lower ci_upper equivalent (tc_delta c) mean_c mean_t).

Definition tost_equivalence_test (control treatment : list f64) (c : TostConfig) : ev TostResult :=
  _ ← validate_config c;
  _ ← two_groups control treatment;
  '(mean_c, mean_t, var_c, var_t) ← group_moments control treatment;
  let effect := f64_sub mean_t mean_c in
  _ ← check effect;
  '(se, df) ← welch_standard_error (f64_of_nat (length control)) (f64_of_nat (length treatment)) var_c var_t;
  tost_from_moments effect se df mean_c mean_t c.

Definition cuped_adjusted_samples (control_y treatment_y control_x treatment_x : list f64) : ev (list f64 * list f64) :=
  '(theta, mean_x) ← pooled_theta (control_y ++ treatment_y) (control_x ++ treatment_x);
  control_adj ← adjust_group theta mean_x (zip control_y control_x);
  treatment_adj ← adjust_group theta mean_x (zip treatment_y treatment_x);
  mret (control_adj, treatment_adj).

Definition tost_cuped_equivalence_test (control_y treatment_y control_x treatment_x : list f64) (c : TostConfig) : ev TostResult :=
  _ ← validate_config c;
  _ ← paired control_y treatment_y control_x treatment_x;
  _ ← two_groups control_y treatment_y;
  '(adj_control, adj_treatment) ← cuped_adjusted_samples control_y treatment_y control_x treatment_x;
  tost_equivalence_test adj_control adj_treatment c.

Record TostPowerConfig := mk_power_config { pc_delta : f64; true_difference : f64; variance : f64; pc_alpha : f64; power : f64 }.

(** [ceil] below 2 and its cast to [u64] are taken together: [ceil_usize] is below 2 exactly
    when the ceiling is. *)
Definition tost_sample_size (c : TostPowerConfig) : ev Z :=
  _ ← reject_if (f64_le (pc_delta c) f64_zero) (Validation (lit "equivalence margin delta must be > 0"));
  _ ← reject_if (f64_le (variance c) f64_zero) (Validation (lit "variance must be > 0"));
  _ ← reject_if (negb (half_level (pc_alpha c))) (Validation (lit "alpha must lie in (0, 0.5)"));
  _ ← reject_if (negb (f64_lt f64_zero (power c) && f64_lt (power c) f64_one)) (Validation (lit "power must lie in (0, 1)"));
  let abs_true := f64_abs (true_difference c) in
  _ ← reject_if (f64_ge abs_true (pc_delta c)) BadDifference;
  z ← get_distribution normal;
  let z_alpha := inverse_cdf z (f64_sub f64_one (pc_alpha c)) in
  _ ← check z_alpha;
  let beta := f64_sub f64_one (power c) in
  let z_beta := inverse_cdf z (f64_sub f64_one (if f64_eq abs_true f64_zero then f64_div beta f64_two else beta)) in
  _ ← check z_beta;
  let margin := f64_sub (pc_delta c) abs_true in
  let n_approx := f64_div (f64_mul (f64_mul f64_two (variance c)) (square (f64_add z_alpha z_beta))) (square margin) in
  _ ← check n_approx;
  let n_ceil := ceil_usize n_approx in
  mret (if (n_ceil <? 2)%Z then 2%Z else n_ceil).

Definition tost_achieved_power (std_error delta true_difference alpha : f64) : ev f64 :=
  _ ← reject_if (negb (f64_gt delta f64_zero && f64_is_finite delta)) (Validation (lit "equivalence margin delta must be > 0 and finite"));
  _ ← reject_if (negb (f64_gt std_error f64_zero && f64_is_finite std_error)) (Validation (lit "std_error must be > 0 and finite"));
  _ ← reject_if (negb (half_level alpha)) (Validation (lit "alpha must lie in (0, 0.5)"));
  _ ← check true_difference;
  z ← get_distribution normal;
  let z_alpha := inverse_cdf z (f64_sub f64_one alpha) in
  _ ← check z_alpha;
  let lower := f64_sub (f64_div (f64_sub delta true_difference) std_error) z_alpha in
  let upper := f64_sub (f64_div (f64_add delta true_difference) std_error) z_alpha in
  let power := f64_sub (f64_add (cdf z lower) (cdf z upper)) f64_one in
  _ ← check power;
  mret (f64_clamp power f64_zero f64_one).

(** ** The equivalence result of a metric *)

Record EquivalenceResult := mk_equivalence_result
  { eq_tost : TostResult; eq_control_mean : f64; eq_treatment_mean : f64; achieved_power : f64 }.

(** The margin after the resolution of [delta_relative], and the level after its default. *)
Definition effective_delta (cfg : EquivalenceTestConfig) (control_mean : f64) : f64 :=
  match delta_relative cfg with Some rel => f64_mul rel control_mean | None => Experiments.delta cfg end.
Definition effective_alpha (cfg : EquivalenceTestConfig) : f64 :=
  if f64_gt (Experiments.alpha cfg) f64_zero then Experiments.alpha cfg else f64_ratio 5 100.

(** The covariates that are there, and whether both groups have one for each observation. *)
Definition covariates (tuples : list (f64 * option f64)) : list f64 := omap snd tuples.
Definition use_cuped (control_values treatment_values control_covs treatment_covs : list f64) : bool :=
  (length control_covs =? length control_values) && (length treatment_covs =? length treatment_values) &&
  (2 <=? length control_covs) && (2 <=? length treatment_covs).

Definition tost_outcome (control_values treatment_values control_covs treatment_covs : list f64) (c : TostConfig) : ev TostResult :=
  if use_cuped control_values treatment_values control_covs treatment_covs
  then tost_cuped_equivalence_test control_values treatment_values control_covs treatment_covs c
  else tost_equivalence_test control_values treatment_values c.

(** A skipped test is [None]. *)
Definition compute_equivalence_result (cfg : EquivalenceTestConfig) (control_values treatment_values : list f64)
    (control_tuples treatment_tuples : list (f64 * option f64)) (control_mean : f64) : ev (option EquivalenceResult) :=
  let delta := effective_delta cfg control_mean in
  if negb (f64_is_finite delta) || f64_le delta f64_zero then mret None
  else
    let alpha := effective_alpha cfg in
    let c := mk_tost_config delta alpha in
    let control_covs := covariates control_tuples in let treatment_covs := covariates treatment_tuples in
    match tost_outcome control_values treatment_values control_covs treatment_covs c with
    | Ok r =>
        _ ← check_all [point_estimate r; std_error r; to_df r; p_lower r; p_upper r; p_tost r; to_ci_lower r; to_ci_upper r; to_delta r];
        let raw_treatment_mean := mean_of treatment_values in
        _ ← check control_mean; _ ← check raw_treatment_mean;
        achieved_power ←
          match tost_achieved_power (std_error r) (to_delta r) f64_zero alpha with
          | Err _ => mret f64_zero
          | p => p
          end;
        _ ← check achieved_power;
        mret (Some (mk_equivalence_result r control_mean raw_treatment_mean achieved_power))
    | Err _ => mret None
    | Panics => Panics
    | OutOfFuel => OutOfFuel
    end.
End distributions.

(** ** The e-process of the mixture design is the GROW martingale *)

(** The e-process after [t] uniformly assigned rewards. *)
Definition eprocess_at (sigma alpha : f64) (t : nat) (n : Z) (s : f64 * f64 * list f64) : MadEProcess :=
  mk_eprocess sigma alpha s.1.1 (Z.of_nat t) n s.1.2 s.2.

(** What a fallible computation of the one crate answers, seen from the other: a value or a
    panic. *)
Definition as_policy {A} (m : ev A) : policy A :=
  match m with Ok a => Ok a | Err _ => Err Internal | Panics => Panics | OutOfFuel => OutOfFuel end.

Lemma grow_step_update sigma alpha t n s x : (Z.of_nat (S t) < 2 ^ 64)%Z → f64_is_finite x = true →
  update_eprocess (eprocess_at sigma alpha t n s) x true =
  (s' ← as_policy (grow_step sigma t x s); mret (eprocess_at sigma alpha (S t) (u64_succ n) s')).
Proof.
  intros Ht Hx. destruct s as [[sum w] tr]. unfold update_eprocess, grow_step, assert_finite, eprocess_at, check.
  cbn [sigma_sq mad_alpha uniform_sum ep_n_uniform ep_n_total log_wealth trajectory fst snd]. rewrite Hx. cbn [assert_that mbind result_bind mret result_ret negb].
  replace (Z.of_nat t =? 0)%Z with (t =? 0) by lia. set (lambda := f64_div _ sigma).
  assert (u64_succ (Z.of_nat t) = Z.of_nat (S t)) as -> by (unfold u64_succ; rewrite Z.mod_small; lia).
  destruct (f64_is_finite lambda); [|done]. cbn [assert_that mbind result_bind mret result_ret]. set (inc := f64_sub _ _).
  destruct (f64_is_finite inc); [|done]. cbn [assert_that mbind result_bind mret result_ret].
  by destruct (f64_is_finite (f64_add w inc)).
Qed.

Lemma grow_loop_run sigma alpha observations : ∀ t n s, (Z.of_nat (t + length observations) < 2 ^ 64)%Z →
  Forall (λ x, f64_is_finite x = true) observations →
  run_eprocess (eprocess_at sigma alpha t n s) ((., true) <$> observations) =
  (s' ← as_policy (grow_loop sigma t observations s);
   mret (eprocess_at sigma alpha (t + length observations) (Nat.iter (length observations) u64_succ n) s')).
Proof.
  induction observations as [|x observations IH]; intros t n s Ht Hf; cbn [grow_loop run_eprocess length fmap list_fmap] in *.
  - cbn. by rewrite Nat.add_0_r.
  - inversion_clear Hf as [|?? Hx Hf']. rewrite grow_step_update by (done || lia). destruct (grow_step sigma t x s) as [s'| | |]; try done.
    cbn [as_policy mbind result_bind mret result_ret]. rewrite IH by (done || lia). by rewrite Nat.iter_succ_r, Nat.add_succ_comm.
Qed.

Lemma check_all_finite l : Forall (λ x, f64_is_finite x = true) l → check_all l = Ok tt.
Proof. induction 1 as [|x l Hx _ IH]; [done|]. cbn [check_all]. unfold check. by rewrite Hx. Qed.

Lemma uniform_part (observations : list (f64 * bool)) :
  filter (λ o, o.2 = true) observations = (., true) <$> (filter (λ o, o.2 = true) observations).*1.
Proof.
  induction observations as [|[x []] observations IH]; [done|rewrite filter_cons_True by done; cbn; by rewrite <- IH|by rewrite filter_cons_False by done].
Qed.

(** The e-process over any mixture of observations answers what the GROW martingale of the
    statistics crate answers on the rewards of the uniformly assigned ones: the same e-value,
    log-wealth, verdict and trajectory, and a panic where that one panics. *)
Theorem mixture_eprocess_is_grow exp sigma alpha e observations : new_eprocess sigma alpha = Ok e →
  Forall (λ o, f64_is_finite o.1 = true) observations → (Z.of_nat (length observations) < 2 ^ 64)%Z →
  filter (λ o, o.2 = true) observations ≠ [] →
  (e' ← run_eprocess e observations; r ← eprocess_result exp e';
   mret (mk_evalue (e_value r) (log_e_value r) (reject r) (log_wealth_trajectory r))) =
  as_policy (e_value_grow exp (filter (λ o, o.2 = true) observations).*1 sigma alpha).
Proof.
  intros He Hf Hlen Hne. assert (f64_le sigma f64_zero = false ∧ f64_le alpha f64_zero || f64_ge alpha f64_one = false ∧
    e = eprocess_at sigma alpha 0 0 (f64_zero, f64_zero, [])) as (Hs & Ha & ->).
  { revert He. unfold new_eprocess. destruct (f64_le sigma _); [done|]. destruct (_ || _); [done|]. by intros [= <-]. }
  rewrite bandit_observations_ignored by done.
  assert (length (filter (λ o, o.2 = true) observations).*1 ≤ length observations) as Hle by (rewrite length_fmap; apply length_filter).
  assert (Forall (λ x, f64_is_finite x = true) (filter (λ o, o.2 = true) observations).*1) as Hfu.
  { apply Forall_fmap. eapply Forall_forall. intros o Ho. apply list_elem_of_filter in Ho as [_ Ho]. rewrite Forall_forall in Hf. by apply Hf. }
  assert ((filter (λ o, o.2 = true) observations).*1 ≠ []) as Hne'.
  { intros Hn. apply Hne. by apply fmap_nil_inv in Hn. }
  rewrite uniform_part. set (us := (filter _ observations).*1) in *. rewrite <- list_fmap_compose. rewrite (list_fmap_ext _ id us), list_fmap_id by done.
  rewrite grow_loop_run by (done || lia). unfold e_value_grow, valid_level. rewrite bool_decide_eq_false_2 by done. rewrite Hs, Ha. cbn [reject_if mbind result_bind mret result_ret].
  rewrite check_all_finite by done. cbn [mbind result_bind].
  destruct (grow_loop sigma 0 us _) as [[[sum w] tr]| | |]; try done. cbn [as_policy mbind result_bind mret result_ret].
  unfold eprocess_result, eprocess_at, with_total, assert_finite, check. cbn [sigma_sq mad_alpha uniform_sum ep_n_uniform ep_n_total log_wealth trajectory fst snd].
  destruct (f64_gt w exp_limit); [done|]. by destruct (f64_is_finite (exp w)).
Qed.

Lemma check_all_no_err l e : check_all l ≠ Err e.
Proof. induction l as [|x l IH]; [done|]. cbn [check_all]. unfold check. by destruct (f64_is_finite x). Qed.

Lemma check_inv x u : check x = Ok u → f64_is_finite x = true.
Proof. unfold check. by destruct (f64_is_finite x). Qed.

(** An e-value that is answered is finite, and so is its logarithm; for the martingale there
    is one point of the trajectory per observation, the last of them the answer. *)
Lemma grow_loop_follows sigma observations : ∀ t s s', grow_loop sigma t observations s = Ok s' →
  f64_is_finite s.1.2 = true → default f64_zero (last s.2) = s.1.2 →
  f64_is_finite s'.1.2 = true ∧ default f64_zero (last s'.2) = s'.1.2 ∧ length s'.2 = length s.2 + length observations.
Proof.
  induction observations as [|x observations IH]; intros t s s' H Hf Hl; cbn [grow_loop length] in *.
  - injection H as <-. split_and!; [done|done|lia].
  - apply bind_ok_inv in H as (s1 & H1 & H). destruct s as [[sum w] tr]. unfold grow_step in H1. do 2 (apply bind_ok_inv in H1 as ([] & _ & H1)).
    apply bind_ok_inv in H1 as ([] & Hw & H1). injection H1 as <-. apply check_inv in Hw. apply IH in H as (? & ? & Hn); cbn [fst snd] in *; [|done|by rewrite last_snoc].
    split_and!; [done|done|]. rewrite Hn, length_app. cbn. lia.
Qed.

Theorem e_values_finite exp ln :
  (∀ observations sigma alpha r, e_value_grow exp observations sigma alpha = Ok r →
     f64_is_finite (ev_e_value r) = true ∧ f64_is_finite (ev_log_e_value r) = true ∧
     last (ev_trajectory r) = Some (ev_log_e_value r) ∧ length (ev_trajectory r) = length observations) ∧
  (∀ control_y treatment_y control_x treatment_x tau alpha r, e_value_avlm exp ln control_y treatment_y control_x treatment_x tau alpha = Ok r →
     f64_is_finite (ev_e_value r) = true ∧ f64_is_finite (ev_log_e_value r) = true ∧ ev_trajectory r = []).
Proof.
  split.
  - intros observations sigma alpha r. unfold e_value_grow. case_bool_decide as Hne; [done|]. cbn [reject_if mbind result_bind].
    intros H. do 3 (apply bind_ok_inv in H as (? & _ & H)). apply bind_ok_inv in H as ([[sum w] tr] & Hloop & H). apply bind_ok_inv in H as (v & Hv & H).
    injection H as <-. cbn [ev_e_value ev_log_e_value ev_trajectory]. apply grow_loop_follows in Hloop as (Hw & Hl & Hn); [|done..]. cbn [fst snd length] in *.
    split_and!; [|done| |done].
    + destruct (f64_gt w exp_limit); [by injection Hv as <-|]. apply bind_ok_inv in Hv as (? & Hc & Hv). injection Hv as <-. by eapply check_inv.
    + destruct (last tr) as [y|] eqn:E; [by cbn in Hl; subst|]. apply last_None in E. subst tr. by destruct observations.
  - intros cy ty cx tx tau alpha r. unfold e_value_avlm. intros H. apply bind_ok_inv in H as (? & _ & H). apply bind_ok_inv in H as ([d se] & _ & H).
    apply bind_ok_inv in H as (? & _ & H). apply bind_ok_inv in H as (? & Hl & H). apply bind_ok_inv in H as (? & He & H). injection H as <-.
    cbn [ev_e_value ev_log_e_value ev_trajectory]. split_and!; [by eapply check_inv|by eapply check_inv|done].
Qed.

(** Where the exponential overflows the martingale answers with [f64::MAX]; the mixture
    panics: 800 users per arm, of whom none and all convert, are enough. *)
Lemma mixture_overflow_panics exp ln :
  let y0 := replicate 800 f64_zero in let y1 := replicate 800 f64_one in
  let se := S754_finite false 5768212655944200 (-63) in
  (∀ x, f64_gt x (f64_of_Z 710) = true → exp x = S754_infinity false) →
  ln (f64_div se (f64_add se f64_one)) = S754_finite true 8306618067481101 (-50) →
  e_value_avlm exp ln y0 y1 y0 y0 f64_one (f64_ratio 5 100) = Panics ∧
  is_ok (e_value_grow exp (replicate 1600 f64_one) f64_one (f64_ratio 5 100)) = true.
Proof.
  cbv zeta. intros Hexp Hln. split.
  - unfold e_value_avlm.
    assert (avlm_validate (replicate 800 f64_zero) (replicate 800 f64_one) (replicate 800 f64_zero) (replicate 800 f64_zero) f64_one (f64_ratio 5 100) = Ok tt) as ->
      by (vm_compute; reflexivity).
    assert (avlm_adjust (replicate 800 f64_zero) (replicate 800 f64_one) (replicate 800 f64_zero) (replicate 800 f64_zero) =
            Ok (S754_finite false 4503599627370496 (-52), S754_finite false 5768212655944200 (-63))) as -> by (vm_compute; reflexivity).
    cbn [mbind result_bind]. change (reject_if (f64_le (S754_finite false 5768212655944200 (-63)) f64_zero) Degenerate) with (@Ok EvError unit tt).
    cbn [mbind result_bind]. rewrite Hln.
    lazymatch goal with |- context [check (exp ?x)] => assert (exp x = S754_infinity false) as -> by (apply Hexp; vm_compute; reflexivity) end. by vm_compute.
  - unfold e_value_grow. rewrite bool_decide_eq_false_2 by (by intros [=]).
    lazymatch goal with |- context [grow_loop ?s ?t ?o ?i] =>
      assert (match grow_loop s t o i with Ok (_, w, _) => f64_gt w exp_limit | _ => false end = true) as Hw by (vm_compute; reflexivity);
      assert (check_all o = Ok tt) as -> by (vm_compute; reflexivity);
      destruct (grow_loop s t o i) as [[[sum w] tr]| | |]; try discriminate Hw end.
    unfold valid_level. change (f64_le f64_one f64_zero) with false.
    change (f64_le (f64_ratio 5 100) f64_zero || f64_ge (f64_ratio 5 100) f64_one) with false. cbn [reject_if mbind result_bind mret result_ret]. by rewrite Hw.
Qed.

(** ** What the ratio check decides *)

(** A variant whose expected count can be divided by. *)
Definition usable (expected : gmap str f64) (total : f64) (variant_id : str) : Prop :=
  ∃ fraction, expected !! variant_id = Some fraction ∧ f64_is_finite (f64_mul fraction total) = true ∧
    f64_eq (f64_mul fraction total) f64_zero = false.

Definition expected_count (expected : gmap str f64) (total : f64) (variant_id : str) : f64 :=
  f64_mul (default S754_nan (expected !! variant_id)) total.

Definition statistic (expected : gmap str f64) (total : f64) (observed : list (str * Z)) (chi_sq : f64) : f64 :=
  fold_left (λ acc p, f64_add acc (chi_term (expected_count expected total p.1) p.2)) observed chi_sq.

Lemma chi_loop_ok expected total observed : ∀ chi_sq x, chi_loop expected total observed chi_sq = Ok x ↔
  Forall (λ p, usable expected total p.1) observed ∧ x = statistic expected total observed chi_sq.
Proof.
  induction observed as [|[v n] observed IH]; intros c x; cbn [chi_loop].
  - split; [by intros [= ->]|by intros [_ ->]].
  - rewrite Forall_cons. unfold usable at 1, check. cbn [statistic fold_left fst snd]. destruct (expected !! v) as [f|] eqn:Hv; cbn [mbind result_bind mret result_ret default].
    2:{ split; [done|]. intros [[(? & ? & _) _] _]. done. }
    destruct (f64_is_finite (f64_mul f total)) eqn:Ef; cbn [mbind result_bind].
    2:{ split; [done|]. intros [[(? & [= <-] & ? & _) _] _]. congruence. }
    destruct (f64_eq (f64_mul f total) f64_zero) eqn:Ez; cbn [reject_if mbind result_bind mret result_ret].
    { split; [done|]. intros [[(? & [= <-] & _ & ?) _] _]. congruence. }
    rewrite IH. unfold statistic. cbn [fold_left fst snd]. assert (expected_count expected total v = f64_mul f total) as -> by (unfold expected_count; by rewrite Hv).
    split; [intros [Hu ->]; split; [split; [by exists f|done]|done]|by intros [[_ Hu] ->]].
Qed.

(** The check answers exactly when there are two variants, a user, an expected count to divide
    by for every variant that was seen and a finite statistic; its statistic is then the
    chi-squared one, and a mismatch is a p-value below [alpha]. *)
Theorem srm_check_correct chi observed expected alpha r :
  let total := f64_of_Z (u64_sum observed.*2) in
  let x := statistic expected total observed f64_zero in
  srm_check chi observed expected alpha = Ok r ↔
  2 ≤ length observed ∧ u64_sum observed.*2 ≠ 0%Z ∧ Forall (λ p, usable expected total p.1) observed ∧ f64_is_finite x = true ∧
  ∃ cdf, chi (f64_of_Z (Z.of_nat (length observed - 1))) = Some cdf ∧
    r = mk_srm x (f64_sub f64_one (cdf x)) (f64_lt (f64_sub f64_one (cdf x)) alpha) observed expected.
Proof.
  cbv zeta. unfold srm_check. destruct (Nat.ltb_spec (length observed) 2); cbn [reject_if mbind result_bind mret result_ret]; [split; [done|lia]|].
  destruct (Z.eqb_spec (u64_sum observed.*2) 0); cbn [reject_if mbind result_bind mret result_ret]; [split; [done|naive_solver]|].
  split.
  - intros H'. apply bind_ok_inv in H' as (x & Hx & H'). apply chi_loop_ok in Hx as [Hu ->]. apply bind_ok_inv in H' as ([] & Hf & H'). apply check_inv in Hf.
    apply bind_ok_inv in H' as (cdf & Hc & H'). injection H' as <-. destruct (chi _) as [cdf'|]; [|done]. injection Hc as ->. split_and!; [lia|done..|]. by exists cdf.
  - intros (_ & _ & Hu & Hf & cdf & Hc & ->). rewrite (proj2 (chi_loop_ok _ _ _ _ _)) by done. cbn [mbind result_bind]. unfold check. rewrite Hf, Hc. done.
Qed.

Lemma sub_self x : f64_is_finite x = true → x ≠ S754_zero true → f64_sub x x = f64_zero.
Proof.
  destruct x as [[]| | |s m e]; try done. intros _ _. unfold f64_sub, SFsub. rewrite Z.min_id. unfold binary_normalize.
  by destruct s; cbn [cond_Zopp]; rewrite Z.sub_diag.
Qed.

(** A split that is exactly the expected one has statistic zero. *)
Lemma exact_split_zero expected total observed :
  Forall (λ p, expected_count expected total p.1 = f64_of_Z p.2 ∧ positive_finite (f64_of_Z p.2)) observed →
  statistic expected total observed f64_zero = f64_zero.
Proof.
  induction 1 as [|[v n] observed [He Hp] _ IH]; [done|]. unfold statistic in *. cbn [fold_left fst snd] in *. rewrite He. unfold chi_term.
  destruct (f64_of_Z n) as [| | |[] m e] eqn:E; try done. rewrite sub_self by done. exact IH.
Qed.

(** ** What [compute_analysis] makes of it *)

Lemma srm_verdict chi cdf observed expected alpha x : (2 <=? length observed) && negb (u64_sum observed.*2 =? 0)%Z = true →
  chi (f64_of_Z (Z.of_nat (length observed - 1))) = Some cdf →
  chi_loop expected (f64_of_Z (u64_sum observed.*2)) observed f64_zero = Ok x → f64_is_finite x = true →
  is_mismatch <$> srm_check chi observed expected alpha = Ok (f64_lt (f64_sub f64_one (cdf x)) alpha).
Proof.
  intros [Hl Ht]%andb_true_iff Hc Hx Hf. apply chi_loop_ok in Hx as [Hu ->]. erewrite (proj2 (srm_check_correct _ _ _ _ _)); [|split_and!; [lia|lia|done|done|by exists cdf]].
  done.
Qed.

(** It compares with a uniform split, whatever the experiment configured: nine tenths of the
    users in the arm that was to get nine tenths are a mismatch for it, and none for the check
    itself. An arm without any user is no variant for it: two arms of a three-way split pass. *)
Lemma compute_analysis_ignores_configuration chi cdf :
  chi (f64_of_Z 1) = Some cdf → f64_lt (f64_sub f64_one (cdf (f64_of_Z 6400))) (f64_ratio 1 1000) = true → cdf f64_zero = f64_zero →
  let counts := [(lit "control", 9000%Z); (lit "treatment", 1000%Z)] in
  let configured : gmap str f64 := {[lit "control" := f64_ratio 9 10; lit "treatment" := f64_ratio 1 10]} in
  let two_of_three := [(lit "control", 5000%Z); (lit "first", 5000%Z)] in
  is_mismatch <$> compute_analysis_srm chi counts = Ok true ∧
  is_mismatch <$> srm_check chi counts configured (f64_ratio 1 1000) = Ok false ∧
  is_mismatch <$> compute_analysis_srm chi two_of_three = Ok false.
Proof.
  intros Hchi Hcdf H0. cbv zeta. unfold compute_analysis_srm. split_and!.
  - rewrite (srm_verdict chi cdf _ _ _ (f64_of_Z 6400)); [by rewrite Hcdf|reflexivity|exact Hchi|vm_compute; reflexivity|reflexivity].
  - rewrite (srm_verdict chi cdf _ _ _ f64_zero); [by rewrite H0|reflexivity|exact Hchi|vm_compute; reflexivity|reflexivity].
  - rewrite (srm_verdict chi cdf _ _ _ f64_zero); [by rewrite H0|reflexivity|exact Hchi|vm_compute; reflexivity|reflexivity].
Qed.

Lemma mixture_eprocess_is_grow_witness :
  let exp (_ : f64) := f64_of_Z 2 in let level := f64_ratio 5 100 in
  let e := mk_eprocess f64_one level f64_zero 0 0 f64_zero [] in
  let o := [(f64_one, true); (f64_of_Z 100, false); (f64_one, true); (f64_neg f64_one, false)] in
  (e' ← run_eprocess e o; r ← eprocess_result exp e';
   mret (mk_evalue (e_value r) (log_e_value r) (reject r) (log_wealth_trajectory r))) =
  as_policy (e_value_grow exp [f64_one; f64_one] f64_one level) ∧
  is_ok (e_value_grow exp [f64_one; f64_one] f64_one level) = true.
Proof.
  cbv zeta. split; [|vm_compute; reflexivity].
  refine (mixture_eprocess_is_grow (λ _, f64_of_Z 2) f64_one (f64_ratio 5 100) _
            [(f64_one, true); (f64_of_Z 100, false); (f64_one, true); (f64_neg f64_one, false)] _ _ _ _);
    [vm_compute; reflexivity|repeat constructor|cbn; lia|discriminate].
Defined.

(** ** An equivalence that is declared *)

(** From the median up the quantiles of a Student distribution are doubles that are not
    negative. *)
Definition quantile_law (students_t : f64 → option Distribution) : Prop :=
  ∀ df d p, students_t df = Some d → f64_le f64_half p = true → valid_f64 p →
    valid_f64 (inverse_cdf d p) ∧ f64_le f64_zero (inverse_cdf d p) = true.

(** The effect is strictly inside the margin. *)
Definition inside (delta effect : f64) : bool := f64_lt (f64_neg delta) effect && f64_lt effect delta.

Lemma sqrt_positive x : f64_is_finite (f64_sqrt x) = true → f64_eq (f64_sqrt x) f64_zero = false → f64_le f64_zero (f64_sqrt x) = true.
Proof.
  unfold f64_sqrt. destruct x as [[]|[]| |[] m e]; try done. cbn [SFsqrt]. destruct (SFsqrt_core_binary 53 1024 (Zpos m) e) as [[q f] l] eqn:E.
  assert (0 ≤ q)%Z as Hq.
  { revert E. unfold SFsqrt_core_binary. lazymatch goal with |- context [Z.sqrtrem ?a] => pose proof (Z.sqrtrem_sqrt a) as Hs; destruct (Z.sqrtrem a) as [q' r] end. cbn [fst] in Hs.
    intros [= <- _ _]. rewrite Hs. apply Z.sqrt_nonneg. }
  pose proof (round_magnitude q f l Hq) as Hm. by destruct (binary_round_aux 53 1024 false q f l) as [[]|[]| |[] ? ?].
Qed.

(** The half width of the interval, when its ends are finite. *)
Lemma half_width_width t se effect : valid_f64 t → f64_le f64_zero t = true → f64_is_finite t = true →
  valid_f64 se → f64_le f64_zero se = true → f64_is_finite se = true →
  f64_is_finite (f64_sub effect (f64_mul t se)) = true → width (f64_mul t se).
Proof.
  intros Ht Ht0 Htf Hs Hs0 Hsf Hf. pose proof (mul_valid t se Ht Hs) as Hv. split; [done|].
  destruct t as [st| | |[] mt et], se as [ss| | |[] ms es]; try done.
  revert Hf Hv. unfold f64_mul. cbn [SFmul xorb]. pose proof (round_magnitude (Zpos (mt * ms)) (et + es) loc_Exact ltac:(lia)) as Hm.
  destruct (binary_round_aux 53 1024 false (Zpos (mt * ms)) (et + es) loc_Exact) as [[]|[]| |[] ? ?]; try done. by destruct effect as [[]|[]| |[]].
Qed.

Lemma tost_config_ok c : validate_config c = Ok tt ↔
  (f64_gt (tc_delta c) f64_zero = true ∧ f64_is_finite (tc_delta c) = true) ∧ f64_lt f64_zero (tc_alpha c) = true ∧ f64_lt (tc_alpha c) f64_half = true.
Proof.
  unfold validate_config, half_level. destruct (f64_gt (tc_delta c) f64_zero), (f64_is_finite (tc_delta c)), (f64_lt f64_zero (tc_alpha c)), (f64_lt (tc_alpha c) f64_half);
    cbn; naive_solver.
Qed.

Section sound.
Context (students_t : f64 → option Distribution) (normal : option Distribution) (Hlaw : quantile_law students_t).

Lemma tost_moments_sound effect se df mean_c mean_t c r : validate_config c = Ok tt → valid_f64 (tc_alpha c) → valid_f64 effect → f64_is_finite effect = true →
  valid_f64 se → f64_le f64_zero se = true → f64_is_finite se = true → tost_from_moments students_t effect se df mean_c mean_t c = Ok r →
  to_delta r = tc_delta c ∧ point_estimate r = effect ∧ (equivalent r = true → inside (tc_delta c) effect = true).
Proof.
  intros [_ [Ha0 Ha1]]%tost_config_ok Ha He Hef Hse Hse0 Hsef H. unfold tost_from_moments in H. apply bind_ok_inv in H as (d & Hd & H).
  do 4 (apply bind_ok_inv in H as ([] & _ & H)). apply bind_ok_inv in H as ([] & Ht & H). apply bind_ok_inv in H as ([] & Hlo & H). apply bind_ok_inv in H as ([] & _ & H).
  injection H as <-. cbn [to_delta point_estimate equivalent]. split; [done|]. split; [done|]. intros [Hl Hu]%andb_true_iff.
  unfold get_distribution in Hd. destruct (students_t df) as [d'|] eqn:Es; [|done]. injection Hd as ->. apply check_inv in Ht, Hlo.
  destruct (Hlaw df d (f64_sub f64_one (tc_alpha c)) Es) as [Hv H0]; [by apply half_complement|apply sub_valid; [by vm_compute|done]|].
  destruct (interval_around effect (f64_mul (inverse_cdf d (f64_sub f64_one (tc_alpha c))) se) He Hef) as [Hb Ht'].
  { by eapply half_width_width. }
  apply andb_true_iff. split; [by eapply f64_lt_le_trans|by eapply f64_le_lt_trans].
Qed.

Lemma tost_sound control treatment c r : valid_f64 (tc_alpha c) → tost_equivalence_test students_t control treatment c = Ok r →
  to_delta r = tc_delta c ∧ point_estimate r = f64_sub (mean_of treatment) (mean_of control) ∧ (equivalent r = true → inside (tc_delta c) (point_estimate r) = true).
Proof.
  intros Ha H. unfold tost_equivalence_test in H. apply bind_ok_inv in H as ([] & Hc & H). apply bind_ok_inv in H as (? & _ & H).
  apply bind_ok_inv in H as ([[[mc mt] vc] vt] & Hm & H). apply bind_ok_inv in H as ([] & Hef & H). apply check_inv in Hef. apply bind_ok_inv in H as ([se df] & Hse & H).
  unfold group_moments in Hm. do 4 (apply bind_ok_inv in Hm as ([] & ? & Hm)). injection Hm as <- <- <- <-.
  assert (valid_f64 se ∧ f64_le f64_zero se = true ∧ f64_is_finite se = true) as (Hs & Hs0 & Hsf).
  { unfold welch_standard_error in Hse. apply bind_ok_inv in Hse as ([] & Hf & Hse). apply check_inv in Hf. apply bind_ok_inv in Hse as ([] & Hz & Hse).
    apply bind_ok_inv in Hse as ([] & _ & Hse). injection Hse as <- _. destruct (f64_eq _ _) eqn:Ez; [done|]. split_and!; [|by apply sqrt_positive|done].
    apply sqrt_valid, add_valid; apply div_valid. }
  eapply tost_moments_sound in H as (Hd & Hp & Heq); [|done|done|apply sub_valid; apply div_valid|done..]. rewrite Hp. done.
Qed.

Lemma achieved_power_unit se delta d alpha p : tost_achieved_power normal se delta d alpha = Ok p → unit_interval p = true.
Proof.
  unfold tost_achieved_power. intros H. do 4 (apply bind_ok_inv in H as (? & _ & H)). apply bind_ok_inv in H as (z & _ & H). apply bind_ok_inv in H as (? & _ & H).
  apply bind_ok_inv in H as (? & Hf & H). injection H as <-. apply andb_true_iff. apply f64_clamp_bounds; [by eapply finite_is_number, check_inv|done].
Qed.

Lemma outcome_sound cv tv cc tc c t : valid_f64 (tc_alpha c) → tost_outcome students_t cv tv cc tc c = Ok t →
  to_delta t = tc_delta c ∧ (equivalent t = true → inside (tc_delta c) (point_estimate t) = true).
Proof.
  intros Ha Ht. unfold tost_outcome in Ht. destruct (use_cuped _ _ _ _); [|by apply tost_sound in Ht as (? & _ & ?)].
  unfold tost_cuped_equivalence_test in Ht. do 3 (apply bind_ok_inv in Ht as (? & _ & Ht)). apply bind_ok_inv in Ht as ([ac at_] & _ & Ht).
  by apply tost_sound in Ht as (? & _ & ?).
Qed.

(** What the STARTING gate accepts is a valid configuration of the test, once the margin is
    resolved. *)
Lemma accepted_config_valid cfg control_mean : equivalence_ok cfg →
  f64_gt (effective_delta cfg control_mean) f64_zero = true → f64_is_finite (effective_delta cfg control_mean) = true →
  validate_config (mk_tost_config (effective_delta cfg control_mean) (effective_alpha cfg)) = Ok tt.
Proof.
  intros (_ & Ha & _) H0 Hf. apply tost_config_ok. cbn [tc_delta tc_alpha]. split; [done|]. unfold effective_alpha.
  destruct Ha as [Hz|[Hp Hh]]; [|by rewrite Hp]. destruct (f64_gt (Experiments.alpha cfg) f64_zero) eqn:E; [|done].
  by destruct (Experiments.alpha cfg) as [[]|[]| |[]].
Qed.

End sound.

(** The test adjusts the samples as [cuped_adjust] does: where that answers, these are the
    samples whose means it reports. *)
Lemma tost_uses_cuped_samples normal control_y treatment_y control_x treatment_x alpha r :
  cuped_adjust normal control_y treatment_y control_x treatment_x alpha = Ok r →
  ∃ control_adj treatment_adj, cuped_adjusted_samples control_y treatment_y control_x treatment_x = Ok (control_adj, treatment_adj) ∧
    control_adjusted_mean r = mean_of control_adj ∧ treatment_adjusted_mean r = mean_of treatment_adj ∧
    adjusted_effect r = f64_sub (mean_of treatment_adj) (mean_of control_adj).
Proof.
  unfold cuped_adjust, cuped_adjusted_samples. intros H. do 6 (apply bind_ok_inv in H as (? & _ & H)). apply bind_ok_inv in H as ([theta mean_x] & -> & H).
  apply bind_ok_inv in H as (ca & Hc & H). apply bind_ok_inv in H as (ta & Ht & H). exists ca, ta. cbn [mbind result_bind]. rewrite Hc. cbn [mbind result_bind]. rewrite Ht.
  split; [done|]. do 7 (apply bind_ok_inv in H as (? & _ & H)). do 4 (apply bind_ok_inv in H as (? & _ & H)). by injection H as <-.
Qed.

(** A relative margin of a negative mean is negative, so the test is skipped, whatever the
    samples. *)
Lemma negative_baseline_skipped students_t normal level control_values treatment_values control_tuples treatment_tuples :
  compute_equivalence_result students_t normal (mk_equivalence f64_one (Some (f64_ratio 5 100)) level)
    control_values treatment_values control_tuples treatment_tuples (f64_of_Z (-100)) = Ok None.
Proof. reflexivity. Qed.

(** Finite observations whose variance overflows end the process. *)
Lemma huge_observations_panic students_t normal : let huge := [f64_of_Z (10 ^ 200); f64_of_Z (- 10 ^ 200)] in
  compute_equivalence_result students_t normal (mk_equivalence f64_one None f64_zero) huge huge [] [] f64_zero = Panics.
Proof. vm_compute. reflexivity. Qed.

(** A metric with a single value in all observations has no test. *)
Lemma constant_metric_refused students_t alpha : welch_ttest students_t [f64_one; f64_one] [f64_one; f64_one] alpha = Err NoVariance.
Proof. vm_compute. reflexivity. Qed.

