(* ===== verification/AdaptiveAnalysis.v ===== *)
(** Adaptive sample size, inverse propensity weighting, subgroup effects and clustered errors
    ([experimentation-stats/src/adaptive_n.rs], [ipw.rs], [cate.rs], [clustering.rs]) and the
    steps of [compute_analysis] over them ([experimentation-analysis/src/grpc.rs]).

    The distributions of [statrs] are parameters. The theorems say that the search for a
    sample size ends inside its bracket, rounding included, at a crossing of the target power;
    that the expectation in the subgroup errors never fails; and when an interim
    configuration ends the process. *)
From Stdlib Require Import Ascii String SpecFloat.
From S2P Require Import Prelude Bytes F64 F64Mono F64Sum Hash HashSpec Rng F64Order F64Round Experiments ExperimentsSpec Bandit MultipleComparison Mad DeltaReader SwitchbackAnalysis Inference.

Inductive AnalysisError :=
| Test (e : EvError) | Correction (e : StatError) | Invalid (message : str)
| SubgroupTooSmall (i : nat) (segment arm : str) (n : nat) | BadStandardError (i : nat) (se : f64) | BadProbability (p : f64)
| Lengths (effects standard_errors : nat) | NoDistribution | ZeroWeights | NegativeVariance | Singular.

Abbreviation an := (result AnalysisError).

Definition finite (x : f64) : an unit := if f64_is_finite x then Ok tt else Panics.
Fixpoint all_finite (l : list f64) : an unit := match l with [] => mret tt | x :: l => _ ← finite x; all_finite l end.

Definition level_ok (name : string) (x : f64) : an unit :=
  reject_if (f64_le x f64_zero || f64_ge x f64_one) (Invalid (lit name ++ lit " must be in (0, 1)")).

Definition em15 : f64 := f64_ratio 1 (10 ^ 15).

Section distributions.
Context (students_t : f64 → option Distribution) (chi : f64 → option Distribution) (normal : option Distribution).

Definition distribution (d : option Distribution) : an Distribution := match d with Some d => mret d | None => Err NoDistribution end.

(** ** Adaptive sample size *)

Inductive Zone := Favorable | Promising | Futile.

Definition zone_name (z : Zone) : str :=
  match z with Favorable => lit "favorable" | Promising => lit "promising" | Futile => lit "futile" end.

Record ZoneThresholds := mk_thresholds { favorable : f64; promising : f64 }.

Definition blinded_pooled_variance (all_observations : list f64) : an f64 :=
  _ ← reject_if (length all_observations <? 2) (Invalid (lit "blinded_pooled_variance requires at least 2 observations"));
  _ ← all_finite all_observations;
  let n_f := f64_of_nat (length all_observations) in
  let mean := f64_div (f64_sum all_observations) n_f in
  _ ← finite mean;
  let sum_sq := f64_sum ((λ x, square (f64_sub x mean)) <$> all_observations) in
  _ ← finite sum_sq;
  let variance := f64_div sum_sq (f64_sub n_f f64_one) in
  _ ← finite variance;
  _ ← reject_if (f64_lt variance f64_zero) NegativeVariance;
  mret variance.

Definition conditional_power (observed_effect blinded_sigma_sq n_max_per_arm alpha : f64) : an f64 :=
  _ ← reject_if (f64_le blinded_sigma_sq f64_zero) (Invalid (lit "blinded_sigma_sq must be positive"));
  _ ← reject_if (f64_le n_max_per_arm f64_zero) (Invalid (lit "n_max_per_arm must be positive"));
  _ ← level_ok "alpha" alpha;
  _ ← finite observed_effect; _ ← finite blinded_sigma_sq; _ ← finite n_max_per_arm;
  z ← distribution normal;
  let z_alpha_half := inverse_cdf z (f64_sub f64_one (f64_div alpha f64_two)) in
  _ ← finite z_alpha_half;
  let sigma_b := f64_sqrt blinded_sigma_sq in
  let ncp := f64_div (f64_mul observed_effect (f64_sqrt (f64_div n_max_per_arm f64_two))) sigma_b in
  _ ← finite ncp;
  let cp := f64_add (cdf z (f64_sub ncp z_alpha_half)) (cdf z (f64_sub (f64_neg ncp) z_alpha_half)) in
  _ ← finite cp;
  mret (f64_clamp cp f64_zero f64_one).

Definition zone_classify (cp : f64) (thresholds : ZoneThresholds) : an Zone :=
  _ ← finite cp;
  if negb (f64_lt (promising thresholds) (favorable thresholds)) then Panics
  else mret (if f64_ge cp (favorable thresholds) then Favorable else if f64_ge cp (promising thresholds) then Promising else Futile).

(** [f64::ceil]. *)
Definition f64_ceil (x : f64) : f64 :=
  match x with
  | S754_finite s m e =>
      if (0 <=? e)%Z then x
      else
        let v := (if s then - (Zpos m / 2 ^ (- e)) else - ((- Zpos m) / 2 ^ (- e)))%Z in
        if (v =? 0)%Z then S754_zero s else f64_of_Z v
  | _ => x
  end.

(** The bisection, [rounds] times at most; the upper end of what is left. *)
Fixpoint bisect (cp : f64 → an f64) (target_power : f64) (rounds : nat) (lo hi : f64) : an f64 :=
  match rounds with
  | 0 => mret hi
  | S rounds =>
      let mid := f64_mul f64_half (f64_add lo hi) in
      cp_mid ← cp mid;
      let '(lo, hi) := if f64_lt cp_mid target_power then (mid, hi) else (lo, mid) in
      if f64_lt (f64_sub hi lo) f64_half then mret hi else bisect cp target_power rounds lo hi
  end.

Definition required_n_for_power (observed_effect blinded_sigma_sq target_power alpha n_current_per_arm n_max_allowed : f64) : an f64 :=
  _ ← level_ok "target_power" target_power;
  _ ← reject_if (f64_le n_current_per_arm f64_zero) (Invalid (lit "n_current_per_arm must be positive"));
  _ ← reject_if (f64_le n_max_allowed n_current_per_arm) (Invalid (lit "n_max_allowed must be greater than n_current_per_arm"));
  _ ← finite observed_effect; _ ← finite blinded_sigma_sq;
  let cp n := conditional_power observed_effect blinded_sigma_sq n alpha in
  cp_current ← cp n_current_per_arm;
  if f64_ge cp_current target_power then mret n_current_per_arm
  else
    cp_max ← cp n_max_allowed;
    if f64_lt cp_max target_power then mret n_max_allowed
    else
      hi ← bisect cp target_power 64 n_current_per_arm n_max_allowed;
      mret (f64_min (f64_ceil hi) n_max_allowed).

Record AdaptiveNResult := mk_adaptive { blinded_variance : f64; ad_conditional_power : f64; zone : Zone; recommended_n_max : option f64 }.

Definition run_interim_analysis (all_interim_obs : list f64) (observed_effect n_max_per_arm alpha : f64) (thresholds : ZoneThresholds)
    (target_power n_max_allowed : f64) : an AdaptiveNResult :=
  blinded_variance ← blinded_pooled_variance all_interim_obs;
  cp ← conditional_power observed_effect blinded_variance n_max_per_arm alpha;
  zone ← zone_classify cp thresholds;
  recommended_n_max ←
    match zone with
    | Promising =>
        let n_current_per_arm := f64_div (f64_of_nat (length all_interim_obs)) f64_two in
        rec ← required_n_for_power observed_effect blinded_variance target_power alpha (f64_max n_current_per_arm f64_one) n_max_allowed;
        mret (Some rec)
    | _ => mret None
    end;
  mret (mk_adaptive blinded_variance cp zone recommended_n_max).

(** ** Inverse propensity weighting *)

Record IpwObservation := mk_ipw { ip_outcome : f64; ip_is_treatment : bool; ip_assignment_probability : f64 }.

Record IpwResult := mk_ipw_result
  { ip_effect : f64; ip_se : f64; ip_ci_lower : f64; ip_ci_upper : f64; ip_p_value : f64; n_observations : nat; n_clipped : nat;
    effective_sample_size : f64 }.

(** The loop: both groups with their clipped probabilities, and the number clipped. *)
Fixpoint ipw_groups (min_probability max_probability : f64) (observations : list IpwObservation)
    (treatment_obs control_obs : list (f64 * f64)) (n_clipped : nat) : an (list (f64 * f64) * list (f64 * f64) * nat) :=
  match observations with
  | [] => mret (treatment_obs, control_obs, n_clipped)
  | o :: observations =>
      let p := ip_assignment_probability o in
      _ ← finite (ip_outcome o); _ ← finite p;
      _ ← reject_if (f64_le p f64_zero || f64_gt p f64_one) (BadProbability p);
      (* the assertion of [f64::clamp] *)
      _ ← (if f64_le min_probability max_probability then Ok tt else Panics);
      let clipped := f64_clamp p min_probability max_probability in
      let n_clipped := if f64_gt (f64_abs (f64_sub clipped p)) em15 then S n_clipped else n_clipped in
      if ip_is_treatment o
      then ipw_groups min_probability max_probability observations (treatment_obs ++ [(ip_outcome o, clipped)]) control_obs n_clipped
      else ipw_groups min_probability max_probability observations treatment_obs (control_obs ++ [(ip_outcome o, clipped)]) n_clipped
  end.

Definition hajek_mean (obs : list (f64 * f64)) : an (f64 * list f64) :=
  let weights := (λ yp, f64_div f64_one yp.2) <$> obs in
  let sum_w := f64_sum weights in
  _ ← finite sum_w;
  _ ← reject_if (f64_lt (f64_abs sum_w) em15) ZeroWeights;
  let weighted_sum := f64_sum (zip_with (λ yp w, f64_mul yp.1 w) obs weights) in
  _ ← finite weighted_sum;
  let mean := f64_div weighted_sum sum_w in
  _ ← finite mean;
  mret (mean, weights).

Definition hajek_variance (obs : list (f64 * f64)) (mean : f64) (weights : list f64) : an f64 :=
  let sum_w := f64_sum weights in
  _ ← finite sum_w;
  let meat := f64_sum (zip_with (λ yp w, let resid := f64_sub yp.1 mean in f64_mul (f64_mul (f64_mul w w) resid) resid) obs weights) in
  _ ← finite meat;
  let var := f64_div meat (f64_mul sum_w sum_w) in
  _ ← finite var;
  mret var.

Definition ipw_estimate (observations : list IpwObservation) (alpha min_probability : f64) : an IpwResult :=
  _ ← reject_if (bool_decide (length observations = 0)) (Invalid (lit "observations must not be empty"));
  _ ← reject_if (f64_le alpha f64_zero || f64_ge alpha f64_one) (Invalid (lit "alpha must be in (0, 1) exclusive"));
  _ ← reject_if (f64_le min_probability f64_zero || f64_ge min_probability f64_half) (Invalid (lit "min_probability must be in (0, 0.5)"));
  '(treatment_obs, control_obs, n_clipped) ← ipw_groups min_probability (f64_sub f64_one min_probability) observations [] [] 0;
  _ ← reject_if (length treatment_obs =? 0) (Invalid (lit "no treatment observations provided"));
  _ ← reject_if (length control_obs =? 0) (Invalid (lit "no control observations provided"));
  '(mean_t, weights_t) ← hajek_mean treatment_obs;
  '(mean_c, weights_c) ← hajek_mean control_obs;
  let effect := f64_sub mean_t mean_c in
  _ ← finite effect;
  var_t ← hajek_variance treatment_obs mean_t weights_t;
  var_c ← hajek_variance control_obs mean_c weights_c;
  let var_effect := f64_add var_t var_c in
  _ ← finite var_effect;
  let se := f64_sqrt var_effect in
  _ ← finite se;
  dist ← distribution normal;
  let z := inverse_cdf dist (f64_sub f64_one (f64_div alpha f64_two)) in
  _ ← finite z;
  let ci_lower := f64_sub effect (f64_mul z se) in let ci_upper := f64_add effect (f64_mul z se) in
  _ ← finite ci_lower; _ ← finite ci_upper;
  let p_value :=
    if f64_lt se em15 then (if f64_lt (f64_abs effect) em15 then f64_one else f64_zero)
    else f64_mul f64_two (f64_sub f64_one (cdf dist (f64_abs (f64_div effect se)))) in
  _ ← finite p_value;
  let all_weights := weights_t ++ weights_c in
  let sum_w := f64_sum all_weights in
  let sum_w2 := f64_sum ((λ w, f64_mul w w) <$> all_weights) in
  let effective_sample_size := if f64_gt sum_w2 f64_zero then f64_div (f64_mul sum_w sum_w) sum_w2 else f64_zero in
  _ ← finite effective_sample_size;
  mret (mk_ipw_result effect se ci_lower ci_upper p_value (length observations) n_clipped effective_sample_size).

(** ** Subgroup effects *)

Record SubgroupInput := mk_subgroup { sg_segment : str; sg_control : list f64; sg_treatment : list f64 }.

Record SubgroupEffect := mk_subgroup_effect
  { se_segment : str; se_effect : f64; se_se : f64; se_ci_lower : f64; se_ci_upper : f64; se_p_value_raw : f64; se_p_value_adjusted : f64;
    se_is_significant : bool; se_n_control : nat; se_n_treatment : nat; se_control_mean : f64; se_treatment_mean : f64 }.

Record HeterogeneityTest := mk_heterogeneity
  { q_statistic : f64; het_df : f64; het_p_value : f64; i_squared : f64; heterogeneity_detected : bool }.

Record CateResult := mk_cate
  { global_ate : f64; global_se : f64; global_ci_lower : f64; global_ci_upper : f64; global_p_value : f64;
    subgroup_effects : list SubgroupEffect; heterogeneity : HeterogeneityTest; n_subgroups : nat; fdr_threshold : f64 }.

Fixpoint check_subgroups (i : nat) (subgroups : list SubgroupInput) : an unit :=
  match subgroups with
  | [] => mret tt
  | sg :: subgroups =>
      _ ← reject_if (length (sg_control sg) <? 2) (SubgroupTooSmall i (sg_segment sg) (lit "control") (length (sg_control sg)));
      _ ← reject_if (length (sg_treatment sg) <? 2) (SubgroupTooSmall i (sg_segment sg) (lit "treatment") (length (sg_treatment sg)));
      check_subgroups (S i) subgroups
  end.

(** The [expect] of [compute_welch_se]. *)
Definition compute_welch_se (control treatment : list f64) : an f64 :=
  let var_c := sample_variance control (mean_of control) in
  let var_t := sample_variance treatment (mean_of treatment) in
  match welch_standard_error (f64_of_nat (length control)) (f64_of_nat (length treatment)) var_c var_t with
  | Ok (se, _) => mret se
  | Err _ | Panics => Panics
  | OutOfFuel => OutOfFuel
  end.

(** The effect of a subgroup, with the two fields that are filled later. *)
Definition subgroup_effect (alpha : f64) (sg : SubgroupInput) : an SubgroupEffect :=
  ttest ← map_err Test (welch_ttest students_t (sg_control sg) (sg_treatment sg) alpha);
  se ← compute_welch_se (sg_control sg) (sg_treatment sg);
  mret (mk_subgroup_effect (sg_segment sg) (tt_effect ttest) se (tt_ci_lower ttest) (tt_ci_upper ttest) (tt_p_value ttest) f64_zero false
          (length (sg_control sg)) (length (sg_treatment sg)) (tt_control_mean ttest) (tt_treatment_mean ttest)).

Fixpoint each_subgroup (alpha : f64) (subgroups : list SubgroupInput) : an (list SubgroupEffect) :=
  match subgroups with
  | [] => mret []
  | sg :: subgroups => e ← subgroup_effect alpha sg; es ← each_subgroup alpha subgroups; mret (e :: es)
  end.

(** [p_values_adjusted[i]] and [rejected[i]]: an index past the end panics. *)
Fixpoint fill_adjusted (adjusted : list f64) (rejected : list bool) (effects : list SubgroupEffect) : an (list SubgroupEffect) :=
  match effects, adjusted, rejected with
  | [], _, _ => mret []
  | e :: effects, p :: adjusted, r :: rejected =>
      es ← fill_adjusted adjusted rejected effects;
      mret (mk_subgroup_effect (se_segment e) (se_effect e) (se_se e) (se_ci_lower e) (se_ci_upper e) (se_p_value_raw e) p r
              (se_n_control e) (se_n_treatment e) (se_control_mean e) (se_treatment_mean e) :: es)
  | _, _, _ => Panics
  end.

Fixpoint check_errors (i : nat) (standard_errors : list f64) : an unit :=
  match standard_errors with
  | [] => mret tt
  | se :: standard_errors => _ ← finite se; _ ← reject_if (f64_le se f64_zero) (BadStandardError i se); check_errors (S i) standard_errors
  end.

Definition cochran_q_test (effects standard_errors : list f64) (alpha : f64) : an HeterogeneityTest :=
  _ ← reject_if (negb (length effects =? length standard_errors)) (Lengths (length effects) (length standard_errors));
  _ ← reject_if (length effects <? 2) (Invalid (lit "Cochran Q requires at least 2 studies"));
  _ ← level_ok "alpha" alpha;
  _ ← check_errors 0 standard_errors;
  let weights := (λ se, f64_div f64_one (f64_mul se se)) <$> standard_errors in
  _ ← all_finite weights;
  let sum_w := f64_sum weights in
  _ ← finite sum_w;
  _ ← all_finite effects;
  let weighted_sum := f64_sum (zip_with f64_mul weights effects) in
  _ ← finite weighted_sum;
  let tau_bar := f64_div weighted_sum sum_w in
  _ ← finite tau_bar;
  let q := f64_sum (zip_with (λ w e, let dev := f64_sub e tau_bar in f64_mul (f64_mul w dev) dev) weights effects) in
  _ ← finite q;
  let df := f64_sub (f64_of_nat (length effects)) f64_one in
  p_value ← (if f64_eq q f64_zero then mret f64_one else chi_sq ← distribution (chi df); mret (f64_sub f64_one (cdf chi_sq q)));
  _ ← finite p_value;
  let i_squared := if f64_gt q f64_zero then f64_mul (f64_max (f64_div (f64_sub q df) q) f64_zero) (f64_of_Z 100) else f64_zero in
  _ ← finite i_squared;
  mret (mk_heterogeneity q df p_value i_squared (f64_lt p_value alpha)).

Definition analyze_cate (subgroups : list SubgroupInput) (alpha fdr : f64) : an CateResult :=
  _ ← reject_if (length subgroups <? 2) (Invalid (lit "CATE requires at least 2 subgroups"));
  _ ← level_ok "alpha" alpha;
  _ ← level_ok "fdr" fdr;
  _ ← check_subgroups 0 subgroups;
  let pooled_control := concat (sg_control <$> subgroups) in
  let pooled_treatment := concat (sg_treatment <$> subgroups) in
  global ← map_err Test (welch_ttest students_t pooled_control pooled_treatment alpha);
  results ← each_subgroup alpha subgroups;
  bh ← map_err Correction (benjamini_hochberg (se_p_value_raw <$> results) fdr);
  results ← fill_adjusted (p_values_adjusted bh) (rejected bh) results;
  heterogeneity ← cochran_q_test (se_effect <$> results) (se_se <$> results) alpha;
  global_se ← compute_welch_se pooled_control pooled_treatment;
  mret (mk_cate (tt_effect global) global_se (tt_ci_lower global) (tt_ci_upper global) (tt_p_value global) results heterogeneity
          (length subgroups) fdr).
(** ** Clustered errors *)

Record ClusteredObservation := mk_clustered { cl_value : f64; cluster_id : str; cl_is_treatment : bool }.

Record ClusteredSeResult := mk_clustered_se
  { naive_se : f64; cl_clustered_se : f64; design_effect : f64; naive_p_value : f64; clustered_p_value : f64 }.

(** The indices of each cluster, in order. *)
Definition cluster_set (observations : list ClusteredObservation) : gmap str (list nat) :=
  fold_left (λ m io, <[cluster_id io.2 := default [] (m !! cluster_id io.2) ++ [io.1]]> m) (imap pair observations) ∅.

Definition indicator (b : bool) : f64 := if b then f64_one else f64_zero.

(** The sums of the residuals of a cluster, and of its treated residuals. *)
Definition cluster_scores (observations : list ClusteredObservation) (residuals : list f64) (indices : list nat) : f64 * f64 :=
  fold_left (λ s i,
    let e := default S754_nan (residuals !! i) in
    let x := match observations !! i with Some o => indicator (cl_is_treatment o) | None => S754_nan end in
    (f64_add s.1 e, f64_add s.2 (f64_mul x e))) indices (f64_zero, f64_zero).

Definition meat_of (scores : list (f64 * f64)) : f64 * f64 * f64 :=
  fold_left (λ m s, let '(m00, m01, m11) := m in
    (f64_add m00 (f64_mul s.1 s.1), f64_add m01 (f64_mul s.1 s.2), f64_add m11 (f64_mul s.2 s.2))) scores (f64_zero, f64_zero, f64_zero).

(** The two-sided p-value of a coefficient. *)
Definition coefficient_p_value (beta_1 se df : f64) : an f64 :=
  if f64_gt se em15
  then
    let t_stat := f64_div beta_1 se in
    _ ← finite t_stat; t_dist ← distribution (students_t df);
    mret (f64_mul f64_two (f64_sub f64_one (cdf t_dist (f64_abs t_stat))))
  else mret (if f64_lt (f64_abs beta_1) em15 then f64_one else f64_zero).

(** [order] is the walk over the clusters. *)
Definition clustered_se (order : list str) (observations : list ClusteredObservation) : an ClusteredSeResult :=
  let n := length observations in
  _ ← reject_if (n <? 3) (Invalid (lit "need at least 3 observations for clustered SE"));
  _ ← reject_if (negb (existsb cl_is_treatment observations) || negb (existsb (λ o, negb (cl_is_treatment o)) observations))
        (Invalid (lit "need both treatment and control observations"));
  let clusters := cluster_set observations in
  let g := size clusters in
  _ ← reject_if (g <? 2) (Invalid (lit "need at least 2 clusters for clustered SE"));
  let n_f := f64_of_nat n in
  let treated := filter (λ o, cl_is_treatment o = true) observations in
  let n_t := f64_of_nat (length treated) in
  let n_c := f64_sub n_f n_t in
  let sum_y := f64_sum (cl_value <$> observations) in let sum_y_t := f64_sum (cl_value <$> treated) in
  _ ← finite sum_y; _ ← finite sum_y_t;
  let det := f64_mul n_t n_c in
  _ ← reject_if (f64_lt (f64_abs det) em15) Singular;
  let a00 := f64_div n_t det in let a01 := f64_div (f64_neg n_t) det in let a10 := f64_div (f64_neg n_t) det in let a11 := f64_div n_f det in
  _ ← finite a11;
  let beta_0 := f64_add (f64_mul a00 sum_y) (f64_mul a01 sum_y_t) in let beta_1 := f64_add (f64_mul a10 sum_y) (f64_mul a11 sum_y_t) in
  _ ← finite beta_0; _ ← finite beta_1;
  let residuals := (λ o, f64_sub (f64_sub (cl_value o) beta_0) (f64_mul beta_1 (indicator (cl_is_treatment o)))) <$> observations in
  _ ← all_finite residuals;
  let sse := f64_sum ((λ e, f64_mul e e) <$> residuals) in
  _ ← finite sse;
  let df := f64_sub n_f f64_two in
  let s2 := f64_div sse df in
  _ ← finite s2;
  let naive_var := f64_mul s2 a11 in
  _ ← finite naive_var;
  let naive_se := f64_sqrt naive_var in
  _ ← finite naive_se;
  let g_f := f64_of_nat g in
  let correction := f64_mul (f64_div g_f (f64_sub g_f f64_one)) (f64_div n_f df) in
  _ ← finite correction;
  let '(m00, m01, m11) := meat_of (cluster_scores observations residuals <$> omap (λ k, clusters !! k) order) in
  let m00 := f64_mul m00 correction in let m01 := f64_mul m01 correction in let m11 := f64_mul m11 correction in
  _ ← finite m11;
  let clustered_var :=
    f64_add (f64_add (f64_add (f64_mul (f64_mul a10 m00) a01) (f64_mul (f64_mul a10 m01) a11)) (f64_mul (f64_mul a11 m01) a01)) (f64_mul (f64_mul a11 m11) a11) in
  _ ← finite clustered_var;
  let clustered_var := f64_max clustered_var f64_zero in
  let clustered_se := f64_sqrt clustered_var in
  _ ← finite clustered_se;
  let design_effect := if f64_gt naive_var em15 then f64_div clustered_var naive_var else f64_one in
  _ ← finite design_effect;
  naive_p_value ← coefficient_p_value beta_1 naive_se df;
  _ ← finite naive_p_value;
  clustered_p_value ← coefficient_p_value beta_1 clustered_se (f64_sub g_f f64_one);
  _ ← finite clustered_p_value;
  mret (mk_clustered_se naive_se clustered_se design_effect naive_p_value clustered_p_value).

(** ** The steps of [compute_analysis] *)

Definition sorted_keys {A} (m : gmap str A) : list str := sort_strs (map_to_list m).*1.

(** A result that is skipped on an error, with a warning. *)
Definition skipped {A} (m : an A) : an (option A) :=
  match m with Ok a => mret (Some a) | Err _ => mret None | Panics => Panics | OutOfFuel => OutOfFuel end.

(** The rows of the two variants: [true] for the treatment. *)
Definition side (control_variant treatment_variant variant_id : str) : option bool :=
  if bool_decide (variant_id = treatment_variant) then Some true else if bool_decide (variant_id = control_variant) then Some false else None.

Definition compute_session_level_result (order : list str) (data : ExperimentMetrics) (metric_id control_variant treatment_variant : str) :
    an (option ClusteredSeResult) :=
  match session_data data !! metric_id with
  | None => mret None
  | Some rows =>
      let observations := omap (λ '(value, user_id, variant_id),
        b ← side control_variant treatment_variant variant_id; Some (mk_clustered value user_id b)) rows in
      if length observations <? 3 then mret None else skipped (clustered_se order observations)
  end.

Definition compute_ipw_result (data : ExperimentMetrics) (metric_id control_variant treatment_variant : str) (alpha : f64) : an (option IpwResult) :=
  match ipw_data data !! metric_id with
  | None => mret None
  | Some rows =>
      let observations := omap (λ '(value, variant_id, prob),
        b ← side control_variant treatment_variant variant_id; Some (mk_ipw value b prob)) rows in
      if length observations <? 2 then mret None else skipped (ipw_estimate observations alpha (f64_ratio 1 100))
  end.

Definition lifecycle_segment_to_proto (s : str) : Z :=
  if bool_decide (s = lit "TRIAL") then 1 else if bool_decide (s = lit "NEW") then 2
  else if bool_decide (s = lit "ESTABLISHED") then 3 else if bool_decide (s = lit "MATURE") then 4
  else if bool_decide (s = lit "AT_RISK") then 5 else if bool_decide (s = lit "WINBACK") then 6 else 0.

(** The segments with two observations in each of the two variants. *)
Definition subgroups_of (segments : gmap str (gmap str (list f64))) (control_variant treatment_variant : str) : list SubgroupInput :=
  omap (λ segment,
    variants ← segments !! segment;
    c ← variants !! control_variant; t ← variants !! treatment_variant;
    if (2 <=? length c) && (2 <=? length t) then Some (mk_subgroup segment c t) else None) (sorted_keys segments).

Record SegmentResult := mk_segment { seg_segment : Z; seg_effect : f64; seg_ci_lower : f64; seg_ci_upper : f64; seg_p_value : f64; seg_sample_size : Z }.

Definition segment_result (sg : SubgroupEffect) : SegmentResult :=
  mk_segment (lifecycle_segment_to_proto (se_segment sg)) (se_effect sg) (se_ci_lower sg) (se_ci_upper sg) (se_p_value_adjusted sg)
    (Z.of_nat (se_n_control sg + se_n_treatment sg)).

Definition compute_segment_results (data : ExperimentMetrics) (metric_id control_variant treatment_variant : str) (alpha : f64) : an (list SegmentResult) :=
  match segment_data data !! metric_id with
  | None => mret []
  | Some metric_segments =>
      let subgroups := subgroups_of metric_segments control_variant treatment_variant in
      if length subgroups <? 2 then mret []
      else r ← skipped (analyze_cate subgroups alpha alpha); mret (match r with Some r => segment_result <$> subgroup_effects r | None => [] end)
  end.

(** The smallest p-value so far, over the treatments of one metric. *)
Fixpoint cochran_variants (segments : gmap str (gmap str (list f64))) (control_variant : str) (alpha : f64) (variant_ids : list str)
    (min_p : f64) (found_any : bool) : an (f64 * bool) :=
  match variant_ids with
  | [] => mret (min_p, found_any)
  | variant_id :: variant_ids =>
      let subgroups := subgroups_of segments control_variant variant_id in
      if bool_decide (variant_id = control_variant) || (length subgroups <? 2)
      then cochran_variants segments control_variant alpha variant_ids min_p found_any
      else
        r ← skipped (analyze_cate subgroups alpha alpha);
        match r with
        | Some r =>
            let p := het_p_value (heterogeneity r) in
            cochran_variants segments control_variant alpha variant_ids (if f64_lt p min_p then p else min_p) true
        | None => cochran_variants segments control_variant alpha variant_ids min_p found_any
        end
  end.

Fixpoint cochran_metrics (data : ExperimentMetrics) (control_variant : str) (alpha : f64) (metric_ids : list str) (min_p : f64) (found_any : bool) : an (f64 * bool) :=
  match metric_ids with
  | [] => mret (min_p, found_any)
  | metric_id :: metric_ids =>
      let segments := default ∅ (segment_data data !! metric_id) in
      let variant_ids := match metrics data !! metric_id with Some m => sorted_keys m | None => [] end in
      '(min_p, found_any) ← cochran_variants segments control_variant alpha variant_ids min_p found_any;
      cochran_metrics data control_variant alpha metric_ids min_p found_any
  end.

Definition compute_experiment_cochran_q (data : ExperimentMetrics) (control_variant : str) (alpha : f64) : an f64 :=
  if bool_decide (segment_data data = ∅) then mret f64_zero
  else
    '(min_p, found_any) ← cochran_metrics data control_variant alpha (sorted_keys (segment_data data)) f64_MAX false;
    mret (if found_any : bool then min_p else f64_zero).

Record AdaptiveSampleSizeConfig := mk_adaptive_config
  { interim_fraction : f64; promising_zone_lower : f64; favorable_zone_lower : f64; max_extension_factor : f64 }.

Record AdaptiveNInterimResult := mk_interim { ai_zone : str; ai_conditional_power : f64; recommended_n_per_arm : f64; ai_blinded_variance : f64 }.

(** A value of the configuration, or its default when it is not positive. *)
Definition or_default (x d : f64) : f64 := if f64_gt x f64_zero then x else d.

Definition thresholds_of (cfg : AdaptiveSampleSizeConfig) : ZoneThresholds :=
  mk_thresholds (or_default (favorable_zone_lower cfg) (f64_ratio 90 100)) (or_default (promising_zone_lower cfg) (f64_ratio 30 100)).

(** One metric: [None] goes on with the next. A metric result is its metric and its absolute
    effect. *)
Definition interim_of (cfg : AdaptiveSampleSizeConfig) (variant_data : gmap str (list (f64 * option f64))) (control_variant metric_id : str)
    (metric_results : list (str * f64)) (alpha : f64) : an (option AdaptiveNInterimResult) :=
  match variant_data !! control_variant,
        match head (filter (λ k, k ≠ control_variant) (sorted_keys variant_data)) with Some k => variant_data !! k | None => None end with
  | Some control_vals, Some treatment_vals =>
      if (length control_vals <? 2) || (length treatment_vals <? 2) then mret None
      else
        let all_obs := control_vals.*1 ++ treatment_vals.*1 in
        let observed_effect := default f64_zero (snd <$> head (filter (λ r, r.1 = metric_id) metric_results)) in
        let n_current_per_arm := f64_of_nat (length control_vals `min` length treatment_vals) in
        let n_max_per_arm := f64_div n_current_per_arm (or_default (interim_fraction cfg) f64_half) in
        let n_max_allowed := f64_mul n_max_per_arm (or_default (max_extension_factor cfg) f64_two) in
        r ← (skipped (run_interim_analysis all_obs observed_effect n_max_per_arm alpha (thresholds_of cfg) (f64_ratio 80 100) n_max_allowed) : an (option AdaptiveNResult));
        mret (match r with
              | Some r => Some (mk_interim (zone_name (zone r)) (ad_conditional_power r) (default f64_zero (recommended_n_max r)) (blinded_variance r))
              | None => None
              end)
  | _, _ => mret None
  end.

Fixpoint first_interim (cfg : AdaptiveSampleSizeConfig) (data : ExperimentMetrics) (control_variant : str) (metric_results : list (str * f64)) (alpha : f64)
    (metric_ids : list str) : an (option AdaptiveNInterimResult) :=
  match metric_ids with
  | [] => mret None
  | metric_id :: metric_ids =>
      r ← interim_of cfg (default ∅ (metrics data !! metric_id)) control_variant metric_id metric_results alpha;
      match r with Some r => mret (Some r) | None => first_interim cfg data control_variant metric_results alpha metric_ids end
  end.

Definition compute_adaptive_n_result (data : ExperimentMetrics) (control_variant : str) (metric_results : list (str * f64)) (alpha : f64)
    (adaptive_config : option AdaptiveSampleSizeConfig) : an (option AdaptiveNInterimResult) :=
  match adaptive_config with
  | None => mret None
  | Some cfg => first_interim cfg data control_variant metric_results alpha (sorted_keys (metrics data))
  end.
End distributions.

(** ** The bracket of the search *)

Lemma value_le m e m' e' : canonical m e → canonical m' e' → (e' ≤ 971)%Z → (Zpos m * 2 ^ (e + 1074) ≤ Zpos m' * 2 ^ (e' + 1074))%Z →
  f64_le (S754_finite false m e) (S754_finite false m' e') = true.
Proof.
  intros Hc Hc' He' Hv. rewrite <- (round_exact m' e' Hc' He'). apply round_lower; [|destruct Hc'; lia|done|done].
  destruct Hc' as (H1 & H2 & H3). split; [lia|]. cbn [Zdigits2]. unfold fexp, emin. destruct (Z.eq_dec e' (-1074)); lia.
Qed.

(** A double from 1 on. *)
Lemma at_least_one_inv x : valid_f64 x → f64_is_finite x = true → f64_le f64_one x = true →
  ∃ m e, x = S754_finite false m e ∧ canonical m e ∧ (-52 ≤ e ≤ 971)%Z.
Proof.
  intros Hv Hf H1. change f64_one with (S754_finite false (2 ^ 52)%positive (-52)) in H1. destruct x as [[]| | |[] m e]; try done.
  destruct (valid_canonical _ _ _ Hv) as [Hc He]. exists m, e. apply f64_le_finite in H1. split_and!; [done|done|lia|done].
Qed.

Definition size_limit : f64 := f64_of_Z (2 ^ 64).

(** The midpoint of two sizes is between them, rounding included. *)
Lemma midpoint_between lo hi : valid_f64 lo → valid_f64 hi → f64_is_finite lo = true → f64_is_finite hi = true →
  f64_le f64_one lo = true → f64_le lo hi = true → f64_le hi size_limit = true →
  let mid := f64_mul f64_half (f64_add lo hi) in
  valid_f64 mid ∧ f64_is_finite mid = true ∧ f64_le lo mid = true ∧ f64_le mid hi = true.
Proof.
  intros Hvl Hvh Hfl Hfh H1 Hle Hlim. cbv zeta. rewrite f64_mul_comm.
  destruct (at_least_one_inv lo Hvl Hfl H1) as (l & el & -> & Hcl & Hel).
  destruct (at_least_one_inv hi Hvh Hfh (f64_le_trans _ _ _ H1 Hle)) as (h & eh & -> & Hch & Heh).
  assert (eh ≤ 12)%Z as Heh'.
  { assert (size_limit = S754_finite false (2 ^ 52) 12) as Hs by by vm_compute. rewrite Hs in Hlim. apply f64_le_finite in Hlim. lia. }
  assert (within h eh (f64_mul (f64_add (S754_finite false l el) (S754_finite false h eh)) (f64_ratio 1 2))) as [Hvm Hup].
  { apply midpoint_within; [done|lia|by split|split; [done|]]. apply f64_le_refl. done. }
  fold f64_half in Hvm, Hup |- *. set (mid := f64_mul _ f64_half) in *. split; [done|].
  assert (f64_le (S754_finite false l el) mid = true) as Hlow.
  { assert (canonical l (el + 1)) as Hcl' by (destruct Hcl as (? & ? & Hn); split_and!; [lia|done|intros _; apply Hn; lia]).
    pose proof (f64_le_finite _ _ _ _ Hle) as Hee. pose proof (le_value _ _ _ _ Hcl Hch Hle) as Hval. assert (0 < 2 ^ (el + 1074))%Z by (apply Z.pow_pos_nonneg; lia).
    assert (2 ^ (el + 1 + 1074) = 2 * 2 ^ (el + 1074))%Z as Hp by (rewrite <- Z.pow_succ_r by lia; f_equal; lia).
    assert (f64_le (S754_finite false l (el + 1)) (f64_add (S754_finite false l el) (S754_finite false h eh)) = true) as Hsum.
    { unfold f64_add. rewrite add_signed. cbn [cond_Zopp]. set (E := Z.min el eh). assert (-1074 ≤ E)%Z by (unfold E; lia).
      pose proof (aligned_units l el E ltac:(unfold E; lia)) as Ha. pose proof (aligned_units h eh E ltac:(unfold E; lia)) as Ha'.
      apply normalize_above; [done|lia|done|]. unfold units. cbn [cond_Zopp]. rewrite Hp, Z.mul_add_distr_r, Ha, Ha'. lia. }
    pose proof (add_valid _ _ Hvl Hvh) as Hvs. subst mid. destruct (f64_add _ _) as [[]|[]| |[] s es]; try done.
    apply valid_canonical in Hvs as [Hcs Hes]. pose proof (f64_le_finite _ _ _ _ Hsum) as Hexp. apply le_value in Hsum; [|done..].
    assert (f64_half = S754_finite false (2 ^ 52) (-53)) as -> by by vm_compute. unfold f64_mul. cbn [SFmul xorb].
    apply round_lower; [|lia|done|].
    - split; [lia|]. pose proof (product_digits_lower s (2 ^ 52)) as Hd. change (Zpos (digits2_pos (2 ^ 52))) with 53%Z in Hd. cbn [Zdigits2].
      destruct Hcs as (C1 & C2 & C3). specialize (C3 ltac:(lia)). unfold fexp, emin. lia.
    - rewrite Pos2Z.inj_mul. change (Zpos (2 ^ 52)) with (2 ^ 52)%Z. rewrite Hp in Hsum.
      assert (2 ^ (es + 1074) = 2 * 2 ^ 52 * 2 ^ (es + -53 + 1074))%Z as Hs2.
      { change (2 * 2 ^ 52)%Z with (2 ^ 53)%Z. rewrite <- Z.pow_add_r by lia. f_equal. lia. }
      rewrite Hs2 in Hsum. lia. }
  destruct mid as [[]|[]| |[] mm em]; try done.
Qed.

(** The ceiling is not below. *)
Lemma ceil_above x : valid_f64 x → f64_is_finite x = true → f64_le f64_one x = true → f64_le x (f64_ceil x) = true ∧ is_number (f64_ceil x).
Proof.
  intros Hv Hf H1. destruct (at_least_one_inv x Hv Hf H1) as (m & e & -> & Hc & He). unfold f64_ceil. destruct (Z.leb_spec 0 e) as [H0|H0].
  { split; [by apply f64_le_refl|done]. }
  set (v := (- ((- Zpos m) / 2 ^ (- e)))%Z). assert (0 < 2 ^ (- e))%Z as Hp by (apply Z.pow_pos_nonneg; lia).
  assert (Zpos m ≤ v * 2 ^ (- e))%Z as Hvm.
  { unfold v. pose proof (Z.mul_div_le (- Zpos m) (2 ^ (- e)) Hp). lia. }
  pose proof (canonical_digits _ _ Hc) as Hm.
  assert (v < 2 ^ 53)%Z as Hv53.
  { unfold v. pose proof (Z.div_mod (- Zpos m) (2 ^ (- e)) ltac:(lia)). pose proof (Z.mod_pos_bound (- Zpos m) (2 ^ (- e)) Hp).
    assert (2 ≤ 2 ^ (- e))%Z by (apply (Z.pow_le_mono_r 2 1); lia). change (2 ^ 53)%Z with 9007199254740992%Z in *. nia. }
  assert (0 < v)%Z as Hv0 by nia. rewrite (proj2 (Z.eqb_neq v 0)) by lia.
  destruct (of_Z_exact v ltac:(lia)) as (m' & e' & -> & Hd & He' & Hm'). split; [|done].
  assert (canonical m' e') as Hc' by (split_and!; [lia|unfold digits in Hd; lia|intros _; exact Hd]).
  apply value_le; [done|done|lia|]. rewrite Hm'. assert (0 < 2 ^ (e + 1074))%Z by (apply Z.pow_pos_nonneg; lia).
  replace (v * 2 ^ (- e') * 2 ^ (e' + 1074))%Z with (v * (2 ^ (- e') * 2 ^ (e' + 1074)))%Z by lia. rewrite <- Z.pow_add_r by lia.
  replace (- e' + (e' + 1074))%Z with (- e + (e + 1074))%Z by lia. rewrite (Z.pow_add_r 2 (- e)) by lia.
  rewrite Z.mul_assoc. apply Z.mul_le_mono_nonneg_r; [lia|done].
Qed.

(** What the bisection keeps: the target is reached at the upper end and not at the lower
    one, and the ends stay in order inside the bracket. *)
Lemma bisect_keeps cp target rounds : ∀ lo hi h, valid_f64 lo → valid_f64 hi → f64_is_finite lo = true → f64_is_finite hi = true →
  f64_le f64_one lo = true → f64_le lo hi = true → f64_le hi size_limit = true →
  (∃ c, cp lo = Ok c ∧ f64_lt c target = true) → (∃ c, cp hi = Ok c ∧ f64_lt c target = false) →
  bisect cp target rounds lo hi = Ok h →
  ∃ l cl ch, f64_le lo l = true ∧ f64_le l h = true ∧ f64_le h hi = true ∧ valid_f64 h ∧ f64_is_finite h = true ∧
    cp l = Ok cl ∧ f64_lt cl target = true ∧ cp h = Ok ch ∧ f64_lt ch target = false.
Proof.
  induction rounds as [|rounds IH]; intros lo hi h Hvl Hvh Hfl Hfh H1 Hle Hlim (cl & Hcl & Hl) (ch & Hch & Hh) H; cbn [bisect] in H.
  - injection H as <-. exists lo, cl, ch. split_and!; try done; apply f64_le_refl; by apply finite_is_number.
  - destruct (midpoint_between lo hi) as (Hvm & Hfm & Hlm & Hmh); [done..|]. set (mid := f64_mul f64_half _) in *.
    apply bind_ok_inv in H as (cm & Hcm & H). destruct (f64_lt cm target) eqn:Em.
    + assert (f64_le mid mid = true) as Hmm by by apply f64_le_refl, finite_is_number.
      destruct (f64_lt (f64_sub hi mid) f64_half).
      * injection H as <-. exists mid, cm, ch. split_and!; try done. apply f64_le_refl. by apply finite_is_number.
      * apply IH in H as (l & cl' & ch' & Ha & Hb & Hc & Hd); try done; [|by eapply f64_le_trans|by exists cm|by exists ch].
        exists l, cl', ch'. split_and!; try apply Hd; try done. by eapply f64_le_trans.
    + destruct (f64_lt (f64_sub mid lo) f64_half).
      * injection H as <-. exists lo, cl, cm. split_and!; try done. apply f64_le_refl. by apply finite_is_number.
      * apply IH in H as (l & cl' & ch' & Ha & Hb & Hc & Hd); try done; [|by eapply f64_le_trans|by exists cl|by exists cm].
        exists l, cl', ch'. split_and!; try apply Hd; try done. by eapply f64_le_trans.
Qed.

Lemma finite_inv x u : finite x = Ok u → f64_is_finite x = true.
Proof. unfold finite. by destruct (f64_is_finite x). Qed.

(** A power is a number, so it is below the target when it does not reach it. *)
Lemma conditional_power_below normal effect variance n alpha c target : conditional_power normal effect variance n alpha = Ok c →
  is_number target → f64_ge c target = false → f64_lt c target = true.
Proof.
  intros H Ht Hge. unfold conditional_power in H. do 6 (apply bind_ok_inv in H as (? & _ & H)). apply bind_ok_inv in H as (z & _ & H).
  do 2 (apply bind_ok_inv in H as (? & _ & H)). apply bind_ok_inv in H as (? & Hf & H). injection H as <-. apply finite_inv, finite_is_number in Hf.
  revert Hge. lazymatch goal with |- context [f64_clamp ?x ?a ?b] => assert (is_number (f64_clamp x a b)) as Hn by (by apply f64_clamp_number); generalize dependent (f64_clamp x a b) end.
  intros c Hn Hge. rewrite f64_lt_nle by done. change (negb (f64_ge c target) = true). by rewrite Hge.
Qed.

(** The size that is answered is inside the bracket, rounding included. It is the lower end
    where that reaches the target already, the upper end where that does not, and else the
    ceiling, within the bracket, of a size that reaches the target above one that does not. *)
Theorem required_n_bracket normal effect variance target alpha lo hi n : is_number target →
  valid_f64 lo → valid_f64 hi → f64_is_finite lo = true → f64_is_finite hi = true → f64_le f64_one lo = true → f64_le hi size_limit = true →
  let cp n := conditional_power normal effect variance n alpha in
  required_n_for_power normal effect variance target alpha lo hi = Ok n →
  f64_le lo n = true ∧ f64_le n hi = true ∧
  (n = lo ∧ (∃ c, cp lo = Ok c ∧ f64_ge c target = true) ∨
   n = hi ∧ (∃ c, cp hi = Ok c ∧ f64_lt c target = true) ∨
   ∃ l h cl ch, f64_le lo l = true ∧ f64_le l h = true ∧ f64_le h hi = true ∧
     cp l = Ok cl ∧ f64_lt cl target = true ∧ cp h = Ok ch ∧ f64_lt ch target = false ∧ n = f64_min (f64_ceil h) hi).
Proof.
  intros Htn Hvl Hvh Hfl Hfh H1 Hlim. cbv zeta. unfold required_n_for_power. intros H.
  apply bind_ok_inv in H as ([] & _ & H). apply bind_ok_inv in H as (? & _ & H). apply bind_ok_inv in H as ([] & Hord & H).
  do 2 (apply bind_ok_inv in H as (? & _ & H)). apply bind_ok_inv in H as (c & Hc & H).
  assert (f64_le lo hi = true) as Hle.
  { destruct (f64_le hi lo) eqn:E; [done|]. destruct (f64_le_total lo hi); [by apply finite_is_number..|done|congruence]. }
  destruct (f64_ge c target) eqn:Ec.
  { injection H as <-. split_and!; [by apply f64_le_refl, finite_is_number|done|by left; split; [done|exists c]]. }
  apply bind_ok_inv in H as (cm & Hcm & H). destruct (f64_lt cm target) eqn:Em.
  { injection H as <-. split_and!; [done|by apply f64_le_refl, finite_is_number|right; left; split; [done|by exists cm]]. }
  apply bind_ok_inv in H as (h & Hb & H). injection H as <-.
  assert (f64_lt c target = true) as Hlt by (by eapply conditional_power_below).
  apply bisect_keeps in Hb as (l & cl & ch & Ha & Hlh & Hhh & Hvhh & Hfhh & Hk); [|done..|by exists c|by exists cm].
  assert (f64_le lo h = true) as Hloh by exact (f64_le_trans _ _ _ Ha Hlh).
  destruct (ceil_above h Hvhh Hfhh (f64_le_trans _ _ _ H1 Hloh)) as [Hceil Hnum]. pose proof (finite_is_number _ Hfh) as Hhn.
  split_and!; [|by apply f64_min_lower|].
  - rewrite f64_min_cases by done. destruct (f64_lt hi (f64_ceil h)); [done|]. by eapply f64_le_trans.
  - right; right. exists l, h, cl, ch. by destruct Hk as (? & ? & ? & ?).
Qed.

(** A distribution with one step, from [low] to [1 - low] at [at_]. *)
Definition step_distribution (at_ low : f64) : Distribution :=
  mk_distribution (λ x, if f64_le at_ x then f64_sub f64_one low else low) (λ _, f64_zero).

(** The answer is not the smallest integral size that reaches the target: between 10 and 12.1
    the bisection ends at 11.05, whose ceiling is 12, although 11 reaches it. *)
Lemma required_n_not_smallest :
  let normal := Some (step_distribution (f64_ratio 23441 10000) (f64_ratio 1 10)) in
  let alpha := f64_ratio 5 100 in let target := f64_ratio 80 100 in
  match required_n_for_power normal f64_one f64_one target alpha (f64_of_Z 10) (f64_ratio 121 10) with Ok n => f64_eq n (f64_of_Z 12) | _ => false end = true ∧
  match conditional_power normal f64_one f64_one (f64_of_Z 11) alpha with Ok c => f64_ge c target | _ => false end = true.
Proof. cbv zeta. split; vm_compute; reflexivity. Qed.

(** ** Errors of subgroups *)

(** Where the t-test of a subgroup answers, the [expect] on its standard error holds, and the
    standard error is positive. *)
Lemma welch_se_answers students_t control treatment alpha r : welch_ttest students_t control treatment alpha = Ok r →
  ∃ se, compute_welch_se control treatment = Ok se ∧ f64_is_finite se = true ∧ f64_le se f64_zero = false.
Proof.
  unfold welch_ttest, compute_welch_se. intros H. apply bind_ok_inv in H as (? & _ & H). apply bind_ok_inv in H as ([[[mc mt] vc] vt] & Hm & H).
  unfold group_moments in Hm. do 4 (apply bind_ok_inv in Hm as (? & _ & Hm)). injection Hm as <- <- <- <-.
  apply bind_ok_inv in H as ([se df] & Hse & _). rewrite Hse. exists se. split; [done|].
  unfold welch_standard_error in Hse. apply bind_ok_inv in Hse as ([] & Hf & Hse). apply check_inv in Hf. apply bind_ok_inv in Hse as ([] & Hz & Hse).
  apply bind_ok_inv in Hse as ([] & _ & Hse). injection Hse as <- _. split; [done|]. destruct (f64_eq _ f64_zero) eqn:Ez; [done|].
  pose proof (sqrt_positive _ Hf Ez) as H0. destruct (f64_sqrt _) as [[]|[]| |[] m e]; done.
Qed.

(** So the subgroups' effects are answered exactly when all their tests are, and the check of
    the standard errors in Cochran's test then holds. *)
Theorem subgroup_errors_positive students_t alpha subgroups i :
  (∀ es, each_subgroup students_t alpha subgroups = Ok es → check_errors i (se_se <$> es) = Ok tt ∧ se_segment <$> es = sg_segment <$> subgroups) ∧
  (Forall (λ sg, ∃ r, welch_ttest students_t (sg_control sg) (sg_treatment sg) alpha = Ok r) subgroups ↔
   ∃ es, each_subgroup students_t alpha subgroups = Ok es).
Proof.
  revert i. induction subgroups as [|sg subgroups IH]; intros i; cbn [each_subgroup].
  { split; [by intros es [= <-]|]. split; [by exists []|constructor]. }
  split.
  - intros es H. apply bind_ok_inv in H as (e & He & H). apply bind_ok_inv in H as (es' & Hes & H). injection H as <-.
    unfold subgroup_effect in He. apply bind_ok_inv in He as (r & Hr & He). apply map_err_ok in Hr. destruct (welch_se_answers _ _ _ _ _ Hr) as (se & Hse & Hf & H0).
    rewrite Hse in He. injection He as <-. destruct (IH (S i)) as [IH' _]. destruct (IH' es' Hes) as [Hc Hs]. cbn [fmap list_fmap check_errors se_se se_segment].
    unfold finite. rewrite Hf. cbn [mbind result_bind]. rewrite H0. cbn [reject_if mbind result_bind mret result_ret]. rewrite Hc. split; [done|]. by f_equal.
  - rewrite Forall_cons. destruct (IH i) as [_ IH']. rewrite IH'. split.
    + intros [(r & Hr) (es & Hes)]. destruct (welch_se_answers _ _ _ _ _ Hr) as (se & Hse & _). unfold subgroup_effect. rewrite Hr. cbn [map_err mbind result_bind].
      rewrite Hse. cbn [mbind result_bind mret result_ret]. rewrite Hes. by eexists.
    + intros (es & H). apply bind_ok_inv in H as (e & He & H). apply bind_ok_inv in H as (es' & Hes & _). split; [|by exists es'].
      unfold subgroup_effect in He. apply bind_ok_inv in He as (r & Hr & _). apply map_err_ok in Hr. by exists r.
Qed.

(** ** Interim configurations *)

(** Thresholds out of order end the process at any power. *)
Lemma unordered_thresholds_panic cp thresholds : f64_lt (promising thresholds) (favorable thresholds) = false → zone_classify cp thresholds = Panics.
Proof. intros H. unfold zone_classify, finite. rewrite H. by destruct (f64_is_finite cp). Qed.

(** A configuration that sets only the promising zone, above the default of the favorable
    one, is enough. *)
Lemma promising_above_default_panics normal metric_results :
  let cfg := mk_adaptive_config f64_zero (f64_ratio 95 100) f64_zero f64_zero in
  let sample := [(f64_of_Z 1, None); (f64_of_Z 2, None); (f64_of_Z 3, None)] in
  let d := step_distribution f64_zero (f64_ratio 1 10) in
  normal = Some d → filter (λ r, r.1 = lit "m") metric_results = [] →
  compute_adaptive_n_result normal
    (mk_experiment_metrics {[lit "m" := {[lit "control" := sample; lit "treatment" := sample]}]} ∅ ∅ ∅ ∅)
    (lit "control") metric_results (f64_ratio 5 100) (Some cfg) = Panics.
Proof.
  cbv zeta. intros -> Hr. unfold compute_adaptive_n_result. cbn [metrics].
  change (sorted_keys _) with [lit "m"]. cbn [first_interim]. unfold interim_of. rewrite Hr. vm_compute. reflexivity.
Qed.

(** The defaults of the zones: 0.9 and 0.3. *)
Lemma default_thresholds fraction factor : thresholds_of (mk_adaptive_config fraction f64_zero f64_zero factor) = mk_thresholds (f64_ratio 90 100) (f64_ratio 30 100).
Proof. reflexivity. Qed.

Lemma required_n_bracket_witness :
  let normal := Some (step_distribution (f64_ratio 23441 10000) (f64_ratio 1 10)) in
  let lo := f64_of_Z 10 in let hi := f64_ratio 121 10 in
  ∃ n, required_n_for_power normal f64_one f64_one (f64_ratio 80 100) (f64_ratio 5 100) lo hi = Ok n ∧ f64_le lo n = true ∧ f64_le n hi = true.
Proof.
  cbv zeta. set (normal := Some _).
  assert (∃ n, required_n_for_power normal f64_one f64_one (f64_ratio 80 100) (f64_ratio 5 100) (f64_of_Z 10) (f64_ratio 121 10) = Ok n) as [n Hn] by (eexists; vm_compute; reflexivity).
  exists n. destruct (required_n_bracket normal f64_one f64_one (f64_ratio 80 100) (f64_ratio 5 100) (f64_of_Z 10) (f64_ratio 121 10) n) as (Hl & Hh & _);
    [by vm_compute..|exact Hn|]. split; [exact Hn|]. split; [exact Hl|exact Hh].
Defined.
